(* ===== verification/_CoqProject ===== *)
-Q . S2P
Prelude.v
Bytes.v
Grow.v
CodeImage.v
Trace.v
Format.v
Coverage.v
SrcMap.v
OpenHash.v
Histogram.v
LwMap.v
ValTrace.v
RegSlice.v
DefUse.v
Slice.v
AddrChan.v
DfTarget.v
DfStep.v
DfWindow.v
DfMeas.v
DfGap.v
DfSound.v
Operands.v
BsScan.v
BsReplay.v
BsExact.v
BsLimits.v
Sha256.v
Json.v
Escape.v
Record.v
Blame.v
VmMap.v
Elf.v
SymTab.v
ElfImage.v
JitMap.v
GcMove.v
ObjId.v
Method.v
Helpers.v
Glob.v
Rng.v
Fuzz.v
MatchRef.v
Select.v
RunCase.v
Assert.v
Sched.v
Report.v
Descent.v
BsRecon.v
Ibs.v
IbsSurvey.v
BlockStep.v
Amd.v
SsBtf.v
HwRing.v
Stitch.v
TraceAuto.v
GHash.v
CallGraph.v
TreeFilter.v
CallTree.v
AutoRegion.v
