(* ===== verification/Prelude.v ===== *)
(** * asm-test: a verification development

    asm-test is a test framework for assembly routines written in C: a test
    runner ([src/asmtest.c]), an engine-neutral trace sink with its coverage
    reports ([src/trace.c]), a data-flow tier that turns a captured operand stream
    into a def-use graph and slices ([src/dataflow*.c]), tracing backends that
    feed these sinks, and a process spy ([cli/]).  This library models the parts
    that compute - the runner, the sinks, the data-flow tier, the reconstruction
    and indexing kernels of the tracers - as executable functions, and proves
    what they promise to each other and to the user.  Paths below are relative to
    the repository.

    ** How the code is represented

    A machine integer is a [Z] with the wrap of its width written where the code
    can wrap ([u64], [u32], [u16]; [+64] and the like).  An array is a list
    with its capacity beside it where the capacity matters; a null pointer is
    [None].  Operations are pure functions from the state before to the state
    after; an error path is a value ([option] or a return code).  [malloc] and
    its kin are the parameter [grant : allocator], so every theorem says what it
    needs of memory: most hold for every allocator, some say what happens when
    memory is refused.  [qsort] is any function satisfying the class [QSort].
    Unbounded loops take fuel; [None] is then a loop that did not end, and the
    theorems prove that the fuel passed by the definitions is enough: 65 rounds
    for a doubling of a 64-bit capacity, the table length for a probe, the
    number of steps for a search, the pattern and string lengths for the glob
    matcher, the region length for the terminator scan and the branch replay, the
    ring's length for its records, the source's length for the escaper, the bytes
    asked for in a word-by-word read, the length of the set for its binary search,
    twice the events plus two for the rounds of the scoped step loop, the extent's
    length plus one for a sweep, the code's own bound of its length plus five for
    the rounds of a replayed block.

    ** Files, parts and theorems

    - [Prelude]: integers, allocator, [qsort], de-duplication, sorting and list
      lemmas, hints, tactics.  [Grow]: [src/asmtest_grow.h].  [Format]: the
      [printf] conversions.  [Bytes]: little-endian fields and reads that fail out
      of range.  [OpenHash]: linear probing over a power-of-two table, once for
      the hash tables of the program; [Histogram]: the counting tables on top of
      it, as a refinement of a tally.
    - [Trace], [Coverage], [SrcMap] ([src/trace.c]): the sink keeps what it is
      fed, in order, up to its capacity and says when it dropped something
      ([trace_sink_faithful]); the coverage and line reports count exactly what is
      missing; the attribution registry answers with the newest registration and
      an addition is all or nothing.
    - [ValTrace], [LwMap], [RegSlice], [DefUse], [Slice] ([src/dataflow.c]): the
      value-trace sink; the last-writer table refines a finite map; the register
      aliases overlap exactly as the hardware's; the def-use graph has an edge for
      each last writer of each byte read and no other ([defuse_build_exact], end
      to end from the operand stream in [capture_defuse_exact]); slices are the
      transitive dependences, and the two directions are dual.
    - [AddrChan] ([include/asmtest_addr_channel.h]): producer and
      consumer as two processes that make their accesses to the shared ring one at a
      time, in any interleaving.  What the consumer copies is what was published,
      in order, less what a lapped ring lost and disclosed, as long as no drain
      overlaps a publication into a full ring ([channel_interleaved_exact]); one
      theorem shows the read torn where it does.
    - [DfTarget], [DfStep], [DfWindow] ([src/dataflow_ptrace.c], [src/xstate_hi16.h]):
      the live producer - what it reads of a stopped target, one step from its
      opening to its end, the at-risk set and the gap barrier, the scoped loop with
      its call-outs, the windowed survey from the attach to the detach.  The target
      is a record of what a stop shows ([target]), the kernel a script of events.
      [DfMeas] (a record says what the target held), [DfGap] (the at-risk set
      covers what was recorded and the barrier records what changed) and [DfSound]
      prove that code which is not recorded cannot fake a dependence: on every edge
      of a graph built from an unflagged trace, the bytes that the writing record
      itself names have the values that the reading record captured
      ([window_edges_carry_values], [callout_edges_carry_values]), and that a
      survey ends.  The hypothesis is that a recorded instruction changes the
      locations recorded before it only as the enumerator lists; three theorems
      show what is outside of it or of the code's reach: the upper half of a
      container, a true edge hidden, and, for every scoped capture, a signal taken for
      a return ([signal_passes_for_return]).
    - [Operands] ([src/dataflow_operands.c]): the enumerator lists the register sets
      and the explicit memory operands, compared with a specification in terms of
      the decoded operands alone ([operands_exact]), opens each decoder once,
      and keeps the promise [operands_ok] the live producer relies on, which gives
      the theorem from the attach to the graph ([live_edges_carry_values]).
    - [BsScan], [BsReplay] ([src/dataflow_blockstep.c]): the block-step producer - the
      gates, which say of a region exactly what its instructions are
      ([scan_gate_exact]), the two captures over one core, the canary, the recorded
      effects of system calls and of watched sites, the entry point.  [BsExact]: if
      the engine executes the region's own instructions as the processor does, and
      under the conditions on the run that [BsLimits] shows to be needed, the
      trace replayed from the stops of a block-stepped run is, byte for byte, the
      trace of the run stepped instruction by instruction ([replay_exact]).
      [BsLimits]: what each return code means whatever engine, decoder and kernel
      do ([run_outcomes]), and five theorems on where a right engine is not enough:
      a test of flags, a branch to the next instruction, an entry without a jump, a
      limit, a signal.
    - [GcMove], [ObjId], [Method], [Helpers] ([src/dataflow_gcmove.c],
      [_objid.c], [_method.c], [_helpers.c]): canonical addresses and object keys
      are object identity under a moving collector, against specifications that speak
      of the bytes an object held before and after each move; attribution to the newest
      method version; the summarized graph is the graph of the trace with each
      helper run replaced by its contract.
    - [Rng], [MatchRef], [Select], [RunCase], [Assert], [Sched], [Report]
      ([src/asmtest.c]): ranged draws and ULP distances; differential testing and
      its shrinker; filter, shards, repetition and shuffle select what they say;
      the outcome of one test and of a forked child; the memory and register
      assertions hold exactly when they should and say what differs
      ([mem_eq_exact], [abi_assertion_exact]), guard pages guard and are given back
      ([guard_pages_exact]); the parallel scheduler
      finalizes every test once with the result a serial run gives, whatever the
      kernel does ([run_parallel_complete]); reports account for every result and
      the exit status is right.
    - [Glob] ([src/glob_match.c]): the backtracking matcher decides the
      declarative semantics of patterns, for every pattern and string.
    - [Descent] ([src/descent.c]), [BsRecon] ([src/bs_recon.c]), [GHash] and
      [CallGraph] ([cli/asmspy_ghash.h], the graph builder of
      [cli/asmspy_engine.c]): a descent handle that is not flagged truncated is
      complete; the block-step scanner never names a branch that another static
      branch could replace; the call graph is the tally of the calls counted,
      indexed or not.
    - [Amd], [SsBtf], [HwRing], [Stitch] ([src/amd_backend.c], [src/ss_btf.c],
      [src/hwtrace.c]): replaying the branch records of a run gives the run's
      instructions and blocks ([amd_replay_exact]), also from windows glued at
      their overlaps and from the trap stops of branch stepping; the capture ring
      is parsed within its bounds and the window it keeps is the best one; slices
      of several threads merge by time without loss.  One theorem shows a call out
      of the region taken for its exit.
    - [Ibs], [IbsSurvey] ([src/ibs_backend.c]): whatever bytes the kernel's ring
      holds, a drain reads inside it and ends ([ibs_drain_in_bounds]); a survey of
      a process over many rings that wrap, with threads found on the way, returns
      the histogram of the taken branches the kernel wrote, sorted, with its loss
      counters ([survey_process_exact]); the block set is the distinct targets
      with summed entries.  One theorem shows the software-clock lane erasing the
      other lane's reason.
    - [BlockStep] (the block-step tier of [src/ptrace_backend.c]): a call captured
      one stop per taken branch and not flagged is the instructions it ran, but for
      the ambiguity of an indirect branch that [bs_recon.h] documents
      ([blockstep_exact]); the pre-cover cache changes nothing where the cached
      runs end in an always-taken branch ([precover_equiv]), and one theorem shows
      it claiming more than a fresh scan where they do not.
    - [TraceAuto] ([src/trace_auto.c]): the backend chosen is the first of the
      cascade that is available and allowed, and an escalated call never reports
      more than the tier that ran it.
    - [CodeImage] ([src/codeimage.c]): the bytes answered for a time are the bytes
      the region held then ([codeimage_time_travel]), over the kernel's dirty
      bits; one theorem shows a change lost when memory is refused.
    - [Fuzz] ([src/fuzz.c]): every corpus entry adds the coverage it was kept for,
      and a mutant counted as killed is distinguished by some input.
    - [Sha256], [Json], [Escape], [Record], [Blame] ([cli/asmtrace_sha256.h],
      [cli/asmtrace_ndjson.c], [emit_blame] of [tools/asmtrace_record.c]): the
      digest of a stream is SHA-256 of the bytes fed however they are cut; any
      bytes escape to well-formed UTF-8 and read back; a recording that was
      written without error parses line by line to the header, the events and the
      footer ([recording_roundtrip]); the blame event carries exactly the
      transitive dependences of a step.  [Json] is the specification: values,
      their canonical text and a reader.  One theorem shows a long cone cut into a
      line nobody can read.
    - [TreeFilter], [CallTree] ([cli/asmspy_treefilter.h], [asmspy_engine_tree] of
      [cli/asmspy_engine.c]): whatever the other threads do, the lines of a thread
      are the calls it made, at their true depth and under the function in focus, if
      the thread is fresh and no signal comes between a call and its retirement
      ([tree_exact]); two theorems show a direct call doubled by a signal and the
      focus lost by a fork.
    - [AutoRegion] ([cli/asmspy_autoregion.h]): the ranking counts entries and does
      not depend on the order of the samples; the walk over the candidates keeps
      the first one entered.
    - [VmMap] ([cli/asmspy_vmmap.h]): the kernel's map is read back and ranked before
      it is capped, the event is written whole or not at all, and the digest is
      taken of bytes that determine the map.
    - [Elf], [SymTab], [ElfImage], [JitMap] (the resolvers of [cli/asmspy_proc.c]):
      every read of an ELF file is inside of it ([symtab_load_in_bounds]) but for
      one wrapping check; the symbols loaded are the image's functions at their
      run-time addresses ([module_symbols_exact], [ElfImage] being the
      specification of an image); a debug file is used only if its identity was
      verified; the code a runtime dumps is replayed with its moves
      ([jitdump_read_exact]) and, where extents do not overlap, named after a bounded
      number of misses.  Theorems
      show a replaced executable read from the wrong file and a stale entry hiding
      a method.

    Interfaces between parts: [operands_ok] ([DfSound]) for what the live producer
    needs of the enumerator, [Capstone] ([Operands]) for what the enumerator asks
    the decoder, [Disasm] ([BsScan]) for the block-step producer's own decoder,
    [Unicorn] ([BsReplay]) with its laws [UnicornOk] ([BsExact]) for the emulator, [mmap_ok] ([Assert]) for what [mmap] promises, [QSort] for the C library's sort, [Decoder]
    ([BsRecon]) and [Disas] ([BlockStep]) for the disassembly layer, [Slot] with
    its laws [SlotLaws] ([Histogram]) for the cells of a counting table, [world]
    ([IbsSurvey]) for what the kernel opens and shows of each ring at each round, [Emulator] ([Fuzz]) for the engine that
    runs a routine, [Kernel] with its laws [KernelOk] ([CodeImage]) for memory and
    dirty bits, [tbl_wf] and its lemmas ([OpenHash]) for the hash tables, and the
    sections of [Sched], [Select], [MatchRef] and [TraceAuto] for the operating
    system, the platform's glob, the routine under test and the outcome of each
    tier; [CallTree] and [AutoRegion] take the symbol resolver as an argument,
    [SymTab] and [JitMap] the demangler, the file system and the clock.  A
    stdio stream ([Record]) is the bytes written, the room left and the error
    indicator.

    ** Not modelled

    The emulator, assembler and disassembler wrappers (Unicorn, Keystone,
    Capstone), the opening and mapping of perf events, MSR access, the DynamoRIO
    clients, the Windows layer, the terminal and desktop front ends, the language
    bindings, benchmarks, option parsing, the CPU probes: they are calls into
    systems outside the repository, or glue.  Of the ptrace backends the block-step
    tracer and the live and block-step data-flow producers are modelled; the
    single-step, descent and whole-window drivers of [src/ptrace_backend.c], the
    in-process stepper [src/ss_backend.c], the thread seizing of
    [src/dataflow_ptrace.c] and the mapping, forking and probing of
    [src/dataflow_blockstep.c] are not: they repeat the loops modelled here around other kernel requests.
    The sort and layout helpers of the terminal views are not modelled.  Freed
    memory has no state in the model, so double frees and leaks are out of its
    reach, and so are sibling threads that write to a surveyed target. *)
From stdpp Require Export base tactics list option strings gmap sorting.
From Stdlib Require Export ZArith Lia.
#[export] Set Warnings "-clear-no-such-hyp".

(** * Machine-width integers

    [size_t] and [uint64_t] are 64-bit (the code targets LP64 hosts), [uint32_t]
    is 32-bit and [uint16_t] is 16-bit.  A value is a [Z] and every
    arithmetic operation of the source that may leave the range is followed by
    the wrap below. *)
(** [lia] with the Euclidean equations of the divisions in the goal. *)
Ltac dlia := Z.to_euclidean_division_equations; lia.

Declare Scope asm_scope.
Delimit Scope asm_scope with asm.
Open Scope Z_scope.

Definition u64 (x : Z) : Z := x mod 2 ^ 64.
Definition u32 (x : Z) : Z := x mod 2 ^ 32.
Definition u16 (x : Z) : Z := x mod 2 ^ 16.
Definition SIZE_MAX : Z := 2 ^ 64 - 1.
Definition UINT32_MAX : Z := 2 ^ 32 - 1.

Notation "x +64 y" := (u64 (x + y)) (at level 50, left associativity) : asm_scope.
Notation "x -64 y" := (u64 (x - y)) (at level 50, left associativity) : asm_scope.
Notation "x *64 y" := (u64 (x * y)) (at level 40, left associativity) : asm_scope.
Open Scope asm_scope.

(** The range predicates the well-formedness invariants use. *)
Definition is_u64 (x : Z) : Prop := 0 <= x < 2 ^ 64.
Definition is_u32 (x : Z) : Prop := 0 <= x < 2 ^ 32.

#[global] Instance is_u64_dec x : Decision (is_u64 x) := _.
#[global] Instance is_u32_dec x : Decision (is_u32 x) := _.

Lemma u64_range x : 0 <= u64 x < 2 ^ 64.
Proof. apply Z.mod_pos_bound. lia. Qed.
Lemma u32_range x : 0 <= u32 x < 2 ^ 32.
Proof. apply Z.mod_pos_bound. lia. Qed.
Lemma u64_small x : 0 <= x < 2 ^ 64 → u64 x = x.
Proof. apply Z.mod_small. Qed.
Lemma u32_small x : 0 <= x < 2 ^ 32 → u32 x = x.
Proof. apply Z.mod_small. Qed.
Lemma u64_u64 x : u64 (u64 x) = u64 x.
Proof. apply u64_small, u64_range. Qed.
Lemma u64_add_l x y : u64 (u64 x + y) = u64 (x + y).
Proof. unfold u64. rewrite Z.add_mod_idemp_l; lia. Qed.
Lemma u64_add_r x y : u64 (x + u64 y) = u64 (x + y).
Proof. unfold u64. rewrite Z.add_mod_idemp_r; lia. Qed.
Lemma u32_add_l x y : u32 (u32 x + y) = u32 (x + y).
Proof. unfold u32. rewrite Z.add_mod_idemp_l; lia. Qed.
Lemma u64_sub_l x y : u64 (u64 x - y) = u64 (x - y).
Proof. unfold u64. rewrite Zminus_mod_idemp_l; lia. Qed.

(** * The allocator

    [malloc], [calloc] and [realloc] are outside the repository.  Whether a
    request of a number of bytes is served is a parameter of every operation
    that allocates: [grant n = true] when the allocator returns memory. *)
Abbreviation allocator := (Z → bool).
Definition always : allocator := λ _, true.
Definition never : allocator := λ _, false.

(** [qsort] is the C library's: it permutes its argument into an order the
    comparator agrees with, and says nothing about the order of elements that
    compare equal.  A comparator is the source's [int]-valued function. *)
Class QSort {A : Type} (cmp : A → A → Z) (qsort : list A → list A) : Prop := {
  qsort_perm l : qsort l ≡ₚ l;
  qsort_sorted l : Sorted (λ x y, cmp x y <= 0) (qsort l);
}.

(** The comparator shape the sources use everywhere: [(x > y) - (x < y)]. *)
Definition cmp3 (x y : Z) : Z := Z.b2z (y <? x) - Z.b2z (x <? y).

Lemma cmp3_le x y : cmp3 x y <= 0 ↔ x <= y.
Proof. unfold cmp3. destruct (Z.ltb_spec y x), (Z.ltb_spec x y); simpl; lia. Qed.
Lemma cmp3_eq x y : cmp3 x y = 0 ↔ x = y.
Proof. unfold cmp3. destruct (Z.ltb_spec y x), (Z.ltb_spec x y); simpl; lia. Qed.

(** A sort that computes, for witnesses and for element types on which the
    sorted permutation is unique. *)
Section zsort.
Context {A : Type} (cmp : A → A → Z).
Definition cmp_le (x y : A) : Prop := cmp x y <= 0.
#[global] Instance cmp_le_dec x y : Decision (cmp_le x y).
Proof. unfold cmp_le. apply _. Defined.
Definition msort (l : list A) : list A := merge_sort cmp_le l.
Lemma msort_QSort : Total cmp_le → QSort cmp msort.
Proof.
  intros ?. split; intros l.
  - apply merge_sort_Permutation.
  - apply (Sorted_merge_sort cmp_le).
Qed.
End zsort.

(** * First-occurrence de-duplication

    Several sinks of the framework keep the distinct values of a stream in the
    order of their first appearance. *)
Section distinct.
Context {A : Type} `{EqDecision A}.

Definition snoc_new (acc : list A) (x : A) : list A :=
  if bool_decide (x ∈ acc) then acc else acc ++ [x].
Definition distinct (l : list A) : list A := foldl snoc_new [] l.

Lemma distinct_snoc l x : distinct (l ++ [x]) = snoc_new (distinct l) x.
Proof. unfold distinct. by rewrite foldl_app. Qed.

Lemma elem_of_snoc_new acc x y : y ∈ snoc_new acc x ↔ y ∈ acc ∨ y = x.
Proof. unfold snoc_new. case_bool_decide; set_solver. Qed.

Lemma elem_of_distinct l x : x ∈ distinct l ↔ x ∈ l.
Proof.
  induction l as [|y l IH] using rev_ind; [done|].
  rewrite distinct_snoc, elem_of_snoc_new, IH. set_solver.
Qed.

Lemma NoDup_snoc_new acc x : NoDup acc → NoDup (snoc_new acc x).
Proof.
  unfold snoc_new. case_bool_decide; [done|]. rewrite NoDup_app.
  intros. split_and!; [done|set_solver|apply NoDup_singleton].
Qed.

Lemma NoDup_distinct l : NoDup (distinct l).
Proof.
  induction l as [|y l IH] using rev_ind; [constructor|].
  rewrite distinct_snoc. by apply NoDup_snoc_new.
Qed.

Lemma distinct_NoDup l : NoDup l → distinct l = l.
Proof.
  induction l as [|y l IH] using rev_ind; [done|].
  rewrite NoDup_app. intros (?&Hn&?). rewrite distinct_snoc, IH by done.
  unfold snoc_new. case_bool_decide; [|done]. set_solver.
Qed.

Lemma length_distinct l : (length (distinct l) <= length l)%nat.
Proof.
  induction l as [|y l IH] using rev_ind; [done|].
  rewrite distinct_snoc, length_app. unfold snoc_new. case_bool_decide; [simpl; lia|].
  rewrite length_app. simpl. lia.
Qed.
End distinct.

(** * Filled prefixes of fixed buffers *)
Section buffers.
Context {A : Type}.
Implicit Types (buf : list A).

(** [buf[n] = x] extends the first [n] entries by one. *)
Lemma take_S_insert buf n x :
  (n < length buf)%nat → take (S n) (<[n := x]> buf) = take n buf ++ [x].
Proof.
  intros Hn. rewrite (take_S_r _ _ x) by (by apply list_lookup_insert_eq).
  by rewrite take_insert_ge.
Qed.

Lemma take_snoc_le n l (x : A) : (n <= length l)%nat → take n (l ++ [x]) = take n l.
Proof. intros. by rewrite take_app_le. Qed.

Lemma take_snoc_gt n l (x : A) : (length l < n)%nat → take n (l ++ [x]) = l ++ [x].
Proof. intros. rewrite take_ge; [done|]. rewrite length_app. simpl. lia. Qed.
End buffers.

(** * Counting and sorting *)
Lemma list_filter_fmap {A B} (f : A → B) (P : B → Prop) `{∀ x, Decision (P x)} (l : list A) :
  filter P (f <$> l) = f <$> filter (λ x, P (f x)) l.
Proof.
  induction l as [|x l IH]; [done|]. rewrite fmap_cons, !filter_cons.
  case_decide; [by rewrite fmap_cons, IH|done].
Qed.

(** What a boolean flag selects and what it leaves make up the list. *)
Lemma length_filter_flag {A} (f : A → bool) (l : list A) :
  (length (filter (λ x, f x = true) l) + length (filter (λ x, f x = false) l) = length l)%nat.
Proof.
  induction l as [|x l IH]; [done|]. rewrite !filter_cons.
  destruct (f x) eqn:E; [rewrite decide_True, decide_False|rewrite decide_False, decide_True];
    simpl; try done; lia.
Qed.

Lemma StronglySorted_le_lt (l : list Z) :
  StronglySorted Z.le l → NoDup l → StronglySorted Z.lt l.
Proof.
  induction 1 as [|x l Hs IH Hall]; [constructor|]. rewrite NoDup_cons. intros [Hn Hnd].
  constructor; [auto|]. rewrite Forall_forall in *. intros y Hy.
  specialize (Hall y Hy). destruct (Z.eq_dec x y) as [->|]; [done|lia].
Qed.

(** A [qsort] of a list no two elements of which compare equal is determined. *)
Lemma qsort_unique {A} (cmp : A → A → Z) (q : list A → list A) (key : A → Z) l :
  (∀ x y, cmp x y = cmp3 (key x) (key y)) → QSort cmp q →
  (∀ x y, x ∈ l → y ∈ l → key x = key y → x = y) →
  q l = msort cmp l.
Proof.
  intros Hkey HQ Hinj.
  assert (Total (cmp_le cmp)) by (intros x y; unfold cmp_le; rewrite !Hkey, !cmp3_le; lia).
  assert (Transitive (cmp_le cmp)) by (intros x y z; unfold cmp_le; rewrite !Hkey, !cmp3_le; lia).
  pose proof (qsort_perm (QSort := HQ) l) as Hp.
  pose proof (merge_sort_Permutation (cmp_le cmp) l) as Hp'.
  unfold msort. eapply (StronglySorted_unique_strong (cmp_le cmp)).
  - intros x y Hx Hy. unfold cmp_le. rewrite !Hkey, !cmp3_le. rewrite Hp in Hx.
    rewrite Hp' in Hy. intros ? ?. apply Hinj; [done..|lia].
  - apply Sorted_StronglySorted, qsort_sorted. done.
  - apply Sorted_StronglySorted, Sorted_merge_sort; done.
  - by rewrite Hp, Hp'.
Qed.

(** * Powers of two *)
Definition is_pow2 (n : Z) : Prop := ∃ k, 0 <= k ∧ n = 2 ^ k.

Lemma is_pow2_pos n : is_pow2 n → 0 < n.
Proof. intros (k & ? & ->). by apply Z.pow_pos_nonneg. Qed.

Lemma pow2_double n n' : is_pow2 n → is_pow2 n' → n < n' → 2 * n <= n'.
Proof.
  intros (i & ? & ->) (j & ? & ->) Hlt. rewrite <-Z.pow_succ_r by lia.
  apply Z.pow_le_mono_r; [lia|]. apply Z.le_succ_l, (Z.pow_lt_mono_r_iff 2); lia.
Qed.

Lemma Z_ones_sub k : 0 <= k → 2 ^ k - 1 = Z.ones k.
Proof. intros. rewrite Z.ones_equiv. lia. Qed.

(** Masking the low bits of a 64-bit number rounds it down. *)
Lemma land_align k x : 0 <= k <= 64 → 0 <= x < 2 ^ 64 → Z.land x (2 ^ 64 - 2 ^ k) = x - x mod 2 ^ k.
Proof.
  intros Hk Hx. assert (0 < 2 ^ k) by (apply Z.pow_pos_nonneg; lia).
  replace (2 ^ 64 - 2 ^ k) with (Z.shiftl (Z.ones (64 - k)) k)
    by (rewrite Z.shiftl_mul_pow2, Z.ones_equiv by lia; rewrite <-Z.sub_1_r, Z.mul_sub_distr_r, <-Z.pow_add_r by lia;
        replace (64 - k + k) with 64 by lia; lia).
  transitivity (Z.shiftl (Z.shiftr x k) k).
  2: { rewrite Z.shiftl_mul_pow2, Z.shiftr_div_pow2 by lia. pose proof (Z.div_mod x (2 ^ k)). lia. }
  apply Z.bits_inj'. intros i Hi. rewrite Z.land_spec, !Z.shiftl_spec by lia. destruct (decide (i < k)).
  - rewrite !(Z.testbit_neg_r _ (i - k)) by lia. by rewrite andb_false_r.
  - rewrite Z.shiftr_spec by lia. replace (i - k + k) with i by lia. destruct (decide (i < 64)).
    + rewrite Z.ones_spec_low by lia. by rewrite andb_true_r.
    + rewrite (Z.bits_above_log2 x i); [done|lia|]. destruct (decide (x = 0)) as [->|]; [simpl; lia|].
      pose proof (Z.log2_lt_pow2 x 64). lia.
Qed.

Lemma take_neq_iff {A} (n : nat) (l : list A) : take n l ≠ l ↔ (n < length l)%nat.
Proof.
  split.
  - intros Hne. apply Nat.nle_gt. intros Hle. apply Hne. by apply take_ge.
  - intros Hlt E%(f_equal length). rewrite length_take in E. lia.
Qed.

Lemma StronglySorted_take {A} (R : relation A) n l :
  StronglySorted R l → StronglySorted R (take n l).
Proof.
  intros H. revert n. induction H as [|x l Hs IH Hall]; intros [|n]; simpl; constructor; auto.
  by apply Forall_take.
Qed.

Lemma length_omap_le {A B} (f : A → option B) (l : list A) : (length (omap f l) <= length l)%nat.
Proof.
  induction l as [|x l IH]; [done|]. cbn [omap list_omap]. destruct (f x); simpl in *; lia.
Qed.

Lemma map_size_insert_le {K V} `{Countable K} (m : gmap K V) k v :
  (size (<[k := v]> m) <= S (size m))%nat.
Proof. rewrite map_size_insert. destruct (m !! k); unfold id; lia. Qed.

Lemma StronglySorted_filter {A} (R : relation A) (P : A → Prop) `{∀ x, Decision (P x)} l :
  StronglySorted R l → StronglySorted R (filter P l).
Proof.
  induction 1 as [|x l Hs IH Hall]; [constructor|]. rewrite filter_cons.
  case_decide; [|done]. constructor; [done|]. rewrite Forall_forall in *.
  intros y [_ Hy]%list_elem_of_filter. by apply Hall.
Qed.

Lemma StronglySorted_of_nat_seq i n : StronglySorted Z.lt (Z.of_nat <$> seq i n).
Proof.
  revert i. induction n as [|n IH]; intros i; simpl; constructor; [done|].
  apply Forall_fmap, Forall_forall. intros x Hx%elem_of_seq. simpl. lia.
Qed.

Lemma StronglySorted_lt_le (l : list Z) : StronglySorted Z.lt l → StronglySorted Z.le l.
Proof.
  induction 1 as [|x l Hs IH Hall]; constructor; [done|].
  eapply Forall_impl; [exact Hall|]. intros y ?. simpl in *. lia.
Qed.

Lemma Sorted_weaken {A} (R S : relation A) l : (∀ x y, R x y → S x y) → Sorted R l → Sorted S l.
Proof.
  intros HRS. induction 1 as [|x l _ IH Hd]; constructor; [done|].
  destruct Hd; constructor; auto.
Qed.

Lemma elem_of_concat {A} (x : A) (ls : list (list A)) : x ∈ concat ls ↔ ∃ l, l ∈ ls ∧ x ∈ l.
Proof.
  induction ls as [|l ls IH]; simpl; [set_solver|]. rewrite elem_of_app, IH.
  setoid_rewrite elem_of_cons. naive_solver.
Qed.

Lemma foldl_rev {A B} (f : A → B → A) (x : A) (l : list B) :
  foldl f x (rev l) = foldr (λ b a, f a b) x l.
Proof. induction l as [|b l IH]; [done|]. simpl. by rewrite foldl_app, IH. Qed.

Lemma StronglySorted_fmap_iff {A B} (R : relation B) (f : A → B) (l : list A) :
  StronglySorted (λ x y, R (f x) (f y)) l ↔ StronglySorted R (f <$> l).
Proof.
  induction l as [|x l IH]; [by split; constructor|]. rewrite fmap_cons.
  split; intros [Hs Hall]%StronglySorted_inv; (constructor; [by apply IH|]).
  - by apply Forall_fmap.
  - exact (proj1 (Forall_fmap _ _ _) Hall).
Qed.

Lemma list_filter_none {A} (P : A → Prop) `{∀ x, Decision (P x)} (l : list A) :
  Forall (λ x, ¬ P x) l → filter P l = [].
Proof. induction 1 as [|x l Hx _ IH]; [done|]. rewrite filter_cons. by rewrite decide_False. Qed.

(** A strictly ascending list is determined by its elements. *)
Lemma StronglySorted_lt_unique (l l' : list Z) :
  StronglySorted Z.lt l → StronglySorted Z.lt l' → (∀ x, x ∈ l ↔ x ∈ l') → l = l'.
Proof.
  intros Hs. revert l'. induction Hs as [|x l Hs IH Hall]; intros l' Hs' Hin.
  - destruct l' as [|y l']; [done|]. exfalso. apply (not_elem_of_nil y), Hin. left.
  - destruct Hs' as [|y l' Hs' Hall'].
    { exfalso. apply (not_elem_of_nil x), Hin. left. }
    rewrite Forall_forall in Hall, Hall'.
    assert (x = y) as ->.
    { assert (x ∈ y :: l') as Hx by (apply Hin; left).
      assert (y ∈ x :: l) as Hy by (apply Hin; left).
      apply elem_of_cons in Hx as [?|Hx]; [done|]. apply elem_of_cons in Hy as [?|Hy]; [done|].
      apply Hall' in Hx. apply Hall in Hy. lia. }
    f_equal. apply IH; [done|]. intros z. specialize (Hin z). rewrite !elem_of_cons in Hin.
    split; intros Hz.
    + destruct (proj1 Hin (or_intror Hz)) as [->|?]; [apply Hall in Hz; lia|done].
    + destruct (proj2 Hin (or_intror Hz)) as [->|?]; [apply Hall' in Hz; lia|done].
Qed.

Lemma sublist_elem_of {A} (x : A) l l' : l `sublist_of` l' → x ∈ l → x ∈ l'.
Proof. induction 1; set_solver. Qed.

Lemma StronglySorted_sublist {A} (R : relation A) l l' :
  l `sublist_of` l' → StronglySorted R l' → StronglySorted R l.
Proof.
  induction 1 as [|x l l' Hsub IH|x l l' Hsub IH]; [done|..]; intros [Hs Hall]%StronglySorted_inv;
    [|by apply IH].
  constructor; [by apply IH|]. rewrite Forall_forall in *. intros y Hy.
  apply Hall. by eapply sublist_elem_of.
Qed.

Lemma list_filter_all {A} (P : A → Prop) `{∀ x, Decision (P x)} (l : list A) :
  Forall P l → filter P l = l.
Proof. induction 1 as [|x l Hx _ IH]; [done|]. rewrite filter_cons, decide_True by done. by rewrite IH. Qed.

Lemma StronglySorted_app {A} (R : relation A) l l' :
  (∀ x y, x ∈ l → y ∈ l' → R x y) → StronglySorted R l' → StronglySorted R l →
  StronglySorted R (l ++ l').
Proof.
  intros HR Hl' Hl. induction Hl as [|x l Hl IH Hall]; [done|]. simpl. constructor.
  - apply IH. set_solver.
  - apply Forall_app. split; [done|]. apply Forall_forall. intros y Hy. apply HR; set_solver.
Qed.

(** Entries of a sorted table, by index. *)
Lemma StronglySorted_index {A} (R : relation A) l i j x y :
  StronglySorted R l → l !! i = Some x → l !! j = Some y → (i < j)%nat → R x y.
Proof.
  intros Hs. revert i j. induction Hs as [|z l _ IH Hz]; intros [|i] [|j] Hi Hj Hij; try (done || lia).
  - injection Hi as ->. simpl in Hj. eapply Forall_lookup_1 in Hz; done.
  - apply (IH i j); [done|done|lia].
Qed.

Lemma length_filter_le {A} (P : A → Prop) `{∀ x, Decision (P x)} (l : list A) :
  (length (filter P l) <= length l)%nat.
Proof. induction l as [|x l IH]; [done|]. rewrite filter_cons. case_decide; simpl; lia. Qed.

Lemma lxor_bound a b n : 0 <= n → 0 <= a < 2 ^ n → 0 <= b < 2 ^ n → Z.lxor a b < 2 ^ n.
Proof.
  intros Hn Ha Hb. assert (0 <= Z.lxor a b) by (apply Z.lxor_nonneg; lia).
  destruct (Z.eq_dec (Z.lxor a b) 0) as [->|Hne]; [apply Z.pow_pos_nonneg; lia|].
  apply Z.log2_lt_pow2; [lia|]. pose proof (Z.log2_lxor a b ltac:(lia) ltac:(lia)).
  assert (∀ x, 0 <= x < 2 ^ n → x = 0 ∨ Z.log2 x < n) as Hl.
  { intros x Hx. destruct (Z.eq_dec x 0); [by left|right]. apply Z.log2_lt_pow2; lia. }
  destruct (Hl a Ha) as [->|], (Hl b Hb) as [->|]; rewrite ?Z.lxor_0_l, ?Z.lxor_0_r in *; simpl in *; try lia.
Qed.

(** * Updating a list at an index *)
Lemma list_alter_insert {A} (f : A → A) (l : list A) i x :
  l !! i = Some x → alter f i l = <[i := f x]> l.
Proof.
  revert i. induction l as [|y l IH]; intros [|i] Hi; simplify_eq/=; [done|].
  change (y :: alter f i l = y :: <[i := f x]> l). f_equal. by apply IH.
Qed.
Lemma list_alter_ge {A} (f : A → A) (l : list A) i : (length l <= i)%nat → alter f i l = l.
Proof.
  revert i. induction l as [|y l IH]; intros [|i] Hi; simpl in Hi; [done|done|lia|].
  change (y :: alter f i l = y :: l). f_equal. apply IH. lia.
Qed.

(** * Partial maps over lists *)
Lemma length_omap_all {A B} (f : A → option B) (l : list A) :
  Forall (λ x, is_Some (f x)) l → length (omap f l) = length l.
Proof. induction 1 as [|x l [y Hy] _ IH]; [done|]. simpl. rewrite Hy. simpl. by f_equal. Qed.

(** Looking distinct indices up in a list without duplicates. *)
Lemma NoDup_omap_keys {A} (tab : list A) (l : list nat) :
  NoDup tab → NoDup l → NoDup (omap (λ j, tab !! j) l).
Proof.
  intros Ht. induction 1 as [|j l Hj _ IH]; [constructor|]. simpl.
  destruct (tab !! j) as [x|] eqn:Ex; [|done]. constructor; [|done].
  rewrite list_elem_of_omap. intros (i & Hi & Ei). apply Hj.
  by rewrite (NoDup_lookup tab j i x Ht Ex Ei).
Qed.

Lemma NoDup_fmap_snd_filter {A B} `{EqDecision A} (a : A) (l : list (A * B)) :
  NoDup l → NoDup (filter (λ p, p.1 = a) l).*2.
Proof.
  induction 1 as [|[x y] l Hx _ IH]; [constructor|]. rewrite filter_cons. simpl.
  case_decide as E; [|done]. subst x. rewrite fmap_cons. constructor; [|done].
  rewrite list_elem_of_fmap. intros ([x' y'] & E & [Hp ?]%list_elem_of_filter).
  simpl in *. by subst.
Qed.

(** * Hints *)
(** [asm]: ranges of wrapped integers, powers of two, and the sort interface. *)
Create HintDb asm.
#[export] Hint Resolve u64_range u32_range is_pow2_pos qsort_perm qsort_sorted : asm.
#[export] Hint Rewrite u64_u64 u64_add_l u64_add_r u64_sub_l : asm.
