(* ===== verification/Bytes.v ===== *)
(** Bytes in memory, shared by the parsers of binary records: little-endian
    integers, reads that are checked against the buffer they are made in, and the
    records of a perf data ring. *)
From S2P Require Import Prelude.

(** ** Little-endian integers *)
Fixpoint le (bs : list Z) : Z := match bs with [] => 0 | b :: bs => b + 256 * le bs end.
Fixpoint to_le (n : nat) (x : Z) : list Z :=
  match n with O => [] | S n => x mod 256 :: to_le n (x / 256) end.
Definition field (buf : list Z) (off n : nat) : Z := le (take n (drop off buf)).

Lemma length_to_le n x : length (to_le n x) = n.
Proof. revert x. induction n as [|n IH]; intros x; simpl; [done|]. by rewrite IH. Qed.

Lemma le_to_le n x : le (to_le n x) = x mod 256 ^ Z.of_nat n.
Proof.
  revert x. induction n as [|n IH]; intros x; cbn [to_le le].
  - by rewrite Z.mod_1_r.
  - rewrite IH, Nat2Z.inj_succ, Z.pow_succ_r by lia. rewrite Z.rem_mul_r by lia. lia.
Qed.

(** A field written at an offset is read back. *)
Lemma field_spec pre n x post : field (pre ++ to_le n x ++ post) (length pre) n = x mod 256 ^ Z.of_nat n.
Proof.
  unfold field. rewrite drop_app_length. rewrite <-(length_to_le n x) at 1. rewrite take_app_length. apply le_to_le.
Qed.

Lemma field_at buf off n x pre post :
  buf = pre ++ to_le n x ++ post → off = length pre → field buf off n = x mod 256 ^ Z.of_nat n.
Proof. intros -> ->. apply field_spec. Qed.

(** A buffer holds bytes. *)
Definition is_byte (b : Z) : Prop := 0 <= b < 256.
#[global] Instance is_byte_dec b : Decision (is_byte b) := _.

Lemma to_le_bytes n x : Forall is_byte (to_le n x).
Proof. revert x. induction n as [|n IH]; intros x; simpl; constructor; auto. unfold is_byte. dlia. Qed.

Lemma le_range bs : Forall is_byte bs → 0 <= le bs < 256 ^ Z.of_nat (length bs).
Proof.
  induction 1 as [|b bs Hb _ IH]; cbn [le length]; [simpl; lia|].
  rewrite Nat2Z.inj_succ, Z.pow_succ_r by lia. unfold is_byte in Hb. lia.
Qed.

(** ** Checked reads *)
(** A load of [n] bytes at byte offset [off] of a buffer; [None] is a read outside
    of it, which no run of the code may reach. *)
Definition ld (n : nat) (buf : list Z) (off : Z) : option Z :=
  if (0 <=? off) && (off + Z.of_nat n <=? Z.of_nat (length buf)) then Some (field buf (Z.to_nat off) n)
  else None.
Definition ld_u16 := ld 2.
Definition ld_u32 := ld 4.
Definition ld_u64 := ld 8.

(** The [n] bytes at [off], a pointer into the buffer with its length. *)
Definition sub_bytes (buf : list Z) (off n : Z) : option (list Z) :=
  if (0 <=? off) && (0 <=? n) && (off + n <=? Z.of_nat (length buf))
  then Some (take (Z.to_nat n) (drop (Z.to_nat off) buf)) else None.

Lemma ld_in n buf off :
  0 <= off → off + Z.of_nat n <= Z.of_nat (length buf) → ld n buf off = Some (field buf (Z.to_nat off) n).
Proof.
  intros. unfold ld. destruct (Z.leb_spec 0 off), (Z.leb_spec (off + Z.of_nat n) (Z.of_nat (length buf))); done || lia.
Qed.

Lemma sub_bytes_in buf off n :
  0 <= off → 0 <= n → off + n <= Z.of_nat (length buf) →
  ∃ bs, sub_bytes buf off n = Some bs ∧ length bs = Z.to_nat n ∧ (Forall is_byte buf → Forall is_byte bs).
Proof.
  intros. unfold sub_bytes.
  destruct (Z.leb_spec 0 off), (Z.leb_spec 0 n), (Z.leb_spec (off + n) (Z.of_nat (length buf))); try lia.
  eexists. split_and!; [done| |].
  - rewrite length_take, length_drop. lia.
  - intros Hb. by apply Forall_take, Forall_drop.
Qed.

Lemma field_range buf off n : Forall is_byte buf → 0 <= field buf off n < 256 ^ Z.of_nat n.
Proof.
  intros Hb. unfold field. pose proof (le_range (take n (drop off buf)) ltac:(by apply Forall_take, Forall_drop)) as R.
  rewrite length_take in R. pose proof (Z.pow_le_mono_r 256 (Z.of_nat (n `min` length (drop off buf))) (Z.of_nat n)). lia.
Qed.

Lemma ld_range n buf off v : Forall is_byte buf → ld n buf off = Some v → 0 <= v < 256 ^ Z.of_nat n.
Proof. intros Hb. unfold ld. case_match; [|done]. intros [= <-]. by apply field_range. Qed.

(** Reading back what was laid out at an offset. *)
Lemma ld_spec n pre x post off :
  off = Z.of_nat (length pre) → ld n (pre ++ to_le n x ++ post) off = Some (x mod 256 ^ Z.of_nat n).
Proof.
  intros ->. rewrite ld_in by (rewrite ?length_app, ?length_to_le; lia). by rewrite Nat2Z.id, field_spec.
Qed.

Lemma sub_bytes_spec pre bs post off n :
  off = Z.of_nat (length pre) → n = Z.of_nat (length bs) → sub_bytes (pre ++ bs ++ post) off n = Some bs.
Proof.
  intros -> ->. unfold sub_bytes.
  destruct (Z.leb_spec 0 (Z.of_nat (length pre))), (Z.leb_spec 0 (Z.of_nat (length bs))),
    (Z.leb_spec (Z.of_nat (length pre) + Z.of_nat (length bs)) (Z.of_nat (length (pre ++ bs ++ post))));
    rewrite ?length_app in *; try lia.
  simpl. by rewrite !Nat2Z.id, drop_app_length, take_app_length.
Qed.

(** ** Layout *)
(** The bytes [bs] lie in [f] at offset [o]. *)
Definition lies (f : list Z) (o : Z) (bs : list Z) : Prop :=
  ∃ pre post, f = pre ++ bs ++ post ∧ o = Z.of_nat (length pre).

Lemma lies_app f o x y : lies f o (x ++ y) → lies f o x ∧ lies f (o + Z.of_nat (length x)) y.
Proof.
  intros (pre & post & -> & ->). split.
  - exists pre, (y ++ post). by rewrite <-app_assoc.
  - exists (pre ++ x), post. rewrite length_app, <-!app_assoc. split; [done|lia].
Qed.

Lemma lies_in f o bs : lies f o bs → 0 <= o ∧ o + Z.of_nat (length bs) <= Z.of_nat (length f).
Proof. intros (pre & post & -> & ->). rewrite !length_app. lia. Qed.

Lemma lies_sub f o bs n : lies f o bs → n = Z.of_nat (length bs) → sub_bytes f o n = Some bs.
Proof. intros (pre & post & -> & ->) ->. by apply sub_bytes_spec. Qed.

(** A structure as the list of its fields with their widths. *)
Definition fields := list (nat * Z).
Definition enc_fields (l : fields) : list Z := concat ((λ nx, to_le nx.1 nx.2) <$> l).
Definition offset_of (l : fields) (i : nat) : Z := foldr (λ nx a, Z.of_nat nx.1 + a) 0 (take i l).

Lemma length_enc_fields l : Z.of_nat (length (enc_fields l)) = offset_of l (length l).
Proof.
  unfold offset_of. rewrite firstn_all. induction l as [|[n x] l IH]; [done|]. unfold enc_fields in *. cbn [fmap list_fmap concat foldr fst snd].
  rewrite length_app, length_to_le. lia.
Qed.

(** A load of a field of a structure that lies in the file. *)
Lemma fields_ld f o l i n x k :
  lies f o (enc_fields l) → l !! i = Some (n, x) → k = o + offset_of l i → 0 <= x < 256 ^ Z.of_nat n → ld n f k = Some x.
Proof.
  intros Hf Hi -> Hx. revert o i Hf Hi. induction l as [|[m y] l IH]; intros o [|i] Hf Hi; cbn in Hi; try done.
  - injection Hi as -> ->. unfold enc_fields in Hf. cbn [fmap list_fmap concat fst snd] in Hf.
    apply lies_app in Hf as [(pre & post & -> & ->) _]. rewrite (ld_spec n pre x post) by (cbn; lia). by rewrite Z.mod_small.
  - apply lies_app in Hf as [_ Hf]. cbn [fst snd] in Hf. rewrite length_to_le in Hf.
    unfold offset_of. cbn [take foldr fst]. rewrite Z.add_assoc. by apply IH.
Qed.

(** ** Perf ring records *)
Definition PERF_RECORD_LOST : Z := 2.
Definition PERF_RECORD_THROTTLE : Z := 5.
Definition PERF_RECORD_SAMPLE : Z := 9.
Definition sizeof_header : nat := 8.
