(* ===== verification/Grow.v ===== *)
(** Overflow-checked pool growth: [asmtest_grow] and [asmtest_grow_pow2] of
    [src/asmtest_grow.h], the allocator front end every growable pool of the
    framework goes through. *)
From S2P Require Import Prelude.

(** ** [asmtest_grow] *)

(** The doubling loop.  [ncap] at least doubles per round and starts at 1 or
    more, so 64 rounds cover every 64-bit [need]. *)
Fixpoint grow_loop (fuel : nat) (ncap need maxcap : Z) : option Z :=
  match fuel with
  | O => None
  | S fuel =>
      if ncap <? need then
        if maxcap / 2 <? ncap then Some need
        else grow_loop fuel (ncap *64 2) need maxcap
      else Some ncap
  end.

(** [Some cap'] when the function returns 1 with [*cap = cap'], [None] when it
    returns 0 and leaves the array and [*cap] alone. *)
Definition asmtest_grow (grant : allocator) (cap need elem : Z) : option Z :=
  if need <=? cap then Some cap
  else
    let maxcap := SIZE_MAX / elem in
    if maxcap <? need then None
    else
      let ncap := if cap =? 0 then 8 else cap in
      match grow_loop 65 ncap need maxcap with
      | Some ncap' => if grant (ncap' *64 elem) then Some ncap' else None
      | None => None
      end.

(** ** [asmtest_grow_pow2] *)
Fixpoint grow_pow2_loop (fuel : nat) (ncap min_slots maxcap : Z) : option Z :=
  match fuel with
  | O => None
  | S fuel =>
      if maxcap / 2 <? ncap then None
      else
        let ncap' := ncap *64 2 in
        if min_slots <=? ncap' then Some ncap'
        else grow_pow2_loop fuel ncap' min_slots maxcap
  end.

Definition asmtest_grow_pow2 (cap min_slots elem : Z) : option Z :=
  let maxcap := SIZE_MAX / elem in
  let ncap := if cap =? 0 then 1 else cap in
  grow_pow2_loop 65 ncap min_slots maxcap.

(** ** The loops *)
Lemma grow_loop_spec fuel ncap need maxcap :
  0 < ncap → need <= maxcap → maxcap <= SIZE_MAX →
  maxcap < ncap * 2 ^ Z.of_nat fuel →
  ∃ r, grow_loop (S fuel) ncap need maxcap = Some r ∧
       need <= r ∧ ncap <= r ∧ (r = ncap ∨ r <= maxcap).
Proof.
  revert ncap. induction fuel as [|fuel IH]; intros ncap Hpos Hneed Hmax Hfuel.
  { exists ncap. cbn [grow_loop]. destruct (Z.ltb_spec ncap need); simpl in *; [lia|].
    eauto 6 with lia. }
  remember (S fuel) as fuel' eqn:Hf. cbn [grow_loop]. subst fuel'.
  destruct (Z.ltb_spec ncap need); [|eauto 6 with lia].
  destruct (Z.ltb_spec (maxcap / 2) ncap); [eauto 6 with lia|].
  assert (ncap * 2 <= maxcap) by dlia.
  rewrite u64_small by (unfold SIZE_MAX in *; lia).
  rewrite Nat2Z.inj_succ, Z.pow_succ_r in Hfuel by lia.
  destruct (IH (ncap * 2)) as (r & -> & ?); [lia..|eauto 6 with lia].
Qed.

Lemma maxcap_bounds elem : 1 <= elem → 0 <= SIZE_MAX / elem <= SIZE_MAX.
Proof.
  intros. split; [apply Z.div_pos; unfold SIZE_MAX; lia|].
  apply Z.div_le_upper_bound; unfold SIZE_MAX; nia.
Qed.

Lemma maxcap_mul elem n : 1 <= elem → n <= SIZE_MAX / elem → n * elem <= SIZE_MAX.
Proof. intros ? Hn. pose proof (Z.mul_div_le SIZE_MAX elem). nia. Qed.

(** When the pool must grow, the loop always answers, and what the function
    does then is decided by the allocator alone. *)
Lemma asmtest_grow_unfold grant cap need elem :
  1 <= elem → 0 <= cap < need → need <= SIZE_MAX / elem →
  ∃ r, asmtest_grow grant cap need elem =
         (if grant (r *64 elem) then Some r else None) ∧
       need <= r ∧ cap <= r ∧ (cap = 0 → 8 <= r) ∧
       (r <= SIZE_MAX / elem ∨ cap = 0 ∧ r = 8).
Proof.
  intros Helem Hcap Hneed. unfold asmtest_grow.
  pose proof (maxcap_bounds elem Helem) as Hmx.
  destruct (Z.leb_spec need cap); [lia|].
  destruct (Z.ltb_spec (SIZE_MAX / elem) need); [lia|].
  set (n0 := if cap =? 0 then 8 else cap).
  assert (0 < n0 ∧ cap <= n0 ∧ (cap = 0 → n0 = 8) ∧ (cap ≠ 0 → n0 = cap)) as (Hn0&?&?&?)
    by (unfold n0; destruct (Z.eqb_spec cap 0); lia).
  destruct (grow_loop_spec 64 n0 need (SIZE_MAX / elem)) as (r & -> & ? & ? & ?);
    [lia..|replace (2 ^ Z.of_nat 64) with (SIZE_MAX + 1) by done; nia|].
  exists r. split_and!; auto; lia.
Qed.

(** The whole contract: a success gives a capacity that holds [need], never
    shrinks and whose byte size does not wrap; a refusal happens only when the
    pool had to grow and the request is unrepresentable or the allocator
    declined it.  [elem] is a [sizeof]; the bound excludes element sizes of
    2^61 bytes and more, for which the seed capacity 8 itself wraps. *)
Lemma asmtest_grow_spec grant cap need elem
    (Helem : 1 <= elem <= SIZE_MAX / 8) (Hcap : 0 <= cap)
    (Hbytes : cap * elem <= SIZE_MAX) :
  match asmtest_grow grant cap need elem with
  | Some cap' => need <= cap' ∧ cap <= cap' ∧ cap' * elem <= SIZE_MAX ∧
                 (cap' ≠ cap → grant (cap' * elem) = true)
  | None => cap < need ∧
            (SIZE_MAX < need * elem ∨
             ∃ r, need <= r ∧ r * elem <= SIZE_MAX ∧ grant (r * elem) = false)
  end.
Proof.
  destruct (Z.leb_spec need cap) as [Hle|Hlt].
  { unfold asmtest_grow. rewrite (proj2 (Z.leb_le _ _) Hle). done. }
  destruct (Z.ltb_spec (SIZE_MAX / elem) need) as [Hbig|Hok].
  { unfold asmtest_grow. rewrite (proj2 (Z.leb_gt _ _) Hlt), (proj2 (Z.ltb_lt _ _) Hbig).
    split; [done|left].
    rewrite Z.mul_comm. apply Z.lt_nge. intros ?.
    assert (need <= SIZE_MAX / elem); [apply Z.div_le_lower_bound|]; lia. }
  destruct (asmtest_grow_unfold grant cap need elem) as (r & -> & ? & ? & ? & Hr); [lia..|].
  assert (r * elem <= SIZE_MAX).
  { destruct Hr as [Hr|[_ ->]]; [apply maxcap_mul; lia|].
    pose proof (Z.mul_div_le SIZE_MAX 8). lia. }
  rewrite u64_small by (unfold SIZE_MAX in *; nia).
  destruct (grant _) eqn:E; [done|]. split; [done|]. right. by exists r.
Qed.

(** ** Power-of-two growth *)
Lemma grow_pow2_loop_spec fuel k min_slots maxcap :
  0 <= k → maxcap < 2 ^ (k + Z.of_nat fuel) → maxcap <= SIZE_MAX →
  match grow_pow2_loop (S fuel) (2 ^ k) min_slots maxcap with
  | Some out => ∃ j, k < j ∧ out = 2 ^ j ∧ min_slots <= 2 ^ j ∧ 2 ^ j <= maxcap ∧
                     ∀ i, k < i < j → 2 ^ i < min_slots
  | None => ∀ j, k < j → min_slots <= 2 ^ j → maxcap < 2 ^ j
  end.
Proof.
  revert k. induction fuel as [|fuel IH]; intros k Hk Hfuel Hmax;
    pose proof (Z.pow_pos_nonneg 2 k).
  - cbn [grow_pow2_loop]. rewrite Z.add_0_r in Hfuel. destruct (Z.ltb_spec (maxcap / 2) (2 ^ k)); [|dlia].
    intros j ? ?. pose proof (Z.pow_lt_mono_r 2 k j). lia.
  - remember (S fuel) as fuel' eqn:Hf. cbn [grow_pow2_loop]. subst fuel'.
    destruct (Z.ltb_spec (maxcap / 2) (2 ^ k)) as [|Hle].
    { intros j ? ?. pose proof (Z.pow_le_mono_r 2 (Z.succ k) j).
      rewrite Z.pow_succ_r in * by lia. dlia. }
    assert (2 ^ k * 2 = 2 ^ Z.succ k) as E by (rewrite Z.pow_succ_r; lia).
    rewrite u64_small by (unfold SIZE_MAX in *; dlia). rewrite E.
    destruct (Z.leb_spec min_slots (2 ^ Z.succ k)).
    { exists (Z.succ k). split_and!; try lia; dlia. }
    specialize (IH (Z.succ k)). 
    replace (Z.succ k + Z.of_nat fuel) with (k + Z.of_nat (S fuel)) in IH by lia.
    specialize (IH ltac:(lia) ltac:(lia) Hmax).
    destruct (grow_pow2_loop _ _ _ _) as [out|].
    + destruct IH as (j & ? & ? & ? & ? & Hi). exists j. split_and!; try lia; try done.
      intros i ?. destruct (Z.eq_dec i (Z.succ k)) as [->|]; [lia|]. apply Hi; lia.
    + intros j ? ?. destruct (Z.eq_dec j (Z.succ k)) as [->|]; [lia|]. apply IH; lia.
Qed.

(** The answer is the least power of two past [cap] with room for [min_slots],
    and a refusal means that no such power of two has a representable size. *)
Lemma asmtest_grow_pow2_spec cap k min_slots elem
    (Helem : 1 <= elem) (Hk : 0 <= k) (Hcap : cap = 0 ∧ k = 0 ∨ cap = 2 ^ k) :
  match asmtest_grow_pow2 cap min_slots elem with
  | Some out => ∃ j, k < j ∧ out = 2 ^ j ∧ cap < out ∧ min_slots <= out ∧
                     out * elem <= SIZE_MAX ∧
                     ∀ i, k < i → min_slots <= 2 ^ i → out <= 2 ^ i
  | None => ∀ j, k < j → min_slots <= 2 ^ j → SIZE_MAX < 2 ^ j * elem
  end.
Proof.
  pose proof (maxcap_bounds elem Helem). pose proof (Z.pow_pos_nonneg 2 k).
  unfold asmtest_grow_pow2.
  assert ((if cap =? 0 then 1 else cap) = 2 ^ k) as ->.
  { destruct Hcap as [[-> ->]| ->]; [done|]. destruct (Z.eqb_spec (2 ^ k) 0); lia. }
  pose proof (grow_pow2_loop_spec 64 k min_slots (SIZE_MAX / elem) Hk) as IH.
  destruct (grow_pow2_loop _ _ _ _) as [out|].
  - destruct IH as (j & ? & -> & ? & ? & Hi); [|lia|].
    { rewrite Z.pow_add_r by lia. change (2 ^ Z.of_nat 64) with (SIZE_MAX + 1). nia. }
    pose proof (Z.pow_lt_mono_r 2 k j). exists j. split_and!; try lia.
    + by apply maxcap_mul.
    + intros i ? ?. destruct (decide (i < j)) as [|]; [specialize (Hi i); lia|].
      apply Z.pow_le_mono_r; lia.
  - intros j ? ?. apply Z.lt_nge. intros ?.
    assert (2 ^ j <= SIZE_MAX / elem) by (apply Z.div_le_lower_bound; lia).
    assert (SIZE_MAX / elem < 2 ^ j); [|lia]. apply IH; try lia.
    rewrite Z.pow_add_r by lia. change (2 ^ Z.of_nat 64) with (SIZE_MAX + 1). nia.
Qed.

(** The same for a hash table of entries of at most 31 bytes: only a table past
    [2^58] slots can be refused. *)
Lemma pow2_next n min_slots elem :
  1 <= elem <= 31 → n = 0 ∨ is_pow2 n →
  match asmtest_grow_pow2 n min_slots elem with
  | Some g => is_pow2 g ∧ n < g ∧ min_slots <= g ∧ g * elem <= SIZE_MAX
  | None => 2 ^ 58 < n ∨ 2 ^ 58 < min_slots
  end.
Proof.
  intros Helem Hn.
  assert (∃ k, 0 <= k ∧ (n = 0 ∧ k = 0 ∨ n = 2 ^ k)) as (k & Hk & Hnk).
  { destruct Hn as [->|(k & ? & ->)]; [exists 0|exists k]; auto with lia. }
  pose proof (asmtest_grow_pow2_spec n k min_slots elem ltac:(lia) Hk Hnk) as H.
  destruct (asmtest_grow_pow2 _ _ _) as [g|].
  - destruct H as (j & ? & -> & ? & ? & ? & _). split_and!; auto. exists j. auto with lia.
  - destruct (decide (min_slots <= 2 ^ 58)); [|lia]. left. apply Z.lt_nge. intros Hle.
    assert (k <= 58).
    { destruct Hnk as [[_ ->]| ->]; [lia|]. apply Z.lt_succ_r.
      apply (Z.pow_lt_mono_r_iff 2); lia. }
    specialize (H 59 ltac:(lia) ltac:(lia)). unfold SIZE_MAX in H. lia.
Qed.
