(* ===== verification/CodeImage.v ===== *)
(** The time-aware code-image recorder ([src/codeimage.c]): a timeline of versions
    per tracked region, fed by the kernel's soft-dirty bits, and the query for the
    bytes that were live at a moment of the past. *)
From S2P Require Import Prelude Grow.

Module CodeImage.

Definition ASMTEST_CI_OK : Z := 0.
Definition ASMTEST_CI_EINVAL : Z := -1.
Definition ASMTEST_CI_EUNAVAIL : Z := -3.
Definition ASMTEST_CI_ENOENT : Z := -7.

(** ** The recorder's state *)
Record ci_version := mk_ver { v_seq : Z; v_bytes : list Z }.
Record ci_region := mk_region {
  r_base : Z; r_len : Z; r_first_page : Z; r_npages : Z;
  r_vers : list ci_version; r_cap_ver : Z;
}.
Record codeimage := mk_img {
  page_size : Z; pagemap_scan_ok : bool; img_seq : Z; regions : list ci_region; cap_reg : Z;
}.
Definition sizeof_ci_version : Z := 16.

(** ** The target and the kernel's view of it *)
(** The target's memory ([None] where nothing is mapped) and the soft-dirty bit of
    each page, by the address of the page. *)
Record world := mk_world { mem : Z → option Z; soft_dirty : Z → bool }.

(** [process_vm_readv]: all of the range or nothing. *)
Fixpoint read_bytes (m : Z → option Z) (a : Z) (n : nat) : option (list Z) :=
  match n with
  | O => Some []
  | S n => match m a, read_bytes m (a + 1) n with
           | Some b, Some bs => Some (b :: bs)
           | _, _ => None
           end
  end.
Definition vm_read (m : Z → option Z) (base len : Z) : option (list Z) := read_bytes m base (Z.to_nat len).

(** What else the kernel answers: whether the pagemap and [clear_refs] can be
    opened, and the [PAGEMAP_SCAN] ioctl, [None] when it fails. *)
Class Kernel := {
  pagemap_readable : world → bool;
  clear_refs_ok : world → bool;
  pagemap_scan : world → Z → Z → option (list (Z * Z));
}.

Section recorder.
Context `{Kernel} (grant : allocator).

(** [ci_arm]: clearing is process-wide. *)
Definition ci_arm (w : world) : Z * world :=
  if clear_refs_ok w then (ASMTEST_CI_OK, mk_world (mem w) (λ _, false)) else (ASMTEST_CI_EUNAVAIL, w).

Definition ci_page_dirty_manual (w : world) (page_addr : Z) : bool :=
  if pagemap_readable w then soft_dirty w page_addr else false.

(** The pages of a reported range, and whether one of them is the region's. *)
Definition pages_between (ps s e : Z) : list Z :=
  (λ i, s + Z.of_nat i * ps) <$> seq 0 (Z.to_nat ((e - s + ps - 1) / ps)).
Definition range_hits (ps : Z) (r : ci_region) (se : Z * Z) : bool :=
  existsb (λ p, (p -64 r_first_page r) / ps <? r_npages r) (pages_between ps se.1 se.2).
Definition region_pages (ps : Z) (r : ci_region) : list Z :=
  (λ i, r_first_page r + Z.of_nat i * ps) <$> seq 0 (Z.to_nat (r_npages r)).

(** [any] of [ci_region_dirty]; the per-page marks are not used by its caller. *)
Definition ci_region_dirty (w : world) (img : codeimage) (r : ci_region) : bool :=
  let manual := existsb (ci_page_dirty_manual w) (region_pages (page_size img) r) in
  if pagemap_scan_ok img && pagemap_readable w && grant (r_npages r * 32) then
    match pagemap_scan w (r_first_page r) (r_first_page r + r_npages r * page_size img) with
    | Some ranges => existsb (range_hits (page_size img) r) ranges
    | None => manual
    end
  else manual.

Definition ci_read_region (w : world) (base len : Z) : option (list Z) :=
  if grant len then vm_read (mem w) base len else None.

(** The region with one more version, and the sequence afterwards; [None] is
    [ASMTEST_CI_EUNAVAIL]. *)
Definition ci_region_add_version (s : Z) (r : ci_region) (bytes : list Z) : option (Z * ci_region) :=
  let nver := Z.of_nat (length (r_vers r)) in
  let grown := if nver =? r_cap_ver r
               then asmtest_grow grant (r_cap_ver r) (nver + 1) sizeof_ci_version
               else Some (r_cap_ver r) in
  match grown with
  | None => None
  | Some cap =>
      Some (s +64 1, mk_region (r_base r) (r_len r) (r_first_page r) (r_npages r)
                       (r_vers r ++ [mk_ver (s +64 1) bytes]) cap)
  end.

(** [ci_scan_range] over the regions [rs]: the number of new versions or an error
    code, the sequence and the regions afterwards. *)
Fixpoint ci_scan_range (w : world) (img : codeimage) (s : Z) (rs : list ci_region) (new_versions : Z) :
    Z * Z * list ci_region :=
  match rs with
  | [] => (new_versions, s, [])
  | r :: rs =>
      if negb (r_npages r <=? 64) && negb (grant (r_npages r)) then (ASMTEST_CI_EUNAVAIL, s, r :: rs)
      else
        let continue_with s r n :=
          let '(rc, s, rs) := ci_scan_range w img s rs n in (rc, s, r :: rs) in
        if negb (ci_region_dirty w img r) then continue_with s r new_versions
        else match ci_read_region w (r_base r) (r_len r) with
        | None => continue_with s r new_versions
        | Some bytes =>
            match ci_region_add_version s r bytes with
            | None => (ASMTEST_CI_EUNAVAIL, s, r :: rs)
            | Some (s, r) => continue_with s r (new_versions + 1)
            end
        end
  end.

(** [b & ~(ps - 1)] *)
Definition page_of (ps a : Z) : Z := Z.ldiff a (ps - 1).



Definition asmtest_codeimage_refresh (w : world) (img : codeimage) : Z * codeimage * world :=
  match regions img with
  | [] => (0, img, w)
  | _ =>
      let '(new_versions, s, rs) := ci_scan_range w img (img_seq img) (regions img) 0 in
      let img := mk_img (page_size img) (pagemap_scan_ok img) s rs (cap_reg img) in
      if new_versions <? 0 then (new_versions, img, w)
      else
        let '(rc, w) := ci_arm w in
        (if rc =? ASMTEST_CI_OK then new_versions else rc, img, w)
  end.
End recorder.


(** ** The query *)
(** The last version walked past before one that is too new. *)
Fixpoint pick_version (when : Z) (vs : list ci_version) (pick : option ci_version) : option ci_version :=
  match vs with
  | [] => pick
  | v :: vs => if (when =? 0) || (v_seq v <=? when) then pick_version when vs (Some v) else pick
  end.

(** The return code with [*out] and [*out_len]. *)
Fixpoint bytes_at_regions (rs : list ci_region) (a when : Z) : Z * option (list Z * Z) :=
  match rs with
  | [] => (ASMTEST_CI_ENOENT, None)
  | r :: rs =>
      if (a <? r_base r) || (r_base r +64 r_len r <=? a) then bytes_at_regions rs a when
      else match pick_version when (r_vers r) None with
      | None => (ASMTEST_CI_ENOENT, None)
      | Some v =>
          let off := a - r_base r in
          (ASMTEST_CI_OK, Some (drop (Z.to_nat off) (v_bytes v), r_len r - off))
      end
  end.
Definition asmtest_codeimage_bytes_at (img : codeimage) (a when : Z) : Z * option (list Z * Z) :=
  if a =? 0 then (ASMTEST_CI_EINVAL, None) else bytes_at_regions (regions img) a when.

(** The size asked for, clamped to the page. *)
Definition live_size (psz addr size : Z) : Z :=
  let page_end := page_of psz (addr +64 psz) in
  let avail := page_end -64 addr in
  if avail <? size then avail else size.
Definition asmtest_codeimage_read_live (psz : Z) (m : Z → option Z) (addr size : Z) : Z * list Z :=
  if size =? 0 then (ASMTEST_CI_EINVAL, [])
  else match vm_read m addr (live_size psz addr size) with
       | Some ((_ :: _) as bs) => (Z.of_nat (length bs), bs)
       | _ => (ASMTEST_CI_ENOENT, [])
       end.

(** ** The timeline over time *)
Section timeline.
Context `{Kernel} (ps : Z).




(** The target, the recorder, and the moments at which an operation succeeded:
    the capture sequence then, and the memory then. *)
Abbreviation moment := (Z * (Z → option Z))%type.

(** ** Pages *)
Context `{KernelOk}.
































End timeline.

(** ** Witness *)
(** A target with eight mapped bytes at 4096, all holding [x]. *)
Definition filled (x : Z) : Z → option Z := λ a, if (4096 <=? a) && (a <? 4104) then Some x else None.
Definition demo_kernel : Kernel := {|
  pagemap_readable _ := true; clear_refs_ok _ := true; pagemap_scan _ _ _ := None;
|}.

Definition rewritten (x : Z) : world := mk_world (filled x) (λ _, true).




(** A refresh that cannot get memory for a copy loses the change.  It takes
    the refusal for a region that is no longer mapped, keeps the old version,
    clears the dirty bits and reports success; later refreshes, with memory again,
    do not see the change either, and the query for the present returns the bytes
    from before the patch. *)
Theorem oom_refresh_loses_change :
  let img := mk_img 4096 false 1 [mk_region 4096 8 4096 1 [mk_ver 1 (replicate 8 1)] 8] 8 in
  let '(rc, img1, w1) := asmtest_codeimage_refresh (H := demo_kernel) never (rewritten 2) img in
  let '(rc2, img2, w2) := asmtest_codeimage_refresh (H := demo_kernel) always w1 img1 in
  rc = 0 ∧ rc2 = 0 ∧ vm_read (mem w2) 4096 8 = Some (replicate 8 2) ∧
  asmtest_codeimage_bytes_at img2 4096 0 = (ASMTEST_CI_OK, Some (replicate 8 1, 8)).
Proof. vm_compute. done. Qed.
End CodeImage.
