(* ===== verification/Trace.v ===== *)
(** The engine-neutral trace sink of [src/trace.c]: [asmtest_trace_t], its two
    fill points, the opaque-handle constructor and the scalar accessors. *)
From S2P Require Import Prelude.

Module Trace.

(** [asmtest_trace_t] of [include/asmtest_trace.h].  A buffer is the whole
    array, of the capacity's length, or [None] for a null pointer; the [_len]
    fields count the entries written. *)
Record asmtest_trace := mk_trace {
  insns : option (list Z);
  insns_cap : nat;
  insns_len : nat;
  insns_total : Z;
  blocks : option (list Z);
  blocks_cap : nat;
  blocks_len : nat;
  blocks_total : Z;
  truncated : bool;
}.

(** ** Fill points *)
Definition append_insn (t : asmtest_trace) (off : Z) : asmtest_trace :=
  let total := insns_total t +64 1 in
  match insns t with
  | Some buf =>
      if (insns_len t <? insns_cap t)%nat then
        mk_trace (Some (<[insns_len t := off]> buf)) (insns_cap t) (S (insns_len t))
          total (blocks t) (blocks_cap t) (blocks_len t) (blocks_total t) (truncated t)
      else
        mk_trace (Some buf) (insns_cap t) (insns_len t) total (blocks t)
          (blocks_cap t) (blocks_len t) (blocks_total t) true
  | None =>
      mk_trace None (insns_cap t) (insns_len t) total (blocks t) (blocks_cap t)
        (blocks_len t) (blocks_total t) (truncated t)
  end.

(** The linear scan of the first [len] entries. *)
Definition scan (buf : list Z) (len : nat) (off : Z) : bool :=
  existsb (λ b, b =? off) (take len buf).

Definition append_block (t : asmtest_trace) (off : Z) : asmtest_trace :=
  let total := blocks_total t +64 1 in
  let keep trunc :=
    mk_trace (insns t) (insns_cap t) (insns_len t) (insns_total t) (blocks t)
      (blocks_cap t) (blocks_len t) total trunc in
  match blocks t with
  | Some buf =>
      if scan buf (blocks_len t) off then keep (truncated t)
      else if (blocks_len t <? blocks_cap t)%nat then
        mk_trace (insns t) (insns_cap t) (insns_len t) (insns_total t)
          (Some (<[blocks_len t := off]> buf)) (blocks_cap t) (S (blocks_len t))
          total (truncated t)
      else keep true
  | None => keep (truncated t)
  end.

(** The exported entry points take a pointer; a null one is a no-op. *)
Definition trace_append_insn (t : option asmtest_trace) (off : Z) :
    option asmtest_trace := (λ t, append_insn t off) <$> t.
Definition trace_append_block (t : option asmtest_trace) (off : Z) :
    option asmtest_trace := (λ t, append_block t off) <$> t.

(** ** Allocation *)
Definition calloc_u64 (grant : allocator) (cap : nat) : option (list Z) :=
  if (0 <? cap)%nat && grant (8 * Z.of_nat cap) then Some (replicate cap 0) else None.

Definition sizeof_trace : Z := 72.

Definition asmtest_trace_new (grant : allocator) (icap bcap : nat) :
    option asmtest_trace :=
  if grant sizeof_trace then
    let ib := calloc_u64 grant icap in
    let bb := calloc_u64 grant bcap in
    Some (mk_trace ib (if ib is Some _ then icap else O) 0 0
            bb (if bb is Some _ then bcap else O) 0 0 false)
  else None.

Definition asmtest_emu_trace_new := asmtest_trace_new.

(** ** Accessors *)
Definition asmtest_emu_trace_insns_total (t : asmtest_trace) : Z := insns_total t.
Definition asmtest_emu_trace_blocks_len (t : asmtest_trace) : Z := Z.of_nat (blocks_len t).
Definition asmtest_emu_trace_insns_len (t : asmtest_trace) : Z := Z.of_nat (insns_len t).
Definition asmtest_emu_trace_blocks_total (t : asmtest_trace) : Z := blocks_total t.
Definition asmtest_emu_trace_truncated (t : asmtest_trace) : Z :=
  if truncated t then 1 else 0.

Definition entry_at (buf : option (list Z)) (len i : nat) : Z :=
  if (i <? len)%nat then default [] buf !!! i else 0.
Definition asmtest_emu_trace_block_at (t : asmtest_trace) (i : nat) : Z :=
  entry_at (blocks t) (blocks_len t) i.
Definition asmtest_emu_trace_insn_at (t : asmtest_trace) (i : nat) : Z :=
  entry_at (insns t) (insns_len t) i.
Definition asmtest_emu_trace_covered (t : asmtest_trace) (off : Z) : Z :=
  if scan (default [] (blocks t)) (blocks_len t) off then 1 else 0.

(** The canonical predicate, null-safe, and its [bool] shim. *)
Definition asmtest_trace_covered (t : option asmtest_trace) (off : Z) : Z :=
  match t with
  | Some t => match blocks t with
              | Some buf => if scan buf (blocks_len t) off then 1 else 0
              | None => 0
              end
  | None => 0
  end.
Definition emu_trace_covered (t : option asmtest_trace) (off : Z) : bool :=
  negb (asmtest_trace_covered t off =? 0).

(** ** Specification

    A run is a sequence of fill-point calls.  What it means is two streams:
    the instruction offsets and the block-entry offsets, in call order. *)
Inductive event := EInsn (off : Z) | EBlock (off : Z).
#[export] Instance event_eq_dec : EqDecision event.
Proof. solve_decision. Defined.

Definition feed (t : asmtest_trace) (e : event) : asmtest_trace :=
  match e with EInsn off => append_insn t off | EBlock off => append_block t off end.
Definition run (t : asmtest_trace) (es : list event) : asmtest_trace := foldl feed t es.

Definition insn_stream (es : list event) : list Z :=
  omap (λ e, match e with EInsn o => Some o | EBlock _ => None end) es.
Definition block_stream (es : list event) : list Z :=
  omap (λ e, match e with EBlock o => Some o | EInsn _ => None end) es.

(** What the two dimensions of a sink hold: the recorded entries. *)
Definition stored (buf : option (list Z)) (len : nat) : list Z := take len (default [] buf).
Definition stored_insns t := stored (insns t) (insns_len t).
Definition stored_blocks t := stored (blocks t) (blocks_len t).

(** A buffer of capacity [cap] whose entries are the first [cap] of [l]. *)
Definition holds (buf : option (list Z)) (cap len : nat) (l : list Z) : Prop :=
  match buf with
  | Some b => length b = cap ∧ len = Nat.min cap (length l) ∧ take len b = take cap l
  | None => cap = O ∧ len = O
  end.

(** Entries were dropped: the dimension is recorded and its stream is longer
    than its capacity. *)
Definition dropped (buf : option (list Z)) (cap : nat) (l : list Z) : bool :=
  if buf is Some _ then (cap <? length l)%nat else false.

Record refines (t : asmtest_trace) (xs bs : list Z) : Prop := {
  ref_insns : holds (insns t) (insns_cap t) (insns_len t) xs;
  ref_itotal : insns_total t = u64 (Z.of_nat (length xs));
  ref_blocks : holds (blocks t) (blocks_cap t) (blocks_len t) (distinct bs);
  ref_btotal : blocks_total t = u64 (Z.of_nat (length bs));
  ref_trunc : truncated t = dropped (insns t) (insns_cap t) xs
                            || dropped (blocks t) (blocks_cap t) (distinct bs);
}.

(** ** Lemmas *)
Lemma scan_spec buf len off : scan buf len off = bool_decide (off ∈ take len buf).
Proof.
  unfold scan. apply eq_true_iff_eq. rewrite existsb_exists, bool_decide_eq_true.
  setoid_rewrite Z.eqb_eq. setoid_rewrite <-list_elem_of_In. naive_solver.
Qed.

Lemma holds_len buf cap len l : holds buf cap len l → (len <= cap)%nat.
Proof. destruct buf; simpl; lia. Qed.

(** One more entry into a buffer with room, and into a full one. *)
Lemma holds_push b cap len l x :
  holds (Some b) cap len l → (len < cap)%nat →
  holds (Some (<[len := x]> b)) cap (S len) (l ++ [x]) ∧
  dropped (Some b) cap l = false ∧ dropped (Some b) cap (l ++ [x]) = false.
Proof.
  intros (Hb & Hlen & Htake) Hlt. simpl. rewrite length_insert, length_app. simpl.
  rewrite !Nat.ltb_ge, take_S_insert by lia.
  rewrite (take_snoc_gt cap) by lia. rewrite Htake, take_ge by lia.
  split_and!; auto; lia.
Qed.

Lemma holds_full b cap len l x :
  holds (Some b) cap len l → (cap <= len)%nat →
  holds (Some b) cap len (l ++ [x]) ∧ dropped (Some b) cap (l ++ [x]) = true.
Proof.
  intros (Hb & Hlen & Htake) Hle. simpl. rewrite length_app. simpl.
  rewrite Nat.ltb_lt, take_snoc_le by lia. split_and!; auto; lia.
Qed.

Lemma u64_count {A} (l : list A) x :
  u64 (Z.of_nat (length l)) +64 1 = u64 (Z.of_nat (length (l ++ [x]))).
Proof. rewrite u64_add_l, length_app. f_equal. simpl. lia. Qed.

Lemma append_insn_refines t xs bs off :
  refines t xs bs → refines (append_insn t off) (xs ++ [off]) bs.
Proof.
  intros [Hi Hit Hb Hbt Ht]. unfold append_insn.
  destruct (insns t) as [buf|] eqn:E.
  - destruct (Nat.ltb_spec (insns_len t) (insns_cap t)) as [Hlt|Hge].
    + destruct (holds_push _ _ _ _ off Hi Hlt) as (H1 & H2 & H3).
      split; simpl; rewrite ?Hit; auto using u64_count.
      by rewrite Ht, H2, <-H3.
    + destruct (holds_full _ _ _ _ off Hi Hge) as (H1 & H2).
      split; simpl; rewrite ?Hit; auto using u64_count.
      simpl in H2. by rewrite H2.
  - split; simpl; rewrite ?Hit; auto using u64_count.
Qed.

(** The block scan decides membership in the distinct stream, except for
    entries that were dropped. *)
Lemma append_block_refines t xs bs off :
  refines t xs bs → refines (append_block t off) xs (bs ++ [off]).
Proof.
  intros [Hi Hit Hb Hbt Ht]. unfold append_block.
  destruct (blocks t) as [buf|] eqn:E; cycle 1.
  { split; simpl; rewrite ?Hbt, ?E; auto using u64_count. }
  rewrite scan_spec. pose proof Hb as (Hlen & Hmin & Htake).
  assert (take (blocks_len t) buf ⊆ distinct bs) as Hsub.
  { rewrite Htake. apply subseteq_take. }
  case_bool_decide as Hin.
  { assert (snoc_new (distinct bs) off = distinct bs) as Hsn.
    { unfold snoc_new. rewrite bool_decide_eq_true_2; auto. }
    split; simpl; rewrite ?Hbt, ?E, ?distinct_snoc, ?Hsn; auto using u64_count. }
  destruct (Nat.ltb_spec (blocks_len t) (blocks_cap t)) as [Hlt|Hge].
  - assert (snoc_new (distinct bs) off = distinct bs ++ [off]) as Hsn.
    { unfold snoc_new. rewrite bool_decide_eq_false_2; [done|].
      by rewrite <-(take_ge (distinct bs) (blocks_cap t)), <-Htake by lia. }
    destruct (holds_push _ _ _ _ off Hb Hlt) as (H1 & H2 & H3).
    split; simpl; rewrite ?Hbt, ?distinct_snoc, ?Hsn; auto using u64_count.
    simpl in H2, H3. by rewrite Ht, H3; simpl; rewrite H2.
  - split; simpl; rewrite ?Hbt, ?E, ?distinct_snoc; auto using u64_count.
    + unfold snoc_new. case_bool_decide; [done|]. by apply holds_full.
    + unfold snoc_new. case_bool_decide as Hd.
      * rewrite orb_comm. symmetry. apply orb_true_intro. left. simpl. apply Nat.ltb_lt.
        apply Nat.nle_gt. intros ?. apply Hin. by rewrite Htake, take_ge by lia.
      * destruct (holds_full _ _ _ _ off Hb Hge) as (_ & H2). simpl in H2 |- *.
        by rewrite H2, orb_true_r.
Qed.

Lemma run_refines es t xs bs :
  refines t xs bs → refines (run t es) (xs ++ insn_stream es) (bs ++ block_stream es).
Proof.
  revert t xs bs. induction es as [|e es IH]; intros t xs bs Ht; simpl.
  { by rewrite !app_nil_r. }
  destruct e as [off|off]; simpl.
  - rewrite (cons_middle off xs), app_assoc. by apply IH, append_insn_refines.
  - rewrite (cons_middle off bs), app_assoc. by apply IH, append_block_refines.
Qed.

Lemma calloc_u64_holds grant cap :
  let b := calloc_u64 grant cap in holds b (if b is Some _ then cap else O) O [].
Proof.
  unfold calloc_u64. destruct (_ && _); simpl; [|done].
  by rewrite length_replicate, Nat.min_0_r, take_nil.
Qed.

Lemma new_refines grant ic bc t :
  asmtest_trace_new grant ic bc = Some t → refines t [] [].
Proof.
  unfold asmtest_trace_new. case_match; [|done]. intros [= <-].
  split; simpl; try apply calloc_u64_holds; try done; by repeat case_match.
Qed.

Lemma holds_stored buf cap len l : holds buf cap len l → stored buf len = take cap l.
Proof. destruct buf; simpl; [tauto|]. intros [-> ->]. done. Qed.

Lemma dropped_spec buf cap len l :
  holds buf cap len l → dropped buf cap l = true ↔ buf ≠ None ∧ stored buf len ≠ l.
Proof.
  intros H. rewrite (holds_stored _ _ _ _ H). destruct buf; simpl; [|naive_solver].
  rewrite Nat.ltb_lt. split.
  - intros Hlt. split; [done|]. intros E%(f_equal length).
    rewrite length_take in E. lia.
  - intros [_ Hne]. apply Nat.nle_gt. intros ?. by rewrite take_ge in Hne.
Qed.

(** C11: a handle from [asmtest_trace_new] fed any sequence of fill-point calls
    keeps exactly the first [insns_cap] executed instructions in order and the
    first [blocks_cap] distinct blocks in order of first entry, its totals count
    every call modulo 2^64, and [truncated] is raised exactly when a recorded
    dimension lost an entry. *)
Theorem trace_sink_faithful grant ic bc t es
    (Hnew : asmtest_trace_new grant ic bc = Some t) :
  let t' := run t es in
  stored_insns t' = take (insns_cap t') (insn_stream es) ∧
  stored_blocks t' = take (blocks_cap t') (distinct (block_stream es)) ∧
  insns_total t' = u64 (Z.of_nat (length (insn_stream es))) ∧
  blocks_total t' = u64 (Z.of_nat (length (block_stream es))) ∧
  (truncated t' = true ↔
     insns t' ≠ None ∧ stored_insns t' ≠ insn_stream es ∨
     blocks t' ≠ None ∧ stored_blocks t' ≠ distinct (block_stream es)).
Proof.
  apply new_refines, (run_refines es) in Hnew as [Hi Hit Hb Hbt Ht]; simpl in *.
  split_and!; eauto using holds_stored.
  rewrite Ht, orb_true_iff, (dropped_spec _ _ _ _ Hi), (dropped_spec _ _ _ _ Hb). done.
Qed.

Lemma trace_sink_faithful_witness :
  ∃ t, asmtest_trace_new always 2 2 = Some t ∧
    stored_insns (run t [EBlock 0; EInsn 0; EInsn 4; EBlock 8; EInsn 8; EBlock 0])
    = [0; 4].
Proof.
  eexists. split; [reflexivity|].
  rewrite (proj1 (trace_sink_faithful always 2 2 _ _ eq_refl)). reflexivity.
Defined.

Lemma block_stream_In es off : off ∈ block_stream es ↔ EBlock off ∈ es.
Proof.
  unfold block_stream. rewrite list_elem_of_omap. split; [|by exists (EBlock off)].
  intros ([]&?&?); naive_solver.
Qed.

Lemma refines_stored_blocks t xs bs :
  refines t xs bs → blocks t ≠ None → truncated t = false → stored_blocks t = distinct bs.
Proof.
  intros [_ _ Hb _ Ht] Hne Hf. rewrite Hf in Ht. symmetry in Ht.
  apply orb_false_elim in Ht as [_ Hd].
  destruct (decide (stored_blocks t = distinct bs)) as [|Hs]; [done|].
  rewrite (proj2 (dropped_spec _ _ _ _ Hb)) in Hd by done. done.
Qed.

Lemma refines_covered t xs bs off :
  refines t xs bs → blocks t ≠ None → truncated t = false →
  emu_trace_covered (Some t) off = true ↔ off ∈ bs.
Proof.
  intros Hr Hne Hf. pose proof (refines_stored_blocks _ _ _ Hr Hne Hf) as Hs.
  unfold emu_trace_covered, stored_blocks, stored in *; simpl.
  destruct (blocks t) as [buf|]; [|done]. simpl in Hs.
  rewrite scan_spec, Hs. case_bool_decide as Hin; rewrite elem_of_distinct in Hin; simpl;
    naive_solver.
Qed.

(** On a handle that records blocks and was not truncated, the coverage
    predicate answers exactly whether a block was entered, whatever order the
    calls came in and however often they repeated. *)
Theorem covered_iff_entered grant ic bc t es off
    (Hnew : asmtest_trace_new grant ic bc = Some t)
    (Hblocks : blocks (run t es) ≠ None) (Hfull : truncated (run t es) = false) :
  emu_trace_covered (Some (run t es)) off = true ↔ EBlock off ∈ es.
Proof.
  apply new_refines, (run_refines es) in Hnew; simpl in *.
  by rewrite (refines_covered _ _ _ _ Hnew), block_stream_In.
Qed.

Lemma covered_iff_entered_witness :
  ∃ t, asmtest_trace_new always 0 4 = Some t ∧
    emu_trace_covered (Some (run t [EBlock 8; EBlock 0; EBlock 8])) 8 = true ∧
    emu_trace_covered (Some (run t [EBlock 8; EBlock 0; EBlock 8])) 4 = false.
Proof.
  eexists. split; [reflexivity|]. split.
  - apply (covered_iff_entered always 0 4); [reflexivity|done|reflexivity|set_solver].
  - reflexivity.
Defined.

(** Reading a dimension through the scalar accessors, index by index, gives the
    recorded entries back; past the end they answer 0. *)
Lemma entry_at_stored buf len :
  (len <= length (default [] buf))%nat →
  entry_at buf len <$> seq 0 len = stored buf len.
Proof.
  intros Hlen. apply list_eq. intros i. unfold stored. rewrite list_lookup_fmap.
  destruct (decide (i < len)%nat).
  - rewrite lookup_seq_lt by done. simpl. unfold entry_at.
    rewrite (proj2 (Nat.ltb_lt _ _)) by done.
    rewrite lookup_take_lt by done. symmetry. apply list_lookup_lookup_total_lt. lia.
  - rewrite lookup_seq_ge, lookup_take_ge by lia. done.
Qed.

Theorem accessors_read_back grant ic bc t es
    (Hnew : asmtest_trace_new grant ic bc = Some t) :
  let t' := run t es in
  asmtest_emu_trace_insn_at t' <$> seq 0 (insns_len t') = stored_insns t' ∧
  asmtest_emu_trace_block_at t' <$> seq 0 (blocks_len t') = stored_blocks t' ∧
  asmtest_emu_trace_insn_at t' (insns_len t') = 0 ∧
  ∀ off, asmtest_emu_trace_covered t' off = asmtest_trace_covered (Some t') off.
Proof.
  apply new_refines, (run_refines es) in Hnew as [Hi _ Hb _ _]; simpl in *.
  assert (∀ buf cap len l, holds buf cap len l → (len <= length (default [] buf))%nat) as Hl.
  { intros [b|] cap len l; simpl; lia. }
  split_and!; try (eapply entry_at_stored, Hl; eassumption).
  - unfold asmtest_emu_trace_insn_at, entry_at. by rewrite Nat.ltb_irrefl.
  - intros off. unfold asmtest_emu_trace_covered, asmtest_trace_covered.
    destruct (blocks (run t es)); simpl in *; [done|]. by destruct Hb as [_ ->].
Qed.
End Trace.
