(* ===== verification/Format.v ===== *)
(** The [printf] conversions the reports use: [%llu]/[%zu]/[%u], [%llx]/[%x]
    and [%d], as functions to strings, with the reading of a numeral that
    inverts them. *)
From S2P Require Import Prelude.

Definition nl : string := String (Ascii.ascii_of_nat 10) EmptyString.

Definition digit_char (d : Z) : Ascii.ascii :=
  Ascii.ascii_of_nat (Z.to_nat (if d <? 10 then 48 + d else 87 + d)).

Definition char_digit (c : Ascii.ascii) : Z :=
  let n := Z.of_nat (Ascii.nat_of_ascii c) in if n <? 58 then n - 48 else n - 87.

(** Least significant digit first onto an accumulator; 64 rounds are enough for
    a 64-bit value in any base from 2 up. *)
Fixpoint digits (fuel : nat) (base n : Z) (acc : string) : string :=
  match fuel with
  | O => acc
  | S fuel =>
      let acc := String (digit_char (n mod base)) acc in
      if n / base =? 0 then acc else digits fuel base (n / base) acc
  end.

Definition fmt_u (n : Z) : string := digits 64 10 n EmptyString.
Definition fmt_x (n : Z) : string := digits 64 16 n EmptyString.
Definition fmt_d (n : Z) : string :=
  if n <? 0 then ("-" +:+ fmt_u (- n))%string else fmt_u n.

(** Reading a numeral. *)
Fixpoint numeral (base acc : Z) (s : string) : Z :=
  match s with
  | EmptyString => acc
  | String c s => numeral base (acc * base + char_digit c) s
  end.

Lemma char_digit_char d : 0 <= d < 16 → char_digit (digit_char d) = d.
Proof.
  intros H.
  assert (d = 0 ∨ d = 1 ∨ d = 2 ∨ d = 3 ∨ d = 4 ∨ d = 5 ∨ d = 6 ∨ d = 7 ∨ d = 8 ∨ d = 9 ∨
          d = 10 ∨ d = 11 ∨ d = 12 ∨ d = 13 ∨ d = 14 ∨ d = 15) by lia.
  by destruct_or!; subst.
Qed.

Lemma numeral_digits fuel base n acc :
  2 <= base <= 16 → 0 <= n < 2 ^ Z.of_nat fuel →
  numeral base 0 (digits fuel base n acc) = numeral base n acc.
Proof.
  intros Hb. revert n acc. induction fuel as [|fuel IH]; intros n acc Hn.
  { simpl in *. by replace n with 0 by lia. }
  rewrite Nat2Z.inj_succ, Z.pow_succ_r in Hn by lia.
  cbn [digits]. pose proof (Z.mod_pos_bound n base). pose proof (Z.div_mod n base).
  assert (numeral base (n / base) (String (digit_char (n mod base)) acc)
          = numeral base n acc) as E.
  { simpl. rewrite char_digit_char by lia. f_equal. lia. }
  destruct (Z.eqb_spec (n / base) 0) as [Hz|Hz].
  - rewrite <-E, Hz. done.
  - rewrite IH, E; [done|]. split; [apply Z.div_pos; lia|].
    apply Z.div_lt_upper_bound; nia.
Qed.

Lemma numeral_fmt_u n : 0 <= n < 2 ^ 64 → numeral 10 0 (fmt_u n) = n.
Proof. intros. unfold fmt_u. by rewrite numeral_digits by lia. Qed.
Lemma numeral_fmt_x n : 0 <= n < 2 ^ 64 → numeral 16 0 (fmt_x n) = n.
Proof. intros. unfold fmt_x. by rewrite numeral_digits by lia. Qed.

(** [snprintf(buf, n, "%s", s)] into a buffer of [n] bytes. *)
Definition cstr (n : nat) (s : string) : string := String.substring 0 (n - 1) s.
