(* ===== verification/Coverage.v ===== *)
(** Coverage predicates, reports and source-line mapping of [src/trace.c],
    over the trace sink of [Trace.v]. *)
From S2P Require Import Prelude Format Trace.
Import Trace.

Module Coverage.
Local Open Scope string_scope.
Local Open Scope Z_scope.

(** [cmp_u64] of the source. *)
Definition cmp_u64 (x y : Z) : Z := cmp3 x y.

(** The malloc'd ascending copy of the distinct blocks; [None] for the null
    return (nothing recorded, or no memory). *)
Definition sorted_blocks (grant : allocator) (t : option asmtest_trace) : option (list Z) :=
  match t with
  | Some t =>
      match blocks t with
      | Some buf =>
          if (blocks_len t =? 0)%nat then None
          else if grant (8 * Z.of_nat (blocks_len t))
               then Some (msort cmp_u64 (take (blocks_len t) buf)) else None
      | None => None
      end
  | None => None
  end.

Definition hex_list (l : list Z) : string :=
  foldl (λ s x, s +:+ " 0x" +:+ fmt_x x) "" l.

(** A [FILE *] is either null or collects the text printed to it. *)
Definition emu_trace_report (grant : allocator) (t : option asmtest_trace) (out : bool) :
    string :=
  match t with
  | Some t =>
      if out then
        "coverage: " +:+ fmt_u (Z.of_nat (blocks_len t)) +:+ " distinct blocks, "
        +:+ fmt_u (blocks_total t) +:+ " block entries, "
        +:+ fmt_u (insns_total t) +:+ " instructions"
        +:+ (if truncated t then " (truncated)" else "") +:+ nl
        +:+ match sorted_blocks grant (Some t) with
            | Some s => "  blocks:" +:+ hex_list s +:+ nl
            | None => ""
            end
      else ""
  | None => ""
  end.

Definition asmtest_trace_report := emu_trace_report.

(** The return value and the printed text. *)
Definition emu_coverage_uncovered (grant : allocator) (covered universe : option asmtest_trace)
    (out : bool) : Z * string :=
  match universe with
  | Some u =>
      match blocks u with
      | Some buf =>
          let total := blocks_len u in
          if grant (8 * Z.of_nat (if (total =? 0)%nat then 1 else total)%nat) then
            let miss := msort cmp_u64
              (filter (λ b, emu_trace_covered covered b = false) (take total buf)) in
            let nmiss := length miss in
            (Z.of_nat nmiss,
             if out then
               "coverage: " +:+ fmt_u (Z.of_nat (total - nmiss)) +:+ "/"
               +:+ fmt_u (Z.of_nat total) +:+ " blocks covered" +:+ nl
               +:+ (if (0 <? nmiss)%nat then "  uncovered:" +:+ hex_list miss +:+ nl else "")
             else "")
          else (0, "")
      | None => (0, "")
      end
  | None => (0, "")
  end.

Definition emu_trace_lcov (grant : allocator) (t : option asmtest_trace)
    (name : option string) (out : bool) : string :=
  match t with
  | Some t =>
      if out then
        let s := default [] (sorted_blocks grant (Some t)) in
        "TN:" +:+ nl +:+ "SF:" +:+ default "routine" name +:+ nl
        +:+ foldl (λ acc b, acc +:+ "DA:" +:+ fmt_u b +:+ ",1" +:+ nl) "" s
        +:+ "LF:" +:+ fmt_u (Z.of_nat (length s)) +:+ nl
        +:+ "LH:" +:+ fmt_u (Z.of_nat (length s)) +:+ nl +:+ "end_of_record" +:+ nl
      else ""
  | None => ""
  end.

(** ** Line maps *)
Record emu_line_entry := mk_line { le_offset : Z; le_line : Z }.
(** [None] is a null map or a null row array; the count is the list's length. *)
Definition emu_line_map := option (list emu_line_entry).

(** The loop both lookups share: keep the last row at or before [off], stop at
    the first row past it. *)
Fixpoint enclosing {A} (offset : A → Z) (rows : list A) (off : Z) (hit : option A) : option A :=
  match rows with
  | [] => hit
  | e :: rows => if offset e <=? off then enclosing offset rows off (Some e) else hit
  end.

Definition emu_line_lookup (map : emu_line_map) (off : Z) : option emu_line_entry :=
  match map with Some rows => enclosing le_offset rows off None | None => None end.

Record line_cov := mk_cov { lc_line : Z; lc_hit : bool }.
Definition cmp_line_cov (a b : line_cov) : Z := cmp3 (lc_line a) (lc_line b).

(** The inner loop that flags the first row of a line and stops. *)
Fixpoint mark (ln : Z) (lc : list line_cov) : list line_cov :=
  match lc with
  | [] => []
  | c :: lc => if lc_line c =? ln then mk_cov (lc_line c) true :: lc else c :: mark ln lc
  end.

(** The inner loop that appends a line not yet collected. *)
Definition add_line (lc : list line_cov) (ln : Z) : list line_cov :=
  if existsb (λ c, lc_line c =? ln) lc then lc else lc ++ [mk_cov ln false].

Definition mark_block (map : emu_line_map) (lc : list line_cov) (b : Z) : list line_cov :=
  match emu_line_lookup map b with Some en => mark (le_line en) lc | None => lc end.

Definition sizeof_line_cov : Z := 8.

Definition source_coverage (grant : allocator) (covered : option asmtest_trace)
    (map : emu_line_map) : option (list line_cov) :=
  match map with
  | Some ((_ :: _) as rows) =>
      if grant (sizeof_line_cov * Z.of_nat (length rows)) then
        let lc := foldl add_line [] (le_line <$> rows) in
        let lc := match covered with
                  | Some t => match blocks t with
                              | Some buf => foldl (mark_block map) lc (take (blocks_len t) buf)
                              | None => lc
                              end
                  | None => lc
                  end in
        Some (msort cmp_line_cov lc)
      else None
  | _ => None
  end.

Definition emu_trace_source_report (grant : allocator) (covered : option asmtest_trace)
    (map : emu_line_map) (out : bool) : Z * string :=
  match source_coverage grant covered map with
  | Some lc =>
      let n := length lc in
      let hit := length (filter (λ c, lc_hit c = true) lc) in
      (Z.of_nat (n - hit),
       if out then
         "source coverage: " +:+ fmt_u (Z.of_nat hit) +:+ "/" +:+ fmt_u (Z.of_nat n)
         +:+ " lines covered" +:+ nl
         +:+ (if (hit <? n)%nat then
                "  uncovered lines:"
                +:+ foldl (λ s c, if lc_hit c then s else s +:+ " " +:+ fmt_u (lc_line c)) "" lc
                +:+ nl
              else "")
       else "")
  | None => (0, "")
  end.

Definition emu_trace_lcov_source (grant : allocator) (covered : option asmtest_trace)
    (map : emu_line_map) (source_file : option string) (out : bool) : string :=
  if out then
    let lc := default [] (source_coverage grant covered map) in
    let hit := length (filter (λ c, lc_hit c = true) lc) in
    "TN:" +:+ nl +:+ "SF:" +:+ default "routine" source_file +:+ nl
    +:+ foldl (λ s c, s +:+ "DA:" +:+ fmt_u (lc_line c) +:+ ","
                      +:+ fmt_d (if lc_hit c then 1 else 0) +:+ nl) "" lc
    +:+ "LF:" +:+ fmt_u (Z.of_nat (length lc)) +:+ nl
    +:+ "LH:" +:+ fmt_u (Z.of_nat hit) +:+ nl +:+ "end_of_record" +:+ nl
  else "".

(** ** The uncovered count *)
#[local] Instance cmp_u64_total : Total (cmp_le cmp_u64).
Proof. intros x y. unfold cmp_le, cmp_u64. rewrite !cmp3_le. lia. Qed.

(** Given a complete trace of the covered run and a complete trace of the
    universe run, [emu_coverage_uncovered] returns the number of distinct blocks
    of the universe the covered run never entered; 0 exactly when it entered
    all of them. *)
Theorem uncovered_counts_missing grant ic bc ic' bc' tc tu es eu out
    (Hgrant : ∀ n, grant n = true)
    (Hc : asmtest_trace_new grant ic bc = Some tc)
    (Hu : asmtest_trace_new grant ic' bc' = Some tu)
    (Hcb : blocks (run tc es) ≠ None) (Hct : truncated (run tc es) = false)
    (Hub : blocks (run tu eu) ≠ None) (Hut : truncated (run tu eu) = false) :
  let n := (emu_coverage_uncovered grant (Some (run tc es)) (Some (run tu eu)) out).1 in
  n = Z.of_nat (length (filter (λ b, EBlock b ∉ es) (distinct (block_stream eu)))) ∧
  (n = 0 ↔ ∀ b, EBlock b ∈ eu → EBlock b ∈ es).
Proof.
  set (n := (_ : Z * string).1). cbv zeta.
  assert (n = Z.of_nat (length (filter (λ b, EBlock b ∉ es) (distinct (block_stream eu)))))
    as Hn; [|split; [done|]].
  { unfold n, emu_coverage_uncovered.
    apply new_refines, (run_refines eu) in Hu. apply new_refines, (run_refines es) in Hc.
    pose proof (refines_stored_blocks _ _ _ Hu Hub Hut) as Hs. unfold stored_blocks, stored in Hs.
    destruct (blocks (run tu eu)) as [buf|]; [|done]. rewrite Hgrant. simpl in *.
    rewrite Hs. f_equal. unfold msort. rewrite merge_sort_Permutation.
    f_equal. apply list_filter_iff. intros b.
    rewrite <-block_stream_In, <-(refines_covered _ _ _ b Hc Hcb Hct). by destruct (emu_trace_covered _ _). }
  rewrite Hn. split.
  - intros H b Hb. destruct (decide (EBlock b ∈ es)) as [|Hne]; [done|exfalso].
    assert (b ∈ filter (λ b, EBlock b ∉ es) (distinct (block_stream eu))) as Hin.
    { apply list_elem_of_filter. split; [done|]. apply elem_of_distinct. by apply block_stream_In. }
    destruct (filter _ _); [by apply elem_of_nil in Hin|]. simpl in H. lia.
  - intros H. destruct (filter _ _) as [|b l] eqn:E; [done|exfalso].
    assert (b ∈ filter (λ b, EBlock b ∉ es) (distinct (block_stream eu))) as Hin
      by (rewrite E; left).
    apply list_elem_of_filter in Hin as [Hne Hin%elem_of_distinct%block_stream_In]. auto.
Qed.

Lemma uncovered_counts_missing_witness :
  ∃ tc tu, asmtest_trace_new always 0 4 = Some tc ∧ asmtest_trace_new always 0 4 = Some tu ∧
    (emu_coverage_uncovered always (Some (run tc [EBlock 0; EBlock 8]))
       (Some (run tu [EBlock 0; EBlock 4; EBlock 8; EBlock 12])) true).1 = 2.
Proof.
  do 2 eexists. split; [reflexivity|]. split; [reflexivity|].
  rewrite (proj1 (uncovered_counts_missing always 0 4 0 4 _ _ [EBlock 0; EBlock 8]
    [EBlock 0; EBlock 4; EBlock 8; EBlock 12] true (λ _, eq_refl) eq_refl eq_refl
    ltac:(done) eq_refl ltac:(done) eq_refl)).
  reflexivity.
Defined.

(** ** Row lookup *)
Section enclosing.
Context {A : Type} (offset : A → Z).
Lemma enclosing_last rows off hit :
  StronglySorted (λ x y, offset x <= offset y) rows →
  enclosing offset rows off hit =
  match last (filter (λ e, offset e <= off) rows) with Some e => Some e | None => hit end.
Proof.
  intros Hs. revert hit. induction Hs as [|e rows Hs IH Hall]; intros hit; [done|].
  simpl. rewrite filter_cons. destruct (Z.leb_spec (offset e) off) as [Hle|Hgt].
  - rewrite decide_True by done. rewrite IH, last_cons. by destruct (last _).
  - rewrite decide_False by lia. replace (filter (λ e, offset e <= off) rows) with (@nil A); [done|].
    clear IH Hs. induction Hall as [|y rows Hy _ IHf]; [done|].
    rewrite filter_cons, decide_False by lia. done.
Qed.
End enclosing.

(** ** Source-line coverage *)
Definition line_hit (map : emu_line_map) (bs : list Z) (ln : Z) : bool :=
  existsb (λ b, match emu_line_lookup map b with
                | Some en => le_line en =? ln | None => false end) bs.

Lemma add_lines_distinct lines :
  foldl add_line [] lines = (λ ln, mk_cov ln false) <$> distinct lines.
Proof.
  induction lines as [|ln lines IH] using rev_ind; [done|].
  rewrite foldl_app. simpl. rewrite IH, distinct_snoc. unfold add_line, snoc_new.
  assert (existsb (λ c, lc_line c =? ln) ((λ ln, mk_cov ln false) <$> distinct lines)
          = bool_decide (ln ∈ distinct lines)) as ->.
  { apply eq_true_iff_eq. rewrite existsb_exists, bool_decide_eq_true.
    setoid_rewrite <-list_elem_of_In. setoid_rewrite list_elem_of_fmap.
    setoid_rewrite Z.eqb_eq. naive_solver. }
  case_bool_decide; [done|]. by rewrite fmap_app.
Qed.

Lemma mark_spec ln lc :
  NoDup (lc_line <$> lc) →
  mark ln lc = (λ c, mk_cov (lc_line c) (lc_hit c || (lc_line c =? ln))) <$> lc.
Proof.
  induction lc as [|[l h] lc IH]; simpl; [done|]. rewrite NoDup_cons. intros [Hn Hnd].
  destruct (Z.eqb_spec l ln) as [->|Hne]; simpl.
  - rewrite orb_true_r. f_equal. transitivity (id <$> lc); [by rewrite list_fmap_id|].
    apply list_fmap_ext. intros i [l' h'] Hi. simpl. destruct (Z.eqb_spec l' ln) as [->|].
    + exfalso. apply Hn. apply list_elem_of_fmap. exists (mk_cov ln h').
      split; [done|]. by eapply list_elem_of_lookup_2.
    + by rewrite orb_false_r.
  - rewrite orb_false_r, IH by done. done.
Qed.

Lemma mark_blocks_spec map bs lines (f : Z → bool) :
  NoDup lines →
  foldl (mark_block map) ((λ ln, mk_cov ln (f ln)) <$> lines) bs =
  (λ ln, mk_cov ln (f ln || line_hit map bs ln)) <$> lines.
Proof.
  intros Hnd. revert f. induction bs as [|b bs IH]; intros f; simpl.
  { apply list_fmap_ext. intros. by rewrite orb_false_r. }
  unfold mark_block at 2. destruct (emu_line_lookup map b) as [en|] eqn:E; [|by apply IH].
  rewrite mark_spec, <-list_fmap_compose.
  - rewrite (list_fmap_ext _ (λ ln, mk_cov ln (f ln || (le_line en =? ln)))).
    + rewrite IH. apply list_fmap_ext. intros. by rewrite orb_assoc.
    + intros. simpl. by rewrite Z.eqb_sym.
  - rewrite <-list_fmap_compose. simpl. rewrite (list_fmap_ext _ id) by done.
    by rewrite list_fmap_id.
Qed.

Lemma source_coverage_spec grant t rows :
  (∀ n, grant n = true) → rows ≠ [] →
  source_coverage grant (Some t) (Some rows) =
  Some (msort cmp_line_cov
    ((λ ln, mk_cov ln (line_hit (Some rows) (stored_blocks t) ln)) <$> distinct (le_line <$> rows))).
Proof.
  intros Hg Hne. destruct rows as [|r rows]; [done|]. unfold source_coverage.
  rewrite Hg, add_lines_distinct. do 2 f_equal. unfold stored_blocks, stored.
  destruct (blocks t) as [buf|].
  - rewrite (mark_blocks_spec _ _ _ (λ _, false)) by apply NoDup_distinct. done.
  - apply list_fmap_ext; intros ???; simpl; by rewrite take_nil.
Qed.

#[local] Instance cmp_line_cov_total : Total (cmp_le cmp_line_cov).
Proof. intros x y. unfold cmp_le, cmp_line_cov. rewrite !cmp3_le. lia. Qed.
#[local] Instance cmp_line_cov_trans : Transitive (cmp_le cmp_line_cov).
Proof. intros x y z. unfold cmp_le, cmp_line_cov. rewrite !cmp3_le. lia. Qed.

(** The source-line report counts exactly the distinct lines of the map no
    recorded block resolves to (a block resolves to the row that encloses its
    offset), and lists lines in strictly ascending order. *)
Theorem source_report_exact grant t rows out
    (Hgrant : ∀ n, grant n = true) (Hrows : rows ≠ []) :
  (emu_trace_source_report grant (Some t) (Some rows) out).1 =
  Z.of_nat (length (filter
    (λ ln, line_hit (Some rows) (stored_blocks t) ln = false) (distinct (le_line <$> rows)))) ∧
  ∃ lc, source_coverage grant (Some t) (Some rows) = Some lc ∧
        StronglySorted Z.lt (lc_line <$> lc) ∧
        ∀ ln, ln ∈ lc_line <$> lc ↔ ∃ en, en ∈ rows ∧ le_line en = ln.
Proof.
  pose proof (source_coverage_spec grant t rows Hgrant Hrows) as Hsc.
  split.
  - unfold emu_trace_source_report. rewrite Hsc. simpl. f_equal.
    set (l := _ <$> _). unfold msort. rewrite merge_sort_Permutation.
    rewrite <-(length_filter_flag lc_hit l), Nat.add_comm, Nat.add_sub.
    unfold l. by rewrite list_filter_fmap, length_fmap.
  - eexists. split; [exact Hsc|].
    set (l := (λ ln, mk_cov ln _) <$> _).
    assert (lc_line <$> msort cmp_line_cov l ≡ₚ distinct (le_line <$> rows)) as Hp.
    { unfold msort. rewrite merge_sort_Permutation. unfold l.
      rewrite <-list_fmap_compose. simpl. rewrite (list_fmap_ext _ id) by done. by rewrite list_fmap_id. }
    split.
    + apply StronglySorted_le_lt; [|rewrite Hp; apply NoDup_distinct].
      apply (StronglySorted_fmap lc_line (cmp_le cmp_line_cov)); [intros x y; apply cmp3_le|].
      apply Sorted_StronglySorted, Sorted_merge_sort; apply _.
    + intros ln. rewrite Hp, elem_of_distinct, list_elem_of_fmap. naive_solver.
Qed.

Lemma source_report_exact_witness :
  let t := mk_trace None 0 0 0 (Some [0; 9]) 2 2 2 false in
  let rows := [mk_line 0 10; mk_line 4 11; mk_line 8 12] in
  (emu_trace_source_report always (Some t) (Some rows) false).1 = 1.
Proof.
  cbv zeta.
  destruct (source_report_exact always (mk_trace None 0 0 0 (Some [0; 9]) 2 2 2 false)
    [mk_line 0 10; mk_line 4 11; mk_line 8 12] false) as [H _]; [done|done|].
  rewrite H. reflexivity.
Defined.
End Coverage.
