(* ===== verification/SrcMap.v ===== *)
(** The widened attribution schema and the version-keyed attribution registry
    of [src/trace.c] ([asmtest_srcmap_*] and [asmtest_srcreg_*]). *)
From S2P Require Import Prelude Grow Format Trace Coverage.
Import Trace Coverage.

Module SrcMap.
Local Open Scope string_scope.
Local Open Scope Z_scope.
Local Open Scope list_scope.

Definition ASMTEST_SRC_LINE : Z := 1.
Definition ASMTEST_SRC_IL : Z := 2.
Definition ASMTEST_SRC_BCI : Z := 3.
Definition ASMTEST_SRC_IL_NO_MAPPING : Z := -1.
Definition ASMTEST_SRC_IL_PROLOG : Z := -2.
Definition ASMTEST_SRC_IL_EPILOG : Z := -3.

(** [asmtest_srcmap_entry_t]; [value] is an [int32_t]. *)
Record srcmap_entry := mk_entry {
  offset : Z; value : Z; kind : Z; file_id : Z; col : Z
}.

(** [asmtest_srcmap_t]: a null row array and a null file table are [None]; a
    null path in the table is [None] too. *)
Record srcmap := mk_srcmap {
  entries : option (list srcmap_entry);
  files : option (list (option string));
}.

Definition asmtest_srcmap_lookup (m : option srcmap) (off : Z) : option srcmap_entry :=
  match m with
  | Some m => match entries m with
              | Some rows => enclosing offset rows off None
              | None => None
              end
  | None => None
  end.

(** [snprintf] into [label[64]]; every label is shorter than the buffer. *)
Definition srcmap_label (en : srcmap_entry) : string :=
  if kind en =? ASMTEST_SRC_LINE then "line " +:+ fmt_d (value en)
  else if kind en =? ASMTEST_SRC_IL then
    if value en =? ASMTEST_SRC_IL_NO_MAPPING then "NO_MAPPING"
    else if value en =? ASMTEST_SRC_IL_PROLOG then "PROLOG"
    else if value en =? ASMTEST_SRC_IL_EPILOG then "EPILOG"
    else "IL_0x" +:+ fmt_x (u32 (value en))
  else if kind en =? ASMTEST_SRC_BCI then "bci " +:+ fmt_d (value en)
  else "value " +:+ fmt_d (value en).

Definition row_file (m : option srcmap) (en : srcmap_entry) : option string :=
  if file_id en =? UINT32_MAX then None
  else match m with
       | Some m => match files m with
                   | Some fs => if file_id en <? Z.of_nat (length fs)
                                then mjoin (fs !! Z.to_nat (file_id en)) else None
                   | None => None
                   end
       | None => None
       end.

Definition srcmap_line (m : option srcmap) (off : Z) : string :=
  match asmtest_srcmap_lookup m off with
  | None => "  +0x" +:+ fmt_x off +:+ "  <unattributed>" +:+ nl
  | Some en =>
      match row_file m en with
      | Some (String _ _ as file) =>
          "  +0x" +:+ fmt_x off +:+ "  " +:+ file +:+ ":" +:+ srcmap_label en +:+ nl
      | _ => "  +0x" +:+ fmt_x off +:+ "  " +:+ srcmap_label en +:+ nl
      end
  end.

Definition asmtest_srcmap_report (covered : option asmtest_trace) (m : option srcmap)
    (out : bool) : Z * string :=
  match covered with
  | Some t =>
      match blocks t with
      | Some buf =>
          let bs := take (blocks_len t) buf in
          let un := length (filter (λ b, asmtest_srcmap_lookup m b = None) bs) in
          (Z.of_nat un,
           if out then
             foldl (λ s b, s +:+ srcmap_line m b) "" bs
             +:+ "srcmap: " +:+ fmt_u (Z.of_nat (blocks_len t - un)) +:+ "/"
             +:+ fmt_u (Z.of_nat (blocks_len t)) +:+ " covered blocks attributed" +:+ nl
           else "")
      | None => (0, "")
      end
  | None => (0, "")
  end.

(** ** The registry *)
Record srcreg_ent := mk_ent {
  code_addr : Z; code_size : Z; when_ : Z;
  rows : option (list srcmap_entry);   (** owned copy, or null *)
  file : option string;                (** owned copy, or null *)
}.
Record srcreg := mk_reg { ents : list srcreg_ent; cap : Z }.

Definition asmtest_srcreg_new (grant : allocator) : option srcreg :=
  if grant 24 then Some (mk_reg [] 0) else None.

Definition sizeof_srcreg_ent : Z := 48.
Definition sizeof_srcmap_entry : Z := 24.

(** The return code and the registry afterwards.  A failure after the table
    has grown leaves the larger capacity and the old entries. *)
Definition asmtest_srcreg_add (grant : allocator) (reg : option srcreg)
    (addr size when : Z) (rws : option (list srcmap_entry)) (fl : option string) :
    Z * option srcreg :=
  match reg with
  | None => (-1, None)
  | Some reg =>
      if size =? 0 then (-1, Some reg)
      else
        let n := Z.of_nat (length (ents reg)) in
        let grown := if n =? cap reg
                     then asmtest_grow grant (cap reg) (n + 1) sizeof_srcreg_ent
                     else Some (cap reg) in
        match grown with
        | None => (-1, Some reg)
        | Some cap' =>
            let fail := (-1, Some (mk_reg (ents reg) cap')) in
            let rows' := match rws with Some ((_ :: _) as r) => Some r | _ => None end in
            let rows_ok := match rows' with
                           | Some r => grant (sizeof_srcmap_entry * Z.of_nat (length r))
                           | None => true end in
            let file_ok := match fl with
                           | Some f => grant (Z.of_nat (String.length f) + 1)
                           | None => true end in
            if negb rows_ok then fail
            else if negb file_ok then fail
            else (0, Some (mk_reg (ents reg ++ [mk_ent addr size when rows' fl]) cap'))
        end
  end.

(** The range test as the code computes it, end address wrapped to 64 bits. *)
Definition in_range (e : srcreg_ent) (addr : Z) : bool :=
  negb ((addr <? code_addr e) || (code_addr e +64 code_size e <=? addr)).

Definition pick (addr when : Z) (best : option srcreg_ent) (e : srcreg_ent) : option srcreg_ent :=
  if negb (in_range e addr) then best
  else if negb (when =? 0) && (when <? when_ e) then best
  else match best with
       | None => Some e
       | Some b => if when_ b <? when_ e then Some e else best
       end.

(** [None] for the return 0, else the row, the method base and the file. *)
Definition asmtest_srcreg_resolve (reg : option srcreg) (addr when : Z) :
    option (srcmap_entry * Z * option string) :=
  match reg with
  | None => None
  | Some reg =>
      match foldl (pick addr when) None (ents reg) with
      | None => None
      | Some best =>
          match asmtest_srcmap_lookup (Some (mk_srcmap (rows best) None))
                  (addr -64 code_addr best) with
          | Some row => Some (row, code_addr best, file best)
          | None => None
          end
      end
  end.

(** ** Lemmas *)
(** The registrations that are candidates at [addr] as of [when]. *)
Definition live (addr when : Z) (e : srcreg_ent) : Prop :=
  in_range e addr = true ∧ (when = 0 ∨ when_ e <= when).
#[export] Instance live_dec addr when e : Decision (live addr when e) := _.

Lemma pick_spec addr when best e :
  pick addr when best e =
  if decide (live addr when e)
  then match best with Some b => if when_ b <? when_ e then Some e else best | None => Some e end
  else best.
Proof.
  unfold pick. case_decide as Hl; unfold live in Hl;
    destruct (in_range e addr); simpl;
    destruct (Z.eqb_spec when 0), (Z.ltb_spec when (when_ e)); simpl; try done;
    first [exfalso; tauto | exfalso; lia | destruct Hl; split; auto; lia].
Qed.

(** [best] is the first of the latest live registrations. *)
Definition newest (addr when : Z) (l : list srcreg_ent) (b : srcreg_ent) : Prop :=
  ∃ l1 l2, l = l1 ++ b :: l2 ∧ live addr when b ∧
    (∀ e, e ∈ l1 → live addr when e → when_ e < when_ b) ∧
    (∀ e, e ∈ l2 → live addr when e → when_ e <= when_ b).

Lemma pick_fold_spec addr when l :
  match foldl (pick addr when) None l with
  | Some b => newest addr when l b
  | None => ∀ e, e ∈ l → ¬ live addr when e
  end.
Proof.
  induction l as [|e l IH] using rev_ind; [set_solver|].
  rewrite foldl_app. simpl. rewrite pick_spec.
  destruct (foldl _ _ l) as [b|]; case_decide as Hl.
  - destruct IH as (l1 & l2 & -> & Hb & H1 & H2).
    destruct (Z.ltb_spec (when_ b) (when_ e)).
    + exists (l1 ++ b :: l2), []. split_and!; [done|done| |set_solver].
      intros x [Hx|[->|Hx]%elem_of_cons]%elem_of_app Hlx; [|lia|].
      * specialize (H1 x Hx Hlx). lia.
      * specialize (H2 x Hx Hlx). lia.
    + exists l1, (l2 ++ [e]). split_and!; [by rewrite <-app_assoc|done|done|].
      intros x [Hx| ->%list_elem_of_singleton]%elem_of_app Hlx; auto.
  - destruct IH as (l1 & l2 & -> & Hb & H1 & H2).
    exists l1, (l2 ++ [e]). split_and!; [by rewrite <-app_assoc|done|done|].
    intros x [Hx| ->%list_elem_of_singleton]%elem_of_app Hlx; [auto|done].
  - exists l, []. split_and!; [done|done| |set_solver]. intros x Hx Hlx. by destruct (IH x Hx).
  - intros x [Hx| ->%list_elem_of_singleton]%elem_of_app; auto.
Qed.

(** A resolution answers with the enclosing row of the newest
    registration live at [addr] as of [when] (the first of equals), and fails
    exactly when no registration is live there or the chosen one has no row at
    or before the offset. *)
Theorem srcreg_resolve_newest reg addr when :
  match asmtest_srcreg_resolve (Some reg) addr when with
  | Some (row, base, fl) =>
      ∃ e, newest addr when (ents reg) e ∧ base = code_addr e ∧ fl = file e ∧
           asmtest_srcmap_lookup (Some (mk_srcmap (rows e) None)) (addr -64 base) = Some row
  | None =>
      (∀ e, e ∈ ents reg → ¬ live addr when e) ∨
      ∃ e, newest addr when (ents reg) e ∧
           asmtest_srcmap_lookup (Some (mk_srcmap (rows e) None)) (addr -64 code_addr e) = None
  end.
Proof.
  unfold asmtest_srcreg_resolve. pose proof (pick_fold_spec addr when (ents reg)) as H.
  destruct (foldl _ _ _) as [b|]; [|by left].
  destruct (asmtest_srcmap_lookup _ _) eqn:E; eauto 10.
Qed.

(** A registry whose table never outgrows its capacity. *)
Definition reg_wf (reg : srcreg) : Prop := Z.of_nat (length (ents reg)) <= cap reg.

(** Adding a registration either returns 0 and the registry holds exactly
    one more entry, or returns -1 and holds the entries it had; both keep the
    table within its capacity.  It returns 0 whenever the arguments are good and
    the allocator serves every request. *)
Theorem srcreg_add_atomic grant reg addr size when rws fl
    (Hwf : reg_wf reg) (Hsmall : cap reg < 2 ^ 32) :
  let '(rc, reg') := asmtest_srcreg_add grant (Some reg) addr size when rws fl in
  ∃ r', reg' = Some r' ∧ reg_wf r' ∧
    ((rc = 0 ∧ ∃ e, ents r' = ents reg ++ [e] ∧ code_addr e = addr ∧ code_size e = size ∧
                    when_ e = when ∧ file e = fl) ∨
     (rc = -1 ∧ ents r' = ents reg ∧ (size = 0 ∨ ∃ n, grant n = false))).
Proof.
  unfold asmtest_srcreg_add, reg_wf in *.
  destruct (Z.eqb_spec size 0) as [->|Hsz]; [eauto 10|].
  set (n := Z.of_nat (length (ents reg))) in *.
  set (grown := if n =? cap reg then _ else _).
  assert (match grown with Some c => n + 1 <= c | None => ∃ n, grant n = false end) as Hg.
  { unfold grown. destruct (Z.eqb_spec n (cap reg)); [|lia].
    pose proof (asmtest_grow_spec grant (cap reg) (n + 1) sizeof_srcreg_ent) as G.
    destruct (asmtest_grow _ _ _ _).
    - apply G; [done|lia|unfold sizeof_srcreg_ent, SIZE_MAX; lia].
    - destruct G as (_ & [G|(r & _ & _ & ?)]); [done|lia|..|eauto];
        unfold sizeof_srcreg_ent, SIZE_MAX in *; lia. }
  destruct grown as [cap'|]; [|eauto 10].
  set (rows' := match rws with Some ((_ :: _) as r) => Some r | _ => None end).
  set (rows_ok := match rows' with Some r => _ | None => true end).
  set (file_ok := match fl with Some f => _ | None => true end).
  assert (rows_ok = false → ∃ n, grant n = false) by (unfold rows_ok; destruct rows'; [eauto|done]).
  assert (file_ok = false → ∃ n, grant n = false) by (unfold file_ok; destruct fl; [eauto|done]).
  destruct rows_ok; [destruct file_ok|]; simpl; eexists; (split; [done|]);
    simpl; rewrite ?length_app; simpl; (split; [lia|]); eauto 10.
Qed.

Lemma srcreg_add_ents grant reg addr size when rws fl :
  ∃ r', (asmtest_srcreg_add grant (Some reg) addr size when rws fl).2 = Some r' ∧
    (ents r' = ents reg ∨ ∃ e, ents r' = ents reg ++ [e] ∧ when_ e = when).
Proof. unfold asmtest_srcreg_add. repeat case_match; simpl; eauto 10. Qed.

(** A registration stamped later than [when] never changes what a query as
    of [when] answers, so a re-JIT at a reused address leaves the history
    queryable. *)
Theorem srcreg_history_stable grant reg addr size when' rws fl a when
    (Hwhen : 0 < when < when') :
  asmtest_srcreg_resolve (asmtest_srcreg_add grant (Some reg) addr size when' rws fl).2 a when
  = asmtest_srcreg_resolve (Some reg) a when.
Proof.
  destruct (srcreg_add_ents grant reg addr size when' rws fl) as (r' & -> & Hents).
  unfold asmtest_srcreg_resolve. destruct Hents as [-> | (e & -> & He)]; [done|].
  rewrite foldl_app. simpl. rewrite pick_spec, decide_False; [done|].
  unfold live. lia.
Qed.

Lemma srcreg_history_stable_witness :
  let v1 := mk_ent 4096 64 1 (Some [mk_entry 0 10 1 UINT32_MAX 0]) None in
  let reg := mk_reg [v1] 8 in
  asmtest_srcreg_resolve
    (asmtest_srcreg_add always (Some reg) 4096 64 2 (Some [mk_entry 0 20 1 UINT32_MAX 0]) None).2
    4100 1 = Some (mk_entry 0 10 1 UINT32_MAX 0, 4096, None).
Proof.
  cbv zeta. rewrite (srcreg_history_stable always _ 4096 64 2 _ None 4100 1) by lia. reflexivity.
Defined.

Lemma srcreg_add_atomic_witness :
  let reg := mk_reg [] 0 in
  reg_wf reg ∧ cap reg < 2 ^ 32 ∧
  let '(rc, reg') := asmtest_srcreg_add never (Some reg) 4096 64 2 None None in
  ∃ r', reg' = Some r' ∧ reg_wf r'.
Proof.
  cbv zeta. split; [unfold reg_wf; simpl; lia|]. split; [simpl; lia|].
  destruct (srcreg_add_atomic never (mk_reg [] 0) 4096 64 2 None None) as (r & Hr & Hwf & _);
    [unfold reg_wf; simpl; lia|simpl; lia|]. exists r. split; [exact Hr|exact Hwf].
Defined.
End SrcMap.
