(* ===== verification/OpenHash.v ===== *)
(** Linear probing over a power-of-two table, the scheme shared by the
    last-writer map ([lw_map] of [src/dataflow.c]) and the call-graph index
    ([asmspy_ghash_t] of [cli/asmspy_ghash.h]): the probe loop, the table
    invariant, and what a probe and a placement establish. *)
From S2P Require Import Prelude.

(** The loop [while (!stop(tbl[j])) j = (j + 1) & mask;].  [None] is a loop that
    did not end within the fuel. *)
Fixpoint probe {S : Type} (fuel : nat) (tbl : list S) (stop : S → bool) (mask j : Z) : option Z :=
  match fuel with
  | O => None
  | Datatypes.S fuel =>
      match tbl !! Z.to_nat j with
      | Some s => if stop s then Some j else probe fuel tbl stop mask (Z.land (j + 1) mask)
      | None => None
      end
  end.

Lemma probe_ext {S} fuel (tbl : list S) stop stop' mask j :
  (∀ s, stop s = stop' s) → probe fuel tbl stop mask j = probe fuel tbl stop' mask j.
Proof.
  intros Hs. revert j. induction fuel as [|fuel IH]; intros j; [done|]. simpl.
  destruct (tbl !! Z.to_nat j); [|done]. by rewrite Hs, IH.
Qed.

Section open_hash.
Context {S K : Type} `{EqDecision K} (used : S → bool) (key : S → K) (hash : K → Z).
Implicit Types (tbl : list S) (h : Z) (d : nat).

(** The [d]-th slot of the probe sequence that starts at hash [h]. *)
Definition pos (n : nat) h d : nat := Z.to_nat ((h + Z.of_nat d) mod Z.of_nat n).

(** Slot [i] is occupied. *)
Definition occ tbl (i : nat) : Prop := ∃ e, tbl !! i = Some e ∧ used e = true.

(** Every occupied slot is reachable from its key's hash through occupied
    slots, and a key occupies one slot. *)
Record tbl_wf tbl : Prop := {
  wf_path i e : tbl !! i = Some e → used e = true →
    ∃ d, (d < length tbl)%nat ∧ i = pos (length tbl) (hash (key e)) d ∧
         ∀ d', (d' < d)%nat → occ tbl (pos (length tbl) (hash (key e)) d');
  wf_uniq i1 i2 e1 e2 : tbl !! i1 = Some e1 → tbl !! i2 = Some e2 →
    used e1 = true → used e2 = true → key e1 = key e2 → i1 = i2;
}.

(** An empty slot is left. *)
Definition has_room tbl : Prop := ∃ i e, tbl !! i = Some e ∧ used e = false.

Lemma pos_lt n h d : (0 < n)%nat → (pos n h d < n)%nat.
Proof. intros. unfold pos. pose proof (Z.mod_pos_bound (h + Z.of_nat d) (Z.of_nat n)). lia. Qed.

(** Every slot is on every probe sequence. *)
Lemma pos_surj n h i : (i < n)%nat → ∃ d, (d < n)%nat ∧ pos n h d = i.
Proof.
  intros Hi. exists (Z.to_nat ((Z.of_nat i - h) mod Z.of_nat n)). unfold pos.
  pose proof (Z.mod_pos_bound (Z.of_nat i - h) (Z.of_nat n)). split; [lia|].
  rewrite Z2Nat.id, Z.add_mod_idemp_r by lia.
  replace (h + (Z.of_nat i - h)) with (Z.of_nat i) by lia. rewrite Z.mod_small; lia.
Qed.

Lemma pos_inj n h d d' : (d < n)%nat → (d' < n)%nat → pos n h d = pos n h d' → d = d'.
Proof.
  intros Hd Hd' E. unfold pos in E.
  pose proof (Z.mod_pos_bound (h + Z.of_nat d) (Z.of_nat n)).
  pose proof (Z.mod_pos_bound (h + Z.of_nat d') (Z.of_nat n)).
  assert ((h + Z.of_nat d) mod Z.of_nat n = (h + Z.of_nat d') mod Z.of_nat n) as E' by lia.
  pose proof (Z.div_mod (h + Z.of_nat d) (Z.of_nat n)).
  pose proof (Z.div_mod (h + Z.of_nat d') (Z.of_nat n)).
  assert (Z.of_nat d - Z.of_nat d' =
          Z.of_nat n * ((h + Z.of_nat d) / Z.of_nat n - (h + Z.of_nat d') / Z.of_nat n)) as Hq by lia.
  remember ((h + Z.of_nat d) / Z.of_nat n - (h + Z.of_nat d') / Z.of_nat n) as q eqn:Eq.
  clear Eq. assert (q = 0) by nia. lia.
Qed.

(** The masked index the code computes is the mathematical one. *)
Lemma land_pow2 x n : is_pow2 n → Z.land x (n - 1) = x mod n.
Proof. intros (k & ? & ->). rewrite Z_ones_sub, Z.land_ones; lia. Qed.

Lemma pos_0 n h : is_pow2 (Z.of_nat n) →
  Z.land h (Z.of_nat n - 1) = Z.of_nat (pos n h 0).
Proof.
  intros Hn. pose proof (is_pow2_pos _ Hn). unfold pos.
  rewrite land_pow2, Z.add_0_r, Z2Nat.id by (done || apply Z.mod_pos_bound; lia). done.
Qed.

Lemma pos_S n h d : is_pow2 (Z.of_nat n) →
  Z.land (Z.of_nat (pos n h d) + 1) (Z.of_nat n - 1) = Z.of_nat (pos n h (Datatypes.S d)).
Proof.
  intros Hn. pose proof (is_pow2_pos _ Hn). unfold pos.
  rewrite land_pow2, !Z2Nat.id by (done || apply Z.mod_pos_bound; lia).
  rewrite Z.add_mod_idemp_l by lia. f_equal. lia.
Qed.

(** The loop stops at the first slot of the sequence that satisfies [stop],
    and there is one as soon as [stop] holds of the empty slots. *)
Lemma probe_first tbl stop h :
  is_pow2 (Z.of_nat (length tbl)) → (∀ e, used e = false → stop e = true) → has_room tbl →
  ∃ d e, (d < length tbl)%nat ∧
    probe (length tbl) tbl stop (Z.of_nat (length tbl) - 1)
      (Z.land h (Z.of_nat (length tbl) - 1)) = Some (Z.of_nat (pos (length tbl) h d)) ∧
    tbl !! pos (length tbl) h d = Some e ∧ stop e = true ∧
    ∀ d', (d' < d)%nat → ∃ e', tbl !! pos (length tbl) h d' = Some e' ∧ stop e' = false.
Proof.
  intros Hn Hstop (i & e0 & Hi & He0). set (n := length tbl) in *.
  pose proof (is_pow2_pos _ Hn) as Hpos.
  destruct (pos_surj n h i) as (d0 & Hd0 & Hp0); [by apply lookup_lt_Some in Hi|].
  rewrite pos_0 by done.
  assert (∀ k d, (d + k = n)%nat → (d <= d0)%nat →
    (∀ d', (d' < d)%nat → ∃ e', tbl !! pos n h d' = Some e' ∧ stop e' = false) →
    ∃ d1 e, (d1 < n)%nat ∧ probe k tbl stop (Z.of_nat n - 1) (Z.of_nat (pos n h d))
        = Some (Z.of_nat (pos n h d1)) ∧
      tbl !! pos n h d1 = Some e ∧ stop e = true ∧
      ∀ d', (d' < d1)%nat → ∃ e', tbl !! pos n h d' = Some e' ∧ stop e' = false) as Hgen.
  { induction k as [|k IH]; intros d Hk Hd Hbefore; [lia|].
    destruct (lookup_lt_is_Some_2 tbl (pos n h d)) as [e He]; [apply pos_lt; lia|].
    cbn [probe]. rewrite Nat2Z.id, He. destruct (stop e) eqn:Hse.
    { exists d, e. split_and!; auto; lia. }
    rewrite pos_S by done. apply IH; [lia| |].
    - destruct (decide (d = d0)) as [->|]; [|lia].
      rewrite Hp0, Hi in He. simplify_eq. rewrite Hstop in Hse; done.
    - intros d' Hd'. destruct (decide (d' = d)) as [->|]; [eauto|]. apply Hbefore. lia. }
  destruct (Hgen n O) as (d1 & e & ?); [lia..|]. by exists d1, e.
Qed.

(** ** Looking a key up *)
Definition stop_at (k : K) (e : S) : bool := negb (used e) || bool_decide (key e = k).

(** What the probe for [k] finds: the slot that holds [k], or an empty slot
    together with the fact that [k] is nowhere in the table. *)
Lemma probe_key tbl k :
  is_pow2 (Z.of_nat (length tbl)) → tbl_wf tbl → has_room tbl →
  ∃ i e, probe (length tbl) tbl (stop_at k) (Z.of_nat (length tbl) - 1)
           (Z.land (hash k) (Z.of_nat (length tbl) - 1)) = Some (Z.of_nat i) ∧
    tbl !! i = Some e ∧
    if used e then key e = k
    else (∀ j e', tbl !! j = Some e' → used e' = true → key e' ≠ k) ∧
         ∃ d, (d < length tbl)%nat ∧ i = pos (length tbl) (hash k) d ∧
              ∀ d', (d' < d)%nat → occ tbl (pos (length tbl) (hash k) d').
Proof.
  intros Hn Hwf Hroom.
  destruct (probe_first tbl (stop_at k) (hash k) Hn) as (d & e & Hd & -> & He & Hs & Hb);
    [intros e He; unfold stop_at; by rewrite He|done|].
  exists (pos (length tbl) (hash k) d), e. split_and!; [done..|].
  assert (∀ d', (d' < d)%nat → ∃ e', tbl !! pos (length tbl) (hash k) d' = Some e' ∧
            used e' = true ∧ key e' ≠ k) as Hb'.
  { intros d' Hd'. destruct (Hb d' Hd') as (e' & He' & Hst). exists e'. split; [done|].
    unfold stop_at in Hst. apply orb_false_elim in Hst as [Hu Hk].
    apply bool_decide_eq_false in Hk. by destruct (used e'). }
  unfold stop_at in Hs. destruct (used e) eqn:Hu; simpl in Hs.
  { by apply bool_decide_eq_true in Hs. }
  split.
  - intros j e' Hj Hue' Hk. destruct (wf_path _ Hwf j e' Hj Hue') as (d1 & Hd1 & -> & Hpath).
    rewrite Hk in *. destruct (lt_eq_lt_dec d1 d) as [[Hlt| ->]|Hgt].
    + destruct (Hb' d1 Hlt) as (e2 & He2 & _ & Hne). congruence.
    + congruence.
    + destruct (Hpath d Hgt) as (e2 & He2 & Hu2). congruence.
  - exists d. split_and!; [done..|]. intros d' Hd'.
    destruct (Hb' d' Hd') as (e' & ? & ? & _). by exists e'.
Qed.

(** ** Filling an empty slot *)
Lemma occ_insert tbl i e j : used e = true → (i < length tbl)%nat →
  occ tbl j → occ (<[i := e]> tbl) j.
Proof.
  intros He Hi (e' & Hj & Hu). destruct (decide (i = j)) as [->|].
  - exists e. by rewrite list_lookup_insert_eq.
  - exists e'. by rewrite list_lookup_insert_ne.
Qed.

(** A fresh key written at an empty slot its probe sequence reaches. *)
Lemma fill_wf tbl i e0 e d :
  tbl_wf tbl → tbl !! i = Some e0 → used e0 = false → used e = true →
  (∀ j e', tbl !! j = Some e' → used e' = true → key e' ≠ key e) →
  (d < length tbl)%nat → i = pos (length tbl) (hash (key e)) d →
  (∀ d', (d' < d)%nat → occ tbl (pos (length tbl) (hash (key e)) d')) →
  tbl_wf (<[i := e]> tbl).
Proof.
  intros Hwf Hi Hu0 Hu Hfresh Hd Hpos Hpath.
  pose proof (lookup_lt_Some _ _ _ Hi) as Hlt.
  split; rewrite ?length_insert.
  - intros j e' Hj Hu'. destruct (decide (i = j)) as [<-|Hne].
    + rewrite list_lookup_insert_eq in Hj by done. simplify_eq.
      exists d. split_and!; auto using occ_insert.
    + rewrite list_lookup_insert_ne in Hj by done.
      destruct (wf_path _ Hwf j e' Hj Hu') as (d1 & ? & ? & Hp).
      exists d1. split_and!; auto using occ_insert.
  - intros i1 i2 e1 e2 H1 H2 Hu1 Hu2 Hk.
    destruct (decide (i = i1)) as [<-|N1], (decide (i = i2)) as [<-|N2]; [done|..];
      rewrite ?list_lookup_insert_eq in * by done;
      rewrite ?list_lookup_insert_ne in * by done; simplify_eq.
    + destruct (Hfresh i2 e2); [done..|by rewrite Hk].
    + by destruct (Hfresh i1 e1).
    + by eapply (wf_uniq _ Hwf).
Qed.

(** Rewriting an occupied slot with an entry of the same key. *)
Lemma update_wf tbl i e0 e :
  tbl_wf tbl → tbl !! i = Some e0 → used e0 = true → used e = true → key e = key e0 →
  tbl_wf (<[i := e]> tbl).
Proof.
  intros Hwf Hi Hu0 Hu Hk. pose proof (lookup_lt_Some _ _ _ Hi) as Hlt.
  assert (∀ j e', <[i := e]> tbl !! j = Some e' → used e' = true →
           ∃ e2, tbl !! j = Some e2 ∧ used e2 = true ∧ key e2 = key e') as Hback.
  { intros j e' Hj Hu'. destruct (decide (i = j)) as [<-|].
    - rewrite list_lookup_insert_eq in Hj by done. simplify_eq. by exists e0.
    - rewrite list_lookup_insert_ne in Hj by done. by exists e'. }
  split; rewrite ?length_insert.
  - intros j e' Hj Hu'. destruct (Hback j e' Hj Hu') as (e2 & Hj2 & Hu2 & Hk2).
    destruct (wf_path _ Hwf j e2 Hj2 Hu2) as (d & ? & ? & Hp).
    rewrite <-Hk2. exists d. split_and!; auto using occ_insert.
  - intros i1 i2 e1 e2 H1 H2 Hu1 Hu2 Hke.
    destruct (Hback i1 e1 H1 Hu1) as (e1' & ? & ? & ?), (Hback i2 e2 H2 Hu2) as (e2' & ? & ? & ?).
    eapply (wf_uniq _ Hwf); [done..|congruence].
Qed.

(** ** Occupancy *)
Definition count_used tbl : nat := length (filter (λ e, used e = true) tbl).

Lemma count_used_fill tbl i e0 e :
  tbl !! i = Some e0 → used e0 = false → used e = true →
  count_used (<[i := e]> tbl) = Datatypes.S (count_used tbl).
Proof.
  intros Hi Hu0 Hu. unfold count_used.
  rewrite insert_take_drop by (by eapply lookup_lt_Some).
  rewrite <-(take_drop_middle tbl i e0) at 3 by done.
  rewrite !filter_app, !length_app, !filter_cons, decide_True, decide_False by congruence.
  simpl. lia.
Qed.

Lemma count_used_update tbl i e0 e :
  tbl !! i = Some e0 → used e0 = true → used e = true →
  count_used (<[i := e]> tbl) = count_used tbl.
Proof.
  intros Hi Hu0 Hu. unfold count_used.
  rewrite insert_take_drop by (by eapply lookup_lt_Some).
  rewrite <-(take_drop_middle tbl i e0) at 3 by done.
  rewrite !filter_app, !length_app, !filter_cons, !decide_True by congruence. simpl. lia.
Qed.

Lemma room_of_count tbl : (count_used tbl < length tbl)%nat → has_room tbl.
Proof.
  intros Hc. destruct (decide (Exists (λ e, used e = false) tbl)) as [He|He].
  - apply Exists_exists in He as (e & [i Hi]%list_elem_of_lookup & Hu). by exists i, e.
  - exfalso. unfold count_used in Hc.
    assert (filter (λ e, used e = true) tbl = tbl) as E; [|rewrite E in Hc; lia].
    apply not_Exists_Forall in He; [|apply _]. induction He as [|e tbl Hu _ IH]; [done|].
    rewrite filter_cons, decide_True by (by apply not_false_iff_true). f_equal.
    apply IH. rewrite !filter_cons, decide_True in Hc by (by apply not_false_iff_true). simpl in Hc. lia.
Qed.

(** ** Contents *)
(** The live entries of a table. *)
Definition has tbl (e : S) : Prop := used e = true ∧ e ∈ tbl.

Lemma has_fill tbl i e0 e e' :
  tbl !! i = Some e0 → used e0 = false → used e = true →
  has (<[i := e]> tbl) e' ↔ has tbl e' ∨ e' = e.
Proof.
  intros Hi Hu0 Hu. pose proof (lookup_lt_Some _ _ _ Hi). unfold has.
  rewrite !list_elem_of_lookup. split.
  - intros [Hu' [j Hj]]. destruct (decide (i = j)) as [<-|].
    + rewrite list_lookup_insert_eq in Hj by done. naive_solver.
    + rewrite list_lookup_insert_ne in Hj by done. eauto.
  - intros [[Hu' [j Hj]]| ->].
    + split; [done|]. exists j. rewrite list_lookup_insert_ne; [done|]. congruence.
    + split; [done|]. exists i. by rewrite list_lookup_insert_eq.
Qed.

Lemma has_update tbl i e0 e e' :
  tbl_wf tbl → tbl !! i = Some e0 → used e0 = true → used e = true → key e = key e0 →
  has (<[i := e]> tbl) e' ↔ e' = e ∨ has tbl e' ∧ key e' ≠ key e.
Proof.
  intros Hwf Hi Hu0 Hu Hk. pose proof (lookup_lt_Some _ _ _ Hi). unfold has.
  rewrite !list_elem_of_lookup. split.
  - intros [Hu' [j Hj]]. destruct (decide (i = j)) as [<-|Hne].
    + rewrite list_lookup_insert_eq in Hj by done. left. congruence.
    + rewrite list_lookup_insert_ne in Hj by done. right. split; [eauto|].
      intros Hk'. destruct Hne. eapply (wf_uniq _ Hwf); [done..|congruence].
  - intros [->|[[Hu' [j Hj]] Hne]].
    + split; [done|]. exists i. by rewrite list_lookup_insert_eq.
    + split; [done|]. exists j. rewrite list_lookup_insert_ne; [done|]. congruence.
Qed.

(** The slot an unconditional placement picks: the first empty one. *)
Definition slot_for (tbl : list S) (h : Z) : option Z :=
  let n := Z.of_nat (length tbl) in
  probe (length tbl) tbl (λ s, negb (used s)) (n - 1) (Z.land h (n - 1)).

(** Placing a fresh key at that slot. *)
Lemma place_spec tbl e :
  is_pow2 (Z.of_nat (length tbl)) → tbl_wf tbl → has_room tbl → used e = true →
  (∀ e', has tbl e' → key e' ≠ key e) →
  ∃ i, slot_for tbl (hash (key e)) = Some (Z.of_nat i) ∧
    tbl_wf (<[i := e]> tbl) ∧ count_used (<[i := e]> tbl) = Datatypes.S (count_used tbl) ∧
    ∀ e', has (<[i := e]> tbl) e' ↔ has tbl e' ∨ e' = e.
Proof.
  intros Hn Hwf Hroom Hu Hfresh.
  destruct (probe_first tbl (λ s, negb (used s)) (hash (key e)) Hn)
    as (d & e0 & Hd & Hp & He0 & Hs & Hb); [by intros ? ->|done|].
  exists (pos (length tbl) (hash (key e)) d). apply negb_true_iff in Hs.
  split_and!; [done| |by eapply count_used_fill|by intros; eapply has_fill].
  eapply fill_wf; try done.
  - intros j e' Hj Hue'. apply Hfresh. split; [done|]. by eapply list_elem_of_lookup_2.
  - intros d' Hd'. destruct (Hb d' Hd') as (e' & ? & ?%negb_false_iff). by exists e'.
Qed.

Lemma empty_wf tbl : (∀ e, e ∈ tbl → used e = false) → tbl_wf tbl.
Proof.
  intros H. split.
  - intros i e Hi Hu. rewrite H in Hu; [done|]. by eapply list_elem_of_lookup_2.
  - intros i1 i2 e1 e2 H1 _ Hu. rewrite H in Hu; [done|]. by eapply list_elem_of_lookup_2.
Qed.

Lemma wf_has_uniq tbl e1 e2 : tbl_wf tbl → has tbl e1 → has tbl e2 → key e1 = key e2 → e1 = e2.
Proof.
  intros Hwf [Hu1 [i1 H1]%list_elem_of_lookup] [Hu2 [i2 H2]%list_elem_of_lookup] Hk.
  assert (i1 = i2) as <- by (by eapply (wf_uniq _ Hwf)). congruence.
Qed.

Lemma NoDup_keys tbl : tbl_wf tbl → NoDup (key <$> filter (λ e, used e = true) tbl).
Proof.
  intros Hwf. pose proof (wf_uniq _ Hwf) as Hu. clear Hwf. revert Hu.
  induction tbl as [|x tbl IH]; intros Hu; [constructor|].
  assert (NoDup (key <$> filter (λ e, used e = true) tbl)) as Hnd.
  { apply IH. intros i1 i2 e1 e2 H1 H2 ???. 
    specialize (Hu (Datatypes.S i1) (Datatypes.S i2) e1 e2). simpl in Hu. naive_solver. }
  rewrite filter_cons. case_decide as Hx; [|done]. rewrite fmap_cons. constructor; [|done].
  rewrite list_elem_of_fmap. intros (y & Hk & [Hy [j Hj]%list_elem_of_lookup]%list_elem_of_filter).
  specialize (Hu O (Datatypes.S j) x y eq_refl Hj Hx Hy Hk). done.
Qed.

(** ** Moving the live entries into a fresh table *)
Definition reinsert (ne : list S) (x : S) : list S :=
  if used x then
    match slot_for ne (hash (key x)) with
    | Some j => <[Z.to_nat j := x]> ne
    | None => ne
    end
  else ne.

Lemma reinsert_spec l ne :
  is_pow2 (Z.of_nat (length ne)) → tbl_wf ne →
  (count_used ne + count_used l < length ne)%nat →
  (∀ x y, has ne x → has l y → key x ≠ key y) →
  NoDup (key <$> filter (λ x, used x = true) l) →
  let ne' := foldl reinsert ne l in
  length ne' = length ne ∧ tbl_wf ne' ∧
  count_used ne' = (count_used ne + count_used l)%nat ∧
  ∀ x, has ne' x ↔ has ne x ∨ has l x.
Proof.
  revert ne. induction l as [|x l IH]; intros ne Hp Hwf Hc Hdis Hnd; simpl.
  { split_and!; [done|done|unfold count_used; simpl; lia|]. unfold has. set_solver. }
  unfold reinsert at 2 4 6 8. destruct (used x) eqn:Hx.
  - rewrite filter_cons, decide_True, fmap_cons in Hnd by done.
    apply NoDup_cons in Hnd as [Hnin Hnd].
    assert (count_used (x :: l) = Datatypes.S (count_used l)) as Hcx
      by (unfold count_used; by rewrite filter_cons, decide_True by done).
    rewrite Hcx in *.
    destruct (place_spec ne x) as (i & Hi & Hwf' & Hc' & Hh); auto.
    { apply room_of_count. lia. }
    { intros y Hy. apply Hdis; [done|]. split; [done|]. left. }
    rewrite Hi, Nat2Z.id.
    destruct (IH (<[i := x]> ne)) as (H1 & H2 & H3 & H4); rewrite ?length_insert in *; auto; [lia| |].
    { intros y z Hy Hz. apply Hh in Hy as [Hy| ->].
      - apply Hdis; [done|]. destruct Hz. split; [done|]. by right.
      - intros E. apply Hnin. rewrite E. apply list_elem_of_fmap. exists z.
        split; [done|]. apply list_elem_of_filter. apply Hz. }
    split_and!; [done|done|lia|]. intros y. rewrite H4, Hh. unfold has. set_solver.
  - rewrite filter_cons, decide_False in Hnd by congruence.
    assert (count_used (x :: l) = count_used l) as Hcx
      by (unfold count_used; by rewrite filter_cons, decide_False by congruence).
    rewrite Hcx in *. destruct (IH ne) as (H1 & H2 & H3 & H4); auto.
    { intros y z Hy [Hz1 Hz2]. apply Hdis; [done|]. split; [done|]. by right. }
    split_and!; [done..|]. intros y. rewrite H4. unfold has. split; [set_solver|].
    intros [?|[? [->|?]%elem_of_cons]]; [auto|congruence|auto].
Qed.

(** A whole rehash into a table of [n] empty slots. *)
Lemma rehash_spec tbl n e0 :
  is_pow2 (Z.of_nat n) → tbl_wf tbl → (count_used tbl < n)%nat → used e0 = false →
  let ne := foldl reinsert (replicate n e0) tbl in
  length ne = n ∧ tbl_wf ne ∧ count_used ne = count_used tbl ∧ ∀ x, has ne x ↔ has tbl x.
Proof.
  intros Hp Hwf Hc H0.
  assert (count_used (replicate n e0) = O) as Hc0.
  { unfold count_used. clear -H0. induction n; [done|]. simpl.
    by rewrite filter_cons, decide_False by congruence. }
  assert (∀ x, ¬ has (replicate n e0) x) as Hnone.
  { intros x [Hx [-> _]%elem_of_replicate]. congruence. }
  destruct (reinsert_spec tbl (replicate n e0)) as (H1 & H2 & H3 & H4);
    rewrite ?length_replicate, ?Hc0 in *.
  - done.
  - apply empty_wf. by intros x [-> _]%elem_of_replicate.
  - lia.
  - intros x y Hx. by apply Hnone in Hx.
  - by apply NoDup_keys.
  - split_and!; [done..|]. intros x. rewrite H4. naive_solver.
Qed.

(** ** Abstraction to a finite map *)
Section abs.
Context `{Countable K} {V : Type} (val : S → V).

Definition tbl_abs tbl : gmap K V :=
  list_to_map ((λ e, (key e, val e)) <$> filter (λ e, used e = true) tbl).

Lemma tbl_abs_spec tbl k v :
  tbl_wf tbl → tbl_abs tbl !! k = Some v ↔ ∃ e, has tbl e ∧ key e = k ∧ val e = v.
Proof.
  intros Hwf. unfold tbl_abs. rewrite <-elem_of_list_to_map'.
  - rewrite list_elem_of_fmap. setoid_rewrite list_elem_of_filter. unfold has. naive_solver.
  - intros v'. rewrite !list_elem_of_fmap. setoid_rewrite list_elem_of_filter.
    intros (e1 & E1 & Hu1 & Hin1) (e2 & E2 & Hu2 & Hin2). simplify_eq.
    f_equal. symmetry. by eapply wf_has_uniq.
Qed.

(** Tables with the same live entries mean the same map. *)
Lemma tbl_abs_ext tbl tbl' :
  tbl_wf tbl → tbl_wf tbl' → (∀ e, has tbl e ↔ has tbl' e) → tbl_abs tbl = tbl_abs tbl'.
Proof.
  intros H1 H2 Hh. apply map_eq. intros k. apply option_eq. intros v.
  rewrite !tbl_abs_spec by done. by setoid_rewrite Hh.
Qed.

Lemma tbl_abs_insert tbl tbl' e :
  tbl_wf tbl → tbl_wf tbl' →
  (∀ e', has tbl' e' ↔ e' = e ∨ has tbl e' ∧ key e' ≠ key e) →
  tbl_abs tbl' = <[key e := val e]> (tbl_abs tbl).
Proof.
  intros H1 H2 Hh. apply map_eq. intros k. apply option_eq. intros v.
  rewrite tbl_abs_spec by done. setoid_rewrite Hh.
  destruct (decide (key e = k)) as [<-|Hne].
  - rewrite lookup_insert_eq. naive_solver.
  - rewrite lookup_insert_ne, tbl_abs_spec by done. naive_solver.
Qed.

Lemma tbl_abs_None tbl k :
  tbl_wf tbl → tbl_abs tbl !! k = None ↔ ∀ e, has tbl e → key e ≠ k.
Proof.
  intros Hwf. rewrite eq_None_not_Some. unfold is_Some.
  setoid_rewrite tbl_abs_spec; [|done]. naive_solver.
Qed.
(** ** The two uses of a probe *)
Section probe_uses.
Context (tbl : list S) (k : K).
Context (Hn : is_pow2 (Z.of_nat (length tbl))) (Hwf : tbl_wf tbl) (Hroom : has_room tbl).

(** The slot of [k], or where it would go. *)
Definition key_slot : option Z :=
  probe (length tbl) tbl (stop_at k) (Z.of_nat (length tbl) - 1)
    (Z.land (hash k) (Z.of_nat (length tbl) - 1)).

Lemma probe_get :
  ∃ i s, key_slot = Some (Z.of_nat i) ∧ tbl !! i = Some s ∧ (used s = true → key s = k) ∧
         tbl_abs tbl !! k = if used s then Some (val s) else None.
Proof.
  destruct (probe_key tbl k Hn Hwf Hroom) as (i & s & Hp & Hi & Hs).
  exists i, s. destruct (used s) eqn:Hu; (split_and!; [done..|]).
  - apply tbl_abs_spec; [done|]. exists s. split_and!; [split; [done|]|done|done].
    by eapply list_elem_of_lookup_2.
  - apply tbl_abs_None; [done|]. intros s' [Hu' [j Hj]%list_elem_of_lookup].
    by eapply Hs.
Qed.

(** Writing an entry of key [k] there updates the map at [k] only. *)
Lemma probe_put :
  ∃ i s, key_slot = Some (Z.of_nat i) ∧ tbl !! i = Some s ∧ (used s = true → key s = k) ∧
    ∀ s', used s' = true → key s' = k →
      tbl_wf (<[i := s']> tbl) ∧
      tbl_abs (<[i := s']> tbl) = <[k := val s']> (tbl_abs tbl) ∧
      count_used (<[i := s']> tbl) =
        if used s then count_used tbl else Datatypes.S (count_used tbl).
Proof.
  destruct (probe_key tbl k Hn Hwf Hroom) as (i & s & Hp & Hi & Hs).
  exists i, s. destruct (used s) eqn:Hu; (split_and!; [done..|]); intros s' Hu' Hk'.
  - assert (tbl_wf (<[i := s']> tbl)) as Hwf' by (eapply update_wf; [done..|congruence]).
    split_and!; [done| |by eapply count_used_update].
    rewrite <-Hk'. apply tbl_abs_insert; [done..|].
    intros s2. rewrite (has_update tbl i s); [done..|congruence].
  - destruct Hs as (Hfresh & d & Hd & Hpos & Hpath). subst k.
    assert (tbl_wf (<[i := s']> tbl)) as Hwf' by (by eapply fill_wf).
    split_and!; [done| |by eapply count_used_fill].
    apply tbl_abs_insert; [done..|].
    intros s2. rewrite (has_fill tbl i s) by done.
    split; [|tauto]. intros [[Hu2 [j Hj]%list_elem_of_lookup]| ->]; [right|by left].
    split; [|by eapply Hfresh]. split; [done|]. by eapply list_elem_of_lookup_2.
Qed.
End probe_uses.

(** The number of live entries is the size of the map. *)
Lemma count_used_size tbl : tbl_wf tbl → count_used tbl = size (tbl_abs tbl).
Proof.
  intros Hwf. unfold tbl_abs, count_used.
  rewrite map_size_list_to_map, length_fmap; [done|].
  rewrite <-list_fmap_compose. by apply NoDup_keys.
Qed.
End abs.
End open_hash.
