(* ===== verification/Histogram.v ===== *)
(** The aggregating hash of the statistical tracing lanes ([edge_hash] and
    [fetch_hash] of [src/ibs_backend.c]): an open-addressing table that counts
    samples by key and doubles at a load of 0.7.  The two tables of the source
    are the same code over two slot types, so the operations are written once
    over a slot interface and instantiated in [Ibs]. *)
From S2P Require Import Prelude Grow OpenHash.

(** What a slot type provides: its [used] flag, its key and the key's hash before
    masking, the slot a first sample of a key fills in, and the update a further
    sample of the same key makes. *)
Class Slot (S K A : Type) `{Countable K} := {
  used : S → bool;
  key : S → K;
  hash : K → Z;
  empty : S;
  sizeof_slot : Z;
  akey : A → K;
  fresh : A → S;
  bump : S → A → S;
}.

Class SlotLaws (S K A : Type) `{Slot S K A} : Prop := {
  used_empty : used empty = false;
  used_fresh x : used (fresh x) = true;
  used_bump s x : used s = true → used (bump s x) = true;
  key_fresh x : key (fresh x) = akey x;
  key_bump s x : key (bump s x) = key s;
  sizeof_range : 32 <= sizeof_slot <= 63;
}.

Module Histogram.

(** A table; a null [slots] is the empty list. *)
Record table (S : Type) := mk_table { slots : list S; cap : Z; n : Z }.
Arguments mk_table {S}.
Arguments slots {S}.
Arguments cap {S}.
Arguments n {S}.

Section table.
Context {S K A : Type} `{Slot S K A}.
Implicit Types (h : table S) (x : A) (s : S).

(** [eh_init] and [fh_init]: [calloc] of [cap] slots. *)
Definition tinit (grant : allocator) (c : Z) : option (table S) :=
  if grant (c * sizeof_slot) then Some (mk_table (replicate (Z.to_nat c) empty) c 0) else None.

(** One round of the re-insertion loop of [eh_grow]. *)
Definition regrow (b : table S) s : table S :=
  if used s then mk_table (reinsert used key hash (slots b) s) (cap b) (n b +64 1) else b.

Definition tgrow (grant : allocator) h : option (table S) :=
  match asmtest_grow_pow2 (cap h) (cap h +64 1) sizeof_slot with
  | None => None
  | Some nc =>
      match tinit grant nc with
      | None => None
      | Some bigger => Some (foldl regrow bigger (slots h))
      end
  end.

(** The probe loop of [eh_add] and what it does at the slot it stops at. *)
Definition tput h x : table S :=
  let mask := cap h - 1 in
  match probe (length (slots h)) (slots h) (λ s, negb (used s) || bool_decide (key s = akey x))
          mask (Z.land (hash (akey x)) mask) with
  | Some i =>
      match slots h !! Z.to_nat i with
      | Some s =>
          if used s then mk_table (<[Z.to_nat i := bump s x]> (slots h)) (cap h) (n h)
          else mk_table (<[Z.to_nat i := fresh x]> (slots h)) (cap h) (n h +64 1)
      | None => h
      end
  | None => h
  end.

Definition tadd (grant : allocator) h x : table S :=
  match slots h with
  | [] => h
  | _ =>
      if cap h *64 7 <=? (n h +64 1) *64 10 then
        match tgrow grant h with Some h => tput h x | None => h end
      else tput h x
  end.

(** The used slots, in table order: what an export copies out.  The loop stops at
    [n] of them. *)
Definition tlive h : list S := take (Z.to_nat (n h)) (filter (λ s, used s = true) (slots h)).

(** ** Specification *)
(** The samples tallied by key. *)
Definition tally_add (m : gmap K S) x : gmap K S :=
  <[akey x := match m !! akey x with Some s => bump s x | None => fresh x end]> m.
Definition tally (xs : list A) : gmap K S := foldl tally_add ∅ xs.

Context (c0 : Z).

(** The table invariant; [c0] is the capacity it was opened with. *)
Record wf h : Prop := {
  wf_cap : cap h = Z.of_nat (length (slots h));
  wf_pow2 : is_pow2 (cap h);
  wf_two : 2 <= cap h;
  wf_bytes : cap h * sizeof_slot <= SIZE_MAX;
  wf_tbl : tbl_wf used key hash (slots h);
  wf_n : n h = Z.of_nat (count_used used (slots h));
  wf_load : n h * 10 < cap h * 7;
  wf_small : cap h <= Z.max c0 (3 * (n h + 1));
}.

Definition tabs h : gmap K S := tbl_abs used key id (slots h).

Context `{!SlotLaws S K A}.

Lemma table_room h : wf h → has_room used (slots h) ∧ is_pow2 (Z.of_nat (length (slots h))).
Proof.
  intros [Hc Hp _ _ _ Hn Hl _]. rewrite <-Hc. split; [|done]. apply room_of_count. lia.
Qed.

Lemma wf_bounds h : wf h → 0 <= n h < cap h ∧ cap h <= 2 ^ 59.
Proof.
  intros [Hc _ ? Hb _ Hn Hl _]. pose proof sizeof_range. unfold SIZE_MAX in Hb. nia.
Qed.

Lemma tput_spec h x :
  wf h → (n h + 1) * 10 < cap h * 7 →
  wf (tput h x) ∧ tabs (tput h x) = tally_add (tabs h) x ∧
  n h <= n (tput h x) <= n h + 1.
Proof.
  intros Hh Hload. destruct (table_room h Hh) as [Hroom Hp]. destruct (wf_bounds h Hh) as [Hb1 Hb2].
  pose proof Hh as [Hcap Hpow Htwo Hbytes Htbl Hn _ Hsm]. unfold tput. rewrite Hcap.
  destruct (probe_put used key hash id (slots h) (akey x) Hp Htbl Hroom) as (i & s & E & Hi & Hk & Hput).
  destruct (probe_get used key hash id (slots h) (akey x) Hp Htbl Hroom) as (i' & s' & E' & Hi' & _ & Hget).
  assert (i' = i) as -> by (rewrite E in E'; injection E' as E'; lia). assert (s' = s) as -> by congruence.
  unfold key_slot, stop_at in E. rewrite E, Nat2Z.id, Hi. unfold tally_add, tabs. rewrite Hget.
  destruct (used s) eqn:Hu.
  - destruct (Hput (bump s x)) as (Hwf & Habs & Hcu); [by apply used_bump|rewrite key_bump; auto|].
    cbn [id] in *. split_and!; simpl; [|done|lia..].
    split; simpl; rewrite ?length_insert, ?Hcu; auto; lia.
  - destruct (Hput (fresh x)) as (Hwf & Habs & Hcu); [by rewrite used_fresh|by rewrite key_fresh|].
    assert (u64 (n h + 1) = n h + 1) as Eu by (apply u64_small; lia).
    cbn [id] in *. split_and!; simpl; rewrite ?Eu; [|done|lia..].
    split; simpl; rewrite ?length_insert, ?Eu, ?Hcu; auto; lia.
Qed.

(** The loop of [eh_grow] re-inserts the live slots and counts them. *)
Lemma regrow_fold l b :
  0 <= n b → n b + Z.of_nat (count_used used l) < 2 ^ 64 →
  foldl regrow b l = mk_table (foldl (reinsert used key hash) (slots b) l) (cap b)
                       (n b + Z.of_nat (count_used used l)).
Proof.
  revert b. induction l as [|s l IH]; intros b Hb0 Hb; simpl.
  { destruct b. simpl. by rewrite Z.add_0_r. }
  unfold count_used in *. rewrite filter_cons in *. unfold regrow at 2.
  destruct (used s) eqn:Hu; simpl in *.
  - rewrite IH by (simpl; rewrite u64_small; lia). simpl. rewrite u64_small by lia.
    unfold count_used. f_equal. lia.
  - assert (reinsert used key hash (slots b) s = slots b) as -> by (unfold reinsert; by rewrite Hu).
    by apply IH.
Qed.

Lemma tgrow_spec grant h :
  wf h → cap h * 7 <= (n h + 1) * 10 →
  match tgrow grant h with
  | Some h' => wf h' ∧ tabs h' = tabs h ∧ n h' = n h ∧ (n h' + 1) * 10 < cap h' * 7
  | None => (∃ b, grant b = false) ∨ 2 ^ 56 <= cap h
  end.
Proof.
  intros Hh Hfull. pose proof sizeof_range as Hsz. destruct (wf_bounds h Hh) as [Hb1 Hb2].
  pose proof Hh as [Hcap (k & Hk & Ek) Htwo Hbytes Htbl Hn Hload Hsm]. unfold tgrow.
  rewrite (u64_small (cap h + 1)) by lia.
  assert (1 <= sizeof_slot) as Hsz1 by lia.
  pose proof (asmtest_grow_pow2_spec (cap h) k (cap h + 1) sizeof_slot Hsz1 Hk (or_intror Ek)) as G.
  destruct (asmtest_grow_pow2 _ _ _) as [nc|]; cycle 1.
  { right. specialize (G (k + 1) ltac:(lia)). rewrite Z.pow_add_r, <-Ek in G by lia.
    specialize (G ltac:(lia)). unfold SIZE_MAX in G. nia. }
  destruct G as (j & Hj & -> & Hlt & _ & Hnb & Hleast).
  assert (2 ^ j = 2 * cap h) as E2.
  { specialize (Hleast (k + 1) ltac:(lia)). rewrite Z.pow_add_r, <-Ek in Hleast by lia.
    pose proof (pow2_double (cap h) (2 ^ j) (ex_intro _ k (conj Hk Ek)) (ex_intro _ j (conj (Z.lt_le_incl 0 j ltac:(lia)) eq_refl)) Hlt).
    lia. }
  unfold tinit. destruct (grant _) eqn:Hg; [|eauto].
  rewrite regrow_fold by (simpl; lia). simpl.
  destruct (rehash_spec used key hash (slots h) (Z.to_nat (2 ^ j)) empty) as (H1 & H2 & H3 & H4).
  - rewrite Z2Nat.id by lia. exists j. split; [lia|done].
  - done.
  - lia.
  - apply used_empty.
  - split_and!; simpl; [|by apply (tbl_abs_ext used key hash)|lia..].
    split; simpl; rewrite ?H1, ?Z2Nat.id, ?H3 by lia; auto; try lia. exists j. split; [lia|done].
Qed.

Lemma tadd_spec grant h x :
  wf h →
  wf (tadd grant h x) ∧ n (tadd grant h x) <= n h + 1 ∧
  (tabs (tadd grant h x) = tally_add (tabs h) x ∨
   tadd grant h x = h ∧ ((∃ b, grant b = false) ∨ 2 ^ 56 <= cap h)).
Proof.
  intros Hh. unfold tadd. pose proof Hh as [Hcap _ Htwo _ _ _ _ _].
  destruct (slots h) as [|s0 l] eqn:Es; [simpl in Hcap; lia|].
  destruct (wf_bounds h Hh) as [Hb1 Hb2].
  rewrite (u64_small (n h + 1)), (u64_small (_ * 7)), (u64_small (_ * 10)) by lia.
  destruct (Z.leb_spec (cap h * 7) ((n h + 1) * 10)) as [Hl|Hl].
  - pose proof (tgrow_spec grant h Hh Hl) as Hg. destruct (tgrow grant h) as [h'|].
    + destruct Hg as (Hh' & <- & <- & Hload). destruct (tput_spec h' x Hh' Hload) as (? & ? & ?).
      split_and!; [done|lia|by left].
    + split_and!; [done|lia|by right].
  - destruct (tput_spec h x Hh Hl) as (? & ? & ?). split_and!; [done|lia|by left].
Qed.

Lemma tinit_spec grant h : is_pow2 c0 → 2 <= c0 → c0 <= 2 ^ 56 →
  tinit grant c0 = Some h → wf h ∧ tabs h = ∅ ∧ n h = 0.
Proof.
  intros Hp H2 Hb. unfold tinit. case_match; [|done]. intros [= <-]. pose proof sizeof_range.
  assert (∀ m, filter (λ s, used s = true) (replicate m (empty : S)) = []) as Hf.
  { induction m as [|m IH]; [done|]. simpl. rewrite filter_cons, decide_False; [done|].
    by rewrite used_empty. }
  split_and!; [split| |done]; simpl; rewrite ?length_replicate; try lia.
  - done.
  - unfold SIZE_MAX. nia.
  - apply empty_wf. intros s [-> _]%elem_of_replicate. apply used_empty.
  - unfold count_used. by rewrite Hf.
  - unfold tabs, tbl_abs. simpl. by rewrite Hf.
Qed.

(** Feeding a whole stream, with memory enough. *)
Lemma tadd_all xs h :
  wf h → c0 < 2 ^ 56 → n h + Z.of_nat (length xs) < 2 ^ 54 →
  let h' := foldl (tadd always) h xs in
  wf h' ∧ tabs h' = foldl tally_add (tabs h) xs ∧ n h' <= n h + Z.of_nat (length xs).
Proof.
  revert h. induction xs as [|x xs IH]; intros h Hh Hc Hn; simpl in *; [split_and!; [done..|lia]|].
  destruct (tadd_spec always h x Hh) as (Hh' & Hn' & Hab).
  assert (tabs (tadd always h x) = tally_add (tabs h) x) as Ha.
  { destruct Hab as [?|[_ [[b ?]|?]]]; [done..|]. pose proof (wf_small _ Hh). lia. }
  destruct (IH (tadd always h x) Hh' Hc ltac:(lia)) as (? & ? & ?).
  rewrite <-Ha. split_and!; [done..|lia].
Qed.

(** The exported slots are the tally's, each key once. *)
Lemma tlive_spec h :
  wf h → tlive h ≡ₚ (map_to_list (tabs h)).*2.
Proof.
  intros Hh. unfold tlive. rewrite (wf_n _ Hh). unfold count_used. rewrite Nat2Z.id, firstn_all.
  unfold tabs, tbl_abs. rewrite map_to_list_to_map.
  - by rewrite <-list_fmap_compose, list_fmap_id.
  - rewrite <-list_fmap_compose. apply (NoDup_keys used key hash). apply Hh.
Qed.

(** ** Reading a tally *)
(** A per-key reading of the slots that starts at [f (fresh x)] and that every
    further sample advances by [step]. *)
Lemma tally_lookup xs k :
  tally xs !! k =
    match filter (λ x, akey x = k) xs with
    | [] => None
    | x :: rest => Some (foldl bump (fresh x) rest)
    end.
Proof.
  unfold tally. induction xs as [|x xs IH] using rev_ind; [done|].
  rewrite foldl_app, filter_app. simpl. unfold tally_add at 1. rewrite filter_cons.
  destruct (decide (akey x = k)) as [<-|Hne].
  - rewrite lookup_insert_eq, IH. destruct (filter _ xs) as [|y l]; simpl; [done|].
    by rewrite foldl_app.
  - rewrite lookup_insert_ne, IH by done. by rewrite filter_nil, app_nil_r.
Qed.
End table.
End Histogram.
