(* ===== verification/LwMap.v ===== *)
(** The last-writer map of [src/dataflow.c]: an open-addressing hash keyed on
    (location kind, location), with the refinement to a finite map that the
    def-use builder's theorems are stated against. *)
From S2P Require Import Prelude Grow OpenHash.

Module LwMap.

Record lw_ent := mk_ent { used : bool; kind : Z; a : Z; step : Z }.
#[export] Instance lw_ent_eq_dec : EqDecision lw_ent.
Proof. solve_decision. Defined.

Record lw_map := mk_map { e : list lw_ent; cap : Z; cnt : Z }.

(** [{0}] and the zeroed entries of [calloc]. *)
Definition lw_empty : lw_map := mk_map [] 0 0.
Definition ent0 : lw_ent := mk_ent false 0 0 0.
Definition sizeof_lw_ent : Z := 24.

Definition lw_hash (kind a : Z) : Z :=
  let h := u64 (a * 0x9E3779B97F4A7C15 + kind) in
  let h := Z.lxor h (Z.shiftr h 29) in
  let h := h *64 0xBF58476D1CE4E5B9 in
  Z.lxor h (Z.shiftr h 32).

(** ** Growth *)
(** [while (ncap < want * 2)], one doubling per round. *)
Fixpoint grow_to (fuel : nat) (ncap want : Z) : option Z :=
  match fuel with
  | O => None
  | S fuel =>
      if ncap <? want *64 2 then
        match asmtest_grow_pow2 ncap (ncap +64 1) sizeof_lw_ent with
        | Some g => grow_to fuel g want
        | None => None
        end
      else Some ncap
  end.

(** One round of the re-insertion loop. *)
Definition reinsert : list lw_ent → lw_ent → list lw_ent :=
  OpenHash.reinsert used (λ x, (kind x, a x)) (λ k, lw_hash k.1 k.2).

(** [None] when the function returns false. *)
Definition lw_grow (grant : allocator) (m : lw_map) (want : Z) : option lw_map :=
  match asmtest_grow_pow2 (cap m) (if cap m =? 0 then 64 else cap m) sizeof_lw_ent with
  | None => None
  | Some ncap =>
      if SIZE_MAX / 2 <? want then None
      else
        match grow_to 65 ncap want with
        | None => None
        | Some ncap =>
            if grant (ncap * sizeof_lw_ent) then
              Some (mk_map (foldl reinsert (replicate (Z.to_nat ncap) ent0) (e m)) ncap (cnt m))
            else None
        end
  end.

(** ** Lookup and update *)
(** The slot a key's probe stops at: the key's own, or an empty one. *)
Definition matches (k x : Z) (s : lw_ent) : bool := (kind s =? k) && (a s =? x).
Definition lw_slot (m : lw_map) (k x : Z) : option Z :=
  probe (length (e m)) (e m) (λ s, negb (used s) || matches k x s)
    (cap m - 1) (Z.land (lw_hash k x) (cap m - 1)).

Definition store (m : lw_map) (k x st : Z) : lw_map :=
  match lw_slot m k x with
  | Some j =>
      match e m !! Z.to_nat j with
      | Some s =>
          if used s then
            mk_map (<[Z.to_nat j := mk_ent true (kind s) (a s) st]> (e m)) (cap m) (cnt m)
          else
            mk_map (<[Z.to_nat j := mk_ent true k x st]> (e m)) (cap m) (cnt m +64 1)
      | None => m
      end
  | None => m
  end.

Definition lw_put (grant : allocator) (m : lw_map) (k x st : Z) : lw_map :=
  if (cap m =? 0) || (cap m *64 3 <=? (cnt m +64 1) *64 4) then
    match lw_grow grant m (cnt m +64 1) with
    | Some m => store m k x st
    | None => m
    end
  else store m k x st.

Definition lw_get (m : lw_map) (k x : Z) : option Z :=
  if cap m =? 0 then None
  else match lw_slot m k x with
       | Some j => match e m !! Z.to_nat j with
                   | Some s => if used s then Some (step s) else None
                   | None => None
                   end
       | None => None
       end.

(** ** Invariant and abstraction *)
Definition key (s : lw_ent) : Z * Z := (kind s, a s).
Definition hash (k : Z * Z) : Z := lw_hash k.1 k.2.

Record wf (m : lw_map) : Prop := {
  wf_cap : cap m = Z.of_nat (length (e m));
  wf_pow2 : cap m = 0 ∨ is_pow2 (cap m);
  wf_bytes : cap m * sizeof_lw_ent <= SIZE_MAX;
  wf_tbl : tbl_wf used key hash (e m);
  wf_cnt : cnt m = Z.of_nat (count_used used (e m));
  wf_load : cnt m = 0 ∨ cnt m * 4 <= cap m * 3;
}.

Definition lw_abs (m : lw_map) : gmap (Z * Z) Z := tbl_abs used key step (e m).

Lemma lw_empty_wf : wf lw_empty.
Proof.
  split; simpl; auto.
  - unfold SIZE_MAX. lia.
  - apply empty_wf. set_solver.
Qed.

Lemma lw_empty_abs : lw_abs lw_empty = ∅.
Proof. done. Qed.

(** The probe of the code is the generic one. *)
Lemma lw_slot_probe m k x :
  wf m → lw_slot m k x = probe (length (e m)) (e m) (stop_at used key (k, x))
    (Z.of_nat (length (e m)) - 1) (Z.land (hash (k, x)) (Z.of_nat (length (e m)) - 1)).
Proof.
  intros Hm. unfold lw_slot, hash. rewrite (wf_cap _ Hm). simpl.
  apply probe_ext. intros s. unfold stop_at, matches, key. f_equal.
  apply eq_true_iff_eq. rewrite andb_true_iff, !Z.eqb_eq, bool_decide_eq_true. naive_solver.
Qed.

Lemma wf_room m : wf m → cap m ≠ 0 → has_room used (e m) ∧ is_pow2 (Z.of_nat (length (e m))).
Proof.
  intros [Hc Hp _ _ Hn Hl] H0. rewrite <-Hc. destruct Hp as [|Hp]; [done|].
  pose proof (is_pow2_pos _ Hp). split; [|done].
  apply room_of_count. destruct Hl; lia.
Qed.

(** ** Lookup *)
Lemma lw_get_spec m k x : wf m → lw_get m k x = lw_abs m !! (k, x).
Proof.
  intros Hm. unfold lw_get. destruct (Z.eqb_spec (cap m) 0) as [H0|H0].
  { unfold lw_abs. rewrite (wf_cap _ Hm) in H0.
    by rewrite (nil_length_inv (e m)) by lia. }
  destruct (wf_room m Hm H0) as [Hroom Hp]. rewrite lw_slot_probe by done.
  destruct (probe_get used key hash step (e m) (k, x) Hp (wf_tbl _ Hm) Hroom)
    as (i & s & E & Hi & _ & Ha). unfold key_slot in E. rewrite E, Nat2Z.id, Hi. by symmetry.
Qed.

(** ** Update with room left *)
Lemma store_spec m k x st :
  wf m → cap m ≠ 0 → (cnt m + 1) * 4 <= cap m * 3 →
  wf (store m k x st) ∧ lw_abs (store m k x st) = <[(k, x) := st]> (lw_abs m).
Proof.
  intros Hm H0 Hload. destruct (wf_room m Hm H0) as [Hroom Hp]. unfold store.
  rewrite lw_slot_probe by done.
  destruct (probe_put used key hash step (e m) (k, x) Hp (wf_tbl _ Hm) Hroom)
    as (i & s & E & Hi & Hk & Hput). unfold key_slot in E. rewrite E, Nat2Z.id, Hi.
  pose proof Hm as [Hcap Hpow Hbytes _ Hcnt _].
  destruct (used s); [set (s' := mk_ent true (kind s) (a s) st)|set (s' := mk_ent true k x st)].
  - destruct (Hput s' eq_refl (Hk eq_refl)) as (Hwf & Habs & Hcu). split; [|done].
    split; simpl; rewrite ?length_insert, ?Hcu; auto; right; lia.
  - destruct (Hput s' eq_refl eq_refl) as (Hwf & Habs & Hcu). split; [|done].
    assert (u64 (cnt m + 1) = cnt m + 1) as Eu
      by (apply u64_small; unfold SIZE_MAX, sizeof_lw_ent in *; lia).
    split; simpl; rewrite ?length_insert, ?Eu, ?Hcu; auto; lia.
Qed.

(** ** Growth *)
Lemma grow_to_spec fuel ncap want :
  is_pow2 ncap → ncap * sizeof_lw_ent <= SIZE_MAX → 0 <= want <= SIZE_MAX / 2 →
  match grow_to fuel ncap want with
  | Some g => is_pow2 g ∧ ncap <= g ∧ want * 2 <= g ∧ g * sizeof_lw_ent <= SIZE_MAX
  | None => want <= 2 ^ 56 → ncap * 2 ^ (Z.of_nat fuel - 1) < 2 ^ 58
  end.
Proof.
  intros Hp Hb Hw.
  assert (u64 (want * 2) = want * 2) as Ew by (apply u64_small; unfold SIZE_MAX in *; dlia).
  revert ncap Hp Hb. induction fuel as [|fuel IH]; intros ncap Hp Hb; cbn [grow_to].
  { intros _. pose proof (is_pow2_pos _ Hp). rewrite Z.pow_neg_r by lia. lia. }
  rewrite Ew. destruct (Z.ltb_spec ncap (want * 2)); [|auto with lia].
  pose proof (pow2_next ncap (ncap +64 1) sizeof_lw_ent ltac:(done) (or_intror Hp)) as Hg.
  destruct (asmtest_grow_pow2 _ _ _) as [g|].
  - destruct Hg as (Hg & Hlt & _ & Hgb). specialize (IH g Hg Hgb).
    destruct (grow_to fuel g want) as [r|].
    + destruct IH as (? & ? & ? & ?). auto with lia.
    + intros Hs. specialize (IH Hs). rewrite Nat2Z.inj_succ.
      pose proof (pow2_double ncap g Hp Hg Hlt).
      destruct fuel as [|fuel]; [simpl; lia|].
      replace (Z.succ (Z.of_nat (S fuel)) - 1) with (Z.succ (Z.of_nat (S fuel) - 1)) by lia.
      rewrite Z.pow_succ_r by lia. nia.
  - intros Hs. pose proof (is_pow2_pos _ Hp).
    rewrite u64_small in Hg by (unfold SIZE_MAX, sizeof_lw_ent in *; lia). lia.
Qed.

Lemma lw_grow_spec grant m :
  wf m → cnt m <= 2 ^ 55 → cap m <= 2 ^ 57 →
  match lw_grow grant m (cnt m + 1) with
  | Some m' => wf m' ∧ lw_abs m' = lw_abs m ∧ cnt m' = cnt m ∧ cap m' ≠ 0 ∧
               (cnt m + 1) * 4 <= cap m' * 3
  | None => ∃ n, grant n = false
  end.
Proof.
  intros Hm Hsmall Hcs. pose proof Hm as [Hcap Hpow Hbytes Htbl Hcnt Hload].
  assert (0 <= cnt m) by lia. unfold lw_grow.
  pose proof (pow2_next (cap m) (if cap m =? 0 then 64 else cap m) sizeof_lw_ent ltac:(done) Hpow) as Hg.
  destruct (asmtest_grow_pow2 _ _ _) as [n0|]; cycle 1.
  { destruct (Z.eqb_spec (cap m) 0); lia. }
  destruct Hg as (Hp0 & Hlt & _ & Hb0).
  destruct (Z.ltb_spec (SIZE_MAX / 2) (cnt m + 1)) as [Hbad|Hok].
  { exfalso. unfold SIZE_MAX in *. dlia. }
  pose proof (grow_to_spec 65 n0 (cnt m + 1) Hp0 Hb0 ltac:(lia)) as Hgt.
  destruct (grow_to 65 n0 (cnt m + 1)) as [n|]; cycle 1.
  { pose proof (is_pow2_pos _ Hp0). specialize (Hgt ltac:(lia)).
    change (2 ^ (Z.of_nat 65 - 1)) with (2 ^ 64) in Hgt. lia. }
  destruct Hgt as (Hp & Hge & Hw & Hb). pose proof (is_pow2_pos _ Hp) as Hpos.
  destruct (grant (n * sizeof_lw_ent)) eqn:Hgr; [|eauto].
  destruct (rehash_spec used key hash (e m) (Z.to_nat n) ent0) as (H1 & H2 & H3 & H4).
  - by rewrite Z2Nat.id by lia.
  - done.
  - lia.
  - done.
  - change reinsert with (OpenHash.reinsert used key hash).
    split_and!; simpl; [| |done|lia|lia].
    + split; simpl; rewrite ?H1, ?Z2Nat.id, ?H3 by lia; auto; lia.
    + by apply (tbl_abs_ext used key hash).
Qed.

Lemma lw_put_spec grant m k x st :
  wf m → cnt m <= 2 ^ 55 →
  wf (lw_put grant m k x st) ∧
  (lw_abs (lw_put grant m k x st) = <[(k, x) := st]> (lw_abs m) ∨
   lw_put grant m k x st = m ∧ ∃ n, grant n = false).
Proof.
  intros Hwf Hsmall. unfold lw_put.
  pose proof Hwf as [Hcap Hpow Hbytes Htbl Hcnt Hload]. assert (0 <= cnt m) by lia.
  assert (u64 (cnt m + 1) = cnt m + 1) as E1 by (apply u64_small; lia).
  assert (u64 ((cnt m + 1) * 4) = (cnt m + 1) * 4) as E2 by (apply u64_small; lia).
  assert (u64 (cap m * 3) = cap m * 3) as E3
    by (apply u64_small; unfold SIZE_MAX, sizeof_lw_ent in *; lia).
  rewrite E1, E2, E3.
  destruct (Z.eqb_spec (cap m) 0) as [H0|H0], (Z.leb_spec (cap m * 3) ((cnt m + 1) * 4)) as [Hl|Hl];
    simpl; try (pose proof (lw_grow_spec grant m Hwf Hsmall ltac:(lia)) as Hg;
      destruct (lw_grow _ _ _) as [m'|]; [|by eauto 10];
      destruct Hg as (Hwf' & <- & Hcnt' & Hcap' & Hload'); rewrite <-Hcnt' in Hload';
      destruct (store_spec m' k x st Hwf' Hcap' Hload'); eauto).
  destruct (store_spec m k x st Hwf H0); eauto with lia.
Qed.

(** The entry count is the size of the map. *)
Lemma lw_cnt_size m : wf m → cnt m = Z.of_nat (size (lw_abs m)).
Proof.
  intros Hm. rewrite (wf_cnt _ Hm). f_equal. apply (count_used_size used key hash), Hm.
Qed.

(** C10: the last-writer table refines a finite map.  A lookup answers what the
    map holds.  A store either makes the map hold the new step at the key, or,
    when the allocator refused to grow the table, leaves the table as it was;
    with an allocator that never refuses it always takes effect.  Every branch
    (update, insert, grow and rehash) is covered, the probe loops end, and the
    invariant is kept.  The bound on [cnt] is the largest table whose next
    growth is representable. *)
Theorem lw_map_refines grant m k x st
    (Hwf : wf m) (Hsmall : cnt m <= 2 ^ 55) :
  lw_get m k x = lw_abs m !! (k, x) ∧
  wf (lw_put grant m k x st) ∧
  (lw_abs (lw_put grant m k x st) = <[(k, x) := st]> (lw_abs m) ∨
   lw_put grant m k x st = m ∧ ∃ n, grant n = false).
Proof. split; [by apply lw_get_spec|by apply lw_put_spec]. Qed.

Lemma lw_map_refines_witness :
  wf lw_empty ∧ cnt lw_empty <= 2 ^ 55 ∧
  lw_abs (lw_put always lw_empty 1 4096 7) = {[ (1, 4096) := 7 ]}.
Proof.
  split; [exact lw_empty_wf|]. split; [simpl; lia|].
  destruct (lw_map_refines always lw_empty 1 4096 7 lw_empty_wf ltac:(simpl; lia))
    as (_ & _ & [H|[_ [n H]]]); [exact H|discriminate H].
Defined.
End LwMap.
