(* ===== verification/ValTrace.v ===== *)
(** The L0 value-trace sink of [src/dataflow.c] ([asmtest_valtrace_*]) over the
    records of [include/asmtest_valtrace.h]. *)
From S2P Require Import Prelude.

Module ValTrace.

(** [at_loc_kind_t] *)
Inductive at_loc_kind := AT_LOC_REG | AT_LOC_MEM_ABS | AT_LOC_MEM_OFF.
#[export] Instance at_loc_kind_eq_dec : EqDecision at_loc_kind.
Proof. solve_decision. Defined.

(** [at_val_rec_t] *)
Record at_val_rec := mk_rec {
  kind : at_loc_kind; reg : Z; base : Z; index : Z; scale : Z; disp : Z; addr : Z;
  size : Z; is_write : bool; value_valid : bool; wide : bool; wide_off : Z; value : Z;
  rstep : Z;
}.
#[export] Instance at_val_rec_eq_dec : EqDecision at_val_rec.
Proof. solve_decision. Defined.

(** [r.step = s] and [r.addr = x]. *)
Definition with_step (r : at_val_rec) (s : Z) : at_val_rec :=
  mk_rec (kind r) (reg r) (base r) (index r) (scale r) (disp r) (addr r) (size r)
    (is_write r) (value_valid r) (wide r) (wide_off r) (value r) s.
Definition with_addr (r : at_val_rec) (x : Z) : at_val_rec :=
  mk_rec (kind r) (reg r) (base r) (index r) (scale r) (disp r) x (size r)
    (is_write r) (value_valid r) (wide r) (wide_off r) (value r) (rstep r).

(** [asmtest_regfile_t]: the 18 integer registers, the 16 XMM lanes, MXCSR and
    the lane flag. *)
Record asmtest_regfile := mk_regfile {
  gpr : list Z; xmm : list (list Z); mxcsr : Z; has_vec : bool
}.
Definition regfile0 : asmtest_regfile :=
  mk_regfile (replicate 18 0) (replicate 16 (replicate 16 0)) 0 false.

(** [asmtest_valtrace_t].  The record pool and the byte pool are the entries
    written so far, with their capacity; [None] is a null pointer. *)
Record asmtest_valtrace := mk_vt {
  insn_off : option (list Z); steps_cap : nat; steps_total : Z;
  regfile : option (list asmtest_regfile); regfile_fp : bool;
  recs : option (list at_val_rec); recs_cap : nat; recs_total : Z;
  wide_buf : option (list Z); wide_cap : Z;
  vtruncated : bool; mem_space : at_loc_kind;
}.

Definition offs (v : asmtest_valtrace) : list Z := default [] (insn_off v).
Definition vrecs (v : asmtest_valtrace) : list at_val_rec := default [] (recs v).
Definition steps_len (v : asmtest_valtrace) : nat := length (offs v).
Definition recs_len (v : asmtest_valtrace) : nat := length (vrecs v).
Definition wide_len (v : asmtest_valtrace) : Z := Z.of_nat (length (default [] (wide_buf v))).

(** A zeroed pool of [cap] elements of [size] bytes, empty so far. *)
Definition pool {A} (grant : allocator) (cap : nat) (size : Z) : option (list A) :=
  if (0 <? cap)%nat && grant (size * Z.of_nat cap) then Some [] else None.

Definition sizeof_valtrace : Z := 120.
Definition sizeof_val_rec : Z := 72.
Definition sizeof_regfile : Z := 408.

Definition asmtest_valtrace_new (grant : allocator) (scap rcap wcap : nat) :
    option asmtest_valtrace :=
  if grant sizeof_valtrace then
    let s := pool grant scap 8 in
    let r := pool grant rcap sizeof_val_rec in
    let w := pool grant wcap 1 in
    Some (mk_vt s (if s is Some _ then scap else O) 0 None false
            r (if r is Some _ then rcap else O) 0
            w (if w is Some _ then Z.of_nat wcap else 0) false AT_LOC_MEM_ABS)
  else None.

(** The result and the sink afterwards. *)
Definition asmtest_valtrace_arm_regfile (grant : allocator) (v : option asmtest_valtrace) :
    bool * option asmtest_valtrace :=
  match v with
  | None => (false, None)
  | Some v =>
      if (steps_cap v =? 0)%nat then (false, Some v)
      else match regfile v with
           | Some _ => (true, Some v)
           | None =>
               if grant (Z.of_nat (steps_cap v) * sizeof_regfile) then
                 (true, Some (mk_vt (insn_off v) (steps_cap v) (steps_total v)
                    (Some (replicate (steps_cap v) regfile0)) (regfile_fp v) (recs v) (recs_cap v)
                    (recs_total v) (wide_buf v) (wide_cap v) (vtruncated v) (mem_space v)))
               else (false, Some v)
           end
  end.

Definition asmtest_valtrace_arm_fpregs (grant : allocator) (v : option asmtest_valtrace) :
    bool * option asmtest_valtrace :=
  let '(ok, v') := asmtest_valtrace_arm_regfile grant v in
  if negb ok then (false, v')
  else (true, (λ v, mk_vt (insn_off v) (steps_cap v) (steps_total v) (regfile v) true (recs v)
                      (recs_cap v) (recs_total v) (wide_buf v) (wide_cap v) (vtruncated v)
                      (mem_space v)) <$> v').

(** The record loop of an append: the pool and the flag. *)
Definition push_rec (cap : nat) (idx : Z) (st : option (list at_val_rec) * bool) (r : at_val_rec) :
    option (list at_val_rec) * bool :=
  match st with
  | (Some l, tr) => if (length l <? cap)%nat then (Some (l ++ [with_step r idx]), tr)
                    else (Some l, true)
  | (None, _) => (None, true)
  end.

Definition append (v : asmtest_valtrace) (off : Z) (rs : list at_val_rec) : asmtest_valtrace :=
  let stotal := steps_total v +64 1 in
  let rtotal := recs_total v +64 Z.of_nat (length rs) in
  match insn_off v with
  | Some l =>
      if (length l <? steps_cap v)%nat then
        let idx := u32 (Z.of_nat (length l)) in
        let '(rec', tr) := foldl (push_rec (recs_cap v) idx) (recs v, vtruncated v) rs in
        mk_vt (Some (l ++ [off])) (steps_cap v) stotal (regfile v) (regfile_fp v) rec'
          (recs_cap v) rtotal (wide_buf v) (wide_cap v) tr (mem_space v)
      else
        mk_vt (Some l) (steps_cap v) stotal (regfile v) (regfile_fp v) (recs v) (recs_cap v)
          rtotal (wide_buf v) (wide_cap v) true (mem_space v)
  | None =>
      mk_vt None (steps_cap v) stotal (regfile v) (regfile_fp v) (recs v) (recs_cap v) rtotal
        (wide_buf v) (wide_cap v) true (mem_space v)
  end.

Definition asmtest_valtrace_append (v : option asmtest_valtrace) (off : Z)
    (rs : list at_val_rec) : option asmtest_valtrace := (λ v, append v off rs) <$> v.

(** [(size_t)-1] is [SIZE_MAX]. *)
Definition asmtest_valtrace_stash_wide (v : option asmtest_valtrace) (bytes : list Z) :
    Z * option asmtest_valtrace :=
  let n := Z.of_nat (length bytes) in
  match v with
  | None => (SIZE_MAX, None)
  | Some v =>
      let set w tr := mk_vt (insn_off v) (steps_cap v) (steps_total v) (regfile v) (regfile_fp v)
        (recs v) (recs_cap v) (recs_total v) w (wide_cap v) tr (mem_space v) in
      if n =? 0 then (SIZE_MAX, Some v)
      else match wide_buf v with
           | Some w =>
               if wide_cap v <? wide_len v +64 n then (SIZE_MAX, Some (set (Some w) true))
               else (wide_len v, Some (set (Some (w ++ bytes)) (vtruncated v)))
           | None => (SIZE_MAX, Some (set None true))
           end
  end.

Definition asmtest_valtrace_steps (v : option asmtest_valtrace) : Z :=
  match v with Some v => Z.of_nat (steps_len v) | None => 0 end.
Definition asmtest_valtrace_recs (v : option asmtest_valtrace) : Z :=
  match v with Some v => Z.of_nat (recs_len v) | None => 0 end.

(** ** Specification

    A capture is a list of executed steps, each an offset with its operand
    records. *)
Abbreviation capture := (list (Z * list at_val_rec)).

Definition run (v : asmtest_valtrace) (c : capture) : asmtest_valtrace :=
  foldl (λ v st, append v st.1 st.2) v c.

(** The records of a capture, stamped with the index of their step. *)
Definition stamped (n : nat) (c : capture) : list at_val_rec :=
  concat (imap (λ i st, (λ r, with_step r (Z.of_nat (n + i))) <$> st.2) c).

Record holds (v : asmtest_valtrace) (c : capture) : Prop := {
  h_offs : match insn_off v with
           | Some l => l = take (steps_cap v) c.*1
           | None => steps_cap v = O end;
  h_recs : match recs v with
           | Some l => l = take (recs_cap v) (stamped 0 (take (steps_cap v) c))
           | None => recs_cap v = O end;
  h_stotal : steps_total v = u64 (Z.of_nat (length c));
  h_rtotal : recs_total v = u64 (Z.of_nat (length (concat c.*2)));
  h_trunc : vtruncated v = true ↔
     (steps_cap v < length c)%nat ∨
     (recs_cap v < length (stamped 0 (take (steps_cap v) c)))%nat;
}.

(** ** Lemmas *)
Lemma stamped_snoc c off rs :
  stamped 0 (c ++ [(off, rs)]) =
  stamped 0 c ++ ((λ r, with_step r (Z.of_nat (length c))) <$> rs).
Proof.
  unfold stamped. rewrite imap_app, concat_app. simpl. by rewrite app_nil_r, Nat.add_0_r.
Qed.

(** The state of the record loop after the records [l] were offered. *)
Definition rstate (cap : nat) (st : option (list at_val_rec) * bool) (l : list at_val_rec) : Prop :=
  match st.1 with Some x => x = take cap l | None => cap = O end ∧
  (st.2 = true ↔ (cap < length l)%nat).

Lemma push_rec_state cap idx st l r :
  rstate cap st l → rstate cap (push_rec cap idx st r) (l ++ [with_step r idx]).
Proof.
  destruct st as [[x|] tr]; intros [Hx Htr]; simpl in *; unfold rstate.
  - subst x. rewrite length_take.
    destruct (Nat.ltb_spec (Nat.min cap (length l)) cap); simpl; rewrite length_app; simpl.
    + rewrite take_snoc_gt, (take_ge l) by lia. rewrite Htr. split; [done|lia].
    + rewrite take_snoc_le by lia. split; [done|]. split; [lia|done].
  - subst cap. simpl. rewrite length_app. simpl. split; [done|]. split; [lia|done].
Qed.

Lemma push_recs_state cap idx rs st l :
  rstate cap st l →
  rstate cap (foldl (push_rec cap idx) st rs) (l ++ ((λ r, with_step r idx) <$> rs)).
Proof.
  revert st l. induction rs as [|r rs IH]; intros st l Hst; simpl; [by rewrite app_nil_r|].
  rewrite cons_middle, app_assoc. by apply IH, push_rec_state.
Qed.

Lemma append_caps v off rs :
  steps_cap (append v off rs) = steps_cap v ∧ recs_cap (append v off rs) = recs_cap v.
Proof. unfold append. repeat case_match; done. Qed.

Lemma append_holds v c off rs :
  Z.of_nat (steps_cap v) <= 2 ^ 32 → holds v c → holds (append v off rs) (c ++ [(off, rs)]).
Proof.
  intros Hcap [Ho Hr Hst Hrt Ht].
  assert (u64 (steps_total v + 1) = u64 (Z.of_nat (length (c ++ [(off, rs)])))) as Est.
  { rewrite Hst, u64_add_l, length_app. f_equal. simpl. lia. }
  assert (u64 (recs_total v + Z.of_nat (length rs)) =
          u64 (Z.of_nat (length (concat (c ++ [(off, rs)]).*2)))) as Ert.
  { rewrite Hrt, u64_add_l, fmap_app, concat_app, length_app. simpl.
    rewrite app_nil_r. f_equal. lia. }
  assert (∀ cap, (cap <= length c)%nat → take cap (c ++ [(off, rs)]) = take cap c) as Htk
    by (intros; by apply take_snoc_le).
  unfold append. destruct (insn_off v) as [l|] eqn:El; cycle 1.
  { split; simpl; rewrite ?Est, ?Ert, ?Ho; auto; rewrite Ho in *; [done|].
    split; [|done]. intros _. left. rewrite length_app. simpl. lia. }
  assert (length l = Nat.min (steps_cap v) (length c)) as Hl
    by (by rewrite Ho, length_take, length_fmap).
  destruct (Nat.ltb_spec (length l) (steps_cap v)) as [Hlt|Hge].
  - assert (length c < steps_cap v)%nat by lia.
    replace (length l) with (length c) by lia. rewrite u32_small by lia.
    assert (rstate (recs_cap v) (recs v, vtruncated v) (stamped 0 c)) as Hrs.
    { rewrite (take_ge c) in Hr, Ht by lia. split; [done|]. simpl. rewrite Ht. lia. }
    apply (push_recs_state _ (Z.of_nat (length c)) rs) in Hrs. rewrite <-(stamped_snoc c off rs) in Hrs.
    destruct (foldl _ _ rs) as [rec' tr]. destruct Hrs as [Hrec Htr]; simpl in *.
    assert (take (steps_cap v) (c ++ [(off, rs)]) = c ++ [(off, rs)]) as Hall
      by (apply take_snoc_gt; lia).
    split; simpl; rewrite ?Hall; auto.
    + rewrite fmap_app. simpl. rewrite take_snoc_gt by (rewrite length_fmap; lia).
      by rewrite Ho, take_ge by (rewrite length_fmap; lia).
    + rewrite Htr, (length_app c). simpl. lia.
  - split; simpl; rewrite ?Htk by lia; auto.
    + rewrite fmap_app, take_app_le by (rewrite length_fmap; lia). done.
    + split; [|done]. intros _. left. rewrite length_app. simpl. lia.
Qed.

Lemma new_holds grant s r w v : asmtest_valtrace_new grant s r w = Some v → holds v [].
Proof.
  unfold asmtest_valtrace_new, pool. case_match; [|done]. intros [= <-].
  split; simpl; auto.
  - destruct (_ && _); simpl; by rewrite ?take_nil.
  - rewrite ?take_nil. change (stamped 0 []) with (@nil at_val_rec). rewrite take_nil.
    by destruct ((0 <? r)%nat && _).
  - rewrite ?take_nil. split; [done|]. simpl. lia.
Qed.

Lemma run_holds c v c0 :
  Z.of_nat (steps_cap v) <= 2 ^ 32 → holds v c0 → holds (run v c) (c0 ++ c).
Proof.
  revert v c0. induction c as [|[off rs] c IH]; intros v c0 Hcap Hv; simpl; [by rewrite app_nil_r|].
  rewrite cons_middle, app_assoc. apply IH; [by rewrite (proj1 (append_caps v off rs))|].
  by apply append_holds.
Qed.

Lemma run_caps grant s r w v c :
  asmtest_valtrace_new grant s r w = Some v →
  (steps_cap (run v c) <= s)%nat ∧ (recs_cap (run v c) <= r)%nat.
Proof.
  intros Hnew. assert (steps_cap v <= s ∧ recs_cap v <= r)%nat as [Hs Hr].
  { unfold asmtest_valtrace_new in Hnew. repeat case_match; simplify_eq; simpl; lia. }
  clear Hnew. revert v Hs Hr. induction c as [|[off rs] c IH]; intros v Hs Hr; [done|].
  destruct (append_caps v off rs) as [E1 E2]. apply IH; simpl; by rewrite ?E1, ?E2.
Qed.

Lemma run_spec grant s r w v c
    (Hnew : asmtest_valtrace_new grant s r w = Some v) (Hs : Z.of_nat s <= 2 ^ 32) :
  let v' := run v c in
  offs v' = take (steps_cap v') c.*1 ∧
  vrecs v' = take (recs_cap v') (stamped 0 (take (steps_cap v') c)) ∧
  steps_total v' = u64 (Z.of_nat (length c)) ∧
  recs_total v' = u64 (Z.of_nat (length (concat c.*2))) ∧
  (vtruncated v' = true ↔
     offs v' ≠ c.*1 ∨ vrecs v' ≠ stamped 0 (take (steps_cap v') c)).
Proof.
  assert (Z.of_nat (steps_cap v) <= 2 ^ 32) as Hcap.
  { unfold asmtest_valtrace_new in Hnew. repeat case_match; simplify_eq; simpl; lia. }
  apply new_holds in Hnew. destruct (run_holds c v [] Hcap Hnew) as [Ho Hr Hst Hrt Ht].
  simpl in *.
  assert (offs (run v c) = take (steps_cap (run v c)) c.*1) as Eo.
  { unfold offs. destruct (insn_off _); [done|]. by rewrite Ho. }
  assert (vrecs (run v c) = take (recs_cap (run v c)) (stamped 0 (take (steps_cap (run v c)) c))) as Er.
  { unfold vrecs. destruct (recs _); [done|]. by rewrite Hr. }
  split_and!; [done..|]. rewrite Ht, Eo, Er, !take_neq_iff, length_fmap. done.
Qed.

(** The value trace of a capture is faithful: the stored steps are the
    first [steps_cap] ones, the stored records are the first [recs_cap] records
    of those steps, each stamped with the index of its step, the totals count
    everything offered modulo 2^64, and [truncated] is raised exactly when a
    step or a record of a stored step was dropped. *)
Theorem valtrace_sink_faithful grant s r w v c
    (Hnew : asmtest_valtrace_new grant s r w = Some v) (Hs : Z.of_nat s <= 2 ^ 32) :
  let v' := run v c in
  offs v' = take (steps_cap v') c.*1 ∧
  vrecs v' = take (recs_cap v') (stamped 0 (take (steps_cap v') c)) ∧
  steps_total v' = u64 (Z.of_nat (length c)) ∧
  recs_total v' = u64 (Z.of_nat (length (concat c.*2))) ∧
  (vtruncated v' = true ↔
     offs v' ≠ c.*1 ∨ vrecs v' ≠ stamped 0 (take (steps_cap v') c)).
Proof. by apply (run_spec grant s r w). Qed.

Lemma valtrace_sink_faithful_witness :
  ∃ v, asmtest_valtrace_new always 2 1 0 = Some v ∧ Z.of_nat 2 <= 2 ^ 32 ∧
    let r := mk_rec AT_LOC_REG 35 0 0 0 0 0 8 true false false 0 0 0 in
    vrecs (run v [(0, []); (4, [r; r]); (8, [])]) = [with_step r 1].
Proof.
  eexists. split; [reflexivity|]. split; [simpl; lia|]. cbv zeta.
  rewrite (proj1 (proj2 (valtrace_sink_faithful always 2 1 0 _ _ eq_refl ltac:(simpl; lia)))).
  reflexivity.
Defined.

(** The order the def-use builder relies on: records come grouped by step,
    ascending, and name steps that were stored. *)
Definition grouped (v : asmtest_valtrace) : Prop :=
  StronglySorted (λ x y, rstep x <= rstep y) (vrecs v) ∧
  Forall (λ x, 0 <= rstep x < Z.of_nat (steps_len v)) (vrecs v).

Lemma stamped_steps n c :
  Forall (λ x, Z.of_nat n <= rstep x < Z.of_nat (n + length c)) (stamped n c).
Proof.
  unfold stamped. apply Forall_concat, Forall_forall. intros l [i Hl]%list_elem_of_lookup.
  rewrite list_lookup_imap in Hl. destruct (c !! i) as [[off rs]|] eqn:E; simplify_eq/=.
  apply lookup_lt_Some in E. apply Forall_fmap, Forall_forall. intros x _. simpl. lia.
Qed.

Lemma stamped_cons n off rs c :
  stamped n ((off, rs) :: c) =
  ((λ r, with_step r (Z.of_nat n)) <$> rs) ++ stamped (S n) c.
Proof.
  unfold stamped. simpl. rewrite Nat.add_0_r. do 2 f_equal. apply imap_ext.
  intros i x _. simpl. apply list_fmap_ext. intros. do 2 f_equal. lia.
Qed.

Lemma stamped_sorted n c : StronglySorted (λ x y, rstep x <= rstep y) (stamped n c).
Proof.
  revert n. induction c as [|[off rs] c IH]; intros n; [constructor|].
  rewrite stamped_cons. pose proof (stamped_steps (S n) c) as Hb.
  induction rs as [|r rs IHr]; simpl; [apply IH|].
  constructor; [exact IHr|]. apply Forall_app. split.
  - apply Forall_fmap, Forall_forall. intros x _. simpl. lia.
  - eapply Forall_impl; [exact Hb|]. intros x ?. simpl in *. lia.
Qed.

(** The value sink establishes that order. *)
Lemma run_grouped grant s r w v c :
  asmtest_valtrace_new grant s r w = Some v → Z.of_nat s <= 2 ^ 32 → grouped (run v c).
Proof.
  intros Hnew Hs.
  assert (Z.of_nat (steps_cap v) <= 2 ^ 32) as Hcap.
  { unfold asmtest_valtrace_new in Hnew. repeat case_match; simplify_eq; simpl; lia. }
  apply new_holds in Hnew. destruct (run_holds c v [] Hcap Hnew) as [Ho Hr _ _ _]. simpl in *.
  assert (vrecs (run v c) = take (recs_cap (run v c)) (stamped 0 (take (steps_cap (run v c)) c))) as Er.
  { unfold vrecs. destruct (recs _); [done|]. by rewrite Hr. }
  assert (steps_len (run v c) = Nat.min (steps_cap (run v c)) (length c)) as El.
  { unfold steps_len, offs. destruct (insn_off _); simpl.
    - by rewrite Ho, length_take, length_fmap.
    - by rewrite Ho. }
  split; rewrite Er.
  - apply StronglySorted_take, stamped_sorted.
  - apply Forall_take. eapply Forall_impl; [apply stamped_steps|]. intros x. simpl.
    rewrite length_take, El. lia.
Qed.
End ValTrace.
