(* ===== verification/RegSlice.v ===== *)
(** Register aliases of [src/dataflow.c]: the literal Capstone ids and
    [reg_slice], which folds a general-purpose alias into its 64-bit container,
    byte offset and byte length. *)
From S2P Require Import Prelude.

Module RegSlice.

Definition X86_REG_AH : Z := 1.
Definition X86_REG_AL : Z := 2.
Definition X86_REG_AX : Z := 3.
Definition X86_REG_BH : Z := 4.
Definition X86_REG_BL : Z := 5.
Definition X86_REG_BP : Z := 6.
Definition X86_REG_BPL : Z := 7.
Definition X86_REG_BX : Z := 8.
Definition X86_REG_CH : Z := 9.
Definition X86_REG_CL : Z := 10.
Definition X86_REG_CX : Z := 12.
Definition X86_REG_DH : Z := 13.
Definition X86_REG_DI : Z := 14.
Definition X86_REG_DIL : Z := 15.
Definition X86_REG_DL : Z := 16.
Definition X86_REG_DX : Z := 18.
Definition X86_REG_EAX : Z := 19.
Definition X86_REG_EBP : Z := 20.
Definition X86_REG_EBX : Z := 21.
Definition X86_REG_ECX : Z := 22.
Definition X86_REG_EDI : Z := 23.
Definition X86_REG_EDX : Z := 24.
Definition X86_REG_ESI : Z := 29.
Definition X86_REG_ESP : Z := 30.
Definition X86_REG_RAX : Z := 35.
Definition X86_REG_RBP : Z := 36.
Definition X86_REG_RBX : Z := 37.
Definition X86_REG_RCX : Z := 38.
Definition X86_REG_RDI : Z := 39.
Definition X86_REG_RDX : Z := 40.
Definition X86_REG_RSI : Z := 43.
Definition X86_REG_RSP : Z := 44.
Definition X86_REG_SI : Z := 45.
Definition X86_REG_SIL : Z := 46.
Definition X86_REG_SP : Z := 47.
Definition X86_REG_SPL : Z := 48.
Definition X86_REG_R8 : Z := 106.
Definition X86_REG_R9 : Z := 107.
Definition X86_REG_R10 : Z := 108.
Definition X86_REG_R11 : Z := 109.
Definition X86_REG_R12 : Z := 110.
Definition X86_REG_R13 : Z := 111.
Definition X86_REG_R14 : Z := 112.
Definition X86_REG_R15 : Z := 113.
Definition X86_REG_R8B : Z := 218.
Definition X86_REG_R9B : Z := 219.
Definition X86_REG_R10B : Z := 220.
Definition X86_REG_R11B : Z := 221.
Definition X86_REG_R12B : Z := 222.
Definition X86_REG_R13B : Z := 223.
Definition X86_REG_R14B : Z := 224.
Definition X86_REG_R15B : Z := 225.
Definition X86_REG_R8D : Z := 226.
Definition X86_REG_R9D : Z := 227.
Definition X86_REG_R10D : Z := 228.
Definition X86_REG_R11D : Z := 229.
Definition X86_REG_R12D : Z := 230.
Definition X86_REG_R13D : Z := 231.
Definition X86_REG_R14D : Z := 232.
Definition X86_REG_R15D : Z := 233.
Definition X86_REG_R8W : Z := 234.
Definition X86_REG_R9W : Z := 235.
Definition X86_REG_R10W : Z := 236.
Definition X86_REG_R11W : Z := 237.
Definition X86_REG_R12W : Z := 238.
Definition X86_REG_R13W : Z := 239.
Definition X86_REG_R14W : Z := 240.
Definition X86_REG_R15W : Z := 241.

(** [case a: case b: ...] *)
Definition case_of (r : Z) (ids : list Z) : bool := existsb (Z.eqb r) ids.

(** The first switch: the container. *)
Definition reg_container (r : Z) : option Z :=
  if case_of r [X86_REG_RAX; X86_REG_EAX; X86_REG_AX; X86_REG_AL; X86_REG_AH]
  then Some X86_REG_RAX
  else if case_of r [X86_REG_RBX; X86_REG_EBX; X86_REG_BX; X86_REG_BL; X86_REG_BH]
  then Some X86_REG_RBX
  else if case_of r [X86_REG_RCX; X86_REG_ECX; X86_REG_CX; X86_REG_CL; X86_REG_CH]
  then Some X86_REG_RCX
  else if case_of r [X86_REG_RDX; X86_REG_EDX; X86_REG_DX; X86_REG_DL; X86_REG_DH]
  then Some X86_REG_RDX
  else if case_of r [X86_REG_RSI; X86_REG_ESI; X86_REG_SI; X86_REG_SIL]
  then Some X86_REG_RSI
  else if case_of r [X86_REG_RDI; X86_REG_EDI; X86_REG_DI; X86_REG_DIL]
  then Some X86_REG_RDI
  else if case_of r [X86_REG_RBP; X86_REG_EBP; X86_REG_BP; X86_REG_BPL]
  then Some X86_REG_RBP
  else if case_of r [X86_REG_RSP; X86_REG_ESP; X86_REG_SP; X86_REG_SPL]
  then Some X86_REG_RSP
  else if case_of r [X86_REG_R8; X86_REG_R8D; X86_REG_R8W; X86_REG_R8B]
  then Some X86_REG_R8
  else if case_of r [X86_REG_R9; X86_REG_R9D; X86_REG_R9W; X86_REG_R9B]
  then Some X86_REG_R9
  else if case_of r [X86_REG_R10; X86_REG_R10D; X86_REG_R10W; X86_REG_R10B]
  then Some X86_REG_R10
  else if case_of r [X86_REG_R11; X86_REG_R11D; X86_REG_R11W; X86_REG_R11B]
  then Some X86_REG_R11
  else if case_of r [X86_REG_R12; X86_REG_R12D; X86_REG_R12W; X86_REG_R12B]
  then Some X86_REG_R12
  else if case_of r [X86_REG_R13; X86_REG_R13D; X86_REG_R13W; X86_REG_R13B]
  then Some X86_REG_R13
  else if case_of r [X86_REG_R14; X86_REG_R14D; X86_REG_R14W; X86_REG_R14B]
  then Some X86_REG_R14
  else if case_of r [X86_REG_R15; X86_REG_R15D; X86_REG_R15W; X86_REG_R15B]
  then Some X86_REG_R15
  else None.

(** The second switch: byte offset and byte length. *)
Definition reg_shape (r : Z) : option (Z * Z) :=
  if case_of r
     [X86_REG_RAX; X86_REG_RBX; X86_REG_RCX; X86_REG_RDX; X86_REG_RSI; X86_REG_RDI; X86_REG_RBP;
      X86_REG_RSP; X86_REG_R8; X86_REG_R9; X86_REG_R10; X86_REG_R11; X86_REG_R12; X86_REG_R13;
      X86_REG_R14; X86_REG_R15]
  then Some (0, 8)
  else if case_of r
     [X86_REG_EAX; X86_REG_EBX; X86_REG_ECX; X86_REG_EDX; X86_REG_ESI; X86_REG_EDI; X86_REG_EBP;
      X86_REG_ESP; X86_REG_R8D; X86_REG_R9D; X86_REG_R10D; X86_REG_R11D; X86_REG_R12D;
      X86_REG_R13D; X86_REG_R14D; X86_REG_R15D]
  then Some (0, 4)
  else if case_of r
     [X86_REG_AX; X86_REG_BX; X86_REG_CX; X86_REG_DX; X86_REG_SI; X86_REG_DI; X86_REG_BP;
      X86_REG_SP; X86_REG_R8W; X86_REG_R9W; X86_REG_R10W; X86_REG_R11W; X86_REG_R12W;
      X86_REG_R13W; X86_REG_R14W; X86_REG_R15W]
  then Some (0, 2)
  else if case_of r
     [X86_REG_AL; X86_REG_BL; X86_REG_CL; X86_REG_DL; X86_REG_SIL; X86_REG_DIL; X86_REG_BPL;
      X86_REG_SPL; X86_REG_R8B; X86_REG_R9B; X86_REG_R10B; X86_REG_R11B; X86_REG_R12B;
      X86_REG_R13B; X86_REG_R14B; X86_REG_R15B]
  then Some (0, 1)
  else if case_of r
     [X86_REG_AH; X86_REG_BH; X86_REG_CH; X86_REG_DH]
  then Some (1, 1)
  else None.

(** [Some (container, off, len)] for the return 1, [None] for the return 0. *)
Definition reg_slice (r : Z) : option (Z * Z * Z) :=
  match reg_container r with
  | Some c => match reg_shape r with Some (off, len) => Some (c, off, len) | None => None end
  | None => None
  end.

(** ** The mapped ids *)
Definition gp_aliases : list Z :=
  [X86_REG_AH; X86_REG_AL; X86_REG_AX; X86_REG_BH; X86_REG_BL; X86_REG_BP; X86_REG_BPL;
      X86_REG_BX; X86_REG_CH; X86_REG_CL; X86_REG_CX; X86_REG_DH; X86_REG_DI; X86_REG_DIL;
      X86_REG_DL; X86_REG_DX; X86_REG_EAX; X86_REG_EBP; X86_REG_EBX; X86_REG_ECX; X86_REG_EDI;
      X86_REG_EDX; X86_REG_ESI; X86_REG_ESP; X86_REG_RAX; X86_REG_RBP; X86_REG_RBX; X86_REG_RCX;
      X86_REG_RDI; X86_REG_RDX; X86_REG_RSI; X86_REG_RSP; X86_REG_SI; X86_REG_SIL; X86_REG_SP;
      X86_REG_SPL; X86_REG_R8; X86_REG_R9; X86_REG_R10; X86_REG_R11; X86_REG_R12; X86_REG_R13;
      X86_REG_R14; X86_REG_R15; X86_REG_R8B; X86_REG_R9B; X86_REG_R10B; X86_REG_R11B;
      X86_REG_R12B; X86_REG_R13B; X86_REG_R14B; X86_REG_R15B; X86_REG_R8D; X86_REG_R9D;
      X86_REG_R10D; X86_REG_R11D; X86_REG_R12D; X86_REG_R13D; X86_REG_R14D; X86_REG_R15D;
      X86_REG_R8W; X86_REG_R9W; X86_REG_R10W; X86_REG_R11W; X86_REG_R12W; X86_REG_R13W;
      X86_REG_R14W; X86_REG_R15W].

Lemma case_of_In r ids : case_of r ids = true ↔ r ∈ ids.
Proof.
  unfold case_of. rewrite existsb_exists, list_elem_of_In. setoid_rewrite Z.eqb_eq. naive_solver.
Qed.

(** Mapped or not is decided by the first switch alone. *)
Lemma reg_container_In r c : reg_container r = Some c → r ∈ gp_aliases.
Proof.
  unfold reg_container. intros H.
  repeat match type of H with
  | (if case_of ?x ?ids then _ else _) = _ =>
      let E := fresh "E" in destruct (case_of x ids) eqn:E;
      [apply case_of_In in E; revert E; clear; unfold gp_aliases; set_solver|clear E]
  end. done.
Qed.

(** A decidable fact about the aliases, checked at each of them. *)
Lemma gp_aliases_all (P : Z → bool) :
  forallb P gp_aliases = true → ∀ r, r ∈ gp_aliases → P r = true.
Proof. intros H r Hr%list_elem_of_In. by eapply forallb_forall in H. Qed.

Definition slice_ok (r : Z) : bool :=
  match reg_slice r with
  | Some (c, off, len) =>
      bool_decide (reg_slice c = Some (c, 0, 8)) && (0 <=? off) && (1 <=? len) && (off + len <=? 8)
      && (if len =? 4 then off =? 0 else true)
  | None => false
  end.

Lemma reg_slice_spec r :
  match reg_slice r with
  | Some (c, off, len) =>
      r ∈ gp_aliases ∧ reg_slice c = Some (c, 0, 8) ∧ 0 <= off ∧ 1 <= len ∧ off + len <= 8 ∧
      (len = 4 → off = 0)
  | None => r ∉ gp_aliases
  end.
Proof.
  assert (r ∈ gp_aliases → slice_ok r = true) as Hok
    by (apply gp_aliases_all; vm_compute; reflexivity).
  unfold slice_ok in Hok. destruct (reg_slice r) as [[[c off] len]|] eqn:E; cycle 1.
  { intros Hr. by specialize (Hok Hr). }
  assert (r ∈ gp_aliases) as Hr.
  { unfold reg_slice in E. destruct (reg_container r) eqn:Ec; [|done].
    by eapply reg_container_In. }
  specialize (Hok Hr). rewrite !andb_true_iff, bool_decide_eq_true in Hok.
  destruct (Z.eqb_spec len 4); lia || (split_and!; try tauto; lia).
Qed.

(** Two aliases of one container name disjoint bytes. *)
Definition disjoint_slices (r1 r2 : Z) : bool :=
  match reg_slice r1, reg_slice r2 with
  | Some (_, o1, l1), Some (_, o2, l2) => (o1 + l1 <=? o2) || (o2 + l2 <=? o1)
  | _, _ => false
  end.
Definition high_byte (r : Z) : bool := case_of r [X86_REG_AH; X86_REG_BH; X86_REG_CH; X86_REG_DH].
Definition low_byte (r : Z) : bool := case_of r [X86_REG_AL; X86_REG_BL; X86_REG_CL; X86_REG_DL].

(** [reg_slice] maps exactly the general-purpose aliases; each lands
    inside its 64-bit container, which is its own container; and two aliases of
    one container share a byte unless one is the high-byte form (AH..DH) and the
    other the low-byte form (AL..DL). *)
Theorem reg_slice_aliases r1 r2 c1 c2 o1 o2 l1 l2
    (H1 : reg_slice r1 = Some (c1, o1, l1)) (H2 : reg_slice r2 = Some (c2, o2, l2))
    (Hsame : c1 = c2) :
  reg_slice c1 = Some (c1, 0, 8) ∧ 0 <= o1 ∧ 1 <= l1 ∧ o1 + l1 <= 8 ∧
  (disjoint_slices r1 r2 = true ↔
     high_byte r1 = true ∧ low_byte r2 = true ∨ low_byte r1 = true ∧ high_byte r2 = true).
Proof.
  pose proof (reg_slice_spec r1) as S1. pose proof (reg_slice_spec r2) as S2.
  rewrite H1 in S1. rewrite H2 in S2. destruct S1 as (I1 & ?&?&?&?&_), S2 as (I2 & _).
  split_and!; [done..|].
  assert (forallb (λ x, forallb (λ y,
    match reg_slice x, reg_slice y with
    | Some (c, _, _), Some (c', _, _) =>
        if c =? c' then
          Bool.eqb (disjoint_slices x y) (high_byte x && low_byte y || low_byte x && high_byte y)
        else true
    | _, _ => true end) gp_aliases) gp_aliases = true) as Hall by (vm_compute; reflexivity).
  eapply (gp_aliases_all _) in Hall; [|exact I1]. eapply (gp_aliases_all _) in Hall; [|exact I2].
  rewrite H1, H2, Hsame, Z.eqb_refl in Hall. apply eqb_prop in Hall.
  rewrite Hall, orb_true_iff, !andb_true_iff. done.
Qed.

Lemma reg_slice_aliases_witness :
  reg_slice X86_REG_AH = Some (X86_REG_RAX, 1, 1) ∧
  reg_slice X86_REG_AX = Some (X86_REG_RAX, 0, 2) ∧
  disjoint_slices X86_REG_AH X86_REG_AX = false.
Proof.
  split; [reflexivity|]. split; [reflexivity|]. apply not_true_is_false. intros H.
  apply (reg_slice_aliases X86_REG_AH X86_REG_AX X86_REG_RAX X86_REG_RAX 1 0 1 2
    eq_refl eq_refl eq_refl) in H. destruct H as [[_ H]|[H _]]; discriminate H.
Defined.
End RegSlice.
