(* ===== verification/DefUse.v ===== *)
(** The L1 def-use builder of [src/dataflow.c]: per-byte last-writer resolution
    over a value trace. *)
From S2P Require Import Prelude Grow OpenHash LwMap RegSlice ValTrace.
Import ValTrace.

Module DefUse.

(** [asmtest_defuse_edge_t] and [asmtest_defuse_t]. *)
Record edge := mk_edge { from_step : Z; to_step : Z; loc : at_val_rec }.
Record defuse := mk_defuse { edges : list edge; nsteps : Z }.

(** [edgevec]: the edges pushed and the capacity. *)
Record edgevec := mk_ev { ev_v : list edge; ev_cap : Z }.
Definition ev_empty : edgevec := mk_ev [] 0.
Definition sizeof_edge : Z := 80.

Definition edge_push (grant : allocator) (ev : edgevec) (from to : Z) (l : at_val_rec) : edgevec :=
  let n := Z.of_nat (length (ev_v ev)) in
  if n =? ev_cap ev then
    match asmtest_grow grant (ev_cap ev) (n + 1) sizeof_edge with
    | Some cap => mk_ev (ev_v ev ++ [mk_edge from to l]) cap
    | None => ev
    end
  else mk_ev (ev_v ev ++ [mk_edge from to l]) (ev_cap ev).

(** Clamp a byte width to the tracked window. *)
Definition rec_bytes (r : at_val_rec) : Z :=
  let s := if size r =? 0 then 1 else size r in if 64 <? s then 64 else s.

(** The three key kinds of the map. *)
Definition KREG : Z := 0.
Definition KMEM : Z := 1.
Definition KSUB : Z := 2.

(** Byte [b] of a range that starts at [base], in 64-bit arithmetic. *)
Definition bytes_from (base n : Z) : list Z := (λ b, base +64 Z.of_nat b) <$> seq 0 (Z.to_nat n).

Definition collect (prod : list Z) (p : option Z) : list Z :=
  match p with
  | None => prod
  | Some p => if existsb (λ q, q =? p) prod then prod
              else if (length prod <? 64)%nat then prod ++ [p] else prod
  end.

Definition collect_distinct (map : LwMap.lw_map) (kind base n : Z) : list Z :=
  foldl (λ prod x, collect prod (LwMap.lw_get map kind x)) [] (bytes_from base n).

Definition put_range (grant : allocator) (map : LwMap.lw_map) (kind base n step : Z) :
    LwMap.lw_map :=
  foldl (λ m x, LwMap.lw_put grant m kind x step) map (bytes_from base n).

(** [((uint64_t)container << 8) | off] *)
Definition slice_base (container off : Z) : Z := Z.lor (Z.shiftl container 8) off.

Definition push_all (grant : allocator) (ev : edgevec) (prod : list Z) (step : Z)
    (r : at_val_rec) : edgevec :=
  foldl (λ ev p, edge_push grant ev p step r) ev prod.

Definition emit_read (grant : allocator) (r : at_val_rec) (map : LwMap.lw_map) (ev : edgevec)
    (step : Z) : edgevec :=
  match kind r with
  | AT_LOC_REG =>
      match RegSlice.reg_slice (reg r) with
      | Some (container, off, len) =>
          push_all grant ev (collect_distinct map KSUB (slice_base container off) len) step r
      | None =>
          match LwMap.lw_get map KREG (reg r) with
          | Some p => edge_push grant ev p step r
          | None => ev
          end
      end
  | _ => push_all grant ev (collect_distinct map KMEM (addr r) (rec_bytes r)) step r
  end.

Definition apply_write (grant : allocator) (r : at_val_rec) (map : LwMap.lw_map) (step : Z) :
    LwMap.lw_map :=
  match kind r with
  | AT_LOC_REG =>
      match RegSlice.reg_slice (reg r) with
      | Some (container, off, len) =>
          let write_len := if len =? 4 then 8 else len in
          put_range grant map KSUB (slice_base container off) write_len step
      | None => LwMap.lw_put grant map KREG (reg r) step
      end
  | _ => put_range grant map KMEM (addr r) (rec_bytes r) step
  end.

(** [while (i < n && recs[i].step == step) i++]: the group of one step and the
    records after it. *)
Fixpoint span_step (step : Z) (l : list at_val_rec) : list at_val_rec * list at_val_rec :=
  match l with
  | r :: l' => if rstep r =? step then let '(g, rest) := span_step step l' in (r :: g, rest)
               else ([], l)
  | [] => ([], [])
  end.

(** The body of the per-step loop: all reads, then all writes. *)
Definition build_step (grant : allocator) (st : LwMap.lw_map * edgevec * list at_val_rec) (step : Z) :
    LwMap.lw_map * edgevec * list at_val_rec :=
  let '(map, ev, l) := st in
  let '(g, rest) := span_step step l in
  let ev := foldl (λ ev r, if is_write r then ev else emit_read grant r map ev step) ev g in
  let map := foldl (λ m r, if is_write r then apply_write grant r m step else m) map g in
  (map, ev, rest).

Definition sizeof_defuse : Z := 24.

Definition asmtest_defuse_build (grant : allocator) (v : option asmtest_valtrace) : option defuse :=
  match v with
  | None => None
  | Some v =>
      if grant sizeof_defuse then
        let n := Z.to_nat (u32 (Z.of_nat (steps_len v))) in
        let '(_, ev, _) :=
          foldl (build_step grant) (LwMap.lw_empty, ev_empty, vrecs v) (Z.of_nat <$> seq 0 n) in
        Some (mk_defuse (ev_v ev) (Z.of_nat (steps_len v)))
      else None
  end.

(** ** Specification *)
(** The location bytes a record reads and the ones it defines, as map keys.  A
    32-bit register write defines all eight bytes of its container. *)
Definition read_keys (r : at_val_rec) : list (Z * Z) :=
  match kind r with
  | AT_LOC_REG =>
      match RegSlice.reg_slice (reg r) with
      | Some (c, off, len) => pair KSUB <$> bytes_from (slice_base c off) len
      | None => [(KREG, reg r)]
      end
  | _ => pair KMEM <$> bytes_from (addr r) (rec_bytes r)
  end.

Definition write_keys (r : at_val_rec) : list (Z * Z) :=
  match kind r with
  | AT_LOC_REG =>
      match RegSlice.reg_slice (reg r) with
      | Some (c, off, len) =>
          pair KSUB <$> bytes_from (slice_base c off) (if len =? 4 then 8 else len)
      | None => [(KREG, reg r)]
      end
  | _ => pair KMEM <$> bytes_from (addr r) (rec_bytes r)
  end.

(** Record [w] defines byte [k] at step [p]. *)
Definition defines (w : at_val_rec) (k : Z * Z) (p : Z) : Prop :=
  is_write w = true ∧ k ∈ write_keys w ∧ rstep w = p.

(** [p] is the latest step before [s] at which some record defines [k]. *)
Definition last_writer (rs : list at_val_rec) (k : Z * Z) (s p : Z) : Prop :=
  p < s ∧ (∃ w, w ∈ rs ∧ defines w k p) ∧
  ∀ w q, w ∈ rs → defines w k q → q < s → q <= p.

(** The dependences of a trace: each read with each latest writer of a byte it
    reads. *)
Definition depends (rs : list at_val_rec) (x : edge) : Prop :=
  loc x ∈ rs ∧ is_write (loc x) = false ∧ rstep (loc x) = to_step x ∧
  ∃ k, k ∈ read_keys (loc x) ∧ last_writer rs k (to_step x) (from_step x).

(** ** The builder over finite maps *)
Definition producers (G : gmap (Z * Z) Z) (r : at_val_rec) : list Z :=
  distinct (omap (λ k, G !! k) (read_keys r)).
Definition abs_write (G : gmap (Z * Z) Z) (r : at_val_rec) (step : Z) : gmap (Z * Z) Z :=
  foldl (λ G k, <[k := step]> G) G (write_keys r).

Lemma length_bytes_from base n : length (bytes_from base n) = Z.to_nat n.
Proof. unfold bytes_from. by rewrite length_fmap, length_seq. Qed.

Lemma rec_bytes_range r : 0 <= size r → 1 <= rec_bytes r <= 64.
Proof.
  intros. unfold rec_bytes. destruct (Z.eqb_spec (size r) 0); [done|].
  destruct (Z.ltb_spec 64 (size r)); lia.
Qed.

Lemma length_read_keys r : (length (read_keys r) <= 64)%nat.
Proof.
  unfold read_keys. pose proof (RegSlice.reg_slice_spec (reg r)).
  assert (rec_bytes r <= 64) by (unfold rec_bytes; repeat case_match; lia).
  repeat case_match; rewrite ?length_fmap, ?length_bytes_from; simpl; destruct_and?; lia.
Qed.
Lemma length_write_keys r : (length (write_keys r) <= 64)%nat.
Proof.
  unfold write_keys. pose proof (RegSlice.reg_slice_spec (reg r)).
  assert (rec_bytes r <= 64) by (unfold rec_bytes; repeat case_match; lia).
  repeat case_match; rewrite ?length_fmap, ?length_bytes_from; simpl; destruct_and?; lia.
Qed.

(** The 64-entry producer buffer never overflows: it is filled from at most 64
    bytes. *)
Lemma collect_distinct_spec (m : LwMap.lw_map) (kd : Z) (l : list Z) (G : gmap (Z * Z) Z) :
  (∀ x, LwMap.lw_get m kd x = G !! (kd, x)) → (length l <= 64)%nat →
  foldl (λ prod x, collect prod (LwMap.lw_get m kd x)) [] l =
  distinct (omap (λ k, G !! k) (pair kd <$> l)).
Proof.
  intros HG. induction l as [|x l IH] using rev_ind; intros Hl; [done|].
  rewrite length_app in Hl. simpl in Hl. rewrite foldl_app. simpl. rewrite IH by lia.
  rewrite fmap_app, omap_app. simpl. rewrite HG. unfold collect.
  destruct (G !! (kd, x)) as [p|]; [|by rewrite app_nil_r].
  rewrite distinct_snoc. unfold snoc_new. set (D := distinct _).
  assert (existsb (λ q, q =? p) D = bool_decide (p ∈ D)) as ->.
  { apply eq_true_iff_eq. rewrite existsb_exists, bool_decide_eq_true.
    setoid_rewrite Z.eqb_eq. setoid_rewrite <-list_elem_of_In. naive_solver. }
  case_bool_decide; [done|].
  assert (length D <= length l)%nat.
  { unfold D. etransitivity; [apply length_distinct|].
    etransitivity; [apply length_omap_le|]. by rewrite length_fmap. }
  destruct (Nat.ltb_spec (length D) 64); [done|lia].
Qed.

(** ** Edges *)
Definition ev_ok (ev : edgevec) : Prop :=
  Z.of_nat (length (ev_v ev)) <= ev_cap ev ∧ ev_cap ev * sizeof_edge <= SIZE_MAX.

Lemma edge_push_spec ev f t l :
  ev_ok ev → Z.of_nat (length (ev_v ev)) <= 2 ^ 55 →
  ev_v (edge_push always ev f t l) = ev_v ev ++ [mk_edge f t l] ∧ ev_ok (edge_push always ev f t l).
Proof.
  intros [Hn Hb] Hs. unfold edge_push, ev_ok.
  destruct (Z.eqb_spec (Z.of_nat (length (ev_v ev))) (ev_cap ev)) as [E|E].
  - pose proof (asmtest_grow_spec always (ev_cap ev) (Z.of_nat (length (ev_v ev)) + 1) sizeof_edge) as G.
    destruct (asmtest_grow _ _ _ _) as [c|].
    + destruct G as (? & _ & ? & _); [done|lia|lia|]. simpl. rewrite length_app. simpl.
      split; [done|]. lia.
    + destruct G as (_ & [G|(r & _ & _ & ?)]); [done|lia|lia| |done].
      unfold SIZE_MAX, sizeof_edge in *. lia.
  - simpl. rewrite length_app. simpl. split; [done|]. lia.
Qed.

Lemma push_all_spec ev prod t l :
  ev_ok ev → Z.of_nat (length (ev_v ev) + length prod) <= 2 ^ 55 →
  ev_v (push_all always ev prod t l) = ev_v ev ++ ((λ p, mk_edge p t l) <$> prod) ∧
  ev_ok (push_all always ev prod t l).
Proof.
  unfold push_all. revert ev. induction prod as [|p prod IH]; intros ev Hok Hs; simpl.
  { by rewrite app_nil_r. }
  simpl in Hs. destruct (edge_push_spec ev p t l Hok ltac:(lia)) as [E Hok'].
  destruct (IH (edge_push always ev p t l) Hok') as [E' ?].
  { rewrite E, length_app. simpl. lia. }
  split; [|done]. rewrite E', E, <-app_assoc. done.
Qed.

Lemma emit_read_spec r m ev step :
  LwMap.wf m → ev_ok ev → Z.of_nat (length (ev_v ev) + 64) <= 2 ^ 55 →
  let ev' := emit_read always r m ev step in
  ev_v ev' = ev_v ev ++ ((λ p, mk_edge p step r) <$> producers (LwMap.lw_abs m) r) ∧ ev_ok ev'.
Proof.
  intros Hm Hok Hs. pose proof (length_read_keys r) as Hlen.
  assert (∀ k x, LwMap.lw_get m k x = LwMap.lw_abs m !! (k, x)) as HG
    by (intros; by apply LwMap.lw_get_spec).
  assert (length (producers (LwMap.lw_abs m) r) <= 64)%nat as Hp.
  { unfold producers. etransitivity; [apply length_distinct|].
    etransitivity; [apply length_omap_le|done]. }
  unfold emit_read, producers, read_keys, collect_distinct in *.
  destruct (kind r) eqn:Ek;
    [destruct (RegSlice.reg_slice (reg r)) as [[[c off] len]|]|..];
    rewrite ?length_fmap in Hlen;
    try (erewrite collect_distinct_spec by (done || apply HG); apply push_all_spec; [done|lia]).
  rewrite HG. simpl. destruct (LwMap.lw_abs m !! (KREG, reg r)) as [p|]; simpl.
  - apply edge_push_spec; [done|lia].
  - by rewrite app_nil_r.
Qed.

(** ** Writes *)
Lemma put_keys_spec m step (l : list Z) kd :
  LwMap.wf m → Z.of_nat (base.size (LwMap.lw_abs m) + length l) <= 2 ^ 55 →
  let m' := foldl (λ m x, LwMap.lw_put always m kd x step) m l in
  LwMap.wf m' ∧ LwMap.lw_abs m' = foldl (λ G k, <[k := step]> G) (LwMap.lw_abs m) (pair kd <$> l).
Proof.
  revert m. induction l as [|x l IH]; intros m Hm Hs; [done|]. simpl in *.
  destruct (LwMap.lw_put_spec always m kd x step Hm) as (Hm' & [Ha|[_ [? ?]]]);
    [rewrite LwMap.lw_cnt_size by done; lia| |done].
  rewrite <-Ha. apply IH; [done|]. rewrite Ha.
  pose proof (map_size_insert_le (LwMap.lw_abs m) (kd, x) step). lia.
Qed.

Lemma apply_write_spec r m step :
  LwMap.wf m → Z.of_nat (base.size (LwMap.lw_abs m) + 64) <= 2 ^ 55 →
  let m' := apply_write always r m step in
  LwMap.wf m' ∧ LwMap.lw_abs m' = abs_write (LwMap.lw_abs m) r step.
Proof.
  intros Hm Hs. pose proof (length_write_keys r) as Hlen.
  unfold apply_write, abs_write, write_keys, put_range in *.
  destruct (kind r) eqn:Ek;
    [destruct (RegSlice.reg_slice (reg r)) as [[[c off] len]|]|..];
    rewrite ?length_fmap in Hlen; try (apply put_keys_spec; [done|lia]).
  apply (put_keys_spec m step [reg r] KREG); [done|simpl; lia].
Qed.

Lemma foldl_insert_lookup (ks : list (Z * Z)) (G : gmap (Z * Z) Z) step k :
  foldl (λ G k, <[k := step]> G) G ks !! k = if bool_decide (k ∈ ks) then Some step else G !! k.
Proof.
  induction ks as [|k' ks IH] using rev_ind; [done|]. rewrite foldl_app. simpl.
  rewrite lookup_insert. destruct (decide (k' = k)) as [->|Hne].
  - by rewrite bool_decide_eq_true_2 by set_solver.
  - rewrite IH. repeat case_bool_decide; set_solver.
Qed.

Lemma abs_write_lookup G r step k :
  abs_write G r step !! k = if bool_decide (k ∈ write_keys r) then Some step else G !! k.
Proof. apply foldl_insert_lookup. Qed.

Lemma foldl_insert_size (ks : list (Z * Z)) (G : gmap (Z * Z) Z) step :
  (base.size (foldl (λ G k, <[k := step]> G) G ks) <= base.size G + length ks)%nat.
Proof.
  induction ks as [|k' ks IH] using rev_ind; [simpl; lia|]. rewrite foldl_app, length_app. simpl.
  pose proof (map_size_insert_le (foldl (λ G k, <[k := step]> G) G ks) k' step). lia.
Qed.

(** ** One step *)
Lemma span_step_spec s l :
  StronglySorted (λ x y, rstep x <= rstep y) l → Forall (λ r, s <= rstep r) l →
  let '(g, rest) := span_step s l in
  l = g ++ rest ∧ Forall (λ r, rstep r = s) g ∧ Forall (λ r, s + 1 <= rstep r) rest ∧
  StronglySorted (λ x y, rstep x <= rstep y) rest.
Proof.
  induction 1 as [|r l Hs IH Hall]; intros Hge; simpl; [by repeat constructor|].
  apply Forall_cons in Hge as [Hr Hge]. destruct (Z.eqb_spec (rstep r) s) as [E|E].
  - destruct (span_step s l) as [g rest]. destruct (IH Hge) as (-> & Hg & Hrest & Hsort).
    split_and!; auto.
  - split_and!; [done|constructor| |by constructor]. constructor; [lia|].
    eapply Forall_impl; [exact Hall|]. intros x ?. simpl in *. lia.
Qed.

Definition group_edges (G : gmap (Z * Z) Z) (s : Z) (g : list at_val_rec) : list edge :=
  g ≫= λ r, if is_write r then [] else (λ p, mk_edge p s r) <$> producers G r.

Lemma length_producers G r : (length (producers G r) <= 64)%nat.
Proof.
  unfold producers. etransitivity; [apply length_distinct|].
  etransitivity; [apply length_omap_le|apply length_read_keys].
Qed.

Lemma reads_spec m s g ev :
  LwMap.wf m → ev_ok ev → Z.of_nat (length (ev_v ev) + 64 * length g) <= 2 ^ 55 →
  let ev' := foldl (λ ev r, if is_write r then ev else emit_read always r m ev s) ev g in
  ev_v ev' = ev_v ev ++ group_edges (LwMap.lw_abs m) s g ∧ ev_ok ev' ∧
  (length (ev_v ev') <= length (ev_v ev) + 64 * length g)%nat.
Proof.
  intros Hm. unfold group_edges. revert ev.
  induction g as [|r g IH]; intros ev Hok Hs; cbn [foldl mbind list_bind].
  { rewrite app_nil_r. split_and!; [done..|simpl; lia]. }
  simpl length in Hs. destruct (is_write r).
  { destruct (IH ev Hok ltac:(lia)) as (E & ? & ?). split_and!; [done..|simpl; lia]. }
  destruct (emit_read_spec r m ev s Hm Hok ltac:(lia)) as [E Hok'].
  pose proof (length_producers (LwMap.lw_abs m) r).
  destruct (IH (emit_read always r m ev s) Hok') as (E' & ? & ?);
    rewrite ?E, ?length_app, ?length_fmap in *; [lia|].
  split_and!; [|done|simpl; lia]. by rewrite E', app_assoc.
Qed.

Definition group_writes (G : gmap (Z * Z) Z) (s : Z) (g : list at_val_rec) : gmap (Z * Z) Z :=
  foldl (λ G r, if is_write r then abs_write G r s else G) G g.

Lemma writes_spec s g m :
  LwMap.wf m → Z.of_nat (base.size (LwMap.lw_abs m) + 64 * length g) <= 2 ^ 55 →
  let m' := foldl (λ m r, if is_write r then apply_write always r m s else m) m g in
  LwMap.wf m' ∧ LwMap.lw_abs m' = group_writes (LwMap.lw_abs m) s g ∧
  (base.size (LwMap.lw_abs m') <= base.size (LwMap.lw_abs m) + 64 * length g)%nat.
Proof.
  unfold group_writes. revert m. induction g as [|r g IH]; intros m Hm Hs; cbn [foldl].
  { split_and!; [done..|simpl; lia]. }
  simpl length in Hs. destruct (is_write r).
  - destruct (apply_write_spec r m s Hm ltac:(lia)) as [Hm' E].
    pose proof (foldl_insert_size (write_keys r) (LwMap.lw_abs m) s) as Hsz.
    fold (abs_write (LwMap.lw_abs m) r s) in Hsz. pose proof (length_write_keys r).
    destruct (IH (apply_write always r m s) Hm') as (? & ? & ?); rewrite E in *; [lia|].
    split_and!; [done..|simpl; lia].
  - destruct (IH m Hm ltac:(lia)) as (? & ? & ?). split_and!; [done..|simpl; lia].
Qed.

Lemma group_writes_lookup G s g k :
  group_writes G s g !! k =
  if bool_decide (Exists (λ w, is_write w = true ∧ k ∈ write_keys w) g) then Some s else G !! k.
Proof.
  unfold group_writes. induction g as [|w g IH] using rev_ind; [done|]. rewrite foldl_app. simpl.
  rewrite (bool_decide_ext _ (Exists (λ w, is_write w = true ∧ k ∈ write_keys w) g ∨
                              is_write w = true ∧ k ∈ write_keys w))
    by (rewrite Exists_app, Exists_cons, Exists_nil; tauto).
  destruct (is_write w) eqn:Hw.
  - rewrite abs_write_lookup, IH. repeat case_bool_decide; naive_solver.
  - rewrite IH. repeat case_bool_decide; naive_solver.
Qed.

(** ** The loop invariant *)
Record loop_inv (rs : list at_val_rec) (s : Z) (st : LwMap.lw_map * edgevec * list at_val_rec) : Prop := {
  li_split : ∃ past, rs = past ++ st.2 ∧ Forall (λ r, rstep r < s) past ∧
    LwMap.wf st.1.1 ∧ (base.size (LwMap.lw_abs st.1.1) <= 64 * length past)%nat ∧
    ev_ok st.1.2 ∧ (length (ev_v st.1.2) <= 64 * length past)%nat;
  li_rest : Forall (λ r, s <= rstep r) st.2;
  li_sorted : StronglySorted (λ x y, rstep x <= rstep y) st.2;
  li_map k p : LwMap.lw_abs st.1.1 !! k = Some p ↔ last_writer rs k s p;
  li_edges x : x ∈ ev_v st.1.2 ↔ depends rs x ∧ to_step x < s;
}.

Lemma last_writer_step rs g s k p :
  (∀ w, w ∈ rs ∧ rstep w = s ↔ w ∈ g) →
  last_writer rs k (s + 1) p ↔
  if bool_decide (Exists (λ w, is_write w = true ∧ k ∈ write_keys w) g) then p = s
  else last_writer rs k s p.
Proof.
  intros Hg. unfold last_writer, defines.
  case_bool_decide as Hex; rewrite Exists_exists in Hex.
  - destruct Hex as (w & [Hw Hws]%Hg & Hwr & Hk). split.
    + intros (Hlt & _ & Hmax). specialize (Hmax w s Hw (conj Hwr (conj Hk Hws)) ltac:(lia)). lia.
    + intros ->. split_and!; [lia|by exists w|]. intros w' q _ _ Hq. lia.
  - assert (∀ w, w ∈ rs → is_write w = true → k ∈ write_keys w → rstep w ≠ s) as Hne.
    { intros w Hw Hwr Hk E. apply Hex. exists w. split; [apply Hg|]; done. }
    split.
    + intros (Hlt & (w & Hw & Hwr & Hk & Hws) & Hmax). specialize (Hne w Hw Hwr Hk).
      split_and!; [lia|by exists w|]. intros w' q H1 H2 ?. apply (Hmax w' q); [done..|lia].
    + intros (Hlt & Hw & Hmax). split_and!; [lia|done|]. intros w' q H1 (H2 & H3 & H4) ?.
      apply (Hmax w' q); [done..|]. specialize (Hne w' H1 H2 H3). lia.
Qed.

Lemma elem_of_group_edges G s g x :
  x ∈ group_edges G s g ↔
  loc x ∈ g ∧ is_write (loc x) = false ∧ to_step x = s ∧
  ∃ k, k ∈ read_keys (loc x) ∧ G !! k = Some (from_step x).
Proof.
  unfold group_edges. rewrite list_elem_of_bind. split.
  - intros (r & Hx & Hr). destruct (is_write r) eqn:E; [by apply elem_of_nil in Hx|].
    apply list_elem_of_fmap in Hx as (p & -> & Hp). unfold producers in Hp.
    rewrite elem_of_distinct, list_elem_of_omap in Hp. naive_solver.
  - intros (Hl & Hw & Hs & k & Hk & HG). exists (loc x). split; [|done]. rewrite Hw.
    apply list_elem_of_fmap. exists (from_step x). split; [by destruct x; simpl in *; subst|].
    unfold producers. rewrite elem_of_distinct, list_elem_of_omap. eauto.
Qed.

Lemma build_step_inv rs s st :
  Z.of_nat (length rs) <= 2 ^ 40 → loop_inv rs s st →
  loop_inv rs (s + 1) (build_step always st s).
Proof.
  destruct st as [[m ev] l]. intros Hrs [(past & -> & Hpast & Hm & Hsz & Hok & Hel) Hrest Hsort Hmap Hedges].
  simpl in *. pose proof (span_step_spec s l Hsort Hrest) as Hspan. unfold build_step.
  destruct (span_step s l) as [g rest]. destruct Hspan as (-> & Hg & Hrest' & Hsort').
  rewrite !length_app in Hrs.
  destruct (reads_spec m s g ev Hm Hok ltac:(lia)) as (Ev & Hok' & Hel').
  destruct (writes_spec s g m Hm ltac:(lia)) as (Hm' & Em & Hsz').
  set (rs := past ++ g ++ rest) in *.
  assert (∀ w, w ∈ rs ∧ rstep w = s ↔ w ∈ g) as Hgrp.
  { rewrite Forall_forall in Hpast, Hg, Hrest'. intros w. unfold rs. rewrite !elem_of_app. split.
    - intros [[Hw|[Hw|Hw]] E]; [|done|].
      + specialize (Hpast w Hw). lia.
      + specialize (Hrest' w Hw). lia.
    - intros Hw. auto. }
  split; simpl.
  - exists (past ++ g). rewrite <-app_assoc. split_and!; auto.
    + apply Forall_app. split; eapply Forall_impl; try eassumption; intros x ?; simpl in *; lia.
    + rewrite length_app. lia.
    + rewrite length_app. lia.
  - exact Hrest'.
  - exact Hsort'.
  - intros k p. rewrite Em, group_writes_lookup, (last_writer_step _ _ _ _ _ Hgrp).
    case_bool_decide; [naive_solver|apply Hmap].
  - intros x. rewrite Ev, elem_of_app, Hedges, elem_of_group_edges. unfold depends.
    setoid_rewrite Hmap. split.
    + intros [[Hd ?]|(Hl & Hw & <- & Hk)]; [split; [done|lia]|].
      apply Hgrp in Hl as [Hl Hst]. split; [naive_solver|lia].
    + intros [(Hl & Hw & Hst & Hk) Hlt]. destruct (decide (to_step x = s)) as [E|E].
      * right. rewrite E in *. split_and!; [apply Hgrp; split; [done|lia]|done|done|done].
      * left. split; [done|lia].
Qed.

Lemma loop_inv_run v :
  StronglySorted (λ x y, rstep x <= rstep y) (vrecs v) →
  Forall (λ x, 0 <= rstep x < Z.of_nat (steps_len v)) (vrecs v) →
  Z.of_nat (recs_len v) <= 2 ^ 40 → ∀ n,
  loop_inv (vrecs v) (Z.of_nat n)
    (foldl (build_step always) (LwMap.lw_empty, ev_empty, vrecs v) (Z.of_nat <$> seq 0 n)).
Proof.
  intros Hsort Hrange Hrecs. rewrite Forall_forall in Hrange.
  induction n as [|n IH].
  - split; simpl.
    + exists []. split_and!; [done|constructor|apply LwMap.lw_empty_wf|done| |done].
      split; simpl; unfold SIZE_MAX; lia.
    + apply Forall_forall. intros x Hx. apply Hrange in Hx. lia.
    + done.
    + intros k p. rewrite LwMap.lw_empty_abs, lookup_empty. split; [done|].
      intros (Hlt & (w & Hw & _ & _ & <-) & _). apply Hrange in Hw. lia.
    + intros x. split; [set_solver|]. intros [(Hl & _ & <- & _) Hlt]. apply Hrange in Hl. lia.
  - rewrite seq_S, fmap_app, foldl_app. simpl.
    replace (Z.of_nat (S n)) with (Z.of_nat n + 1) by lia. by apply build_step_inv.
Qed.

Lemma defuse_build_spec v g
    (Hgrp : grouped v) (Hsteps : Z.of_nat (steps_len v) < 2 ^ 32)
    (Hrecs : Z.of_nat (recs_len v) <= 2 ^ 40)
    (Hbuild : asmtest_defuse_build always (Some v) = Some g) :
  nsteps g = Z.of_nat (steps_len v) ∧ ∀ x, x ∈ edges g ↔ depends (vrecs v) x.
Proof.
  unfold asmtest_defuse_build in Hbuild. simpl in Hbuild. rewrite u32_small in Hbuild by lia.
  rewrite Nat2Z.id in Hbuild. destruct Hgrp as [Hsort Hrange].
  pose proof (loop_inv_run v Hsort Hrange Hrecs (steps_len v)) as Hinv.
  destruct (foldl _ _ _) as [[m ev] l]. simplify_eq. simpl. split; [done|].
  destruct Hinv as [_ _ _ _ Hedges]. intros x. rewrite Hedges. simpl. split; [tauto|].
  intros Hd. split; [done|]. destruct Hd as (Hl & _ & <- & _).
  rewrite Forall_forall in Hrange. apply Hrange in Hl. lia.
Qed.

(** C1: the def-use graph is exact.  On a trace whose records come grouped in
    step order, the edges of [asmtest_defuse_build] are precisely the
    dependences: an edge runs from step [f] to step [t] through a read record
    of [t] when some byte the record reads was last defined, before [t], at
    [f] (a 32-bit register write defining its whole container). *)
Theorem defuse_build_exact v g
    (Hgrp : grouped v) (Hsteps : Z.of_nat (steps_len v) < 2 ^ 32)
    (Hrecs : Z.of_nat (recs_len v) <= 2 ^ 40)
    (Hbuild : asmtest_defuse_build always (Some v) = Some g) :
  nsteps g = Z.of_nat (steps_len v) ∧ ∀ x, x ∈ edges g ↔ depends (vrecs v) x.
Proof. by apply defuse_build_spec. Qed.

(** A record of one memory byte or of a register, as the producers emit it. *)
Definition mem_rec (space : at_loc_kind) (x : Z) (w : bool) : at_val_rec :=
  mk_rec space 0 0 0 0 0 x 1 w false false 0 0 0.
Definition reg_rec (r : Z) (w : bool) : at_val_rec :=
  mk_rec AT_LOC_REG r 0 0 0 0 0 8 w false false 0 0 0.

(** A sink that holds a whole capture. *)
Definition sink_of (c : capture) : asmtest_valtrace :=
  run (mk_vt (Some []) (length c) 0 None false (Some []) (length (stamped 0 c)) 0 None 0 false
         AT_LOC_MEM_ABS) c.

Lemma defuse_build_exact_witness :
  let v := sink_of [(0, [reg_rec RegSlice.X86_REG_RAX true]);
                    (3, [reg_rec RegSlice.X86_REG_AH true]);
                    (6, [reg_rec RegSlice.X86_REG_AL false])] in
  grouped v ∧
  (∀ g, asmtest_defuse_build always (Some v) = Some g →
     ∀ x, x ∈ edges g ↔ depends (vrecs v) x) ∧
  asmtest_defuse_build always (Some v) =
    Some (mk_defuse [mk_edge 0 2 (with_step (reg_rec RegSlice.X86_REG_AL false) 2)] 3).
Proof.
  cbv zeta. set (v := sink_of _).
  assert (grouped v) as Hg.
  { split.
    - apply (bool_decide_unpack _). vm_compute. exact I.
    - apply (bool_decide_unpack _). vm_compute. exact I. }
  split; [exact Hg|]. split.
  - intros g Hb. apply (defuse_build_exact v g Hg); [vm_compute; reflexivity|vm_compute; congruence|exact Hb].
  - vm_compute. reflexivity.
Defined.

(** C2: end to end, from the operand stream to the graph: when the sink kept
    the whole capture, the graph built from it has exactly the dependences of
    the capture's records, each stamped with the position of its step. *)
Theorem capture_defuse_exact sc rc wc v c g
    (Hnew : asmtest_valtrace_new always sc rc wc = Some v)
    (Hs : Z.of_nat sc < 2 ^ 32) (Hr : Z.of_nat rc <= 2 ^ 40)
    (Hfull : vtruncated (run v c) = false)
    (Hbuild : asmtest_defuse_build always (Some (run v c)) = Some g) :
  nsteps g = Z.of_nat (length c) ∧ ∀ x, x ∈ edges g ↔ depends (stamped 0 c) x.
Proof.
  destruct (run_spec always sc rc wc v c Hnew ltac:(lia)) as (Eo & Er & _ & _ & Ht).
  assert (offs (run v c) = c.*1 ∧ vrecs (run v c) = stamped 0 (take (steps_cap (run v c)) c))
    as [Ho Hrec].
  { rewrite Hfull in Ht.
    destruct (decide (offs (run v c) = c.*1)), (decide (vrecs (run v c) =
      stamped 0 (take (steps_cap (run v c)) c))); naive_solver. }
  assert (steps_len (run v c) = length c) as El by (unfold steps_len; by rewrite Ho, length_fmap).
  assert (take (steps_cap (run v c)) c = c) as Etk.
  { apply take_ge. rewrite Eo in Ho. apply (f_equal length) in Ho.
    rewrite length_take, length_fmap in Ho. lia. }
  rewrite Etk in Hrec. rewrite <-El, <-Hrec.
  destruct (run_caps always sc rc wc v c Hnew) as [Hcs Hcr].
  apply defuse_build_spec; try done.
  - by eapply run_grouped; [exact Hnew|lia].
  - unfold steps_len. rewrite Eo, length_take. lia.
  - unfold recs_len. rewrite Er, length_take. lia.
Qed.

Lemma capture_defuse_exact_witness :
  ∃ v, asmtest_valtrace_new always 4 4 0 = Some v ∧
  let c := [(0, [mem_rec AT_LOC_MEM_ABS 4096 true]); (4, [mem_rec AT_LOC_MEM_ABS 4096 false])] in
  ∃ g, asmtest_defuse_build always (Some (run v c)) = Some g ∧ nsteps g = 2 ∧
       ∀ x, x ∈ edges g ↔ depends (stamped 0 c) x.
Proof.
  eexists. split; [reflexivity|]. cbv zeta. eexists. split; [vm_compute; reflexivity|].
  eapply (capture_defuse_exact 4 4 0 _ [(0, [mem_rec AT_LOC_MEM_ABS 4096 true]);
    (4, [mem_rec AT_LOC_MEM_ABS 4096 false])]);
    [reflexivity|simpl; lia|simpl; lia|vm_compute; reflexivity|vm_compute; reflexivity].
Defined.

(** The out-of-memory path of [lw_put].  A refused growth skips the store
    even when the key is already in the table, so the map keeps the previous
    writer and a later read yields an edge that is no dependence of the trace:
    not a missing edge but a wrong one. *)
Theorem oom_keeps_stale_writer :
  let c := ((λ i, (0, [mem_rec AT_LOC_MEM_ABS (4096 + i) true])) <$> seqZ 0 47)
           ++ [(0, [mem_rec AT_LOC_MEM_ABS 4096 true]); (0, [mem_rec AT_LOC_MEM_ABS 4096 false])] in
  let x := mk_edge 0 48 (with_step (mem_rec AT_LOC_MEM_ABS 4096 false) 48) in
  ∃ g, asmtest_defuse_build (λ n, n <=? 2048) (Some (sink_of c)) = Some g ∧
       edges g = [x] ∧ ¬ depends (vrecs (sink_of c)) x.
Proof.
  cbv zeta. set (c := _ ++ _). eexists. split; [vm_compute; reflexivity|].
  split; [vm_compute; reflexivity|]. intros (_ & _ & _ & k & Hk & _ & _ & Hmax).
  assert (k = (KMEM, 4096)) as ->.
  { assert (read_keys (with_step (mem_rec AT_LOC_MEM_ABS 4096 false) 48) = [(KMEM, 4096)]) as E
      by (vm_compute; reflexivity).
    simpl loc in Hk. rewrite E in Hk. by apply list_elem_of_singleton in Hk. }
  specialize (Hmax (with_step (mem_rec AT_LOC_MEM_ABS 4096 true) 47) 47).
  assert (47 <= 0); [|lia]. apply Hmax; [|vm_compute; split_and!; [done|left|done]|done].
  apply (bool_decide_unpack _). vm_compute. exact I.
Qed.

(** The map keys every memory record alike, whichever address space it is
    tagged with: a write at absolute address 16 and a read at routine offset 16
    are linked by an edge. *)
Theorem mem_spaces_share_keys :
  let c := [(0, [mem_rec AT_LOC_MEM_ABS 16 true]); (4, [mem_rec AT_LOC_MEM_OFF 16 false])] in
  asmtest_defuse_build always (Some (sink_of c)) =
  Some (mk_defuse [mk_edge 0 1 (with_step (mem_rec AT_LOC_MEM_OFF 16 false) 1)] 2).
Proof. vm_compute. reflexivity. Qed.
End DefUse.
