(* ===== verification/Slice.v ===== *)
(** The L2 slices of [src/dataflow.c]: forward and backward closure over the
    def-use graph by breadth-first search. *)
From stdpp Require Import relations.
From S2P Require Import Prelude Grow OpenHash LwMap RegSlice ValTrace DefUse.
Import ValTrace DefUse.

Module Slice.

(** [asmtest_slice_t]: [steps = None] is the null array of an empty slice. *)
Record asmtest_slice := mk_slice { slice_steps : option (list Z) }.
Definition empty_slice : asmtest_slice := mk_slice None.
Definition members (s : asmtest_slice) : list Z := default [] (slice_steps s).

Definition cmp_u32 (x y : Z) : Z := cmp3 x y.

(** The near and far end of an edge in the direction of the walk. *)
Definition near (forward : bool) (e : edge) : Z := if forward then from_step e else to_step e.
Definition far (forward : bool) (e : edge) : Z := if forward then to_step e else from_step e.

(** The body of the edge loop: [vis] is the visited array, [q] the queue
    [q[0 .. qt)]. *)
Definition visit (ns : Z) (forward : bool) (u : Z) (st : list bool * list Z) (e : edge) :
    list bool * list Z :=
  let '(vis, q) := st in
  let a := near forward e in
  let b := far forward e in
  if (a =? u) && (b <? ns) && negb (default false (vis !! Z.to_nat b))
  then (<[Z.to_nat b := true]> vis, q ++ [b])
  else (vis, q).

(** [while (qh < qt)]; [None] when the fuel runs out. *)
Fixpoint bfs (fuel : nat) (es : list edge) (ns : Z) (forward : bool)
    (vis : list bool) (q : list Z) (qh : nat) : option (list bool * list Z) :=
  match q !! qh with
  | None => Some (vis, q)
  | Some u =>
      match fuel with
      | O => None
      | S fuel =>
          let '(vis, q) := foldl (visit ns forward u) (vis, q) es in
          bfs fuel es ns forward vis q (S qh)
      end
  end.

(** The steps whose flag is set, in ascending order. *)
Definition marked (ns : Z) (vis : list bool) : list Z :=
  filter (λ k, default false (vis !! Z.to_nat k) = true) (Z.of_nat <$> seq 0 (Z.to_nat ns)).

Definition sizeof_slice : Z := 16.

(** The last loop of the source counts in [uint32_t]: it is a loop over
    [0 .. ns) for the [ns <= 2^32] the theorems ask for. *)
Definition slice_dir (grant : allocator) (qsort : list Z → list Z) (g : option defuse) (origin : Z)
    (forward : bool) : option asmtest_slice :=
  if negb (grant sizeof_slice) then None else
  match g with
  | None => Some empty_slice
  | Some g =>
      let ns := nsteps g in
      if ns <=? origin then Some empty_slice else
      let room := if ns =? 0 then 1 else ns in
      if negb (grant room && grant (room *64 4)) then Some empty_slice else
      match bfs (Z.to_nat ns) (edges g) ns forward
              (<[Z.to_nat origin := true]> (replicate (Z.to_nat ns) false)) [origin] 0 with
      | None => None
      | Some (vis, _) =>
          let ks := marked ns vis in
          let cnt := Z.of_nat (length ks) in
          if grant ((if cnt =? 0 then 1 else cnt) *64 4)
          then Some (mk_slice (Some (qsort ks)))
          else Some empty_slice
      end
  end.

Definition asmtest_slice_forward grant qsort g (seed : at_val_rec) :=
  slice_dir grant qsort g (rstep seed) true.
Definition asmtest_slice_backward grant qsort g (sink : at_val_rec) :=
  slice_dir grant qsort g (rstep sink) false.
Definition asmtest_slice_forward_seed grant qsort g (seed : option at_val_rec) :=
  slice_dir grant qsort g (from_option rstep 0 seed) true.
Definition asmtest_slice_backward_seed grant qsort g (seed : option at_val_rec) :=
  slice_dir grant qsort g (from_option rstep 0 seed) false.

Definition asmtest_slice_contains (s : option asmtest_slice) (step : Z) : bool :=
  match s with
  | None => false
  | Some s => match slice_steps s with None => false | Some l => existsb (λ x, x =? step) l end
  end.

(** ** Specification *)
(** One hop along an edge that stays inside the trace. *)
Definition hop (g : defuse) (forward : bool) (u v : Z) : Prop :=
  ∃ e, e ∈ edges g ∧ near forward e = u ∧ far forward e = v ∧ v < nsteps g.

(** Every edge joins two [uint32_t] step numbers. *)
Definition graph_wf (g : defuse) : Prop :=
  nsteps g <= 2 ^ 32 ∧ Forall (λ e, 0 <= from_step e ∧ 0 <= to_step e) (edges g).

Lemma contains_members s k : asmtest_slice_contains (Some s) k = true ↔ k ∈ members s.
Proof.
  unfold asmtest_slice_contains, members. destruct (slice_steps s) as [l|]; simpl; [|set_solver].
  rewrite existsb_exists, list_elem_of_In. setoid_rewrite Z.eqb_eq. naive_solver.
Qed.

(** Sorting what is already strictly ascending changes nothing. *)
Lemma qsort_id (qsort : list Z → list Z) `{!QSort cmp_u32 qsort} l :
  StronglySorted Z.lt l → qsort l = l.
Proof.
  intros Hs. eapply (StronglySorted_unique Z.le); [|..|apply qsort_perm].
  - apply Sorted_StronglySorted; [apply _|].
    eapply Sorted_weaken, qsort_sorted. intros x y. apply cmp3_le.
  - by apply StronglySorted_lt_le.
Qed.

(** ** The search *)
Section search.
Context (g : defuse) (forward : bool) (origin : Z).
Context (Hwf : graph_wf g) (Hor : 0 <= origin < nsteps g).

(** The flags mirror the queue, which holds distinct steps, all reached. *)
Record mirror (vis : list bool) (q : list Z) : Prop := {
  mr_len : length vis = Z.to_nat (nsteps g);
  mr_nodup : NoDup q;
  mr_flag : ∀ k, 0 <= k → (default false (vis !! Z.to_nat k) = true ↔ k ∈ q);
  mr_range : ∀ k, k ∈ q → 0 <= k < nsteps g;
  mr_reach : ∀ k, k ∈ q → rtc (hop g forward) origin k;
}.

Lemma far_nonneg e : e ∈ edges g → 0 <= far forward e.
Proof.
  destruct Hwf as [_ H]. rewrite Forall_forall in H. intros He%H. unfold far.
  by destruct forward, He.
Qed.

Lemma mirror_visit vis q u e :
  mirror vis q → u ∈ q → e ∈ edges g →
  let '(vis', q') := visit (nsteps g) forward u (vis, q) e in
  mirror vis' q' ∧ (∃ l, q' = q ++ l) ∧
  (near forward e = u → far forward e < nsteps g → far forward e ∈ q').
Proof.
  intros Hm Hu He. pose proof (far_nonneg e He) as Hb. unfold visit.
  destruct (Z.eqb_spec (near forward e) u) as [Ea|]; simpl; cycle 1.
  { split_and!; [done|exists []; by rewrite app_nil_r|done]. }
  destruct (Z.ltb_spec (far forward e) (nsteps g)) as [Hlt|]; simpl; cycle 1.
  { split_and!; [done|exists []; by rewrite app_nil_r|lia]. }
  pose proof (mr_flag _ _ Hm _ Hb) as Hfl.
  destruct (default false _) eqn:Ev; simpl.
  { split_and!; [done|exists []; by rewrite app_nil_r|]. intros _ _. by apply Hfl. }
  assert (far forward e ∉ q) as Hn by (intros Hin%Hfl; congruence).
  split_and!; [|by eexists|set_solver]. split.
  - rewrite length_insert. apply Hm.
  - apply NoDup_app. split_and!; [apply Hm|set_solver|apply NoDup_singleton].
  - intros k Hk. destruct (decide (k = far forward e)) as [->|Hne].
    + rewrite list_lookup_insert_eq by (rewrite (mr_len _ _ Hm); lia). simpl. set_solver.
    + rewrite list_lookup_insert_ne by lia. rewrite (mr_flag _ _ Hm k Hk). set_solver.
  - intros k [Hk| ->%list_elem_of_singleton]%elem_of_app; [by apply (mr_range _ _ Hm)|lia].
  - intros k [Hk| ->%list_elem_of_singleton]%elem_of_app; [by apply (mr_reach _ _ Hm)|].
    eapply rtc_r; [by apply (mr_reach _ _ Hm)|]. by exists e.
Qed.

Lemma mirror_visits es vis q u :
  mirror vis q → u ∈ q → (∀ e, e ∈ es → e ∈ edges g) →
  let '(vis', q') := foldl (visit (nsteps g) forward u) (vis, q) es in
  mirror vis' q' ∧ (∃ l, q' = q ++ l) ∧
  ∀ e, e ∈ es → near forward e = u → far forward e < nsteps g → far forward e ∈ q'.
Proof.
  revert vis q. induction es as [|e es IH]; intros vis q Hm Hu Hes.
  { simpl. split_and!; [done|exists []; by rewrite app_nil_r|]. set_solver. }
  pose proof (mirror_visit vis q u e Hm Hu ltac:(set_solver)) as Hv. cbn [foldl].
  destruct (visit _ _ _ (vis, q) e) as [vis1 q1]. destruct Hv as (Hm1 & [l1 ->] & Hin).
  specialize (IH vis1 (q ++ l1) Hm1 ltac:(set_solver) ltac:(set_solver)).
  destruct (foldl _ _ es) as [vis2 q2]. destruct IH as (Hm2 & [l2 ->] & Hin2).
  split_and!; [done|exists (l1 ++ l2); by rewrite app_assoc|].
  intros e' [->|He']%elem_of_cons Hn Hf; [|by apply Hin2].
  apply elem_of_app. left. by apply Hin.
Qed.

(** The heads already expanded have all their successors queued. *)
Definition expanded (q : list Z) (qh : nat) : Prop :=
  ∀ u v, u ∈ take qh q → hop g forward u v → v ∈ q.

(** The queue holds distinct steps of the trace, so it never outgrows its
    array of [ns] entries. *)
Lemma mirror_queue_bound vis q : mirror vis q → (length q <= Z.to_nat (nsteps g))%nat.
Proof.
  intros Hm. rewrite <-(length_seqZ 0 (nsteps g)).
  apply submseteq_length, NoDup_submseteq; [apply Hm|].
  intros x Hx. apply elem_of_seqZ. pose proof (mr_range _ _ Hm x Hx). lia.
Qed.

Lemma bfs_spec fuel vis q qh :
  mirror vis q → expanded q qh → origin ∈ q → (qh <= length q)%nat →
  (Z.to_nat (nsteps g) <= fuel + qh)%nat →
  ∃ vis' q', bfs fuel (edges g) (nsteps g) forward vis q qh = Some (vis', q') ∧
    mirror vis' q' ∧ ∀ k, k ∈ q' ↔ rtc (hop g forward) origin k.
Proof.
  revert vis q qh. induction fuel as [|fuel IH]; intros vis q qh Hm Hx Ho Hq Hf;
    pose proof (mirror_queue_bound vis q Hm) as Hlen; cbn [bfs];
    (destruct (q !! qh) as [u|] eqn:Eu; [pose proof (lookup_lt_Some _ _ _ Eu)|]);
    [lia| | |];
    (* the loop is over: the queue is closed under hops *)
    try (exists vis, q; split_and!; [done..|]; intros k; split; [apply Hm|];
         intros Hr; refine (rtc_ind_r (λ k, k ∈ q) origin Ho _ k Hr); intros y z _ Hyz Hy;
         eapply Hx; [|exact Hyz]; rewrite take_ge by (by apply lookup_ge_None); done).
  pose proof (mirror_visits (edges g) vis q u Hm (list_elem_of_lookup_2 _ _ _ Eu)
                (λ e He, He)) as Hv.
  destruct (foldl _ _ _) as [vis1 q1]. destruct Hv as (Hm1 & [l ->] & Hin).
  apply IH; [done| |set_solver|rewrite length_app; lia|lia].
  intros a b Ha Hab. rewrite take_app_le in Ha by lia.
  rewrite (take_S_r _ _ _ Eu) in Ha.
  apply elem_of_app in Ha as [Ha| ->%list_elem_of_singleton].
  - apply elem_of_app. left. by eapply Hx.
  - destruct Hab as (e & He & Hn & Hfar & Hb). subst b. by apply Hin.
Qed.

Lemma mirror_init :
  mirror (<[Z.to_nat origin := true]> (replicate (Z.to_nat (nsteps g)) false)) [origin].
Proof.
  split.
  - by rewrite length_insert, length_replicate.
  - apply NoDup_singleton.
  - intros k Hk. rewrite list_elem_of_singleton. destruct (decide (k = origin)) as [->|Hne].
    + rewrite list_lookup_insert_eq by (rewrite length_replicate; lia). done.
    + rewrite list_lookup_insert_ne by lia.
      destruct (_ !! _) as [b|] eqn:E; [|done].
      apply lookup_replicate in E as [-> _]. simpl. by split.
  - intros k ->%list_elem_of_singleton. done.
  - intros k ->%list_elem_of_singleton. apply rtc_refl.
Qed.

Lemma marked_spec vis q :
  mirror vis q → StronglySorted Z.lt (marked (nsteps g) vis) ∧
                 ∀ k, k ∈ marked (nsteps g) vis ↔ k ∈ q.
Proof.
  intros Hm. split.
  - unfold marked. apply StronglySorted_filter, StronglySorted_of_nat_seq.
  - intros k. unfold marked. rewrite list_elem_of_filter, list_elem_of_fmap.
    setoid_rewrite elem_of_seq. split.
    + intros (Hfl & i & -> & ?). apply Hm in Hfl; [done|lia].
    + intros Hk. pose proof (mr_range _ _ Hm k Hk). split; [apply Hm; [lia|done]|].
      exists (Z.to_nat k). lia.
Qed.
End search.

Lemma slice_dir_spec (qsort : list Z → list Z) `{!QSort cmp_u32 qsort} g origin forward :
  graph_wf g → 0 <= origin →
  ∃ s, slice_dir always qsort (Some g) origin forward = Some s ∧
       StronglySorted Z.lt (members s) ∧
       ∀ k, k ∈ members s ↔ origin < nsteps g ∧ rtc (hop g forward) origin k.
Proof.
  intros Hwf Ho. unfold slice_dir. simpl negb. cbv iota zeta.
  destruct (Z.leb_spec (nsteps g) origin) as [Hle|Hlt].
  { exists empty_slice. split_and!; [done|constructor|]. intros k. simpl. split; [set_solver|lia]. }
  pose proof (mirror_init g forward origin (conj Ho Hlt)) as Hm0.
  destruct (bfs_spec g forward origin Hwf (conj Ho Hlt) (Z.to_nat (nsteps g)) _ [origin] 0 Hm0)
    as (vis & q & -> & Hm & Hq).
  { intros u v Hu. simpl in Hu. set_solver. }
  { set_solver. }
  { simpl. lia. }
  { lia. }
  destruct (marked_spec g forward origin vis q Hm) as [Hs Hin]. simpl.
  eexists. split; [done|]. simpl.
  rewrite (qsort_id qsort (marked (nsteps g) vis) Hs).
  split; [done|]. intros k. rewrite Hin, Hq. tauto.
Qed.

(** ** Slices of the graph of a trace *)
(** Step [b] depends directly on step [a]. *)
Definition dep (rs : list at_val_rec) (a b : Z) : Prop :=
  ∃ x, depends rs x ∧ from_step x = a ∧ to_step x = b.

Section trace_graph.
Context (v : asmtest_valtrace) (g : defuse).
Context (Hgrp : grouped v) (Hn : nsteps g = Z.of_nat (steps_len v)).
Context (He : ∀ x, x ∈ edges g ↔ depends (vrecs v) x).

Lemma depends_range x : depends (vrecs v) x → 0 <= from_step x < to_step x ∧ to_step x < nsteps g.
Proof.
  destruct Hgrp as [_ Hr]. rewrite Forall_forall in Hr.
  intros (Hl & _ & E & k & _ & Hlt & (w & Hw & _ & _ & E2) & _).
  pose proof (Hr _ Hl). pose proof (Hr _ Hw). lia.
Qed.

Lemma trace_graph_wf : Z.of_nat (steps_len v) < 2 ^ 32 → graph_wf g.
Proof.
  intros. split; [lia|]. apply Forall_forall. intros x Hx%He%depends_range. lia.
Qed.

Lemma hop_dep forward a b :
  hop g forward a b ↔ (if forward then dep (vrecs v) a b else dep (vrecs v) b a).
Proof.
  unfold hop, dep. split.
  - intros (e & Hin & <- & <- & Hlt). apply He in Hin. destruct forward; by exists e.
  - intros Hd. destruct forward; destruct Hd as (x & Hx & <- & <-);
      exists x; pose proof (depends_range x Hx); (split_and!; [by apply He|done..|simpl; lia]).
Qed.

Lemma rtc_hop forward a b :
  rtc (hop g forward) a b ↔
  (if forward then rtc (dep (vrecs v)) a b else rtc (dep (vrecs v)) b a).
Proof.
  destruct forward.
  - split; apply (rtc_congruence id); intros x y; apply (hop_dep true).
  - split.
    + induction 1 as [|x y z Hxy _ IH]; [done|]. eapply rtc_r; [exact IH|].
      by apply (hop_dep false) in Hxy.
    + induction 1 as [|x y z Hxy _ IH]; [done|]. eapply rtc_r; [exact IH|].
      by apply (hop_dep false).
Qed.

Lemma rtc_dep_le a b : rtc (dep (vrecs v)) a b → a <= b.
Proof. induction 1 as [|x y z (e & [? ?]%depends_range & <- & <-) _ IH]; lia. Qed.
End trace_graph.

(** The graph that [asmtest_defuse_build] makes of a trace, sliced: the set of
    steps the origin transitively feeds, or is fed by. *)
Lemma trace_slice_spec (qsort : list Z → list Z) `{!QSort cmp_u32 qsort} v g r forward :
  grouped v → Z.of_nat (steps_len v) < 2 ^ 32 → Z.of_nat (recs_len v) <= 2 ^ 40 →
  asmtest_defuse_build always (Some v) = Some g → r ∈ vrecs v →
  ∃ s, slice_dir always qsort (Some g) (rstep r) forward = Some s ∧
       StronglySorted Z.lt (members s) ∧
       ∀ k, k ∈ members s ↔
         (if forward then rtc (dep (vrecs v)) (rstep r) k else rtc (dep (vrecs v)) k (rstep r)).
Proof.
  intros Hgrp Hs Hr Hb Hin. destruct (defuse_build_spec v g Hgrp Hs Hr Hb) as [Hn He].
  assert (0 <= rstep r < nsteps g) as Hrange.
  { destruct Hgrp as [_ H]. rewrite Forall_forall in H. apply H in Hin. lia. }
  destruct (slice_dir_spec qsort g (rstep r) forward) as (s & E & Hsort & Hmem).
  { by eapply trace_graph_wf. }
  { lia. }
  exists s. split_and!; [done..|]. intros k. rewrite Hmem, (rtc_hop v g Hgrp Hn He). tauto.
Qed.

(** C3: a backward slice is exact.  Over the graph built from a trace, the
    slice of a record is, in ascending order and without repetition, exactly the
    steps from which a chain of dependences leads to the record's step; the
    search ends within one iteration per step, and no step of the slice is later
    than the record. *)
Theorem slice_backward_exact (qsort : list Z → list Z) `{!QSort cmp_u32 qsort} v g r
    (Hgrp : grouped v) (Hsteps : Z.of_nat (steps_len v) < 2 ^ 32)
    (Hrecs : Z.of_nat (recs_len v) <= 2 ^ 40)
    (Hbuild : asmtest_defuse_build always (Some v) = Some g) (Hr : r ∈ vrecs v) :
  ∃ s, asmtest_slice_backward always qsort (Some g) r = Some s ∧
       StronglySorted Z.lt (members s) ∧
       (∀ k, k ∈ members s ↔ rtc (dep (vrecs v)) k (rstep r)) ∧
       Forall (λ k, k <= rstep r) (members s).
Proof.
  destruct (trace_slice_spec qsort v g r false) as (s & E & Hs & Hm); [done..|].
  exists s. split_and!; [done..|]. apply Forall_forall. intros k Hk%Hm.
  destruct (defuse_build_spec v g) as [Hn He]; [done..|]. by eapply rtc_dep_le.
Qed.

(** Forward and backward slices are dual: the step of [y] is in the forward
    slice of [x] exactly when the step of [x] is in the backward slice of [y],
    as [asmtest_slice_contains] reports. *)
Theorem slice_duality (qsort : list Z → list Z) `{!QSort cmp_u32 qsort} v g x y
    (Hgrp : grouped v) (Hsteps : Z.of_nat (steps_len v) < 2 ^ 32)
    (Hrecs : Z.of_nat (recs_len v) <= 2 ^ 40)
    (Hbuild : asmtest_defuse_build always (Some v) = Some g)
    (Hx : x ∈ vrecs v) (Hy : y ∈ vrecs v) :
  asmtest_slice_contains (asmtest_slice_forward always qsort (Some g) x) (rstep y) =
  asmtest_slice_contains (asmtest_slice_backward always qsort (Some g) y) (rstep x).
Proof.
  destruct (trace_slice_spec qsort v g x true) as (s & E & _ & Hm); [done..|].
  destruct (trace_slice_spec qsort v g y false) as (s' & E' & _ & Hm'); [done..|].
  unfold asmtest_slice_forward, asmtest_slice_backward. rewrite E, E'.
  apply eq_true_iff_eq. rewrite !contains_members, Hm, Hm'. done.
Qed.

(** A computing sort for the witnesses. *)
Lemma msort_u32 : QSort cmp_u32 (msort cmp_u32).
Proof. apply msort_QSort. intros x y. unfold cmp_le, cmp_u32. rewrite !cmp3_le. lia. Qed.

(** rax is written, copied to rbx, and rbx is read; step 2 is unrelated. *)
Definition demo : asmtest_valtrace :=
  sink_of [(0, [reg_rec RegSlice.X86_REG_RAX true]);
           (3, [reg_rec RegSlice.X86_REG_EAX false; reg_rec RegSlice.X86_REG_RBX true]);
           (6, [reg_rec RegSlice.X86_REG_RCX true]);
           (9, [reg_rec RegSlice.X86_REG_BL false])].
Definition demo_graph : defuse :=
  mk_defuse [mk_edge 0 1 (with_step (reg_rec RegSlice.X86_REG_EAX false) 1);
             mk_edge 1 3 (with_step (reg_rec RegSlice.X86_REG_BL false) 3)] 4.
Lemma demo_grouped : grouped demo.
Proof. split; apply (bool_decide_unpack _); vm_compute; exact I. Qed.
Lemma demo_build : asmtest_defuse_build always (Some demo) = Some demo_graph.
Proof. vm_compute. reflexivity. Qed.

Lemma slice_backward_exact_witness :
  let r := with_step (reg_rec RegSlice.X86_REG_BL false) 3 in
  (∃ s, asmtest_slice_backward always (msort cmp_u32) (Some demo_graph) r = Some s ∧
        StronglySorted Z.lt (members s) ∧
        (∀ k, k ∈ members s ↔ rtc (dep (vrecs demo)) k (rstep r)) ∧
        Forall (λ k, k <= rstep r) (members s)) ∧
  asmtest_slice_backward always (msort cmp_u32) (Some demo_graph) r =
    Some (mk_slice (Some [0; 1; 3])).
Proof.
  cbv zeta. split; [|vm_compute; reflexivity].
  apply (slice_backward_exact (msort cmp_u32) (QSort0 := msort_u32) demo demo_graph);
    [exact demo_grouped|vm_compute; reflexivity|vm_compute; congruence|exact demo_build|].
  apply (bool_decide_unpack _). vm_compute. exact I.
Defined.

Lemma slice_duality_witness :
  let x := with_step (reg_rec RegSlice.X86_REG_RAX true) 0 in
  let y := with_step (reg_rec RegSlice.X86_REG_BL false) 3 in
  asmtest_slice_contains (asmtest_slice_forward always (msort cmp_u32) (Some demo_graph) x) 3 =
  asmtest_slice_contains (asmtest_slice_backward always (msort cmp_u32) (Some demo_graph) y) 0.
Proof.
  cbv zeta.
  apply (slice_duality (msort cmp_u32) (QSort0 := msort_u32) demo demo_graph
           (with_step (reg_rec RegSlice.X86_REG_RAX true) 0)
           (with_step (reg_rec RegSlice.X86_REG_BL false) 3));
    [exact demo_grouped|vm_compute; reflexivity|vm_compute; congruence|exact demo_build|..];
    apply (bool_decide_unpack _); vm_compute; exact I.
Defined.
End Slice.
