(* ===== verification/AddrChan.v ===== *)
(** The JIT-address channel ([include/asmtest_addr_channel.h]): the ring a runtime
    publishes its method bodies on and the stepper drains.  One producer, one
    consumer, no lock: the producer writes a slot and then moves [head], the
    consumer moves [tail]. *)
From S2P Require Import Prelude.

Module AddrChan.

(** [asmtest_addr_rec_t] *)
Record addr_rec := mk_addr { a_base : Z; a_len : Z; a_version : Z }.
#[export] Instance addr_rec_eq_dec : EqDecision addr_rec.
Proof. solve_decision. Defined.
Definition addr0 : addr_rec := mk_addr 0 0 0.

Definition ASMTEST_ADDR_CHAN_CAP : Z := 256.
Definition CAP : nat := 256.
#[local] Arguments Nat.modulo : simpl never.

(** [asmtest_addr_channel_t] *)
Record channel := mk_chan { head : Z; tail : Z; overrun : bool; slots : list addr_rec }.

Definition asmtest_addr_channel_init (c : channel) : channel := mk_chan 0 0 false (slots c).

(** The stores of a publication, in program order: the three fields of the slot,
    then the release store of [head]. *)
Definition slot_of (c : channel) : nat := Z.to_nat (head c mod ASMTEST_ADDR_CHAN_CAP).
Definition store_slot (f : addr_rec → addr_rec) (c : channel) : channel :=
  mk_chan (head c) (tail c) (overrun c) (alter f (slot_of c) (slots c)).
Definition store_base (b : Z) : channel → channel := store_slot (λ r, mk_addr b (a_len r) (a_version r)).
Definition store_len (n : Z) : channel → channel := store_slot (λ r, mk_addr (a_base r) n (a_version r)).
Definition store_version (v : Z) : channel → channel := store_slot (λ r, mk_addr (a_base r) (a_len r) v).
Definition store_head (c : channel) : channel := mk_chan (u32 (head c + 1)) (tail c) (overrun c) (slots c).

Definition asmtest_addr_channel_publish (c : channel) (r : addr_rec) : channel :=
  store_head (store_version (a_version r) (store_len (a_len r) (store_base (a_base r) c))).

(** [while (t != h && n < max)], [max] rounds at most. *)
Fixpoint drain_loop (max : nat) (c : channel) (t : Z) : list addr_rec * Z :=
  match max with
  | O => ([], t)
  | S max =>
      if t =? head c then ([], t)
      else let '(out, t') := drain_loop max c (u32 (t + 1)) in
           (nth (Z.to_nat (t mod ASMTEST_ADDR_CHAN_CAP)) (slots c) addr0 :: out, t')
  end.

(** The records drained and the channel afterwards. *)
Definition asmtest_addr_channel_drain (c : channel) (max : nat) : list addr_rec * channel :=
  if (max =? 0)%nat then ([], c)
  else
    let lapped := ASMTEST_ADDR_CHAN_CAP <? u32 (head c - tail c) in
    let t := if lapped then u32 (head c - ASMTEST_ADDR_CHAN_CAP) else tail c in
    let '(out, t) := drain_loop max c t in
    (out, mk_chan (head c) t (overrun c || lapped) (slots c)).

Definition asmtest_addr_channel_published (c : channel) : Z := head c.

(** ** Specification

    [hist] is everything ever published and [T] how many of them the consumer has
    passed.  The ring holds the last 256. *)
Record holds (c : channel) (hist : list addr_rec) (T : nat) : Prop := {
  h_head : head c = u32 (Z.of_nat (length hist));
  h_tail : tail c = u32 (Z.of_nat T);
  h_T : (T <= length hist)%nat;
  h_len : length (slots c) = CAP;
  h_slots i : (i < length hist)%nat → (length hist <= i + CAP)%nat →
     slots c !! (i mod CAP)%nat = hist !! i;
}.

Lemma u32_mod_cap x : u32 x mod ASMTEST_ADDR_CHAN_CAP = x mod ASMTEST_ADDR_CHAN_CAP.
Proof. unfold u32, ASMTEST_ADDR_CHAN_CAP. dlia. Qed.

Lemma slot_nat (n : nat) : Z.to_nat (u32 (Z.of_nat n) mod ASMTEST_ADDR_CHAN_CAP) = (n mod CAP)%nat.
Proof. rewrite u32_mod_cap. unfold ASMTEST_ADDR_CHAN_CAP. change 256 with (Z.of_nat CAP). rewrite <-Nat2Z.inj_mod. apply Nat2Z.id. Qed.

Lemma publish_slots c r :
  (slot_of c < length (slots c))%nat →
  asmtest_addr_channel_publish c r = mk_chan (u32 (head c + 1)) (tail c) (overrun c) (<[slot_of c := r]> (slots c)).
Proof.
  intros Hs. destruct (lookup_lt_is_Some_2 _ _ Hs) as [x Hx].
  unfold asmtest_addr_channel_publish, store_head, store_version, store_len, store_base, store_slot. simpl. f_equal.
  unfold slot_of in *; simpl. erewrite (list_alter_insert _ (slots c)) by done.
  repeat (erewrite (list_alter_insert _ (<[_ := _]> _)) by (by apply list_lookup_insert_eq); rewrite list_insert_insert_eq).
  by destruct r.
Qed.

Lemma publish_holds c hist T r :
  holds c hist T → holds (asmtest_addr_channel_publish c r) (hist ++ [r]) T.
Proof.
  intros [Hh Ht HT Hl Hs]. assert (slot_of c = (length hist mod CAP)%nat) as Es by (unfold slot_of; rewrite Hh; apply slot_nat).
  assert (length hist mod CAP < CAP)%nat by (apply Nat.mod_upper_bound; done).
  rewrite publish_slots by (rewrite Es, Hl; done). split; simpl; rewrite ?length_app, ?length_insert; simpl; try lia.
  - rewrite Hh, u32_add_l. f_equal. lia.
  - intros i Hi Hc. rewrite Es. destruct (decide (i = length hist)) as [->|].
    + by rewrite list_lookup_insert_eq, list_lookup_middle by lia.
    + rewrite lookup_app_l by lia. rewrite list_lookup_insert_ne; [apply Hs; lia|]. intros E.
      pose proof (Nat.div_mod_eq i CAP). pose proof (Nat.div_mod_eq (length hist) CAP). unfold CAP in *. lia.
Qed.

Lemma drain_loop_spec c hist T n :
  holds c hist T → ∀ t, (t <= length hist)%nat → (length hist <= t + CAP)%nat →
  drain_loop n c (u32 (Z.of_nat t)) =
  (take n (drop t hist), u32 (Z.of_nat (Nat.min (t + n) (length hist)))).
Proof.
  intros [Hh _ _ Hl Hs]. induction n as [|n IH]; intros t Ht Hc; cbn [drain_loop].
  { rewrite Nat.add_0_r, Nat.min_l by lia. done. }
  rewrite Hh. destruct (Z.eqb_spec (u32 (Z.of_nat t)) (u32 (Z.of_nat (length hist)))) as [E|E].
  - assert (t = length hist) as ->.
    { unfold u32 in E. unfold CAP in Hc. zify. Z.to_euclidean_division_equations. lia. }
    rewrite drop_all, Nat.min_r by lia. by destruct n.
  - assert (t < length hist)%nat by (destruct (decide (t = length hist)); [congruence|lia]).
    rewrite u32_add_l, slot_nat. replace (Z.of_nat t + 1) with (Z.of_nat (S t)) by lia. rewrite IH by lia.
    destruct (lookup_lt_is_Some_2 hist t ltac:(done)) as [x Hx].
    rewrite (nth_lookup_Some _ _ _ x) by (by rewrite Hs by lia).
    rewrite (drop_S hist x t Hx). cbn [take]. do 3 f_equal. lia.
Qed.

(** One drain: the records not yet passed, from the oldest the ring still has. *)
Lemma drain_spec c hist T max :
  holds c hist T → Z.of_nat (length hist - T) < 2 ^ 32 → (0 < max)%nat →
  let from := Nat.max T (length hist - CAP) in
  let T' := Nat.min (from + max) (length hist) in
  ∃ c', asmtest_addr_channel_drain c max = (take max (drop from hist), c') ∧ holds c' hist T' ∧
        overrun c' = overrun c || (T <? from)%nat.
Proof.
  intros H Hd Hmax. pose proof H as [Hh Ht HT Hl Hs]. cbv zeta. unfold asmtest_addr_channel_drain.
  destruct (Nat.eqb_spec max 0); [lia|]. rewrite Hh, Ht.
  assert (u32 (u32 (Z.of_nat (length hist)) - u32 (Z.of_nat T)) = Z.of_nat (length hist - T)) as ->.
  { unfold u32 in *. Z.to_euclidean_division_equations. lia. }
  set (from := Nat.max T (length hist - CAP)).
  assert ((ASMTEST_ADDR_CHAN_CAP <? Z.of_nat (length hist - T)) = (T <? from)%nat) as ->.
  { unfold from, ASMTEST_ADDR_CHAN_CAP, CAP. apply eq_true_iff_eq. rewrite Z.ltb_lt, Nat.ltb_lt. lia. }
  assert ((if (T <? from)%nat then u32 (u32 (Z.of_nat (length hist)) - ASMTEST_ADDR_CHAN_CAP) else u32 (Z.of_nat T))
          = u32 (Z.of_nat from)) as ->.
  { destruct (Nat.ltb_spec T from); [|f_equal; lia]. unfold u32. rewrite Zminus_mod_idemp_l. f_equal.
    unfold from, ASMTEST_ADDR_CHAN_CAP, CAP in *. lia. }
  rewrite (drain_loop_spec c hist T max H) by (unfold from, CAP in *; lia).
  eexists. split; [done|]. split; [|done]. split; simpl; try done; lia.
Qed.

(** ** Streams *)
Inductive op := Publish (r : addr_rec) | Drain (max : nat).

(** The channel and everything drained so far. *)
Definition run_op (st : channel * list addr_rec) (o : op) : channel * list addr_rec :=
  match o with
  | Publish r => (asmtest_addr_channel_publish st.1 r, st.2)
  | Drain max => let '(out, c) := asmtest_addr_channel_drain st.1 max in (c, st.2 ++ out)
  end.
Definition published (ops : list op) : list addr_rec := ops ≫= λ o, match o with Publish r => [r] | Drain _ => [] end.

Lemma stream_holds ops c :
  length (slots c) = CAP → Z.of_nat (length (published ops)) < 2 ^ 32 →
  let '(c', out) := foldl run_op (asmtest_addr_channel_init c, []) ops in
  ∃ T, holds c' (published ops) T ∧ out `sublist_of` take T (published ops) ∧
       (overrun c' = false → out = take T (published ops)).
Proof.
  intros Hl. induction ops as [|o ops IH] using rev_ind; intros Hlt.
  { exists O. split_and!; [|constructor|done]. split; simpl; try done; lia. }
  unfold published in Hlt |- *. rewrite bind_app in *. fold (published ops) in *. rewrite length_app in Hlt.
  specialize (IH ltac:(lia)). rewrite foldl_app. cbn [foldl]. destruct (foldl _ _ ops) as [c' out].
  destruct IH as (T & H & Hsub & Hex). pose proof (h_T _ _ _ H) as HT. destruct o as [r|max]; simpl.
  - exists T. rewrite take_app_le by done. split_and!; [by apply publish_holds|done|].
    intros Ho. apply Hex. revert Ho. unfold asmtest_addr_channel_publish. done.
  - rewrite app_nil_r. destruct (decide (max = 0%nat)) as [->|].
    { simpl. exists T. rewrite app_nil_r. done. }
    destruct (drain_spec c' (published ops) T max H ltac:(lia) ltac:(lia)) as (c'' & E & H' & Ho). rewrite E.
    set (hist := published ops) in *. set (from := Nat.max T (length hist - CAP)) in *.
    exists (Nat.min (from + max) (length hist)). split; [done|].
    assert (take (Nat.min (from + max) (length hist)) hist = take from hist ++ take max (drop from hist)) as ->.
    { rewrite (take_take_drop hist from max), <-take_take. by rewrite (take_ge hist (length hist)). }
    split.
    + apply sublist_app; [|done]. etransitivity; [exact Hsub|]. replace T with (Nat.min T from) by lia.
      rewrite <-take_take. apply sublist_take.
    + rewrite Ho, orb_false_iff. intros [Ho1 Ho2%Nat.ltb_ge]. rewrite (Hex Ho1). by replace from with T by lia.
Qed.

(** Publications and drains that each run to completion, in any order, on a fresh
    channel: the consumer gets published records in publication order, each at most
    once; and unless the overrun flag is up it got every record up to the point it
    has read, none lost. *)
Theorem channel_stream_exact ops c (Hlen : length (slots c) = CAP)
    (Hfew : Z.of_nat (length (published ops)) < 2 ^ 32) :
  let '(c', out) := foldl run_op (asmtest_addr_channel_init c, []) ops in
  out `sublist_of` published ops ∧ (overrun c' = false → out = take (length out) (published ops)).
Proof.
  pose proof (stream_holds ops c Hlen Hfew) as R. destruct (foldl _ _ ops) as [c' out].
  destruct R as (T & H & Hsub & Hex). split.
  - etransitivity; [exact Hsub|apply sublist_take].
  - intros Ho. pose proof (Hex Ho) as ->. rewrite length_take, Nat.min_l by (by apply (h_T _ _ _ H)). done.
Qed.

Definition ring256 : channel := mk_chan 7 9 true (replicate 256 addr0).
Lemma channel_stream_exact_lapped :
  let ops := (λ i, Publish (mk_addr i 16 1)) <$> seqZ 0 258 in
  let '(c', out) := foldl run_op (asmtest_addr_channel_init ring256, []) (ops ++ [Drain 256]) in
  out `sublist_of` published (ops ++ [Drain 256]) ∧ overrun c' = true ∧ length out = 256%nat.
Proof.
  cbv zeta. set (ops := _ ++ _).
  pose proof (channel_stream_exact ops ring256 eq_refl ltac:(vm_compute; reflexivity)) as E.
  assert (overrun (foldl run_op (asmtest_addr_channel_init ring256, []) ops).1 = true ∧
          length (foldl run_op (asmtest_addr_channel_init ring256, []) ops).2 = 256%nat) as [E1 E2]
    by (split; vm_compute; reflexivity).
  destruct (foldl _ _ ops) as [c' out]. destruct E as [E _]. done.
Defined.

(** ** One access at a time

    The producer and the consumer are two processes: between two accesses of one
    of them to the shared ring, the other can make any number of its own.  A
    publication in progress is the store it makes next. *)
Inductive writer :=
| WIdle
| WBase (r : addr_rec)
| WLen (r : addr_rec)
| WVersion (r : addr_rec)
| WHead (r : addr_rec).
#[export] Instance writer_eq_dec : EqDecision writer.
Proof. solve_decision. Defined.

Definition writer_step (w : writer) (c : channel) : writer * channel :=
  match w with
  | WIdle => (WIdle, c)
  | WBase r => (WLen r, store_base (a_base r) c)
  | WLen r => (WVersion r, store_len (a_len r) c)
  | WVersion r => (WHead r, store_version (a_version r) c)
  | WHead r => (WIdle, store_head c)
  end.

(** A drain in progress: its arguments and locals ([h], [t], the records copied
    out so far, and the fields of the record being copied), and the access it makes
    next: the load of [head], the load of [tail] with the lap test, the loop test
    with the load of a slot's [base] or the final store of [tail], the loads of
    [len] and of [version]. *)
Inductive reader :=
| RIdle
| RHead (max : nat)
| RTail (max : nat) (h : Z)
| RTest (max : nat) (h t : Z) (got : list addr_rec)
| RLen (max : nat) (h t : Z) (got : list addr_rec) (b : Z)
| RVersion (max : nat) (h t : Z) (got : list addr_rec) (b l : Z).
#[export] Instance reader_eq_dec : EqDecision reader.
Proof. solve_decision. Defined.

Definition ring_slot (c : channel) (t : Z) : addr_rec := nth (Z.to_nat (t mod ASMTEST_ADDR_CHAN_CAP)) (slots c) addr0.

(** The reader, the channel and, when the drain returns, what it returns. *)
Definition reader_step (q : reader) (c : channel) : reader * channel * list addr_rec :=
  match q with
  | RIdle => (RIdle, c, [])
  | RHead max => (RTail max (head c), c, [])
  | RTail max h =>
      let lapped := ASMTEST_ADDR_CHAN_CAP <? u32 (h - tail c) in
      (RTest max h (if lapped then u32 (h - ASMTEST_ADDR_CHAN_CAP) else tail c) [],
       mk_chan (head c) (tail c) (overrun c || lapped) (slots c), [])
  | RTest max h t got =>
      if negb (t =? h) && (length got <? max)%nat
      then (RLen max h t got (a_base (ring_slot c t)), c, [])
      else (RIdle, mk_chan (head c) t (overrun c) (slots c), got)
  | RLen max h t got b => (RVersion max h t got b (a_len (ring_slot c t)), c, [])
  | RVersion max h t got b l =>
      (RTest max h (u32 (t + 1)) (got ++ [mk_addr b l (a_version (ring_slot c t))]), c, [])
  end.

(** Left alone, the steps are the two operations. *)
Lemma writer_alone c r :
  Nat.iter 4 (λ '(w, c), writer_step w c) (WBase r, c) = (WIdle, asmtest_addr_channel_publish c r).
Proof. reflexivity. Qed.

Definition reader_run (n : nat) (x : reader * channel * list addr_rec) : reader * channel * list addr_rec :=
  Nat.iter n (λ '(q, c, out), let '(q, c, o) := reader_step q c in (q, c, out ++ o)) x.
Lemma reader_run_S n q c out :
  reader_run (S n) (q, c, out) = let '(q, c, o) := reader_step q c in reader_run n (q, c, out ++ o).
Proof. unfold reader_run. rewrite Nat.iter_succ_r. by destruct (reader_step q c) as [[q' c'] o]. Qed.

Lemma reader_loop_alone c max : ∀ k t got, (length got + k = max)%nat →
  ∃ n, reader_run n (RTest max (head c) t got, c, []) =
    let '(out, t') := drain_loop k c t in (RIdle, mk_chan (head c) t' (overrun c) (slots c), got ++ out).
Proof.
  intros k. induction k as [|k IH]; intros t got Hk; cbn [drain_loop].
  { exists 1%nat. rewrite reader_run_S. cbn [reader_step]. destruct (Nat.ltb_spec (length got) max); [lia|].
    rewrite andb_false_r, app_nil_r. done. }
  destruct (Z.eqb_spec t (head c)) as [->|Hne].
  { exists 1%nat. rewrite reader_run_S. cbn [reader_step]. rewrite Z.eqb_refl. cbn. by rewrite app_nil_r. }
  destruct (IH (u32 (t + 1)) (got ++ [ring_slot c t])) as [n Hn]; [rewrite length_app; simpl; lia|].
  exists (S (S (S n))). rewrite !reader_run_S. cbn [reader_step].
  destruct (Z.eqb_spec t (head c)); [done|]. destruct (Nat.ltb_spec (length got) max); [|lia]. cbn [negb andb].
  rewrite !reader_run_S. cbn [reader_step]. rewrite reader_run_S. cbn [reader_step].
  replace (mk_addr _ _ _) with (ring_slot c t) by (by destruct (ring_slot c t)). rewrite !app_nil_r, Hn.
  destruct (drain_loop k c (u32 (t + 1))) as [out t']. by rewrite <-app_assoc.
Qed.

Lemma reader_alone c max : (0 < max)%nat →
  ∃ n, reader_run n (RHead max, c, []) = let '(out, c') := asmtest_addr_channel_drain c max in (RIdle, c', out).
Proof.
  intros Hmax. unfold asmtest_addr_channel_drain. destruct (Nat.eqb_spec max 0) as [|_]; [lia|].
  set (lapped := ASMTEST_ADDR_CHAN_CAP <? u32 (head c - tail c)).
  destruct (reader_loop_alone (mk_chan (head c) (tail c) (overrun c || lapped) (slots c)) max max
    (if lapped then u32 (head c - ASMTEST_ADDR_CHAN_CAP) else tail c) []) as [n Hn]; [done|].
  exists (S (S n)). rewrite !reader_run_S. cbn [reader_step]. rewrite reader_run_S. cbn [reader_step]. fold lapped.
  cbn [app]. cbn [head overrun slots] in Hn. rewrite Hn.
  assert (∀ k t, drain_loop k (mk_chan (head c) (tail c) (overrun c || lapped) (slots c)) t = drain_loop k c t) as ->
    by (clear; induction k as [|k IH]; intros t; simpl; [done|by rewrite IH]).
  destruct (drain_loop max c _) as [out t']. reflexivity.
Qed.

(** *** Both processes

    The ring, the two processes, everything published (a publication counts from
    its store of [head]) and everything drains have returned. *)
Record sys := mk_sys { chan : channel; wr : writer; rd : reader; hist : list addr_rec; delivered : list addr_rec }.

(** A publication begins, the producer makes its next access, a drain begins, the
    consumer makes its next access. *)
Inductive act := Begin (r : addr_rec) | Write | Ask (max : nat) | Read.

(** [None]: the process is still in its previous call, or in none. *)
Definition sys_step (s : sys) (a : act) : option sys :=
  match a with
  | Begin r => if decide (wr s = WIdle) then Some (mk_sys (chan s) (WBase r) (rd s) (hist s) (delivered s)) else None
  | Write =>
      if decide (wr s = WIdle) then None
      else let '(w, c) := writer_step (wr s) (chan s) in
           Some (mk_sys c w (rd s) (hist s ++ match wr s with WHead r => [r] | _ => [] end) (delivered s))
  | Ask max =>
      if decide (rd s = RIdle) then
        Some (mk_sys (chan s) (wr s) (if (max =? 0)%nat then RIdle else RHead max) (hist s) (delivered s))
      else None
  | Read =>
      if decide (rd s = RIdle) then None
      else let '(q, c, out) := reader_step (rd s) (chan s) in
           Some (mk_sys c (wr s) q (hist s) (delivered s ++ out))
  end.

(** The slot the next publication goes to holds a record that the consumer has not
    passed. *)
Definition full (c : channel) : bool := ASMTEST_ADDR_CHAN_CAP <=? u32 (head c - tail c).

(** No drain overlaps a publication into a full ring. *)
Definition no_overlap (s : sys) (a : act) : bool :=
  match a with
  | Begin _ => negb (full (chan s)) || bool_decide (rd s = RIdle)
  | Ask _ => negb (full (chan s)) || bool_decide (wr s = WIdle)
  | Write | Read => true
  end.

(** The states of a channel that began as [c]. *)
Inductive reached (c : channel) : sys → Prop :=
| reached_start : reached c (mk_sys (asmtest_addr_channel_init c) WIdle RIdle [] [])
| reached_step s a s' : reached c s → no_overlap s a = true → sys_step s a = Some s' → reached c s'.

Fixpoint schedule (acts : list act) (s : sys) : option sys :=
  match acts with
  | [] => Some s
  | a :: acts => if no_overlap s a then sys_step s a ≫= schedule acts else None
  end.
Lemma schedule_reached c acts : ∀ s s', reached c s → schedule acts s = Some s' → reached c s'.
Proof.
  induction acts as [|a acts IH]; intros s s' Hs E; simpl in E; [by simplify_eq|].
  destruct (no_overlap s a) eqn:Ha; [|done]. destruct (sys_step s a) as [s1|] eqn:E1; [|done].
  eapply IH; [|exact E]. by eapply reached_step.
Qed.

(** *** The invariant *)
(** The records a drain that loaded [H] goes on from. *)
Definition oldest (T H : nat) : nat := Nat.max T (H - CAP).

Record looping (s : sys) (T max : nat) (h t : Z) (got : list addr_rec) (H p : nat) : Prop := {
  l_h : h = u32 (Z.of_nat H);
  l_t : t = u32 (Z.of_nat p);
  l_p : (oldest T H <= p <= H)%nat;
  l_H : (H <= length (hist s))%nat;
  l_live : (length (hist s) <= oldest T H + CAP)%nat;
  l_got : got = take (p - oldest T H) (drop (oldest T H) (hist s));
  l_max : (length got <= max)%nat;
  l_over : overrun (chan s) = false → oldest T H = T;
}.

Definition reading (s : sys) (T : nat) : Prop :=
  match rd s with
  | RIdle | RHead _ => True
  | RTail max h => ∃ H, h = u32 (Z.of_nat H) ∧ (T <= H <= length (hist s))%nat ∧ (length (hist s) <= oldest T H + CAP)%nat
  | RTest max h t got => ∃ H p, looping s T max h t got H p
  | RLen max h t got b => ∃ H p r, looping s T max h t got H p ∧ (p < H)%nat ∧ (length got < max)%nat ∧
      hist s !! p = Some r ∧ b = a_base r
  | RVersion max h t got b l => ∃ H p r, looping s T max h t got H p ∧ (p < H)%nat ∧ (length got < max)%nat ∧
      hist s !! p = Some r ∧ b = a_base r ∧ l = a_len r
  end.

(** What the stores of the open publication have put in its slot. *)
Definition written (w : writer) (x : addr_rec) : Prop :=
  match w with
  | WIdle | WBase _ => True
  | WLen r => a_base x = a_base r
  | WVersion r => a_base x = a_base r ∧ a_len x = a_len r
  | WHead r => x = r
  end.

Record inv (s : sys) (T : nat) : Prop := {
  i_head : head (chan s) = u32 (Z.of_nat (length (hist s)));
  i_tail : tail (chan s) = u32 (Z.of_nat T);
  i_T : (T <= length (hist s))%nat;
  i_len : length (slots (chan s)) = CAP;
  i_slots i : (i < length (hist s))%nat → (length (hist s) <= i + CAP)%nat →
     wr s = WIdle ∨ (length (hist s) < i + CAP)%nat → slots (chan s) !! (i mod CAP)%nat = hist s !! i;
  i_wr : ∃ x, slots (chan s) !! (length (hist s) mod CAP)%nat = Some x ∧ written (wr s) x;
  i_both : wr s ≠ WIdle → rd s ≠ RIdle → (length (hist s) < T + CAP)%nat;
  i_out : delivered s `sublist_of` take T (hist s) ∧
     (overrun (chan s) = false → delivered s = take T (hist s));
  i_rd : reading s T;
}.

Lemma full_spec s T : inv s T → Z.of_nat (length (hist s)) < 2 ^ 32 →
  full (chan s) = (CAP <=? length (hist s) - T)%nat.
Proof.
  intros I Hf. unfold full. rewrite (i_head _ _ I), (i_tail _ _ I). pose proof (i_T _ _ I).
  assert (u32 (u32 (Z.of_nat (length (hist s))) - u32 (Z.of_nat T)) = Z.of_nat (length (hist s) - T)) as ->.
  { unfold u32 in *. Z.to_euclidean_division_equations. lia. }
  apply eq_true_iff_eq. rewrite Z.leb_le, Nat.leb_le. unfold ASMTEST_ADDR_CHAN_CAP, CAP. lia.
Qed.

Lemma inv_start c : length (slots c) = CAP → inv (mk_sys (asmtest_addr_channel_init c) WIdle RIdle [] []) 0.
Proof.
  intros Hl. split; simpl; try done; try lia.
  destruct (lookup_lt_is_Some_2 (slots c) (0 mod CAP)) as [x Hx]; [|by exists x].
  rewrite Hl. apply Nat.mod_upper_bound. done.
Qed.

(** A publication does not disturb a drain in progress. *)
Lemma looping_grow s s' T max h t got H p l :
  looping s T max h t got H p → hist s' = hist s ++ l → overrun (chan s') = overrun (chan s) →
  l = [] ∨ (length (hist s') <= T + CAP)%nat → looping s' T max h t got H p.
Proof.
  intros [Hh Ht Hp HH Hlive Hgot Hmax Hover] E Eo Hl. split; try done; rewrite ?E, ?Eo; try done.
  - rewrite length_app. lia.
  - destruct Hl as [->|Hl]; [by rewrite app_nil_r|]. rewrite E in Hl. unfold oldest in *. lia.
  - rewrite Hgot, drop_app_le by lia. rewrite take_app_le; [done|]. rewrite length_drop. lia.
Qed.

Lemma reading_grow s s' T l :
  reading s T → rd s' = rd s → hist s' = hist s ++ l → overrun (chan s') = overrun (chan s) →
  l = [] ∨ rd s = RIdle ∨ (length (hist s') <= T + CAP)%nat → reading s' T.
Proof.
  unfold reading. intros R Er E Eo Hl. rewrite Er.
  destruct (rd s) as [| |max h|max h t got|max h t got b|max h t got b n] eqn:Erd; try done.
  - destruct R as (H & Hh & HH & Hlive). exists H. rewrite E, length_app.
    split_and!; [done|lia|lia|]. rewrite E, length_app in Hl. destruct Hl as [->|[|Hl]]; [simpl; lia|done|]. unfold oldest in *. lia.
  - destruct R as (H & p & L). exists H, p. eapply looping_grow; [exact L|done..|]. naive_solver.
  - destruct R as (H & p & r & L & Hp & Hm & Hr & Hb). exists H, p, r.
    split_and!; [eapply looping_grow; [exact L|done..|]; naive_solver|done..| |done]. rewrite E. by apply lookup_app_l_Some.
  - destruct R as (H & p & r & L & Hp & Hm & Hr & Hb). exists H, p, r.
    split_and!; [eapply looping_grow; [exact L|done..|]; naive_solver|done..| |apply Hb|apply Hb]. rewrite E. by apply lookup_app_l_Some.
Qed.

Lemma same_slot (i n : nat) : (i < n)%nat → (n < i + CAP)%nat → (i mod CAP)%nat ≠ (n mod CAP)%nat.
Proof. intros ? ? E. pose proof (Nat.div_mod_eq i CAP). pose proof (Nat.div_mod_eq n CAP). unfold CAP in *. lia. Qed.

(** The three stores into the slot. *)
Lemma inv_store s T f w :
  inv s T → wr s ≠ WIdle → w ≠ WIdle → (∀ x, written (wr s) x → written w (f x)) →
  inv (mk_sys (store_slot f (chan s)) w (rd s) (hist s ++ []) (delivered s)) T.
Proof.
  intros I Hw Hw' Hf. rewrite app_nil_r. pose proof I as [Hh Ht HT Hl Hs Hx Hb Ho Hr].
  assert (slot_of (chan s) = (length (hist s) mod CAP)%nat) as Es by (unfold slot_of; rewrite Hh; apply slot_nat).
  split; simpl; try done.
  - by rewrite length_alter.
  - intros i Hi Hc [|Hlt]; [done|]. rewrite Es, list_lookup_alter_ne by (apply not_eq_sym, same_slot; lia). apply Hs; auto.
  - destruct Hx as (x & Hx & Hwx). exists (f x). rewrite Es, list_lookup_alter_eq, Hx. split; [done|auto].
  - intros _. by apply Hb.
  - eapply (reading_grow s _ T []); simpl; rewrite ?app_nil_r; auto.
Qed.

(** The store of [head]. *)
Lemma inv_publish s T r :
  inv s T → wr s = WHead r → inv (mk_sys (store_head (chan s)) WIdle (rd s) (hist s ++ [r]) (delivered s)) T.
Proof.
  intros I Hw. pose proof I as [Hh Ht HT Hl Hs Hx Hb Ho Hr]. rewrite Hw in Hx. destruct Hx as (x & Hx & ->).
  split; simpl; rewrite ?length_app; simpl; try done; try lia.
  - rewrite Hh, u32_add_l. f_equal. lia.
  - intros i Hi Hc _. destruct (decide (i = length (hist s))) as [->|].
    + by rewrite list_lookup_middle by done.
    + rewrite lookup_app_l by lia. apply Hs; [lia..|]. right. lia.
  - destruct (lookup_lt_is_Some_2 (slots (chan s)) ((length (hist s) + 1) mod CAP)) as [y Hy]; [|by exists y].
    rewrite Hl. apply Nat.mod_upper_bound. done.
  - by rewrite take_app_le by done.
  - eapply (reading_grow s _ T [r]); simpl; try done. destruct (decide (rd s = RIdle)); [auto|]. right; right.
    rewrite length_app. simpl. assert (wr s ≠ WIdle) by congruence. specialize (Hb ltac:(done) ltac:(done)). lia.
Qed.

Lemma inv_write s s' T : inv s T → sys_step s Write = Some s' → inv s' T.
Proof.
  intros I E. unfold sys_step in E. destruct (decide (wr s = WIdle)) as [|Hw]; [done|].
  destruct (wr s) as [|r|r|r|r] eqn:Ew; simpl in E; simplify_eq.
  - apply inv_store; rewrite ?Ew; done.
  - apply inv_store; rewrite ?Ew; done.
  - apply inv_store; rewrite ?Ew; try done. intros x [H1 H2]. simpl. rewrite H1, H2. by destruct r.
  - by apply inv_publish.
Qed.

Lemma inv_begin s s' T r : inv s T → Z.of_nat (length (hist s)) < 2 ^ 32 →
  no_overlap s (Begin r) = true → sys_step s (Begin r) = Some s' → inv s' T.
Proof.
  intros I Hf Ha E. simpl in *. rewrite (full_spec s T I Hf) in Ha. case_decide as Hw; simplify_eq.
  pose proof I as [Hh Ht HT Hl Hs Hx Hb Ho Hr]. split; simpl; try done.
  - intros i Hi Hc _. apply Hs; auto.
  - destruct Hx as (x & Hx & _). by exists x.
  - intros _ Hrd. apply orb_true_iff in Ha as [Ha|Ha]; [|by apply bool_decide_eq_true in Ha].
    apply negb_true_iff, Nat.leb_gt in Ha. lia.
  - eapply (reading_grow s _ T []); simpl; rewrite ?app_nil_r; auto.
Qed.

Lemma inv_ask s s' T max : inv s T → Z.of_nat (length (hist s)) < 2 ^ 32 →
  no_overlap s (Ask max) = true → sys_step s (Ask max) = Some s' → inv s' T.
Proof.
  intros I Hf Ha E. simpl in *. rewrite (full_spec s T I Hf) in Ha. case_decide as Hw; simplify_eq.
  pose proof I as [Hh Ht HT Hl Hs Hx Hb Ho Hr]. split; simpl; try done.
  - intros Hwr _. apply orb_true_iff in Ha as [Ha|Ha]; [|by apply bool_decide_eq_true in Ha].
    apply negb_true_iff, Nat.leb_gt in Ha. lia.
  - unfold reading. simpl. by destruct (max =? 0)%nat.
Qed.

(** What a load finds in the slot the drain is at. *)
Lemma slot_read s T max h t got H p :
  inv s T → rd s ≠ RIdle → looping s T max h t got H p → (p < H)%nat →
  ∃ r, hist s !! p = Some r ∧ ring_slot (chan s) t = r.
Proof.
  intros I Hrd [Hh Ht Hp HH Hlive Hgot Hmax Hover] HpH.
  destruct (lookup_lt_is_Some_2 (hist s) p) as [r Hr]; [lia|]. exists r. split; [done|].
  unfold ring_slot. rewrite Ht, slot_nat. apply nth_lookup_Some. rewrite (i_slots _ _ I); [done|lia|lia|].
  destruct (decide (wr s = WIdle)); [by left|right]. pose proof (i_both _ _ I ltac:(done) Hrd).
  unfold oldest in *. lia.
Qed.

Lemma drop_take_step (l : list addr_rec) (o p : nat) r :
  (o <= p)%nat → l !! p = Some r → take (S p - o) (drop o l) = take (p - o) (drop o l) ++ [r].
Proof.
  intros Ho Hr. replace (S p - o)%nat with (S (p - o)) by lia. apply take_S_r. rewrite lookup_drop.
  by replace (o + (p - o))%nat with p by lia.
Qed.

Lemma take_to (l : list addr_rec) (o p : nat) : (o <= p)%nat → take p l = take o l ++ take (p - o) (drop o l).
Proof. intros. rewrite (take_take_drop l o (p - o)). by replace (o + (p - o))%nat with p by lia. Qed.

(** Everything copied out so far, the drain in progress included. *)
Lemma looping_out s T max h t got H p :
  inv s T → looping s T max h t got H p →
  delivered s ++ got `sublist_of` take p (hist s) ∧
  (overrun (chan s) = false → delivered s ++ got = take p (hist s)).
Proof.
  intros I [Hh Ht Hp HH Hlive Hgot Hmax Hover]. destruct (i_out _ _ I) as [Hs He].
  rewrite (take_to (hist s) (oldest T H) p) by lia. rewrite <-Hgot. split.
  - apply sublist_app; [|done]. etransitivity; [exact Hs|].
    rewrite (take_to (hist s) T (oldest T H)) by (unfold oldest; lia). apply sublist_inserts_r. done.
  - intros Ho. by rewrite (He Ho), (Hover Ho).
Qed.

(** A step that only moves the reader. *)
Lemma inv_reader s T q :
  inv s T → rd s ≠ RIdle → reading (mk_sys (chan s) (wr s) q (hist s) (delivered s)) T →
  inv (mk_sys (chan s) (wr s) q (hist s) (delivered s ++ [])) T.
Proof. intros [Hh Ht HT Hl Hs Hx Hb Ho Hr] Hrd R. rewrite app_nil_r. split; simpl; auto. Qed.

Lemma looping_at s s' T max h t got H p :
  looping s T max h t got H p → chan s' = chan s → hist s' = hist s → looping s' T max h t got H p.
Proof. intros [] E1 E2. split; rewrite ?E1, ?E2; done. Qed.

Lemma inv_lap s T max h :
  inv s T → rd s = RTail max h → Z.of_nat (length (hist s)) < 2 ^ 32 →
  let '(q, c, out) := reader_step (rd s) (chan s) in inv (mk_sys c (wr s) q (hist s) (delivered s ++ out)) T.
Proof.
  intros I Er Hf. pose proof I as [Hh Ht HT Hl Hs Hx Hb [Ho1 Ho2] Hr]. unfold reading in Hr. rewrite Er in *.
  destruct Hr as (H & -> & HH & Hlive). cbn [reader_step]. rewrite Ht.
  assert (u32 (u32 (Z.of_nat H) - u32 (Z.of_nat T)) = Z.of_nat (H - T)) as ->.
  { unfold u32 in *. Z.to_euclidean_division_equations. lia. }
  assert ((ASMTEST_ADDR_CHAN_CAP <? Z.of_nat (H - T)) = (T <? oldest T H)%nat) as ->.
  { unfold oldest, ASMTEST_ADDR_CHAN_CAP, CAP. apply eq_true_iff_eq. rewrite Z.ltb_lt, Nat.ltb_lt. lia. }
  split; simpl; try done; rewrite ?app_nil_r.
  - intros ? _. apply Hb; done.
  - split; [done|]. intros [? _]%orb_false_iff. auto.
  - exists H, (oldest T H). split; simpl; try done.
    + destruct (Nat.ltb_spec T (oldest T H)); [|f_equal; unfold oldest in *; lia]. unfold u32. rewrite Zminus_mod_idemp_l.
      f_equal. unfold oldest, ASMTEST_ADDR_CHAN_CAP, CAP in *. lia.
    + unfold oldest, CAP in *. lia.
    + lia.
    + by rewrite Nat.sub_diag.
    + lia.
    + intros [_ Hlt%Nat.ltb_ge]%orb_false_iff. unfold oldest in *. lia.
Qed.

Lemma inv_test s T max h t got :
  inv s T → rd s = RTest max h t got → Z.of_nat (length (hist s)) < 2 ^ 32 →
  let '(q, c, out) := reader_step (rd s) (chan s) in ∃ T', inv (mk_sys c (wr s) q (hist s) (delivered s ++ out)) T'.
Proof.
  intros I Er Hf. assert (rd s ≠ RIdle) as Hrd by congruence. pose proof (i_rd _ _ I) as R. unfold reading in R.
  rewrite Er in R |- *. destruct R as (H & p & L). pose proof L as [Hh Ht Hp HH Hlive Hgot Hmax Hover].
  cbn [reader_step]. destruct (negb (t =? h) && (length got <? max)%nat) eqn:Ec.
  - apply andb_true_iff in Ec as [Et%negb_true_iff%Z.eqb_neq En%Nat.ltb_lt]. exists T. apply inv_reader; [done..|].
    assert (p < H)%nat as HpH by (destruct (decide (p = H)) as [->|]; [congruence|lia]).
    destruct (slot_read s T max h t got H p I Hrd L HpH) as (r & Hr & Er'). exists H, p, r.
    split_and!; [by eapply looping_at|done..|by rewrite Er'].
  - exists p. pose proof I as [Ihd Itl IT Il Is Ix Ib Io Ir].
    split; simpl; try done; try lia. by apply (looping_out s T max h t got H p).
Qed.

Lemma inv_read s s' T : inv s T → Z.of_nat (length (hist s)) < 2 ^ 32 → sys_step s Read = Some s' → ∃ T', inv s' T'.
Proof.
  intros I Hf E. unfold sys_step in E. destruct (decide (rd s = RIdle)) as [|Hrd]; [done|].
  pose proof (i_rd _ _ I) as R. unfold reading in R.
  destruct (rd s) as [|max|max h|max h t got|max h t got b|max h t got b n] eqn:Er; [done|..].
  - simpl in E. simplify_eq. exists T. apply inv_reader; [done|congruence|]. exists (length (hist s)). simpl.
    rewrite (i_head _ _ I). pose proof (i_T _ _ I). unfold oldest. split_and!; [done|lia..].
  - pose proof (inv_lap s T max h I Er Hf) as Q. rewrite Er in Q. destruct (reader_step _ _) as [[q c] out]. simplify_eq. by exists T.
  - pose proof (inv_test s T max h t got I Er Hf) as Q. rewrite Er in Q. destruct (reader_step _ _) as [[q c] out]. by simplify_eq.
  - destruct R as (H & p & r & L & Hp & Hm & Hr & Hb). simpl in E. simplify_eq. exists T. apply inv_reader; [done|congruence|].
    destruct (slot_read s T max h t got H p I ltac:(congruence) L Hp) as (r' & Hr' & Er'). simplify_eq.
    exists H, p, (ring_slot (chan s) t). split_and!; try done. by eapply looping_at.
  - destruct R as (H & p & r & L & Hp & Hm & Hr & Hb & Hn). simpl in E. simplify_eq. exists T.
    apply inv_reader; [done|congruence|].
    destruct (slot_read s T max h t got H p I ltac:(congruence) L Hp) as (r' & Hr' & Er'). simplify_eq.
    exists H, (S p). destruct L as [Lh Lt Lp LH Llive Lgot Lmax Lover]. split; simpl; try done.
    + rewrite Lt, u32_add_l. f_equal. lia.
    + lia.
    + rewrite (drop_take_step _ _ _ (ring_slot (chan s) t)) by (done || lia). rewrite Lgot. by destruct (ring_slot (chan s) t).
    + rewrite length_app. simpl. lia.
Qed.

Lemma hist_grows s a s' : sys_step s a = Some s' → (length (hist s) <= length (hist s'))%nat.
Proof.
  destruct a; simpl; case_decide; intros E; simplify_eq; try done.
  - destruct (writer_step _ _); simplify_eq. simpl. rewrite length_app. lia.
  - destruct (reader_step _ _) as [[? ?] ?]; by simplify_eq.
Qed.

Lemma reached_inv c s : length (slots c) = CAP → reached c s → Z.of_nat (length (hist s)) < 2 ^ 32 → ∃ T, inv s T.
Proof.
  intros Hl Hr. induction Hr as [|s a s' Hr IH Ha E]; intros Hf; [exists O; by apply inv_start|].
  pose proof (hist_grows s a s' E). destruct IH as [T I]; [lia|]. assert (Z.of_nat (length (hist s)) < 2 ^ 32) by lia.
  destruct a; [exists T; by eapply inv_begin|exists T; by eapply inv_write|exists T; by eapply inv_ask|by eapply inv_read].
Qed.

Definition in_flight (q : reader) : list addr_rec :=
  match q with
  | RTest _ _ _ got | RLen _ _ _ got _ | RVersion _ _ _ got _ _ => got
  | RIdle | RHead _ | RTail _ _ => []
  end.

Lemma copied_spec s T : inv s T → ∃ p, (p <= length (hist s))%nat ∧
  delivered s ++ in_flight (rd s) `sublist_of` take p (hist s) ∧
  (overrun (chan s) = false → delivered s ++ in_flight (rd s) = take p (hist s)).
Proof.
  intros I. pose proof (i_rd _ _ I) as R. unfold reading in R. pose proof (i_out _ _ I) as O. pose proof (i_T _ _ I).
  destruct (rd s); simpl; try (exists T; by rewrite app_nil_r).
  - destruct R as (H1 & p & L). exists p. split; [destruct L; lia|]. by eapply looping_out.
  - destruct R as (H1 & p & r & L & _). exists p. split; [destruct L; lia|]. by eapply looping_out.
  - destruct R as (H1 & p & r & L & _). exists p. split; [destruct L; lia|]. by eapply looping_out.
Qed.

(** C23: the channel under every interleaving of the two processes' single accesses to
    the shared ring (the four stores of a publication; a drain's load of [head], lap
    test, three loads per record and store of [tail]; in one total order), starting
    from a fresh channel, with fewer than 2{^32} publications, and as long as no drain
    overlaps a publication into a full ring (256 records past the stored [tail]; there
    a read can be torn, [channel_torn_read]).  At every moment, the drain in progress
    included, what the consumer has copied are published records, whole, in publication
    order and each at most once.  Unless the overrun flag is up they are all records up
    to the point read, none lost; and a drain about to return then has every record
    published when it loaded [head], up to its limit.  Run alone the accesses are the
    two operations ([writer_alone], [reader_alone]). *)
Theorem channel_interleaved_exact c s (Hlen : length (slots c) = CAP) (Hreach : reached c s)
    (Hfew : Z.of_nat (length (hist s)) < 2 ^ 32) :
  let copied := delivered s ++ in_flight (rd s) in
  copied `sublist_of` hist s ∧
  (overrun (chan s) = false → copied = take (length copied) (hist s)) ∧
  (∀ max h t got, rd s = RTest max h t got → overrun (chan s) = false → t = h ∨ length got = max →
     got = take max (drop (length (delivered s)) (take (Z.to_nat h) (hist s)))).
Proof.
  destruct (reached_inv c s Hlen Hreach Hfew) as [T I]. cbv zeta.
  destruct (copied_spec s T I) as (p & Hp & Hsub & Hex). split_and!.
  - etransitivity; [exact Hsub|apply sublist_take].
  - intros Ho. rewrite (Hex Ho), length_take, Nat.min_l by done. done.
  - intros max h t got Er Ho Hend. pose proof (i_rd _ _ I) as R. unfold reading in R. rewrite Er in R.
    destruct R as (H & q & [Lh Lt Lp LH Llive Lgot Lmax Lover]). rewrite (Lover Ho) in *.
    rewrite (proj2 (i_out _ _ I) Ho), length_take, Nat.min_l by (apply (i_T _ _ I)).
    assert (Z.to_nat h = H) as -> by (rewrite Lh; unfold u32; rewrite Z.mod_small by lia; lia).
    assert (length got = q - T)%nat as Eg by (rewrite Lgot, length_take, length_drop; lia).
    rewrite skipn_firstn_comm, take_take, Lgot. f_equal. destruct Hend as [Hend|Hend]; [|lia].
    assert (q = H) as -> by (rewrite Lh, Lt in Hend; unfold u32 in Hend; rewrite !Z.mod_small in Hend by lia; lia). lia.
Qed.

(** A drain that starts while a publication is being written, goes on while the
    next one is, and returns what was published when it loaded [head]; then both
    processes go on. *)
Definition overlapping : list act :=
  [Begin (mk_addr 4096 16 1); Write; Write; Write; Write; Begin (mk_addr 8192 32 2); Write; Ask 8; Write; Read; Read; Read;
   Write; Write; Begin (mk_addr 12288 48 3); Read; Write; Read].
Lemma channel_interleaved_exact_witness :
  ∃ s got, schedule overlapping (mk_sys (asmtest_addr_channel_init ring256) WIdle RIdle [] []) = Some s ∧
    hist s = [mk_addr 4096 16 1; mk_addr 8192 32 2] ∧ rd s = RTest 8 1 1 got ∧ got = [mk_addr 4096 16 1] ∧
    got `sublist_of` hist s.
Proof.
  do 2 eexists. split; [vm_compute; reflexivity|]. do 3 (split; [reflexivity|]).
  refine (proj1 (channel_interleaved_exact ring256 (mk_sys _ _ (RTest 8 1 1 _) _ []) eq_refl _ _)); [|vm_compute; reflexivity].
  apply (schedule_reached _ overlapping (mk_sys (asmtest_addr_channel_init ring256) WIdle RIdle [] []));
    [constructor|vm_compute; reflexivity].
Defined.

(** The slot a publication is being written into is live when 256 records are
    unread.  A drain that runs between the producer's first store and its last
    returns a record with the new base and the old length, which was never
    published, and does not raise the overrun flag. *)
Theorem channel_torn_read :
  let old := (λ i, mk_addr (4096 * i) 64 0) <$> seqZ 1 256 in
  let new := mk_addr 2097152 8 1 in
  let c := foldl asmtest_addr_channel_publish (asmtest_addr_channel_init ring256) old in
  let '(out, c') := asmtest_addr_channel_drain (store_base (a_base new) c) CAP in
  overrun c' = false ∧ ∃ r, out !! 0%nat = Some r ∧ r ∉ old ++ [new].
Proof.
  cbv zeta. set (old := _ <$> _).
  assert (let '(out, c') := asmtest_addr_channel_drain (store_base 2097152
     (foldl asmtest_addr_channel_publish (asmtest_addr_channel_init ring256) old)) CAP in
     overrun c' = false ∧ out !! 0%nat = Some (mk_addr 2097152 64 0)) as E by (vm_compute; done).
  cbn [a_base]. destruct (asmtest_addr_channel_drain _ _) as [out c']. destruct E as [E1 E2]. split; [done|].
  eexists. split; [done|]. apply (bool_decide_unpack _). vm_compute. exact I.
Qed.
End AddrChan.
