(* ===== verification/DfTarget.v ===== *)
(** What the live value-trace producer reads of a stopped target
    ([src/dataflow_ptrace.c], [src/xstate_hi16.h]): general-purpose registers by
    Capstone id, the vector registers out of the two register-set images, and
    memory through [process_vm_readv] with its [PEEKDATA] fallback.  A target at a
    stop is the value of the type [target]; every read below is a function of
    it. *)
From S2P Require Import Prelude Bytes RegSlice ValTrace DefUse.

Module DfTarget.
Import RegSlice ValTrace.

(** Capstone's ids that [src/dataflow.c] does not spell out. *)
Definition X86_REG_EFLAGS : Z := 25.
Definition X86_REG_FS : Z := 32.
Definition X86_REG_GS : Z := 33.
Definition X86_REG_RIP : Z := 41.
Definition X86_REG_XMM0 : Z := 122.
Definition X86_REG_YMM0 : Z := 154.
Definition X86_REG_ZMM0 : Z := 186.

(** [struct user_regs_struct], the fields the producer uses. *)
Record user_regs := mk_regs {
  rax : Z; rbx : Z; rcx : Z; rdx : Z; rsi : Z; rdi : Z; rbp : Z; rsp : Z;
  r8 : Z; r9 : Z; r10 : Z; r11 : Z; r12 : Z; r13 : Z; r14 : Z; r15 : Z;
  rip : Z; eflags : Z; fs_base : Z; gs_base : Z;
}.
Definition regs0 : user_regs := mk_regs 0 0 0 0 0 0 0 0 0 0 0 0 0 0 0 0 0 0 0 0.

Definition with_rip (r : user_regs) (x : Z) : user_regs :=
  mk_regs (rax r) (rbx r) (rcx r) (rdx r) (rsi r) (rdi r) (rbp r) (rsp r) (r8 r) (r9 r) (r10 r)
    (r11 r) (r12 r) (r13 r) (r14 r) (r15 r) x (eflags r) (fs_base r) (gs_base r).

Definition gp_value (r : user_regs) (reg : Z) : option Z :=
  if case_of reg [X86_REG_RAX; X86_REG_EAX; X86_REG_AX; X86_REG_AL; X86_REG_AH] then Some (rax r)
  else if case_of reg [X86_REG_RBX; X86_REG_EBX; X86_REG_BX; X86_REG_BL; X86_REG_BH] then Some (rbx r)
  else if case_of reg [X86_REG_RCX; X86_REG_ECX; X86_REG_CX; X86_REG_CL; X86_REG_CH] then Some (rcx r)
  else if case_of reg [X86_REG_RDX; X86_REG_EDX; X86_REG_DX; X86_REG_DL; X86_REG_DH] then Some (rdx r)
  else if case_of reg [X86_REG_RSI; X86_REG_ESI; X86_REG_SI; X86_REG_SIL] then Some (rsi r)
  else if case_of reg [X86_REG_RDI; X86_REG_EDI; X86_REG_DI; X86_REG_DIL] then Some (rdi r)
  else if case_of reg [X86_REG_RBP; X86_REG_EBP; X86_REG_BP; X86_REG_BPL] then Some (rbp r)
  else if case_of reg [X86_REG_RSP; X86_REG_ESP; X86_REG_SP; X86_REG_SPL] then Some (rsp r)
  else if case_of reg [X86_REG_R8; X86_REG_R8D; X86_REG_R8W; X86_REG_R8B] then Some (r8 r)
  else if case_of reg [X86_REG_R9; X86_REG_R9D; X86_REG_R9W; X86_REG_R9B] then Some (r9 r)
  else if case_of reg [X86_REG_R10; X86_REG_R10D; X86_REG_R10W; X86_REG_R10B] then Some (r10 r)
  else if case_of reg [X86_REG_R11; X86_REG_R11D; X86_REG_R11W; X86_REG_R11B] then Some (r11 r)
  else if case_of reg [X86_REG_R12; X86_REG_R12D; X86_REG_R12W; X86_REG_R12B] then Some (r12 r)
  else if case_of reg [X86_REG_R13; X86_REG_R13D; X86_REG_R13W; X86_REG_R13B] then Some (r13 r)
  else if case_of reg [X86_REG_R14; X86_REG_R14D; X86_REG_R14W; X86_REG_R14B] then Some (r14 r)
  else if case_of reg [X86_REG_R15; X86_REG_R15D; X86_REG_R15W; X86_REG_R15B] then Some (r15 r)
  else if case_of reg [X86_REG_RIP] then Some (rip r)
  else if case_of reg [X86_REG_EFLAGS] then Some (eflags r)
  else None.

Definition vec_width (reg : Z) : Z :=
  if (X86_REG_XMM0 <=? reg) && (reg <=? X86_REG_XMM0 + 31) then 16
  else if (X86_REG_YMM0 <=? reg) && (reg <=? X86_REG_YMM0 + 31) then 32
  else 0.

(** The bit slice of an alias: shift in bits, width in bytes. *)
Definition dfp_alias_shape (reg : Z) : option (Z * Z) :=
  if case_of reg
     [X86_REG_RAX; X86_REG_RBX; X86_REG_RCX; X86_REG_RDX; X86_REG_RSI; X86_REG_RDI; X86_REG_RBP;
      X86_REG_RSP; X86_REG_R8; X86_REG_R9; X86_REG_R10; X86_REG_R11; X86_REG_R12; X86_REG_R13;
      X86_REG_R14; X86_REG_R15; X86_REG_RIP; X86_REG_EFLAGS]
  then Some (0, 8)
  else if case_of reg
     [X86_REG_EAX; X86_REG_EBX; X86_REG_ECX; X86_REG_EDX; X86_REG_ESI; X86_REG_EDI; X86_REG_EBP;
      X86_REG_ESP; X86_REG_R8D; X86_REG_R9D; X86_REG_R10D; X86_REG_R11D; X86_REG_R12D;
      X86_REG_R13D; X86_REG_R14D; X86_REG_R15D]
  then Some (0, 4)
  else if case_of reg
     [X86_REG_AX; X86_REG_BX; X86_REG_CX; X86_REG_DX; X86_REG_SI; X86_REG_DI; X86_REG_BP;
      X86_REG_SP; X86_REG_R8W; X86_REG_R9W; X86_REG_R10W; X86_REG_R11W; X86_REG_R12W;
      X86_REG_R13W; X86_REG_R14W; X86_REG_R15W]
  then Some (0, 2)
  else if case_of reg
     [X86_REG_AL; X86_REG_BL; X86_REG_CL; X86_REG_DL; X86_REG_SIL; X86_REG_DIL; X86_REG_BPL;
      X86_REG_SPL; X86_REG_R8B; X86_REG_R9B; X86_REG_R10B; X86_REG_R11B; X86_REG_R12B;
      X86_REG_R13B; X86_REG_R14B; X86_REG_R15B]
  then Some (0, 1)
  else if case_of reg [X86_REG_AH; X86_REG_BH; X86_REG_CH; X86_REG_DH] then Some (8, 1)
  else None.

Definition dfp_alias_slice (container shift width : Z) : Z :=
  let v := Z.shiftr container shift in
  if width <? 8 then Z.land v (Z.shiftl 1 (width * 8) - 1) else v.

(** ** Where the upper sixteen vector registers are *)
Definition ASMTEST_HI16_STRIDE : Z := 64.
Definition ASMTEST_XCR0_AVX512 : Z := Z.lor (Z.lor (Z.shiftl 1 5) (Z.shiftl 1 6)) (Z.shiftl 1 7).

Definition asmtest_hi16_slot_offset (isa_avx512f : bool) (xcr0 comp_size comp_off : Z) : Z :=
  if negb isa_avx512f then 0
  else if negb (Z.land xcr0 ASMTEST_XCR0_AVX512 =? ASMTEST_XCR0_AVX512) then 0
  else if (comp_off =? 0) || (comp_size <? 16 * ASMTEST_HI16_STRIDE) then 0
  else comp_off.

(** ** The target at a stop

    What [PTRACE_GETREGS], [PTRACE_GETFPREGS] (the sixteen XMM registers and
    MXCSR) and [PTRACE_GETREGSET] (the XSAVE image delivered into the producer's
    buffer) answer, [None] being a refusal; the mapped bytes; whether
    [process_vm_readv] is allowed; and the machine's offset of zmm16. *)
Record target := mk_target {
  t_regs : option user_regs;
  t_fp : option (list Z * Z);
  t_xs : option (list Z);
  t_mem : gmap Z Z;
  t_pvm : bool;
  t_hi16 : Z;
}.

(** [n] bytes of a register-set image at [o]. *)
Definition part (img : list Z) (o n : Z) : list Z := take (Z.to_nat n) (drop (Z.to_nat o) img).

Definition dfp_read_hi16 (t : target) (idx n : Z) : option (list Z) :=
  if t_hi16 t =? 0 then None
  else match t_xs t with
       | None => None
       | Some xs =>
           let o := t_hi16 t + (idx - 16) * ASMTEST_HI16_STRIDE in
           if Z.of_nat (length xs) <? o + n then None else Some (part xs o n)
       end.

Definition read_xmm (t : target) (idx : Z) : option (list Z) :=
  if (idx <? 0) || (31 <? idx) then None
  else if 16 <=? idx then dfp_read_hi16 t idx 16
  else match t_fp t with Some (xmm, _) => Some (part xmm (idx * 16) 16) | None => None end.

(** The upper 128 bits of one of the low sixteen, zero when they were not
    delivered. *)
Definition ymm_high (t : target) (idx : Z) : list Z :=
  match t_xs t with
  | None => replicate 16 0
  | Some xs => let o := 576 + idx * 16 in
               if o + 16 <=? Z.of_nat (length xs) then part xs o 16 else replicate 16 0
  end.

Definition read_ymm (t : target) (idx : Z) : option (list Z) :=
  if (idx <? 0) || (31 <? idx) then None
  else if 16 <=? idx then dfp_read_hi16 t idx 32
  else match read_xmm t idx with
       | None => None
       | Some lo => Some (lo ++ ymm_high t idx)
       end.

(** The XMM file and MXCSR; [None] is the return 0. *)
Definition read_fpregs_all (t : target) : option (list (list Z) * Z) :=
  match t_fp t with
  | None => None
  | Some (xmm, mx) => Some ((λ i, part xmm (Z.of_nat i * 16) 16) <$> seq 0 16, mx)
  end.

(** [dfp_vecsnap_t] *)
Record vecsnap := mk_snap { have : bool; have_hi : bool; ymm : list (list Z) }.
Definition snap0 : vecsnap := mk_snap false false (replicate 32 (replicate 32 0)).

(** The register slots a failed read leaves unwritten are zero here; nothing
    reads them, as their flag is down. *)
Definition dfp_vecsnap (t : target) : vecsnap :=
  match t_fp t with
  | None => snap0
  | Some (xmm, _) =>
      let low := (λ i, part xmm (Z.of_nat i * 16) 16 ++ ymm_high t (Z.of_nat i)) <$> seq 0 16 in
      match t_xs t with
      | None => mk_snap true false (low ++ replicate 16 (replicate 32 0))
      | Some xs =>
          let hb := t_hi16 t in
          if negb (hb =? 0) && (hb + 16 * ASMTEST_HI16_STRIDE <=? Z.of_nat (length xs))
          then mk_snap true true
                 (low ++ ((λ i, part xs (hb + Z.of_nat i * ASMTEST_HI16_STRIDE) 32) <$> seq 0 16))
          else mk_snap true false (low ++ replicate 16 (replicate 32 0))
      end
  end.

(** ** Memory *)
(** The mapped bytes at [a], [a + 1], ...; all or nothing. *)
Definition mem_bytes (m : gmap Z Z) (a : Z) (n : nat) : option (list Z) :=
  mapM (λ i, m !! (a + Z.of_nat i)) (seq 0 n).

(** [PTRACE_PEEKDATA] of the aligned word at [al]. *)
Definition peekdata (t : target) (al : Z) : option (list Z) := mem_bytes (t_mem t) al 8.

(** The fallback loop, [rem] bytes before its end. *)
Fixpoint peek_loop (fuel : nat) (t : target) (a : Z) (rem : nat) : option (list Z) :=
  match fuel, rem with
  | _, O => Some []
  | O, _ => None
  | S fuel, _ =>
      let off := Z.to_nat (a mod 8) in
      match peekdata t (a - a mod 8) with
      | None => None
      | Some w =>
          let chunk := Nat.min (8 - off) rem in
          match peek_loop fuel t (a +64 Z.of_nat chunk) (rem - chunk) with
          | None => None
          | Some rest => Some (take chunk (drop off w) ++ rest)
          end
      end
  end.

Definition child_read (t : target) (addr : Z) (n : nat) : option (list Z) :=
  match (if t_pvm t then mem_bytes (t_mem t) addr n else None) with
  | Some bs => Some bs
  | None => peek_loop n t addr n
  end.

(** The longest readable prefix of at most [n] bytes; the empty list is the
    return 0. *)
Fixpoint dfp_read_insn_bytes (t : target) (at_ : Z) (n : nat) : list Z :=
  match n with
  | O => []
  | S n' => match child_read t at_ n with
            | Some bs => bs
            | None => dfp_read_insn_bytes t at_ n'
            end
  end.

(** ** Effective addresses *)
Definition resolve_ea (regs : user_regs) (r : at_val_rec) (insn_len : Z) : Z :=
  let ea := u64 (disp r) in
  let ea := if reg r =? X86_REG_GS then ea +64 gs_base regs
            else if reg r =? X86_REG_FS then ea +64 fs_base regs else ea in
  let ea := if base r =? 0 then ea
            else match gp_value regs (base r) with
                 | Some bv => let ea := ea +64 bv in
                              if base r =? X86_REG_RIP then ea +64 insn_len else ea
                 | None => ea
                 end in
  if (index r =? 0) || (scale r =? 0) then ea
  else match gp_value regs (index r) with
       | Some iv => ea +64 (iv *64 scale r)
       | None => ea
       end.

(** ** What a location holds

    The value of a location key of the def-use builder at a stop: a byte of
    memory, a byte of a general-purpose register, or a whole register that has no
    aliases. *)
Definition byte_of (v i : Z) : Z := v / 256 ^ i mod 256.

Definition reg_value (t : target) (reg : Z) : option Z :=
  if vec_width reg =? 16 then le <$> read_xmm t (reg - X86_REG_XMM0)
  else if vec_width reg =? 32 then le <$> read_ymm t (reg - X86_REG_YMM0)
  else t_regs t ≫= λ r, gp_value r reg.

Definition loc_value (t : target) (k : Z * Z) : option Z :=
  if k.1 =? DefUse.KMEM then t_mem t !! k.2
  else if k.1 =? DefUse.KSUB
  then (λ v, byte_of v (k.2 mod 256)) <$> (t_regs t ≫= λ r, gp_value r (k.2 / 256))
  else reg_value t k.2.

(** Registers are 64-bit numbers, images and memory hold bytes, addresses are
    64-bit. *)
Record target_ok (t : target) : Prop := {
  ok_regs r x v : t_regs t = Some r → gp_value r x = Some v → is_u64 v;
  ok_fp xmm mx : t_fp t = Some (xmm, mx) → length xmm = 256%nat ∧ Forall is_byte xmm;
  ok_xs xs : t_xs t = Some xs → Forall is_byte xs;
  ok_mem a b : t_mem t !! a = Some b → is_u64 a ∧ is_byte b;
  ok_hi16 : 0 <= t_hi16 t;
}.

(** ** Registers *)
Lemma gp_value_container r x c : reg_container x = Some c → gp_value r x = gp_value r c ∧ is_Some (gp_value r c).
Proof.
  unfold reg_container, gp_value at 1. intros H.
  repeat match type of H with
  | (if case_of x ?ids then _ else _) = _ => destruct (case_of x ids); [injection H as <-; by split; [|eexists]|]
  end. done.
Qed.

(** A sliced register is resolved by every switch of the producer. *)
Definition shape_ok (x : Z) : bool :=
  match reg_slice x with
  | Some (c, off, len) => bool_decide (dfp_alias_shape x = Some (8 * off, len) ∧ vec_width x = 0 ∧ 0 <= c < 2 ^ 32)
  | None => false
  end.
Lemma alias_shape_slice x c off len :
  reg_slice x = Some (c, off, len) →
  dfp_alias_shape x = Some (8 * off, len) ∧ vec_width x = 0 ∧ 0 <= c < 2 ^ 32 ∧ ∀ r, gp_value r x = gp_value r c ∧ is_Some (gp_value r c).
Proof.
  intros E. pose proof (reg_slice_spec x) as S. rewrite E in S. destruct S as (Hx & _).
  assert (shape_ok x = true) as Hs by (clear E; revert x Hx; apply gp_aliases_all; vm_compute; reflexivity).
  unfold shape_ok in Hs. rewrite E in Hs. apply bool_decide_eq_true in Hs as (? & ? & ?). split_and!; try done; try lia.
  intros r. unfold reg_slice in E. destruct (reg_container x) as [c'|] eqn:Ec; [|done].
  destruct (reg_shape x) as [[? ?]|]; [|done]. injection E as -> _ _. by apply gp_value_container.
Qed.

(** The registers without aliases that are read out of the integer file. *)
Lemma alias_shape_raw x sh w :
  reg_slice x = None → dfp_alias_shape x = Some (sh, w) → sh = 0 ∧ w = 8 ∧ (x = X86_REG_RIP ∨ x = X86_REG_EFLAGS).
Proof.
  intros E H. pose proof (reg_slice_spec x) as S. rewrite E in S. unfold dfp_alias_shape in H.
  repeat match type of H with
  | (if case_of x ?ids then _ else _) = _ =>
      let F := fresh "F" in destruct (case_of x ids) eqn:F;
      [apply case_of_In in F; injection H as <- <-; split_and!; try done; revert S F; clear; unfold gp_aliases; set_solver|clear F]
  end. done.
Qed.

Lemma byte_of_range v i : is_byte (byte_of v i).
Proof. unfold byte_of, is_byte. dlia. Qed.

(** Two containers that agree on an alias's slice agree on each of its bytes. *)
Lemma alias_slice_bytes a b off len j :
  is_u64 a → is_u64 b → 0 <= off → 1 <= len → off + len <= 8 → off <= j < off + len →
  dfp_alias_slice a (8 * off) len = dfp_alias_slice b (8 * off) len → byte_of a j = byte_of b j.
Proof.
  intros Ha Hb ? ? ? ? E.
  assert (∀ v, is_u64 v → dfp_alias_slice v (8 * off) len = v / 2 ^ (8 * off) mod 2 ^ (8 * len)) as S.
  { intros v Hv. unfold dfp_alias_slice. rewrite Z.shiftr_div_pow2 by lia. destruct (Z.ltb_spec len 8).
    - rewrite Z.shiftl_1_l, Z_ones_sub, Z.land_ones by lia. do 2 f_equal. lia.
    - rewrite Z.mod_small; [done|]. replace len with 8 by lia. replace off with 0 by lia. simpl (8 * 0).
      rewrite Z.pow_0_r, Z.div_1_r. exact Hv. }
  rewrite !S in E by done.
  assert (∀ v, byte_of v j = (v / 2 ^ (8 * off) mod 2 ^ (8 * len)) / 2 ^ (8 * (j - off)) mod 2 ^ 8) as B.
  { intros v. unfold byte_of. change 256 with (2 ^ 8). rewrite <-Z.pow_mul_r by lia.
    apply Z.bits_inj'. intros i Hi. rewrite <-!Z.land_ones, <-!Z.shiftr_div_pow2 by lia.
    rewrite !Z.land_spec, !Z.shiftr_spec, Z.land_spec, Z.shiftr_spec by lia.
    destruct (decide (i < 8)); [|rewrite !(Z.ones_spec_high 8 i) by lia; by rewrite !andb_false_r].
    rewrite !(Z.ones_spec_low 8 i), (Z.ones_spec_low (8 * len)) by lia. rewrite !andb_true_r. f_equal. lia. }
  by rewrite !B, E.
Qed.

(** ** Memory reads return the mapped bytes *)
Lemma mem_bytes_spec m a n bs :
  mem_bytes m a n = Some bs → length bs = n ∧ ∀ i, (i < n)%nat → m !! (a + Z.of_nat i) = bs !! i.
Proof.
  unfold mem_bytes. intros E. apply mapM_Some_1 in E. pose proof (Forall2_length _ _ _ E) as L. rewrite length_seq in L.
  split; [done|]. intros i Hi. destruct (lookup_lt_is_Some_2 bs i ltac:(lia)) as [b Hb]. rewrite Hb.
  eapply Forall2_lookup_lr in E; [|by apply lookup_seq_lt|exact Hb]. by rewrite Nat.add_0_l in E.
Qed.

Lemma peek_loop_spec t fuel a rem bs :
  target_ok t → is_u64 a → peek_loop fuel t a rem = Some bs →
  length bs = rem ∧ ∀ i, (i < rem)%nat → t_mem t !! (a +64 Z.of_nat i) = bs !! i.
Proof.
  intros Ht. revert a rem bs. induction fuel as [|fuel IH]; intros a [|rem] bs Ha; cbn [peek_loop].
  - intros [= <-]. split; [done|lia].
  - done.
  - intros [= <-]. split; [done|lia].
  - destruct (peekdata _ _) as [w|] eqn:Ew; [|done]. set (off := Z.to_nat (a mod 8)). set (c := Nat.min (8 - off) (S rem)).
    destruct (peek_loop fuel _ _ _) as [rest|] eqn:Er; [|done]. intros [= <-].
    apply mem_bytes_spec in Ew as [Lw Ew]. apply IH in Er as [Lr Er]; [|apply u64_range].
    assert (off < 8)%nat by (unfold off; dlia). assert (1 <= c <= 8 - off)%nat by lia.
    assert (length (take c (drop off w)) = c) as Lt by (rewrite length_take, length_drop; lia).
    split; [rewrite length_app; lia|]. intros i Hi. destruct (decide (i < c)%nat).
    + rewrite lookup_app_l, lookup_take_lt, lookup_drop by lia. rewrite <-Ew by lia.
      assert (a - a mod 8 + Z.of_nat (off + i) = a + Z.of_nat i) as -> by (unfold off; dlia).
      f_equal. apply u64_small. assert (is_Some (t_mem t !! (a - a mod 8 + Z.of_nat 7))) as [b Hb]
        by (rewrite Ew by lia; apply lookup_lt_is_Some; lia).
      apply ok_mem in Hb as [Hb _]; [|done]. unfold is_u64 in *. assert (Z.of_nat (off + i) <= 7) by lia. unfold off in *. dlia.
    + rewrite lookup_app_r by lia. rewrite Lt, <-Er by lia. f_equal. rewrite u64_add_l. f_equal. lia.
Qed.

Lemma child_read_spec t a n bs :
  target_ok t → is_u64 a → child_read t a n = Some bs →
  length bs = n ∧ ∀ i, (i < n)%nat → t_mem t !! (a +64 Z.of_nat i) = bs !! i.
Proof.
  intros Ht Ha. unfold child_read. destruct (if t_pvm t then _ else None) as [bs'|] eqn:E.
  - intros [= <-]. destruct (t_pvm t); [|done]. apply mem_bytes_spec in E as [L E]. split; [done|]. intros i Hi.
    rewrite <-E by done. f_equal. apply u64_small. destruct (lookup_lt_is_Some_2 bs' i ltac:(lia)) as [b Hb].
    rewrite <-E in Hb by done. by apply (ok_mem t Ht) in Hb as [? _].
  - by apply peek_loop_spec.
Qed.

(** ** A snapshot of the vector file is what the single reads return *)
Lemma part_take img o n m : 0 <= m <= n → take (Z.to_nat m) (part img o n) = part img o m.
Proof. intros. unfold part. rewrite take_take. f_equal. lia. Qed.

Lemma vecsnap_hi t xs :
  have_hi (dfp_vecsnap t) = true → t_xs t = Some xs →
  t_hi16 t ≠ 0 ∧ t_hi16 t + 16 * ASMTEST_HI16_STRIDE <= Z.of_nat (length xs).
Proof.
  unfold dfp_vecsnap. intros H E. destruct (t_fp t) as [[xmm mx]|]; [|done]. rewrite E in H.
  destruct (_ && _) eqn:Hc; [|done]. apply andb_true_iff in Hc as [Hc ?]. lia.
Qed.

Lemma vecsnap_row t idx :
  have (dfp_vecsnap t) = true → 0 <= idx <= 31 → (16 <= idx → have_hi (dfp_vecsnap t) = true) →
  ∃ xmm mx, t_fp t = Some (xmm, mx) ∧
  ymm (dfp_vecsnap t) !! Z.to_nat idx = Some
    (if 16 <=? idx then part (default [] (t_xs t)) (t_hi16 t + (idx - 16) * ASMTEST_HI16_STRIDE) 32
     else part xmm (idx * 16) 16 ++ ymm_high t idx).
Proof.
  intros Hh Hi Hhi. unfold dfp_vecsnap in *. destruct (t_fp t) as [[xmm mx]|] eqn:Ef; [|done].
  exists xmm, mx. split; [done|]. set (low := fmap _ _) in *.
  assert (length low = 16%nat) as L by (unfold low; by rewrite length_fmap, length_seq).
  assert (idx < 16 → ∀ hi, (low ++ hi) !! Z.to_nat idx = Some (part xmm (idx * 16) 16 ++ ymm_high t idx)) as Hlow.
  { intros ? hi. rewrite lookup_app_l by lia. unfold low. rewrite list_lookup_fmap, lookup_seq_lt by lia. simpl.
    by rewrite Z2Nat.id by lia. }
  destruct (Z.leb_spec 16 idx) as [Hge|Hlt].
  - specialize (Hhi Hge). destruct (t_xs t) as [xs|]; [|done]. destruct (_ && _); [|done]. cbn [ymm default].
    rewrite lookup_app_r, L, list_lookup_fmap, lookup_seq_lt by lia. simpl. do 4 f_equal. lia.
  - destruct (t_xs t) as [xs|]; [|by apply Hlow]. destruct (_ && _); by apply Hlow.
Qed.

Lemma length_ymm_high t idx : 0 <= idx → length (ymm_high t idx) = 16%nat.
Proof.
  intros. unfold ymm_high. destruct (t_xs t) as [xs|]; [|apply length_replicate].
  destruct (Z.leb_spec (576 + idx * 16 + 16) (Z.of_nat (length xs))); [|apply length_replicate].
  unfold part. rewrite length_take, length_drop. lia.
Qed.

(** The first [w] bytes of a row of a usable snapshot are the register. *)
Lemma vecsnap_read t x w idx row :
  target_ok t → vec_width x = w → w ≠ 0 → idx = x - (if w =? 16 then X86_REG_XMM0 else X86_REG_YMM0) →
  have (dfp_vecsnap t) = true → (16 <= idx → have_hi (dfp_vecsnap t) = true) →
  ymm (dfp_vecsnap t) !! Z.to_nat idx = Some row → reg_value t x = Some (le (take (Z.to_nat w) row)).
Proof.
  intros Ht Hw Hw0 Hidx Hh Hhi Hrow. unfold reg_value. rewrite Hw.
  assert (0 <= idx <= 31 ∧ (w = 16 ∨ w = 32)) as [Hi Hww].
  { unfold vec_width in Hw. destruct (_ && _) eqn:E1 in Hw; [subst w; simpl in Hidx; lia|].
    destruct (_ && _) eqn:E2 in Hw; [subst w; simpl in Hidx; lia|done]. }
  destruct (vecsnap_row t idx Hh Hi Hhi) as (xmm & mx & Ef & Er). rewrite Er in Hrow. injection Hrow as <-.
  destruct (ok_fp t Ht xmm mx Ef) as [Lx _]. unfold read_ymm, read_xmm, dfp_read_hi16.
  destruct (Z.leb_spec 16 idx) as [Hge|Hlt].
  - specialize (Hhi Hge). assert (is_Some (t_xs t)) as [xs Exs].
    { unfold dfp_vecsnap in Hhi. rewrite Ef in Hhi. destruct (t_xs t); [by eexists|done]. }
    pose proof (vecsnap_hi t xs Hhi Exs) as [Hz Hl]. rewrite Exs. unfold ASMTEST_HI16_STRIDE in *.
    destruct Hww as [-> | ->]; cbn [Z.eqb Pos.eqb] in *; rewrite <-!Hidx;
      destruct (Z.ltb_spec idx 0), (Z.ltb_spec 31 idx), (Z.leb_spec 16 idx), (Z.eqb_spec (t_hi16 t) 0); try lia; simpl orb; cbv iota;
      match goal with |- context [?a <? ?b] => destruct (Z.ltb_spec a b); [lia|] end; cbn [fmap option_fmap option_map default];
      by rewrite part_take by lia.
  - destruct Hww as [-> | ->]; cbn [Z.eqb Pos.eqb] in *; rewrite <-!Hidx;
      destruct (Z.ltb_spec idx 0), (Z.ltb_spec 31 idx), (Z.leb_spec 16 idx); try lia; simpl orb; cbv iota; rewrite Ef;
      cbn [fmap option_fmap option_map]; do 2 f_equal;
      (assert (length (part xmm (idx * 16) 16) = 16%nat) as L by (unfold part; rewrite length_take, length_drop; lia)).
    + by rewrite take_app_le, take_ge by lia.
    + rewrite take_ge; [done|]. rewrite length_app, L, length_ymm_high by lia. lia.
Qed.
End DfTarget.
