(* ===== verification/DfStep.v ===== *)
(** One step of the live value-trace producer ([src/dataflow_ptrace.c]): an
    instruction is opened at its own stop, where its reads are measured, and
    finalized at the next one, where its writes are; the at-risk set of the
    locations recorded as written; and the barrier step that closes an excursion
    into code that is not recorded. *)
From S2P Require Import Prelude Bytes Grow RegSlice ValTrace DefUse DfTarget.

Module DfStep.
Import RegSlice ValTrace DfTarget.

(** ** State *)
Definition DFP_WIN_RISK_REGS : nat := 96.
Definition DFP_WIN_RISK_BYTES : nat := 4096.

(** A tracked byte: its address, its value at the last gap entry and whether that
    read succeeded ([addrs[i]], [snap[i]], [snapok[i]]). *)
Record risk_byte := mk_byte { b_addr : Z; b_snap : Z; b_ok : bool }.

(** [dfp_riskset] *)
Record riskset := mk_risk {
  risk_regs : list Z; risk_bytes : list risk_byte; overflow : bool; overflow_pending : bool;
}.
Definition risk0 : riskset := mk_risk [] [] false false.

(** What does not change while a capture runs: the code snapshot and its base,
    the window flag, whether the tracee is a process that must survive, and the
    code image queried at a fixed time. *)
Record config := mk_config {
  c_code : list Z; c_base : Z; win_mode : bool; foreign : bool; pre_positioned : bool;
  c_img : option (Z → option (list Z));
}.

(** [dfp_ctx]: the sink, the open step ([have_cur], [cur_off], [cur], its
    capacity), the stashed pre-state, the at-risk set and the counters. *)
Record ctx := mk_ctx {
  vt : asmtest_valtrace;
  have_cur : bool; cur_off : Z; cur : list at_val_rec; cur_cap : Z;
  cur_regs : user_regs; cur_vec : option (list (list Z) * Z);
  risk : riskset; win_decode_fail : Z; detach_sig : Z;
}.
Definition ctx_of (v : asmtest_valtrace) : ctx := mk_ctx v false 0 [] 0 regs0 None risk0 0 0.

Definition set_vt (c : ctx) (v : asmtest_valtrace) : ctx :=
  mk_ctx v (have_cur c) (cur_off c) (cur c) (cur_cap c) (cur_regs c) (cur_vec c) (risk c)
    (win_decode_fail c) (detach_sig c).
Definition set_risk (c : ctx) (r : riskset) : ctx :=
  mk_ctx (vt c) (have_cur c) (cur_off c) (cur c) (cur_cap c) (cur_regs c) (cur_vec c) r
    (win_decode_fail c) (detach_sig c).
Definition set_cur (c : ctx) (l : list at_val_rec) (cap : Z) : ctx :=
  mk_ctx (vt c) (have_cur c) (cur_off c) l cap (cur_regs c) (cur_vec c) (risk c)
    (win_decode_fail c) (detach_sig c).

(** [vt->truncated = true] *)
Definition vt_flag (v : asmtest_valtrace) : asmtest_valtrace :=
  mk_vt (insn_off v) (steps_cap v) (steps_total v) (regfile v) (regfile_fp v) (recs v) (recs_cap v)
    (recs_total v) (wide_buf v) (wide_cap v) true (mem_space v).
Definition flag (c : ctx) : ctx := set_vt c (vt_flag (vt c)).

(** [vt->mem_space = AT_LOC_MEM_ABS] *)
Definition abs_space (v : asmtest_valtrace) : asmtest_valtrace :=
  mk_vt (insn_off v) (steps_cap v) (steps_total v) (regfile v) (regfile_fp v) (recs v) (recs_cap v)
    (recs_total v) (wide_buf v) (wide_cap v) (vtruncated v) AT_LOC_MEM_ABS.

(** ** The record buffer of the open step *)
Definition recbuf_push (grant : allocator) (l : list at_val_rec) (cap : Z) (r : at_val_rec) :
    list at_val_rec * Z :=
  let n := Z.of_nat (length l) in
  if n =? cap then
    match asmtest_grow grant cap (n + 1) sizeof_val_rec with
    | Some cap' => (l ++ [r], cap')
    | None => (l, cap)
    end
  else (l ++ [r], cap).

(** ** The at-risk set *)
(** [dfp_risk_flag]: the set and whether the trace is flagged at once. *)
Definition dfp_risk_flag (cfg : config) (c : ctx) : ctx :=
  let r := risk c in
  if win_mode cfg
  then flag (set_risk c (mk_risk (risk_regs r) (risk_bytes r) true (overflow_pending r)))
  else set_risk c (mk_risk (risk_regs r) (risk_bytes r) true true).

(** The lower bound of [a] in the sorted addresses: [lo], [hi] of the search. *)
Fixpoint lower_bound (fuel : nat) (l : list risk_byte) (a : Z) (lo hi : nat) : nat :=
  match fuel with
  | O => lo
  | S fuel =>
      if (lo <? hi)%nat then
        let mid := (lo + (hi - lo) / 2)%nat in
        if b_addr (nth mid l (mk_byte 0 0 false)) <? a then lower_bound fuel l a (S mid) hi
        else lower_bound fuel l a lo mid
      else lo
  end.

(** One byte of a memory write: [None] is the early return at the cap. *)
Definition risk_add_byte (l : list risk_byte) (a : Z) : option (list risk_byte) :=
  let lo := lower_bound (S (length l)) l a 0 (length l) in
  if match l !! lo with Some b => b_addr b =? a | None => false end then Some l
  else if (length l =? DFP_WIN_RISK_BYTES)%nat then None
  else Some (take lo l ++ mk_byte a 0 false :: drop lo l).

Fixpoint risk_add_bytes (l : list risk_byte) (addr : list Z) : list risk_byte * bool :=
  match addr with
  | [] => (l, true)
  | a :: addr => match risk_add_byte l a with
                 | Some l => risk_add_bytes l addr
                 | None => (l, false)
                 end
  end.

Definition dfp_risk_add (cfg : config) (c : ctx) (r : at_val_rec) : ctx :=
  if negb (is_write r) then c
  else
    let s := risk c in
    match kind r with
    | AT_LOC_REG =>
        if case_of (reg r) (risk_regs s) then c
        else if (length (risk_regs s) =? DFP_WIN_RISK_REGS)%nat then dfp_risk_flag cfg c
        else set_risk c (mk_risk (risk_regs s ++ [reg r]) (risk_bytes s) (overflow s) (overflow_pending s))
    | _ =>
        if (size r =? 0) || (64 <? size r) then dfp_risk_flag cfg c
        else
          let '(l, ok) := risk_add_bytes (risk_bytes s) (DefUse.bytes_from (addr r) (size r)) in
          let c := set_risk c (mk_risk (risk_regs s) l (overflow s) (overflow_pending s)) in
          if ok then c else dfp_risk_flag cfg c
    end.

(** ** Values *)
Definition set_value (r : at_val_rec) (v : Z) : at_val_rec :=
  mk_rec (kind r) (reg r) (base r) (index r) (scale r) (disp r) (addr r) (size r)
    (is_write r) true (wide r) (wide_off r) v (rstep r).
Definition set_size (r : at_val_rec) (n : Z) : at_val_rec :=
  mk_rec (kind r) (reg r) (base r) (index r) (scale r) (disp r) (addr r) n
    (is_write r) (value_valid r) (wide r) (wide_off r) (value r) (rstep r).
Definition set_wide (r : at_val_rec) (off : Z) : at_val_rec :=
  mk_rec (kind r) (reg r) (base r) (index r) (scale r) (disp r) (addr r) (size r)
    (is_write r) true true (u32 off) (value r) (rstep r).
Definition no_value (r : at_val_rec) : at_val_rec :=
  mk_rec (kind r) (reg r) (base r) (index r) (scale r) (disp r) (addr r) (size r)
    (is_write r) false (wide r) (wide_off r) (value r) (rstep r).

(** The tail both fills share: stash the bytes and point the record at them. *)
Definition stash (v : asmtest_valtrace) (r : at_val_rec) (bs : list Z) : asmtest_valtrace * at_val_rec :=
  match asmtest_valtrace_stash_wide (Some v) bs with
  | (off, Some v') => if off =? SIZE_MAX then (v', r) else (v', set_wide r off)
  | (_, None) => (v, r)
  end.

Definition fill_reg_value (v : asmtest_valtrace) (t : target) (regs : user_regs) (r : at_val_rec) :
    asmtest_valtrace * at_val_rec :=
  let w := vec_width (reg r) in
  if w =? 0 then
    match gp_value regs (reg r) with
    | Some x => (v, set_value r x)
    | None => (v, r)
    end
  else
    let r := set_size r w in
    match (if w =? 16 then read_xmm t (reg r - X86_REG_XMM0) else read_ymm t (reg r - X86_REG_YMM0)) with
    | None => (v, r)
    | Some buf => if w <=? 8 then (v, set_value r (le buf)) else stash v r buf
    end.

Definition fill_mem_value (v : asmtest_valtrace) (t : target) (r : at_val_rec) :
    asmtest_valtrace * at_val_rec :=
  let sz := size r in
  if (sz =? 0) || (32 <? sz) then (v, r)
  else match child_read t (addr r) (Z.to_nat sz) with
       | None => (v, r)
       | Some buf => if sz <=? 8 then (v, set_value r (le buf)) else stash v r buf
       end.

(** ** Appending a step *)
Definition dfp_map_regfile (c : ctx) (pre : option user_regs) : asmtest_regfile :=
  match pre with
  | None => regfile0
  | Some p =>
      let '(xmm, mx, hv) := match cur_vec c with
                            | Some (x, m) => (x, m, true)
                            | None => (ValTrace.xmm regfile0, 0, false)
                            end in
      mk_regfile [rax p; rbx p; rcx p; rdx p; rsi p; rdi p; rbp p; rsp p; r8 p; r9 p; r10 p; r11 p;
                  r12 p; r13 p; r14 p; r15 p; rip p; eflags p] xmm mx hv
  end.

Definition set_regfile (v : asmtest_valtrace) (f : option (list asmtest_regfile)) : asmtest_valtrace :=
  mk_vt (insn_off v) (steps_cap v) (steps_total v) f (regfile_fp v) (recs v) (recs_cap v)
    (recs_total v) (wide_buf v) (wide_cap v) (vtruncated v) (mem_space v).

Definition dfp_append_step (c : ctx) (off : Z) (rs : list at_val_rec) (pre : option user_regs) : ctx :=
  let before := steps_len (vt c) in
  let v := append (vt c) off rs in
  match regfile v with
  | Some f => if (steps_len v =? S before)%nat
              then set_vt c (set_regfile v (Some (<[before := dfp_map_regfile c pre]> f)))
              else set_vt c v
  | None => set_vt c v
  end.

(** ** Opening and finalizing a step

    [operands bytes off] is the operand enumerator of [src/dataflow_operands.c]
    over Capstone: the instruction's length (0 when the bytes do not decode), its
    reads and its writes, at most 64 of each. *)
Section step.
Context (grant : allocator) (cfg : config).
Context (operands : list Z → Z → Z * list at_val_rec * list at_val_rec).

(** The deferred write of one record, measured at the next stop. *)
Definition fill_write (t : target) (regs : user_regs) (st : asmtest_valtrace * list at_val_rec)
    (r : at_val_rec) : asmtest_valtrace * list at_val_rec :=
  let '(v, acc) := st in
  if negb (is_write r) || value_valid r then (v, acc ++ [r])
  else match kind r with
       | AT_LOC_REG => let '(v, r) := fill_reg_value v t regs r in (v, acc ++ [r])
       | _ => let '(v, r) := fill_mem_value v t r in (v, acc ++ [r])
       end.

(** [have_cur = 0; cur.n = 0; cur_has_vec = 0] *)
Definition close_cur (c : ctx) : ctx :=
  mk_ctx (vt c) false (cur_off c) [] (cur_cap c) (cur_regs c) None (risk c) (win_decode_fail c)
    (detach_sig c).

Definition finalize_step (c : ctx) (t : target) (regs : user_regs) : ctx :=
  let '(v, l) := foldl (fill_write t regs) (vt c, []) (cur c) in
  let c := set_cur (set_vt c v) l (cur_cap c) in
  let c := foldl (dfp_risk_add cfg) c l in
  close_cur (dfp_append_step c (cur_off c) (cur c) (Some (cur_regs c))).

Definition push_cur (c : ctx) (r : at_val_rec) : ctx :=
  let '(l, cap) := recbuf_push grant (cur c) (cur_cap c) r in set_cur c l cap.

(** A read, measured in the pre-state. *)
Definition open_read (t : target) (regs : user_regs) (len : Z) (c : ctx) (r : at_val_rec) : ctx :=
  let '(v, r) := match kind r with
                 | AT_LOC_REG => fill_reg_value (vt c) t regs r
                 | _ => fill_mem_value (vt c) t (with_addr r (resolve_ea regs r len))
                 end in
  push_cur (set_vt c v) r.

(** A write: its address comes from the pre-state, its value later. *)
Definition open_write (regs : user_regs) (len : Z) (c : ctx) (r : at_val_rec) : ctx :=
  let r := no_value r in
  push_cur c (match kind r with AT_LOC_REG => r | _ => with_addr r (resolve_ea regs r len) end).

(** The bytes the instruction is decoded from, with the offset of the
    instruction in them; [None] is a window address that cannot be read. *)
Definition decode_source (t : target) (off : Z) : option (list Z * Z) :=
  let src := if win_mode cfg then
               match dfp_read_insn_bytes t (c_base cfg +64 off) 16 with
               | [] => None
               | bs => Some (bs, 0)
               end
             else Some (c_code cfg, off) in
  match src with
  | None => None
  | Some s => match c_img cfg with
              | Some bytes_at => match bytes_at (c_base cfg +64 off) with
                                 | Some (b :: bs) => Some (b :: bs, 0)
                                 | _ => Some s
                                 end
              | None => Some s
              end
  end.

Definition decode_failed (c : ctx) : ctx :=
  flag (mk_ctx (vt c) (have_cur c) (cur_off c) (cur c) (cur_cap c) (cur_regs c) (cur_vec c) (risk c)
          (win_decode_fail c + 1) (detach_sig c)).

Definition open_step (c : ctx) (t : target) (regs : user_regs) (off : Z) : ctx :=
  let armed := if regfile (vt c) is Some _ then true else false in
  let vec := if armed && regfile_fp (vt c) then read_fpregs_all t else None in
  let c := mk_ctx (vt c) true off [] (cur_cap c) (if armed then regs else cur_regs c) vec (risk c)
             (win_decode_fail c) (detach_sig c) in
  match decode_source t off with
  | None => decode_failed c
  | Some (dec, dec_off) =>
      let '(insn_len, rd, wr) := operands dec dec_off in
      if win_mode cfg && (insn_len =? 0) then decode_failed c
      else foldl (open_write regs insn_len) (foldl (open_read t regs insn_len) c rd) wr
  end.
End step.

(** ** The gap barrier *)
Definition risk_snap_byte (t : target) (b : risk_byte) : risk_byte :=
  match child_read t (b_addr b) 1 with
  | Some [x] => mk_byte (b_addr b) x true
  | _ => mk_byte (b_addr b) 0 false
  end.
Definition dfp_risk_snap (c : ctx) (t : target) : ctx :=
  let s := risk c in
  set_risk c (mk_risk (risk_regs s) (risk_snap_byte t <$> risk_bytes s) (overflow s) (overflow_pending s)).

(** A zeroed write record. *)
Definition gap_rec (k : at_loc_kind) (reg addr size value : Z) : at_val_rec :=
  mk_rec k reg 0 0 0 0 addr size true true false 0 value 0.

(** One at-risk register: the sink and the record when the glue changed it. *)
Definition gap_reg (pre post : user_regs) (vpre vpost : vecsnap) (v : asmtest_valtrace) (reg : Z) :
    asmtest_valtrace * option at_val_rec :=
  let w := vec_width reg in
  if w =? 0 then
    match gp_value pre reg, gp_value post reg, dfp_alias_shape reg with
    | Some a, Some b, Some (shift, width) =>
        if dfp_alias_slice a shift width =? dfp_alias_slice b shift width then (v, None)
        else (v, Some (gap_rec AT_LOC_REG reg 0 width b))
    | _, _, _ => (vt_flag v, None)
    end
  else
    let idx := reg - (if w =? 16 then X86_REG_XMM0 else X86_REG_YMM0) in
    let hi := 16 <=? idx in
    if (idx <? 0) || (31 <? idx) || negb (have vpre) || negb (have vpost)
       || (hi && (negb (have_hi vpre) || negb (have_hi vpost)))
    then (vt_flag v, None)
    else
      let a := take (Z.to_nat w) (nth (Z.to_nat idx) (ymm vpre) []) in
      let b := take (Z.to_nat w) (nth (Z.to_nat idx) (ymm vpost) []) in
      if bool_decide (a = b) then (v, None)
      else match asmtest_valtrace_stash_wide (Some v) b with
           | (off, Some v') =>
               if off =? SIZE_MAX then (vt_flag v', None)
               else (v', Some (set_wide (gap_rec AT_LOC_REG reg 0 w 0) off))
           | (_, None) => (v, None)
           end.

Definition gap_regs (pre post : user_regs) (vpre vpost : vecsnap) (v : asmtest_valtrace) (l : list Z) :
    asmtest_valtrace * list at_val_rec :=
  foldl (λ '(v, acc) reg,
           if (length acc <? DFP_WIN_RISK_REGS)%nat then
             let '(v, r) := gap_reg pre post vpre vpost v reg in (v, acc ++ option_list r)
           else (v, acc)) (v, []) l.

(** The bytes of the barrier, first into the batch of the registers, then into a
    second one of 64. *)
Fixpoint gap_mem (t : target) (v : asmtest_valtrace) (recs mrecs : list at_val_rec) (l : list risk_byte) :
    asmtest_valtrace * list at_val_rec * list at_val_rec :=
  match l with
  | [] => (v, recs, mrecs)
  | b :: l =>
      match (if b_ok b then child_read t (b_addr b) 1 else None) with
      | Some [now] =>
          if now =? b_snap b then gap_mem t v recs mrecs l
          else
            let r := gap_rec AT_LOC_MEM_ABS 0 (b_addr b) 1 now in
            if (length recs <? DFP_WIN_RISK_REGS)%nat then gap_mem t v (recs ++ [r]) mrecs l
            else if (length mrecs <? 64)%nat then gap_mem t v recs (mrecs ++ [r]) l
            else (vt_flag v, recs, mrecs)
      | _ => gap_mem t (vt_flag v) recs mrecs l
      end
  end.

(** The context and the steps and records appended. *)
Definition dfp_emit_gap (c : ctx) (t : target) (pre post : user_regs) (vpre vpost : vecsnap) (gap_pc : Z) :
    ctx * Z * Z :=
  let '(v, rs) := gap_regs pre post vpre vpost (vt c) (risk_regs (risk c)) in
  let '(v, rs, mrs) := gap_mem t v rs [] (risk_bytes (risk c)) in
  let c := set_vt c v in
  match rs, mrs with
  | [], [] => (c, 0, 0)
  | _, _ =>
      let c := dfp_append_step c gap_pc rs (Some pre) in
      match mrs with
      | [] => (c, 1, Z.of_nat (length rs))
      | _ => (dfp_append_step c gap_pc mrs (Some pre), 2, Z.of_nat (length rs + length mrs))
      end
  end.
End DfStep.
