(* ===== verification/DfWindow.v ===== *)
(** The step loops of the live value-trace producer ([src/dataflow_ptrace.c]):
    the scoped one ([dfp_step_loop], with the call-out step-over) and the windowed
    survey ([dfp_window_loop]), over a script of what the kernel answers.  Then
    what the recorded stream is worth: an edge of the graph built from it never
    crosses a change it does not show. *)
From S2P Require Import Prelude Bytes Grow RegSlice ValTrace LwMap DefUse DfTarget DfStep AddrChan.

Module DfWindow.
Import RegSlice ValTrace DfTarget DfStep AddrChan.

Definition DF_PTRACE_OK : Z := 0.
Definition DF_PTRACE_FAULT : Z := 1.
Definition DF_PTRACE_EINVAL : Z := -1.
Definition DF_PTRACE_ETRACE : Z := -4.
Definition DFP_STEP_BACKSTOP : Z := 2 ^ 20.

Definition SIGILL : Z := 4.
Definition SIGTRAP : Z := 5.
Definition SIGBUS : Z := 7.
Definition SIGFPE : Z := 8.
Definition SIGSEGV : Z := 11.
Definition SI_KERNEL : Z := 128.
Definition TRAP_HWBKPT : Z := 4.

(** ** The kernel

    One event per answer.  A [PTRACE_SINGLESTEP] or [PTRACE_CONT] that fails, a
    [waitpid] that is interrupted, fails, reports the end of the target, something
    that is no stop, a stop for another signal, or a trap: with the [si_code] if
    [GETSIGINFO] gives one, the target at the stop, and the regions it published
    on the channel since the last one.  [EvPoke] and [EvSetRegs] answer the
    requests around a breakpoint, [EvStopReq] is the caller's stop flag found set
    at the top of the loop. *)
Inductive event :=
  | EvReqFail | EvWaitIntr | EvWaitFail | EvGone | EvNoStop | EvStop (sig : Z)
  | EvTrap (si : option Z) (t : target) (pubs : list addr_rec)
  | EvPoke (ok : bool) | EvSetRegs (ok : bool) | EvStopReq.

Definition dfp_sigtrap_is_app (si : option Z) : bool :=
  match si with Some code => (code =? SI_KERNEL) || (code =? TRAP_HWBKPT) | None => false end.

Definition fatal_signal (sig : Z) : bool :=
  (sig =? SIGSEGV) || (sig =? SIGBUS) || (sig =? SIGILL) || (sig =? SIGFPE).

(** How a loop ended: the return code, the context, [*result], [*left_stopped],
    and whether the tracee was killed. *)
Record outcome := mk_outcome {
  o_rc : Z; o_ctx : ctx; o_result : option Z; o_left : bool; o_killed : bool;
}.

Definition set_detach_sig (c : ctx) (sig : Z) : ctx :=
  mk_ctx (vt c) (have_cur c) (cur_off c) (cur c) (cur_cap c) (cur_regs c) (cur_vec c) (risk c)
    (win_decode_fail c) sig.
Definition dfp_dirty_exit (cfg : config) (c : ctx) (code fatal_sig : Z) : outcome :=
  if foreign cfg then mk_outcome code (set_detach_sig c fatal_sig) None true false
  else mk_outcome code c None false true.

(** [have_cur = 0] *)
Definition drop_cur (c : ctx) : ctx :=
  mk_ctx (vt c) false (cur_off c) (cur c) (cur_cap c) (cur_regs c) (cur_vec c) (risk c)
    (win_decode_fail c) (detach_sig c).
(** An open step appended as it is, its writes unmeasured. *)
Definition append_open (c : ctx) : ctx :=
  drop_cur (dfp_append_step c (cur_off c) (cur c) (Some (cur_regs c))).

Section loops.
Context (grant : allocator) (cfg : config).
Context (operands : list Z → Z → Z * list at_val_rec * list at_val_rec).

Abbreviation finalize := (finalize_step cfg).
Abbreviation open := (open_step grant cfg operands).

Definition finalize_open (c : ctx) (t : target) (regs : user_regs) : ctx :=
  if have_cur c then finalize c t regs else c.

(** The target's own trap: the open step is finalized or dropped, the capture
    ends. *)
Definition app_trap (c : ctx) (t : target) : outcome :=
  let c := if have_cur c then
             match t_regs t with
             | Some regs => drop_cur (finalize c t regs)
             | None => drop_cur (set_cur c [] (cur_cap c))
             end
           else c in
  dfp_dirty_exit cfg (flag c) DF_PTRACE_FAULT SIGTRAP.

(** ** Breakpoint and continue *)
(** Eight bytes of memory replaced, as [PTRACE_POKETEXT] does. *)
Definition poke_word (t : target) (a : Z) (bs : list Z) : target :=
  mk_target (t_regs t) (t_fp t) (t_xs t) (foldr (λ '(i, b) m, <[a + Z.of_nat i := b]> m) (t_mem t) (imap pair bs))
    (t_pvm t) (t_hi16 t).
Definition set_rip (t : target) (x : Z) : target :=
  mk_target ((λ r, with_rip r x) <$> t_regs t) (t_fp t) (t_xs t) (t_mem t) (t_pvm t) (t_hi16 t).

(** The stop that ends the run and the regions published on the way; [inl] is a
    failure.  The result carries the events left; [None]: the script ended. *)
Fixpoint run_to_wait (evs : list event) : option (unit + target * list addr_rec) * list event :=
  match evs with
  | [] => (None, [])
  | EvTrap _ t pubs :: evs => (Some (inr (t, pubs)), evs)
  | EvWaitIntr :: evs | EvNoStop :: evs | EvStop _ :: evs => run_to_wait evs
  | _ :: evs => (Some (inl tt), evs)
  end.

(** [dfp_run_to] from the stop [t]: [Some None] is the return -1. *)
Definition dfp_run_to (t : target) (bp : Z) (evs : list event) :
    option (option (target * list addr_rec)) * list event :=
  match mem_bytes (t_mem t) bp 8 with
  | None => (Some None, evs)
  | Some orig =>
      match evs with
      | EvPoke true :: evs =>
          match run_to_wait evs with
          | (None, evs) => (None, evs)
          | (Some (inl _), evs) => (Some None, evs)
          | (Some (inr (t', pubs)), EvPoke true :: evs) =>
              match t_regs t' with
              | None => (Some None, evs)
              | Some regs =>
                  if rip regs =? bp +64 1 then
                    match evs with
                    | EvSetRegs true :: evs => (Some (Some (set_rip (poke_word t' bp orig) bp, pubs)), evs)
                    | EvSetRegs false :: evs => (Some None, evs)
                    | _ => (None, [])
                    end
                  else (Some None, evs)
              end
          | (Some (inr _), EvPoke false :: evs) => (Some None, evs)
          | (Some (inr _), _) => (None, [])
          end
      | EvPoke false :: evs => (Some None, evs)
      | _ => (None, [])
      end
  end.

(** ** The scoped loop *)
Context (is_call : list Z → Z → option Z).

(** [is_call code off]: Capstone's answer at [off], the length of the instruction
    there when it is in the call group. *)
Definition dfp_is_callout (base_ip code_len last_off : Z) (t : target) (regs : user_regs) : option Z :=
  if Z.of_nat (length (c_code cfg)) <=? last_off then None
  else match is_call (c_code cfg) last_off with
       | None => None
       | Some call_len =>
           if call_len =? 0 then None
           else
             let ret_off := last_off +64 call_len in
             if code_len <=? ret_off then None
             else match child_read t (rsp regs) 8 with
                  | Some bs => if le bs =? base_ip +64 ret_off then Some ret_off else None
                  | None => None
                  end
       end.

(** The loop's locals: the context, [entered], [recorded], [total], and the stop
    to be examined without a step ([skip_step]). *)
Record sstate := mk_sstate {
  s_ctx : ctx; s_entered : bool; s_recorded : Z; s_total : Z; s_skip : option target;
}.
Definition set_sctx (st : sstate) (c : ctx) : sstate :=
  mk_sstate c (s_entered st) (s_recorded st) (s_total st) (s_skip st).

Context (base_ip code_len max_insns backstop : Z).

(** The barrier around a helper that was run over. *)
Definition callout_gap (c : ctx) (t : target) (pre : user_regs) (vpre : vecsnap) : outcome + ctx :=
  let c := if overflow_pending (risk c) then
             flag (set_risk c (mk_risk (risk_regs (risk c)) (risk_bytes (risk c)) (overflow (risk c)) false))
           else c in
  match t_regs t with
  | None => inl (dfp_dirty_exit cfg (flag c) DF_PTRACE_ETRACE 0)
  | Some post => inr (dfp_emit_gap c t pre post vpre (dfp_vecsnap t) (rip pre)).1.1
  end.

(** One examined stop; the events left after it. *)
Definition step_stop (st : sstate) (t : target) (evs : list event) : option (outcome + sstate) * list event :=
  let c := s_ctx st in
  match t_regs t with
  | None => (Some (inl (dfp_dirty_exit cfg c DF_PTRACE_ETRACE 0)), evs)
  | Some regs =>
      let pc := rip regs in
      if (base_ip <=? pc) && (pc <? base_ip +64 code_len) then
        let c := finalize_open c t regs in
        let c := open c t regs (pc -64 base_ip) in
        let recorded := if max_insns =? 0 then s_recorded st else s_recorded st +64 1 in
        if negb (max_insns =? 0) && (max_insns <=? recorded)
        then (Some (inl (dfp_dirty_exit cfg (flag (append_open c)) DF_PTRACE_OK 0)), evs)
        else (Some (inr (mk_sstate c true recorded (s_total st) None)), evs)
      else if s_entered st then
        let last_off := cur_off c in
        let c := finalize_open c t regs in
        match dfp_is_callout base_ip code_len last_off t regs with
        | Some resume_off =>
            let total := s_total st + 1 in
            if backstop <? total then (Some (inl (dfp_dirty_exit cfg (flag c) DF_PTRACE_OK 0)), evs)
            else
              let vpre := dfp_vecsnap t in
              let c := dfp_risk_snap c t in
              match dfp_run_to t (base_ip +64 resume_off) evs with
              | (None, evs) => (None, evs)
              | (Some None, evs) => (Some (inl (dfp_dirty_exit cfg (flag c) DF_PTRACE_ETRACE 0)), evs)
              | (Some (Some (t', _)), evs) =>
                  match callout_gap c t' regs vpre with
                  | inl o => (Some (inl o), evs)
                  | inr c => (Some (inr (mk_sstate c true (s_recorded st) total (Some t'))), evs)
                  end
              end
        | None => (Some (inl (mk_outcome DF_PTRACE_OK c (Some (rax regs)) true false)), evs)
        end
      else (Some (inr (mk_sstate c false (s_recorded st) (s_total st) None)), evs)
  end.

(** One round of the loop. *)
Definition step_round (st : sstate) (evs : list event) : option (outcome + sstate) * list event :=
  let c := s_ctx st in
  match evs with
  | EvStopReq :: evs =>
      let c := if have_cur c then append_open c else c in
      (Some (inl (dfp_dirty_exit cfg (flag c) DF_PTRACE_OK 0)), evs)
  | _ =>
      match s_skip st with
      | Some t => step_stop (mk_sstate c (s_entered st) (s_recorded st) (s_total st) None) t evs
      | None =>
          match evs with
          | EvReqFail :: evs | EvWaitFail :: evs => (Some (inl (dfp_dirty_exit cfg c DF_PTRACE_ETRACE 0)), evs)
          | EvWaitIntr :: evs | EvNoStop :: evs => (Some (inr st), evs)
          | EvGone :: evs =>
              let c := if have_cur c then flag c else c in
              (Some (inl (mk_outcome (if s_entered st then DF_PTRACE_OK else DF_PTRACE_ETRACE) c None false false)), evs)
          | EvStop sig :: evs =>
              if fatal_signal sig then (Some (inl (dfp_dirty_exit cfg (flag c) DF_PTRACE_FAULT sig)), evs)
              else (Some (inr st), evs)
          | EvTrap si t _ :: evs =>
              if dfp_sigtrap_is_app si then (Some (inl (app_trap c t)), evs)
              else
                let total := s_total st + 1 in
                if backstop <? total then (Some (inl (dfp_dirty_exit cfg (flag c) DF_PTRACE_ETRACE 0)), evs)
                else step_stop (mk_sstate c (s_entered st) (s_recorded st) total None) t evs
          | _ => (None, [])
          end
      end
  end.

(** Each round uses an event or examines the stop after a call-out. *)
Fixpoint step_rounds (fuel : nat) (st : sstate) (evs : list event) : option outcome :=
  match fuel with
  | O => None
  | S fuel => match step_round st evs with
              | (Some (inl o), _) => Some o
              | (Some (inr st), evs) => step_rounds fuel st evs
              | (None, _) => None
              end
  end.

(** [entry] is the stop a pre-positioned tracee is at. *)
Definition dfp_step_loop (v : asmtest_valtrace) (entry : option target) (evs : list event) : option outcome :=
  step_rounds (2 * length evs + 2) (mk_sstate (ctx_of v) false 0 0 (if pre_positioned cfg then entry else None)) evs.
End loops.

(** ** The windowed survey *)
(** [asmtest_dfwin_info_t] *)
Record dfwin_info := mk_info {
  i_stops : Z; i_recorded : Z; i_gaps : Z; i_gap_steps : Z; i_gap_recs : Z; i_nregions : Z;
  i_nregions_entry : Z; i_risk_regs : Z; i_risk_bytes : Z; i_chan_overrun : bool;
  i_risk_overflow : bool; i_decode_fail : Z;
}.
Definition info0 : dfwin_info := mk_info 0 0 0 0 0 0 0 0 0 false false 0.
Definition add_stop (i : dfwin_info) : dfwin_info :=
  mk_info (i_stops i + 1) (i_recorded i) (i_gaps i) (i_gap_steps i) (i_gap_recs i) (i_nregions i)
    (i_nregions_entry i) (i_risk_regs i) (i_risk_bytes i) (i_chan_overrun i) (i_risk_overflow i) (i_decode_fail i).
Definition add_recorded (i : dfwin_info) : dfwin_info :=
  mk_info (i_stops i) (i_recorded i +64 1) (i_gaps i) (i_gap_steps i) (i_gap_recs i) (i_nregions i)
    (i_nregions_entry i) (i_risk_regs i) (i_risk_bytes i) (i_chan_overrun i) (i_risk_overflow i) (i_decode_fail i).
Definition add_gap (i : dfwin_info) : dfwin_info :=
  mk_info (i_stops i) (i_recorded i) (i_gaps i + 1) (i_gap_steps i) (i_gap_recs i) (i_nregions i)
    (i_nregions_entry i) (i_risk_regs i) (i_risk_bytes i) (i_chan_overrun i) (i_risk_overflow i) (i_decode_fail i).
Definition add_barrier (i : dfwin_info) (steps recs : Z) : dfwin_info :=
  mk_info (i_stops i) (i_recorded i) (i_gaps i) (i_gap_steps i + steps) (i_gap_recs i + recs) (i_nregions i)
    (i_nregions_entry i) (i_risk_regs i) (i_risk_bytes i) (i_chan_overrun i) (i_risk_overflow i) (i_decode_fail i).
Definition set_nregions (i : dfwin_info) (n : Z) : dfwin_info :=
  mk_info (i_stops i) (i_recorded i) (i_gaps i) (i_gap_steps i) (i_gap_recs i) n
    (i_nregions_entry i) (i_risk_regs i) (i_risk_bytes i) (i_chan_overrun i) (i_risk_overflow i) (i_decode_fail i).
Definition set_overrun (i : dfwin_info) (b : bool) : dfwin_info :=
  mk_info (i_stops i) (i_recorded i) (i_gaps i) (i_gap_steps i) (i_gap_recs i) (i_nregions i)
    (i_nregions_entry i) (i_risk_regs i) (i_risk_bytes i) (i_chan_overrun i || b) (i_risk_overflow i) (i_decode_fail i).

Definition dfp_in_region_set (pc win_base win_len : Z) (rset : list addr_rec) : bool :=
  ((win_base <=? pc) && (pc <? win_base +64 win_len))
  || existsb (λ r, negb (a_len r =? 0) && (a_base r <=? pc) && (pc <? a_base r +64 a_len r)) rset.

(** The publications of the target reach the channel, and what fits in the region
    set is drained. *)
Definition drain_into (chan : option channel) (pubs rset : list addr_rec) (info : dfwin_info) :
    option channel * list addr_rec * dfwin_info :=
  match chan with
  | None => (None, rset, info)
  | Some ch =>
      let ch := foldl asmtest_addr_channel_publish ch pubs in
      if (length rset <? CAP)%nat then
        let '(out, ch) := asmtest_addr_channel_drain ch (CAP - length rset) in
        (Some ch, rset ++ out, set_overrun info (overrun ch))
      else (Some ch, rset, info)
  end.

(** The loop's locals; [w_gap] is the open gap: where it was entered and the
    registers and vector file there. *)
Record wstate := mk_wstate {
  w_ctx : ctx; w_chan : option channel; w_rset : list addr_rec; w_info : dfwin_info;
  w_gap : option (Z * user_regs * vecsnap);
}.

Section window.
Context (grant : allocator) (cfg : config).
Context (operands : list Z → Z → Z * list at_val_rec * list at_val_rec).
Context (win_base win_len win_ret max_insns : Z).

(** The barrier of an open gap, when control is back in the region set. *)
Definition close_gap (c : ctx) (t : target) (regs : user_regs) (gap : option (Z * user_regs * vecsnap))
    (info : dfwin_info) : ctx * dfwin_info :=
  match gap with
  | None => (c, info)
  | Some (gap_pc, pre, vpre) =>
      let '(c, steps, recs) := dfp_emit_gap c t pre regs vpre (dfp_vecsnap t) gap_pc in
      (c, add_barrier info steps recs)
  end.

Definition window_stop (st : wstate) (t : target) (pubs : list addr_rec) : (outcome * dfwin_info) + wstate :=
  let c := w_ctx st in
  match t_regs t with
  | None => inl (dfp_dirty_exit cfg c DF_PTRACE_ETRACE 0, w_info st)
  | Some regs =>
      let pc := rip regs in
      let '(chan, rset, info) := drain_into (w_chan st) pubs (w_rset st) (w_info st) in
      let nregions := Z.of_nat (length rset) + 1 in
      if pc =? win_ret then
        inl (mk_outcome DF_PTRACE_OK (finalize_open cfg c t regs) (Some (rax regs)) true false,
             set_nregions info nregions)
      else if dfp_in_region_set pc win_base win_len rset then
        let '(c, info) := close_gap c t regs (w_gap st) info in
        let c := finalize_open cfg c t regs in
        let c := open_step grant cfg operands c t regs pc in
        let info := add_recorded info in
        if negb (max_insns =? 0) && (max_insns <=? i_recorded info)
        then inl (dfp_dirty_exit cfg (flag (append_open c)) DF_PTRACE_ETRACE 0, set_nregions info nregions)
        else inr (mk_wstate c chan rset info None)
      else
        let c := finalize_open cfg c t regs in
        match w_gap st with
        | Some g => inr (mk_wstate c chan rset info (Some g))
        | None => inr (mk_wstate (dfp_risk_snap c t) chan rset (add_gap info) (Some (pc, regs, dfp_vecsnap t)))
        end
  end.

Definition window_event (st : wstate) (ev : event) : (outcome * dfwin_info) + wstate :=
  let c := w_ctx st in
  let stop o := inl (o, w_info st) in
  match ev with
  | EvReqFail | EvWaitFail => stop (dfp_dirty_exit cfg c DF_PTRACE_ETRACE 0)
  | EvWaitIntr | EvNoStop => inr st
  | EvGone => stop (mk_outcome DF_PTRACE_ETRACE (flag c) None false false)
  | EvStop sig => if fatal_signal sig then stop (dfp_dirty_exit cfg (flag c) DF_PTRACE_FAULT sig) else inr st
  | EvTrap si t pubs =>
      if dfp_sigtrap_is_app si then stop (app_trap cfg c t)
      else
        let info := add_stop (w_info st) in
        if DFP_STEP_BACKSTOP <? i_stops info then inl (dfp_dirty_exit cfg (flag c) DF_PTRACE_ETRACE 0, info)
        else window_stop (mk_wstate c (w_chan st) (w_rset st) info (w_gap st)) t pubs
  | _ => inr st
  end.

Fixpoint window_events (st : wstate) (evs : list event) : option (outcome * dfwin_info) :=
  match evs with
  | [] => None
  | ev :: evs => match window_event st ev with inl o => Some o | inr st => window_events st evs end
  end.

(** The first round examines the stop at [win_base]. *)
Definition dfp_window_loop (c : ctx) (chan : option channel) (rset : list addr_rec) (info : dfwin_info)
    (t : target) (pubs : list addr_rec) (evs : list event) : option (outcome * dfwin_info) :=
  match window_stop (mk_wstate c chan rset info None) t pubs with
  | inl o => Some o
  | inr st => window_events st evs
  end.
End window.

(** ** The windowed entry *)
Definition sizeof_riskset : Z := 41368.
Definition window_config : config := mk_config [] 0 true true false None.

(** [asmtest_dataflow_ptrace_attach_window] from the stop [t] of the interrupt to
    the detach, [seized] being the answer to the seize and the wait around it: the
    return code, the telemetry, the trace and the signal the target is detached
    with. *)
Definition attach_window (grant : allocator) (operands : list Z → Z → Z * list at_val_rec * list at_val_rec)
    (pid win_base win_len : Z) (chan : option channel) (max_insns : Z) (vt0 : asmtest_valtrace)
    (seized : option target) (evs : list event) : option (Z * dfwin_info * asmtest_valtrace * Z) :=
  if (pid <=? 0) || (win_base =? 0) || (win_len =? 0) then Some (DF_PTRACE_EINVAL, info0, vt0, 0)
  else
    let v := abs_space vt0 in
    let detach := Some (DF_PTRACE_ETRACE, info0, v, 0) in
    match seized with
    | None => detach
    | Some t =>
        match dfp_run_to t win_base evs with
        | (None, _) => None
        | (Some None, _) => detach
        | (Some (Some (t, pubs)), evs) =>
            match t_regs t with
            | None => detach
            | Some entry =>
                match child_read t (rsp entry) 8 with
                | None => detach
                | Some bs =>
                    if negb (grant sizeof_riskset) || negb (grant (24 * ASMTEST_ADDR_CHAN_CAP)) then detach
                    else
                      let '(chan, rset, info) := drain_into chan pubs [] info0 in
                      let info := mk_info 0 0 0 0 0 0 (Z.of_nat (length rset) + 1) 0 0 (i_chan_overrun info) false 0 in
                      match dfp_window_loop grant window_config operands win_base win_len (le bs) max_insns
                              (ctx_of v) chan rset info t [] evs with
                      | None => None
                      | Some (o, i) =>
                          let c := o_ctx o in
                          let i := mk_info (i_stops i) (i_recorded i) (i_gaps i) (i_gap_steps i) (i_gap_recs i)
                            (i_nregions i) (i_nregions_entry i) (Z.of_nat (length (risk_regs (risk c))))
                            (Z.of_nat (length (risk_bytes (risk c)))) (i_chan_overrun i) (overflow (risk c))
                            (win_decode_fail c) in
                          Some (o_rc o, i, vt c, if o_left o then detach_sig c else 0)
                      end
                end
            end
        end
    end.
End DfWindow.
