(* ===== verification/DfMeas.v ===== *)
(** The measured record: what a record of the live producer says a location
    held, that the fills of [src/dataflow_ptrace.c] make it what the target held,
    and the invariant of a trace whose reads agree with the latest write before
    them, kept by an append. *)
From S2P Require Import Prelude Bytes Grow RegSlice ValTrace LwMap DefUse DfTarget DfStep.

Module DfMeas.
Import RegSlice ValTrace DfTarget DfStep DefUse.

(** ** The recorded value of a location *)
Definition wide_of (v : asmtest_valtrace) : list Z := default [] (wide_buf v).

(** What record [r] says location [k] held: a byte of its value, or the whole of
    it for a register without aliases. *)
Definition rec_val (w : list Z) (r : at_val_rec) (k : Z * Z) : option Z :=
  if negb (value_valid r) then None
  else match kind r with
       | AT_LOC_REG =>
           match reg_slice (reg r) with
           | Some _ => Some (byte_of (value r) (k.2 mod 256))
           | None => Some (if wide r then le (part w (wide_off r) (size r)) else value r)
           end
       | _ => let i := u64 (k.2 - addr r) in
              if wide r then w !! Z.to_nat (wide_off r + i) else Some (byte_of (value r) i)
       end.

(** The record's bytes are in the pool. *)
Definition rec_in (w : list Z) (r : at_val_rec) : Prop :=
  wide r = true → value_valid r = true →
  0 <= wide_off r ∧ 0 <= size r ∧ wide_off r + size r <= Z.of_nat (length w) ∧
  (kind r ≠ AT_LOC_REG → 1 <= size r <= 32).

(** The record tells what the target held at the stop [t]. *)
Definition meas (w : list Z) (t : target) (r : at_val_rec) : Prop :=
  ∀ k b, k ∈ read_keys r → rec_val w r k = Some b → loc_value t k = Some b.

Lemma elem_bytes_from base n x :
  x ∈ bytes_from base n ↔ ∃ i : nat, (i < Z.to_nat n)%nat ∧ x = base +64 Z.of_nat i.
Proof.
  unfold bytes_from. rewrite list_elem_of_fmap. setoid_rewrite elem_of_seq. split.
  - intros (i & -> & Hi). exists i. split; [lia|done].
  - intros (i & Hi & ->). exists i. split; [done|lia].
Qed.

Lemma elem_keys (kd : Z) (l : list Z) k : k ∈ pair kd <$> l ↔ k.1 = kd ∧ k.2 ∈ l.
Proof.
  rewrite list_elem_of_fmap. destruct k as [a x]. simpl. split; [intros (? & [= -> ->] & ?); done|].
  intros [-> ?]. by exists x.
Qed.

(** The keys of an aliased register: a byte of its container. *)
Lemma slice_key x c off len n k :
  reg_slice x = Some (c, off, len) → n <= 8 - off →
  k ∈ pair KSUB <$> bytes_from (slice_base c off) n →
  k.1 = KSUB ∧ k.2 / 256 = c ∧ off <= k.2 mod 256 < off + n.
Proof.
  intros E Hn. rewrite elem_keys, elem_bytes_from. intros (? & i & Hi & ->). split; [done|].
  destruct (alias_shape_slice x c off len E) as (_ & _ & Hc & _).
  pose proof (reg_slice_spec x) as S. rewrite E in S. destruct S as (_ & _ & ? & ? & ? & _).
  assert (slice_base c off = c * 256 + off) as ->.
  { unfold slice_base. rewrite <-Z.lxor_lor, <-Z.add_nocarry_lxor; [by rewrite Z.shiftl_mul_pow2| |];
      (apply Z.bits_inj'; intros j Hj; rewrite Z.land_spec, Z.bits_0; destruct (decide (j < 8));
       [rewrite Z.shiftl_spec_low by lia; done|
        rewrite (Z.bits_above_log2 off j); [by rewrite andb_false_r|lia|];
        destruct (decide (off = 0)) as [->|]; [simpl; lia|]; pose proof (Z.log2_lt_pow2 off 8); lia]). }
  rewrite u64_small by lia. dlia.
Qed.

(** The keys of a memory record, by their distance from its address. *)
Lemma mem_key r k :
  kind r ≠ AT_LOC_REG → k ∈ read_keys r →
  k.1 = KMEM ∧ ∃ i, 0 <= i < rec_bytes r ∧ k.2 = addr r +64 i ∧ u64 (k.2 - addr r) = i.
Proof.
  intros Ek Hk. assert (k ∈ pair KMEM <$> bytes_from (addr r) (rec_bytes r)) as Hk'.
  { revert Hk. unfold read_keys. by destruct (kind r). }
  apply elem_keys in Hk' as [? Hk']. apply elem_bytes_from in Hk' as (i & Hi & E). split; [done|].
  assert (rec_bytes r <= 64) by (unfold rec_bytes; repeat case_match; lia).
  exists (Z.of_nat i). split_and!; [lia|lia|done|]. rewrite E, u64_sub_l.
  replace (addr r + Z.of_nat i - addr r) with (Z.of_nat i) by lia. apply u64_small. lia.
Qed.
Lemma rec_bytes_size r : 1 <= size r <= 64 → rec_bytes r = size r.
Proof. intros. unfold rec_bytes. destruct (Z.eqb_spec (size r) 0); [lia|]. destruct (Z.ltb_spec 64 (size r)); lia. Qed.

Lemma rec_val_mono w w2 r k :
  rec_in w r → k ∈ read_keys r → rec_val (w ++ w2) r k = rec_val w r k.
Proof.
  intros Hin Hk. unfold rec_val. destruct (value_valid r) eqn:Ev; [|done]. simpl.
  destruct (wide r) eqn:Ew; [|done]. destruct (Hin Ew Ev) as (? & ? & Hl & Hsz).
  destruct (decide (kind r = AT_LOC_REG)) as [Ek|Ek].
  { rewrite Ek. case_match; [done|]. unfold part. by rewrite drop_app_le, take_app_le by (rewrite ?length_drop; lia). }
  destruct (mem_key r k Ek Hk) as (_ & i & Hi & _ & E). specialize (Hsz Ek). rewrite rec_bytes_size in Hi by lia.
  rewrite E. destruct (kind r); [done|..]; by rewrite lookup_app_l by lia.
Qed.

(** ** The sink *)
(** The capacities that keep 32-bit indices exact. *)
Definition caps_ok (v : asmtest_valtrace) : Prop :=
  Z.of_nat (steps_cap v) < 2 ^ 32 ∧ Z.of_nat (length (wide_of v)) <= wide_cap v <= 2 ^ 32.

(** [v'] extends the byte pool of [v] and lowers no flag. *)
Record grows (v v' : asmtest_valtrace) : Prop := {
  g_wide : ∃ w, wide_of v' = wide_of v ++ w;
  g_flag : vtruncated v' = false → vtruncated v = false;
  g_caps : caps_ok v → caps_ok v';
}.
#[global] Instance grows_refl : Reflexive grows.
Proof. intros v. split; [exists []; by rewrite app_nil_r|done..]. Qed.
#[global] Instance grows_trans : Transitive grows.
Proof.
  intros a b c [[w Hw] F C] [[w' Hw'] F' C']. split; [|tauto..]. exists (w ++ w'). by rewrite Hw', Hw, app_assoc.
Qed.

(** The records of the sink are untouched. *)
Definition same_recs (v v' : asmtest_valtrace) : Prop := offs v' = offs v ∧ vrecs v' = vrecs v.
#[global] Instance same_recs_refl : Reflexive same_recs.
Proof. done. Qed.
#[global] Instance same_recs_trans : Transitive same_recs.
Proof. intros a b c [A B] [A' B']. split; congruence. Qed.

Lemma rec_in_grows v v' r : grows v v' → rec_in (wide_of v) r → rec_in (wide_of v') r.
Proof.
  intros [[w E] _ _] H Hw Hv. destruct (H Hw Hv) as (?&?&?&?). split_and!; try done. rewrite E, length_app. lia.
Qed.
Lemma rec_val_grows v v' r k :
  grows v v' → rec_in (wide_of v) r → k ∈ read_keys r → rec_val (wide_of v') r k = rec_val (wide_of v) r k.
Proof. intros [[w ->] _ _]. apply rec_val_mono. Qed.
Lemma meas_grows v v' t r : grows v v' → rec_in (wide_of v) r → meas (wide_of v) t r → meas (wide_of v') t r.
Proof. intros G Hin Hm k b Hk. rewrite (rec_val_grows v v') by done. by apply Hm. Qed.

Lemma vt_flag_grows v : grows v (vt_flag v) ∧ same_recs v (vt_flag v).
Proof. split; [split|]; simpl; try done. exists []. by rewrite app_nil_r. Qed.

Lemma stash_wide_spec v bs :
  caps_ok v → (1 <= length bs <= 64)%nat →
  ∃ off v', asmtest_valtrace_stash_wide (Some v) bs = (off, Some v') ∧ grows v v' ∧ same_recs v v' ∧
    (off ≠ SIZE_MAX → off = Z.of_nat (length (wide_of v)) ∧ wide_of v' = wide_of v ++ bs ∧ 0 <= off < 2 ^ 32 ∧
       vtruncated v' = vtruncated v) ∧
    (off = SIZE_MAX → vtruncated v' = true).
Proof.
  intros [Hs Hw] Hne. unfold asmtest_valtrace_stash_wide, wide_len.
  destruct (Z.eqb_spec (Z.of_nat (length bs)) 0); [lia|]. fold (wide_of v).
  destruct (wide_buf v) as [w|] eqn:E.
  - assert (wide_of v = w) as Ew by (unfold wide_of; by rewrite E). rewrite Ew in *. rewrite u64_small by lia.
    destruct (Z.ltb_spec (wide_cap v) (Z.of_nat (length w) + Z.of_nat (length bs))) as [Hlt|Hge].
    + do 2 eexists. split; [done|]. split; [split|split; [done|split]]; simpl; try done.
      exists []. by rewrite Ew, app_nil_r.
    + do 2 eexists. split; [done|]. split; [split|split; [done|split]]; simpl; try done.
      * exists bs. by rewrite Ew.
      * intros _. split; simpl; [done|]. unfold wide_of. simpl. rewrite length_app. lia.
      * intros _. split_and!; try done; lia.
      * intros E'. unfold SIZE_MAX in E'. lia.
  - do 2 eexists. split; [done|]. split; [split|split; [done|split]]; simpl; try done.
    + exists []. unfold wide_of. by rewrite E.
    + intros _. split; simpl; [done|]. unfold wide_of in *. rewrite E in Hw. simpl in *. lia.
Qed.

(** Stashing the bytes of a value-less record: either the trace is flagged, or the
    record points at them. *)
Lemma stash_spec v r bs :
  caps_ok v → (1 <= length bs <= 64)%nat → value_valid r = false →
  ∃ v' r', stash v r bs = (v', r') ∧ grows v v' ∧ same_recs v v' ∧ (vtruncated v' = false → r' ≠ r) ∧
    (r' = r ∨ r' = set_wide r (Z.of_nat (length (wide_of v))) ∧ wide_of v' = wide_of v ++ bs ∧
              wide_off r' = Z.of_nat (length (wide_of v))).
Proof.
  intros Hc Hb Hv. destruct (stash_wide_spec v bs Hc Hb) as (off & v' & E & G & S & Hok & Hfail).
  unfold stash. rewrite E. destruct (Z.eqb_spec off SIZE_MAX) as [Eo|Eo].
  - exists v', r. split_and!; auto. intros Ht. rewrite (Hfail Eo) in Ht. done.
  - destruct (Hok Eo) as (-> & Ew & Hr & _). exists v', (set_wide r (Z.of_nat (length (wide_of v)))).
    split_and!; auto.
    + intros _ Er. assert (value_valid r = true) by (by rewrite <-Er). congruence.
    + right. split_and!; [done|done|]. unfold set_wide. simpl. by apply u32_small.
Qed.

(** ** Measuring a record *)
(** [r'] is [r] with a value: same location, same direction. *)
Definition same_loc (r r' : at_val_rec) : Prop :=
  kind r' = kind r ∧ reg r' = reg r ∧ addr r' = addr r ∧ is_write r' = is_write r ∧
  (kind r ≠ AT_LOC_REG → size r' = size r).
Lemma same_loc_refl r : same_loc r r.
Proof. done. Qed.
Lemma same_loc_keys r r' :
  same_loc r r' → read_keys r' = read_keys r ∧ write_keys r' = write_keys r ∧ is_write r' = is_write r.
Proof.
  intros (Ek & Er & Ea & Ew & Es). unfold read_keys, write_keys, rec_bytes. rewrite Ek, Er, Ea.
  destruct (kind r); [done|..]; by rewrite Es.
Qed.

Lemma no_value_meas w t r : value_valid r = false → rec_in w r ∧ meas w t r.
Proof. intros E. split; [intros _ H; congruence|]. intros k b _. unfold rec_val. by rewrite E. Qed.

(** The outcome of a fill. *)
Definition filled (v : asmtest_valtrace) (t : target) (r : at_val_rec) (p : asmtest_valtrace * at_val_rec) : Prop :=
  grows v p.1 ∧ same_recs v p.1 ∧ same_loc r p.2 ∧ rec_in (wide_of p.1) p.2 ∧ meas (wide_of p.1) t p.2.

Lemma filled_none v t r r' : same_loc r r' → value_valid r' = false → filled v t r (v, r').
Proof. intros. unfold filled. simpl. by destruct (no_value_meas (wide_of v) t r'). Qed.

Lemma byte_of_le bs i : Forall is_byte bs → (i < length bs)%nat → bs !! i = Some (byte_of (le bs) (Z.of_nat i)).
Proof.
  intros Hb. revert i. induction Hb as [|b bs Hb Hbs IH]; intros i Hi; simpl in Hi; [lia|]. unfold is_byte in Hb.
  destruct i as [|i]; cbn [le].
  - simpl. unfold byte_of. rewrite Z.pow_0_r, Z.div_1_r. f_equal. dlia.
  - change ((b :: bs) !! S i) with (bs !! i). rewrite IH by lia. unfold byte_of. rewrite Nat2Z.inj_succ, Z.pow_succ_r by lia.
    rewrite <-Z.div_div by (try apply Z.pow_pos_nonneg; lia). do 3 f_equal. dlia.
Qed.

Lemma vec_width_slice x : vec_width x ≠ 0 → reg_slice x = None.
Proof. destruct (reg_slice x) as [[[c o] l]|] eqn:E; [|done]. by destruct (alias_shape_slice _ _ _ _ E) as (_ & ? & _). Qed.

Lemma vec_width_cases x : vec_width x = 0 ∨ vec_width x = 16 ∧ X86_REG_XMM0 <= x <= X86_REG_XMM0 + 31 ∨
  vec_width x = 32 ∧ X86_REG_YMM0 <= x <= X86_REG_YMM0 + 31.
Proof.
  unfold vec_width. destruct ((_ <=? x) && (x <=? _)) eqn:E1; [right; left; split; [done|lia]|].
  destruct ((X86_REG_YMM0 <=? x) && _) eqn:E2; [right; right; split; [done|lia]|]. by left.
Qed.

(** The bytes of a vector register. *)
Definition vec_bytes (t : target) (x : Z) : option (list Z) :=
  if vec_width x =? 16 then read_xmm t (x - X86_REG_XMM0) else read_ymm t (x - X86_REG_YMM0).
Lemma vec_bytes_spec t x bs :
  target_ok t → vec_width x ≠ 0 → vec_bytes t x = Some bs →
  Z.of_nat (length bs) = vec_width x ∧ loc_value t (KREG, x) = Some (le bs).
Proof.
  intros Ht Hw E. split.
  2: { unfold loc_value, reg_value. simpl. unfold vec_bytes in E.
       destruct (vec_width_cases x) as [?|[[Ew _]|[Ew _]]]; [done|..]; rewrite Ew in E |- *; simpl in E |- *; by rewrite E. }
  assert (∀ idx n bs, 16 <= idx → 0 <= n → dfp_read_hi16 t idx n = Some bs → Z.of_nat (length bs) = n) as Hhi.
  { intros idx n l ? ? H. pose proof (ok_hi16 t Ht). unfold dfp_read_hi16, ASMTEST_HI16_STRIDE in H.
    destruct (Z.eqb_spec (t_hi16 t) 0); [done|]. destruct (t_xs t) as [xs|]; [|done].
    destruct (Z.ltb_spec (Z.of_nat (length xs)) (t_hi16 t + (idx - 16) * 64 + n)); [done|].
    injection H as <-. unfold part. rewrite length_take, length_drop. lia. }
  assert (∀ idx l, 0 <= idx < 16 → read_xmm t idx = Some l → length l = 16%nat) as Hlo.
  { intros idx l ? H. unfold read_xmm in H. destruct (Z.ltb_spec idx 0), (Z.ltb_spec 31 idx), (Z.leb_spec 16 idx); try lia.
    simpl in H. destruct (t_fp t) as [[xmm mx]|] eqn:Ef; [|done]. injection H as <-.
    destruct (ok_fp t Ht _ _ Ef) as [L _]. unfold part. rewrite length_take, length_drop. lia. }
  unfold vec_bytes in E. destruct (vec_width_cases x) as [?|[[Ew Hx]|[Ew Hx]]]; [done|..]; rewrite Ew in E |- *; simpl in E.
  - destruct (decide (x - X86_REG_XMM0 < 16)); [erewrite Hlo; [done|..]; [|exact E]; lia|].
    unfold read_xmm in E. destruct (Z.ltb_spec (x - X86_REG_XMM0) 0), (Z.ltb_spec 31 (x - X86_REG_XMM0)), (Z.leb_spec 16 (x - X86_REG_XMM0));
      try lia. simpl in E. eapply Hhi; [|done|exact E]. lia.
  - unfold read_ymm in E. set (idx := x - X86_REG_YMM0) in *.
    destruct (Z.ltb_spec idx 0), (Z.ltb_spec 31 idx); try lia. simpl in E. destruct (Z.leb_spec 16 idx).
    + eapply Hhi; [|done|exact E]. lia.
    + destruct (read_xmm t idx) as [lo|] eqn:El; [|done]. injection E as <-. rewrite length_app, length_ymm_high by lia.
      rewrite (Hlo idx lo) by (done || lia). done.
Qed.

Lemma part_app w bs : part (w ++ bs) (Z.of_nat (length w)) (Z.of_nat (length bs)) = bs.
Proof. unfold part. rewrite !Nat2Z.id, drop_app_length. by apply take_ge. Qed.

(** A register record is measured by its fill. *)
Lemma fill_reg_spec v t regs r :
  target_ok t → t_regs t = Some regs → caps_ok v → kind r = AT_LOC_REG → value_valid r = false → wide r = false →
  filled v t r (fill_reg_value v t regs r).
Proof.
  intros Ht Hregs Hc Hk Hv Hwd. unfold fill_reg_value. destruct (Z.eqb_spec (vec_width (reg r)) 0) as [Hw|Hw].
  - destruct (gp_value regs (reg r)) as [x|] eqn:Ex; [|by apply filled_none].
    split_and!; simpl; try done; [intros E; simpl in E; congruence|].
    intros k b Hkk. unfold rec_val, read_keys in *. simpl in *. rewrite Hk, Hwd in *.
    destruct (reg_slice (reg r)) as [[[c off] len]|] eqn:Es; intros [= <-].
    + pose proof (reg_slice_spec (reg r)) as S. rewrite Es in S. destruct S as (_ & _ & ? & ? & ? & _).
      destruct (slice_key _ c off len len k Es ltac:(lia) Hkk) as (K1 & K2 & _).
      destruct (alias_shape_slice _ _ _ _ Es) as (_ & _ & _ & Hg). destruct (Hg regs) as [Eg _].
      unfold loc_value. rewrite K1, K2, Hregs. simpl. by rewrite <-Eg, Ex.
    + apply list_elem_of_singleton in Hkk as ->. unfold loc_value, reg_value. simpl. by rewrite Hw, Hregs.
  - pose proof (vec_width_slice _ Hw) as Es. cbn [reg set_size]. fold (vec_bytes t (reg r)).
    destruct (vec_bytes t (reg r)) as [bs|] eqn:Eb; [|by apply filled_none].
    destruct (vec_bytes_spec t _ bs Ht Hw Eb) as [Hl Hloc].
    assert (16 <= vec_width (reg r) <= 32) by (pose proof (vec_width_cases (reg r)); lia).
    destruct (Z.leb_spec (vec_width (reg r)) 8); [lia|].
    destruct (stash_spec v (set_size r (vec_width (reg r))) bs Hc ltac:(lia) Hv) as (v' & r' & -> & G & S & _ & Hr).
    destruct Hr as [-> | (-> & Ew & Eo)].
    + unfold filled. simpl. split_and!; try done; by apply no_value_meas.
    + unfold filled. cbn [fst snd]. split_and!; try apply G; try apply S; simpl; try done.
      * intros _ _. simpl in Eo |- *. rewrite Eo, Ew, length_app. split_and!; lia.
      * intros k b Hkk. unfold rec_val, read_keys in *. simpl in *. rewrite Hk, Es in *. simpl in *.
        apply list_elem_of_singleton in Hkk as ->. rewrite Eo, Ew, <-Hl, part_app. by intros [= <-].
Qed.

(** A memory record is measured by its fill. *)
Lemma fill_mem_spec v t r :
  target_ok t → is_u64 (addr r) → caps_ok v → kind r ≠ AT_LOC_REG → value_valid r = false → wide r = false →
  filled v t r (fill_mem_value v t r).
Proof.
  intros Ht Ha Hc Hk Hv Hwd. unfold fill_mem_value.
  destruct (Z.eqb_spec (size r) 0); [by apply filled_none|]. destruct (Z.ltb_spec 32 (size r)); [by apply filled_none|]. simpl.
  destruct (child_read t (addr r) (Z.to_nat (size r))) as [bs|] eqn:Eb; [|by apply filled_none].
  destruct (child_read_spec t _ _ bs Ht Ha Eb) as [Hl Hmem].
  assert (Forall is_byte bs) as Hbs.
  { apply Forall_lookup. intros i b Hb. pose proof (lookup_lt_Some _ _ _ Hb). rewrite <-Hmem in Hb by lia.
    by apply (ok_mem t Ht) in Hb as [_ ?]. }
  assert (∀ k i, k.1 = KMEM → k.2 = addr r +64 i → 0 <= i < size r → loc_value t k = bs !! Z.to_nat i) as Hloc.
  { intros k i K1 K2 Hi. unfold loc_value. rewrite K1, K2. simpl. rewrite <-Hmem by lia. by rewrite Z2Nat.id by lia. }
  destruct (Z.leb_spec (size r) 8) as [Hs|Hs].
  - split_and!; simpl; try done; [intros E; simpl in E; congruence|].
    intros k b Hkk. assert (kind (set_value r (le bs)) ≠ AT_LOC_REG) as Hk' by done.
    destruct (mem_key _ k Hk' Hkk) as (K1 & i & Hi & K2 & K3). simpl in K2, K3. unfold rec_bytes in Hi. simpl in Hi.
    unfold rec_val. simpl. rewrite Hwd, K3. assert (0 <= i < size r) by (repeat case_match; lia).
    rewrite (Hloc k i K1 K2) by done. rewrite byte_of_le by (done || lia). rewrite Z2Nat.id by lia.
    by destruct (kind r).
  - destruct (stash_spec v r bs Hc ltac:(lia) Hv) as (v' & r' & -> & G & S & _ & Hr).
    destruct Hr as [-> | (-> & Ew & Eo)].
    { unfold filled. simpl. split_and!; try done; by apply no_value_meas. }
    unfold filled. cbn [fst snd]. split_and!; try apply G; try apply S; simpl; try done.
    + intros _ _. simpl in Eo |- *. rewrite Eo, Ew, length_app. split_and!; lia.
    + intros k b Hkk. assert (kind (set_wide r (Z.of_nat (length (wide_of v)))) ≠ AT_LOC_REG) as Hk' by done.
      destruct (mem_key _ k Hk' Hkk) as (K1 & i & Hi & K2 & K3). simpl in K2, K3. unfold rec_bytes in Hi. simpl in Hi.
      assert (0 <= i < size r) by (repeat case_match; lia). unfold rec_val. simpl in Eo |- *. rewrite K3, Eo, Ew.
      rewrite (Hloc k i K1 K2) by done. rewrite Z2Nat.inj_add, Nat2Z.id by lia.
      rewrite lookup_app_r by lia. replace (length (wide_of v) + Z.to_nat i - length (wide_of v))%nat with (Z.to_nat i) by lia.
      by destruct (kind r).
Qed.

(** ** Appending *)
Lemma push_recs_ok cap idx rs o tr o' :
  foldl (push_rec cap idx) (o, tr) rs = (o', false) →
  tr = false ∧ default [] o' = default [] o ++ ((λ r, with_step r idx) <$> rs).
Proof.
  revert o tr. induction rs as [|r rs IH]; intros o tr; simpl.
  { intros [= -> ->]. by rewrite app_nil_r. }
  destruct o as [l|]; simpl; [destruct (length l <? cap)%nat|]; intros H; apply IH in H as [? E]; try done.
  split; [done|]. rewrite E. simpl. by rewrite <-app_assoc.
Qed.

(** An append that does not flag stores the step. *)
Lemma append_ok v off rs :
  vtruncated (append v off rs) = false → caps_ok v →
  vtruncated v = false ∧ offs (append v off rs) = offs v ++ [off] ∧
  vrecs (append v off rs) = vrecs v ++ ((λ r, with_step r (Z.of_nat (steps_len v))) <$> rs) ∧
  wide_buf (append v off rs) = wide_buf v ∧ caps_ok (append v off rs).
Proof.
  intros H [Hs Hw]. unfold append in *. destruct (insn_off v) as [l|] eqn:El; [|done].
  destruct (Nat.ltb_spec (length l) (steps_cap v)) as [Hl|]; [|done].
  assert (offs v = l) as Eo by (unfold offs; by rewrite El).
  destruct (foldl _ _ rs) as [rec' tr] eqn:Ef. simpl in H. subst tr. apply push_recs_ok in Ef as [? E].
  unfold steps_len. rewrite Eo. rewrite u32_small in E by lia. unfold vrecs, caps_ok, wide_of in *. simpl. split_and!; try done; lia.
Qed.

(** ** The trace invariant *)
Definition writes_key (rs : list at_val_rec) (k : Z * Z) (w : at_val_rec) : Prop :=
  w ∈ rs ∧ is_write w = true ∧ k ∈ write_keys w.
Definition latest (rs : list at_val_rec) (k : Z * Z) (w : at_val_rec) : Prop :=
  writes_key rs k w ∧ ∀ w', writes_key rs k w' → rstep w' <= rstep w.

(** On the keys of [P], the latest recorded value of a location is what the target
    holds at [t].  Only the bytes the writer names are meant ([read_keys]): a
    32-bit register write also defines the upper half of its container. *)
Definition tracks (P : Z * Z → Prop) (v : asmtest_valtrace) (t : target) : Prop :=
  ∀ k w b, P k → latest (vrecs v) k w → k ∈ read_keys w → rec_val (wide_of v) w k = Some b →
           loc_value t k = Some b.
Definition everywhere (k : Z * Z) : Prop := True.

(** Every read agrees with the latest write before it. *)
Definition sound (rs : list at_val_rec) (wb : list Z) : Prop :=
  ∀ r k w b b', r ∈ rs → is_write r = false → k ∈ read_keys r → writes_key rs k w → rstep w < rstep r →
    (∀ w', writes_key rs k w' → rstep w' < rstep r → rstep w' <= rstep w) →
    k ∈ read_keys w → rec_val wb w k = Some b → rec_val wb r k = Some b' → b = b'.

Definition trace_ok (v : asmtest_valtrace) : Prop :=
  sound (vrecs v) (wide_of v) ∧ (∀ r, r ∈ vrecs v → rec_in (wide_of v) r) ∧ grouped v ∧ caps_ok v.

Lemma grows_trace v v' : grows v v' → same_recs v v' → trace_ok v → trace_ok v'.
Proof.
  intros G [Eo Er] (Hs & Hin & Hg & Hc). unfold trace_ok. rewrite Er. split_and!.
  - intros r k w b b' Hr Hrw Hk Hw ? ? Hkw. destruct (Hw) as (? & _). rewrite !(rec_val_grows v v') by auto. by eapply Hs.
  - intros r Hr. by apply (rec_in_grows v), Hin.
  - unfold grouped, steps_len. by rewrite Er, Eo.
  - by apply (g_caps _ _ G).
Qed.
Lemma grows_tracks P v v' t :
  grows v v' → same_recs v v' → trace_ok v → tracks P v t → tracks P v' t.
Proof.
  intros G [Eo Er] (Hs & Hin & Hg & Hc) Htr k w b HP Hl Hk. rewrite Er in Hl. destruct (Hl) as ((? & _) & _).
  rewrite (rec_val_grows v v') by auto. by apply Htr.
Qed.

Lemma elem_stamp (n : Z) (rs : list at_val_rec) x : x ∈ (λ r, with_step r n) <$> rs ↔ ∃ r, r ∈ rs ∧ x = with_step r n.
Proof. rewrite list_elem_of_fmap. naive_solver. Qed.

Lemma stamp_sorted (n : Z) (rs : list at_val_rec) :
  StronglySorted (λ x y, rstep x <= rstep y) ((λ r, with_step r n) <$> rs).
Proof.
  induction rs as [|r rs IH]; simpl; constructor; [done|]. apply Forall_forall.
  intros x (r' & _ & ->)%elem_stamp. done.
Qed.

Lemma append_trace v off rs :
  vtruncated (append v off rs) = false → trace_ok v → (∀ r, r ∈ rs → rec_in (wide_of v) r) →
  (∀ r k w b b', r ∈ rs → is_write r = false → k ∈ read_keys r → latest (vrecs v) k w → k ∈ read_keys w →
     rec_val (wide_of v) w k = Some b → rec_val (wide_of v) r k = Some b' → b = b') →
  trace_ok (append v off rs).
Proof.
  intros Ht (Hs & Hin & [Hg1 Hg2] & Hc) Hrs Hrd. destruct (append_ok v off rs Ht Hc) as (_ & Eo & Er & Ew & Hc').
  rewrite Forall_forall in Hg2. set (n := Z.of_nat (steps_len v)) in *.
  assert (∀ x, x ∈ vrecs (append v off rs) → x ∈ vrecs v ∧ rstep x < n ∨ ∃ r, r ∈ rs ∧ x = with_step r n) as Hcase.
  { intros x. rewrite Er, elem_of_app, elem_stamp. intros [Hx|]; [left|by right]. split; [done|]. apply Hg2 in Hx. lia. }
  assert (wide_of (append v off rs) = wide_of v) as Ewo by (unfold wide_of; by rewrite Ew).
  unfold trace_ok. rewrite Ewo. split_and!; [| | |done].
  - intros r k w b b' Hr Hrw Hk Hw Hlt Hmax Hkw Hb Hb'. destruct (Hw) as (Hwi & Hww & Hkk).
    assert (w ∈ vrecs v) as Hwv.
    { destruct (Hcase w Hwi) as [[? _]|(w0 & _ & ->)]; [done|]. simpl in Hlt.
      destruct (Hcase r Hr) as [[_ ?]|(r0 & _ & ->)]; simpl in *; lia. }
    destruct (Hcase r Hr) as [[Hrv Hrn]|(r0 & Hr0 & ->)].
    + eapply (Hs r k w b b'); try done. intros w' (? & ? & ?). apply Hmax. unfold writes_key. rewrite Er. set_solver.
    + eapply (Hrd r0 k w b b'); try done. split; [done|]. intros w' (Hw' & ? & ?). apply Hmax.
      * unfold writes_key. rewrite Er. set_solver.
      * apply Hg2 in Hw'. simpl. lia.
  - intros x Hx. destruct (Hcase x Hx) as [[? _]|(r & Hr & ->)]; [by apply Hin|by apply (Hrs r)].
  - split.
    + rewrite Er. apply StronglySorted_app; [|apply stamp_sorted|done].
      intros x y Hx (r & _ & ->)%elem_stamp. apply Hg2 in Hx. simpl. lia.
    + apply Forall_forall. intros x Hx. unfold steps_len in *. rewrite Eo, length_app. simpl.
      destruct (Hcase x Hx) as [[Hx' _]|(r & Hr & ->)]; [apply Hg2 in Hx'|simpl]; lia.
Qed.

Lemma append_tracks Q v t off rs :
  vtruncated (append v off rs) = false → trace_ok v →
  (∀ r, r ∈ rs → is_write r = true → meas (wide_of v) t r) →
  (∀ k w b, Q k → (∀ r, r ∈ rs → is_write r = true → k ∉ write_keys r) → latest (vrecs v) k w →
     k ∈ read_keys w → rec_val (wide_of v) w k = Some b → loc_value t k = Some b) →
  tracks Q (append v off rs) t.
Proof.
  intros Ht (Hs & Hin & [Hg1 Hg2] & Hc) Hm Hold k w b HQ [(Hw & Hww & Hkw) Hmax] Hk.
  destruct (append_ok v off rs Ht Hc) as (_ & Eo & Er & Ew & _). rewrite Forall_forall in Hg2.
  assert (wide_of (append v off rs) = wide_of v) as -> by (unfold wide_of; by rewrite Ew).
  rewrite Er, elem_of_app, elem_stamp in Hw. destruct Hw as [Hw|(r & Hr & ->)].
  - intros Hb. eapply Hold; [exact HQ| |split; [done|]|done|done].
    + intros r Hr Hrw Hkr. assert (rstep (with_step r (Z.of_nat (steps_len v))) <= rstep w).
      { apply Hmax. split_and!; [|done|done]. rewrite Er, elem_of_app, elem_stamp. right. by exists r. }
      apply Hg2 in Hw. simpl in *. lia.
    + intros w' (? & ? & ?). apply Hmax. split_and!; [|done|done]. rewrite Er. set_solver.
  - intros Hb. by apply (Hm r Hr Hww k b).
Qed.

(** What the bookkeeping of an open step leaves alone. *)
Definition same_cur (c c' : ctx) : Prop :=
  have_cur c' = have_cur c ∧ cur_off c' = cur_off c ∧ cur c' = cur c ∧ cur_cap c' = cur_cap c.

#[global] Instance same_cur_refl : Reflexive same_cur.
Proof. done. Qed.
#[global] Instance same_cur_trans : Transitive same_cur.
Proof. intros a b c (?&?&?&?) (?&?&?&?). unfold same_cur. split_and!; congruence. Qed.

Lemma append_caps_ok v off rs : caps_ok v → caps_ok (append v off rs).
Proof.
  unfold caps_ok, wide_of, append. intros H. destruct (insn_off v); [|done]. destruct (_ <? _)%nat; [|done].
  by destruct (foldl _ _ rs).
Qed.

(** The context's append is the sink's. *)
Lemma append_step_view c off rs pre :
  ∃ f, vt (dfp_append_step c off rs pre) = set_regfile (append (vt c) off rs) f ∧
       risk (dfp_append_step c off rs pre) = risk c ∧ same_cur c (dfp_append_step c off rs pre).
Proof.
  unfold dfp_append_step. assert (append (vt c) off rs = set_regfile (append (vt c) off rs) (regfile (append (vt c) off rs))) as E
    by (by destruct (append (vt c) off rs)).
  destruct (regfile (append (vt c) off rs)) eqn:Ef; [destruct (_ =? _)%nat|]; simpl; eexists; split_and!; try done; exact E.
Qed.
End DfMeas.
