(* ===== verification/DfGap.v ===== *)
(** The gap barrier of [src/dataflow_ptrace.c]: the at-risk set covers every
    location recorded as written, and the barrier step brings a trace that was up
    to date at the entry of a gap up to date with its exit. *)
From S2P Require Import Prelude Bytes Grow RegSlice ValTrace LwMap DefUse DfTarget DfStep DfMeas.

Module DfGap.
Import RegSlice ValTrace DfTarget DfStep DefUse DfMeas.

(** ** The at-risk set covers the recorded writes *)
Definition at_risk (s : riskset) (w : at_val_rec) : Prop :=
  match kind w with
  | AT_LOC_REG => reg w ∈ risk_regs s
  | _ => ∀ k, k ∈ write_keys w → k.2 ∈ b_addr <$> risk_bytes s
  end.
Definition risk_ok (s : riskset) : Prop :=
  (length (risk_regs s) <= DFP_WIN_RISK_REGS)%nat ∧ Forall (λ x, is_u64 (b_addr x)) (risk_bytes s).
Definition covered (c : ctx) : Prop :=
  risk_ok (risk c) ∧
  (overflow_pending (risk c) = false → ∀ w, w ∈ vrecs (vt c) → is_write w = true → at_risk (risk c) w).

(** [s'] tracks what [s] does. *)
Definition risk_le (s s' : riskset) : Prop :=
  (∀ w, at_risk s w → at_risk s' w) ∧ (overflow_pending s' = false → overflow_pending s = false).
Lemma risk_le_intro s s' :
  risk_regs s ⊆ risk_regs s' → b_addr <$> risk_bytes s ⊆ b_addr <$> risk_bytes s' →
  (overflow_pending s' = false → overflow_pending s = false) → risk_le s s'.
Proof. intros Hr Hb Hp. split; [|done]. intros w. unfold at_risk. destruct (kind w); [apply Hr|intros H k Hk; by apply Hb, H..]. Qed.

Lemma risk_add_byte_spec l a l' :
  is_u64 a → Forall (λ x, is_u64 (b_addr x)) l → risk_add_byte l a = Some l' →
  b_addr <$> l ⊆ b_addr <$> l' ∧ a ∈ b_addr <$> l' ∧ Forall (λ x, is_u64 (b_addr x)) l'.
Proof.
  intros Ha Hl. unfold risk_add_byte. set (lo := lower_bound _ _ _ _ _). destruct (l !! lo) as [x|] eqn:Ex.
  - destruct (Z.eqb_spec (b_addr x) a) as [<-|].
    { intros [= <-]. split_and!; try done. by apply list_elem_of_fmap_2, (list_elem_of_lookup_2 _ lo). }
    destruct (_ =? _)%nat; [done|]. intros [= <-]. rewrite fmap_app, fmap_cons. split_and!; [|set_solver|].
    + rewrite <-(take_drop lo l) at 1. rewrite fmap_app. set_solver.
    + apply Forall_app. split; [by apply Forall_take|]. constructor; [done|by apply Forall_drop].
  - destruct (_ =? _)%nat; [done|]. intros [= <-]. rewrite fmap_app, fmap_cons. split_and!; [|set_solver|].
    + rewrite <-(take_drop lo l) at 1. rewrite fmap_app. set_solver.
    + apply Forall_app. split; [by apply Forall_take|]. constructor; [done|by apply Forall_drop].
Qed.

Lemma risk_add_bytes_spec addrs l :
  Forall is_u64 addrs → Forall (λ x, is_u64 (b_addr x)) l →
  let '(l', ok) := risk_add_bytes l addrs in
  b_addr <$> l ⊆ b_addr <$> l' ∧ Forall (λ x, is_u64 (b_addr x)) l' ∧ (ok = true → addrs ⊆ b_addr <$> l').
Proof.
  intros Ha. revert l. induction Ha as [|a addrs Ha _ IH]; intros l Hl; simpl; [split_and!; set_solver|].
  destruct (risk_add_byte l a) as [l1|] eqn:E; [|done].
  destruct (risk_add_byte_spec _ _ _ Ha Hl E) as (H1 & H2 & H3). specialize (IH l1 H3).
  destruct (risk_add_bytes l1 addrs) as [l' ok]. destruct IH as (H4 & H5 & H6). split_and!; set_solver.
Qed.

(** [c'] is [c] with a larger at-risk set, and [P] holds of it. *)
Record adds (c c' : ctx) (P : Prop) : Prop := {
  a_grows : grows (vt c) (vt c');
  a_recs : same_recs (vt c) (vt c');
  a_cur : same_cur c c';
  a_le : risk_le (risk c) (risk c');
  a_ok : risk_ok (risk c) → risk_ok (risk c');
  a_new : P;
}.

Lemma risk_flag_spec cfg c :
  adds c (dfp_risk_flag cfg c)
    (vtruncated (vt (dfp_risk_flag cfg c)) = false → overflow_pending (risk (dfp_risk_flag cfg c)) = true).
Proof. unfold dfp_risk_flag. destruct (win_mode cfg); (split; simpl; [apply vt_flag_grows || done|done..]). Qed.

Lemma bytes_from_u64 a n : Forall is_u64 (bytes_from a n).
Proof. apply Forall_forall. intros x (i & _ & ->)%elem_bytes_from. apply u64_range. Qed.

Lemma at_risk_mem s r :
  kind r ≠ AT_LOC_REG → 1 <= size r <= 64 → bytes_from (addr r) (size r) ⊆ b_addr <$> risk_bytes s → at_risk s r.
Proof.
  intros Hk Hsz Hl. unfold at_risk, write_keys. destruct (kind r); [done|..]; intros q Hq; rewrite rec_bytes_size in Hq by done;
    apply elem_keys in Hq as [_ Hq]; by apply Hl.
Qed.

Lemma risk_add_spec cfg c r :
  risk_ok (risk c) → (kind r ≠ AT_LOC_REG → 0 <= size r) →
  adds c (dfp_risk_add cfg c r)
    (is_write r = true → vtruncated (vt (dfp_risk_add cfg c r)) = false →
     overflow_pending (risk (dfp_risk_add cfg c r)) = false → at_risk (risk (dfp_risk_add cfg c r)) r).
Proof.
  intros [Hn Hb] Hsz. unfold dfp_risk_add. destruct (is_write r) eqn:Ew; simpl; [|by split].
  pose proof (risk_flag_spec cfg c) as F.
  assert (∀ P : Prop, adds c (dfp_risk_flag cfg c) (true = true → vtruncated (vt (dfp_risk_flag cfg c)) = false →
     overflow_pending (risk (dfp_risk_flag cfg c)) = false → P)) as Hflag.
  { intros P. destruct F as [? ? ? ? ? F]. split; try done. intros _ H1 H2. rewrite F in H2 by done. done. }
  destruct (decide (kind r = AT_LOC_REG)) as [Ek|Ek].
  - rewrite Ek. destruct (case_of (reg r) (risk_regs (risk c))) eqn:Ec.
    { split; try done. intros _ _ _. unfold at_risk. rewrite Ek. by apply case_of_In. }
    destruct (Nat.eqb_spec (length (risk_regs (risk c))) DFP_WIN_RISK_REGS); [apply Hflag|].
    split; simpl; try done.
    + apply risk_le_intro; simpl; [set_solver|done|done].
    + intros [? ?]. split; simpl; [|done]. rewrite length_app. simpl. lia.
    + intros _ _ _. unfold at_risk. rewrite Ek. simpl. set_solver.
  - match goal with |- adds c ?x _ => assert (x = if (size r =? 0) || (64 <? size r) then dfp_risk_flag cfg c
       else let '(l, ok) := risk_add_bytes (risk_bytes (risk c)) (bytes_from (addr r) (size r)) in
            let c := set_risk c (mk_risk (risk_regs (risk c)) l (overflow (risk c)) (overflow_pending (risk c))) in
            if ok then c else dfp_risk_flag cfg c) as -> by (by destruct (kind r)) end.
    destruct (Z.eqb_spec (size r) 0); [apply Hflag|]. destruct (Z.ltb_spec 64 (size r)); [apply Hflag|]. simpl.
    pose proof (risk_add_bytes_spec (bytes_from (addr r) (size r)) (risk_bytes (risk c)) (bytes_from_u64 _ _) Hb) as S.
    destruct (risk_add_bytes _ _) as [l ok]. destruct S as (S1 & S2 & S3). set (c1 := set_risk c _).
    assert (risk_le (risk c) (risk c1)) as Hle by (apply risk_le_intro; done).
    destruct ok.
    + split; simpl; try done. intros _ _ _. apply at_risk_mem; [done|specialize (Hsz Ek); lia|by apply S3].
    + pose proof (risk_flag_spec cfg c1) as [G1 G2 G3 G4 G5 G6]. split; try done.
      * destruct Hle, G4. split; auto.
      * intros _. by apply G5.
      * intros _ H1 H2. rewrite G6 in H2 by done. done.
Qed.

Lemma risk_adds_spec cfg c l :
  risk_ok (risk c) → Forall (λ r, kind r ≠ AT_LOC_REG → 0 <= size r) l →
  let c' := foldl (dfp_risk_add cfg) c l in
  adds c c' (vtruncated (vt c') = false → overflow_pending (risk c') = false →
             ∀ r, r ∈ l → is_write r = true → at_risk (risk c') r).
Proof.
  intros Hok Hl. cbv zeta. revert c Hok. induction Hl as [|r l Hr _ IH]; intros c Hok; simpl.
  { split; try done. intros _ _ r Hr. by apply not_elem_of_nil in Hr. }
  pose proof (risk_add_spec cfg c r Hok Hr) as [A1 A2 A3 A4 A5 A6].
  destruct (IH (dfp_risk_add cfg c r) (A5 Hok)) as [B1 B2 B3 B4 B5 B6]. split.
  - by etransitivity.
  - by etransitivity.
  - by etransitivity.
  - destruct A4, B4. split; auto.
  - auto.
  - intros Ht Hp x Hx Hw. apply elem_of_cons in Hx as [->|Hx]; [|by apply B6].
    apply (proj1 B4), A6; [done|by apply (g_flag _ _ B1)|by apply (proj2 B4)].
Qed.

(** ** The gap barrier *)
(** The keys of a register. *)
Definition reg_keys (x : Z) : list (Z * Z) := read_keys (gap_rec AT_LOC_REG x 0 0 0).
Lemma reg_keys_read r : kind r = AT_LOC_REG → read_keys r = reg_keys (reg r).
Proof. intros Ek. unfold reg_keys, read_keys. by rewrite Ek. Qed.

(** A register the barrier leaves out kept its value; one it records is
    measured at the exit. *)
Definition gap_reg_ok (t t' : target) (v v' : asmtest_valtrace) (x : Z) (o : option at_val_rec) : Prop :=
  match o with
  | None => vtruncated v' = false → ∀ k b, k ∈ reg_keys x → loc_value t k = Some b → loc_value t' k = Some b
  | Some r => kind r = AT_LOC_REG ∧ reg r = x ∧ is_write r = true ∧ rec_in (wide_of v') r ∧ meas (wide_of v') t' r ∧ 0 <= size r
  end.

(** A usable row of a snapshot is the register. *)
Lemma vec_row t x idx :
  target_ok t → vec_width x ≠ 0 → idx = x - (if vec_width x =? 16 then X86_REG_XMM0 else X86_REG_YMM0) →
  have (dfp_vecsnap t) = true → (16 <= idx → have_hi (dfp_vecsnap t) = true) →
  ∃ row, ymm (dfp_vecsnap t) !! Z.to_nat idx = Some row ∧ length row = 32%nat ∧
         reg_value t x = Some (le (take (Z.to_nat (vec_width x)) row)).
Proof.
  intros Ht Hw Ei Hh Hhi.
  assert (0 <= idx <= 31) as Hi
    by (destruct (vec_width_cases x) as [?|[[E ?]|[E ?]]]; [done|..]; rewrite E in Ei; simpl in Ei; lia).
  destruct (vecsnap_row t idx Hh Hi Hhi) as (xmm & mx & Ef & Er). eexists. split; [exact Er|]. split; [|by eapply vecsnap_read].
  destruct (Z.leb_spec 16 idx) as [Hge|].
  - specialize (Hhi Hge). assert (is_Some (t_xs t)) as [xs Exs].
    { unfold dfp_vecsnap in Hhi. rewrite Ef in Hhi. destruct (t_xs t); [by eexists|done]. }
    destruct (vecsnap_hi t xs Hhi Exs) as [Hz Hl]. pose proof (ok_hi16 t Ht). rewrite Exs. simpl. unfold part, ASMTEST_HI16_STRIDE in *.
    rewrite length_take, length_drop. lia.
  - destruct (ok_fp t Ht _ _ Ef) as [L _]. rewrite length_app, length_ymm_high by lia. unfold part.
    rewrite length_take, length_drop. lia.
Qed.

Lemma gap_reg_spec t t' pre post v x :
  target_ok t → target_ok t' → t_regs t = Some pre → t_regs t' = Some post → caps_ok v →
  let '(v', o) := gap_reg pre post (dfp_vecsnap t) (dfp_vecsnap t') v x in
  grows v v' ∧ same_recs v v' ∧ gap_reg_ok t t' v v' x o.
Proof.
  intros Ht Ht' Hpre Hpost Hc. unfold gap_reg. destruct (vt_flag_grows v) as [Gf Sf].
  assert (gap_reg_ok t t' v (vt_flag v) x None) as Hf by done.
  destruct (Z.eqb_spec (vec_width x) 0) as [Hw|Hw].
  - destruct (gp_value pre x) as [a|] eqn:Ea; [|done]. destruct (gp_value post x) as [b|] eqn:Eb; [|done].
    destruct (dfp_alias_shape x) as [[sh wd]|] eqn:Esh; [|done].
    assert (0 <= wd) as Hwd.
    { unfold dfp_alias_shape in Esh. repeat (case_match; [injection Esh as <- <-; lia|]). done. }
    assert (∀ r, kind r = AT_LOC_REG → reg r = x → wide r = false → value r = b → meas (wide_of v) t' r) as Hm.
    { intros r Ek Er Ew Ev k y Hk. rewrite reg_keys_read, Er in Hk by done. unfold reg_keys, read_keys in Hk. simpl in Hk.
      unfold rec_val. destruct (value_valid r); [|done]. simpl. rewrite Ek, Er, Ew, Ev. unfold loc_value.
      destruct (reg_slice x) as [[[c off] len]|] eqn:Es; intros [= <-].
      - pose proof (reg_slice_spec x) as S. rewrite Es in S. destruct S as (_ & _ & ? & ? & ? & _).
        destruct (slice_key _ c off len len k Es ltac:(lia) Hk) as (K1 & K2 & _).
        destruct (alias_shape_slice _ _ _ _ Es) as (_ & _ & _ & Hg). destruct (Hg post) as [Eg _].
        rewrite K1, K2, Hpost. simpl. by rewrite <-Eg, Eb.
      - apply list_elem_of_singleton in Hk as ->. simpl. unfold reg_value. by rewrite Hw, Hpost. }
    destruct (Z.eqb_spec (dfp_alias_slice a sh wd) (dfp_alias_slice b sh wd)) as [Eq|Hne].
    + split_and!; try done. intros _ k y Hk. unfold loc_value. unfold reg_keys, read_keys in Hk. simpl in Hk.
      pose proof (ok_regs t Ht _ _ _ Hpre Ea) as Ua. pose proof (ok_regs t' Ht' _ _ _ Hpost Eb) as Ub.
      destruct (reg_slice x) as [[[c off] len]|] eqn:Es.
      * pose proof (reg_slice_spec x) as S. rewrite Es in S. destruct S as (_ & _ & ? & ? & ? & _).
        destruct (slice_key _ c off len len k Es ltac:(lia) Hk) as (K1 & K2 & K3).
        destruct (alias_shape_slice _ _ _ _ Es) as (Es' & _ & _ & Hg). rewrite Es' in Esh. injection Esh as <- <-.
        destruct (Hg pre) as [Eg _], (Hg post) as [Eg' _].
        rewrite K1, K2, Hpre, Hpost. simpl. rewrite <-Eg, <-Eg', Ea, Eb. simpl. intros [= <-]. f_equal. symmetry.
        by eapply (alias_slice_bytes a b off len).
      * apply list_elem_of_singleton in Hk as ->. simpl. unfold reg_value. rewrite Hw, Hpre, Hpost. simpl. rewrite Ea, Eb.
        intros [= <-]. f_equal. destruct (alias_shape_raw x sh wd Es Esh) as (-> & -> & _).
        unfold dfp_alias_slice in Eq. simpl in Eq. by rewrite !Z.shiftr_0_r in Eq.
    + split; [done|split; [done|]]. simpl. split_and!; try done. by apply Hm.
  - set (idx := x - _).
    destruct ((idx <? 0) || _ || _ || _ || _) eqn:Hcond; [done|].
    rewrite !orb_false_iff, !negb_false_iff in Hcond. destruct Hcond as [[[[Hi1 Hi2] Hh] Hh'] Hhi].
    assert (16 <= idx → have_hi (dfp_vecsnap t) = true ∧ have_hi (dfp_vecsnap t') = true) as Hhi'.
    { intros Hge. rewrite (proj2 (Z.leb_le _ _) Hge), andb_true_l, orb_false_iff, !negb_false_iff in Hhi. done. }
    destruct (vec_row t x idx Ht Hw eq_refl Hh (λ H, proj1 (Hhi' H))) as (row & Er & Lr & Vr).
    destruct (vec_row t' x idx Ht' Hw eq_refl Hh' (λ H, proj2 (Hhi' H))) as (row' & Er' & Lr' & Vr').
    rewrite (nth_lookup_Some _ _ _ _ Er), (nth_lookup_Some _ _ _ _ Er').
    pose proof (vec_width_slice _ Hw) as Es. case_bool_decide as Eq.
    + split; [done|split; [done|]]. intros _ k y Hk. unfold reg_keys, read_keys in Hk. simpl in Hk. rewrite Es in Hk.
      apply list_elem_of_singleton in Hk as ->. unfold loc_value. simpl. by rewrite Vr, Vr', Eq.
    + assert (16 <= vec_width x <= 32) by (pose proof (vec_width_cases x); lia).
      assert (Z.of_nat (length (take (Z.to_nat (vec_width x)) row')) = vec_width x) as Ll by (rewrite length_take; lia).
      destruct (stash_wide_spec v (take (Z.to_nat (vec_width x)) row') Hc ltac:(lia)) as (off & v' & -> & G & S & Hok & _).
      destruct (Z.eqb_spec off SIZE_MAX) as [|Hne].
      { destruct (vt_flag_grows v') as [G' S']. split; [by etransitivity|]. split; [by etransitivity|]. done. }
      destruct (Hok Hne) as (-> & Ew & Hr & _). split; [done|]. split; [done|]. simpl. split_and!; try done; try lia.
      * intros _ _. simpl. rewrite u32_small, Ew, length_app by lia. split_and!; try done; lia.
      * intros k y Hk. unfold read_keys in Hk. simpl in Hk. rewrite Es in Hk.
        apply list_elem_of_singleton in Hk as ->. unfold rec_val, loc_value. simpl. rewrite Es, Vr', u32_small by lia.
        pose proof (part_app (wide_of v) (take (Z.to_nat (vec_width x)) row')) as P. rewrite Ll in P. by rewrite Ew, P.
Qed.

(** The records of a barrier: writes measured at its exit. *)
Definition gap_new (wb : list Z) (t' : target) (r : at_val_rec) : Prop :=
  is_write r = true ∧ rec_in wb r ∧ meas wb t' r ∧ 0 <= size r.

Lemma gap_new_grows v v' t' r : grows v v' → gap_new (wide_of v) t' r → gap_new (wide_of v') t' r.
Proof. intros G (H1 & H2 & H3 & H4). split; [done|]. split; [by eapply rec_in_grows|]. split; [by eapply meas_grows|done]. Qed.

Lemma gap_regs_spec t t' pre post v l :
  target_ok t → target_ok t' → t_regs t = Some pre → t_regs t' = Some post → caps_ok v →
  (length l <= DFP_WIN_RISK_REGS)%nat →
  let '(v', rs) := gap_regs pre post (dfp_vecsnap t) (dfp_vecsnap t') v l in
  grows v v' ∧ same_recs v v' ∧ (length rs <= length l)%nat ∧
  (∀ r, r ∈ rs → gap_new (wide_of v') t' r ∧ kind r = AT_LOC_REG ∧ reg r ∈ l) ∧
  (vtruncated v' = false → ∀ x, x ∈ l → (∃ r, r ∈ rs ∧ reg r = x) ∨
     ∀ k b, k ∈ reg_keys x → loc_value t k = Some b → loc_value t' k = Some b).
Proof.
  intros Ht Ht' Hpre Hpost Hc. unfold gap_regs. induction l as [|x l IH] using rev_ind; intros Hl.
  { split; [done|split; [done|split; [done|split]]]; intros; by destruct (not_elem_of_nil (A := at_val_rec) _) || set_solver. }
  rewrite length_app in Hl. simpl in Hl. rewrite foldl_app. specialize (IH ltac:(lia)).
  destruct (foldl _ _ l) as [v1 rs]. destruct IH as (G1 & S1 & L1 & N1 & C1). cbn [foldl].
  destruct (Nat.ltb_spec (length rs) DFP_WIN_RISK_REGS); [|lia].
  pose proof (gap_reg_spec t t' pre post v1 x Ht Ht' Hpre Hpost (g_caps _ _ G1 Hc)) as R.
  destruct (gap_reg _ _ _ _ v1 x) as [v2 o]. destruct R as (G2 & S2 & R).
  split; [by etransitivity|split; [by etransitivity|split; [|split]]].
  - rewrite !length_app. destruct o; simpl; lia.
  - intros r [Hr|Hr]%elem_of_app.
    + destruct (N1 r Hr) as (? & ? & ?). split_and!; [by eapply gap_new_grows..|done|set_solver].
    + destruct o as [r0|]; simpl in Hr; [|by apply not_elem_of_nil in Hr]. apply list_elem_of_singleton in Hr as ->.
      destruct R as (? & <- & ? & ? & ? & ?). split_and!; try done. set_solver.
  - intros Hf y [Hy|Hy]%elem_of_app.
    + destruct (C1 (g_flag _ _ G2 Hf) y Hy) as [(r & ? & ?)|]; [left; exists r; set_solver|by right].
    + apply list_elem_of_singleton in Hy as ->. destruct o as [r0|]; simpl in R.
      * left. exists r0. split; [set_solver|tauto].
      * right. by apply R.
Qed.

(** The at-risk bytes as they were at the gap entry. *)
Definition snapped (s : riskset) (t : target) : Prop :=
  ∀ x, x ∈ risk_bytes s → b_ok x = true → t_mem t !! b_addr x = Some (b_snap x).

Lemma child_read_1 t a bs :
  target_ok t → is_u64 a → child_read t a 1 = Some bs → ∃ x, bs = [x] ∧ t_mem t !! a = Some x ∧ is_byte x.
Proof.
  intros Ht Ha E. destruct (child_read_spec t a 1 bs Ht Ha E) as [L M]. destruct bs as [|x [|]]; try done.
  specialize (M 0%nat ltac:(lia)). simpl in M. rewrite Z.add_0_r, u64_small in M by done.
  exists x. split_and!; [done|done|]; by apply (ok_mem t Ht) in M as [_ ?].
Qed.

Lemma gap_mem_rec t' v a x :
  is_u64 a → is_byte x → t_mem t' !! a = Some x → gap_new (wide_of v) t' (gap_rec AT_LOC_MEM_ABS 0 a 1 x).
Proof.
  intros Ha Hx Hm. split; [done|]. split; [done|]. split; [|done]. intros k b Hk.
  destruct (mem_key (gap_rec AT_LOC_MEM_ABS 0 a 1 x) k ltac:(done) Hk) as (K1 & i & Hi & K2 & K3). unfold rec_bytes in Hi. simpl in *.
  assert (i = 0) as -> by lia. rewrite Z.add_0_r, u64_small in K2 by done. unfold rec_val, loc_value. simpl. rewrite K3, K1, K2. simpl.
  intros [= <-]. rewrite Hm. unfold byte_of, is_byte in *. f_equal. rewrite Z.pow_0_r, Z.div_1_r. dlia.
Qed.

(** What the memory part of a barrier adds: [new] records the bytes that
    changed. *)
Definition gap_mem_ok (t t' : target) (l : list risk_byte) (v v' : asmtest_valtrace) (new : list at_val_rec) : Prop :=
  grows v v' ∧ same_recs v v' ∧
  (∀ r, r ∈ new → gap_new (wide_of v') t' r ∧ kind r = AT_LOC_MEM_ABS ∧ size r = 1 ∧ addr r ∈ b_addr <$> l) ∧
  (vtruncated v' = false → (∀ x, x ∈ l → b_ok x = true → t_mem t !! b_addr x = Some (b_snap x)) →
   ∀ a, a ∈ b_addr <$> l → (∃ r, r ∈ new ∧ addr r = a) ∨ t_mem t' !! a = t_mem t !! a).

(** One more byte in front: already decided by a record or by equality, or the
    trace is flagged. *)
Lemma gap_mem_cons t t' x l v0 v v' new add :
  grows v0 v → same_recs v0 v → gap_mem_ok t t' l v v' new →
  (∀ r, r ∈ add → gap_new (wide_of v) t' r ∧ kind r = AT_LOC_MEM_ABS ∧ size r = 1 ∧ addr r = b_addr x) →
  (vtruncated v = false → (b_ok x = true → t_mem t !! b_addr x = Some (b_snap x)) →
     (∃ r, r ∈ add ∧ addr r = b_addr x) ∨ t_mem t' !! b_addr x = t_mem t !! b_addr x) →
  ∀ new', new' ≡ₚ add ++ new → gap_mem_ok t t' (x :: l) v0 v' new'.
Proof.
  intros G0 S0 (G & S & N & C) Hadd Hx new' Ep. split; [by etransitivity|]. split; [by etransitivity|]. split.
  - intros r. rewrite Ep, elem_of_app. intros [Hr|Hr].
    + destruct (Hadd r Hr) as (? & ? & ? & E). split; [by eapply gap_new_grows|]. rewrite E. set_solver.
    + destruct (N r Hr) as (? & ? & ? & ?). split; [done|]. set_solver.
  - intros Hf Hs a Ha. setoid_rewrite Ep. setoid_rewrite elem_of_app. rewrite fmap_cons in Ha. apply elem_of_cons in Ha as [->|Ha].
    + destruct (Hx (g_flag _ _ G Hf)) as [(r & ? & ?)|]; [apply Hs; set_solver|left; exists r; auto|by right].
    + destruct (C Hf) with a as [(r & ? & ?)|]; [intros; apply Hs; set_solver|done|left; exists r; auto|by right].
Qed.

Lemma gap_mem_spec t t' l v rs mrs :
  target_ok t' → Forall (λ x, is_u64 (b_addr x)) l →
  ∃ v' n1 n2, gap_mem t' v rs mrs l = (v', rs ++ n1, mrs ++ n2) ∧ gap_mem_ok t t' l v v' (n1 ++ n2).
Proof.
  intros Ht' Hl. revert v rs mrs. induction Hl as [|x l Hx Hl IH]; intros v rs mrs; cbn [gap_mem].
  { exists v, [], []. rewrite !app_nil_r. split; [done|]. split; [done|]. split; [done|]. set_solver. }
  destruct (vt_flag_grows v) as [Gf Sf].
  assert (∃ v' n1 n2, gap_mem t' (vt_flag v) rs mrs l = (v', rs ++ n1, mrs ++ n2) ∧ gap_mem_ok t t' (x :: l) v v' (n1 ++ n2)) as Hflag.
  { destruct (IH (vt_flag v) rs mrs) as (v' & n1 & n2 & E & H). exists v', n1, n2. split; [done|].
    by eapply (gap_mem_cons t t' x l v (vt_flag v) v' _ []); [..|set_solver| |]. }
  destruct (b_ok x) eqn:Eok; [|exact Hflag].
  destruct (child_read t' (b_addr x) 1) as [bs|] eqn:Ec; [|exact Hflag].
  destruct (child_read_1 _ _ _ Ht' Hx Ec) as (y & -> & Hy & Hyb).
  destruct (Z.eqb_spec y (b_snap x)) as [->|Hne].
  { destruct (IH v rs mrs) as (v' & n1 & n2 & E & H). exists v', n1, n2. split; [done|].
    eapply (gap_mem_cons t t' x l v v v' _ []); [done..|set_solver| |done]. intros _ Hs. right. rewrite Hs by done. done. }
  pose proof (gap_mem_rec t' v _ _ Hx Hyb Hy) as Hnew. set (r0 := gap_rec _ _ _ _ _) in *.
  assert (∀ v' new new', gap_mem_ok t t' l v v' new → new' ≡ₚ r0 :: new → gap_mem_ok t t' (x :: l) v v' new') as Hadd.
  { intros v' new new' H Ep. eapply (gap_mem_cons t t' x l v v v' new [r0]); [done..| | |exact Ep].
    - by intros r ->%list_elem_of_singleton.
    - intros _ _. left. exists r0. set_solver. }
  destruct (Nat.ltb_spec (length rs) DFP_WIN_RISK_REGS).
  { destruct (IH v (rs ++ [r0]) mrs) as (v' & n1 & n2 & -> & H'). exists v', (r0 :: n1), n2.
    rewrite <-app_assoc. split; [done|]. by eapply Hadd. }
  destruct (Nat.ltb_spec (length mrs) 64).
  { destruct (IH v rs (mrs ++ [r0])) as (v' & n1 & n2 & -> & H'). exists v', n1, (r0 :: n2).
    rewrite <-app_assoc. split; [done|]. eapply Hadd; [done|]. by rewrite <-Permutation_middle. }
  exists (vt_flag v), [], []. rewrite !app_nil_r. split; [done|]. split; [done|]. split; [done|]. split; [set_solver|done].
Qed.

(** Appending records through the context. *)
Lemma append_step_trace c off rs pre :
  vtruncated (vt (dfp_append_step c off rs pre)) = false → trace_ok (vt c) →
  (∀ r, r ∈ rs → rec_in (wide_of (vt c)) r) →
  (∀ r k w b b', r ∈ rs → is_write r = false → k ∈ read_keys r → latest (vrecs (vt c)) k w → k ∈ read_keys w →
     rec_val (wide_of (vt c)) w k = Some b → rec_val (wide_of (vt c)) r k = Some b' → b = b') →
  trace_ok (vt (dfp_append_step c off rs pre)) ∧ wide_of (vt (dfp_append_step c off rs pre)) = wide_of (vt c).
Proof.
  destruct (append_step_view c off rs pre) as (f & -> & _). intros Ht Hok Hin Hrd. split.
  - by apply (append_trace (vt c) off rs).
  - destruct (append_ok (vt c) off rs Ht (proj2 (proj2 (proj2 Hok)))) as (_ & _ & _ & E & _).
    unfold wide_of. simpl. by rewrite E.
Qed.
Lemma append_step_tracks Q c t off rs pre :
  vtruncated (vt (dfp_append_step c off rs pre)) = false → trace_ok (vt c) →
  (∀ r, r ∈ rs → is_write r = true → meas (wide_of (vt c)) t r) →
  (∀ k w b, Q k → (∀ r, r ∈ rs → is_write r = true → k ∉ write_keys r) → latest (vrecs (vt c)) k w →
     k ∈ read_keys w → rec_val (wide_of (vt c)) w k = Some b → loc_value t k = Some b) →
  tracks Q (vt (dfp_append_step c off rs pre)) t.
Proof. destruct (append_step_view c off rs pre) as (f & -> & _). apply (append_tracks Q (vt c) t off rs). Qed.

Lemma append_step_flag c off rs pre :
  caps_ok (vt c) → vtruncated (vt (dfp_append_step c off rs pre)) = false → vtruncated (vt c) = false.
Proof. destruct (append_step_view c off rs pre) as (f & -> & _). intros Hc H. by apply (append_ok (vt c) off rs) in H as [? _]. Qed.

Lemma append_step_covered c off rs pre :
  vtruncated (vt (dfp_append_step c off rs pre)) = false → caps_ok (vt c) → covered c →
  (overflow_pending (risk c) = false → ∀ r, r ∈ rs → is_write r = true → at_risk (risk c) r) →
  covered (dfp_append_step c off rs pre).
Proof.
  destruct (append_step_view c off rs pre) as (f & E & Er & _). unfold covered. rewrite E, Er. intros Ht Hc [H1 H2] Hrs.
  split; [done|]. intros Hp w Hw Hww. destruct (append_ok (vt c) off rs Ht Hc) as (_ & _ & Ev & _ & _).
  change (vrecs (set_regfile (append (vt c) off rs) f)) with (vrecs (append (vt c) off rs)) in Hw.
  rewrite Ev, elem_of_app, elem_stamp in Hw. destruct Hw as [Hw|(r & Hr & ->)]; [by apply H2|].
  by apply (Hrs Hp r).
Qed.

(** A location a barrier does not record kept its value across the gap. *)
Lemma gap_frame c t t' (rs : list at_val_rec) k w b :
  covered c → overflow_pending (risk c) = false →
  (∀ x, x ∈ risk_regs (risk c) → (∃ r, r ∈ rs ∧ kind r = AT_LOC_REG ∧ reg r = x) ∨
     ∀ k b, k ∈ reg_keys x → loc_value t k = Some b → loc_value t' k = Some b) →
  (∀ a, a ∈ b_addr <$> risk_bytes (risk c) → (∃ r, r ∈ rs ∧ kind r = AT_LOC_MEM_ABS ∧ size r = 1 ∧ addr r = a) ∨
     t_mem t' !! a = t_mem t !! a) →
  (∀ r, r ∈ rs → is_write r = true) → tracks everywhere (vt c) t →
  (∀ r, r ∈ rs → is_write r = true → k ∉ write_keys r) → latest (vrecs (vt c)) k w →
  k ∈ read_keys w → rec_val (wide_of (vt c)) w k = Some b → loc_value t' k = Some b.
Proof.
  intros [Hok Hcov] Hp Hregs Hmem Hrs Htr Hno Hlat Hk Hb. pose proof (Htr k w b I Hlat Hk Hb) as Hv.
  destruct Hlat as [(Hw & Hww & Hkw) _]. specialize (Hcov Hp w Hw Hww). unfold at_risk in Hcov.
  destruct (decide (kind w = AT_LOC_REG)) as [Ek|Ek].
  - rewrite Ek in Hcov. destruct (Hregs _ Hcov) as [(r & Hr & Ekr & Er)|Hsame].
    + exfalso. apply (Hno r Hr (Hrs r Hr)). revert Hkw. unfold write_keys. by rewrite Ek, Ekr, Er.
    + rewrite reg_keys_read in Hk by done. by apply Hsame.
  - assert (k.2 ∈ b_addr <$> risk_bytes (risk c)) as Ha by (destruct (kind w); [done|by apply Hcov..]).
    destruct (mem_key w k Ek Hk) as (K1 & i & _ & K2 & _).
    destruct (Hmem _ Ha) as [(r & Hr & Ekr & Esz & Er)|Hsame].
    + exfalso. apply (Hno r Hr (Hrs r Hr)). unfold write_keys, rec_bytes. rewrite Ekr, Esz, Er. simpl.
      destruct k as [k1 k2]. simpl in *. subst k1. apply list_elem_of_singleton. f_equal.
      rewrite Z.add_0_r. symmetry. apply u64_small. rewrite K2. apply u64_range.
    + revert Hv. unfold loc_value. rewrite K1. simpl. congruence.
Qed.

(** The state a gap is left in. *)
Definition in_gap (c : ctx) (t : target) : Prop :=
  trace_ok (vt c) ∧ tracks everywhere (vt c) t ∧ covered c ∧ snapped (risk c) t ∧ overflow_pending (risk c) = false.

(** Both parts of a barrier collected, before any is appended: what they do not
    record is as it was at the entry. *)
Definition gap_ready (c : ctx) (t' : target) (all : list at_val_rec) : Prop :=
  trace_ok (vt c) ∧ covered c ∧ (∀ r, r ∈ all → gap_new (wide_of (vt c)) t' r ∧ at_risk (risk c) r) ∧
  ∀ k w b, (∀ r, r ∈ all → k ∉ write_keys r) → latest (vrecs (vt c)) k w → k ∈ read_keys w →
    rec_val (wide_of (vt c)) w k = Some b → loc_value t' k = Some b.

Lemma gap_collect c t t' pre post :
  target_ok t → target_ok t' → t_regs t = Some pre → t_regs t' = Some post →
  (vtruncated (vt c) = false → in_gap c t) → caps_ok (vt c) → risk_ok (risk c) →
  let '(v1, rs) := gap_regs pre post (dfp_vecsnap t) (dfp_vecsnap t') (vt c) (risk_regs (risk c)) in
  let '(v2, rs, mrs) := gap_mem t' v1 rs [] (risk_bytes (risk c)) in
  caps_ok v2 ∧ (vtruncated v2 = false → gap_ready (set_vt c v2) t' (rs ++ mrs)).
Proof.
  intros Ht Ht' Hpre Hpost Hgap Hc [Hn Hb].
  pose proof (gap_regs_spec t t' pre post (vt c) (risk_regs (risk c)) Ht Ht' Hpre Hpost Hc Hn) as R.
  destruct (gap_regs _ _ _ _ _ _) as [v1 rs]. destruct R as (G1 & S1 & _ & N1 & C1).
  destruct (gap_mem_spec t t' (risk_bytes (risk c)) v1 rs [] Ht' Hb) as (v2 & n1 & n2 & -> & G2 & S2 & N2 & C2).
  rewrite app_nil_l, <-app_assoc. assert (grows (vt c) v2) as G by (by etransitivity).
  assert (same_recs (vt c) v2) as S by (by etransitivity). split; [by apply (g_caps _ _ G)|]. intros Hf.
  destruct (Hgap (g_flag _ _ G Hf)) as (Hok & Htr & Hcov & Hsn & Hp).
  assert (∀ r, r ∈ rs ++ n1 ++ n2 → gap_new (wide_of v2) t' r) as Hnew.
  { intros r [Hr|Hr]%elem_of_app; [eapply gap_new_grows; [exact G2|]; by apply N1|by apply N2]. }
  assert (covered (set_vt c v2)) as Hcov2 by (destruct Hcov as [? Hcv]; split; [done|]; simpl; by rewrite (proj2 S)).
  split; [by eapply grows_trace|]. split; [done|]. split.
  - intros r Hr. split; [by apply Hnew|]. apply elem_of_app in Hr as [Hr|Hr].
    + destruct (N1 r Hr) as (_ & Ek & ?). unfold at_risk. by rewrite Ek.
    + destruct (N2 r Hr) as (_ & Ek & Es & Ha). apply at_risk_mem; [congruence|lia|]. rewrite Es.
      apply list_elem_of_fmap in Ha as (x & E & Hx). rewrite Forall_forall in Hb. specialize (Hb x Hx).
      intros a (i & Hi & ->)%elem_bytes_from. replace i with 0%nat by lia. rewrite E, Z.add_0_r, u64_small by done.
      by apply list_elem_of_fmap_2.
  - intros k w b Hno. apply (gap_frame (set_vt c v2) t t' (rs ++ n1 ++ n2)); try done.
    + intros x Hx. destruct (C1 (g_flag _ _ G2 Hf) x Hx) as [(r & Hr & E)|]; [left; exists r|by right].
      split; [set_solver|]. split; [by apply N1|done].
    + intros a Ha. destruct (C2 Hf Hsn a Ha) as [(r & Hr & E)|]; [left; exists r|by right].
      destruct (N2 r Hr) as (_ & ? & ? & _). split; [set_solver|done].
    + intros r Hr. by apply Hnew.
    + simpl. by eapply grows_tracks.
    + intros r Hr _. by apply Hno.
Qed.

(** Appending one batch leaves the rest to be appended. *)
Lemma gap_append c t' off rs rest pre :
  caps_ok (vt c) → (vtruncated (vt c) = false → gap_ready c t' (rs ++ rest)) →
  let c' := dfp_append_step c off rs (Some pre) in
  caps_ok (vt c') ∧ risk c' = risk c ∧ same_cur c c' ∧ (vtruncated (vt c') = false → gap_ready c' t' rest).
Proof.
  intros Hc Hr. cbv zeta. destruct (append_step_view c off rs (Some pre)) as (f & Ef & Er & Ec).
  split; [rewrite Ef; by apply (append_caps_ok (vt c))|]. split; [done|]. split; [done|]. intros Hf.
  destruct (Hr (append_step_flag c off rs (Some pre) Hc Hf)) as (Hok & Hcov & Hnew & Hold).
  destruct (append_step_trace c off rs (Some pre) Hf Hok) as [T1 T2].
  { intros r Hr'. apply Hnew. set_solver. }
  { intros r k w b b' Hr' Hrw. destruct (Hnew r) as [(E & _) _]; [set_solver|congruence]. }
  split; [done|]. split; [|split].
  - apply append_step_covered; try done. intros _ r Hr' _. apply Hnew. set_solver.
  - rewrite T2, Er. intros r Hr'. apply Hnew. set_solver.
  - assert (tracks (λ k, ∀ r, r ∈ rest → k ∉ write_keys r) (vt (dfp_append_step c off rs (Some pre))) t') as T.
    { apply append_step_tracks; [done|done|intros r Hr' _; apply Hnew; set_solver|].
      intros k w b HQ Hno. apply Hold. intros r [Hr'|Hr']%elem_of_app; [|by apply HQ]. apply Hno; [done|]. apply Hnew. set_solver. }
    intros k w b Hno. by apply T.
Qed.

(** The barrier brings the trace up to date with the exit. *)
Lemma emit_gap_spec c t t' pre post pc :
  target_ok t → target_ok t' → t_regs t = Some pre → t_regs t' = Some post →
  (vtruncated (vt c) = false → in_gap c t) → caps_ok (vt c) → risk_ok (risk c) →
  let c' := (dfp_emit_gap c t' pre post (dfp_vecsnap t) (dfp_vecsnap t') pc).1.1 in
  caps_ok (vt c') ∧ risk c' = risk c ∧ same_cur c c' ∧
  (vtruncated (vt c') = false → trace_ok (vt c') ∧ tracks everywhere (vt c') t' ∧ covered c').
Proof.
  intros Ht Ht' Hpre Hpost Hgap Hc Hrk. unfold dfp_emit_gap.
  pose proof (gap_collect c t t' pre post Ht Ht' Hpre Hpost Hgap Hc Hrk) as H.
  destruct (gap_regs _ _ _ _ _ _) as [v1 rs0]. destruct (gap_mem _ _ _ _ _) as [[v2 rs] mrs]. destruct H as [Hc2 H].
  set (c2 := set_vt c v2). destruct (gap_append c2 t' pc rs mrs pre Hc2 H) as (Hc3 & Er3 & Ec3 & H3).
  set (c3 := dfp_append_step c2 pc rs (Some pre)) in *.
  assert (∀ c', gap_ready c' t' [] → trace_ok (vt c') ∧ tracks everywhere (vt c') t' ∧ covered c') as Hdone.
  { intros c' (? & ? & _ & Hall). split; [done|]. split; [|done]. intros k w b _. apply Hall. set_solver. }
  destruct mrs as [|m mrs].
  - destruct rs as [|r rs].
    + split; [done|]. split; [done|]. split; [done|]. intros Hf. by apply Hdone, H.
    + split; [done|]. split; [done|]. split; [done|]. intros Hf. by apply Hdone, H3.
  - rewrite <-(app_nil_r (m :: mrs)) in H3. destruct (gap_append c3 t' pc (m :: mrs) [] pre Hc3 H3) as (Hc4 & Er4 & Ec4 & H4).
    rewrite app_nil_r in *. destruct rs; (split; [exact Hc4|]; split; [etransitivity; [exact Er4|exact Er3]|];
      split; [etransitivity; [exact Ec3|exact Ec4]|]; intros Hf; apply Hdone, H4, Hf).
Qed.

(** ** The at-risk set as a data structure *)
(** No register twice, addresses strictly ascending, both within their arrays. *)
Definition risk_wf (s : riskset) : Prop :=
  NoDup (risk_regs s) ∧ (length (risk_regs s) <= DFP_WIN_RISK_REGS)%nat ∧
  StronglySorted Z.lt (b_addr <$> risk_bytes s) ∧ (length (risk_bytes s) <= DFP_WIN_RISK_BYTES)%nat.

(** The search returns the first index whose address is not below [a]. *)
Lemma lower_bound_spec l a fuel lo hi :
  StronglySorted Z.lt (b_addr <$> l) → (lo <= hi <= length l)%nat → (hi - lo < fuel)%nat →
  (∀ i x, (i < lo)%nat → l !! i = Some x → b_addr x < a) → (∀ i x, (hi <= i)%nat → l !! i = Some x → a <= b_addr x) →
  let r := lower_bound fuel l a lo hi in
  (lo <= r <= hi)%nat ∧ (∀ i x, (i < r)%nat → l !! i = Some x → b_addr x < a) ∧ (∀ i x, (r <= i)%nat → l !! i = Some x → a <= b_addr x).
Proof.
  intros Hs. revert lo hi. induction fuel as [|fuel IH]; intros lo hi Hb Hf Hlo Hhi; [lia|]. cbn [lower_bound].
  destruct (Nat.ltb_spec lo hi) as [Hlt|Hge].
  2: { split; [lia|]. split; [done|]. intros i x Hi. apply Hhi. lia. }
  set (mid := (lo + (hi - lo) / 2)%nat).
  assert (lo <= mid < hi)%nat as Hmid by (unfold mid; pose proof (Nat.div_lt (hi - lo) 2); lia).
  destruct (lookup_lt_is_Some_2 l mid ltac:(lia)) as [m Hm]. rewrite (nth_lookup_Some _ _ _ _ Hm).
  assert (∀ i j x y, (i < j)%nat → l !! i = Some x → l !! j = Some y → b_addr x < b_addr y) as Hmono.
  { intros i j x y Hij Hx Hy. eapply (StronglySorted_index Z.lt (b_addr <$> l) i j); [done| | |done]; by rewrite list_lookup_fmap, ?Hx, ?Hy. }
  destruct (Z.ltb_spec (b_addr m) a) as [Hma|Hma].
  - destruct (IH (S mid) hi) as (R1 & R2 & R3); [lia|lia| |done|split_and!; auto; lia].
    intros i x Hi Hx. destruct (decide (i = mid)) as [->|]; [congruence|]. pose proof (Hmono i mid x m ltac:(lia) Hx Hm). lia.
  - destruct (IH lo mid) as (R1 & R2 & R3); [lia|lia|done| |split_and!; auto; lia].
    intros i x Hi Hx. destruct (decide (i = mid)) as [->|]; [congruence|]. pose proof (Hmono mid i m x ltac:(lia) Hm Hx). lia.
Qed.

Lemma risk_add_byte_wf l a l' :
  StronglySorted Z.lt (b_addr <$> l) → (length l <= DFP_WIN_RISK_BYTES)%nat → risk_add_byte l a = Some l' →
  StronglySorted Z.lt (b_addr <$> l') ∧ (length l' <= DFP_WIN_RISK_BYTES)%nat.
Proof.
  intros Hs Hl. unfold risk_add_byte.
  destruct (lower_bound_spec l a (S (length l)) 0 (length l) Hs) as (B1 & B2 & B3); [lia|lia|lia| |].
  { intros i x Hi Hx. apply lookup_lt_Some in Hx. lia. }
  set (lo := lower_bound _ _ _ _ _) in *.
  destruct (match l !! lo with Some b => b_addr b =? a | None => false end) eqn:E; [by intros [= <-]|].
  destruct (Nat.eqb_spec (length l) DFP_WIN_RISK_BYTES); [done|]. intros [= <-].
  assert (∀ x, x ∈ take lo l → b_addr x < a) as Hlt.
  { intros x (i & Hx)%list_elem_of_lookup. pose proof (lookup_lt_Some _ _ _ Hx) as Hi. rewrite length_take in Hi.
    rewrite lookup_take_lt in Hx by lia. eapply B2; [|done]. lia. }
  assert (∀ x, x ∈ drop lo l → a < b_addr x) as Hgt.
  { intros x (i & Hx)%list_elem_of_lookup. rewrite lookup_drop in Hx. pose proof (B3 (lo + i)%nat x ltac:(lia) Hx).
    destruct (decide (a = b_addr x)) as [->|]; [|lia]. destruct i as [|i]; [rewrite Nat.add_0_r in Hx; rewrite Hx, Z.eqb_refl in E; done|].
    destruct (lookup_lt_is_Some_2 l lo) as [y Hy]; [apply lookup_lt_Some in Hx; lia|].
    assert (b_addr y < b_addr x). { eapply (StronglySorted_index Z.lt (b_addr <$> l) lo (lo + S i)); [done| | |lia]; by rewrite list_lookup_fmap, ?Hx, ?Hy. }
    pose proof (B3 lo y ltac:(lia) Hy). lia. }
  split; [|rewrite length_app; cbn [length]; rewrite length_take, length_drop; lia].
  rewrite fmap_app, fmap_cons. cbn [b_addr].
  assert (StronglySorted Z.lt ((b_addr <$> take lo l) ++ (b_addr <$> drop lo l))) as Hs' by (by rewrite <-fmap_app, take_drop).
  apply StronglySorted_app.
  - intros x y (x' & -> & Hx)%list_elem_of_fmap Hy. specialize (Hlt _ Hx). apply elem_of_cons in Hy as [->|(y' & -> & Hy)%list_elem_of_fmap]; [done|].
    specialize (Hgt _ Hy). lia.
  - constructor; [eapply StronglySorted_sublist; [|exact Hs']; apply sublist_inserts_l; done|].
    apply Forall_forall. intros y (y' & -> & Hy)%list_elem_of_fmap. by apply Hgt.
  - eapply StronglySorted_sublist; [|exact Hs']. apply sublist_inserts_r. done.
Qed.

Lemma risk_add_wf cfg c r : risk_wf (risk c) → risk_wf (risk (dfp_risk_add cfg c r)).
Proof.
  intros Hwf. pose proof Hwf as (H1 & H2 & H3 & H4).
  assert (∀ c, risk_wf (risk c) → risk_wf (risk (dfp_risk_flag cfg c))) as Hfl by (intros; unfold dfp_risk_flag; by destruct (win_mode cfg)).
  unfold dfp_risk_add. destruct (is_write r); [|done]. cbn [negb].
  assert (∀ addrs l, StronglySorted Z.lt (b_addr <$> l) → (length l <= DFP_WIN_RISK_BYTES)%nat →
    StronglySorted Z.lt (b_addr <$> (risk_add_bytes l addrs).1) ∧ (length (risk_add_bytes l addrs).1 <= DFP_WIN_RISK_BYTES)%nat) as Hb.
  { induction addrs as [|a addrs IH]; intros l Hs Hl; simpl; [done|]. destruct (risk_add_byte l a) as [l'|] eqn:E; [|done].
    destruct (risk_add_byte_wf l a l' Hs Hl E). by apply IH. }
  assert (risk_wf (risk (if (size r =? 0) || (64 <? size r) then dfp_risk_flag cfg c
       else let '(l, ok) := risk_add_bytes (risk_bytes (risk c)) (bytes_from (addr r) (size r)) in
            let c := set_risk c (mk_risk (risk_regs (risk c)) l (overflow (risk c)) (overflow_pending (risk c))) in
            if ok then c else dfp_risk_flag cfg c))) as Hmem.
  { destruct (_ || _); [by apply Hfl|]. destruct (Hb (bytes_from (addr r) (size r)) (risk_bytes (risk c)) H3 H4) as [B1 B2].
    destruct (risk_add_bytes _ _) as [l ok]. destruct ok; [|apply Hfl]; done. }
  destruct (kind r); [|exact Hmem..]. destruct (case_of _ _) eqn:Ec; [done|].
  destruct (Nat.eqb_spec (length (risk_regs (risk c))) DFP_WIN_RISK_REGS); [by apply Hfl|].
  split; [|split; [|done]]; simpl.
  - apply NoDup_app. split; [done|]. split; [|apply NoDup_singleton]. intros x Hx ->%list_elem_of_singleton.
    apply case_of_In in Hx. congruence.
  - rewrite length_app. simpl. lia.
Qed.

(** C25: the at-risk set stays within its arrays and searchable: from an empty set,
    whatever records are added, no register is in it twice, the tracked addresses
    are strictly ascending (so the binary search finds every one of them and none
    is stored twice), and there are at most 96 and 4096 of them. *)
Theorem risk_set_well_formed cfg v rs : risk_wf (risk (foldl (dfp_risk_add cfg) (ctx_of v) rs)).
Proof.
  assert (risk_wf (risk (ctx_of v))) as H by (split; [constructor|split; [simpl; lia|split; [constructor|simpl; lia]]]).
  revert H. generalize (ctx_of v). induction rs as [|r rs IH]; intros c H; [done|]. simpl. by apply IH, risk_add_wf.
Qed.
End DfGap.
