(* ===== verification/DfSound.v ===== *)
(** What a live value trace is worth ([src/dataflow_ptrace.c] composed with
    [src/dataflow.c]): the values a recorded step carries are the ones the target
    held, and an edge of the def-use graph built from an unflagged trace connects
    a write and a read of the same value, whatever the code that was stepped over
    did. *)
From S2P Require Import Prelude Bytes Grow RegSlice ValTrace LwMap DefUse DfTarget DfStep AddrChan DfWindow DfMeas DfGap.

Module DfSound.
Import RegSlice ValTrace DfTarget DfStep AddrChan DfWindow DefUse DfMeas DfGap.

(** ** Opening a step *)
(** The operand enumerator's records carry no value yet. *)
Definition operands_ok (operands : list Z → Z → Z * list at_val_rec * list at_val_rec) : Prop :=
  ∀ dec o, let '(_, rd, wr) := operands dec o in
    (length rd <= 64)%nat ∧ (length wr <= 64)%nat ∧
    Forall (λ r, is_write r = false ∧ value_valid r = false ∧ wide r = false ∧ 0 <= size r) rd ∧
    Forall (λ r, is_write r = true ∧ wide r = false ∧ 0 <= size r) wr.

(** A write as it is put into the open step. *)
Definition write_rec (regs : user_regs) (len : Z) (r : at_val_rec) : at_val_rec :=
  let r := no_value r in
  match kind r with AT_LOC_REG => r | _ => with_addr r (resolve_ea regs r len) end.

(** The writes the enumerator lists for the instruction at the stop [t]. *)
Definition listed_writes (cfg : config) (operands : list Z → Z → Z * list at_val_rec * list at_val_rec)
    (t : target) (off : Z) : list at_val_rec :=
  match decode_source cfg t off, t_regs t with
  | Some (dec, o), Some regs => let '(len, _, wr) := operands dec o in write_rec regs len <$> wr
  | _, _ => []
  end.

Definition buf_ok (c : ctx) : Prop := Z.of_nat (length (cur c)) <= cur_cap c ∧ cur_cap c * sizeof_val_rec <= SIZE_MAX.

(** The open step: its reads are measured at [t], its writes are not. *)
Definition open_rec (wb : list Z) (t : target) (r : at_val_rec) : Prop :=
  (kind r ≠ AT_LOC_REG → 0 <= size r ∧ is_u64 (addr r)) ∧
  (if is_write r then value_valid r = false ∧ wide r = false else rec_in wb r ∧ meas wb t r).
Definition open_ok (c : ctx) (t : target) : Prop :=
  caps_ok (vt c) ∧ buf_ok c ∧ Forall (open_rec (wide_of (vt c)) t) (cur c).

Lemma open_rec_grows v v' t r : grows v v' → open_rec (wide_of v) t r → open_rec (wide_of v') t r.
Proof.
  intros G [H1 H2]. split; [done|]. destruct (is_write r); [done|]. destruct H2. split; [by eapply rec_in_grows|by eapply meas_grows].
Qed.

Lemma resolve_ea_u64 regs r len : is_u64 (resolve_ea regs r len).
Proof. unfold resolve_ea. repeat case_match; apply u64_range. Qed.

Lemma recbuf_push_ok l cap r :
  Z.of_nat (length l) <= cap → cap * sizeof_val_rec <= SIZE_MAX → (length l < 1000)%nat →
  ∃ cap', recbuf_push always l cap r = (l ++ [r], cap') ∧ Z.of_nat (length (l ++ [r])) <= cap' ∧ cap' * sizeof_val_rec <= SIZE_MAX.
Proof.
  intros Hl Hc Hs. unfold recbuf_push. rewrite length_app. simpl.
  destruct (Z.eqb_spec (Z.of_nat (length l)) cap) as [E|E]; [|exists cap; split_and!; [done|lia|done]].
  pose proof (asmtest_grow_spec always cap (Z.of_nat (length l) + 1) sizeof_val_rec) as G. 
  destruct (asmtest_grow _ _ _ _) as [c|].
  - destruct G as (? & _ & ? & _); [done|lia|lia|]. exists c. split_and!; [done|lia|done].
  - destruct G as (_ & [G|(r' & _ & _ & ?)]); [done|lia|lia| |done]. unfold SIZE_MAX, sizeof_val_rec in *. lia.
Qed.

(** [c'] is [c] with [new] pushed, nothing else but the byte pool changed. *)
Record pushes (t : target) (c c' : ctx) (new : list at_val_rec) : Prop := {
  p_grows : grows (vt c) (vt c');
  p_recs : same_recs (vt c) (vt c');
  p_risk : risk c' = risk c;
  p_have : have_cur c' = have_cur c;
  p_off : cur_off c' = cur_off c;
  p_cur : cur c' = cur c ++ new;
  p_ok : open_ok c' t;
}.
Lemma pushes_nil t c : open_ok c t → pushes t c c [].
Proof. intros. split; try done. by rewrite app_nil_r. Qed.
Lemma pushes_trans t c1 c2 c3 l1 l2 : pushes t c1 c2 l1 → pushes t c2 c3 l2 → pushes t c1 c3 (l1 ++ l2).
Proof.
  intros [A1 A2 A3 A4 A5 A6 _] [B1 B2 B3 B4 B5 B6 B7]. split; [by etransitivity|by etransitivity|congruence..| |done].
  by rewrite B6, A6, app_assoc.
Qed.

Lemma push_cur_spec t c v r :
  grows (vt c) v → same_recs (vt c) v → open_ok c t → (length (cur c) < 1000)%nat → open_rec (wide_of v) t r →
  pushes t c (push_cur always (set_vt c v) r) [r].
Proof.
  intros G S (Hc & [Hl Hb] & Hr) Hs Hrec. unfold push_cur. simpl.
  destruct (recbuf_push_ok (cur c) (cur_cap c) r Hl Hb Hs) as (cap' & -> & ? & ?). split; try done.
  split; [by apply (g_caps _ _ G)|]. split; [done|]. simpl. apply Forall_app. split; [|by constructor].
  eapply Forall_impl; [exact Hr|]. intros. by eapply open_rec_grows.
Qed.

Lemma open_read_spec t regs len c r :
  target_ok t → t_regs t = Some regs → open_ok c t → (length (cur c) < 1000)%nat →
  is_write r = false ∧ value_valid r = false ∧ wide r = false ∧ 0 <= size r →
  ∃ r', pushes t c (open_read always t regs len c r) [r'].
Proof.
  intros Ht Hregs Hok Hs (Hw & Hv & Hwd & Hsz). unfold open_read. destruct Hok as (Hc & Hrest).
  set (r1 := match kind r with AT_LOC_REG => r | _ => with_addr r (resolve_ea regs r len) end).
  assert (filled (vt c) t r1 (match kind r with
                 | AT_LOC_REG => fill_reg_value (vt c) t regs r
                 | _ => fill_mem_value (vt c) t (with_addr r (resolve_ea regs r len))
                 end)) as F.
  { unfold r1. destruct (kind r) eqn:Ek; [by apply fill_reg_spec|..]; (apply fill_mem_spec; simpl; try done;
      [apply resolve_ea_u64|congruence]). }
  destruct (match kind r with AT_LOC_REG => fill_reg_value (vt c) t regs r
    | _ => fill_mem_value (vt c) t (with_addr r (resolve_ea regs r len)) end) as [v r'] eqn:E. destruct F as (G & S & L & I1 & M). simpl in *.
  exists r'. apply push_cur_spec; try done. destruct L as (Lk & Lr & La & Lw & Ls).
  assert (is_write r' = false) as Hw' by (rewrite Lw; unfold r1; by destruct (kind r)).
  split; [|by rewrite Hw']. intros Hk. rewrite Lk in Hk. rewrite Ls, La by done.
  unfold r1 in *. destruct (kind r) eqn:Ek; [congruence|..]; simpl; (split; [done|apply resolve_ea_u64]).
Qed.

Lemma open_reads_spec t regs len rd c :
  target_ok t → t_regs t = Some regs → open_ok c t → (length (cur c) + length rd < 1000)%nat →
  Forall (λ r, is_write r = false ∧ value_valid r = false ∧ wide r = false ∧ 0 <= size r) rd →
  ∃ l, pushes t c (foldl (open_read always t regs len) c rd) l ∧ length l = length rd.
Proof.
  intros Ht Hregs. revert c. induction rd as [|r rd IH]; intros c Hok Hs Hall; simpl.
  { exists []. split; [by apply pushes_nil|done]. }
  apply Forall_cons in Hall as [Hr Hall]. simpl in Hs.
  destruct (open_read_spec t regs len c r Ht Hregs Hok ltac:(lia) Hr) as (r' & P).
  destruct (IH (open_read always t regs len c r) (p_ok _ _ _ _ P)) as (l & P' & Hl); [|done|].
  { rewrite (p_cur _ _ _ _ P), length_app. simpl. lia. }
  exists ([r'] ++ l). split; [by eapply pushes_trans|]. simpl. by rewrite Hl.
Qed.

Lemma open_writes_spec t regs len wr c :
  open_ok c t → (length (cur c) + length wr < 1000)%nat →
  Forall (λ r, is_write r = true ∧ wide r = false ∧ 0 <= size r) wr →
  pushes t c (foldl (open_write always regs len) c wr) (write_rec regs len <$> wr).
Proof.
  revert c. induction wr as [|r wr IH]; intros c Hok Hs Hall; simpl; [by apply pushes_nil|].
  apply Forall_cons in Hall as [(Hw & Hwd & Hsz) Hall]. simpl in Hs.
  assert (pushes t c (open_write always regs len c r) [write_rec regs len r]) as P.
  { unfold open_write. fold (write_rec regs len r). replace c with (set_vt c (vt c)) at 2 by (by destruct c).
    apply push_cur_spec; try done; [lia|]. unfold write_rec, open_rec. simpl.
    destruct (kind r) eqn:Ek; simpl; rewrite ?Hw; split; try done; intros; (split; [done|apply resolve_ea_u64]). }
  change (write_rec regs len r :: ?x) with ([write_rec regs len r] ++ x). eapply pushes_trans; [exact P|].
  apply IH; [apply P| |done]. rewrite (p_cur _ _ _ _ P), length_app. simpl. lia.
Qed.

Lemma open_step_spec cfg operands c t regs off :
  operands_ok operands → target_ok t → t_regs t = Some regs → caps_ok (vt c) → buf_ok c →
  let c' := open_step always cfg operands c t regs off in
  grows (vt c) (vt c') ∧ same_recs (vt c) (vt c') ∧ risk c' = risk c ∧ have_cur c' = true ∧ cur_off c' = off ∧
  open_ok c' t ∧ (vtruncated (vt c') = false → listed_writes cfg operands t off ⊆ cur c').
Proof.
  intros Hops Ht Hregs Hc [Hl Hb]. unfold open_step, listed_writes. rewrite Hregs.
  set (c0 := mk_ctx (vt c) true off [] _ _ _ _ _ _).
  assert (open_ok c0 t) as H0 by (split; [done|]; split; [|by constructor]; split; simpl; [lia|done]).
  destruct (vt_flag_grows (vt c)) as [Gf Sf].
  destruct (decode_source cfg t off) as [[dec o]|]; cycle 1.
  { split; [done|]. split; [done|]. split; [done|]. split; [done|]. split; [done|]. split; [|done].
    destruct H0 as (? & ? & ?). split; [by apply (g_caps _ _ Gf)|]. done. }
  specialize (Hops dec o). destruct (operands dec o) as [[len rd] wr]. destruct Hops as (Lr & Lw & Hrd & Hwr).
  destruct (win_mode cfg && (len =? 0)).
  { split; [done|]. split; [done|]. split; [done|]. split; [done|]. split; [done|]. split; [|done].
    destruct H0 as (? & ? & ?). split; [by apply (g_caps _ _ Gf)|]. done. }
  destruct (open_reads_spec t regs len rd c0 Ht Hregs H0 ltac:(simpl; lia) Hrd) as (l & P & Hll).
  pose proof (open_writes_spec t regs len wr (foldl (open_read always t regs len) c0 rd) (p_ok _ _ _ _ P)) as P'.
  rewrite (p_cur _ _ _ _ P) in P'. specialize (P' ltac:(simpl; lia) Hwr).
  pose proof (pushes_trans _ _ _ _ _ _ P P') as [Q1 Q2 Q3 Q4 Q5 Q6 Q7].
  split; [done|]. split; [done|]. split; [done|]. split; [done|]. split; [done|]. split; [done|]. intros _. rewrite Q6. set_solver.
Qed.

(** ** Finalizing a step *)
(** A record of the open step and what it became at the next stop. *)
Definition closed_rec (wb : list Z) (t t' : target) (r r' : at_val_rec) : Prop :=
  same_loc r r' ∧ rec_in wb r' ∧ meas wb (if is_write r then t' else t) r' ∧ (kind r' ≠ AT_LOC_REG → 0 <= size r').

Lemma closed_rec_grows v v' t t' r r' : grows v v' → closed_rec (wide_of v) t t' r r' → closed_rec (wide_of v') t t' r r'.
Proof. intros G (A & B & C & D). split; [done|]. split; [by eapply rec_in_grows|]. split; [by eapply meas_grows|done]. Qed.

Lemma fill_write_spec v acc t t' regs r :
  target_ok t' → t_regs t' = Some regs → caps_ok v → open_rec (wide_of v) t r →
  ∃ v' r', fill_write t' regs (v, acc) r = (v', acc ++ [r']) ∧ grows v v' ∧ same_recs v v' ∧ closed_rec (wide_of v') t t' r r'.
Proof.
  intros Ht Hregs Hc [Hm Hr]. unfold fill_write, closed_rec. destruct (is_write r) eqn:Ew.
  - destruct Hr as [Hv Hwd]. rewrite Hv. simpl.
    assert (filled v t' r (match kind r with AT_LOC_REG => fill_reg_value v t' regs r | _ => fill_mem_value v t' r end)) as F.
    { destruct (kind r) eqn:Ek; [by apply fill_reg_spec|..]; (apply fill_mem_spec; try done; [by apply Hm|congruence]). }
    assert (∀ v' r', (v', r') = match kind r with AT_LOC_REG => fill_reg_value v t' regs r | _ => fill_mem_value v t' r end →
      grows v v' ∧ same_recs v v' ∧ same_loc r r' ∧ rec_in (wide_of v') r' ∧ meas (wide_of v') t' r' ∧ (kind r' ≠ AT_LOC_REG → 0 <= size r')) as H.
    { intros v' r' E. rewrite <-E in F. destruct F as (G & S & L & I1 & M). do 5 (split; [done|]). destruct L as (Lk & _ & _ & _ & Ls). simpl in *.
      rewrite Lk. intros Hk. rewrite Ls by done. by apply Hm. }
    destruct (kind r); destruct (_ : asmtest_valtrace * at_val_rec) as [v' r'];
      (destruct (H v' r' eq_refl) as (? & ? & ? & ? & ? & ?); exists v', r'; done).
  - simpl. exists v, r. destruct Hr. do 3 (split; [done|]). split; [done|]. split; [done|]. split; [done|]. intros Hk. by apply Hm.
Qed.

Lemma fill_writes_spec v t t' regs l :
  target_ok t' → t_regs t' = Some regs → caps_ok v → Forall (open_rec (wide_of v) t) l →
  ∃ v' l', foldl (fill_write t' regs) (v, []) l = (v', l') ∧ grows v v' ∧ same_recs v v' ∧
           Forall2 (closed_rec (wide_of v') t t') l l'.
Proof.
  intros Ht Hregs Hc. induction l as [|r l IH] using rev_ind; intros Hl.
  { exists v, []. by split_and!. }
  apply Forall_app in Hl as [Hl Hr]. apply Forall_cons in Hr as [Hr _].
  destruct (IH Hl) as (v1 & l1 & E & G & S & F). rewrite foldl_app, E. cbn [foldl].
  destruct (fill_write_spec v1 l1 t t' regs r Ht Hregs (g_caps _ _ G Hc)) as (v2 & r' & -> & G2 & S2 & C); [by eapply open_rec_grows|].
  exists v2, (l1 ++ [r']). split; [done|]. split; [by etransitivity|]. split; [by etransitivity|].
  apply Forall2_app; [|by constructor]. eapply Forall2_impl; [exact F|]. intros. by eapply closed_rec_grows.
Qed.

(** The trace is up to date with the stop [t]. *)
Definition current (c : ctx) (t : target) : Prop :=
  trace_ok (vt c) ∧ tracks everywhere (vt c) t ∧ covered c.

(** Of the locations recorded before, the instruction between the stops [t] and
    [t'] changed only what [writes] lists. *)
Definition changes_only (rs writes : list at_val_rec) (t t' : target) : Prop :=
  ∀ k w b, writes_key rs k w → (∀ r, r ∈ writes → k ∉ write_keys r) →
    loc_value t k = Some b → loc_value t' k = Some b.

Lemma finalize_spec cfg c t t' regs :
  target_ok t' → t_regs t' = Some regs → open_ok c t → risk_ok (risk c) →
  let c' := finalize_step cfg c t' regs in
  caps_ok (vt c') ∧ risk_ok (risk c') ∧ have_cur c' = false ∧ buf_ok c' ∧
  (vtruncated (vt c') = false → vtruncated (vt c) = false) ∧
  (vtruncated (vt c') = false → current c t →
   changes_only (vrecs (vt c)) (filter (λ r, is_write r = true) (cur c)) t t' → current c' t').
Proof.
  intros Ht Hregs (Hc & [Hbl Hb] & Hopen) Hrk. unfold finalize_step.
  destruct (fill_writes_spec (vt c) t t' regs (cur c) Ht Hregs Hc Hopen) as (v & l & -> & G & S & F).
  set (c1 := set_cur (set_vt c v) l (cur_cap c)).
  assert (Forall (λ r, kind r ≠ AT_LOC_REG → 0 <= size r) l) as Hsz.
  { clear -F. induction F as [|r r' l l' H _ IH]; constructor; [|done]. apply H. }
  pose proof (risk_adds_spec cfg c1 l Hrk Hsz) as [A1 A2 (E1 & E2 & E3 & E4) A4 A5 A6].
  set (c2 := foldl (dfp_risk_add cfg) c1 l) in *. rewrite E3. simpl.
  destruct (append_step_view c2 (cur_off c2) l (Some (cur_regs c2))) as (f & Ef & Er & Ec).
  set (c3 := dfp_append_step c2 (cur_off c2) l (Some (cur_regs c2))) in *.
  assert (grows (vt c) (vt c2)) as G2 by (by etransitivity). assert (same_recs (vt c) (vt c2)) as S2 by (by etransitivity).
  pose proof (g_caps _ _ G2 Hc) as Hc2.
  split; [rewrite Ef; by apply (append_caps_ok (vt c2))|]. split; [rewrite Er; by apply A5|]. split; [done|].
  split; [destruct Ec as (_ & _ & _ & Ec); split; simpl; rewrite Ec, E4; simpl; [lia|done]|].
  assert (vtruncated (vt c3) = false → vtruncated (vt c2) = false) as Hfl by apply (append_step_flag c2 _ l _ Hc2).
  split; [intros Hf; by apply (g_flag _ _ G2), Hfl|]. intros Hf (Hok & Htr & Hcrk & Hcov) Hch.
  pose proof (grows_trace _ _ G2 S2 Hok) as Hok2. pose proof (grows_tracks _ _ _ _ G2 S2 Hok Htr) as Htr2.
  assert (covered c2) as Hcov2.
  { split; [by apply A5|]. intros Hp w Hw Hww. rewrite (proj2 S2) in Hw. apply (proj1 A4), Hcov; [by apply (proj2 A4)|done|done]. }
  assert (∀ r', r' ∈ l → ∃ r, r ∈ cur c ∧ closed_rec (wide_of (vt c2)) t t' r r') as Hl.
  { intros r' (i & Hi)%list_elem_of_lookup. destruct (Forall2_lookup_r _ _ _ _ _ F Hi) as (r & Hr & C). exists r.
    split; [by eapply list_elem_of_lookup_2|]. eapply closed_rec_grows; [exact A1|done]. }
  destruct (append_step_trace c2 (cur_off c2) l (Some (cur_regs c2)) Hf Hok2) as [T1 T2].
  { intros r' Hr'. destruct (Hl r' Hr') as (r & _ & _ & ? & _). done. }
  { intros r' k w b b' Hr' Hrw Hk Hlat Hkw Hbv Hbv'. destruct (Hl r' Hr') as (r & _ & L & _ & M & _).
    destruct (same_loc_keys _ _ L) as (_ & _ & Ew). rewrite <-Ew, Hrw in M.
    pose proof (M k b' Hk Hbv'). pose proof (Htr2 k w b I Hlat Hkw Hbv). congruence. }
  split; [done|]. split.
  - apply (append_step_tracks everywhere c2 t'); [done|done| |].
    + intros r' Hr' Hrw. destruct (Hl r' Hr') as (r & _ & L & _ & M & _). destruct (same_loc_keys _ _ L) as (_ & _ & Ew).
      by rewrite <-Ew, Hrw in M.
    + intros k w b _ Hno Hlat Hk Hbv. eapply (Hch k w b); [|  |by apply (Htr2 k w b)].
      * destruct Hlat as [H _]. by rewrite (proj2 S2) in H.
      * intros r [Hrw Hr]%list_elem_of_filter Hkr. destruct (list_elem_of_lookup_1 _ _ Hr) as (i & Hi).
        destruct (Forall2_lookup_l _ _ _ _ _ F Hi) as (r' & Hr' & L & _). destruct (same_loc_keys _ _ L) as (_ & Ek & Ew).
        apply (Hno r'); [by eapply list_elem_of_lookup_2|congruence|by rewrite Ek].
  - apply append_step_covered; try done. intros Hp r Hr Hrw. by apply A6; [by apply Hfl|..].
Qed.

(** In window mode a full at-risk set flags the trace at once. *)
Lemma risk_add_pending cfg c r :
  win_mode cfg = true → overflow_pending (risk (dfp_risk_add cfg c r)) = overflow_pending (risk c).
Proof.
  intros Hw. assert (∀ c, overflow_pending (risk (dfp_risk_flag cfg c)) = overflow_pending (risk c)) as Hfl
    by (intros; unfold dfp_risk_flag; by rewrite Hw).
  unfold dfp_risk_add. destruct (is_write r); [|done]. cbn [negb].
  destruct (kind r); repeat case_match; rewrite ?Hfl; done.
Qed.
Lemma finalize_pending cfg c t regs :
  win_mode cfg = true → overflow_pending (risk (finalize_step cfg c t regs)) = overflow_pending (risk c).
Proof.
  intros Hw. unfold finalize_step. destruct (foldl (fill_write t regs) _ _) as [v l]. set (c1 := set_cur _ _ _).
  destruct (append_step_view (foldl (dfp_risk_add cfg) c1 l) (cur_off (foldl (dfp_risk_add cfg) c1 l))
    (cur (foldl (dfp_risk_add cfg) c1 l)) (Some (cur_regs (foldl (dfp_risk_add cfg) c1 l)))) as (f & _ & Er & _).
  unfold close_cur. cbn [risk]. rewrite Er. change (overflow_pending (risk c)) with (overflow_pending (risk c1)).
  clearbody c1. clear -Hw. revert c1. induction l as [|r l IH]; intros c1; simpl; [done|]. rewrite IH. by apply risk_add_pending.
Qed.

Lemma risk_snap_spec c t :
  target_ok t → risk_ok (risk c) →
  let c' := dfp_risk_snap c t in
  vt c' = vt c ∧ same_cur c c' ∧ risk_ok (risk c') ∧ snapped (risk c') t ∧
  overflow_pending (risk c') = overflow_pending (risk c) ∧ (covered c → covered c').
Proof.
  intros Ht [Hn Hb]. cbv zeta. assert (b_addr <$> (risk_snap_byte t <$> risk_bytes (risk c)) = b_addr <$> risk_bytes (risk c)) as E.
  { rewrite <-list_fmap_compose. apply list_fmap_ext. intros i x _. unfold compose, risk_snap_byte. repeat case_match; done. }
  assert (risk_ok (risk (dfp_risk_snap c t))) as Hrk.
  { split; [done|]. rewrite Forall_forall in Hb |- *. intros x Hx.
    assert (b_addr x ∈ b_addr <$> risk_bytes (risk c)) as H by (rewrite <-E; by apply list_elem_of_fmap_2).
    apply list_elem_of_fmap in H as (y & -> & ?). by apply Hb. }
  split; [done|]. split; [done|]. split; [done|]. split; [|split; [done|]].
  - intros x. simpl. rewrite list_elem_of_fmap. intros (y & -> & Hy). unfold risk_snap_byte.
    destruct (child_read t (b_addr y) 1) as [bs|] eqn:Ec; [|done]. rewrite Forall_forall in Hb.
    destruct (child_read_1 t _ bs Ht (Hb y Hy) Ec) as (z & -> & ? & _). done.
  - intros [_ H]. split; [done|]. intros Hp w Hw Hww. specialize (H Hp w Hw Hww). unfold at_risk in *. simpl.
    by rewrite E.
Qed.

(** ** From stop to stop *)
(** Bounds that hold whether the trace is flagged or not. *)
Definition ctx_ok (c : ctx) : Prop := risk_ok (risk c) ∧ caps_ok (vt c) ∧ buf_ok c.

(** No step is open and the trace is up to date with [t]. *)
Definition settled (c : ctx) (t : target) : Prop :=
  ctx_ok c ∧ have_cur c = false ∧ (vtruncated (vt c) = false → current c t).

Lemma empty_current c t : risk_ok (risk c) → caps_ok (vt c) → vrecs (vt c) = [] → current c t.
Proof.
  intros Hr Hc E. unfold current, trace_ok, sound, tracks, covered, grouped, latest, writes_key. rewrite E.
  repeat (split; try done); try (intros; set_solver). constructor.
Qed.

(** The at-risk set snapshot at a settled stop opens a gap. *)
Lemma snap_gap c t :
  target_ok t → settled c t →
  let c' := dfp_risk_snap c t in
  ctx_ok c' ∧ have_cur c' = false ∧ vt c' = vt c ∧ overflow_pending (risk c') = overflow_pending (risk c) ∧
  (vtruncated (vt c') = false → overflow_pending (risk c') = false → in_gap c' t).
Proof.
  intros Ht ((Hrk & Hc & Hb) & Hh & Hcur).
  destruct (risk_snap_spec c t Ht Hrk) as (R1 & (R2 & _ & R4 & R5) & R6 & R7 & R8 & R9). cbv zeta.
  split; [split; [done|]; split; [done|]; unfold buf_ok; by rewrite R4, R5|]. split; [done|]. split; [done|]. split; [done|].
  rewrite R1. intros Hf Hp. destruct (Hcur Hf) as (T1 & T2 & T3). unfold in_gap. rewrite R1.
  split; [done|]. split; [done|]. split; [by apply R9|done].
Qed.

(** The barrier at the exit of the gap entered at [tg]. *)
Lemma gap_settles c tg t pre regs pc :
  target_ok t → t_regs t = Some regs → target_ok tg → t_regs tg = Some pre → ctx_ok c → have_cur c = false →
  (vtruncated (vt c) = false → in_gap c tg) →
  let c' := (dfp_emit_gap c t pre regs (dfp_vecsnap tg) (dfp_vecsnap t) pc).1.1 in settled c' t ∧ risk c' = risk c.
Proof.
  intros Ht Hregs Htg Hpre (Hrk & Hc & Hb) Hh Hgap.
  destruct (emit_gap_spec c tg t pre regs pc Htg Ht Hpre Hregs Hgap Hc Hrk) as (E1 & E2 & (E3 & _ & E4 & E5) & E6).
  cbv zeta. split; [|done]. split; [|split; [congruence|done]]. split; [by rewrite E2|]. split; [done|]. unfold buf_ok. by rewrite E4, E5.
Qed.

(** A flagged exit promises nothing. *)
Definition exit_ok (o : outcome) : Prop := vtruncated (vt (o_ctx o)) = false → trace_ok (vt (o_ctx o)).
Lemma dirty_exit_ok cfg c code sig : (vtruncated (vt c) = false → trace_ok (vt c)) → exit_ok (dfp_dirty_exit cfg c code sig).
Proof. unfold exit_ok, dfp_dirty_exit. by destruct (foreign cfg). Qed.
Lemma dirty_flag_ok cfg c code sig : exit_ok (dfp_dirty_exit cfg (flag c) code sig).
Proof. by apply dirty_exit_ok. Qed.
Section stops.
Context (cfg : config) (operands : list Z → Z → Z * list at_val_rec * list at_val_rec).
Context (Hops : operands_ok operands).
Context (off_of : user_regs → Z).

(** The writes listed for the instruction a stop is at. *)
Definition insn_writes (t : target) : list at_val_rec :=
  match t_regs t with Some regs => listed_writes cfg operands t (off_of regs) | None => [] end.

(** The step at [prev] is open. *)
Definition opened (c : ctx) (prev : target) : Prop :=
  have_cur c = true ∧ open_ok c prev ∧ (vtruncated (vt c) = false → current c prev ∧ insn_writes prev ⊆ cur c).
Lemma listed_are_writes t off r : r ∈ listed_writes cfg operands t off → is_write r = true.
Proof.
  unfold listed_writes. destruct (decode_source _ _ _) as [[dec o]|]; [|set_solver]. destruct (t_regs t); [|set_solver].
  specialize (Hops dec o). destruct (operands dec o) as [[len rd] wr]. destruct Hops as (_ & _ & _ & Hw).
  intros (r0 & -> & Hr)%list_elem_of_fmap. rewrite Forall_forall in Hw. destruct (Hw r0 Hr) as [E _].
  unfold write_rec. by destruct (kind (no_value r0)).
Qed.

Lemma changes_only_cur c prev t :
  insn_writes prev ⊆ cur c → changes_only (vrecs (vt c)) (insn_writes prev) prev t →
  changes_only (vrecs (vt c)) (filter (λ r, is_write r = true) (cur c)) prev t.
Proof.
  intros Hsub H k w b Hw Hno. apply (H k w b Hw). intros r Hr. apply Hno, list_elem_of_filter. split; [|by apply Hsub].
  unfold insn_writes in Hr. destruct (t_regs prev); [by eapply listed_are_writes|set_solver].
Qed.

(** The next stop closes the open step. *)
Lemma finalize_settles c prev t regs :
  target_ok t → t_regs t = Some regs → ctx_ok c → opened c prev →
  changes_only (vrecs (vt c)) (insn_writes prev) prev t → settled (finalize_step cfg c t regs) t.
Proof.
  intros Ht Hregs (Hrk & _ & _) (_ & Hopen & Hcur) Hch.
  destruct (finalize_spec cfg c prev t regs Ht Hregs Hopen Hrk) as (F1 & F2 & F3 & F4 & F5 & F6).
  split; [done|]. split; [done|]. intros Hf. destruct (Hcur (F5 Hf)) as [Hc Hsub]. apply F6; [done|done|]. by apply changes_only_cur.
Qed.

(** The step at a settled stop is opened. *)
Lemma open_opens c t regs :
  target_ok t → t_regs t = Some regs → settled c t →
  let c' := open_step always cfg operands c t regs (off_of regs) in ctx_ok c' ∧ opened c' t ∧ risk c' = risk c.
Proof.
  intros Ht Hregs ((Hrk & Hc & Hb) & _ & Hcur).
  destruct (open_step_spec cfg operands c t regs (off_of regs) Hops Ht Hregs Hc Hb) as (G & S & Er & Eh & _ & Hok & Hl).
  cbv zeta. split; [|split; [|done]].
  - destruct Hok as (? & ? & ?). split; [by rewrite Er|done].
  - split; [done|]. split; [done|]. intros Hf. destruct (Hcur (g_flag _ _ G Hf)) as (C1 & C2 & C3).
    split; [|unfold insn_writes; rewrite Hregs; by apply Hl]. split; [by eapply grows_trace|]. split; [by eapply grows_tracks|].
    unfold covered. by rewrite Er, (proj2 S).
Qed.

End stops.

(** ** The windowed survey *)
Section window.
Context (cfg : config) (operands : list Z → Z → Z * list at_val_rec * list at_val_rec).
Context (Hops : operands_ok operands) (Hwin : win_mode cfg = true).
Context (win_base win_len win_ret max_insns : Z).
Abbreviation event_of := (window_event always cfg operands win_base win_len win_ret max_insns).
Abbreviation stop_of := (window_stop always cfg operands win_base win_len win_ret max_insns).
Abbreviation writes_of := (insn_writes cfg operands rip).

(** The script is that of a real target: what it shows is well formed, and an
    instruction that is recorded (the one the last stop, [prev], was at, when no
    gap is open) changes the locations recorded before it only as the enumerator
    lists. *)
Fixpoint honest (st : wstate) (prev : target) (evs : list event) : Prop :=
  match evs with
  | [] => True
  | ev :: evs =>
      match ev with
      | EvTrap _ t _ =>
          target_ok t ∧ (w_gap st = None → changes_only (vrecs (vt (w_ctx st))) (writes_of prev) prev t)
      | _ => True
      end ∧
      match event_of st ev with
      | inl _ => True
      | inr st' => honest st' (match ev with EvTrap _ t _ => t | _ => prev end) evs
      end
  end.

Definition win_inv (st : wstate) (prev : target) : Prop :=
  let c := w_ctx st in
  ctx_ok c ∧ overflow_pending (risk c) = false ∧
  match w_gap st with
  | None => opened cfg operands rip c prev
  | Some (pc, pre, vpre) => have_cur c = false ∧ ∃ t, target_ok t ∧ t_regs t = Some pre ∧ vpre = dfp_vecsnap t ∧
            (vtruncated (vt c) = false → in_gap c t)
  end.

(** The state before a stop is examined: the open step or the open gap, or the
    empty trace of the first stop. *)
Definition before_stop (st : wstate) (prev t : target) : Prop :=
  win_inv st prev ∧ (w_gap st = None → changes_only (vrecs (vt (w_ctx st))) (writes_of prev) prev t) ∨
  (ctx_ok (w_ctx st) ∧ overflow_pending (risk (w_ctx st)) = false ∧
   have_cur (w_ctx st) = false ∧ w_gap st = None ∧ vrecs (vt (w_ctx st)) = []).

Lemma win_inv_trace st prev : win_inv st prev → vtruncated (vt (w_ctx st)) = false → trace_ok (vt (w_ctx st)).
Proof.
  intros (_ & _ & H) Hf. destruct (w_gap st) as [[[? ?] ?]|].
  - destruct H as (_ & t & _ & _ & _ & H). by apply H.
  - destruct H as (_ & _ & H). by apply H.
Qed.
Lemma before_stop_trace st prev t : before_stop st prev t → vtruncated (vt (w_ctx st)) = false → trace_ok (vt (w_ctx st)).
Proof. intros [[H _]|((? & ? & _) & _ & _ & _ & ?)]; [by eapply win_inv_trace|]. intros _. by apply (empty_current (w_ctx st) t). Qed.

(** With no gap open, a stop brings the trace up to date. *)
Lemma settle st prev t regs :
  before_stop st prev t → w_gap st = None → target_ok t → t_regs t = Some regs →
  let c' := finalize_open cfg (w_ctx st) t regs in settled c' t ∧ overflow_pending (risk c') = false.
Proof.
  intros H Hg Ht Hregs. unfold finalize_open. destruct H as [[(Hc & Hp & H) Hch]|((Hrk & Hc & Hb) & Hp & Hh & _ & He)].
  - rewrite Hg in H. pose proof H as (-> & _ & _). split; [|by rewrite finalize_pending].
    eapply (finalize_settles cfg operands Hops rip); eauto.
  - rewrite Hh. split; [|done]. split; [done|]. split; [done|]. intros _. by apply empty_current.
Qed.

Lemma window_stop_ok st prev t pubs :
  before_stop st prev t → target_ok t →
  match stop_of st t pubs with inl (o, _) => exit_ok o | inr st' => win_inv st' t end.
Proof.
  intros H Ht. unfold window_stop. destruct (t_regs t) as [regs|] eqn:Hregs; [|apply dirty_exit_ok; by eapply before_stop_trace].
  destruct (drain_into _ _ _ _) as [[chan rset] info].
  assert (∀ c, settled c t → overflow_pending (risk c) = false → ∀ info', win_inv (mk_wstate
    (open_step always cfg operands c t regs (rip regs)) chan rset info' None) t) as Hopen.
  { intros c Hs Hp info'. destruct (open_opens cfg operands Hops rip c t regs Ht Hregs Hs) as (O1 & O2 & O3).
    split; [done|]. split; [|done]. simpl in *. by rewrite O3. }
  destruct (w_gap st) as [[[gpc pre] vpre]|] eqn:Hg.
  - destruct H as [[(Hc & Hp & H) _]|(_ & _ & _ & Hg' & _)]; [|congruence].
    rewrite Hg in H. destruct H as (Hh & tg & Htg & Hpre & -> & Hgap).
    assert (finalize_open cfg (w_ctx st) t regs = w_ctx st) as Efo by (unfold finalize_open; by rewrite Hh).
    destruct (rip regs =? win_ret); [rewrite Efo; intros Hf; by apply (Hgap Hf)|].
    destruct (dfp_in_region_set _ _ _ _).
    + destruct (gap_settles (w_ctx st) tg t pre regs gpc Ht Hregs Htg Hpre Hc Hh Hgap) as [G1 G2]. unfold close_gap.
      destruct (dfp_emit_gap _ _ _ _ _ _ _) as [[c' steps] n]. simpl in G1, G2.
      assert (finalize_open cfg c' t regs = c') as -> by (unfold finalize_open; by rewrite (proj1 (proj2 G1))).
      destruct (_ && _); [apply dirty_flag_ok|]. apply Hopen; [done|by rewrite G2].
    + rewrite Efo. split; [done|]. split; [done|]. split; [done|]. by exists tg.
  - pose proof (settle st prev t regs H Hg Ht Hregs) as [S1 S2]. cbn [close_gap].
    destruct (rip regs =? win_ret); [intros Hf; by apply S1|].
    destruct (dfp_in_region_set _ _ _ _).
    + destruct (_ && _); [apply dirty_flag_ok|]. by apply Hopen.
    + destruct (snap_gap _ t Ht S1) as (R1 & R2 & R3 & R4 & R5). rewrite S2 in R4. split; [done|]. split; [done|].
      split; [done|]. exists t. do 3 (split; [done|]). intros Hf. by apply R5.
Qed.

Lemma window_events_ok evs st prev :
  win_inv st prev → honest st prev evs →
  ∀ o i, window_events always cfg operands win_base win_len win_ret max_insns st evs = Some (o, i) → exit_ok o.
Proof.
  revert st prev. induction evs as [|ev evs IH]; intros st prev Hinv Hh o i; [done|]. cbn [window_events honest] in *.
  destruct Hh as [Hev Hrest]. pose proof (win_inv_trace st prev Hinv) as Htr.
  assert (match event_of st ev with
          | inl (o, _) => exit_ok o
          | inr st' => win_inv st' (match ev with EvTrap _ t _ => t | _ => prev end) end) as Hone.
  { unfold window_event. destruct ev as [| | | | |sig|si t pubs|ok|ok|]; try done; try (by apply dirty_exit_ok).
    - destruct (fatal_signal sig); [apply dirty_flag_ok|done].
    - destruct Hev as [Ht Hch]. destruct (dfp_sigtrap_is_app si); [apply dirty_flag_ok|].
      destruct (_ <? _); [apply dirty_flag_ok|]. apply (window_stop_ok _ prev); [|done]. left. split; [exact Hinv|exact Hch]. }
  destruct (event_of st ev) as [[o' i']|st']; [by intros [= <- <-]|]. by eapply IH.
Qed.

(** The state of the first stop, and the whole loop. *)
Definition first_stop (v : asmtest_valtrace) (chan : option channel) (rset : list addr_rec) (info : dfwin_info) : wstate :=
  mk_wstate (ctx_of v) chan rset info None.
Definition honest_run (v : asmtest_valtrace) (chan : option channel) (rset : list addr_rec) (info : dfwin_info)
    (t : target) (pubs : list addr_rec) (evs : list event) : Prop :=
  target_ok t ∧
  match stop_of (first_stop v chan rset info) t pubs with inl _ => True | inr st => honest st t evs end.

Lemma ctx_of_ok v : caps_ok v → ctx_ok (ctx_of v).
Proof. intros. split; [split; [simpl; lia|constructor]|]. done. Qed.

Lemma window_loop_ok v chan rset info t pubs evs o i :
  caps_ok v → vrecs v = [] → honest_run v chan rset info t pubs evs →
  dfp_window_loop always cfg operands win_base win_len win_ret max_insns (ctx_of v) chan rset info t pubs evs = Some (o, i) →
  exit_ok o.
Proof.
  intros Hc He [Ht Hh]. unfold dfp_window_loop. fold (first_stop v chan rset info).
  assert (before_stop (first_stop v chan rset info) t t) as Hb by (right; split; [by apply ctx_of_ok|done]).
  pose proof (window_stop_ok _ t t pubs Hb Ht) as H.
  destruct (stop_of _ _ _) as [[o' i']|st]; [by intros [= <- <-]|]. by apply window_events_ok with (prev := t).
Qed.
End window.

(** ** The scoped capture *)
Section scoped.
Context (cfg : config) (operands : list Z → Z → Z * list at_val_rec * list at_val_rec).
Context (is_call : list Z → Z → option Z).
Context (Hops : operands_ok operands).
Context (base_ip code_len max_insns backstop : Z).
Abbreviation off_in := (λ regs, rip regs -64 base_ip).
Abbreviation round_of := (step_round always cfg operands is_call base_ip code_len max_insns backstop).
Abbreviation writes_of := (insn_writes cfg operands off_in).

(** As [honest]: well-formed stops, those after a call-out included, and recorded
    instructions that change the locations recorded before only as listed. *)
Fixpoint honest_rounds (fuel : nat) (st : sstate) (prev : target) (evs : list event) : Prop :=
  match fuel with
  | O => True
  | S fuel =>
      match s_skip st, evs with
      | None, EvTrap _ t _ :: _ =>
          target_ok t ∧ (have_cur (s_ctx st) = true → changes_only (vrecs (vt (s_ctx st))) (writes_of prev) prev t)
      | _, _ => True
      end ∧
      match round_of st evs with
      | (Some (inr st'), evs') =>
          (if s_skip st' is Some t then target_ok t else True) ∧
          honest_rounds fuel st' (match s_skip st, evs with Some t, _ => t | None, EvTrap _ t _ :: _ => t | _, _ => prev end) evs'
      | _ => True
      end
  end.

(** Between rounds: nothing recorded yet, the step at [prev] open, or the stop
    after a call-out about to be examined. *)
Definition step_inv (st : sstate) (prev : target) : Prop :=
  let c := s_ctx st in
  ctx_ok c ∧ (s_entered st = false → have_cur c = false ∧ vrecs (vt c) = []) ∧
  match s_skip st with
  | Some t => target_ok t ∧ settled c t
  | None => opened cfg operands off_in c prev ∨ have_cur c = false ∧ vrecs (vt c) = []
  end.

Lemma step_inv_trace st prev : step_inv st prev → vtruncated (vt (s_ctx st)) = false → trace_ok (vt (s_ctx st)).
Proof.
  intros ((Hrk & Hc & _) & _ & H) Hf. destruct (s_skip st) as [t|]; [by apply H|].
  destruct H as [(_ & _ & H)|[_ H]]; [by apply H|]. by apply (empty_current _ prev).
Qed.

(** A stop after which nothing is left open. *)
Lemma scoped_settle st prev t regs :
  step_inv st prev → target_ok t → t_regs t = Some regs → (s_skip st = None ∨ s_skip st = Some t) →
  (s_skip st = None → have_cur (s_ctx st) = true → changes_only (vrecs (vt (s_ctx st))) (writes_of prev) prev t) →
  settled (finalize_open cfg (s_ctx st) t regs) t.
Proof.
  intros (Hc & _ & H) Ht Hregs Hsk Hch. unfold finalize_open. destruct (s_skip st) as [t'|].
  - destruct Hsk as [|[= ->]]; [done|]. destruct H as [_ Hs]. by rewrite (proj1 (proj2 Hs)).
  - destruct H as [Ho|[Hh He]].
    + pose proof Ho as (Hh & _). rewrite Hh. eapply (finalize_settles cfg operands Hops off_in); eauto.
    + rewrite Hh. split; [done|]. split; [done|]. intros _. destruct Hc as (? & ? & _). by apply empty_current.
Qed.

(** The call-out: the helper is run over between two stops, [tg] and [t]. *)
Lemma callout_gap_ok c tg t pre :
  target_ok tg → t_regs tg = Some pre → target_ok t → settled c tg →
  match callout_gap cfg (dfp_risk_snap c tg) t pre (dfp_vecsnap tg) with
  | inl o => exit_ok o
  | inr c' => settled c' t
  end.
Proof.
  intros Htg Hpre Ht Hs. destruct (snap_gap c tg Htg Hs) as (R1 & R2 & R3 & R4 & R5). unfold callout_gap.
  set (c1 := dfp_risk_snap c tg) in *.
  set (c2 := if overflow_pending (risk c1) then _ else c1).
  assert (ctx_ok c2 ∧ have_cur c2 = false ∧ (vtruncated (vt c2) = false → in_gap c2 tg)) as (C1 & C2 & C3).
  { unfold c2. destruct (overflow_pending (risk c1)) eqn:Ep; [|split; [done|]; split; [done|]; intros Hf; by apply R5].
    split; [|done]. destruct R1 as (A & B & C). split; [exact A|]. split; [by apply (g_caps _ _ (proj1 (vt_flag_grows (vt c1))))|exact C]. }
  destruct (t_regs t) as [post|] eqn:Hpost; [|apply dirty_flag_ok].
  by destruct (gap_settles c2 tg t pre post (rip pre) Ht Hpost Htg Hpre C1 C2 C3).
Qed.

Lemma step_stop_ok st prev t evs :
  step_inv st prev → target_ok t → (s_skip st = None ∨ s_skip st = Some t) →
  (s_skip st = None → have_cur (s_ctx st) = true → changes_only (vrecs (vt (s_ctx st))) (writes_of prev) prev t) →
  match (step_stop always cfg operands is_call base_ip code_len max_insns backstop st t evs).1 with
  | Some (inl o) => exit_ok o
  | Some (inr st') => (if s_skip st' is Some t' then target_ok t' else True) → step_inv st' t
  | None => True
  end.
Proof.
  intros Hinv Ht Hsk Hch. unfold step_stop.
  destruct (t_regs t) as [regs|] eqn:Hregs; [|apply dirty_exit_ok; by eapply step_inv_trace].
  pose proof (scoped_settle st prev t regs Hinv Ht Hregs Hsk Hch) as Hs.
  destruct (_ && _).
  - destruct (_ && _); [apply dirty_flag_ok|]. destruct (open_opens cfg operands Hops off_in _ t regs Ht Hregs Hs) as (O1 & O2 & _).
    intros _. split; [done|]. split; [done|]. by left.
  - destruct (s_entered st) eqn:Een.
    + destruct (dfp_is_callout _ _ _ _ _ _ _) as [resume|]; [|intros Hf; by apply Hs].
      destruct (_ <? _); [apply dirty_flag_ok|].
      destruct (dfp_run_to _ _ _) as [[[[t' pubs]|]|] evs']; [|apply dirty_flag_ok|done].
      destruct (callout_gap _ _ _ _ _) as [o|c'] eqn:Eg; simpl.
      * destruct (t_regs t') eqn:Et'; unfold callout_gap in Eg; rewrite Et' in Eg; [done|]. injection Eg as <-. apply dirty_flag_ok.
      * intros Ht'. pose proof (callout_gap_ok _ t t' regs Ht Hregs Ht' Hs) as H. rewrite Eg in H. split; [apply H|done].
    + intros _. destruct Hinv as (Hc & He & _). split; [done|]. split; [by intros _; apply He|]. right. by apply He.
Qed.

Lemma step_round_ok st prev evs :
  step_inv st prev →
  match s_skip st, evs with
  | None, EvTrap _ t _ :: _ =>
      target_ok t ∧ (have_cur (s_ctx st) = true → changes_only (vrecs (vt (s_ctx st))) (writes_of prev) prev t)
  | _, _ => True
  end →
  match (round_of st evs).1 with
  | Some (inl o) => exit_ok o
  | Some (inr st') => (if s_skip st' is Some t' then target_ok t' else True) →
      step_inv st' (match s_skip st, evs with Some t, _ => t | None, EvTrap _ t _ :: _ => t | _, _ => prev end)
  | None => True
  end.
Proof.
  intros Hinv Hev. pose proof (step_inv_trace st prev Hinv) as Htr.
  assert (∀ t c e r n evs', s_skip st = Some t → c = s_ctx st → e = s_entered st →
    match (step_stop always cfg operands is_call base_ip code_len max_insns backstop (mk_sstate c e r n (Some t)) t evs').1 with
    | Some (inl o) => exit_ok o
    | Some (inr st') => (if s_skip st' is Some t' then target_ok t' else True) → step_inv st' t
    | None => True end) as Hskip.
  { intros t c e r n evs' Esk -> ->. apply (step_stop_ok _ prev); [|by destruct Hinv as (_ & _ & H); rewrite Esk in H; apply H|by right|done].
    destruct Hinv as (? & ? & H). split; [done|]. split; [done|]. by rewrite Esk in H. }
  assert (∀ e evs', evs = e :: evs' → e = EvStopReq → match (round_of st evs).1 with Some (inl o) => exit_ok o | _ => False end) as Hstop.
  { intros e evs' -> ->. apply dirty_flag_ok. }
  destruct (s_skip st) as [t|] eqn:Esk.
  - destruct evs as [|e evs].
    { unfold step_round. rewrite Esk. by apply (Hskip t _ _ (s_recorded st) (s_total st) []). }
    assert (e = EvStopReq ∨ (round_of st (e :: evs)) = step_stop always cfg operands is_call base_ip code_len max_insns backstop
      (mk_sstate (s_ctx st) (s_entered st) (s_recorded st) (s_total st) (Some t)) t (e :: evs)) as [->|Er].
    { destruct e; try (by left); right; unfold step_round; by rewrite Esk. }
    + specialize (Hstop _ _ eq_refl eq_refl). destruct (round_of st _).1 as [[|]|]; done.
    + rewrite Er. by apply Hskip.
  - destruct evs as [|e evs]; [unfold step_round; by rewrite Esk|]. unfold step_round. rewrite Esk.
    destruct e as [| | | | |sig|si t pubs|ok|ok|]; simpl; try done; try (by apply dirty_exit_ok); try (by intros _; rewrite Esk in *).
    + unfold exit_ok. by destruct (have_cur (s_ctx st)).
    + destruct (fatal_signal sig); [apply dirty_flag_ok|by intros _].
    + destruct Hev as [Ht Hch]. destruct (dfp_sigtrap_is_app si); [apply dirty_flag_ok|].
      destruct (_ <? _); [apply dirty_flag_ok|]. apply (step_stop_ok _ prev); [|done|by left|by intros _].
      destruct Hinv as (? & ? & H). rewrite Esk in H. done.
Qed.

Lemma step_rounds_ok fuel st prev evs o :
  step_inv st prev → honest_rounds fuel st prev evs →
  step_rounds always cfg operands is_call base_ip code_len max_insns backstop fuel st evs = Some o → exit_ok o.
Proof.
  revert st prev evs. induction fuel as [|fuel IH]; intros st prev evs Hinv Hh; [done|]. cbn [step_rounds honest_rounds] in *.
  destruct Hh as [Hev Hrest]. pose proof (step_round_ok st prev evs Hinv Hev) as H.
  destruct (round_of st evs) as [[[o'|st']|] evs']; [by intros [= <-]| |done]. destruct Hrest as [Hsk Hh]. apply (IH _ _ _ (H Hsk) Hh).
Qed.

(** The whole loop, from the entry stop of a pre-positioned tracee or from the
    first step. *)
Definition honest_capture (v : asmtest_valtrace) (entry : option target) (t0 : target) (evs : list event) : Prop :=
  let skip := if pre_positioned cfg then entry else None in
  (if skip is Some t then target_ok t else True) ∧
  honest_rounds (2 * length evs + 2) (mk_sstate (ctx_of v) false 0 0 skip) t0 evs.

Lemma step_loop_ok v entry t0 evs o :
  caps_ok v → vrecs v = [] → honest_capture v entry t0 evs →
  dfp_step_loop always cfg operands is_call base_ip code_len max_insns backstop v entry evs = Some o → exit_ok o.
Proof.
  intros Hc He [Hsk Hh]. apply step_rounds_ok with (prev := t0); [|exact Hh].
  pose proof (ctx_of_ok v Hc) as Hok. split; [done|]. split; [done|]. cbn [s_skip s_ctx].
  destruct (if pre_positioned cfg then entry else None) as [t|]; [|by right].
  split; [done|]. split; [done|]. split; [done|]. intros _. destruct Hok as (? & ? & _). by apply empty_current.
Qed.
End scoped.

(** What [sound] says of the graph: an edge through location [k] connects a write
    and a read that recorded the same value of it. *)
Definition carries (v : asmtest_valtrace) (x : edge) : Prop :=
  ∀ k w b b', k ∈ read_keys (loc x) → last_writer (vrecs v) k (to_step x) (from_step x) →
    w ∈ vrecs v → defines w k (from_step x) → k ∈ read_keys w →
    rec_val (wide_of v) w k = Some b → rec_val (wide_of v) (loc x) k = Some b' → b = b'.

Lemma trace_ok_carries v g x :
  trace_ok v → Z.of_nat (steps_len v) < 2 ^ 32 → Z.of_nat (recs_len v) <= 2 ^ 40 →
  asmtest_defuse_build always (Some v) = Some g → x ∈ edges g → carries v x.
Proof.
  intros (Hs & _ & Hg & _) H1 H2 Hb Hx. destruct (defuse_build_spec v g Hg H1 H2 Hb) as [_ He].
  apply He in Hx as (Hr & Hrw & Est & _). intros k w b b' Hk (Hlt & _ & Hmax) Hw (Hww & Hkw & Ews) Hkr Hv Hv'.
  eapply (Hs (loc x) k w b b'); try done.
  - rewrite Est, Ews. done.
  - rewrite Est, Ews. intros w' (Hw' & ? & ?) Hlt'. eapply (Hmax w'); done.
Qed.

(** ** Checking a script

    The hypotheses on a script are decidable; concrete scripts are checked by
    evaluation. *)
Definition regs_list (r : user_regs) : list Z :=
  [rax r; rbx r; rcx r; rdx r; rsi r; rdi r; rbp r; rsp r; r8 r; r9 r; r10 r; r11 r; r12 r; r13 r; r14 r; r15 r; rip r; eflags r].
Definition is_byteb (b : Z) : bool := (0 <=? b) && (b <? 256).
Definition is_u64b (x : Z) : bool := (0 <=? x) && (x <? 2 ^ 64).
Definition target_okb (t : target) : bool :=
  (if t_regs t is Some r then forallb is_u64b (regs_list r) else true)
  && (if t_fp t is Some (xmm, _) then (length xmm =? 256)%nat && forallb is_byteb xmm else true)
  && (if t_xs t is Some xs then forallb is_byteb xs else true)
  && forallb (λ '(a, b), is_u64b a && is_byteb b) (map_to_list (t_mem t)) && (0 <=? t_hi16 t).

Lemma forallb_Forall {A} (f : A → bool) (P : A → Prop) l : (∀ x, f x = true → P x) → forallb f l = true → Forall P l.
Proof. intros H E. apply Forall_forall. intros x Hx%list_elem_of_In. rewrite forallb_forall in E. auto. Qed.
Lemma is_byteb_ok b : is_byteb b = true → is_byte b.
Proof. unfold is_byteb, is_byte. lia. Qed.
Lemma is_u64b_ok b : is_u64b b = true → is_u64 b.
Proof. unfold is_u64b, is_u64. lia. Qed.

Lemma gp_value_In r x v : gp_value r x = Some v → v ∈ regs_list r.
Proof.
  unfold gp_value. intros H. unfold regs_list. repeat match type of H with
  | (if ?b then _ else _) = _ => destruct b; [injection H as <-; repeat (apply elem_of_cons; (left; reflexivity) || right)|]
  end. done.
Qed.

Lemma target_okb_ok t : target_okb t = true → target_ok t.
Proof.
  unfold target_okb. rewrite !andb_true_iff. intros ((((Hr & Hf) & Hx) & Hm) & Hh). split.
  - intros r x v E Hv. rewrite E in Hr. apply gp_value_In in Hv. revert v Hv. apply Forall_forall.
    by apply (forallb_Forall is_u64b); [apply is_u64b_ok|].
  - intros xmm mx E. rewrite E in Hf. apply andb_true_iff in Hf as [Hl Hb]. apply Nat.eqb_eq in Hl.
    split; [done|]. by apply (forallb_Forall is_byteb); [apply is_byteb_ok|].
  - intros xs E. rewrite E in Hx. by apply (forallb_Forall is_byteb); [apply is_byteb_ok|].
  - intros a b E. apply elem_of_map_to_list, list_elem_of_In in E. rewrite forallb_forall in Hm. apply Hm, andb_true_iff in E as [? ?].
    split; [by apply is_u64b_ok|by apply is_byteb_ok].
  - lia.
Qed.

Definition changes_onlyb (rs writes : list at_val_rec) (t t' : target) : bool :=
  forallb (λ w, negb (is_write w) || forallb (λ k,
    existsb (λ r, bool_decide (k ∈ write_keys r)) writes
    || match loc_value t k with Some b => bool_decide (loc_value t' k = Some b) | None => true end) (write_keys w)) rs.
Lemma changes_onlyb_ok rs writes t t' : changes_onlyb rs writes t t' = true → changes_only rs writes t t'.
Proof.
  unfold changes_onlyb. rewrite forallb_forall. intros H k w b (Hw & Hww & Hk) Hno Hb.
  apply list_elem_of_In, H in Hw. rewrite Hww in Hw. simpl in Hw. rewrite forallb_forall in Hw.
  apply list_elem_of_In, Hw in Hk. rewrite Hb in Hk. apply orb_true_iff in Hk as [Hk|Hk]; [|by apply bool_decide_eq_true in Hk].
  apply existsb_exists in Hk as (r & Hr & Hkr). apply bool_decide_eq_true in Hkr. apply list_elem_of_In in Hr. by destruct (Hno r Hr).
Qed.

Section check.
Context (cfg : config) (operands : list Z → Z → Z * list at_val_rec * list at_val_rec).
Context (win_base win_len win_ret max_insns : Z).

Fixpoint honestb (st : wstate) (prev : target) (evs : list event) : bool :=
  match evs with
  | [] => true
  | ev :: evs =>
      match ev with
      | EvTrap _ t _ =>
          target_okb t && (if w_gap st is None
                           then changes_onlyb (vrecs (vt (w_ctx st))) (insn_writes cfg operands rip prev) prev t else true)
      | _ => true
      end &&
      match window_event always cfg operands win_base win_len win_ret max_insns st ev with
      | inl _ => true
      | inr st' => honestb st' (match ev with EvTrap _ t _ => t | _ => prev end) evs
      end
  end.
Lemma honestb_ok evs st prev :
  honestb st prev evs = true → honest cfg operands win_base win_len win_ret max_insns st prev evs.
Proof.
  revert st prev. induction evs as [|ev evs IH]; intros st prev; [done|]. cbn [honestb honest]. rewrite andb_true_iff.
  intros [H1 H2]. split.
  - destruct ev; try done. apply andb_true_iff in H1 as [Ht Hc]. split; [by apply target_okb_ok|]. intros E. rewrite E in Hc.
    by apply changes_onlyb_ok.
  - destruct (window_event _ _ _ _ _ _ _ _ _); [done|]. by apply IH.
Qed.

Definition honest_runb (v : asmtest_valtrace) (chan : option channel) (rset : list addr_rec) (info : dfwin_info)
    (t : target) (pubs : list addr_rec) (evs : list event) : bool :=
  target_okb t &&
  match window_stop always cfg operands win_base win_len win_ret max_insns (first_stop v chan rset info) t pubs with
  | inl _ => true
  | inr st => honestb st t evs
  end.
Lemma honest_runb_ok v chan rset info t pubs evs :
  honest_runb v chan rset info t pubs evs = true →
  honest_run cfg operands win_base win_len win_ret max_insns v chan rset info t pubs evs.
Proof.
  unfold honest_runb. rewrite andb_true_iff. intros [Ht H]. split; [by apply target_okb_ok|].
  destruct (window_stop _ _ _ _ _ _ _ _ _ _); [done|]. by apply honestb_ok.
Qed.

Context (is_call : list Z → Z → option Z) (base_ip code_len backstop : Z).
Abbreviation round_of := (step_round always cfg operands is_call base_ip code_len max_insns backstop).
Fixpoint honest_roundsb (fuel : nat) (st : sstate) (prev : target) (evs : list event) : bool :=
  match fuel with
  | O => true
  | S fuel =>
      match s_skip st, evs with
      | None, EvTrap _ t _ :: _ =>
          target_okb t && (if have_cur (s_ctx st)
            then changes_onlyb (vrecs (vt (s_ctx st))) (insn_writes cfg operands (λ regs, rip regs -64 base_ip) prev) prev t else true)
      | _, _ => true
      end &&
      match round_of st evs with
      | (Some (inr st'), evs') =>
          (if s_skip st' is Some t then target_okb t else true) &&
          honest_roundsb fuel st' (match s_skip st, evs with Some t, _ => t | None, EvTrap _ t _ :: _ => t | _, _ => prev end) evs'
      | _ => true
      end
  end.
Lemma honest_roundsb_ok fuel st prev evs :
  honest_roundsb fuel st prev evs = true → honest_rounds cfg operands is_call base_ip code_len max_insns backstop fuel st prev evs.
Proof.
  revert st prev evs. induction fuel as [|fuel IH]; intros st prev evs; [done|]. cbn [honest_roundsb honest_rounds]. rewrite andb_true_iff.
  intros [H1 H2]. split.
  - destruct (s_skip st); [done|]. destruct evs as [|[] evs]; try done. apply andb_true_iff in H1 as [Ht Hc].
    split; [by apply target_okb_ok|]. intros E. rewrite E in Hc. by apply changes_onlyb_ok.
  - destruct (round_of st evs) as [[[|st']|] evs']; [done| |done]. apply andb_true_iff in H2 as [Hs H2]. split; [|by apply IH].
    destruct (s_skip st'); [by apply target_okb_ok|done].
Qed.
End check.

(** A fresh sink. *)
Lemma new_sink_ok sc rc wc v :
  asmtest_valtrace_new always sc rc wc = Some v → Z.of_nat sc < 2 ^ 32 → Z.of_nat wc <= 2 ^ 32 →
  caps_ok (abs_space v) ∧ vrecs (abs_space v) = [].
Proof.
  unfold asmtest_valtrace_new, pool. simpl. intros [= <-] ? ?. unfold caps_ok, wide_of, vrecs. simpl.
  destruct (0 <? sc)%nat, (0 <? rc)%nat, (0 <? wc)%nat; simpl; (split; [lia|done]).
Qed.

(** ** Soundness *)
(** Elision is sound.  A windowed survey records the frame and the published
    regions and steps over the glue between them.  If the trace it returns is not
    flagged truncated then every edge of the def-use graph built from it carries
    its value: the value its producer recorded for the location is the one its
    consumer recorded, whatever the glue in between overwrote - for every script
    of stops, signals, publications and failures, provided a recorded instruction
    changes the locations recorded before it only as the operand enumerator lists.
    The upper half of a container is not meant when the producer named its 32-bit
    alias. *)
Theorem window_edges_carry_values operands sc rc wc v win_base win_len win_ret max_insns chan rset info t pubs evs o i g x
    (Hops : operands_ok operands)
    (Hnew : asmtest_valtrace_new always sc rc wc = Some v)
    (Hcaps : Z.of_nat sc < 2 ^ 32 ∧ Z.of_nat wc <= 2 ^ 32)
    (Hhonest : honest_run window_config operands win_base win_len win_ret max_insns (abs_space v) chan rset info t pubs evs)
    (Hrun : dfp_window_loop always window_config operands win_base win_len win_ret max_insns
              (ctx_of (abs_space v)) chan rset info t pubs evs = Some (o, i))
    (Hfull : vtruncated (vt (o_ctx o)) = false)
    (Hsize : Z.of_nat (steps_len (vt (o_ctx o))) < 2 ^ 32 ∧ Z.of_nat (recs_len (vt (o_ctx o))) <= 2 ^ 40)
    (Hbuild : asmtest_defuse_build always (Some (vt (o_ctx o))) = Some g) (Hx : x ∈ edges g) :
  carries (vt (o_ctx o)) x.
Proof.
  destruct (new_sink_ok sc rc wc v Hnew) as [Hc He]; [tauto..|].
  eapply trace_ok_carries; [|tauto|tauto|done|done].
  by eapply (window_loop_ok window_config operands Hops eq_refl).
Qed.


(** C17: running over a helper is sound.  The scoped capture of one region runs
    what it calls outside the region at full speed and records nothing of it.  If the
    trace is not flagged truncated, then on every edge of its def-use graph, for each
    byte read whose last writer the edge names and that the writing record itself
    covers, the two records agree on its value where both captured one.  (Not covered: the upper
    half of a container that a 32-bit write defines without naming it, which unrecorded
    code can change unseen, [gap_misses_upper_half]; and values not captured.)  This
    for every script of the kernel's answers and every helper, if memory is granted,
    the stops are well formed, the enumerator's records are, a recorded instruction
    changes the locations recorded before it only as listed, and the trace has fewer
    than 2{^32} steps and at most 2{^40} records. *)
Theorem callout_edges_carry_values cfg operands is_call base_ip code_len max_insns backstop sc rc wc v entry t0 evs o g x
    (Hops : operands_ok operands)
    (Hnew : asmtest_valtrace_new always sc rc wc = Some v)
    (Hcaps : Z.of_nat sc < 2 ^ 32 ∧ Z.of_nat wc <= 2 ^ 32)
    (Hhonest : honest_capture cfg operands is_call base_ip code_len max_insns backstop (abs_space v) entry t0 evs)
    (Hrun : dfp_step_loop always cfg operands is_call base_ip code_len max_insns backstop (abs_space v) entry evs = Some o)
    (Hfull : vtruncated (vt (o_ctx o)) = false)
    (Hsize : Z.of_nat (steps_len (vt (o_ctx o))) < 2 ^ 32 ∧ Z.of_nat (recs_len (vt (o_ctx o))) <= 2 ^ 40)
    (Hbuild : asmtest_defuse_build always (Some (vt (o_ctx o))) = Some g) (Hx : x ∈ edges g) :
  carries (vt (o_ctx o)) x.
Proof.
  destruct (new_sink_ok sc rc wc v Hnew) as [Hc He]; [tauto..|].
  eapply trace_ok_carries; [|tauto|tauto|done|done]. by eapply (step_loop_ok cfg operands is_call Hops).
Qed.

(** *** The survey ends *)
Definition is_trap (ev : event) : bool := match ev with EvTrap _ _ _ => true | _ => false end.

Lemma drain_stops chan pubs rset info : i_stops (drain_into chan pubs rset info).2 = i_stops info.
Proof. unfold drain_into. destruct chan; [|done]. case_match; [|done]. by destruct (asmtest_addr_channel_drain _ _). Qed.

Lemma window_stop_stops grant cfg operands wb wl wr mx st t pubs :
  match window_stop grant cfg operands wb wl wr mx st t pubs with inl _ => True | inr st' => i_stops (w_info st') = i_stops (w_info st) end.
Proof.
  unfold window_stop. destruct (t_regs t); [|done]. pose proof (drain_stops (w_chan st) pubs (w_rset st) (w_info st)) as E.
  destruct (drain_into _ _ _ _) as [[chan rset] info]. simpl in E.
  destruct (_ =? wr); [done|]. destruct (dfp_in_region_set _ _ _ _).
  - unfold close_gap. destruct (w_gap st) as [[[? ?] ?]|]; [destruct (dfp_emit_gap _ _ _ _ _ _ _) as [[? ?] ?]|];
      by destruct (negb _ && _).
  - by destruct (w_gap st).
Qed.

Lemma window_events_end grant cfg operands wb wl wr mx evs st :
  DFP_STEP_BACKSTOP - i_stops (w_info st) < Z.of_nat (length (filter (λ ev, is_trap ev = true) evs)) →
  i_stops (w_info st) <= DFP_STEP_BACKSTOP →
  is_Some (window_events grant cfg operands wb wl wr mx st evs).
Proof.
  revert st. induction evs as [|ev evs IH]; intros st; [simpl; lia|]. cbn [window_events]. rewrite filter_cons. intros Hlt Hle.
  destruct (window_event grant cfg operands wb wl wr mx st ev) as [o|st'] eqn:E; [done|].
  assert (i_stops (w_info st') = i_stops (w_info st) + (if is_trap ev then 1 else 0) ∧ i_stops (w_info st') <= DFP_STEP_BACKSTOP) as [E1 E2].
  { unfold window_event in E. destruct ev as [| | | | |sig|si t pubs|ok|ok|]; simpl in *; try (injection E as <-; lia); try done.
    - destruct (fatal_signal sig); [done|]. injection E as <-. lia.
    - destruct (dfp_sigtrap_is_app si); [done|]. destruct (Z.ltb_spec DFP_STEP_BACKSTOP (i_stops (w_info st) + 1)); [done|].
      pose proof (window_stop_stops grant cfg operands wb wl wr mx
        (mk_wstate (w_ctx st) (w_chan st) (w_rset st) (add_stop (w_info st)) (w_gap st)) t pubs) as S.
      rewrite E in S. simpl in S. lia. }
  apply IH; [|done]. destruct (is_trap ev); case_decide; simpl in Hlt; try done; lia.
Qed.

(** C24: a survey ends.  However the target runs - never returning, looping in glue,
    taking signals - the window loop returns once the target has stopped more than
    2{^20} times, for every allocator, decoder and region set. *)
Theorem window_survey_ends grant cfg operands win_base win_len win_ret max_insns c chan rset t pubs evs
    (Hmany : DFP_STEP_BACKSTOP < Z.of_nat (length (filter (λ ev, is_trap ev = true) evs))) :
  is_Some (dfp_window_loop grant cfg operands win_base win_len win_ret max_insns c chan rset info0 t pubs evs).
Proof.
  unfold dfp_window_loop. pose proof (window_stop_stops grant cfg operands win_base win_len win_ret max_insns
    (mk_wstate c chan rset info0 None) t pubs) as S.
  destruct (window_stop _ _ _ _ _ _ _ _ _ _) as [o|st]; [done|]. simpl in S. apply window_events_end; rewrite S; [lia|done].
Qed.

(** A target that spins in place outside the region. *)
Lemma window_survey_ends_witness :
  let evs := replicate (Z.to_nat (2 ^ 20 + 1)) (EvTrap None (mk_target (Some (with_rip regs0 8)) None None ∅ true 0) []) in
  is_Some (dfp_window_loop always window_config (λ _ _, (0, [], [])) 4096 2 36864 0 (ctx_of (abs_space
    (mk_vt None 0 0 None false None 0 0 None 0 false AT_LOC_MEM_ABS))) None [] info0
    (mk_target (Some (with_rip regs0 8)) None None ∅ true 0) [] evs).
Proof.
  cbv zeta. apply window_survey_ends.
  assert (∀ n (x : event), is_trap x = true → length (filter (λ ev, is_trap ev = true) (replicate n x)) = n) as H.
  { intros n x Hx. induction n as [|n IH]; [done|]. simpl. rewrite filter_cons, decide_True by done. simpl. by rewrite IH. }
  rewrite H by reflexivity. rewrite Z2Nat.id by lia. unfold DFP_STEP_BACKSTOP. lia.
Defined.

(** A toy target for the concrete runs: one-byte instructions
    - 1: store to the byte at 8192;    2: load it;
    - 3: write EAX;  4: read RAX;  5: write RAX;  6: read AL;  7: call. *)
Definition reg_op (x : Z) (w : bool) : at_val_rec := mk_rec AT_LOC_REG x 0 0 0 0 0 0 w false false 0 0 0.
Definition mem_op (w : bool) : at_val_rec := mk_rec AT_LOC_MEM_ABS 0 0 0 0 8192 0 1 w false false 0 0 0.
Definition toy (dec : list Z) (off : Z) : Z * list at_val_rec * list at_val_rec :=
  match dec !! Z.to_nat off with
  | Some 1 => (1, [], [mem_op true])
  | Some 2 => (1, [mem_op false], [])
  | Some 3 => (1, [], [reg_op X86_REG_EAX true])
  | Some 4 => (1, [reg_op X86_REG_RAX false], [])
  | Some 5 => (1, [], [reg_op X86_REG_RAX true])
  | Some 6 => (1, [reg_op X86_REG_AL false], [])
  | Some _ => (1, [], [])
  | None => (0, [], [])
  end.
Lemma toy_ok : operands_ok toy.
Proof.
  assert (∀ l, Forall (λ r, r = mem_op false ∨ r = reg_op X86_REG_RAX false ∨ r = reg_op X86_REG_AL false) l →
    Forall (λ r, is_write r = false ∧ value_valid r = false ∧ wide r = false ∧ 0 <= size r) l) as Hr.
  { intros l Hl. eapply Forall_impl; [exact Hl|]. intros r [->|[-> | ->]]; done. }
  assert (∀ l, Forall (λ r, r = mem_op true ∨ r = reg_op X86_REG_EAX true ∨ r = reg_op X86_REG_RAX true) l →
    Forall (λ r, is_write r = true ∧ wide r = false ∧ 0 <= size r) l) as Hw.
  { intros l Hl. eapply Forall_impl; [exact Hl|]. intros r [->|[-> | ->]]; done. }
  intros dec o. unfold toy. destruct (dec !! Z.to_nat o) as [[|p|p]|];
    [|do 3 (try destruct p as [p|p|])|..]; (split; [simpl; lia|split; [simpl; lia|]]); (split; [apply Hr|apply Hw]); repeat constructor; tauto.
Qed.

(** Stopped at [pc] with [x] in rax, [b] in the byte at 8192, the program [code] at
    4096 and the return address [r] at the top of the stack. *)
Definition toy_target (code : list Z) (pc x b r : Z) : target :=
  mk_target (Some (mk_regs x 0 0 0 0 0 0 12288 0 0 0 0 0 0 0 0 pc 0 0 0)) None None
    (list_to_map ((8192, b) :: imap (λ i c, (4096 + Z.of_nat i, c)) (code ++ replicate 16 0)
                  ++ imap (λ i c, (12288 + Z.of_nat i, c)) (to_le 8 r))) true 0.
Definition toy_sink : asmtest_valtrace := default (mk_vt None 0 0 None false None 0 0 None 0 true AT_LOC_MEM_ABS) (asmtest_valtrace_new always 8 8 0).

(** A store, glue that overwrites it, a load. *)
Definition toy_evs (code : list Z) (s1 s2 : Z * Z) : list event :=
  [EvTrap None (toy_target code 20480 s1.1 s1.2 36864) []; EvTrap None (toy_target code 4097 s2.1 s2.2 36864) [];
   EvTrap None (toy_target code 36864 s2.1 s2.2 36864) []].
Definition toy_window (code : list Z) (s1 s2 : Z * Z) : option (outcome * dfwin_info) :=
  dfp_window_loop always window_config toy 4096 2 36864 0 (ctx_of (abs_space toy_sink)) None [] info0
    (toy_target code 4096 0 0 36864) [] (toy_evs code s1 s2).

#[local] Strategy expand [toy_window].
Definition toy_result (code : list Z) (s1 s2 : Z * Z) : asmtest_valtrace :=
  match toy_window code s1 s2 with Some (o, _) => vt (o_ctx o) | None => toy_sink end.
(** The edges of a run whose graph is built. *)
Definition edges_of (v : asmtest_valtrace) : list edge :=
  match asmtest_defuse_build always (Some v) with Some g => edges g | None => [] end.

Lemma window_edges_carry_values_witness :
  let v := toy_result [1; 2] (0, 7) (0, 9) in
  vtruncated v = false ∧ (λ x, (from_step x, to_step x)) <$> edges_of v = [(1, 2)] ∧ ∀ x, x ∈ edges_of v → carries v x.
Proof.
  cbv zeta. split; [vm_compute; reflexivity|]. split; [vm_compute; reflexivity|].
  assert (∃ o i g, toy_window [1; 2] (0, 7) (0, 9) = Some (o, i) ∧ asmtest_defuse_build always (Some (vt (o_ctx o))) = Some g ∧
    vtruncated (vt (o_ctx o)) = false ∧ Z.of_nat (steps_len (vt (o_ctx o))) < 2 ^ 32 ∧ Z.of_nat (recs_len (vt (o_ctx o))) <= 2 ^ 40)
    as (o & i & g & E & Eg & H1 & H2).
  { do 3 eexists. split; [vm_compute; reflexivity|]. split; [vm_compute; reflexivity|]. vm_compute. repeat split; discriminate. }
  unfold toy_result, edges_of. rewrite E, Eg. unfold toy_window in E.
  intros x Hx. eapply (window_edges_carry_values toy 8 8 0 toy_sink 4096 2 36864 0 None [] info0 (toy_target [1; 2] 4096 0 0 36864) []
    (toy_evs [1; 2] (0, 7) (0, 9)) o i g x toy_ok eq_refl).
  - split; [reflexivity|discriminate].
  - apply honest_runb_ok. vm_compute. reflexivity.
  - exact E.
  - exact H1.
  - exact H2.
  - exact Eg.
  - exact Hx.
Defined.

(** The scoped run: a store, a call to a helper that overwrites it, a load. *)
Definition toy_call (dec : list Z) (off : Z) : option Z := if nth (Z.to_nat off) dec 0 =? 7 then Some 1 else None.
Definition scoped_config (code : list Z) : config := mk_config code 4096 false true true None.
Definition toy_code : list Z := [1; 7; 2].
Definition scoped_evs : list event :=
  [EvTrap None (toy_target toy_code 4097 0 7 4098) []; EvTrap None (toy_target toy_code 20480 0 7 4098) [];
   EvPoke true; EvTrap None (toy_target toy_code 4099 0 9 4098) []; EvPoke true; EvSetRegs true;
   EvTrap None (toy_target toy_code 36864 33 9 4098) []].
Definition toy_scoped : option outcome :=
  dfp_step_loop always (scoped_config toy_code) toy toy_call 4096 3 0 DFP_STEP_BACKSTOP (abs_space toy_sink)
    (Some (toy_target toy_code 4096 0 0 4098)) scoped_evs.

Lemma callout_edges_carry_values_witness :
  ∃ o g, toy_scoped = Some o ∧ o_rc o = DF_PTRACE_OK ∧ o_result o = Some 33 ∧ vtruncated (vt (o_ctx o)) = false ∧
    asmtest_defuse_build always (Some (vt (o_ctx o))) = Some g ∧
    (λ x, (from_step x, to_step x)) <$> edges g = [(2, 3)] ∧ ∀ x, x ∈ edges g → carries (vt (o_ctx o)) x.
Proof.
  assert (∃ o g, toy_scoped = Some o ∧ asmtest_defuse_build always (Some (vt (o_ctx o))) = Some g ∧
    o_rc o = DF_PTRACE_OK ∧ o_result o = Some 33 ∧ vtruncated (vt (o_ctx o)) = false ∧
    Z.of_nat (steps_len (vt (o_ctx o))) < 2 ^ 32 ∧ Z.of_nat (recs_len (vt (o_ctx o))) <= 2 ^ 40 ∧
    (λ x, (from_step x, to_step x)) <$> edges g = [(2, 3)]) as (o & g & E & Eg & H1 & H2 & H3 & H4 & H5 & H6).
  { do 2 eexists. split; [vm_compute; reflexivity|]. split; [vm_compute; reflexivity|]. vm_compute. repeat split; discriminate. }
  exists o, g. unfold toy_scoped in *.
  do 6 (split; [assumption || reflexivity|]). intros x Hx.
  eapply (callout_edges_carry_values (scoped_config toy_code) toy toy_call 4096 3 0 DFP_STEP_BACKSTOP 8 8 0 toy_sink
    (Some (toy_target toy_code 4096 0 0 4098)) (toy_target toy_code 4096 0 0 4098) scoped_evs o g x toy_ok eq_refl).
  - split; [reflexivity|discriminate].
  - split; [apply target_okb_ok; vm_compute; reflexivity|]. apply honest_roundsb_ok. vm_compute. reflexivity.
  - exact E.
  - exact H3.
  - exact (conj H4 H5).
  - exact Eg.
  - exact Hx.
Defined.

(** ** What the barrier misses *)
(** The barrier compares only the alias that was written, but the def-use
    builder lets a 32-bit write define its whole container.  A frame that writes
    EAX = 5, glue that sets RAX to 2{^32} + 5, and a frame that reads RAX give an
    unflagged trace with no barrier step and one edge, from the write of 5 to the
    read of 2{^32} + 5. *)
Theorem gap_misses_upper_half :
  let v := toy_result [3; 4] (5, 0) (2 ^ 32 + 5, 0) in
  honest_run window_config toy 4096 2 36864 0 (abs_space toy_sink) None [] info0 (toy_target [3; 4] 4096 0 0 36864) []
    (toy_evs [3; 4] (5, 0) (2 ^ 32 + 5, 0)) ∧
  vtruncated v = false ∧ offs v = [4096; 4097] ∧ (λ r, (reg r, is_write r, value r)) <$> vrecs v =
    [(X86_REG_EAX, true, 5); (X86_REG_RAX, false, 2 ^ 32 + 5)] ∧
  (λ x, (from_step x, to_step x)) <$> edges_of v = [(0, 1)].
Proof.
  cbv zeta. split; [apply honest_runb_ok; vm_compute; reflexivity|]. repeat split; vm_compute; reflexivity.
Qed.

(** And it records the whole of a container when a part of it changed.  Glue
    that changes only AH after a write of RAX makes the later read of AL depend on
    the glue, although AL kept the value of the write: the true edge is lost, which
    the alias comparison is there to prevent. *)
Theorem gap_hides_true_edge :
  let v := toy_result [5; 6] (257, 0) (513, 0) in
  honest_run window_config toy 4096 2 36864 0 (abs_space toy_sink) None [] info0 (toy_target [5; 6] 4096 0 0 36864) []
    (toy_evs [5; 6] (257, 0) (513, 0)) ∧
  vtruncated v = false ∧ offs v = [4096; 20480; 4097] ∧ byte_of 257 0 = byte_of 513 0 ∧
  (λ x, (from_step x, to_step x)) <$> edges_of v = [(1, 2)].
Proof.
  cbv zeta. split; [apply honest_runb_ok; vm_compute; reflexivity|]. repeat split; vm_compute; reflexivity.
Qed.

(** ** A signal inside a scoped capture *)
Section signal.
Context (grant : allocator) (cfg : config).
Context (operands : list Z → Z → Z * list at_val_rec * list at_val_rec).
Context (is_call : list Z → Z → option Z) (base_ip code_len max_insns backstop : Z).
Abbreviation round_of := (step_round grant cfg operands is_call base_ip code_len max_insns backstop).
Abbreviation rounds_of := (step_rounds grant cfg operands is_call base_ip code_len max_insns backstop).

(** Rounds that do not end the loop, and the events they leave. *)
Inductive rounds_to : sstate → list event → sstate → list event → Prop :=
| rounds_none st evs : rounds_to st evs st evs
| rounds_more st evs st1 evs1 st' evs' :
    round_of st evs = (Some (inr st1), evs1) → rounds_to st1 evs1 st' evs' → rounds_to st evs st' evs'.

(** Every round uses an event or the stop after a call-out. *)
Definition rounds_left (st : sstate) (evs : list event) : nat :=
  2 * length evs + match s_skip st with Some _ => 1 | None => 0 end.

Lemma run_to_wait_uses evs x evs' : run_to_wait evs = (Some x, evs') → (length evs' < length evs)%nat.
Proof.
  revert x evs'. induction evs as [|e evs IH]; intros x evs' E; simpl in E; [done|].
  destruct e; simplify_eq; simpl; try lia; apply IH in E; lia.
Qed.

Lemma run_to_uses t bp evs x evs' : dfp_run_to t bp evs = (Some (Some x), evs') → (length evs' < length evs)%nat.
Proof.
  unfold dfp_run_to. intros E. destruct (mem_bytes _ _ _); [|done]. destruct evs as [|[] evs]; try done.
  destruct ok; [|done]. destruct (run_to_wait evs) as [[[|[t' pubs]]|] evs1] eqn:Ew; try done.
  apply run_to_wait_uses in Ew. destruct evs1 as [|[] evs1]; try done. destruct ok; [|done].
  destruct (t_regs t'); [|done]. case_match; [|done]. destruct evs1 as [|[] evs1]; try done. destruct ok; [|done].
  simplify_eq. simpl in *. lia.
Qed.

Lemma stop_uses st t evs st1 evs1 :
  step_stop grant cfg operands is_call base_ip code_len max_insns backstop st t evs = (Some (inr st1), evs1) →
  (rounds_left st1 evs1 <= 2 * length evs)%nat.
Proof.
  unfold step_stop, rounds_left. intros E. destruct (t_regs t) as [regs|]; [|done].
  destruct ((base_ip <=? _) && _).
  { destruct (negb _ && _); simplify_eq. simpl. lia. }
  destruct (s_entered st); [|simplify_eq; simpl; lia]. destruct (dfp_is_callout _ _ _ _ _ _ _); [|done].
  destruct (backstop <? _); [done|]. destruct (dfp_run_to _ _ _) as [[[[t' pubs]|]|] evs'] eqn:Er; try done.
  apply run_to_uses in Er. destruct (callout_gap _ _ _ _ _); simplify_eq. simpl. lia.
Qed.

Lemma round_uses st evs st1 evs1 : round_of st evs = (Some (inr st1), evs1) → (rounds_left st1 evs1 < rounds_left st evs)%nat.
Proof.
  intros E. unfold rounds_left at 2. unfold step_round in E. destruct (s_skip st) as [t|] eqn:Es.
  - assert (evs1 = evs1 ∧ (rounds_left st1 evs1 <= 2 * length evs)%nat) as [_ ?]; [split; [done|]|lia].
    destruct evs as [|[] evs]; try done; by apply stop_uses in E.
  - destruct evs as [|[] evs]; try done; simplify_eq; unfold rounds_left; rewrite ?Es; simpl; try lia.
    + destruct (fatal_signal sig); simplify_eq. rewrite Es. lia.
    + destruct (dfp_sigtrap_is_app si); [done|]. destruct (backstop <? _); [done|]. apply stop_uses in E. unfold rounds_left in E. lia.
Qed.

Lemma rounds_run st evs st' evs' fuel : rounds_to st evs st' evs' → (rounds_left st evs < fuel)%nat →
  ∃ fuel', (rounds_left st' evs' < fuel')%nat ∧ rounds_of fuel st evs = rounds_of fuel' st' evs'.
Proof.
  intros H. revert fuel. induction H as [st evs|st evs st1 evs1 st' evs' E _ IH]; intros fuel Hf; [by exists fuel|].
  destruct fuel as [|fuel]; [lia|]. pose proof (round_uses _ _ _ _ E). destruct (IH fuel) as (f' & Hf' & Er); [lia|].
  exists f'. split; [done|]. cbn [step_rounds]. by rewrite E.
Qed.

(** C40: a signal passes for the return.  Take any scoped capture (any target code,
    decoder, allocator and limits) that has come to a stop inside the region, and let
    a signal arrive there that is none of the four fatal ones.  If the next trap is at
    a handler outside the region, is no breakpoint of the target's own, comes before
    the backstop and does not look like a call-out (the word at the top of the stack
    is not the address after a call recorded last), the loop takes it for the region's
    return, whatever the target goes on to do: it reports success, gives RAX at the
    handler's entry as the region's result and leaves the target stopped there, with
    the trace as it was plus the step of the interrupted instruction, closed with the
    handler's registers.  Nothing in the outcome, the flags of the trace included,
    differs from that of a real return at this stop. *)
Theorem signal_passes_for_return v entry evs st sig si t pubs regs rest
    (Hcome : rounds_to (mk_sstate (ctx_of v) false 0 0 (if pre_positioned cfg then entry else None)) evs
               st (EvStop sig :: EvTrap si t pubs :: rest))
    (Hin : s_entered st = true ∧ s_skip st = None)
    (Hsig : fatal_signal sig = false) (Happ : dfp_sigtrap_is_app si = false)
    (Hstop : s_total st + 1 <= backstop)
    (Hregs : t_regs t = Some regs) (Hout : rip regs < base_ip ∨ base_ip +64 code_len <= rip regs)
    (Hcall : dfp_is_callout cfg is_call base_ip code_len (cur_off (s_ctx st)) t regs = None) :
  ∃ o, dfp_step_loop grant cfg operands is_call base_ip code_len max_insns backstop v entry evs = Some o ∧
    o_rc o = DF_PTRACE_OK ∧ o_result o = Some (rax regs) ∧ o_left o = true ∧ o_killed o = false ∧
    o_ctx o = finalize_open cfg (s_ctx st) t regs ∧ round_of st (EvTrap si t pubs :: rest) = (Some (inl o), rest).
Proof.
  destruct Hin as [Hent Hskip].
  assert (round_of st (EvTrap si t pubs :: rest) =
    (Some (inl (mk_outcome DF_PTRACE_OK (finalize_open cfg (s_ctx st) t regs) (Some (rax regs)) true false)), rest)) as Er.
  { unfold step_round. rewrite Hskip, Happ. destruct (Z.ltb_spec backstop (s_total st + 1)); [lia|].
    unfold step_stop. cbn [s_ctx s_entered s_total]. rewrite Hregs, Hent, Hcall.
    destruct (Z.leb_spec base_ip (rip regs)), (Z.ltb_spec (rip regs) (base_ip +64 code_len)); try done; lia. }
  exists (mk_outcome DF_PTRACE_OK (finalize_open cfg (s_ctx st) t regs) (Some (rax regs)) true false).
  split; [|do 5 (split; [done|]); exact Er].
  destruct (rounds_run _ _ _ _ (2 * length evs + 2) Hcome) as (f & Hf & E).
  { unfold rounds_left. simpl. repeat case_match; lia. }
  unfold dfp_step_loop. rewrite E. unfold rounds_left in Hf. simpl in Hf. destruct f as [|[|f]]; [lia..|].
  cbn [step_rounds]. unfold step_round at 1. rewrite Hskip, Hsig. by rewrite Er.
Qed.
End signal.

(** A region of three instructions: the signal arrives at the first, the handler
    returns and the region goes on. *)
Definition signal_evs : list event :=
  [EvStop 14; EvTrap None (toy_target [1; 2; 2] 20480 77 0 4098) []; EvTrap None (toy_target [1; 2; 2] 4097 0 7 4098) []].
Lemma signal_passes_for_return_witness :
  ∃ o, dfp_step_loop always (scoped_config [1; 2; 2]) toy toy_call 4096 3 0 DFP_STEP_BACKSTOP (abs_space toy_sink)
         (Some (toy_target [1; 2; 2] 4096 0 0 4098)) signal_evs = Some o ∧
       o_rc o = DF_PTRACE_OK ∧ o_result o = Some 77 ∧ vtruncated (vt (o_ctx o)) = false ∧ offs (vt (o_ctx o)) = [0].
Proof.
  edestruct (signal_passes_for_return always (scoped_config [1; 2; 2]) toy toy_call 4096 3 0 DFP_STEP_BACKSTOP
    (abs_space toy_sink) (Some (toy_target [1; 2; 2] 4096 0 0 4098)) signal_evs) as (o & E & H1 & H2 & _ & _ & H3 & _).
  - eapply rounds_more; [vm_compute; reflexivity|apply rounds_none].
  - split; reflexivity.
  - reflexivity.
  - reflexivity.
  - vm_compute. discriminate.
  - vm_compute. reflexivity.
  - right. vm_compute. discriminate.
  - vm_compute. reflexivity.
  - exists o. split; [exact E|]. split; [exact H1|]. split; [rewrite H2; reflexivity|].
    rewrite H3. split; vm_compute; reflexivity.
Defined.
End DfSound.
