(* ===== verification/Operands.v ===== *)
(** The operand enumerator ([src/dataflow_operands.c]): the read set and the write
    set of one instruction, from what Capstone says about it.  Capstone is not in
    the repository: what the file asks it is the class [Capstone], its decoded
    instruction the record of the fields the file reads. *)
From stdpp Require Import strings.
From S2P Require Import Prelude Bytes Grow RegSlice ValTrace LwMap DefUse AddrChan DfTarget DfStep DfWindow DfMeas DfSound.

Module Operands.
Import RegSlice ValTrace.

(** ** Capstone *)
Inductive cs_arch := CS_ARCH_X86 | CS_ARCH_ARM64 | CS_ARCH_ARM | CS_ARCH_RISCV.
#[export] Instance cs_arch_eq_dec : EqDecision cs_arch.
Proof. solve_decision. Defined.
Inductive cs_mode := CS_MODE_64 | CS_MODE_LITTLE_ENDIAN | CS_MODE_ARM | CS_MODE_RISCV64 | CS_MODE_RISCVC.
Inductive cs_op_type := OP_REG | OP_IMM | OP_MEM | OP_OTHER.

(** An operand: its register, or the terms of its memory reference, its size and
    the direction bits. *)
Record cs_op := mk_op {
  op_type : cs_op_type; op_reg : Z;
  m_segment : Z; m_base : Z; m_index : Z; m_scale : Z; m_disp : Z;
  op_size : Z; access : Z;
}.
Record cs_insn := mk_insn { i_size : Z; mnemonic : string; detail : option (list cs_op) }.

Class Capstone := {
  have_capstone : bool;
  CS_API_MAJOR : Z;
  CS_SUPPORT_DIET : bool;
  CS_AC_READ : Z; CS_AC_WRITE : Z;
  REG_INVALID : cs_arch → Z;
  (** Handle, bytes and their address to the first instruction. *)
  cs_disasm : Z → list Z → Z → option cs_insn;
  (** The registers read and the registers written; [None] is an error. *)
  cs_regs_access : Z → cs_insn → option (list Z * list Z);
}.

(** [asmtest_arch_t] *)
Definition ASMTEST_ARCH_X86_64 : Z := 0.
Definition ASMTEST_ARCH_ARM64 : Z := 1.
Definition ASMTEST_ARCH_RISCV64 : Z := 2.
Definition ASMTEST_ARCH_ARM32 : Z := 3.

(** ** Buffers *)
(** A caller's buffer: whether it is there, its capacity and what it holds. *)
Record outbuf := mk_out { b_there : bool; b_cap : nat; b_recs : list at_val_rec }.

Definition put (b : outbuf) (r : at_val_rec) : outbuf :=
  if negb (b_there b) || (b_cap b <=? length (b_recs b))%nat then b
  else mk_out (b_there b) (b_cap b) (b_recs b ++ [r]).

Definition reg_operand (reg : Z) (w : bool) : at_val_rec := mk_rec AT_LOC_REG reg 0 0 0 0 0 0 w false false 0 0 0.
Definition put_reg (b : outbuf) (reg : Z) (w : bool) : outbuf := put b (reg_operand reg w).

Definition mem_operand (seg base index scale disp size : Z) (w : bool) : at_val_rec :=
  mk_rec AT_LOC_MEM_ABS seg base index scale disp 0 size w false false 0 0 0.
Definition put_mem (b : outbuf) (seg base index scale disp size : Z) (w : bool) : outbuf :=
  put b (mem_operand seg base index scale disp size w).

Section enumerate.
Context `{Capstone}.

Definition asmtest_operands_available : bool := have_capstone.

Definition cs_target (arch : Z) : option (cs_arch * list cs_mode) :=
  if arch =? ASMTEST_ARCH_X86_64 then Some (CS_ARCH_X86, [CS_MODE_64])
  else if arch =? ASMTEST_ARCH_ARM64 then Some (CS_ARCH_ARM64, [CS_MODE_LITTLE_ENDIAN])
  else if arch =? ASMTEST_ARCH_ARM32 then Some (CS_ARCH_ARM, [CS_MODE_ARM])
  else if arch =? ASMTEST_ARCH_RISCV64 then
    if 5 <=? CS_API_MAJOR then Some (CS_ARCH_RISCV, [CS_MODE_RISCV64; CS_MODE_RISCVC]) else None
  else None.

(** ** The handle cache *)
(** [g_handle] and [g_state]: 0 unopened, 1 ready, -1 failed. *)
Record cache := mk_cache { g_handle : list Z; g_state : list Z }.
Definition cache0 : cache := mk_cache (replicate 4 0) (replicate 4 0).

(** [cs_open] answers with a handle or fails, and may answer differently at each
    call: [open_] is its answer now.  The last component says whether it was
    called. *)
Definition get_handle (open_ : cs_arch → list cs_mode → option Z) (s : cache) (arch : Z) : Z * cache * bool :=
  if (arch <? 0) || (4 <=? arch) then (0, s, false)
  else
    let i := Z.to_nat arch in
    if nth i (g_state s) 0 =? 1 then (nth i (g_handle s) 0, s, false)
    else if nth i (g_state s) 0 =? -1 then (0, s, false)
    else
      let failed := mk_cache (g_handle s) (<[i := -1]> (g_state s)) in
      match cs_target arch with
      | None => (0, failed, false)
      | Some (a, m) =>
          match open_ a m with
          | None => (0, failed, true)
          | Some h => (h, mk_cache (<[i := h]> (g_handle s)) (<[i := 1]> (g_state s)), true)
          end
      end.

(** ** Operands *)
Definition x86_move_store_dest (mnem : string) (op_index : nat) : bool :=
  if negb (op_index =? 0)%nat then false
  else String.prefix "mov" mnem || String.prefix "vmov" mnem.

Definition reg_or_0 (a : cs_arch) (r : Z) : Z := if r =? REG_INVALID a then 0 else u32 r.
Definition bit (x m : Z) : bool := negb (Z.land x m =? 0).

(** The two directions of memory operand [i]. *)
Definition mem_dir (a : cs_arch) (diet : bool) (mnem : string) (i : nat) (op : cs_op) : bool * bool :=
  let w := negb diet && bit (access op) CS_AC_WRITE in
  let rd := diet || bit (access op) CS_AC_READ in
  if bool_decide (a = CS_ARCH_X86) && x86_move_store_dest mnem i then (false, true) else (rd, w).

(** The record of a memory operand; only x86 has a segment, a scale and a size. *)
Definition op_mem (a : cs_arch) (op : cs_op) (w : bool) : at_val_rec :=
  match a with
  | CS_ARCH_X86 => mem_operand (reg_or_0 a (m_segment op)) (reg_or_0 a (m_base op)) (reg_or_0 a (m_index op))
                     (m_scale op) (m_disp op) (op_size op) w
  | _ => mem_operand 0 (reg_or_0 a (m_base op)) (reg_or_0 a (m_index op)) 0 (m_disp op) 0 w
  end.

Fixpoint mem_ops_loop (a : cs_arch) (diet : bool) (mnem : string) (i : nat) (ops : list cs_op)
    (reads writes : outbuf) : outbuf * outbuf :=
  match ops with
  | [] => (reads, writes)
  | op :: ops =>
      match op_type op with
      | OP_MEM =>
          let '(rd, w) := mem_dir a diet mnem i op in
          mem_ops_loop a diet mnem (S i) ops
            (if rd then put reads (op_mem a op false) else reads)
            (if w then put writes (op_mem a op true) else writes)
      | _ => mem_ops_loop a diet mnem (S i) ops reads writes
      end
  end.
Definition add_mem_ops (a : cs_arch) (diet : bool) (mnem : string) (ops : list cs_op)
    (reads writes : outbuf) : outbuf * outbuf :=
  match a with
  | CS_ARCH_RISCV => (reads, writes)
  | _ => mem_ops_loop a diet mnem 0 ops reads writes
  end.

Definition riscv_is_store (mnem : string) : bool := bool_decide (mnem ∈ ["sb"; "sh"; "sw"; "sd"]%string).
Definition riscv_is_branch (mnem : string) : bool :=
  bool_decide (mnem ∈ ["beq"; "bne"; "blt"; "bge"; "bltu"; "bgeu"; "beqz"; "bnez"; "blez"; "bgez"; "bltz"; "bgtz"]%string).

(** A register read unless [seen] has it; [seen] has room for eight. *)
Definition riscv_read (seen : list Z) (reads : outbuf) (r : Z) : list Z * outbuf :=
  if bool_decide (r ∈ seen) then (seen, reads)
  else (if (length seen <? 8)%nat then seen ++ [r] else seen, put_reg reads r false).

Fixpoint riscv_loop (is_store is_branch : bool) (i : nat) (ops : list cs_op) (seen : list Z)
    (reads writes : outbuf) : outbuf * outbuf :=
  match ops with
  | [] => (reads, writes)
  | op :: ops =>
      let next := riscv_loop is_store is_branch (S i) ops in
      let is_dest := (i =? 0)%nat && negb is_store && negb is_branch in
      match op_type op with
      | OP_REG =>
          if is_dest then next seen reads (put_reg writes (u32 (op_reg op)) true)
          else let '(seen, reads) := riscv_read seen reads (u32 (op_reg op)) in next seen reads writes
      | OP_MEM =>
          let base := reg_or_0 CS_ARCH_RISCV (m_base op) in
          let '(seen, reads) := if m_base op =? REG_INVALID CS_ARCH_RISCV then (seen, reads)
                                else riscv_read seen reads base in
          if is_store then next seen reads (put_mem writes 0 base 0 0 (m_disp op) 0 true)
          else next seen (put_mem reads 0 base 0 0 (m_disp op) 0 false) writes
      | _ => next seen reads writes
      end
  end.
Definition add_riscv_ops (ops : list cs_op) (mnem : string) (reads writes : outbuf) : outbuf * outbuf :=
  riscv_loop (riscv_is_store mnem) (riscv_is_branch mnem) 0 ops [] reads writes.

(** ** The entry point *)
(** The caller's buffers, emptied: a missing count is a capacity of 0. *)
Definition out_of (buf : bool) (n : option nat) : outbuf := mk_out buf (default 0%nat n) [].

(** The operands of a decoded instruction. *)
Definition insn_operands (h : Z) (a : cs_arch) (insn : cs_insn) (reads writes : outbuf) : outbuf * outbuf :=
  match detail insn with
  | None => (reads, writes)
  | Some d =>
      if (5 <=? CS_API_MAJOR) && bool_decide (a = CS_ARCH_RISCV) then add_riscv_ops d (mnemonic insn) reads writes
      else
        let '(reads, writes) :=
          match cs_regs_access h insn with
          | Some (rr, rw) => (foldl (λ b r, put_reg b r false) reads rr, foldl (λ b r, put_reg b r true) writes rw)
          | None => (reads, writes)
          end in
        add_mem_ops a CS_SUPPORT_DIET (mnemonic insn) d reads writes
  end.

Record answer := mk_answer { ans_len : Z; ans_reads : list at_val_rec; ans_writes : list at_val_rec }.
Definition no_answer : answer := mk_answer 0 [] [].

(** The answer, the cache and whether [cs_open] was called. *)
Definition asmtest_operands (open_ : cs_arch → list cs_mode → option Z) (s : cache) (arch : Z)
    (code : option (list Z)) (off : Z) (reads : bool) (nreads : option nat) (writes : bool) (nwrites : option nat) :
    answer * cache * bool :=
  if negb have_capstone then (no_answer, s, false)
  else match code with
  | None => (no_answer, s, false)
  | Some code =>
      if Z.of_nat (length code) <=? off then (no_answer, s, false)
      else
        let '(h, s, opened) := get_handle open_ s arch in
        if h =? 0 then (no_answer, s, opened)
        else match cs_target arch with
             | None => (no_answer, s, opened)
             | Some (a, _) =>
                 match cs_disasm h (drop (Z.to_nat off) code) off with
                 | None => (no_answer, s, opened)
                 | Some insn =>
                     let '(r, w) := insn_operands h a insn (out_of reads nreads) (out_of writes nwrites) in
                     (mk_answer (i_size insn) (b_recs r) (b_recs w), s, opened)
                 end
             end
  end.

(** ** What the buffers hold *)
Lemma put_recs l b :
  b_recs (foldl put b l) = (if b_there b then b_recs b ++ take (b_cap b - length (b_recs b)) l else b_recs b).
Proof.
  revert b. induction l as [|r l IH]; intros b; simpl.
  { rewrite take_nil, app_nil_r. by destruct (b_there b). }
  rewrite IH. unfold put. destruct (b_there b) eqn:E; simpl; [|by rewrite E].
  destruct (Nat.leb_spec (b_cap b) (length (b_recs b))); simpl; rewrite ?E.
  - by replace (b_cap b - length (b_recs b))%nat with 0%nat by lia.
  - replace (b_cap b - length (b_recs b))%nat with (S (b_cap b - (length (b_recs b) + 1))) by lia.
    rewrite length_app. simpl. by rewrite <-app_assoc.
Qed.

Lemma put_out n l : b_recs (foldl put (out_of true (Some n)) l) = take n l.
Proof. rewrite put_recs. simpl. by rewrite Nat.sub_0_r. Qed.

Lemma foldl_put_reg b l w : foldl (λ b r, put_reg b r w) b l = foldl put b ((λ r, reg_operand r w) <$> l).
Proof. revert b. induction l as [|r l IH]; intros b; [done|]. apply IH. Qed.

(** The records of all operands, the first of which has index [i]. *)
Definition all_ops (f : nat → cs_op → list at_val_rec) (i : nat) (ops : list cs_op) : list at_val_rec :=
  concat (imap (λ j, f (i + j)%nat) ops).

Lemma all_ops_cons f i op ops : all_ops f i (op :: ops) = f i op ++ all_ops f (S i) ops.
Proof.
  unfold all_ops. simpl. rewrite Nat.add_0_r. f_equal. f_equal. apply imap_ext. intros j x _. simpl.
  by rewrite Nat.add_succ_r.
Qed.

(** The memory operand [i], if it goes in the direction [w]. *)
Definition mem_one (a : cs_arch) (mnem : string) (w : bool) (i : nat) (op : cs_op) : list at_val_rec :=
  match op_type op with
  | OP_MEM => let d := mem_dir a CS_SUPPORT_DIET mnem i op in
              if (if w then d.2 else d.1) then [op_mem a op w] else []
  | _ => []
  end.
Lemma mem_ops_loop_spec a mnem ops i reads writes :
  mem_ops_loop a CS_SUPPORT_DIET mnem i ops reads writes =
  (foldl put reads (all_ops (mem_one a mnem false) i ops), foldl put writes (all_ops (mem_one a mnem true) i ops)).
Proof.
  revert i reads writes. induction ops as [|op ops IH]; intros i reads writes; [done|].
  cbn [mem_ops_loop]. rewrite !all_ops_cons, !foldl_app. unfold mem_one.
  destruct (op_type op); [apply IH..| |apply IH].
  destruct (mem_dir a CS_SUPPORT_DIET mnem i op) as [rd w]. rewrite IH. by destruct rd, w.
Qed.

(** The sets of an instruction of an architecture with register sets. *)
Definition reads_of (h : Z) (a : cs_arch) (insn : cs_insn) (ops : list cs_op) : list at_val_rec :=
  match cs_regs_access h insn with Some (rr, _) => (λ r, reg_operand r false) <$> rr | None => [] end
  ++ all_ops (mem_one a (mnemonic insn) false) 0 ops.
Definition writes_of (h : Z) (a : cs_arch) (insn : cs_insn) (ops : list cs_op) : list at_val_rec :=
  match cs_regs_access h insn with Some (_, rw) => (λ r, reg_operand r true) <$> rw | None => [] end
  ++ all_ops (mem_one a (mnemonic insn) true) 0 ops.

Lemma insn_operands_spec h a insn ops reads writes :
  detail insn = Some ops → a ≠ CS_ARCH_RISCV →
  insn_operands h a insn reads writes = (foldl put reads (reads_of h a insn ops), foldl put writes (writes_of h a insn ops)).
Proof.
  intros E Ha. unfold insn_operands, reads_of, writes_of. rewrite E, bool_decide_false, andb_false_r by done.
  assert (∀ d m x r w, add_mem_ops a d m x r w = mem_ops_loop a d m 0 x r w) as L by by destruct a.
  rewrite !foldl_app. destruct (cs_regs_access h insn) as [[rr rw]|]; rewrite L, mem_ops_loop_spec; [|done].
  by rewrite !foldl_put_reg.
Qed.

(** *** RISC-V *)
(** What an operand reads and writes, in order and with repetitions. *)
Definition rv_dest (is_store is_branch : bool) (i : nat) : bool := (i =? 0)%nat && negb is_store && negb is_branch.
Definition rv_reads1 (is_store is_branch : bool) (i : nat) (op : cs_op) : list at_val_rec :=
  match op_type op with
  | OP_REG => if rv_dest is_store is_branch i then [] else [reg_operand (u32 (op_reg op)) false]
  | OP_MEM => (if m_base op =? REG_INVALID CS_ARCH_RISCV then [] else [reg_operand (u32 (m_base op)) false])
              ++ (if is_store then [] else [mem_operand 0 (reg_or_0 CS_ARCH_RISCV (m_base op)) 0 0 (m_disp op) 0 false])
  | _ => []
  end.
Definition rv_writes1 (is_store is_branch : bool) (i : nat) (op : cs_op) : list at_val_rec :=
  match op_type op with
  | OP_REG => if rv_dest is_store is_branch i then [reg_operand (u32 (op_reg op)) true] else []
  | OP_MEM => if is_store then [mem_operand 0 (reg_or_0 CS_ARCH_RISCV (m_base op)) 0 0 (m_disp op) 0 true] else []
  | _ => []
  end.
(** Register records that are already there are not repeated. *)
Definition keep (acc : list at_val_rec) (r : at_val_rec) : list at_val_rec :=
  if bool_decide (kind r = AT_LOC_REG ∧ r ∈ acc) then acc else acc ++ [r].
Definition keep_first (l : list at_val_rec) : list at_val_rec := foldl keep [] l.

(** The loop over the rest of the operands, after [acc] was put. *)
Lemma riscv_read_spec reads0 acc seen r n :
  (∀ x, x ∈ seen ↔ reg_operand x false ∈ acc) → (length seen + S n <= 8)%nat →
  ∃ seen', riscv_read seen (foldl put reads0 acc) r = (seen', foldl put reads0 (keep acc (reg_operand r false))) ∧
    (∀ x, x ∈ seen' ↔ reg_operand x false ∈ keep acc (reg_operand r false)) ∧ (length seen' + n <= 8)%nat.
Proof.
  intros Hs Hn. unfold riscv_read, keep. destruct (decide (r ∈ seen)) as [Hr|Hr].
  - rewrite !bool_decide_true by (try split; [done|..]; by apply Hs). exists seen. split; [done|]. split; [done|lia].
  - rewrite !bool_decide_false by (rewrite <-?Hs; naive_solver).
    rewrite (proj2 (Nat.ltb_lt _ _)) by lia. exists (seen ++ [r]). split; [by rewrite foldl_snoc|].
    split; [|rewrite length_app; simpl; lia].
    intros x. rewrite !elem_of_app, Hs, !list_elem_of_singleton. naive_solver congruence.
Qed.

Lemma keep_mem acc r : kind r ≠ AT_LOC_REG → keep acc r = acc ++ [r].
Proof. intros Hr. unfold keep. by rewrite bool_decide_false by naive_solver. Qed.

Lemma riscv_loop_spec is_store is_branch ops i seen acc reads0 writes :
  (∀ x, x ∈ seen ↔ reg_operand x false ∈ acc) → (length seen + length ops <= 8)%nat →
  riscv_loop is_store is_branch i ops seen (foldl put reads0 acc) writes =
  (foldl put reads0 (foldl keep acc (all_ops (rv_reads1 is_store is_branch) i ops)),
   foldl put writes (all_ops (rv_writes1 is_store is_branch) i ops)).
Proof.
  revert i seen acc writes. induction ops as [|op ops IH]; intros i seen acc writes Hs Hn; [done|].
  cbn [riscv_loop]. rewrite !all_ops_cons, !foldl_app. simpl in Hn.
  unfold rv_reads1 at 1, rv_writes1 at 1, rv_dest. destruct (op_type op); [|apply IH; [done|lia]| |apply IH; [done|lia]].
  - destruct ((i =? 0)%nat && negb is_store && negb is_branch).
    + rewrite (IH _ _ acc) by (done || lia). done.
    + destruct (riscv_read_spec reads0 acc seen (u32 (op_reg op)) (length ops) Hs ltac:(lia)) as (seen' & -> & Hs' & Hn').
      rewrite (IH _ _ (keep acc _)) by done. done.
  - assert (∃ seen' acc', (if m_base op =? REG_INVALID CS_ARCH_RISCV then (seen, foldl put reads0 acc)
                           else riscv_read seen (foldl put reads0 acc) (reg_or_0 CS_ARCH_RISCV (m_base op))) =
                          (seen', foldl put reads0 acc') ∧
      acc' = foldl keep acc (if m_base op =? REG_INVALID CS_ARCH_RISCV then [] else [reg_operand (u32 (m_base op)) false]) ∧
      (∀ x, x ∈ seen' ↔ reg_operand x false ∈ acc') ∧ (length seen' + length ops <= 8)%nat) as (seen' & acc' & -> & Ea & Hs' & Hn').
    { unfold reg_or_0. destruct (m_base op =? _); [exists seen, acc; split; [done|]; split; [done|]; split; [done|lia]|].
      destruct (riscv_read_spec reads0 acc seen (u32 (m_base op)) (length ops) Hs ltac:(lia)) as (seen' & -> & Hs' & Hn').
      by exists seen', (keep acc (reg_operand (u32 (m_base op)) false)). }
    rewrite foldl_app, <-Ea. destruct is_store; simpl.
    + rewrite (IH _ _ acc') by done. done.
    + unfold put_mem. rewrite keep_mem by done. set (m := mem_operand 0 _ _ _ _ _ _).
      change (put (foldl put reads0 acc') m) with (foldl put (foldl put reads0 acc') [m]). rewrite <-foldl_app.
      rewrite (IH _ _ (acc' ++ [m])); [done| |done].
      intros x. rewrite Hs', elem_of_app, list_elem_of_singleton. naive_solver.
Qed.

(** *** The cache *)
(** The states of the cache, and what a ready entry says. *)
Definition cache_ok (s : cache) : Prop :=
  length (g_handle s) = 4%nat ∧ length (g_state s) = 4%nat ∧
  ∀ i, (i < 4)%nat → nth i (g_state s) 0 ∈ [0; 1; -1] ∧ (nth i (g_state s) 0 = 1 → is_Some (cs_target (Z.of_nat i))).
(** The entry of [arch] is decided. *)
Definition settled (s : cache) (arch : Z) : Prop :=
  arch < 0 ∨ 4 <= arch ∨ nth (Z.to_nat arch) (g_state s) 0 ≠ 0.
(** [s'] keeps the entries decided in [s]. *)
Definition keeps (s s' : cache) : Prop :=
  ∀ i, nth i (g_state s) 0 ≠ 0 → nth i (g_state s') 0 = nth i (g_state s) 0 ∧ nth i (g_handle s') 0 = nth i (g_handle s) 0.

#[export] Instance keeps_preorder : PreOrder keeps.
Proof.
  split; [intros s i ?; done|]. intros s1 s2 s3 H1 H2 i Hi. destruct (H1 i Hi) as [E1 E2].
  destruct (H2 i) as [E3 E4]; [by rewrite E1|]. by rewrite E3, E4.
Qed.

Lemma nth_insert_Z (l : list Z) i j x : (i < length l)%nat → nth j (<[i := x]> l) 0 = if decide (i = j) then x else nth j l 0.
Proof.
  intros Hi. rewrite !nth_lookup. case_decide; [subst; by rewrite list_lookup_insert_eq|by rewrite list_lookup_insert_ne].
Qed.

Lemma get_handle_known open_ s arch :
  0 <= arch < 4 → nth (Z.to_nat arch) (g_state s) 0 ∈ [1; -1] →
  get_handle open_ s arch =
  (if nth (Z.to_nat arch) (g_state s) 0 =? 1 then nth (Z.to_nat arch) (g_handle s) 0 else 0, s, false).
Proof.
  intros Hr Hs. unfold get_handle. rewrite (proj2 (Z.ltb_ge _ _)), (proj2 (Z.leb_gt _ _)) by lia. simpl.
  apply elem_of_cons in Hs as [->|Hs]; [done|]. apply list_elem_of_singleton in Hs as ->. done.
Qed.

Lemma cache_ok_settle s i st hs :
  cache_ok s → (i < 4)%nat → st ∈ [1; -1] → (st = 1 → is_Some (cs_target (Z.of_nat i))) →
  nth i (g_state s) 0 = 0 → length hs = 4%nat → (∀ j, j ≠ i → nth j hs 0 = nth j (g_handle s) 0) →
  let s' := mk_cache hs (<[i := st]> (g_state s)) in
  cache_ok s' ∧ keeps s s' ∧ nth i (g_state s') 0 = st.
Proof.
  intros (Lh & Ls & Hi) Hlt Hst Ht H0 Lhs Hhs s'. split; [|split].
  - split; [done|]. split; [simpl; by rewrite length_insert|]. intros j Hj. simpl.
    rewrite nth_insert_Z by lia. case_decide; [subst; split; [set_solver|done]|by apply Hi].
  - intros j Hj. simpl. rewrite nth_insert_Z by lia. case_decide; [by subst|]. split; [done|by apply Hhs].
  - simpl. by rewrite nth_insert_Z, decide_True by (done || lia).
Qed.

(** Deciding the entry of [arch] as [st] settles it for good. *)
Lemma settle_spec s arch st hs h (opened : bool) :
  cache_ok s → 0 <= arch < 4 → nth (Z.to_nat arch) (g_state s) 0 = 0 →
  h = (if st =? 1 then nth (Z.to_nat arch) hs 0 else 0) → st ∈ [1; -1] → (st = 1 → is_Some (cs_target arch)) →
  length hs = 4%nat → (∀ j, j ≠ Z.to_nat arch → nth j hs 0 = nth j (g_handle s) 0) →
  let s' := mk_cache hs (<[Z.to_nat arch := st]> (g_state s)) in
  cache_ok s' ∧ keeps s s' ∧ settled s' arch ∧ (opened = true → 0 <= arch < 4 ∧ ¬ settled s arch) ∧
  (h ≠ 0 → is_Some (cs_target arch)) ∧ ∀ open' s2, keeps s' s2 → get_handle open' s2 arch = (h, s2, false).
Proof.
  intros Hok Hr H0 -> Hs Hst Lhs Hhs s'. unfold settled.
  destruct (cache_ok_settle s (Z.to_nat arch) st hs) as (Hc & Hk & E); [done|lia|done|by rewrite Z2Nat.id by lia|done..|].
  fold s' in Hc, Hk, E. assert (st ≠ 0) by set_solver. split_and!; [done..|rewrite E; tauto|lia| |].
  - destruct (Z.eqb_spec st 1); [by intros _; apply Hst|done].
  - intros open' s2 Hk2. destruct (Hk2 (Z.to_nat arch)) as [E1 E2]; [by rewrite E|].
    by rewrite get_handle_known, E1, E2, E by (rewrite ?E1, ?E; done).
Qed.

(** A lookup settles its entry, keeps the others, calls [cs_open] only for an entry
    that was not decided, and gives the same handle ever after. *)
Lemma get_handle_spec open_ s arch :
  cache_ok s →
  let '(h, s', opened) := get_handle open_ s arch in
  cache_ok s' ∧ keeps s s' ∧ settled s' arch ∧ (opened = true → 0 <= arch < 4 ∧ ¬ settled s arch) ∧
  (h ≠ 0 → is_Some (cs_target arch)) ∧
  (∀ open' s2, keeps s' s2 → get_handle open' s2 arch = (h, s2, false)).
Proof.
  intros Hok.
  destruct (decide (0 <= arch < 4)) as [Hr|Hr]; cycle 1.
  { assert (∀ o s, get_handle o s arch = (0, s, false)) as E.
    { intros o s'. unfold get_handle. destruct (Z.ltb_spec arch 0); [done|]. by rewrite (proj2 (Z.leb_le _ _)) by lia. }
    rewrite E. split_and!; [done..|unfold settled; lia|done|done|]. intros ? s2 _. apply E. }
  pose proof Hok as (Lh & Ls & Hi). destruct (Hi (Z.to_nat arch)) as [Hst Ht]; [lia|]. rewrite Z2Nat.id in Ht by lia.
  destruct (decide (nth (Z.to_nat arch) (g_state s) 0 = 0)) as [H0|H0]; cycle 1.
  { assert (nth (Z.to_nat arch) (g_state s) 0 ∈ [1; -1]) as Hs by set_solver.
    rewrite get_handle_known by done. split_and!; [done..|by right; right|done| |].
    - destruct (Z.eqb_spec (nth (Z.to_nat arch) (g_state s) 0) 1); [by intros _; apply Ht|done].
    - intros open' s2 Hk. destruct (Hk _ H0) as [E1 E2]. by rewrite get_handle_known, E1, E2 by (rewrite ?E1; done). }
  set (failed := mk_cache (g_handle s) (<[Z.to_nat arch := -1]> (g_state s))).
  assert (get_handle open_ s arch = match cs_target arch with
    | None => (0, failed, false)
    | Some (a, m) => match open_ a m with
                     | None => (0, failed, true)
                     | Some h => (h, mk_cache (<[Z.to_nat arch := h]> (g_handle s)) (<[Z.to_nat arch := 1]> (g_state s)), true)
                     end
    end) as ->.
  { unfold get_handle. by rewrite (proj2 (Z.ltb_ge _ _)), (proj2 (Z.leb_gt _ _)), H0 by lia. }
  destruct (cs_target arch) as [[a m]|] eqn:Et; [destruct (open_ a m) as [h|]|]; rewrite <-Et.
  - apply settle_spec; [done..| |set_solver|by rewrite Et|by rewrite length_insert|].
    + by rewrite nth_insert_Z, decide_True by (done || lia).
    + intros j Hj. by rewrite nth_insert_Z, decide_False by (done || lia).
  - apply settle_spec; [done..|set_solver|done|done|done].
  - apply settle_spec; [done..|set_solver|done|done|done].
Qed.

Lemma cache0_ok : cache_ok cache0.
Proof.
  split; [done|]. split; [done|]. intros i Hi. do 4 (destruct i as [|i]; [split; [set_solver|done]|]). lia.
Qed.

(** A call of the enumerator. *)
Record call := mk_call {
  k_open : cs_arch → list cs_mode → option Z; k_arch : Z; k_code : option (list Z); k_off : Z;
  k_reads : bool; k_nreads : option nat; k_writes : bool; k_nwrites : option nat;
}.
Definition do_call (s : cache) (k : call) : answer * cache * bool :=
  asmtest_operands (k_open k) s (k_arch k) (k_code k) (k_off k) (k_reads k) (k_nreads k) (k_writes k) (k_nwrites k).
(** The cache after a sequence of calls and the architectures [cs_open] was called
    for. *)
Definition run_calls (s : cache) (ks : list call) : cache * list Z :=
  foldl (λ '(s, log) k, let '(_, s, opened) := do_call s k in (s, if opened then log ++ [k_arch k] else log)) (s, []) ks.

Lemma do_call_spec s k :
  cache_ok s →
  let '(a, s', opened) := do_call s k in
  cache_ok s' ∧ keeps s s' ∧ (opened = true → 0 <= k_arch k < 4 ∧ ¬ settled s (k_arch k) ∧ settled s' (k_arch k)) ∧
  (∀ open' s2, keeps s' s2 →
     do_call s2 (mk_call open' (k_arch k) (k_code k) (k_off k) (k_reads k) (k_nreads k) (k_writes k) (k_nwrites k)) = (a, s2, false)).
Proof.
  intros Hok. unfold do_call, asmtest_operands. simpl.
  destruct (negb have_capstone); [done|]. destruct (k_code k) as [code|]; [|done].
  destruct (_ <=? _); [done|]. pose proof (get_handle_spec (k_open k) s (k_arch k) Hok) as S.
  destruct (get_handle (k_open k) s (k_arch k)) as [[h s'] opened]. destruct S as (? & ? & ? & ? & ? & Hst).
  destruct (h =? 0) eqn:E0; [|destruct (cs_target _) as [[a m]|] eqn:Et;
    [destruct (cs_disasm _ _ _) as [insn|] eqn:Ed; [destruct (insn_operands _ _ _ _ _) as [r w] eqn:Eo|]|]].
  all: split_and!; [done|done|intros ->; naive_solver|].
  all: intros open' s2 Hk; rewrite Hst by done; rewrite E0, ?Et, ?Ed, ?Eo; done.
Qed.

Lemma run_calls_from s log ks :
  cache_ok s → NoDup log → (∀ a, a ∈ log → settled s a) →
  let '(s', log') := foldl (λ '(s, log) k, let '(_, s, opened) := do_call s k in
                              (s, if opened then log ++ [k_arch k] else log)) (s, log) ks in
  cache_ok s' ∧ keeps s s' ∧ NoDup log'.
Proof.
  revert s log. induction ks as [|k ks IH]; intros s log Hok Hnd Hset; [done|]. cbn [foldl].
  pose proof (do_call_spec s k Hok) as S. destruct (do_call s k) as [[a s1] opened]. destruct S as (Hok1 & Hk1 & Ho & _).
  specialize (IH s1 (if opened then log ++ [k_arch k] else log) Hok1).
  assert (∀ a, settled s a → settled s1 a) as Hmono.
  { intros x [?|[?|Hx]]; [by left|by right; left|]. right; right. by rewrite (proj1 (Hk1 _ Hx)). }
  assert (NoDup (if opened then log ++ [k_arch k] else log) ∧
          ∀ a, a ∈ (if opened then log ++ [k_arch k] else log) → settled s1 a) as [Hnd1 Hset1].
  { destruct opened; [|by split; [|auto]]. destruct (Ho eq_refl) as (_ & Hn & Hs1). split.
    - apply NoDup_app. split; [done|]. split; [|apply NoDup_singleton]. intros x Hx ->%list_elem_of_singleton. by apply Hn, Hset.
    - intros x [Hx| ->%list_elem_of_singleton]%elem_of_app; auto. }
  specialize (IH Hnd1 Hset1). destruct (foldl _ _ ks) as [s' log']. destruct IH as (? & ? & ?).
  split_and!; [done|by etrans|done].
Qed.

(** *** The contract of the entry point *)
(** The sets of an instruction: Capstone's register sets and the explicit memory
    operands, or the walk over the operands on RISC-V. *)
Definition read_set (h : Z) (a : cs_arch) (insn : cs_insn) (ops : list cs_op) : list at_val_rec :=
  match a with
  | CS_ARCH_RISCV => keep_first (all_ops (rv_reads1 (riscv_is_store (mnemonic insn)) (riscv_is_branch (mnemonic insn))) 0 ops)
  | _ => reads_of h a insn ops
  end.
Definition write_set (h : Z) (a : cs_arch) (insn : cs_insn) (ops : list cs_op) : list at_val_rec :=
  match a with
  | CS_ARCH_RISCV => all_ops (rv_writes1 (riscv_is_store (mnemonic insn)) (riscv_is_branch (mnemonic insn))) 0 ops
  | _ => writes_of h a insn ops
  end.

Lemma insn_operands_sets h arch a m insn ops reads writes :
  cs_target arch = Some (a, m) → detail insn = Some ops → (a = CS_ARCH_RISCV → (length ops <= 8)%nat) →
  insn_operands h a insn reads writes = (foldl put reads (read_set h a insn ops), foldl put writes (write_set h a insn ops)).
Proof.
  intros Et Ed H8. destruct (decide (a = CS_ARCH_RISCV)) as [->|Ha]; [|rewrite (insn_operands_spec _ _ _ ops) by done; by destruct a].
  unfold insn_operands. rewrite Ed.
  assert ((5 <=? CS_API_MAJOR) = true) as -> by (unfold cs_target in Et; repeat (case_match; try done)).
  rewrite bool_decide_true by done. simpl. unfold add_riscv_ops.
  rewrite (riscv_loop_spec _ _ ops 0 [] [] reads writes) by (set_solver || (simpl; auto)). done.
Qed.

Lemma keep_first_regs l : NoDup (filter (λ r, kind r = AT_LOC_REG) (keep_first l)).
Proof.
  unfold keep_first. assert (NoDup (filter (λ r, kind r = AT_LOC_REG) (@nil at_val_rec))) as H0 by constructor.
  revert H0. generalize (@nil at_val_rec). induction l as [|r l IH]; intros acc Hacc; [done|]. cbn [foldl]. apply IH.
  unfold keep. case_bool_decide as Hr; [done|]. rewrite filter_app, filter_cons, filter_nil.
  case_decide; [|by rewrite app_nil_r]. apply NoDup_app. split; [done|]. split; [|apply NoDup_singleton].
  intros x Hx ->%list_elem_of_singleton. apply Hr. by apply list_elem_of_filter in Hx as [? ?].
Qed.

(** *** What should be listed *)
(** A register record, and the record of a memory reference: its terms, with 0 for
    a register that is not there; the segment, the scale and the size are those of
    x86. *)
Definition register_record (r : Z) (w : bool) : at_val_rec := mk_rec AT_LOC_REG r 0 0 0 0 0 0 w false false 0 0 0.
Definition term (a : cs_arch) (r : Z) : Z := if decide (r = REG_INVALID a) then 0 else u32 r.
Definition reference_record (a : cs_arch) (op : cs_op) (w : bool) : at_val_rec :=
  if decide (a = CS_ARCH_X86)
  then mk_rec AT_LOC_MEM_ABS (term a (m_segment op)) (term a (m_base op)) (term a (m_index op)) (m_scale op) (m_disp op)
         0 (op_size op) w false false 0 0 0
  else mk_rec AT_LOC_MEM_ABS 0 (term a (m_base op)) (term a (m_index op)) 0 (m_disp op) 0 0 w false false 0 0 0.

(** The destination of an x86 move. *)
Definition is_move (mnem : string) : Prop := ∃ rest, mnem = String.append "mov" rest ∨ mnem = String.append "vmov" rest.
Definition move_dest (a : cs_arch) (mnem : string) (i : nat) : Prop := a = CS_ARCH_X86 ∧ i = 0%nat ∧ is_move mnem.

(** Whether memory operand [i] is read, and whether it is written: as Capstone
    says, or read only when it says nothing, but for the destination of a move. *)
Definition is_read (a : cs_arch) (mnem : string) (i : nat) (op : cs_op) : Prop :=
  ¬ move_dest a mnem i ∧ (CS_SUPPORT_DIET = true ∨ Z.land (access op) CS_AC_READ ≠ 0).
Definition is_written (a : cs_arch) (mnem : string) (i : nat) (op : cs_op) : Prop :=
  move_dest a mnem i ∨ (CS_SUPPORT_DIET = false ∧ Z.land (access op) CS_AC_WRITE ≠ 0).

(** [lists R i ops l]: the records of the operands, the first having index [i],
    where [R] relates an operand to its records. *)
Inductive lists (R : nat → cs_op → list at_val_rec → Prop) : nat → list cs_op → list at_val_rec → Prop :=
| lists_end i : lists R i [] []
| lists_op i op ops l l' : R i op l → lists R (S i) ops l' → lists R i (op :: ops) (l ++ l').

Inductive mem_records (a : cs_arch) (mnem : string) (w : bool) (i : nat) (op : cs_op) : list at_val_rec → Prop :=
| mem_listed : op_type op = OP_MEM → (if w then is_written a mnem i op else is_read a mnem i op) →
    mem_records a mnem w i op [reference_record a op w]
| mem_not_accessed : op_type op = OP_MEM → ¬ (if w then is_written a mnem i op else is_read a mnem i op) →
    mem_records a mnem w i op []
| mem_other : op_type op ≠ OP_MEM → mem_records a mnem w i op [].

(** RISC-V: the stores and the branches of the base set; what is neither writes
    its first operand. *)
Definition rv_stores : list string := ["sb"; "sh"; "sw"; "sd"].
Definition rv_branches : list string :=
  ["beq"; "bne"; "blt"; "bge"; "bltu"; "bgeu"; "beqz"; "bnez"; "blez"; "bgez"; "bltz"; "bgtz"].
Definition rv_writes_first (mnem : string) (i : nat) : Prop := i = 0%nat ∧ (mnem ∉ rv_stores) ∧ (mnem ∉ rv_branches).

Inductive rv_read_records (mnem : string) (i : nat) (op : cs_op) : list at_val_rec → Prop :=
| rv_read_reg : op_type op = OP_REG → ¬ rv_writes_first mnem i →
    rv_read_records mnem i op [register_record (u32 (op_reg op)) false]
| rv_read_dest : op_type op = OP_REG → rv_writes_first mnem i → rv_read_records mnem i op []
| rv_read_mem base this :
    op_type op = OP_MEM →
    base = (if decide (m_base op = REG_INVALID CS_ARCH_RISCV) then [] else [register_record (u32 (m_base op)) false]) →
    this = (if decide (mnem ∈ rv_stores) then []
            else [mk_rec AT_LOC_MEM_ABS 0 (term CS_ARCH_RISCV (m_base op)) 0 0 (m_disp op) 0 0 false false false 0 0 0]) →
    rv_read_records mnem i op (base ++ this)
| rv_read_other : op_type op ≠ OP_REG → op_type op ≠ OP_MEM → rv_read_records mnem i op [].
Inductive rv_write_records (mnem : string) (i : nat) (op : cs_op) : list at_val_rec → Prop :=
| rv_write_dest : op_type op = OP_REG → rv_writes_first mnem i →
    rv_write_records mnem i op [register_record (u32 (op_reg op)) true]
| rv_write_mem : op_type op = OP_MEM → mnem ∈ rv_stores →
    rv_write_records mnem i op [mk_rec AT_LOC_MEM_ABS 0 (term CS_ARCH_RISCV (m_base op)) 0 0 (m_disp op) 0 0 true false false 0 0 0]
| rv_write_none : (op_type op = OP_REG → ¬ rv_writes_first mnem i) → (op_type op = OP_MEM → mnem ∉ rv_stores) →
    rv_write_records mnem i op [].

(** The same list without the register records that were there before. *)
Inductive without_repeats : list at_val_rec → list at_val_rec → Prop :=
| wr_nil : without_repeats [] []
| wr_new l l' r : without_repeats l l' → (kind r = AT_LOC_REG → r ∉ l') → without_repeats (l ++ [r]) (l' ++ [r])
| wr_old l l' r : without_repeats l l' → kind r = AT_LOC_REG → r ∈ l' → without_repeats (l ++ [r]) l'.

(** All that an instruction reads, and all that it writes. *)
Definition all_reads (h : Z) (a : cs_arch) (insn : cs_insn) (ops : list cs_op) (l : list at_val_rec) : Prop :=
  if decide (a = CS_ARCH_RISCV) then ∃ l', lists (rv_read_records (mnemonic insn)) 0 ops l' ∧ without_repeats l' l
  else ∃ l', lists (mem_records a (mnemonic insn) false) 0 ops l' ∧
       l = ((λ r, register_record r false) <$> from_option fst [] (cs_regs_access h insn)) ++ l'.
Definition all_writes (h : Z) (a : cs_arch) (insn : cs_insn) (ops : list cs_op) (l : list at_val_rec) : Prop :=
  if decide (a = CS_ARCH_RISCV) then lists (rv_write_records (mnemonic insn)) 0 ops l
  else ∃ l', lists (mem_records a (mnemonic insn) true) 0 ops l' ∧
       l = ((λ r, register_record r true) <$> from_option snd [] (cs_regs_access h insn)) ++ l'.

Lemma lists_all_ops R f i ops : (∀ j op, R j op (f j op)) → lists R i ops (all_ops f i ops).
Proof.
  intros Hf. revert i. induction ops as [|op ops IH]; intros i; [constructor|]. rewrite all_ops_cons. by constructor.
Qed.

Lemma is_move_prefix mnem : is_move mnem ↔ String.prefix "mov" mnem || String.prefix "vmov" mnem = true.
Proof.
  rewrite orb_true_iff. unfold is_move. split.
  - intros [rest [->| ->]]; [left|right]; simpl; by destruct rest.
  - intros [Hp|Hp]; revert Hp; repeat (destruct mnem as [|? mnem]; simpl; [done|]; case_match; [subst|done]); intros _;
      exists mnem; [by left|by right].
Qed.
Lemma move_dest_spec a mnem i : move_dest a mnem i ↔ bool_decide (a = CS_ARCH_X86) && x86_move_store_dest mnem i = true.
Proof.
  unfold move_dest, x86_move_store_dest. rewrite andb_true_iff, bool_decide_eq_true, is_move_prefix.
  destruct (Nat.eqb_spec i 0); simpl; intuition congruence.
Qed.
Lemma bit_spec x m : bit x m = true ↔ Z.land x m ≠ 0.
Proof. unfold bit. rewrite negb_true_iff. apply Z.eqb_neq. Qed.
Lemma mem_dir_spec a mnem i op :
  ((mem_dir a CS_SUPPORT_DIET mnem i op).1 = true ↔ is_read a mnem i op) ∧
  ((mem_dir a CS_SUPPORT_DIET mnem i op).2 = true ↔ is_written a mnem i op).
Proof.
  pose proof (move_dest_spec a mnem i) as Hm. unfold mem_dir, is_read, is_written. rewrite <-!bit_spec.
  destruct (_ && x86_move_store_dest _ _); simpl.
  - split; [split; [done|tauto]|tauto].
  - rewrite orb_true_iff, andb_true_iff, negb_true_iff. intuition congruence.
Qed.

Lemma op_mem_reference a op w : op_mem a op w = reference_record a op w.
Proof.
  assert (∀ r, reg_or_0 a r = term a r) as Ht
    by (intros r; unfold reg_or_0, term; case_decide as E; [by rewrite E, Z.eqb_refl|by rewrite (proj2 (Z.eqb_neq _ _))]).
  unfold op_mem, reference_record. rewrite !Ht. by destruct a.
Qed.

Lemma mem_one_records a mnem w i op : mem_records a mnem w i op (mem_one a mnem w i op).
Proof.
  unfold mem_one. destruct (op_type op) eqn:Et; try (constructor; congruence).
  destruct (mem_dir_spec a mnem i op) as [Hr Hw]. rewrite op_mem_reference.
  destruct (if w then _ else _) eqn:E; constructor; try done; destruct w; rewrite <-?Hr, <-?Hw; congruence.
Qed.

Lemma rv_dest_spec mnem i : rv_dest (riscv_is_store mnem) (riscv_is_branch mnem) i = true ↔ rv_writes_first mnem i.
Proof.
  unfold rv_dest, rv_writes_first, riscv_is_store, riscv_is_branch.
  rewrite !andb_true_iff, !negb_true_iff, !bool_decide_eq_false, Nat.eqb_eq. unfold rv_stores, rv_branches. tauto.
Qed.
Lemma riscv_store_spec mnem : riscv_is_store mnem = true ↔ mnem ∈ rv_stores.
Proof. apply bool_decide_eq_true. Qed.

Lemma rv_reads1_records mnem i op :
  rv_read_records mnem i op (rv_reads1 (riscv_is_store mnem) (riscv_is_branch mnem) i op).
Proof.
  pose proof (rv_dest_spec mnem i) as Hd. pose proof (riscv_store_spec mnem) as Hs. unfold rv_reads1.
  destruct (op_type op) eqn:Et; try (apply rv_read_other; congruence).
  - destruct (rv_dest _ _ _); [apply rv_read_dest; [done|tauto]|apply rv_read_reg; [done|intuition congruence]].
  - apply rv_read_mem; [done|..].
    + case_decide as E; [by rewrite E, Z.eqb_refl|by rewrite (proj2 (Z.eqb_neq _ _))].
    + unfold reg_or_0, term. case_decide as Em.
      * by rewrite (proj2 Hs).
      * destruct (riscv_is_store mnem); [tauto|]. case_decide as E; [by rewrite E, Z.eqb_refl|by rewrite (proj2 (Z.eqb_neq _ _))].
Qed.
Lemma rv_writes1_records mnem i op :
  rv_write_records mnem i op (rv_writes1 (riscv_is_store mnem) (riscv_is_branch mnem) i op).
Proof.
  pose proof (rv_dest_spec mnem i) as Hd. pose proof (riscv_store_spec mnem) as Hs. unfold rv_writes1.
  destruct (op_type op) eqn:Et; try (apply rv_write_none; congruence).
  - destruct (rv_dest _ _ _); [apply rv_write_dest; [done|tauto]|apply rv_write_none; [intuition congruence|congruence]].
  - destruct (riscv_is_store mnem); [|apply rv_write_none; [congruence|intuition congruence]].
    assert (mem_operand 0 (reg_or_0 CS_ARCH_RISCV (m_base op)) 0 0 (m_disp op) 0 true =
            mk_rec AT_LOC_MEM_ABS 0 (term CS_ARCH_RISCV (m_base op)) 0 0 (m_disp op) 0 0 true false false 0 0 0) as ->.
    { unfold reg_or_0, term. case_decide as E; [by rewrite E, Z.eqb_refl|by rewrite (proj2 (Z.eqb_neq _ _))]. }
    apply rv_write_mem; [done|tauto].
Qed.

Lemma keep_first_repeats l : without_repeats l (keep_first l).
Proof.
  induction l as [|r l IH] using rev_ind; [constructor|]. unfold keep_first in *. rewrite foldl_app. cbn [foldl].
  unfold keep at 1. case_bool_decide as E.
  - apply wr_old; [done|apply E..].
  - apply wr_new; [done|]. intros Hk Hr. by apply E.
Qed.

Lemma sets_complete h a insn ops : all_reads h a insn ops (read_set h a insn ops) ∧ all_writes h a insn ops (write_set h a insn ops).
Proof.
  unfold all_reads, all_writes. case_decide as Ha.
  - subst a. split; [|by apply lists_all_ops, rv_writes1_records]. eexists. split; [by apply lists_all_ops, rv_reads1_records|].
    apply keep_first_repeats.
  - split; (eexists; split; [by apply lists_all_ops, mem_one_records|]); destruct a; try done;
      unfold read_set, write_set, reads_of, writes_of; by destruct (cs_regs_access h insn) as [[rr rw]|].
Qed.

(** C21: what the enumerator lists.  When the instruction at the offset decodes,
    with operand details, on an open handle, the answer is its length and, up to
    the capacity of each buffer, all that it reads and all that it writes.  On
    x86-64, ARM64 and ARM32 that is the registers Capstone names and then, in
    order, the memory operands with their address terms, in the directions
    Capstone gives them, except that the first operand of an x86 move is written
    and not read.  On RISC-V (at most the eight operands Capstone can give) it is,
    by the operand order of the base instruction set, the first operand for what
    is neither a store nor a branch as written, the other registers and the base
    registers as read, each once, and the memory reference as written by a store
    and read by anything else. *)
Theorem operands_exact open_ s arch code off rcap wcap h a m insn ops
    (Hcs : have_capstone = true) (Hoff : off < Z.of_nat (length code))
    (Hh : (get_handle open_ s arch).1.1 = h) (H0 : h ≠ 0) (Ha : cs_target arch = Some (a, m))
    (Hdec : cs_disasm h (drop (Z.to_nat off) code) off = Some insn) (Hops : detail insn = Some ops)
    (H8 : a = CS_ARCH_RISCV → (length ops <= 8)%nat) :
  ∃ reads writes, all_reads h a insn ops reads ∧ all_writes h a insn ops writes ∧
    (asmtest_operands open_ s arch (Some code) off true (Some rcap) true (Some wcap)).1.1 =
      mk_answer (i_size insn) (take rcap reads) (take wcap writes) ∧
    (a = CS_ARCH_RISCV → NoDup (filter (λ r, kind r = AT_LOC_REG) reads)).
Proof.
  destruct (sets_complete h a insn ops) as [Hr Hw]. eexists _, _. split; [exact Hr|]. split; [exact Hw|].
  split; [|intros ->; apply keep_first_regs].
  unfold asmtest_operands. rewrite Hcs. simpl. rewrite (proj2 (Z.leb_gt _ _)) by done.
  destruct (get_handle open_ s arch) as [[h' s'] opened]. simpl in Hh. subst h'.
  rewrite (proj2 (Z.eqb_neq _ _)), Ha, Hdec by done.
  rewrite (insn_operands_sets h arch a m insn ops) by done. simpl. by rewrite !put_out.
Qed.

(** One handle per architecture.  Over any sequence of calls, whatever
    [cs_open] would answer at each of them, it is called at most once per
    architecture, and a call repeated later with other calls in between gets the
    same answer: a handle is never reopened, and a failure is never retried. *)
Theorem operands_stable ks1 k ks2 open' :
  NoDup (run_calls cache0 (ks1 ++ k :: ks2)).2 ∧
  (do_call (run_calls cache0 (ks1 ++ k :: ks2)).1
     (mk_call open' (k_arch k) (k_code k) (k_off k) (k_reads k) (k_nreads k) (k_writes k) (k_nwrites k))).1.1 =
  (do_call (run_calls cache0 ks1).1 k).1.1.
Proof.
  assert (∀ ks, let '(s, log) := run_calls cache0 ks in cache_ok s ∧ NoDup log) as Hrun.
  { intros ks. unfold run_calls. pose proof (run_calls_from cache0 [] ks cache0_ok (NoDup_nil_2)) as S.
    destruct (foldl _ _ ks) as [s log]. destruct S as (? & ? & ?); [by intros a ?%elem_of_nil|done]. }
  split; [specialize (Hrun (ks1 ++ k :: ks2)); destruct (run_calls _ _); apply Hrun|].
  specialize (Hrun ks1). unfold run_calls in *. rewrite foldl_app. destruct (foldl _ _ ks1) as [s log]. destruct Hrun as [Hok Hnd].
  cbn [foldl fst]. pose proof (do_call_spec s k Hok) as S. destruct (do_call s k) as [[a s1] opened]. destruct S as (Hok1 & _ & _ & Hst).
  assert (∀ log ks, keeps s1 (foldl (λ '(s, log) k, let '(_, s, opened) := do_call s k in
                              (s, if opened then log ++ [k_arch k] else log)) (s1, log) ks).1) as Hk.
  { clear -Hok1. intros log ks. revert log s1 Hok1. induction ks as [|k ks IH]; intros log s1 Hok1; [done|]. cbn [foldl].
    pose proof (do_call_spec s1 k Hok1) as S. destruct (do_call s1 k) as [[? s2] ?]. destruct S as (? & ? & _). etrans; [done|by apply IH]. }
  by rewrite Hst by apply Hk.
Qed.
End enumerate.

(** ** The live producer over the enumerator *)
Import DefUse DfTarget AddrChan DfStep DfWindow DfMeas DfSound.

(** The call of [open_step]: x86-64, 64 records each way. *)
Definition live_operands `{Capstone} (open_ : cs_arch → list cs_mode → option Z) (s : cache) (dec : list Z) (off : Z) :
    Z * list at_val_rec * list at_val_rec :=
  let a := (asmtest_operands open_ s ASMTEST_ARCH_X86_64 (Some dec) off true (Some 64%nat) true (Some 64%nat)).1.1 in
  (ans_len a, ans_reads a, ans_writes a).

(** Operand sizes are unsigned. *)
Definition sizes_unsigned `{Capstone} : Prop :=
  ∀ h bs o insn ops, cs_disasm h bs o = Some insn → detail insn = Some ops → Forall (λ op, 0 <= op_size op) ops.

Lemma all_ops_Forall (P : at_val_rec → Prop) f i ops :
  (∀ j op, op ∈ ops → Forall P (f j op)) → Forall P (all_ops f i ops).
Proof.
  revert i. induction ops as [|op ops IH]; intros i Hf; [constructor|]. rewrite all_ops_cons. apply Forall_app.
  split; [apply Hf; left|apply IH; intros; apply Hf; by right].
Qed.

Lemma mem_one_Forall `{Capstone} (P : at_val_rec → Prop) a mnem w j op :
  P (op_mem a op w) → Forall P (mem_one a mnem w j op).
Proof. intros Hp. unfold mem_one. destruct (op_type op); try apply Forall_nil_2. by destruct (if w then _ else _); repeat constructor. Qed.

(** The enumerator keeps the promise the producer relies on. *)
Lemma live_operands_ok `{Capstone} open_ s : sizes_unsigned → operands_ok (live_operands open_ s).
Proof.
  intros Hsz dec off. unfold live_operands, asmtest_operands.
  destruct (negb have_capstone); [simpl; split_and!; (lia || constructor)|].
  destruct (_ <=? off); [simpl; split_and!; (lia || constructor)|].
  destruct (get_handle open_ s ASMTEST_ARCH_X86_64) as [[h s'] opened].
  destruct (h =? 0); [simpl; split_and!; (lia || constructor)|]. simpl.
  destruct (cs_disasm h _ off) as [insn|] eqn:Ed; [|simpl; split_and!; (lia || constructor)].
  destruct (detail insn) as [ops|] eqn:Eo; [|unfold insn_operands; rewrite Eo; simpl; split_and!; (lia || constructor)].
  rewrite (insn_operands_spec h CS_ARCH_X86 insn ops) by done. simpl. rewrite !put_out.
  pose proof (Hsz _ _ _ _ _ Ed Eo) as Hs. rewrite Forall_forall in Hs.
  split_and!; [rewrite length_take; lia..| |].
  - apply Forall_take, Forall_app. split; [destruct (cs_regs_access _ _) as [[rr rw]|]; [|constructor]; by apply Forall_fmap, Forall_true|].
    apply all_ops_Forall. intros j op Hop. apply mem_one_Forall. split_and!; [done..|by apply Hs].
  - apply Forall_take, Forall_app. split; [destruct (cs_regs_access _ _) as [[rr rw]|]; [|constructor]; by apply Forall_fmap, Forall_true|].
    apply all_ops_Forall. intros j op Hop. apply mem_one_Forall. split_and!; [done..|by apply Hs].
Qed.

(** The script of a whole attach is that of a real target: from the stop at the
    window's first instruction on it is an honest run. *)
Definition honest_attach (operands : list Z → Z → Z * list at_val_rec * list at_val_rec) (win_base win_len : Z)
    (chan : option channel) (max_insns : Z) (v : asmtest_valtrace) (t0 : target) (evs : list event) : Prop :=
  match dfp_run_to t0 win_base evs with
  | (Some (Some (t, pubs)), evs) =>
      ∀ entry bs, t_regs t = Some entry → child_read t (rsp entry) 8 = Some bs →
      let '(chan, rset, info) := drain_into chan pubs [] info0 in
      honest_run window_config operands win_base win_len (le bs) max_insns v chan rset
        (mk_info 0 0 0 0 0 0 (Z.of_nat (length rset) + 1) 0 0 (i_chan_overrun info) false 0) t [] evs
  | _ => True
  end.

Lemma attach_window_ok operands pid wb wl chan mx v0 t0 evs rc i v sig :
  operands_ok operands → caps_ok (abs_space v0) → vrecs (abs_space v0) = [] →
  honest_attach operands wb wl chan mx (abs_space v0) t0 evs →
  attach_window always operands pid wb wl chan mx v0 (Some t0) evs = Some (rc, i, v, sig) →
  rc ≠ DF_PTRACE_EINVAL → vtruncated v = false → trace_ok v.
Proof.
  intros Hops Hc He Hh. assert (trace_ok (abs_space v0)) as H0.
  { destruct (empty_current (ctx_of (abs_space v0)) t0) as [? _]; [|done..|done]. by apply ctx_of_ok. }
  unfold attach_window. destruct (_ || _ || _); [by intros [= <- <- <- <-]|]. unfold honest_attach in Hh.
  destruct (dfp_run_to t0 wb evs) as [[[[t pubs]|]|] evs']; [|by intros [= <- <- <- <-]|done].
  destruct (t_regs t) as [entry|]; [|by intros [= <- <- <- <-]].
  destruct (child_read t (rsp entry) 8) as [bs|] eqn:Er; [|by intros [= <- <- <- <-]]. simpl.
  specialize (Hh entry bs eq_refl Er). destruct (drain_into chan pubs [] info0) as [[chan' rset] info].
  destruct (dfp_window_loop _ _ _ _ _ _ _ _ _ _ _ _ _ _) as [[o i']|] eqn:E; [|done]. intros [= <- <- <- <-] _.
  by eapply (window_loop_ok window_config operands Hops eq_refl).
Qed.

(** C15: the survey from end to end.  Attach to a process, run it to the window,
    survey it with the operand enumerator over Capstone, build the def-use graph.  If
    the arguments were accepted and the trace is not flagged truncated, then on every
    edge, for each byte read whose last writer the edge names and that the writing
    record itself covers, the two records agree on its value where both captured one.  (Not covered: the upper half of a
    container that a 32-bit write defines without naming it, where glue code can
    change the value unseen, [gap_misses_upper_half]; and values not captured.)  This
    for every answer of Capstone, script of the kernel's events and state of the
    handle cache, if memory is granted, the stops are well formed, a recorded
    instruction changes the locations recorded before it only as the enumerator
    lists, and the trace has fewer than 2{^32} steps and at most 2{^40} records. *)
Theorem live_edges_carry_values `{Capstone} open_ s sc rc wc v0 pid win_base win_len chan max_insns t0 evs code i v sig g x
    (Hcs : sizes_unsigned)
    (Hnew : asmtest_valtrace_new always sc rc wc = Some v0) (Hcaps : Z.of_nat sc < 2 ^ 32 ∧ Z.of_nat wc <= 2 ^ 32)
    (Hhonest : honest_attach (live_operands open_ s) win_base win_len chan max_insns (abs_space v0) t0 evs)
    (Hrun : attach_window always (live_operands open_ s) pid win_base win_len chan max_insns v0 (Some t0) evs =
            Some (code, i, v, sig))
    (Hcode : code ≠ DF_PTRACE_EINVAL) (Hfull : vtruncated v = false)
    (Hsize : Z.of_nat (steps_len v) < 2 ^ 32 ∧ Z.of_nat (recs_len v) <= 2 ^ 40)
    (Hbuild : asmtest_defuse_build always (Some v) = Some g) (Hx : x ∈ edges g) :
  carries v x.
Proof.
  destruct (new_sink_ok sc rc wc v0 Hnew) as [Hc He]; [tauto..|].
  eapply trace_ok_carries; [|tauto|tauto|done|done]. eapply attach_window_ok; [by apply live_operands_ok|done..].
Qed.

(** ** Concrete runs *)
(** A decoder of one-byte instructions: 1 stores a byte to the address 8192, 2 loads
    it, 3 is a RISC-V [add x13, x12, x12], 4 a [jr x10]. *)
Definition toy_mem (size acc : Z) : cs_op := mk_op OP_MEM 0 0 0 0 1 8192 size acc.
Definition toy_reg (r : Z) : cs_op := mk_op OP_REG r 0 0 0 0 0 0 0.
Definition toy_disasm (bs : list Z) : option cs_insn :=
  match bs with
  | 1 :: _ => Some (mk_insn 1 "vmovdqu" (Some [toy_mem 1 1; toy_reg 123]))
  | 2 :: _ => Some (mk_insn 1 "mov" (Some [toy_reg 19; toy_mem 1 1]))
  | 3 :: _ => Some (mk_insn 1 "add" (Some [toy_reg 13; toy_reg 12; toy_reg 12]))
  | 4 :: _ => Some (mk_insn 1 "jr" (Some [toy_reg 10]))
  | _ => None
  end.
Definition toy_capstone : Capstone :=
  {| have_capstone := true; CS_API_MAJOR := 5; CS_SUPPORT_DIET := false; CS_AC_READ := 1; CS_AC_WRITE := 2;
     REG_INVALID := λ _, 0; cs_disasm := λ _ bs _, toy_disasm bs; cs_regs_access := λ _ _, Some ([], []) |}.
Definition toy_open (a : cs_arch) (m : list cs_mode) : option Z := Some 77.

Lemma toy_sizes : @sizes_unsigned toy_capstone.
Proof.
  intros h bs o insn ops. simpl. unfold toy_disasm. intros Ed Eo.
  destruct bs as [|[|p|p] bs]; try done. do 3 (try destruct p as [p|p|]); try done; simplify_eq/=; repeat constructor; simpl; lia.
Qed.

(** On RISC-V, a sum of a register with itself reads it once. *)
Lemma operands_exact_witness :
  let insn := mk_insn 1 "add" (Some [toy_reg 13; toy_reg 12; toy_reg 12]) in
  let ops := [toy_reg 13; toy_reg 12; toy_reg 12] in
  ∃ reads writes, @all_reads toy_capstone 77 CS_ARCH_RISCV insn ops reads ∧ @all_writes toy_capstone 77 CS_ARCH_RISCV insn ops writes ∧
    take 64 reads = [reg_operand 12 false] ∧ take 64 writes = [reg_operand 13 true].
Proof.
  cbv zeta. destruct (@operands_exact toy_capstone toy_open cache0 ASMTEST_ARCH_RISCV64 [9; 3] 1 64 64 77 CS_ARCH_RISCV
    [CS_MODE_RISCV64; CS_MODE_RISCVC] (mk_insn 1 "add" (Some [toy_reg 13; toy_reg 12; toy_reg 12]))
    [toy_reg 13; toy_reg 12; toy_reg 12]) as (r & w & Hr & Hw & E & _);
    [reflexivity|reflexivity|reflexivity|discriminate|reflexivity|reflexivity|reflexivity|intros _; simpl; lia|].
  exists r, w. split; [exact Hr|]. split; [exact Hw|].
  assert ((@asmtest_operands toy_capstone toy_open cache0 ASMTEST_ARCH_RISCV64 (Some [9; 3]) 1 true (Some 64%nat) true (Some 64%nat)).1.1 =
          mk_answer 1 [reg_operand 12 false] [reg_operand 13 true]) as Ea by (vm_compute; reflexivity).
  rewrite Ea in E. injection E as Er Ew. by split.
Defined.

(** The store Capstone reports as a read is listed as a write, so that the load
    gets its edge from the glue that overwrote it, not from the store. *)
Definition attach_evs : list event :=
  [EvPoke true; EvTrap None (toy_target [1; 2] 4097 0 0 36864) []; EvPoke true; EvSetRegs true;
   EvTrap None (toy_target [1; 2] 20480 0 7 36864) []; EvTrap None (toy_target [1; 2] 4097 0 9 36864) [];
   EvTrap None (toy_target [1; 2] 36864 0 9 36864) []].
Definition toy_attach : option (Z * dfwin_info * asmtest_valtrace * Z) :=
  attach_window always (@live_operands toy_capstone toy_open cache0) 1 4096 2 None 0 toy_sink
    (Some (toy_target [1; 2] 8 0 0 36864)) attach_evs.

Lemma live_edges_carry_values_witness :
  ∃ i v g, toy_attach = Some (DF_PTRACE_OK, i, v, 0) ∧ vtruncated v = false ∧ asmtest_defuse_build always (Some v) = Some g ∧
    (λ x, (from_step x, to_step x)) <$> edges g = [(1, 2)] ∧ ∀ x, x ∈ edges g → carries v x.
Proof.
  assert (∃ i v g, toy_attach = Some (DF_PTRACE_OK, i, v, 0) ∧ vtruncated v = false ∧
    asmtest_defuse_build always (Some v) = Some g ∧ (λ x, (from_step x, to_step x)) <$> edges g = [(1, 2)] ∧
    Z.of_nat (steps_len v) < 2 ^ 32 ∧ Z.of_nat (recs_len v) <= 2 ^ 40) as (i & v & g & E & H1 & Eg & H2 & H3 & H4).
  { do 3 eexists. split; [vm_compute; reflexivity|]. split; [vm_compute; reflexivity|]. split; [vm_compute; reflexivity|].
    vm_compute. repeat split; discriminate. }
  exists i, v, g. do 4 (split; [assumption|]). unfold toy_attach in E. intros x Hx.
  eapply (@live_edges_carry_values toy_capstone toy_open cache0 8 8 0 toy_sink 1 4096 2 None 0
    (toy_target [1; 2] 8 0 0 36864) attach_evs DF_PTRACE_OK i v 0 g x toy_sizes eq_refl).
  - split; [reflexivity|discriminate].
  - unfold honest_attach. destruct (dfp_run_to _ 4096 attach_evs) as [[[[t pubs]|]|] evs] eqn:Er; [|exact I|exact I].
    vm_compute in Er. injection Er as <- <- <-. intros entry bs [= <-] Eb. vm_compute in Eb. injection Eb as <-.
    apply honest_runb_ok. vm_compute. reflexivity.
  - exact E.
  - discriminate.
  - exact H1.
  - exact (conj H3 H4).
  - exact Eg.
  - exact Hx.
Defined.

(** An indirect jump through a register is enumerated as a write of the register
    and reads nothing: the walk takes operand 0 of everything but the listed stores
    and branches for a destination. *)
Theorem riscv_jump_reads_nothing :
  (@asmtest_operands toy_capstone toy_open cache0 ASMTEST_ARCH_RISCV64 (Some [4]) 0 true (Some 64%nat) true (Some 64%nat)).1.1 =
  mk_answer 1 [] [reg_operand 10 true].
Proof. vm_compute. reflexivity. Qed.
End Operands.
