(* ===== verification/BsScan.v ===== *)
(** The static gates of the block-step value producer
    ([src/dataflow_blockstep.c]): which instructions the emulator may replay,
    which it may carry by record-and-inject, the sweep of a region that decides
    it, and the table of the flags an instruction leaves undefined. *)
From stdpp Require Import strings.
From S2P Require Import Prelude RegSlice ValTrace DfTarget.

Module BsScan.
Import RegSlice DfTarget.

(** ** Capstone

    The instruction ids the file tells apart, and what it reads of a decoded
    instruction; the handle is opened with details, so they are there. *)
Inductive insn_id :=
  | X86_INS_AND | X86_INS_OR | X86_INS_XOR | X86_INS_TEST | X86_INS_MUL | X86_INS_IMUL
  | X86_INS_DIV | X86_INS_IDIV | X86_INS_BSF | X86_INS_BSR
  | X86_INS_SHL | X86_INS_SAL | X86_INS_SHR | X86_INS_SAR
  | X86_INS_ROL | X86_INS_ROR | X86_INS_RCL | X86_INS_RCR
  | X86_INS_BT | X86_INS_BTS | X86_INS_BTR | X86_INS_BTC
  | X86_INS_LZCNT | X86_INS_TZCNT | X86_INS_POPCNT
  | X86_INS_SYSCALL | X86_INS_SYSENTER | X86_INS_INT
  | X86_INS_RDTSC | X86_INS_RDTSCP | X86_INS_RDRAND | X86_INS_RDSEED | X86_INS_CPUID
  | X86_INS_OTHER.
#[export] Instance insn_id_eq_dec : EqDecision insn_id.
Proof. solve_decision. Defined.

Inductive op_type := X86_OP_REG | X86_OP_IMM | X86_OP_MEM.
Record x86_op := mk_op { o_type : op_type; o_reg : Z; o_imm : Z; o_size : Z }.
Record cs_insn := mk_insn {
  i_id : insn_id; i_size : Z; i_bytes : list Z; i_ops : list x86_op; i_eflags : Z;
}.

Class Disasm := {
  (** The first instruction of the bytes at an address. *)
  cs_disasm_iter : list Z → Z → option cs_insn;
  (** The registers it reads and writes; [None] is an error. *)
  cs_regs_access : cs_insn → option (list Z * list Z);
}.

(** A decoded instruction has a byte at least and fits in what was given. *)
Definition disasm_ok `{Disasm} : Prop :=
  ∀ bs a i, cs_disasm_iter bs a = Some i → 0 < i_size i <= Z.of_nat (length bs).

(** ** Impure instructions *)
Inductive dfb_imp := DFB_IMP_NONE | DFB_IMP_SYSCALL | DFB_IMP_INT80 | DFB_IMP_HWREC | DFB_IMP_OTHER.
#[export] Instance dfb_imp_eq_dec : EqDecision dfb_imp.
Proof. solve_decision. Defined.

Definition is_int80 (i : cs_insn) : bool :=
  match i_ops i with
  | [o] => match o_type o with X86_OP_IMM => o_imm o =? 128 | _ => false end
  | _ => false
  end.

Definition dfb_impurity_kind (i : cs_insn) : dfb_imp :=
  match i_id i with
  | X86_INS_SYSCALL => DFB_IMP_SYSCALL
  | X86_INS_INT => if is_int80 i then DFB_IMP_INT80 else DFB_IMP_NONE
  | X86_INS_RDTSC | X86_INS_RDTSCP | X86_INS_RDRAND | X86_INS_RDSEED | X86_INS_CPUID => DFB_IMP_HWREC
  | X86_INS_SYSENTER => DFB_IMP_OTHER
  | _ => DFB_IMP_NONE
  end.

Definition insn_impurity (i : cs_insn) : option string :=
  match i_id i with
  | X86_INS_SYSCALL => Some "syscall"
  | X86_INS_SYSENTER => Some "sysenter"
  | X86_INS_RDTSC => Some "rdtsc"
  | X86_INS_RDTSCP => Some "rdtscp"
  | X86_INS_RDRAND => Some "rdrand"
  | X86_INS_RDSEED => Some "rdseed"
  | X86_INS_CPUID => Some "cpuid"
  | X86_INS_INT => if is_int80 i then Some "int 0x80" else None
  | _ => None
  end%string.

(** ** Encodings and vector registers *)
Definition is_override (b : Z) : bool :=
  (b =? 0x26) || (b =? 0x2E) || (b =? 0x36) || (b =? 0x3E) || (b =? 0x64) || (b =? 0x65) || (b =? 0x67).
Fixpoint vex_bytes (bs : list Z) : bool :=
  match bs with
  | [] => false
  | b :: bs => if is_override b then vex_bytes bs else (b =? 0xC4) || (b =? 0xC5) || (b =? 0x62)
  end.
Definition insn_is_vex_evex (i : cs_insn) : bool := vex_bytes (take (Z.to_nat (i_size i)) (i_bytes i)).

(** The index and the width of a vector register. *)
Definition vec_reg_info (reg : Z) : option (Z * Z) :=
  if (X86_REG_XMM0 <=? reg) && (reg <=? X86_REG_XMM0 + 31) then Some (reg - X86_REG_XMM0, 16)
  else if (X86_REG_YMM0 <=? reg) && (reg <=? X86_REG_YMM0 + 31) then Some (reg - X86_REG_YMM0, 32)
  else if (X86_REG_ZMM0 <=? reg) && (reg <=? X86_REG_ZMM0 + 31) then Some (reg - X86_REG_ZMM0, 64)
  else None.

Definition X86_REG_K0 : Z := 90.
Definition X86_REG_K7 : Z := 97.
Definition is_vec_or_mask_reg (r : Z) : bool :=
  match vec_reg_info r with
  | Some _ => true
  | None => (X86_REG_K0 <=? r) && (r <=? X86_REG_K7)
  end.

Definition is_vec_op (o : x86_op) : bool :=
  match o_type o with X86_OP_REG => is_vec_or_mask_reg (o_reg o) | _ => false end.

Definition insn_touches_vec `{Disasm} (i : cs_insn) : bool :=
  if insn_is_vex_evex i then true
  else match cs_regs_access i with
       | None => true
       | Some (rr, rw) => existsb is_vec_or_mask_reg rr || existsb is_vec_or_mask_reg rw || existsb is_vec_op (i_ops i)
       end.

(** ** The sweep *)
(** [dfb_scan_t]; [hwrec_off] holds the [nhwrec] entries. *)
Record dfb_scan := mk_scan {
  pure : bool; injectable : bool; replayable : bool; touches_vec : bool;
  impure_reason : option string; replay_reason : option string;
  hwrec_off : list Z; hwrec_overflow : bool;
}.
Definition scan0 : dfb_scan := mk_scan true true true false None None [] false.

Definition scan_replay_ok (s : dfb_scan) : bool := (pure s || injectable s) && replayable s.
Definition scan_reason (s : dfb_scan) : option string :=
  if negb (pure s) && negb (injectable s) then impure_reason s
  else if negb (replayable s) then replay_reason s
  else None.

(** What one instruction at [addr] adds to the verdicts. *)
Definition scan_insn `{Disasm} (out : dfb_scan) (addr : Z) (i : cs_insn) : dfb_scan :=
  let tv := insn_touches_vec i || touches_vec out in
  let vex := replayable out && insn_is_vex_evex i in
  let rp := if vex then false else replayable out in
  let rr := if vex then Some "vex/evex"%string else replay_reason out in
  let imp := insn_impurity i in
  let named := if imp is Some _ then pure out else false in
  let pu := if named then false else pure out in
  let ir := if named then imp else impure_reason out in
  let k := if imp is Some _ then dfb_impurity_kind i else DFB_IMP_NONE in
  let lost := match imp, k with
              | Some _, (DFB_IMP_SYSCALL | DFB_IMP_INT80 | DFB_IMP_HWREC) => false
              | Some _, _ => true
              | None, _ => false
              end in
  let inj := if lost then false else injectable out in
  let ir := if lost then imp else ir in
  let '(hw, ov) :=
    match k with
    | DFB_IMP_HWREC => if (length (hwrec_off out) <? 4)%nat then (hwrec_off out ++ [addr], hwrec_overflow out)
                       else (hwrec_off out, true)
    | _ => (hwrec_off out, hwrec_overflow out)
    end in
  mk_scan pu inj rp tv ir rr hw ov.

(** The loop of [region_scan_extent]: [addr] and [remaining] as in the code, one
    unit of fuel per round; also what remained. *)
Fixpoint sweep_loop `{Disasm} (fuel : nat) (code : list Z) (addr remaining : Z) (out : dfb_scan) : dfb_scan * Z :=
  match fuel with
  | O => (out, remaining)
  | S fuel =>
      if 0 <? remaining then
        match cs_disasm_iter (take (Z.to_nat remaining) (drop (Z.to_nat addr) code)) addr with
        | None => (out, remaining)
        | Some i => sweep_loop fuel code (addr + i_size i) (remaining - i_size i) (scan_insn out addr i)
        end
      else (out, remaining)
  end.
Definition desync (out : dfb_scan) : dfb_scan :=
  mk_scan (pure out) (injectable out) false true (impure_reason out) (Some "decode"%string)
    (hwrec_off out) (hwrec_overflow out).
Definition region_scan_extent `{Disasm} (code : list Z) (out : dfb_scan) (ext : Z * Z) : dfb_scan :=
  let '(out, remaining) := sweep_loop (S (Z.to_nat ext.2)) code ext.1 ext.2 out in
  if remaining =? 0 then out else desync out.

Definition overflowed (out : dfb_scan) : dfb_scan :=
  mk_scan (pure out) false (replayable out) (touches_vec out) (Some "hwrec-overflow"%string) (replay_reason out)
    (hwrec_off out) (hwrec_overflow out).

(** [opens]: whether [cs_open] succeeds.  The extents swept are the given ones,
    or the whole region. *)
Definition swept_extents (code : list Z) (extents : list (Z * Z)) : list (Z * Z) :=
  match extents with [] => [(0, Z.of_nat (length code))] | _ => extents end.
Definition region_scan `{Disasm} (opens : bool) (code : list Z) (extents : list (Z * Z)) : dfb_scan :=
  if negb opens then mk_scan true true false true None (Some "decode"%string) [] false
  else
    let out := foldl (region_scan_extent code) scan0 (swept_extents code extents) in
    if hwrec_overflow out then overflowed out else out.

(** ** The classifiers *)
Definition DF_BLOCKSTEP_OK : Z := 0.
Definition DF_BLOCKSTEP_FAULT : Z := 1.
Definition DF_BLOCKSTEP_EINVAL : Z := -1.
Definition DF_BLOCKSTEP_ETRACE : Z := -4.

(** The return code and [*reason]; [None] is a null code pointer. *)
Definition verdict (ok : dfb_scan → bool) (why : dfb_scan → option string) `{Disasm} (opens : bool)
    (code : option (list Z)) : Z * option string :=
  match code with
  | None | Some [] => (DF_BLOCKSTEP_EINVAL, None)
  | Some code => let s := region_scan opens code [] in
                 if ok s then (1, None) else (0, why s)
  end.
Definition asmtest_dataflow_blockstep_is_pure `{Disasm} := verdict pure impure_reason.
Definition asmtest_dataflow_blockstep_is_replayable `{Disasm} := verdict replayable replay_reason.
Definition asmtest_dataflow_blockstep_is_injectable `{Disasm} := verdict injectable impure_reason.

(** The count, the offsets that fit and the overflow flag. *)
Definition asmtest_dataflow_blockstep_scan_hwrec `{Disasm} (opens : bool) (code : option (list Z)) (off_cap : nat) :
    Z * list Z * bool :=
  match code with
  | None | Some [] => (DF_BLOCKSTEP_EINVAL, [], false)
  | Some code => let s := region_scan opens code [] in
                 (Z.of_nat (length (hwrec_off s)), take off_cap (hwrec_off s), hwrec_overflow s)
  end.

(** ** The extents a caller may give *)
Fixpoint extents_loop (code_len prev_end : Z) (l : list (Z * Z)) : bool :=
  match l with
  | [] => true
  | (eoff, elen) :: l =>
      if (elen =? 0) || (eoff <? prev_end) || (code_len <? eoff +64 elen) then false
      else extents_loop code_len (eoff +64 elen) l
  end.

(** ** Undefined flags *)
Definition DFB_EFLAG_CF : Z := 0x0001.
Definition DFB_EFLAG_PF : Z := 0x0004.
Definition DFB_EFLAG_AF : Z := 0x0010.
Definition DFB_EFLAG_ZF : Z := 0x0040.
Definition DFB_EFLAG_SF : Z := 0x0080.
Definition DFB_EFLAG_OF : Z := 0x0800.
Definition flags_of (l : list Z) : Z := foldr Z.lor 0 l.
Definition DFB_UNDEF_ARITH_ALL : Z :=
  flags_of [DFB_EFLAG_CF; DFB_EFLAG_PF; DFB_EFLAG_AF; DFB_EFLAG_ZF; DFB_EFLAG_SF; DFB_EFLAG_OF].

(** The count and the width in bits; the register file may be missing. *)
Definition dfb_shift_rotate_count (i : cs_insn) (gp : option user_regs) : option (Z * Z) :=
  match i_ops i with
  | dst :: _ :: _ =>
      let width := if o_size dst =? 0 then 32 else o_size dst * 8 in
      match last (i_ops i) with
      | Some cnt =>
          match o_type cnt, gp with
          | X86_OP_IMM, _ => Some (Z.land (o_imm cnt) 255, width)
          | X86_OP_REG, Some r => Some (Z.land (Z.land (rcx r) 255) (if width =? 64 then 63 else 31), width)
          | _, _ => None
          end
      | None => None
      end
  | _ => None
  end.

(** The undefined bits and [*defined_written]. *)
Definition dfb_undef_flags (i : cs_insn) (gp : option user_regs) : Z * Z :=
  match i_id i with
  | X86_INS_AND | X86_INS_OR | X86_INS_XOR | X86_INS_TEST =>
      (DFB_EFLAG_AF, flags_of [DFB_EFLAG_CF; DFB_EFLAG_OF; DFB_EFLAG_SF; DFB_EFLAG_ZF; DFB_EFLAG_PF])
  | X86_INS_MUL | X86_INS_IMUL =>
      (flags_of [DFB_EFLAG_SF; DFB_EFLAG_ZF; DFB_EFLAG_AF; DFB_EFLAG_PF], flags_of [DFB_EFLAG_CF; DFB_EFLAG_OF])
  | X86_INS_DIV | X86_INS_IDIV => (DFB_UNDEF_ARITH_ALL, 0)
  | X86_INS_BSF | X86_INS_BSR =>
      (flags_of [DFB_EFLAG_CF; DFB_EFLAG_OF; DFB_EFLAG_SF; DFB_EFLAG_AF; DFB_EFLAG_PF], DFB_EFLAG_ZF)
  | X86_INS_SHL | X86_INS_SAL | X86_INS_SHR | X86_INS_SAR =>
      let sar := bool_decide (i_id i = X86_INS_SAR) in
      match dfb_shift_rotate_count i gp with
      | None =>
          if sar then (flags_of [DFB_EFLAG_AF; DFB_EFLAG_OF], flags_of [DFB_EFLAG_CF; DFB_EFLAG_SF; DFB_EFLAG_ZF; DFB_EFLAG_PF])
          else (flags_of [DFB_EFLAG_AF; DFB_EFLAG_OF; DFB_EFLAG_CF], flags_of [DFB_EFLAG_SF; DFB_EFLAG_ZF; DFB_EFLAG_PF])
      | Some (count, width) =>
          if count =? 0 then (0, 0)
          else if count =? 1 then
            (DFB_EFLAG_AF, flags_of [DFB_EFLAG_CF; DFB_EFLAG_OF; DFB_EFLAG_SF; DFB_EFLAG_ZF; DFB_EFLAG_PF])
          else
            let undef := flags_of [DFB_EFLAG_AF; DFB_EFLAG_OF] in
            let def := flags_of [DFB_EFLAG_SF; DFB_EFLAG_ZF; DFB_EFLAG_PF; DFB_EFLAG_CF] in
            if negb sar && (width <=? count) then (Z.lor undef DFB_EFLAG_CF, Z.ldiff def DFB_EFLAG_CF)
            else (undef, def)
      end
  | X86_INS_ROL | X86_INS_ROR | X86_INS_RCL | X86_INS_RCR =>
      match dfb_shift_rotate_count i gp with
      | None => (DFB_EFLAG_OF, DFB_EFLAG_CF)
      | Some (count, _) =>
          if count =? 0 then (0, 0)
          else if count =? 1 then (0, flags_of [DFB_EFLAG_CF; DFB_EFLAG_OF])
          else (DFB_EFLAG_OF, DFB_EFLAG_CF)
      end
  | X86_INS_BT | X86_INS_BTS | X86_INS_BTR | X86_INS_BTC =>
      (flags_of [DFB_EFLAG_OF; DFB_EFLAG_SF; DFB_EFLAG_AF; DFB_EFLAG_PF], DFB_EFLAG_CF)
  | X86_INS_LZCNT | X86_INS_TZCNT | X86_INS_POPCNT => (0, DFB_UNDEF_ARITH_ALL)
  | _ => if i_eflags i =? 0 then (0, 0) else (0, DFB_UNDEF_ARITH_ALL)
  end.

(** ** What the sweep says *)
Section sweep.
Context `{Disasm}.

(** The instructions of the bytes from [a] on, and whether all were decoded. *)
Inductive sweeps (code : list Z) : Z → Z → list (Z * cs_insn) → bool → Prop :=
| sweeps_all a : sweeps code a 0 [] true
| sweeps_stuck a rem :
    0 < rem → cs_disasm_iter (take (Z.to_nat rem) (drop (Z.to_nat a) code)) a = None → sweeps code a rem [] false
| sweeps_insn a rem i l ok :
    0 < rem → cs_disasm_iter (take (Z.to_nat rem) (drop (Z.to_nat a) code)) a = Some i →
    sweeps code (a + i_size i) (rem - i_size i) l ok → sweeps code a rem ((a, i) :: l) ok.

(** Those of all extents, in order. *)
Inductive region_sweeps (code : list Z) : list (Z * Z) → list (Z * cs_insn) → bool → Prop :=
| region_none : region_sweeps code [] [] true
| region_ext e es l l' ok ok' :
    sweeps code e.1 e.2 l ok → region_sweeps code es l' ok' → region_sweeps code (e :: es) (l ++ l') (ok && ok').

Definition is_pure (i : cs_insn) : bool := if insn_impurity i is Some _ then false else true.
Definition carried (i : cs_insn) : bool := negb (bool_decide (i_id i = X86_INS_SYSENTER)).
Definition is_site (i : cs_insn) : bool := bool_decide (dfb_impurity_kind i = DFB_IMP_HWREC).
Definition sites (l : list (Z * cs_insn)) : list Z := (filter (λ x, is_site x.2 = true) l).*1.

(** The name of the first impurity, unless a later one cannot be carried. *)
Definition blamed (l : list (Z * cs_insn)) : option string :=
  match last (filter (λ x, carried x.2 = false) l) with
  | Some x => insn_impurity x.2
  | None => head (filter (λ x, is_pure x.2 = false) l) ≫= λ x, insn_impurity x.2
  end.

Record verdicts (l : list (Z * cs_insn)) (ok : bool) (s : dfb_scan) : Prop := {
  v_pure : pure s = forallb (λ x, is_pure x.2) l;
  v_inj : injectable s = forallb (λ x, carried x.2) l;
  v_rep : replayable s = ok && forallb (λ x, negb (insn_is_vex_evex x.2)) l;
  v_vec : touches_vec s = negb ok || existsb (λ x, insn_touches_vec x.2) l;
  v_why : impure_reason s = blamed l;
  v_rwhy : replay_reason s = (if negb ok then Some "decode"%string
             else if existsb (λ x, insn_is_vex_evex x.2) l then Some "vex/evex"%string else None);
  v_off : hwrec_off s = take 4 (sites l);
  v_over : hwrec_overflow s = (4 <? length (sites l))%nat;
}.

Lemma verdicts0 : verdicts [] true scan0.
Proof. by constructor. Qed.

Lemma impurity_kind i :
  match insn_impurity i with
  | None => dfb_impurity_kind i = DFB_IMP_NONE ∧ is_pure i = true ∧ carried i = true
  | Some _ => is_pure i = false ∧ dfb_impurity_kind i ≠ DFB_IMP_NONE ∧
              (carried i = false ↔ dfb_impurity_kind i = DFB_IMP_OTHER)
  end.
Proof.
  unfold is_pure, carried, insn_impurity, dfb_impurity_kind.
  destruct (i_id i), (is_int80 i); simpl; split_and!; try done.
Qed.

Lemma blamed_snoc l a i :
  blamed (l ++ [(a, i)]) =
  (if carried i then (if forallb (λ x, is_pure x.2) l && negb (is_pure i) then insn_impurity i else blamed l)
   else insn_impurity i).
Proof.
  unfold blamed. rewrite !filter_app, !filter_cons, !filter_nil. simpl. destruct (carried i) eqn:Ec.
  2: { rewrite decide_True by done. by rewrite last_snoc. }
  rewrite (decide_False (P := true = false)) by done. rewrite app_nil_r.
  destruct (forallb _ l) eqn:El; simpl.
  - assert (filter (λ x : Z * cs_insn, carried x.2 = false) l = [] ∧ filter (λ x : Z * cs_insn, is_pure x.2 = false) l = []) as [E1 E2].
    { rewrite forallb_forall in El. split; apply list_filter_none, Forall_forall; intros x Hx%list_elem_of_In;
        specialize (El x Hx); pose proof (impurity_kind x.2) as Hk; unfold is_pure in *;
        destruct (insn_impurity x.2); try done; destruct Hk as (_ & _ & ->); done. }
    rewrite E1, E2. simpl. by destruct (is_pure i).
  - destruct (last _); [done|]. f_equal. rewrite head_app.
    destruct (filter (λ x : Z * cs_insn, is_pure x.2 = false) l) eqn:E2; [|done]. exfalso.
    apply not_true_iff_false in El. apply El, forallb_forall. intros x Hx%list_elem_of_In.
    destruct (is_pure x.2) eqn:Ex; [done|]. assert (x ∈ filter (λ x : Z * cs_insn, is_pure x.2 = false) l) as Hin
      by by apply list_elem_of_filter. rewrite E2 in Hin. by apply not_elem_of_nil in Hin.
Qed.

Lemma sites_snoc l a i : sites (l ++ [(a, i)]) = sites l ++ (if is_site i then [a] else []).
Proof. unfold sites. rewrite filter_app, filter_cons, filter_nil, fmap_app. simpl. by destruct (is_site i). Qed.

Lemma existsb_negb {A} (f : A → bool) l : existsb f l = negb (forallb (λ x, negb (f x)) l).
Proof. induction l as [|x l IH]; [done|]. simpl. rewrite IH. by destruct (f x). Qed.

(** What one instruction changes, in closed form. *)
Lemma scan_insn_eq s a i :
  scan_insn s a i =
  mk_scan (pure s && is_pure i) (injectable s && carried i) (replayable s && negb (insn_is_vex_evex i))
    (insn_touches_vec i || touches_vec s)
    (if carried i then (if pure s && negb (is_pure i) then insn_impurity i else impure_reason s) else insn_impurity i)
    (if replayable s && insn_is_vex_evex i then Some "vex/evex"%string else replay_reason s)
    (if is_site i && (length (hwrec_off s) <? 4)%nat then hwrec_off s ++ [a] else hwrec_off s)
    (if is_site i && negb (length (hwrec_off s) <? 4)%nat then true else hwrec_overflow s).
Proof.
  unfold scan_insn. generalize (insn_touches_vec i), (insn_is_vex_evex i). intros tv vex.
  unfold is_pure, carried, is_site, insn_impurity, dfb_impurity_kind.
  destruct s as [p q r v ir rr hw ov], (length hw <? 4)%nat eqn:E; simpl; rewrite ?E.
  all: destruct (i_id i), (is_int80 i), p, q, r, vex; reflexivity.
Qed.

(** One instruction more. *)
Lemma scan_insn_verdicts l ok s a i : verdicts l ok s → verdicts (l ++ [(a, i)]) ok (scan_insn s a i).
Proof.
  intros [Hp Hi Hr Hv Hw Hrw Ho Hov]. rewrite scan_insn_eq.
  constructor; cbn -[take sites Nat.ltb]; rewrite ?forallb_app, ?existsb_app, ?blamed_snoc, ?sites_snoc; cbn -[take sites Nat.ltb];
    rewrite ?andb_true_r, ?orb_false_r.
  - by rewrite Hp.
  - by rewrite Hi.
  - rewrite Hr. by destruct ok.
  - rewrite Hv. by destruct ok, (insn_touches_vec i), (existsb _ l).
  - by rewrite Hp, Hw.
  - rewrite Hr, Hrw, (existsb_negb _ l). destruct ok; [|done]. simpl.
    by destruct (forallb (λ x, negb (insn_is_vex_evex x.2)) l), (insn_is_vex_evex i).
  - rewrite Ho, length_take. destruct (is_site i); cbn [andb]; [|by rewrite app_nil_r].
    destruct (Nat.ltb_spec (4 `min` length (sites l)) 4).
    + rewrite (take_ge (sites l)), take_ge by (rewrite ?length_app; simpl; lia). done.
    + by rewrite take_app_le by lia.
  - rewrite Ho, Hov, length_take, length_app. destruct (is_site i); cbn [andb negb length]; [|by rewrite Nat.add_0_r].
    destruct (Nat.ltb_spec (4 `min` length (sites l)) 4); cbn [negb].
    + destruct (Nat.ltb_spec 4 (length (sites l))), (Nat.ltb_spec 4 (length (sites l) + 1)); (done || lia).
    + symmetry. apply Nat.ltb_lt. lia.
Qed.

Lemma desync_verdicts l ok s : verdicts l ok s → verdicts l false (desync s).
Proof. intros [Hp Hi Hr Hv Hw Hrw Ho Hov]. by constructor. Qed.

Context (Hdis : disasm_ok).

(** The loop decodes to the end or to the byte it stops at, and folds the
    verdicts. *)
Lemma sweep_loop_spec fuel code a rem l0 ok s :
  0 <= a → 0 <= rem → a + rem <= Z.of_nat (length code) → rem < Z.of_nat fuel → verdicts l0 ok s →
  ∃ l full, sweeps code a rem l full ∧ verdicts (l0 ++ l) ok (sweep_loop fuel code a rem s).1 ∧
    ((sweep_loop fuel code a rem s).2 =? 0) = full.
Proof.
  revert a rem l0 s. induction fuel as [|fuel IH]; intros a rem l0 s Ha Hr Hlen Hf Hv; [lia|].
  cbn [sweep_loop]. destruct (Z.ltb_spec 0 rem) as [Hpos|].
  2: { assert (rem = 0) as -> by lia. exists [], true. rewrite app_nil_r. split; [constructor|done]. }
  destruct (cs_disasm_iter _ a) as [i|] eqn:Ei.
  2: { exists [], false. rewrite app_nil_r. simpl. split_and!; [by constructor|done|]. by apply Z.eqb_neq, not_eq_sym, Z.lt_neq. }
  pose proof (Hdis _ _ _ Ei) as Hs. rewrite length_take, length_drop in Hs.
  destruct (IH (a + i_size i) (rem - i_size i) (l0 ++ [(a, i)]) (scan_insn s a i)) as (l & full & Hl & Hv' & Hfull);
    [lia..|by apply scan_insn_verdicts|].
  exists ((a, i) :: l), full. split_and!; [by econstructor| |done]. by rewrite <-app_assoc in Hv'.
Qed.

Lemma extent_spec code e l0 ok s :
  0 <= e.1 → 0 <= e.2 → e.1 + e.2 <= Z.of_nat (length code) → verdicts l0 ok s →
  ∃ l full, sweeps code e.1 e.2 l full ∧ verdicts (l0 ++ l) (ok && full) (region_scan_extent code s e).
Proof.
  intros Ha Hr Hlen Hv. unfold region_scan_extent.
  destruct (sweep_loop_spec (S (Z.to_nat e.2)) code e.1 e.2 l0 ok s) as (l & full & Hl & Hv' & Hfull); [done..|lia|done|].
  exists l, full. split; [done|]. destruct (sweep_loop _ _ _ _ _) as [out rem]. simpl in *. rewrite Hfull.
  destruct full; [by rewrite andb_true_r|]. rewrite andb_false_r. by eapply desync_verdicts.
Qed.

Definition extent_in (code : list Z) (e : Z * Z) : Prop := 0 <= e.1 ∧ 0 <= e.2 ∧ e.1 + e.2 <= Z.of_nat (length code).

Lemma extents_spec code es l0 ok s :
  Forall (extent_in code) es → verdicts l0 ok s →
  ∃ l full, region_sweeps code es l full ∧ verdicts (l0 ++ l) (ok && full) (foldl (region_scan_extent code) s es).
Proof.
  intros Hes. revert l0 ok s. induction Hes as [|e es (Ha & Hr & Hl) _ IH]; intros l0 ok s Hv; simpl.
  - exists [], true. rewrite app_nil_r, andb_true_r. by split; [constructor|].
  - destruct (extent_spec code e l0 ok s) as (l & full & Hsw & Hv'); [done..|].
    destruct (IH _ _ _ Hv') as (l' & full' & Hsw' & Hv''). exists (l ++ l'), (full && full').
    rewrite app_assoc, andb_assoc. by split; [constructor|].
Qed.

(** C22: the gates are exact.  Sweeping the given extents, or the whole region, one
    instruction after the other, the replay is allowed exactly when all bytes
    decode, no instruction has a VEX or EVEX prefix, none is a [sysenter], and at
    most four read the clock, the random numbers or the processor's identity; the
    addresses of those are then all listed.  A region counts as pure exactly when
    nothing in it interacts with the system, and the vector state is captured
    whenever an instruction may use it or some byte was not decoded. *)
Theorem scan_gate_exact opens code extents
    (Hext : Forall (extent_in code) extents) :
  let s := region_scan opens code extents in
  ∃ l full, region_sweeps code (swept_extents code extents) l full ∧
    scan_replay_ok s = opens && full && forallb (λ x, negb (insn_is_vex_evex x.2)) l &&
                       forallb (λ x, carried x.2) l && (length (sites l) <=? 4)%nat ∧
    pure s = (negb opens || forallb (λ x, is_pure x.2) l) ∧
    touches_vec s = (negb opens || negb full || existsb (λ x, insn_touches_vec x.2) l) ∧
    (scan_replay_ok s = true → hwrec_off s = sites l).
Proof.
  assert (Forall (extent_in code) (swept_extents code extents)) as Hin.
  { destruct extents; [|done]. constructor; [|constructor]. split; simpl; lia. }
  destruct (extents_spec code _ [] true scan0 Hin verdicts0) as (l & full & Hsw & [Hp Hi Hr Hv _ _ Ho Hov]).
  exists l, full. split; [done|]. unfold region_scan. destruct opens; [|done]. simpl in *.
  set (out := foldl _ _ _) in *.
  assert (pure out = true → injectable out = true) as Himp.
  { rewrite Hp, Hi, !forallb_forall. intros Hall x Hx. specialize (Hall x Hx). pose proof (impurity_kind x.2) as Hk.
    unfold is_pure in Hall. destruct (insn_impurity x.2); [done|tauto]. }
  assert (hwrec_overflow out = true → pure out = false) as Hpo.
  { rewrite Hov, Hp. intros Hlt%Nat.ltb_lt. destruct (forallb _ l) eqn:E; [|done]. exfalso. rewrite forallb_forall in E.
    assert (sites l = []) as Es; [|by rewrite Es in Hlt; simpl in Hlt; lia].
    unfold sites. rewrite list_filter_none; [done|]. apply Forall_forall. intros x Hx%list_elem_of_In.
    specialize (E x Hx). pose proof (impurity_kind x.2) as Hk. unfold is_site, is_pure in *.
    destruct (insn_impurity x.2); [done|]. destruct Hk as (-> & _). by rewrite bool_decide_false. }
  unfold scan_replay_ok. rewrite Nat.leb_antisym, <-Hov, <-Hi, <-Hp, <-Hv. destruct (hwrec_overflow out) eqn:Eov; simpl.
  - rewrite (Hpo eq_refl). simpl. rewrite andb_false_r. done.
  - rewrite Hr. rewrite andb_true_r. split_and!; [|done..|].
    + destruct (pure out) eqn:E; [rewrite Himp by done|]; simpl;
        by destruct full, (forallb (λ x, negb (insn_is_vex_evex x.2)) l), (injectable out).
    + intros _. rewrite Ho. apply take_ge. symmetry in Hov. apply Nat.ltb_ge in Hov. done.
Qed.
End sweep.

(** ** Extents *)
(** An accepted list of extents is ascending, disjoint and inside the region,
    provided no sum wraps. *)
Lemma extents_ok code_len prev l :
  0 <= prev → Forall (λ e, 0 <= e.1 ∧ 0 <= e.2 ∧ e.1 + e.2 < 2 ^ 64) l → extents_loop code_len prev l = true →
  Forall (λ e, 0 < e.2 ∧ prev <= e.1 ∧ e.1 + e.2 <= code_len) l ∧
  StronglySorted (λ e e', e.1 + e.2 <= e'.1) l.
Proof.
  intros Hp Hl. revert prev Hp. induction Hl as [|[o n] l (Ho & Hn & Hs) _ IH]; intros prev Hp He.
  { by split; constructor. }
  simpl in *. destruct (_ || _) eqn:E in He; [done|]. rewrite u64_small in E, He by lia.
  apply orb_false_iff in E as [[E1%Z.eqb_neq E2%Z.ltb_ge]%orb_false_iff E3%Z.ltb_ge].
  destruct (IH (o + n)) as [Hall Hsort]; [lia|done|]. split.
  - constructor; [simpl; lia|]. eapply Forall_impl; [exact Hall|]. intros e He'. simpl in He'. lia.
  - constructor; [done|]. eapply Forall_impl; [exact Hall|]. intros e He'. simpl in *. lia.
Qed.

(** The end of an extent is computed in 64 bits: one whose length wraps it round
    is accepted although it ends far behind the code. *)
Theorem wrapped_extent_accepted : extents_loop 16 0 [(8, 2 ^ 64 - 4)] = true ∧ 16 < 8 + (2 ^ 64 - 4).
Proof. by split. Qed.

(** ** The table of undefined flags *)
(** A flag is never both undefined and defined, and only the six arithmetic flags
    are spoken of; a shift or rotation by nothing leaves all of them alone. *)
Theorem undef_flags_exact i gp :
  let '(undef, def) := dfb_undef_flags i gp in
  Z.land undef def = 0 ∧ Z.ldiff undef DFB_UNDEF_ARITH_ALL = 0 ∧ Z.ldiff def DFB_UNDEF_ARITH_ALL = 0 ∧
  (i_id i ∈ [X86_INS_SHL; X86_INS_SAL; X86_INS_SHR; X86_INS_SAR; X86_INS_ROL; X86_INS_ROR; X86_INS_RCL; X86_INS_RCR] →
   ∀ width, dfb_shift_rotate_count i gp = Some (0, width) → undef = 0 ∧ def = 0).
Proof.
  unfold dfb_undef_flags. destruct (i_id i) eqn:E.
  all: try (destruct (dfb_shift_rotate_count i gp) as [[count width]|];
    [destruct (Z.eqb_spec count 0) as [->|]; [|destruct (Z.eqb_spec count 1) as [->|]];
     try (destruct (width <=? count))|]).
  all: try (destruct (i_eflags i =? 0)).
  all: split_and!; [done..|]; try (intros Hin%list_elem_of_In; simpl in Hin; intuition discriminate).
  all: intros _ w Hw; by simplify_eq.
Qed.

(** Every instruction outside the table that Capstone says touches the flags
    counts as defining all of them, one that only tests them included. *)
Theorem flag_test_counts_as_definition i gp :
  i_id i = X86_INS_OTHER → i_eflags i ≠ 0 → dfb_undef_flags i gp = (0, DFB_UNDEF_ARITH_ALL).
Proof. intros E Hne. unfold dfb_undef_flags. rewrite E. by rewrite (proj2 (Z.eqb_neq _ _) Hne). Qed.

(** ** Witnesses *)
(** One-byte instructions: 1 touches no flag, 2 is an [and], 3 a [syscall], 4 an
    [rdtsc], 5 a conditional branch, 6 a [ret], 7 a [sysenter], 8 a jump; 197 is the
    prefix of a two-byte VEX instruction. *)
Definition toy_insn (id : insn_id) (bs : list Z) (eflags : Z) : cs_insn :=
  mk_insn id (Z.of_nat (length bs)) bs [] eflags.
Definition toy_iter (bs : list Z) : option cs_insn :=
  match bs with
  | 1 :: _ => Some (toy_insn X86_INS_OTHER [1] 0)
  | 2 :: _ => Some (toy_insn X86_INS_AND [2] 1)
  | 3 :: _ => Some (toy_insn X86_INS_SYSCALL [3] 0)
  | 4 :: _ => Some (toy_insn X86_INS_RDTSC [4] 0)
  | 5 :: _ => Some (toy_insn X86_INS_OTHER [5] 64)
  | 6 :: _ => Some (toy_insn X86_INS_OTHER [6] 0)
  | 7 :: _ => Some (toy_insn X86_INS_SYSENTER [7] 0)
  | 8 :: _ => Some (toy_insn X86_INS_OTHER [8] 0)
  | 197 :: x :: _ => Some (toy_insn X86_INS_OTHER [197; x] 0)
  | _ => None
  end.
#[local] Instance toy_disasm : Disasm := {| cs_disasm_iter bs _ := toy_iter bs; cs_regs_access _ := Some ([], []) |}.

Lemma toy_disasm_ok : disasm_ok.
Proof.
  intros bs a i. unfold cs_disasm_iter, toy_disasm, toy_iter.
  repeat case_match; try done; intros [= <-]; simpl; lia.
Qed.

(** An island between two extents is skipped; swept linearly, it stops the sweep. *)
Lemma scan_gate_exact_witness :
  scan_replay_ok (region_scan true [1; 4; 99; 3; 6] [(0, 2); (3, 2)]) = true ∧
  hwrec_off (region_scan true [1; 4; 99; 3; 6] [(0, 2); (3, 2)]) = [1] ∧
  scan_reason (region_scan true [1; 4; 99; 3; 6] []) = Some "decode"%string ∧
  ∃ l full, region_sweeps [1; 4; 99; 3; 6] [(0, 2); (3, 2)] l full.
Proof.
  split_and!; [reflexivity..|].
  destruct (scan_gate_exact toy_disasm_ok true [1; 4; 99; 3; 6] [(0, 2); (3, 2)]) as (l & full & Hl & _).
  { repeat constructor; simpl; lia. }
  by exists l, full.
Defined.
End BsScan.
