(* ===== verification/BsReplay.v ===== *)
(** The block-step value producer ([src/dataflow_blockstep.c]): one capture core
    over two sources of values, the stepped tracee and the emulator that replays
    the blocks between its stops, with the canary that compares the two at every
    stop.  Unicorn is not in the repository: what the file asks of it is the class
    [Unicorn]. *)
From stdpp Require Import strings.
From S2P Require Import Prelude Bytes Grow RegSlice ValTrace DfTarget DfStep BsScan.

Module BsReplay.
Import RegSlice ValTrace DfTarget BsScan.

Definition DFB_STOP_BACKSTOP : Z := 2 ^ 20.
Definition EFLAGS_STEP_BITS : Z := 0x00010100.
Definition EFLAGS_ARITH_MASK : Z := 0x00000CD5.
Definition MXCSR_DEFAULT : Z := 0x1F80.
Definition XFEAT_SSE : Z := 1.
Definition XFEAT_YMM : Z := 2.
Definition XFEAT_ZMMH : Z := 6.
Definition XFEAT_HI16 : Z := 7.
Definition XSAVE_MXCSR_OFF : Z := 24.
Definition XSAVE_XMM_OFF : Z := 160.
Definition XSAVE_XSTATE_BV : Z := 512.
Definition DFB_XSTATE_MAX : Z := 4096.

(** ** Snapshots *)
(** [dfb_vecstate_t]: the register images, MXCSR, [width], [nregs], [valid]. *)
Record vecstate := mk_vec { vz : list (list Z); v_mxcsr : Z; v_width : Z; v_nregs : Z; v_valid : bool }.
Definition vec0 : vecstate := mk_vec (replicate 32 (replicate 64 0)) 0 0 0 false.
(** [dfb_snap_t] *)
Record snap := mk_snap { gp : user_regs; vec : vecstate }.

(** [dfb_xlayout_t] *)
Record xlayout := mk_xlayout { x_ok : bool; ymm_off : Z; zmmh_off : Z; hi16_off : Z; bufsz : Z; x_width : Z; x_nregs : Z }.
Definition xlayout0 : xlayout := mk_xlayout false 0 0 0 0 0 0.

(** [cpuid leaf sub] answers [(eax, ebx, ecx, edx)]. *)
Definition dfb_xlayout (cpuid_max : Z) (cpuid : Z → Z → option (Z * Z * Z * Z)) : xlayout :=
  if cpuid_max <? 13 then xlayout0
  else match cpuid 13 0 with
  | None => xlayout0
  | Some (a, b, _, d) =>
      let xcr0 := Z.lor (Z.shiftl d 32) a in
      if negb (Z.testbit xcr0 XFEAT_SSE) then xlayout0
      else
        let sz := if b =? 0 then 1024 else b in
        let sz := if DFB_XSTATE_MAX <? sz then DFB_XSTATE_MAX else sz in
        let ymm := if Z.testbit xcr0 XFEAT_YMM
                   then (λ '(_, b, _, _), (b, 32)) <$> cpuid 13 XFEAT_YMM else Some (0, 16) in
        match ymm with
        | None => mk_xlayout false 0 0 0 sz 16 16
        | Some (yo, w) =>
            if Z.testbit xcr0 XFEAT_ZMMH && Z.testbit xcr0 XFEAT_HI16 then
              match cpuid 13 XFEAT_ZMMH with
              | None => mk_xlayout false yo 0 0 sz w 16
              | Some (_, zo, _, _) =>
                  match cpuid 13 XFEAT_HI16 with
                  | None => mk_xlayout false yo zo 0 sz w 16
                  | Some (_, ho, _, _) => mk_xlayout true yo zo ho sz 64 32
                  end
              end
            else mk_xlayout true yo 0 0 sz w 16
        end
  end.

Definition fits (off n sz : Z) : bool := negb (off =? 0) && (off + n <=? sz).

(** The delivered image [xs] is [iov_len] bytes long. *)
Definition img_reg (L : xlayout) (xs : list Z) (bv : Z) (i : nat) : list Z :=
  let got := Z.of_nat (length xs) in
  let k := Z.of_nat i in
  let piece (b : bool) (o n : Z) := if b then part xs o n else replicate (Z.to_nat n) 0 in
  if (i <? 16)%nat then
    piece (Z.testbit bv XFEAT_SSE && fits XSAVE_XMM_OFF 256 got) (XSAVE_XMM_OFF + k * 16) 16 ++
    piece ((32 <=? x_width L) && Z.testbit bv XFEAT_YMM && fits (ymm_off L) 256 got) (ymm_off L + k * 16) 16 ++
    piece ((64 <=? x_width L) && Z.testbit bv XFEAT_ZMMH && fits (zmmh_off L) 512 got) (zmmh_off L + k * 32) 32
  else
    piece ((64 <=? x_width L) && Z.testbit bv XFEAT_HI16 && fits (hi16_off L) 1024 got) (hi16_off L + (k - 16) * 64) 64.
Definition xstate_read (L : xlayout) (t : target) : vecstate :=
  if negb (x_ok L) then vec0
  else match t_xs t with
  | None => vec0
  | Some xs =>
      let got := Z.of_nat (length xs) in
      if got <? XSAVE_XSTATE_BV + 8 then vec0
      else
        let bv := le (part xs XSAVE_XSTATE_BV 8) in
        let mx := if fits XSAVE_MXCSR_OFF 4 got then le (part xs XSAVE_MXCSR_OFF 4) else MXCSR_DEFAULT in
        mk_vec (img_reg L xs bv <$> seq 0 32) mx (x_width L) (x_nregs L) true
  end.

(** ** Registers and addresses *)
(** Any bits of a 64-bit word but those of [m]. *)
Definition without (v m : Z) : Z := Z.ldiff v m.

Definition gp_value (r : user_regs) (reg : Z) : option Z :=
  if case_of reg [X86_REG_EFLAGS] then Some (without (eflags r) EFLAGS_STEP_BITS) else DfTarget.gp_value r reg.

Definition resolve_ea (regs : user_regs) (r : at_val_rec) (insn_len : Z) : Z :=
  let ea := u64 (disp r) in
  let ea := if reg r =? X86_REG_GS then ea +64 gs_base regs
            else if reg r =? X86_REG_FS then ea +64 fs_base regs else ea in
  let ea := if base r =? 0 then ea
            else match gp_value regs (base r) with
                 | Some bv => let ea := ea +64 bv in
                              if base r =? X86_REG_RIP then ea +64 insn_len else ea
                 | None => ea
                 end in
  if (index r =? 0) || (scale r =? 0) then ea
  else match gp_value regs (index r) with
       | Some iv => ea +64 (iv *64 scale r)
       | None => ea
       end.

(** The emulator's registers the file names. *)
Inductive uc_reg :=
  | UC_RAX | UC_RBX | UC_RCX | UC_RDX | UC_RSI | UC_RDI | UC_RBP | UC_RSP | UC_R8 | UC_R9 | UC_R10 | UC_R11
  | UC_R12 | UC_R13 | UC_R14 | UC_R15 | UC_RIP | UC_EFLAGS | UC_FS_BASE | UC_GS_BASE.
#[export] Instance uc_reg_eq_dec : EqDecision uc_reg.
Proof. solve_decision. Defined.

Definition uc_gp_container (reg : Z) : option uc_reg :=
  if case_of reg [X86_REG_RAX; X86_REG_EAX; X86_REG_AX; X86_REG_AL; X86_REG_AH] then Some UC_RAX
  else if case_of reg [X86_REG_RBX; X86_REG_EBX; X86_REG_BX; X86_REG_BL; X86_REG_BH] then Some UC_RBX
  else if case_of reg [X86_REG_RCX; X86_REG_ECX; X86_REG_CX; X86_REG_CL; X86_REG_CH] then Some UC_RCX
  else if case_of reg [X86_REG_RDX; X86_REG_EDX; X86_REG_DX; X86_REG_DL; X86_REG_DH] then Some UC_RDX
  else if case_of reg [X86_REG_RSI; X86_REG_ESI; X86_REG_SI; X86_REG_SIL] then Some UC_RSI
  else if case_of reg [X86_REG_RDI; X86_REG_EDI; X86_REG_DI; X86_REG_DIL] then Some UC_RDI
  else if case_of reg [X86_REG_RBP; X86_REG_EBP; X86_REG_BP; X86_REG_BPL] then Some UC_RBP
  else if case_of reg [X86_REG_RSP; X86_REG_ESP; X86_REG_SP; X86_REG_SPL] then Some UC_RSP
  else if case_of reg [X86_REG_R8; X86_REG_R8D; X86_REG_R8W; X86_REG_R8B] then Some UC_R8
  else if case_of reg [X86_REG_R9; X86_REG_R9D; X86_REG_R9W; X86_REG_R9B] then Some UC_R9
  else if case_of reg [X86_REG_R10; X86_REG_R10D; X86_REG_R10W; X86_REG_R10B] then Some UC_R10
  else if case_of reg [X86_REG_R11; X86_REG_R11D; X86_REG_R11W; X86_REG_R11B] then Some UC_R11
  else if case_of reg [X86_REG_R12; X86_REG_R12D; X86_REG_R12W; X86_REG_R12B] then Some UC_R12
  else if case_of reg [X86_REG_R13; X86_REG_R13D; X86_REG_R13W; X86_REG_R13B] then Some UC_R13
  else if case_of reg [X86_REG_R14; X86_REG_R14D; X86_REG_R14W; X86_REG_R14B] then Some UC_R14
  else if case_of reg [X86_REG_R15; X86_REG_R15D; X86_REG_R15W; X86_REG_R15B] then Some UC_R15
  else if case_of reg [X86_REG_EFLAGS] then Some UC_EFLAGS
  else None.

(** ** Unicorn

    [None] is an error; a failed write or mapping leaves the engine as it was. *)
Class Unicorn := {
  engine : Type;
  uc_open : option engine;
  uc_reg_read : engine → uc_reg → option Z;
  uc_reg_write : engine → uc_reg → Z → engine;
  (** The vector register of an index, at a width of 16, 32 or 64 bytes. *)
  uc_vec_read : engine → Z → nat → option (list Z);
  uc_vec_write : engine → Z → nat → list Z → option engine;
  uc_mxcsr_read : engine → option Z;
  uc_mxcsr_write : engine → Z → option engine;
  (** Address, size and whether it may be written. *)
  uc_mem_map : engine → Z → Z → bool → option engine;
  uc_mem_read : engine → Z → nat → option (list Z);
  uc_mem_write : engine → Z → list Z → engine;
  (** One instruction at an address. *)
  uc_emu_start : engine → Z → option engine;
}.

Definition uc_get_regs `{Unicorn} (e : engine) : user_regs :=
  let rd x := default 0 (uc_reg_read e x) in
  mk_regs (rd UC_RAX) (rd UC_RBX) (rd UC_RCX) (rd UC_RDX) (rd UC_RSI) (rd UC_RDI) (rd UC_RBP) (rd UC_RSP)
    (rd UC_R8) (rd UC_R9) (rd UC_R10) (rd UC_R11) (rd UC_R12) (rd UC_R13) (rd UC_R14) (rd UC_R15)
    (rd UC_RIP) (rd UC_EFLAGS) (rd UC_FS_BASE) (rd UC_GS_BASE).
(** The field of a register. *)
Definition field (r : user_regs) (x : uc_reg) : Z :=
  match x with
  | UC_RAX => rax r | UC_RBX => rbx r | UC_RCX => rcx r | UC_RDX => rdx r | UC_RSI => rsi r | UC_RDI => rdi r
  | UC_RBP => rbp r | UC_RSP => rsp r | UC_R8 => r8 r | UC_R9 => r9 r | UC_R10 => r10 r | UC_R11 => r11 r
  | UC_R12 => r12 r | UC_R13 => r13 r | UC_R14 => r14 r | UC_R15 => r15 r | UC_RIP => rip r
  | UC_EFLAGS => eflags r | UC_FS_BASE => fs_base r | UC_GS_BASE => gs_base r
  end.
Definition uc_regs : list uc_reg :=
  [UC_RAX; UC_RBX; UC_RCX; UC_RDX; UC_RSI; UC_RDI; UC_RBP; UC_RSP; UC_R8; UC_R9; UC_R10; UC_R11; UC_R12;
   UC_R13; UC_R14; UC_R15; UC_RIP; UC_EFLAGS; UC_FS_BASE; UC_GS_BASE].
Definition uc_set_regs `{Unicorn} (e : engine) (r : user_regs) : engine :=
  foldl (λ e x, uc_reg_write e x (field r x)) e uc_regs.

(** The width the engine holds, by reading back what was written. *)
Fixpoint probe_widths `{Unicorn} (e : engine) (cached : Z) (ws : list Z) : Z :=
  match ws with
  | [] => cached
  | w :: ws =>
      let pattern := (λ k, Z.of_nat k + 1) <$> seq 0 (Z.to_nat w) in
      match uc_vec_write e w 0 pattern with
      | None => cached
      | Some e => match uc_vec_read e w 0 with
                  | None => cached
                  | Some back => if bool_decide (back = pattern) then probe_widths e w ws else cached
                  end
      end
  end.
Definition uc_vec_width_probe `{Unicorn} : Z :=
  match uc_open with None => 0 | Some e => probe_widths e 0 [16; 32; 64] end.

(** The engine, the registers proven to hold their seed, [*mxcsr_ok]. *)
Definition seed_xmm `{Unicorn} (vs : vecstate) (st : engine * Z) (i : nat) : engine * Z :=
  let '(e, n) := st in
  let img := take 16 (nth i (vz vs) []) in
  match uc_vec_write e 16 i img with
  | None => (e, n)
  | Some e => match uc_vec_read e 16 i with
              | Some back => (e, if bool_decide (back = img) then n + 1 else n)
              | None => (e, n)
              end
  end.
Definition uc_seed_vec `{Unicorn} (e : engine) (vs : vecstate) (seed_mxcsr : bool) : engine * Z * bool :=
  if negb (v_valid vs) then (e, 0, false)
  else
    let '(e, n) := foldl (seed_xmm vs) (e, 0) (seq 0 (Z.to_nat (Z.min 16 (v_nregs vs)))) in
    if seed_mxcsr then
      match uc_mxcsr_write e (v_mxcsr vs) with
      | None => (e, n, false)
      | Some e => (e, n, match uc_mxcsr_read e with Some b => b =? v_mxcsr vs | None => false end)
      end
    else (e, n, false).

Definition uc_get_vec `{Unicorn} (e : engine) : vecstate :=
  mk_vec (((λ i, default (replicate 16 0) (uc_vec_read e 16 i) ++ replicate 48 0) <$> seq 0 16) ++
          replicate 16 (replicate 64 0))
    (default MXCSR_DEFAULT (uc_mxcsr_read e)) 16 16 true.

(** ** The canary *)
Definition vec_coherent (uc real : vecstate) : bool :=
  if negb (v_valid uc) || negb (v_valid real) then true
  else
    forallb (λ i, bool_decide (take 16 (nth i (vz uc) []) = take 16 (nth i (vz real) [])))
      (seq 0 (Z.to_nat (Z.min 16 (v_nregs real)))) &&
    (Z.ldiff (v_mxcsr uc) 63 =? Z.ldiff (v_mxcsr real) 63).

Definition canary_regs : list uc_reg :=
  [UC_RAX; UC_RBX; UC_RCX; UC_RDX; UC_RSI; UC_RDI; UC_RBP; UC_RSP; UC_R8; UC_R9; UC_R10; UC_R11; UC_R12;
   UC_R13; UC_R14; UC_R15; UC_RIP].
Definition regs_coherent (uc real : user_regs) (undef_mask : Z) : bool :=
  forallb (λ x, field uc x =? field real x) canary_regs &&
  (let mask := without EFLAGS_ARITH_MASK undef_mask in Z.land (eflags uc) mask =? Z.land (eflags real) mask).

(** ** The capture context *)
(** [cap_ctx]: the sink, the open step, its impurity and flag classes, the flags
    left undefined in the block and the two counters. *)
Record ctx := mk_ctx {
  vt : asmtest_valtrace; have_cur : bool; cur_off : Z; cur : list at_val_rec; cur_cap : Z;
  cur_imp : dfb_imp; cur_undef : Z; cur_defined : Z; undef_acc : Z; injected : Z; hw_hits : Z;
}.
Definition ctx_of (v : asmtest_valtrace) : ctx := mk_ctx v false 0 [] 0 DFB_IMP_NONE 0 0 0 0 0.

Definition set_vt (c : ctx) (v : asmtest_valtrace) : ctx :=
  mk_ctx v (have_cur c) (cur_off c) (cur c) (cur_cap c) (cur_imp c) (cur_undef c) (cur_defined c) (undef_acc c)
    (injected c) (hw_hits c).
Definition flag (c : ctx) : ctx := set_vt c (DfStep.vt_flag (vt c)).
Definition set_acc (c : ctx) (a : Z) : ctx :=
  mk_ctx (vt c) (have_cur c) (cur_off c) (cur c) (cur_cap c) (cur_imp c) (cur_undef c) (cur_defined c) a
    (injected c) (hw_hits c).
Definition count_injected (c : ctx) : ctx :=
  mk_ctx (vt c) (have_cur c) (cur_off c) (cur c) (cur_cap c) (cur_imp c) (cur_undef c) (cur_defined c) (undef_acc c)
    (injected c + 1) (hw_hits c).
Definition count_hit (c : ctx) : ctx :=
  mk_ctx (vt c) (have_cur c) (cur_off c) (cur c) (cur_cap c) (cur_imp c) (cur_undef c) (cur_defined c) (undef_acc c)
    (injected c) (hw_hits c + 1).
Definition set_cur (c : ctx) (l : list at_val_rec) (cap : Z) : ctx :=
  mk_ctx (vt c) (have_cur c) (cur_off c) l cap (cur_imp c) (cur_undef c) (cur_defined c) (undef_acc c)
    (injected c) (hw_hits c).
Definition close_cur (c : ctx) (l : list at_val_rec) : ctx :=
  mk_ctx (vt c) false (cur_off c) l (cur_cap c) (cur_imp c) (cur_undef c) (cur_defined c) (undef_acc c)
    (injected c) (hw_hits c).

(** What is fixed while a capture runs: the code and its address, whether vector
    state is captured, whether the second decoder opened, the test hook. *)
Record config := mk_config { c_code : list Z; c_base : Z; want_vec : bool; cs_ok : bool; no_undef_mask : bool }.

(** [mem_reader_fn]: the [n] bytes at an address, or a failure. *)
Definition reader := Z → nat → option (list Z).
Definition mr_tracee (t : target) : reader := λ a n, if t_pvm t then mem_bytes (t_mem t) a n else None.

(** ** Values *)
Definition set_wide (r : at_val_rec) (off : Z) : at_val_rec :=
  mk_rec (kind r) (reg r) (base r) (index r) (scale r) (disp r) (addr r) (size r)
    (is_write r) true true (u32 off) 0 (rstep r).
Definition stash_wide_value (v : asmtest_valtrace) (r : at_val_rec) (bs : list Z) : asmtest_valtrace * at_val_rec :=
  match asmtest_valtrace_stash_wide (Some v) bs with
  | (off, Some v') => if off =? SIZE_MAX then (v', r) else (v', set_wide r off)
  | (_, None) => (v, r)
  end.

Definition fill_mem_value (mr : reader) (v : asmtest_valtrace) (r : at_val_rec) : asmtest_valtrace * at_val_rec :=
  let sz := size r in
  if (sz =? 0) || (64 <? sz) then (v, r)
  else match mr (addr r) (Z.to_nat sz) with
       | None => (v, r)
       | Some buf => if sz <=? 8 then (v, DfStep.set_value r (le buf)) else stash_wide_value v r buf
       end.

Definition fill_vec_value (s : snap) (v : asmtest_valtrace) (r : at_val_rec) : asmtest_valtrace * at_val_rec :=
  match vec_reg_info (reg r) with
  | None => (v, r)
  | Some (idx, w) =>
      let r := DfStep.set_size r w in
      if negb (v_valid (vec s)) || (v_nregs (vec s) <=? idx) || (v_width (vec s) <? w) then (v, r)
      else
        let bs := take (Z.to_nat w) (nth (Z.to_nat idx) (vz (vec s)) []) in
        if w <=? 8 then (v, DfStep.set_value r (le bs)) else stash_wide_value v r bs
  end.

Definition fill_reg (s : snap) (mask : Z) (v : asmtest_valtrace) (r : at_val_rec) : asmtest_valtrace * at_val_rec :=
  match gp_value (gp s) (reg r) with
  | Some x => (v, DfStep.set_value r (if reg r =? X86_REG_EFLAGS then without x mask else x))
  | None => fill_vec_value s v r
  end.

Section capture.
Context `{Disasm} (grant : allocator) (cfg : config).
Context (operands : list Z → Z → Z * list at_val_rec * list at_val_rec).

(** The class, the undefined and the defined flags of the instruction at [off]. *)
Definition dfb_classify_at (off : Z) (regs : option user_regs) : dfb_imp * Z * Z :=
  if negb (cs_ok cfg) || (Z.of_nat (length (c_code cfg)) <=? off) then (DFB_IMP_OTHER, 0, 0)
  else match cs_disasm_iter (drop (Z.to_nat off) (c_code cfg)) off with
       | None => (DFB_IMP_OTHER, 0, 0)
       | Some i => let '(u, d) := if no_undef_mask cfg then (0, 0) else dfb_undef_flags i regs in
                   (dfb_impurity_kind i, u, d)
       end.

(** A deferred write, from the state after the instruction. *)
Definition fill_write (mr : reader) (s : snap) (undef : Z) (st : asmtest_valtrace * list at_val_rec) (r : at_val_rec) :
    asmtest_valtrace * list at_val_rec :=
  let '(v, acc) := st in
  if negb (is_write r) || value_valid r then (v, acc ++ [r])
  else
    let '(v, r) := match kind r with AT_LOC_REG => fill_reg s undef v r | _ => fill_mem_value mr v r end in
    (v, acc ++ [r]).
Definition finalize_step (mr : reader) (s : snap) (c : ctx) : ctx :=
  let '(v, l) := foldl (fill_write mr s (cur_undef c)) (vt c, []) (cur c) in
  close_cur (set_vt c (append v (cur_off c) l)) [].

Definition push_cur (c : ctx) (r : at_val_rec) : ctx :=
  let '(l, cap) := DfStep.recbuf_push grant (cur c) (cur_cap c) r in set_cur c l cap.

(** A read, from the state before the instruction. *)
Definition open_read (mr : reader) (s : snap) (len : Z) (c : ctx) (r : at_val_rec) : ctx :=
  let '(v, r) := match kind r with
                 | AT_LOC_REG => fill_reg s 0 (vt c) r
                 | _ => fill_mem_value mr (vt c) (with_addr r (resolve_ea (gp s) r len))
                 end in
  push_cur (set_vt c v) r.
Definition open_write (s : snap) (len : Z) (c : ctx) (r : at_val_rec) : ctx :=
  let r := DfStep.no_value r in
  push_cur c (match kind r with AT_LOC_REG => r | _ => with_addr r (resolve_ea (gp s) r len) end).

(** The registers the kernel writes, as far as they fit in [wr[64]]. *)
Definition sc_write (reg : Z) : at_val_rec := mk_rec AT_LOC_REG reg 0 0 0 0 0 8 true false false 0 0 0.
Definition sc_writes (imp : dfb_imp) (nw : nat) : list at_val_rec :=
  let l := match imp with
           | DFB_IMP_SYSCALL => sc_write <$> [X86_REG_RAX; X86_REG_RCX; X86_REG_R11]
           | DFB_IMP_INT80 => [sc_write X86_REG_RAX]
           | _ => []
           end in
  take (64 - nw) l.

Definition open_step (mr : reader) (s : snap) (c : ctx) : ctx * Z :=
  let off := rip (gp s) -64 c_base cfg in
  let '(imp, u, d) := dfb_classify_at off (Some (gp s)) in
  let c := mk_ctx (vt c) true off [] (cur_cap c) imp u d (undef_acc c) (injected c) (hw_hits c) in
  let '(len, rd, wr) := operands (c_code cfg) off in
  let wr := wr ++ sc_writes imp (length wr) in
  (foldl (open_write s len) (foldl (open_read mr s len) c rd) wr, len).

Definition finalize_open (mr : reader) (s : snap) (c : ctx) : ctx := if have_cur c then finalize_step mr s c else c.
Definition capture_at (mr : reader) (s : snap) (c : ctx) : ctx * Z := open_step mr s (finalize_open mr s c).

(** ** The tracee

    One event per answer of the kernel: the request fails; [waitpid] is
    interrupted, fails, reports the end of the tracee, something that is no stop,
    a stop for another signal, or a trap, with the tracee at the stop and its
    DR6. *)
Inductive event := EvReqFail | EvWaitIntr | EvWaitFail | EvGone | EvNoStop | EvSignal | EvTrap (t : target) (dr6 : Z).

Definition in_region (rbase rend pc : Z) : bool := (rbase <=? pc) && (pc <? rend).
Definition snap_of (L : xlayout) (wanted : bool) (regs : user_regs) (t : target) : snap :=
  mk_snap regs (if wanted then xstate_read L t else vec0).

(** How a capture ended: the code, the context, [*result], [*stops] and
    [*entry_rsp]; the last two vector counters belong to the replay. *)
Record outcome := mk_outcome {
  o_rc : Z; o_ctx : ctx; o_result : option Z; o_stops : Z; o_rsp : option Z; o_seeded : Z; o_mxcsr : bool;
}.

(** The locals of the single-step loop. *)
Record sstate := mk_sstate { s_ctx : ctx; s_entered : bool; s_nstop : Z; s_guard : Z; s_rsp : option Z }.

Section single.
Context (L : xlayout) (rbase rend max_insns : Z).

Definition s_end (st : sstate) (rc : Z) (c : ctx) (result : option Z) : outcome :=
  mk_outcome rc c result (s_nstop st) (s_rsp st) 0 false.

(** One trap: the next state or the end. *)
Definition single_stop (st : sstate) (t : target) : sstate + outcome :=
  let st := mk_sstate (s_ctx st) (s_entered st) (s_nstop st) (s_guard st + 1) (s_rsp st) in
  if DFB_STOP_BACKSTOP <? s_guard st then inr (s_end st DF_BLOCKSTEP_ETRACE (flag (s_ctx st)) None)
  else match t_regs t with
  | None => inr (s_end st DF_BLOCKSTEP_ETRACE (s_ctx st) None)
  | Some regs =>
      let inr_ := in_region rbase rend (rip regs) in
      let s := snap_of L (want_vec cfg && (inr_ || s_entered st)) regs t in
      let mr := mr_tracee t in
      if inr_ then
        let c := (capture_at mr s (s_ctx st)).1 in
        let st := mk_sstate c true (s_nstop st + 1) (s_guard st)
                    (if s_entered st then s_rsp st else Some (rsp regs)) in
        if negb (max_insns =? 0) && (max_insns <=? s_nstop st) then
          let c := if have_cur c then close_cur (set_vt c (append (vt c) (cur_off c) (cur c))) (cur c) else c in
          inr (s_end st DF_BLOCKSTEP_FAULT (flag c) None)
        else inl st
      else if s_entered st then
        inr (s_end st DF_BLOCKSTEP_OK (finalize_open mr s (s_ctx st)) (Some (rax regs)))
      else inl st
  end.

(** [None]: the script ends before the loop does. *)
Fixpoint single_loop (st : sstate) (evs : list event) : option outcome :=
  match evs with
  | [] => None
  | EvReqFail :: _ | EvWaitFail :: _ | EvSignal :: _ => Some (s_end st DF_BLOCKSTEP_ETRACE (s_ctx st) None)
  | EvWaitIntr :: evs | EvNoStop :: evs => single_loop st evs
  | EvGone :: _ =>
      let c := if have_cur (s_ctx st) then flag (s_ctx st) else s_ctx st in
      Some (s_end st (if s_entered st then DF_BLOCKSTEP_FAULT else DF_BLOCKSTEP_ETRACE) c None)
  | EvTrap t _ :: evs => match single_stop st t with inl st => single_loop st evs | inr o => Some o end
  end.
Definition capture_singlestep (c : ctx) (evs : list event) : option outcome :=
  single_loop (mk_sstate c false 0 0 None) evs.
End single.

(** ** Breakpoint registers

    The eight debug registers of the tracee; [poke i v] is the kernel's answer to
    a [PTRACE_POKEUSER]. *)
Definition poke_dr (poke : nat → Z → bool) (drs : list Z) (i : nat) (v : Z) : list Z * bool :=
  if poke i v then (<[i := v]> drs, true) else (drs, false).

(** The registers and [*dr7]. *)
Definition dfb_arm_hw_bp (poke : nat → Z → bool) (drs : list Z) (dr7 : Z) (slot : nat) (addr : Z) : list Z * Z :=
  if (3 <? slot)%nat then (drs, dr7)
  else
    let '(drs, ok) := poke_dr poke drs slot addr in
    if ok then
      let dr7 := Z.lor dr7 (Z.shiftl 1 (2 * Z.of_nat slot)) in
      ((poke_dr poke drs 7 dr7).1, dr7)
    else (drs, dr7).
Fixpoint arm_sites (poke : nat → Z → bool) (rbase : Z) (slot : nat) (offs : list Z) (drs : list Z) (dr7 : Z) : list Z :=
  match offs with
  | [] => drs
  | o :: offs =>
      if (slot <? 4)%nat then
        let '(drs, dr7) := dfb_arm_hw_bp poke drs dr7 slot (rbase +64 o) in arm_sites poke rbase (S slot) offs drs dr7
      else drs
  end.
Definition dfb_clear_hw_bps (poke : nat → Z → bool) (drs : list Z) : list Z :=
  foldl (λ d i, (poke_dr poke d i 0).1) drs [7; 0; 1; 2; 3; 6]%nat.

(** ** The replay *)
(** The options that the replay reads. *)
Record options := mk_options {
  max_insns : Z; force_singlestep : bool; inject_divergence : bool; inject_block : Z; region_off : Z;
  no_vec_seed : bool; no_mxcsr_seed : bool; no_vec_canary : bool; force_replay : bool; stack_hi_pad : Z;
  no_syscall_inject : bool; o_no_undef_mask : bool; inject_flag_bit : Z; no_hw_record : bool;
  o_extents : list (Z * Z);
}.
Definition options0 : options :=
  mk_options 0 false false (-1) 0 false false false false 0 false false 0 false [].

Section replay.
Context `{Unicorn} (L : xlayout).

Definition mr_uc (e : engine) : reader := uc_mem_read e.
Definition uc_snap (e : engine) : snap := mk_snap (uc_get_regs e) (if want_vec cfg then uc_get_vec e else vec0).

(** The recorded effect of a system call, and of a site that was single-stepped. *)
Definition inject_syscall (imp : dfb_imp) (e : engine) (next : user_regs) (pc' : Z) : engine :=
  let e := uc_reg_write e UC_RAX (rax next) in
  let e := match imp with
           | DFB_IMP_SYSCALL => uc_reg_write (uc_reg_write e UC_RCX (rcx next)) UC_R11 (r11 next)
           | _ => e
           end in
  uc_reg_write e UC_RIP pc'.
Definition inject_rec (next : user_regs) (e : engine) (r : at_val_rec) : engine :=
  if negb (is_write r) || negb (bool_decide (kind r = AT_LOC_REG)) then e
  else match uc_gp_container (reg r), gp_value next (reg r) with
       | Some x, Some v => uc_reg_write e x v
       | _, _ => e
       end.
Definition inject_site (l : list at_val_rec) (e : engine) (next : user_regs) (pc' : Z) : engine :=
  uc_reg_write (foldl (inject_rec next) e l) UC_RIP pc'.

(** One round of the loop of [step_block]: go on, or the return value. *)
Definition block_round (pc_next : Z) (next : user_regs) (no_inject : bool) (c : ctx) (e : engine) :
    (ctx * engine) + (Z * ctx * engine) :=
  let s := uc_snap e in
  let pc := rip (gp s) in
  let '(c, len) := capture_at (mr_uc e) s c in
  if len =? 0 then inr (-1, c, e)
  else
    let c := set_acc c (Z.lor (Z.ldiff (undef_acc c) (cur_defined c)) (cur_undef c)) in
    let at_next := pc +64 len =? pc_next in
    match cur_imp c with
    | DFB_IMP_SYSCALL | DFB_IMP_INT80 =>
        if negb at_next || no_inject then inr (-1, c, e)
        else inr (0, count_injected c, inject_syscall (cur_imp c) e next (pc +64 len))
    | DFB_IMP_HWREC =>
        if negb at_next then inr (-1, c, e)
        else inr (0, count_injected c, inject_site (cur c) e next (pc +64 len))
    | DFB_IMP_OTHER => inr (-1, c, e)
    | DFB_IMP_NONE =>
        match uc_emu_start e pc with
        | None => inr (-1, c, e)
        | Some e =>
            let pc' := default 0 (uc_reg_read e UC_RIP) in
            if pc' =? pc +64 len then inl (c, e)
            else inr ((if pc' =? pc_next then 0 else 1), c, e)
        end
    end.
Fixpoint block_rounds (fuel : nat) (pc_next : Z) (next : user_regs) (no_inject : bool) (c : ctx) (e : engine) :
    Z * ctx * engine :=
  match fuel with
  | O => (-1, c, e)
  | S fuel => match block_round pc_next next no_inject c e with
              | inl (c, e) => block_rounds fuel pc_next next no_inject c e
              | inr r => r
              end
  end.
Definition step_block (c : ctx) (e : engine) (next : user_regs) (no_inject : bool) : Z * ctx * engine :=
  block_rounds (length (c_code cfg) + 5) (rip next) next no_inject c e.

(** The window of the tracee's stack, page by page; what is not mapped is zero. *)
Definition PAGE : Z := 4096.
Definition window_page (t : target) (a : Z) : list Z :=
  default (replicate (Z.to_nat PAGE) 0) (mr_tracee t a (Z.to_nat PAGE)).
Definition mr_tracee_window (t : target) (a : Z) (pages : nat) : list Z :=
  concat ((λ i, window_page t (a +64 PAGE * Z.of_nat i)) <$> seq 0 pages).

Section blocks.
(** The locals of the block loop; [b_win] is the window snapshot. *)
Record bstate := mk_bstate {
  b_ctx : ctx; b_eng : engine; b_win : list Z; b_cur : snap; b_nstop : Z; b_idx : Z; b_seeded : Z; b_mxcsr : bool;
}.

Context (o : options) (rbase rend win_base : Z) (win_pages : nat) (nhwrec : nat) (inject : Z) (entry_rsp : Z).

Definition b_end (st : bstate) (rc : Z) (c : ctx) (result : option Z) : outcome :=
  mk_outcome rc c result (b_nstop st) (Some entry_rsp) (b_seeded st) (b_mxcsr st).
Definition b_lost (st : bstate) : outcome := b_end st DF_BLOCKSTEP_ETRACE (b_ctx st) None.
Definition b_fault (st : bstate) (c : ctx) : outcome := b_end st DF_BLOCKSTEP_FAULT (flag c) None.

(** The engine put at the block's real start. *)
Definition seed_block (st : bstate) (e : engine) : engine * Z * bool :=
  let e := uc_mem_write (uc_set_regs e (gp (b_cur st))) win_base (b_win st) in
  let '(e, n, mx) := if want_vec cfg && negb (no_vec_seed o)
                     then let '(e, n, mx) := uc_seed_vec e (vec (b_cur st)) (negb (no_mxcsr_seed o)) in
                          (e, Z.max n (b_seeded st), mx)
                     else (e, b_seeded st, b_mxcsr st) in
  (if (0 <=? inject) && (b_idx st =? inject) then uc_reg_write e UC_RAX (rax (gp (b_cur st)) +64 1) else e, n, mx).

(** One block, its real end being the stop [t] with the registers [regs]. *)
Definition block_stop (st : bstate) (t : target) (regs : user_regs) : bstate + outcome :=
  let inside := in_region rbase rend (rip regs) in
  let s_next := snap_of L (want_vec cfg) regs t in
  let e := if inside then b_eng st
           else default (b_eng st) (uc_mem_map (b_eng st) (rip regs - rip regs mod PAGE) PAGE false) in
  let '(e, n, mx) := seed_block st e in
  let st := mk_bstate (b_ctx st) e (b_win st) (b_cur st) (b_nstop st) (b_idx st) n mx in
  let '(brc, c, e) := step_block (set_acc (b_ctx st) 0) e regs (no_syscall_inject o) in
  if brc <? 0 then inr (b_fault st c)
  else
    let r := uc_get_regs e in
    let uv := if want_vec cfg then uc_get_vec e else vec0 in
    let r := if inject_flag_bit o =? 0 then r
             else mk_regs (rax r) (rbx r) (rcx r) (rdx r) (rsi r) (rdi r) (rbp r) (rsp r) (r8 r) (r9 r) (r10 r)
                    (r11 r) (r12 r) (r13 r) (r14 r) (r15 r) (rip r) (Z.lxor (eflags r) (inject_flag_bit o))
                    (fs_base r) (gs_base r) in
    if (brc =? 1) || negb (regs_coherent r regs (undef_acc c)) ||
       (want_vec cfg && negb (no_vec_canary o) && negb (vec_coherent uv (vec s_next)))
    then inr (b_fault st c)
    else if inside then
      inl (mk_bstate c e (mr_tracee_window t win_base win_pages) s_next (b_nstop st + 1) (b_idx st + 1) n mx)
    else
      let fin := mk_snap r (if want_vec cfg && v_valid (vec s_next) then vec s_next else uv) in
      inr (b_end st DF_BLOCKSTEP_OK (finalize_open (mr_uc e) fin c) (Some (rax regs))).

(** The single step that takes the tracee past a breakpoint: the stop after it
    and the events left, or the end.  A [waitpid] that fails leaves a status of
    zero, which reads as an exit. *)
Fixpoint absorb (st : bstate) (evs : list event) : option (target * list event + outcome) :=
  match evs with
  | [] => None
  | EvWaitIntr :: evs => absorb st evs
  | EvTrap t _ :: evs => Some (inl (t, evs))
  | EvGone :: _ | EvWaitFail :: _ => Some (inr (b_fault st (b_ctx st)))
  | EvReqFail :: _ | EvNoStop :: _ | EvSignal :: _ => Some (inr (b_lost st))
  end.

(** One round per request, [fuel] bounding the rounds by the events. *)
Fixpoint block_loop (fuel : nat) (st : bstate) (evs : list event) : option outcome :=
  match fuel with
  | O => None
  | S fuel =>
      let settle st t evs :=
        match t_regs t with
        | None => Some (b_lost st)
        | Some regs => match block_stop st t regs with inl st => block_loop fuel st evs | inr out => Some out end
        end in
      match evs with
      | [] => None
      | EvReqFail :: _ | EvWaitFail :: _ | EvNoStop :: _ | EvSignal :: _ => Some (b_lost st)
      | EvWaitIntr :: evs => block_loop fuel st evs
      | EvGone :: _ => Some (b_fault st (b_ctx st))
      | EvTrap t dr6 :: evs =>
          match t_regs t with
          | None => Some (b_lost st)
          | Some _ =>
              if (0 <? nhwrec)%nat && negb (Z.land dr6 15 =? 0) then
                match absorb st evs with
                | None => None
                | Some (inr out) => Some out
                | Some (inl (t, evs)) =>
                    match t_regs t with
                    | None => Some (b_lost st)
                    | Some _ => settle (mk_bstate (count_hit (b_ctx st)) (b_eng st) (b_win st) (b_cur st) (b_nstop st)
                                          (b_idx st) (b_seeded st) (b_mxcsr st)) t evs
                    end
                end
              else settle st t evs
          end
      end
  end.
End blocks.

(** The stops before the region: the first one inside, and the events left.  The
    counter runs over every request. *)
Fixpoint entry_loop (rbase rend g : Z) (evs : list event) : option (option (user_regs * target) * list event) :=
  if DFB_STOP_BACKSTOP <=? g then Some (None, evs)
  else match evs with
  | [] => None
  | EvReqFail :: evs | EvWaitFail :: evs | EvGone :: evs | EvSignal :: evs => Some (None, evs)
  | EvWaitIntr :: evs | EvNoStop :: evs => entry_loop rbase rend (g + 1) evs
  | EvTrap t _ :: evs =>
      match t_regs t with
      | None => Some (None, evs)
      | Some regs => if in_region rbase rend (rip regs) then Some (Some (regs, t), evs)
                     else entry_loop rbase rend (g + 1) evs
      end
  end.

Definition align_down (x : Z) : Z := x - x mod PAGE.
(** [((x + 0xFFF) & ~0xFFF)] on 64 bits. *)
Definition align_up (x : Z) : Z := align_down (x +64 4095).

(** The end of the routine before the loop: the code, and what [out:] stores. *)
Definition early (c : ctx) (rsp_ : option Z) : outcome := mk_outcome DF_BLOCKSTEP_ETRACE c None 1 rsp_ 0 false.

(** The engine with the code and the stack window; [None] is a failure. *)
Definition stand_up (base len : Z) (t : target) (win_base win_size : Z) : option engine :=
  match uc_open with
  | None => None
  | Some e =>
      let code_base := align_down base in
      let code_size := align_up (base +64 len) -64 code_base in
      match uc_mem_map e code_base code_size true with
      | None => None
      | Some e =>
          if negb (grant code_size) then None
          else
            let cb := match mr_tracee t code_base (Z.to_nat code_size) with
                      | Some bs => bs
                      | None => replicate (Z.to_nat (base - code_base)) 0 ++ c_code cfg ++
                                replicate (Z.to_nat (code_size - (base - code_base) - len)) 0
                      end in
            let e := uc_mem_write e code_base cb in
            match uc_mem_map e win_base win_size true with
            | None => None
            | Some e => if grant win_size then Some e else None
            end
      end
  end.

(** The outcome and the debug registers afterwards. *)
Definition capture_blockstep (poke : nat → Z → bool) (drs : list Z) (o : options) (base len rbase rend : Z)
    (hwrec : list Z) (inject : Z) (c : ctx) (evs : list event) : option (outcome * list Z) :=
  let out drs r := Some (r, if (0 <? length hwrec)%nat then dfb_clear_hw_bps poke drs else drs) in
  match entry_loop rbase rend 0 evs with
  | None => None
  | Some (None, _) => out drs (early c None)
  | Some (Some (regs, t), evs) =>
      let s := snap_of L (want_vec cfg) regs t in
      let drs := if no_hw_record o then drs else arm_sites poke rbase 0 hwrec drs 0 in
      let win_base := align_down (rsp regs -64 PAGE) in
      let win_size := 12288 +64 align_up (stack_hi_pad o) in
      match stand_up base len t win_base win_size with
      | None => out drs (early c (Some (rsp regs)))
      | Some e =>
          let pages := Z.to_nat (win_size / PAGE) in
          let win := mr_tracee_window t win_base pages in
          let e := uc_set_regs (uc_mem_write e win_base win) regs in
          let '(e, n, mx) := if want_vec cfg && negb (no_vec_seed o)
                             then uc_seed_vec e (vec s) (negb (no_mxcsr_seed o)) else (e, 0, false) in
          match block_loop o rbase rend win_base pages (length hwrec) inject (rsp regs) (S (length evs))
                  (mk_bstate c e win s 1 0 n mx) evs with
          | None => None
          | Some r => out drs r
          end
      end
  end.
End replay.
End capture.

(** ** The entry point *)
(** [asmtest_blockstep_info_t] *)
Record info := mk_info {
  i_pure : bool; i_reason : option string; i_stops : Z; i_steps : Z; i_rsp : Z; i_vec_width : Z; i_vec_nregs : Z;
  i_uc_width : Z; i_seeded : Z; i_mxcsr : bool; i_injectable : bool; i_injected : Z; i_hits : Z;
}.

(** What the system answers: whether each Capstone handle opens, where the code
    is mapped, whether the tracee is started, the debug registers, the stops. *)
Record world := mk_world {
  w_scan_cs : bool; w_step_cs : bool; w_base : option Z; w_spawned : bool;
  w_poke : nat → Z → bool; w_drs : list Z; w_events : list event;
}.

Section entry.
Context `{Disasm, Unicorn} (grant : allocator) (L : xlayout).
Context (operands : list Z → Z → Z * list at_val_rec * list at_val_rec).

Definition asmtest_dataflow_blockstep_vec_width : Z * Z :=
  (if x_ok L then x_width L else 0, if x_ok L then x_nregs L else 0).
Definition asmtest_dataflow_blockstep_uc_vec_width : Z := uc_vec_width_probe.

(** The return code, [*result], the sink and [*info]; a pointer that is null is
    [None].  [None] overall: the script ends before the capture does. *)
Definition asmtest_dataflow_blockstep_run (code : option (list Z)) (args : option (list Z)) (nargs : Z)
    (opts : option options) (v : option asmtest_valtrace) (w : world) :
    option (Z * option Z * option asmtest_valtrace * option info) :=
  match v, code with
  | None, _ | _, None | _, Some [] => Some (DF_BLOCKSTEP_EINVAL, None, v, None)
  | Some vt0, Some code =>
      let code_len := Z.of_nat (length code) in
      let einval := Some (DF_BLOCKSTEP_EINVAL, None, Some vt0, None) in
      if (nargs <? 0) || (6 <? nargs) || ((0 <? nargs) && (if args is None then true else false)) then einval
      else
        let o := default options0 opts in
        if code_len <=? region_off o then einval
        else if negb (extents_loop code_len (region_off o) (o_extents o)) then einval
        else
          let vt1 := DfStep.abs_space vt0 in
          let etrace := Some (DF_BLOCKSTEP_ETRACE, None, Some vt1, Some (mk_info false None 0 0 0 0 0 0 0 false false 0 0)) in
          if (0 <? length (o_extents o))%nat && negb (grant (16 * Z.of_nat (length (o_extents o)))) then etrace
          else
            let scan := region_scan (w_scan_cs w) (drop (Z.to_nat (region_off o)) code)
                          ((λ e, (e.1 - region_off o, e.2)) <$> o_extents o) in
            let gated_off := negb (scan_replay_ok scan) && negb (force_replay o) in
            let use_replay := negb gated_off && negb (force_singlestep o) in
            match w_base w with
            | None => etrace
            | Some base =>
                if negb (w_spawned w) then etrace
                else
                  let rbase := base +64 region_off o in
                  let rend := base +64 code_len in
                  let cfg := mk_config code base (touches_vec scan && x_ok L) (w_step_cs w) (o_no_undef_mask o) in
                  let c := ctx_of vt1 in
                  let r :=
                    if use_replay then
                      fst <$> capture_blockstep grant cfg operands L (w_poke w) (w_drs w) o base code_len rbase rend
                                (hwrec_off scan) (if inject_divergence o then inject_block o else -1) c (w_events w)
                    else capture_singlestep grant cfg operands L rbase rend (max_insns o) c (w_events w) in
                  match r with
                  | None => None
                  | Some r =>
                      let inf := mk_info use_replay
                        (if gated_off && negb (force_singlestep o) then scan_reason scan else None)
                        (o_stops r) (Z.of_nat (steps_len (vt (o_ctx r)))) (default 0 (o_rsp r))
                        asmtest_dataflow_blockstep_vec_width.1 asmtest_dataflow_blockstep_vec_width.2
                        uc_vec_width_probe (o_seeded r) (o_mxcsr r) (injectable scan) (injected (o_ctx r))
                        (hw_hits (o_ctx r)) in
                      Some (o_rc r, o_result r, Some (vt (o_ctx r)), Some inf)
                  end
            end
  end.
End entry.
End BsReplay.
