(* ===== verification/BsExact.v ===== *)
(** The replay is exact: the theorem behind the block-step producer of
    [src/dataflow_blockstep.c].  When the emulator executes the region's own
    instructions as the processor does, the trace rebuilt from the few stops of a
    block-stepped run is the trace of the same run stepped one instruction at a
    time. *)
From stdpp Require Import strings.
From S2P Require Import Prelude Bytes Grow RegSlice ValTrace DfTarget DfStep DfSound BsScan BsReplay.

Module BsExact.
Import RegSlice ValTrace DfTarget BsScan BsReplay.

(** ** Equal views *)
(** Two register files that differ in the two stepping flags at most. *)
Definition same_regs (r r' : user_regs) : Prop :=
  (∀ x, x ≠ UC_EFLAGS → field r x = field r' x) ∧
  without (eflags r) EFLAGS_STEP_BITS = without (eflags r') EFLAGS_STEP_BITS.

Lemma same_regs_field r r' x : same_regs r r' → x ≠ UC_EFLAGS → field r x = field r' x.
Proof. intros [Hx _]. apply Hx. Qed.

Definition with_eflags (r : user_regs) (f : Z) : user_regs :=
  mk_regs (rax r) (rbx r) (rcx r) (rdx r) (rsi r) (rdi r) (rbp r) (rsp r) (r8 r) (r9 r) (r10 r)
    (r11 r) (r12 r) (r13 r) (r14 r) (r15 r) (rip r) f (fs_base r) (gs_base r).
Lemma same_regs_eq r r' : same_regs r r' → r = with_eflags r' (eflags r).
Proof.
  intros [Hx _].
  pose proof (λ x Hn, Hx x Hn) as F. destruct r, r'. unfold with_eflags; simpl in *.
  f_equal;
    [exact (F UC_RAX ltac:(done))|exact (F UC_RBX ltac:(done))|exact (F UC_RCX ltac:(done))
    |exact (F UC_RDX ltac:(done))|exact (F UC_RSI ltac:(done))|exact (F UC_RDI ltac:(done))
    |exact (F UC_RBP ltac:(done))|exact (F UC_RSP ltac:(done))|exact (F UC_R8 ltac:(done))
    |exact (F UC_R9 ltac:(done))|exact (F UC_R10 ltac:(done))|exact (F UC_R11 ltac:(done))
    |exact (F UC_R12 ltac:(done))|exact (F UC_R13 ltac:(done))|exact (F UC_R14 ltac:(done))
    |exact (F UC_R15 ltac:(done))|exact (F UC_RIP ltac:(done))|exact (F UC_FS_BASE ltac:(done))
    |exact (F UC_GS_BASE ltac:(done))].
Qed.

Lemma gp_value_same r r' x : same_regs r r' → gp_value r x = gp_value r' x.
Proof.
  intros Hs. unfold gp_value. destruct (case_of x [X86_REG_EFLAGS]) eqn:Ee; [by rewrite (proj2 Hs)|].
  rewrite (same_regs_eq _ _ Hs). unfold DfTarget.gp_value. by rewrite Ee.
Qed.

Lemma resolve_ea_same r r' rc len : same_regs r r' → resolve_ea r rc len = resolve_ea r' rc len.
Proof.
  intros Hs. unfold resolve_ea. rewrite !(gp_value_same r r') by done.
  pose proof (same_regs_field r r' UC_FS_BASE Hs ltac:(done)) as Ef.
  pose proof (same_regs_field r r' UC_GS_BASE Hs ltac:(done)) as Eg. simpl in Ef, Eg. by rewrite Ef, Eg.
Qed.

Lemma shift_count_same r r' i : same_regs r r' → dfb_shift_rotate_count i (Some r) = dfb_shift_rotate_count i (Some r').
Proof.
  intros Hs. pose proof (same_regs_field r r' UC_RCX Hs ltac:(done)) as Ec. simpl in Ec.
  unfold dfb_shift_rotate_count. by rewrite Ec.
Qed.
Lemma undef_flags_same r r' i : same_regs r r' → dfb_undef_flags i (Some r) = dfb_undef_flags i (Some r').
Proof. intros Hs. unfold dfb_undef_flags. by rewrite (shift_count_same r r'). Qed.

(** The same vector file, as far as an SSE instruction sees it. *)
Definition same_vec (a b : vecstate) : Prop :=
  a = b ∨ (v_valid a = true ∧ v_valid b = true ∧ 16 <= v_nregs a ∧ 16 <= v_nregs b ∧ 16 <= v_width a ∧ 16 <= v_width b ∧
           ∀ i, (i < 16)%nat → take 16 (nth i (vz a) []) = take 16 (nth i (vz b) [])).

(** A vector register of a record is one of the sixteen 128-bit ones. *)
Definition legacy (r : at_val_rec) : Prop :=
  ∀ idx w, vec_reg_info (reg r) = Some (idx, w) → 0 <= idx < 16 ∧ w = 16.

Lemma fill_vec_same s s' v r : same_vec (vec s) (vec s') → legacy r → fill_vec_value s v r = fill_vec_value s' v r.
Proof.
  intros [E|(Va & Vb & Na & Nb & Wa & Wb & Hi)] Hl; [unfold fill_vec_value; by rewrite E|].
  unfold fill_vec_value. destruct (vec_reg_info (reg r)) as [[idx w]|] eqn:Ei; [|done].
  destruct (Hl _ _ Ei) as [Hidx ->]. rewrite Va, Vb. simpl.
  rewrite !(proj2 (Z.leb_gt _ _)), !(proj2 (Z.ltb_ge _ _)) by lia. simpl.
  change (Z.to_nat 16) with 16%nat. by rewrite Hi by lia.
Qed.

Lemma fill_reg_same s s' m v r :
  same_regs (gp s) (gp s') → same_vec (vec s) (vec s') → legacy r → fill_reg s m v r = fill_reg s' m v r.
Proof.
  intros Hr Hv Hl. unfold fill_reg. rewrite (gp_value_same _ _ _ Hr). destruct (gp_value _ _); [done|].
  by apply fill_vec_same.
Qed.

(** A memory record both readers answer alike. *)
Definition reads_alike (mr mr' : reader) (r : at_val_rec) : Prop :=
  kind r ≠ AT_LOC_REG → 0 < size r <= 64 → mr (addr r) (Z.to_nat (size r)) = mr' (addr r) (Z.to_nat (size r)).

Lemma fill_mem_same mr mr' v r :
  0 <= size r → kind r ≠ AT_LOC_REG → reads_alike mr mr' r → fill_mem_value mr v r = fill_mem_value mr' v r.
Proof.
  intros Hs Hk Ha. unfold fill_mem_value. destruct (Z.eqb_spec (size r) 0); [done|].
  destruct (Z.ltb_spec 64 (size r)); [done|]. simpl. by rewrite Ha by (done || lia).
Qed.

Record alike (mr mr' : reader) (s s' : snap) (r : at_val_rec) : Prop := {
  al_size : 0 <= size r; al_legacy : legacy r; al_reads : reads_alike mr mr' r;
}.

Lemma fill_write_same mr mr' s s' m st r :
  same_regs (gp s) (gp s') → same_vec (vec s) (vec s') →
  (is_write r = true → value_valid r = false → alike mr mr' s s' r) → fill_write mr s m st r = fill_write mr' s' m st r.
Proof.
  intros Hr Hv Ha. unfold fill_write. destruct st as [v acc]. destruct (is_write r); [|done].
  destruct (value_valid r); [done|]. destruct (Ha eq_refl eq_refl) as [Hs Hl Hm]. simpl.
  destruct (kind r) eqn:Ek; [by rewrite (fill_reg_same s s')|by rewrite (fill_mem_same mr mr') by (rewrite ?Ek; done)..].
Qed.

Lemma fill_writes_same mr mr' s s' m l st :
  same_regs (gp s) (gp s') → same_vec (vec s) (vec s') →
  Forall (λ r, is_write r = true → value_valid r = false → alike mr mr' s s' r) l →
  foldl (fill_write mr s m) st l = foldl (fill_write mr' s' m) st l.
Proof.
  intros Hr Hv Hl. revert st. induction Hl as [|r l Ha _ IH]; intros st; [done|]. simpl.
  by rewrite (fill_write_same mr mr' s s'), IH.
Qed.

Section capture.
Context `{Disasm} (grant : allocator) (cfg : config).
Context (operands : list Z → Z → Z * list at_val_rec * list at_val_rec) (Hops : DfSound.operands_ok operands).

Abbreviation finalize_open := (BsReplay.finalize_open).
Abbreviation open_step := (BsReplay.open_step grant cfg operands).
Abbreviation capture_at := (BsReplay.capture_at grant cfg operands).

Lemma finalize_same mr mr' s s' c :
  same_regs (gp s) (gp s') → same_vec (vec s) (vec s') →
  Forall (λ r, is_write r = true → value_valid r = false → alike mr mr' s s' r) (cur c) →
  finalize_open mr s c = finalize_open mr' s' c.
Proof.
  intros Hr Hv Hl. unfold finalize_open, finalize_step. destruct (have_cur c); [|done].
  by rewrite (fill_writes_same mr mr' s s').
Qed.

(** The operands of the instruction at [off]. *)
Definition ops_at (off : Z) : Z * list at_val_rec * list at_val_rec := operands (c_code cfg) off.
Definition len_of (off : Z) : Z := (ops_at off).1.1.
Definition reads_of (off : Z) : list at_val_rec := (ops_at off).1.2.
Definition writes_of (off : Z) : list at_val_rec := (ops_at off).2.
Definition imp_of (off : Z) (r : user_regs) : dfb_imp := (dfb_classify_at cfg off (Some r)).1.1.

(** A memory record with the address it has at a state. *)
Definition placed (r : user_regs) (len : Z) (rc : at_val_rec) : at_val_rec := with_addr rc (resolve_ea r rc len).

Lemma open_read_same mr mr' s s' len c r :
  same_regs (gp s) (gp s') → same_vec (vec s) (vec s') → alike mr mr' s s' (placed (gp s) len r) →
  open_read grant mr s len c r = open_read grant mr' s' len c r.
Proof.
  intros Hr Hv [Hs Hl Hm]. unfold open_read. rewrite <-(resolve_ea_same _ _ r len Hr).
  destruct (kind r) eqn:Ek; [by rewrite (fill_reg_same s s')|..];
    by rewrite (fill_mem_same mr mr' _ (with_addr r _)) by (done || (simpl; rewrite Ek; done)).
Qed.

Lemma open_reads_same mr mr' s s' len l c :
  same_regs (gp s) (gp s') → same_vec (vec s) (vec s') →
  Forall (λ r, alike mr mr' s s' (placed (gp s) len r)) l →
  foldl (open_read grant mr s len) c l = foldl (open_read grant mr' s' len) c l.
Proof.
  intros Hr Hv Hl. revert c. induction Hl as [|r l Ha _ IH]; intros c; [done|]. simpl.
  by rewrite (open_read_same mr mr' s s'), IH.
Qed.

Lemma open_writes_same s s' len l c :
  same_regs (gp s) (gp s') → foldl (open_write grant s len) c l = foldl (open_write grant s' len) c l.
Proof.
  intros Hr. revert c. induction l as [|r l IH]; intros c; [done|]. simpl. rewrite IH. f_equal.
  unfold open_write. by rewrite (resolve_ea_same _ _ _ _ Hr).
Qed.

Lemma classify_same off r r' : same_regs r r' → dfb_classify_at cfg off (Some r) = dfb_classify_at cfg off (Some r').
Proof.
  intros Hs. unfold dfb_classify_at. destruct (_ || _); [done|]. destruct (cs_disasm_iter _ _); [|done].
  by rewrite (undef_flags_same r r').
Qed.

Definition off_at (r : user_regs) : Z := rip r -64 c_base cfg.

Lemma open_same mr mr' s s' c :
  same_regs (gp s) (gp s') → same_vec (vec s) (vec s') →
  Forall (λ r, alike mr mr' s s' (placed (gp s) (len_of (off_at (gp s))) r)) (reads_of (off_at (gp s))) →
  open_step mr s c = open_step mr' s' c.
Proof.
  intros Hr Hv Hl. pose proof (same_regs_field _ _ UC_RIP Hr ltac:(done)) as Ep. simpl in Ep.
  unfold open_step. rewrite <-Ep, <-(classify_same _ _ _ Hr).
  unfold len_of, reads_of, ops_at, off_at in Hl. destruct (dfb_classify_at _ _ _) as [[imp u] d].
  destruct (operands _ _) as [[len rd] wr]. simpl in Hl.
  by rewrite (open_reads_same mr mr' s s'), (open_writes_same s s').
Qed.
End capture.

(** ** Counters *)
(** The context with the counters of another one: no value depends on them. *)
Definition counters (c x : ctx) : ctx :=
  mk_ctx (vt c) (have_cur c) (cur_off c) (cur c) (cur_cap c) (cur_imp c) (cur_undef c) (cur_defined c)
    (undef_acc x) (injected x) (hw_hits x).
Definition core (c : ctx) : ctx := counters c (ctx_of (vt c)).

Lemma core_counters c x : core (counters c x) = core c.
Proof. done. Qed.
Lemma core_eq c c' : core c = core c' → c = counters c' c.
Proof. destruct c, c'. unfold core, counters. simpl. intros [= -> -> -> -> -> -> -> ->]. done. Qed.

Section counters.
Context `{Disasm} (grant : allocator) (cfg : config).
Context (operands : list Z → Z → Z * list at_val_rec * list at_val_rec).

Lemma finalize_counters mr s c x : finalize_open mr s (counters c x) = counters (finalize_open mr s c) x.
Proof.
  unfold finalize_open, finalize_step. simpl. destruct (have_cur c); [|done].
  by destruct (foldl _ _ _).
Qed.
Lemma push_counters c x r : push_cur grant (counters c x) r = counters (push_cur grant c r) x.
Proof. unfold push_cur. simpl. by destruct (DfStep.recbuf_push _ _ _ _). Qed.
Lemma open_reads_counters mr s len l c x :
  foldl (open_read grant mr s len) (counters c x) l = counters (foldl (open_read grant mr s len) c l) x.
Proof.
  revert c. induction l as [|r l IH]; intros c; [done|]. simpl. rewrite <-IH. f_equal.
  unfold open_read. simpl. destruct (match kind r with AT_LOC_REG => _ | _ => _ end) as [v r'].
  change (set_vt (counters c x) v) with (counters (set_vt c v) x). apply push_counters.
Qed.
Lemma open_writes_counters s len l c x :
  foldl (open_write grant s len) (counters c x) l = counters (foldl (open_write grant s len) c l) x.
Proof.
  revert c. induction l as [|r l IH]; intros c; [done|]. simpl. rewrite <-IH. f_equal. apply push_counters.
Qed.
Lemma open_counters mr s c x :
  open_step grant cfg operands mr s (counters c x) =
  (counters (open_step grant cfg operands mr s c).1 x, (open_step grant cfg operands mr s c).2).
Proof.
  unfold open_step. destruct (dfb_classify_at _ _ _) as [[imp u] d]. destruct (operands _ _) as [[len rd] wr]. simpl.
  f_equal. rewrite <-open_writes_counters, <-open_reads_counters. done.
Qed.
Lemma capture_counters mr s c x :
  capture_at grant cfg operands mr s (counters c x) =
  (counters (capture_at grant cfg operands mr s c).1 x, (capture_at grant cfg operands mr s c).2).
Proof. unfold capture_at. by rewrite finalize_counters, open_counters. Qed.

Lemma capture_core mr s c c' :
  core c = core c' →
  core (capture_at grant cfg operands mr s c).1 = core (capture_at grant cfg operands mr s c').1 ∧
  (capture_at grant cfg operands mr s c).2 = (capture_at grant cfg operands mr s c').2.
Proof. intros E. rewrite (core_eq _ _ E), capture_counters. done. Qed.
Lemma finalize_core mr s c c' : core c = core c' → core (finalize_open mr s c) = core (finalize_open mr s c').
Proof. intros E. rewrite (core_eq _ _ E), finalize_counters. done. Qed.

(** The length of an instruction does not depend on the state. *)
Lemma capture_len mr s c : (capture_at grant cfg operands mr s c).2 = len_of cfg operands (off_at cfg (gp s)).
Proof.
  unfold capture_at, open_step, len_of, ops_at, off_at. destruct (dfb_classify_at _ _ _) as [[imp u] d].
  by destruct (operands _ _) as [[len rd] wr].
Qed.

(** ** The open step *)
Lemma push_field {A} (f : ctx → A) c r :
  (∀ c l cap, f (set_cur c l cap) = f c) → f (push_cur grant c r) = f c.
Proof. intros Hf. unfold push_cur. destruct (DfStep.recbuf_push _ _ _ _). apply Hf. Qed.
Lemma open_field {A} (f : ctx → A) mr s len rd wr c :
  (∀ c l cap, f (set_cur c l cap) = f c) → (∀ c v, f (set_vt c v) = f c) →
  f (foldl (open_write grant s len) (foldl (open_read grant mr s len) c rd) wr) = f c.
Proof.
  intros Hf Hv. assert (∀ wr c, f (foldl (open_write grant s len) c wr) = f c) as Hw.
  { intros l. induction l as [|r l IH]; intros c'; [done|]. simpl. rewrite IH. by apply push_field. }
  rewrite Hw. revert c. induction rd as [|r l IH]; intros c; [done|]. simpl. rewrite IH. unfold open_read.
  destruct (match kind r with AT_LOC_REG => _ | _ => _ end) as [v r']. by rewrite push_field, Hv.
Qed.
Lemma capture_imp mr s c :
  cur_imp (capture_at grant cfg operands mr s c).1 = imp_of cfg (off_at cfg (gp s)) (gp s) ∧
  have_cur (capture_at grant cfg operands mr s c).1 = true.
Proof.
  unfold capture_at, open_step, imp_of, off_at. destruct (dfb_classify_at _ _ _) as [[imp u] d].
  destruct (operands _ _) as [[len rd] wr]. simpl. by rewrite !open_field.
Qed.

Lemma push_Forall (P : at_val_rec → Prop) c r : Forall P (cur c) → P r → Forall P (cur (push_cur grant c r)).
Proof.
  intros Hc Hr. unfold push_cur, DfStep.recbuf_push. destruct (_ =? _); [destruct (asmtest_grow _ _ _ _)|];
    simpl; rewrite ?Forall_app; auto.
Qed.

Lemma fill_is_write mr s m v r :
  is_write (match kind r with AT_LOC_REG => fill_reg s m v r | _ => fill_mem_value mr v r end).2 = is_write r.
Proof.
  assert (∀ v r bs, is_write (stash_wide_value v r bs).2 = is_write r) as Hst.
  { intros v' r' bs. unfold stash_wide_value. destruct (asmtest_valtrace_stash_wide _ _) as [off [v''|]]; [|done].
    by destruct (_ =? _). }
  assert (is_write (fill_mem_value mr v r).2 = is_write r) as Hm.
  { unfold fill_mem_value. destruct (_ || _); [done|]. destruct (mr _ _); [|done]. destruct (_ <=? _); [done|]. apply Hst. }
  destruct (kind r); [|done..]. unfold fill_reg. destruct (gp_value _ _); [done|]. unfold fill_vec_value.
  destruct (vec_reg_info _) as [[idx w]|]; [|done]. destruct (_ || _); [done|]. destruct (_ <=? _); [done|]. by rewrite Hst.
Qed.

(** The records of the open step that wait for their value. *)
Lemma open_writes_Forall (P : at_val_rec → Prop) s len l c :
  Forall P (cur c) → Forall (λ r, P (match kind r with AT_LOC_REG => DfStep.no_value r
                                     | _ => placed (gp s) len (DfStep.no_value r) end)) l →
  Forall P (cur (foldl (open_write grant s len) c l)).
Proof.
  intros Hc Hl. revert c Hc. induction Hl as [|r l Hr _ IH]; intros c Hc; [done|]. simpl. apply IH.
  unfold open_write. apply push_Forall; [done|]. simpl in *. by destruct (kind r).
Qed.
Lemma open_reads_Forall (P : at_val_rec → Prop) mr s len l c :
  (∀ r, is_write r = false → P r) → Forall P (cur c) → Forall (λ r, is_write r = false) l →
  Forall P (cur (foldl (open_read grant mr s len) c l)).
Proof.
  intros HP Hc Hl. revert c Hc. induction Hl as [|r l Hr _ IH]; intros c Hc; [done|]. simpl. apply IH.
  unfold open_read.
  destruct (match kind r with AT_LOC_REG => _ | _ => _ end) as [v r'] eqn:E. apply push_Forall; [done|].
  apply HP. rewrite <-Hr. destruct (kind r) eqn:Ek.
  - pose proof (fill_is_write mr s 0 (vt c) r) as Hw. rewrite Ek, E in Hw. done.
  - pose proof (fill_is_write mr s 0 (vt c) (with_addr r (resolve_ea (gp s) r len))) as Hw. simpl in Hw.
    rewrite Ek, E in Hw. done.
  - pose proof (fill_is_write mr s 0 (vt c) (with_addr r (resolve_ea (gp s) r len))) as Hw. simpl in Hw.
    rewrite Ek, E in Hw. done.
Qed.
End counters.

(** ** The record buffer has room *)
Definition roomy (c : ctx) : Prop := 0 <= cur_cap c ∧ cur_cap c * sizeof_val_rec <= SIZE_MAX.
Definition fits_cur (c : ctx) : Prop := Z.of_nat (length (cur c)) <= cur_cap c ∧ cur_cap c * sizeof_val_rec <= SIZE_MAX.

Lemma push_room c r :
  fits_cur c → (length (cur c) < 1000)%nat → fits_cur (push_cur always c r) ∧ cur (push_cur always c r) = cur c ++ [r].
Proof.
  intros [Hl Hc] Hs. unfold push_cur. destruct (DfSound.recbuf_push_ok (cur c) (cur_cap c) r Hl Hc Hs) as (cap' & -> & ? & ?).
  done.
Qed.

Definition write_of (s : snap) (len : Z) (r : at_val_rec) : at_val_rec :=
  match kind r with AT_LOC_REG => DfStep.no_value r | _ => placed (gp s) len (DfStep.no_value r) end.
Lemma open_writes_room s len l c :
  fits_cur c → (length (cur c) + length l < 1000)%nat →
  fits_cur (foldl (open_write always s len) c l) ∧
  cur (foldl (open_write always s len) c l) = cur c ++ (write_of s len <$> l).
Proof.
  revert c. induction l as [|r l IH]; intros c Hc Hl; simpl in *; [by rewrite app_nil_r|].
  destruct (push_room c (write_of s len r) Hc) as [Hf Hp]; [lia|].
  assert (open_write always s len c r = push_cur always c (write_of s len r)) as ->
    by (unfold open_write, write_of; simpl; by destruct (kind r)).
  destruct (IH (push_cur always c (write_of s len r)) Hf) as [? ->]; [rewrite Hp, length_app; simpl; lia|].
  split; [done|]. by rewrite Hp, <-app_assoc.
Qed.
Lemma open_reads_room mr s len l c :
  fits_cur c → (length (cur c) + length l < 1000)%nat →
  fits_cur (foldl (open_read always mr s len) c l) ∧
  length (cur (foldl (open_read always mr s len) c l)) = (length (cur c) + length l)%nat.
Proof.
  revert c. induction l as [|r l IH]; intros c Hc Hl; simpl in *; [split; [done|lia]|].
  assert (∃ v r', open_read always mr s len c r = push_cur always (set_vt c v) r') as (v & r' & ->).
  { unfold open_read. destruct (match kind r with AT_LOC_REG => _ | _ => _ end) as [v r']. by exists v, r'. }
  destruct (push_room (set_vt c v) r') as [Hf Hp]; [done|simpl; lia|]. simpl in Hp.
  destruct (IH (push_cur always (set_vt c v) r')) as [? ->]; [done|rewrite Hp, length_app; simpl; lia|].
  split; [done|]. rewrite Hp, length_app. simpl. lia.
Qed.

Section written.
Context `{Disasm} (cfg : config) (operands : list Z → Z → Z * list at_val_rec * list at_val_rec) (Hops : DfSound.operands_ok operands).

Lemma capture_writes mr s c :
  roomy c → roomy (capture_at always cfg operands mr s c).1 ∧
  ∀ r, r ∈ writes_of cfg operands (off_at cfg (gp s)) →
    write_of s (len_of cfg operands (off_at cfg (gp s))) r ∈ cur (capture_at always cfg operands mr s c).1.
Proof.
  intros Hc. assert (roomy (finalize_open mr s c)) as Hf.
  { unfold finalize_open, finalize_step. destruct (have_cur c); [|done]. by destruct (foldl _ _ _). }
  unfold capture_at, open_step, writes_of, len_of, ops_at, off_at. destruct (dfb_classify_at _ _ _) as [[imp u] d].
  pose proof (Hops (c_code cfg) (rip (gp s) -64 c_base cfg)) as Ho.
  destruct (operands _ _) as [[len rd] wr]. destruct Ho as (Hrd & Hwr & _). simpl.
  assert (length (sc_writes imp (length wr)) <= 64)%nat as Hsc by (unfold sc_writes; rewrite length_take; lia).
  match goal with |- context [foldl (open_read always mr s len) ?c0 rd] =>
    destruct (open_reads_room mr s len rd c0) as [Hr1 Hr2]; [exact (conj (proj1 Hf) (proj2 Hf))|simpl; lia|] end.
  simpl in Hr2. edestruct (open_writes_room s len (wr ++ sc_writes imp (length wr))) as [Hw1 Hw2]; [exact Hr1|rewrite length_app; lia|].
  split; [split; [destruct Hw1; lia|apply Hw1]|]. intros r Hr. rewrite Hw2. apply elem_of_app. right.
  apply list_elem_of_fmap_2. apply elem_of_app. by left.
Qed.
End written.

(** ** What is relied on of the engine

    Registers, vector registers and memory are stores that do not interfere, a
    mapping keeps what is mapped and adds readable memory, and running an
    instruction unmaps nothing. *)
Definition keeps_regs `{Unicorn} (e e' : engine) : Prop := ∀ x, uc_reg_read e' x = uc_reg_read e x.
Definition keeps_vec `{Unicorn} (e e' : engine) : Prop :=
  (∀ i, uc_vec_read e' 16 i = uc_vec_read e 16 i) ∧ uc_mxcsr_read e' = uc_mxcsr_read e.
Definition keeps_mem `{Unicorn} (e e' : engine) : Prop := ∀ a n, uc_mem_read e' a n = uc_mem_read e a n.

Class UnicornOk `{Unicorn} := {
  law_reg e x v : uc_reg_read (uc_reg_write e x v) x = Some v ∧
    (∀ y, x ≠ y → uc_reg_read (uc_reg_write e x v) y = uc_reg_read e y) ∧
    keeps_vec e (uc_reg_write e x v) ∧ keeps_mem e (uc_reg_write e x v);
  law_write e a bs : is_Some (uc_mem_read e a (length bs)) →
    keeps_regs e (uc_mem_write e a bs) ∧ keeps_vec e (uc_mem_write e a bs) ∧
    ∀ a' n, (a <= a' → a' + Z.of_nat n <= a + Z.of_nat (length bs) →
             uc_mem_read (uc_mem_write e a bs) a' n = Some (take n (drop (Z.to_nat (a' - a)) bs))) ∧
            (a' + Z.of_nat n <= a ∨ a + Z.of_nat (length bs) <= a' → uc_mem_read (uc_mem_write e a bs) a' n = uc_mem_read e a' n);
  law_map e a n w e' : uc_mem_map e a n w = Some e' →
    keeps_regs e e' ∧ keeps_vec e e' ∧ is_Some (uc_mem_read e' a (Z.to_nat n)) ∧
    ∀ a' n' bs, uc_mem_read e a' n' = Some bs → uc_mem_read e' a' n' = Some bs;
  law_vec e i bs : (i < 16)%nat → length bs = 16%nat → ∃ e', uc_vec_write e 16 i bs = Some e' ∧
    uc_vec_read e' 16 i = Some bs ∧ (∀ j, i ≠ j → uc_vec_read e' 16 j = uc_vec_read e 16 j) ∧
    uc_mxcsr_read e' = uc_mxcsr_read e ∧ keeps_regs e e' ∧ keeps_mem e e';
  law_mxcsr e v : ∃ e', uc_mxcsr_write e v = Some e' ∧ uc_mxcsr_read e' = Some v ∧
    (∀ i, uc_vec_read e' 16 i = uc_vec_read e 16 i) ∧ keeps_regs e e' ∧ keeps_mem e e';
  law_run e pc e' a n : uc_emu_start e pc = Some e' → is_Some (uc_mem_read e a n) → is_Some (uc_mem_read e' a n);
}.

Section machine.
Context `{Disasm, Unicorn} {HU : UnicornOk} (cfg : config).
Context (operands : list Z → Z → Z * list at_val_rec * list at_val_rec) (Hops : DfSound.operands_ok operands).
Context (L : xlayout) (rbase rend code_lo code_n win_lo win_n : Z) (nhwrec : nat).

Abbreviation off_at := (BsExact.off_at cfg).
Abbreviation len_of := (BsExact.len_of cfg operands).
Abbreviation reads_of := (BsExact.reads_of cfg operands).
Abbreviation writes_of := (BsExact.writes_of cfg operands).
Abbreviation imp_of := (BsExact.imp_of cfg).
Abbreviation capture_at := (BsReplay.capture_at always cfg operands).

(** ** The processor *)
(** The bytes the engine has a copy of. *)
Definition in_code (a : Z) (n : nat) : Prop := code_lo <= a ∧ a + Z.of_nat n <= code_lo + code_n.
Definition in_win (a : Z) (n : nat) : Prop := win_lo <= a ∧ a + Z.of_nat n <= win_lo + win_n.

(** A memory record of at most 64 bytes is in that copy and mapped. *)
Definition covered (t : target) (r : at_val_rec) : Prop :=
  0 <= size r ∧ legacy r ∧
  (kind r ≠ AT_LOC_REG → 0 < size r <= 64 →
   (in_code (addr r) (Z.to_nat (size r)) ∨ in_win (addr r) (Z.to_nat (size r))) ∧
   is_Some (mem_bytes (t_mem t) (addr r) (Z.to_nat (size r)))).

(** The engine is in the state of the target. *)
Record follows (e : engine) (t : target) : Prop := {
  f_regs r : t_regs t = Some r → same_regs (uc_get_regs e) r;
  f_vec : want_vec cfg = true → same_vec (uc_get_vec e) (xstate_read L t) ∧
          Z.ldiff (v_mxcsr (uc_get_vec e)) 63 = Z.ldiff (v_mxcsr (xstate_read L t)) 63;
  f_mem a n bs : (0 < n)%nat → in_code a n ∨ in_win a n → mem_bytes (t_mem t) a n = Some bs → uc_mem_read e a n = Some bs;
}.
(** The same, but for the stack window, which the kernel may have written. *)
Record reaches (e : engine) (t : target) : Prop := {
  r_regs r : t_regs t = Some r → same_regs (uc_get_regs e) r;
  r_vec : want_vec cfg = true → same_vec (uc_get_vec e) (xstate_read L t) ∧
          Z.ldiff (v_mxcsr (uc_get_vec e)) 63 = Z.ldiff (v_mxcsr (xstate_read L t)) 63;
  r_code a n bs : (0 < n)%nat → in_code a n → mem_bytes (t_mem t) a n = Some bs → uc_mem_read e a n = Some bs;
}.
Lemma follows_reaches e t : follows e t → reaches e t.
Proof. intros [Hr Hv Hm]. constructor; [done..|]. eauto. Qed.

(** A target that can be observed: memory is mapped by pages. *)
Record seen (t : target) (r : user_regs) : Prop := {
  s_regs : t_regs t = Some r; s_pvm : t_pvm t = true;
  s_vec : want_vec cfg = true → v_valid (xstate_read L t) = true ∧ 16 <= v_nregs (xstate_read L t) ∧
            16 <= v_width (xstate_read L t) ∧ ∀ i, (i < 16)%nat → (16 <= length (nth i (vz (xstate_read L t)) []))%nat;
  s_paged a b : is_Some (t_mem t !! a) → b / PAGE = a / PAGE → is_Some (t_mem t !! b);
}.

(** The registers an instruction that is not replayed writes. *)
Definition names (x : uc_reg) (r : at_val_rec) : bool :=
  is_write r && bool_decide (kind r = AT_LOC_REG) && bool_decide (uc_gp_container (reg r) = Some x).
Definition clobbers (imp : dfb_imp) (off : Z) (x : uc_reg) : bool :=
  match imp with
  | DFB_IMP_SYSCALL => bool_decide (x ∈ [UC_RAX; UC_RCX; UC_R11; UC_RIP])
  | DFB_IMP_INT80 => bool_decide (x ∈ [UC_RAX; UC_RIP])
  | _ => bool_decide (x = UC_RIP) || existsb (names x) (writes_of off)
  end.

(** One instruction of the region, on the processor: its operands are covered,
    and either the engine runs it as the processor does, or it is one whose effect
    is carried over, which leaves everything else but the stack alone. *)
Record executes (t t' : target) (r r' : user_regs) : Prop := {
  x_in : in_region rbase rend (rip r) = true;
  x_len : 0 < len_of (off_at r) ∧ rip r + len_of (off_at r) <= rend;
  x_reads : Forall (λ rc, covered t (placed r (len_of (off_at r)) rc)) (reads_of (off_at r));
  x_writes : Forall (λ rc, covered t' (placed r (len_of (off_at r)) rc)) (writes_of (off_at r));
  x_effect : match imp_of (off_at r) r with
    | DFB_IMP_NONE => ∀ e, follows e t → ∃ e', uc_emu_start e (rip r) = Some e' ∧ follows e' t'
    | DFB_IMP_OTHER => False
    | imp => rip r' = rip r + len_of (off_at r) ∧ in_region rbase rend (rip r') = true ∧
        (∀ x, x ≠ UC_EFLAGS → clobbers imp (off_at r) x = false → field r' x = field r x) ∧
        (clobbers imp (off_at r) UC_EFLAGS = false → without (eflags r') EFLAGS_STEP_BITS = without (eflags r) EFLAGS_STEP_BITS) ∧
        (want_vec cfg = true → xstate_read L t' = xstate_read L t) ∧
        (∀ a n, in_code a n → mem_bytes (t_mem t') a n = mem_bytes (t_mem t) a n) ∧
        (imp = DFB_IMP_HWREC → (0 < nhwrec)%nat)
    end;
}.

(** The tracee runs on without a stop: nothing but the next instruction. *)
Definition silent (r r' : user_regs) : bool :=
  bool_decide (imp_of (off_at r) r = DFB_IMP_NONE) && (rip r' =? rip r + len_of (off_at r)).

(** A run through the region: what it passes, and the first state outside. *)
Inductive passes : target → user_regs → list (target * user_regs) → Prop :=
| passes_end t r : seen t r → in_region rbase rend (rip r) = false → passes t r []
| passes_step t r t' r' rest :
    seen t r → executes t t' r r' → (in_region rbase rend (rip r') = false → silent r r' = false) →
    passes t' r' rest → passes t r ((t', r') :: rest).

(** The stops of a block-stepped run: after each instruction that is not silent,
    by way of the breakpoint in front of it if it has one. *)
Fixpoint block_events (t : target) (r : user_regs) (rest : list (target * user_regs)) : list event :=
  match rest with
  | [] => []
  | (t', r') :: rest =>
      (if silent r r' then []
       else if bool_decide (imp_of (off_at r) r = DFB_IMP_HWREC) then [EvTrap t 1; EvTrap t' 0]
       else [EvTrap t' 0]) ++ block_events t' r' rest
  end.
(** Those of a run stepped through. *)
Definition single_events (t : target) (rest : list (target * user_regs)) : list event :=
  (λ t, EvTrap t 0) <$> t :: rest.*1.

(** ** The trace of a run *)
Definition real (t : target) (r : user_regs) : snap := snap_of L (want_vec cfg) r t.
Definition capture_real (c : ctx) (x : target * user_regs) : ctx := (capture_at (mr_tracee x.1) (real x.1 x.2) c).1.
Fixpoint trace_run (c : ctx) (t : target) (r : user_regs) (rest : list (target * user_regs)) : ctx :=
  match rest with
  | [] => finalize_open (mr_tracee t) (real t r) c
  | (t', r') :: rest => trace_run (capture_real c (t, r)) t' r' rest
  end.
Definition last_state (t : target) (r : user_regs) (rest : list (target * user_regs)) : user_regs :=
  (default (t, r) (last rest)).2.

Lemma last_state_cons t r x rest : last_state t r (x :: rest) = last_state x.1 x.2 rest.
Proof. unfold last_state. rewrite last_cons. by destruct (last rest). Qed.

Lemma passes_seen t r rest : passes t r rest → seen t r.
Proof. by destruct 1. Qed.

(** Stepping through the run records its trace. *)
Lemma single_run st t r rest :
  passes t r rest → s_entered st = true → s_guard st + Z.of_nat (length rest) < DFB_STOP_BACKSTOP →
  ∃ o, single_loop always cfg operands L rbase rend 0 st (single_events t rest) = Some o ∧
    o_rc o = DF_BLOCKSTEP_OK ∧ o_result o = Some (rax (last_state t r rest)) ∧ o_rsp o = s_rsp st ∧
    o_stops o = s_nstop st + Z.of_nat (length rest) ∧ o_ctx o = trace_run (s_ctx st) t r rest.
Proof.
  intros Hp. revert st. induction Hp as [t r [Hr Hpv _ _] Hout|t r t' r' rest [Hr Hpv _ _] Hx _ Hp IH]; intros st He Hg.
  - cbn. unfold single_stop. cbn [s_guard s_ctx s_entered s_nstop s_rsp length] in *.
    rewrite (proj2 (Z.ltb_ge _ _)) by lia. rewrite Hr, Hout, He. simpl. eexists. split; [done|].
    cbn. rewrite andb_true_r, Z.add_0_r. done.
  - change (single_events t ((t', r') :: rest)) with (EvTrap t 0 :: single_events t' rest). cbn [single_loop].
    unfold single_stop. cbn [s_guard s_ctx s_entered s_nstop s_rsp length] in *.
    rewrite (proj2 (Z.ltb_ge _ _)) by lia. rewrite Hr, (x_in _ _ _ _ Hx), He. cbn [orb andb negb Z.eqb]. rewrite andb_true_r.
    edestruct IH as (o & -> & Hrc & Hres & Hrsp & Hst & Hctx); [reflexivity|cbn; lia|]. exists o. rewrite last_state_cons.
    cbn [s_nstop] in Hst. split_and!; [done..|lia|done].
Qed.

(** ** One instruction in the engine *)
Definition uview (e : engine) : snap := uc_snap cfg e.

Lemma follows_regs e t r : follows e t → seen t r → same_regs (gp (uview e)) (gp (real t r)).
Proof. intros Hf Hs. apply (f_regs _ _ Hf). apply (s_regs _ _ Hs). Qed.
Lemma follows_vec e t r : follows e t → seen t r → same_vec (vec (uview e)) (vec (real t r)).
Proof.
  intros Hf Hs. unfold uview, uc_snap, real, snap_of. simpl. destruct (want_vec cfg) eqn:Ew; [|by left].
  by apply (f_vec _ _ Hf).
Qed.
Lemma covered_alike e t r s s' rc : follows e t → seen t r → covered t rc → alike (mr_uc e) (mr_tracee t) s s' rc.
Proof.
  intros Hf Hs (Hsz & Hl & Hm). constructor; [done..|]. intros Hk Hr. destruct (Hm Hk Hr) as [Hin [bs Hbs]].
  unfold mr_tracee. rewrite (s_pvm _ _ Hs), Hbs. eapply (f_mem _ _ Hf); [lia|done..].
Qed.

(** What waits in the open step is covered at the next stop. *)
Definition pending (t : target) (c : ctx) : Prop :=
  Forall (λ rc, is_write rc = true → value_valid rc = false → covered t rc) (cur c).

Lemma pending_core t c c' : core c = core c' → pending t c → pending t c'.
Proof. intros E. unfold pending. by injection E as _ _ _ -> _. Qed.

Lemma ops_shape off :
  Forall (λ r, is_write r = false) (reads_of off) ∧ Forall (λ r, 0 <= size r) (writes_of off).
Proof.
  pose proof (Hops (c_code cfg) off) as Ho. unfold BsExact.reads_of, BsExact.writes_of, ops_at.
  destruct (operands _ _) as [[len rd] wr]. destruct Ho as (_ & _ & Hr & Hw).
  split; (eapply Forall_impl; [done|]); simpl; naive_solver.
Qed.

Lemma capture_pending mr s c t t' r r' :
  executes t t' r r' → gp s = r → pending t' (capture_at mr s c).1.
Proof.
  intros Hx Hg. unfold pending, BsReplay.capture_at, open_step.
  pose proof (ops_shape (off_at r)) as [Hrd _]. pose proof (x_writes _ _ _ _ Hx) as Hw.
  unfold BsExact.reads_of, BsExact.writes_of, BsExact.len_of, ops_at, BsExact.off_at in *. rewrite <-Hg in *.
  destruct (dfb_classify_at _ _ _) as [[imp u] d]. destruct (operands _ _) as [[len rd] wr]. simpl in *.
  assert (∀ t r', kind r' = AT_LOC_REG → 0 <= size r' → legacy r' → covered t r') as Hreg.
  { intros t0 rc Hk Hs Hl. split; [done|]. split; [done|]. intros Hne. by rewrite Hk in Hne. }
  apply open_writes_Forall; [apply open_reads_Forall; [|constructor|done]|].
  { intros rc Hrc Hwr. congruence. }
  apply Forall_app. split.
  - eapply Forall_impl; [exact Hw|]. intros rc (Hs & Hl & Hm) _ _. simpl in Hm. destruct (kind rc) eqn:Ek;
      [by apply Hreg|split; [done|]; split; [done|]; intros _; by apply Hm..].
  - unfold sc_writes. apply Forall_take. destruct imp; simpl; rewrite ?Forall_cons, ?Forall_nil; split_and?; try done;
      intros _ _; apply Hreg; done.
Qed.

(** Captured through the engine, an instruction is recorded as captured on the
    processor. *)
Lemma capture_follows e t t' r r' c c0 :
  follows e t → seen t r → executes t t' r r' → core c = core c0 → pending t c0 →
  core (capture_at (mr_uc e) (uview e) c).1 = core (capture_real c0 (t, r)) ∧
  (capture_at (mr_uc e) (uview e) c).2 = len_of (off_at r).
Proof.
  intros Hf Hs Hx Hc Hp. pose proof (follows_regs _ _ _ Hf Hs) as Hr. pose proof (follows_vec _ _ _ Hf Hs) as Hv.
  assert (off_at (gp (uview e)) = off_at r) as Eo.
  { pose proof (same_regs_field _ _ UC_RIP Hr ltac:(done)) as E.
    unfold BsExact.off_at. f_equal. f_equal. exact E. }
  assert (BsReplay.capture_at always cfg operands (mr_uc e) (uview e) c =
          BsReplay.capture_at always cfg operands (mr_tracee t) (real t r) c) as ->.
  { unfold BsReplay.capture_at. rewrite (finalize_same (mr_uc e) (mr_tracee t) (uview e) (real t r)); [|done..|].
    - apply open_same; [done..|]. rewrite Eo. eapply Forall_impl; [exact (x_reads _ _ _ _ Hx)|]. intros rc Hrc.
      unfold placed. rewrite (resolve_ea_same _ _ _ _ Hr). by eapply covered_alike.
    - eapply Forall_impl; [exact (pending_core _ _ _ (eq_sym Hc) Hp)|]. simpl. intros rc Hrc H1 H2.
      eapply covered_alike; [done..|]. by apply Hrc. }
  destruct (capture_core always cfg operands (mr_tracee t) (real t r) c c0 Hc) as [E1 E2].
  split; [exact E1|]. rewrite E2. apply capture_len.
Qed.

Context (Hlo : 0 <= rbase) (Hhi : rend < 2 ^ 64).

Lemma field_get e x : field (uc_get_regs e) x = default 0 (uc_reg_read e x).
Proof. by destruct x. Qed.
Lemma pc_follows e t r : follows e t → seen t r → default 0 (uc_reg_read e UC_RIP) = rip r.
Proof. intros Hf Hs. rewrite <-field_get. exact (same_regs_field _ _ UC_RIP (follows_regs _ _ _ Hf Hs) ltac:(done)). Qed.
Lemma next_pc t t' r r' : executes t t' r r' → rip r +64 len_of (off_at r) = rip r + len_of (off_at r).
Proof.
  intros Hx. pose proof (x_len _ _ _ _ Hx). pose proof (x_in _ _ _ _ Hx) as Hin. unfold in_region in Hin.
  apply andb_true_iff in Hin as [?%Z.leb_le ?%Z.ltb_lt]. apply u64_small. lia.
Qed.
Lemma imp_follows e t r mr c :
  follows e t → seen t r → cur_imp (capture_at mr (uview e) c).1 = imp_of (off_at r) r.
Proof.
  intros Hf Hs. rewrite (proj1 (capture_imp always cfg operands mr (uview e) c)).
  pose proof (follows_regs _ _ _ Hf Hs) as Hr. unfold BsExact.imp_of. rewrite (classify_same _ _ _ _ Hr).
  assert (off_at (gp (uview e)) = off_at r) as ->; [|done].
  unfold BsExact.off_at. f_equal. f_equal. exact (same_regs_field _ _ UC_RIP Hr ltac:(done)).
Qed.

(** An instruction the engine runs. *)
Lemma round_pure e t t' r r' c c0 :
  follows e t → seen t r → seen t' r' → executes t t' r r' → core c = core c0 → pending t c0 →
  imp_of (off_at r) r = DFB_IMP_NONE →
  ∃ c' e', uc_emu_start e (rip r) = Some e' ∧ follows e' t' ∧ core c' = core (capture_real c0 (t, r)) ∧
    ∀ pc_next next no_inject, block_round always cfg operands pc_next next no_inject c e =
    (if rip r' =? rip r + len_of (off_at r) then inl (c', e')
     else inr (if rip r' =? pc_next then 0 else 1, c', e')).
Proof.
  intros Hf Hs Hs' Hx Hc Hp Hi. destruct (capture_follows e t t' r r' c c0) as [Ec El]; [done..|].
  pose proof (x_effect _ _ _ _ Hx) as He. rewrite Hi in He. destruct (He e Hf) as (e' & Erun & Hf').
  pose proof (imp_follows e t r (mr_uc e) c Hf Hs) as Ei. unfold block_round.
  change (BsReplay.uc_snap cfg e) with (uview e). destruct (BsReplay.capture_at _ _ _ _ _ _) as [c1 len] eqn:E1.
  simpl in Ec, El, Ei. subst len. pose proof (x_len _ _ _ _ Hx).
  rewrite (proj2 (Z.eqb_neq _ _)) by lia.
  assert (rip (gp (uview e)) = rip r) as -> by exact (same_regs_field _ _ UC_RIP (follows_regs _ _ _ Hf Hs) ltac:(done)).
  rewrite (next_pc t t' r r') by done. simpl. rewrite Ei, Hi. rewrite Erun, (pc_follows e' t' r') by done.
  eexists _, e'. split; [done|]. split; [done|]. split; [|done]. exact Ec.
Qed.

(** ** Carrying an effect over *)
Lemma read_write e x v y : uc_reg_read (uc_reg_write e x v) y = if bool_decide (x = y) then Some v else uc_reg_read e y.
Proof. destruct (law_reg e x v) as (H1 & H2 & _). case_bool_decide; [by subst|auto]. Qed.
Lemma reg_write_keeps e x v : keeps_vec e (uc_reg_write e x v) ∧ keeps_mem e (uc_reg_write e x v).
Proof. by destruct (law_reg e x v) as (_ & _ & ?). Qed.

Definition keeps_most (e e' : engine) : Prop := keeps_vec e e' ∧ keeps_mem e e'.
Lemma keeps_most_trans e1 e2 e3 : keeps_most e1 e2 → keeps_most e2 e3 → keeps_most e1 e3.
Proof.
  intros [[V1 X1] M1] [[V2 X2] M2]. split; [split|]; [intros i; by rewrite V2, V1|by rewrite X2, X1|].
  intros a n. by rewrite M2, M1.
Qed.

(** The value of a register as it is carried over. *)
Definition carried_value (r : user_regs) (x : uc_reg) : Z :=
  if bool_decide (x = UC_EFLAGS) then without (eflags r) EFLAGS_STEP_BITS else field r x.

Lemma container_value r reg x : uc_gp_container reg = Some x → gp_value r reg = Some (carried_value r x).
Proof.
  unfold uc_gp_container, gp_value, DfTarget.gp_value.
  destruct (case_of reg [X86_REG_EFLAGS]) eqn:Ee.
  - unfold case_of in *. simpl in Ee. rewrite orb_false_r in Ee. apply Z.eqb_eq in Ee as ->. by intros [= <-].
  - repeat match goal with |- (if ?b then _ else _) = _ → _ => destruct b; [by intros [= <-]|] end. done.
Qed.

Lemma inject_recs next l e :
  keeps_most e (foldl (inject_rec next) e l) ∧
  ∀ x, uc_reg_read (foldl (inject_rec next) e l) x =
       if existsb (names x) l then Some (carried_value next x) else uc_reg_read e x.
Proof.
  revert e. induction l as [|r l IH]; intros e; [done|]. simpl. destruct (IH (inject_rec next e r)) as [Hk Hr].
  assert (keeps_most e (inject_rec next e r) ∧
          ∀ x, uc_reg_read (inject_rec next e r) x = if names x r then Some (carried_value next x) else uc_reg_read e x)
    as [Hk1 Hr1].
  { unfold inject_rec, names. destruct (is_write r); [|done]. simpl. destruct (bool_decide (kind r = AT_LOC_REG)); [|done].
    simpl. destruct (uc_gp_container (reg r)) as [y|] eqn:Ey; [|done]. rewrite (container_value next _ _ Ey).
    split; [apply reg_write_keeps|]. intros x. rewrite read_write. case_bool_decide as E1; case_bool_decide as E2; naive_solver. }
  split; [by eapply keeps_most_trans|]. intros x. rewrite Hr, Hr1. by destruct (names x r), (existsb (names x) l).
Qed.

(** What is written comes from the recorded state, the rest has not changed. *)
Lemma carried_reaches e e' t t' r r' imp :
  follows e t → seen t r → seen t' r' → executes t t' r r' → imp_of (off_at r) r = imp →
  imp ≠ DFB_IMP_NONE → keeps_most e e' →
  (∀ x, uc_reg_read e' x = if clobbers imp (off_at r) x then Some (carried_value r' x) else uc_reg_read e x) →
  reaches e' t'.
Proof.
  intros Hf Hs Hs' Hx Hi Hne [[Hv Hmx] Hm] Hr. pose proof (x_effect _ _ _ _ Hx) as He. rewrite Hi in He.
  pose proof (follows_regs _ _ _ Hf Hs) as [Hsame Hfl]. simpl in Hsame, Hfl.
  assert ((∀ x, x ≠ UC_EFLAGS → clobbers imp (off_at r) x = false → field r' x = field r x) ∧
          (clobbers imp (off_at r) UC_EFLAGS = false →
           without (eflags r') EFLAGS_STEP_BITS = without (eflags r) EFLAGS_STEP_BITS) ∧
          (want_vec cfg = true → xstate_read L t' = xstate_read L t) ∧
          (∀ a n, in_code a n → mem_bytes (t_mem t') a n = mem_bytes (t_mem t) a n)) as (Hreg & Heq & Hxs & Hcode)
    by (destruct imp; [by destruct Hne|by destruct He as (_ & _ & ? & ? & ? & ? & _)..|by destruct He]).
  constructor.
  - intros r0. rewrite (s_regs _ _ Hs'). intros [= <-]. split.
    + intros x Hne'. rewrite field_get, Hr. destruct (clobbers imp (off_at r) x) eqn:Ec.
      * simpl. unfold carried_value. by rewrite bool_decide_false.
      * rewrite <-field_get, Hsame by done. symmetry. by apply Hreg.
    + change (eflags (uc_get_regs e')) with (field (uc_get_regs e') UC_EFLAGS). rewrite field_get, Hr.
      destruct (clobbers imp (off_at r) UC_EFLAGS) eqn:Ec.
      * simpl. unfold carried_value, without. rewrite bool_decide_true by done. by rewrite Z.ldiff_ldiff_l, Z.lor_diag.
      * rewrite <-field_get. simpl. rewrite Heq by done. exact Hfl.
  - intros Hw. rewrite (Hxs Hw). destruct (f_vec _ _ Hf Hw) as [H1 H2].
    assert (uc_get_vec e' = uc_get_vec e) as ->; [|done]. unfold uc_get_vec. rewrite Hmx. f_equal. f_equal.
    apply list_fmap_ext. intros _ i _. by rewrite Hv.
  - intros a n bs Hn Hin. rewrite Hcode by done. rewrite Hm. apply (f_mem _ _ Hf); auto.
Qed.

Lemma existsb_Forall {A} (f : A → bool) l (b : bool) : Forall (λ x, f x = true → b = true) l → existsb f l = true → b = true.
Proof. intros Hl. rewrite existsb_exists. intros (x & Hx%list_elem_of_In & Hf). rewrite Forall_forall in Hl. by eapply Hl. Qed.

(** The registers a recorded site writes are those of its open step. *)
Lemma cur_names mr s c x :
  roomy c → imp_of (off_at (gp s)) (gp s) = DFB_IMP_HWREC →
  existsb (names x) (cur (capture_at mr s c).1) = existsb (names x) (writes_of (off_at (gp s))).
Proof.
  intros Hc Hi. apply Bool.eq_iff_eq_true. split.
  - apply existsb_Forall. unfold BsReplay.capture_at, open_step. unfold BsExact.imp_of, BsExact.off_at in Hi.
    pose proof (ops_shape (off_at (gp s))) as [Hrd _].
    unfold BsExact.writes_of, BsExact.reads_of, ops_at, BsExact.off_at in *.
    destruct (dfb_classify_at _ _ _) as [[imp u] d]. simpl in Hi. subst imp. destruct (operands _ _) as [[len rd] wr].
    cbn -[existsb names]. unfold sc_writes. rewrite take_nil, app_nil_r.
    apply open_writes_Forall; [apply open_reads_Forall; [|constructor|done]|].
    + intros r Hr. unfold names. by rewrite Hr.
    + apply Forall_forall. intros r Hr Hn. apply existsb_exists. exists r. split; [by apply list_elem_of_In|].
      unfold names in *. by destruct (kind r) eqn:Ek; simpl in Hn; rewrite ?Ek in *.
  - rewrite !existsb_exists. intros (r & Hr%list_elem_of_In & Hn).
    destruct (capture_writes cfg operands Hops mr s c Hc) as [_ Hin]. specialize (Hin r Hr).
    eexists. split; [by apply list_elem_of_In|]. unfold write_of, names in *.
    by destruct (kind r) eqn:Ek; simpl; rewrite ?Ek in *.
Qed.

(** An instruction whose effect is carried over. *)
Lemma round_carried e t t' r r' c c0 :
  follows e t → seen t r → seen t' r' → executes t t' r r' → core c = core c0 → pending t c0 → roomy c0 →
  imp_of (off_at r) r ≠ DFB_IMP_NONE →
  ∃ c' e', block_round always cfg operands (rip r') r' false c e = inr (0, c', e') ∧
    reaches e' t' ∧ keeps_mem e e' ∧ core c' = core (capture_real c0 (t, r)).
Proof.
  intros Hf Hs Hs' Hx Hc Hp Hroom Hne. destruct (capture_follows e t t' r r' c c0) as [Ec El]; [done..|].
  pose proof (x_effect _ _ _ _ Hx) as He. pose proof (imp_follows e t r (mr_uc e) c Hf Hs) as Ei.
  pose proof (follows_regs _ _ _ Hf Hs) as Hr.
  assert (rip (gp (uview e)) = rip r) as Epc by exact (same_regs_field _ _ UC_RIP Hr ltac:(done)).
  assert (off_at (gp (uview e)) = off_at r) as Eo by (unfold BsExact.off_at; by rewrite Epc).
  assert (∀ x, imp_of (off_at r) r = DFB_IMP_HWREC →
    existsb (names x) (cur (capture_at (mr_uc e) (uview e) c).1) = existsb (names x) (writes_of (off_at r))) as Hnames.
  { intros x Hi. rewrite <-Eo. apply cur_names.
    - rewrite (core_eq _ _ Hc). exact Hroom.
    - rewrite Eo. unfold BsExact.imp_of in *. by rewrite (classify_same _ _ _ _ Hr). }
  unfold block_round. change (BsReplay.uc_snap cfg e) with (uview e).
  destruct (BsReplay.capture_at _ _ _ _ _ _) as [c1 len] eqn:E1. simpl in Ec, El, Ei, Hnames. subst len.
  pose proof (x_len _ _ _ _ Hx). rewrite (proj2 (Z.eqb_neq _ _)) by lia. rewrite Epc, (next_pc t t' r r') by done.
  cbn [cur_imp set_acc]. rewrite Ei.
  assert (rip r' = rip r + len_of (off_at r)) as Erip.
  { destruct (imp_of (off_at r) r); [by destruct Hne|by destruct He as (? & _)..|done]. }
  rewrite <-Erip, Z.eqb_refl. cbn [negb orb].
  destruct (imp_of (off_at r) r) eqn:Eimp; [by destruct Hne|..|by destruct He].
  1,2: eexists _, _; split; [reflexivity|]; assert (∀ imp v pc, keeps_most e (inject_syscall imp e v pc)) as Hk
    by (intros imp v pc; unfold inject_syscall; destruct imp; repeat (eapply keeps_most_trans; [|apply reg_write_keeps]); done);
    split; [|split; [apply Hk|exact Ec]];
    apply (carried_reaches e _ t t' r r' _ Hf Hs Hs' Hx Eimp); [done|apply Hk|];
    intros x; unfold inject_syscall; rewrite !read_write; destruct x; reflexivity.
  eexists _, _. split; [reflexivity|]. destruct (inject_recs r' (cur c1) e) as [Hk Hrd]. unfold inject_site.
  assert (keeps_most e (uc_reg_write (foldl (inject_rec r') e (cur c1)) UC_RIP (rip r'))) as Hk'
    by (eapply keeps_most_trans; [exact Hk|apply reg_write_keeps]).
  split; [|split; [apply Hk'|exact Ec]].
  apply (carried_reaches e _ t t' r r' _ Hf Hs Hs' Hx Eimp); [done|exact Hk'|]. intros x.
  cbn [cur set_acc]. rewrite read_write, Hrd, Hnames by done. unfold clobbers. case_bool_decide as E.
  - subst x. done.
  - rewrite (bool_decide_false (x = UC_RIP)) by congruence. done.
Qed.

(** ** One block *)
(** Every capture starts with room in the record buffer. *)
Lemma capture_real_roomy c t r : roomy c → roomy (capture_real c (t, r)).
Proof. intros Hc. by apply capture_writes. Qed.

Definition window_mapped (e : engine) : Prop := is_Some (uc_mem_read e win_lo (Z.to_nat win_n)).

(** The next stop of a run, what follows it, and the breakpoint in front. *)
Fixpoint next_stop (r : user_regs) (t : target) (rest : list (target * user_regs)) :
    option (target * user_regs * list (target * user_regs) * option target) :=
  match rest with
  | [] => None
  | (t', r') :: rest =>
      if silent r r' then next_stop r' t' rest
      else Some (t', r', rest, if bool_decide (imp_of (off_at r) r = DFB_IMP_HWREC) then Some t else None)
  end.
Lemma next_stop_some t r rest :
  passes t r rest → in_region rbase rend (rip r) = true → is_Some (next_stop r t rest).
Proof.
  induction 1 as [|t r t' r' rest _ _ Hq _ IH]; intros Hin; [congruence|]. cbn [next_stop].
  destruct (silent r r') eqn:E; [|by eexists]. apply IH. destruct (in_region rbase rend (rip r')) eqn:E'; [done|].
  by specialize (Hq eq_refl).
Qed.

(** From a stop, the rounds run to the next one: the engine then is where the
    processor is, and the instructions are recorded as on the processor. *)
Lemma block_runs t r rest :
  passes t r rest → in_region rbase rend (rip r) = true → ∀ e c c0 fuel,
  follows e t → core c = core c0 → pending t c0 → roomy c0 → window_mapped e → rend - rip r <= Z.of_nat fuel →
  ∃ b rb rem hit c' c0' e', next_stop r t rest = Some (b, rb, rem, hit) ∧
    block_rounds always cfg operands fuel (rip rb) rb false c e = (0, c', e') ∧
    block_events t r rest =
      (match hit with Some th => [EvTrap th 1; EvTrap b 0] | None => [EvTrap b 0] end) ++ block_events b rb rem ∧
    match hit with Some th => is_Some (t_regs th) ∧ (0 < nhwrec)%nat | None => True end ∧
    passes b rb rem ∧ (length rem < length rest)%nat ∧ trace_run c0 t r rest = trace_run c0' b rb rem ∧
    last_state t r rest = last_state b rb rem ∧ core c' = core c0' ∧ pending b c0' ∧ roomy c0' ∧
    reaches e' b ∧ window_mapped e' ∧ (in_region rbase rend (rip rb) = false → follows e' b).
Proof.
  intros Hp. induction Hp as [t r Hs Hout|t r t' r' rest Hs Hx Hq Hp IH]; intros Hin e c c0 fuel Hf Hc Hpe Hroom Hwin Hfuel;
    [congruence|].
  pose proof (passes_seen _ _ _ Hp) as Hs'. pose proof (x_len _ _ _ _ Hx) as [Hlen Hle].
  assert (pending t' (capture_real c0 (t, r))) as Hpe' by by eapply capture_pending.
  pose proof (capture_real_roomy c0 t r Hroom) as Hroom'.
  destruct fuel as [|fuel]; [lia|]. cbn [block_rounds block_events next_stop].
  destruct (decide (imp_of (off_at r) r = DFB_IMP_NONE)) as [Ei|Ei].
  - destruct (rip r' =? rip r + len_of (off_at r)) eqn:Esil.
    + assert (in_region rbase rend (rip r') = true) as Hin'.
      { destruct (in_region rbase rend (rip r')) eqn:E; [done|]. specialize (Hq eq_refl). unfold silent in Hq.
        by rewrite bool_decide_true, Esil in Hq by done. }
      destruct (round_pure e t t' r r' c c0) as (c1 & e1 & Erun & Hf1 & Hc1 & Eround); [done..|].
      destruct (IH Hin' e1 c1 (capture_real c0 (t, r)) fuel) as
        (b & rb & rem & hit & c' & c0' & e' & Hns & Hr & Hev & Hhit & Hpb & Hlr & Htr & Hls & Hrest); [done..| |lia|].
      { destruct Hwin as [bs Hbs]. eapply law_run; [exact Erun|]. by exists bs. }
      exists b, rb, rem, hit, c', c0', e'. rewrite Eround, Esil. unfold silent. rewrite bool_decide_true, Esil by done.
      rewrite last_state_cons. split_and!; try done; try apply Hrest. simpl. lia.
    + destruct (round_pure e t t' r r' c c0) as (c1 & e1 & Erun & Hf1 & Hc1 & Eround); [done..|].
      exists t', r', rest, None, c1, (capture_real c0 (t, r)), e1. rewrite Eround, Esil, Z.eqb_refl. unfold silent.
      rewrite Esil, andb_false_r, (bool_decide_false (_ = DFB_IMP_HWREC)) by congruence. rewrite last_state_cons.
      split_and!; try done; [simpl; lia|by apply follows_reaches|].
      destruct Hwin as [bs Hbs]. eapply law_run; [exact Erun|]. by exists bs.
  - destruct (round_carried e t t' r r' c c0) as (c1 & e1 & Eround & Hr1 & Hk & Hc1); [done..|].
    pose proof (x_effect _ _ _ _ Hx) as He.
    exists t', r', rest, (if bool_decide (imp_of (off_at r) r = DFB_IMP_HWREC) then Some t else None),
      c1, (capture_real c0 (t, r)), e1.
    rewrite Eround. unfold silent. rewrite (bool_decide_false (_ = DFB_IMP_NONE)) by done. rewrite last_state_cons.
    assert (in_region rbase rend (rip r') = true) as Hin'.
    { destruct (imp_of (off_at r) r); [by destruct Ei|by destruct He as (_ & ? & _)..|done]. }
    split_and!; try done; [by case_bool_decide| |simpl; lia|by unfold window_mapped; rewrite Hk|congruence].
    case_bool_decide as Eh; [|done]. rewrite Eh in He. split; [rewrite (s_regs _ _ Hs); eauto|].
    by apply He.
Qed.

(** ** Seeding *)
Context (pages : nat) (Hpages : win_n = PAGE * Z.of_nat pages) (Halign : win_lo mod PAGE = 0).
Context (Hwin : 0 <= win_lo ∧ win_lo + win_n <= 2 ^ 64) (Hdisj : code_lo + code_n <= win_lo ∨ win_lo + win_n <= code_lo).

Lemma set_regs_reads e r l :
  keeps_most e (foldl (λ e x, uc_reg_write e x (field r x)) e l) ∧
  ∀ x, uc_reg_read (foldl (λ e x, uc_reg_write e x (field r x)) e l) x =
       if bool_decide (x ∈ l) then Some (field r x) else uc_reg_read e x.
Proof.
  revert e. induction l as [|y l IH]; intros e; [done|]. simpl. destruct (IH (uc_reg_write e y (field r y))) as [Hk Hr].
  split; [eapply keeps_most_trans; [apply reg_write_keeps|exact Hk]|]. intros x. rewrite Hr, read_write.
  repeat case_bool_decide; set_solver.
Qed.
Lemma set_regs_get e r : keeps_most e (uc_set_regs e r) ∧ ∀ x, uc_reg_read (uc_set_regs e r) x = Some (field r x).
Proof.
  destruct (set_regs_reads e r uc_regs) as [Hk Hr]. split; [done|]. intros x. unfold uc_set_regs. rewrite Hr.
  rewrite bool_decide_true; [done|]. destruct x; unfold uc_regs; set_solver.
Qed.

Lemma page_length t a : length (window_page t a) = Z.to_nat PAGE.
Proof.
  unfold window_page, mr_tracee. destruct (t_pvm t); [|apply length_replicate].
  destruct (mem_bytes (t_mem t) a (Z.to_nat PAGE)) eqn:E; [|apply length_replicate]. by apply mem_bytes_spec in E as [? _].
Qed.
Lemma mem_bytes_some m a n : (∀ i, (i < n)%nat → is_Some (m !! (a + Z.of_nat i))) → is_Some (mem_bytes m a n).
Proof.
  clear Hpages Hwin Hdisj Hlo Hhi Halign Hops.
  intros Hall. unfold mem_bytes. apply mapM_is_Some, Forall_forall. intros i Hi%elem_of_seq. apply Hall. lia.
Qed.
Lemma page_lookup t r a k b :
  seen t r → a mod PAGE = 0 → (k < Z.to_nat PAGE)%nat → t_mem t !! (a + Z.of_nat k) = Some b → window_page t a !! k = Some b.
Proof.
  intros Hs Ha Hk Hb. unfold window_page, mr_tracee. rewrite (s_pvm _ _ Hs).
  assert (is_Some (mem_bytes (t_mem t) a (Z.to_nat PAGE))) as [bs Hbs].
  { apply mem_bytes_some. intros i Hi. eapply (s_paged _ _ Hs (a + Z.of_nat k)); [by exists b|].
    unfold PAGE in *. apply Z.mod_divide in Ha as [q ->]; [|lia]. rewrite !Z.div_add_l by lia.
    rewrite !Z.div_small by lia. done. }
  rewrite Hbs. simpl. apply mem_bytes_spec in Hbs as [_ Hl]. rewrite <-Hl by done. done.
Qed.

Lemma window_S t a n : mr_tracee_window t a (S n) = window_page t (u64 a) ++ mr_tracee_window t (a + PAGE) n.
Proof.
  unfold mr_tracee_window. change (seq 0 (S n)) with (0%nat :: seq 1 n). rewrite fmap_cons. cbn [concat].
  rewrite Z.mul_0_r, Z.add_0_r. apply (f_equal (app _)). apply (f_equal (@concat Z)).
  rewrite <-fmap_S_seq, <-list_fmap_compose. apply list_fmap_ext. intros _ i _. unfold compose.
  apply (f_equal (window_page t)), (f_equal u64). lia.
Qed.
Lemma window_length t a n : length (mr_tracee_window t a n) = (n * Z.to_nat PAGE)%nat.
Proof.
  revert a. induction n as [|n IH]; intros a; [done|]. rewrite window_S, length_app, page_length, IH. lia.
Qed.
Lemma window_lookup t r a n k b :
  seen t r → a mod PAGE = 0 → 0 <= a → a + PAGE * Z.of_nat n <= 2 ^ 64 → (k < n * Z.to_nat PAGE)%nat →
  t_mem t !! (a + Z.of_nat k) = Some b → mr_tracee_window t a n !! k = Some b.
Proof.
  intros Hs. revert a k. induction n as [|n IH]; intros a k Ha Hpos Hb Hk Hm; [lia|].
  unfold PAGE in *. rewrite window_S, u64_small by (unfold PAGE; lia).
  destruct (decide (k < Z.to_nat 4096)%nat).
  - rewrite lookup_app_l by (rewrite page_length; done). by eapply page_lookup.
  - rewrite lookup_app_r by (rewrite page_length; unfold PAGE; lia). rewrite page_length. unfold PAGE. apply IH; [|lia..|].
    + rewrite <-Z.add_mod_idemp_r by lia. by rewrite Z_mod_same_full, Z.add_0_r.
    + rewrite <-Hm. f_equal. lia.
Qed.

(** The window holds the bytes of the tracee that are mapped. *)
Lemma window_bytes t r a n bs :
  seen t r → in_win a n → mem_bytes (t_mem t) a n = Some bs →
  take n (drop (Z.to_nat (a - win_lo)) (mr_tracee_window t win_lo pages)) = bs.
Proof.
  intros Hs [Ha Hb] [Hl Hm]%mem_bytes_spec. unfold PAGE in *.
  apply list_eq_same_length with n; [done| |].
  - rewrite length_take, length_drop, window_length. unfold PAGE. lia.
  - intros i x y Hi Hx Hy. rewrite lookup_take_lt, lookup_drop in Hx by done.
    rewrite <-Hm in Hy by done.
    assert (mr_tracee_window t win_lo pages !! (Z.to_nat (a - win_lo) + i)%nat = Some y) as Hw; [|congruence].
    eapply window_lookup; [done|exact Halign|lia|unfold PAGE; lia|unfold PAGE; lia|].
    rewrite <-Hy. f_equal. lia.
Qed.

Lemma seed_xmms vs l e n :
  (∀ i, i ∈ l → (i < 16)%nat ∧ (16 <= length (nth i (vz vs) []))%nat) →
  ∃ e' n', foldl (seed_xmm vs) (e, n) l = (e', n') ∧ keeps_regs e e' ∧ keeps_mem e e' ∧
    uc_mxcsr_read e' = uc_mxcsr_read e ∧
    ∀ i, uc_vec_read e' 16 i = if bool_decide (i ∈ l) then Some (take 16 (nth i (vz vs) [])) else uc_vec_read e 16 i.
Proof.
  revert e n. induction l as [|i l IH]; intros e n Hl; [by exists e, n|]. simpl.
  destruct (Hl i) as [Hi Hlen]; [set_solver|].
  destruct (law_vec e i (take 16 (nth i (vz vs) []))) as (e1 & -> & Hr & Hne & Hmx & Hk & Hm);
    [done|rewrite length_take; lia|]. rewrite Hr.
  edestruct (IH e1) as (e' & n' & -> & Hk' & Hm' & Hmx' & Hv); [intros j Hj; apply Hl; set_solver|].
  exists e', n'. split_and!; [done| | |congruence|].
  - intros x. by rewrite Hk', Hk.
  - intros a k. by rewrite Hm', Hm.
  - intros j. rewrite Hv. repeat case_bool_decide; set_solver.
Qed.

Lemma seed_vec_ok e vs :
  v_valid vs = true → 16 <= v_nregs vs → (∀ i, (i < 16)%nat → (16 <= length (nth i (vz vs) []))%nat) →
  ∃ e' n, uc_seed_vec e vs true = (e', n, true) ∧ keeps_regs e e' ∧ keeps_mem e e' ∧
    uc_mxcsr_read e' = Some (v_mxcsr vs) ∧ ∀ i, (i < 16)%nat → uc_vec_read e' 16 i = Some (take 16 (nth i (vz vs) [])).
Proof.
  intros Hv Hn Hl. unfold uc_seed_vec. rewrite Hv. cbn [negb]. rewrite Z.min_l by lia. change (Z.to_nat 16) with 16%nat.
  destruct (seed_xmms vs (seq 0 16) e 0) as (e1 & n & -> & Hk & Hm & Hmx & Hx).
  { intros i Hi%elem_of_seq. split; [lia|]. apply Hl. lia. }
  destruct (law_mxcsr e1 (v_mxcsr vs)) as (e2 & -> & Hr & Hvec & Hk2 & Hm2). rewrite Hr, Z.eqb_refl.
  exists e2, n. split_and!; [done| | |done|].
  - intros x. by rewrite Hk2, Hk.
  - intros a k. by rewrite Hm2, Hm.
  - intros i Hi. rewrite Hvec, Hx. rewrite bool_decide_true; [done|]. apply elem_of_seq. lia.
Qed.

Lemma get_vec_lane e i : (i < 16)%nat → nth i (vz (uc_get_vec e)) [] = default (replicate 16 0) (uc_vec_read e 16 i) ++ replicate 48 0.
Proof.
  intros Hi. unfold uc_get_vec. cbn [vz]. rewrite app_nth1 by (rewrite length_fmap, length_seq; done).
  apply nth_lookup_Some. rewrite list_lookup_fmap, lookup_seq_lt by done. done.
Qed.

(** The code and the window of an engine, before a block is seeded. *)
Definition ready (e : engine) (t : target) : Prop :=
  (∀ a n bs, (0 < n)%nat → in_code a n → mem_bytes (t_mem t) a n = Some bs → uc_mem_read e a n = Some bs) ∧ window_mapped e.

(** The engine put into the state of a stop, over what is left of the last block. *)
Lemma seeded_follows e t r :
  seen t r → ready e t →
  let e1 := uc_mem_write (uc_set_regs e r) win_lo (mr_tracee_window t win_lo pages) in
  (want_vec cfg = false → follows e1 t ∧ window_mapped e1) ∧
  (want_vec cfg = true → ∃ e2 n, uc_seed_vec e1 (xstate_read L t) true = (e2, n, true) ∧ follows e2 t ∧ window_mapped e2).
Proof.
  intros Hs [Hcode Hwm] e1. destruct (set_regs_get e r) as [[[Hv0 Hmx0] Hm0] Hr0].
  assert (Z.of_nat (length (mr_tracee_window t win_lo pages)) = win_n) as Elen.
  { rewrite window_length. unfold PAGE in *. lia. }
  destruct (law_write (uc_set_regs e r) win_lo (mr_tracee_window t win_lo pages)) as (Hk1 & Hv1 & Hm1).
  { rewrite Hm0. unfold window_mapped in Hwm. by replace (length _) with (Z.to_nat win_n) by lia. }
  assert (∀ x, uc_reg_read e1 x = Some (field r x)) as Hregs by (intros x; unfold e1; by rewrite Hk1, Hr0).
  assert (∀ e', keeps_regs e1 e' → same_regs (uc_get_regs e') r) as Hsame.
  { intros e' Hk. split; [intros x _|]; [|change (eflags (uc_get_regs e')) with (field (uc_get_regs e') UC_EFLAGS)];
      by rewrite field_get, Hk, Hregs. }
  assert (∀ a n bs, (0 < n)%nat → in_code a n ∨ in_win a n → mem_bytes (t_mem t) a n = Some bs →
            uc_mem_read e1 a n = Some bs) as Hmem.
  { intros a n bs Hn [Hin|Hin] Hbs; destruct (Hm1 a n) as [Hi Ho]; unfold e1.
    - rewrite Ho, Hm0; [by apply Hcode|]. destruct Hin. lia.
    - rewrite Hi by (destruct Hin; lia). f_equal. by eapply window_bytes. }
  assert (window_mapped e1) as Hw1.
  { unfold window_mapped, e1. destruct (Hm1 win_lo (Z.to_nat win_n)) as [-> _]; [by eexists|lia|lia]. }
  split; intros Hwv.
  - split; [|done]. constructor; [|congruence|done]. intros r'. rewrite (s_regs _ _ Hs). intros [= <-]. by apply Hsame.
  - destruct (s_vec _ _ Hs Hwv) as (Hval & Hnr & Hwd & Hlen).
    destruct (seed_vec_ok e1 (xstate_read L t) Hval Hnr Hlen) as (e2 & n & E & Hk & Hm & Hmx & Hx).
    exists e2, n. split; [done|]. split; [|by unfold window_mapped; rewrite Hm]. constructor.
    + intros r'. rewrite (s_regs _ _ Hs). intros [= <-]. by apply Hsame.
    + intros _. split; [|by unfold uc_get_vec; cbn [v_mxcsr]; rewrite Hmx]. right. split_and!; try done.
      intros i Hi. rewrite get_vec_lane, Hx by done. cbn [default from_option id].
      rewrite take_app_length'; [done|]. rewrite length_take. pose proof (Hlen i Hi). lia.
    + intros a k bs Hk' Hin Hbs. rewrite Hm. by apply Hmem.
Qed.

(** ** The canary *)
Lemma coherent_regs e b rb u : reaches e b → seen b rb → regs_coherent (uc_get_regs e) rb u = true.
Proof.
  intros Hr Hs. destruct (r_regs _ _ Hr rb (s_regs _ _ Hs)) as [Hx Hf]. unfold regs_coherent. apply andb_true_iff. split.
  - apply forallb_forall. intros x Hin%list_elem_of_In. apply Z.eqb_eq, Hx. intros ->. unfold canary_regs in Hin. set_solver.
  - apply Z.eqb_eq. unfold without in *. apply Z.bits_inj'. intros i Hi.
    pose proof (f_equal (λ z, Z.testbit z i) Hf) as Hb. cbn beta in Hb. rewrite !Z.ldiff_spec in Hb.
    rewrite !Z.land_spec, Z.ldiff_spec.
    destruct (Z.testbit EFLAGS_ARITH_MASK i) eqn:Em; [|by rewrite !andb_false_r].
    assert (Z.testbit EFLAGS_STEP_BITS i = false) as Es.
    { pose proof (Z.land_spec EFLAGS_ARITH_MASK EFLAGS_STEP_BITS i) as E. rewrite Em in E. simpl in E. rewrite <-E.
      change (Z.land EFLAGS_ARITH_MASK EFLAGS_STEP_BITS) with 0. by rewrite Z.bits_0. }
    rewrite Es in Hb. cbn [negb] in Hb. rewrite !andb_true_r in Hb. by rewrite Hb.
Qed.
Lemma coherent_vec e b rb :
  want_vec cfg = true → reaches e b → seen b rb → vec_coherent (uc_get_vec e) (xstate_read L b) = true.
Proof.
  intros Hw Hr Hs. destruct (r_vec _ _ Hr Hw) as [Hv Hmx]. destruct (s_vec _ _ Hs Hw) as (Hval & Hnr & _ & _).
  unfold vec_coherent. rewrite Hval. cbn [negb orb]. rewrite orb_false_r.
  destruct (negb (v_valid (uc_get_vec e))); [done|]. rewrite Hmx, Z.eqb_refl, andb_true_r. apply forallb_forall.
  intros i Hi%list_elem_of_In%elem_of_seq. apply bool_decide_true.
  destruct Hv as [->|(_ & _ & _ & _ & _ & _ & Hlanes)]; [done|]. apply Hlanes. lia.
Qed.

(** ** The block loop *)
Context (o : options) (entry_rsp : Z).
(** No test hook is set. *)
Definition plain : Prop :=
  no_vec_seed o = false ∧ no_mxcsr_seed o = false ∧ no_syscall_inject o = false ∧ inject_flag_bit o = 0.
Context (Hplain : plain) (Hsize : rend - rbase <= Z.of_nat (length (c_code cfg))).

Abbreviation block_stop := (BsReplay.block_stop always cfg operands L o rbase rend win_lo pages (-1) entry_rsp).
Abbreviation block_loop := (BsReplay.block_loop always cfg operands L o rbase rend win_lo pages nhwrec (-1) entry_rsp).

(** The loop at a stop: the last one's instructions are recorded as [c0] has
    them, and the engine can be seeded. *)
Record at_stop (st : bstate) (t : target) (r : user_regs) (c0 : ctx) : Prop := {
  st_cur : b_cur st = real t r; st_win : b_win st = mr_tracee_window t win_lo pages;
  st_core : core (b_ctx st) = core c0; st_ready : ready (b_eng st) t; st_pend : pending t c0; st_room : roomy c0;
}.

Lemma map_ready e e' t a n w : uc_mem_map e a n w = Some e' → ready e t → ready e' t.
Proof.
  intros (_ & _ & _ & Hk)%law_map [Hc [bs Hw]]. split; [intros; by eapply Hk, Hc|]. exists bs. by apply Hk.
Qed.

(** The engine at the start of a block. *)
Lemma seed_block_ok st t r c0 e :
  seen t r → at_stop st t r c0 → ready e t →
  ∃ e1 n mx, BsReplay.seed_block cfg o win_lo (-1) st e = (e1, n, mx) ∧ follows e1 t ∧ window_mapped e1.
Proof.
  intros Hs Hst Hr. destruct (seeded_follows e t r Hs Hr) as [H1 H2]. destruct Hplain as (P1 & P2 & _ & _).
  unfold seed_block. rewrite (st_cur _ _ _ _ Hst), (st_win _ _ _ _ Hst), P1, P2. cbn [gp real snap_of vec].
  unfold real, snap_of. cbn [gp vec negb]. rewrite andb_true_r. destruct (want_vec cfg) eqn:Ew.
  - destruct (H2 eq_refl) as (e2 & n & -> & Hf & Hw). by eexists _, _, _.
  - destruct (H1 eq_refl) as [Hf Hw]. by eexists _, _, _.
Qed.

(** One block: it is replayed, agrees with the processor, and is recorded. *)
Lemma block_stop_ok st t r rest c0 b rb rem hit :
  passes t r rest → in_region rbase rend (rip r) = true → at_stop st t r c0 → next_stop r t rest = Some (b, rb, rem, hit) →
  ∃ c0', block_events t r rest =
      (match hit with Some th => [EvTrap th 1; EvTrap b 0] | None => [EvTrap b 0] end) ++ block_events b rb rem ∧
    match hit with Some th => is_Some (t_regs th) ∧ (0 < nhwrec)%nat | None => True end ∧
    passes b rb rem ∧ (length rem < length rest)%nat ∧ trace_run c0 t r rest = trace_run c0' b rb rem ∧
    last_state t r rest = last_state b rb rem ∧
    if in_region rbase rend (rip rb)
    then ∃ st', block_stop st b rb = inl st' ∧ at_stop st' b rb c0' ∧ b_nstop st' = b_nstop st + 1
    else ∃ out, block_stop st b rb = inr out ∧ o_rc out = DF_BLOCKSTEP_OK ∧ o_result out = Some (rax rb) ∧
      o_rsp out = Some entry_rsp ∧ o_stops out = b_nstop st ∧ core (o_ctx out) = core (finalize_open (mr_tracee b) (real b rb) c0').
Proof.
  intros Hp Hin Hst Hns. pose proof (passes_seen _ _ _ Hp) as Hs.
  set (e0 := if in_region rbase rend (rip rb) then b_eng st
             else default (b_eng st) (uc_mem_map (b_eng st) (rip rb - rip rb mod PAGE) PAGE false)).
  assert (ready e0 t) as Hr0.
  { unfold e0. pose proof (st_ready _ _ _ _ Hst) as Hr. destruct (in_region rbase rend (rip rb)); [done|].
    destruct (uc_mem_map (b_eng st) _ _ _) as [e'|] eqn:E; [|done]. by eapply map_ready. }
  destruct (seed_block_ok st t r c0 e0 Hs Hst Hr0) as (e1 & n & mx & Eseed & Hf1 & Hw1).
  destruct (block_runs t r rest Hp Hin e1 (set_acc (b_ctx st) 0) c0 (length (c_code cfg) + 5)) as
    (b' & rb' & rem' & hit' & c' & c0' & e' & Hns' & Erun & Hev & Hhit & Hpb & Hlr & Htr & Hls & Hc' & Hpe & Hroom & Hre & Hw' & Hout);
    [done|exact (st_core _ _ _ _ Hst)|exact (st_pend _ _ _ _ Hst)|exact (st_room _ _ _ _ Hst)|done| |].
  { unfold in_region in Hin. apply andb_true_iff in Hin as [?%Z.leb_le _]. lia. }
  rewrite Hns in Hns'. injection Hns' as <- <- <- <-. exists c0'. split_and!; try done.
  pose proof (passes_seen _ _ _ Hpb) as Hsb. destruct Hplain as (P1 & P2 & P3 & P4).
  unfold BsReplay.block_stop. fold e0. rewrite Eseed. unfold step_block. cbn [b_ctx]. rewrite P3, Erun.
  change (0 <? 0) with false. change (0 =? 1) with false. rewrite P4, Z.eqb_refl.
  rewrite (coherent_regs e' b rb) by done. cbn [negb orb].
  assert (want_vec cfg && negb (no_vec_canary o) && negb (vec_coherent (if want_vec cfg then uc_get_vec e' else vec0)
            (vec (snap_of L (want_vec cfg) rb b))) = false) as ->.
  { destruct (want_vec cfg) eqn:Ew; [|done]. cbn [snap_of vec]. rewrite (coherent_vec e' b rb) by done.
    by rewrite andb_false_r. }
  destruct (in_region rbase rend (rip rb)) eqn:Eb.
  - eexists. split; [reflexivity|]. split; [|done]. constructor; try done. split; [exact (r_code _ _ Hre)|done].
  - eexists. split; [reflexivity|]. cbn [o_rc o_result o_rsp o_ctx o_stops b_end]. split_and!; try done.
    rewrite (finalize_core _ _ c' c0' Hc'). f_equal. specialize (Hout eq_refl).
    apply finalize_same; [exact (follows_regs _ _ _ Hout Hsb)| |].
    + unfold real, snap_of. cbn [vec]. destruct (want_vec cfg) eqn:Ew; [|by left].
      destruct (s_vec _ _ Hsb Ew) as (-> & _). by left.
    + eapply Forall_impl; [exact Hpe|]. intros rc Hrc H1 H2. eapply covered_alike; [done..|]. by apply Hrc.
Qed.

Lemma passes_outside t r rest : passes t r rest → in_region rbase rend (rip r) = false → rest = [].
Proof. intros Hp Hout. destruct Hp as [|t r t' r' rest _ Hx]; [done|]. pose proof (x_in _ _ _ _ Hx). congruence. Qed.

Lemma at_stop_hit st t r c0 :
  at_stop st t r c0 →
  at_stop (mk_bstate (count_hit (b_ctx st)) (b_eng st) (b_win st) (b_cur st) (b_nstop st) (b_idx st) (b_seeded st) (b_mxcsr st)) t r c0.
Proof. intros [H1 H2 H3 H4 H5 H6]. by constructor. Qed.

(** The whole run, block by block. *)
Lemma blocks_run k rest t r st c0 fuel :
  (length rest < k)%nat → passes t r rest → in_region rbase rend (rip r) = true → at_stop st t r c0 →
  (length (block_events t r rest) < fuel)%nat →
  ∃ out, block_loop fuel st (block_events t r rest) = Some out ∧ o_rc out = DF_BLOCKSTEP_OK ∧
    o_result out = Some (rax (last_state t r rest)) ∧ o_rsp out = Some entry_rsp ∧
    o_stops out < b_nstop st + Z.of_nat (length rest) ∧ core (o_ctx out) = core (trace_run c0 t r rest).
Proof.
  revert rest t r st c0 fuel. induction k as [|k IH]; intros rest t r st c0 fuel Hk Hp Hin Hst Hfuel; [lia|].
  destruct (next_stop_some t r rest Hp Hin) as [[[[b rb] rem] hit] Hns].
  set (st1 := match hit with
              | Some _ => mk_bstate (count_hit (b_ctx st)) (b_eng st) (b_win st) (b_cur st) (b_nstop st) (b_idx st)
                            (b_seeded st) (b_mxcsr st)
              | None => st end).
  assert (at_stop st1 t r c0) as Hst1 by (unfold st1; destruct hit; [by apply at_stop_hit|done]).
  assert (b_nstop st1 = b_nstop st) as Enst by (unfold st1; by destruct hit).
  destruct (block_stop_ok st1 t r rest c0 b rb rem hit) as (c0' & Hev & Hhit & Hpb & Hlr & Htr & Hls & Hstop); [done..|].
  rewrite Hev, Htr, Hls. rewrite Hev, length_app in Hfuel. pose proof (passes_seen _ _ _ Hpb) as Hsb.
  assert (∀ f, (length (block_events b rb rem) < f)%nat →
    ∃ out, match block_stop st1 b rb with inl st => block_loop f st (block_events b rb rem) | inr out => Some out end = Some out ∧
      o_rc out = DF_BLOCKSTEP_OK ∧ o_result out = Some (rax (last_state b rb rem)) ∧ o_rsp out = Some entry_rsp ∧
      o_stops out < b_nstop st + Z.of_nat (length rest) ∧ core (o_ctx out) = core (trace_run c0' b rb rem)) as Hgo.
  { intros f Hf. destruct (in_region rbase rend (rip rb)) eqn:Eb.
    - destruct Hstop as (st' & -> & Hst' & En). destruct (IH rem b rb st' c0' f) as (out & ? & ? & ? & ? & Hn & ?); [lia|done..|].
      exists out. split_and!; [done..| |done]. rewrite En, Enst in Hn. lia.
    - destruct Hstop as (out & -> & Hrc & Hres & Hrsp & Hn & Hcore). exists out. rewrite Hn, Enst.
      rewrite (passes_outside b rb rem Hpb Eb) in *. split_and!; (done || lia). }
  destruct fuel as [|fuel]; [lia|]. destruct hit as [th|]; cbn [app length] in *.
  - destruct Hhit as [[rh Hrh] Hn]. cbn [BsReplay.block_loop absorb]. rewrite Hrh, (proj2 (Nat.ltb_lt _ _) Hn).
    change (Z.land 1 15 =? 0) with false. cbn [andb negb]. rewrite (s_regs _ _ Hsb). apply Hgo. lia.
  - cbn [BsReplay.block_loop]. rewrite (s_regs _ _ Hsb). change (Z.land 0 15 =? 0) with true.
    rewrite andb_false_r. apply Hgo. lia.
Qed.

(** ** Standing the engine up *)
Lemma mem_slice m lo N bs a n :
  mem_bytes m lo N = Some bs → lo <= a → a + Z.of_nat n <= lo + Z.of_nat N →
  mem_bytes m a n = Some (take n (drop (Z.to_nat (a - lo)) bs)).
Proof.
  clear Hpages Hwin Hsize Hdisj Hlo Hhi Halign Hplain Hops.
  intros [Hl Hm]%mem_bytes_spec Hfrom Hto. destruct (mem_bytes_some m a n) as [bs' E].
  { intros i Hi. replace (a + Z.of_nat i) with (lo + Z.of_nat (Z.to_nat (a - lo) + i)) by lia.
    rewrite Hm by lia. apply lookup_lt_is_Some. lia. }
  rewrite E. f_equal. apply mem_bytes_spec in E as [Hl' Hm'].
  apply list_eq_same_length with n; [by rewrite length_take, length_drop; lia|done|].
  intros i x y Hi Hx Hy. rewrite lookup_take_lt, lookup_drop in Hy by done. rewrite <-Hm in Hy by lia.
  rewrite <-Hm' in Hx by done.
  replace (lo + Z.of_nat (Z.to_nat (a - lo) + i)) with (a + Z.of_nat i) in Hy by lia. congruence.
Qed.

(** The engine as it enters the loop can be seeded. *)
Lemma stand_up_ready base len t r e :
  seen t r → code_lo = align_down base → code_n = align_up (base +64 len) -64 code_lo →
  is_Some (mem_bytes (t_mem t) code_lo (Z.to_nat code_n)) →
  stand_up always cfg base len t win_lo win_n = Some e → ready e t.
Proof.
  clear Hpages Hwin Hsize Hdisj Hlo Hhi Halign Hplain Hops.
  intros Hs Elo En [bs Hbs]. unfold stand_up. rewrite <-Elo, <-En. destruct uc_open as [e0|]; [|done].
  destruct (uc_mem_map e0 code_lo code_n true) as [e1|] eqn:E1; [|done]. cbn [always negb].
  unfold mr_tracee. rewrite (s_pvm _ _ Hs), Hbs.
  destruct (uc_mem_map (uc_mem_write e1 code_lo bs) win_lo win_n true) as [e2|] eqn:E2; [|done]. intros [= <-].
  assert (0 <= code_n) as Hcn by (rewrite En; apply u64_range).
  assert (length bs = Z.to_nat code_n) as Hlen by by apply mem_bytes_spec in Hbs as [? _].
  apply law_map in E1 as (_ & _ & Hr1 & _). apply law_map in E2 as (_ & _ & Hr2 & Hk2).
  destruct (law_write e1 code_lo bs) as (_ & _ & Hm); [by rewrite Hlen|].
  split; [|exact Hr2]. intros a n x Hn [Hlo' Hhi'] Hx. apply Hk2. destruct (Hm a n) as [-> _]; [|done|lia].
  rewrite (mem_slice _ _ _ _ a n Hbs) in Hx by lia. done.
Qed.

Lemma entry_seed_ready e t r n mx e2 :
  seen t r → ready e t →
  (if want_vec cfg && negb (no_vec_seed o)
   then uc_seed_vec (uc_set_regs (uc_mem_write e win_lo (mr_tracee_window t win_lo pages)) r) (vec (real t r)) (negb (no_mxcsr_seed o))
   else (uc_set_regs (uc_mem_write e win_lo (mr_tracee_window t win_lo pages)) r, 0, false)) = (e2, n, mx) →
  ready e2 t.
Proof.
  intros Hs [Hcode Hwm]. destruct Hplain as (P1 & P2 & _ & _). rewrite P1, P2. cbn [negb]. rewrite andb_true_r.
  set (e1 := uc_set_regs _ r).
  assert (Z.of_nat (length (mr_tracee_window t win_lo pages)) = win_n) as Elen.
  { rewrite window_length. unfold PAGE in *. lia. }
  assert (ready e1 t) as Hr1.
  { destruct (law_write e win_lo (mr_tracee_window t win_lo pages)) as (_ & _ & Hm).
    { unfold window_mapped in Hwm. by replace (length _) with (Z.to_nat win_n) by lia. }
    destruct (set_regs_get (uc_mem_write e win_lo (mr_tracee_window t win_lo pages)) r) as [[_ Hk] _]. split.
    - intros a k bs Hk0 Hin Hbs. unfold e1. rewrite Hk. destruct (Hm a k) as [_ ->]; [by apply Hcode|]. destruct Hin. lia.
    - unfold window_mapped, e1. rewrite Hk. destruct (Hm win_lo (Z.to_nat win_n)) as [-> _]; [by eexists|lia|lia]. }
  destruct (want_vec cfg) eqn:Ew; [|by intros [= <- _ _]].
  unfold real, snap_of. rewrite Ew. cbn [vec]. destruct (s_vec _ _ Hs Ew) as (Hval & Hnr & _ & Hlen).
  destruct (seed_vec_ok e1 _ Hval Hnr Hlen) as (e3 & k & -> & _ & Hm & _). intros [= <- _ _].
  destruct Hr1 as [Hc1 Hw1]. split; [intros; rewrite Hm; eauto|]. unfold window_mapped in *. by rewrite Hm.
Qed.

(** ** The entry *)
(** Stops on the way to the region. *)
Definition glue (evs : list event) : Prop :=
  Forall (λ ev, ∃ t r d, ev = EvTrap t d ∧ t_regs t = Some r ∧ in_region rbase rend (rip r) = false) evs.

Lemma entry_glue evs t r d rest g :
  glue evs → t_regs t = Some r → in_region rbase rend (rip r) = true → g + Z.of_nat (length evs) < DFB_STOP_BACKSTOP →
  entry_loop rbase rend g (evs ++ EvTrap t d :: rest) = Some (Some (r, t), rest).
Proof.
  clear Hpages Hwin Hsize Hdisj Hlo Hhi Halign Hplain Hops.
  intros Hg Hr Hin. revert g. induction Hg as [|ev evs (tg & rg & dg & -> & Hrg & Hout) _ IH]; intros g Hlt; cbn [app entry_loop length] in *.
  - rewrite (proj2 (Z.leb_gt _ _)) by lia. by rewrite Hr, Hin.
  - rewrite (proj2 (Z.leb_gt _ _)) by lia. rewrite Hrg, Hout. apply IH. lia.
Qed.

Lemma single_glue evs rest st :
  glue evs → s_entered st = false → s_guard st + Z.of_nat (length evs) <= DFB_STOP_BACKSTOP →
  single_loop always cfg operands L rbase rend 0 st (evs ++ rest) =
  single_loop always cfg operands L rbase rend 0
    (mk_sstate (s_ctx st) false (s_nstop st) (s_guard st + Z.of_nat (length evs)) (s_rsp st)) rest.
Proof.
  clear Hpages Hwin Hsize Hdisj Hlo Hhi Halign Hplain Hops.
  intros Hg. revert st. induction Hg as [|ev evs (tg & rg & dg & -> & Hrg & Hout) _ IH]; intros st He Hlt; cbn [app length] in *.
  - destruct st; simpl in *. subst. by rewrite Z.add_0_r.
  - cbn [single_loop]. unfold single_stop. cbn [s_guard s_ctx s_entered s_nstop s_rsp].
    rewrite (proj2 (Z.ltb_ge _ _)) by lia. rewrite Hrg, Hout, He. rewrite IH by (simpl; (done || lia)).
    cbn [s_guard s_ctx s_entered s_nstop s_rsp]. f_equal. f_equal. lia.
Qed.

(** The stepped run, from the first stop outside on. *)
Lemma single_capture evs t r rest c :
  glue evs → passes t r rest → in_region rbase rend (rip r) = true →
  Z.of_nat (length evs) + Z.of_nat (length rest) + 1 < DFB_STOP_BACKSTOP →
  ∃ o, capture_singlestep always cfg operands L rbase rend 0 c (evs ++ single_events t rest) = Some o ∧
    o_rc o = DF_BLOCKSTEP_OK ∧ o_result o = Some (rax (last_state t r rest)) ∧ o_rsp o = Some (rsp r) ∧
    o_stops o = Z.of_nat (length rest) ∧ o_ctx o = trace_run c t r rest.
Proof.
  clear Hpages Hwin Hsize Hdisj Hlo Hhi Halign Hplain Hops.
  intros Hg Hp Hin Hlt. unfold capture_singlestep. rewrite single_glue by (done || (simpl; lia)).
  cbn [s_guard s_ctx s_nstop s_rsp].
  inversion Hp as [|? ? t' r' rest' Hs Hx Hq Hp']; subst; [congruence|].
  change (single_events t ((t', r') :: rest')) with (EvTrap t 0 :: single_events t' rest'). cbn [single_loop].
  unfold single_stop. cbn [s_guard s_ctx s_entered s_nstop s_rsp length] in *.
  rewrite (proj2 (Z.ltb_ge _ _)) by lia. rewrite (s_regs _ _ Hs), Hin. cbn [orb andb negb Z.eqb]. rewrite andb_true_r.
  edestruct (single_run (mk_sstate (capture_real c (t, r)) true (0 + 1) (0 + Z.of_nat (length evs) + 1) (Some (rsp r))) t' r' rest')
    as (out & E & Hrc & Hres & Hrsp & Hst & Hctx); [done|done|simpl; lia|].
  exists out. rewrite last_state_cons. cbn [s_nstop s_rsp s_ctx] in *. split_and!; [exact E|done..|lia|done].
Qed.
End machine.

(** ** The entry point *)
Section run.
Context `{Disasm, Unicorn} {HU : UnicornOk} (L : xlayout).
Context (operands : list Z → Z → Z * list at_val_rec * list at_val_rec) (Hops : DfSound.operands_ok operands).

(** The same options with the replay turned off. *)
Definition stepped (o : options) : options :=
  mk_options (max_insns o) true (inject_divergence o) (inject_block o) (region_off o) (no_vec_seed o) (no_mxcsr_seed o)
    (no_vec_canary o) (force_replay o) (stack_hi_pad o) (no_syscall_inject o) (o_no_undef_mask o) (inject_flag_bit o)
    (no_hw_record o) (o_extents o).

Definition scan_of (cs : bool) (code : list Z) (o : options) : dfb_scan :=
  region_scan cs (drop (Z.to_nat (region_off o)) code) ((λ e, (e.1 - region_off o, e.2)) <$> o_extents o).
Definition config_of (scan : dfb_scan) (code : list Z) (base : Z) (cs : bool) (o : options) : config :=
  mk_config code base (touches_vec scan && x_ok L) cs (o_no_undef_mask o).
Definition code_from (base : Z) : Z := align_down base.
Definition code_size (base : Z) (code : list Z) : Z := align_up (base +64 Z.of_nat (length code)) -64 code_from base.
Definition window_from (r : user_regs) : Z := align_down (rsp r -64 PAGE).

(** A run of the region that the gates let through, with no test hook set, on a
    machine where code and stack are apart and the engine can be set up. *)
Record replayable_run (code : list Z) (o : options) (base : Z) (cs1 cs2 : bool) (t : target) (r : user_regs)
    (rest : list (target * user_regs)) : Prop := {
  rr_plain : plain o; rr_pad : stack_hi_pad o = 0; rr_div : inject_divergence o = false; rr_max : max_insns o = 0;
  rr_force : force_singlestep o = false;
  rr_off : 0 <= region_off o < Z.of_nat (length code);
  rr_ext : extents_loop (Z.of_nat (length code)) (region_off o) (o_extents o) = true;
  rr_gate : scan_replay_ok (scan_of cs1 code o) = true;
  rr_base : 0 <= base ∧ base + Z.of_nat (length code) < 2 ^ 64;
  rr_win : PAGE <= rsp r ∧ window_from r + 12288 <= 2 ^ 64;
  rr_apart : code_from base + code_size base code <= window_from r ∨ window_from r + 12288 <= code_from base;
  rr_pages : is_Some (mem_bytes (t_mem t) (code_from base) (Z.to_nat (code_size base code)));
  rr_engine : is_Some (stand_up always (config_of (scan_of cs1 code o) code base cs2 o) base (Z.of_nat (length code)) t
                         (window_from r) 12288);
  rr_in : in_region (base + region_off o) (base + Z.of_nat (length code)) (rip r) = true;
  rr_run : passes (config_of (scan_of cs1 code o) code base cs2 o) operands L (base + region_off o)
             (base + Z.of_nat (length code)) (code_from base) (code_size base code) (window_from r) 12288
             (length (hwrec_off (scan_of cs1 code o))) t r rest;
}.

Abbreviation run := (asmtest_dataflow_blockstep_run always L operands).

Lemma block_capture code o base cs1 cs2 t r rest pre d poke drs c :
  replayable_run code o base cs1 cs2 t r rest → roomy c → cur c = [] →
  glue (base + region_off o) (base + Z.of_nat (length code)) pre → Z.of_nat (length pre) < DFB_STOP_BACKSTOP →
  let scan := scan_of cs1 code o in
  let cfg := config_of scan code base cs2 o in
  ∃ out drs', capture_blockstep always cfg operands L poke drs o base (Z.of_nat (length code)) (base + region_off o)
      (base + Z.of_nat (length code)) (hwrec_off scan) (-1) c
      (pre ++ EvTrap t d :: block_events cfg operands t r rest) = Some (out, drs') ∧
    o_rc out = DF_BLOCKSTEP_OK ∧ o_result out = Some (rax (last_state t r rest)) ∧ o_rsp out = Some (rsp r) ∧
    o_stops out <= Z.of_nat (length rest) ∧ core (o_ctx out) = core (trace_run cfg operands L c t r rest).
Proof.
  intros R Hroom Hcur Hg Hlt scan cfg. pose proof (rr_run _ _ _ _ _ _ _ _ R) as Hp. fold scan cfg in Hp.
  pose proof (passes_seen _ _ _ _ _ _ _ _ _ _ _ _ _ Hp) as Hs.
  destruct (rr_base _ _ _ _ _ _ _ _ R). destruct (rr_off _ _ _ _ _ _ _ _ R). destruct (rr_win _ _ _ _ _ _ _ _ R) as [Hw1 Hw2].
  assert (window_from r mod PAGE = 0 ∧ 0 <= window_from r) as [Hal Hpos].
  { unfold window_from, align_down. pose proof (u64_range (rsp r - PAGE)) as Hu. set (x := u64 _) in *. unfold PAGE.
    pose proof (Z.div_mod x 4096 ltac:(lia)). pose proof (Z.mod_pos_bound x 4096 ltac:(lia)).
    split; [|lia]. replace (x - x mod 4096) with (x / 4096 * 4096) by lia. apply Z_mod_mult. }
  unfold capture_blockstep.
  rewrite (entry_glue _ _ pre t r) by (done || apply (s_regs _ _ _ _ Hs) || apply (rr_in _ _ _ _ _ _ _ _ R)).
  rewrite (rr_pad _ _ _ _ _ _ _ _ R). change (12288 +64 align_up 0) with 12288. fold (window_from r).
  destruct (rr_engine _ _ _ _ _ _ _ _ R) as [e Ee]. fold scan cfg in Ee. rewrite Ee. change (Z.to_nat (12288 / PAGE)) with 3%nat.
  pose proof (stand_up_ready cfg L _ _ _ _ base _ t r e Hs eq_refl eq_refl (rr_pages _ _ _ _ _ _ _ _ R) Ee) as Hup.
  destruct (if want_vec cfg && negb (no_vec_seed o) then _ else _) as [[e2 n] mx] eqn:Eseed.
  assert (ready (code_from base) (code_size base code) (window_from r) 12288 e2 t) as Hready.
  { eapply (entry_seed_ready cfg operands Hops L (base + region_off o) (base + Z.of_nat (length code))) with (pages := 3%nat);
      [lia|lia|reflexivity|done|done|exact (rr_apart _ _ _ _ _ _ _ _ R)|exact (rr_plain _ _ _ _ _ _ _ _ R)|done|exact Hup|exact Eseed]. }
  edestruct (blocks_run cfg operands Hops L (base + region_off o) (base + Z.of_nat (length code)) (code_from base)
    (code_size base code) (window_from r) 12288 (length (hwrec_off scan))) with
    (k := S (length rest)) (rest := rest) (t := t) (r := r) (st := mk_bstate c e2 (mr_tracee_window t (window_from r) 3) (real cfg L t r) 1 0 n mx) (c0 := c)
    (fuel := S (length (block_events cfg operands t r rest))) (entry_rsp := rsp r) (o := o) (pages := 3%nat)
    as (out & Eloop & Hrc & Hres & Hrsp & Hst & Hcore);
    [lia|lia|reflexivity|done|done|exact (rr_apart _ _ _ _ _ _ _ _ R)|exact (rr_plain _ _ _ _ _ _ _ _ R)|unfold cfg, config_of; cbn [c_code]; lia|lia
    |exact Hp|exact (rr_in _ _ _ _ _ _ _ _ R)| |lia|].
  { constructor; try done. unfold pending. rewrite Hcur. constructor. }
  exists out. eexists. unfold real in Eloop. rewrite Eloop. cbn [b_nstop] in Hst. split_and!; [reflexivity|done..|lia|done].
Qed.

(** C16: the replay is exact.  Take a run that the gates let through, with no limit
    and no test hook set and memory granted, whose memory operands lie in the code
    pages or the three-page stack window and are mapped; the engine keeps its
    documented laws and executes instructions as the processor does, system calls and
    recorded sites change only what they are known to write.  Suppose that both captures first stop
    in the region at the same instruction ([fallthrough_entry_loses_steps]: a
    fall-through entry may not), that a stop follows exactly the instructions not
    continuing at the next one, so no branch is taken to the next
    ([branch_to_next_truncates]), that a branch leaves the region, and that there are
    fewer than 2{^20} stops.  Block-stepped and replayed between its stops, the run
    gives the same value trace, result and entry stack pointer as stepped one
    instruction at a time, with no more stops; both report success.  (A limit binds
    stepping alone, [limit_binds_stepping_only].) *)
Theorem replay_exact code args nargs o v base cs1 cs2 t r rest pre1 pre2 d poke drs
    (Hargs : 0 <= nargs <= 6 ∧ is_Some args) (Hrun : replayable_run code o base cs1 cs2 t r rest)
    (Hg1 : glue (base + region_off o) (base + Z.of_nat (length code)) pre1)
    (Hg2 : glue (base + region_off o) (base + Z.of_nat (length code)) pre2)
    (Hl1 : Z.of_nat (length pre1) + Z.of_nat (length rest) + 1 < DFB_STOP_BACKSTOP)
    (Hl2 : Z.of_nat (length pre2) < DFB_STOP_BACKSTOP) :
  let cfg := config_of (scan_of cs1 code o) code base cs2 o in
  ∃ vt' res i1 i2,
    run (Some code) args nargs (Some (stepped o)) (Some v)
      (mk_world cs1 cs2 (Some base) true poke drs (pre1 ++ single_events t rest)) =
      Some (DF_BLOCKSTEP_OK, Some res, Some vt', Some i1) ∧
    run (Some code) args nargs (Some o) (Some v)
      (mk_world cs1 cs2 (Some base) true poke drs (pre2 ++ EvTrap t d :: block_events cfg operands t r rest)) =
      Some (DF_BLOCKSTEP_OK, Some res, Some vt', Some i2) ∧
    i_pure i1 = false ∧ i_pure i2 = true ∧ i_rsp i1 = i_rsp i2 ∧ i_steps i1 = i_steps i2 ∧ i_stops i2 <= i_stops i1.
Proof.
  intros cfg. destruct (rr_base _ _ _ _ _ _ _ _ Hrun) as [Hb0 Hb1]. destruct (rr_off _ _ _ _ _ _ _ _ Hrun) as [Ho0 Ho1].
  destruct (rr_win _ _ _ _ _ _ _ _ Hrun) as [Hw1 Hw2]. destruct Hargs as [Hn [a ->]].
  set (c := ctx_of (DfStep.abs_space v)).
  destruct (block_capture code o base cs1 cs2 t r rest pre2 d poke drs c) as (ob & drs' & Eb & Brc & Bres & Brsp & Bst & Bcore);
    [done|by split|done..|]. fold cfg in Eb, Bcore.
  destruct (single_capture cfg operands L _ _ _ _ _ _ _ pre1 t r rest c Hg1 (rr_run _ _ _ _ _ _ _ _ Hrun)
              (rr_in _ _ _ _ _ _ _ _ Hrun) Hl1) as (os & Es & Src & Sres & Srsp & Sst & Sctx).
  assert (∀ o', region_off o' = region_off o → o_extents o' = o_extents o → o_no_undef_mask o' = o_no_undef_mask o →
    run (Some code) (Some a) nargs (Some o') (Some v) (mk_world cs1 cs2 (Some base) true poke drs
      (if force_singlestep o' then pre1 ++ single_events t rest
       else pre2 ++ EvTrap t d :: block_events cfg operands t r rest)) =
    match (if force_singlestep o'
           then capture_singlestep always cfg operands L (base + region_off o) (base + Z.of_nat (length code)) (max_insns o') c
                  (pre1 ++ single_events t rest)
           else fst <$> capture_blockstep always cfg operands L poke drs o' base (Z.of_nat (length code)) (base + region_off o)
                  (base + Z.of_nat (length code)) (hwrec_off (scan_of cs1 code o))
                  (if inject_divergence o' then inject_block o' else -1) c
                  (pre2 ++ EvTrap t d :: block_events cfg operands t r rest)) with
    | None => None
    | Some q => Some (o_rc q, o_result q, Some (vt (o_ctx q)), Some (mk_info (negb (force_singlestep o')) None (o_stops q)
        (Z.of_nat (steps_len (vt (o_ctx q)))) (default 0 (o_rsp q)) (asmtest_dataflow_blockstep_vec_width L).1
        (asmtest_dataflow_blockstep_vec_width L).2 uc_vec_width_probe (o_seeded q) (o_mxcsr q)
        (injectable (scan_of cs1 code o)) (injected (o_ctx q)) (hw_hits (o_ctx q))))
    end) as Hrun_eq.
  { intros o' E1 E2 E3. unfold asmtest_dataflow_blockstep_run. destruct code as [|x code]; [simpl in *; lia|].
    cbn [default from_option id w_scan_cs w_step_cs w_base w_spawned w_poke w_drs w_events].
    rewrite (proj2 (Z.ltb_ge nargs 0)), (proj2 (Z.ltb_ge 6 nargs)), andb_false_r by lia. cbn [orb]. rewrite E1, E2, E3.
    rewrite (proj2 (Z.leb_gt _ _)) by lia. rewrite (rr_ext _ _ _ _ _ _ _ _ Hrun). cbn [always negb]. rewrite andb_false_r.
    pose proof (rr_gate _ _ _ _ _ _ _ _ Hrun) as Hgate. unfold scan_of in Hgate |- *. rewrite Hgate. cbn [negb andb].
    rewrite !u64_small by lia. by destruct (force_singlestep o'). }
  exists (vt (o_ctx ob)), (rax (last_state t r rest)). eexists _, _.
  pose proof (Hrun_eq (stepped o) eq_refl eq_refl eq_refl) as E1. cbn [force_singlestep stepped max_insns] in E1.
  rewrite (rr_max _ _ _ _ _ _ _ _ Hrun), Es in E1. rewrite E1.
  pose proof (Hrun_eq o eq_refl eq_refl eq_refl) as E2. rewrite (rr_force _ _ _ _ _ _ _ _ Hrun), (rr_div _ _ _ _ _ _ _ _ Hrun), Eb in E2.
  rewrite E2. simpl. rewrite Src, Sres, Brc, Bres, Srsp, Brsp, Sctx.
  injection Bcore as Evt _ _ _ _ _ _ _. rewrite Evt. split_and!; try done. cbn [i_stops]. lia.
Qed.
End run.

(** ** An engine that satisfies the laws *)
Record toy_engine := mk_toy { y_reg : uc_reg → Z; y_vec : nat → list Z; y_mx : Z; y_mem : gmap Z Z }.
Definition set_reg (e : toy_engine) (x : uc_reg) (v : Z) : toy_engine :=
  mk_toy (λ y, if bool_decide (x = y) then v else y_reg e y) (y_vec e) (y_mx e) (y_mem e).

(** Its processor: 1 adds one to [rax], 2 sets the carry of the low nibble, 5
    jumps to 9, 6 returns, 8 jumps to the next instruction. *)
Definition toy_run (e : toy_engine) (pc : Z) : option toy_engine :=
  match y_mem e !! pc with
  | Some 1 => Some (set_reg (set_reg e UC_RAX (y_reg e UC_RAX + 1)) UC_RIP (pc + 1))
  | Some 2 => Some (set_reg (set_reg e UC_EFLAGS (Z.lor (y_reg e UC_EFLAGS) DFB_EFLAG_AF)) UC_RIP (pc + 1))
  | Some 5 => Some (set_reg e UC_RIP 9)
  | Some 8 => Some (set_reg e UC_RIP (pc + 1))
  | Some 6 => match mem_bytes (y_mem e) (y_reg e UC_RSP) 8 with
              | Some bs => Some (set_reg (set_reg e UC_RSP (y_reg e UC_RSP + 8)) UC_RIP (le bs))
              | None => None
              end
  | _ => None
  end.
#[local] Instance toy_unicorn : Unicorn := {|
  engine := toy_engine;
  uc_open := Some (mk_toy (λ _, 0) (λ _, replicate 16 0) MXCSR_DEFAULT ∅);
  uc_reg_read e x := Some (y_reg e x);
  uc_reg_write := set_reg;
  uc_vec_read e w i := if w =? 16 then Some (y_vec e i) else None;
  uc_vec_write e w i bs := if w =? 16 then Some (mk_toy (y_reg e) (λ j, if bool_decide (i = j) then bs else y_vec e j) (y_mx e) (y_mem e))
                           else None;
  uc_mxcsr_read e := Some (y_mx e);
  uc_mxcsr_write e v := Some (mk_toy (y_reg e) (y_vec e) v (y_mem e));
  uc_mem_map e a n _ := Some (mk_toy (y_reg e) (y_vec e) (y_mx e) (y_mem e ∪ map_seqZ a (replicate (Z.to_nat n) 0)));
  uc_mem_read e a n := mem_bytes (y_mem e) a n;
  uc_mem_write e a bs := mk_toy (y_reg e) (y_vec e) (y_mx e) (map_seqZ a bs ∪ y_mem e);
  uc_emu_start := toy_run;
|}.

Lemma mem_bytes_ext m m' a n :
  (∀ i, (i < n)%nat → m !! (a + Z.of_nat i) = m' !! (a + Z.of_nat i)) → mem_bytes m a n = mem_bytes m' a n.
Proof.
  intros Hi. unfold mem_bytes. assert (∀ l, (∀ i, i ∈ l → (i < n)%nat) →
    mapM (λ i, m !! (a + Z.of_nat i)) l = mapM (λ i, m' !! (a + Z.of_nat i)) l) as Hm.
  { induction l as [|j l IH]; intros Hl; [done|]. simpl. rewrite Hi by (apply Hl; set_solver).
    rewrite IH by (intros; apply Hl; set_solver). done. }
  apply Hm. intros i Hin%elem_of_seq. lia.
Qed.
Lemma mem_bytes_eq m a n bs :
  length bs = n → (∀ i, (i < n)%nat → m !! (a + Z.of_nat i) = bs !! i) → mem_bytes m a n = Some bs.
Proof.
  intros Hl Hm. destruct (mem_bytes_some m a n) as [bs' E].
  { intros i Hi. rewrite Hm by done. apply lookup_lt_is_Some. lia. }
  rewrite E. f_equal. apply mem_bytes_spec in E as [Hl' Hm']. apply list_eq_same_length with n; [done..|].
  intros i x y Hi Hx Hy. rewrite <-Hm' in Hx by done. rewrite <-Hm in Hy by done. congruence.
Qed.

Lemma toy_run_mem e pc e' : toy_run e pc = Some e' → y_mem e' = y_mem e.
Proof. unfold toy_run. repeat case_match; intros [= <-]; done. Qed.

#[local] Instance toy_unicorn_ok : UnicornOk.
Proof.
  constructor.
  - intros e x v. simpl. rewrite bool_decide_true by done. split_and!; [done| |done|done].
    intros y Hy. by rewrite bool_decide_false.
  - intros e a bs _. split_and!; [done..|]. intros a' n. split.
    + intros Hlo Hhi. simpl. apply mem_bytes_eq; [rewrite length_take, length_drop; lia|]. intros i Hi.
      rewrite lookup_take_lt, lookup_drop by done. destruct (lookup_lt_is_Some_2 bs (Z.to_nat (a' - a) + i)) as [b Hb]; [lia|].
      rewrite Hb. apply lookup_union_Some_l. apply lookup_map_seqZ_Some. split; [lia|]. rewrite <-Hb. f_equal. lia.
    + intros Hout. simpl. apply mem_bytes_ext. intros i Hi. apply lookup_union_r, lookup_map_seqZ_None. lia.
  - intros e a n w e' [= <-]. split_and!; [done..| |].
    + simpl. apply mem_bytes_some. intros i Hi. destruct (y_mem e !! (a + Z.of_nat i)) as [b|] eqn:E.
      * exists b. by apply lookup_union_Some_l.
      * rewrite lookup_union_r by done. exists 0. apply lookup_map_seqZ_Some. split; [lia|].
        apply lookup_replicate. split; [done|]. lia.
    + intros a' n' bs Hb. simpl in *. pose proof (mem_bytes_spec _ _ _ _ Hb) as [Hl Hm]. apply mem_bytes_eq; [done|].
      intros i Hi. destruct (lookup_lt_is_Some_2 bs i) as [b Hbi]; [lia|]. rewrite Hbi. apply lookup_union_Some_l.
      by rewrite Hm.
  - intros e i bs Hi Hl. eexists. split; [done|]. simpl. rewrite bool_decide_true by done. split_and!; [done| |done..].
    intros j Hj. by rewrite bool_decide_false.
  - intros e v. eexists. split; [done|]. done.
  - intros e pc e' a n Hr. simpl. by rewrite (toy_run_mem _ _ _ Hr).
Qed.

(** ** A run *)
(** [inc rax; syscall; ret] at 4096, its stack at 198656 with the return address
    9. *)
Definition demo_code : list Z := [1; 3; 6].
Definition demo_mem : gmap Z Z :=
  map_seqZ 4096 (demo_code ++ replicate (Z.to_nat 4093) 0) ∪
  map_seqZ 192512 (replicate (Z.to_nat 6144) 0 ++ [9; 0; 0; 0; 0; 0; 0; 0] ++ replicate (Z.to_nat 6136) 0).
Definition demo_regs (pc a c r sp : Z) : user_regs := mk_regs a 0 c 0 0 0 0 sp 0 0 0 r 0 0 0 0 pc 2 0 0.
Definition demo_target (r : user_regs) : target := mk_target (Some r) None None demo_mem true 0.
Definition demo_r0 : user_regs := demo_regs 4096 38 0 0 198656.
Definition demo_r1 : user_regs := demo_regs 4097 39 0 0 198656.
Definition demo_r2 : user_regs := demo_regs 4098 1234 4098 258 198656.
Definition demo_r3 : user_regs := demo_regs 9 1234 4098 258 198664.

Definition demo_operands (dec : list Z) (off : Z) : Z * list at_val_rec * list at_val_rec :=
  let rg x w := mk_rec AT_LOC_REG x 0 0 0 0 0 0 w false false 0 0 0 in
  match nth (Z.to_nat off) dec 0 with
  | 1 => (1, [rg X86_REG_RAX false], [rg X86_REG_RAX true])
  | 6 => (1, [rg X86_REG_RSP false; mk_rec AT_LOC_MEM_ABS 0 X86_REG_RSP 0 0 0 0 8 false false false 0 0 0], [rg X86_REG_RSP true])
  | 2 | 3 | 5 | 8 => (1, [], [])
  | _ => (0, [], [])
  end.
Lemma demo_operands_ok : DfSound.operands_ok demo_operands.
Proof. intros dec off. unfold demo_operands. repeat case_match; simplify_eq; rewrite ?Forall_cons, ?Forall_nil;
  simpl; split_and!; try done; lia. Qed.

Lemma seq_mapped (l : list Z) lo a : is_Some ((map_seqZ lo l : gmap Z Z) !! a) ↔ lo <= a < lo + Z.of_nat (length l).
Proof.
  rewrite lookup_map_seqZ. destruct (decide (lo <= a)).
  - rewrite option_guard_True by done. rewrite lookup_lt_is_Some. lia.
  - rewrite option_guard_False by done. split; [by intros [? ?]|lia].
Qed.
Lemma demo_mapped a : is_Some (demo_mem !! a) ↔ 4096 <= a < 8192 ∨ 192512 <= a < 204800.
Proof.
  unfold demo_mem. rewrite lookup_union_is_Some, !seq_mapped, !length_app, !length_replicate.
  change (length demo_code) with 3%nat. change (length [9; 0; 0; 0; 0; 0; 0; 0]) with 8%nat. lia.
Qed.
Lemma demo_range a n :
  (4096 <= a ∧ a + Z.of_nat n <= 8192) ∨ (192512 <= a ∧ a + Z.of_nat n <= 204800) → is_Some (mem_bytes demo_mem a n).
Proof. intros Ha. apply mem_bytes_some. intros i Hi. apply demo_mapped. lia. Qed.
Lemma demo_byte a b : (demo_code ++ replicate (Z.to_nat 4093) 0) !! Z.to_nat (a - 4096) = Some b → 4096 <= a → demo_mem !! a = Some b.
Proof. intros Hb Ha. apply lookup_union_Some_l, lookup_map_seqZ_Some. done. Qed.
Lemma demo_insn a b : demo_mem !! a = Some b → mem_bytes demo_mem a 1 = Some [b].
Proof. intros Hb. apply mem_bytes_eq; [done|]. intros i Hi. assert (i = 0%nat) as -> by lia. by rewrite Z.add_0_r. Qed.
Lemma demo_return : mem_bytes demo_mem 198656 8 = Some [9; 0; 0; 0; 0; 0; 0; 0].
Proof.
  apply mem_bytes_eq; [done|]. intros i Hi. unfold demo_mem. rewrite lookup_union_r.
  - rewrite lookup_map_seqZ, option_guard_True by lia. rewrite lookup_app_r by (rewrite length_replicate; lia).
    rewrite length_replicate. replace (Z.to_nat (198656 + Z.of_nat i - 192512) - Z.to_nat 6144)%nat with i by lia.
    by rewrite lookup_app_l by done.
  - apply lookup_map_seqZ_None. rewrite length_app, length_replicate. simpl. lia.
Qed.

#[local] Existing Instance toy_disasm.
#[local] Opaque demo_mem.
Definition demo_cfg : config := config_of xlayout0 (scan_of true demo_code options0) demo_code 4096 true options0.
Abbreviation demo_follows := (follows demo_cfg xlayout0 4096 4096 192512 12288).
Abbreviation demo_executes := (executes demo_cfg demo_operands xlayout0 4096 4099 4096 4096 192512 12288 0).

Lemma demo_regs_of e r x : demo_follows e (demo_target r) → x ≠ UC_EFLAGS → y_reg e x = field r x.
Proof. intros Hf Hx. destruct (f_regs _ _ _ _ _ _ _ _ Hf r eq_refl) as [Hr _]. by destruct x; apply (Hr _ Hx). Qed.
Lemma demo_read e r a n bs :
  demo_follows e (demo_target r) → (0 < n)%nat →
  (4096 <= a ∧ a + Z.of_nat n <= 8192) ∨ (192512 <= a ∧ a + Z.of_nat n <= 204800) →
  mem_bytes demo_mem a n = Some bs → mem_bytes (y_mem e) a n = Some bs.
Proof. intros Hf Hn Hin. apply (f_mem _ _ _ _ _ _ _ _ Hf); [done|]. unfold in_code, in_win. lia. Qed.
Lemma demo_step e r e' r' :
  demo_follows e (demo_target r) → y_mem e' = y_mem e → y_reg e' UC_EFLAGS = y_reg e UC_EFLAGS → eflags r' = eflags r →
  (∀ x, x ≠ UC_EFLAGS → y_reg e' x = field r' x) → demo_follows e' (demo_target r').
Proof.
  intros Hf Hm Hfl Hef Hr. constructor.
  - intros r0 [= <-]. destruct (f_regs _ _ _ _ _ _ _ _ Hf r eq_refl) as [_ Hf0]. split.
    + intros x Hx. rewrite field_get. by apply Hr.
    + rewrite Hef. simpl in *. by rewrite Hfl.
  - done.
  - intros a n bs Hn Hin Hbs. simpl. rewrite Hm. by apply (f_mem _ _ _ _ _ _ _ _ Hf).
Qed.

Lemma demo_seen r : seen demo_cfg xlayout0 (demo_target r) r.
Proof.
  constructor; [done..|]. intros a b. simpl. rewrite !demo_mapped. unfold PAGE. intros Ha Hb.
  pose proof (Z.div_mod a 4096 ltac:(lia)). pose proof (Z.mod_pos_bound a 4096 ltac:(lia)).
  pose proof (Z.div_mod b 4096 ltac:(lia)). pose proof (Z.mod_pos_bound b 4096 ltac:(lia)).
  rewrite Hb in *. lia.
Qed.

Definition demo_rec (x : Z) (w : bool) : at_val_rec := mk_rec AT_LOC_REG x 0 0 0 0 0 0 w false false 0 0 0.
Definition demo_slot : at_val_rec := mk_rec AT_LOC_MEM_ABS 0 X86_REG_RSP 0 0 0 0 8 false false false 0 0 0.

Lemma demo_reg_covered t r len x w : vec_reg_info x = None → covered 4096 4096 192512 12288 t (placed r len (demo_rec x w)).
Proof. intros Hx. split; [done|]. split; [|done]. intros idx wd. simpl. by rewrite Hx. Qed.

Lemma demo_ops :
  ops_at demo_cfg demo_operands (off_at demo_cfg demo_r0) = (1, [demo_rec X86_REG_RAX false], [demo_rec X86_REG_RAX true]) ∧
  ops_at demo_cfg demo_operands (off_at demo_cfg demo_r1) = (1, [], []) ∧
  ops_at demo_cfg demo_operands (off_at demo_cfg demo_r2) = (1, [demo_rec X86_REG_RSP false; demo_slot], [demo_rec X86_REG_RSP true]).
Proof. vm_compute. done. Qed.
Ltac demo_shape := unfold len_of, reads_of, writes_of; rewrite ?(proj1 demo_ops), ?(proj1 (proj2 demo_ops)), ?(proj2 (proj2 demo_ops)); cbn [fst snd].

Lemma demo_inc : demo_executes (demo_target demo_r0) (demo_target demo_r1) demo_r0 demo_r1.
Proof.
  constructor; demo_shape; [done|done| | |].
  - constructor; [by apply demo_reg_covered|constructor].
  - constructor; [by apply demo_reg_covered|constructor].
  - change (imp_of demo_cfg (off_at demo_cfg demo_r0) demo_r0) with DFB_IMP_NONE. intros e Hf.
    assert (y_mem e !! 4096 = Some 1) as Hb.
    { pose proof (demo_read e _ 4096 1 [1] Hf ltac:(lia) ltac:(lia) ltac:(by apply demo_insn, demo_byte)) as E.
      apply mem_bytes_spec in E as [_ E]. specialize (E 0%nat ltac:(lia)). done. }
    eexists. split; [simpl; unfold toy_run; by rewrite Hb|]. eapply demo_step; [exact Hf|done..|].
    intros x Hx. simpl. rewrite !(demo_regs_of e _ _ Hf) by done. by destruct x.
Qed.
Lemma demo_syscall : demo_executes (demo_target demo_r1) (demo_target demo_r2) demo_r1 demo_r2.
Proof.
  constructor; demo_shape; [done|done| | |].
  - constructor.
  - constructor.
  - change (imp_of demo_cfg (off_at demo_cfg demo_r1) demo_r1) with DFB_IMP_SYSCALL. split_and!; try done.
    intros x _. by destruct x.
Qed.
Lemma demo_ret : demo_executes (demo_target demo_r2) (demo_target demo_r3) demo_r2 demo_r3.
Proof.
  constructor; demo_shape; [done|done| | |].
  - constructor; [by apply demo_reg_covered|]. constructor; [|constructor].
    split; [done|]. split; [done|]. intros _ _. split; [right; by vm_compute|]. exists [9; 0; 0; 0; 0; 0; 0; 0]. apply demo_return.
  - constructor; [by apply demo_reg_covered|constructor].
  - change (imp_of demo_cfg (off_at demo_cfg demo_r2) demo_r2) with DFB_IMP_NONE. intros e Hf.
    assert (y_mem e !! 4098 = Some 6) as Hb.
    { pose proof (demo_read e _ 4098 1 [6] Hf ltac:(lia) ltac:(lia) ltac:(by apply demo_insn, demo_byte)) as E.
      apply mem_bytes_spec in E as [_ E]. specialize (E 0%nat ltac:(lia)). done. }
    pose proof (demo_read e _ 198656 8 _ Hf ltac:(lia) ltac:(lia) demo_return) as Hs.
    pose proof (demo_regs_of e _ UC_RSP Hf ltac:(done)) as Er.
    eexists. split; [simpl; unfold toy_run; rewrite Hb, Er; simpl; by rewrite Hs|]. eapply demo_step; [exact Hf|done..|].
    intros x Hx. simpl. rewrite !(demo_regs_of e _ _ Hf) by done. by destruct x.
Qed.

Definition demo_rest : list (target * user_regs) := (λ r, (demo_target r, r)) <$> [demo_r1; demo_r2; demo_r3].
Lemma demo_passes :
  passes demo_cfg demo_operands xlayout0 4096 4099 4096 4096 192512 12288 0 (demo_target demo_r0) demo_r0 demo_rest.
Proof.
  apply passes_step; [apply demo_seen|apply demo_inc|done|].
  apply passes_step; [apply demo_seen|apply demo_syscall|done|].
  apply passes_step; [apply demo_seen|apply demo_ret|by vm_compute|].
  apply passes_end; [apply demo_seen|done].
Qed.

Lemma toy_stand_up cfg base len t wl wn : is_Some (stand_up always cfg base len t wl wn).
Proof. unfold stand_up. cbn [uc_open toy_unicorn uc_mem_map always negb]. by eexists. Qed.

Lemma demo_replayable : replayable_run xlayout0 demo_operands demo_code options0 4096 true true (demo_target demo_r0) demo_r0 demo_rest.
Proof.
  constructor.
  1-10: vm_compute; repeat split; done.
  - left. by vm_compute.
  - apply (demo_range 4096 (Z.to_nat (code_size 4096 demo_code))). left. split; [done|]. by vm_compute.
  - apply toy_stand_up.
  - done.
  - exact demo_passes.
Qed.

(** Both runs record the three steps, the system call's result and the stack slot
    the [ret] reads. *)
Definition demo_sink : asmtest_valtrace := mk_vt (Some []) 8 0 None false (Some []) 16 0 None 0 false AT_LOC_MEM_ABS.
Definition outside_stop : event := EvTrap (demo_target (demo_regs 9 0 0 0 0)) 0.
Definition demo_world (evs : list event) : world := mk_world true true (Some 4096) true (λ _ _, true) (replicate 8 0) evs.
Definition demo_run (o : options) (evs : list event) : option (Z * option Z * option asmtest_valtrace * option info) :=
  asmtest_dataflow_blockstep_run always xlayout0 demo_operands (Some demo_code) (Some []) 0 (Some o) (Some demo_sink) (demo_world evs).

Definition summary (x : Z * option Z * option asmtest_valtrace * option info) :
    Z * option Z * option (list Z * list (Z * bool * Z)) :=
  (x.1.1.1, x.1.1.2, option_map (λ v, (offs v, map (λ r, (reg r, is_write r, value r)) (vrecs v))) x.1.2).
Lemma demo_stepped :
  option_map summary (demo_run (stepped options0) (outside_stop :: single_events (demo_target demo_r0) demo_rest)) =
  Some (DF_BLOCKSTEP_OK, Some 1234, Some ([0; 1; 2],
    [(X86_REG_RAX, false, 38); (X86_REG_RAX, true, 39);
     (X86_REG_RAX, true, 1234); (X86_REG_RCX, true, 4098); (X86_REG_R11, true, 258);
     (X86_REG_RSP, false, 198656); (0, false, 9); (X86_REG_RSP, true, 198664)])).
Proof. vm_compute. reflexivity. Qed.

Lemma replay_exact_witness :
  ∃ vt' i1 i2,
    demo_run (stepped options0) (outside_stop :: single_events (demo_target demo_r0) demo_rest) =
      Some (DF_BLOCKSTEP_OK, Some 1234, Some vt', Some i1) ∧
    demo_run options0 [outside_stop; EvTrap (demo_target demo_r0) 0; EvTrap (demo_target demo_r2) 0; EvTrap (demo_target demo_r3) 0] =
      Some (DF_BLOCKSTEP_OK, Some 1234, Some vt', Some i2) ∧ offs vt' = [0; 1; 2] ∧ i_stops i2 <= i_stops i1.
Proof.
  assert (glue 4096 4099 [outside_stop]) as Hg.
  { constructor; [|constructor]. eexists _, _, _. split; [reflexivity|]. split; [reflexivity|]. reflexivity. }
  destruct (replay_exact xlayout0 demo_operands demo_operands_ok demo_code (Some []) 0 options0 demo_sink 4096 true true
    (demo_target demo_r0) demo_r0 demo_rest [outside_stop] [outside_stop] 0 (λ _ _, true) (replicate 8 0)) as
    (v & res & i1 & i2 & E1 & E2 & _ & _ & _ & _ & Hst);
    [split; [lia|by eexists]|exact demo_replayable|exact Hg|exact Hg|done|done|].
  pose proof demo_stepped as Hd. unfold demo_run, demo_world in *. cbn [app] in E1, E2. rewrite E1 in Hd.
  simpl in Hd. injection Hd as -> Ho _. exists v, i1, i2. split; [exact E1|]. split; [|split; [exact Ho|exact Hst]].
  rewrite <-E2. reflexivity.
Defined.
End BsExact.
