(* ===== verification/BsLimits.v ===== *)
(** What the caller of [asmtest_dataflow_blockstep_run] may conclude from its
    return code, for every decoder, every engine and every sequence of stops, and
    where the replay gives up although the engine is right. *)
From stdpp Require Import strings.
From S2P Require Import Prelude Bytes Grow RegSlice ValTrace DfTarget DfStep BsScan BsReplay BsExact.

Module BsLimits.
Import RegSlice ValTrace DfTarget BsScan BsReplay BsExact.

(** ** Return codes *)
(** A result exactly with success, and a partial trace that says so. *)
Record reports (rc : Z) (res : option Z) (v : asmtest_valtrace) : Prop := {
  rp_code : rc = DF_BLOCKSTEP_OK ∨ rc = DF_BLOCKSTEP_FAULT ∨ rc = DF_BLOCKSTEP_ETRACE;
  rp_result : is_Some res ↔ rc = DF_BLOCKSTEP_OK;
  rp_flag : rc = DF_BLOCKSTEP_FAULT → vtruncated v = true;
}.
Abbreviation told out := (reports (o_rc out) (o_result out) (vt (o_ctx out))).

Lemma told_ok c x : reports DF_BLOCKSTEP_OK (Some x) c.
Proof. split; [by left| |done]. split; [done|by eexists]. Qed.
Lemma told_fault c : reports DF_BLOCKSTEP_FAULT None (DfStep.vt_flag c).
Proof. split; [by right; left| |done]. split; [by intros []|done]. Qed.
Lemma told_lost c : reports DF_BLOCKSTEP_ETRACE None c.
Proof. split; [by right; right| |done]. split; [by intros []|done]. Qed.
#[local] Hint Resolve told_ok told_fault told_lost : core.

Section outcomes.
Context `{Disasm} (grant : allocator) (cfg : config) (L : xlayout).
Context (operands : list Z → Z → Z * list at_val_rec * list at_val_rec).

Lemma push_open c r : have_cur (push_cur grant c r) = have_cur c.
Proof. unfold push_cur. by destruct (DfStep.recbuf_push _ _ _ _). Qed.
Lemma fold_open {A} (f : ctx → A → ctx) l c :
  (∀ c x, have_cur (f c x) = have_cur c) → have_cur (foldl f c l) = have_cur c.
Proof. intros Hf. revert c. induction l as [|x l IH]; intros c; [done|]. simpl. by rewrite IH. Qed.
Lemma capture_opens mr s c : have_cur (capture_at grant cfg operands mr s c).1 = true.
Proof.
  unfold capture_at, open_step. destruct (dfb_classify_at _ _ _) as [[imp u] d]. destruct (operands _ _) as [[len rd] wr].
  cbn [fst]. rewrite fold_open by (intros; apply push_open). rewrite fold_open; [done|]. intros c' r. unfold open_read.
  destruct (match kind r with AT_LOC_REG => _ | _ => _ end). by rewrite push_open.
Qed.

Lemma single_stop_told rbase rend max st t :
  (s_entered st = true → have_cur (s_ctx st) = true) →
  match single_stop grant cfg operands L rbase rend max st t with
  | inl st => s_entered st = true → have_cur (s_ctx st) = true
  | inr out => told out
  end.
Proof.
  intros Hst. unfold single_stop. cbn [s_guard s_entered s_ctx]. destruct (_ <? _); [simpl; by auto|].
  destruct (t_regs t) as [regs|]; [|simpl; by auto]. destruct (in_region _ _ _).
  - destruct (negb _ && _); [simpl; by auto|]. intros _. apply capture_opens.
  - destruct (s_entered st) eqn:Ee; [simpl; by auto|done].
Qed.
Lemma single_told rbase rend max st evs out :
  (s_entered st = true → have_cur (s_ctx st) = true) →
  single_loop grant cfg operands L rbase rend max st evs = Some out → told out.
Proof.
  revert st. induction evs as [|[| | | | | |t d] evs IH]; intros st Hst; simpl; try (intros [= <-]; simpl; by auto); [by eauto| |by eauto|].
  - intros [= <-]. simpl. destruct (s_entered st); [rewrite Hst by done; simpl; by auto|simpl; by auto].
  - pose proof (single_stop_told rbase rend max st t Hst) as Hs.
    destruct (single_stop _ _ _ _ _ _ _ _ _) as [st'|o]; [by eauto|]. by intros [= <-].
Qed.

Section replayed.
Context `{Unicorn}.

Lemma block_stop_told o rbase rend wb wp inj rsp st t regs out :
  block_stop grant cfg operands L o rbase rend wb wp inj rsp st t regs = inr out → told out.
Proof.
  unfold block_stop. destruct (seed_block _ _ _ _ _ _) as [[e n] mx]. destruct (step_block _ _ _ _ _ _ _) as [[brc c] e'].
  destruct (brc <? 0); [intros [= <-]; simpl; by auto|]. cbv zeta. destruct (_ || _); [intros [= <-]; simpl; by auto|].
  destruct (in_region _ _ _); [done|]. intros [= <-]; simpl; by auto.
Qed.
Lemma absorb_told rsp st evs out : absorb rsp st evs = Some (inr out) → told out.
Proof. induction evs as [|[| | | | | |t d] evs IH]; simpl; try done; try (intros [= <-]; simpl; by auto). Qed.
Lemma block_told o rbase rend wb wp n inj rsp fuel st evs out :
  block_loop grant cfg operands L o rbase rend wb wp n inj rsp fuel st evs = Some out → told out.
Proof.
  revert st evs. induction fuel as [|fuel IH]; intros st evs; [done|]. simpl.
  assert (∀ st t evs, match t_regs t with
    | None => Some (b_lost rsp st)
    | Some regs => match block_stop grant cfg operands L o rbase rend wb wp inj rsp st t regs with
                   | inl st => block_loop grant cfg operands L o rbase rend wb wp n inj rsp fuel st evs
                   | inr out => Some out
                   end
    end = Some out → told out) as Hsettle.
  { intros st' t evs'. destruct (t_regs t); [|intros [= <-]; simpl; by auto].
    destruct (block_stop _ _ _ _ _ _ _ _ _ _ _ _ _ _) eqn:E; [by eauto|]. intros [= <-]. by eapply block_stop_told. }
  destruct evs as [|[| | | | | |t d] evs]; try (intros [= <-]; simpl; by auto); [by eauto|].
  destruct (t_regs t) eqn:Et; [|intros [= <-]; simpl; by auto].
  destruct (_ && _); [|intros Hg; apply (Hsettle st t evs); by rewrite Et]. destruct (absorb _ _ _) as [[[t' evs']|o']|] eqn:Ea; [| |done].
  - destruct (t_regs t') eqn:Et'; [|intros [= <-]; simpl; by auto]. intros Hg. eapply (Hsettle _ t' evs'). rewrite Et'. exact Hg.
  - intros [= <-]. by eapply absorb_told.
Qed.
Lemma capture_block_told poke drs o base len rbase rend hw inj c evs out drs' :
  capture_blockstep grant cfg operands L poke drs o base len rbase rend hw inj c evs = Some (out, drs') → told out.
Proof.
  unfold capture_blockstep. destruct (entry_loop _ _ _ _) as [[[[regs t]|] evs']|]; [|intros [= <-]; simpl; by auto|done].
  destruct (stand_up _ _ _ _ _ _ _); [|intros [= <-]; simpl; by auto].
  destruct (if _ && _ then _ else _) as [[e' n] mx]. destruct (block_loop _ _ _ _ _ _ _ _ _ _ _ _ _ _ _) eqn:E; [|done].
  intros [= <- _]. by eapply block_told.
Qed.
End replayed.
End outcomes.

(** ** The caller's view *)
(** C39: whatever the decoder, the engine and the kernel answer, the run ends in one
    of four codes; it stores a result exactly when it succeeds; arguments it
    rejects leave the sink alone; and a trace it calls partial is flagged
    truncated. *)
Theorem run_outcomes `{Disasm, Unicorn} grant L operands code args nargs o v w rc res v' inf
    (Hrun : asmtest_dataflow_blockstep_run grant L operands code args nargs o (Some v) w = Some (rc, res, Some v', inf)) :
  (rc = DF_BLOCKSTEP_EINVAL ∧ res = None ∧ inf = None ∧ v' = v) ∨ (is_Some inf ∧ reports rc res v').
Proof.
  revert Hrun. unfold asmtest_dataflow_blockstep_run. destruct code as [[|b code]|]; try (intros [= <- <- <- <-]; by left).
  set (cd := b :: code). cbv zeta. destruct (_ || _ || _); [intros [= <- <- <- <-]; by left|].
  destruct (_ <=? _); [intros [= <- <- <- <-]; by left|]. destruct (negb (extents_loop _ _ _)); [intros [= <- <- <- <-]; by left|].
  destruct (_ && negb (grant _)); [intros [= <- <- <- <-]; right; by eauto|].
  destruct (w_base w) as [base|]; [|intros [= <- <- <- <-]; right; by eauto].
  destruct (negb (w_spawned w)); [intros [= <- <- <- <-]; right; by eauto|].
  destruct (if _ && _ then fst <$> _ else _) as [out|] eqn:E; [|done]. intros [= <- <- <- <-]. right. split; [by eexists|].
  destruct (negb _ && _).
  - destruct (capture_blockstep _ _ _ _ _ _ _ _ _ _ _ _ _ _ _) as [[out' drs]|] eqn:Ec; [|done]. injection E as <-.
    by eapply capture_block_told.
  - eapply single_told; [|exact E]. done.
Qed.

(** ** Runs on a small engine *)
#[local] Existing Instance toy_disasm.

(** Registers and sixteen bytes of code.  1 adds one to [rax], 2 sets the carry of
    the low nibble, 5 and 6 leave for address 9, 8 jumps to the next instruction. *)
Record small_engine := mk_small { m_reg : uc_reg → Z; m_code : list Z }.
Definition small_set (e : small_engine) (x : uc_reg) (v : Z) : small_engine :=
  mk_small (λ y, if bool_decide (x = y) then v else m_reg e y) (m_code e).
Definition small_run (e : small_engine) (pc : Z) : option small_engine :=
  match nth (Z.to_nat (pc - 4096)) (m_code e) 0 with
  | 1 => Some (small_set (small_set e UC_RAX (m_reg e UC_RAX + 1)) UC_RIP (pc + 1))
  | 2 => Some (small_set (small_set e UC_EFLAGS (Z.lor (m_reg e UC_EFLAGS) DFB_EFLAG_AF)) UC_RIP (pc + 1))
  | 5 | 6 => Some (small_set e UC_RIP 9)
  | 8 => Some (small_set e UC_RIP (pc + 1))
  | _ => None
  end.
#[local] Instance small_unicorn : Unicorn := {|
  engine := small_engine;
  uc_open := Some (mk_small (λ _, 0) []);
  uc_reg_read e x := Some (m_reg e x);
  uc_reg_write := small_set;
  uc_vec_read _ _ _ := None;
  uc_vec_write _ _ _ _ := None;
  uc_mxcsr_read _ := None;
  uc_mxcsr_write _ _ := None;
  uc_mem_map e _ _ _ := Some e;
  uc_mem_read _ _ _ := None;
  uc_mem_write e a bs := if a =? 4096 then mk_small (m_reg e) (take 16 bs) else e;
  uc_emu_start := small_run;
|}.

(** A stop at [pc], with [a], [f] and [sp] in [rax], [eflags] and [rsp]. *)
Definition lim_regs (pc a f sp : Z) : user_regs := mk_regs a 0 0 0 0 0 0 sp 0 0 0 0 0 0 0 0 pc f 0 0.
Definition stop_at (r : user_regs) : event := EvTrap (mk_target (Some r) None None ∅ true 0) 0.
Definition lim_run (o : options) (code : list Z) (evs : list event) :
    option (Z * option Z * option asmtest_valtrace * option info) :=
  asmtest_dataflow_blockstep_run always xlayout0 demo_operands (Some code) (Some []) 0 (Some o) (Some demo_sink) (demo_world evs).
(** The code, the result, the offsets recorded and the flag. *)
Definition verdict (x : option (Z * option Z * option asmtest_valtrace * option info)) :
    option (Z * option Z * list Z * bool) :=
  (λ y, (y.1.1.1, y.1.1.2, from_option offs [] y.1.2, from_option vtruncated false y.1.2)) <$> x.

(** The instruction 2 leaves the adjust flag undefined, and the engine sets it
    where the processor does not.  Followed by a return the difference is
    tolerated; followed by a branch that only tests flags, the same replay is cut
    short, because the branch counts as having defined every flag. *)
Theorem flag_test_truncates :
  verdict (lim_run options0 [2; 6] [stop_at (lim_regs 4096 38 2 198656); stop_at (lim_regs 9 38 2 198656)]) =
    Some (DF_BLOCKSTEP_OK, Some 38, [0; 1], false) ∧
  verdict (lim_run options0 [2; 5; 6] [stop_at (lim_regs 4096 38 2 198656); stop_at (lim_regs 9 38 2 198656)]) =
    Some (DF_BLOCKSTEP_FAULT, None, [0], true).
Proof. split; vm_compute; reflexivity. Qed.

(** The run of [flag_test_truncates] that is cut short. *)
Definition cut_world : world :=
  demo_world [stop_at (lim_regs 4096 38 2 198656); stop_at (lim_regs 9 38 2 198656)].
Abbreviation cut_run :=
  (asmtest_dataflow_blockstep_run always xlayout0 demo_operands (Some [2; 5; 6]) (Some []) 0 (Some options0) (Some demo_sink) cut_world).
Lemma cut_verdict : verdict cut_run = Some (DF_BLOCKSTEP_FAULT, None, [0], true).
Proof. vm_compute. reflexivity. Qed.
Lemma run_outcomes_witness :
  ∃ v inf, cut_run = Some (DF_BLOCKSTEP_FAULT, None, Some v, Some inf) ∧ offs v = [0] ∧ vtruncated v = true.
Proof.
  pose proof cut_verdict as Hv. destruct cut_run as [[[[rc res] [v|]] inf]|] eqn:E; [|discriminate Hv|discriminate Hv].
  destruct (run_outcomes always xlayout0 demo_operands (Some [2; 5; 6]) (Some []) 0 (Some options0) demo_sink cut_world
    rc res v inf E) as [(-> & _)|([i ->] & Hr)]; [discriminate Hv|].
  injection Hv as -> -> Ho _. exists v, i. split; [reflexivity|]. split; [exact Ho|]. apply (rp_flag _ _ _ Hr). reflexivity.
Defined.

(** A branch taken to the instruction after it ends a block on the processor and
    not in the replay, which runs on past the real stop and is cut short. *)
Theorem branch_to_next_truncates :
  let code := [8; 6] in
  verdict (lim_run options0 code [stop_at (lim_regs 4096 38 2 198656); stop_at (lim_regs 4097 38 2 198656);
                                  stop_at (lim_regs 9 38 2 198656)]) =
    Some (DF_BLOCKSTEP_FAULT, None, [0], true).
Proof. vm_compute. reflexivity. Qed.

(** Entry code that runs into the region without a jump: the replay begins at the
    first stop inside, so the first two of the three instructions that the
    stepped run records are missing, and nothing says so. *)
Definition past_glue : options := mk_options 0 false false (-1) 1 false false false false 0 false false 0 false [].
Theorem fallthrough_entry_loses_steps :
  let code := [1; 1; 8; 6] in
  let at_ pc a := stop_at (lim_regs pc a 2 198656) in
  let out := stop_at (lim_regs 9 40 2 198656) in
  verdict (lim_run (stepped past_glue) code [at_ 4096 38; at_ 4097 39; at_ 4098 40; at_ 4099 40; out]) =
    Some (DF_BLOCKSTEP_OK, Some 40, [1; 2; 3], false) ∧
  verdict (lim_run past_glue code [at_ 4096 38; at_ 4099 40; out]) = Some (DF_BLOCKSTEP_OK, Some 40, [3], false).
Proof. split; vm_compute; reflexivity. Qed.

(** A limit on the instructions stops the stepped run and not the replayed one. *)
Definition one_insn : options := mk_options 1 false false (-1) 0 false false false false 0 false false 0 false [].
Theorem limit_binds_stepping_only :
  let code := [1; 1; 6] in
  let at_ pc a := stop_at (lim_regs pc a 2 198656) in
  let out := stop_at (lim_regs 9 40 2 198656) in
  verdict (lim_run (stepped one_insn) code [at_ 4096 38; at_ 4097 39; at_ 4098 40; out]) =
    Some (DF_BLOCKSTEP_FAULT, None, [0], true) ∧
  verdict (lim_run one_insn code [at_ 4096 38; out]) = Some (DF_BLOCKSTEP_OK, Some 40, [0; 1; 2], false).
Proof. split; vm_compute; reflexivity. Qed.

(** A signal inside the region ends both captures as if the tracer had failed: the
    steps already recorded are not flagged as partial. *)
Theorem signal_is_not_flagged :
  let code := [1; 1; 6] in
  let at_ pc a := stop_at (lim_regs pc a 2 198656) in
  verdict (lim_run (stepped options0) code [at_ 4096 38; at_ 4097 39; EvSignal]) =
    Some (DF_BLOCKSTEP_ETRACE, None, [0], false) ∧
  verdict (lim_run options0 [8; 1; 5; 6] [stop_at (lim_regs 4096 38 2 198656); EvSignal]) =
    Some (DF_BLOCKSTEP_ETRACE, None, [], false).
Proof. split; vm_compute; reflexivity. Qed.
End BsLimits.
