(* ===== verification/Sha256.v ===== *)
(** The digest that names a recorded routine ([cli/asmtrace_sha256.h]): the
    streaming hash with its 64-byte buffer, and the hash of a whole message it
    computes. *)
From S2P Require Import Prelude Format.

Module Sha256.
Open Scope Z_scope.

(** ** Words *)
Definition asmtrace_sha256_ror (x n : Z) : Z := Z.lor (Z.shiftr x n) (u32 (Z.shiftl x (32 - n))).
(** [~e] on 32 bits *)
Definition not32 (e : Z) : Z := UINT32_MAX - e.

(** The words of one row of the table, written next to each other. *)
Definition unpack (n : nat) (row : Z) : list Z :=
  (λ i, Z.shiftr row (32 * Z.of_nat (n - 1 - i)) mod 2 ^ 32) <$> seq 0 n.
Definition K : list Z := Eval vm_compute in concat [
  unpack 5 0x428a2f9871374491b5c0fbcfe9b5dba53956c25b;
  unpack 5 0x59f111f1923f82a4ab1c5ed5d807aa9812835b01;
  unpack 5 0x243185be550c7dc372be5d7480deb1fe9bdc06a7;
  unpack 5 0xc19bf174e49b69c1efbe47860fc19dc6240ca1cc;
  unpack 5 0x2de92c6f4a7484aa5cb0a9dc76f988da983e5152;
  unpack 5 0xa831c66db00327c8bf597fc7c6e00bf3d5a79147;
  unpack 5 0x06ca63511429296727b70a852e1b21384d2c6dfc;
  unpack 5 0x53380d13650a7354766a0abb81c2c92e92722c85;
  unpack 5 0xa2bfe8a1a81a664bc24b8b70c76c51a3d192e819;
  unpack 5 0xd6990624f40e3585106aa07019a4c1161e376c08;
  unpack 5 0x2748774c34b0bcb5391c0cb34ed8aa4a5b9cca4f;
  unpack 5 0x682e6ff3748f82ee78a5636f84c878148cc70208;
  unpack 4 0x90befffaa4506cebbef9a3f7c67178f2].

(** ** One block *)
(** [w[0..15]] from the block's bytes. *)
Definition load_word (p : list Z) (i : nat) : Z :=
  Z.lor (Z.lor (Z.lor (u32 (Z.shiftl (p !!! (i * 4)%nat) 24)) (Z.shiftl (p !!! (i * 4 + 1)%nat) 16))
    (Z.shiftl (p !!! (i * 4 + 2)%nat) 8)) (p !!! (i * 4 + 3)%nat).
(** One round of the second loop: [w[i]] for [i = length w]. *)
Definition extend (w : list Z) : list Z :=
  let i := length w in
  let w15 := w !!! (i - 15)%nat in
  let w2 := w !!! (i - 2)%nat in
  let s0 := Z.lxor (Z.lxor (asmtrace_sha256_ror w15 7) (asmtrace_sha256_ror w15 18)) (Z.shiftr w15 3) in
  let s1 := Z.lxor (Z.lxor (asmtrace_sha256_ror w2 17) (asmtrace_sha256_ror w2 19)) (Z.shiftr w2 10) in
  w ++ [u32 (w !!! (i - 16)%nat + s0 + w !!! (i - 7)%nat + s1)].
Definition message_schedule (p : list Z) : list Z :=
  Nat.iter 48 extend (load_word p <$> seq 0 16).

(** The working variables [a..hh]. *)
Record vars := mk_vars { va : Z; vb : Z; vc : Z; vd : Z; ve : Z; vf : Z; vg : Z; vh : Z }.
Definition round (v : vars) (kw : Z * Z) : vars :=
  let '(k, w) := kw in
  let e := ve v in
  let a := va v in
  let S1 := Z.lxor (Z.lxor (asmtrace_sha256_ror e 6) (asmtrace_sha256_ror e 11)) (asmtrace_sha256_ror e 25) in
  let ch := Z.lxor (Z.land e (vf v)) (Z.land (not32 e) (vg v)) in
  let t1 := u32 (vh v + S1 + ch + k + w) in
  let S0 := Z.lxor (Z.lxor (asmtrace_sha256_ror a 2) (asmtrace_sha256_ror a 13)) (asmtrace_sha256_ror a 22) in
  let maj := Z.lxor (Z.lxor (Z.land a (vb v)) (Z.land a (vc v))) (Z.land (vb v) (vc v)) in
  let t2 := u32 (S0 + maj) in
  mk_vars (u32 (t1 + t2)) a (vb v) (vc v) (u32 (vd v + t1)) e (vf v) (vg v).

Definition compress (h : vars) (p : list Z) : vars :=
  let v := foldl round h (zip K (message_schedule p)) in
  mk_vars (u32 (va h + va v)) (u32 (vb h + vb v)) (u32 (vc h + vc v)) (u32 (vd h + vd v))
    (u32 (ve h + ve v)) (u32 (vf h + vf v)) (u32 (vg h + vg v)) (u32 (vh h + vh v)).

(** ** The stream *)
Record sha256 := mk_sha { h : vars; nbits : Z; buf : list Z; nbuf : nat }.

Definition H0 : vars :=
  mk_vars 0x6a09e667 0xbb67ae85 0x3c6ef372 0xa54ff53a 0x510e527f 0x9b05688c 0x1f83d9ab 0x5be0cd19.
(** The buffer keeps what the memory held. *)
Definition asmtrace_sha256_init (stale : list Z) : sha256 := mk_sha H0 0 stale 0.
Definition asmtrace_sha256_block (s : sha256) (p : list Z) : sha256 :=
  mk_sha (compress (h s) p) (nbits s) (buf s) (nbuf s).

(** [s->buf[s->nbuf + i] = p[i]] for [i < n]. *)
Definition fill (s : sha256) (n : nat) (p : list Z) : sha256 :=
  mk_sha (h s) (nbits s) (take (nbuf s) (buf s) ++ take n p ++ drop (nbuf s + n) (buf s)) (nbuf s + n).
Definition flush (s : sha256) : sha256 :=
  if (nbuf s =? 64)%nat then
    let s := asmtrace_sha256_block s (buf s) in mk_sha (h s) (nbits s) (buf s) 0
  else s.
(** Every round takes at least one byte while the buffer is not full, so the
    length of the input is fuel enough. *)
Fixpoint update_loop (fuel : nat) (s : sha256) (p : list Z) : sha256 :=
  match fuel, p with
  | O, _ | _, [] => s
  | S fuel, _ =>
      let n := Nat.min (64 - nbuf s) (length p) in
      update_loop fuel (flush (fill s n p)) (drop n p)
  end.
Definition asmtrace_sha256_update (s : sha256) (data : list Z) : sha256 :=
  let s := mk_sha (h s) (nbits s +64 (Z.of_nat (length data) *64 8)) (buf s) (nbuf s) in
  update_loop (length data) s data.

(** [while (s->nbuf != 56)]: at most 63 zero bytes. *)
Fixpoint pad_loop (fuel : nat) (s : sha256) : sha256 :=
  match fuel with
  | O => s
  | S fuel => if (nbuf s =? 56)%nat then s else pad_loop fuel (asmtrace_sha256_update s [0])
  end.
Definition be_bytes (n : nat) (x : Z) : list Z :=
  (λ i, Z.land (Z.shiftr x (8 * Z.of_nat (n - 1 - i))) 255) <$> seq 0 n.
Definition digest (v : vars) : list Z :=
  concat (be_bytes 4 <$> [va v; vb v; vc v; vd v; ve v; vf v; vg v; vh v]).
Definition asmtrace_sha256_final (s : sha256) : list Z :=
  let nb := nbits s in
  let s := asmtrace_sha256_update s [0x80] in
  let s := pad_loop 64 s in
  let s := asmtrace_sha256_update s (be_bytes 8 nb) in
  digest (h s).

(** [snprintf("%02x")] *)
Definition hex2 (b : Z) : string :=
  String (digit_char (b / 16)) (String (digit_char (b mod 16)) EmptyString).
Definition asmtrace_sha256_hex (stale data : list Z) : string :=
  let d := asmtrace_sha256_final (asmtrace_sha256_update (asmtrace_sha256_init stale) data) in
  foldr (λ b acc, hex2 b +:+ acc)%string EmptyString d.

(** ** The hash of a message *)
(** The padded message: a one bit, zeros up to 8 bytes short of a multiple of 64,
    and the length in bits. *)
Definition padded (m : list Z) : list Z :=
  m ++ [0x80] ++ replicate ((119 - length m mod 64) mod 64) 0 ++ be_bytes 8 (u64 (8 * Z.of_nat (length m))).
Fixpoint blocks (n : nat) (m : list Z) : list (list Z) :=
  match n with O => [] | S n => take 64 m :: blocks n (drop 64 m) end.
Definition hash_from (v : vars) (m : list Z) : vars := foldl compress v (blocks (length m / 64) m).
Definition SHA256 (m : list Z) : list Z := digest (hash_from H0 (padded m)).

(** ** Blocks *)
Lemma blocks_app n m x : (64 * n <= length m)%nat → blocks n (m ++ x) = blocks n m.
Proof.
  revert m. induction n as [|n IH]; intros m Hl; [done|]. cbn [blocks].
  rewrite take_app_le, drop_app_le by lia. rewrite IH; [done|]. rewrite length_drop. lia.
Qed.

Lemma blocks_snoc n m : blocks (S n) m = blocks n m ++ [take 64 (drop (64 * n) m)].
Proof.
  revert m. induction n as [|n IH]; intros m; [by rewrite Nat.mul_0_r|].
  change (take 64 m :: blocks (S n) (drop 64 m) = (take 64 m :: blocks n (drop 64 m)) ++ [take 64 (drop (64 * S n) m)]).
  rewrite IH, drop_drop. by replace (64 + 64 * n)%nat with (64 * S n)%nat by lia.
Qed.

(** What a buffer must hold of a message: the bytes after its last whole block. *)
Definition rest (m : list Z) : list Z := drop (64 * (length m / 64)) m.

Lemma div64 (n : nat) : (n = 64 * (n / 64) + n mod 64 ∧ n mod 64 < 64)%nat.
Proof. split; [apply Nat.div_mod_eq|apply Nat.mod_upper_bound; lia]. Qed.

Lemma length_rest m : length (rest m) = (length m mod 64)%nat.
Proof. unfold rest. rewrite length_drop. pose proof (div64 (length m)). lia. Qed.

(** Bytes that do not complete a block, and bytes that do. *)
Lemma absorb_short m x :
  (length m mod 64 + length x < 64)%nat →
  hash_from H0 (m ++ x) = hash_from H0 m ∧ rest (m ++ x) = rest m ++ x ∧
  (length (m ++ x) mod 64 = length m mod 64 + length x)%nat.
Proof.
  intros Hx. pose proof (div64 (length m)) as [E ?].
  assert (length (m ++ x) / 64 = length m / 64 ∧ length (m ++ x) mod 64 = length m mod 64 + length x)%nat as [Ed Em].
  { rewrite length_app. split; symmetry.
    - apply (Nat.div_unique _ 64 _ (length m mod 64 + length x)); lia.
    - apply (Nat.mod_unique _ 64 (length m / 64)); lia. }
  split_and!; [..|done].
  - unfold hash_from. by rewrite Ed, blocks_app by lia.
  - unfold rest. rewrite Ed, drop_app_le by lia. done.
Qed.

Lemma absorb_full m x :
  (length m mod 64 + length x = 64)%nat →
  hash_from H0 (m ++ x) = compress (hash_from H0 m) (rest m ++ x) ∧ rest (m ++ x) = [] ∧
  (length (m ++ x) mod 64 = 0)%nat.
Proof.
  intros Hx. pose proof (div64 (length m)) as [E ?].
  assert (length (m ++ x) = 64 * S (length m / 64))%nat as El by (rewrite length_app; lia).
  assert (length (m ++ x) / 64 = S (length m / 64))%nat as Ed
    by (rewrite El, (Nat.mul_comm 64), Nat.div_mul by lia; done).
  split_and!.
  - unfold hash_from. rewrite Ed, blocks_snoc, foldl_snoc, blocks_app by lia. f_equal.
    rewrite drop_app_le by lia. fold (rest m). apply take_ge. rewrite length_app, length_rest. lia.
  - unfold rest. rewrite Ed. apply drop_ge. lia.
  - rewrite El, (Nat.mul_comm 64). apply Nat.Div0.mod_mul.
Qed.

(** ** The invariant of the stream *)
Record absorbed (s : sha256) (m : list Z) : Prop := {
  ab_buf : length (buf s) = 64%nat;
  ab_n : nbuf s = (length m mod 64)%nat;
  ab_rest : take (nbuf s) (buf s) = rest m;
  ab_h : h s = hash_from H0 m;
}.
#[local] Hint Resolve ab_buf ab_n ab_rest ab_h : core.

Lemma chunk_absorbed s m x :
  absorbed s m → (length m mod 64 + length x <= 64)%nat → absorbed (flush (fill s (length x) x)) (m ++ x).
Proof.
  intros [Hb Hn Hr Hh] Hx. pose proof (div64 (length m)) as [E ?].
  assert (take (nbuf s + length x) (buf (fill s (length x) x)) = rest m ++ x) as Ht.
  { simpl. rewrite Hr, take_ge with (n := length x) by done. rewrite (assoc_L (++)).
    apply take_app_length'. rewrite length_app, length_rest. lia. }
  assert (length (buf (fill s (length x) x)) = 64%nat) as Hl.
  { simpl. rewrite !length_app, !length_take, length_drop. lia. }
  unfold flush. change (nbuf (fill s (length x) x)) with (nbuf s + length x)%nat.
  destruct (Nat.eqb_spec (nbuf s + length x) 64) as [Hf|Hf].
  - destruct (absorb_full m x) as (H1 & H2 & H3); [lia|].
    rewrite Hf, take_ge in Ht by lia. split; cbn [h nbuf buf nbits asmtrace_sha256_block take]; [done|by rewrite H3|by rewrite H2|].
    rewrite H1, <-Hh, <-Ht. done.
  - destruct (absorb_short m x) as (H1 & H2 & H3); [lia|].
    split; [done|by rewrite H3, <-Hn|by rewrite H2|by rewrite H1, <-Hh].
Qed.

Lemma fill_take s n p : (n <= length p)%nat → fill s n p = fill s (length (take n p)) (take n p).
Proof. intros. unfold fill. rewrite length_take, Nat.min_l, take_take, Nat.min_id by lia. done. Qed.

Lemma update_loop_absorbed fuel s m p :
  absorbed s m → (length p <= fuel)%nat → absorbed (update_loop fuel s p) (m ++ p).
Proof.
  revert s m p. induction fuel as [|fuel IH]; intros s m p Hs Hp.
  { destruct p; [by rewrite app_nil_r|simpl in Hp; lia]. }
  destruct p as [|b p]; [by rewrite app_nil_r|]. cbn [update_loop].
  set (n := Nat.min (64 - nbuf s) (length (b :: p))).
  pose proof (div64 (length m)) as [E ?]. pose proof (ab_n _ _ Hs) as Hn.
  assert (n <= length (b :: p) ∧ 0 < n ∧ length m mod 64 + n <= 64)%nat as (H1 & H2 & H3)
    by (unfold n; cbn [length]; lia).
  rewrite <-(take_drop n (b :: p)) at 3. rewrite (assoc_L (++)). apply IH.
  - rewrite fill_take by done. apply chunk_absorbed; [done|]. rewrite length_take. lia.
  - rewrite length_drop. cbn [length] in *. lia.
Qed.

Lemma update_nbits fuel s p : nbits (update_loop fuel s p) = nbits s.
Proof.
  revert s p. induction fuel as [|fuel IH]; intros s p; [by destruct p|]. destruct p as [|b p]; [done|].
  cbn [update_loop]. rewrite IH. unfold flush. by case_match.
Qed.

Lemma update_absorbed s m p : absorbed s m → absorbed (asmtrace_sha256_update s p) (m ++ p).
Proof. intros [????]. apply update_loop_absorbed; [done|lia]. Qed.

(** The zero bytes still missing. *)
Definition zeros (m : list Z) : nat := ((120 - length m mod 64) mod 64)%nat.

Lemma pad_loop_absorbed fuel s m :
  absorbed s m → (zeros m < fuel)%nat →
  absorbed (pad_loop fuel s) (m ++ replicate (zeros m) 0).
Proof.
  revert s m. induction fuel as [|fuel IH]; intros s m Hs Hf; [lia|]. cbn [pad_loop].
  rewrite (ab_n _ _ Hs). pose proof (div64 (length m)) as [E ?]. unfold zeros in *.
  destruct (Nat.eqb_spec (length m mod 64) 56) as [He|He].
  { rewrite He. change ((120 - 56) mod 64)%nat with O. by rewrite app_nil_r. }
  assert (length (m ++ [0%Z]) mod 64 = if decide (length m mod 64 = 63) then 0 else S (length m mod 64))%nat as Em.
  { rewrite length_app. cbn [length]. rewrite <-Nat.Div0.add_mod_idemp_l. case_decide as Hd.
    - by rewrite Hd.
    - rewrite Nat.mod_small; lia. }
  assert ((120 - length m mod 64) mod 64 = S ((120 - length (m ++ [0%Z]) mod 64) mod 64))%nat as Ez.
  { rewrite Em. clear Em E IH Hf Hs. case_decide as Hd; [by rewrite Hd|]. generalize dependent (length m mod 64)%nat.
    intros r Hr H56 H63.
    destruct (decide (r < 56)%nat).
    - replace (120 - r)%nat with (56 - r + 1 * 64)%nat by lia.
      replace (120 - S r)%nat with (55 - r + 1 * 64)%nat by lia.
      rewrite !Nat.Div0.mod_add, !Nat.mod_small by lia. lia.
    - rewrite !Nat.mod_small by lia. lia. }
  rewrite Ez in Hf |- *. rewrite replicate_S. rewrite (cons_middle 0 m), (assoc_L (++)).
  apply IH; [by apply update_absorbed|lia].
Qed.

Lemma zeros_padding m : zeros (m ++ [0x80]) = ((119 - length m mod 64) mod 64)%nat.
Proof.
  unfold zeros. rewrite length_app. cbn [length]. pose proof (div64 (length m)) as [E ?].
  rewrite <-Nat.Div0.add_mod_idemp_l. destruct (decide (length m mod 64 = 63)%nat) as [Hd|Hd].
  - by rewrite Hd.
  - rewrite (Nat.mod_small (_ + 1)) by lia. f_equal. lia.
Qed.

(** Everything fed to the stream so far, with the bit count. *)
Definition streamed (s : sha256) (m : list Z) : Prop :=
  absorbed s m ∧ nbits s = u64 (8 * Z.of_nat (length m)).

Lemma init_streamed stale : length stale = 64%nat → streamed (asmtrace_sha256_init stale) [].
Proof. intros. split; [by split|done]. Qed.

Lemma update_streamed s m p : streamed s m → streamed (asmtrace_sha256_update s p) (m ++ p).
Proof.
  intros [Ha Hn]. split; [by apply update_absorbed|]. unfold asmtrace_sha256_update.
  rewrite update_nbits. cbn [nbits]. rewrite Hn, u64_add_l, u64_add_r, length_app. f_equal. lia.
Qed.

Lemma final_spec s m : streamed s m → asmtrace_sha256_final s = SHA256 m.
Proof.
  intros [Ha Hn]. unfold asmtrace_sha256_final, SHA256, padded. cbv zeta. rewrite Hn.
  apply (update_absorbed _ _ [0x80]) in Ha. apply (pad_loop_absorbed 64) in Ha.
  - apply (update_absorbed _ _ (be_bytes 8 (u64 (8 * Z.of_nat (length m))))) in Ha.
    rewrite (ab_h _ _ Ha), zeros_padding. by rewrite <-!(assoc_L (++)).
  - unfold zeros. apply Nat.mod_upper_bound. lia.
Qed.

Lemma updates_streamed s m chunks :
  streamed s m → streamed (foldl asmtrace_sha256_update s chunks) (m ++ concat chunks).
Proof.
  revert s m. induction chunks as [|c cs IH]; intros s m Hs; simpl; [by rewrite app_nil_r|].
  rewrite (assoc_L (++)). by apply IH, update_streamed.
Qed.

(** ** The constants
    The table and the initial state are the first 32 bits after the point of the
    cube and square roots of the first primes. *)
Definition primes : list Z :=
  filter (λ n, forallb (λ d, negb (n mod d =? 0)) (seqZ 2 (n - 2))) (seqZ 2 311).
Definition root_bits (n : Z) (p x : Z) : bool :=
  existsb (λ c, let y := c * 2 ^ 32 + x in (y ^ n <=? p * 2 ^ (32 * n)) && (p * 2 ^ (32 * n) <? (y + 1) ^ n)) (seqZ 1 18).
Lemma K_cube_roots : forallb (λ px, root_bits 3 px.1 px.2) (zip primes K) = true ∧ length primes = 64%nat ∧ length K = 64%nat.
Proof. split_and!; vm_compute; reflexivity. Qed.
Lemma H0_square_roots :
  forallb (λ px, root_bits 2 px.1 px.2) (zip primes [va H0; vb H0; vc H0; vd H0; ve H0; vf H0; vg H0; vh H0]) = true.
Proof. vm_compute. reflexivity. Qed.

(** The rotation is one: bit [i] of the result is bit [i + n], modulo 32, of the
    word. *)
Lemma ror_rotates x n i :
  is_u32 x → 0 < n < 32 → 0 <= i < 32 →
  Z.testbit (asmtrace_sha256_ror x n) i = Z.testbit x ((i + n) mod 32).
Proof.
  intros Hx Hn Hi. unfold asmtrace_sha256_ror, u32.
  rewrite Z.lor_spec, Z.shiftr_spec, Z.mod_pow2_bits_low, Z.shiftl_spec by lia.
  destruct (Z.lt_ge_cases (i + n) 32).
  - rewrite Z.mod_small by lia. rewrite (Z.testbit_neg_r _ (i - _)) by lia. apply orb_false_r.
  - rewrite <-(Z_mod_plus_full _ (-1)), Z.mod_small by lia.
    assert (Z.testbit x (i + n) = false) as ->.
    { rewrite <-(Z.mod_small x (2 ^ 32)) by done. apply Z.mod_pow2_bits_high. lia. }
    simpl. f_equal. lia.
Qed.

(** However the bytes are cut into calls of [update], the digest is the hash
    of their concatenation, padded and taken 64 bytes at a time; what the buffer
    held before does not matter. *)
Theorem sha256_stream_exact stale (chunks : list (list Z)) (Hs : length stale = 64%nat) :
  asmtrace_sha256_final (foldl asmtrace_sha256_update (asmtrace_sha256_init stale) chunks) = SHA256 (concat chunks).
Proof.
  apply final_spec. by apply (updates_streamed _ []), init_streamed.
Qed.

Definition vector_abc : string := "ba7816bf8f01cfea414140de5dae2223b00361a396177a9cb410ff61f20015ad".

Lemma sha256_stream_exact_witness :
  asmtrace_sha256_final (foldl asmtrace_sha256_update (asmtrace_sha256_init (replicate 64 7)) [[97]; []; [98; 99]]) =
    SHA256 [97; 98; 99] ∧
  foldr (λ b acc, hex2 b +:+ acc)%string EmptyString (SHA256 [97; 98; 99]) = vector_abc.
Proof.
  split; [apply (sha256_stream_exact (replicate 64 7) [[97]; []; [98; 99]]); reflexivity|vm_compute; reflexivity].
Defined.
End Sha256.
