(* ===== verification/Json.v ===== *)
(** JSON texts as byte lists, for the recording format: a printer without white
    space, a reader that inverts it, and UTF-8. *)
From S2P Require Import Prelude Format.

Module Json.
Open Scope Z_scope.

(** The bytes of a C string; in the literals of [js] a single quote stands for a
    double one. *)
Definition codes (s : string) : list Z :=
  (λ c, Z.of_nat (Ascii.nat_of_ascii c)) <$> String.list_ascii_of_string s.
Definition js (s : string) : list Z := (λ c, if c =? 39 then 34 else c) <$> codes s.

#[warnings="-register-all"]
Inductive json :=
  | JNum (n : Z) | JBool (b : bool) | JStr (s : list Z) | JArr (l : list json) | JObj (l : list (list Z * json)).

(** ** Printing *)
Definition hex_digit (d : Z) : Z := if d <? 10 then 48 + d else 87 + d.
Definition esc1 (c : Z) : list Z :=
  if (c =? 34) || (c =? 92) then [92; c]
  else if c <? 32 then [92; 117; 48; 48; hex_digit (c / 16); hex_digit (c mod 16)]
  else [c].
Definition esc (s : list Z) : list Z := concat (esc1 <$> s).
Definition quoted (s : list Z) : list Z := 34 :: esc s ++ [34].
Fixpoint sep (ls : list (list Z)) : list Z :=
  match ls with [] => [] | [l] => l | l :: ls => l ++ 44 :: sep ls end.
Fixpoint show (v : json) : list Z :=
  match v with
  | JNum n => codes (fmt_d n)
  | JBool b => codes (if b then "true" else "false")
  | JStr s => quoted s
  | JArr l => 91 :: sep (show <$> l) ++ [93]
  | JObj l => 123 :: sep ((λ kv, quoted kv.1 ++ 58 :: show kv.2) <$> l) ++ [125]
  end.

(** ** Reading *)
Definition hex_value (c : Z) : Z := if c <? 58 then c - 48 else c - 87.
Definition is_digit (c : Z) : bool := (48 <=? c) && (c <=? 57).

(** The rest of a string literal: a raw control character is refused. *)
Fixpoint read_str (s : list Z) : option (list Z * list Z) :=
  match s with
  | [] => None
  | c :: s =>
      if c =? 34 then Some ([], s)
      else if c =? 92 then
        match s with
        | 117 :: 48 :: 48 :: hi :: lo :: s =>
            (λ p, (hex_value hi * 16 + hex_value lo :: p.1, p.2)) <$> read_str s
        | e :: s => if (e =? 34) || (e =? 92) then (λ p, (e :: p.1, p.2)) <$> read_str s else None
        | [] => None
        end
      else if c <? 32 then None
      else (λ p, (c :: p.1, p.2)) <$> read_str s
  end.

Fixpoint read_digits (acc : Z) (s : list Z) : Z * list Z :=
  match s with
  | c :: s' => if is_digit c then read_digits (acc * 10 + (c - 48)) s' else (acc, s)
  | [] => (acc, [])
  end.
Definition read_num (s : list Z) : option (Z * list Z) :=
  match s with
  | c :: _ => if is_digit c then Some (read_digits 0 s) else None
  | [] => None
  end.

Fixpoint strip (pre s : list Z) : option (list Z) :=
  match pre, s with
  | [], _ => Some s
  | c :: pre, d :: s => if c =? d then strip pre s else None
  | _ :: _, [] => None
  end.

(** The next byte is [c]. *)
Definition next (c : Z) (s : list Z) : bool := match s with d :: _ => d =? c | [] => false end.

(** Every call consumes a byte before the next, so more fuel than bytes is
    enough. *)
Fixpoint read_value (fuel : nat) (s : list Z) : option (json * list Z) :=
  match fuel with
  | O => None
  | S fuel =>
      let s' := tail s in
      if next 34 s then (λ p, (JStr p.1, p.2)) <$> read_str s'
      else if next 91 s then
        if next 93 s' then Some (JArr [], tail s') else (λ p, (JArr p.1, p.2)) <$> read_elems fuel s'
      else if next 123 s then
        if next 125 s' then Some (JObj [], tail s') else (λ p, (JObj p.1, p.2)) <$> read_fields fuel s'
      else if next 116 s then (λ r, (JBool true, r)) <$> strip (codes "rue") s'
      else if next 102 s then (λ r, (JBool false, r)) <$> strip (codes "alse") s'
      else if next 45 s then (λ p, (JNum (- p.1), p.2)) <$> read_num s'
      else (λ p, (JNum p.1, p.2)) <$> read_num s
  end
with read_elems (fuel : nat) (s : list Z) : option (list json * list Z) :=
  match fuel with
  | O => None
  | S fuel =>
      match read_value fuel s with
      | Some (v, s) =>
          if next 44 s then (λ p, (v :: p.1, p.2)) <$> read_elems fuel (tail s)
          else if next 93 s then Some ([v], tail s) else None
      | None => None
      end
  end
with read_fields (fuel : nat) (s : list Z) : option (list (list Z * json) * list Z) :=
  match fuel with
  | O => None
  | S fuel =>
      if next 34 s then
        match read_str (tail s) with
        | Some (k, s) =>
            if next 58 s then
              match read_value fuel (tail s) with
              | Some (v, s) =>
                  if next 44 s then (λ p, ((k, v) :: p.1, p.2)) <$> read_fields fuel (tail s)
                  else if next 125 s then Some ([(k, v)], tail s) else None
              | None => None
              end
            else None
        | None => None
        end
      else None
  end.
Definition parse (s : list Z) : option json :=
  match read_value (S (length s)) s with Some (v, []) => Some v | _ => None end.

(** Lines: the texts between newlines, the last one ended too. *)
Fixpoint lines (s : list Z) : option (list (list Z)) :=
  match s with
  | [] => Some []
  | c :: s =>
      if c =? 10 then ([] ::.) <$> lines s
      else match lines s with Some (l :: ls) => Some ((c :: l) :: ls) | _ => None end
  end.
Definition parse_lines (s : list Z) : option (list json) := ls ← lines s; mapM parse ls.

(** ** UTF-8 (RFC 3629) *)
Definition is_byte (c : Z) : Prop := 0 <= c < 256.
Definition scalar (cp : Z) : Prop := 0 <= cp < 0xD800 ∨ 0xE000 <= cp < 0x110000.
Definition encode (cp : Z) : list Z :=
  if cp <? 0x80 then [cp]
  else if cp <? 0x800 then [0xC0 + cp / 64; 0x80 + cp mod 64]
  else if cp <? 0x10000 then [0xE0 + cp / 4096; 0x80 + cp / 64 mod 64; 0x80 + cp mod 64]
  else [0xF0 + cp / 262144; 0x80 + cp / 4096 mod 64; 0x80 + cp / 64 mod 64; 0x80 + cp mod 64].
Definition utf8 (s : list Z) : Prop := ∃ cps, Forall scalar cps ∧ s = concat (encode <$> cps).

(** ** Reading what was printed *)
Lemma json_induction (P : json → Prop) :
  (∀ n, P (JNum n)) → (∀ b, P (JBool b)) → (∀ s, P (JStr s)) →
  (∀ l, Forall P l → P (JArr l)) → (∀ l, Forall (λ kv, P kv.2) l → P (JObj l)) → ∀ v, P v.
Proof.
  intros H1 H2 H3 H4 H5. fix IH 1. intros [n|b|s|l|l]; [apply H1|apply H2|apply H3|apply H4|apply H5].
  - induction l; constructor; auto.
  - induction l as [|[k v] l IHl]; constructor; simpl; auto.
Qed.

(** What the reader is asked to read: numbers of at most 64 bits, strings of bytes. *)
Fixpoint readable (v : json) : Prop :=
  match v with
  | JNum n => - 2 ^ 64 < n < 2 ^ 64
  | JBool _ => True
  | JStr s => Forall is_byte s
  | JArr l => foldr (λ v acc, readable v ∧ acc) True l
  | JObj l => foldr (λ kv acc, (Forall is_byte kv.1 ∧ readable kv.2) ∧ acc) True l
  end.

Lemma hex_value_digit d : 0 <= d < 16 → hex_value (hex_digit d) = d.
Proof.
  intros. unfold hex_value, hex_digit. destruct (Z.ltb_spec d 10).
  - rewrite (proj2 (Z.ltb_lt _ _)); lia.
  - rewrite (proj2 (Z.ltb_ge _ _)); lia.
Qed.

Lemma read_esc1 c s :
  is_byte c → read_str (esc1 c ++ s) = (λ p, (c :: p.1, p.2)) <$> read_str s.
Proof.
  intros Hc. unfold esc1. destruct (Z.eqb_spec c 34) as [->|H34]; [done|].
  destruct (Z.eqb_spec c 92) as [->|H92]; [done|]. cbn [orb]. destruct (Z.ltb_spec c 32).
  - cbn [app read_str]. change (92 =? 34) with false. change (92 =? 92) with true. cbv iota.
    rewrite !hex_value_digit by (unfold is_byte in Hc; dlia).
    replace (c / 16 * 16 + c mod 16) with c by dlia. done.
  - cbn [app read_str]. rewrite (proj2 (Z.eqb_neq _ _) H34), (proj2 (Z.eqb_neq _ _) H92).
    by rewrite (proj2 (Z.ltb_ge _ _)) by lia.
Qed.

Lemma read_str_esc s r : Forall is_byte s → read_str (esc s ++ 34 :: r) = Some (s, r).
Proof.
  induction s as [|c s IH]; intros Hs; [done|]. inv Hs. unfold esc. rewrite fmap_cons. cbn [concat].
  rewrite <-(assoc_L (++)), read_esc1 by done. fold (esc s). by rewrite IH.
Qed.

(** Numbers *)
Definition no_digit (r : list Z) : Prop := match r with c :: _ => is_digit c = false | [] => True end.
Fixpoint all_digits (s : string) : Prop :=
  match s with EmptyString => True | String c s => 0 <= char_digit c < 10 ∧ (Ascii.nat_of_ascii c < 58)%nat ∧ all_digits s end.

Lemma codes_cons c s : codes (String c s) = Z.of_nat (Ascii.nat_of_ascii c) :: codes s.
Proof. done. Qed.
Lemma codes_app s t : codes (s +:+ t)%string = codes s ++ codes t.
Proof. unfold codes. induction s as [|c s IH]; [done|]. simpl. f_equal. exact IH. Qed.

Lemma digit_char_digit d : 0 <= d < 10 → char_digit (digit_char d) = d ∧ (Ascii.nat_of_ascii (digit_char d) < 58)%nat.
Proof.
  intros H. split; [apply char_digit_char; lia|].
  assert (d = 0 ∨ d = 1 ∨ d = 2 ∨ d = 3 ∨ d = 4 ∨ d = 5 ∨ d = 6 ∨ d = 7 ∨ d = 8 ∨ d = 9) by lia.
  destruct_or!; subst; vm_compute; lia.
Qed.

Lemma all_digits_digits fuel n acc : 0 <= n → all_digits acc → all_digits (digits fuel 10 n acc).
Proof.
  revert n acc. induction fuel as [|fuel IH]; intros n acc Hn Ha; [done|]. cbn [digits].
  assert (all_digits (String (digit_char (n mod 10)) acc)) as Hd.
  { destruct (digit_char_digit (n mod 10)) as [E H]; [apply Z.mod_pos_bound; lia|].
    pose proof (Z.mod_pos_bound n 10 ltac:(lia)). cbn [all_digits]. rewrite E. done. }
  destruct (n / 10 =? 0); [done|]. apply IH; [|done]. apply Z.div_pos; lia.
Qed.

Lemma char_digit_spec c : 0 <= char_digit c < 10 → (Ascii.nat_of_ascii c < 58)%nat →
  is_digit (Z.of_nat (Ascii.nat_of_ascii c)) = true ∧ Z.of_nat (Ascii.nat_of_ascii c) - 48 = char_digit c.
Proof.
  unfold char_digit, is_digit. cbv zeta. destruct (Z.ltb_spec (Z.of_nat (Ascii.nat_of_ascii c)) 58); intros H1 H2; [|lia].
  split; [|done]. apply andb_true_intro. rewrite !Z.leb_le. lia.
Qed.

Lemma read_digits_spec a s r : all_digits s → no_digit r → read_digits a (codes s ++ r) = (numeral 10 a s, r).
Proof.
  revert a. induction s as [|c s IH]; intros a Hs Hr.
  - destruct r as [|d r]; [done|]. simpl in *. by rewrite Hr.
  - destruct Hs as (H1 & H2 & H3). destruct (char_digit_spec c H1 H2) as [Hd He].
    rewrite codes_cons. cbn [app read_digits]. rewrite Hd, He, IH by done. done.
Qed.

Lemma digits_head fuel base n acc : ∃ c s, digits (S fuel) base n acc = String c s.
Proof.
  revert n acc. induction fuel as [|fuel IH]; intros n acc; cbn [digits]; case_match; eauto.
Qed.

Lemma read_num_fmt n r : 0 <= n < 2 ^ 64 → no_digit r → read_num (codes (fmt_u n) ++ r) = Some (n, r).
Proof.
  intros Hn Hr. assert (all_digits (digits 64 10 n "")) as Hd by (apply all_digits_digits; [lia|done]). fold (fmt_u n) in Hd.
  pose proof (numeral_fmt_u n Hn) as En. pose proof (read_digits_spec 0 _ r Hd Hr) as E.
  unfold read_num. destruct (digits_head 63 10 n "") as (c & s & Es). fold (fmt_u n) in Es. rewrite Es in *.
  destruct Hd as (H1 & H2 & _). destruct (char_digit_spec c H1 H2) as [Hc _].
  rewrite codes_cons in *. cbn [app] in *. rewrite Hc, E, En. done.
Qed.

(** ** The round trip *)
Definition reads_back (v : json) : Prop := ∀ fuel r,
  readable v → no_digit r → (length (show v) < fuel)%nat → read_value fuel (show v ++ r) = Some (v, r).

(** A numeral begins with a digit, so with no bracket, quote or letter. *)
Lemma fmt_u_head n r : 0 <= n → ∃ c s, codes (fmt_u n) ++ r = c :: s ∧ 48 <= c <= 57.
Proof.
  intros Hn. assert (all_digits (digits 64 10 n "")) as Hd by (by apply all_digits_digits).
  fold (fmt_u n) in Hd. destruct (digits_head 63 10 n "") as (c & s & Es). fold (fmt_u n) in Es.
  rewrite Es in *. destruct Hd as (H1 & H2 & _). destruct (char_digit_spec c H1 H2) as [Hc _].
  exists (Z.of_nat (Ascii.nat_of_ascii c)), (codes s ++ r). split; [by rewrite codes_cons|].
  unfold is_digit in Hc. apply andb_prop in Hc as [?%Z.leb_le ?%Z.leb_le]. done.
Qed.

Lemma next_digit c d s : 48 <= c <= 57 → d < 48 ∨ 57 < d → next d (c :: s) = false.
Proof. intros. simpl. apply Z.eqb_neq. lia. Qed.

Lemma fmt_d_neg n : n < 0 → codes (fmt_d n) = 45 :: codes (fmt_u (- n)).
Proof. intros H. unfold fmt_d. rewrite (proj2 (Z.ltb_lt _ _)) by done. by rewrite codes_app. Qed.
Lemma fmt_d_nonneg n : 0 <= n → codes (fmt_d n) = codes (fmt_u n).
Proof. intros H. unfold fmt_d. by rewrite (proj2 (Z.ltb_ge _ _)). Qed.

(** No value begins like the end of an array or of an object. *)
Lemma show_head v r : next 93 (show v ++ r) = false ∧ next 125 (show v ++ r) = false.
Proof.
  destruct v as [n|b|s|l|l]; [|by destruct b|done..]. cbn [show]. destruct (Z.lt_ge_cases n 0) as [Hn|Hn].
  - by rewrite fmt_d_neg.
  - rewrite fmt_d_nonneg by done. destruct (fmt_u_head n r Hn) as (c & s & -> & Hc).
    split; apply next_digit; lia.
Qed.

Lemma num_reads_back n : reads_back (JNum n).
Proof.
  intros [|fuel] r Hr Hd Hf; [simpl in Hf; lia|]. cbn [show readable] in *.
  destruct (Z.lt_ge_cases n 0) as [Hn|Hn].
  - rewrite fmt_d_neg by done. cbn [app read_value next tail]. simpl. rewrite read_num_fmt by (done || lia).
    simpl. by rewrite Z.opp_involutive.
  - rewrite fmt_d_nonneg by done. pose proof (read_num_fmt n r ltac:(lia) Hd) as En.
    destruct (fmt_u_head n r Hn) as (c & s & E & Hc). rewrite E in *. cbn [read_value].
    rewrite !(next_digit c) by lia. by rewrite En.
Qed.

Lemma sep_cons l ls : ls ≠ [] → sep (l :: ls) = l ++ 44 :: sep ls.
Proof. by destruct ls. Qed.

Lemma elems_read_back l fuel r :
  Forall reads_back l → l ≠ [] → readable (JArr l) → (length (sep (show <$> l)) + 1 < fuel)%nat →
  read_elems fuel (sep (show <$> l) ++ 93 :: r) = Some (l, r).
Proof.
  revert fuel. induction l as [|v l IH]; intros fuel Hl Hne Hr Hf; [done|]. inv Hl. destruct Hr as [Hv Hr].
  destruct fuel as [|fuel]; [lia|]. destruct l as [|v' l].
  - cbn [fmap list_fmap sep read_elems] in *. rewrite H1 by (done || lia). done.
  - rewrite fmap_cons, sep_cons in Hf |- * by done. rewrite length_app in Hf. cbn [length] in Hf.
    cbn [read_elems]. rewrite <-(assoc_L (++)), H1 by (done || lia). cbn [next tail app].
    rewrite Z.eqb_refl, IH by (done || lia). done.
Qed.

Lemma fields_read_back l fuel r :
  Forall (λ kv, reads_back kv.2) l → l ≠ [] → readable (JObj l) →
  let texts := (λ kv : list Z * json, quoted kv.1 ++ 58 :: show kv.2) <$> l in
  (length (sep texts) + 1 < fuel)%nat →
  read_fields fuel (sep texts ++ 125 :: r) = Some (l, r).
Proof.
  revert fuel. induction l as [|[k v] l IH]; intros fuel Hl Hne Hr texts Hf; [done|]. inv Hl.
  destruct Hr as [[Hk Hv] Hr]. cbn [fst snd] in *. destruct fuel as [|fuel]; [lia|].
  assert (∀ rest, (length (show v) < fuel)%nat → no_digit rest →
    read_fields (S fuel) ((quoted k ++ 58 :: show v) ++ rest) =
      if next 44 rest then (λ p, ((k, v) :: p.1, p.2)) <$> read_fields fuel (tail rest)
      else if next 125 rest then Some ([(k, v)], tail rest) else None) as Hstep.
  { intros rest Hlen Hd. cbn [read_fields]. unfold quoted. cbn [app next tail].
    rewrite <-!(assoc_L (++)). cbn [app]. rewrite read_str_esc by done. simpl. by rewrite H1. }
  unfold texts in *. clear texts. destruct l as [|kv l].
  - cbn [fmap list_fmap sep fst snd] in *. rewrite length_app in Hf. cbn [length] in Hf. rewrite Hstep by (done || lia). done.
  - rewrite fmap_cons, sep_cons in Hf |- * by done. rewrite !length_app in Hf. cbn [length fst snd] in *.
    rewrite <-(assoc_L (++)), Hstep by (done || lia). cbn [next tail app].
    rewrite Z.eqb_refl, IH by (done || lia). done.
Qed.

Lemma read_array fuel s :
  read_value (S fuel) (91 :: s) =
    if next 93 s then Some (JArr [], tail s) else (λ p, (JArr p.1, p.2)) <$> read_elems fuel s.
Proof. done. Qed.
Lemma read_object fuel s :
  read_value (S fuel) (123 :: s) =
    if next 125 s then Some (JObj [], tail s) else (λ p, (JObj p.1, p.2)) <$> read_fields fuel s.
Proof. done. Qed.

Lemma all_read_back v : reads_back v.
Proof.
  induction v as [n|b|s|l IH|l IH] using json_induction; [apply num_reads_back|..];
    intros [|fuel] r Hr Hd Hf; try (simpl in Hf; lia).
  - by destruct b.
  - cbn [show readable] in *. unfold quoted. cbn [app read_value next tail]. simpl.
    rewrite <-(assoc_L (++)). cbn [app]. by rewrite read_str_esc.
  - destruct l as [|v l]; [done|]. cbn [show] in *. cbn [app]. rewrite read_array.
    rewrite <-(assoc_L (++)). cbn [app length] in *. rewrite length_app in Hf. cbn [length] in Hf.
    assert (next 93 (sep (show <$> v :: l) ++ 93 :: r) = false) as ->.
    { destruct l; [apply show_head|]. rewrite fmap_cons, sep_cons by done. rewrite <-(assoc_L (++)). apply show_head. }
    rewrite elems_read_back by (done || lia). done.
  - destruct l as [|[k v] l]; [done|]. cbn [show] in *. cbn [app]. rewrite read_object.
    rewrite <-(assoc_L (++)). cbn [app length] in *. rewrite length_app in Hf. cbn [length] in Hf.
    assert (next 125 (sep ((λ kv, quoted kv.1 ++ 58 :: show kv.2) <$> (k, v) :: l) ++ 125 :: r) = false) as ->
      by (by destruct l).
    rewrite fields_read_back by (done || lia). done.
Qed.

Lemma parse_show v : readable v → parse (show v) = Some v.
Proof.
  intros Hv. unfold parse. rewrite <-(app_nil_r (show v)) at 2.
  by rewrite all_read_back by (done || lia).
Qed.

(** ** Lines *)
Definition printable (c : Z) : Prop := 32 <= c.

Lemma esc_printable s : Forall is_byte s → Forall printable (esc s).
Proof.
  unfold esc. induction 1 as [|c s Hc _ IH]; [constructor|]. rewrite fmap_cons. cbn [concat]. apply Forall_app.
  split; [|done]. unfold is_byte in Hc. unfold esc1, hex_digit, printable.
  destruct (Z.eqb_spec c 34), (Z.eqb_spec c 92); cbn [orb]; try (repeat constructor; lia).
  destruct (Z.ltb_spec c 32); repeat constructor; try lia; case_match; dlia.
Qed.

Lemma quoted_printable s : Forall is_byte s → Forall printable (quoted s).
Proof.
  intros Hs. unfold quoted. constructor; [unfold printable; lia|]. apply Forall_app.
  split; [by apply esc_printable|repeat constructor; unfold printable; lia].
Qed.

Lemma sep_Forall (P : Z → Prop) ls : P 44 → Forall (Forall P) ls → Forall P (sep ls).
Proof.
  intros H44. induction 1 as [|l ls Hl Hls IH]; [constructor|]. destruct ls as [|l' ls]; [done|].
  rewrite sep_cons by done. apply Forall_app. by split; [|constructor].
Qed.

Lemma all_digits_printable s : all_digits s → Forall printable (codes s).
Proof.
  induction s as [|c s IH]; [constructor|]. intros (H1 & H2 & H3). rewrite codes_cons. constructor; [|by apply IH].
  destruct (char_digit_spec c H1 H2) as [Hd _]. unfold is_digit in Hd. apply andb_prop in Hd as [?%Z.leb_le _].
  unfold printable. lia.
Qed.

Lemma fmt_d_printable n : Forall printable (codes (fmt_d n)).
Proof.
  destruct (Z.lt_ge_cases n 0).
  - rewrite fmt_d_neg by done. constructor; [unfold printable; lia|]. apply all_digits_printable, all_digits_digits; [lia|done].
  - rewrite fmt_d_nonneg by done. apply all_digits_printable, all_digits_digits; [lia|done].
Qed.

Lemma show_printable v : readable v → Forall printable (show v).
Proof.
  induction v as [n|b|s|l IH|l IH] using json_induction; intros Hr; cbn [show].
  - apply fmt_d_printable.
  - destruct b; repeat constructor; unfold printable; vm_compute; congruence.
  - by apply quoted_printable.
  - constructor; [unfold printable; lia|]. apply Forall_app. split; [|repeat constructor; unfold printable; lia].
    apply sep_Forall; [unfold printable; lia|]. cbn [readable] in Hr.
    induction IH as [|v l Hv _ IHl]; [constructor|]. destruct Hr as [Hr1 Hr2]. rewrite fmap_cons. constructor; auto.
  - constructor; [unfold printable; lia|]. apply Forall_app. split; [|repeat constructor; unfold printable; lia].
    apply sep_Forall; [unfold printable; lia|]. cbn [readable] in Hr.
    induction IH as [|[k v] l Hv _ IHl]; [constructor|]. destruct Hr as [[Hk Hr1] Hr2]. cbn [fst snd] in *.
    rewrite fmap_cons. constructor; [|auto]. cbn [fst snd]. apply Forall_app.
    split; [by apply quoted_printable|constructor; [unfold printable; lia|auto]].
Qed.

Lemma lines_cons l rest : Forall printable l → lines (l ++ 10 :: rest) = (l ::.) <$> lines rest.
Proof.
  induction 1 as [|c l Hc _ IH]; [done|]. cbn [app lines]. unfold printable in Hc.
  rewrite (proj2 (Z.eqb_neq c 10)) by lia. rewrite IH. by destruct (lines rest).
Qed.

Lemma parse_lines_show vs :
  Forall readable vs → parse_lines (concat ((λ v, show v ++ [10]) <$> vs)) = Some vs.
Proof.
  intros Hv. unfold parse_lines. assert (lines (concat ((λ v, show v ++ [10]) <$> vs)) = Some (show <$> vs)) as ->.
  { induction Hv as [|v vs Hv _ IH]; [done|]. rewrite !fmap_cons. cbn [concat]. rewrite <-(assoc_L (++)). cbn [app].
    rewrite lines_cons by (by apply show_printable). by rewrite IH. }
  simpl. induction Hv as [|v vs Hv _ IH]; [done|]. rewrite fmap_cons. cbn [mapM]. by rewrite parse_show, IH.
Qed.
End Json.
