(* ===== verification/Escape.v ===== *)
(** String escaping of the recording writer ([cli/asmtrace_ndjson.c],
    [asmtrace_utf8_len] and [asmtrace_escape]): bytes of no known encoding become
    the body of a JSON string literal. *)
From S2P Require Import Prelude Format Json.
Import Json.

Module Escape.
Open Scope Z_scope.

(** The length of the well-formed sequence at the head of [s], 0 when there is
    none; [avail] is the length of [s]. *)
Definition cont (b : Z) : bool := Z.land b 0xC0 =? 0x80.
Definition asmtrace_utf8_len (s : list Z) : nat :=
  let at_ i := s !!! i in
  let short n := (length s <? n)%nat in
  match s with
  | [] => 0%nat
  | c0 :: _ =>
      if c0 <? 0x80 then 1%nat
      else if c0 <? 0xC2 then 0%nat
      else if c0 <? 0xE0 then
        if short 2%nat || negb (cont (at_ 1%nat)) then 0%nat else 2%nat
      else if c0 <? 0xF0 then
        if short 3%nat || negb (cont (at_ 1%nat)) || negb (cont (at_ 2%nat)) then 0%nat
        else if (c0 =? 0xE0) && (at_ 1%nat <? 0xA0) then 0%nat
        else if (c0 =? 0xED) && (0xA0 <=? at_ 1%nat) then 0%nat
        else 3%nat
      else if c0 <? 0xF5 then
        if short 4%nat || negb (cont (at_ 1%nat)) || negb (cont (at_ 2%nat)) || negb (cont (at_ 3%nat)) then 0%nat
        else if (c0 =? 0xF0) && (at_ 1%nat <? 0x90) then 0%nat
        else if (c0 =? 0xF4) && (0x90 <=? at_ 1%nat) then 0%nat
        else 4%nat
      else 0%nat
  end.

(** One round of the loop: what it appends and how many bytes it takes. *)
Definition escape_step (src : list Z) : list Z * nat :=
  match src with
  | [] => ([], O)
  | c :: _ =>
      if (c =? 34) || (c =? 92) then ([92; c], 1%nat)
      else if c <? 0x20 then ([92; 117; 48; 48; hex_digit (c / 16); hex_digit (c mod 16)], 1%nat)
      else if c <? 0x80 then ([c], 1%nat)
      else
        let n := asmtrace_utf8_len src in
        if (n =? 0)%nat then ([0xEF; 0xBF; 0xBD], 1%nat) else (take n src, n)
  end.
(** Every round takes a byte: the length of the source is fuel enough. *)
Fixpoint escape_loop (fuel cap : nat) (dst src : list Z) : list Z :=
  match fuel with
  | O => dst
  | S fuel =>
      if (0 <? length src)%nat && (length dst + 7 <? cap)%nat then
        let '(out, n) := escape_step src in escape_loop fuel cap (dst ++ out) (drop n src)
      else dst
  end.
(** [None]: no buffer to write to; a [NULL] source is the empty string. *)
Definition asmtrace_escape (cap : nat) (src : option (list Z)) : option (list Z) :=
  if (cap =? 0)%nat then None
  else let src := default [] src in Some (escape_loop (length src) cap [] src).

(** ** Well-formed sequences *)
Lemma cont_spec b : is_byte b → cont b = true ↔ 0x80 <= b < 0xC0.
Proof.
  intros Hb. assert (forallb (λ n, let b := Z.of_nat n in Bool.eqb (cont b) ((0x80 <=? b) && (b <? 0xC0))) (seq 0 256) = true)
    as Hall by (vm_compute; reflexivity).
  rewrite forallb_forall in Hall. specialize (Hall (Z.to_nat b)). unfold is_byte in Hb.
  rewrite in_seq in Hall. rewrite Z2Nat.id in Hall by lia. specialize (Hall ltac:(lia)).
  apply Bool.eqb_prop in Hall. rewrite Hall, andb_true_iff, Z.leb_le, Z.ltb_lt. lia.
Qed.

(** [n] bytes at the head of [s] encode a scalar value. *)
Definition head_encodes (s : list Z) (n : nat) : Prop :=
  ∃ cp, scalar cp ∧ length (encode cp) = n ∧ encode cp = take n s.

Ltac ltb_lia :=
  repeat match goal with
  | |- context [?a <? ?b] => first [rewrite (proj2 (Z.ltb_lt a b)) by lia | rewrite (proj2 (Z.ltb_ge a b)) by lia]
  end.

Lemma encode1 a : 0 <= a < 0x80 → encode a = [a].
Proof. intros. unfold encode. by ltb_lia. Qed.
Lemma encode2 a b :
  0xC2 <= a < 0xE0 → 0x80 <= b < 0xC0 → encode ((a - 0xC0) * 64 + (b - 0x80)) = [a; b].
Proof. intros. unfold encode. ltb_lia. f_equal; [dlia|f_equal; dlia]. Qed.
Lemma encode3 a b c :
  0xE0 <= a < 0xF0 → 0x80 <= b < 0xC0 → 0x80 <= c < 0xC0 → (a = 0xE0 → 0xA0 <= b) →
  encode ((a - 0xE0) * 4096 + (b - 0x80) * 64 + (c - 0x80)) = [a; b; c].
Proof. intros. unfold encode. ltb_lia. f_equal; [dlia|f_equal; [dlia|f_equal; dlia]]. Qed.
Lemma encode4 a b c d :
  0xF0 <= a < 0xF5 → 0x80 <= b < 0xC0 → 0x80 <= c < 0xC0 → 0x80 <= d < 0xC0 →
  (a = 0xF0 → 0x90 <= b) →
  encode ((a - 0xF0) * 262144 + (b - 0x80) * 4096 + (c - 0x80) * 64 + (d - 0x80)) = [a; b; c; d].
Proof. intros. unfold encode. ltb_lia. f_equal; [dlia|f_equal; [dlia|f_equal; [dlia|f_equal; dlia]]]. Qed.

Lemma encode_shape cp : scalar cp → 
  (encode cp = [cp] ∧ cp < 0x80) ∨
  (∃ a b, encode cp = [a; b] ∧ 0xC2 <= a < 0xE0 ∧ 0x80 <= b < 0xC0) ∨
  (∃ a b c, encode cp = [a; b; c] ∧ 0xE0 <= a < 0xF0 ∧ 0x80 <= b < 0xC0 ∧ 0x80 <= c < 0xC0 ∧
    (a = 0xE0 → 0xA0 <= b) ∧ (a = 0xED → b < 0xA0)) ∨
  (∃ a b c d, encode cp = [a; b; c; d] ∧ 0xF0 <= a < 0xF5 ∧ 0x80 <= b < 0xC0 ∧ 0x80 <= c < 0xC0 ∧
    0x80 <= d < 0xC0 ∧ (a = 0xF0 → 0x90 <= b) ∧ (a = 0xF4 → b < 0x90)).
Proof.
  unfold scalar, encode. intros Hs. destruct (Z.ltb_spec cp 0x80); [auto|right].
  destruct (Z.ltb_spec cp 0x800); [left|right].
  { do 2 eexists. split; [reflexivity|]. dlia. }
  destruct (Z.ltb_spec cp 0x10000); [left|right].
  { do 3 eexists. split; [reflexivity|]. split_and!; dlia. }
  do 4 eexists. split; [reflexivity|]. split_and!; dlia.
Qed.

Lemma cont_true b : 0x80 <= b < 0xC0 → cont b = true.
Proof. intros. apply cont_spec; [unfold is_byte|]; lia. Qed.

Lemma utf8_len_complete s n : head_encodes s n → asmtrace_utf8_len s = n.
Proof.
  intros (cp & Hs & Hn & Ht).
  destruct (encode_shape cp Hs) as [[E H]|[(a & b & E & Ha & Hb)|[(a & b & c & E & Ha & Hb & Hc & H1 & H2)|
    (a & b & c & d & E & Ha & Hb & Hc & Hd & H1 & H2)]]]; rewrite E in *; cbn [length] in Hn; subst n.
  - destruct s as [|x s]; simplify_eq/=. by ltb_lia.
  - destruct s as [|x [|y s]]; simplify_eq/=. ltb_lia. rewrite (cont_true _ Hb). done.
  - destruct s as [|x [|y [|z s]]]; simplify_eq/=. ltb_lia. rewrite (cont_true _ Hb), (cont_true _ Hc). simpl.
    destruct (Z.eqb_spec x 0xE0), (Z.eqb_spec x 0xED), (Z.ltb_spec y 0xA0), (Z.leb_spec 0xA0 y); simpl; lia || done.
  - destruct s as [|x [|y [|z [|w s]]]]; simplify_eq/=. ltb_lia.
    rewrite (cont_true _ Hb), (cont_true _ Hc), (cont_true _ Hd). simpl.
    destruct (Z.eqb_spec x 0xF0), (Z.eqb_spec x 0xF4), (Z.ltb_spec y 0x90), (Z.leb_spec 0x90 y); simpl; lia || done.
Qed.

Lemma utf8_len_sound s n :
  Forall is_byte s → asmtrace_utf8_len s = n → n ≠ O → head_encodes s n.
Proof.
  intros Hs <-. destruct s as [|a s]; [done|]. pose proof Hs as Hs'. apply Forall_cons in Hs' as [Hba _].
  unfold is_byte in Hba. unfold asmtrace_utf8_len, head_encodes. cbn [lookup_total list_lookup_total length].
  destruct (Z.ltb_spec a 0x80). { intros _. exists a. rewrite encode1 by lia. split; [unfold scalar; lia|done]. }
  destruct (Z.ltb_spec a 0xC2); [done|]. destruct (Z.ltb_spec a 0xE0).
  { destruct s as [|b s]; [done|]. decompose_Forall. cbn. destruct (cont b) eqn:Eb; [|done]. intros _.
    apply cont_spec in Eb; [|done]. exists ((a - 0xC0) * 64 + (b - 0x80)).
    rewrite encode2 by lia. split; [unfold scalar; lia|done]. }
  destruct (Z.ltb_spec a 0xF0).
  { destruct s as [|b [|c s]]; [done..|]. decompose_Forall. cbn.
    destruct (cont b) eqn:Eb; [|done]. destruct (cont c) eqn:Ec; [|done]. apply cont_spec in Eb, Ec; try done. cbn.
    destruct (Z.eqb_spec a 0xE0), (Z.ltb_spec b 0xA0); try done; 
      destruct (Z.eqb_spec a 0xED), (Z.leb_spec 0xA0 b); try done; try lia; intros _;
      exists ((a - 0xE0) * 4096 + (b - 0x80) * 64 + (c - 0x80)); rewrite encode3 by lia;
      (split; [unfold scalar; lia|done]). }
  destruct (Z.ltb_spec a 0xF5); [|done].
  destruct s as [|b [|c [|d s]]]; [done..|]. decompose_Forall. cbn.
  destruct (cont b) eqn:Eb; [|done]. destruct (cont c) eqn:Ec; [|done]. destruct (cont d) eqn:Ed; [|done].
  apply cont_spec in Eb, Ec, Ed; try done. cbn.
  destruct (Z.eqb_spec a 0xF0), (Z.ltb_spec b 0x90); try done; 
    destruct (Z.eqb_spec a 0xF4), (Z.leb_spec 0x90 b); try done; try lia; intros _;
    exists ((a - 0xF0) * 262144 + (b - 0x80) * 4096 + (c - 0x80) * 64 + (d - 0x80)); rewrite encode4 by lia;
    (split; [unfold scalar; lia|done]).
Qed.

(** ** What the escape keeps

    The text with every byte that begins no sequence replaced by U+FFFD. *)
Inductive replaced : list Z → list Z → Prop :=
  | replaced_nil : replaced [] []
  | replaced_char cp s t : scalar cp → replaced s t → replaced (encode cp ++ s) (encode cp ++ t)
  | replaced_byte c s t :
      (¬ ∃ n, head_encodes (c :: s) n) → replaced s t → replaced (c :: s) (encode 0xFFFD ++ t).

Lemma head_encodes_app s more n : head_encodes s n → head_encodes (s ++ more) n.
Proof.
  intros (cp & H1 & H2 & H3). exists cp. split_and!; [done..|]. rewrite H3, take_app_le; [done|].
  rewrite H3, length_take in H2. lia.
Qed.

Lemma esc_app s t : esc (s ++ t) = esc s ++ esc t.
Proof. unfold esc. by rewrite fmap_app, concat_app. Qed.

Lemma esc_high s : Forall (λ c, 0x80 <= c) s → esc s = s.
Proof.
  induction 1 as [|c s Hc _ IH]; [done|]. unfold esc in *. rewrite fmap_cons. cbn [concat]. rewrite IH.
  unfold esc1. rewrite (proj2 (Z.eqb_neq c 34)), (proj2 (Z.eqb_neq c 92)), (proj2 (Z.ltb_ge c 32)) by lia. done.
Qed.

Lemma encode_high cp : scalar cp → 0x80 <= cp → Forall (λ c, 0x80 <= c) (encode cp).
Proof.
  intros Hs Hc. destruct (encode_shape cp Hs) as [[E H]|[(a & b & E & Ha & Hb)|[(a & b & c & E & Ha & Hb & Hc' & _)|
    (a & b & c & d & E & Ha & Hb & Hc' & Hd & _)]]]; rewrite E; repeat constructor; lia.
Qed.

Lemma length_esc1 c : (1 <= length (esc1 c) <= 6)%nat.
Proof. unfold esc1. repeat case_match; simpl; lia. Qed.

Lemma escape_step_spec c s :
  Forall is_byte (c :: s) →
  ∃ n t, escape_step (c :: s) = (esc t, n) ∧ (0 < n <= length (c :: s))%nat ∧ (length (esc t) <= 6)%nat ∧
    ((∃ cp, scalar cp ∧ t = encode cp ∧ encode cp = take n (c :: s)) ∨
     ((¬ ∃ n, head_encodes (c :: s) n) ∧ n = 1%nat ∧ t = encode 0xFFFD)).
Proof.
  intros Hs. pose proof Hs as Hc. apply Forall_cons in Hc as [Hc _]. unfold is_byte in Hc.
  destruct (Z.lt_ge_cases c 0x80) as [Hlow|Hhigh].
  - exists 1%nat, [c]. refine (conj _ (conj _ (conj _ _))); [|cbn [length]; lia|..].
    + cbn [escape_step]. rewrite (proj2 (Z.ltb_lt c 0x80)) by lia. unfold esc. cbn [fmap list_fmap concat].
      rewrite app_nil_r. unfold esc1. by repeat case_match.
    + unfold esc. cbn [fmap list_fmap concat]. rewrite app_nil_r. pose proof (length_esc1 c). lia.
    + left. exists c. rewrite encode1 by lia. split; [unfold scalar; lia|done].
  - assert (escape_step (c :: s) = let n := asmtrace_utf8_len (c :: s) in
      if (n =? 0)%nat then ([0xEF; 0xBF; 0xBD], 1%nat) else (take n (c :: s), n)) as ->.
    { cbn [escape_step]. by rewrite (proj2 (Z.eqb_neq c 34)), (proj2 (Z.eqb_neq c 92)),
        (proj2 (Z.ltb_ge c 0x20)), (proj2 (Z.ltb_ge c 0x80)) by lia. }
    cbv zeta. destruct (Nat.eqb_spec (asmtrace_utf8_len (c :: s)) 0) as [E|Hne].
    + exists 1%nat, (encode 0xFFFD). refine (conj eq_refl (conj _ (conj _ (or_intror (conj _ (conj eq_refl eq_refl))))));
        [simpl; lia..|].
      intros [n Hn]. pose proof (utf8_len_complete _ _ Hn) as E'. destruct Hn as (cp & Hcp & Hl & _).
      destruct (encode_shape cp Hcp) as [[E1 _]|[(? & ? & E1 & _)|[(? & ? & ? & E1 & _)|(? & ? & ? & ? & E1 & _)]]];
        rewrite E1 in Hl; simpl in Hl; lia.
    + destruct (utf8_len_sound _ _ Hs eq_refl Hne) as (cp & Hcp & Hl & He). set (n := asmtrace_utf8_len _) in *.
      assert (n <= length (c :: s))%nat by (rewrite He, length_take in Hl; lia).
      assert (0x80 <= cp) as Hh.
      { destruct (Z.lt_ge_cases cp 0x80) as [Hlt|]; [|done]. unfold scalar in Hcp. rewrite encode1 in He by lia.
        destruct n; [done|]. cbn [take] in He. simplify_eq. lia. }
      pose proof (esc_high _ (encode_high _ Hcp Hh)) as Ee.
      exists n, (encode cp). rewrite Ee. refine (conj _ (conj _ (conj _ (or_introl _)))); [by rewrite He|lia| |eauto].
      rewrite Hl. destruct (encode_shape cp Hcp) as [[E1 _]|[(? & ? & E1 & _)|[(? & ? & ? & E1 & _)|(? & ? & ? & ? & E1 & _)]]];
        rewrite E1 in Hl; simpl in Hl; lia.
Qed.

Lemma escape_loop_spec fuel cap dst src :
  Forall is_byte src → (length src <= fuel)%nat →
  ∃ fin more t, src = fin ++ more ∧ replaced fin t ∧ escape_loop fuel cap dst src = dst ++ esc t ∧
    (more ≠ [] → cap <= length dst + length (esc t) + 7)%nat ∧
    (length dst < cap → length dst + length (esc t) < cap)%nat ∧ (length (esc t) <= 6 * length fin)%nat.
Proof.
  revert dst src. induction fuel as [|fuel IH]; intros dst src Hb Hf.
  { destruct src; [|simpl in Hf; lia]. exists [], [], []. split_and!; [done|constructor|by rewrite app_nil_r|done|simpl; lia..]. }
  cbn [escape_loop]. destruct src as [|c src].
  { exists [], [], []. split_and!; [done|constructor|by rewrite app_nil_r|done|simpl; lia..]. }
  change (0 <? length (c :: src))%nat with true. cbn [andb].
  destruct (Nat.ltb_spec (length dst + 7) cap) as [Hr|Hr].
  2: { exists [], (c :: src), []. split_and!; [done|constructor|by rewrite app_nil_r|simpl; lia..]. }
  destruct (escape_step_spec c src Hb) as (n & t & -> & Hn & Hl & Hcase).
  destruct (IH (dst ++ esc t) (drop n (c :: src))) as (fin & more & t' & Esrc & Hrep & -> & H1 & H2 & H3).
  { by apply Forall_drop. } { rewrite length_drop. cbn [length] in *. lia. }
  rewrite length_app in H1, H2.
  exists (take n (c :: src) ++ fin), more, (t ++ t'). rewrite esc_app, !length_app, <-!(assoc_L (++)).
  split_and!; [by rewrite <-Esrc, take_drop| |done|intros; specialize (H1 ltac:(done)); lia|lia|rewrite length_take; lia].
  destruct Hcase as [(cp & Hcp & -> & Hcp')|(Hno & -> & ->)].
  - rewrite <-Hcp'. by apply replaced_char.
  - cbn [take app]. apply replaced_byte; [|done]. intros [m Hm]. apply Hno. exists m.
    cbn [drop] in Esrc. rewrite drop_0 in Esrc. rewrite Esrc. change (c :: fin ++ more) with ((c :: fin) ++ more). by apply head_encodes_app.
Qed.

Lemma replaced_utf8 s t : replaced s t → utf8 t.
Proof.
  induction 1 as [|cp s t Hcp _ (cps & Hc & ->)|c s t _ _ (cps & Hc & ->)].
  - by exists [].
  - exists (cp :: cps). by split; [constructor|].
  - exists (0xFFFD :: cps). split; [constructor; [unfold scalar; lia|done]|done].
Qed.

Lemma encode_bytes cp : scalar cp → Forall is_byte (encode cp).
Proof.
  intros Hs. destruct (encode_shape cp Hs) as [[E H]|[(a & b & E & Ha & Hb)|[(a & b & c & E & Ha & Hb & Hc & _)|
    (a & b & c & d & E & Ha & Hb & Hc & Hd & _)]]]; rewrite E; repeat constructor; unfold is_byte, scalar in *; lia.
Qed.

Lemma utf8_bytes t : utf8 t → Forall is_byte t.
Proof.
  intros (cps & Hc & ->). induction Hc as [|cp cps Hcp _ IH]; [constructor|]. rewrite fmap_cons. cbn [concat].
  apply Forall_app. split; [by apply encode_bytes|done].
Qed.

(** ** Whole texts *)
Lemma utf8_app s t : utf8 s → utf8 t → utf8 (s ++ t).
Proof.
  intros (a & Ha & ->) (b & Hb & ->). exists (a ++ b). split; [by apply Forall_app|]. by rewrite fmap_app, concat_app.
Qed.
Definition ascii_code (c : Z) : Prop := 0 <= c < 0x80.
Lemma utf8_ascii s : Forall ascii_code s → utf8 s.
Proof.
  induction 1 as [|c s Hc _ IH]; [by exists []|]. change (c :: s) with ([c] ++ s). apply utf8_app; [|done].
  exists [c]. unfold ascii_code in Hc. split; [repeat constructor; unfold scalar; lia|]. simpl. by rewrite encode1.
Qed.
Lemma utf8_cons c s : ascii_code c → utf8 s → utf8 (c :: s).
Proof. intros Hc Hs. change (c :: s) with ([c] ++ s). apply utf8_app; [by apply utf8_ascii, Forall_singleton|done]. Qed.

Lemma utf8_esc s : utf8 s → utf8 (esc s).
Proof.
  intros (cps & Hc & ->). induction Hc as [|cp cps Hcp _ IH]; [by exists []|]. rewrite fmap_cons. cbn [concat].
  rewrite esc_app. apply utf8_app; [|done]. destruct (Z.lt_ge_cases cp 0x80).
  - assert (0 <= cp) by (unfold scalar in Hcp; lia). rewrite encode1 by lia. unfold esc. cbn [fmap list_fmap concat].
    rewrite app_nil_r. apply utf8_ascii. unfold esc1, hex_digit, ascii_code.
    repeat case_match; repeat constructor; dlia.
  - rewrite esc_high by (by apply encode_high). exists [cp]. split; [by constructor|]. simpl. by rewrite app_nil_r.
Qed.

Lemma utf8_quoted s : utf8 s → utf8 (quoted s).
Proof.
  intros Hs. unfold quoted. apply utf8_cons; [unfold ascii_code; lia|]. apply utf8_app; [by apply utf8_esc|].
  apply utf8_cons; [unfold ascii_code; lia|by exists []].
Qed.

Lemma utf8_sep ls : Forall utf8 ls → utf8 (sep ls).
Proof.
  induction 1 as [|l ls Hl Hls IH]; [by exists []|]. destruct ls as [|l' ls]; [done|].
  rewrite sep_cons by done. apply utf8_app; [done|]. apply utf8_cons; [unfold ascii_code; lia|done].
Qed.

(** Every string of a value is Unicode text. *)
Fixpoint unicode (v : json) : Prop :=
  match v with
  | JNum _ | JBool _ => True
  | JStr s => utf8 s
  | JArr l => foldr (λ v acc, unicode v ∧ acc) True l
  | JObj l => foldr (λ kv acc, (utf8 kv.1 ∧ unicode kv.2) ∧ acc) True l
  end.

(** A value with Unicode strings and 64-bit numbers. *)
Fixpoint sound (v : json) : Prop :=
  match v with
  | JNum n => - 2 ^ 64 < n < 2 ^ 64
  | JBool _ => True
  | JStr s => utf8 s
  | JArr l => foldr (λ v acc, sound v ∧ acc) True l
  | JObj l => foldr (λ kv acc, (utf8 kv.1 ∧ sound kv.2) ∧ acc) True l
  end.
Lemma sound_spec v : sound v → readable v ∧ unicode v.
Proof.
  induction v as [n|b|s|l IH|l IH] using json_induction; intros Hs; cbn [readable unicode sound] in *.
  - done.
  - done.
  - split; [by apply utf8_bytes|done].
  - induction IH as [|v l Hv _ IHl]; [done|]. destruct Hs as [Hs1 Hs2].
    destruct (Hv Hs1), (IHl Hs2). done.
  - induction IH as [|[k v] l Hv _ IHl]; [done|]. destruct Hs as [[Hk Hs1] Hs2]. cbn [foldr fst snd] in *.
    destruct (Hv Hs1), (IHl Hs2). split_and!; auto using utf8_bytes.
Qed.
Lemma sound_arr l : Forall sound l → sound (JArr l).
Proof. induction 1; simpl in *; auto. Qed.
Lemma sound_obj l : Forall (λ kv, utf8 kv.1 ∧ sound kv.2) l → sound (JObj l).
Proof. induction 1; simpl in *; auto. Qed.

Lemma digits_ascii s : all_digits s → Forall ascii_code (codes s).
Proof.
  induction s as [|c s IH]; [constructor|]. intros (H1 & H2 & H3). rewrite codes_cons. constructor; [|by apply IH].
  unfold ascii_code. lia.
Qed.
Lemma fmt_d_ascii n : Forall ascii_code (codes (fmt_d n)).
Proof.
  destruct (Z.lt_ge_cases n 0).
  - rewrite fmt_d_neg by done. constructor; [unfold ascii_code; lia|]. apply digits_ascii, all_digits_digits; [lia|done].
  - rewrite fmt_d_nonneg by done. apply digits_ascii, all_digits_digits; [lia|done].
Qed.

Lemma show_utf8 v : unicode v → utf8 (show v).
Proof.
  induction v as [n|b|s|l IH|l IH] using json_induction; intros Hu; cbn [show].
  - apply utf8_ascii, fmt_d_ascii.
  - apply utf8_ascii. destruct b; repeat constructor; vm_compute; congruence.
  - by apply utf8_quoted.
  - apply utf8_cons; [unfold ascii_code; lia|]. apply utf8_app; [|by apply utf8_cons; [unfold ascii_code; lia|exists []]].
    apply utf8_sep. cbn [unicode] in Hu. induction IH as [|v l Hv _ IHl]; [constructor|].
    destruct Hu as [Hu1 Hu2]. rewrite fmap_cons. constructor; auto.
  - apply utf8_cons; [unfold ascii_code; lia|]. apply utf8_app; [|by apply utf8_cons; [unfold ascii_code; lia|exists []]].
    apply utf8_sep. cbn [unicode] in Hu. induction IH as [|[k v] l Hv _ IHl]; [constructor|].
    destruct Hu as [[Hk Hu1] Hu2]. cbn [fst snd] in *. rewrite fmap_cons. constructor; [|auto]. cbn [fst snd].
    apply utf8_app; [by apply utf8_quoted|]. apply utf8_cons; [unfold ascii_code; lia|auto].
Qed.

(** What a reader gets for a source escaped into a buffer of [cap] bytes. *)
Definition kept (cap : nat) (src : list Z) : list Z :=
  match asmtrace_escape cap (Some src) with
  | Some out => from_option fst [] (read_str (out ++ [34]))
  | None => []
  end.

Lemma escape_kept cap src :
  Forall is_byte src → cap ≠ O → asmtrace_escape cap (Some src) = Some (esc (kept cap src)) ∧ utf8 (kept cap src).
Proof.
  intros Hb Hc. destruct (escape_loop_spec (length src) cap [] src Hb ltac:(lia)) as (fin & more & t & E & Hr & El & _).
  unfold kept, asmtrace_escape. rewrite (proj2 (Nat.eqb_neq cap 0)) by done.
  change (default [] (Some src)) with src. cbv zeta. rewrite El. cbn [app].
  apply replaced_utf8 in Hr. by rewrite (read_str_esc t []) by (by apply utf8_bytes).
Qed.

(** The escape of any bytes is the body of a JSON string literal that reads
    back as the text of the longest part of the source that fits, with each byte
    that begins no UTF-8 sequence replaced by U+FFFD; it fits the buffer with its
    terminator, and nothing is cut when the buffer has 6 bytes for each byte of the
    source and 8 more. *)
Theorem escape_exact cap src r (Hb : Forall is_byte src) (Hc : cap ≠ O) :
  ∃ out fin more t,
    asmtrace_escape cap (Some src) = Some out ∧ src = fin ++ more ∧ replaced fin t ∧ utf8 t ∧
    read_str (out ++ 34 :: r) = Some (t, r) ∧ (length out < cap)%nat ∧
    (more ≠ [] → cap <= length out + 7)%nat ∧ (6 * length src + 8 <= cap → more = [])%nat.
Proof.
  destruct (escape_loop_spec (length src) cap [] src Hb ltac:(lia)) as (fin & more & t & E & Hr & El & H1 & H2 & H3).
  unfold asmtrace_escape. rewrite (proj2 (Nat.eqb_neq cap 0)) by done.
  change (default [] (Some src)) with src. cbv zeta. rewrite El. cbn [app length] in *.
  exists (esc t), fin, more, t. split_and!; [done..|by eapply replaced_utf8| |lia|done|].
  - by eapply read_str_esc, utf8_bytes, replaced_utf8.
  - intros Hroom. destruct more as [|x more]; [done|]. rewrite E, length_app in Hroom. cbn [length] in Hroom.
    specialize (H1 ltac:(done)). lia.
Qed.

Lemma escape_exact_witness :
  ∃ out fin more t, asmtrace_escape 64 (Some [65; 10; 0xC3; 0xA9; 0xE9; 34]) = Some out ∧
    [65; 10; 0xC3; 0xA9; 0xE9; 34] = fin ++ more ∧ replaced fin t ∧ utf8 t ∧
    read_str (out ++ [34]) = Some (t, []) ∧ (length out < 64)%nat ∧ more = [].
Proof.
  destruct (escape_exact 64 [65; 10; 0xC3; 0xA9; 0xE9; 34] []) as (out & fin & more & t & H).
  { repeat constructor; unfold is_byte; lia. } { done. }
  exists out, fin, more, t. destruct H as (H1 & H2 & H3 & H4 & H5 & H6 & _ & H8).
  split_and!; [done..|apply H8; simpl; lia].
Defined.
End Escape.
