(* ===== verification/Record.v ===== *)
(** The recording writer ([cli/asmtrace_ndjson.c]): bodies of the data-flow
    events, the header, the event lines and the footer of a [.asmtrace] file. *)
From S2P Require Import Prelude Format ValTrace DefUse Json Escape.
Import ValTrace Json Escape.

Module Record.
Open Scope Z_scope.

(** ** Bounded text *)
(** [bp]: append to the text in a buffer of [cap] bytes; the text never exceeds
    [cap - 1] bytes, so its length is the offset [o] the C code carries. *)
Definition bp (cap : nat) (b t : list Z) : list Z :=
  if (cap <=? length b + 1)%nat then b else take (cap - 1) (b ++ t).

Definition u (n : Z) : list Z := codes (fmt_u n).
Definition d (n : Z) : list Z := codes (fmt_d n).
Definition boolean (b : bool) : list Z := codes (if b then "true" else "false").
Definition hex02 (b : Z) : list Z := [hex_digit (b / 16); hex_digit (b mod 16)].
(** [asmtrace_escape] into a local array of [cap] bytes. *)
Definition escaped (cap : nat) (s : list Z) : list Z := default [] (asmtrace_escape cap (Some s)).

Definition loc_space (k : at_loc_kind) : list Z :=
  match k with AT_LOC_REG => codes "reg" | AT_LOC_MEM_ABS => codes "abs" | AT_LOC_MEM_OFF => codes "off" end.

(** ** Bodies *)
(** The last part of an operand; [wide_] is the side buffer, [None] for a null
    one. *)
Definition value_part (cap : nat) (b : list Z) (r : at_val_rec) (wide_ : option (list Z)) : list Z :=
  if wide r then
    let b := bp cap b (js ",'wide':true") in
    match wide_ with
    | Some w =>
        if value_valid r && (0 <? size r) && (wide_off r + size r <=? Z.of_nat (length w)) then
          let b := bp cap b (js ",'bytes':'") in
          let b := foldl (λ b k, bp cap b (hex02 (w !!! (Z.to_nat (wide_off r) + k)%nat))) b (seq 0 (Z.to_nat (size r))) in
          bp cap b (js "'")
        else b
    | None => b
    end
  else if value_valid r then bp cap b (js ",'value':" ++ u (value r))
  else b.
(** One operand. *)
Definition op_body (cap : nat) (b : list Z) (r : at_val_rec) (wide_ : option (list Z)) : list Z :=
  let b := bp cap b (js "{'space':'" ++ loc_space (kind r) ++ js "'") in
  let b := match kind r with
           | AT_LOC_REG => bp cap b (js ",'reg':" ++ u (reg r))
           | _ => bp cap b (js ",'reg':" ++ u (reg r) ++ js ",'base':" ++ u (base r) ++ js ",'index':" ++ u (index r) ++
                    js ",'scale':" ++ d (scale r) ++ js ",'disp':" ++ d (disp r) ++ js ",'addr':" ++ u (addr r))
           end in
  let b := bp cap b (js ",'size':" ++ u (size r) ++ js ",'write':" ++ boolean (is_write r) ++
             js ",'value_valid':" ++ boolean (value_valid r)) in
  let b := value_part cap b r wide_ in
  bp cap b (js "}").

(** The separator before all but the first. *)
Definition comma (cap : nat) (b : list Z) (i : nat) : list Z := if (i =? 0)%nat then b else bp cap b (js ",").

Definition asmtrace_df_step_body (cap : nat) (step off rbase when : Z) (disasm : option (list Z))
    (rs : list at_val_rec) (wide_ : option (list Z)) : list Z :=
  let b := bp cap [] (js "'step':" ++ u step ++ js ",'off':" ++ u off) in
  let b := if rbase =? 0 then b else bp cap b (js ",'rbase':" ++ u rbase) in
  let b := if when =? 0 then b else bp cap b (js ",'when':" ++ u when) in
  let b := match disasm with
           | Some (c :: s) => bp cap b (js ",'disasm':'" ++ escaped 512 (c :: s) ++ js "'")
           | _ => b
           end in
  let b := bp cap b (js ",'ops':[") in
  let b := foldl (λ b ir, op_body cap (comma cap b ir.1) ir.2 wide_) b (imap pair rs) in
  bp cap b (js "]").

Definition asmtrace_df_invocation_body (cap : nat) (pass result steps : Z) (trunc : bool) : list Z :=
  bp cap [] (js "'pass':" ++ u pass ++ js ",'result':" ++ d result ++ js ",'steps':" ++ u steps ++
    js ",'truncated':" ++ boolean trunc).

Definition asmtrace_df_edge_body (cap : nat) (e : DefUse.edge) : list Z :=
  let b := bp cap [] (js "'from':" ++ u (DefUse.from_step e) ++ js ",'to':" ++ u (DefUse.to_step e) ++ js ",'loc':") in
  op_body cap b (DefUse.loc e) None.

Definition asmtrace_mem_body (cap : nat) (step ea sz : Z) (w : bool) (space : at_loc_kind) : list Z :=
  bp cap [] (js "'step':" ++ u step ++ js ",'ea':" ++ u ea ++ js ",'size':" ++ u sz ++ js ",'rw':'" ++
    codes (if w then "w" else "r") ++ js "','space':'" ++ loc_space space ++ js "'").

Definition asmtrace_regstate_vec_append (cap : nat) (b : list Z) (lanes : list (list Z)) (mx : Z) : list Z :=
  let lane b i :=
    let b := bp cap b (js ",'xmm" ++ d (Z.of_nat i) ++ js "':'") in
    let b := foldl (λ b k, bp cap b (hex02 ((lanes !!! i) !!! k))) b (seq 0 16) in
    bp cap b (js "'") in
  let b := foldl lane b (seq 0 16) in
  bp cap b (js ",'mxcsr':" ++ u mx).

Definition reg_names : list string :=
  ["rax"; "rbx"; "rcx"; "rdx"; "rsi"; "rdi"; "rbp"; "rsp"; "r8"; "r9"; "r10"; "r11"; "r12"; "r13"; "r14"; "r15";
   "rip"; "rflags"]%string.

Definition asmtrace_regstate_body (cap : nat) (r : asmtest_regfile) : list Z :=
  let v i := u (gpr r !!! i) in
  let b := bp cap [] (js "'desc':'user_regs@x86_64/sysv','values':{" ++
    js "'rax':" ++ v 0%nat ++ js ",'rbx':" ++ v 1%nat ++ js ",'rcx':" ++ v 2%nat ++ js ",'rdx':" ++ v 3%nat ++
    js ",'rsi':" ++ v 4%nat ++ js ",'rdi':" ++ v 5%nat ++ js ",'rbp':" ++ v 6%nat ++ js ",'rsp':" ++ v 7%nat ++
    js ",'r8':" ++ v 8%nat ++ js ",'r9':" ++ v 9%nat ++ js ",'r10':" ++ v 10%nat ++ js ",'r11':" ++ v 11%nat ++
    js ",'r12':" ++ v 12%nat ++ js ",'r13':" ++ v 13%nat ++ js ",'r14':" ++ v 14%nat ++ js ",'r15':" ++ v 15%nat ++
    js ",'rip':" ++ v 16%nat ++ js ",'rflags':" ++ v 17%nat) in
  let b := if has_vec r then asmtrace_regstate_vec_append cap b (xmm r) (mxcsr r) else b in
  bp cap b (js "}").

Definition RC : list string := ["nearest"; "down"; "up"; "zero"]%string.
Definition EX : list string := ["ie"; "de"; "ze"; "oe"; "ue"; "pe"]%string.
(** The text and the flag [first]. *)
Definition sticky_step (cap : nat) (mx : Z) (st : list Z * bool) (i : nat) : list Z * bool :=
  let '(b, first) := st in
  if Z.testbit mx (Z.of_nat i) then
    (bp cap b ((if first then [] else js ",") ++ js "'" ++ codes (EX !!! i) ++ js "'"), false)
  else (b, first).
Definition asmtrace_fpenv_body (cap : nat) (step mx : Z) : list Z :=
  let b := bp cap [] (js "'step':" ++ u step ++ js ",'mxcsr':" ++ u mx ++ js ",'round':'" ++
    codes (RC !!! Z.to_nat (Z.land (Z.shiftr mx 13) 3)) ++ js "','ftz':" ++ boolean (Z.testbit mx 15) ++
    js ",'daz':" ++ boolean (Z.testbit mx 6) ++ js ",'sticky':[") in
  let b := (foldl (sticky_step cap mx) (b, true) (seq 0 6)).1 in
  bp cap b (js "]").

(** [cone] pairs [cone_steps] with [cone_offs]. *)
Definition asmtrace_blame_body (cap : nat) (step off : Z) (loc : option at_val_rec) (cone : list (Z * Z))
    (born_untraced : bool) : list Z :=
  let b := bp cap [] (js "'step':" ++ u step ++ js ",'off':" ++ u off) in
  let b := match loc with
           | Some r => op_body cap (bp cap b (js ",'loc':")) r None
           | None => b
           end in
  let b := bp cap b (js ",'cone':[") in
  let b := foldl (λ b ic, bp cap (comma cap b ic.1)
             (js "{'step':" ++ u ic.2.1 ++ js ",'off':" ++ u ic.2.2 ++ js ",'kind':'insn'}")) b (imap pair cone) in
  let b := bp cap b (js "]") in
  bp cap b (js ",'born_untraced':" ++ boolean born_untraced).

Definition diff_step (cap : nat) (prev cur : asmtest_regfile) (st : list Z * bool) (iname : nat * string) :
    list Z * bool :=
  let '(b, first) := st in
  let '(i, name) := iname in
  if gpr prev !!! i =? gpr cur !!! i then (b, first)
  else (bp cap b ((if first then [] else js ",") ++ js "'" ++ codes name ++ js "':" ++ u (gpr cur !!! i)), false).
Definition asmtrace_statediff_body (cap : nat) (step : Z) (prev : option asmtest_regfile) (cur : asmtest_regfile) :
    list Z :=
  let b := bp cap [] (js "'step':" ++ u step ++ js ",'changed':{") in
  let b := match prev with
           | Some prev => (foldl (diff_step cap prev cur) (b, true) (imap pair reg_names)).1
           | None => b
           end in
  bp cap b (js "},'computed':" ++ boolean (if prev is Some _ then true else false)).

(** ** The writer *)
(** A stream that takes [room] more bytes: what does not fit is lost and the error
    indicator stays set. *)
Record FILE := mk_file { data : list Z; room : nat; ferr : bool }.
(** The stream and whether this write succeeded. *)
Definition fputs (t : list Z) (f : FILE) : FILE * bool :=
  if (length t <=? room f)%nat then (mk_file (data f ++ t) (room f - length t) (ferr f), true)
  else (mk_file (data f ++ take (room f) t) 0 true, false).

(** [asmtrace_prov_t] *)
Record prov := mk_prov {
  backend : option (list Z); exact_ : bool; trust : option (list Z);
  skip_code : Z; skip_reason : option (list Z); redacted : bool }.
(** [asmtrace_writer_t]; an optional field with its [have_] flag is an option. *)
Record writer := mk_writer {
  wfile : option FILE; deterministic : bool; owns_file : bool; events : Z; wtruncated : bool; werr : bool;
  wsteps_total : option Z; wcode : option (list Z * list Z * Z); warch : option (list Z) }.

Definition asmtrace_open_file (f : FILE) (det : bool) : writer :=
  mk_writer (Some f) det false 0 false false None None None.
(** [fopen] gives [f], or fails. *)
Definition asmtrace_open (f : option FILE) (det : bool) : Z * writer :=
  match f with
  | None => (-1, mk_writer None false false 0 false false None None None)
  | Some f => (0, mk_writer (Some f) det true 0 false false None None None)
  end.
Definition asmtrace_writer_set_steps_total (w : writer) (total : Z) : writer :=
  mk_writer (wfile w) (deterministic w) (owns_file w) (events w) (wtruncated w) (werr w) (Some total) (wcode w) (warch w).
Definition asmtrace_writer_set_arch (w : writer) (arch : option (list Z)) : writer :=
  mk_writer (wfile w) (deterministic w) (owns_file w) (events w) (wtruncated w) (werr w) (wsteps_total w) (wcode w)
    (match arch with Some (c :: s) => Some (take 15 (c :: s)) | _ => None end).
Definition asmtrace_writer_set_code (w : writer) (name sha : option (list Z)) (len : Z) : writer :=
  mk_writer (wfile w) (deterministic w) (owns_file w) (events w) (wtruncated w) (werr w) (wsteps_total w)
    (match sha with Some sha => Some (take 127 (default [] name), take 64 sha, len) | None => None end) (warch w).

(** [w->f] and [w->err] after a write. *)
Definition with_file (w : writer) (f : FILE) (err : bool) : writer :=
  mk_writer (Some f) (deterministic w) (owns_file w) (events w) (wtruncated w) err (wsteps_total w) (wcode w) (warch w).
Definition rc_of (w : writer) : Z := if werr w then -1 else 0.

Definition skip_text (code : Z) (reason : option (list Z)) : list Z :=
  js ",'skip':{'code':" ++ d code ++ js ",'reason':'" ++ escaped 512 (default [] reason) ++ js "'}".
Definition prov_line (p : prov) : list Z :=
  js "{'backend':'" ++ escaped 512 (default (codes "unknown") (backend p)) ++ js "','exact':" ++ boolean (exact_ p) ++
  js ",'trust':'" ++ escaped 512 (default (codes "exact") (trust p)) ++ js "'" ++
  (if skip_code p =? 0 then [] else skip_text (skip_code p) (skip_reason p)) ++
  (if redacted p then js ",'redacted':true" else []) ++ js "}".
Definition unknown : prov := mk_prov (Some (codes "unknown")) true (Some (codes "exact")) 0 None false.

Definition header_text (w : writer) (producer : option (list Z)) (p : option prov) (pid : Z) (cmd : option (list Z))
    (now : Z) : list Z :=
  js "{'asmtrace':1,'container':'ndjson','producer':{'name':'" ++
  escaped 1024 (default (codes "asmspy") producer) ++ js "','version':'1.1.0'},'provenance':" ++
  prov_line (default unknown p) ++
  (match warch w with
   | Some a => js ",'arch':'" ++ escaped 1024 a ++ js "'"
   | None => js ",'arch':'x86_64'"
   end) ++
  (match wcode w with
   | Some (name, sha, len) =>
       js ",'code':{'name':'" ++ escaped 1024 name ++ js "','sha256':'" ++ sha ++ js "','len':" ++ u len ++ js "}"
   | None => []
   end) ++
  (if deterministic w then []
   else (if 0 <? pid then js ",'pid':" ++ d pid else []) ++
        (match cmd with Some c => js ",'cmd':'" ++ escaped 1024 c ++ js "'" | None => [] end) ++
        js ",'ts':" ++ d now).
(** Only the last write of the header is checked here; the others set the stream's
    indicator. *)
Definition asmtrace_header (w : writer) producer p pid cmd now : Z * writer :=
  match wfile w with
  | None => (-1, w)
  | Some f =>
      let f := (fputs (header_text w producer p pid cmd now) f).1 in
      let '(f, ok) := fputs (js "}" ++ [10]) f in
      let w := with_file w f (werr w || negb ok) in
      (rc_of w, w)
  end.

Definition asmtrace_emit (w : writer) (k body : list Z) : Z * writer :=
  match wfile w with
  | None => (-1, w)
  | Some f =>
      let t := match body with
               | [] => js "{'k':'" ++ k ++ js "'}" ++ [10]
               | _ => js "{'k':'" ++ k ++ js "'," ++ body ++ js "}" ++ [10]
               end in
      let f := (fputs t f).1 in
      let w := mk_writer (Some f) (deterministic w) (owns_file w) (events w +64 1) (wtruncated w) (werr w || ferr f)
                 (wsteps_total w) (wcode w) (warch w) in
      (rc_of w, w)
  end.

Definition footer_text (w : writer) (lost : Z) (throttled : bool) (skip : option prov) : list Z :=
  js "{'k':'end','events':" ++ u (events w) ++ js ",'truncated':" ++ boolean (wtruncated w) ++
  js ",'drops':{'lost':" ++ u lost ++ js ",'throttled':" ++ boolean throttled ++ js "}" ++
  (match wsteps_total w with Some n => js ",'steps_total':" ++ u n | None => [] end) ++
  (match skip with
   | Some p => if skip_code p =? 0 then [] else skip_text (skip_code p) (skip_reason p)
   | None => []
   end) ++ js "}" ++ [10].
(** The result and the file; [flushed] is what [fclose] or [fflush] reports. *)
Definition asmtrace_close (w : writer) (lost : Z) (throttled : bool) (skip : option prov) (flushed : bool) :
    Z * option FILE :=
  match wfile w with
  | None => (0, None)
  | Some f =>
      let f := (fputs (footer_text w lost throttled skip) f).1 in
      (if werr w || ferr f || negb flushed then -1 else 0, Some f)
  end.

(** ** What the lines mean *)
Definition f (k : string) (v : json) : list Z * json := (codes k, v).
Definition str (s : string) : json := JStr (codes s).

Definition hex_text (bs : list Z) : list Z := concat (hex02 <$> bs).
Definition wide_bytes (r : at_val_rec) (w : list Z) : list Z := take (Z.to_nat (size r)) (drop (Z.to_nat (wide_off r)) w).
Definition value_fields (r : at_val_rec) (wide_ : option (list Z)) : list (list Z * json) :=
  if wide r then
    f "wide" (JBool true) ::
    match wide_ with
    | Some w =>
        if value_valid r && (0 <? size r) && (wide_off r + size r <=? Z.of_nat (length w))
        then [f "bytes" (JStr (hex_text (wide_bytes r w)))] else []
    | None => []
    end
  else if value_valid r then [f "value" (JNum (value r))] else [].

Definition op_fields (r : at_val_rec) (wide_ : option (list Z)) : list (list Z * json) :=
  [f "space" (JStr (loc_space (kind r))); f "reg" (JNum (reg r))] ++
  (match kind r with
   | AT_LOC_REG => []
   | _ => [f "base" (JNum (base r)); f "index" (JNum (index r)); f "scale" (JNum (scale r)); f "disp" (JNum (disp r));
           f "addr" (JNum (addr r))]
   end) ++
  [f "size" (JNum (size r)); f "write" (JBool (is_write r)); f "value_valid" (JBool (value_valid r))] ++
  value_fields r wide_.
Definition op_json r w : json := JObj (op_fields r w).

(** One event of a recording: the call of a body builder. *)
Inductive event :=
  | EvStep (step off rbase when : Z) (disasm : option (list Z)) (rs : list at_val_rec) (wide_ : option (list Z))
  | EvInvocation (pass result steps : Z) (trunc : bool)
  | EvEdge (e : DefUse.edge)
  | EvMem (step ea sz : Z) (w : bool) (space : at_loc_kind)
  | EvRegstate (r : asmtest_regfile)
  | EvFpenv (step mx : Z)
  | EvBlame (step off : Z) (loc : option at_val_rec) (cone : list (Z * Z)) (born_untraced : bool)
  | EvStatediff (step : Z) (prev : option asmtest_regfile) (cur : asmtest_regfile).

Definition event_kind (ev : event) : string :=
  match ev with
  | EvStep _ _ _ _ _ _ _ => "df_step" | EvInvocation _ _ _ _ => "df_invocation" | EvEdge _ => "df_edge"
  | EvMem _ _ _ _ _ => "mem" | EvRegstate _ => "regstate" | EvFpenv _ _ => "fpenv" | EvBlame _ _ _ _ _ => "blame"
  | EvStatediff _ _ _ => "statediff"
  end%string.
Definition body (cap : nat) (ev : event) : list Z :=
  match ev with
  | EvStep step off rbase when disasm rs w => asmtrace_df_step_body cap step off rbase when disasm rs w
  | EvInvocation pass result steps trunc => asmtrace_df_invocation_body cap pass result steps trunc
  | EvEdge e => asmtrace_df_edge_body cap e
  | EvMem step ea sz w space => asmtrace_mem_body cap step ea sz w space
  | EvRegstate r => asmtrace_regstate_body cap r
  | EvFpenv step mx => asmtrace_fpenv_body cap step mx
  | EvBlame step off loc cone born => asmtrace_blame_body cap step off loc cone born
  | EvStatediff step prev cur => asmtrace_statediff_body cap step prev cur
  end.

Definition reg_fields (r : asmtest_regfile) : list (list Z * json) :=
  imap (λ i name, f name (JNum (gpr r !!! i))) reg_names.
Definition lane_fields (r : asmtest_regfile) : list (list Z * json) :=
  if has_vec r then
    ((λ i, (codes "xmm" ++ d (Z.of_nat i), JStr (hex_text (take 16 (xmm r !!! i))))) <$> seq 0 16) ++
    [f "mxcsr" (JNum (mxcsr r))]
  else [].
Definition changed_fields (prev cur : asmtest_regfile) : list (list Z * json) :=
  omap (λ iname, if gpr prev !!! iname.1 =? gpr cur !!! iname.1 then None
                 else Some (f iname.2 (JNum (gpr cur !!! iname.1)))) (imap pair reg_names).
Definition sticky (mx : Z) : list json :=
  omap (λ i, if Z.testbit mx (Z.of_nat i) then Some (str (EX !!! i)) else None) (seq 0 6).

Definition event_fields (ev : event) : list (list Z * json) :=
  match ev with
  | EvStep step off rbase when disasm rs w =>
      [f "step" (JNum step); f "off" (JNum off)] ++
      (if rbase =? 0 then [] else [f "rbase" (JNum rbase)]) ++
      (if when =? 0 then [] else [f "when" (JNum when)]) ++
      (match disasm with Some (c :: s) => [f "disasm" (JStr (kept 512 (c :: s)))] | _ => [] end) ++
      [f "ops" (JArr ((λ r, op_json r w) <$> rs))]
  | EvInvocation pass result steps trunc =>
      [f "pass" (JNum pass); f "result" (JNum result); f "steps" (JNum steps); f "truncated" (JBool trunc)]
  | EvEdge e => [f "from" (JNum (DefUse.from_step e)); f "to" (JNum (DefUse.to_step e)); f "loc" (op_json (DefUse.loc e) None)]
  | EvMem step ea sz w space =>
      [f "step" (JNum step); f "ea" (JNum ea); f "size" (JNum sz); f "rw" (str (if w then "w" else "r"));
       f "space" (JStr (loc_space space))]
  | EvRegstate r => [f "desc" (str "user_regs@x86_64/sysv"); f "values" (JObj (reg_fields r ++ lane_fields r))]
  | EvFpenv step mx =>
      [f "step" (JNum step); f "mxcsr" (JNum mx); f "round" (str (RC !!! Z.to_nat (Z.land (Z.shiftr mx 13) 3)));
       f "ftz" (JBool (Z.testbit mx 15)); f "daz" (JBool (Z.testbit mx 6)); f "sticky" (JArr (sticky mx))]
  | EvBlame step off loc cone born =>
      [f "step" (JNum step); f "off" (JNum off)] ++
      (match loc with Some r => [f "loc" (op_json r None)] | None => [] end) ++
      [f "cone" (JArr ((λ so, JObj [f "step" (JNum so.1); f "off" (JNum so.2); f "kind" (str "insn")]) <$> cone));
       f "born_untraced" (JBool born)]
  | EvStatediff step prev cur =>
      [f "step" (JNum step);
       f "changed" (JObj (match prev with Some prev => changed_fields prev cur | None => [] end));
       f "computed" (JBool (if prev is Some _ then true else false))]
  end.
Definition event_json (ev : event) : json := JObj (f "k" (str (event_kind ev)) :: event_fields ev).

(** ** Texts in a bounded buffer *)
Definition fits (cap : nat) (b t : list Z) : Prop := b = take (cap - 1) t.
Lemma fits_nil cap : fits cap [] [].
Proof. unfold fits. by rewrite take_nil. Qed.
Lemma fits_bp cap b t s : fits cap b t → fits cap (bp cap b s) (t ++ s).
Proof.
  unfold fits, bp. intros ->. rewrite length_take. destruct (Nat.leb_spec cap (Nat.min (cap - 1) (length t) + 1)).
  - by rewrite take_app_le by lia.
  - rewrite take_ge with (l := t) by lia. done.
Qed.

(** The text of one field, and of the fields after the first. *)
Definition field_text (kv : list Z * json) : list Z := quoted kv.1 ++ 58 :: show kv.2.
Definition more_text (fs : list (list Z * json)) : list Z := concat ((λ kv, 44 :: field_text kv) <$> fs).

Lemma sep_more l ls : sep (l :: ls) = l ++ concat ((44 ::.) <$> ls).
Proof.
  revert l. induction ls as [|l' ls IH]; intros l; [by rewrite app_nil_r|].
  rewrite sep_cons, IH by done. done.
Qed.
Lemma show_obj kv fs : show (JObj (kv :: fs)) = 123 :: field_text kv ++ more_text fs ++ [125].
Proof.
  cbn [show]. rewrite fmap_cons, sep_more. unfold more_text. rewrite <-list_fmap_compose, <-(assoc_L (++)). done.
Qed.
Lemma more_app fs fs' : more_text (fs ++ fs') = more_text fs ++ more_text fs'.
Proof. unfold more_text. by rewrite fmap_app, concat_app. Qed.
Lemma more_cons kv fs : more_text (kv :: fs) = 44 :: field_text kv ++ more_text fs.
Proof. done. Qed.

Lemma fits_eq cap b t t' : fits cap b t → t = t' → fits cap b t'.
Proof. by intros ? ->. Qed.
Lemma fits_foldl {A} cap (step : list Z → A → list Z) (text : A → list Z) l b t :
  (∀ b t x, x ∈ l → fits cap b t → fits cap (step b x) (t ++ text x)) →
  fits cap b t → fits cap (foldl step b l) (t ++ concat (text <$> l)).
Proof.
  revert b t. induction l as [|x l IH]; intros b t Hs Hb; [by rewrite app_nil_r|].
  cbn [foldl]. rewrite fmap_cons. cbn [concat]. rewrite (assoc_L (++)). apply IH.
  - intros b' t' y Hy. apply Hs. by right.
  - apply Hs; [by left|done].
Qed.

(** ** Values of the C types *)
Definition is_i64 (x : Z) : Prop := - 2 ^ 63 <= x < 2 ^ 63.
Record rec_typed (r : at_val_rec) : Prop := {
  ty_reg : is_u32 (reg r); ty_base : is_u32 (base r); ty_index : is_u32 (index r); ty_scale : is_i64 (scale r);
  ty_disp : is_i64 (disp r); ty_addr : is_u64 (addr r); ty_size : 0 <= size r < 2 ^ 16; ty_woff : is_u32 (wide_off r);
  ty_value : is_u64 (value r);
}.

Lemma show_num n : 0 <= n → show (JNum n) = u n.
Proof. apply fmt_d_nonneg. Qed.
Lemma show_bool b : show (JBool b) = boolean b.
Proof. done. Qed.
Lemma show_int n : show (JNum n) = d n.
Proof. done. Qed.

Lemma esc_hex s : Forall is_byte s → esc (hex_text s) = hex_text s.
Proof.
  unfold hex_text. induction 1 as [|c s Hc _ IH]; [done|]. rewrite fmap_cons. cbn [concat]. rewrite esc_app, IH.
  f_equal. unfold is_byte in Hc. unfold hex02. assert (0 <= c / 16 < 16 ∧ 0 <= c mod 16 < 16) as [H1 H2] by dlia.
  assert (∀ x, 0 <= x < 16 → esc1 (hex_digit x) = [hex_digit x]) as He.
  { intros x Hx. unfold hex_digit, esc1. destruct (Z.ltb_spec x 10);
      rewrite (proj2 (Z.eqb_neq _ 34)), (proj2 (Z.eqb_neq _ 92)), (proj2 (Z.ltb_ge _ 32)) by lia; done. }
  unfold esc. cbn [fmap list_fmap concat]. by rewrite !He.
Qed.

Ltac range := unfold is_u32, is_u64 in *; lia.
Ltac text_leaves :=
  repeat match goal with
  | |- context [u ?x] => generalize (u x); intro
  | |- context [d ?x] => generalize (d x); intro
  | |- context [boolean ?x] => generalize (boolean x); intro
  | |- context [hex_text ?x] => generalize (hex_text x); intro
  | |- context [esc ?x] => generalize (esc x); intro
  end.
Ltac numbers :=
  repeat match goal with
  | |- context [show (JNum ?n)] =>
      match goal with
      | |- context [u n] => rewrite (show_num n) by range
      | _ => rewrite (show_int n)
      end
  end.
(** A text written piece by piece is the text of fields. *)
Ltac piece :=
  unfold more_text, field_text; cbn [fmap list_fmap concat fst snd f]; numbers;
  rewrite ?show_bool, ?app_nil_r; repeat progress (rewrite <-?(assoc_L (++)); cbn [app]); text_leaves;
  vm_compute; reflexivity.

Lemma fits_fields cap b x fs fs' s :
  fits cap b (x ++ more_text fs) → s = more_text fs' → fits cap (bp cap b s) (x ++ more_text (fs ++ fs')).
Proof. intros Hb ->. rewrite more_app, (assoc_L (++)). by apply fits_bp. Qed.

Lemma seq_slice (w : list Z) off n :
  (off + n <= length w)%nat → (λ k, w !!! (off + k)%nat) <$> seq 0 n = take n (drop off w).
Proof.
  intros H. apply list_eq_same_length with n; rewrite ?length_fmap, ?length_seq, ?length_take, ?length_drop; [lia..|].
  intros i x y Hi Hx Hy. rewrite list_lookup_fmap, lookup_seq_lt in Hx by done. simpl in Hx.
  rewrite lookup_take_lt, lookup_drop in Hy by done. simplify_eq. by apply list_lookup_total_correct.
Qed.

Lemma value_part_fits cap b x fs r w :
  rec_typed r → from_option (Forall is_byte) True w → fits cap b (x ++ more_text fs) →
  fits cap (value_part cap b r w) (x ++ more_text (fs ++ value_fields r w)).
Proof.
  intros [] Hw Hb. unfold value_part, value_fields. destruct (wide r).
  - assert (fits cap (bp cap b (js ",'wide':true")) (x ++ more_text (fs ++ [f "wide" (JBool true)]))) as H1
      by (apply fits_fields; [done|vm_compute; reflexivity]).
    destruct w as [w|]; [|done]. destruct (_ && _ && _) eqn:Eb; [|done].
    apply andb_prop in Eb as [[_ ?%Z.ltb_lt]%andb_prop ?%Z.leb_le].
    eapply fits_eq.
    + apply fits_bp, (fits_foldl _ _ (λ k, hex02 (w !!! (Z.to_nat (wide_off r) + k)%nat))); [|by apply fits_bp].
      intros. by apply fits_bp.
    + change (f "wide" (JBool true) :: [f "bytes" (JStr (hex_text (wide_bytes r w)))])
        with ([f "wide" (JBool true)] ++ [f "bytes" (JStr (hex_text (wide_bytes r w)))]).
      rewrite (assoc_L (++) fs), (more_app (fs ++ _)), <-!(assoc_L (++)). do 2 f_equal.
      assert (concat ((λ k, hex02 (w !!! (Z.to_nat (wide_off r) + k)%nat)) <$> seq 0 (Z.to_nat (size r))) =
        hex_text (wide_bytes r w)) as ->.
      { unfold hex_text, wide_bytes. rewrite <-seq_slice by range. by rewrite <-list_fmap_compose. }
      unfold more_text, field_text. cbn [fmap list_fmap concat fst snd f show]. unfold quoted.
      rewrite esc_hex by (by apply Forall_take, Forall_drop). rewrite ?app_nil_r, <-?(assoc_L (++)).
      generalize (hex_text (wide_bytes r w)). intros l. vm_compute. reflexivity.
  - destruct (value_valid r); [|by rewrite app_nil_r]. apply fits_fields; [done|]. piece.
Qed.

Lemma op_body_fits cap b t r w :
  rec_typed r → from_option (Forall is_byte) True w → fits cap b t →
  fits cap (op_body cap b r w) (t ++ show (op_json r w)).
Proof.
  intros Hr Hw Hb. pose proof Hr as []. unfold op_body, op_json, op_fields.
  eapply fits_eq.
  { apply fits_bp, value_part_fits; [done..|]. apply fits_fields with (fs' :=
      [f "size" (JNum (size r)); f "write" (JBool (is_write r)); f "value_valid" (JBool (value_valid r))]); [|piece].
    apply fits_eq with (t := (t ++ 123 :: field_text (f "space" (JStr (loc_space (kind r))))) ++
      more_text (f "reg" (JNum (reg r)) :: match kind r with
        | AT_LOC_REG => []
        | _ => [f "base" (JNum (base r)); f "index" (JNum (index r)); f "scale" (JNum (scale r));
                f "disp" (JNum (disp r)); f "addr" (JNum (addr r))]
        end)); [|reflexivity].
    destruct (kind r); (eapply fits_eq; [repeat apply fits_bp; exact Hb|]); rewrite <-!(assoc_L (++)); f_equal; piece. }
  change (js "}") with [125]. cbn [app]. rewrite show_obj, <-!(assoc_L (++)). cbn [app].
  done.
Qed.

(** ** Loops *)
Lemma comma_fits {A} cap (step : list Z → A → list Z) (g : A → list Z) l b t :
  (∀ b t x, x ∈ l → fits cap b t → fits cap (step b x) (t ++ g x)) → fits cap b t →
  fits cap (foldl (λ b ix, step (comma cap b ix.1) ix.2) b (imap pair l)) (t ++ sep (g <$> l)).
Proof.
  intros Hs Hb. destruct l as [|x l]; [by rewrite app_nil_r|]. rewrite fmap_cons, sep_more. cbn [imap foldl fst snd].
  rewrite (assoc_L (++)). assert (fits cap (step (comma cap b 0) x) (t ++ g x)) as H1 by (apply Hs; [by left|done]).
  revert H1. generalize (step (comma cap b 0) x), (t ++ g x). intros b' t' H1.
  assert (∀ n b' t', fits cap b' t' →
    fits cap (foldl (λ b ix, step (comma cap b ix.1) ix.2) b' (imap (λ i, pair (S n + i)%nat) l)) (t' ++ concat ((44 ::.) <$> (g <$> l)))) as H.
  { assert (∀ b t x, x ∈ l → fits cap b t → fits cap (step b x) (t ++ g x)) as Hs' by (intros; apply Hs; [by right|done]).
    clear -Hs'. induction l as [|y l IH]; intros n b t Hb; [by rewrite app_nil_r|]. cbn [imap foldl fst snd].
    rewrite fmap_cons. cbn [fmap list_fmap concat]. cbn [app].
    replace (t ++ 44 :: g y ++ concat ((44 ::.) <$> (g <$> l))) with (((t ++ [44]) ++ g y) ++ concat ((44 ::.) <$> (g <$> l)))
      by (rewrite <-!(assoc_L (++)); done).
    rewrite (imap_ext _ (λ i, pair (S (S n) + i)%nat)) by (intros; simpl; do 2 f_equal; lia).
    apply IH; [intros; apply Hs'; [by right|done]|]. apply Hs'; [by left|].
    unfold comma. replace (S n + 0 =? 0)%nat with false by (symmetry; apply Nat.eqb_neq; lia). by apply fits_bp. }
  specialize (H O b' t' H1). 
  erewrite (imap_ext _ (λ i, pair (1 + i)%nat)) by (intros; done). exact H.
Qed.

(** The loops that put the separator before all but the first element they print. *)
Definition loop_text (first : bool) (ls : list (list Z)) : list Z :=
  if first then sep ls else concat ((44 ::.) <$> ls).
Lemma first_fits {A} cap (step : list Z * bool → A → list Z * bool) (g : A → option (list Z)) l b first t :
  (∀ b first x, step (b, first) x = match g x with
     | Some s => (bp cap b ((if first then [] else js ",") ++ s), false)
     | None => (b, first)
     end) →
  fits cap b t → fits cap (foldl step (b, first) l).1 (t ++ loop_text first (omap g l)).
Proof.
  intros Hs. revert b first t. induction l as [|x l IH]; intros b first t Hb.
  { simpl. destruct first; by rewrite app_nil_r. }
  assert (omap g (x :: l) = match g x with Some s => s :: omap g l | None => omap g l end) as -> by done.
  cbn [foldl]. rewrite Hs. destruct (g x) as [s|]; [|by apply IH].
  eapply fits_eq; [apply IH, fits_bp, Hb|]. rewrite <-!(assoc_L (++)). f_equal.
  destruct first; cbn [loop_text]; [by rewrite sep_more|done].
Qed.

(** ** Every body is the text of its fields *)
Definition regfile_typed (r : asmtest_regfile) : Prop :=
  length (gpr r) = 18%nat ∧ Forall is_u64 (gpr r) ∧ length (xmm r) = 16%nat ∧
  Forall (λ l, length l = 16%nat ∧ Forall is_byte l) (xmm r) ∧ is_u32 (mxcsr r).
Definition event_typed (ev : event) : Prop :=
  match ev with
  | EvStep step off rbase when disasm rs w =>
      is_u32 step ∧ is_u64 off ∧ is_u64 rbase ∧ is_u64 when ∧ from_option (Forall is_byte) True disasm ∧
      Forall rec_typed rs ∧ from_option (Forall is_byte) True w
  | EvInvocation pass result steps _ => is_u32 pass ∧ is_i64 result ∧ is_u64 steps
  | EvEdge e => is_u32 (DefUse.from_step e) ∧ is_u32 (DefUse.to_step e) ∧ rec_typed (DefUse.loc e)
  | EvMem step ea sz _ _ => is_u32 step ∧ is_u64 ea ∧ is_u32 sz
  | EvRegstate r => regfile_typed r
  | EvFpenv step mx => is_u32 step ∧ is_u32 mx
  | EvBlame step off loc cone _ =>
      is_u32 step ∧ is_u64 off ∧ from_option rec_typed True loc ∧ Forall (λ so, is_u32 so.1 ∧ is_u64 so.2) cone
  | EvStatediff step prev cur => is_u32 step ∧ from_option regfile_typed True prev ∧ regfile_typed cur
  end.

Definition fields_text (fs : list (list Z * json)) : list Z := sep (field_text <$> fs).
Lemma fields_text_cons kv fs : fields_text (kv :: fs) = field_text kv ++ more_text fs.
Proof. unfold fields_text, more_text. rewrite fmap_cons, sep_more. by rewrite <-list_fmap_compose. Qed.

Lemma invocation_fits cap pass result steps trunc :
  event_typed (EvInvocation pass result steps trunc) →
  fits cap (body cap (EvInvocation pass result steps trunc)) (fields_text (event_fields (EvInvocation pass result steps trunc))).
Proof.
  intros (H1 & H2 & H3). cbn [body event_fields]. unfold asmtrace_df_invocation_body.
  eapply fits_eq; [apply fits_bp, fits_nil|]. rewrite fields_text_cons. piece.
Qed.

Lemma mem_fits cap step ea sz w space :
  event_typed (EvMem step ea sz w space) →
  fits cap (body cap (EvMem step ea sz w space)) (fields_text (event_fields (EvMem step ea sz w space))).
Proof.
  intros (H1 & H2 & H3). cbn [body event_fields]. unfold asmtrace_mem_body.
  eapply fits_eq; [apply fits_bp, fits_nil|]. rewrite fields_text_cons. destruct w, space; piece.
Qed.

Lemma edge_fits cap e :
  event_typed (EvEdge e) → fits cap (body cap (EvEdge e)) (fields_text (event_fields (EvEdge e))).
Proof.
  intros (H1 & H2 & H3). cbn [body event_fields]. unfold asmtrace_df_edge_body.
  eapply fits_eq; [apply op_body_fits; [done..|]; apply fits_bp, fits_nil|]. rewrite fields_text_cons.
  unfold more_text, field_text. cbn [fmap list_fmap concat fst snd f]. generalize (show (op_json (DefUse.loc e) None)).
  intros l. piece.
Qed.

Lemma show_arr l : show (JArr l) = 91 :: sep (show <$> l) ++ [93].
Proof. done. Qed.
Lemma show_str s : show (JStr s) = 34 :: esc s ++ [34].
Proof. done. Qed.
Lemma escaped_kept cap s : Forall is_byte s → cap ≠ O → escaped cap s = esc (kept cap s).
Proof. intros Hs Hc. unfold escaped. by rewrite (proj1 (escape_kept cap s Hs Hc)). Qed.

(** One more field after others. *)
Lemma fits_field cap b x fs kv s :
  fits cap b (x ++ more_text fs) → s = more_text [kv] → fits cap (bp cap b s) (x ++ more_text (fs ++ [kv])).
Proof. apply fits_fields. Qed.

(** The fields of a step that are left out when they are zero or absent. *)
Lemma opt_num_fits cap b x fs k v key :
  is_u64 v → key = 44 :: quoted (codes k) ++ [58] → fits cap b (x ++ more_text fs) →
  fits cap (if v =? 0 then b else bp cap b (key ++ u v)) (x ++ more_text (fs ++ if v =? 0 then [] else [f k (JNum v)])).
Proof.
  intros Hv -> Hb. destruct (v =? 0); [by rewrite app_nil_r|]. apply fits_field; [done|].
  unfold more_text, field_text. cbn [fmap list_fmap concat fst snd f]. rewrite show_num, app_nil_r by range.
  cbn [app]. by rewrite <-(assoc_L (++)).
Qed.
Lemma opt_disasm_fits cap b x fs disasm :
  from_option (Forall is_byte) True disasm → fits cap b (x ++ more_text fs) →
  fits cap (match disasm with Some (c :: s) => bp cap b (js ",'disasm':'" ++ escaped 512 (c :: s) ++ js "'") | _ => b end)
    (x ++ more_text (fs ++ match disasm with Some (c :: s) => [f "disasm" (JStr (kept 512 (c :: s)))] | _ => [] end)).
Proof.
  intros Hd Hb. destruct disasm as [[|c s]|]; [by rewrite app_nil_r| |by rewrite app_nil_r].
  apply fits_field; [done|]. rewrite escaped_kept by done. generalize (kept 512 (c :: s)). intros k.
  unfold more_text, field_text. cbn [fmap list_fmap concat fst snd f]. rewrite show_str. piece.
Qed.

Lemma step_fits cap step off rbase when disasm rs w :
  event_typed (EvStep step off rbase when disasm rs w) →
  fits cap (body cap (EvStep step off rbase when disasm rs w))
    (fields_text (event_fields (EvStep step off rbase when disasm rs w))).
Proof.
  intros (H1 & H2 & H3 & H4 & H5 & H6 & H7). cbn [body event_fields]. unfold asmtrace_df_step_body.
  cbn [app]. rewrite fields_text_cons. change (f "off" (JNum off) :: ?l) with ([f "off" (JNum off)] ++ l).
  rewrite !(assoc_L (++)). eapply fits_eq.
  { apply fits_bp, (comma_fits _ (λ b r, op_body cap b r w) (λ r, show (op_json r w))).
    { intros b t r Hr Hb. apply op_body_fits; [|done..]. by eapply Forall_forall. }
    apply fits_bp, opt_disasm_fits; [done|].
    eapply (opt_num_fits cap _ _ _ "when"); [done..|]. eapply (opt_num_fits cap _ _ _ "rbase"); [done..|].
    apply (fits_eq _ _ (field_text (f "step" (JNum step)) ++ more_text [f "off" (JNum off)])); [|done].
    eapply fits_eq; [apply fits_bp, fits_nil|]. piece. }
  rewrite (more_app _ [f "ops" _]), <-!(assoc_L (++) (field_text _)), <-!(assoc_L (++) (more_text _)). do 2 f_equal.
  unfold more_text, field_text. cbn [fmap list_fmap concat fst snd f]. rewrite show_arr, <-list_fmap_compose.
  change (show ∘ (λ r, op_json r w)) with (λ r, show (op_json r w)).
  generalize (sep ((λ r, show (op_json r w)) <$> rs)). intros l. piece.
Qed.

Lemma blame_fits cap step off loc cone born :
  event_typed (EvBlame step off loc cone born) →
  fits cap (body cap (EvBlame step off loc cone born)) (fields_text (event_fields (EvBlame step off loc cone born))).
Proof.
  intros (H1 & H2 & H3 & H4). cbn [body event_fields]. unfold asmtrace_blame_body.
  set (entry := λ so : Z * Z, JObj [f "step" (JNum so.1); f "off" (JNum so.2); f "kind" (str "insn")]).
  cbn [app]. rewrite fields_text_cons. change (f "off" (JNum off) :: ?l) with ([f "off" (JNum off)] ++ l).
  eapply fits_eq.
  { apply fits_bp, fits_bp, (comma_fits _ (λ b so, bp cap b (js "{'step':" ++ u so.1 ++ js ",'off':" ++ u so.2 ++
      js ",'kind':'insn'}")) (λ so, show (entry so))).
    { intros b t so Hso Hb. rewrite Forall_forall in H4. destruct (H4 so Hso) as [Ha Hc].
      eapply fits_eq; [by apply fits_bp|]. f_equal. unfold entry. rewrite show_obj. piece. }
    apply fits_bp. apply (fits_eq _ _ (field_text (f "step" (JNum step)) ++ more_text ([f "off" (JNum off)] ++
      match loc with Some r => [f "loc" (op_json r None)] | None => [] end))); [|done].
    destruct loc as [r|].
    - eapply fits_eq; [apply op_body_fits; [done..|]; apply fits_bp, fits_bp, fits_nil|].
      unfold more_text, field_text. cbn [app fmap list_fmap concat fst snd f]. generalize (show (op_json r None)).
      intros l. piece.
    - eapply fits_eq; [apply fits_bp, fits_nil|]. rewrite app_nil_r. piece. }
  rewrite (assoc_L (++) [f "off" _]), (more_app _ [f "cone" _; _]), <-!(assoc_L (++) (field_text _)), <-!(assoc_L (++) (more_text _)). do 2 f_equal.
  unfold more_text, field_text. cbn [fmap list_fmap concat fst snd f]. rewrite show_arr, <-list_fmap_compose.
  change (show ∘ entry) with (λ so, show (entry so)).
  generalize (sep ((λ so, show (entry so)) <$> cone)). intros l. piece.
Qed.

Lemma fpenv_fits cap step mx :
  event_typed (EvFpenv step mx) → fits cap (body cap (EvFpenv step mx)) (fields_text (event_fields (EvFpenv step mx))).
Proof.
  intros (H1 & H2). cbn [body event_fields]. unfold asmtrace_fpenv_body. rewrite fields_text_cons.
  set (text := λ i, if Z.testbit mx (Z.of_nat i) then Some (js "'" ++ codes (EX !!! i) ++ js "'") else None).
  assert (show <$> sticky mx = omap text (seq 0 6)) as Es.
  { unfold sticky, text. cbn [seq]. cbn [omap list_omap]. repeat destruct (Z.testbit mx _); reflexivity. }
  eapply fits_eq.
  { apply fits_bp, (first_fits _ _ text); [|apply fits_bp, fits_nil].
    intros b first i. unfold sticky_step, text. by destruct (Z.testbit mx _). }
  cbn [loop_text]. rewrite <-Es. unfold more_text, field_text. cbn [fmap list_fmap concat fst snd f].
  rewrite show_arr. generalize (sep (show <$> sticky mx)). intros l.
  assert (Z.to_nat (Z.land (Z.shiftr mx 13) 3) < 4)%nat as Hr.
  { assert (0 <= Z.land (Z.shiftr mx 13) (Z.ones 2) < 2 ^ 2) as Hl; [|change (Z.ones 2) with 3 in Hl; lia].
    rewrite Z.land_ones by lia. by apply Z.mod_pos_bound. }
  generalize (Z.testbit mx 15), (Z.testbit mx 6). intros b1 b2. revert Hr.
  generalize (Z.to_nat (Z.land (Z.shiftr mx 13) 3)). intros n Hn.
  do 4 (destruct n as [|n]; [piece|]). lia.
Qed.

Lemma show_fields fs : show (JObj fs) = 123 :: fields_text fs ++ [125].
Proof. done. Qed.

Lemma reg_value (l : list Z) i : Forall is_u64 l → is_u64 (l !!! i).
Proof.
  intros Hl. destruct (l !! i) as [x|] eqn:E.
  - rewrite (list_lookup_total_correct _ _ _ E). by eapply Forall_lookup_1 in Hl.
  - rewrite list_lookup_total_alt, E. unfold is_u64. simpl. lia.
Qed.
Lemma reg_names_plain : Forall (λ n, esc (codes n) = codes n) reg_names.
Proof. repeat constructor. Qed.
Lemma named_field name n : esc (codes name) = codes name → 0 <= n →
  field_text (f name (JNum n)) = js "'" ++ codes name ++ js "':" ++ u n.
Proof.
  intros He Hn. unfold field_text. cbn [fst snd f]. rewrite show_num by done. unfold quoted. rewrite He.
  change (js "'") with [34]. change (js "':") with [34; 58]. cbn [app]. by rewrite <-(assoc_L (++)).
Qed.
Lemma computed_field name b : esc (codes name) = codes name →
  field_text (f name (JBool b)) = js "'" ++ codes name ++ js "':" ++ boolean b.
Proof.
  intros He. unfold field_text. cbn [fst snd f]. rewrite show_bool. unfold quoted. rewrite He.
  change (js "'") with [34]. change (js "':") with [34; 58]. cbn [app]. by rewrite <-(assoc_L (++)).
Qed.
Lemma fmap_omap_ext {A B C} (h : B → C) (g : A → option B) (t : A → option C) (l : list A) :
  (∀ x, x ∈ l → t x = h <$> g x) → h <$> omap g l = omap t l.
Proof.
  induction l as [|x l IH]; intros Hx; [done|].
  change (h <$> (match g x with Some y => y :: omap g l | None => omap g l end) =
    match t x with Some y => y :: omap t l | None => omap t l end).
  rewrite (Hx x) by (by left). assert (h <$> omap g l = omap t l) as <- by (apply IH; intros; apply Hx; by right).
  by destruct (g x).
Qed.

Lemma statediff_fits cap step prev cur :
  event_typed (EvStatediff step prev cur) →
  fits cap (body cap (EvStatediff step prev cur)) (fields_text (event_fields (EvStatediff step prev cur))).
Proof.
  intros (H1 & H2 & H3). cbn [body event_fields]. unfold asmtrace_statediff_body. rewrite fields_text_cons.
  destruct prev as [prev|].
  2: { eapply fits_eq; [apply fits_bp, fits_bp, fits_nil|]. piece. }
  set (text := λ iname : nat * string, if gpr prev !!! iname.1 =? gpr cur !!! iname.1 then None
    else Some (js "'" ++ codes iname.2 ++ js "':" ++ u (gpr cur !!! iname.1))).
  assert (field_text <$> changed_fields prev cur = omap text (imap pair reg_names)) as Es.
  { destruct H3 as (_ & Hu & _). apply fmap_omap_ext. intros [i name] Hin. unfold text. cbn [fst snd].
    destruct (_ =? _); [done|]. simpl. f_equal. symmetry. apply named_field; [|by apply reg_value].
    apply list_elem_of_lookup in Hin as [k Hk]. rewrite list_lookup_imap in Hk.
    destruct (reg_names !! k) as [nm|] eqn:En; simplify_eq/=. by eapply Forall_lookup_1 in En; [|apply reg_names_plain]. }
  eapply fits_eq.
  { apply fits_bp, (first_fits _ _ text); [|apply fits_bp, fits_nil].
    intros b first [i name]. unfold diff_step, text. cbn [fst snd]. by destruct (_ =? _). }
  cbn [loop_text]. rewrite <-Es. revert Es. generalize (changed_fields prev cur). intros fs _.
  unfold more_text. cbn [fmap list_fmap concat]. rewrite (named_field "step"), (computed_field "computed") by (done || range).
  unfold field_text at 2. cbn [fst snd f]. rewrite show_fields. unfold fields_text.
  generalize (sep (field_text <$> fs)). intros l. piece.
Qed.

Definition lane_field (r : asmtest_regfile) (i : nat) : list Z * json :=
  (codes "xmm" ++ d (Z.of_nat i), JStr (hex_text (take 16 (xmm r !!! i)))).

Lemma lane_name i : (i < 16)%nat → esc (codes "xmm" ++ d (Z.of_nat i)) = codes "xmm" ++ d (Z.of_nat i).
Proof. intros Hi. do 16 (destruct i as [|i]; [vm_compute; reflexivity|]). lia. Qed.

Lemma lane_fits cap r b t i :
  regfile_typed r → (i < 16)%nat → fits cap b t →
  fits cap (bp cap (foldl (λ b k, bp cap b (hex02 ((xmm r !!! i) !!! k))) (bp cap b (js ",'xmm" ++ d (Z.of_nat i) ++ js "':'"))
    (seq 0 16)) (js "'")) (t ++ more_text [lane_field r i]).
Proof.
  intros (_ & _ & Hl & Hx & _) Hi Hb. destruct (lookup_lt_is_Some_2 (xmm r) i) as [l El]; [lia|].
  rewrite (list_lookup_total_correct _ _ _ El). destruct (Forall_lookup_1 _ _ _ _ Hx El) as [Hl16 Hbytes].
  eapply fits_eq.
  { apply fits_bp, (fits_foldl _ _ (λ k, hex02 (l !!! k))); [intros; by apply fits_bp|by apply fits_bp]. }
  rewrite <-!(assoc_L (++)). f_equal.
  assert (concat ((λ k, hex02 (l !!! k)) <$> seq 0 16) = hex_text (take 16 l)) as ->.
  { unfold hex_text. replace (take 16 l) with (take 16 (drop 0 l)) by (by rewrite drop_0).
    rewrite <-(seq_slice l 0 16) by lia. by rewrite <-list_fmap_compose. }
  unfold more_text, field_text, lane_field. rewrite (list_lookup_total_correct _ _ _ El).
  cbn [fmap list_fmap concat fst snd]. rewrite show_str, esc_hex by (by apply Forall_take). unfold quoted.
  rewrite lane_name by done. generalize (d (Z.of_nat i)), (hex_text (take 16 l)). intros a c.
  rewrite app_nil_r. do 3 (rewrite <-?(assoc_L (++)); cbn [app]). vm_compute. reflexivity.
Qed.

Lemma lanes_fits cap r b x fs :
  regfile_typed r → fits cap b (x ++ more_text fs) →
  fits cap (if has_vec r then asmtrace_regstate_vec_append cap b (xmm r) (mxcsr r) else b) (x ++ more_text (fs ++ lane_fields r)).
Proof.
  intros Hr Hb. unfold lane_fields. destruct (has_vec r); [|by rewrite app_nil_r]. unfold asmtrace_regstate_vec_append.
  rewrite (assoc_L (++)). apply fits_field.
  2: { destruct Hr as (_ & _ & _ & _ & Hm). piece. }
  eapply fits_eq.
  - apply (fits_foldl _ _ (λ i, more_text [lane_field r i])); [|exact Hb].
    intros b' t' i Hi Hb'. apply lane_fits; [done| |done]. apply list_elem_of_In, in_seq in Hi. lia.
  - rewrite more_app, (assoc_L (++)). f_equal. unfold more_text at 2. rewrite <-list_fmap_compose.
    f_equal. apply list_fmap_ext. intros _ i _. unfold more_text. cbn [fmap list_fmap concat]. by rewrite app_nil_r.
Qed.

Lemma regstate_fits cap r :
  event_typed (EvRegstate r) → fits cap (body cap (EvRegstate r)) (fields_text (event_fields (EvRegstate r))).
Proof.
  intros Hr. cbn [body event_fields]. unfold asmtrace_regstate_body. rewrite fields_text_cons.
  assert (∀ i, is_u64 (gpr r !!! i)) as Hu by (intros; apply reg_value, Hr).
  assert (reg_fields r = f "rax" (JNum (gpr r !!! 0%nat)) :: tail (reg_fields r)) as Er by done.
  eapply fits_eq.
  { apply fits_bp, lanes_fits with (fs := tail (reg_fields r)) (x := js "'desc':'user_regs@x86_64/sysv','values':{" ++
      field_text (f "rax" (JNum (gpr r !!! 0%nat)))); [exact Hr|].
    eapply fits_eq; [apply fits_bp, fits_nil|]. unfold reg_fields. cbn [imap reg_names tail]. unfold compose.
    pose proof (Hu 0%nat); pose proof (Hu 1%nat); pose proof (Hu 2%nat); pose proof (Hu 3%nat); pose proof (Hu 4%nat);
    pose proof (Hu 5%nat); pose proof (Hu 6%nat); pose proof (Hu 7%nat); pose proof (Hu 8%nat); pose proof (Hu 9%nat);
    pose proof (Hu 10%nat); pose proof (Hu 11%nat); pose proof (Hu 12%nat); pose proof (Hu 13%nat); pose proof (Hu 14%nat);
    pose proof (Hu 15%nat); pose proof (Hu 16%nat); pose proof (Hu 17%nat).
    piece. }
  unfold more_text at 2. cbn [fmap list_fmap concat]. unfold field_text at 3. cbn [fst snd f]. rewrite show_fields.
  rewrite Er at 2. cbn [app]. rewrite fields_text_cons. generalize (more_text (tail (reg_fields r) ++ lane_fields r)).
  generalize (field_text (f "rax" (JNum (gpr r !!! 0%nat)))). intros l m.
  rewrite app_nil_r. do 3 (rewrite <-?(assoc_L (++)); cbn [app]). vm_compute. reflexivity.
Qed.

Lemma body_fits cap ev : event_typed ev → fits cap (body cap ev) (fields_text (event_fields ev)).
Proof.
  destruct ev; [apply step_fits|apply invocation_fits|apply edge_fits|apply mem_fits|apply regstate_fits|apply fpenv_fits|
    apply blame_fits|apply statediff_fits].
Qed.

(** ** Every line can be read *)
Lemma utf8_lit s : forallb (λ c, c <? 128) (codes s) = true → utf8 (codes s).
Proof.
  intros H. apply utf8_ascii, Forall_forall. intros c Hc. rewrite forallb_forall in H.
  specialize (H c ltac:(by apply list_elem_of_In)). apply Z.ltb_lt in H. unfold ascii_code. split; [|done].
  unfold codes in Hc. apply list_elem_of_fmap in Hc as (a & -> & _). lia.
Qed.
Lemma utf8_hex bs : Forall is_byte bs → utf8 (hex_text bs).
Proof.
  intros H. apply utf8_ascii. unfold hex_text. induction H as [|b bs Hb _ IH]; [constructor|]. rewrite fmap_cons.
  cbn [concat]. apply Forall_app. split; [|done]. unfold is_byte in Hb. unfold hex02, hex_digit, ascii_code.
  repeat constructor; case_match; dlia.
Qed.
Lemma sound_num k n : forallb (λ c, c <? 128) (codes k) = true → - 2 ^ 64 < n < 2 ^ 64 → utf8 (f k (JNum n)).1 ∧ sound (f k (JNum n)).2.
Proof. intros Hk Hn. split; [by apply utf8_lit|done]. Qed.
Ltac key := apply utf8_lit; vm_compute; reflexivity.
Ltac wide_range := unfold is_u32, is_u64, is_i64 in *; lia.
(** Fields with literal names and numbers, booleans or literal strings. *)
Ltac plain_value :=
  cbn [snd f];
  lazymatch goal with
  | |- sound (JNum _) => cbn [sound]; wide_range
  | |- sound (JBool _) => exact I
  | |- sound (JStr _) => cbn [sound]; try done
  | |- sound (str _) => try key
  | _ => idtac
  end.
Ltac plain_fields := repeat (apply Forall_cons; split; [split; [key|plain_value]|]); try apply Forall_nil_2.

Lemma loc_space_utf8 k : utf8 (loc_space k).
Proof. destruct k; key. Qed.
#[local] Hint Resolve loc_space_utf8 utf8_hex : core.

Lemma op_sound r w : rec_typed r → from_option (Forall is_byte) True w → sound (op_json r w).
Proof.
  intros [] Hw. apply sound_obj. unfold op_fields, value_fields. repeat (apply Forall_app; split).
  - plain_fields.
  - destruct (kind r); plain_fields.
  - plain_fields.
  - destruct (wide r); [|destruct (value_valid r); plain_fields].
    destruct w as [w|]; [|plain_fields]. destruct (_ && _ && _); plain_fields.
    apply utf8_hex. by apply Forall_take, Forall_drop.
Qed.

Lemma lane_utf8 i : (i < 16)%nat → utf8 (codes "xmm" ++ d (Z.of_nat i)).
Proof. intros. apply utf8_app; [key|]. apply utf8_ascii, fmt_d_ascii. Qed.

Lemma regfile_sound r : regfile_typed r → sound (JObj (reg_fields r ++ lane_fields r)).
Proof.
  intros Hr. pose proof Hr as (Hl & Hu & Hx & Hb & Hm). apply sound_obj, Forall_app. split.
  - assert (∀ i, is_u64 (gpr r !!! i)) as Hg by (intros; by apply reg_value).
    unfold reg_fields. cbn [imap reg_names]. unfold compose.
    repeat (apply Forall_cons; split; [apply sound_num; [vm_compute; reflexivity|specialize (Hg 0%nat) || idtac;
      match goal with |- _ < gpr r !!! ?i < _ => pose proof (reg_value _ i Hu) end; wide_range]|]).
    apply Forall_nil_2.
  - unfold lane_fields. destruct (has_vec r); [|apply Forall_nil_2]. apply Forall_app. split; [|plain_fields].
    apply Forall_fmap, Forall_seq. intros i Hi. cbn [fst snd]. split; [apply lane_utf8; lia|]. cbn [sound].
    apply utf8_hex, Forall_take. destruct (lookup_lt_is_Some_2 (xmm r) i) as [l El]; [lia|].
    rewrite (list_lookup_total_correct _ _ _ El). by apply (Forall_lookup_1 _ _ _ _ Hb El).
Qed.

Lemma reg_names_utf8 : Forall (λ n, utf8 (codes n)) reg_names.
Proof. repeat (apply Forall_cons; split; [key|]). apply Forall_nil_2. Qed.
Lemma changed_sound prev cur : Forall is_u64 (gpr cur) → sound (JObj (changed_fields prev cur)).
Proof.
  intros Hu. apply sound_obj, Forall_forall. unfold changed_fields. generalize reg_names_utf8.
  generalize reg_names. intros names Hn kv ([i name] & Hi & Hv)%list_elem_of_omap. cbn [fst snd] in Hv.
  destruct (_ =? _); simplify_eq. pose proof (reg_value _ i Hu) as Hg. cbn [fst snd f].
  split; [|cbn [sound]; wide_range]. apply list_elem_of_lookup in Hi as [k Hk]. rewrite list_lookup_imap in Hk.
  destruct (names !! k) as [nm|] eqn:En; simplify_eq/=. exact (Forall_lookup_1 _ _ _ _ Hn En).
Qed.
Lemma RC_utf8 i : sound (str (RC !!! i)).
Proof. do 4 (destruct i as [|i]; [key|]). key. Qed.
Lemma sticky_sound mx : sound (JArr (sticky mx)).
Proof.
  apply sound_arr. unfold sticky. apply Forall_forall. intros v (i & Hi & Hv)%list_elem_of_omap.
  destruct (Z.testbit mx _); simplify_eq. apply list_elem_of_In, in_seq in Hi.
  do 6 (destruct i as [|i]; [key|]). lia.
Qed.

(** The fields of an event. *)
Definition fields_sound (fs : list (list Z * json)) : Prop := Forall (λ kv, utf8 kv.1 ∧ sound kv.2) fs.

Lemma step_sound step off rbase when disasm rs w :
  event_typed (EvStep step off rbase when disasm rs w) → fields_sound (event_fields (EvStep step off rbase when disasm rs w)).
Proof.
  intros (H1 & H2 & H3 & H4 & H5 & H6 & H7). repeat (apply Forall_app; split).
  - plain_fields.
  - destruct (_ =? _); plain_fields.
  - destruct (_ =? _); plain_fields.
  - destruct disasm as [[|c s]|]; plain_fields. by apply escape_kept.
  - apply Forall_singleton. split; [key|]. apply sound_arr, Forall_fmap. eapply Forall_impl; [exact H6|].
    intros r Hr. by apply op_sound.
Qed.
Lemma blame_sound step off loc cone born :
  event_typed (EvBlame step off loc cone born) → fields_sound (event_fields (EvBlame step off loc cone born)).
Proof.
  intros (H1 & H2 & H3 & H4). repeat (apply Forall_app; split).
  - plain_fields.
  - destruct loc; plain_fields. by apply op_sound.
  - plain_fields. apply sound_arr, Forall_fmap. eapply Forall_impl; [exact H4|]. intros [a b] [Ha Hb]. cbn [fst snd] in *.
    apply sound_obj. cbn [fst snd]. plain_fields.
Qed.

Lemma event_sound ev : event_typed ev → sound (event_json ev).
Proof.
  intros Ht. apply sound_obj. apply Forall_cons. split; [split; [key|destruct ev; key]|].
  destruct ev; [by apply step_sound|..|by apply blame_sound|]; cbn [event_fields event_typed] in *.
  - destruct Ht as (H1 & H2 & H3). plain_fields.
  - destruct Ht as (H1 & H2 & H3). plain_fields. by apply op_sound.
  - destruct Ht as (H1 & H2 & H3). plain_fields. destruct w; key.
  - plain_fields. by apply regfile_sound.
  - destruct Ht as (H1 & H2). plain_fields; [apply RC_utf8|apply sticky_sound].
  - destruct Ht as (H1 & H2 & H3). plain_fields. destruct prev as [prev|]; [|done].
    destruct H3 as (_ & Hu & _). by apply changed_sound.
Qed.

(** ** The whole file *)
Definition skip_json (code : Z) (reason : option (list Z)) : json :=
  JObj [f "code" (JNum code); f "reason" (JStr (kept 512 (default [] reason)))].
Definition prov_json (p : prov) : json :=
  JObj ([f "backend" (JStr (kept 512 (default (codes "unknown") (backend p)))); f "exact" (JBool (exact_ p));
         f "trust" (JStr (kept 512 (default (codes "exact") (trust p))))] ++
        (if skip_code p =? 0 then [] else [f "skip" (skip_json (skip_code p) (skip_reason p))]) ++
        (if redacted p then [f "redacted" (JBool true)] else [])).
Definition header_json (w : writer) producer p pid cmd now : json :=
  JObj ([f "asmtrace" (JNum 1); f "container" (str "ndjson");
         f "producer" (JObj [f "name" (JStr (kept 1024 (default (codes "asmspy") producer))); f "version" (str "1.1.0")]);
         f "provenance" (prov_json (default unknown p));
         f "arch" (match warch w with Some a => JStr (kept 1024 a) | None => str "x86_64" end)] ++
        (match wcode w with
         | Some (name, sha, len) =>
             [f "code" (JObj [f "name" (JStr (kept 1024 name)); f "sha256" (JStr sha); f "len" (JNum len)])]
         | None => []
         end) ++
        (if deterministic w then []
         else (if 0 <? pid then [f "pid" (JNum pid)] else []) ++
              (match cmd with Some c => [f "cmd" (JStr (kept 1024 c))] | None => [] end) ++ [f "ts" (JNum now)])).
Definition footer_json (w : writer) (lost : Z) (throttled : bool) (skip : option prov) : json :=
  JObj ([f "k" (str "end"); f "events" (JNum (events w)); f "truncated" (JBool (wtruncated w));
         f "drops" (JObj [f "lost" (JNum lost); f "throttled" (JBool throttled)])] ++
        (match wsteps_total w with Some n => [f "steps_total" (JNum n)] | None => [] end) ++
        (match skip with
         | Some p => if skip_code p =? 0 then [] else [f "skip" (skip_json (skip_code p) (skip_reason p))]
         | None => []
         end)).

Definition prov_typed (p : prov) : Prop :=
  from_option (Forall is_byte) True (backend p) ∧ from_option (Forall is_byte) True (trust p) ∧
  from_option (Forall is_byte) True (skip_reason p) ∧ is_i64 (skip_code p).
(** A digest is hexadecimal text. *)
Definition writer_typed (w : writer) : Prop :=
  is_u64 (events w) ∧ from_option is_u64 True (wsteps_total w) ∧ from_option (Forall is_byte) True (warch w) ∧
  match wcode w with
  | Some (name, sha, len) => Forall is_byte name ∧ (∃ bs, Forall is_byte bs ∧ sha = hex_text bs) ∧ is_u64 len
  | None => True
  end.

Lemma default_bytes (o : option (list Z)) s :
  from_option (Forall is_byte) True o → utf8 (codes s) → Forall is_byte (default (codes s) o).
Proof. destruct o; [done|]. intros _ H. by apply utf8_bytes. Qed.

(** A string field written with its quotes. *)
Lemma skip_text_spec code reason :
  is_i64 code → from_option (Forall is_byte) True reason →
  skip_text code reason = more_text [f "skip" (skip_json code reason)].
Proof.
  intros Hc Hr. unfold skip_text. rewrite escaped_kept by (done || by destruct reason).
  unfold skip_json, more_text, field_text. cbn [fmap list_fmap concat fst snd f]. rewrite show_obj.
  unfold more_text, field_text. cbn [fmap list_fmap concat fst snd f]. rewrite show_str.
  generalize (kept 512 (default [] reason)). intros k. piece.
Qed.

Lemma prov_line_spec p : prov_typed p → prov_line p = show (prov_json p).
Proof.
  intros (H1 & H2 & H3 & H4). unfold prov_line, prov_json. cbn [app]. rewrite show_obj.
  rewrite !escaped_kept by (done || by apply default_bytes; [|key]).
  change (f "exact" (JBool (exact_ p)) :: ?x :: ?l) with ([f "exact" (JBool (exact_ p)); x] ++ l). rewrite !more_app.
  assert ((if skip_code p =? 0 then [] else skip_text (skip_code p) (skip_reason p)) =
    more_text (if skip_code p =? 0 then [] else [f "skip" (skip_json (skip_code p) (skip_reason p))])) as ->.
  { destruct (_ =? _); [done|]. by apply skip_text_spec. }
  assert ((if redacted p then js ",'redacted':true" else []) = more_text (if redacted p then [f "redacted" (JBool true)] else [])) as ->
    by (by destruct (redacted p)).
  generalize (more_text (if skip_code p =? 0 then [] else [f "skip" (skip_json (skip_code p) (skip_reason p))])).
  generalize (more_text (if redacted p then [f "redacted" (JBool true)] else [])). intros l1 l2.
  unfold more_text, field_text. cbn [fmap list_fmap concat fst snd f]. rewrite !show_str.
  generalize (kept 512 (default (codes "unknown") (backend p))) (kept 512 (default (codes "exact") (trust p))). intros k1 k2.
  piece.
Qed.

Lemma footer_text_spec w lost throttled skip :
  writer_typed w → is_u64 lost → from_option prov_typed True skip →
  footer_text w lost throttled skip = show (footer_json w lost throttled skip) ++ [10].
Proof.
  intros (H1 & H2 & _) Hl Hs. unfold footer_text, footer_json. cbn [app]. rewrite show_obj.
  change (f "events" (JNum (events w)) :: ?x :: ?y :: ?l) with ([f "events" (JNum (events w)); x; y] ++ l). rewrite !more_app.
  assert ((match wsteps_total w with Some n => js ",'steps_total':" ++ u n | None => [] end) =
    more_text (match wsteps_total w with Some n => [f "steps_total" (JNum n)] | None => [] end)) as ->.
  { destruct (wsteps_total w); [|done]. cbn [from_option] in H2. piece. }
  assert ((match skip with Some p => if skip_code p =? 0 then [] else skip_text (skip_code p) (skip_reason p) | None => [] end) =
    more_text (match skip with
      | Some p => if skip_code p =? 0 then [] else [f "skip" (skip_json (skip_code p) (skip_reason p))] | None => [] end)) as ->.
  { destruct skip as [p|]; [|done]. destruct (_ =? _); [done|]. destruct Hs as (_ & _ & Hr & Hc). by apply skip_text_spec. }
  generalize (more_text (match wsteps_total w with Some n => [f "steps_total" (JNum n)] | None => [] end)). intros l1.
  generalize (more_text (match skip with
      | Some p => if skip_code p =? 0 then [] else [f "skip" (skip_json (skip_code p) (skip_reason p))] | None => [] end)). intros l2.
  unfold more_text, field_text. cbn [fmap list_fmap concat fst snd f]. rewrite show_obj.
  unfold more_text, field_text. cbn [fmap list_fmap concat fst snd f]. piece.
Qed.

Definition header_typed (w : writer) (producer : option (list Z)) (p : option prov) (pid : Z) (cmd : option (list Z)) (now : Z) : Prop :=
  writer_typed w ∧ from_option (Forall is_byte) True producer ∧ from_option prov_typed True p ∧ is_i64 pid ∧
  from_option (Forall is_byte) True cmd ∧ is_i64 now.

Lemma unknown_typed : prov_typed unknown.
Proof. split_and!; [apply utf8_bytes; key..|done|unfold is_i64; simpl; lia]. Qed.

(** The optional parts of the header. *)
Lemma code_text_spec w :
  writer_typed w →
  (match wcode w with
   | Some (name, sha, len) =>
       js ",'code':{'name':'" ++ escaped 1024 name ++ js "','sha256':'" ++ sha ++ js "','len':" ++ u len ++ js "}"
   | None => []
   end) = more_text (match wcode w with
   | Some (name, sha, len) =>
       [f "code" (JObj [f "name" (JStr (kept 1024 name)); f "sha256" (JStr sha); f "len" (JNum len)])]
   | None => []
   end).
Proof.
  intros (_ & _ & _ & Hc). destruct (wcode w) as [[[name sha] len]|]; [|done]. destruct Hc as (Hn & (bs & Hbs & ->) & Hl).
  rewrite escaped_kept by done. unfold more_text, field_text. cbn [fmap list_fmap concat fst snd f]. rewrite show_obj.
  unfold more_text, field_text. cbn [fmap list_fmap concat fst snd f]. rewrite !show_str, esc_hex by done.
  generalize (kept 1024 name). intros k. piece.
Qed.

Lemma volatile_text_spec det pid cmd now :
  from_option (Forall is_byte) True cmd →
  (if det : bool then []
   else (if 0 <? pid then js ",'pid':" ++ d pid else []) ++
        (match cmd with Some c => js ",'cmd':'" ++ escaped 1024 c ++ js "'" | None => [] end) ++
        js ",'ts':" ++ d now) =
  more_text (if det then []
         else (if 0 <? pid then [f "pid" (JNum pid)] else []) ++
              (match cmd with Some c => [f "cmd" (JStr (kept 1024 c))] | None => [] end) ++ [f "ts" (JNum now)]).
Proof.
  intros Hc. destruct det; [done|]. rewrite !more_app. f_equal; [destruct (0 <? pid); [piece|done]|]. f_equal; [|piece].
  destruct cmd as [c|]; [|done]. rewrite escaped_kept by done. generalize (kept 1024 c). intros k.
  unfold more_text, field_text. cbn [fmap list_fmap concat fst snd f]. rewrite show_str. piece.
Qed.

Lemma header_text_spec w producer p pid cmd now :
  header_typed w producer p pid cmd now →
  header_text w producer p pid cmd now ++ js "}" = show (header_json w producer p pid cmd now).
Proof.
  intros (Hw & Hpr & Hp & _ & Hc & _). unfold header_text, header_json. cbn [app]. rewrite show_obj.
  rewrite prov_line_spec by (destruct p; [done|apply unknown_typed]).
  rewrite code_text_spec, volatile_text_spec by done.
  rewrite escaped_kept by (done || by apply default_bytes; [|key]).
  change (f "container" ?v :: ?x :: ?y :: ?z :: ?l) with ([f "container" v; x; y; z] ++ l). rewrite !more_app.
  assert ((match warch w with Some a => js ",'arch':'" ++ escaped 1024 a ++ js "'" | None => js ",'arch':'x86_64'" end) =
    more_text [f "arch" (match warch w with Some a => JStr (kept 1024 a) | None => str "x86_64" end)]) as ->.
  { destruct Hw as (_ & _ & Ha & _). destruct (warch w) as [a|]; [|done]. rewrite escaped_kept by done.
    generalize (kept 1024 a). intros k. unfold more_text, field_text. cbn [fmap list_fmap concat fst snd f].
    rewrite show_str. piece. }
  change (more_text [f "container" ?v; ?x; ?y; ?z]) with (more_text ([f "container" v; x; y] ++ [z])).
  rewrite more_app.
  generalize (more_text (match wcode w with
   | Some (name, sha, len) =>
       [f "code" (JObj [f "name" (JStr (kept 1024 name)); f "sha256" (JStr sha); f "len" (JNum len)])]
   | None => []
   end)). intros l1.
  match goal with |- context [more_text (if deterministic w then ?a else ?b)] => generalize (more_text (if deterministic w then a else b)) end.
  intros l2.
  match goal with |- context [more_text [f "arch" ?v]] => generalize (more_text [f "arch" v]) end. intros l3.
  unfold more_text, field_text. cbn [fmap list_fmap concat fst snd f]. rewrite (show_obj (f "name" _)).
  unfold more_text, field_text. cbn [fmap list_fmap concat fst snd f]. rewrite (show_str (kept _ _)).
  generalize (show (prov_json (default unknown p))). intros l4.
  generalize (kept 1024 (default (codes "asmspy") producer)). intros k.
  assert (show (JNum 1) = js "1") as -> by reflexivity. piece.
Qed.

Lemma kept_utf8 cap s : Forall is_byte s → cap ≠ O → utf8 (kept cap s).
Proof. intros. by apply escape_kept. Qed.
Lemma kept_sound cap (o : option (list Z)) s :
  from_option (Forall is_byte) True o → utf8 (codes s) → cap ≠ O → sound (JStr (kept cap (default (codes s) o))).
Proof. intros Ho Hs Hc. apply kept_utf8; [by apply default_bytes|done]. Qed.

Lemma skip_sound code reason :
  is_i64 code → from_option (Forall is_byte) True reason → sound (skip_json code reason).
Proof.
  intros Hc Hr. apply sound_obj. plain_fields. by apply (kept_sound 512 reason ""); [|key|].
Qed.
Lemma prov_sound p : prov_typed p → sound (prov_json p).
Proof.
  intros (H1 & H2 & H3 & H4). apply sound_obj. repeat (apply Forall_app; split).
  - plain_fields; by apply kept_sound; [|key|].
  - destruct (_ =? _); plain_fields. by apply skip_sound.
  - destruct (redacted p); plain_fields.
Qed.
Lemma footer_sound w lost throttled skip :
  writer_typed w → is_u64 lost → from_option prov_typed True skip → sound (footer_json w lost throttled skip).
Proof.
  intros (H1 & H2 & _) Hl Hs. apply sound_obj. repeat (apply Forall_app; split).
  - plain_fields. apply sound_obj. plain_fields.
  - destruct (wsteps_total w); cbn [from_option] in H2; plain_fields.
  - destruct skip as [p|]; [|plain_fields]. destruct Hs as (_ & _ & Hr & Hc). destruct (_ =? _); plain_fields. by apply skip_sound.
Qed.
Lemma header_sound w producer p pid cmd now :
  header_typed w producer p pid cmd now → sound (header_json w producer p pid cmd now).
Proof.
  intros ((_ & _ & Ha & Hcode) & Hpr & Hp & Hpid & Hc & Hnow). apply sound_obj. repeat (apply Forall_app; split).
  - plain_fields.
    + apply sound_obj. plain_fields. by apply kept_sound; [|key|].
    + apply prov_sound. destruct p; [done|apply unknown_typed].
    + destruct (warch w); [by apply kept_utf8|key].
  - destruct (wcode w) as [[[name sha] len]|]; [|plain_fields]. destruct Hcode as (Hn & (bs & Hbs & ->) & Hl).
    plain_fields. apply sound_obj. plain_fields; [by apply kept_utf8|by apply utf8_hex].
  - destruct (deterministic w); [plain_fields|]. repeat (apply Forall_app; split); [|destruct cmd|]; try plain_fields.
    + destruct (0 <? pid); plain_fields.
    + by apply kept_utf8.
Qed.

(** ** The stream *)
(** A stream of [n] bytes at first that was given the text [T]. *)
Definition given (n : nat) (T : list Z) (s : FILE) : Prop :=
  data s = take n T ∧ room s = (n - length T)%nat ∧ ferr s = (n <? length T)%nat.

Lemma fputs_given n T s t : given n T s → given n (T ++ t) (fputs t s).1 ∧
  ((fputs t s).2 = false → (n < length (T ++ t))%nat).
Proof.
  intros (H1 & H2 & H3). unfold fputs, given. rewrite H1, H2, H3, length_app.
  destruct (Nat.leb_spec (length t) (n - length T)) as [Hle|Hgt]; cbn [fst snd data room ferr].
  - split; [|done]. destruct (Nat.ltb_spec n (length T)) as [Hlt|Hge].
    + assert (t = []) as -> by (destruct t; [done|simpl in Hle; lia]). simpl.
      rewrite !app_nil_r, Nat.add_0_r. split_and!; [done|lia|symmetry; by apply Nat.ltb_lt].
    + rewrite take_ge with (l := T) by lia. rewrite take_ge by (rewrite length_app; lia).
      split_and!; [done|lia|symmetry; apply Nat.ltb_ge; lia].
  - split; [|intros _; lia]. rewrite take_app. split_and!; [done|lia|symmetry; apply Nat.ltb_lt; lia].
Qed.

Definition wrote (n : nat) (T : list Z) (w : writer) : Prop :=
  ∃ s, wfile w = Some s ∧ given n T s ∧ (werr w = true → (n < length T)%nat).

Lemma header_wrote n w producer p pid cmd now :
  header_typed w producer p pid cmd now → wrote n [] w →
  let w' := (asmtrace_header w producer p pid cmd now).2 in
  wrote n (show (header_json w producer p pid cmd now) ++ [10]) w' ∧ events w' = events w ∧
  wsteps_total w' = wsteps_total w ∧ wcode w' = wcode w ∧ warch w' = warch w ∧ wtruncated w' = wtruncated w.
Proof.
  intros Ht (s & Hs & Hg & He). unfold asmtrace_header. rewrite Hs.
  rewrite <-(header_text_spec _ _ _ _ _ _ Ht). pose proof (fputs_given _ _ _ (header_text w producer p pid cmd now) Hg) as [Hg1 _].
  pose proof (fputs_given _ _ _ (js "}" ++ [10]) Hg1) as [Hg2 Hok].
  destruct (fputs (js "}" ++ [10]) (fputs (header_text w producer p pid cmd now) s).1) as [s2 ok]. cbn [fst snd] in *.
  split; [|done]. exists s2. rewrite <-(assoc_L (++)). split_and!; [done|done|]. cbn [werr with_file].
  destruct ok; [|by intros _; apply Hok]. rewrite orb_false_r. intros H. specialize (He H). simpl in He. lia.
Qed.

(** One line of the recording. *)
Lemma event_line cap ev :
  event_typed ev → (length (show (event_json ev)) <= cap)%nat →
  body cap ev ≠ [] ∧
  js "{'k':'" ++ codes (event_kind ev) ++ js "'," ++ body cap ev ++ js "}" = show (event_json ev).
Proof.
  intros Ht Hc. pose proof (body_fits cap ev Ht) as Hb. unfold event_json in *. rewrite show_obj in *.
  assert (∃ kv fs, event_fields ev = kv :: fs) as (kv & fs & Ef) by (destruct ev; simpl; eauto).
  assert (more_text (event_fields ev) = 44 :: fields_text (event_fields ev)) as Em by (by rewrite Ef, fields_text_cons).
  rewrite Em in *. unfold fits in Hb. cbn [length] in Hc. rewrite !length_app in Hc. cbn [length] in Hc.
  rewrite take_ge in Hb by lia. rewrite Hb. split.
  - rewrite Ef, fields_text_cons. done.
  - generalize (fields_text (event_fields ev)). intros l. destruct ev; vm_compute; reflexivity.
Qed.

Lemma emit_wrote n T w cap ev :
  event_typed ev → (length (show (event_json ev)) <= cap)%nat → wrote n T w →
  let w' := (asmtrace_emit w (codes (event_kind ev)) (body cap ev)).2 in
  wrote n (T ++ show (event_json ev) ++ [10]) w' ∧ events w' = events w +64 1 ∧
  wsteps_total w' = wsteps_total w ∧ wcode w' = wcode w ∧ warch w' = warch w ∧ wtruncated w' = wtruncated w.
Proof.
  intros Ht Hc (s & Hs & Hg & He). unfold asmtrace_emit. rewrite Hs. destruct (event_line cap ev Ht Hc) as [Hne <-].
  destruct (body cap ev) as [|c b]; [done|]. rewrite <-!(assoc_L (++)).
  pose proof (fputs_given _ _ _ (js "{'k':'" ++ codes (event_kind ev) ++ js "'," ++ (c :: b) ++ js "}" ++ [10]) Hg) as [Hg1 _].
  cbn [snd]. split; [|done]. eexists. split_and!; [done|exact Hg1|]. cbn [werr]. intros [H|H]%orb_true_iff.
  - specialize (He H). rewrite length_app. lia.
  - destruct Hg1 as (_ & _ & Hf). rewrite Hf in H. by apply Nat.ltb_lt.
Qed.

(** The calls between the header and the footer: each event with the size of the
    buffer its body is built in. *)
Definition record_all (w : writer) (evs : list (nat * event)) : writer :=
  foldl (λ w ce, (asmtrace_emit w (codes (event_kind ce.2)) (body ce.1 ce.2)).2) w evs.
Definition line (v : json) : list Z := show v ++ [10].

Lemma record_all_wrote n T w evs :
  Forall (λ ce, event_typed ce.2 ∧ (length (show (event_json ce.2)) <= ce.1)%nat) evs → wrote n T w → is_u64 (events w) →
  let w' := record_all w evs in
  wrote n (T ++ concat ((λ ce, line (event_json ce.2)) <$> evs)) w' ∧
  events w' = u64 (events w + Z.of_nat (length evs)) ∧ is_u64 (events w') ∧
  wsteps_total w' = wsteps_total w ∧ wcode w' = wcode w ∧ warch w' = warch w ∧ wtruncated w' = wtruncated w.
Proof.
  intros Hev. revert T w. induction Hev as [|[cap ev] evs [Ht Hc] _ IH]; intros T w Hw Hu.
  { simpl. rewrite app_nil_r, Z.add_0_r, u64_small by done. done. }
  cbn [fst snd] in *. destruct (emit_wrote n T w cap ev Ht Hc Hw) as (H1 & H2 & H3 & H4 & H5 & H6).
  unfold record_all. cbn [foldl fst snd]. fold (record_all (asmtrace_emit w (codes (event_kind ev)) (body cap ev)).2 evs).
  destruct (IH _ _ H1) as (H7 & H8 & H9 & H10 & H11 & H12 & H13); [rewrite H2; apply u64_range|].
  rewrite fmap_cons. cbn [concat fst snd]. rewrite (assoc_L (++)). rewrite H2, u64_add_l in H8.
  split_and!; [exact H7| |exact H9|congruence..]. rewrite H8. f_equal. cbn [length]. lia.
Qed.

(** C26: a recording reads back.  A header, any events whose lines fit their
    buffers and a footer, written to a stream of [n] bytes, leave the first [n]
    bytes of a text of one JSON object per line; the writer reports success exactly
    when all of it was written and flushed, and then a reader of lines gets the
    header, the fields of every event in order and a footer with the number of
    events, all of it UTF-8. *)
Theorem recording_roundtrip n s w producer p pid cmd now evs lost throttled skip flushed
    (Hs : wfile w = Some s) (Hfresh : data s = [] ∧ room s = n ∧ ferr s = false) (Herr : werr w = false)
    (Hh : header_typed w producer p pid cmd now)
    (Hev : Forall (λ ce, event_typed ce.2 ∧ (length (show (event_json ce.2)) <= ce.1)%nat) evs)
    (Hlost : is_u64 lost) (Hskip : from_option prov_typed True skip) :
  let w1 := (asmtrace_header w producer p pid cmd now).2 in
  let w2 := record_all w1 evs in
  let objects := header_json w producer p pid cmd now :: (event_json ∘ snd <$> evs) ++ [footer_json w2 lost throttled skip] in
  let text := concat (line <$> objects) in
  events w2 = u64 (events w + Z.of_nat (length evs)) ∧
  ∃ file, asmtrace_close w2 lost throttled skip flushed =
      (if (length text <=? n)%nat && flushed then 0 else -1, Some file) ∧
    data file = take n text ∧
    ((length text <= n)%nat → parse_lines (data file) = Some objects ∧ utf8 (data file)).
Proof.
  intros w1 w2 objects text. pose proof Hh as (Hw & _). pose proof Hw as (Hu & Hst & Har & Hco).
  assert (wrote n [] w) as H0.
  { exists s. destruct Hfresh as (E1 & E2 & E3). split_and!; [done| |congruence].
    unfold given. rewrite E1, E2, E3. simpl. split_and!; [by rewrite take_nil|lia|done]. }
  destruct (header_wrote n w producer p pid cmd now Hh H0) as (A1 & A2 & A3 & A4 & A5 & A6). fold w1 in A1, A2, A3, A4, A5, A6.
  destruct (record_all_wrote n _ w1 evs Hev A1) as ((s2 & B1 & B2 & B3) & B4 & B5 & B6 & B7 & B8 & B9); [by rewrite A2|].
  fold w2 in B1, B3, B4, B5, B6, B7, B8, B9. rewrite A2 in B4.
  split; [done|]. assert (writer_typed w2) as Hw2.
  { split_and!; [done|by rewrite B6, A3|by rewrite B8, A5|by rewrite B7, A4]. }
  pose proof (footer_text_spec w2 lost throttled skip Hw2 Hlost Hskip) as Ef.
  pose proof (fputs_given _ _ _ (footer_text w2 lost throttled skip) B2) as [C1 _]. rewrite Ef in C1.
  assert (text = ((show (header_json w producer p pid cmd now) ++ [10]) ++ concat ((λ ce, line (event_json ce.2)) <$> evs)) ++
    show (footer_json w2 lost throttled skip) ++ [10]) as Et.
  { unfold text, objects, line. rewrite fmap_cons, fmap_app. cbn [concat]. rewrite concat_app, <-list_fmap_compose.
    cbn [fmap list_fmap concat]. by rewrite app_nil_r, <-!(assoc_L (++)). }
  rewrite <-Et in C1. destruct C1 as (D1 & D2 & D3).
  unfold asmtrace_close. rewrite B1, Ef. eexists. split; [|split; [exact D1|]].
  - f_equal. rewrite D3, Nat.leb_antisym. destruct (Nat.ltb_spec n (length text)) as [Hlt|Hge].
    + by rewrite orb_true_r.
    + destruct (werr w2); [|by destruct flushed]. specialize (B3 eq_refl). rewrite Et, length_app in Hge. lia.
  - intros Hroom. rewrite D1, take_ge by done.
    assert (Forall sound objects) as Hsound.
    { unfold objects. apply Forall_cons. split; [by apply header_sound|]. apply Forall_app. split.
      - apply Forall_fmap. eapply Forall_impl; [exact Hev|]. intros [cap ev] [Ht _]. by apply event_sound.
      - apply Forall_singleton. by apply footer_sound. }
    split.
    + apply parse_lines_show. eapply Forall_impl; [exact Hsound|]. intros v Hv. by apply sound_spec.
    + unfold text. clear -Hsound. induction Hsound as [|v vs Hv _ IH]; [by exists []|]. rewrite fmap_cons. cbn [concat].
      apply utf8_app; [|done]. apply utf8_app; [by apply show_utf8, sound_spec|]. apply utf8_ascii.
      repeat constructor; unfold ascii_code; lia.
Qed.

Definition demo_rec : at_val_rec := mk_rec AT_LOC_REG 35 0 0 0 0 0 8 true true false 0 7 0.
Definition demo_events : list (nat * event) :=
  [(4096%nat, EvStep 0 16 4194304 0 (Some (codes "mov rax, 7")) [demo_rec] None);
   (4096%nat, EvMem 1 4096 8 false AT_LOC_MEM_ABS); (4096%nat, EvBlame 1 20 None [(0, 16); (1, 20)] false)].
Definition demo_writer : writer := asmtrace_open_file (mk_file [] 4000 false) true.

Lemma recording_roundtrip_witness :
  let w1 := (asmtrace_header demo_writer None None 0 None 0).2 in
  let w2 := record_all w1 demo_events in
  events w2 = 3 ∧
  ∃ file, asmtrace_close w2 0 false None true = (0, Some file) ∧
    parse_lines (data file) =
      Some (header_json demo_writer None None 0 None 0 :: (event_json ∘ snd <$> demo_events) ++ [footer_json w2 0 false None]).
Proof.
  intros w1 w2. subst w2 w1.
  destruct (recording_roundtrip 4000 (mk_file [] 4000 false) demo_writer None None 0 None 0 demo_events 0 false None true)
    as (H1 & file & H2 & H3 & H4); [done|done|done| | |unfold is_u64; lia|done|].
  - split_and!; try done; unfold is_u64, is_i64; simpl; lia.
  - repeat (apply Forall_cons; split; [split; [|vm_compute; lia]|]); [..|apply Forall_nil_2].
    + split_and!; try (unfold is_u32, is_u64; lia); [|apply Forall_singleton; split; unfold is_u32, is_u64, is_i64; simpl; lia|done].
      apply (utf8_bytes (codes "mov rax, 7")). key.
    + split_and!; unfold is_u32, is_u64; lia.
    + split_and!; try (unfold is_u32, is_u64; lia); [done|]. repeat constructor; unfold is_u32, is_u64; simpl; lia.
  - split; [exact H1|]. exists file. assert (length (concat (line <$> header_json demo_writer None None 0 None 0 ::
      (event_json ∘ snd <$> demo_events) ++ [footer_json (record_all (asmtrace_header demo_writer None None 0 None 0).2 demo_events)
      0 false None])) <= 4000)%nat as Hl by (vm_compute; lia).
    split; [|by apply H4]. etrans; [exact H2|]. rewrite (proj2 (Nat.leb_le _ _) Hl). done.
Defined.
End Record.
