(* ===== verification/Blame.v ===== *)
(** The backward attribution of one step as a recorded event
    ([tools/asmtrace_record.c], [emit_blame]; [cli/asmspy.c],
    [dataflow_emit_blame] is the same over the live recorder): the slice of the
    seed, projected to offsets and written as one line. *)
From S2P Require Import Prelude Format ValTrace RegSlice DefUse Slice Json Escape Record.
Import ValTrace Json Record.

Module Blame.
Open Scope Z_scope.

(** [memset] and [seed_rec.step = seed]. *)
Definition seed_rec (seed : Z) : at_val_rec := mk_rec AT_LOC_REG 0 0 0 0 0 0 0 false false false 0 0 seed.
(** [4096 + sl->n * 32] *)
Definition blame_cap (n : nat) : nat := 4096 + n * 32.
Definition off_of (vt : asmtest_valtrace) (s : Z) : Z :=
  if s <? Z.of_nat (steps_len vt) then offs vt !!! Z.to_nat s else 0.
(** The first register write of the seed. *)
Definition blamed (vt : asmtest_valtrace) (seed : Z) : option at_val_rec :=
  List.find (λ r, (rstep r =? seed) && is_write r && bool_decide (kind r = AT_LOC_REG)) (vrecs vt).

Definition emit_blame (grant : allocator) (qsort : list Z → list Z) (w : writer) (vt : asmtest_valtrace)
    (g : option DefUse.defuse) (seed : Z) : writer :=
  match Slice.asmtest_slice_backward_seed grant qsort g (Some (seed_rec seed)) with
  | None => w
  | Some sl =>
      let steps := Slice.members sl in
      let n := length steps in
      let n1 := Z.of_nat (Nat.max n 1) in
      if grant (n1 * 4) && grant (n1 * 8) && grant (Z.of_nat (blame_cap n)) then
        let cone := (λ s, (s, off_of vt s)) <$> steps in
        (asmtrace_emit w (codes "blame")
           (asmtrace_blame_body (blame_cap n) seed (off_of vt seed) (blamed vt seed) cone (n <=? 1)%nat)).2
      else w
  end.

(** The event the code means to write. *)
Definition blame_event (vt : asmtest_valtrace) (steps : list Z) (seed : Z) : event :=
  EvBlame seed (off_of vt seed) (blamed vt seed) ((λ s, (s, off_of vt s)) <$> steps) (length steps <=? 1)%nat.

(** ** How long a line gets *)
Lemma length_digits fuel n acc k :
  0 <= n < 10 ^ Z.of_nat k → (1 <= k)%nat → (String.length (digits fuel 10 n acc) <= k + String.length acc)%nat.
Proof.
  revert n acc k. induction fuel as [|fuel IH]; intros n acc k Hn Hk; cbn [digits]; [lia|].
  destruct (Z.eqb_spec (n / 10) 0) as [Hz|Hz]; [simpl; lia|].
  destruct k as [|[|k]]; [lia| |].
  - change (10 ^ Z.of_nat 1) with 10 in Hn. rewrite Z.div_small in Hz by lia. done.
  - etrans; [apply (IH _ _ (S k)); [|lia]|simpl; lia]. rewrite Nat2Z.inj_succ, Z.pow_succ_r in Hn by lia.
    split; [apply Z.div_pos; lia|]. apply Z.div_lt_upper_bound; lia.
Qed.
Lemma length_codes s : length (codes s) = String.length s.
Proof. unfold codes. rewrite length_fmap. induction s; simpl; auto. Qed.
Lemma length_num n : - 2 ^ 64 < n < 2 ^ 64 → (length (show (JNum n)) <= 21)%nat.
Proof.
  intros Hn. cbn [show]. assert (∀ m, 0 <= m < 2 ^ 64 → (length (codes (fmt_u m)) <= 20)%nat) as Hu.
  { intros m Hm. rewrite length_codes. unfold fmt_u. etrans; [apply (length_digits 64 m EmptyString 20); [|lia]|cbn [String.length]; lia].
    split; [lia|]. etrans; [apply Hm|]. reflexivity. }
  destruct (Z.lt_ge_cases n 0).
  - rewrite fmt_d_neg by done. simpl. specialize (Hu (- n) ltac:(lia)). lia.
  - rewrite fmt_d_nonneg by done. specialize (Hu n ltac:(lia)). lia.
Qed.

(** A bound that only looks at names and strings. *)
Fixpoint bound (v : json) : nat :=
  match v with
  | JNum _ => 21
  | JBool _ => 5
  | JStr s => length (esc s) + 2
  | JArr l => foldr (λ v acc, bound v + 1 + acc) 2 l
  | JObj l => foldr (λ kv acc, length (esc kv.1) + 4 + bound kv.2 + acc) 2 l
  end%nat.

Lemma length_sep ls : (length (sep ls) <= sum_list_with (λ l, length l + 1) ls)%nat.
Proof.
  induction ls as [|l ls IH]; [done|]. destruct ls as [|l' ls]; [simpl; lia|]. rewrite sep_cons by done.
  rewrite length_app. cbn [length sum_list_with] in *. lia.
Qed.
Lemma bound_spec v : readable v → (length (show v) <= bound v)%nat.
Proof.
  induction v as [n|b|s|l IH|l IH] using json_induction; intros Hr.
  - by apply length_num.
  - destruct b; simpl; lia.
  - cbn [show bound]. unfold quoted. cbn [length]. rewrite length_app. simpl. lia.
  - cbn [show bound]. cbn [length]. rewrite length_app. pose proof (length_sep (show <$> l)) as Hs.
    assert (sum_list_with (λ l, length l + 1)%nat (show <$> l) + 2 <= foldr (λ v acc, bound v + 1 + acc) 2 l)%nat; [|simpl; lia].
    clear Hs. induction IH as [|v l Hv _ IHl]; [done|]. destruct Hr as [Hr1 Hr2]. specialize (Hv Hr1). specialize (IHl Hr2).
    rewrite fmap_cons. cbn [sum_list_with foldr]. lia.
  - cbn [show bound]. cbn [length]. rewrite length_app.
    pose proof (length_sep ((λ kv : list Z * json, quoted kv.1 ++ 58 :: show kv.2) <$> l)) as Hs.
    assert (sum_list_with (λ l, length l + 1)%nat ((λ kv : list Z * json, quoted kv.1 ++ 58%Z :: show kv.2) <$> l) + 2 <=
      foldr (λ kv acc, length (esc kv.1) + 4 + bound kv.2 + acc) 2 l)%nat; [|simpl in *; lia].
    clear Hs. induction IH as [|[k v] l Hv _ IHl]; [done|]. destruct Hr as [[Hk Hr1] Hr2]. specialize (Hv Hr1). specialize (IHl Hr2).
    rewrite fmap_cons. cbn [sum_list_with foldr fst snd] in *. rewrite length_app. unfold quoted in *. cbn [length].
    rewrite length_app. cbn [length]. lia.
Qed.

Lemma bound_op r : (bound (op_json r None) <= 300)%nat.
Proof.
  unfold op_json, op_fields, value_fields. destruct (kind r), (wide r), (value_valid r); vm_compute; lia.
Qed.

Lemma bound_field k v fs : bound (JObj (f k v :: fs)) = (length (esc (codes k)) + 4 + bound v + bound (JObj fs))%nat.
Proof. done. Qed.
Lemma bound_str s : bound (str s) = (length (esc (codes s)) + 2)%nat.
Proof. done. Qed.
Ltac name_lengths :=
  rewrite ?bound_str;
  repeat match goal with
  | |- context [length (esc (codes ?k))] =>
      let n := eval vm_compute in (length (esc (codes k))) in change (length (esc (codes k))) with n
  end.

Lemma bound_cone (cone : list (Z * Z)) :
  (bound (JArr ((λ so, JObj [f "step" (JNum so.1); f "off" (JNum so.2); f "kind" (str "insn")]) <$> cone))
    <= 75 * length cone + 2)%nat.
Proof.
  assert (∀ a b : Z, bound (JObj [f "step" (JNum a); f "off" (JNum b); f "kind" (str "insn")]) = 73%nat) as He by reflexivity.
  induction cone as [|[a b] cone IH]; [simpl; lia|]. rewrite fmap_cons. cbn [fst snd].
  change (bound (JArr (?x :: ?l))) with (bound x + 1 + bound (JArr l))%nat. rewrite He. cbn [length]. lia.
Qed.

Lemma blame_line_bound vt steps seed :
  event_typed (blame_event vt steps seed) → (length steps <= 80)%nat →
  (length (show (event_json (blame_event vt steps seed))) <= blame_cap (length steps))%nat.
Proof.
  intros Ht Hn. etrans; [apply bound_spec, Escape.sound_spec; by apply event_sound|].
  pose proof (bound_cone ((λ s, (s, off_of vt s)) <$> steps)) as Hc. rewrite length_fmap in Hc.
  unfold event_json, blame_event. cbn [event_fields event_kind].
  revert Hc. generalize (JArr ((λ so : Z * Z, JObj [f "step" (JNum so.1); f "off" (JNum so.2); f "kind" (str "insn")]) <$>
    ((λ s : Z, (s, off_of vt s)) <$> steps))). intros v Hv.
  destruct (blamed vt seed) as [r|]; [pose proof (bound_op r) as Hop; revert Hop; generalize (op_json r None); intros o Ho|];
    cbn [app]; rewrite !bound_field; name_lengths; unfold blame_cap; cbn [bound foldr]; lia.
Qed.

(** The cone is the backward slice, whatever the seed step wrote. *)
Lemma seed_slice (qsort : list Z → list Z) `{!QSort Slice.cmp_u32 qsort} v g seed :
  grouped v → Z.of_nat (steps_len v) < 2 ^ 32 → Z.of_nat (recs_len v) <= 2 ^ 40 →
  DefUse.asmtest_defuse_build always (Some v) = Some g → 0 <= seed < Z.of_nat (steps_len v) →
  ∃ sl, Slice.asmtest_slice_backward_seed always qsort (Some g) (Some (seed_rec seed)) = Some sl ∧
    StronglySorted Z.lt (Slice.members sl) ∧
    ∀ k, k ∈ Slice.members sl ↔ rtc (Slice.dep (vrecs v)) k seed.
Proof.
  intros Hgrp Hs Hr Hb Hseed. destruct (DefUse.defuse_build_spec v g Hgrp Hs Hr Hb) as [Hn He].
  destruct (Slice.slice_dir_spec qsort g seed false) as (s & E & Hsort & Hmem).
  { by eapply Slice.trace_graph_wf. }
  { lia. }
  exists s. split_and!; [done..|]. intros k. rewrite Hmem, (Slice.rtc_hop v g Hgrp Hn He). rewrite Hn. tauto.
Qed.

Definition vt_typed (v : asmtest_valtrace) : Prop := Forall is_u64 (offs v) ∧ Forall rec_typed (vrecs v).
Lemma off_typed v s : vt_typed v → is_u64 (off_of v s).
Proof.
  intros [Ho _]. unfold off_of. case_match; [|unfold is_u64; lia]. rewrite list_lookup_total_alt.
  destruct (offs v !! Z.to_nat s) as [o|] eqn:E; [by eapply Forall_lookup_1|]. simpl. unfold is_u64. vm_compute. split; congruence.
Qed.
Lemma blamed_typed v seed : vt_typed v → from_option rec_typed True (blamed v seed).
Proof.
  intros [_ Hr]. destruct (blamed v seed) as [r|] eqn:E; [|done]. unfold blamed in E.
  apply List.find_some in E as [Hin _]. rewrite Forall_forall in Hr. by apply Hr, list_elem_of_In.
Qed.

(** The facts about the cone that the event carries. *)
Lemma dep_range v a b : grouped v → Slice.dep (vrecs v) a b → 0 <= a < b ∧ b < Z.of_nat (steps_len v).
Proof. intros Hg (x & Hx & <- & <-). exact (Slice.depends_range v (DefUse.mk_defuse [] _) Hg eq_refl x Hx). Qed.
Lemma born_untraced_spec v seed cone :
  grouped v → StronglySorted Z.lt cone → (∀ k, k ∈ cone ↔ rtc (Slice.dep (vrecs v)) k seed) →
  (length cone <= 1)%nat ↔ ∀ k, ¬ Slice.dep (vrecs v) k seed.
Proof.
  intros Hgrp Hs Hmem. assert (seed ∈ cone) as Hseed by (by apply Hmem). split.
  - intros Hl k Hk. assert (k ∈ cone) as Hin by (apply Hmem; by apply rtc_once).
    apply dep_range in Hk; [|done]. destruct cone as [|a [|b l]]; [set_solver| |simpl in Hl; lia].
    apply list_elem_of_singleton in Hseed as ->, Hin as ->. lia.
  - intros Hno. destruct cone as [|a [|b l]]; [simpl; lia..|]. exfalso.
    assert (∀ k, k ∈ a :: b :: l → k = seed) as Hall.
    { intros k Hk%Hmem. apply rtc_inv_r in Hk as [->|(j & _ & Hj)]; [done|]. by destruct (Hno j). }
    apply StronglySorted_inv in Hs as [_ Hs]. apply Forall_cons in Hs as [Hab _].
    rewrite (Hall a), (Hall b) in Hab by set_solver. lia.
Qed.

Lemma blame_event_typed v seed cone :
  grouped v → vt_typed v → Z.of_nat (steps_len v) < 2 ^ 32 → 0 <= seed < Z.of_nat (steps_len v) →
  (∀ k, k ∈ cone ↔ rtc (Slice.dep (vrecs v)) k seed) → event_typed (blame_event v cone seed).
Proof.
  intros Hgrp Ht Hn Hseed Hmem. split_and!; [unfold is_u32; lia|by apply off_typed|by apply blamed_typed|].
  apply Forall_fmap, Forall_forall. intros k Hk%Hmem. split; [|by apply off_typed]. cbn [fst]. unfold is_u32.
  apply rtc_inv in Hk as [->|(j & Hj & _)]; [lia|]. apply dep_range in Hj; [lia|done].
Qed.

(** Blame tells the truth. Over a trace whose graph was built, the event
    written for a step is the one whose cone is, in ascending order, exactly the
    steps from which a chain of dependences leads to it, each with its offset;
    it says that the value was born of untraced state exactly when nothing in the
    trace feeds the step. Up to 80 steps the line is written whole behind what
    the file already has, and reads back as that event. *)
Theorem blame_cone_exact (qsort : list Z → list Z) `{!QSort Slice.cmp_u32 qsort} v g seed w n T
    (Hgrp : grouped v) (Hty : vt_typed v)
    (Hsteps : Z.of_nat (steps_len v) < 2 ^ 32) (Hrecs : Z.of_nat (recs_len v) <= 2 ^ 40)
    (Hbuild : DefUse.asmtest_defuse_build always (Some v) = Some g)
    (Hseed : 0 <= seed < Z.of_nat (steps_len v)) (Hw : wrote n T w) :
  ∃ cone, StronglySorted Z.lt cone ∧ (∀ k, k ∈ cone ↔ rtc (Slice.dep (vrecs v)) k seed) ∧
    ((length cone <= 1)%nat ↔ ∀ k, ¬ Slice.dep (vrecs v) k seed) ∧
    ((length cone <= 80)%nat →
      wrote n (T ++ line (event_json (blame_event v cone seed))) (emit_blame always qsort w v (Some g) seed) ∧
      parse_lines (line (event_json (blame_event v cone seed))) = Some [event_json (blame_event v cone seed)]).
Proof.
  destruct (seed_slice qsort v g seed) as (sl & E & Hsort & Hmem); [done..|].
  exists (Slice.members sl). split_and!; [done..| |].
  - by eapply born_untraced_spec.
  - intros Hn. assert (event_typed (blame_event v (Slice.members sl) seed)) as Ht by (by eapply blame_event_typed).
    split.
    + unfold emit_blame. rewrite E. cbn [always andb].
      by apply (emit_wrote n T w _ (blame_event v (Slice.members sl) seed)); [|apply blame_line_bound|].
    + pose proof (parse_lines_show [event_json (blame_event v (Slice.members sl) seed)]) as Hp.
      cbn [fmap list_fmap concat] in Hp. rewrite app_nil_r in Hp. apply Hp.
      apply Forall_singleton, Escape.sound_spec. by apply event_sound.
Qed.

Lemma blame_cone_exact_witness :
  ∃ cone, (∀ k, k ∈ cone ↔ rtc (Slice.dep (vrecs Slice.demo)) k 3) ∧
    ((length cone <= 80)%nat →
      wrote 4000 (line (event_json (blame_event Slice.demo cone 3)))
        (emit_blame always (msort Slice.cmp_u32) demo_writer Slice.demo (Some Slice.demo_graph) 3)).
Proof.
  destruct (blame_cone_exact (msort Slice.cmp_u32) (QSort0 := Slice.msort_u32) Slice.demo Slice.demo_graph 3 demo_writer 4000 [])
    as (cone & _ & Hm & _ & Hc); [exact Slice.demo_grouped| |vm_compute; reflexivity|vm_compute; congruence|exact Slice.demo_build| | |].
  - split; [apply (bool_decide_unpack _); vm_compute; exact I|].
    let l := eval vm_compute in (vrecs Slice.demo) in change (vrecs Slice.demo) with l.
    repeat (apply Forall_cons; split; [constructor; unfold is_u32, is_u64, is_i64; cbn; lia|]). apply Forall_nil_2.
  - vm_compute. split; congruence.
  - exists (mk_file [] 4000 false). split_and!; [done| |done]. split_and!; [done|simpl; lia|done].
  - exists cone. split; [exact Hm|]. intros H. apply Hc in H as [H _]. exact H.
Defined.

(** A loop of 200 steps below the base of its region (so that the offsets wrap to
    twenty digits), each step reading and writing rax. *)
Definition long_trace : asmtest_valtrace :=
  DefUse.sink_of ((λ i, (2 ^ 64 - 1 - i, [DefUse.reg_rec RegSlice.X86_REG_RAX false; DefUse.reg_rec RegSlice.X86_REG_RAX true]))
    <$> seqZ 0 200).
Definition long_graph : option DefUse.defuse := DefUse.asmtest_defuse_build always (Some long_trace).
Definition big_file : writer := asmtrace_open_file (mk_file [] (100 * 1000) false) true.
Definition long_blame : writer := emit_blame always (msort Slice.cmp_u32) big_file long_trace long_graph 199.

(** A long cone is cut. The buffer has 32 bytes an entry and an entry takes
    at least 33, so the body of the cone of this loop is cut in the middle; the
    line is written, counted and reported as written, and is not JSON: nobody can
    read the recording any more. *)
Theorem blame_line_unreadable :
  (λ w, (events w, werr w, parse_lines (from_option data [] (wfile w)))) long_blame = (1, false, None).
Proof. vm_compute. reflexivity. Qed.
End Blame.
