(* ===== verification/VmMap.v ===== *)
(** The address-space map of a process as an event ([cli/asmspy_vmmap.h]): parsing
    of [/proc/<pid>/maps], ranking, the digest that gates changes, and the body. *)
From S2P Require Import Prelude Format ValTrace DefUse Sha256 Json Escape Record.
Import Json Escape Record.

Module VmMap.
Open Scope Z_scope.

Definition ASMSPY_VMMAP_CAP : nat := 256.
(** [asmspy_vmspan_t]; the three strings without their terminator. *)
Record vmspan := mk_span { base : Z; len : Z; perms : list Z; sname : list Z; path : list Z }.
Definition sizeof_vmspan : Z := 536.

Definition executable (x : vmspan) : Z := if bool_decide (perms x !! 2%nat = Some 120) then 1 else 0.
Definition asmspy_vmmap_rank (x y : vmspan) : Z :=
  let xe := executable x in
  let ye := executable y in
  if negb (xe =? ye) then ye - xe
  else if negb (len x =? len y) then (if len x <? len y then 1 else -1)
  else if base x <? base y then -1 else if base y <? base x then 1 else 0.

(** ** [sscanf] *)
Definition is_space (c : Z) : bool := (c =? 32) || ((9 <=? c) && (c <=? 13)).
Fixpoint skip_ws (s : list Z) : list Z :=
  match s with c :: s' => if is_space c then skip_ws s' else s | [] => [] end.
(** A digit of the base, in either case. *)
Definition digit (b c : Z) : option Z :=
  let v := if (48 <=? c) && (c <=? 57) then c - 48
           else if (97 <=? c) && (c <=? 102) then c - 87
           else if (65 <=? c) && (c <=? 70) then c - 55 else b in
  if v <? b then Some v else None.
Fixpoint read_int (b acc : Z) (s : list Z) : Z * list Z :=
  match s with
  | c :: s' => match digit b c with Some v => read_int b (acc * b + v) s' | None => (acc, s) end
  | [] => (acc, [])
  end.
(** [%lx] and [%u]: blanks, a sign, for base 16 the prefix [0x], at least one digit;
    a value past 64 bits is the largest one. *)
Definition scan_int (b : Z) (s : list Z) : option (Z * list Z) :=
  let s := skip_ws s in
  let '(neg, s) := match s with
                   | c :: s' => if c =? 45 then (true, s') else if c =? 43 then (false, s') else (false, s)
                   | [] => (false, s)
                   end in
  let s := match s with
           | c :: x :: s' => if (b =? 16) && (c =? 48) && ((x =? 120) || (x =? 88)) then s' else s
           | _ => s
           end in
  match s with
  | c :: _ =>
      match digit b c with
      | Some _ => let '(v, r) := read_int b 0 s in
                  Some (if 2 ^ 64 <=? v then 2 ^ 64 - 1 else if neg then u64 (- v) else v, r)
      | None => None
      end
  | [] => None
  end.
(** [%7s] *)
Fixpoint word (n : nat) (s : list Z) : list Z * list Z :=
  match n, s with
  | S n, c :: s' => if is_space c then ([], s) else let '(w, r) := word n s' in (c :: w, r)
  | _, _ => ([], s)
  end.
Definition scan_word (n : nat) (s : list Z) : option (list Z * list Z) :=
  match word n (skip_ws s) with ([], _) => None | wr => Some wr end.
Definition scan_char (c : Z) (s : list Z) : option (list Z) :=
  match s with c' :: s' => if c' =? c then Some s' else None | [] => None end.

(** The conversions of one row: [lo], [hi], [perms], and what is behind the blanks
    after the inode when the row goes that far ([pathpos]). *)
Definition scan_row (s : list Z) : option (Z * Z * list Z * option (list Z)) :=
  '(lo, s) ← scan_int 16 s;
  s ← scan_char 45 s;
  '(hi, s) ← scan_int 16 s;
  '(pm, s) ← scan_word 7 s;
  '(off, s) ← scan_int 16 s;
  Some (lo, hi, pm,
        '(_, s) ← scan_int 16 s;
        s ← scan_char 58 s;
        '(_, s) ← scan_int 16 s;
        '(_, s) ← scan_int 10 s;
        Some (skip_ws s)).

(** ** Parsing *)
Fixpoint skip_blanks (s : list Z) : list Z :=
  match s with c :: s' => if c =? 32 then skip_blanks s' else s | [] => [] end.
Fixpoint upto (c : Z) (s : list Z) : list Z :=
  match s with x :: s' => if x =? c then [] else x :: upto c s' | [] => [] end.
(** What is behind the last [c]. *)
Fixpoint behind (c : Z) (s : list Z) : list Z :=
  match s with
  | [] => []
  | x :: s' => if existsb (λ y, y =? c) s' then behind c s' else if x =? c then s' else s
  end.
Definition row_span (lo hi : Z) (pm : list Z) (rest : option (list Z)) : vmspan :=
  let buf := take 255 (upto 10 (skip_blanks (default [] rest))) in
  if bool_decide (head buf = Some 47) then mk_span lo (hi - lo) pm (behind 47 buf) buf
  else if bool_decide (head buf = Some 91) then mk_span lo (hi - lo) pm buf []
  else mk_span lo (hi - lo) pm [] [].
(** [None]: the line is not a row. *)
Definition parse_row (l : list Z) : option vmspan :=
  '(lo, hi, pm, rest) ← scan_row l;
  if hi <=? lo then None else Some (row_span lo hi pm rest).

(** The lines of a file, with their newline, and whether [fgets] gives a line in
    one piece: one that does not fit the buffer is dropped. *)
Fixpoint split_lines (s : list Z) : list (list Z) :=
  match s with
  | [] => []
  | c :: s => if c =? 10 then [10] :: split_lines s
              else match split_lines s with [] => [[c]] | l :: ls => (c :: l) :: ls end
  end.
Definition whole (l : list Z) : bool :=
  if bool_decide (last l = Some 10) then (length l <=? 4095)%nat else (length l <=? 4094)%nat.

(** The spans, their capacity, and the rows seen; a refused [realloc] ends the loop. *)
Fixpoint parse_loop (grant : allocator) (ls : list (list Z)) (sp : list vmspan) (cap total : Z) : list vmspan * Z :=
  match ls with
  | [] => (sp, total)
  | l :: ls =>
      match (if whole l then parse_row l else None) with
      | None => parse_loop grant ls sp cap total
      | Some v =>
          if Z.of_nat (length sp) =? cap then
            if grant (cap * 2 * sizeof_vmspan) then parse_loop grant ls (sp ++ [v]) (cap * 2) (total + 1)
            else (sp, total + 1)
          else parse_loop grant ls (sp ++ [v]) cap (total + 1)
      end
  end.
(** [None] is the result -1. *)
Definition asmspy_vmmap_parse (grant : allocator) (qsort : list vmspan → list vmspan) (f : option (list Z)) :
    option (list vmspan * Z) :=
  text ← f;
  if grant (128 * sizeof_vmspan) then
    let '(sp, total) := parse_loop grant (split_lines text) [] 128 0 in Some (take ASMSPY_VMMAP_CAP (qsort sp), total)
  else None.

(** ** The digest *)
(** The eight bytes of [x], the lowest first. *)
Definition le64 (x : Z) : list Z := (λ k, Z.land (Z.shiftr x (Z.of_nat k * 8)) 0xff) <$> seq 0 8.
Definition header_bytes (total : Z) (readable : bool) : list Z :=
  le64 total ++ replicate 8 0 ++ [if readable then 1 else 0].
Definition digest_row (h : Sha256.sha256) (v : vmspan) : Sha256.sha256 :=
  let h := Sha256.asmtrace_sha256_update h (le64 (base v) ++ le64 (len v)) in
  let h := Sha256.asmtrace_sha256_update h (perms v ++ [0]) in
  let h := Sha256.asmtrace_sha256_update h (sname v ++ [0]) in
  Sha256.asmtrace_sha256_update h (path v ++ [0]).
Definition asmspy_vmmap_digest (stale : list Z) (sp : list vmspan) (total : Z) (readable : bool) : string :=
  let h := Sha256.asmtrace_sha256_update (Sha256.asmtrace_sha256_init stale) (header_bytes total readable) in
  foldr (λ b acc, Sha256.hex2 b +:+ acc)%string EmptyString (Sha256.asmtrace_sha256_final (foldl digest_row h sp)).

(** ** The body *)
(** [ASMSPY_VM_APP]: what does not fit with its terminator is refused. *)
Definition app_ (cap : nat) (b t : list Z) : option (list Z) :=
  if (cap - length b <=? length t)%nat then None else Some (b ++ t).
Definition hexs (n : Z) : list Z := codes (fmt_x n).
Definition body_row (cap : nat) (b : list Z) (i : nat) (v : vmspan) : option (list Z) :=
  let en := escaped 1552 (sname v) in
  let ep := escaped 1552 (path v) in
  b ← app_ cap b ((if (i =? 0)%nat then [] else js ",") ++ js "{'base':'0x" ++ hexs (base v) ++ js "','len':" ++
        u (len v) ++ js ",'perms':'" ++ escaped 64 (perms v) ++ js "'");
  b ← (match en with [] => Some b | _ => app_ cap b (js ",'name':'" ++ en ++ js "'") end);
  b ← (match ep with [] => Some b | _ => app_ cap b (js ",'path':'" ++ ep ++ js "'") end);
  app_ cap b (js "}").
Fixpoint body_rows (cap : nat) (b : list Z) (i : nat) (sp : list vmspan) : option (list Z) :=
  match sp with
  | [] => Some b
  | v :: sp => b ← body_row cap b i v; body_rows cap b (S i) sp
  end.
Definition asmspy_vmmap_body (sp : list vmspan) (total : Z) (readable : bool) (version : Z) (cap : nat) : option (list Z) :=
  if (cap =? 0)%nat then None
  else
    b ← app_ cap [] (js "'version':" ++ u version ++ js ",'maps_readable':" ++ boolean readable ++ js ",'spans_total':" ++
          u total ++ js ",'spans_truncated':" ++ boolean (Z.of_nat (length sp) <? total) ++ js ",'spans':[");
    b ← body_rows cap b 0 sp;
    app_ cap b (js "]").

(** ** The body is the text of its fields *)
Definition span_typed (v : vmspan) : Prop :=
  is_u64 (base v) ∧ is_u64 (len v) ∧ Forall is_byte (perms v) ∧ Forall is_byte (sname v) ∧ Forall is_byte (path v).
Definition text_field (k : string) (s : list Z) : list (list Z * json) :=
  match s with [] => [] | _ => [f k (JStr (kept 1552 s))] end.
Definition span_fields (v : vmspan) : list (list Z * json) :=
  [f "base" (JStr (codes "0x" ++ hexs (base v))); f "len" (JNum (len v)); f "perms" (JStr (kept 64 (perms v)))] ++
  text_field "name" (sname v) ++ text_field "path" (path v).
Definition vmmap_fields (sp : list vmspan) (total : Z) (readable : bool) (version : Z) : list (list Z * json) :=
  [f "version" (JNum version); f "maps_readable" (JBool readable); f "spans_total" (JNum total);
   f "spans_truncated" (JBool (Z.of_nat (length sp) <? total)); f "spans" (JArr ((JObj ∘ span_fields) <$> sp))].

(** A text that fits with its terminator. *)
Definition fit (cap : nat) (t : list Z) : option (list Z) := if (length t <? cap)%nat then Some t else None.
Lemma app_fit cap x y : (b ← fit cap x; app_ cap b y) = fit cap (x ++ y).
Proof.
  unfold fit, app_. rewrite length_app. destruct (Nat.ltb_spec (length x) cap); simpl.
  - destruct (Nat.leb_spec (cap - length x) (length y)), (Nat.ltb_spec (length x + length y) cap); try lia; done.
  - by rewrite (proj2 (Nat.ltb_ge _ _)) by lia.
Qed.
Lemma fit_none_r cap x : (b ← fit cap x; Some b) = fit cap x.
Proof. by destruct (fit cap x). Qed.

Lemma escaped_cap_kept cap s : Forall is_byte s → cap ≠ O → escaped cap s = esc (kept cap s).
Proof. intros Hb Hc. unfold escaped. by rewrite (proj1 (escape_kept cap s Hb Hc)). Qed.
Lemma encode_nonempty cp : scalar cp → encode cp ≠ [].
Proof.
  intros Hs. destruct (encode_shape cp Hs) as [[E _]|[(? & ? & E & _)|[(? & ? & ? & E & _)|(? & ? & ? & ? & E & _)]]]; by rewrite E.
Qed.
Lemma escaped_nil cap s : Forall is_byte s → (8 <= cap)%nat → escaped cap s = [] ↔ s = [].
Proof.
  intros Hb Hc. split; [|intros ->; unfold escaped, asmtrace_escape; by destruct cap].
  unfold escaped, asmtrace_escape. rewrite (proj2 (Nat.eqb_neq _ _)) by lia. cbn [default from_option id].
  destruct (escape_loop_spec (length s) cap [] s Hb ltac:(lia)) as (fin & more & t & -> & Hr & -> & Hm & _). cbn [app].
  intros He. assert (t = []) as ->.
  { destruct t as [|c t]; [done|]. unfold esc in He. rewrite fmap_cons in He. cbn [concat] in He.
    apply app_eq_nil in He as [He _]. pose proof (length_esc1 c) as Hl. rewrite He in Hl. simpl in Hl. lia. }
  destruct more as [|x more]; [|specialize (Hm ltac:(done)); simpl in Hm; lia]. rewrite app_nil_r.
  inversion Hr as [|cp s' t' Hcp Hr' E1 E|c s' t' Hno Hr' E1 E]; [done|..].
  apply app_eq_nil in E as [E _]. by destruct (encode_nonempty cp Hcp).
Qed.

(** Lower-case hex digits need no escape. *)
Definition hex_code (c : Z) : Prop := 48 <= c <= 57 ∨ 97 <= c <= 102.
Lemma digits_hex fuel n acc : 0 <= n → Forall hex_code (codes acc) → Forall hex_code (codes (digits fuel 16 n acc)).
Proof.
  revert n acc. induction fuel as [|fuel IH]; intros n acc Hn Ha; cbn [digits]; [done|].
  assert (Forall hex_code (codes (String (digit_char (n mod 16)) acc))) as Hc.
  { rewrite codes_cons. constructor; [|done]. assert (0 <= n mod 16 < 16) as Hm by (apply Z.mod_pos_bound; lia).
    assert (forallb (λ k, let c := Z.of_nat (Ascii.nat_of_ascii (digit_char (Z.of_nat k))) in
      ((48 <=? c) && (c <=? 57)) || ((97 <=? c) && (c <=? 102))) (seq 0 16) = true) as Hall by (vm_compute; reflexivity).
    rewrite forallb_forall in Hall. specialize (Hall (Z.to_nat (n mod 16))). rewrite in_seq, Z2Nat.id in Hall by lia.
    specialize (Hall ltac:(lia)). unfold hex_code. cbv zeta in Hall. lia. }
  destruct (n / 16 =? 0); [done|]. apply IH; [apply Z.div_pos; lia|done].
Qed.
Lemma hexs_code n : 0 <= n → Forall hex_code (hexs n).
Proof. intros Hn. by apply digits_hex; [|constructor]. Qed.
Lemma esc_hexs n : 0 <= n → esc (hexs n) = hexs n.
Proof.
  intros Hn. pose proof (hexs_code n Hn) as H. induction H as [|c l Hc _ IH]; [done|]. unfold esc in *. rewrite fmap_cons.
  cbn [concat]. rewrite IH. unfold esc1, hex_code in *.
  rewrite (proj2 (Z.eqb_neq c 34)), (proj2 (Z.eqb_neq c 92)), (proj2 (Z.ltb_ge c 32)) by lia. done.
Qed.

(** The text of one row, and of all of them. *)
Lemma text_fit cap x p k s :
  Forall is_byte s → (∀ t, p ++ t ++ js "'" = 44 :: quoted (codes k) ++ 58 :: 34 :: t ++ [34]) →
  (b ← fit cap x; match escaped 1552 s with [] => Some b | _ => app_ cap b (p ++ escaped 1552 s ++ js "'") end) =
    fit cap (x ++ more_text (text_field k s)).
Proof.
  intros Hb Hp. pose proof (escaped_nil 1552 s Hb ltac:(lia)) as Hnil. destruct s as [|c s].
  - rewrite (proj2 Hnil) by done. cbn [text_field]. unfold more_text. cbn. rewrite app_nil_r. apply fit_none_r.
  - assert (escaped 1552 (c :: s) ≠ []) as Hne by (rewrite Hnil; done).
    transitivity (b ← fit cap x; app_ cap b (p ++ escaped 1552 (c :: s) ++ js "'")).
    { destruct (fit cap x); [|done]. simpl. by destruct (escaped 1552 (c :: s)). }
    rewrite app_fit, Hp, escaped_cap_kept by done. f_equal. f_equal. unfold more_text, text_field, field_text.
    cbn [fmap list_fmap concat fst snd f show]. by rewrite app_nil_r.
Qed.
Lemma row_fit cap x i v :
  span_typed v →
  (b ← fit cap x; body_row cap b i v) = fit cap (x ++ (if (i =? 0)%nat then [] else [44]) ++ show (JObj (span_fields v))).
Proof.
  intros (H1 & H2 & H3 & H4 & H5). unfold body_row.
  set (t1 := (if (i =? 0)%nat then [] else js ",") ++ _).
  transitivity (b ← fit cap (x ++ t1);
    b ← (match escaped 1552 (sname v) with [] => Some b | _ => app_ cap b (js ",'name':'" ++ escaped 1552 (sname v) ++ js "'") end);
    b ← (match escaped 1552 (path v) with [] => Some b | _ => app_ cap b (js ",'path':'" ++ escaped 1552 (path v) ++ js "'") end);
    app_ cap b (js "}")).
  { rewrite <-app_fit. by destruct (fit cap x). }
  assert (∀ (o : option (list Z)) (g h : list Z → option (list Z)), (b ← o; b ← g b; h b) = (b ← (b ← o; g b); h b)) as Hassoc
    by (intros [?|] ??; done).
  rewrite !Hassoc, (text_fit cap (x ++ t1) (js ",'name':'") "name"), (text_fit cap _ (js ",'path':'") "path"), app_fit
    by (try done; intros t; vm_compute; reflexivity).
  f_equal. unfold t1, span_fields. cbn [app]. rewrite show_obj.
  change (?a :: ?b :: text_field "name" ?n ++ ?c) with ([a; b] ++ text_field "name" n ++ c). rewrite !more_app.
  rewrite (escaped_cap_kept 64) by done. generalize (more_text (text_field "name" (sname v))) as m1.
  generalize (more_text (text_field "path" (path v))) as m2. intros m2 m1.
  assert (∀ n, 0 <= n → show (JStr (codes "0x" ++ hexs n)) = js "'0x" ++ hexs n ++ js "'") as Hx.
  { intros n Hn. cbn [show]. unfold quoted. rewrite esc_app, esc_hexs by done. generalize (hexs n). intros l. vm_compute. reflexivity. }
  rewrite <-!(assoc_L (++)). f_equal. unfold is_u64 in *. 
  assert (js "{'base':'0x" = js "{'base':" ++ js "'0x") as -> by done.
  unfold field_text at 1. cbn [fst snd f]. rewrite Hx by lia. generalize (hexs (base v)). intros hx.
  unfold more_text, field_text. cbn [fmap list_fmap concat fst snd f].
  change (show (JStr (kept 64 (perms v)))) with (34 :: esc (kept 64 (perms v)) ++ [34]).
  generalize (esc (kept 64 (perms v))). intros pm. destruct (i =? 0)%nat; piece.
Qed.

Lemma rows_fit cap x i sp :
  Forall span_typed sp →
  (b ← fit cap x; body_rows cap b i sp) =
    fit cap (x ++ match i with
                  | O => sep ((λ v, show (JObj (span_fields v))) <$> sp)
                  | S _ => concat ((λ v, 44 :: show (JObj (span_fields v))) <$> sp)
                  end).
Proof.
  intros Ht. revert x i. induction Ht as [|v sp Hv _ IH]; intros x i.
  - cbn [body_rows]. destruct i; simpl; rewrite app_nil_r; apply fit_none_r.
  - cbn [body_rows]. transitivity (b ← (b ← fit cap x; body_row cap b i v); body_rows cap b (S i) sp).
    { by destruct (fit cap x). }
    rewrite row_fit, IH by done. f_equal. rewrite <-!(assoc_L (++)). f_equal. destruct i; rewrite fmap_cons.
    + rewrite sep_more, <-list_fmap_compose. done.
    + done.
Qed.
Lemma body_spec sp total readable version cap :
  Forall span_typed sp → is_u64 total → is_u32 version →
  asmspy_vmmap_body sp total readable version cap = fit cap (fields_text (vmmap_fields sp total readable version)).
Proof.
  intros Ht Hu Hv. unfold asmspy_vmmap_body. destruct (Nat.eqb_spec cap 0) as [->|Hc]; [done|].
  set (t1 := js "'version':" ++ _).
  assert (app_ cap [] t1 = fit cap t1) as ->.
  { rewrite <-(app_nil_l t1) at 2. rewrite <-app_fit. unfold fit at 1. cbn [length]. by rewrite (proj2 (Nat.ltb_lt _ _)) by lia. }
  transitivity (b ← (b ← fit cap t1; body_rows cap b 0 sp); app_ cap b (js "]")); [by destruct (fit cap t1)|].
  rewrite rows_fit, app_fit by done. f_equal. unfold t1, vmmap_fields. rewrite fields_text_cons.
  unfold more_text, field_text. cbn [fmap list_fmap concat fst snd f]. rewrite show_arr.
  rewrite <-list_fmap_compose. change (show ∘ (JObj ∘ span_fields)) with (λ v, show (JObj (span_fields v))).
  generalize (sep ((λ v, show (JObj (span_fields v))) <$> sp)). intros l. piece.
Qed.
Lemma vmmap_sound sp total readable version :
  Forall span_typed sp → is_u64 total → is_u32 version → fields_sound (vmmap_fields sp total readable version).
Proof.
  intros Ht Hu Hv. unfold vmmap_fields. plain_fields. apply sound_arr, Forall_fmap. eapply Forall_impl; [exact Ht|].
  intros v (H1 & H2 & H3 & H4 & H5). apply sound_obj. unfold span_fields.
  apply Forall_app. split; [|apply Forall_app; split].
  - apply Forall_cons. split; [split; [key|]|]; [|apply Forall_cons; split; [split; [key|]|apply Forall_singleton; split; [key|]]].
    + cbn [snd f sound]. apply utf8_ascii, Forall_app. split.
      { change (codes "0x") with [48; 120]. apply Forall_cons. split; [unfold ascii_code; lia|]. apply Forall_singleton. unfold ascii_code. lia. }
      eapply Forall_impl; [apply hexs_code; unfold is_u64 in *; lia|]. unfold hex_code, ascii_code. lia.
    + cbn [snd f sound]. unfold is_u64 in *. lia.
    + cbn [snd f sound]. by apply escape_kept.
  - destruct (sname v); plain_fields. by apply escape_kept.
  - destruct (path v); plain_fields. by apply escape_kept.
Qed.

(** The map is written whole or not at all. The body of the event is refused
    exactly when it does not fit the buffer; otherwise the line around it reads
    back as the object with the version, the totals, the flag that says whether
    rows were left out, and every row in order, whatever bytes its strings hold. *)
Theorem vmmap_body_exact sp total readable version cap
    (Hsp : Forall span_typed sp) (Ht : is_u64 total) (Hv : is_u32 version) :
  let fs := vmmap_fields sp total readable version in
  let l := JObj (f "k" (str "vmmap") :: fs) in
  (asmspy_vmmap_body sp total readable version cap = None ↔ (cap <= length (fields_text fs))%nat) ∧
  ∀ b, asmspy_vmmap_body sp total readable version cap = Some b →
    parse_lines (js "{'k':'" ++ codes "vmmap" ++ js "'," ++ b ++ js "}" ++ [10]) = Some [l].
Proof.
  intros fs l. rewrite body_spec by done. fold fs. unfold fit. destruct (Nat.ltb_spec (length (fields_text fs)) cap).
  - split; [split; [done|lia]|]. intros b [= <-].
    pose proof (parse_lines_show [l]) as Hp. cbn [fmap list_fmap concat] in Hp. rewrite app_nil_r in Hp.
    rewrite <-Hp.
    + unfold l. rewrite show_obj. assert (more_text fs = 44 :: fields_text fs) as -> by (unfold fs, vmmap_fields; by rewrite fields_text_cons).
      generalize (fields_text fs). intros t. f_equal. repeat progress (rewrite <-?(assoc_L (++)); cbn [app]). vm_compute. reflexivity.
    + apply Forall_singleton, Escape.sound_spec, sound_obj, Forall_cons. split; [split; key|]. by apply vmmap_sound.
  - split; [split; [done|done]|]. done.
Qed.

(** ** The digest tells maps apart *)
Definition row_bytes (v : vmspan) : list Z :=
  (le64 (base v) ++ le64 (len v)) ++ (perms v ++ [0]) ++ (sname v ++ [0]) ++ (path v ++ [0]).
Definition encoding (sp : list vmspan) (total : Z) (readable : bool) : list Z :=
  header_bytes total readable ++ concat (row_bytes <$> sp).
(** A span as the parser makes it: strings without a NUL. *)
Definition span_plain (v : vmspan) : Prop :=
  is_u64 (base v) ∧ is_u64 (len v) ∧ (0 ∉ perms v) ∧ (0 ∉ sname v) ∧ (0 ∉ path v).

Lemma le64_inj x y : is_u64 x → is_u64 y → le64 x = le64 y → x = y.
Proof.
  intros Hx Hy E. apply Z.bits_inj'. intros n Hn. destruct (Z.lt_ge_cases n 64) as [Hlt|Hge].
  - assert (∀ k, (k < 8)%nat → Z.land (Z.shiftr x (Z.of_nat k * 8)) 0xff = Z.land (Z.shiftr y (Z.of_nat k * 8)) 0xff) as Hk.
    { intros k Hk. unfold le64 in E. assert (seq 0 8 !! k = Some k) as Es by (apply lookup_seq; lia).
      pose proof (f_equal (.!! k) E) as El. cbn beta in El. rewrite !list_lookup_fmap, Es in El. by injection El. }
    specialize (Hk (Z.to_nat (n / 8)) ltac:(dlia)). rewrite Z2Nat.id in Hk by dlia.
    apply (f_equal (λ z, Z.testbit z (n mod 8))) in Hk. rewrite !Z.land_spec, !Z.shiftr_spec in Hk by dlia.
    change 0xff with (Z.ones 8) in Hk. rewrite Z.ones_spec_low, !andb_true_r in Hk by dlia.
    by replace (n mod 8 + n / 8 * 8) with n in Hk by dlia.
  - unfold is_u64 in *. destruct (decide (x = 0)) as [->|], (decide (y = 0)) as [->|]; try done;
      rewrite ?Z.bits_0; rewrite ?(Z.bits_above_log2 x n), ?(Z.bits_above_log2 y n); try done; try lia;
      (apply Z.lt_le_trans with 64; [apply Z.log2_lt_pow2; lia|lia]).
Qed.
Lemma terminated_inj (s s' r r' : list Z) : 0 ∉ s → 0 ∉ s' → s ++ 0 :: r = s' ++ 0 :: r' → s = s' ∧ r = r'.
Proof.
  revert s'. induction s as [|c s IH]; intros [|c' s'] H H' E; simpl in E; simplify_eq; [done|set_solver..|].
  destruct (IH s') as [-> ->]; [set_solver..|done|done].
Qed.
Lemma row_inj v v' r r' :
  span_plain v → span_plain v' → row_bytes v ++ r = row_bytes v' ++ r' → v = v' ∧ r = r'.
Proof.
  intros (H1 & H2 & H3 & H4 & H5) (H1' & H2' & H3' & H4' & H5') E. unfold row_bytes in E. rewrite <-!(assoc_L (++)) in E.
  apply app_inj_1 in E as [E1 E]; [|done]. apply app_inj_1 in E as [E2 E]; [|done]. cbn [app] in E.
  apply terminated_inj in E as [E3 E]; [|done..]. apply terminated_inj in E as [E4 E]; [|done..].
  apply terminated_inj in E as [E5 E]; [|done..]. apply le64_inj in E1; [|done..]. apply le64_inj in E2; [|done..].
  destruct v, v'. simpl in *. by subst.
Qed.
Lemma rows_inj sp sp' :
  Forall span_plain sp → Forall span_plain sp' → concat (row_bytes <$> sp) = concat (row_bytes <$> sp') → sp = sp'.
Proof.
  intros H. revert sp'. induction H as [|v sp Hv _ IH]; intros sp' H' E; destruct H' as [|v' sp' Hv' H']; [done|done|done|].
  rewrite !fmap_cons in E. cbn [concat] in E. apply row_inj in E as [-> E]; [|done..]. f_equal. by apply IH.
Qed.

Lemma digest_rows_streamed sp h m :
  Sha256.streamed h m → Sha256.streamed (foldl digest_row h sp) (m ++ concat (row_bytes <$> sp)).
Proof.
  revert h m. induction sp as [|v sp IH]; intros h m H; [by rewrite app_nil_r|]. cbn [foldl]. rewrite fmap_cons. cbn [concat].
  rewrite (assoc_L (++)). apply IH. unfold digest_row, row_bytes.
  generalize (le64 (base v) ++ le64 (len v)) (perms v ++ [0]) (sname v ++ [0]) (path v ++ [0]). intros a b c d.
  rewrite !(assoc_L (++)). do 4 apply Sha256.update_streamed. done.
Qed.

(** The change gate hashes what the map is. The digest is SHA-256 of one byte
    string, and two snapshots give the same bytes only when they have the same
    rows in the same order, the same total and the same readability: strings that
    only join to the same text are told apart by their terminators. *)
Theorem vmmap_digest_exact stale sp total readable
    (Hstale : length stale = 64%nat) (Hsp : Forall span_plain sp) (Ht : is_u64 total) :
  asmspy_vmmap_digest stale sp total readable =
    foldr (λ b acc, Sha256.hex2 b +:+ acc)%string EmptyString (Sha256.SHA256 (encoding sp total readable)) ∧
  ∀ sp' total' readable', Forall span_plain sp' → is_u64 total' →
    encoding sp' total' readable' = encoding sp total readable → sp' = sp ∧ total' = total ∧ readable' = readable.
Proof.
  split.
  - unfold asmspy_vmmap_digest. do 2 f_equal. apply Sha256.final_spec, digest_rows_streamed.
    apply (Sha256.update_streamed _ [] (header_bytes total readable)). by apply Sha256.init_streamed.
  - intros sp' total' readable' Hsp' Ht' E. unfold encoding, header_bytes in E. rewrite <-!(assoc_L (++)) in E.
    apply app_inj_1 in E as [E1 E]; [|done]. apply app_inv_head in E. cbn [app] in E.
    apply le64_inj in E1; [|done..]. assert (readable' = readable) as -> by (destruct readable, readable'; congruence).
    split_and!; [|done..]. apply rows_inj; [done..|]. congruence.
Qed.

(** ** The rows the kernel writes *)
Record krow := mk_krow {
  k_lo : Z; k_hi : Z; k_perms : list Z; k_off : Z; k_major : Z; k_minor : Z; k_inode : Z; k_pad : nat; k_path : list Z }.
(** [%0*x] *)
Definition hex_pad (w : nat) (n : Z) : list Z := replicate (w - length (hexs n)) 48 ++ hexs n.
Definition row_text (r : krow) : list Z :=
  hex_pad 8 (k_lo r) ++ 45 :: hex_pad 8 (k_hi r) ++ 32 :: k_perms r ++ 32 :: hex_pad 8 (k_off r) ++ 32 ::
  hex_pad 2 (k_major r) ++ 58 :: hex_pad 2 (k_minor r) ++ 32 :: codes (fmt_u (k_inode r)) ++ 32 ::
  replicate (k_pad r) 32 ++ k_path r ++ [10].
Definition krow_span (r : krow) : vmspan :=
  let p := take 255 (k_path r) in
  mk_span (k_lo r) (k_hi r - k_lo r) (k_perms r)
    (if bool_decide (head p = Some 47) then behind 47 p else if bool_decide (head p = Some 91) then p else [])
    (if bool_decide (head p = Some 47) then p else []).
Record krow_ok (r : krow) : Prop := {
  ok_range : 0 <= k_lo r < k_hi r; ok_hi : k_hi r < 2 ^ 64;
  ok_perms : length (k_perms r) = 4%nat ∧ Forall (λ c, is_space c = false) (k_perms r);
  ok_off : is_u64 (k_off r); ok_major : is_u64 (k_major r); ok_minor : is_u64 (k_minor r); ok_inode : is_u64 (k_inode r);
  ok_path : (10 ∉ k_path r) ∧ from_option (λ c, is_space c = false) True (head (k_path r));
  ok_length : (length (row_text r) <= 4095)%nat;
}.

(** Digits of a base, and what ends them. *)
Definition no_digit_of (b : Z) (r : list Z) : Prop := from_option (λ c, digit b c = None) True (head r).
Lemma digit_hex c : hex_code c → digit 16 c = Some (if c <? 58 then c - 48 else c - 87).
Proof.
  unfold hex_code, digit. intros H. destruct (Z.leb_spec 48 c), (Z.leb_spec c 57), (Z.leb_spec 97 c), (Z.leb_spec c 102), (Z.ltb_spec c 58);
    try lia; cbn [andb]; by rewrite (proj2 (Z.ltb_lt _ _)) by lia.
Qed.
Lemma read_int_hex s acc r :
  Forall hex_code (codes s) → no_digit_of 16 r → read_int 16 acc (codes s ++ r) = (numeral 16 acc s, r).
Proof.
  revert acc. induction s as [|c s IH]; intros acc Hs Hr.
  - cbn [codes app numeral]. destruct r as [|x r]; [done|]. simpl in Hr |- *. by rewrite Hr.
  - rewrite codes_cons in *. apply Forall_cons in Hs as [Hc Hs]. cbn [app read_int numeral]. rewrite digit_hex by done.
    rewrite IH by done. done.
Qed.
Lemma read_int_dec s acc r :
  Forall (λ c, 48 <= c <= 57) (codes s) → no_digit_of 10 r → read_int 10 acc (codes s ++ r) = (numeral 10 acc s, r).
Proof.
  revert acc. induction s as [|c s IH]; intros acc Hs Hr.
  - cbn [codes app numeral]. destruct r as [|x r]; [done|]. simpl in Hr |- *. by rewrite Hr.
  - rewrite codes_cons in *. apply Forall_cons in Hs as [Hc Hs]. cbn [app read_int numeral]. unfold digit.
    rewrite (proj2 (Z.leb_le 48 _)), (proj2 (Z.leb_le _ 57)) by lia. cbn [andb]. rewrite (proj2 (Z.ltb_lt _ 10)) by lia.
    rewrite IH by done. do 2 f_equal. unfold char_digit. cbv zeta. by rewrite (proj2 (Z.ltb_lt _ 58)) by lia.
Qed.
Lemma read_int_zeros k r : read_int 16 0 (replicate k 48 ++ r) = read_int 16 0 r.
Proof. induction k as [|k IH]; [done|]. exact IH. Qed.

(** A number behind no sign and no blank, then something that ends it. *)
Lemma scan_int_plain b ds r v :
  (∃ c ds', ds = c :: ds' ∧ 48 <= c ∧ is_Some (digit b c)) → from_option (λ c, c ≠ 120 ∧ c ≠ 88) True (head (tail ds ++ r)) →
  read_int b 0 (ds ++ r) = (v, r) → 0 <= v < 2 ^ 64 → scan_int b (ds ++ r) = Some (v, r).
Proof.
  intros (c & ds' & -> & Hc & Hd) Hx Hr Hv. unfold scan_int. cbn [app skip_ws tail] in *.
  assert (is_space c = false) as -> by (unfold is_space; apply orb_false_iff; split; [apply Z.eqb_neq; lia|apply andb_false_iff; right; apply Z.leb_gt; lia]).
  rewrite (proj2 (Z.eqb_neq c 45)), (proj2 (Z.eqb_neq c 43)) by lia.
  assert (match ds' ++ r with x :: s' => if (b =? 16) && (c =? 48) && ((x =? 120) || (x =? 88)) then s' else c :: ds' ++ r
    | [] => c :: ds' ++ r end = c :: ds' ++ r) as ->.
  { destruct (ds' ++ r) as [|x l]; [done|]. simpl in Hx. rewrite (proj2 (Z.eqb_neq x 120)), (proj2 (Z.eqb_neq x 88)) by lia.
    by rewrite andb_false_r. }
  destruct Hd as [d ->]. rewrite Hr. by rewrite (proj2 (Z.leb_gt _ _)) by lia.
Qed.
Lemma hex_pad_code w n : 0 <= n → Forall hex_code (hex_pad w n).
Proof. intros Hn. apply Forall_app. split; [apply Forall_replicate; left; lia|by apply hexs_code]. Qed.
Lemma hexs_cons n : ∃ c l, hexs n = c :: l.
Proof.
  unfold hexs, fmt_x. destruct (digits_head 63 16 n EmptyString) as (c & l & ->). rewrite codes_cons. eauto.
Qed.
Lemma scan_hex w n r :
  is_u64 n → no_digit_of 16 r → from_option (λ c, c ≠ 120 ∧ c ≠ 88) True (head r) →
  scan_int 16 (hex_pad w n ++ r) = Some (n, r).
Proof.
  intros Hn Hr Hx. pose proof (hex_pad_code w n ltac:(apply Hn)) as Hc. apply scan_int_plain; [|..|done].
  - assert (∃ c l, hex_pad w n = c :: l) as (c & l & E).
    { unfold hex_pad. destruct (w - length (hexs n))%nat; [apply hexs_cons|by eexists _, _]. }
    rewrite E in *. apply Forall_cons in Hc as [Hc _]. exists c, l. rewrite digit_hex by done. unfold hex_code in Hc.
    split_and!; [done|lia|eauto].
  - destruct (hex_pad w n) as [|c [|c' l]]; [done..|]. apply Forall_cons in Hc as [_ Hc]. apply Forall_cons in Hc as [Hc _].
    simpl. unfold hex_code in Hc. lia.
  - unfold hex_pad. rewrite <-(assoc_L (++)), read_int_zeros. unfold hexs.
    rewrite read_int_hex by (done || by apply hexs_code, Hn). by rewrite numeral_fmt_x.
Qed.
Lemma scan_dec n r :
  is_u64 n → no_digit_of 10 r → from_option (λ c, c ≠ 120 ∧ c ≠ 88) True (head r) →
  scan_int 10 (codes (fmt_u n) ++ r) = Some (n, r).
Proof.
  intros Hn Hr Hx. assert (Forall (λ c, 48 <= c <= 57) (codes (fmt_u n))) as Hd.
  { assert (all_digits (fmt_u n)) as Ha by (apply all_digits_digits; [apply Hn|done]).
    revert Ha. generalize (fmt_u n). intros s. induction s as [|c s IH]; intros Ha; [constructor|]. destruct Ha as (H1 & H2 & H3).
    rewrite codes_cons. constructor; [|by apply IH]. unfold char_digit in H1. cbv zeta in H1. case_match; lia. }
  apply scan_int_plain; [|..|done].
  - unfold fmt_u in *. destruct (digits_head 63 10 n EmptyString) as (c & l & E). rewrite E in *. rewrite codes_cons in *.
    apply Forall_cons in Hd as [Hc _]. eexists _, _. split_and!; [done|lia|]. unfold digit.
    rewrite (proj2 (Z.leb_le 48 _)), (proj2 (Z.leb_le _ 57)) by lia. cbn [andb]. rewrite (proj2 (Z.ltb_lt _ 10)) by lia. eauto.
  - destruct (codes (fmt_u n)) as [|c [|c' l]]; [done..|]. apply Forall_cons in Hd as [_ Hd]. apply Forall_cons in Hd as [Hd _].
    simpl. lia.
  - rewrite read_int_dec by done. by rewrite numeral_fmt_u.
Qed.

Lemma word_spec n w r : Forall (λ c, is_space c = false) w → (length w < n)%nat → word n (w ++ 32 :: r) = (w, 32 :: r).
Proof.
  intros Hw. revert n. induction Hw as [|c w Hc _ IH]; intros [|n] Hn; simpl in Hn; [lia|done|lia|]. cbn [app word].
  by rewrite Hc, IH by lia.
Qed.
Lemma skip_ws_blanks k s : skip_ws (replicate k 32 ++ s) = skip_ws s.
Proof. induction k as [|k IH]; [done|]. exact IH. Qed.
Lemma upto_spec s r : 10 ∉ s → upto 10 (s ++ 10 :: r) = s.
Proof. induction s as [|c s IH]; intros H; [done|]. simpl. rewrite (proj2 (Z.eqb_neq _ _)) by set_solver. f_equal. set_solver. Qed.

Lemma parse_row_text r : krow_ok r → parse_row (row_text r) = Some (krow_span r).
Proof.
  intros [Hr Hhi [Hp1 Hp2] Ho Hma Hmi Hin [Hnl Hhead] _]. unfold parse_row, scan_row, row_text.
  rewrite scan_hex; [|unfold is_u64; lia|done|simpl; lia]. cbn [mbind option_bind scan_char]. rewrite Z.eqb_refl.
  cbn [mbind option_bind]. rewrite scan_hex; [|unfold is_u64; lia|done|simpl; lia]. cbn [mbind option_bind].
  unfold scan_word. change (skip_ws (32 :: ?s)) with (skip_ws s).
  assert (∀ s, skip_ws (k_perms r ++ s) = k_perms r ++ s) as Hs.
  { destruct (k_perms r) as [|c pm]; [done|]. apply Forall_cons in Hp2 as [Hc _]. intros s. simpl. by rewrite Hc. }
  rewrite Hs, word_spec by (done || lia). assert (∃ c pm, k_perms r = c :: pm) as (c & pm & Epm) by (destruct (k_perms r); [done|eauto]).
  rewrite Epm at 1. rewrite <-Epm. cbn [mbind option_bind].
  assert (∀ b s, scan_int b (32 :: s) = scan_int b s) as Hblank by done.
  rewrite !Hblank, scan_hex; [|done|done|simpl; lia]. cbn [mbind option_bind].
  rewrite Hblank, scan_hex; [|done|done|simpl; lia]. cbn [mbind option_bind scan_char]. rewrite Z.eqb_refl. cbn [mbind option_bind].
  rewrite scan_hex; [|done|done|simpl; lia]. cbn [mbind option_bind].
  rewrite Hblank, scan_dec; [|done|done|simpl; lia]. cbn [mbind option_bind]. change (skip_ws (32 :: ?s)) with (skip_ws s).
  rewrite skip_ws_blanks, (proj2 (Z.leb_gt _ _)) by lia. f_equal. unfold row_span, krow_span.
  assert (take 255 (upto 10 (skip_blanks (default [] (Some (skip_ws (k_path r ++ [10])))))) = take 255 (k_path r)) as ->.
  { f_equal. destruct (k_path r) as [|x p] eqn:Ep; [done|]. cbn [app skip_ws default from_option id]. simpl in Hhead.
    rewrite Hhead. unfold skip_blanks. unfold is_space in Hhead. rewrite (proj2 (Z.eqb_neq x 32)) by lia.
    by apply (upto_spec (x :: p) []). }
  repeat case_bool_decide; done.
Qed.

Lemma split_row l r : 10 ∉ l → split_lines (l ++ 10 :: r) = (l ++ [10]) :: split_lines r.
Proof.
  induction l as [|c l IH]; intros H; [done|]. cbn [app split_lines]. rewrite (proj2 (Z.eqb_neq _ _)) by set_solver.
  rewrite IH by set_solver. done.
Qed.
Definition is_line (t : list Z) : Prop := ∃ l, t = l ++ [10] ∧ (10 ∉ l).
Lemma line_app x t : 10 ∉ x → is_line t → is_line (x ++ t).
Proof. intros Hx (l & -> & Hl). exists (x ++ l). split; [by rewrite (assoc_L (++))|set_solver]. Qed.
Lemma line_cons c t : c ≠ 10 → is_line t → is_line (c :: t).
Proof. intros Hc (l & -> & Hl). exists (c :: l). set_solver. Qed.
Lemma no_newline (P : Z → Prop) l : Forall P l → ¬ P 10 → 10 ∉ l.
Proof. rewrite Forall_forall. intros H Hn Hin. by apply Hn, H. Qed.
Lemma row_text_line r : krow_ok r → is_line (row_text r).
Proof.
  intros [Hr Hhi [_ Hp] Ho Hma Hmi Hin [Hnl _] _]. unfold is_u64 in *.
  assert (∀ w n, 0 <= n → 10 ∉ hex_pad w n) as Hx.
  { intros w n Hn. eapply no_newline; [by apply hex_pad_code|]. unfold hex_code. lia. }
  unfold row_text.
  apply line_app; [apply Hx; lia|]. apply line_cons; [done|]. apply line_app; [apply Hx; lia|]. apply line_cons; [done|].
  apply line_app; [by eapply no_newline|]. apply line_cons; [done|]. apply line_app; [apply Hx; lia|]. apply line_cons; [done|].
  apply line_app; [apply Hx; lia|]. apply line_cons; [done|]. apply line_app; [apply Hx; lia|]. apply line_cons; [done|].
  apply line_app.
  { eapply no_newline; [apply all_digits_printable, all_digits_digits; [lia|done]|]. unfold printable. lia. }
  apply line_cons; [done|]. apply line_app; [eapply (no_newline (λ c, c = 32)); [by apply Forall_replicate|done]|].
  exists (k_path r). done.
Qed.
Lemma split_rows rows : Forall krow_ok rows → split_lines (concat (row_text <$> rows)) = row_text <$> rows.
Proof.
  induction 1 as [|r rows Hr _ IH]; [done|]. rewrite !fmap_cons. cbn [concat].
  destruct (row_text_line r Hr) as (l & -> & Hl). rewrite <-(assoc_L (++)). cbn [app]. by rewrite split_row, IH.
Qed.
Lemma row_line r : krow_ok r → (if whole (row_text r) then parse_row (row_text r) else None) = Some (krow_span r).
Proof.
  intros Hr. assert (whole (row_text r) = true) as ->; [|by apply parse_row_text].
  unfold whole. destruct (row_text_line r Hr) as (l & E & _). rewrite E, bool_decide_true by (by rewrite last_snoc).
  rewrite <-E. apply Nat.leb_le, Hr.
Qed.

Lemma parse_loop_rows rows sp cap total :
  Forall krow_ok rows →
  parse_loop always (row_text <$> rows) sp cap total = (sp ++ (krow_span <$> rows), total + Z.of_nat (length rows)).
Proof.
  intros H. revert sp cap total. induction H as [|r rows Hr _ IH]; intros sp cap total.
  - cbn. by rewrite app_nil_r, Z.add_0_r.
  - rewrite fmap_cons. cbn [parse_loop]. rewrite row_line by done. cbn [always]. rewrite fmap_cons.
    destruct (_ =? _); rewrite IH, <-(assoc_L (++)); cbn [app length]; f_equal; lia.
Qed.
#[export] Instance rank_le_trans : Transitive (cmp_le asmspy_vmmap_rank).
Proof.
  intros x y z. unfold cmp_le, asmspy_vmmap_rank.
  generalize (executable x) (executable y) (executable z) (len x) (len y) (len z) (base x) (base y) (base z). intros.
  repeat match goal with
  | H : context [?a =? ?b] |- _ => destruct (Z.eqb_spec a b)
  | H : context [?a <? ?b] |- _ => destruct (Z.ltb_spec a b)
  | |- context [?a =? ?b] => destruct (Z.eqb_spec a b)
  | |- context [?a <? ?b] => destruct (Z.ltb_spec a b)
  end; cbn [negb] in *; lia.
Qed.

(** The map of a process is read back. For the text the kernel writes, the
    parser counts every row and returns its address, length, permissions, path and
    base name, ranked: executable rows first, then the longer, then the lower; the
    cap of 256 is applied after the ranking, so what it drops ranks behind what it
    keeps. *)
Theorem vmmap_parse_exact (qsort : list vmspan → list vmspan) `{!QSort asmspy_vmmap_rank qsort} rows
    (Hrows : Forall krow_ok rows) :
  ∃ sp, asmspy_vmmap_parse always qsort (Some (concat (row_text <$> rows))) =
      Some (take ASMSPY_VMMAP_CAP sp, Z.of_nat (length rows)) ∧
    sp ≡ₚ krow_span <$> rows ∧ StronglySorted (cmp_le asmspy_vmmap_rank) sp.
Proof.
  exists (qsort (krow_span <$> rows)). split_and!.
  - unfold asmspy_vmmap_parse. cbn [mbind option_bind always]. by rewrite split_rows, parse_loop_rows.
  - apply qsort_perm.
  - apply Sorted_StronglySorted; [apply _|]. apply qsort_sorted.
Qed.

(** A refused [realloc] stops the count. When the table cannot grow past its
    first 128 rows, the total is 129 however many rows the map has: the rest is
    neither kept nor counted. *)
Theorem vmmap_oom_stops_count (qsort : list vmspan → list vmspan) `{!QSort asmspy_vmmap_rank qsort} grant rows
    (Hrows : Forall krow_ok rows) (Hlong : (128 < length rows)%nat)
    (Hfirst : grant (128 * sizeof_vmspan) = true) (Hmore : grant (256 * sizeof_vmspan) = false) :
  snd <$> asmspy_vmmap_parse grant qsort (Some (concat (row_text <$> rows))) = Some 129.
Proof.
  unfold asmspy_vmmap_parse. cbn [mbind option_bind]. rewrite Hfirst, split_rows by done.
  assert (∀ rs sp, Forall krow_ok rs → (128 < length sp + length rs)%nat → (length sp <= 128)%nat →
    (parse_loop grant (row_text <$> rs) sp 128 (Z.of_nat (length sp))).2 = 129) as H.
  { induction rs as [|r rs IH]; intros sp Hr Hl Hs; [simpl in Hl; lia|]. apply Forall_cons in Hr as [Hr Hrs]. rewrite fmap_cons.
    cbn [parse_loop]. rewrite row_line by done. destruct (Z.eqb_spec (Z.of_nat (length sp)) 128) as [E|E].
    - change (128 * 2 * sizeof_vmspan) with (256 * sizeof_vmspan). rewrite Hmore. simpl. lia.
    - specialize (IH (sp ++ [krow_span r])). rewrite length_app in IH. cbn [length] in *.
      replace (Z.of_nat (length sp + 1)) with (Z.of_nat (length sp) + 1) in IH by lia. apply IH; [done|lia|lia]. }
  specialize (H rows [] Hrows ltac:(simpl; lia) ltac:(simpl; lia)). cbn [length Z.of_nat] in H.
  destruct (parse_loop _ _ _ _ _) as [sp total]. cbn [snd] in H. by subst.
Qed.

(** ** On concrete maps *)
Lemma rank_total : Total (cmp_le asmspy_vmmap_rank).
Proof.
  intros x y. unfold cmp_le, asmspy_vmmap_rank.
  generalize (executable x) (executable y) (len x) (len y) (base x) (base y). intros.
  repeat match goal with
  | |- context [?a =? ?b] => destruct (Z.eqb_spec a b)
  | |- context [?a <? ?b] => destruct (Z.ltb_spec a b)
  end; cbn [negb] in *; lia.
Qed.
Lemma rank_msort : QSort asmspy_vmmap_rank (msort asmspy_vmmap_rank).
Proof. apply msort_QSort, rank_total. Qed.
Definition demo_heap : krow := mk_krow 0x10000 0x21000 (codes "rw-p") 0 0 0 0 20 (codes "[heap]").
Definition demo_libc : krow := mk_krow 0x7f0000000000 0x7f0000001000 (codes "r-xp") 4096 8 1 77 20 (codes "/usr/lib/libc.so.6").
Definition demo_anon : krow := mk_krow 0x30000 0x34000 (codes "---p") 0 0 0 0 0 [].
Ltac krow_ok_concrete :=
  split; try (unfold is_u64; cbn; lia); try (vm_compute; lia);
  [split; [done|]; repeat (apply Forall_cons; split; [done|]); apply Forall_nil_2
  |split; [apply (bool_decide_unpack _); vm_compute; exact I|done]].
Lemma demo_rows_ok : Forall krow_ok [demo_heap; demo_libc; demo_anon].
Proof. repeat (apply Forall_cons; split; [krow_ok_concrete|]). apply Forall_nil_2. Qed.

Lemma vmmap_parse_exact_witness :
  ∃ sp, asmspy_vmmap_parse always (msort asmspy_vmmap_rank) (Some (concat (row_text <$> [demo_heap; demo_libc; demo_anon]))) =
      Some (take ASMSPY_VMMAP_CAP sp, 3) ∧ sp ≡ₚ krow_span <$> [demo_heap; demo_libc; demo_anon] ∧
      sname <$> head sp = Some (codes "libc.so.6").
Proof.
  destruct (vmmap_parse_exact (msort asmspy_vmmap_rank) (QSort0 := rank_msort) _ demo_rows_ok) as (sp & E & Hp & Hs).
  exists sp. split_and!; [exact E|exact Hp|].
  assert (take ASMSPY_VMMAP_CAP sp = krow_span <$> [demo_libc; demo_heap; demo_anon]) as Et.
  { assert (Some (take ASMSPY_VMMAP_CAP sp, 3) = Some (krow_span <$> [demo_libc; demo_heap; demo_anon], 3)) as E'; [|congruence].
    etrans; [symmetry; exact E|]. vm_compute. reflexivity. }
  destruct sp as [|v sp]; [done|]. cbn [head fmap option_fmap option_map]. injection Et as -> _. reflexivity.
Defined.

(** "ab" and "c" are not "a" and "bc". *)
Definition span_ab_c : vmspan := mk_span 0x1000 0x1000 (codes "r-xp") (codes "ab") (codes "c").
Definition span_a_bc : vmspan := mk_span 0x1000 0x1000 (codes "r-xp") (codes "a") (codes "bc").
Lemma vmmap_digest_exact_witness :
  asmspy_vmmap_digest (replicate 64 0) [span_ab_c] 1 true =
    foldr (λ b acc, Sha256.hex2 b +:+ acc)%string EmptyString (Sha256.SHA256 (encoding [span_ab_c] 1 true)) ∧
  encoding [span_a_bc] 1 true ≠ encoding [span_ab_c] 1 true.
Proof.
  assert (∀ v, span_plain v ↔ is_u64 (base v) ∧ is_u64 (len v) ∧ (0 ∉ perms v) ∧ (0 ∉ sname v) ∧ (0 ∉ path v)) as Hp by done.
  destruct (vmmap_digest_exact (replicate 64 0) [span_ab_c] 1 true) as [H1 H2]; [done| |unfold is_u64; lia|].
  - apply Forall_singleton, Hp. split_and!; apply (bool_decide_unpack _); vm_compute; exact I.
  - split; [exact H1|]. intros E. apply H2 in E as [E _]; [done| |unfold is_u64; lia].
    apply Forall_singleton, Hp. split_and!; apply (bool_decide_unpack _); vm_compute; exact I.
Defined.

Lemma vmmap_oom_stops_count_witness :
  snd <$> asmspy_vmmap_parse (λ n, n <=? 128 * sizeof_vmspan) (msort asmspy_vmmap_rank)
    (Some (concat (row_text <$> replicate 500 demo_anon))) = Some 129.
Proof.
  apply (vmmap_oom_stops_count (msort asmspy_vmmap_rank) (QSort0 := rank_msort)); [|rewrite length_replicate; lia|done|done].
  apply Forall_replicate. pose proof demo_rows_ok as H. rewrite !Forall_cons in H. apply H.
Defined.
End VmMap.
