(* ===== verification/Elf.v ===== *)
(** ELF images as the process spy reads them ([cli/asmspy_proc.c]): the section
    table, names, notes, separate debug files with their keys, and the function
    symbols of a module.  A file is its bytes; a load that leaves the mapping is
    [None], so a result of the form [Some _] is a run all of whose reads are in
    bounds. *)
From S2P Require Import Prelude Bytes Format Json VmMap.
Import Json.

Module Elf.
Open Scope Z_scope.

Definition flen (f : list Z) : Z := Z.of_nat (length f).

(** ** The structures of [elf.h] *)
Record ehdr := mk_ehdr {
  e_type : Z; e_phoff : Z; e_shoff : Z; e_phentsize : Z; e_phnum : Z;
  e_shentsize : Z; e_shnum : Z; e_shstrndx : Z }.
Record shdr := mk_shdr {
  sh_name : Z; sh_type : Z; sh_addr : Z; sh_offset : Z; sh_size : Z; sh_link : Z; sh_entsize : Z }.
Record phdr := mk_phdr { p_type : Z; p_offset : Z; p_vaddr : Z }.
Record esym := mk_esym { st_name : Z; st_info : Z; st_shndx : Z; st_value : Z; st_size : Z }.
Record rela := mk_rela { r_info : Z }.
Record nhdr := mk_nhdr { n_namesz : Z; n_descsz : Z; n_type : Z }.
Definition sizeof_ehdr : Z := 64.
Definition sizeof_shdr : Z := 64.
Definition sizeof_phdr : Z := 56.
Definition sizeof_sym : Z := 24.
Definition sizeof_rela : Z := 24.
Definition sizeof_nhdr : Z := 12.

Definition ELFMAG : list Z := [127; 69; 76; 70].
Definition ELFCLASS32 : Z := 1.
Definition ELFCLASS64 : Z := 2.
Definition SHT_SYMTAB : Z := 2.
Definition SHT_RELA : Z := 4.
Definition SHT_NOBITS : Z := 8.
Definition SHT_DYNSYM : Z := 11.
Definition STT_FUNC : Z := 2.
Definition PT_LOAD : Z := 1.
Definition NT_GNU_BUILD_ID : Z := 3.
Definition R_X86_64_JUMP_SLOT : Z := 7.
Definition PATH_MAX : nat := 4096.

Definition ld_ehdr (f : list Z) : option ehdr :=
  ty ← ld_u16 f 16; ph ← ld_u64 f 32; sh ← ld_u64 f 40; pes ← ld_u16 f 54; pn ← ld_u16 f 56;
  ses ← ld_u16 f 58; sn ← ld_u16 f 60; sx ← ld_u16 f 62;
  Some (mk_ehdr ty ph sh pes pn ses sn sx).
Definition ld_shdr (f : list Z) (o : Z) : option shdr :=
  nm ← ld_u32 f o; ty ← ld_u32 f (o + 4); ad ← ld_u64 f (o + 16); fo ← ld_u64 f (o + 24);
  sz ← ld_u64 f (o + 32); lk ← ld_u32 f (o + 40); es ← ld_u64 f (o + 56);
  Some (mk_shdr nm ty ad fo sz lk es).
Definition ld_phdr (f : list Z) (o : Z) : option phdr :=
  ty ← ld_u32 f o; fo ← ld_u64 f (o + 8); va ← ld_u64 f (o + 16);
  Some (mk_phdr ty fo va).
Definition ld_sym (f : list Z) (o : Z) : option esym :=
  nm ← ld_u32 f o; inf ← ld 1 f (o + 4); sx ← ld_u16 f (o + 6); v ← ld_u64 f (o + 8); sz ← ld_u64 f (o + 16);
  Some (mk_esym nm inf sx v sz).
Definition ld_rela (f : list Z) (o : Z) : option rela := inf ← ld_u64 f (o + 8); Some (mk_rela inf).
Definition ld_nhdr (f : list Z) (o : Z) : option nhdr :=
  a ← ld_u32 f o; b ← ld_u32 f (o + 4); c ← ld_u32 f (o + 8); Some (mk_nhdr a b c).

(** ** Section table *)
Definition elf_ok (f : list Z) : option bool :=
  if flen f <? sizeof_ehdr then Some false else
  id ← sub_bytes f 0 16;
  eh ← ld_ehdr f;
  if negb (bool_decide (take 4 id = ELFMAG)) || negb (bool_decide (id !! 4%nat = Some ELFCLASS64)) then Some false
  else if (e_shoff eh =? 0) || (e_shentsize eh <? sizeof_shdr) then Some false
  else Some (negb ((flen f <? e_shoff eh) || ((flen f - e_shoff eh) / e_shentsize eh <? e_shnum eh))).

(** [ASMSPY_SHDR] *)
Definition shdr_at (f : list Z) (eh : ehdr) (i : Z) : option shdr :=
  ld_shdr f (e_shoff eh +64 (i *64 e_shentsize eh)).

(** [memchr] for the terminator: the bytes before it, if there is one. *)
Fixpoint before_nul (s : list Z) : option (list Z) :=
  match s with
  | [] => None
  | c :: s => if c =? 0 then Some [] else (λ r, c :: r) <$> before_nul s
  end.
(** A string table: its place in the file, its size cut to the file. *)
Definition clamp (f : list Z) (s : shdr) : Z :=
  if sh_size s <=? flen f - sh_offset s then sh_size s else flen f - sh_offset s.
Definition name_at (f : list Z) (tab : shdr) (nm : Z) : option (option (list Z)) :=
  if clamp f tab <=? nm then Some None else
  before_nul <$> sub_bytes f (sh_offset tab +64 nm) (clamp f tab - nm).

(** [for (i = 0; i < n; i++)] with a state; the body may end the loop. *)
Fixpoint for_loop {A} (n : nat) (i : Z) (body : Z → A → option (bool * A)) (a : A) : option (bool * A) :=
  match n with
  | O => Some (true, a)
  | S n =>
      '(go, a) ← body i a;
      if (go : bool) then for_loop n (i + 1) body a else Some (false, a)
  end.

(** The header and the bytes of a section; the inner [None] is a null result. *)
Definition find_section (f : list Z) (want : list Z) : option (option (shdr * list Z)) :=
  ok ← elf_ok f;
  if negb ok then Some None else
  eh ← ld_ehdr f;
  if (e_shstrndx eh =? 0) || (e_shnum eh <=? e_shstrndx eh) then Some None else
  shstr ← shdr_at f eh (e_shstrndx eh);
  if flen f <=? sh_offset shstr then Some None else
  '(_, r) ← for_loop (Z.to_nat (e_shnum eh)) 0 (λ i _,
    s ← shdr_at f eh i;
    nm ← name_at f shstr (sh_name s);
    match nm with
    | None => Some (true, None)
    | Some nm =>
        if negb (bool_decide (nm = want)) then Some (true, None)
        else if (sh_type s =? SHT_NOBITS) || (flen f <=? sh_offset s) || (flen f - sh_offset s <? sh_size s)
             then Some (false, None)
             else d ← sub_bytes f (sh_offset s) (sh_size s); Some (false, Some (s, d))
    end) None;
  Some r.

(** ** Keys of a separate debug file *)
Definition GNU : list Z := [71; 78; 85; 0].
(** [(n + 3) & ~3] *)
Definition align4 (n : Z) : Z := Z.land (n + 3) (2 ^ 64 - 4).
(** Every note takes at least the bytes of its header, so the section's length is
    enough rounds. *)
Fixpoint note_loop (fuel : nat) (nd : list Z) (outcap p : Z) : option (list Z) :=
  match fuel with
  | O => None
  | S fuel =>
      if Z.of_nat (length nd) <? p + sizeof_nhdr then Some [] else
      nh ← ld_nhdr nd p;
      let rest := Z.of_nat (length nd) - p - sizeof_nhdr in
      let np := align4 (n_namesz nh) in
      if rest <? np then Some [] else
      let dp := align4 (n_descsz nh) in
      if rest - np <? dp then Some [] else
      let name := p + sizeof_nhdr in
      let skip := note_loop fuel nd outcap (p + sizeof_nhdr + np + dp) in
      if (n_type nh =? NT_GNU_BUILD_ID) && (n_namesz nh =? 4) then
        nm ← sub_bytes nd name 4;
        if bool_decide (nm = GNU) && negb (n_descsz nh =? 0) && (n_descsz nh <=? outcap)
        then sub_bytes nd (name + np) (n_descsz nh) else skip
      else skip
  end.
(** The note's bytes, none when there is no such note. *)
Definition elf_build_id (f : list Z) (outcap : Z) : option (list Z) :=
  s ← find_section f (codes ".note.gnu.build-id");
  match s with None => Some [] | Some (_, nd) => note_loop (S (length nd)) nd outcap 0 end.

(** The file name and the checksum of [.gnu_debuglink]; the inner [None] is the
    error return. *)
Definition elf_debuglink (f : list Z) (namecap : Z) : option (option (list Z * Z)) :=
  s ← find_section f (codes ".gnu_debuglink");
  match s with
  | None => Some None
  | Some (_, d) =>
      match before_nul d with
      | None => Some None
      | Some name =>
          let nlen := Z.of_nat (length name) in
          let dlen := Z.of_nat (length d) in
          if (nlen =? 0) || (namecap <=? nlen) then Some None else
          let crcoff := Z.land (nlen + 4) (2 ^ 64 - 4) in
          if (dlen <? 4) || (dlen - 4 <? crcoff) then Some None else
          crc ← ld_u32 d crcoff; Some (Some (name, crc))
      end
  end.

(** ** CRC-32 *)
Definition CRC_POLY : Z := 0xedb88320.
Definition crc_bit (c : Z) : Z :=
  if Z.land c 1 =? 1 then Z.lxor CRC_POLY (Z.shiftr c 1) else Z.shiftr c 1.
Definition crc_tab : list Z := (λ i, Nat.iter 8 crc_bit (Z.of_nat i)) <$> seq 0 256.
Definition crc_step (tab : list Z) (crc b : Z) : Z :=
  Z.lxor (tab !!! Z.to_nat (Z.land (Z.lxor crc b) 255)) (Z.shiftr crc 8).
Definition crc32 (m : list Z) : Z := Z.lxor (foldl (crc_step crc_tab) 0xffffffff m) 0xffffffff.

(** ** The file system *)
(** The readable regular files, by path. *)
Abbreviation files := (list Z → option (list Z)).
Definition map_file (fs : files) (path : list Z) : option (list Z) :=
  f ← fs path; if flen f <? sizeof_ehdr then None else Some f.
(** [snprintf] into a buffer of [cap] bytes. *)
Definition sn (cap : nat) (s : list Z) : list Z := take (cap - 1) s.

Definition crc32_file (fs : files) (path : list Z) : option Z := crc32 <$> map_file fs path.
Definition debug_id_matches (fs : files) (path id : list Z) : option bool :=
  match map_file fs path with
  | None => Some false
  | Some m => got ← elf_build_id m 64; Some (bool_decide (got = id))
  end.

(** The class of the main executable: 32, 64, or 0 when it cannot be told. *)
Definition asmspy_elf_class (fs : files) (exe : list Z) : option Z :=
  match map_file fs exe with
  | None => Some 0
  | Some f =>
      if flen f <? 16 then Some 0 else
      id ← sub_bytes f 0 16;
      Some (if negb (bool_decide (take 4 id = ELFMAG)) then 0
            else if bool_decide (id !! 4%nat = Some ELFCLASS32) then 32
            else if bool_decide (id !! 4%nat = Some ELFCLASS64) then 64 else 0)
  end.

Definition hex2 (b : Z) : list Z :=
  let d x := if x <? 10 then 48 + x else 87 + x in [d (b / 16); d (b mod 16)].
Definition SLASH : Z := 47.
(** What is before the last slash, nothing when there is none. *)
Definition dir_of (s : list Z) : list Z :=
  if bool_decide (SLASH ∈ s) then take (length s - length (VmMap.behind SLASH s) - 1) s else [].

(** The candidates of a debug link, in order. *)
Definition link_cands (debug_dir dir bn : list Z) : list (list Z) :=
  [dir ++ [SLASH] ++ bn; dir ++ codes "/.debug/" ++ bn; debug_dir ++ dir ++ [SLASH] ++ bn].
Fixpoint try_links (fs : files) (want : Z) (cands : list (list Z)) : option (list Z) :=
  match cands with
  | [] => None
  | c :: cands =>
      if (PATH_MAX <=? length c)%nat then try_links fs want cands else
      match crc32_file fs c with
      | Some got => if got =? want then Some c else try_links fs want cands
      | None => try_links fs want cands
      end
  end.
(** The path of the debug file; the inner [None] is the error return. *)
Definition find_debug_file (fs : files) (debug_dir : list Z) (f modpath : list Z) : option (option (list Z)) :=
  id ← elf_build_id f 64;
  let cand := debug_dir ++ codes "/.build-id/" ++ concat (hex2 <$> take 1 id) ++ [SLASH]
              ++ concat (hex2 <$> drop 1 id) ++ codes ".debug" in
  by_id ← (if (2 <=? length id)%nat && (length cand <? PATH_MAX)%nat then debug_id_matches fs cand id else Some false);
  if (by_id : bool) then Some (Some cand) else
  lk ← elf_debuglink f (Z.of_nat PATH_MAX);
  match lk with
  | None => Some None
  | Some (link, want) =>
      let bn := VmMap.behind SLASH link in
      if bool_decide (bn = []) || bool_decide (bn = codes ".") || bool_decide (bn = codes "..") then Some None
      else Some (try_links fs want (link_cands debug_dir (dir_of (sn PATH_MAX modpath)) bn))
  end.

(** ** Reads inside the file *)
(** A mapped file: bytes, of a size an [off_t] holds. *)
Definition mapped (f : list Z) : Prop := Forall is_byte f ∧ flen f < 2 ^ 63.

Lemma ld_some n f o : Forall is_byte f → 0 <= o → o + Z.of_nat n <= flen f →
  ∃ v, ld n f o = Some v ∧ 0 <= v < 256 ^ Z.of_nat n.
Proof. intros. rewrite ld_in by done. eexists. split; [done|]. by apply field_range. Qed.

(** Steps through the next load of the goal. *)
Ltac load v :=
  let E := fresh "E" in let R := fresh "R" in
  match goal with
  | |- context [ld ?n ?f ?o] =>
      destruct (ld_some n f o) as (v & E & R); [done|cbn; lia|cbn; unfold flen in *; lia|];
      rewrite E; cbn [mbind option_bind]
  end.
Ltac loads := repeat (let v := fresh "v" in load v).

Record shdr_ok (s : shdr) : Prop := {
  so_name : is_u32 (sh_name s); so_type : is_u32 (sh_type s); so_addr : is_u64 (sh_addr s);
  so_offset : is_u64 (sh_offset s); so_size : is_u64 (sh_size s); so_link : is_u32 (sh_link s);
  so_entsize : is_u64 (sh_entsize s) }.

Lemma ld_ehdr_some f : Forall is_byte f → sizeof_ehdr <= flen f →
  ∃ eh, ld_ehdr f = Some eh ∧ is_u64 (e_phoff eh) ∧ is_u64 (e_shoff eh) ∧ 0 <= e_phentsize eh < 2 ^ 16 ∧
        0 <= e_phnum eh < 2 ^ 16 ∧ 0 <= e_shentsize eh < 2 ^ 16 ∧ 0 <= e_shnum eh < 2 ^ 16 ∧ 0 <= e_shstrndx eh < 2 ^ 16.
Proof.
  unfold sizeof_ehdr, ld_ehdr, ld_u16, ld_u64. intros. loads. eexists. split; [done|]. unfold is_u64. cbn in *. lia.
Qed.

Lemma ld_shdr_some f o : Forall is_byte f → 0 <= o → o + sizeof_shdr <= flen f →
  ∃ s, ld_shdr f o = Some s ∧ shdr_ok s.
Proof.
  unfold sizeof_shdr, ld_shdr, ld_u32, ld_u64. intros. loads. eexists. split; [done|].
  split; unfold is_u64, is_u32; cbn in *; lia.
Qed.

Lemma ld_sym_some f o : Forall is_byte f → 0 <= o → o + sizeof_sym <= flen f →
  ∃ s, ld_sym f o = Some s ∧ is_u32 (st_name s) ∧ is_u64 (st_value s) ∧ is_u64 (st_size s).
Proof.
  unfold sizeof_sym, ld_sym, ld_u16, ld_u32, ld_u64. intros. loads. eexists. split; [done|].
  unfold is_u64, is_u32; cbn in *; lia.
Qed.
Lemma ld_phdr_some f o : Forall is_byte f → 0 <= o → o + sizeof_phdr <= flen f →
  ∃ p, ld_phdr f o = Some p ∧ is_u64 (p_vaddr p).
Proof.
  unfold sizeof_phdr, ld_phdr, ld_u32, ld_u64. intros. loads. eexists. split; [done|]. unfold is_u64; cbn in *; lia.
Qed.
Lemma ld_rela_some f o : Forall is_byte f → 0 <= o → o + sizeof_rela <= flen f →
  ∃ r, ld_rela f o = Some r ∧ is_u64 (r_info r).
Proof.
  unfold sizeof_rela, ld_rela, ld_u64. intros. loads. eexists. split; [done|]. unfold is_u64; cbn in *; lia.
Qed.
Lemma ld_nhdr_some f o : Forall is_byte f → 0 <= o → o + sizeof_nhdr <= flen f →
  ∃ h, ld_nhdr f o = Some h ∧ is_u32 (n_namesz h) ∧ is_u32 (n_descsz h).
Proof.
  unfold sizeof_nhdr, ld_nhdr, ld_u32. intros. loads. eexists. split; [done|]. unfold is_u32; cbn in *; lia.
Qed.

Lemma sub_some f o n : 0 <= o → 0 <= n → o + n <= flen f →
  ∃ bs, sub_bytes f o n = Some bs ∧ Z.of_nat (length bs) = n ∧ (Forall is_byte f → Forall is_byte bs).
Proof.
  intros. destruct (sub_bytes_in f o n) as (bs & -> & Hl & Hb); [done|done|done|].
  exists bs. split_and!; [done|lia|done].
Qed.

(** What [elf_ok] establishes: the section table lies in the file. *)
Record table_ok (f : list Z) (eh : ehdr) : Prop := {
  to_mapped : mapped f;
  to_shoff : 0 <= e_shoff eh;
  to_ents : sizeof_shdr <= e_shentsize eh < 2 ^ 16;
  to_num : 0 <= e_shnum eh < 2 ^ 16;
  to_in : e_shoff eh + e_shnum eh * e_shentsize eh <= flen f;
  to_strndx : 0 <= e_shstrndx eh;
  to_phoff : is_u64 (e_phoff eh);
  to_phents : 0 <= e_phentsize eh < 2 ^ 16;
  to_phnum : 0 <= e_phnum eh < 2 ^ 16 }.

Lemma elf_ok_spec f : mapped f →
  elf_ok f = Some false ∨
  elf_ok f = Some true ∧ ∃ eh, ld_ehdr f = Some eh ∧ table_ok f eh.
Proof.
  intros Hm. pose proof Hm as [Hb Hl]. unfold elf_ok. destruct (Z.ltb_spec (flen f) sizeof_ehdr) as [|H64]; [by left|].
  destruct (sub_some f 0 16) as (id & Hid & _); [lia..|unfold sizeof_ehdr in *; lia|].
  destruct (ld_ehdr_some f Hb H64) as (eh & Heh & R). rewrite Hid, Heh. cbn [mbind option_bind].
  destruct (_ || _); [by left|]. destruct (e_shoff eh =? 0) eqn:E0; [by left|].
  destruct (Z.ltb_spec (e_shentsize eh) sizeof_shdr) as [|Hes]; [by left|]. cbn [orb].
  destruct (Z.ltb_spec (flen f) (e_shoff eh)); [by left|].
  destruct (Z.ltb_spec ((flen f - e_shoff eh) / e_shentsize eh) (e_shnum eh)) as [|Hn]; [by left|].
  right. split; [done|]. exists eh. split; [done|]. unfold sizeof_shdr in *.
  split; unfold sizeof_shdr; try tauto || lia; [unfold is_u64 in *; lia|].
  pose proof (Z.mul_div_le (flen f - e_shoff eh) (e_shentsize eh) ltac:(lia)).
  pose proof (Z.mul_le_mono_nonneg_l _ _ (e_shentsize eh) ltac:(lia) Hn). lia.
Qed.

Lemma shdr_at_some f eh i : table_ok f eh → 0 <= i < e_shnum eh → ∃ s, shdr_at f eh i = Some s ∧ shdr_ok s.
Proof.
  intros [[Hb Hl] ? [He ?] ? Hin _ _ _ _] Hi. unfold shdr_at. unfold sizeof_shdr in *.
  assert (0 <= i * e_shentsize eh ∧ i * e_shentsize eh + e_shentsize eh <= e_shnum eh * e_shentsize eh) by nia.
  rewrite (u64_small (i * _)), (u64_small (_ + _)) by lia.
  apply ld_shdr_some; [done|lia|unfold sizeof_shdr; lia].
Qed.

Lemma name_at_some f tab nm : mapped f → shdr_ok tab → sh_offset tab < flen f → 0 <= nm → ∃ r, name_at f tab nm = Some r.
Proof.
  intros [Hb Hl] [] Ho Hn. unfold is_u64 in *. unfold name_at. destruct (Z.leb_spec (clamp f tab) nm) as [|Hlt]; [eauto|].
  assert (0 <= clamp f tab ∧ clamp f tab <= flen f - sh_offset tab).
  { unfold clamp. destruct (Z.leb_spec (sh_size tab) (flen f - sh_offset tab)); lia. }
  rewrite u64_small by lia. destruct (sub_some f (sh_offset tab + nm) (clamp f tab - nm)) as (bs & -> & _); [lia..|].
  simpl. eauto.
Qed.

(** A loop whose body keeps an invariant and stays in bounds does the same. *)
Lemma for_loop_some {A} (P : A → Prop) n lo (body : Z → A → option (bool * A)) a :
  (∀ i a, lo <= i < lo + Z.of_nat n → P a → ∃ go a', body i a = Some (go, a') ∧ P a') → P a →
  ∃ go a', for_loop n lo body a = Some (go, a') ∧ P a'.
Proof.
  revert lo a. induction n as [|n IH]; intros lo a Hb Ha; cbn [for_loop]; [eauto|].
  destruct (Hb lo a) as (go & a' & -> & Ha'); [lia|done|]. cbn [mbind option_bind].
  destruct go; [|eauto]. apply IH; [|done]. intros i x Hi. apply Hb. lia.
Qed.

Lemma find_section_some f want : mapped f →
  ∃ r, find_section f want = Some r ∧ (∀ s d, r = Some (s, d) → Forall is_byte d).
Proof.
  intros Hm. unfold find_section. destruct (elf_ok_spec f Hm) as [->|(-> & eh & Heh & Ht)]; cbn [mbind option_bind negb].
  { by eexists. }
  rewrite Heh. cbn [mbind option_bind]. destruct (_ || _) eqn:Ex; [by eexists|].
  apply orb_false_iff in Ex as [_ Hx%Z.leb_gt].
  destruct (shdr_at_some f eh (e_shstrndx eh) Ht) as (shstr & -> & Hs); [pose proof (to_strndx f eh Ht); lia|].
  cbn [mbind option_bind]. destruct (Z.leb_spec (flen f) (sh_offset shstr)) as [|Ho]; [by eexists|].
  edestruct (for_loop_some (λ r : option (shdr * list Z), ∀ s d, r = Some (s, d) → Forall is_byte d))
    as (go & r & -> & Hr); [| |by exists r]; [|done].
  intros i r Hi Hr. pose proof (to_num f eh Ht). destruct (shdr_at_some f eh i Ht) as (s & -> & Hso); [lia|].
  cbn [mbind option_bind].
  destruct (name_at_some f shstr (sh_name s)) as (nm & ->); [done..|apply Hso|]. cbn [mbind option_bind].
  destruct nm as [nm|]; [|by eexists _, None]. destruct (negb _); [by eexists _, None|].
  destruct (_ || _) eqn:Eb; [by eexists _, None|]. apply orb_false_iff in Eb as [[_ H1%Z.leb_gt]%orb_false_iff H2%Z.ltb_ge].
  destruct (sub_some f (sh_offset s) (sh_size s)) as (d & -> & _ & Hd); [apply Hso|apply Hso|lia|].
  cbn [mbind option_bind]. do 2 eexists. split; [done|]. intros ?? [= <- <-]. by apply Hd, Hm.
Qed.

Lemma align4_spec n : 0 <= n < 2 ^ 63 → align4 n = n + 3 - (n + 3) mod 4.
Proof. intros. unfold align4. by rewrite (land_align 2) by lia. Qed.

(** The note walk ends, within the section. *)
Lemma note_loop_some fuel nd outcap p : Forall is_byte nd → 0 <= p <= Z.of_nat (length nd) → 0 <= outcap →
  Z.of_nat (length nd) < p + Z.of_nat fuel →
  ∃ r, note_loop fuel nd outcap p = Some r ∧ Forall is_byte r ∧ Z.of_nat (length r) <= outcap.
Proof.
  revert p. induction fuel as [|fuel IH]; intros p Hb Hp Ho Hf; cbn [note_loop]; [lia|].
  destruct (Z.ltb_spec (Z.of_nat (length nd)) (p + sizeof_nhdr)) as [|Hh]; [by exists []|].
  destruct (ld_nhdr_some nd p) as (nh & -> & Hn & Hd); [done|lia|done|]. cbn [mbind option_bind].
  unfold is_u32, sizeof_nhdr in *.
  pose proof (align4_spec (n_namesz nh) ltac:(lia)) as En. pose proof (align4_spec (n_descsz nh) ltac:(lia)) as Ed.
  destruct (Z.ltb_spec (Z.of_nat (length nd) - p - 12) (align4 (n_namesz nh))) as [|Hnp]; [by exists []|].
  destruct (Z.ltb_spec (Z.of_nat (length nd) - p - 12 - align4 (n_namesz nh)) (align4 (n_descsz nh))) as [|Hdp]; [by exists []|].
  pose proof (Z.mod_pos_bound (n_namesz nh + 3) 4 ltac:(lia)). pose proof (Z.mod_pos_bound (n_descsz nh + 3) 4 ltac:(lia)).
  assert (∃ r, note_loop fuel nd outcap (p + 12 + align4 (n_namesz nh) + align4 (n_descsz nh)) = Some r ∧
               Forall is_byte r ∧ Z.of_nat (length r) <= outcap) as Hskip by (apply IH; [done|lia..]).
  destruct (n_type nh =? NT_GNU_BUILD_ID); [|done]. destruct (Z.eqb_spec (n_namesz nh) 4); [|done]. cbn [andb].
  destruct (sub_some nd (p + 12) 4) as (nm & -> & _); [unfold flen; lia..|]. cbn [mbind option_bind].
  destruct (bool_decide _); [|done]. destruct (n_descsz nh =? 0); [done|]. cbn [andb negb].
  destruct (Z.leb_spec (n_descsz nh) outcap); [|done].
  destruct (sub_some nd (p + 12 + align4 (n_namesz nh)) (n_descsz nh)) as (d & -> & Hl & Hbd); [unfold flen; lia..|].
  exists d. split_and!; [done|auto|lia].
Qed.

Lemma elf_build_id_some f outcap : mapped f → 0 <= outcap →
  ∃ id, elf_build_id f outcap = Some id ∧ Forall is_byte id ∧ Z.of_nat (length id) <= outcap.
Proof.
  intros Hm Ho. unfold elf_build_id. destruct (find_section_some f (codes ".note.gnu.build-id") Hm) as (r & -> & Hr).
  cbn [mbind option_bind]. destruct r as [[s nd]|]; [|by exists []].
  apply note_loop_some; [by eapply Hr|lia..].
Qed.

Lemma before_nul_split s r : before_nul s = Some r → ∃ post, s = r ++ 0 :: post.
Proof.
  revert r. induction s as [|c s IH]; intros r; cbn [before_nul]; [done|]. destruct (Z.eqb_spec c 0) as [->|].
  - intros [= <-]. by exists s.
  - destruct (before_nul s) as [r'|] eqn:E; [|done]. intros [= <-]. destruct (IH r' eq_refl) as (post & ->). by exists post.
Qed.

Lemma elf_debuglink_some f cap : mapped f → ∃ r, elf_debuglink f cap = Some r.
Proof.
  intros Hm. unfold elf_debuglink. destruct (find_section_some f (codes ".gnu_debuglink") Hm) as (r & -> & Hr).
  cbn [mbind option_bind]. destruct r as [[s d]|]; [|by eexists].
  destruct (before_nul d) as [name|] eqn:En; [|by eexists].
  destruct (_ || _); [by eexists|].
  destruct (Z.ltb_spec (Z.of_nat (length d)) 4) as [|H4]; [by eexists|]. cbn [orb].
  destruct (Z.ltb_spec (Z.of_nat (length d) - 4) (Z.land (Z.of_nat (length name) + 4) (2 ^ 64 - 4))) as [|Hc]; [by eexists|].
  destruct (ld_some 4 d (Z.land (Z.of_nat (length name) + 4) (2 ^ 64 - 4))) as (v & Hv & _).
  - by eapply Hr.
  - apply Z.land_nonneg. lia.
  - unfold flen. lia.
  - unfold ld_u32. rewrite Hv. by eexists.
Qed.

(** Every file of the file system is mapped when it is read. *)
Definition files_ok (fs : files) : Prop := ∀ p f, fs p = Some f → mapped f.

Lemma map_file_ok fs p f : files_ok fs → map_file fs p = Some f → mapped f.
Proof.
  intros Hfs. unfold map_file. destruct (fs p) as [g|] eqn:E; [|done]. cbn [mbind option_bind].
  case_match; [done|]. intros [= <-]. by eapply Hfs.
Qed.

Lemma find_debug_file_some fs dd f mp : files_ok fs → mapped f → ∃ r, find_debug_file fs dd f mp = Some r.
Proof.
  intros Hfs Hm. unfold find_debug_file. destruct (elf_build_id_some f 64 Hm) as (id & -> & _); [lia|].
  cbn [mbind option_bind]. set (cand := dd ++ _).
  assert (∃ b, (if (2 <=? length id)%nat && (length cand <? PATH_MAX)%nat then debug_id_matches fs cand id else Some false)
               = Some b) as (b & ->).
  { destruct (_ && _); [|by eexists]. unfold debug_id_matches. destruct (map_file fs cand) as [g|] eqn:E; [|by eexists].
    destruct (elf_build_id_some g 64) as (id' & -> & _); [by eapply map_file_ok|lia|]. by eexists. }
  cbn [mbind option_bind]. destruct b; [by eexists|].
  destruct (elf_debuglink_some f (Z.of_nat PATH_MAX) Hm) as ([[link want]|] & ->); cbn [mbind option_bind]; [|by eexists].
  case_match; by eexists.
Qed.

(** A debug file is never taken on trust: it carries the module's own build id, or
    it has the checksum the module records. *)
Lemma try_links_crc fs want cands p : try_links fs want cands = Some p → p ∈ cands ∧ ∃ d, map_file fs p = Some d ∧ crc32 d = want.
Proof.
  induction cands as [|c cands IH]; cbn [try_links]; [done|]. unfold crc32_file.
  assert (try_links fs want cands = Some p → p ∈ c :: cands ∧ ∃ d, map_file fs p = Some d ∧ crc32 d = want) as Hrec
    by (intros [? ?]%IH; split; [by right|done]).
  case_match; [done|]. destruct (map_file fs c) as [d|] eqn:E; [|done]. cbn [fmap option_fmap option_map].
  destruct (Z.eqb_spec (crc32 d) want); [|done]. intros [= <-]. split; [by left|eauto].
Qed.

(** ** The checksum *)
Definition bits (n : nat) (c : Z) : Z := Nat.iter n crc_bit c.

Lemma crc_bit_test c : crc_bit c = if Z.testbit c 0 then Z.lxor CRC_POLY (Z.shiftr c 1) else Z.shiftr c 1.
Proof.
  unfold crc_bit. change (Z.land c 1) with (Z.land c (Z.ones 1)). rewrite Z.land_ones by lia. change (2 ^ 1) with 2.
  rewrite <-Z.bit0_mod. by destruct (Z.testbit c 0).
Qed.

Lemma crc_bit_lxor a b : crc_bit (Z.lxor a b) = Z.lxor (crc_bit a) (crc_bit b).
Proof.
  rewrite !crc_bit_test, Z.shiftr_lxor, Z.lxor_spec.
  destruct (Z.testbit a 0), (Z.testbit b 0); cbn [xorb];
    apply Z.bits_inj'; intros i Hi; rewrite ?Z.lxor_spec;
    destruct (Z.testbit CRC_POLY i), (Z.testbit (Z.shiftr a 1) i), (Z.testbit (Z.shiftr b 1) i); done.
Qed.

Lemma crc_bit_even x : crc_bit (Z.shiftl x 1) = x.
Proof.
  rewrite crc_bit_test, Z.shiftl_spec_low by lia. rewrite Z.shiftl_mul_pow2, Z.shiftr_div_pow2 by lia. apply Z.div_mul. lia.
Qed.

Lemma bits_lxor n a b : bits n (Z.lxor a b) = Z.lxor (bits n a) (bits n b).
Proof. unfold bits. induction n as [|n IH]; [done|]. by rewrite !Nat.iter_succ, IH, crc_bit_lxor. Qed.

Lemma bits_shift n x : bits n (Z.shiftl x (Z.of_nat n)) = x.
Proof.
  revert x. induction n as [|n IH]; intros x; [by rewrite Z.shiftl_0_r|]. unfold bits in *. rewrite Nat.iter_succ_r.
  rewrite Nat2Z.inj_succ, <-Z.add_1_r, <-Z.shiftl_shiftl by lia. by rewrite crc_bit_even.
Qed.

Lemma bits_add m n c : bits (m + n) c = bits m (bits n c).
Proof. apply Nat.iter_add. Qed.

Lemma crc_tab_spec i : 0 <= i < 256 → crc_tab !!! Z.to_nat i = bits 8 i.
Proof.
  intros. unfold crc_tab. apply list_lookup_total_correct. rewrite list_lookup_fmap, lookup_seq_lt by lia. simpl.
  by rewrite Z2Nat.id by lia.
Qed.

(** One table step is eight bit steps. *)
Lemma crc_step_bits c b : is_byte b → crc_step crc_tab c b = bits 8 (Z.lxor c b).
Proof.
  intros Hb. unfold crc_step. change 255 with (Z.ones 8). rewrite Z.land_ones by lia. change (2 ^ 8) with 256.
  rewrite crc_tab_spec by dlia.
  rewrite <-(bits_shift 8 (Z.shiftr c 8)) at 1. rewrite <-bits_lxor. f_equal. apply Z.bits_inj'. intros i Hi.
  change 256 with (2 ^ 8). rewrite !Z.lxor_spec, Z.shiftl_spec by lia. change (Z.of_nat 8) with 8. destruct (decide (i < 8)).
  - rewrite Z.mod_pow2_bits_low by lia. rewrite Z.lxor_spec, (Z.testbit_neg_r _ (i - 8)) by lia. by rewrite xorb_false_r.
  - rewrite Z.mod_pow2_bits_high, Z.shiftr_spec by lia. replace (i - 8 + 8) with i by lia.
    rewrite (Z.bits_above_log2 b i); [by rewrite xorb_false_l, xorb_false_r|apply Hb|].
    destruct (decide (b = 0)) as [->|]; [simpl; lia|]. unfold is_byte in Hb.
    apply Z.log2_lt_pow2; [lia|]. pose proof (Z.pow_le_mono_r 2 8 i). lia.
Qed.

Lemma lxor_cons s b x : is_byte b → Z.lxor s (b + 256 * x) = Z.lxor (Z.lxor s b) (Z.shiftl x 8).
Proof.
  intros Hb. rewrite Z.lxor_assoc. f_equal. rewrite Z.shiftl_mul_pow2, (Z.mul_comm x) by lia. change (2 ^ 8) with 256.
  rewrite <-Z.add_nocarry_lxor; [done|]. apply Z.bits_inj'. intros i Hi. rewrite Z.land_spec, Z.bits_0.
  change 256 with (2 ^ 8). rewrite Z.mul_comm. destruct (decide (i < 8)).
  - rewrite Z.mul_pow2_bits_low by lia. by rewrite andb_false_r.
  - rewrite (Z.bits_above_log2 b i); [done|apply Hb|]. destruct (decide (b = 0)) as [->|]; [simpl; lia|]. unfold is_byte in Hb.
    apply Z.log2_lt_pow2; [lia|]. pose proof (Z.pow_le_mono_r 2 8 i). lia.
Qed.

(** The register after a message is the remainder of the whole message, taken as
    one number. *)
Lemma crc_fold_bits m s : Forall is_byte m → foldl (crc_step crc_tab) s m = bits (8 * length m) (Z.lxor s (le m)).
Proof.
  intros Hm. revert s. induction Hm as [|b m Hb _ IH]; intros s; [by rewrite Z.lxor_0_r|].
  cbn [foldl length le]. rewrite IH, crc_step_bits, lxor_cons by done.
  replace (8 * S (length m))%nat with (8 * length m + 8)%nat by lia. rewrite bits_add. f_equal.
  change 8 with (Z.of_nat 8). by rewrite !bits_lxor, bits_shift.
Qed.

Lemma lxor_range a b : is_u32 a → is_u32 b → is_u32 (Z.lxor a b).
Proof.
  unfold is_u32. intros Ha Hb. assert (0 <= Z.lxor a b) by (apply Z.lxor_nonneg; lia). split; [done|].
  destruct (decide (Z.lxor a b = 0)); [lia|]. apply Z.log2_lt_pow2; [lia|].
  pose proof (Z.log2_lxor a b ltac:(lia) ltac:(lia)).
  assert (∀ x, 0 <= x < 2 ^ 32 → Z.log2 x < 32) as Hl.
  { intros x Hx. destruct (decide (x = 0)) as [->|]; [simpl; lia|]. apply Z.log2_lt_pow2; lia. }
  pose proof (Hl a). pose proof (Hl b). lia.
Qed.

Lemma crc_bit_range c : is_u32 c → is_u32 (crc_bit c).
Proof.
  intros Hc. assert (is_u32 (Z.shiftr c 1)) by (unfold is_u32 in *; rewrite Z.shiftr_div_pow2 by lia; dlia).
  unfold crc_bit. case_match; [|done]. apply lxor_range; [done|done].
Qed.
Lemma bits_range n c : is_u32 c → is_u32 (bits n c).
Proof. intros Hc. induction n as [|n IH]; [done|]. by apply crc_bit_range. Qed.

(** The polynomial's top bit tells whether it was added, so no step loses
    information. *)
Lemma crc_bit_inj a b : is_u32 a → is_u32 b → crc_bit a = crc_bit b → a = b.
Proof.
  unfold is_u32. intros Ha Hb.
  assert (∀ x, 0 <= x < 2 ^ 32 → Z.testbit (crc_bit x) 31 = Z.testbit x 0) as Hbit.
  { intros x Hx. rewrite crc_bit_test.
    assert (Z.testbit (Z.shiftr x 1) 31 = false) as E31.
    { rewrite Z.shiftr_spec by lia. apply Z.bits_above_log2; [lia|]. destruct (decide (x = 0)) as [->|]; [simpl; lia|].
      apply Z.log2_lt_pow2; lia. }
    destruct (Z.testbit x 0); rewrite ?Z.lxor_spec, ?E31; done. }
  intros E. assert (Z.testbit a 0 = Z.testbit b 0) as E0 by (rewrite <-!Hbit by done; by rewrite E).
  assert (Z.shiftr a 1 = Z.shiftr b 1) as E1.
  { rewrite !crc_bit_test, E0 in E. destruct (Z.testbit b 0); [|done].
    apply (f_equal (Z.lxor CRC_POLY)) in E. by rewrite <-!Z.lxor_assoc, Z.lxor_nilpotent, !Z.lxor_0_l in E. }
  rewrite <-!Z.div2_spec in E1. rewrite (Z.div2_odd a), (Z.div2_odd b), E1, <-!Z.bit0_odd, E0. done.
Qed.

Lemma bits_inj n a b : is_u32 a → is_u32 b → bits n a = bits n b → a = b.
Proof.
  intros Ha Hb. induction n as [|n IH]; [done|]. intros E%crc_bit_inj; [auto|by apply bits_range..].
Qed.

Lemma lxor_inj s a b : Z.lxor s a = Z.lxor s b → a = b.
Proof.
  intros E%(f_equal (Z.lxor s)). by rewrite <-!Z.lxor_assoc, Z.lxor_nilpotent, !Z.lxor_0_l in E.
Qed.

Lemma le_inj x y : Forall is_byte x → Forall is_byte y → length x = length y → le x = le y → x = y.
Proof.
  intros Hx. revert y. induction Hx as [|a x Ha Hx IH]; intros [|b y] Hy; try done.
  cbn [length le]. intros Hl E. inversion_clear Hy as [|? ? Hb Hy']. unfold is_byte in *.
  assert (a = b ∧ le x = le y) as [-> ?] by lia. f_equal. apply IH; [done|lia|done].
Qed.

Lemma le_u32 x : Forall is_byte x → (length x <= 4)%nat → is_u32 (le x).
Proof.
  intros Hx Hl. pose proof (le_range x Hx). pose proof (Z.pow_le_mono_r 256 (Z.of_nat (length x)) 4). unfold is_u32. lia.
Qed.

Lemma crc_fold_range m s : Forall is_byte m → is_u32 s → is_u32 (foldl (crc_step crc_tab) s m).
Proof.
  intros Hm. revert s. induction Hm as [|b m Hb _ IH]; intros s Hs; [done|]. cbn [foldl]. apply IH.
  rewrite crc_step_bits by done. apply bits_range, lxor_range; [done|]. unfold is_byte, is_u32 in *. lia.
Qed.

Lemma crc_fold_inj m s s' : Forall is_byte m → is_u32 s → is_u32 s' →
  foldl (crc_step crc_tab) s m = foldl (crc_step crc_tab) s' m → s = s'.
Proof.
  intros Hm. revert s s'. induction Hm as [|b m Hb _ IH]; intros s s' Hs Hs'; [done|]. cbn [foldl].
  rewrite !crc_step_bits by done.
  assert (is_u32 b) by (unfold is_byte, is_u32 in *; lia).
  intros E%IH; [|by apply bits_range, lxor_range..]. apply bits_inj in E; [|by apply lxor_range..].
  rewrite !(Z.lxor_comm _ b) in E. by apply lxor_inj in E.
Qed.

(** Two files that differ within four consecutive bytes have different checksums. *)
Lemma crc32_burst p x y q :
  Forall is_byte (p ++ x ++ q) → Forall is_byte y → length x = length y → (length x <= 4)%nat →
  crc32 (p ++ x ++ q) = crc32 (p ++ y ++ q) → x = y.
Proof.
  rewrite !Forall_app. intros (Hp & Hx & Hq) Hy Hl H4. unfold crc32. rewrite !foldl_app.
  rewrite !(Z.lxor_comm _ 0xffffffff). intros E%lxor_inj.
  assert (is_u32 0xffffffff) as Hi by done. pose proof (crc_fold_range p _ Hp Hi) as Hs.
  apply crc_fold_inj in E; [|done|by apply crc_fold_range..].
  revert E Hs. generalize (foldl (crc_step crc_tab) 0xffffffff p) as s. intros s E Hs.
  rewrite !crc_fold_bits, <-Hl in E by done.
  apply bits_inj, lxor_inj in E; [by apply le_inj| |]; (apply lxor_range; [done|]); apply le_u32; done || lia.
Qed.
End Elf.
