(* ===== verification/SymTab.v ===== *)
(** The function symbols of a process ([cli/asmspy_proc.c]): the modules mapped
    into it, the symbols of each module at their runtime address, and the lookup
    of an address.  C++ names go through the compiler's demangler, a parameter;
    files and the process's own text files are arguments. *)
From S2P Require Import Prelude Bytes Format Json VmMap Elf.
Import Json Elf.

Module SymTab.
Open Scope Z_scope.

(** [asmspy_sym_t] and a table under construction with its capacity. *)
Record sym := mk_sym { addr : Z; size : Z; name : list Z; module : list Z }.
Record symtab := mk_tab { syms : list sym; cap : Z }.
#[export] Instance sym_eq_dec : EqDecision sym.
Proof. solve_decision. Defined.
Definition sizeof_sym_t : Z := 32.
Definition AT_PLT : list Z := codes "@plt".

Section load.
Context (grant : allocator) (cxa_demangle : list Z → option (list Z)).

(** ** One symbol *)
Definition strdup (s : list Z) : option (list Z) := if grant (Z.of_nat (length s) + 1) then Some s else None.
Definition demangle_dup (nm : list Z) : option (list Z) :=
  let is_plt := (4 <? length nm)%nat && bool_decide (drop (length nm - 4) nm = AT_PLT) in
  let base := if is_plt then take (length nm - 4) nm else nm in
  if (length base <? 2)%nat || negb (bool_decide (take 2 nm = codes "_Z")) then None
  else if (512 <=? length base)%nat then None
  else
    dem ← cxa_demangle base;
    if is_plt then (if grant (Z.of_nat (length dem) + 5) then Some (dem ++ AT_PLT) else None) else Some dem.

(** [false] is the error return: memory was refused. *)
Definition sym_push (t : symtab) (a sz : Z) (nm md : list Z) : bool * symtab :=
  if bool_decide (nm = []) then (true, t) else
  let room := if Z.of_nat (length (syms t)) =? cap t
              then let nc := if cap t =? 0 then 512 else cap t *64 2 in
                   if grant (nc *64 sizeof_sym_t) then Some nc else None
              else Some (cap t) in
  match room with
  | None => (false, t)
  | Some c =>
      match (match demangle_dup nm with Some d => Some d | None => strdup nm end), strdup md with
      | Some n', Some m' => (true, mk_tab (syms t ++ [mk_sym a sz n' m']) c)
      | _, _ => (false, mk_tab (syms t) c)
      end
  end.

(** ** The symbols of one section type *)
Definition sym_step (f : list Z) (s strh : shdr) (bias : Z) (md : list Z) (j : Z) (t : symtab) :
    option (bool * symtab) :=
  sy ← ld_sym f (sh_offset s +64 (j *64 sh_entsize s));
  if negb (Z.land (st_info sy) 15 =? STT_FUNC) then Some (true, t)
  else if (st_shndx sy =? 0) || (st_value sy =? 0) then Some (true, t)
  else
    nm ← name_at f strh (st_name sy);
    Some (match nm with None => (true, t) | Some nm => sym_push t (bias +64 st_value sy) (st_size sy) nm md end).

Definition section_step (f : list Z) (eh : ehdr) (want bias : Z) (md : list Z) (i : Z) (st : bool * symtab) :
    option (bool * (bool * symtab)) :=
  let '(found, t) := st in
  s ← shdr_at f eh i;
  if negb (sh_type s =? want) then Some (true, (found, t))
  else if (sh_entsize s <? sizeof_sym) || (e_shnum eh <=? sh_link s) then Some (true, (true, t))
  else
    strh ← shdr_at f eh (sh_link s);
    if flen f <=? sh_offset strh then Some (true, (true, t))
    else if (flen f <? sh_offset s) || (flen f - sh_offset s <? sh_size s) then Some (true, (true, t))
    else
      '(go, t) ← for_loop (Z.to_nat (sh_size s / sh_entsize s)) 0 (sym_step f s strh bias md) t;
      Some (go, (true, t)).

(** 1 when a section of the type is there, 0 when not, -1 without memory. *)
Definition scan_elf_syms (f : list Z) (want bias : Z) (md : list Z) (t : symtab) : option (Z * symtab) :=
  ok ← elf_ok f;
  if negb ok then Some (0, t) else
  eh ← ld_ehdr f;
  '(go, (found, t)) ← for_loop (Z.to_nat (e_shnum eh)) 0 (section_step f eh want bias md) (false, t);
  Some (if (go : bool) then Z.b2z found else -1, t).

(** ** The load bias *)
Definition phdr_step (f : list Z) (eh : ehdr) (i m : Z) : option (bool * Z) :=
  let o := e_phoff eh +64 (i *64 e_phentsize eh) in
  if flen f <? o +64 sizeof_phdr then Some (false, m) else
  ph ← ld_phdr f o;
  Some (true, if (p_type ph =? PT_LOAD) && (p_vaddr ph <? m) then p_vaddr ph else m).
Definition min_vaddr (f : list Z) (eh : ehdr) : option Z :=
  '(_, m) ← (if negb (e_phoff eh =? 0) && (sizeof_phdr <=? e_phentsize eh)
             then for_loop (Z.to_nat (e_phnum eh)) 0 (phdr_step f eh) (2 ^ 64 - 1)
             else Some (true, 2 ^ 64 - 1));
  Some (if m =? 2 ^ 64 - 1 then 0 else m).

(** ** Stubs of the procedure linkage table *)
Record plt_secs := mk_ps { ps_rela : option shdr; ps_plt : option shdr; ps_pltsec : option shdr }.
Definition plt_find (f : list Z) (eh : ehdr) (shstr : shdr) (i : Z) (p : plt_secs) : option (bool * plt_secs) :=
  s ← shdr_at f eh i;
  nm ← name_at f shstr (sh_name s);
  Some (true,
    match nm with
    | None => p
    | Some nm =>
        if (sh_type s =? SHT_RELA) && bool_decide (nm = codes ".rela.plt") then mk_ps (Some s) (ps_plt p) (ps_pltsec p)
        else if bool_decide (nm = codes ".plt") then mk_ps (ps_rela p) (Some s) (ps_pltsec p)
        else if bool_decide (nm = codes ".plt.sec") then mk_ps (ps_rela p) (ps_plt p) (Some s)
        else p
    end).
Definition plt_step (f : list Z) (rel dsym dstr : shdr) (stub_addr es slot0 bias : Z) (md : list Z) (i : Z) (t : symtab) :
    option (bool * symtab) :=
  r ← ld_rela f (sh_offset rel +64 (i *64 sh_entsize rel));
  if negb (u32 (r_info r) =? R_X86_64_JUMP_SLOT) then Some (true, t) else
  let si := Z.shiftr (r_info r) 32 in
  if (si =? 0) || (sh_size dsym / sh_entsize dsym <=? si) then Some (true, t) else
  ds ← ld_sym f (sh_offset dsym +64 (si *64 sh_entsize dsym));
  nm ← name_at f dstr (st_name ds);
  Some (match nm with
        | None | Some [] => (true, t)
        | Some nm => sym_push t (bias +64 stub_addr +64 ((slot0 + i) *64 es)) es (sn 160 (nm ++ AT_PLT)) md
        end).
Definition plt_syms (f : list Z) (eh : ehdr) (bias : Z) (md : list Z) (t : symtab) : option symtab :=
  if (e_shstrndx eh =? 0) || (e_shnum eh <=? e_shstrndx eh) then Some t else
  shstr ← shdr_at f eh (e_shstrndx eh);
  if flen f <=? sh_offset shstr then Some t else
  '(_, p) ← for_loop (Z.to_nat (e_shnum eh)) 0 (plt_find f eh shstr) (mk_ps None None None);
  match ps_rela p, (match ps_pltsec p with Some s => Some s | None => ps_plt p end) with
  | Some rel, Some stub =>
      if (sh_entsize rel <? sizeof_rela) || (flen f <=? sh_offset rel) || (flen f - sh_offset rel <? sh_size rel)
         || (e_shnum eh <=? sh_link rel) then Some t else
      dsym ← shdr_at f eh (sh_link rel);
      if e_shnum eh <=? sh_link dsym then Some t else
      dstr ← shdr_at f eh (sh_link dsym);
      if (sh_entsize dsym <? sizeof_sym) || (flen f <=? sh_offset dsym) || (flen f - sh_offset dsym <? sh_size dsym)
         || (flen f <=? sh_offset dstr) then Some t else
      let es := if sh_entsize stub =? 0 then 16 else sh_entsize stub in
      let slot0 := match ps_pltsec p with Some _ => 0 | None => 1 end in
      '(_, t) ← for_loop (Z.to_nat (sh_size rel / sh_entsize rel)) 0
                 (plt_step f rel dsym dstr (sh_addr stub) es slot0 bias md) t;
      Some t
  | _, _ => Some t
  end.

(** ** One module *)
(** [module_t] *)
Record modl := mk_mod { path : list Z; load_start : Z; is_exe : bool }.
Definition sizeof_mod : Z := 4112.

Definition exe_path (pid : Z) : list Z := codes ("/proc/" +:+ fmt_d pid +:+ "/exe").
(** The debug file's [.symtab], when there is a verified one. *)
Definition debug_syms (fs : files) (debug_dir f mpath : list Z) (bias : Z) (md : list Z) (t : symtab) :
    option (Z * symtab) :=
  dbg ← find_debug_file fs debug_dir f mpath;
  match dbg with
  | None => Some (0, t)
  | Some p => match map_file fs p with None => Some (0, t) | Some d => scan_elf_syms d SHT_SYMTAB bias md t end
  end.
Definition load_module_syms (fs : files) (debug_dir : list Z) (pid : Z) (m : modl) (t : symtab) : option symtab :=
  match map_file fs (if is_exe m then exe_path pid else path m) with
  | None => Some t
  | Some f =>
      let md := VmMap.behind SLASH (path m) in
      ok ← elf_ok f;
      if negb ok then Some t else
      eh ← ld_ehdr f;
      mv ← min_vaddr f eh;
      let bias := load_start m -64 mv in
      '(got, t) ← scan_elf_syms f SHT_SYMTAB bias md t;
      '(got, t) ← (if got =? 0 then debug_syms fs debug_dir f (path m) bias md t else Some (got, t));
      '(got, t) ← (if got =? 0 then scan_elf_syms f SHT_DYNSYM bias md t else Some (got, t));
      if got <? 0 then Some t else plt_syms f eh bias md t
  end.

(** ** The modules of a process *)
(** [fgets] into a buffer of [n + 1] bytes: a long line comes in pieces. *)
Fixpoint pieces (fuel n : nat) (l : list Z) : list (list Z) :=
  match fuel with
  | O => []
  | S fuel => if (length l <=? n)%nat then [l] else take n l :: pieces fuel n (drop n l)
  end.
Definition fgets_lines (n : nat) (text : list Z) : list (list Z) :=
  concat ((λ l, pieces (S (length l)) n l) <$> VmMap.split_lines text).
(** The conversions of one line: start, offset, and the text from [pathpos]. *)
Definition scan_map (s : list Z) : option (Z * Z * option (list Z)) :=
  '(lo, s) ← VmMap.scan_int 16 s;
  s ← VmMap.scan_char 45 s;
  '(_, s) ← VmMap.scan_int 16 s;
  '(_, s) ← VmMap.scan_word 7 s;
  '(off, s) ← VmMap.scan_int 16 s;
  Some (lo, off,
        '(_, s) ← VmMap.scan_int 16 s;
        s ← VmMap.scan_char 58 s;
        '(_, s) ← VmMap.scan_int 16 s;
        '(_, s) ← VmMap.scan_int 10 s;
        Some (VmMap.skip_ws s)).
(** [strstr]: what is before the first occurrence. *)
Fixpoint before_sub (w s : list Z) : list Z :=
  match s with
  | [] => []
  | c :: s' => if bool_decide (take (length w) s = w) then [] else c :: before_sub w s'
  end.
Definition DELETED : list Z := codes " (deleted)".
(** A line that maps the first page of a file: where, and the file. *)
Definition map_line (l : list Z) : option (Z * list Z) :=
  '(lo, off, rest) ← scan_map l;
  rest ← rest;
  let p := VmMap.upto 10 rest in
  if negb (bool_decide (head p = Some SLASH)) then None
  else if negb (off =? 0) then None
  else Some (lo, before_sub DELETED p).
Fixpoint lower (p : list Z) (lo : Z) (ms : list modl) : option (list modl) :=
  match ms with
  | [] => None
  | m :: ms => if bool_decide (path m = p)
               then Some (mk_mod (path m) (if lo <? load_start m then lo else load_start m) (is_exe m) :: ms)
               else (m ::.) <$> lower p lo ms
  end.
Fixpoint modules_loop (exe : list Z) (ls : list (list Z)) (ms : list modl) (mcap : Z) : list modl :=
  match ls with
  | [] => ms
  | l :: ls =>
      match map_line l with
      | None => modules_loop exe ls ms mcap
      | Some (lo, p) =>
          match lower p lo ms with
          | Some ms => modules_loop exe ls ms mcap
          | None =>
              let new := mk_mod (sn PATH_MAX p) lo (negb (bool_decide (exe = [])) && bool_decide (p = exe)) in
              if Z.of_nat (length ms) =? mcap
              then if grant (mcap * 2 *64 sizeof_mod) then modules_loop exe ls (ms ++ [new]) (mcap * 2) else ms
              else modules_loop exe ls (ms ++ [new]) mcap
          end
      end
  end.
(** [maps]: the text of the map file, when it opens; [link]: what the exe link says. *)
Definition scan_modules (maps link : option (list Z)) : option (list modl) :=
  text ← maps;
  let exe := take (PATH_MAX - 1) (default [] link) in
  if grant (64 * sizeof_mod) then Some (modules_loop exe (fgets_lines (PATH_MAX + 127) text) [] 64) else None.

(** ** The table *)
Definition sym_cmp_addr (x y : sym) : Z := if addr x <? addr y then -1 else if addr y <? addr x then 1 else 0.
Fixpoint load_all (fs : files) (debug_dir : list Z) (pid : Z) (ms : list modl) (t : symtab) : option symtab :=
  match ms with
  | [] => Some t
  | m :: ms => t ← load_module_syms fs debug_dir pid m t; load_all fs debug_dir pid ms t
  end.
(** The table, and whether the call succeeds. *)
Definition asmspy_symtab_load (qsort : list sym → list sym) (fs : files) (debug_dir : list Z)
    (maps link : option (list Z)) (pid : Z) : option (bool * list sym) :=
  match scan_modules maps link with
  | None => Some (false, [])
  | Some ms => t ← load_all fs debug_dir pid ms (mk_tab [] 0); Some (true, qsort (syms t))
  end.
End load.

(** ** Lookups *)
Fixpoint asmspy_symtab_by_name (v : list sym) (nm : list Z) : option sym :=
  match v with
  | [] => None
  | s :: v => if bool_decide (name s = nm) then Some s else asmspy_symtab_by_name v nm
  end.
(** The first index past the entries whose address is at most the query's; the
    range shrinks, so its length is enough rounds. *)
Fixpoint at_loop (fuel : nat) (v : list sym) (q lo hi : Z) : option Z :=
  match fuel with
  | O => None
  | S fuel =>
      if lo <? hi then
        let mid := lo + (hi - lo) / 2 in
        match v !! Z.to_nat mid with
        | Some s => if addr s <=? q then at_loop fuel v q (mid + 1) hi else at_loop fuel v q lo mid
        | None => None
        end
      else Some lo
  end.
Definition covers (s : sym) (q : Z) : bool :=
  if size s =? 0 then q =? addr s else q <? addr s +64 size s.
Definition sym_at (v : list sym) (q : Z) : option sym :=
  match at_loop (S (length v)) v q 0 (Z.of_nat (length v)) with
  | Some lo => if lo =? 0 then None
               else s ← v !! Z.to_nat (lo - 1); if covers s q then Some s else None
  | None => None
  end.
Definition asmspy_symtab_at (v : list sym) (q : Z) : option sym := sym_at v q.

(** ** Reads of a module stay inside its file *)
(** The program header table does not run past the address space. *)
Definition phdrs_fit (eh : ehdr) : Prop := e_phoff eh + e_phnum eh * e_phentsize eh < 2 ^ 64.

Section bounds.
Context (grant : allocator) (cxa : list Z → option (list Z)).

(** Any index below the number of entries of a table that fits. *)
Lemma entry_in f off size ents j :
  mapped f → 0 <= off → 0 <= size → off + size <= flen f → 0 < ents → 0 <= j < size / ents →
  u64 (off + u64 (j * ents)) = off + j * ents ∧ 0 <= off + j * ents ∧ off + j * ents + ents <= flen f.
Proof.
  intros [_ Hl] ? ? ? ? Hj. pose proof (Z.mul_div_le size ents ltac:(lia)).
  assert (0 <= j * ents ∧ j * ents + ents <= ents * (size / ents)) as [? ?] by nia.
  rewrite (u64_small (j * ents)), u64_small by lia. lia.
Qed.

Lemma sym_step_some f s strh bias md j t :
  mapped f → shdr_ok s → shdr_ok strh → sh_offset strh < flen f → sizeof_sym <= sh_entsize s →
  sh_offset s + sh_size s <= flen f → 0 <= j < sh_size s / sh_entsize s →
  ∃ go t', sym_step grant cxa f s strh bias md j t = Some (go, t').
Proof.
  intros Hm Hs Hstr Ho He Hin Hj. pose proof Hm as [Hb _]. pose proof (so_offset s Hs) as So. pose proof (so_size s Hs) as Ss.
  unfold sizeof_sym, is_u64 in *.
  destruct (entry_in f (sh_offset s) (sh_size s) (sh_entsize s) j) as (E & ? & ?); [done|lia..|].
  unfold sym_step. rewrite E.
  destruct (ld_sym_some f (sh_offset s + j * sh_entsize s)) as (sy & -> & Hn & _); [done|lia|unfold sizeof_sym; lia|].
  cbn [mbind option_bind]. destruct (negb _); [eauto|]. destruct (_ || _); [eauto|].
  destruct (name_at_some f strh (st_name sy)) as (nm & ->); [done..|apply Hn|]. cbn [mbind option_bind].
  destruct nm as [nm|]; [|eauto]. destruct (sym_push _ _ _ _ _ _ _). eauto.
Qed.

Lemma section_step_some f eh want bias md i st :
  table_ok f eh → 0 <= i < e_shnum eh → ∃ go st', section_step grant cxa f eh want bias md i st = Some (go, st').
Proof.
  intros Ht Hi. unfold section_step. destruct st as [found t].
  destruct (shdr_at_some f eh i Ht Hi) as (s & -> & Hs). cbn [mbind option_bind].
  destruct (negb _); [eauto|]. destruct (_ || _) eqn:E1; [eauto|].
  apply orb_false_iff in E1 as [He%Z.ltb_ge Hk%Z.leb_gt].
  destruct (shdr_at_some f eh (sh_link s) Ht) as (strh & -> & Hstr); [pose proof (so_link s Hs); unfold is_u32 in *; lia|].
  cbn [mbind option_bind]. destruct (Z.leb_spec (flen f) (sh_offset strh)); [eauto|].
  destruct (_ || _) eqn:E2; [eauto|]. apply orb_false_iff in E2 as [? Hsz%Z.ltb_ge].
  edestruct (for_loop_some (λ _ : symtab, True)) as (go & t' & -> & _); [|done|cbn [mbind option_bind]; eauto].
  intros j x Hj _. pose proof (so_size s Hs). unfold is_u64, sizeof_sym in *.
  assert (0 <= sh_size s / sh_entsize s) by (apply Z.div_pos; lia).
  destruct (sym_step_some f s strh bias md j x) as (go & t' & E); [apply Ht|done|done|lia|done|lia|lia|]. eauto.
Qed.

Lemma scan_elf_syms_some f want bias md t : mapped f → ∃ r t', scan_elf_syms grant cxa f want bias md t = Some (r, t').
Proof.
  intros Hm. unfold scan_elf_syms. destruct (elf_ok_spec f Hm) as [->|(-> & eh & -> & Ht)]; cbn [mbind option_bind negb]; [eauto|].
  edestruct (for_loop_some (λ _ : bool * symtab, True)) as (go & st & -> & _); [|done|destruct st; cbn [mbind option_bind]; eauto].
  intros i x Hi _. pose proof (to_num f eh Ht).
  destruct (section_step_some f eh want bias md i x Ht) as (go & st & E); [lia|]. eauto.
Qed.

Lemma debug_syms_some fs dd f mp bias md t :
  files_ok fs → mapped f → ∃ r t', debug_syms grant cxa fs dd f mp bias md t = Some (r, t').
Proof.
  intros Hfs Hm. unfold debug_syms. destruct (find_debug_file_some fs dd f mp Hfs Hm) as ([p|] & ->); cbn [mbind option_bind]; [|eauto].
  destruct (map_file fs p) as [d|] eqn:E; [|eauto]. apply scan_elf_syms_some. by eapply map_file_ok.
Qed.

Lemma min_vaddr_some f eh : table_ok f eh → phdrs_fit eh → ∃ m, min_vaddr f eh = Some m.
Proof.
  intros Ht Hfit. unfold min_vaddr. destruct (_ && _) eqn:E; [|by eexists].
  apply andb_true_iff in E as [_ He%Z.leb_le].
  edestruct (for_loop_some (λ _ : Z, True)) as (go & m & -> & _); [|done|by eexists].
  intros i m Hi _. unfold phdr_step, phdrs_fit in *. destruct Ht as [[Hb Hl] _ _ _ _ _ Hp Hpe Hpn]. unfold is_u64, sizeof_phdr in *.
  assert (0 <= i * e_phentsize eh ∧ i * e_phentsize eh + e_phentsize eh <= e_phnum eh * e_phentsize eh) as [? ?] by nia.
  rewrite (u64_small (i * _)), (u64_small (e_phoff eh + _)), u64_small by lia.
  case_match eqn:Ho; [eauto|]. apply Z.ltb_ge in Ho.
  destruct (ld_phdr_some f (e_phoff eh + i * e_phentsize eh)) as (ph & -> & _); [done|lia|unfold sizeof_phdr; lia|].
  cbn [mbind option_bind]. eauto.
Qed.

Lemma plt_step_some f rel dsym dstr sa es slot0 bias md i t :
  mapped f → shdr_ok rel → shdr_ok dsym → shdr_ok dstr → sh_offset dstr < flen f →
  sizeof_rela <= sh_entsize rel → sh_offset rel + sh_size rel <= flen f →
  sizeof_sym <= sh_entsize dsym → sh_offset dsym + sh_size dsym <= flen f → 0 <= i < sh_size rel / sh_entsize rel →
  ∃ go t', plt_step grant cxa f rel dsym dstr sa es slot0 bias md i t = Some (go, t').
Proof.
  intros Hm Hr Hd Hs Ho Hre Hri Hde Hdi Hi. pose proof Hm as [Hb _].
  pose proof (so_offset _ Hr). pose proof (so_size _ Hr). pose proof (so_offset _ Hd). pose proof (so_size _ Hd).
  unfold is_u64, sizeof_rela, sizeof_sym in *. unfold plt_step.
  destruct (entry_in f (sh_offset rel) (sh_size rel) (sh_entsize rel) i) as (-> & ? & ?); [done|lia..|].
  destruct (ld_rela_some f (sh_offset rel + i * sh_entsize rel)) as (r & -> & Hri'); [done|lia|unfold sizeof_rela; lia|].
  cbn [mbind option_bind]. destruct (negb _); [eauto|].
  destruct (_ || _) eqn:E; [eauto|]. apply orb_false_iff in E as [_ Hsi%Z.leb_gt]. unfold is_u64 in Hri'.
  assert (0 <= Z.shiftr (r_info r) 32) by (apply Z.shiftr_nonneg; lia).
  destruct (entry_in f (sh_offset dsym) (sh_size dsym) (sh_entsize dsym) (Z.shiftr (r_info r) 32)) as (-> & ? & ?); [done|lia..|].
  destruct (ld_sym_some f (sh_offset dsym + Z.shiftr (r_info r) 32 * sh_entsize dsym)) as (ds & -> & Hn & _);
    [done|lia|unfold sizeof_sym; lia|]. cbn [mbind option_bind].
  destruct (name_at_some f dstr (st_name ds)) as (nm & ->); [done..|apply Hn|]. cbn [mbind option_bind].
  destruct nm as [[|c nm]|]; [eauto| |eauto]. destruct (sym_push _ _ _ _ _ _ _). eauto.
Qed.

Definition found_ok (p : plt_secs) : Prop :=
  ∀ s, Some s = ps_rela p ∨ Some s = ps_plt p ∨ Some s = ps_pltsec p → shdr_ok s.

Lemma plt_find_some f eh shstr i p :
  table_ok f eh → shdr_ok shstr → sh_offset shstr < flen f → 0 <= i < e_shnum eh → found_ok p →
  ∃ go p', plt_find f eh shstr i p = Some (go, p') ∧ found_ok p'.
Proof.
  intros Ht Hs Ho Hi Hp. unfold plt_find. destruct (shdr_at_some f eh i Ht Hi) as (s & -> & Hok). cbn [mbind option_bind].
  destruct (name_at_some f shstr (sh_name s)) as (nm & ->); [apply Ht|done|done|apply Hok|]. cbn [mbind option_bind].
  do 2 eexists. split; [done|]. unfold found_ok in *.
  destruct nm as [nm|]; [|done]. repeat case_match; cbn; [naive_solver..|done].
Qed.

Lemma plt_syms_some f eh bias md t : table_ok f eh → ∃ t', plt_syms grant cxa f eh bias md t = Some t'.
Proof.
  intros Ht. unfold plt_syms. destruct (_ || _) eqn:Ex; [eauto|]. apply orb_false_iff in Ex as [_ Hx%Z.leb_gt].
  destruct (shdr_at_some f eh (e_shstrndx eh) Ht) as (shstr & -> & Hs); [pose proof (to_strndx f eh Ht); lia|].
  cbn [mbind option_bind]. destruct (Z.leb_spec (flen f) (sh_offset shstr)); [eauto|].
  edestruct (for_loop_some found_ok) as (go & p & -> & Hp); [| |cbn [mbind option_bind]].
  { intros i p Hi Hp. pose proof (to_num f eh Ht). apply plt_find_some; [done..|lia|done]. }
  { by intros s [?|[?|?]]. }
  destruct (ps_rela p) as [rel|] eqn:Er; [|eauto]. assert (shdr_ok rel) as Hrel by (apply Hp; rewrite Er; auto).
  destruct (match ps_pltsec p with Some _ => _ | None => _ end) as [stub|]; [|eauto].
  destruct (_ || _) eqn:E1; [eauto|]. rewrite !orb_false_iff, !Z.ltb_ge, !Z.leb_gt in E1. destruct E1 as [[[? ?] ?] ?].
  destruct (shdr_at_some f eh (sh_link rel) Ht) as (dsym & -> & Hd); [pose proof (so_link _ Hrel); unfold is_u32 in *; lia|].
  cbn [mbind option_bind]. destruct (Z.leb_spec (e_shnum eh) (sh_link dsym)); [eauto|].
  destruct (shdr_at_some f eh (sh_link dsym) Ht) as (dstr & -> & Hds); [pose proof (so_link _ Hd); unfold is_u32 in *; lia|].
  cbn [mbind option_bind]. destruct (_ || _) eqn:E2; [eauto|].
  rewrite !orb_false_iff, !Z.ltb_ge, !Z.leb_gt in E2. destruct E2 as [[[? ?] ?] ?].
  edestruct (for_loop_some (λ _ : symtab, True)) as (go' & t' & -> & _); [|done|cbn [mbind option_bind]; eauto].
  intros i x Hi _. pose proof (so_size _ Hrel). unfold is_u64, sizeof_rela in *.
  assert (0 <= sh_size rel / sh_entsize rel) by (apply Z.div_pos; lia).
  edestruct (plt_step_some f rel dsym dstr) as (g & x' & E); [..|eauto]; try done; try apply Ht; unfold sizeof_rela; lia.
Qed.

(** A program header table that may wrap is the only way out of the file. *)
Lemma load_module_some fs dd pid m t :
  files_ok fs → (∀ p f eh, map_file fs p = Some f → ld_ehdr f = Some eh → phdrs_fit eh) →
  ∃ t', load_module_syms grant cxa fs dd pid m t = Some t'.
Proof.
  intros Hfs Hfit. unfold load_module_syms. destruct (map_file fs _) as [f|] eqn:Ef; [|eauto].
  assert (mapped f) as Hm by (by eapply map_file_ok).
  destruct (elf_ok_spec f Hm) as [->|(-> & eh & Heh & Ht)]; cbn [mbind option_bind negb]; [eauto|].
  rewrite Heh. cbn [mbind option_bind]. destruct (min_vaddr_some f eh Ht) as (mv & ->); [by eapply Hfit|]. cbn [mbind option_bind].
  edestruct (scan_elf_syms_some f SHT_SYMTAB) as (g1 & t1 & ->); [done|]. cbn [mbind option_bind].
  assert (∃ g t2, (if g1 =? 0 then debug_syms grant cxa fs dd f (path m) (load_start m -64 mv) (VmMap.behind SLASH (path m)) t1
                   else Some (g1, t1)) = Some (g, t2)) as (g2 & t2 & ->) by (destruct (g1 =? 0); [by apply debug_syms_some|eauto]).
  cbn [mbind option_bind].
  assert (∃ g t3, (if g2 =? 0 then scan_elf_syms grant cxa f SHT_DYNSYM (load_start m -64 mv) (VmMap.behind SLASH (path m)) t2
                   else Some (g2, t2)) = Some (g, t3)) as (g3 & t3 & ->) by (destruct (g2 =? 0); [by apply scan_elf_syms_some|eauto]).
  cbn [mbind option_bind]. destruct (g3 <? 0); [eauto|]. by apply plt_syms_some.
Qed.

(** C29: whatever the mapped files of a process hold - truncated, hostile or not ELF
    at all, separate debug files included - and whatever its map file says, loading
    its symbols reads only inside the files, for any answers of the allocator and
    the demangler, and ends with a table that is sorted by address, provided no
    program header table wraps around the 64-bit offset space. *)
Theorem symtab_load_in_bounds qsort fs dd maps link pid :
  QSort sym_cmp_addr qsort → files_ok fs →
  (∀ p f eh, map_file fs p = Some f → ld_ehdr f = Some eh → phdrs_fit eh) →
  ∃ ok v, asmspy_symtab_load grant cxa qsort fs dd maps link pid = Some (ok, v) ∧
          Sorted (λ x y, addr x <= addr y) v.
Proof.
  intros HQ Hfs Hfit. unfold asmspy_symtab_load. destruct (scan_modules grant maps link) as [ms|]; [|by do 2 eexists].
  assert (∀ ms t, ∃ t', load_all grant cxa fs dd pid ms t = Some t') as Hall.
  { clear ms. intros ms. induction ms as [|m ms IH]; intros t; cbn [load_all]; [eauto|].
    destruct (load_module_some fs dd pid m t Hfs Hfit) as (t' & ->). apply IH. }
  destruct (Hall ms (mk_tab [] 0)) as (t & ->). cbn [mbind option_bind]. do 2 eexists. split; [done|].
  eapply Sorted_weaken; [|apply qsort_sorted]. intros x y. unfold sym_cmp_addr. cbn.
  destruct (Z.ltb_spec (addr x) (addr y)), (Z.ltb_spec (addr y) (addr x)); lia.
Qed.

(** A program header table near the end of the offset space defeats the bounds
    check: the sum of the header's offset and its size wraps to a small number, and
    the loader reads before the start of the mapping.  Any otherwise valid file with
    such an offset does it. *)
Theorem phdr_wrap_reads_outside fs dd pid m t f eh :
  map_file fs (if is_exe m then exe_path pid else path m) = Some f → mapped f →
  elf_ok f = Some true → ld_ehdr f = Some eh →
  2 ^ 64 - sizeof_phdr <= e_phoff eh → sizeof_phdr <= e_phentsize eh → 0 < e_phnum eh →
  load_module_syms grant cxa fs dd pid m t = None.
Proof.
  intros Hf Hm Hok Heh Hoff He Hn. unfold load_module_syms. rewrite Hf, Hok. cbn [mbind option_bind negb]. rewrite Heh.
  cbn [mbind option_bind]. destruct (elf_ok_spec f Hm) as [?|(_ & eh' & Heh' & Ht)]; [congruence|].
  rewrite Heh in Heh'. injection Heh' as <-. pose proof (to_phoff f eh Ht) as Hp. unfold is_u64, sizeof_phdr in *.
  assert (64 <= flen f).
  { unfold map_file in Hf. destruct (fs _); [|done]. cbn [mbind option_bind] in Hf. case_match eqn:E; [done|].
    injection Hf as ->. apply Z.ltb_ge in E. by unfold sizeof_ehdr in E. }
  assert (min_vaddr f eh = None) as ->; [|done]. unfold min_vaddr.
  destruct (Z.eqb_spec (e_phoff eh) 0); [lia|]. destruct (Z.leb_spec sizeof_phdr (e_phentsize eh)) as [_|]; [|unfold sizeof_phdr in *; lia].
  cbn [negb andb]. destruct (Z.to_nat (e_phnum eh)) as [|k] eqn:Ek; [lia|]. cbn [for_loop].
  assert (phdr_step f eh 0 (2 ^ 64 - 1) = None) as ->; [|done]. unfold phdr_step.
  rewrite Z.mul_0_l. change (u64 0) with 0. rewrite Z.add_0_r, (u64_small (e_phoff eh)) by lia.
  assert (e_phoff eh +64 sizeof_phdr = e_phoff eh + 56 - 2 ^ 64) as ->.
  { unfold u64, sizeof_phdr. rewrite <-(Z.mod_small (e_phoff eh + 56 - 2 ^ 64) (2 ^ 64)) by lia.
    replace (e_phoff eh + 56 - 2 ^ 64) with (e_phoff eh + 56 + (-1) * 2 ^ 64) by lia. by rewrite Z.mod_add. }
  destruct (Z.ltb_spec (flen f) (e_phoff eh + 56 - 2 ^ 64)); [lia|].
  assert (ld_phdr f (e_phoff eh) = None) as ->; [|done]. unfold ld_phdr, ld_u32, ld. pose proof Hm as [_ Hl]. unfold flen in *.
  destruct (Z.leb_spec (e_phoff eh + Z.of_nat 4) (Z.of_nat (length f))); [lia|]. by rewrite andb_false_r.
Qed.
End bounds.

(** ** The executable *)
Lemma before_sub_prefix w s : before_sub w s `prefix_of` s.
Proof. induction s as [|c s IH]; cbn [before_sub]; [done|]. case_bool_decide; [by eexists|by apply prefix_cons]. Qed.
Lemma before_sub_stops w a r : w ≠ [] → (length (before_sub w (a ++ w ++ r)) <= length a)%nat.
Proof.
  intros Hw. induction a as [|x a IH].
  - destruct w as [|y w]; [done|]. cbn [app before_sub]. rewrite bool_decide_eq_true_2; [cbn; lia|].
    change (y :: w ++ r) with ((y :: w) ++ r). by rewrite take_app_length.
  - cbn [app before_sub]. case_bool_decide; cbn [length]; lia.
Qed.
Lemma before_sub_free w s a b : w ≠ [] → before_sub w s ≠ a ++ w ++ b.
Proof.
  intros Hw E. destruct (before_sub_prefix w s) as [r Es]. rewrite E in Es.
  pose proof (before_sub_stops w a (b ++ r) Hw) as Hl. replace (a ++ w ++ b ++ r) with s in Hl by (rewrite Es; by rewrite <-!app_assoc).
  rewrite E, !length_app in Hl. destruct w; [done|cbn [length] in *; lia].
Qed.

Lemma map_line_path l lo p : map_line l = Some (lo, p) → ∃ q, p = before_sub DELETED q.
Proof.
  unfold map_line. destruct (scan_map l) as [[[lo' off] rest]|]; [|done]. cbn [mbind option_bind].
  destruct rest as [rest|]; [|done]. cbn [mbind option_bind]. destruct (negb _); [done|]. destruct (negb _); [done|].
  intros [= <- <-]. eauto.
Qed.

Lemma lower_exe p lo ms ms' : lower p lo ms = Some ms' → is_exe <$> ms' = is_exe <$> ms.
Proof.
  revert ms'. induction ms as [|m ms IH]; intros ms'; cbn [lower]; [done|]. case_bool_decide; [by intros [= <-]|].
  destruct (lower p lo ms) as [r|]; [|done]. intros [= <-]. rewrite !fmap_cons. f_equal. by apply IH.
Qed.

Lemma modules_deleted grant exe pre post ls ms mcap : exe = pre ++ DELETED ++ post →
  Forall (λ m, is_exe m = false) ms → Forall (λ m, is_exe m = false) (modules_loop grant exe ls ms mcap).
Proof.
  intros Hexe. revert ms mcap. induction ls as [|l ls IH]; intros ms mcap Hms; cbn [modules_loop]; [done|].
  destruct (map_line l) as [[lo p]|] eqn:El; [|by apply IH]. destruct (lower p lo ms) as [ms'|] eqn:Elo.
  { apply IH. apply lower_exe in Elo. assert (Forall (λ b, b = false) (is_exe <$> ms')) as Hb
      by (rewrite Elo; by apply Forall_fmap). by apply Forall_fmap in Hb. }
  destruct (map_line_path l lo p El) as [q ->].
  assert (Forall (λ m, is_exe m = false) (ms ++ [mk_mod (sn PATH_MAX (before_sub DELETED q)) lo
            (negb (bool_decide (exe = [])) && bool_decide (before_sub DELETED q = exe))])) as Hnew.
  { apply Forall_app. split; [done|]. apply Forall_singleton. cbn [is_exe].
    rewrite (bool_decide_eq_false_2 (before_sub DELETED q = exe)); [by rewrite andb_false_r|].
    rewrite Hexe. by apply before_sub_free. }
  case_match; [|by apply IH]. case_match; [by apply IH|done].
Qed.

(** An executable that was deleted or replaced while it runs is not recognized.
    The link of the process then ends in " (deleted)", the paths of the map file are
    compared to it with that suffix cut off, so no module is marked as the
    executable: its symbols are read from whatever file is now at its path instead
    of from the image that runs. *)
Theorem deleted_exe_not_marked grant maps p ms :
  (length (p ++ DELETED) < PATH_MAX)%nat → scan_modules grant maps (Some (p ++ DELETED)) = Some ms →
  ∀ m, m ∈ ms → is_exe m = false.
Proof.
  intros Hlen. unfold scan_modules. destruct maps as [text|]; [|done]. cbn [mbind option_bind default].
  destruct (grant _); [|done]. intros E%(inj Some) m Hm. revert m Hm. apply Forall_forall. subst ms.
  apply (modules_deleted grant _ p []); [|constructor]. unfold id. rewrite app_nil_r, take_ge; [done|lia].
Qed.

(** ** Looking up an address *)
(** The symbol's extent; one without a size is its first byte. *)
Definition inside (s : sym) (q : Z) : Prop := addr s <= q < addr s + Z.max 1 (size s).
(** A table sorted by address whose extents do not overlap and stay in the address
    space. *)
Definition apart (v : list sym) : Prop :=
  StronglySorted (λ x y, addr x + Z.max 1 (size x) <= addr y) v ∧
  Forall (λ s, 0 <= addr s ∧ 0 <= size s ∧ addr s + size s < 2 ^ 64) v.

Lemma at_loop_spec v q fuel lo hi :
  StronglySorted (λ x y, addr x <= addr y) v → 0 <= lo <= hi → hi <= Z.of_nat (length v) →
  hi - lo < Z.of_nat fuel →
  (∀ i s, v !! i = Some s → Z.of_nat i < lo → addr s <= q) →
  (∀ i s, v !! i = Some s → hi <= Z.of_nat i → q < addr s) →
  ∃ r, at_loop fuel v q lo hi = Some r ∧ 0 <= r <= Z.of_nat (length v) ∧
    (∀ i s, v !! i = Some s → Z.of_nat i < r → addr s <= q) ∧
    (∀ i s, v !! i = Some s → r <= Z.of_nat i → q < addr s).
Proof.
  intros Hs. revert lo hi. induction fuel as [|fuel IH]; intros lo hi Hlo Hhi Hf Hl Hr; cbn [at_loop]; [lia|].
  destruct (Z.ltb_spec lo hi) as [Hlt|]; [|exists lo; split_and!; [done|lia|lia|done|]; intros; apply (Hr i); [done|lia]].
  assert (lo <= lo + (hi - lo) / 2 < hi) as Hmid by dlia. set (mid := lo + (hi - lo) / 2) in *.
  destruct (v !! Z.to_nat mid) as [s|] eqn:Em; [|apply lookup_ge_None in Em; lia].
  destruct (Z.leb_spec (addr s) q).
  - apply IH; [lia..| |done]. intros i x Hi Hlt'. destruct (decide (i = Z.to_nat mid)) as [->|]; [by simplify_eq|].
    etrans; [|done]. apply (StronglySorted_index _ v i (Z.to_nat mid) x s Hs); [done|done|lia].
  - apply IH; [lia..|done|]. intros i x Hi Hge. destruct (decide (i = Z.to_nat mid)) as [->|]; [by simplify_eq|].
    eapply Z.lt_le_trans; [done|]. apply (StronglySorted_index _ v (Z.to_nat mid) i s x Hs); [done|done|lia].
Qed.

(** In any table sorted by address the answer is an entry with the greatest address
    at or below the query, and only if it covers it. *)
Lemma sym_at_nearest v q :
  StronglySorted (λ x y, addr x <= addr y) v →
  (sym_at v q = None ∧ ∀ s, s ∈ v → addr s <= q → ∃ s', s' ∈ v ∧ addr s <= addr s' <= q ∧ covers s' q = false) ∨
  (∃ s, sym_at v q = Some s ∧ s ∈ v ∧ addr s <= q ∧ covers s q = true ∧ ∀ s', s' ∈ v → addr s' <= q → addr s' <= addr s).
Proof.
  intros Hs. destruct (at_loop_spec v q (S (length v)) 0 (Z.of_nat (length v))) as (r & E & Hr & Hle & Hgt); [done|lia..| |].
  { intros i s Hi%lookup_lt_Some ?. lia. }
  unfold sym_at. rewrite E. destruct (Z.eqb_spec r 0) as [->|].
  { left. split; [done|]. intros s [i Hi]%list_elem_of_lookup ?. specialize (Hgt i s Hi). lia. }
  destruct (v !! Z.to_nat (r - 1)) as [s|] eqn:Es; [|apply lookup_ge_None in Es; lia]. cbn [mbind option_bind].
  assert (addr s <= q) by (apply (Hle (Z.to_nat (r - 1))); [done|lia]).
  assert (∀ s', s' ∈ v → addr s' <= q → addr s' <= addr s) as Hmax.
  { intros s' [i Hi]%list_elem_of_lookup Hq. destruct (decide (i = Z.to_nat (r - 1))) as [->|]; [by simplify_eq|].
    destruct (decide (Z.of_nat i < r)); [|specialize (Hgt i s' Hi); lia].
    apply (StronglySorted_index _ v i (Z.to_nat (r - 1)) s' s Hs); [done|done|lia]. }
  apply list_elem_of_lookup_2 in Es. destruct (covers s q) eqn:Ec.
  - right. exists s. eauto 10.
  - left. split; [done|]. intros s' Hs' Hq. exists s. eauto 10.
Qed.

Lemma apart_sorted v : apart v → StronglySorted (λ x y, addr x <= addr y) v.
Proof.
  intros [Hs _]. induction Hs as [|x v Hs IH Hall]; constructor; [done|].
  eapply Forall_impl; [exact Hall|]. intros y. cbn. lia.
Qed.

Lemma covers_inside s q : 0 <= addr s → 0 <= size s → addr s + size s < 2 ^ 64 → addr s <= q →
  covers s q = true ↔ inside s q.
Proof.
  intros. unfold covers, inside. destruct (Z.eqb_spec (size s) 0); [rewrite Z.eqb_eq; lia|].
  rewrite Z.ltb_lt, u64_small by lia. lia.
Qed.

Lemma apart_inside v s s' q : apart v → s ∈ v → s' ∈ v → inside s q → addr s <= addr s' → addr s' <= q → s = s'.
Proof.
  intros [Hs _] [i Hi]%list_elem_of_lookup [j Hj]%list_elem_of_lookup Hin Ha Hq. unfold inside in Hin.
  destruct (Nat.lt_total i j) as [Hij|[->|Hij]]; [|by simplify_eq|].
  - pose proof (StronglySorted_index _ v i j s s' Hs Hi Hj Hij) as H. cbn in H. lia.
  - pose proof (StronglySorted_index _ v j i s' s Hs Hj Hi Hij) as H. cbn in H. lia.
Qed.

Lemma sym_at_apart v q s : apart v → sym_at v q = Some s ↔ s ∈ v ∧ inside s q.
Proof.
  intros Hv. pose proof Hv as [_ Hok]. rewrite Forall_forall in Hok. split.
  - intros E. destruct (sym_at_nearest v q (apart_sorted v Hv)) as [[E' _]|(s' & E' & Hin & Hle & Hc & _)]; [congruence|].
    assert (s' = s) as -> by congruence. split; [done|]. destruct (Hok s Hin) as (? & ? & ?). by apply covers_inside.
  - intros [Hin Hq]. destruct (sym_at_nearest v q (apart_sorted v Hv)) as [[_ Hno]|(s' & -> & Hin' & Hle & Hc & Hmax)].
    + destruct (Hno s Hin) as (s' & Hin' & [? ?] & Hc); [unfold inside in Hq; lia|].
      assert (s = s') as -> by (by eapply apart_inside). destruct (Hok s' Hin') as (? & ? & ?).
      apply covers_inside in Hq; [congruence|done|done|done|done].
    + f_equal. symmetry. eapply apart_inside; [done..|apply Hmax; [done|unfold inside in Hq; lia]|done].
Qed.

(** An address resolves to the function it lies in, and to nothing else.  In a
    table sorted by address whose symbols do not overlap, the binary search returns
    a symbol exactly when the address is inside its extent (the first byte for a
    symbol without a size), and nothing for an address between two symbols. *)
Theorem symtab_at_exact v q s : apart v → asmspy_symtab_at v q = Some s ↔ s ∈ v ∧ inside s q.
Proof. apply sym_at_apart. Qed.

(** ** Concrete processes *)
Definition odd_elf (phoff : Z) : list Z :=
  ELFMAG ++ [2] ++ replicate 11 0 ++ to_le 2 3 ++ to_le 2 62 ++ to_le 4 1 ++ to_le 8 0 ++ to_le 8 phoff ++ to_le 8 64 ++
  to_le 4 0 ++ to_le 2 64 ++ to_le 2 56 ++ to_le 2 1 ++ to_le 2 64 ++ to_le 2 0 ++ to_le 2 0.
Definition odd_fs (phoff : Z) : files := λ _, Some (odd_elf phoff).
Definition odd_maps : list Z := codes "00401000-00402000 r-xp 00000000 08:01 77 /bin/app" ++ [10].
Definition addr_sort : list sym → list sym := msort sym_cmp_addr.

Lemma addr_QSort : QSort sym_cmp_addr addr_sort.
Proof.
  apply msort_QSort. intros x y. unfold cmp_le, sym_cmp_addr.
  destruct (Z.ltb_spec (addr x) (addr y)), (Z.ltb_spec (addr y) (addr x)); lia.
Qed.

Lemma odd_mapped phoff : mapped (odd_elf phoff).
Proof.
  split; [|reflexivity]. unfold odd_elf. rewrite !Forall_app. split_and!; try apply to_le_bytes;
    apply (bool_decide_eq_true_1 (Forall is_byte _)); vm_compute; reflexivity.
Qed.

Lemma symtab_load_in_bounds_witness :
  ∃ ok v, asmspy_symtab_load always (λ _, None) addr_sort (odd_fs 4096) [] (Some odd_maps) None 1 = Some (ok, v) ∧
          Sorted (λ x y, addr x <= addr y) v.
Proof.
  apply (symtab_load_in_bounds always (λ _, None) addr_sort (odd_fs 4096) [] (Some odd_maps) None 1).
  - exact addr_QSort.
  - intros p f E. injection E as <-. apply odd_mapped.
  - intros p f eh E1 E2. vm_compute in E1. injection E1 as <-. vm_compute in E2. injection E2 as <-. reflexivity.
Defined.

Lemma phdr_wrap_reads_outside_witness :
  load_module_syms always (λ _, None) (odd_fs (2 ^ 64 - 56)) [] 1 (mk_mod (codes "/bin/app") 4096 true) (mk_tab [] 0) = None.
Proof.
  apply (phdr_wrap_reads_outside always (λ _, None) (odd_fs (2 ^ 64 - 56)) [] 1 (mk_mod (codes "/bin/app") 4096 true)
           (mk_tab [] 0) (odd_elf (2 ^ 64 - 56)) (mk_ehdr 3 (2 ^ 64 - 56) 64 56 1 64 0 0)).
  - vm_compute. reflexivity.
  - apply odd_mapped.
  - vm_compute. reflexivity.
  - vm_compute. reflexivity.
  - vm_compute. discriminate.
  - vm_compute. discriminate.
  - reflexivity.
Defined.

Lemma deleted_exe_not_marked_witness :
  scan_modules always (Some (codes "00401000-00402000 r-xp 00000000 08:01 77 /bin/app (deleted)" ++ [10]))
    (Some (codes "/bin/app" ++ DELETED)) = Some [mk_mod (codes "/bin/app") 0x401000 false] ∧
  is_exe (mk_mod (codes "/bin/app") 0x401000 false) = false.
Proof.
  assert (scan_modules always (Some (codes "00401000-00402000 r-xp 00000000 08:01 77 /bin/app (deleted)" ++ [10]))
    (Some (codes "/bin/app" ++ DELETED)) = Some [mk_mod (codes "/bin/app") 0x401000 false]) as E by (vm_compute; reflexivity).
  split; [exact E|].
  apply (deleted_exe_not_marked always _ (codes "/bin/app") _ ltac:(apply Nat.ltb_lt; vm_compute; reflexivity) E).
  left.
Defined.

Definition demo_table : list sym :=
  [mk_sym 0x1000 16 (codes "f") []; mk_sym 0x1020 0 (codes "label") []; mk_sym 0x1030 8 (codes "g") []].
Lemma symtab_at_exact_witness :
  asmspy_symtab_at demo_table 0x1008 = Some (mk_sym 0x1000 16 (codes "f") []) ↔
  mk_sym 0x1000 16 (codes "f") [] ∈ demo_table ∧ inside (mk_sym 0x1000 16 (codes "f") []) 0x1008.
Proof.
  apply (symtab_at_exact demo_table 0x1008 (mk_sym 0x1000 16 (codes "f") [])).
  split; [repeat constructor; discriminate|]. repeat constructor; discriminate.
Defined.
End SymTab.
