(* ===== verification/ElfImage.v ===== *)
(** What an ELF file is, as a layout of structures at offsets, and the symbols the
    reader of [cli/asmspy_proc.c] finds in one: the functions of the module at
    their runtime addresses, whatever the order and the padding of the file. *)
From S2P Require Import Prelude Bytes Format Json VmMap Elf SymTab.
Import Json Elf SymTab.

Module ElfImage.
Open Scope Z_scope.

(** ** Structures as bytes *)
Definition ehdr_fields (e : ehdr) : fields :=
  [(2%nat, e_type e); (2%nat, 62); (4%nat, 1); (8%nat, 0); (8%nat, e_phoff e); (8%nat, e_shoff e); (4%nat, 0); (2%nat, 64);
   (2%nat, e_phentsize e); (2%nat, e_phnum e); (2%nat, e_shentsize e); (2%nat, e_shnum e); (2%nat, e_shstrndx e)].
Definition enc_ehdr (e : ehdr) : list Z :=
  (ELFMAG ++ [ELFCLASS64] ++ replicate 11 0) ++ enc_fields (ehdr_fields e).
Definition shdr_fields (s : shdr) : fields :=
  [(4%nat, sh_name s); (4%nat, sh_type s); (8%nat, 0); (8%nat, sh_addr s); (8%nat, sh_offset s); (8%nat, sh_size s);
   (4%nat, sh_link s); (4%nat, 0); (8%nat, 0); (8%nat, sh_entsize s)].
Definition phdr_fields (p : phdr) : fields :=
  [(4%nat, p_type p); (4%nat, 5); (8%nat, p_offset p); (8%nat, p_vaddr p); (8%nat, p_vaddr p); (8%nat, 0); (8%nat, 0); (8%nat, 0)].
Definition sym_fields (y : esym) : fields :=
  [(4%nat, st_name y); (1%nat, st_info y); (1%nat, 0); (2%nat, st_shndx y); (8%nat, st_value y); (8%nat, st_size y)].

Record ehdr_ok (e : ehdr) : Prop := {
  eo_type : 0 <= e_type e < 2 ^ 16; eo_phoff : is_u64 (e_phoff e); eo_shoff : is_u64 (e_shoff e);
  eo_phents : 0 <= e_phentsize e < 2 ^ 16; eo_phnum : 0 <= e_phnum e < 2 ^ 16;
  eo_shents : 0 <= e_shentsize e < 2 ^ 16; eo_shnum : 0 <= e_shnum e < 2 ^ 16; eo_shstrndx : 0 <= e_shstrndx e < 2 ^ 16 }.
Definition phdr_ok (p : phdr) : Prop := is_u32 (p_type p) ∧ is_u64 (p_offset p) ∧ is_u64 (p_vaddr p).
Definition esym_ok (y : esym) : Prop :=
  is_u32 (st_name y) ∧ is_byte (st_info y) ∧ 0 <= st_shndx y < 2 ^ 16 ∧ is_u64 (st_value y) ∧ is_u64 (st_size y).

(** Reads field [i] of the structure [l] that [H] places in the file. *)
Ltac fld H l i :=
  match goal with
  | |- ld _ _ ?k ≫= _ = _ =>
      rewrite (fields_ld _ _ l i _ _ k H eq_refl);
      [cbn [mbind option_bind]|unfold offset_of; cbn; lia|cbn; unfold is_u64, is_u32, is_byte in *; lia]
  end.

Lemma ehdr_read f e : lies f 0 (enc_ehdr e) → ehdr_ok e → ld_ehdr f = Some e.
Proof.
  intros [_ H]%lies_app []. unfold ld_ehdr, ld_u16, ld_u64.
  fld H (ehdr_fields e) 0%nat. fld H (ehdr_fields e) 4%nat. fld H (ehdr_fields e) 5%nat. fld H (ehdr_fields e) 8%nat.
  fld H (ehdr_fields e) 9%nat. fld H (ehdr_fields e) 10%nat. fld H (ehdr_fields e) 11%nat. fld H (ehdr_fields e) 12%nat.
  by destruct e.
Qed.
Lemma shdr_read f o s : lies f o (enc_fields (shdr_fields s)) → shdr_ok s → ld_shdr f o = Some s.
Proof.
  intros H []. unfold ld_shdr, ld_u32, ld_u64.
  fld H (shdr_fields s) 0%nat. fld H (shdr_fields s) 1%nat. fld H (shdr_fields s) 3%nat. fld H (shdr_fields s) 4%nat.
  fld H (shdr_fields s) 5%nat. fld H (shdr_fields s) 6%nat. fld H (shdr_fields s) 9%nat. by destruct s.
Qed.
Lemma phdr_read f o p : lies f o (enc_fields (phdr_fields p)) → phdr_ok p → ld_phdr f o = Some p.
Proof.
  intros H (? & ? & ?). unfold ld_phdr, ld_u32, ld_u64.
  fld H (phdr_fields p) 0%nat. fld H (phdr_fields p) 2%nat. fld H (phdr_fields p) 3%nat. by destruct p.
Qed.
Lemma sym_read f o y : lies f o (enc_fields (sym_fields y)) → esym_ok y → ld_sym f o = Some y.
Proof.
  intros H (? & ? & ? & ? & ?). unfold ld_sym, ld_u16, ld_u32, ld_u64.
  fld H (sym_fields y) 0%nat. fld H (sym_fields y) 1%nat. fld H (sym_fields y) 3%nat. fld H (sym_fields y) 4%nat.
  fld H (sym_fields y) 5%nat. by destruct y.
Qed.

(** ** Images *)
(** A name of a string table. *)
Definition named (f : list Z) (tab : shdr) (nm : Z) (s : list Z) : Prop :=
  0 <= nm ∧ (0 ∉ s) ∧ nm + Z.of_nat (length s) < sh_size tab ∧ lies f (sh_offset tab + nm) (s ++ [0]).
(** The entries of a symbol table with their names. *)
Record symbols (f : list Z) (s strh : shdr) (l : list (esym * list Z)) : Prop := {
  sy_ents : sizeof_sym <= sh_entsize s;
  sy_size : sh_size s = Z.of_nat (length l) * sh_entsize s;
  sy_in : sh_offset s + sh_size s <= flen f;
  sy_str : sh_offset strh + sh_size strh <= flen f;
  sy_at j y nm : l !! j = Some (y, nm) →
    esym_ok y ∧ named f strh (st_name y) nm ∧
    lies f (sh_offset s + Z.of_nat j * sh_entsize s) (enc_fields (sym_fields y)) }.
(** The file of a module: its headers, its sections with the entries of those that
    are symbol tables, and its segments. *)
Record image (f : list Z) (eh : ehdr) (secs : list (shdr * list (esym * list Z))) (phs : list phdr) : Prop := {
  im_mapped : mapped f;
  im_ehdr : lies f 0 (enc_ehdr eh);
  im_ehdr_ok : ehdr_ok eh;
  im_shoff : e_shoff eh ≠ 0;
  im_shents : sizeof_shdr <= e_shentsize eh;
  im_shnum : e_shnum eh = Z.of_nat (length secs);
  im_shin : e_shoff eh + e_shnum eh * e_shentsize eh <= flen f;
  im_shdr i s l : secs !! i = Some (s, l) →
    shdr_ok s ∧ lies f (e_shoff eh + Z.of_nat i * e_shentsize eh) (enc_fields (shdr_fields s));
  im_syms i s l : secs !! i = Some (s, l) → sh_type s = SHT_SYMTAB →
    ∃ strh l', secs !! Z.to_nat (sh_link s) = Some (strh, l') ∧ sh_offset strh < flen f ∧ symbols f s strh l;
  im_phoff : e_phoff eh ≠ 0;
  im_phents : sizeof_phdr <= e_phentsize eh;
  im_phnum : e_phnum eh = Z.of_nat (length phs);
  im_phin : e_phoff eh + e_phnum eh * e_phentsize eh <= flen f;
  im_phdr i p : phs !! i = Some p → phdr_ok p ∧ lies f (e_phoff eh + Z.of_nat i * e_phentsize eh) (enc_fields (phdr_fields p)) }.

(** ** What the module defines *)
Definition is_func (y : esym) : bool :=
  (Z.land (st_info y) 15 =? STT_FUNC) && negb (st_shndx y =? 0) && negb (st_value y =? 0).
(** The name shown for a symbol. *)
Definition shown (cxa : list Z → option (list Z)) (nm : list Z) : list Z := default nm (demangle_dup always cxa nm).
Definition function (cxa : list Z → option (list Z)) (bias : Z) (md : list Z) (e : esym * list Z) : option sym :=
  if is_func e.1 && negb (bool_decide (e.2 = [])) then Some (mk_sym (bias +64 st_value e.1) (st_size e.1) (shown cxa e.2) md)
  else None.
Definition functions (cxa : list Z → option (list Z)) (bias : Z) (md : list Z)
    (secs : list (shdr * list (esym * list Z))) : list sym :=
  concat ((λ sl, if sh_type sl.1 =? SHT_SYMTAB then omap (function cxa bias md) sl.2 else []) <$> secs).
(** The lowest address of a loaded segment. *)
Definition lowest (phs : list phdr) (v : Z) : Prop :=
  (∃ p, p ∈ phs ∧ p_type p = PT_LOAD ∧ p_vaddr p = v) ∧ ∀ p, p ∈ phs → p_type p = PT_LOAD → v <= p_vaddr p.
Definition is_stub (cxa : list Z → option (list Z)) (s : sym) : Prop := ∃ nm, name s = shown cxa (sn 160 (nm ++ AT_PLT)).

(** ** Reading an image *)
Lemma image_ok f eh secs phs : image f eh secs phs → elf_ok f = Some true ∧ ld_ehdr f = Some eh ∧ table_ok f eh.
Proof.
  intros I. pose proof (ehdr_read f eh (im_ehdr _ _ _ _ I) (im_ehdr_ok _ _ _ _ I)) as Hr.
  destruct I as [Hm He [] ? ? Hn Hin _ _ ? ? ? ? _]. split_and!; [|done|].
  - pose proof (lies_in _ _ _ He) as [_ Hl]. unfold elf_ok.
    assert (sizeof_ehdr <= flen f) by (unfold enc_ehdr in Hl; rewrite length_app, Nat2Z.inj_add, length_enc_fields in Hl;
      unfold offset_of in Hl; cbn in Hl; unfold sizeof_ehdr, flen; lia).
    destruct (Z.ltb_spec (flen f) sizeof_ehdr); [lia|].
    apply lies_app in He as [He _]. rewrite (lies_sub f 0 _ 16 He) by done. rewrite Hr. cbn [mbind option_bind].
    rewrite bool_decide_eq_true_2 by done. cbn -[Z.div Z.mul Z.sub]. unfold sizeof_shdr, sizeof_phdr, is_u64 in *.
    destruct (Z.eqb_spec (e_shoff eh) 0); [done|]. destruct (Z.ltb_spec (e_shentsize eh) 64); [lia|]. cbn [orb].
    assert (0 <= e_shnum eh * e_shentsize eh) by nia.
    destruct (Z.ltb_spec (flen f) (e_shoff eh)); [lia|]. cbn [orb].
    destruct (Z.ltb_spec ((flen f - e_shoff eh) / e_shentsize eh) (e_shnum eh)) as [Hd|]; [|done].
    assert (e_shnum eh <= (flen f - e_shoff eh) / e_shentsize eh) by (apply Z.div_le_lower_bound; lia). lia.
  - split; unfold is_u64 in *; try done; lia.
Qed.

Lemma image_shdr f eh secs phs i s l : image f eh secs phs → secs !! i = Some (s, l) →
  shdr_at f eh (Z.of_nat i) = Some s ∧ shdr_ok s.
Proof.
  intros I Hi. destruct (im_shdr _ _ _ _ I i s l Hi) as [Hs Hl]. split; [|done]. unfold shdr_at.
  pose proof (lies_in _ _ _ Hl) as [_ Hin]. pose proof (im_mapped _ _ _ _ I) as [_ ?].
  pose proof (im_shents _ _ _ _ I). pose proof (eo_shoff _ (im_ehdr_ok _ _ _ _ I)). unfold is_u64, flen, sizeof_shdr in *.
  assert (0 <= Z.of_nat i * e_shentsize eh) by nia.
  rewrite (u64_small (Z.of_nat i * _)), u64_small by lia. by apply shdr_read.
Qed.

Lemma before_nul_app s r : 0 ∉ s → before_nul (s ++ 0 :: r) = Some s.
Proof.
  induction s as [|c s IH]; [done|]. intros Hn. cbn [app before_nul]. destruct (Z.eqb_spec c 0) as [->|]; [set_solver|].
  rewrite IH by set_solver. done.
Qed.

Lemma named_read f tab nm s : mapped f → shdr_ok tab → sh_offset tab + sh_size tab <= flen f → named f tab nm s →
  name_at f tab nm = Some (Some s).
Proof.
  intros [_ Hl] [] Hin (Hn & Hs & Hsz & (pre & post & -> & Hp)). unfold is_u64 in *. unfold name_at.
  assert (clamp (pre ++ (s ++ [0]) ++ post) tab = sh_size tab) as ->.
  { unfold clamp. case_match eqn:E; [done|]. apply Z.leb_gt in E. lia. }
  destruct (Z.leb_spec (sh_size tab) nm); [lia|]. rewrite u64_small by lia. unfold flen in *. rewrite !length_app in *. cbn [length] in *.
  rewrite <-(take_drop (Z.to_nat (sh_size tab - nm) - length (s ++ [0])) post), (app_assoc (s ++ [0])).
  rewrite (sub_bytes_spec pre); [|lia|]; rewrite <-!app_assoc; cbn [app].
  - by rewrite fmap_Some_2 with (x := s ++ 0 :: take (Z.to_nat (sh_size tab - nm) - length (s ++ [0])) post);
      [rewrite before_nul_app|].
  - rewrite length_app. cbn [length]. rewrite length_take, length_app. cbn [length]. lia.
Qed.

(** A loop over the entries of a list. *)
Lemma for_loop_list {A B} (g : A → B → A) (l : list B) lo (body : Z → A → option (bool * A)) a :
  (∀ i x a, l !! i = Some x → body (lo + Z.of_nat i) a = Some (true, g a x)) →
  for_loop (length l) lo body a = Some (true, foldl g a l).
Proof.
  revert lo a. induction l as [|x l IH]; intros lo a Hb; cbn [length for_loop foldl]; [done|].
  pose proof (Hb O x a eq_refl) as E. rewrite Z.add_0_r in E. rewrite E. cbn [mbind option_bind].
  apply IH. intros i y b Hi. rewrite <-(Hb (S i) y b Hi). f_equal. lia.
Qed.

Section exact.
Context (cxa : list Z → option (list Z)).

(** A push never fails and adds the symbol, unless it has no name. *)
Lemma sym_push_always t a sz nm md :
  ∃ t', sym_push always cxa t a sz nm md = (true, t') ∧
        syms t' = syms t ++ (if bool_decide (nm = []) then [] else [mk_sym a sz (shown cxa nm) md]).
Proof.
  unfold sym_push, shown. case_bool_decide; [exists t; by rewrite app_nil_r|]. unfold always, strdup. cbn.
  destruct (Z.of_nat (length (syms t)) =? cap t); destruct (demangle_dup _ _ _); by eexists.
Qed.

Definition push_sym (bias : Z) (md : list Z) (t : symtab) (e : esym * list Z) : symtab :=
  if is_func e.1 then (sym_push always cxa t (bias +64 st_value e.1) (st_size e.1) e.2 md).2 else t.

Lemma push_syms_all bias md l t : syms (foldl (push_sym bias md) t l) = syms t ++ omap (function cxa bias md) l.
Proof.
  revert t. induction l as [|[y nm] l IH]; intros t; cbn [foldl]; [by rewrite app_nil_r|].
  rewrite IH. unfold push_sym, function. cbn [omap list_omap fst snd]. destruct (is_func y); cbn [andb]; [|done].
  destruct (sym_push_always t (bias +64 st_value y) (st_size y) nm md) as (t' & -> & E). cbn [snd]. rewrite E.
  case_bool_decide; cbn [negb]; by rewrite ?app_nil_r, <-?app_assoc.
Qed.

Lemma sym_step_exact f s strh l bias md j y nm t :
  mapped f → shdr_ok s → shdr_ok strh → symbols f s strh l → l !! j = Some (y, nm) →
  sym_step always cxa f s strh bias md (0 + Z.of_nat j) t = Some (true, push_sym bias md t (y, nm)).
Proof.
  intros Hm Hs Hstr [He Hsz Hin Hin' Hat] Hj. destruct (Hat j y nm Hj) as (Hy & Hn & Hl).
  pose proof (lies_in _ _ _ Hl) as [_ Hle]. pose proof Hm as [_ ?]. pose proof (so_offset s Hs).
  unfold is_u64, sizeof_sym, flen in *. assert (0 <= Z.of_nat j * sh_entsize s) by nia.
  unfold sym_step. rewrite Z.add_0_l, (u64_small (Z.of_nat j * _)), u64_small by lia.
  rewrite (sym_read f _ y) by done. cbn [mbind option_bind]. unfold push_sym, is_func. cbn [fst snd].
  destruct (Z.land (st_info y) 15 =? STT_FUNC); cbn [negb andb]; [|done].
  destruct (st_shndx y =? 0); cbn [orb negb andb]; [done|]. destruct (st_value y =? 0); cbn [negb]; [done|].
  rewrite (named_read f strh _ nm) by done. cbn [mbind option_bind].
  destruct (sym_push_always t (bias +64 st_value y) (st_size y) nm md) as (t' & -> & _). done.
Qed.

Definition scan_sec (bias : Z) (md : list Z) (st : bool * symtab) (sl : shdr * list (esym * list Z)) : bool * symtab :=
  if sh_type sl.1 =? SHT_SYMTAB then (true, foldl (push_sym bias md) st.2 sl.2) else st.

Lemma section_step_exact f eh secs phs bias md i s l st :
  image f eh secs phs → secs !! i = Some (s, l) →
  section_step always cxa f eh SHT_SYMTAB bias md (0 + Z.of_nat i) st = Some (true, scan_sec bias md st (s, l)).
Proof.
  intros I Hi. destruct st as [found t]. unfold section_step, scan_sec. cbn [fst snd].
  rewrite Z.add_0_l. destruct (image_shdr f eh secs phs i s l I Hi) as [-> Hs]. cbn [mbind option_bind].
  destruct (Z.eqb_spec (sh_type s) SHT_SYMTAB) as [Ety|]; cbn [negb]; [|done].
  destruct (im_syms _ _ _ _ I i s l Hi Ety) as (strh & l' & Hlink & Ho & Hsy).
  pose proof (so_link s Hs) as Hk. unfold is_u32 in Hk.
  destruct (image_shdr f eh secs phs (Z.to_nat (sh_link s)) strh l' I Hlink) as [Estr Hstr].
  rewrite Z2Nat.id in Estr by lia. rewrite Estr.
  pose proof (lookup_lt_Some _ _ _ Hlink). rewrite (im_shnum _ _ _ _ I).
  pose proof Hsy as [He Hsz Hin _ _]. pose proof (so_offset s Hs). pose proof (so_size s Hs). unfold is_u64 in *.
  destruct (Z.ltb_spec (sh_entsize s) sizeof_sym); [lia|]. destruct (Z.leb_spec (Z.of_nat (length secs)) (sh_link s)); [lia|].
  cbn [orb mbind option_bind]. destruct (Z.leb_spec (flen f) (sh_offset strh)); [lia|].
  destruct (Z.ltb_spec (flen f) (sh_offset s)); [lia|]. destruct (Z.ltb_spec (flen f - sh_offset s) (sh_size s)); [lia|].
  cbn [orb]. rewrite Hsz, Z.div_mul, Nat2Z.id by (unfold sizeof_sym in *; lia).
  rewrite (for_loop_list (push_sym bias md)); [done|].
  intros j [y nm] a Hj. apply (sym_step_exact f s strh l); [apply I|done..].
Qed.

Lemma scan_secs_all bias md secs st :
  syms (foldl (scan_sec bias md) st secs).2 = syms st.2 ++ functions cxa bias md secs ∧
  ((foldl (scan_sec bias md) st secs).1 = true ↔ st.1 = true ∨ ∃ sl, sl ∈ secs ∧ sh_type sl.1 = SHT_SYMTAB).
Proof.
  revert st. induction secs as [|[s l] secs IH]; intros st; cbn [foldl].
  { unfold functions. cbn. rewrite app_nil_r. split; [done|]. set_solver. }
  destruct (IH (scan_sec bias md st (s, l))) as [-> ->]. unfold functions, scan_sec. cbn [fmap list_fmap concat fst snd].
  destruct (Z.eqb_spec (sh_type s) SHT_SYMTAB) as [E|E]; cbn [fst snd].
  - rewrite push_syms_all, <-app_assoc. split; [done|]. split; [|by left]. intros _. right. exists (s, l). split; [by left|done].
  - split; [done|]. split.
    + intros [|(sl & ? & ?)]; [by left|right]. exists sl. split; [by right|done].
    + intros [|(sl & [->|]%elem_of_cons & ?)]; [by left|done|right]. eauto.
Qed.

Lemma scan_elf_syms_exact f eh secs phs bias md t :
  image f eh secs phs → (∃ sl, sl ∈ secs ∧ sh_type sl.1 = SHT_SYMTAB) →
  ∃ t', scan_elf_syms always cxa f SHT_SYMTAB bias md t = Some (1, t') ∧ syms t' = syms t ++ functions cxa bias md secs.
Proof.
  intros I Hex. destruct (image_ok f eh secs phs I) as (Hok & Heh & _). unfold scan_elf_syms. rewrite Hok, Heh.
  cbn [mbind option_bind negb]. rewrite (im_shnum _ _ _ _ I), Nat2Z.id.
  rewrite (for_loop_list (scan_sec bias md)) by (intros i [s l] a Hi; by eapply section_step_exact).
  destruct (scan_secs_all bias md secs (false, t)) as [E1 E2]. cbn [mbind option_bind].
  destruct (foldl _ _ secs) as [found t'] eqn:E. cbn [fst snd] in *. exists t'. split; [|done].
  assert (found = true) as -> by (apply E2; by right). done.
Qed.

(** ** The bias *)
Definition low_step (m : Z) (p : phdr) : Z := if (p_type p =? PT_LOAD) && (p_vaddr p <? m) then p_vaddr p else m.

Lemma low_step_min phs m v : lowest phs v → v < m → foldl low_step m phs = v.
Proof.
  intros [(p & Hp & Hty & <-) Hmin].
  assert (∀ phs m, (∀ q, q ∈ phs → p_type q = PT_LOAD → p_vaddr p <= p_vaddr q) → p_vaddr p <= m →
            p ∈ phs ∨ m = p_vaddr p → foldl low_step m phs = p_vaddr p) as H.
  { clear -Hty. intros phs. induction phs as [|q phs IH]; intros m Hq Hm Hin; cbn [foldl]; [set_solver|].
    apply IH; [set_solver|..].
    - unfold low_step. case_match eqn:E; [|done]. apply andb_true_iff in E as [E%Z.eqb_eq _]. apply Hq; [by left|done].
    - rewrite elem_of_cons in Hin. destruct Hin as [[<-|]| ->]; [|by left|]; right; unfold low_step.
      + rewrite Hty, Z.eqb_refl. cbn [andb]. destruct (Z.ltb_spec (p_vaddr p) m); lia.
      + destruct (Z.eqb_spec (p_type q) PT_LOAD); [|done]. cbn [andb].
        destruct (Z.ltb_spec (p_vaddr q) (p_vaddr p)); [|done]. specialize (Hq q ltac:(by left)). lia. }
  intros Hv. apply H; [done|lia|by left].
Qed.

Lemma min_vaddr_exact f eh secs phs v : image f eh secs phs → lowest phs v → v < 2 ^ 64 - 1 → min_vaddr f eh = Some v.
Proof.
  intros I Hlow Hv. destruct I as [[_ Hl] _ Heh _ _ _ _ _ _ Hpo Hpe Hpn Hpin Hph]. pose proof (eo_phoff _ Heh).
  unfold min_vaddr. unfold sizeof_phdr, is_u64 in *.
  destruct (Z.eqb_spec (e_phoff eh) 0); [done|]. destruct (Z.leb_spec 56 (e_phentsize eh)); [|lia]. cbn [negb andb].
  rewrite Hpn, Nat2Z.id. rewrite (for_loop_list low_step).
  - cbn [mbind option_bind]. rewrite (low_step_min phs _ v) by (done || lia). destruct (Z.eqb_spec v (2 ^ 64 - 1)); [lia|done].
  - intros i p m Hi. destruct (Hph i p Hi) as [Hp Hlies]. pose proof (lies_in _ _ _ Hlies) as [_ Hin].
    rewrite length_enc_fields in Hin. unfold offset_of in Hin. cbn in Hin. unfold flen in *.
    assert (0 <= Z.of_nat i * e_phentsize eh) by nia.
    unfold phdr_step, sizeof_phdr. rewrite Z.add_0_l, (u64_small (Z.of_nat i * _)), (u64_small (e_phoff eh + _)), u64_small by lia.
    unfold flen. destruct (Z.ltb_spec (Z.of_nat (length f)) (e_phoff eh + Z.of_nat i * e_phentsize eh + 56)); [lia|].
    by rewrite (phdr_read f _ p).
Qed.

(** ** Stubs *)
Lemma for_loop_inv {A} (P : A → Prop) n lo (body : Z → A → option (bool * A)) a go a' :
  (∀ i a go a', P a → body i a = Some (go, a') → P a') → P a → for_loop n lo body a = Some (go, a') → P a'.
Proof.
  intros Hb. revert lo a. induction n as [|n IH]; intros lo a Ha; cbn [for_loop]; [by intros [= <- <-]|].
  destruct (body lo a) as [[g x]|] eqn:E; [|done]. cbn [mbind option_bind]. specialize (Hb _ _ _ _ Ha E).
  destruct g; [by apply IH|by intros [= <- <-]].
Qed.

Lemma plt_stubs f eh bias md t t' : plt_syms always cxa f eh bias md t = Some t' →
  ∃ stubs, syms t' = syms t ++ stubs ∧ Forall (is_stub cxa) stubs.
Proof.
  assert (∃ stubs, syms t = syms t ++ stubs ∧ Forall (is_stub cxa) stubs) as Hnone by (exists []; by rewrite app_nil_r).
  unfold plt_syms. destruct (_ || _); [by intros [= <-]|]. destruct (shdr_at _ _ _) as [shstr|]; [|done]. cbn [mbind option_bind].
  destruct (flen f <=? _); [by intros [= <-]|]. destruct (for_loop _ _ _ _) as [[go p]|]; [|done]. cbn [mbind option_bind].
  destruct (ps_rela p) as [rel|]; [|by intros [= <-]]. destruct (match ps_pltsec p with Some _ => _ | None => _ end) as [stub|];
    [|by intros [= <-]]. destruct (_ || _); [by intros [= <-]|].
  destruct (shdr_at _ _ _) as [dsym|]; [|done]. cbn [mbind option_bind]. destruct (_ <=? _); [by intros [= <-]|].
  destruct (shdr_at _ _ _) as [dstr|]; [|done]. cbn [mbind option_bind]. destruct (_ || _); [by intros [= <-]|].
  destruct (for_loop _ _ (plt_step _ _ _ _ _ _ _ _ _ _ _) _) as [[go' t2]|] eqn:E; [|done]. cbn [mbind option_bind].
  intros [= <-]. revert E. apply (for_loop_inv (λ x, ∃ stubs, syms x = syms t ++ stubs ∧ Forall (is_stub cxa) stubs)); [|done].
  intros i x g x' (st & Ex & Hst). unfold plt_step. destruct (ld_rela _ _); [|done]. cbn [mbind option_bind].
  assert (∀ g', Some (g', x) = Some (g, x') → ∃ stubs, syms x' = syms t ++ stubs ∧ Forall (is_stub cxa) stubs) as Hsame
    by (intros g' [= _ <-]; eauto).
  destruct (negb _); [apply Hsame|]. destruct (_ || _); [apply Hsame|].
  destruct (ld_sym _ _); [|done]. cbn [mbind option_bind]. destruct (name_at _ _ _) as [nm|]; [|done]. cbn [mbind option_bind].
  destruct nm as [[|c nm]|]; [apply Hsame| |apply Hsame].
  match goal with |- context [sym_push always cxa x ?a ?z ?n ?m] => destruct (sym_push_always x a z n m) as (y & -> & Ey) end.
  intros [= _ <-]. rewrite Ey, Ex. eexists. split; [by rewrite <-app_assoc|]. apply Forall_app. split; [done|].
  case_bool_decide; [constructor|]. apply Forall_singleton. by exists (c :: nm).
Qed.

(** C28: the functions of a module are found and put at their runtime address.  For
    any file that is an ELF image - headers, sections and segments at whatever
    offsets, any number of symbol tables - with a symbol table and at least one
    loaded segment, loading the module adds, in the order of the file, every
    function symbol with its name (demangled), its size and its value moved by the
    distance between the mapping and the lowest segment, and besides these only
    linkage stubs; no debug file is consulted. *)
Theorem module_symbols_exact fs dd pid m t f eh secs phs v :
  map_file fs (if is_exe m then exe_path pid else path m) = Some f →
  image f eh secs phs → (∃ sl, sl ∈ secs ∧ sh_type sl.1 = SHT_SYMTAB) →
  lowest phs v → v < 2 ^ 64 - 1 →
  ∃ t' stubs, load_module_syms always cxa fs dd pid m t = Some t' ∧
    syms t' = syms t ++ functions cxa (load_start m -64 v) (VmMap.behind SLASH (path m)) secs ++ stubs ∧
    Forall (is_stub cxa) stubs.
Proof.
  intros Hf I Hex Hlow Hv. destruct (image_ok f eh secs phs I) as (Hok & Heh & Ht).
  unfold load_module_syms. rewrite Hf, Hok. cbn [mbind option_bind negb]. rewrite Heh. cbn [mbind option_bind].
  rewrite (min_vaddr_exact f eh secs phs v) by done. cbn [mbind option_bind].
  destruct (scan_elf_syms_exact f eh secs phs (load_start m -64 v) (VmMap.behind SLASH (path m)) t I Hex) as (t1 & -> & E1).
  cbn. destruct (plt_syms_some always cxa f eh (load_start m -64 v) (VmMap.behind SLASH (path m)) t1 Ht) as (t' & Et).
  destruct (plt_stubs _ _ _ _ _ _ Et) as (stubs & E2 & Hst). exists t', stubs. split_and!; [done| |done].
  by rewrite E2, E1, <-app_assoc.
Qed.
End exact.

(** C36: a separate debug file is verified before its symbols are read.  When the
    search returns a path, the file there carries the module's own build id of at
    least two bytes, or it has the CRC-32 the module's debug link records; in the
    second case a file that differs from it within any four consecutive bytes has
    another checksum, so it would have been refused. *)
Theorem debug_file_verified fs dd f mp p :
  find_debug_file fs dd f mp = Some (Some p) →
  ∃ d, map_file fs p = Some d ∧
    ((∃ id, elf_build_id f 64 = Some id ∧ (2 <= length id)%nat ∧ elf_build_id d 64 = Some id) ∨
     (∃ link want, elf_debuglink f (Z.of_nat PATH_MAX) = Some (Some (link, want)) ∧ crc32 d = want ∧
        ∀ a x y b, d = a ++ x ++ b → Forall is_byte d → Forall is_byte y →
          length x = length y → (length x <= 4)%nat → x ≠ y → crc32 (a ++ y ++ b) ≠ want)).
Proof.
  unfold find_debug_file. destruct (elf_build_id f 64) as [id|] eqn:Eid; [|done]. cbn [mbind option_bind].
  set (cand := dd ++ _). destruct (if _ && _ then _ else _) as [b|] eqn:Eb; [|done]. cbn [mbind option_bind]. destruct b.
  - intros [= <-]. destruct (_ && _) eqn:Ec; [|done]. apply andb_true_iff in Ec as [Hl%Nat.leb_le _].
    unfold debug_id_matches in Eb. destruct (map_file fs cand) as [d|] eqn:Ed; [|done].
    destruct (elf_build_id d 64) as [id'|] eqn:Ei; [|done]. injection Eb as ->%bool_decide_eq_true. eauto 8.
  - destruct (elf_debuglink f _) as [[[link want]|]|] eqn:El; cbn [mbind option_bind]; [|done|done].
    clear Eb. destruct (_ || _); [done|]. intros (_ & d & Hd & Hw)%(inj Some)%try_links_crc.
    exists d. split; [done|]. right. exists link, want. split_and!; [done|done|].
    intros a x y b -> Hb Hy Hl H4 Hne E. apply Hne. by apply (crc32_burst a x y b); [..|congruence].
Qed.

(** ** A module, concretely *)
Lemma lies_check f o bs : (0 <=? o) && bool_decide (take (length bs) (drop (Z.to_nat o) f) = bs) &&
  (o + Z.of_nat (length bs) <=? flen f) = true → lies f o bs.
Proof.
  rewrite !andb_true_iff, Z.leb_le, bool_decide_eq_true, Z.leb_le. unfold flen. intros [[Ho E] Hl].
  exists (take (Z.to_nat o) f), (drop (length bs) (drop (Z.to_nat o) f)). split.
  - rewrite <-E at 1. by rewrite !take_drop.
  - rewrite length_take. lia.
Qed.

Definition demo_ehdr : ehdr := mk_ehdr 3 64 120 56 1 64 3 0.
Definition demo_phdr : phdr := mk_phdr PT_LOAD 0 0.
Definition demo_foo : esym := mk_esym 1 18 1 0x1000 32.
Definition demo_symtab : shdr := mk_shdr 0 SHT_SYMTAB 0 312 48 2 24.
Definition demo_strtab : shdr := mk_shdr 0 3 0 360 5 0 0.
Definition demo_syms : list (esym * list Z) := [(mk_esym 0 0 0 0 0, []); (demo_foo, codes "foo")].
Definition demo_secs : list (shdr * list (esym * list Z)) :=
  [(mk_shdr 0 0 0 0 0 0 0, []); (demo_symtab, demo_syms); (demo_strtab, [])].
Definition demo_elf : list Z :=
  enc_ehdr demo_ehdr ++ enc_fields (phdr_fields demo_phdr) ++
  concat ((λ sl, enc_fields (shdr_fields sl.1)) <$> demo_secs) ++
  concat ((λ e, enc_fields (sym_fields e.1)) <$> demo_syms) ++ [0] ++ codes "foo" ++ [0].

(** Cases on a lookup in a list of known entries. *)
Ltac known H :=
  repeat match type of H with
  | (_ :: _) !! ?i = Some _ => destruct i; cbn in H
  | [] !! _ = Some _ => discriminate H
  | None = Some _ => discriminate H
  | Some _ = Some _ => injection H as <- <-
  | Some _ = Some _ => injection H as <-
  end.

Lemma demo_image : image demo_elf demo_ehdr demo_secs [demo_phdr].
Proof.
  constructor.
  - split; [|reflexivity]. apply (bool_decide_eq_true_1 (Forall is_byte demo_elf)). vm_compute. reflexivity.
  - apply lies_check. vm_compute. reflexivity.
  - constructor; vm_compute; repeat split; discriminate.
  - discriminate.
  - discriminate.
  - reflexivity.
  - vm_compute. discriminate.
  - intros i s l H. unfold demo_secs in H. known H;
      (split; [constructor; vm_compute; repeat split; discriminate|apply lies_check; vm_compute; reflexivity]).
  - intros i s l H Hty. unfold demo_secs in H. known H; try discriminate Hty.
    exists demo_strtab, []. split; [reflexivity|]. split; [reflexivity|]. constructor; [discriminate|reflexivity|vm_compute; discriminate..|].
    intros j y nm Hj. unfold demo_syms in Hj. known Hj.
    + split; [repeat split; vm_compute; done|]. split; [|apply lies_check; vm_compute; reflexivity].
      split; [vm_compute; discriminate|]. split; [set_solver|]. split; [reflexivity|apply lies_check; vm_compute; reflexivity].
    + split; [repeat split; vm_compute; done|]. split; [|apply lies_check; vm_compute; reflexivity].
      split; [vm_compute; discriminate|]. split; [vm_compute; set_solver|]. split; [reflexivity|apply lies_check; vm_compute; reflexivity].
  - discriminate.
  - discriminate.
  - reflexivity.
  - vm_compute. discriminate.
  - intros i p H. known H. split; [repeat split; vm_compute; done|apply lies_check; vm_compute; reflexivity].
Qed.

Definition demo_mod : modl := mk_mod (codes "/bin/app") 0x400000 false.
Definition demo_fs : files := λ p, if bool_decide (p = codes "/bin/app") then Some demo_elf else None.

Lemma module_symbols_exact_witness :
  ∃ t' stubs, load_module_syms always (λ _, None) demo_fs [] 1 demo_mod (mk_tab [] 0) = Some t' ∧
    syms t' = [] ++ [mk_sym 0x401000 32 (codes "foo") (codes "app")] ++ stubs ∧ Forall (is_stub (λ _, None)) stubs.
Proof.
  apply (module_symbols_exact (λ _, None) demo_fs [] 1 demo_mod (mk_tab [] 0) demo_elf demo_ehdr demo_secs [demo_phdr] 0).
  - vm_compute. reflexivity.
  - exact demo_image.
  - exists (demo_symtab, demo_syms). split; [right; left; reflexivity|reflexivity].
  - split; [exists demo_phdr; split; [left; reflexivity|split; reflexivity]|].
    intros p Hp _. apply list_elem_of_singleton in Hp. rewrite Hp. vm_compute. discriminate.
  - vm_compute. reflexivity.
Defined.

Definition demo_debug : list Z := replicate 64 7.
Definition demo_names : list Z := [0] ++ codes ".gnu_debuglink" ++ [0] ++ codes ".shstrtab" ++ [0].
Definition demo_stripped : list Z :=
  enc_ehdr (mk_ehdr 3 0 64 0 0 64 3 2) ++ enc_fields (shdr_fields (mk_shdr 0 0 0 0 0 0 0)) ++
  enc_fields (shdr_fields (mk_shdr 1 1 0 256 12 0 0)) ++
  enc_fields (shdr_fields (mk_shdr 16 3 0 268 (Z.of_nat (length demo_names)) 0 0)) ++
  codes "a.debug" ++ [0] ++ to_le 4 (crc32 demo_debug) ++ demo_names.
Definition demo_debug_fs : files := λ p, if bool_decide (p = codes "/bin/a.debug") then Some demo_debug else None.

Lemma debug_file_verified_witness :
  ∃ d, map_file demo_debug_fs (codes "/bin/a.debug") = Some d ∧
    ((∃ id, elf_build_id demo_stripped 64 = Some id ∧ (2 <= length id)%nat ∧ elf_build_id d 64 = Some id) ∨
     (∃ link want, elf_debuglink demo_stripped (Z.of_nat PATH_MAX) = Some (Some (link, want)) ∧ crc32 d = want ∧
        ∀ a x y b, d = a ++ x ++ b → Forall is_byte d → Forall is_byte y →
          length x = length y → (length x <= 4)%nat → x ≠ y → crc32 (a ++ y ++ b) ≠ want)).
Proof.
  apply (debug_file_verified demo_debug_fs (codes "/usr/lib/debug") demo_stripped (codes "/bin/a") (codes "/bin/a.debug")).
  vm_compute. reflexivity.
Defined.
End ElfImage.
