(* ===== verification/JitMap.v ===== *)
(** The names of JIT-compiled code ([cli/asmspy_proc.c]): the binary jitdump and
    the text perf-map of a runtime, the map refreshed from both while the target
    runs, and the resolver that puts the ELF symbols before it. *)
From S2P Require Import Prelude Bytes Format Json VmMap Elf SymTab.
Import Json Elf SymTab.

Module JitMap.
Open Scope Z_scope.

Definition JIT_MODULE : list Z := codes "jit".
Definition JIT_MISS_COOLDOWN : Z := 64.
Definition JITDUMP_MAGIC : Z := 0x4A695444.
Definition JITDUMP_CODE_LOAD : Z := 0.
Definition JITDUMP_CODE_MOVE : Z := 1.
Definition sizeof_jhdr : Z := 40.
Definition sizeof_rhdr : Z := 16.
Definition sizeof_load : Z := 40.
Definition sizeof_move : Z := 48.

(** [asmspy_jitmap_t]: the entries with the capacity of the array, the budget, and
    the path of the dump once it is found. *)
Record jitmap := mk_jit { v : list sym; jcap : Z; miss_budget : Z; dump_path : list Z }.
Definition asmspy_jitmap_init : jitmap := mk_jit [] 0 0 [].

(** ** The files of the target *)
(** A file with what [fstat] says of it. *)
Record jfile := mk_jf { bytes : list Z; regular : bool; uid : Z }.
(** What the resolver asks the system: the files, the readable paths, the two
    owners ([None]: the target is gone) and the text of the map file. *)
Record sys := mk_sys {
  pid : Z; open_ : list Z → option jfile; readable : list Z → bool;
  euid : Z; proc_uid : option Z; maps : option (list Z) }.

Section jit.
Context (grant : allocator) (qsort : list sym → list sym) (w : sys).

Definition jit_open_trusted (p : list Z) : option (list Z) :=
  f ← open_ w p;
  if negb (regular f) then None
  else if negb (uid f =? euid w) && negb (bool_decide (proc_uid w = Some (uid f))) then None
  else Some (bytes f).

(** ** Entries *)
Definition jit_push (t : list sym * Z) (a sz : Z) (nm : list Z) : option (list sym * Z) :=
  let '(l, c) := t in
  c ← (if Z.of_nat (length l) =? c
       then let nc := if c =? 0 then 256 else c *64 2 in if grant (nc *64 sizeof_sym_t) then Some nc else None
       else Some c);
  if grant (Z.of_nat (length nm) + 1) then Some (l ++ [mk_sym a sz nm JIT_MODULE], c) else None.
(** The array keeps the capacity a failed push has grown. *)
Definition push_cap (t : list sym * Z) : Z :=
  let '(l, c) := t in
  if Z.of_nat (length l) =? c
  then let nc := if c =? 0 then 256 else c *64 2 in if grant (nc *64 sizeof_sym_t) then nc else c
  else c.

(** ** The dump *)
(** [(code_index, slot)] of each load, oldest first. *)
Definition loads : Type := list (Z * nat).
Fixpoint newest (idx : Z) (ls : loads) : option nat :=
  match ls with
  | [] => None
  | (i, s) :: ls => match newest idx ls with Some s' => Some s' | None => if i =? idx then Some s else None end
  end.
Definition move (l : list sym) (s : nat) (a sz : Z) : list sym :=
  alter (λ e, mk_sym a sz (name e) (module e)) s l.
Definition sizeof_slot : Z := 16.

(** The records from [pos] on; every one is at least its header, so the length of
    the file is enough rounds. *)
Fixpoint dump_loop (fuel : nat) (f : list Z) (pos : Z) (t : list sym * Z) (ls : loads) (lcap : Z) :
    option (list sym * Z) :=
  match fuel with
  | O => None
  | S fuel =>
      if flen f <? pos + sizeof_rhdr then Some t else
      id ← ld_u32 f pos; total ← ld_u32 f (pos + 4);
      if total <? sizeof_rhdr then Some t else
      let next := pos + total in
      if (id =? JITDUMP_CODE_LOAD) && (sizeof_rhdr + sizeof_load <=? total) then
        if flen f <? pos + sizeof_rhdr + sizeof_load then Some t else
        a ← ld_u64 f (pos + 32); sz ← ld_u64 f (pos + 40); idx ← ld_u64 f (pos + 48);
        let room := total - sizeof_rhdr - sizeof_load in
        match before_nul (take (Z.to_nat room) (drop (Z.to_nat (pos + 56)) f)) with
        | None | Some [] => dump_loop fuel f next t ls lcap
        | Some nm =>
            match jit_push t a sz (take 255 nm) with
            | None => Some (t.1, push_cap t)
            | Some t =>
                match (if Z.of_nat (length ls) =? lcap
                       then let nc := if lcap =? 0 then 64 else lcap *64 2 in
                            if grant (nc *64 sizeof_slot) then Some nc else None
                       else Some lcap) with
                | None => Some t
                | Some lcap => dump_loop fuel f next t (ls ++ [(idx, (length t.1 - 1)%nat)]) lcap
                end
            end
        end
      else if (id =? JITDUMP_CODE_MOVE) && (sizeof_rhdr + sizeof_move <=? total) then
        if flen f <? pos + sizeof_rhdr + sizeof_move then Some t else
        a ← ld_u64 f (pos + 40); sz ← ld_u64 f (pos + 48); idx ← ld_u64 f (pos + 56);
        let t := match newest idx ls with Some s => (move t.1 s a sz, t.2) | None => t end in
        dump_loop fuel f next t ls lcap
      else dump_loop fuel f next t ls lcap
  end.
(** The entries after the call; the flag is whether the file is a dump. *)
Definition jitdump_read (p : list Z) (t : list sym * Z) : option (bool * (list sym * Z)) :=
  match jit_open_trusted p with
  | None => Some (false, t)
  | Some f =>
      if flen f <? sizeof_jhdr then Some (false, t) else
      magic ← ld_u32 f 0; total ← ld_u32 f 8;
      if negb (magic =? JITDUMP_MAGIC) || (total <? sizeof_jhdr) then Some (false, t) else
      t ← dump_loop (S (length f)) f total t [] 0;
      Some (true, t)
  end.

(** ** Finding the dump *)
Definition is_dump (b : list Z) : bool :=
  (10 <=? length b)%nat && bool_decide (take 4 b = codes "jit-") && bool_decide (drop (length b - 5) b = codes ".dump").
Fixpoint from_slash (s : list Z) : option (list Z) :=
  match s with [] => None | c :: s' => if c =? SLASH then Some s else from_slash s' end.
Fixpoint dump_in_maps (ls : list (list Z)) : option (list Z) :=
  match ls with
  | [] => None
  | l :: ls =>
      match from_slash (VmMap.upto 10 l) with
      | Some p => if is_dump (VmMap.behind SLASH p) && readable w p then Some p else dump_in_maps ls
      | None => dump_in_maps ls
      end
  end.
Definition tmp_dump : list Z := codes ("/tmp/jit-" +:+ fmt_d (pid w) +:+ ".dump").
Definition cwd_dump : list Z := codes ("/proc/" +:+ fmt_d (pid w) +:+ "/cwd/jit-" +:+ fmt_d (pid w) +:+ ".dump").
Definition jitdump_discover (cached : list Z) : list Z :=
  if negb (bool_decide (cached = [])) && readable w cached then cached else
  match (text ← maps w; dump_in_maps (fgets_lines 511 text)) with
  | Some p => sn 256 p
  | None => if readable w tmp_dump then tmp_dump else if readable w cwd_dump then cwd_dump else []
  end.

(** ** The text map *)
Definition trim_end (s : list Z) : list Z :=
  reverse ((fix go (s : list Z) := match s with
            | c :: s' => if (c =? 10) || (c =? 13) || (c =? 32) || (c =? 9) then go s' else s
            | [] => [] end) (reverse s)).
(** Start, size and name of a line. *)
Definition text_line (l : list Z) : option (Z * Z * list Z) :=
  '(start, s) ← VmMap.scan_int 16 (VmMap.upto 0 l);
  '(sz, s) ← VmMap.scan_int 16 s;
  let nm := trim_end (VmMap.skip_ws s) in
  if bool_decide (nm = []) then None else Some (start, sz, nm).
Fixpoint text_loop (dump : list sym) (ls : list (list Z)) (t : list sym * Z) : list sym * Z :=
  match ls with
  | [] => t
  | l :: ls =>
      match text_line l with
      | None => text_loop dump ls t
      | Some (start, sz, nm) =>
          if negb (bool_decide (dump = [])) && bool_decide (is_Some (sym_at dump start)) then text_loop dump ls t
          else match jit_push t start sz nm with
               | Some t => text_loop dump ls t
               | None => (t.1, push_cap t)
               end
      end
  end.
Definition perf_map : list Z := codes ("/tmp/perf-" +:+ fmt_d (pid w) +:+ ".map").

(** ** Refresh and resolve *)
Definition sort_if (l : list sym) : list sym := if bool_decide (l = []) then l else qsort l.
Definition asmspy_jitmap_refresh (j : jitmap) : option jitmap :=
  let dp := jitdump_discover (dump_path j) in
  '(dumped, t) ← (if bool_decide (dp = []) then Some (false, ([], jcap j)) else jitdump_read dp ([], jcap j));
  let dump := sort_if t.1 in
  match jit_open_trusted perf_map with
  | None => Some (mk_jit (if (dumped : bool) then sort_if dump else dump) t.2 JIT_MISS_COOLDOWN dp)
  | Some text =>
      let t := text_loop dump (VmMap.split_lines text) (dump, t.2) in
      Some (mk_jit (sort_if t.1) t.2 JIT_MISS_COOLDOWN dp)
  end.
Definition asmspy_jitmap_at (j : jitmap) (q : Z) : option sym := sym_at (v j) q.
(** The answer and the map after it. *)
Definition asmspy_resolve (elf : option (list sym)) (jit : option jitmap) (q : Z) : option (option sym * option jitmap) :=
  match (e ← elf; asmspy_symtab_at e q) with
  | Some s => Some (Some s, jit)
  | None =>
      match jit with
      | None => Some (None, None)
      | Some j =>
          match asmspy_jitmap_at j q with
          | Some s => Some (Some s, jit)
          | None =>
              if miss_budget j =? 0 then j' ← asmspy_jitmap_refresh j; Some (asmspy_jitmap_at j' q, Some j')
              else Some (None, Some (mk_jit (v j) (jcap j) (miss_budget j - 1) (dump_path j)))
          end
      end
  end.
End jit.

(** ** What a runtime writes *)
Inductive jrec :=
| JLoad (ts tpid tid vma a sz idx : Z) (nm code : list Z)
| JMove (ts tpid tid vma old a sz idx : Z)
| JOther (id ts : Z) (payload : list Z).
Definition rhdr (id total ts : Z) : fields := [(4%nat, id); (4%nat, total); (8%nat, ts)].
Definition load_fields (tpid tid vma a sz idx : Z) : fields :=
  [(4%nat, tpid); (4%nat, tid); (8%nat, vma); (8%nat, a); (8%nat, sz); (8%nat, idx)].
Definition move_fields (tpid tid vma old a sz idx : Z) : fields :=
  [(4%nat, tpid); (4%nat, tid); (8%nat, vma); (8%nat, old); (8%nat, a); (8%nat, sz); (8%nat, idx)].
Definition total (r : jrec) : Z :=
  match r with
  | JLoad _ _ _ _ _ _ _ nm code => 57 + Z.of_nat (length nm) + Z.of_nat (length code)
  | JMove _ _ _ _ _ _ _ _ => 64
  | JOther _ _ p => 16 + Z.of_nat (length p)
  end.
Definition jid (r : jrec) : Z := match r with JLoad _ _ _ _ _ _ _ _ _ => 0 | JMove _ _ _ _ _ _ _ _ => 1 | JOther id _ _ => id end.
Definition jts (r : jrec) : Z := match r with JLoad ts _ _ _ _ _ _ _ _ => ts | JMove ts _ _ _ _ _ _ _ => ts | JOther _ ts _ => ts end.
Definition body (r : jrec) : list Z :=
  match r with
  | JLoad _ p t vm a sz idx nm code => enc_fields (load_fields p t vm a sz idx) ++ nm ++ 0 :: code
  | JMove _ p t vm o a sz idx => enc_fields (move_fields p t vm o a sz idx)
  | JOther _ _ p => p
  end.
Definition enc_rec (r : jrec) : list Z := enc_fields (rhdr (jid r) (total r) (jts r)) ++ body r.
Definition jrec_ok (r : jrec) : Prop :=
  total r < 2 ^ 32 ∧
  match r with
  | JLoad _ _ _ _ a sz idx nm _ => is_u64 a ∧ is_u64 sz ∧ is_u64 idx ∧ (0 ∉ nm)
  | JMove _ _ _ _ _ a sz idx => is_u64 a ∧ is_u64 sz ∧ is_u64 idx
  | JOther id _ _ => 2 <= id < 2 ^ 32
  end.

(** What the records say: the named code with its index, moved when it moves. *)
Fixpoint move_last (idx a sz : Z) (l : list (Z * sym)) : list (Z * sym) :=
  match l with
  | [] => []
  | e :: l => if existsb (λ e, e.1 =? idx) l then e :: move_last idx a sz l
              else if e.1 =? idx then (e.1, mk_sym a sz (name e.2) (module e.2)) :: l else e :: l
  end.
Definition replay_step (l : list (Z * sym)) (r : jrec) : list (Z * sym) :=
  match r with
  | JLoad _ _ _ _ a sz idx nm _ => if bool_decide (nm = []) then l else l ++ [(idx, mk_sym a sz (take 255 nm) JIT_MODULE)]
  | JMove _ _ _ _ _ a sz idx => move_last idx a sz l
  | JOther _ _ _ => l
  end.
Definition replay (rs : list jrec) : list (Z * sym) := foldl replay_step [] rs.

(** ** Slots *)
Definition slots_from (k : nat) (l : list (Z * sym)) : loads := imap (λ i e, (e.1, (k + i)%nat)) l.

Lemma slots_cons k e l : slots_from k (e :: l) = (e.1, k) :: slots_from (S k) l.
Proof.
  unfold slots_from. cbn [imap]. rewrite Nat.add_0_r. f_equal. apply imap_ext. intros i x _. cbn. f_equal. lia.
Qed.

Lemma newest_none idx k l : newest idx (slots_from k l) = None ↔ existsb (λ e, e.1 =? idx) l = false.
Proof.
  revert k. induction l as [|e l IH]; intros k; [done|]. rewrite slots_cons. cbn [newest existsb].
  destruct (newest idx (slots_from (S k) l)) eqn:E.
  - split; [done|]. intros [_ H]%orb_false_iff. apply (IH (S k)) in H. congruence.
  - apply IH in E. rewrite E, orb_false_r. destruct (e.1 =? idx); done.
Qed.

Lemma newest_move idx k l s a sz : newest idx (slots_from k l) = Some s →
  (k <= s)%nat ∧ move (snd <$> l) (s - k) a sz = snd <$> move_last idx a sz l.
Proof.
  revert k. induction l as [|e l IH]; intros k; [done|]. rewrite slots_cons. cbn [newest move_last].
  destruct (newest idx (slots_from (S k) l)) as [s'|] eqn:E.
  - intros [= <-]. assert (existsb (λ e, e.1 =? idx) l = true) as ->.
    { apply not_false_is_true. intros H. apply (newest_none idx (S k)) in H. congruence. }
    destruct (IH (S k) E) as [? Em]. split; [lia|]. replace (s' - k)%nat with (S (s' - S k)) by lia. cbn [fmap list_fmap]. rewrite <-Em. done.
  - apply newest_none in E. rewrite E. destruct (e.1 =? idx); [|done]. intros [= <-]. by rewrite Nat.sub_diag.
Qed.

Lemma move_last_keys idx a sz l : fst <$> move_last idx a sz l = fst <$> l.
Proof. induction l as [|e l IH]; [done|]. cbn [move_last]. repeat case_match; cbn [fmap list_fmap fst]; f_equal; done. Qed.

Lemma slots_keys k l l' : fst <$> l = fst <$> l' → slots_from k l = slots_from k l'.
Proof.
  revert k l'. induction l as [|e l IH]; intros k [|e' l'] E; try done. cbn [fmap list_fmap] in E. injection E as E1 E2.
  rewrite !slots_cons, E1. f_equal. by apply IH.
Qed.

Lemma slots_snoc k l e : slots_from k (l ++ [e]) = slots_from k l ++ [(e.1, (k + length l)%nat)].
Proof. unfold slots_from. rewrite imap_app. cbn. by rewrite Nat.add_0_r. Qed.

(** ** Reading one record *)
Lemma length_enc_rec r : Z.of_nat (length (enc_rec r)) = total r.
Proof.
  unfold enc_rec, body, total. destruct r; rewrite ?length_app, ?Nat2Z.inj_add, ?length_enc_fields; unfold offset_of; cbn [foldr take rhdr load_fields move_fields length fst];
    rewrite ?Nat2Z.inj_add, ?length_app; cbn [length]; lia.
Qed.

Lemma total_ge r : 16 <= total r.
Proof. destruct r; cbn; lia. Qed.

Lemma hdr_reads f pos r : lies f pos (enc_fields (rhdr (jid r) (total r) (jts r))) → jrec_ok r →
  ld_u32 f pos = Some (jid r) ∧ ld_u32 f (pos + 4) = Some (total r) ∧ pos + 16 <= flen f.
Proof.
  intros H [Ht Hr]. pose proof (total_ge r). pose proof (lies_in _ _ _ H) as [_ Hl]. rewrite length_enc_fields in Hl. unfold flen.
  split_and!.
  - eapply (fields_ld f pos _ 0%nat); [done|done|unfold offset_of; cbn; lia|]. cbn. destruct r; cbn in *; lia.
  - eapply (fields_ld f pos _ 1%nat); [done|done|unfold offset_of; cbn; lia|]. cbn. lia.
  - unfold offset_of in Hl. cbn in Hl. lia.
Qed.

Definition state (l : list (Z * sym)) (c : Z) : list sym * Z := (snd <$> l, c).

(** A named load adds its entry and its slot. *)
Lemma push_state l c a sz nm idx : ∃ c',
  jit_push always (state l c) a sz nm = Some (state (l ++ [(idx, mk_sym a sz nm JIT_MODULE)]) c').
Proof.
  unfold jit_push, state, always. destruct (_ =? c); cbn [mbind option_bind]; eexists; by rewrite fmap_app.
Qed.

Definition after_load (fuel : nat) (f : list Z) (pos : Z) (r : jrec) (found : option (list Z)) (a sz idx : Z)
    (l : list (Z * sym)) (res : option (list sym * Z)) : Prop :=
  ∃ c lcap, res = dump_loop always fuel f (pos + total r)
    (state (match found with None | Some [] => l | Some nm => l ++ [(idx, mk_sym a sz (take 255 nm) JIT_MODULE)] end) c)
    (slots_from 0 (match found with None | Some [] => l | Some nm => l ++ [(idx, mk_sym a sz (take 255 nm) JIT_MODULE)] end)) lcap.

(** The loop at a load whose fixed part is in the file. *)
Lemma load_step fuel f pos ts p t vm a sz idx nm code l c lcap :
  let r := JLoad ts p t vm a sz idx nm code in
  jrec_ok r → lies f pos (enc_fields (rhdr (jid r) (total r) (jts r)) ++ enc_fields (load_fields p t vm a sz idx)) →
  after_load fuel f pos r (before_nul (take (Z.to_nat (total r - 56)) (drop (Z.to_nat (pos + 56)) f))) a sz idx l
    (dump_loop always (S fuel) f pos (state l c) (slots_from 0 l) lcap).
Proof.
  intros r Hok [H1 H2]%lies_app. pose proof Hok as [Ht (Ha & Hs & Hi & _)]. rewrite length_enc_fields in H2.
  change (lies f (pos + 16) (enc_fields (load_fields p t vm a sz idx))) in H2.
  destruct (hdr_reads f pos r H1 Hok) as (E1 & E2 & Hl). pose proof (lies_in _ _ _ H2) as [Hp2 Hl2]. rewrite length_enc_fields in Hl2.
  change (offset_of (load_fields p t vm a sz idx) _) with 40 in Hl2. unfold is_u64 in *.
  assert (∀ i x k, load_fields p t vm a sz idx !! i = Some (8%nat, x) → 0 <= x < 2 ^ 64 →
            k = pos + 16 + offset_of (load_fields p t vm a sz idx) i → ld_u64 f k = Some x) as Hf.
  { intros i x k Hx Hr ->. eapply fields_ld; [exact H2|exact Hx|reflexivity|cbn; lia]. }
  cbn [dump_loop]. unfold sizeof_rhdr, sizeof_load in *. unfold flen in *.
  destruct (Z.ltb_spec (Z.of_nat (length f)) (pos + 16)); [lia|]. rewrite E1, E2. cbn [mbind option_bind].
  pose proof (total_ge r). destruct (Z.ltb_spec (total r) 16); [lia|].
  change (jid r =? JITDUMP_CODE_LOAD) with true. destruct (Z.leb_spec (16 + 40) (total r)); [|cbn in *; lia]. cbn [andb].
  destruct (Z.ltb_spec (Z.of_nat (length f)) (pos + 16 + 40)); [lia|].
  rewrite (Hf 3%nat a (pos + 32)), (Hf 4%nat sz (pos + 40)), (Hf 5%nat idx (pos + 48)) by (done || (unfold offset_of; cbn; lia)). cbn [mbind option_bind].
  replace (total r - 16 - 40) with (total r - 56) by lia. unfold after_load.
  destruct (before_nul _) as [[|x nm']|] eqn:En; [by eauto| |by eauto].
  destruct (push_state l c a sz (take 255 (x :: nm')) idx) as (c' & ->).
  assert (length (state (l ++ [(idx, mk_sym a sz (take 255 (x :: nm')) JIT_MODULE)]) c').1 - 1 = length l)%nat as ->
    by (unfold state; cbn [fst]; rewrite length_fmap, length_app; cbn; lia).
  rewrite slots_snoc. cbn [fst Nat.add]. unfold always at 2.
  destruct (Z.of_nat (length (slots_from 0 l)) =? lcap); eauto.
Qed.

Lemma move_step fuel f pos ts p t vm o a sz idx l c lcap :
  let r := JMove ts p t vm o a sz idx in
  jrec_ok r → lies f pos (enc_rec r) →
  dump_loop always (S fuel) f pos (state l c) (slots_from 0 l) lcap =
  dump_loop always fuel f (pos + total r) (state (move_last idx a sz l) c) (slots_from 0 (move_last idx a sz l)) lcap.
Proof.
  intros r Hok [H1 H2]%lies_app. pose proof Hok as [Ht (Ha & Hs & Hi)]. rewrite length_enc_fields in H2.
  change (lies f (pos + 16) (enc_fields (move_fields p t vm o a sz idx))) in H2.
  destruct (hdr_reads f pos r H1 Hok) as (E1 & E2 & Hl). pose proof (lies_in _ _ _ H2) as [Hp2 Hl2]. rewrite length_enc_fields in Hl2.
  change (offset_of (move_fields p t vm o a sz idx) _) with 48 in Hl2. unfold is_u64 in *.
  assert (∀ i x k, move_fields p t vm o a sz idx !! i = Some (8%nat, x) → 0 <= x < 2 ^ 64 →
            k = pos + 16 + offset_of (move_fields p t vm o a sz idx) i → ld_u64 f k = Some x) as Hf.
  { intros i x k Hx Hr ->. eapply fields_ld; [exact H2|exact Hx|reflexivity|cbn; lia]. }
  cbn [dump_loop]. unfold sizeof_rhdr, sizeof_move in *. unfold flen in *.
  destruct (Z.ltb_spec (Z.of_nat (length f)) (pos + 16)); [lia|]. rewrite E1, E2. cbn [mbind option_bind].
  change (total r) with 64. change (jid r =? JITDUMP_CODE_LOAD) with false. change (jid r =? JITDUMP_CODE_MOVE) with true. cbn [andb].
  change (64 <? 16) with false. change (16 + 48 <=? 64) with true. cbn [andb].
  destruct (Z.ltb_spec (Z.of_nat (length f)) (pos + 16 + 48)); [lia|].
  rewrite (Hf 4%nat a (pos + 40)), (Hf 5%nat sz (pos + 48)), (Hf 6%nat idx (pos + 56)) by (done || (unfold offset_of; cbn; lia)). cbn [mbind option_bind].
  rewrite (slots_keys 0 (move_last idx a sz l) l) by apply move_last_keys.
  destruct (newest idx (slots_from 0 l)) as [s|] eqn:En.
  - destruct (newest_move idx 0 l s a sz En) as [_ E]. rewrite Nat.sub_0_r in E. unfold state at 1 2. cbn [fst snd]. by rewrite E.
  - apply newest_none in En. assert (move_last idx a sz l = l) as ->; [|done].
    clear -En. induction l as [|e l IH]; [done|]. cbn [existsb move_last] in *. apply orb_false_iff in En as [E1 E2].
    by rewrite E2, E1.
Qed.

Lemma other_step fuel f pos id ts pl T ls lcap :
  let r := JOther id ts pl in
  jrec_ok r → lies f pos (enc_fields (rhdr (jid r) (total r) (jts r))) →
  dump_loop always (S fuel) f pos T ls lcap = dump_loop always fuel f (pos + total r) T ls lcap.
Proof.
  intros r Hok H1. pose proof Hok as [Ht Hid]. change (2 <= id < 2 ^ 32) in Hid. destruct (hdr_reads f pos r H1 Hok) as (E1 & E2 & Hl). pose proof (total_ge r).
  cbn [dump_loop]. unfold sizeof_rhdr in *.
  destruct (Z.ltb_spec (flen f) (pos + 16)); [lia|]. rewrite E1, E2. cbn [mbind option_bind].
  destruct (Z.ltb_spec (total r) 16); [lia|]. change (jid r) with id.
  unfold JITDUMP_CODE_LOAD, JITDUMP_CODE_MOVE. destruct (Z.eqb_spec id 0), (Z.eqb_spec id 1); try lia. done.
Qed.

(** ** Reading a dump *)
Lemma dump_done fuel f pos T ls lcap : flen f < pos + 16 → (0 < fuel)%nat → dump_loop always fuel f pos T ls lcap = Some T.
Proof.
  intros Hl Hf. destruct fuel as [|fuel]; [lia|]. cbn [dump_loop]. unfold sizeof_rhdr.
  destruct (Z.ltb_spec (flen f) (pos + 16)); [done|lia].
Qed.

Lemma take_past_nul n (nm code : list Z) : 0 ∉ nm →
  before_nul (take n (nm ++ 0 :: code)) = if (length nm <? n)%nat then Some nm else None.
Proof.
  revert n. induction nm as [|c nm IH]; intros [|n] Hn; cbn [app take before_nul length]; [done|done|done|].
  destruct (Z.eqb_spec c 0) as [->|]; [set_solver|]. rewrite IH by set_solver.
  destruct (Nat.ltb_spec (length nm) n), (Nat.ltb_spec (S (length nm)) (S n)); done || lia.
Qed.

(** A record that is whole, or cut anywhere at the end of the file: its effect is
    that of the record or none, and the loop is past it. *)
Lemma rec_step f pre r k post fuel l c lcap :
  jrec_ok r → f = pre ++ take k (enc_rec r) ++ post → (post = [] ∨ (length (enc_rec r) <= k)%nat) → (1 < fuel)%nat →
  ∃ l' c' lcap', (l' = replay_step l r ∨ ((k < length (enc_rec r))%nat ∧ l' = l)) ∧
    (dump_loop always fuel f (Z.of_nat (length pre)) (state l c) (slots_from 0 l) lcap =
       dump_loop always (fuel - 1) f (Z.of_nat (length pre) + total r) (state l' c') (slots_from 0 l') lcap' ∨
     (k < length (enc_rec r))%nat ∧
       dump_loop always fuel f (Z.of_nat (length pre)) (state l c) (slots_from 0 l) lcap = Some (state l' c')).
Proof.
  intros Hok Hf Hcut Hfuel. destruct fuel as [|fuel]; [lia|]. replace (S fuel - 1)%nat with fuel by lia.
  pose proof (length_enc_rec r) as Hlen. pose proof (total_ge r) as Hge.
  assert (flen f = Z.of_nat (length pre) + Z.of_nat (min k (length (enc_rec r))) + Z.of_nat (length post)) as Hfl
    by (unfold flen; rewrite Hf, !length_app, length_take; lia).
  assert (∀ bs, (length bs <= k)%nat → (∃ rest, enc_rec r = bs ++ rest) → lies f (Z.of_nat (length pre)) bs) as Hlies.
  { intros bs Hk [rest E]. exists pre, (take (k - length bs) rest ++ post). split; [|done].
    rewrite Hf, E, take_app_ge by done. by rewrite <-!app_assoc. }
  destruct (decide (k < 16)%nat) as [H16|H16].
  { exists l, c, lcap. split; [right; split; [lia|done]|]. right. split; [lia|]. apply dump_done; [|lia].
    destruct Hcut as [->|]; [|lia]. cbn [length] in Hfl. lia. }
  assert (lies f (Z.of_nat (length pre)) (enc_fields (rhdr (jid r) (total r) (jts r)))) as Hh
    by (apply Hlies; [change (16 <= k)%nat; lia|by eexists]).
  destruct r as [ts p t vm a sz idx nm code|ts p t vm o a sz idx|id ts pl].
  - destruct (decide (k < 56)%nat) as [H56|H56].
    { exists l, c, lcap. split; [right; split; [cbn in *; lia|done]|]. right. split; [cbn in *; lia|].
      destruct (hdr_reads _ _ _ Hh Hok) as (E1 & E2 & Hl). cbn [dump_loop]. unfold sizeof_rhdr, sizeof_load.
      destruct Hcut as [->|]; [|cbn in *; lia]. cbn [length] in Hfl.
      destruct (Z.ltb_spec (flen f) (Z.of_nat (length pre) + 16)); [done|]. rewrite E1, E2. cbn [mbind option_bind jid].
      destruct (_ <? 16); [done|]. unfold JITDUMP_CODE_LOAD. cbn [Z.eqb andb].
      destruct (Z.leb_spec (16 + 40) (total (JLoad ts p t vm a sz idx nm code))); [|cbn in *; lia].
      destruct (Z.ltb_spec (flen f) (Z.of_nat (length pre) + 16 + 40)); [done|lia]. }
    edestruct (load_step fuel f (Z.of_nat (length pre)) ts p t vm a sz idx nm code l c lcap) as (c' & lcap' & ->);
      [done|apply Hlies; [change (56 <= k)%nat; lia|exists (nm ++ 0 :: code); unfold enc_rec; cbn [body]; by rewrite <-!app_assoc]|].
    set (X := nm ++ 0 :: code).
    assert (Z.of_nat (length X) = total (JLoad ts p t vm a sz idx nm code) - 56) as HX
      by (unfold X; rewrite length_app; cbn [length total]; lia).
    assert (take (Z.to_nat (total (JLoad ts p t vm a sz idx nm code) - 56)) (drop (Z.to_nat (Z.of_nat (length pre) + 56)) f)
            = take (k - 56) X) as ->.
    { replace (Z.to_nat (Z.of_nat (length pre) + 56)) with (length pre + 56)%nat by lia. rewrite Hf, <-drop_drop, drop_app_length.
      unfold enc_rec. cbn [body]. rewrite (app_assoc (enc_fields _)). fold X.
      set (A := enc_fields _ ++ enc_fields _). assert (length A = 56%nat) as HA by done.
      rewrite take_app_ge by lia. rewrite <-app_assoc, HA, drop_app_length' by done.
      destruct Hcut as [->|Hk].
      - rewrite app_nil_r. apply take_ge. rewrite length_take. lia.
      - rewrite (take_ge X) by lia. apply take_app_length'. lia. }
    unfold X. rewrite take_past_nul by apply Hok. cbn [replay_step].
    destruct (Nat.ltb_spec (length nm) (k - 56)).
    + destruct nm as [|x nm]; do 3 eexists; (split; [left; reflexivity|by left]).
    + exists l, c', lcap'. split; [right; split; [|done]|by left]. unfold X in HX. rewrite length_app in HX. cbn [length] in HX. lia.
  - destruct (decide (k < 64)%nat) as [H64|H64].
    + assert (length (enc_rec (JMove ts p t vm o a sz idx)) = 64%nat) as H64' by done.
      exists l, c, lcap. split; [right; split; [lia|done]|]. right. split; [lia|].
      destruct (hdr_reads _ _ _ Hh Hok) as (E1 & E2 & Hl). cbn [dump_loop]. unfold sizeof_rhdr, sizeof_move.
      destruct Hcut as [->|]; [|lia]. cbn [length] in Hfl.
      destruct (Z.ltb_spec (flen f) (Z.of_nat (length pre) + 16)); [done|]. rewrite E1, E2. cbn [mbind option_bind jid total].
      unfold JITDUMP_CODE_LOAD, JITDUMP_CODE_MOVE. change (64 <? 16) with false. change (1 =? 0) with false. change (1 =? 1) with true.
      change (16 + 48 <=? 64) with true. cbn [andb].
      destruct (Z.ltb_spec (flen f) (Z.of_nat (length pre) + 16 + 48)); [done|lia].
    + do 3 eexists. split; [left; reflexivity|]. left. apply move_step; [done|]. apply Hlies; [change (64 <= k)%nat; lia|].
      exists []. by rewrite app_nil_r.
  - do 3 eexists. split; [left; reflexivity|]. left. by apply other_step.
Qed.

Lemma dump_recs f r k : jrec_ok r → ∀ rs pre l c lcap fuel,
  Forall jrec_ok rs → f = pre ++ concat (enc_rec <$> rs) ++ take k (enc_rec r) →
  flen f + 1 < Z.of_nat (length pre) + Z.of_nat fuel →
  ∃ l' c', dump_loop always fuel f (Z.of_nat (length pre)) (state l c) (slots_from 0 l) lcap = Some (state l' c') ∧
    (l' = foldl replay_step l rs ∨ l' = foldl replay_step l (rs ++ [r])).
Proof.
  intros Hr. induction rs as [|x rs IH]; intros pre l c lcap fuel Hrs Hf Hfuel.
  - cbn [fmap list_fmap concat app foldl] in *.
    pose proof (total_ge r). pose proof (length_enc_rec r).
    assert (flen f = Z.of_nat (length pre) + Z.of_nat (min k (length (enc_rec r)))) as Hfl
      by (unfold flen; rewrite Hf, !length_app, length_take; lia).
    destruct (rec_step f pre r k [] fuel l c lcap Hr) as (l' & c' & lcap' & Hl' & Hstep); [by rewrite app_nil_r|by left|lia|].
    exists l', c'. split; [|destruct Hl' as [->|[_ ->]]; auto].
    destruct Hstep as [->|[_ ->]]; [|done]. apply dump_done; lia.
  - inversion_clear Hrs as [|? ? Hx Hrs']. cbn [fmap list_fmap concat] in Hf. rewrite <-!app_assoc in Hf.
    assert (take (length (enc_rec x)) (enc_rec x) = enc_rec x) as Htake by (by apply take_ge).
    destruct (rec_step f pre x (length (enc_rec x)) (concat (enc_rec <$> rs) ++ take k (enc_rec r)) fuel l c lcap Hx)
      as (l' & c' & lcap' & Hl' & Hstep); [by rewrite Htake|by right| |].
    { pose proof (f_equal length Hf) as E. rewrite length_app in E. unfold flen in *. lia. }
    destruct Hl' as [->|[? _]]; [|lia]. destruct Hstep as [->|[? _]]; [|lia].
    rewrite <-length_enc_rec, <-Nat2Z.inj_add, <-length_app. cbn [foldl app].
    apply IH; [done|by rewrite <-app_assoc|]. rewrite length_app. pose proof (total_ge x). pose proof (length_enc_rec x). lia.
Qed.

(** The file: a header of any announced size, records, and a last one cut where the
    runtime is still writing. *)
Definition dump_hdr (version mach tpid ts flags : Z) (pad : list Z) : list Z :=
  enc_fields [(4%nat, JITDUMP_MAGIC); (4%nat, version); (4%nat, 40 + Z.of_nat (length pad)); (4%nat, mach); (4%nat, 0);
              (4%nat, tpid); (8%nat, ts); (8%nat, flags)] ++ pad.

(** C34: reading a jitdump gives what its records say.  For a file with a header of
    any size, any sequence of load, move and other records, and one more record cut
    at any byte because the runtime is still appending, the map holds one entry per
    named load, in order, at the place of its last move, with names clipped to 255
    bytes; the record in flight counts entirely or not at all, and the read ends. *)
Theorem jitdump_read_exact w p f version mach tpid ts flags pad rs r k c :
  jit_open_trusted w p = Some f →
  f = dump_hdr version mach tpid ts flags pad ++ concat (enc_rec <$> rs) ++ take k (enc_rec r) →
  40 + Z.of_nat (length pad) < 2 ^ 32 → Forall jrec_ok rs → jrec_ok r →
  ∃ l c', jitdump_read always w p ([], c) = Some (true, (snd <$> l, c')) ∧ (l = replay rs ∨ l = replay (rs ++ [r])).
Proof.
  intros Hopen Hf Hpad Hrs Hr. unfold jitdump_read. rewrite Hopen.
  assert (lies f 0 (dump_hdr version mach tpid ts flags pad)) as Hh by (exists [], (concat (enc_rec <$> rs) ++ take k (enc_rec r)); by rewrite Hf).
  pose proof (lies_in _ _ _ Hh) as [_ Hl]. apply lies_app in Hh as [Hh _]. unfold dump_hdr in Hl.
  rewrite length_app, Nat2Z.inj_add, length_enc_fields in Hl. change (offset_of _ _) with 40 in Hl.
  unfold flen at 1, sizeof_jhdr. destruct (Z.ltb_spec (Z.of_nat (length f)) 40); [lia|].
  unfold ld_u32. rewrite (fields_ld f 0 _ 0%nat 4%nat JITDUMP_MAGIC 0 Hh), (fields_ld f 0 _ 2%nat 4%nat (40 + Z.of_nat (length pad)) 8 Hh)
    by (done || (unfold JITDUMP_MAGIC; cbn; lia)).
  cbn [mbind option_bind]. rewrite Z.eqb_refl. cbn [negb orb]. destruct (Z.ltb_spec (40 + Z.of_nat (length pad)) 40); [lia|].
  destruct (dump_recs f r k Hr rs (dump_hdr version mach tpid ts flags pad) [] c 0 (S (length f)) Hrs Hf) as (l & c' & E & Hl').
  { unfold dump_hdr. rewrite length_app, Nat2Z.inj_add, length_enc_fields. change (offset_of _ _) with 40. unfold flen. lia. }
  unfold dump_hdr in E. rewrite length_app, Nat2Z.inj_add, length_enc_fields in E. change (offset_of _ _) with 40 in E.
  change ([], c) with (state [] c). change (@nil (Z * nat)) with (slots_from 0 []). rewrite E. cbn [mbind option_bind].
  exists l, c'. done.
Qed.

(** ** Any file *)
Lemma dump_loop_some grant f : Forall is_byte f → ∀ fuel pos t ls lcap, 0 <= pos →
  (0 < fuel)%nat → flen f < pos + Z.of_nat fuel → ∃ t', dump_loop grant fuel f pos t ls lcap = Some t'.
Proof.
  intros Hb. induction fuel as [|fuel IH]; intros pos t ls lcap Hp Hpos Hf; [lia|]. cbn [dump_loop]. unfold ld_u32, ld_u64, sizeof_rhdr, sizeof_load, sizeof_move.
  destruct (Z.ltb_spec (flen f) (pos + 16)) as [|H16]; [by eexists|].
  destruct (ld_some 4 f pos Hb) as (id & -> & _); [lia..|]. cbn [mbind option_bind].
  destruct (ld_some 4 f (pos + 4) Hb) as (tot & -> & _); [lia..|]. cbn [mbind option_bind].
  destruct (Z.ltb_spec tot 16); [by eexists|].
  assert (∀ t ls lcap, ∃ t', dump_loop grant fuel f (pos + tot) t ls lcap = Some t') as Hnext by (intros; apply IH; lia).
  destruct (_ && _).
  - destruct (Z.ltb_spec (flen f) (pos + 16 + 40)); [by eexists|].
    destruct (ld_some 8 f (pos + 32) Hb) as (? & -> & _); [lia..|]. destruct (ld_some 8 f (pos + 40) Hb) as (? & -> & _); [lia..|].
    destruct (ld_some 8 f (pos + 48) Hb) as (? & -> & _); [lia..|]. cbn [mbind option_bind].
    destruct (before_nul _) as [[|]|]; [done| |done]. destruct (jit_push _ _ _ _ _); [|by eexists].
    case_match; [done|by eexists].
  - destruct (_ && _); [|done]. destruct (Z.ltb_spec (flen f) (pos + 16 + 48)); [by eexists|].
    destruct (ld_some 8 f (pos + 40) Hb) as (? & -> & _); [lia..|]. destruct (ld_some 8 f (pos + 48) Hb) as (? & -> & _); [lia..|].
    destruct (ld_some 8 f (pos + 56) Hb) as (? & -> & _); [lia..|]. cbn [mbind option_bind]. done.
Qed.

(** The files of the target hold bytes. *)
Definition sys_ok (w : sys) : Prop := ∀ p f, open_ w p = Some f → Forall is_byte (bytes f).

Lemma jitdump_read_some grant w p t : sys_ok w → ∃ b t', jitdump_read grant w p t = Some (b, t').
Proof.
  intros Hw. unfold jitdump_read. destruct (jit_open_trusted w p) as [f|] eqn:E; [|eauto].
  assert (Forall is_byte f) as Hb.
  { unfold jit_open_trusted in E. destruct (open_ w p) as [g|] eqn:Eo; [|done]. cbn [mbind option_bind] in E.
    destruct (negb (regular g)); [done|]. destruct (_ && _); [done|]. injection E as <-. by eapply Hw. }
  unfold ld_u32, sizeof_jhdr. destruct (Z.ltb_spec (flen f) 40); [eauto|].
  destruct (ld_some 4 f 0 Hb) as (m & -> & _); [lia..|]. destruct (ld_some 4 f 8 Hb) as (tot & -> & ?); [lia..|]. cbn [mbind option_bind].
  destruct (_ || _) eqn:Eb; [eauto|]. destruct (dump_loop_some grant f Hb (S (length f)) tot t [] 0) as (t' & ->); [lia|lia|unfold flen; lia|].
  cbn [mbind option_bind]. eauto.
Qed.

Lemma refresh_some grant qsort w j : sys_ok w → ∃ j', asmspy_jitmap_refresh grant qsort w j = Some j'.
Proof.
  intros Hw. unfold asmspy_jitmap_refresh.
  assert (∃ b t, (if bool_decide (jitdump_discover w (dump_path j) = []) then Some (false, ([], jcap j))
     else jitdump_read grant w (jitdump_discover w (dump_path j)) ([], jcap j)) = Some (b, t)) as (b & t & ->)
    by (case_bool_decide; [eauto|by apply jitdump_read_some]).
  cbn [mbind option_bind]. case_match; eauto.
Qed.

(** ** The two sources *)
Lemma jit_push_app grant t a sz nm t' : jit_push grant t a sz nm = Some t' →
  t'.1 = t.1 ++ [mk_sym a sz nm JIT_MODULE].
Proof.
  destruct t as [l c]. unfold jit_push. destruct (if _ =? c then _ else _); [|done]. cbn [mbind option_bind].
  destruct (grant _); [|done]. by intros [= <-].
Qed.

(** The text map adds only entries whose start no dumped code covers. *)
Lemma text_loop_spec grant dump ls t : dump ≠ [] →
  ∃ new, (text_loop grant dump ls t).1 = t.1 ++ new ∧ Forall (λ s, sym_at dump (addr s) = None) new.
Proof.
  intros Hd. revert t. induction ls as [|x ls IH]; intros t; cbn [text_loop]; [exists []; by rewrite app_nil_r|].
  destruct (text_line x) as [[[start sz] nm]|]; [|done]. rewrite (bool_decide_eq_false_2 (dump = [])) by done. cbn [negb andb].
  case_bool_decide as Hc; [done|]. destruct (jit_push grant t start sz nm) as [t'|] eqn:E; [|exists []; by rewrite app_nil_r].
  apply jit_push_app in E. destruct (IH t') as (new & -> & Hn). rewrite E.
  eexists. rewrite <-app_assoc. split; [done|]. constructor; [|done]. cbn [addr]. by apply eq_None_not_Some.
Qed.

Lemma sort_if_perm qsort l : QSort sym_cmp_addr qsort → sort_if qsort l ≡ₚ l.
Proof. intros HQ. unfold sort_if. case_bool_decide; [done|]. apply qsort_perm. Qed.
Lemma sort_if_sorted qsort l : QSort sym_cmp_addr qsort → StronglySorted (λ x y, addr x <= addr y) (sort_if qsort l).
Proof.
  intros HQ. apply Sorted_StronglySorted; [intros x y z; lia|]. unfold sort_if. case_bool_decide as E; [rewrite E; constructor|].
  eapply Sorted_weaken; [|apply qsort_sorted]. intros x y. unfold sym_cmp_addr. cbn.
  destruct (Z.ltb_spec (addr x) (addr y)), (Z.ltb_spec (addr y) (addr x)); lia.
Qed.

(** An entry of the dump answers for its code in any sorted table made of the dump
    and entries that start outside of it. *)
Lemma dump_answers dump tbl new d q :
  apart dump → StronglySorted (λ x y, addr x <= addr y) tbl → tbl ≡ₚ dump ++ new →
  Forall (λ s, sym_at dump (addr s) = None) new → d ∈ dump → inside d q → sym_at tbl q = Some d.
Proof.
  intros Hap Hs Hp Hn Hd Hq. pose proof Hap as [_ Hok]. rewrite Forall_forall in Hok, Hn.
  assert (∀ s, s ∈ tbl → addr d <= addr s → addr s <= q → s = d) as Honly.
  { intros s Hin Ha Hle. rewrite Hp, elem_of_app in Hin. destruct Hin as [Hin|Hin].
    - symmetry. by eapply apart_inside.
    - exfalso. assert (sym_at dump (addr s) = Some d) as E.
      { apply (sym_at_apart dump (addr s) d Hap). split; [done|]. unfold inside in *. lia. }
      specialize (Hn s Hin). cbn in Hn. congruence. }
  assert (d ∈ tbl) as Hdt by (rewrite Hp; apply elem_of_app; by left).
  assert (addr d <= q) as Hdq by (unfold inside in Hq; lia).
  destruct (sym_at_nearest tbl q Hs) as [[_ Hno]|(s & -> & Hin & Hle & _ & Hmax)].
  - destruct (Hno d Hdt Hdq) as (s & Hin & [? ?] & Hc). assert (s = d) as -> by auto.
    destruct (Hok d Hd) as (? & ? & ?). apply covers_inside in Hq; [congruence|done..].
  - f_equal. apply Honly; [done|by apply Hmax|done].
Qed.

(** The jitdump the target has now: what a read of it gives. *)
Definition dumps (grant : allocator) (w : sys) (j : jitmap) (D : list sym) : Prop :=
  jitdump_discover w (dump_path j) ≠ [] ∧
  ∃ c, jitdump_read grant w (jitdump_discover w (dump_path j)) ([], jcap j) = Some (true, (D, c)).

Lemma refresh_dump grant qsort w j D :
  QSort sym_cmp_addr qsort → dumps grant w j D → apart (qsort D) →
  ∃ j', asmspy_jitmap_refresh grant qsort w j = Some j' ∧ miss_budget j' = JIT_MISS_COOLDOWN ∧
    ∀ d q, d ∈ D → inside d q → asmspy_jitmap_at j' q = Some d.
Proof.
  intros HQ [Hdp (c & Er)] Hap. unfold asmspy_jitmap_refresh. rewrite bool_decide_eq_false_2 by done. rewrite Er.
  cbn [mbind option_bind fst snd].
  assert (∀ d, d ∈ D → D ≠ [] ∧ sort_if qsort D = qsort D ∧ d ∈ qsort D) as Hsort.
  { intros d Hd. assert (D ≠ []) as HD by (intros ->; by apply not_elem_of_nil in Hd).
    split_and!; [done| |by rewrite (qsort_perm D)]. unfold sort_if. by rewrite bool_decide_eq_false_2. }
  destruct (jit_open_trusted w (perf_map w)) as [text|]; eexists; (split; [done|]); (split; [done|]);
    intros d q Hd Hq; destruct (Hsort d Hd) as (HD & -> & Hd'); unfold asmspy_jitmap_at; cbn [v].
  - destruct (text_loop_spec grant (qsort D) (VmMap.split_lines text) (qsort D, c)) as (new & E & Hn).
    { intros E. rewrite E in Hd'. by apply not_elem_of_nil in Hd'. }
    apply (dump_answers (qsort D) _ new); [done|by apply sort_if_sorted| |done|done|done]. by rewrite sort_if_perm, E.
  - apply (dump_answers (qsort D) _ []); [done|by apply sort_if_sorted| |constructor|done|done]. by rewrite sort_if_perm, app_nil_r.
Qed.

(** The jitdump wins wherever both sources name an address.  After a refresh,
    every address inside code the dump records (its extents disjoint) resolves to
    that code, whatever lines the text map holds: lines that start inside dumped
    code, that cover it, duplicates, or garbage. *)
Theorem jitdump_wins grant qsort w j D :
  QSort sym_cmp_addr qsort → dumps grant w j D → apart (qsort D) →
  ∃ j', asmspy_jitmap_refresh grant qsort w j = Some j' ∧
    ∀ d q, d ∈ D → inside d q → asmspy_jitmap_at j' q = Some d.
Proof. intros HQ HD Hap. destruct (refresh_dump grant qsort w j D HQ HD Hap) as (j' & ? & _ & ?). eauto. Qed.

(** ** Resolving while the target runs *)
(** Asking for the same address [n] times: the last answer and the map after it. *)
Fixpoint ask (grant : allocator) (qsort : list sym → list sym) (w : sys) (elf : option (list sym)) (q : Z) (n : nat)
    (j : jitmap) : option (option sym * option jitmap) :=
  match n with
  | O => Some (None, Some j)
  | S n =>
      '(s, j') ← asmspy_resolve grant qsort w elf (Some j) q;
      match n, j' with
      | O, _ => Some (s, j')
      | S _, Some j' => ask grant qsort w elf q n j'
      | S _, None => None
      end
  end.

(** C35: new code is named after a bounded number of misses.  Take an address that
    neither the ELF symbols nor the JIT map know, inside code that the target's
    jitdump, which is found and can be read with the memory granted, by now records,
    when the extents the dump records stay in the address space and do not overlap
    (where they do, an entry that starts later and ends before the address hides the
    one that holds it).  The lookups before the budget is used up answer nothing and do
    not read the files; the next one, the 65th at the latest, refreshes the map and
    answers with that code, and leaves a full budget behind. *)
Theorem resolve_names_new_code grant qsort w elf j D d q :
  QSort sym_cmp_addr qsort → (e ← elf; asmspy_symtab_at e q) = None → asmspy_jitmap_at j q = None →
  0 <= miss_budget j <= JIT_MISS_COOLDOWN → dumps grant w j D → apart (qsort D) → d ∈ D → inside d q →
  (∀ n, (0 < n)%nat → Z.of_nat n <= miss_budget j →
     ask grant qsort w elf q n j = Some (None, Some (mk_jit (v j) (jcap j) (miss_budget j - Z.of_nat n) (dump_path j)))) ∧
  ∃ j', ask grant qsort w elf q (S (Z.to_nat (miss_budget j))) j = Some (Some d, Some j') ∧ miss_budget j' = JIT_MISS_COOLDOWN.
Proof.
  intros HQ He Hj Hb HD Hap Hd Hq.
  assert (∀ b, 0 < b → asmspy_resolve grant qsort w elf (Some (mk_jit (v j) (jcap j) b (dump_path j))) q
            = Some (None, Some (mk_jit (v j) (jcap j) (b - 1) (dump_path j)))) as Hmiss.
  { intros b Hb'. unfold asmspy_resolve. rewrite He. unfold asmspy_jitmap_at in *. cbn [v miss_budget]. rewrite Hj.
    destruct (Z.eqb_spec b 0); [lia|done]. }
  assert (j = mk_jit (v j) (jcap j) (miss_budget j) (dump_path j)) as Ej by (by destruct j). split.
  - intros n Hn. rewrite Ej at 2. revert Hn. generalize (miss_budget j) as b. induction n as [|n IH]; intros b Hn Hle; [lia|].
    cbn [ask]. rewrite Hmiss by lia. cbn [mbind option_bind]. destruct n as [|n].
    + do 4 f_equal; lia.
    + rewrite IH by lia. do 4 f_equal; lia.
  - destruct (refresh_dump grant qsort w (mk_jit (v j) (jcap j) 0 (dump_path j)) D HQ HD Hap) as (j' & Er & Hb' & Hat).
    exists j'. split; [|done]. rewrite Ej at 2. pose proof (proj1 Hb) as H0. revert H0. generalize (miss_budget j) as b. intros b H0.
    remember (Z.to_nat b) as n eqn:En. revert b H0 En. induction n as [|n IH]; intros b H0 En.
    + assert (b = 0) as -> by lia. cbn [ask]. unfold asmspy_resolve. rewrite He. unfold asmspy_jitmap_at in Hj |- * at 1. cbn [v miss_budget].
      rewrite Hj, Z.eqb_refl, Er. cbn [mbind option_bind]. by rewrite (Hat d q).
    + cbn [ask] in IH |- *. rewrite Hmiss by lia. cbn [mbind option_bind]. apply IH; lia.
Qed.

(** ** Entries with the same start *)
Definition rsort (l : list sym) : list sym := msort sym_cmp_addr (reverse l).
Lemma rsort_QSort : QSort sym_cmp_addr rsort.
Proof.
  split; intros l; unfold rsort.
  - rewrite (qsort_perm (QSort := addr_QSort)). apply reverse_Permutation.
  - apply (qsort_sorted (QSort := addr_QSort)).
Qed.
Definition remapped : list Z := codes "1000 10 old" ++ [10] ++ codes "1000 40 new" ++ [10].
Definition remap_sys : sys :=
  mk_sys 7 (λ p, if bool_decide (p = codes "/tmp/perf-7.map") then Some (mk_jf remapped true 0) else None)
    (λ _, false) 0 None None.

(** A method compiled again at the same address can be lost.  The text map then
    has two lines with one start; how the C library's sort orders equal elements is
    unspecified, and under an order it may choose, the lookup looks only at the
    stale, shorter entry: an address of the new method resolves to nothing although
    its entry is in the map.  Under another the new method is found. *)
Theorem stale_entry_hides_method :
  QSort sym_cmp_addr rsort ∧ QSort sym_cmp_addr addr_sort ∧
  (∃ j s, asmspy_jitmap_refresh always rsort remap_sys asmspy_jitmap_init = Some j ∧
     s ∈ v j ∧ name s = codes "new" ∧ inside s 0x1020 ∧ asmspy_jitmap_at j 0x1020 = None) ∧
  (∃ j s, asmspy_jitmap_refresh always addr_sort remap_sys asmspy_jitmap_init = Some j ∧
     name s = codes "new" ∧ asmspy_jitmap_at j 0x1020 = Some s).
Proof.
  split_and!; [exact rsort_QSort|exact addr_QSort| |].
  - eexists _, (mk_sym 0x1000 0x40 (codes "new") JIT_MODULE). split; [vm_compute; reflexivity|].
    split_and!; [left|done|unfold inside; cbn; lia|vm_compute; reflexivity].
  - eexists _, (mk_sym 0x1000 0x40 (codes "new") JIT_MODULE). split; [vm_compute; reflexivity|].
    split; [done|vm_compute; reflexivity].
Qed.

(** ** A runtime, concretely *)
Definition demo_recs : list jrec :=
  [JLoad 5 7 7 0 0x1000 32 1 (codes "foo") [144; 195]; JMove 6 7 7 0 0x1000 0x2000 64 1].
Definition demo_flight : jrec := JLoad 8 7 7 0 0x9000 16 2 (codes "bar") [195].
Definition demo_dump : list Z :=
  dump_hdr 1 62 7 0 0 [0; 0; 0; 0] ++ concat (enc_rec <$> demo_recs) ++ take 58 (enc_rec demo_flight).
Definition demo_sys : sys :=
  mk_sys 7 (λ p, if bool_decide (p = codes "/tmp/jit-7.dump") then Some (mk_jf demo_dump true 1000) else None)
    (λ p, bool_decide (p = codes "/tmp/jit-7.dump")) 0 (Some 1000) None.
Definition demo_entry : sym := mk_sym 0x2000 64 (codes "foo") JIT_MODULE.

Lemma demo_recs_ok : Forall jrec_ok demo_recs ∧ jrec_ok demo_flight.
Proof.
  assert ((0 ∉ codes "foo") ∧ (0 ∉ codes "bar")) as [? ?] by (split; vm_compute; set_solver).
  split; [constructor; [|constructor; [|constructor]]|]; (split; [reflexivity|]); unfold is_u64; split_and!; done || lia.
Qed.

Lemma jitdump_read_exact_witness :
  ∃ l c', jitdump_read always demo_sys (codes "/tmp/jit-7.dump") ([], 0) = Some (true, (snd <$> l, c')) ∧
    (l = replay demo_recs ∨ l = replay (demo_recs ++ [demo_flight])).
Proof.
  apply (jitdump_read_exact demo_sys (codes "/tmp/jit-7.dump") demo_dump 1 62 7 0 0 [0; 0; 0; 0] demo_recs demo_flight 58 0).
  - vm_compute. reflexivity.
  - reflexivity.
  - reflexivity.
  - apply demo_recs_ok.
  - apply demo_recs_ok.
Defined.

Lemma demo_dumps : dumps always demo_sys asmspy_jitmap_init [demo_entry].
Proof. split; [vm_compute; discriminate|]. eexists. vm_compute. reflexivity. Qed.
Lemma demo_apart : apart (addr_sort [demo_entry]).
Proof.
  change (addr_sort [demo_entry]) with [demo_entry]. split; [repeat constructor|]. apply Forall_singleton. cbn. lia.
Qed.

Lemma jitdump_wins_witness :
  ∃ j', asmspy_jitmap_refresh always addr_sort demo_sys asmspy_jitmap_init = Some j' ∧
    ∀ d q, d ∈ [demo_entry] → inside d q → asmspy_jitmap_at j' q = Some d.
Proof.
  apply (jitdump_wins always addr_sort demo_sys asmspy_jitmap_init [demo_entry]).
  - exact addr_QSort.
  - exact demo_dumps.
  - exact demo_apart.
Defined.

Lemma resolve_names_new_code_witness :
  (∀ n, (0 < n)%nat → Z.of_nat n <= 0 →
     ask always addr_sort demo_sys None 0x2010 n asmspy_jitmap_init = Some (None, Some (mk_jit [] 0 (0 - Z.of_nat n) []))) ∧
  ∃ j', ask always addr_sort demo_sys None 0x2010 1 asmspy_jitmap_init = Some (Some demo_entry, Some j') ∧
        miss_budget j' = JIT_MISS_COOLDOWN.
Proof.
  apply (resolve_names_new_code always addr_sort demo_sys None asmspy_jitmap_init [demo_entry] demo_entry 0x2010).
  - exact addr_QSort.
  - reflexivity.
  - reflexivity.
  - split; discriminate.
  - exact demo_dumps.
  - exact demo_apart.
  - left.
  - split; [discriminate|reflexivity].
Defined.
End JitMap.
