(* ===== verification/GcMove.v ===== *)
(** Address canonicalization across compacting collections
    ([src/dataflow_gcmove.c]). *)
From S2P Require Import Prelude ValTrace.
Import ValTrace.

Module GcMove.

(** [asmtest_gcmove_t] *)
Record gcmove := mk_move { old_base : Z; new_base : Z; len : Z; gstep : Z }.
#[export] Instance gcmove_eq_dec : EqDecision gcmove.
Proof. solve_decision. Defined.

(** [cur >= base && cur - base < len] *)
Definition inside (src : gcmove → Z) (m : gcmove) (x : Z) : bool :=
  (src m <=? x) && (x - src m <? len m).

(** The scan of one batch: the first range that covers [cur] carries it, and
    the scan stops. *)
Fixpoint through (src dst : gcmove → Z) (ms : list gcmove) (cur : Z) : Z :=
  match ms with
  | [] => cur
  | m :: ms => if inside src m cur then dst m +64 (cur - src m) else through src dst ms cur
  end.

(** The contiguous groups of equal step, in array order. *)
Fixpoint batches (ms : list gcmove) : list (list gcmove) :=
  match ms with
  | [] => []
  | m :: ms =>
      match batches ms with
      | (x :: b) :: bs => if gstep x =? gstep m then (m :: x :: b) :: bs else [m] :: (x :: b) :: bs
      | bs => [m] :: bs
      end
  end.

(** [moves[i].step] of a group. *)
Definition bstep (b : list gcmove) : Z := match b with m :: _ => gstep m | [] => 0 end.

Definition canon_batch (step cur : Z) (b : list gcmove) : Z :=
  if step <? bstep b then through old_base new_base b cur else cur.

Definition asmtest_gcmove_canon (moves : list gcmove) (step phys : Z) : Z :=
  foldl (canon_batch step) phys (batches moves).

Definition gcmove_cmp_step (x y : gcmove) : Z := cmp3 (gstep x) (gstep y).

(** The scan for a step below its predecessor's. *)
Fixpoint ordered (ms : list gcmove) : bool :=
  match ms with
  | m :: ((m' :: _) as ms') => if gstep m' <? gstep m then false else ordered ms'
  | _ => true
  end.

(** The record loop shared by the two canonicalizers: the key of every absolute
    memory record is recomputed, and the records that changed are counted. *)
Definition rekey (key : Z → Z → Z) (r : at_val_rec) : at_val_rec :=
  match kind r with
  | AT_LOC_MEM_ABS =>
      let after := key (rstep r) (addr r) in if after =? addr r then r else with_addr r after
  | _ => r
  end.
Definition rekeyed (key : Z → Z → Z) (r : at_val_rec) : bool :=
  match kind r with
  | AT_LOC_MEM_ABS => negb (key (rstep r) (addr r) =? addr r)
  | _ => false
  end.
Definition set_recs (v : asmtest_valtrace) (l : option (list at_val_rec)) : asmtest_valtrace :=
  mk_vt (insn_off v) (steps_cap v) (steps_total v) (regfile v) (regfile_fp v) l (recs_cap v)
    (recs_total v) (wide_buf v) (wide_cap v) (vtruncated v) (mem_space v).
Definition rekey_trace (key : Z → Z → Z) (v : asmtest_valtrace) : Z * asmtest_valtrace :=
  (Z.of_nat (length (filter (λ r, rekeyed key r = true) (vrecs v))),
   set_recs v (option_map (map (rekey key)) (recs v))).

Definition sizeof_gcmove : Z := 32.

(** The count (or [(size_t)-1]) and the trace afterwards.  A null [moves] is
    the empty list. *)
Definition asmtest_gcmove_canonicalize (grant : allocator) (qsort : list gcmove → list gcmove)
    (v : option asmtest_valtrace) (moves : list gcmove) : Z * option asmtest_valtrace :=
  match v with
  | None => (SIZE_MAX, None)
  | Some v =>
      match moves with
      | [] => (0, Some v)
      | _ =>
          let sorted :=
            if ordered moves then moves
            else if grant (Z.of_nat (length moves) *64 sizeof_gcmove) then qsort moves
            else moves in
          let '(changed, v') := rekey_trace (asmtest_gcmove_canon sorted) v in
          (changed, Some v')
      end
  end.

(** ** Batches *)
(** Ascending by step, the order the walk relies on. *)
Definition by_step (ms : list gcmove) : Prop :=
  StronglySorted (λ m m', gstep m <= gstep m') ms.

Lemma batches_head m ms : ∃ b bs, batches (m :: ms) = (m :: b) :: bs.
Proof. simpl. destruct (batches ms) as [|[|x b] bs]; [eauto..|]. case_match; eauto. Qed.

Lemma batches_nonempty ms b : b ∈ batches ms → b ≠ [].
Proof.
  revert b. induction ms as [|m ms IH]; simpl; [set_solver|]. intros b.
  destruct (batches ms) as [|[|x b'] bs]; [set_solver..|].
  case_match; rewrite !elem_of_cons; set_solver.
Qed.

Lemma batches_concat ms : concat (batches ms) = ms.
Proof.
  induction ms as [|m ms IH]; [done|]. simpl.
  destruct (batches ms) as [|[|x b] bs]; simpl in *; [by subst|by rewrite IH|].
  case_match; simpl; by rewrite <-IH.
Qed.

Lemma batches_uniform ms b m : b ∈ batches ms → m ∈ b → gstep m = bstep b.
Proof.
  revert b. induction ms as [|m' ms IH]; simpl; [set_solver|]. intros b.
  destruct (batches ms) as [|[|x b'] bs].
  1-2: intros [->|Hb]%elem_of_cons Hm; [set_solver|by apply IH].
  destruct (Z.eqb_spec (gstep x) (gstep m')) as [E|E]; intros [->|Hb]%elem_of_cons Hm.
  - apply elem_of_cons in Hm as [->|Hm]; [done|]. simpl. rewrite <-E.
    apply (IH (x :: b')); set_solver.
  - apply IH; set_solver.
  - set_solver.
  - by apply IH.
Qed.

Lemma elem_of_batches ms b m : b ∈ batches ms → m ∈ b → m ∈ ms.
Proof.
  intros Hb Hm. rewrite <-(batches_concat ms). apply elem_of_concat. by exists b.
Qed.

(** Sorted moves have one batch per step, in strictly ascending order. *)
Lemma batches_ascending ms :
  by_step ms → StronglySorted (λ b b', bstep b < bstep b') (batches ms).
Proof.
  induction 1 as [|m ms Hs IH Hall]; [constructor|]. simpl.
  destruct (batches ms) as [|[|x b] bs] eqn:Eb.
  - repeat constructor.
  - exfalso. eapply (batches_nonempty ms []); [rewrite Eb; left|done].
  - assert (∀ b', b' ∈ (x :: b) :: bs → gstep m <= bstep b') as Hle.
    { intros b' Hb'. rewrite <-Eb in Hb'. destruct b' as [|y b'].
      { by apply batches_nonempty in Hb'. }
      simpl. rewrite Forall_forall in Hall. apply Hall.
      eapply elem_of_batches; [exact Hb'|left]. }
    apply StronglySorted_inv in IH as [Hbs Hx].
    destruct (Z.eqb_spec (gstep x) (gstep m)) as [E|E].
    + constructor; [done|]. eapply Forall_impl; [exact Hx|]. simpl. lia.
    + specialize (Hle (x :: b) ltac:(left)) as Hmx. simpl in Hmx.
      constructor; [by constructor|]. constructor; [simpl; lia|].
      eapply Forall_impl; [exact Hx|]. simpl. lia.
Qed.

(** ** One batch as a partial injection *)
(** A range whose ends do not leave the 64-bit space on either side. *)
Definition move_ok (m : gcmove) : Prop :=
  0 <= old_base m ∧ 0 <= new_base m ∧ 0 <= len m ∧
  old_base m + len m <= 2 ^ 64 ∧ new_base m + len m <= 2 ^ 64.

(** No address is inside two different ranges of the list. *)
Definition apart (src : gcmove → Z) (ms : list gcmove) : Prop :=
  ∀ x m m', m ∈ ms → m' ∈ ms → inside src m x = true → inside src m' x = true → m = m'.

Lemma inside_true src m x : inside src m x = true ↔ src m <= x < src m + len m.
Proof.
  unfold inside. rewrite andb_true_iff, Z.leb_le, Z.ltb_lt. lia.
Qed.

Lemma through_spec src dst ms x :
  (∃ m, m ∈ ms ∧ inside src m x = true ∧ through src dst ms x = dst m +64 (x - src m)) ∨
  (∀ m, m ∈ ms → inside src m x = false) ∧ through src dst ms x = x.
Proof.
  induction ms as [|m ms IH]; simpl; [right; set_solver|].
  destruct (inside src m x) eqn:E.
  - left. exists m. by split_and!; [left|..].
  - destruct IH as [(m' & ? & ? & ?)|[Hn ?]].
    + left. exists m'. by split_and!; [right|..].
    + right. split; [|done]. intros m' [->|?]%elem_of_cons; auto.
Qed.

Lemma through_moved src dst ms m x :
  apart src ms → m ∈ ms → inside src m x = true → through src dst ms x = dst m +64 (x - src m).
Proof.
  intros Ha Hm Hi. destruct (through_spec src dst ms x) as [(m' & Hm' & Hi' & ->)|[Hn _]].
  - by rewrite (Ha x m m').
  - rewrite Hn in Hi by done. congruence.
Qed.

(** A batch acts the same in any order of its ranges. *)
Lemma through_perm src dst ms ms' x :
  ms ≡ₚ ms' → apart src ms → through src dst ms x = through src dst ms' x.
Proof.
  intros Hp Ha. destruct (through_spec src dst ms' x) as [(m & Hm & Hi & ->)|[Hn ->]].
  - apply through_moved; [done| |done]. by rewrite Hp.
  - destruct (through_spec src dst ms x) as [(m & Hm & Hi & _)|[_ ->]]; [|done].
    rewrite Hn in Hi; [done|]. by rewrite <-Hp.
Qed.

(** [x] is carried by the batch, or nothing is moved over it. *)
Definition kept (src dst : gcmove → Z) (b : list gcmove) (x : Z) : Prop :=
  (∃ m, m ∈ b ∧ inside src m x = true) ∨ (∀ m, m ∈ b → inside dst m x = false).

Lemma through_inverse src dst b x :
  (∀ m, m ∈ b → 0 <= dst m ∧ dst m + len m <= 2 ^ 64 ∧ 0 <= src m ∧ src m + len m <= 2 ^ 64) →
  apart dst b → kept src dst b x → through dst src b (through src dst b x) = x.
Proof.
  intros Hok Ha Hk. destruct (through_spec src dst b x) as [(m & Hm & Hi & ->)|[Hn ->]].
  - apply inside_true in Hi. specialize (Hok m Hm). rewrite u64_small by lia.
    rewrite (through_moved _ _ _ m) by (done || apply inside_true; lia).
    rewrite u64_small; lia.
  - destruct Hk as [(m & Hm & Hi)|Hd]; [by rewrite Hn in Hi|].
    destruct (through_spec dst src b x) as [(m & Hm & Hi & _)|[_ ->]]; [|done].
    by rewrite Hd in Hi.
Qed.

(** ** The walk *)
(** The batches that take effect after a step. *)
Definition later (moves : list gcmove) (step : Z) : list (list gcmove) :=
  filter (λ b, step < bstep b) (batches moves).

Lemma canon_later moves step x :
  asmtest_gcmove_canon moves step x =
  foldl (λ cur b, through old_base new_base b cur) x (later moves step).
Proof.
  unfold asmtest_gcmove_canon, later. generalize (batches moves) as bs.
  intros bs. revert x. induction bs as [|b bs IH]; intros x; [done|].
  rewrite filter_cons. simpl. unfold canon_batch at 2.
  destruct (Z.ltb_spec step (bstep b)).
  - by rewrite decide_True.
  - by rewrite decide_False by lia.
Qed.

(** [x] is never overwritten on its way through the batches: at each one it is
    carried, or nothing is moved over it. *)
Fixpoint survives (src dst : gcmove → Z) (bs : list (list gcmove)) (x : Z) : Prop :=
  match bs with
  | [] => True
  | b :: bs => kept src dst b x ∧ survives src dst bs (through src dst b x)
  end.

Lemma survives_app src dst bs bs' x :
  survives src dst (bs ++ bs') x ↔
  survives src dst bs x ∧ survives src dst bs' (foldl (λ c b, through src dst b c) x bs).
Proof. revert x. induction bs as [|b bs IH]; intros x; simpl; [tauto|]. rewrite IH. tauto. Qed.

Definition batch_ok (dst : gcmove → Z) (b : list gcmove) : Prop :=
  Forall move_ok b ∧ apart dst b.

(** Walking the batches backwards undoes walking them forwards. *)
Lemma walk_inverse bs x :
  Forall (batch_ok new_base) bs → survives old_base new_base bs x →
  foldr (λ b c, through new_base old_base b c)
        (foldl (λ c b, through old_base new_base b c) x bs) bs = x.
Proof.
  intros Hok. revert x. induction Hok as [|b bs [Hm Ha] Hok IH]; intros x; [done|].
  simpl. intros [Hk Hs]. rewrite IH by done. apply through_inverse; [|done..].
  intros m Hin. rewrite Forall_forall in Hm. destruct (Hm m Hin) as (?&?&?&?&?). lia.
Qed.

Lemma walk_inverse_back bs x :
  Forall (batch_ok old_base) bs → survives new_base old_base (rev bs) x →
  foldl (λ c b, through old_base new_base b c)
        (foldr (λ b c, through new_base old_base b c) x bs) bs = x.
Proof.
  intros Hok. induction Hok as [|b bs [Hm Ha] Hok IH]; [done|].
  simpl. rewrite survives_app. intros [Hs [Hk _]].
  rewrite foldl_rev in Hk. rewrite through_inverse; [by apply IH| |done..].
  intros m Hin. rewrite Forall_forall in Hm. destruct (Hm m Hin) as (?&?&?&?&?). lia.
Qed.

(** ** Splitting the timeline *)
Lemma batches_filter (P : Z → Prop) `{∀ z, Decision (P z)} ms :
  by_step ms →
  batches (filter (λ m, P (gstep m)) ms) = filter (λ b, P (bstep b)) (batches ms).
Proof.
  induction 1 as [|m ms Hs IH Hall]; [done|]. rewrite filter_cons.
  pose proof (batches_ascending (m :: ms) (SSorted_cons _ Hs Hall)) as Hasc.
  cbn [batches] in Hasc |- *.
  destruct (batches ms) as [|[|x b] bs] eqn:Eb.
  - rewrite filter_cons. simpl. case_decide; [|done]. cbn [batches]. by rewrite IH.
  - exfalso. eapply (batches_nonempty ms []); [rewrite Eb; left|done].
  - rewrite filter_cons in IH. cbn [bstep] in IH.
    destruct (Z.eqb_spec (gstep x) (gstep m)) as [E|E]; rewrite !filter_cons; cbn [bstep].
    + rewrite E in IH. case_decide; [|done]. cbn [batches]. rewrite IH.
      by rewrite E, Z.eqb_refl.
    + destruct (decide (P (gstep m))) as [Hm|Hm]; [|done]. cbn [batches]. rewrite IH.
      apply StronglySorted_inv in Hasc as [_ Hgt].
      destruct (decide (P (gstep x))) as [Hx|Hx].
      * by destruct (Z.eqb_spec (gstep x) (gstep m)).
      * apply Forall_cons in Hgt as [_ Hgt].
        destruct (filter _ bs) as [|[|y b'] bs'] eqn:Ef; [done..|].
        assert ((y :: b') ∈ bs) as Hin.
        { assert ((y :: b') ∈ (y :: b') :: bs') as Hi by left. rewrite <-Ef in Hi.
          by apply list_elem_of_filter in Hi as [_ Hi]. }
        rewrite Forall_forall in Hgt. apply Hgt in Hin. simpl in Hin.
        destruct (Z.eqb_spec (gstep y) (gstep m)); [lia|done].
Qed.

(** The collections that take effect up to a step. *)
Definition up_to (moves : list gcmove) (s : Z) : list gcmove :=
  filter (λ m, gstep m <= s) moves.

Lemma filter_split_ascending (bs : list (list gcmove)) s s' :
  StronglySorted (λ b b', bstep b < bstep b') bs → s <= s' →
  filter (λ b, s < bstep b) bs =
  filter (λ b, s < bstep b) (filter (λ b, bstep b <= s') bs) ++ filter (λ b, s' < bstep b) bs.
Proof.
  intros Hs Hle. induction Hs as [|b bs _ IH Hall]; [done|]. rewrite !filter_cons.
  destruct (decide (bstep b <= s')) as [Hb|Hb].
  - rewrite (decide_False (P := s' < bstep b)) by lia. rewrite filter_cons.
    case_decide; [|done]. simpl. by rewrite IH.
  - rewrite !(decide_True (P := _ < bstep b)) by lia.
    assert (filter (λ b, bstep b <= s') bs = []) as Hnil.
    { apply list_filter_none. rewrite Forall_forall in *. intros y Hy. apply Hall in Hy. lia. }
    rewrite Hnil in *. simpl in *. by rewrite IH.
Qed.

Lemma later_split moves s s' :
  by_step moves → s <= s' → later moves s = later (up_to moves s') s ++ later moves s'.
Proof.
  intros Hs Hle. unfold later, up_to.
  pose proof (batches_filter (λ z, z <= s') moves Hs) as E. cbv beta in E. rewrite E.
  apply filter_split_ascending; [by apply batches_ascending|done].
Qed.

(** A record at [s] and the same byte seen at [s'], after the collections
    between the two steps, have the same canonical address. *)
Lemma canon_compose moves s s' x :
  by_step moves → s <= s' →
  asmtest_gcmove_canon moves s x =
  asmtest_gcmove_canon moves s' (asmtest_gcmove_canon (up_to moves s') s x).
Proof.
  intros Hs Hle. rewrite !canon_later, (later_split moves s s') by done. by rewrite foldl_app.
Qed.

(** Every batch of the timeline is a collection: its ranges stay in the address
    space and do not overlap in the space named. *)
Definition timeline_ok (src : gcmove → Z) (moves : list gcmove) : Prop :=
  by_step moves ∧ Forall move_ok moves ∧
  ∀ x m m', m ∈ moves → m' ∈ moves → gstep m = gstep m' →
            inside src m x = true → inside src m' x = true → m = m'.

Lemma timeline_later src moves s :
  timeline_ok src moves → Forall (batch_ok src) (later moves s).
Proof.
  intros (_ & Hok & Ha). apply Forall_forall. intros b [_ Hb]%list_elem_of_filter.
  rewrite Forall_forall in Hok. split.
  - apply Forall_forall. intros m Hm. apply Hok. by eapply elem_of_batches.
  - intros x m m' Hm Hm' Hi Hi'. apply (Ha x m m'); try done; try by eapply elem_of_batches.
    by rewrite (batches_uniform _ _ _ Hb Hm), (batches_uniform _ _ _ Hb Hm').
Qed.

(** The byte at [x] from step [s] on is never overwritten by a move. *)
Definition lives (moves : list gcmove) (s x : Z) : Prop :=
  survives old_base new_base (later moves s) x.

Lemma canon_inj moves s x y :
  timeline_ok new_base moves → lives moves s x → lives moves s y →
  asmtest_gcmove_canon moves s x = asmtest_gcmove_canon moves s y → x = y.
Proof.
  intros Hok Hx Hy. rewrite !canon_later. intros E.
  pose proof (timeline_later _ _ s Hok) as Hb.
  rewrite <-(walk_inverse _ _ Hb Hx), <-(walk_inverse _ _ Hb Hy). by rewrite E.
Qed.

(** Canonical addresses are object identity.  Over a timeline of
    collections, a byte seen at [x] in step [s] and a byte seen at [y] in a
    later step [s'], neither overwritten afterwards, get the same canonical
    address exactly when [y] is where the collections between the two steps
    carried [x]: a def and its use stay linked across a compaction, and an
    object that reuses a vacated slot is not linked to the former one. *)
Theorem canon_identifies_objects moves s s' x y
    (Hok : timeline_ok new_base moves) (Hle : s <= s')
    (Hx : lives moves s x) (Hy : lives moves s' y) :
  asmtest_gcmove_canon moves s x = asmtest_gcmove_canon moves s' y ↔
  y = asmtest_gcmove_canon (up_to moves s') s x.
Proof.
  pose proof (proj1 Hok) as Hs. rewrite (canon_compose moves s s') by done.
  split; [|by intros ->]. intros E. symmetry. eapply canon_inj; [done| |done|exact E].
  unfold lives in *. rewrite (later_split moves s s'), survives_app in Hx by done.
  rewrite canon_later. apply Hx.
Qed.

(** ** Order of the moves *)
Lemma batches_by_step ms :
  by_step ms → batches ms = (λ s, filter (λ m, gstep m = s) ms) <$> (bstep <$> batches ms).
Proof.
  intros Hs. rewrite <-list_fmap_compose. symmetry.
  rewrite <-(list_fmap_id (batches ms)) at 2. apply list_fmap_ext. intros i b Hb.
  pose proof (batches_ascending ms Hs) as Hasc. simpl.
  assert (filter (λ m, gstep m = bstep b) ms = concat (filter (λ b', bstep b' = bstep b) (batches ms)))
    as ->.
  { pose proof (batches_filter (λ z, z = bstep b) ms Hs) as E. cbv beta in E.
    by rewrite <-E, batches_concat. }
  clear Hs. revert i Hb. induction Hasc as [|b0 bs _ IH Hall]; intros i Hb; [done|].
  rewrite Forall_forall in Hall. rewrite filter_cons. destruct i as [|i]; simpl in Hb.
  - simplify_eq. rewrite decide_True by done. simpl.
    rewrite list_filter_none; [by rewrite app_nil_r|]. apply Forall_forall.
    intros b' Hb'. apply Hall in Hb'. lia.
  - pose proof (Hall b (list_elem_of_lookup_2 _ _ _ Hb)). rewrite decide_False by lia. by apply (IH i).
Qed.

Lemma batch_filter ms b : by_step ms → b ∈ batches ms → b = filter (λ m, gstep m = bstep b) ms.
Proof.
  intros Hs Hb. pose proof Hb as Hb'. rewrite batches_by_step in Hb' by done.
  apply list_elem_of_fmap in Hb' as (z & E & _).
  pose proof (batches_nonempty _ _ Hb). destruct b as [|m b]; [done|].
  assert (m ∈ filter (λ m, gstep m = z) ms) as [<- _]%list_elem_of_filter by (rewrite <-E; left).
  exact E.
Qed.

Lemma elem_of_bsteps ms s : s ∈ bstep <$> batches ms ↔ ∃ m, m ∈ ms ∧ gstep m = s.
Proof.
  rewrite list_elem_of_fmap. split.
  - intros (b & -> & Hb). pose proof (batches_nonempty _ _ Hb). destruct b as [|m b]; [done|].
    exists m. split; [|done]. eapply elem_of_batches; [done|left].
  - intros (m & Hm & <-). rewrite <-(batches_concat ms) in Hm.
    apply elem_of_concat in Hm as (b & Hb & Hm). exists b. split; [|done].
    by eapply batches_uniform.
Qed.

Lemma bsteps_unique ms ms' :
  by_step ms → by_step ms' → ms ≡ₚ ms' → bstep <$> batches ms = bstep <$> batches ms'.
Proof.
  intros Hs Hs' Hp.
  assert (∀ l, by_step l → StronglySorted Z.lt (bstep <$> batches l)) as Hlt.
  { intros l Hl. by apply (StronglySorted_fmap_iff Z.lt bstep), batches_ascending. }
  apply StronglySorted_lt_unique; [by apply Hlt..|].
  intros s. rewrite !elem_of_bsteps. by setoid_rewrite Hp.
Qed.

(** Any two step orders of the same moves give the same canonical addresses. *)
Lemma canon_perm ms ms' s x :
  timeline_ok old_base ms → by_step ms' → ms ≡ₚ ms' →
  asmtest_gcmove_canon ms s x = asmtest_gcmove_canon ms' s x.
Proof.
  intros (Hs & Hok & Ha) Hs' Hp. unfold asmtest_gcmove_canon.
  rewrite (batches_by_step ms), (batches_by_step ms'), (bsteps_unique ms ms') by done.
  generalize (bstep <$> batches ms') as ss. intros ss. revert x.
  induction ss as [|z ss IH]; intros x; [done|]. simpl.
  assert (filter (λ m, gstep m = z) ms ≡ₚ filter (λ m, gstep m = z) ms') as Hf
    by (by rewrite Hp).
  rewrite <-IH. f_equal. unfold canon_batch.
  assert (bstep (filter (λ m, gstep m = z) ms) = bstep (filter (λ m, gstep m = z) ms')) as ->.
  { destruct (filter _ ms) as [|m l] eqn:E1, (filter _ ms') as [|m' l'] eqn:E2;
      [done|by apply Permutation_nil_cons in Hf|by symmetry in Hf; apply Permutation_nil_cons in Hf|].
    assert (m ∈ m :: l) as H1 by left. assert (m' ∈ m' :: l') as H2 by left.
    rewrite <-E1 in H1. rewrite <-E2 in H2. apply list_elem_of_filter in H1, H2. simpl. lia. }
  case_match; [|done]. apply through_perm; [done|].
  intros y m m' [Em Hm]%list_elem_of_filter [Em' Hm']%list_elem_of_filter.
  apply Ha; [done..|congruence].
Qed.

(** ** The canonicalizer *)
(** The moves of a session in any order: each collection's ranges stay in the
    address space and are disjoint in the space named. *)
Definition collections_ok (src : gcmove → Z) (moves : list gcmove) : Prop :=
  Forall move_ok moves ∧
  ∀ x m m', m ∈ moves → m' ∈ moves → gstep m = gstep m' →
            inside src m x = true → inside src m' x = true → m = m'.

Lemma ordered_by_step ms : ordered ms = true → by_step ms.
Proof.
  intros Ho. apply Sorted_StronglySorted; [intros x y z; lia|].
  induction ms as [|m [|m' ms] IH]; [by repeat constructor..|]. simpl in Ho.
  destruct (Z.ltb_spec (gstep m') (gstep m)); [done|]. constructor; [by apply IH|by constructor].
Qed.

Lemma qsort_by_step qsort `{!QSort gcmove_cmp_step qsort} ms : by_step (qsort ms).
Proof.
  apply Sorted_StronglySorted; [intros x y z; lia|].
  eapply Sorted_weaken, qsort_sorted. intros x y. apply cmp3_le.
Qed.

Lemma msort_step : QSort gcmove_cmp_step (msort gcmove_cmp_step).
Proof. apply msort_QSort. intros x y. unfold cmp_le, gcmove_cmp_step. rewrite !cmp3_le. lia. Qed.

Lemma collections_timeline src ms ms' :
  collections_ok src ms → ms ≡ₚ ms' → by_step ms' → timeline_ok src ms'.
Proof.
  intros [Hok Ha] Hp Hs. split_and!; [done|by rewrite <-Hp|].
  intros x m m'. rewrite <-!Hp. apply Ha.
Qed.

(** The reference order of the moves. *)
Definition in_order (moves : list gcmove) : list gcmove := msort gcmove_cmp_step moves.

Lemma in_order_timeline src ms : collections_ok src ms → timeline_ok src (in_order ms).
Proof.
  intros Hc. eapply collections_timeline; [done| |].
  - symmetry. apply (qsort_perm (QSort := msort_step)).
  - apply (qsort_by_step _ (QSort0 := msort_step)).
Qed.

Lemma canon_any_order ms ms' s x :
  collections_ok old_base ms → ms ≡ₚ ms' → by_step ms' →
  asmtest_gcmove_canon ms' s x = asmtest_gcmove_canon (in_order ms) s x.
Proof.
  intros Hc Hp Hs. apply canon_perm.
  - by eapply collections_timeline.
  - apply (qsort_by_step _ (QSort0 := msort_step)).
  - rewrite <-Hp. symmetry. apply (qsort_perm (QSort := msort_step)).
Qed.

Lemma vrecs_rekey key v : vrecs (rekey_trace key v).2 = rekey key <$> vrecs v.
Proof. unfold rekey_trace, vrecs. simpl. by destruct (recs v). Qed.

Lemma rekeyed_iff key r : rekeyed key r = true ↔ rekey key r ≠ r.
Proof.
  unfold rekeyed, rekey. destruct (kind r) eqn:Ek; [by split..| |by split].
  rewrite negb_true_iff. destruct (Z.eqb_spec (key (rstep r) (addr r)) (addr r)) as [E|E]; [by split|].
  split; [|done]. intros _ H%(f_equal addr). simpl in H. congruence.
Qed.

(** What the record loop does, record by record. *)
Lemma rekey_value key r :
  rekey key r = if decide (kind r = AT_LOC_MEM_ABS)
                then with_addr r (key (rstep r) (addr r)) else r.
Proof.
  unfold rekey. destruct (kind r) eqn:Ek; [done| |done]. rewrite decide_True by done.
  destruct (Z.eqb_spec (key (rstep r) (addr r)) (addr r)) as [->|]; [by destruct r|done].
Qed.

Lemma rekey_id r : rekey (λ _ x, x) r = r.
Proof. rewrite rekey_value. case_decide; [by destruct r|done]. Qed.

Lemma rekey_ext key key' v :
  (∀ s x, key s x = key' s x) → rekey_trace key v = rekey_trace key' v.
Proof.
  intros E. unfold rekey_trace.
  assert (∀ r, rekey key r = rekey key' r) as Er by (intros; by rewrite !rekey_value, E).
  f_equal.
  - do 2 f_equal. apply list_filter_iff. intros r. by rewrite !rekeyed_iff, Er.
  - f_equal. destruct (recs v) as [l|]; [|done]. simpl. f_equal. by apply map_ext.
Qed.

(** The trace a canonicalizer leaves: every absolute memory record has the key
    in place of its address, everything else is as it was, and the count is the
    number of records that differ. *)
Definition canonicalized (key : Z → Z → Z) (v v' : asmtest_valtrace) (n : Z) : Prop :=
  v' = set_recs v (recs v') ∧
  vrecs v' = (λ r, if decide (kind r = AT_LOC_MEM_ABS)
                   then with_addr r (key (rstep r) (addr r)) else r) <$> vrecs v ∧
  n = Z.of_nat (length (filter (λ p, p.1 ≠ p.2) (zip (vrecs v) (vrecs v')))).

Lemma rekey_trace_spec key v :
  canonicalized key v (rekey_trace key v).2 (rekey_trace key v).1.
Proof.
  unfold canonicalized. rewrite vrecs_rekey. split_and!.
  - done.
  - apply list_fmap_ext. intros i r _. apply rekey_value.
  - unfold rekey_trace. simpl. f_equal. induction (vrecs v) as [|r l IH]; [done|].
    rewrite fmap_cons. simpl zip. rewrite !filter_cons. simpl.
    pose proof (rekeyed_iff key r) as Hr. destruct (rekeyed key r).
    + rewrite decide_True by done. rewrite decide_True by (apply not_eq_sym; by apply Hr).
      simpl. by rewrite IH.
    + rewrite decide_False by done. rewrite decide_False; [done|].
      intros Hne. by assert (false = true) by (apply Hr; congruence).
Qed.

Lemma canonicalize_spec qsort `{!QSort gcmove_cmp_step qsort} v moves :
  collections_ok old_base moves →
  asmtest_gcmove_canonicalize always qsort (Some v) moves =
  let '(n, v') := rekey_trace (asmtest_gcmove_canon (in_order moves)) v in (n, Some v').
Proof.
  intros Hc. unfold asmtest_gcmove_canonicalize. destruct moves as [|m ms].
  { rewrite (rekey_ext _ (λ _ x, x)) by done. unfold rekey_trace.
    rewrite list_filter_none; cycle 1.
    { apply Forall_forall. intros r _. rewrite rekeyed_iff. intros H. by apply H, rekey_id. }
    f_equal. f_equal. destruct v as [? ? ? ? ? rs ? ? ? ? ? ?]. unfold set_recs. simpl. f_equal.
    destruct rs as [l|]; [|done]. simpl. f_equal. symmetry. rewrite <-(map_id l) at 2.
    apply map_ext, rekey_id. }
  set (moves := m :: ms) in *. simpl always. cbv iota.
  rewrite (rekey_ext (asmtest_gcmove_canon (if ordered moves then moves else qsort moves))
             (asmtest_gcmove_canon (in_order moves))); [done|].
  intros s x. destruct (ordered moves) eqn:Eo.
  - apply canon_any_order; [done..|]. by apply ordered_by_step.
  - apply canon_any_order; [done| |by apply (qsort_by_step qsort)]. symmetry. apply qsort_perm.
Qed.

(** The canonicalizer rewrites the absolute memory records, and only those,
    to their canonical addresses; the result does not depend on the order the
    moves are given in, nor on how [qsort] orders the ranges of one collection,
    and the value returned counts the records that changed. *)
Theorem gcmove_canonicalize_exact qsort `{!QSort gcmove_cmp_step qsort} v moves
    (Hc : collections_ok old_base moves) :
  ∃ n v', asmtest_gcmove_canonicalize always qsort (Some v) moves = (n, Some v') ∧
          canonicalized (asmtest_gcmove_canon (in_order moves)) v v' n.
Proof.
  pose proof (rekey_trace_spec (asmtest_gcmove_canon (in_order moves)) v) as H.
  rewrite canonicalize_spec by done. destruct (rekey_trace _ v) as [n v']. eauto.
Qed.

(** An object slides from 4096 to 8192 and then to 12288. *)
Definition slide : list gcmove := [mk_move 4096 8192 64 2; mk_move 8192 12288 64 5].
Lemma slide_ok src : collections_ok src slide.
Proof.
  split.
  - repeat constructor; simpl; lia.
  - intros x m m'. unfold slide. rewrite !elem_of_cons, !elem_of_nil.
    intros [->|[->|[]]] [->|[->|[]]]; simpl; done.
Qed.
Lemma slide_lives s x : 4096 <= x < 4096 + 64 ∧ s = 1 ∨ 8192 <= x < 8192 + 64 ∧ s = 3 → lives slide s x.
Proof.
  intros [[Hx ->]|[Hx ->]]; unfold lives.
  - change (later slide 1) with [[mk_move 4096 8192 64 2]; [mk_move 8192 12288 64 5]].
    cbn [survives]. split_and!; [left; exists (mk_move 4096 8192 64 2); split; [left|]|..|done].
    + apply inside_true. simpl. lia.
    + left. exists (mk_move 8192 12288 64 5). split; [left|]. apply inside_true.
      cbn [through]. rewrite (proj2 (inside_true old_base _ x)) by (simpl; lia). simpl.
      rewrite u64_small; lia.
  - change (later slide 3) with [[mk_move 8192 12288 64 5]].
    split; [|done]. left. exists (mk_move 8192 12288 64 5). split; [left|].
    apply inside_true. simpl. lia.
Qed.

Lemma canon_identifies_objects_witness :
  (asmtest_gcmove_canon slide 1 4104 = asmtest_gcmove_canon slide 3 8200 ↔
   8200 = asmtest_gcmove_canon (up_to slide 3) 1 4104) ∧
  asmtest_gcmove_canon slide 1 4104 = 12296.
Proof.
  split; [|vm_compute; reflexivity].
  apply (canon_identifies_objects slide 1 3 4104 8200);
    [split; [apply ordered_by_step; reflexivity|apply slide_ok]|lia|apply slide_lives; lia..].
Defined.

Lemma gcmove_canonicalize_exact_witness :
  let r := mk_rec AT_LOC_MEM_ABS 0 0 0 0 0 4104 8 true false false 0 0 1 in
  let v := mk_vt (Some [0; 3]) 2 2 None false (Some [r]) 1 1 None 0 false AT_LOC_MEM_ABS in
  ∃ n v', asmtest_gcmove_canonicalize always (msort gcmove_cmp_step) (Some v) (rev slide) =
          (n, Some v') ∧
          canonicalized (asmtest_gcmove_canon (in_order (rev slide))) v v' n ∧
          n = 1 ∧ vrecs v' = [with_addr r 12296].
Proof.
  cbv zeta. set (r := mk_rec _ _ _ _ _ _ _ _ _ _ _ _ _ _). set (v := mk_vt _ _ _ _ _ _ _ _ _ _ _ _).
  assert (collections_ok old_base (rev slide)) as Hc.
  { destruct (slide_ok old_base) as [H1 H2]. split.
    - by rewrite <-Permutation_rev.
    - intros x m m'. rewrite !list_elem_of_In, <-!in_rev, <-!list_elem_of_In. apply H2. }
  destruct (gcmove_canonicalize_exact (msort gcmove_cmp_step) (QSort0 := msort_step) v (rev slide) Hc)
    as (n & v' & E & Hv).
  exists n, v'. split_and!; [exact E|exact Hv|..]; vm_compute in E; injection E as <- <-; reflexivity.
Defined.
End GcMove.
