(* ===== verification/ObjId.v ===== *)
(** Object identity from a heap snapshot ([src/dataflow_objid.c]): the inverse
    walk over the collections and the re-keying of a value trace. *)
From S2P Require Import Prelude ValTrace GcMove.
Import ValTrace GcMove.

Module ObjId.

(** [asmtest_gcnode_t] *)
Record gcnode := mk_node { naddr : Z; nsize : Z; type_id : Z }.

(** [ASMTEST_OBJID_NOOBJ] *)
Definition NOOBJ : Z := Z.shiftl 1 63.

Definition locate_batch (step : Z) (b : list gcmove) (cur : Z) : Z :=
  if step <? bstep b then through new_base old_base b cur else cur.

(** The batches are visited from the high end. *)
Definition asmtest_objid_locate (moves : list gcmove) (step snap_addr : Z) : Z :=
  foldr (locate_batch step) snap_addr (batches moves).

Definition objid_cmp_step_new (x y : gcmove) : Z :=
  if negb (gstep x =? gstep y) then cmp3 (gstep x) (gstep y) else cmp3 (new_base x) (new_base y).

Definition objid_sorted_copy (grant : allocator) (qsort : list gcmove → list gcmove)
    (moves : list gcmove) : option (list gcmove) :=
  match moves with
  | [] => None
  | _ => if grant (Z.of_nat (length moves) *64 sizeof_gcmove) then Some (qsort moves) else None
  end.

(** The scan of one batch sorted by [new_base]; [maxend] is [None] until [have]
    is set.  The compaction writes [m[w]] with [w <= k], behind every entry it
    still reads. *)
Fixpoint keep_apart (maxend : option Z) (b : list gcmove) : list gcmove :=
  match b with
  | [] => []
  | m :: b' =>
      let end_ := new_base m +64 len m in
      let bad := (match maxend with Some e => new_base m <? e | None => false end)
                 || (match b' with m' :: _ => new_base m' <? end_ | [] => false end) in
      let maxend' := match maxend with Some e => if e <? end_ then end_ else e | None => end_ end in
      if bad then keep_apart (Some maxend') b' else m :: keep_apart (Some maxend') b'
  end.

Definition objid_disjointify_new (m : list gcmove) : list gcmove :=
  concat (keep_apart None <$> batches m).

(** The index of the owner and the offset in it. *)
Fixpoint owner_from (i : nat) (nodes : list gcnode) (dj : list gcmove) (step raw_addr : Z) :
    option (nat * Z) :=
  match nodes with
  | [] => None
  | n :: nodes =>
      if nsize n =? 0 then owner_from (S i) nodes dj step raw_addr
      else
        let base := asmtest_objid_locate dj step (naddr n) in
        if (base <=? raw_addr) && (raw_addr - base <? nsize n) then Some (i, raw_addr - base)
        else owner_from (S i) nodes dj step raw_addr
  end.
Definition objid_owner_prepared := owner_from 0.

Definition asmtest_objid_owner (grant : allocator) (qsort : list gcmove → list gcmove)
    (nodes : list gcnode) (moves : list gcmove) (step raw_addr : Z) : option (nat * Z) :=
  match nodes with
  | [] => None
  | _ =>
      match moves with
      | [] => objid_owner_prepared nodes [] step raw_addr
      | _ =>
          match objid_sorted_copy grant qsort moves with
          | None => None
          | Some dj => objid_owner_prepared nodes (objid_disjointify_new dj) step raw_addr
          end
      end
  end.

(** Is the address inside the snapshot range of some node? *)
Definition collides (nodes : list gcnode) (c : Z) : bool :=
  existsb (λ n, negb (nsize n =? 0) && ((naddr n <=? c) && (c - naddr n <? nsize n))) nodes.

(** The [after] of the record loop. *)
Definition objid_key (nodes : list gcnode) (dj full : list gcmove) (step before : Z) : Z :=
  match objid_owner_prepared nodes dj step before with
  | Some (owner, offset) => from_option naddr 0 (nodes !! owner) +64 offset
  | None =>
      let c := asmtest_gcmove_canon full step before in
      if collides nodes c then Z.lor c NOOBJ else c
  end.

(** The two sorts: the one of [asmtest_gcmove_canonicalize] is used when the
    pass falls back to it. *)
Definition asmtest_objid_canonicalize (grant : allocator)
    (qsort_step qsort_new : list gcmove → list gcmove)
    (v : option asmtest_valtrace) (nodes : list gcnode) (moves : list gcmove) :
    Z * option asmtest_valtrace :=
  match v with
  | None => (SIZE_MAX, None)
  | Some v' =>
      match nodes with
      | [] => asmtest_gcmove_canonicalize grant qsort_step v moves
      | _ =>
          match moves with
          | [] => let '(n, v1) := rekey_trace (objid_key nodes [] []) v' in (n, Some v1)
          | _ =>
              match objid_sorted_copy grant qsort_new moves with
              | None => asmtest_gcmove_canonicalize grant qsort_step v moves
              | Some full =>
                  let '(n, v1) :=
                    rekey_trace (objid_key nodes (objid_disjointify_new full) full) v' in
                  (n, Some v1)
              end
          end
      end
  end.

(** ** The inverse walk *)
Lemma locate_later moves step a :
  asmtest_objid_locate moves step a =
  foldr (λ b c, through new_base old_base b c) a (later moves step).
Proof.
  unfold asmtest_objid_locate, later. induction (batches moves) as [|b bs IH]; [done|].
  rewrite filter_cons. simpl. rewrite IH. unfold locate_batch.
  destruct (Z.ltb_spec step (bstep b)).
  - by rewrite decide_True.
  - by rewrite decide_False by lia.
Qed.

(** A snapshot address that at every batch, walked backwards, is carried or has
    nothing moved away from under it. *)
Definition traces_back (moves : list gcmove) (s a : Z) : Prop :=
  survives new_base old_base (rev (later moves s)) a.

(** [asmtest_objid_locate] inverts [asmtest_gcmove_canon]: from the
    canonical address of a byte that lives on it recovers where the byte was at
    the step, and an address traced back to a step is canonicalized to itself. *)
Theorem objid_locate_inverts_canon moves s
    (Hnew : timeline_ok new_base moves) (Hold : timeline_ok old_base moves) :
  (∀ x, lives moves s x →
        asmtest_objid_locate moves s (asmtest_gcmove_canon moves s x) = x) ∧
  (∀ a, traces_back moves s a →
        asmtest_gcmove_canon moves s (asmtest_objid_locate moves s a) = a).
Proof.
  split; intros y Hy; rewrite canon_later, locate_later.
  - apply walk_inverse; [by apply timeline_later|done].
  - apply walk_inverse_back; [by apply timeline_later|done].
Qed.

Lemma objid_locate_inverts_canon_witness :
  lives slide 1 4104 ∧ asmtest_objid_locate slide 1 (asmtest_gcmove_canon slide 1 4104) = 4104 ∧
  asmtest_gcmove_canon slide 1 4104 = 12296.
Proof.
  assert (∀ src, timeline_ok src slide) as Hok
    by (intros src; split; [apply ordered_by_step; reflexivity|apply slide_ok]).
  assert (lives slide 1 4104) as Hl by (apply slide_lives; lia).
  split; [exact Hl|]. split; [|vm_compute; reflexivity].
  apply (proj1 (objid_locate_inverts_canon slide 1 (Hok new_base) (Hok old_base))). exact Hl.
Defined.

(** ** Dropping overlaps *)
Definition new_end (m : gcmove) : Z := new_base m + len m.

(** The order [objid_sorted_copy] establishes. *)
Definition by_step_new (ms : list gcmove) : Prop :=
  StronglySorted (λ m m', objid_cmp_step_new m m' <= 0) ms.

Lemma cmp_step_new_le m m' :
  objid_cmp_step_new m m' <= 0 ↔
  gstep m < gstep m' ∨ gstep m = gstep m' ∧ new_base m <= new_base m'.
Proof.
  unfold objid_cmp_step_new. destruct (Z.eqb_spec (gstep m) (gstep m')); simpl;
    rewrite cmp3_le; lia.
Qed.

Lemma by_step_new_step ms : by_step_new ms → by_step ms.
Proof.
  induction 1 as [|m ms _ IH Hall]; constructor; [done|].
  eapply Forall_impl; [exact Hall|]. intros m' H%cmp_step_new_le. simpl. lia.
Qed.

(** A range alone in its place: nothing before it reaches into it, it reaches
    into nothing after it. *)
Definition alone (maxend : option Z) (b : list gcmove) (m : gcmove) : Prop :=
  ∃ pre post, b = pre ++ m :: post ∧ (∀ e, maxend = Some e → e <= new_base m) ∧
    Forall (λ p, new_end p <= new_base m) pre ∧ Forall (λ q, new_end m <= new_base q) post.

Lemma alone_cons maxend y b m :
  alone maxend (y :: b) m ↔
  (m = y ∧ (∀ e, maxend = Some e → e <= new_base y) ∧ Forall (λ q, new_end y <= new_base q) b) ∨
  ((∀ e, maxend = Some e → e <= new_base m) ∧ new_end y <= new_base m ∧ alone None b m).
Proof.
  unfold alone. split.
  - intros (pre & post & E & He & Hpre & Hpost). destruct pre as [|y' pre]; simplify_eq/=.
    + by left.
    + right. apply Forall_cons in Hpre as [? ?]. split_and!; [done..|]. by exists pre, post.
  - intros [(-> & He & Hb)|(He & Hy & pre & post & -> & _ & Hpre & Hpost)].
    + by exists [], b.
    + exists (y :: pre), post. split_and!; [done..| |done]. by constructor.
Qed.

Lemma alone_maxend maxend b m :
  alone maxend b m ↔ (∀ e, maxend = Some e → e <= new_base m) ∧ alone None b m.
Proof. unfold alone. naive_solver. Qed.

Definition fits (ms : list gcmove) : Prop :=
  Forall (λ m, 0 <= new_base m ∧ 0 <= len m ∧ new_end m < 2 ^ 64) ms.

(** The look at the next range decides for all the later ones. *)
Lemma next_clear e (b : list gcmove) :
  StronglySorted (λ m m', new_base m <= new_base m') b →
  match b with m' :: _ => new_base m' <? e | [] => false end = false ↔
  Forall (λ q, e <= new_base q) b.
Proof.
  intros [|m' b' _ Hall]; [split; [constructor|done]|]. rewrite Z.ltb_ge. split.
  - intros Hle. constructor; [done|]. eapply Forall_impl; [exact Hall|]. simpl. lia.
  - by intros [? _]%Forall_cons.
Qed.

(** Within a batch the scan keeps exactly the ranges alone in their place. *)
Lemma keep_apart_spec b maxend m :
  StronglySorted (λ m m', new_base m <= new_base m') b → fits b →
  m ∈ keep_apart maxend b ↔ alone maxend b m.
Proof.
  intros Hs. revert maxend. induction Hs as [|y b Hs IH Hall]; intros me Hok.
  { simpl. split; [set_solver|]. intros (pre & post & E & _). by destruct pre. }
  apply Forall_cons in Hok as [(? & ? & ?) Hok]. rewrite alone_cons. cbn [keep_apart].
  rewrite (u64_small (new_base y + len y)) by (unfold new_end in *; lia).
  fold (new_end y). pose proof (next_clear (new_end y) b Hs) as Hnext.
  set (nx := match b with [] => _ | _ => _ end) in *.
  assert (∀ m', (∀ e, Some match me with Some e => if e <? new_end y then new_end y else e
                           | None => new_end y end = Some e → e <= new_base m') ↔
                (∀ e, me = Some e → e <= new_base m') ∧ new_end y <= new_base m') as Hmax.
  { intros m'. destruct me as [e|]; [destruct (Z.ltb_spec e (new_end y))|];
      (split; [intros He; specialize (He _ eq_refl); split; [intros ? [=]; lia|lia]|]);
      intros [He ?] ? [= <-]; try lia. specialize (He _ eq_refl). lia. }
  destruct (_ || nx) eqn:Ebad; rewrite ?elem_of_cons, IH, alone_maxend, Hmax by done.
  - split; [by intros [[? ?] ?]; right|]. intros [(-> & He & Hb)|(? & ? & ?)]; [|done].
    apply Hnext in Hb. rewrite Hb, orb_false_r in Ebad. destruct me as [e|]; [|done].
    apply Z.ltb_lt in Ebad. specialize (He e eq_refl). lia.
  - apply orb_false_iff in Ebad as [He Hb]. apply Hnext in Hb. split.
    + intros [->|[[? ?] ?]]; [|by right]. left. split_and!; [done| |done].
      intros e ->. by apply Z.ltb_ge in He.
    + intros [(-> & _)|(? & ? & ?)]; [by left|by right].
Qed.

Lemma keep_apart_sublist b maxend : keep_apart maxend b `sublist_of` b.
Proof.
  revert maxend. induction b as [|m b IH]; intros me; simpl; [done|].
  case_match; [by apply sublist_cons|by apply sublist_skip].
Qed.

Lemma batch_new_sorted ms b :
  by_step_new ms → b ∈ batches ms → StronglySorted (λ m m', new_base m <= new_base m') b.
Proof.
  intros Hs Hb. pose proof (batch_filter ms b (by_step_new_step _ Hs) Hb) as E.
  assert (StronglySorted (λ m m', objid_cmp_step_new m m' <= 0) b) as Hb'
    by (rewrite E; by apply StronglySorted_filter).
  assert (∀ m, m ∈ b → gstep m = bstep b) as Hu by (intros m; by eapply batches_uniform).
  clear E Hb. revert Hu. generalize (bstep b) as z. intros z Hu.
  induction Hb' as [|m b _ IH Hall]; constructor; [set_solver|].
  rewrite Forall_forall in *. intros m' Hm'. specialize (Hall m' Hm').
  apply cmp_step_new_le in Hall. rewrite (Hu m), (Hu m') in Hall by set_solver. lia.
Qed.

Lemma disjointify_spec ms m :
  by_step_new ms → fits ms →
  m ∈ objid_disjointify_new ms ↔ alone None (filter (λ x, gstep x = gstep m) ms) m.
Proof.
  intros Hs Hf. pose proof (by_step_new_step _ Hs) as Hs'.
  assert (∀ b, b ∈ batches ms → m ∈ keep_apart None b ↔ alone None b m) as Hk.
  { intros b Hb. apply keep_apart_spec; [by eapply batch_new_sorted|].
    unfold fits in *. rewrite Forall_forall in *. intros x Hx. apply Hf. by eapply elem_of_batches. }
  unfold objid_disjointify_new. rewrite elem_of_concat. split.
  - intros (l & (b & -> & Hb)%list_elem_of_fmap & Hm).
    assert (m ∈ b) as Hmb by (eapply sublist_elem_of; [apply keep_apart_sublist|done]).
    rewrite (batches_uniform _ _ _ Hb Hmb), <-(batch_filter ms b) by done. by apply Hk.
  - intros Hm. assert (m ∈ ms) as Hin.
    { destruct Hm as (pre & post & E & _).
      assert (m ∈ filter (λ x, gstep x = gstep m) ms) as Hi by (rewrite E; set_solver).
      by apply list_elem_of_filter in Hi as [_ ?]. }
    rewrite <-(batches_concat ms) in Hin. apply elem_of_concat in Hin as (b & Hb & Hmb).
    rewrite (batches_uniform _ _ _ Hb Hmb), <-(batch_filter ms b) in Hm by done.
    exists (keep_apart None b). split; [by apply list_elem_of_fmap_2|]. by apply Hk.
Qed.

Lemma disjointify_sublist ms : objid_disjointify_new ms `sublist_of` ms.
Proof.
  unfold objid_disjointify_new. rewrite <-(batches_concat ms) at 2.
  induction (batches ms) as [|b bs IH]; [done|]. simpl. apply sublist_app; [|done].
  apply keep_apart_sublist.
Qed.

(** Two ranges alone in the same batch share no address. *)
Lemma alone_apart l m m' x :
  alone None l m → m' ∈ l → inside new_base m x = true → inside new_base m' x = true → m = m'.
Proof.
  intros (pre & post & -> & _ & Hpre & Hpost) Hm' [? ?]%inside_true [? ?]%inside_true.
  rewrite Forall_forall in Hpre, Hpost. unfold new_end in *.
  apply elem_of_app in Hm' as [Hm'|[->|Hm']%elem_of_cons]; [|done|].
  - apply Hpre in Hm'. lia.
  - apply Hpost in Hm'. lia.
Qed.

(** [objid_disjointify_new] establishes the precondition of
    [asmtest_objid_locate].  On moves sorted by step and new base it keeps, in
    order, exactly the ranges whose new span meets no other range of the same
    collection (both sides of an overlap go), so that within a collection no
    address is in two of the new spans that remain. *)
Theorem disjointify_exact ms
    (Hs : by_step_new ms) (Hok : Forall move_ok ms) (Hf : fits ms) :
  objid_disjointify_new ms `sublist_of` ms ∧
  (∀ m, m ∈ objid_disjointify_new ms ↔ alone None (filter (λ x, gstep x = gstep m) ms) m) ∧
  timeline_ok new_base (objid_disjointify_new ms).
Proof.
  pose proof (disjointify_sublist ms) as Hsub.
  assert (∀ m, m ∈ objid_disjointify_new ms ↔
               alone None (filter (λ x, gstep x = gstep m) ms) m) as Hm
    by (intros; by apply disjointify_spec).
  split_and!; [done..|].
  split_and!.
  - eapply StronglySorted_sublist; [exact Hsub|by apply by_step_new_step].
  - rewrite Forall_forall in *. intros m Hin. apply Hok. by eapply sublist_elem_of.
  - intros x m m' H1 H2 Hst Hi Hi'. eapply alone_apart; [by apply Hm| |done..].
    apply list_elem_of_filter. split; [done|]. by eapply sublist_elem_of.
Qed.

Lemma disjointify_exact_witness :
  let ms := [mk_move 0 4096 64 2; mk_move 256 4128 64 2; mk_move 512 8192 64 2;
             mk_move 0 4096 64 3] in
  by_step_new ms ∧ fits ms ∧
  timeline_ok new_base (objid_disjointify_new ms) ∧
  objid_disjointify_new ms = [mk_move 512 8192 64 2; mk_move 0 4096 64 3].
Proof.
  cbv zeta. set (ms := [_; _; _; _]).
  assert (by_step_new ms) as Hs by (apply (bool_decide_unpack _); vm_compute; exact I).
  assert (fits ms) as Hf by (apply (bool_decide_unpack _); vm_compute; exact I).
  assert (Forall move_ok ms) as Hok by (apply (bool_decide_unpack _); vm_compute; exact I).
  split_and!; [exact Hs|exact Hf| |vm_compute; reflexivity].
  apply (disjointify_exact ms Hs Hok Hf).
Defined.

(** ** Owners and keys *)
Definition nodes_ok (nodes : list gcnode) : Prop :=
  Forall (λ n, 0 <= naddr n ∧ 0 <= nsize n ∧ naddr n + nsize n <= 2 ^ 63) nodes.

(** The byte at [c] of the snapshot belongs to [n]. *)
Definition in_node (n : gcnode) (c : Z) : Prop := naddr n <= c < naddr n + nsize n.

Lemma owner_from_spec i nodes dj s x :
  match owner_from i nodes dj s x with
  | Some (k, o) => ∃ j n, k = (i + j)%nat ∧ nodes !! j = Some n ∧
      0 <= o < nsize n ∧ x = asmtest_objid_locate dj s (naddr n) + o
  | None => ∀ n o, n ∈ nodes → 0 <= o < nsize n → x ≠ asmtest_objid_locate dj s (naddr n) + o
  end.
Proof.
  revert i. induction nodes as [|n nodes IH]; intros i; simpl; [set_solver|].
  specialize (IH (S i)).
  destruct (Z.eqb_spec (nsize n) 0) as [E|E];
    [|destruct (Z.leb_spec (asmtest_objid_locate dj s (naddr n)) x) as [Hl|Hl];
      [destruct (Z.ltb_spec (x - asmtest_objid_locate dj s (naddr n)) (nsize n))|]]; simpl.
  2: { exists O, n. rewrite Nat.add_0_r. split_and!; [done|done|lia..]. }
  all: destruct (owner_from (S i) nodes dj s x) as [[k o]|].
  1,3,5: destruct IH as (j & n' & -> & ? & ? & ?); exists (S j), n'; split_and!; (done || lia).
  all: intros n' o [->|Hn']%elem_of_cons Ho; [lia|by apply IH].
Qed.

Lemma owner_spec nodes dj s x k o :
  objid_owner_prepared nodes dj s x = Some (k, o) →
  ∃ n, nodes !! k = Some n ∧ 0 <= o < nsize n ∧ x = asmtest_objid_locate dj s (naddr n) + o.
Proof.
  intros H. pose proof (owner_from_spec 0 nodes dj s x) as Hs. unfold objid_owner_prepared in H.
  rewrite H in Hs. destruct Hs as (j & n & -> & ? & ? & ?). by exists n.
Qed.

Lemma collides_spec nodes c :
  Forall (λ n, 0 <= nsize n) nodes → collides nodes c = true ↔ ∃ n, n ∈ nodes ∧ in_node n c.
Proof.
  intros Hz. unfold collides, in_node. rewrite existsb_exists. rewrite Forall_forall in Hz.
  setoid_rewrite <-list_elem_of_In. split; intros (n & Hn & H); exists n; (split; [done|]).
  - rewrite !andb_true_iff, Z.leb_le, Z.ltb_lt in H. lia.
  - rewrite !andb_true_iff, negb_true_iff, Z.leb_le, Z.ltb_lt, Z.eqb_neq. lia.
Qed.

Lemma lor_NOOBJ c : 0 <= c → 2 ^ 63 <= Z.lor c NOOBJ.
Proof.
  intros Hc. destruct (Z.le_gt_cases (2 ^ 63) (Z.lor c NOOBJ)) as [|Hlt]; [done|]. exfalso.
  assert (Z.testbit (Z.lor c NOOBJ) 63 = true) as Hb
    by (rewrite Z.lor_spec; apply orb_true_r).
  assert (0 <= Z.lor c NOOBJ) as H0 by (apply Z.lor_nonneg; done).
  rewrite Z.testbit_true in Hb by done. rewrite Z.div_small in Hb by lia. done.
Qed.

(** An owned byte is keyed inside its owner, an unowned one outside every node. *)
Lemma key_owned nodes dj full s x k o :
  nodes_ok nodes → objid_owner_prepared nodes dj s x = Some (k, o) →
  ∃ n, nodes !! k = Some n ∧ 0 <= o < nsize n ∧ objid_key nodes dj full s x = naddr n + o.
Proof.
  intros Hok H. destruct (owner_spec _ _ _ _ _ _ H) as (n & Hn & Ho & _). exists n.
  split_and!; [done|lia..|]. unfold objid_key. rewrite H, Hn. simpl.
  unfold nodes_ok in Hok. rewrite Forall_forall in Hok.
  specialize (Hok n (list_elem_of_lookup_2 _ _ _ Hn)). rewrite u64_small; lia.
Qed.

Lemma key_unowned nodes dj full s x n :
  nodes_ok nodes → 0 <= asmtest_gcmove_canon full s x → objid_owner_prepared nodes dj s x = None →
  n ∈ nodes → ¬ in_node n (objid_key nodes dj full s x).
Proof.
  intros Hok Hc H Hn. unfold objid_key. rewrite H.
  assert (Forall (λ n, 0 <= nsize n) nodes) as Hz.
  { eapply Forall_impl; [exact Hok|]. simpl. lia. }
  pose proof (collides_spec nodes (asmtest_gcmove_canon full s x) Hz) as Hcol.
  destruct (collides _ _).
  - pose proof (lor_NOOBJ _ Hc). unfold nodes_ok in Hok. rewrite Forall_forall in Hok.
    specialize (Hok n Hn). unfold in_node. lia.
  - intros Hin. by assert (false = true) by (apply Hcol; eauto).
Qed.

Lemma through_nonneg src dst ms x : 0 <= x → 0 <= through src dst ms x.
Proof.
  intros. destruct (through_spec src dst ms x) as [(m & _ & _ & ->)|[_ ->]]; [|done].
  apply u64_range.
Qed.
Lemma canon_nonneg moves s x : 0 <= x → 0 <= asmtest_gcmove_canon moves s x.
Proof.
  rewrite canon_later. revert x. induction (later moves s) as [|b bs IH]; intros x Hx; [done|].
  simpl. by apply IH, through_nonneg.
Qed.

(** The nodes of a snapshot do not overlap. *)
Definition nodes_disjoint (nodes : list gcnode) : Prop :=
  ∀ i j n n' c, nodes !! i = Some n → nodes !! j = Some n' → in_node n c → in_node n' c → i = j.

(** Keys are object identity.  Over a snapshot of disjoint nodes below bit
    63, two records the snapshot attributes have the same key exactly when they
    touch the same offset of the same object, whatever the steps and raw
    addresses, and a record it does not attribute never has the key of one it
    does: the false alias that address identity leaves is gone. *)
Theorem objid_key_identity nodes dj full s s' x y
    (Hok : nodes_ok nodes) (Hdis : nodes_disjoint nodes) (Hx : 0 <= x) (Hy : 0 <= y)
    (Hown : is_Some (objid_owner_prepared nodes dj s x)) :
  objid_key nodes dj full s x = objid_key nodes dj full s' y ↔
  objid_owner_prepared nodes dj s x = objid_owner_prepared nodes dj s' y.
Proof.
  destruct Hown as [[k o] Hk]. rewrite Hk.
  destruct (key_owned nodes dj full s x k o Hok Hk) as (n & Hn & Ho & ->).
  destruct (objid_owner_prepared nodes dj s' y) as [[k' o']|] eqn:Hk'.
  - destruct (key_owned nodes dj full s' y k' o' Hok Hk') as (n' & Hn' & Ho' & ->). split.
    + intros E. assert (k = k') as ->
        by (apply (Hdis k k' n n' (naddr n + o)); [done..|unfold in_node; lia|unfold in_node; lia]).
      simplify_eq. do 2 f_equal. lia.
    + intros [= -> ->]. by simplify_eq.
  - split; [|done]. intros E. exfalso.
    eapply (key_unowned nodes dj full s' y n); [done|by apply canon_nonneg|done| |].
    + by eapply list_elem_of_lookup_2.
    + rewrite <-E. unfold in_node. lia.
Qed.

(** Two objects, one slid from 4096 over the former place of dead data. *)
Definition snap : list gcnode := [mk_node 12288 64 7; mk_node 20480 32 9].

Lemma objid_key_identity_witness :
  (objid_key snap slide slide 1 4104 = objid_key snap slide slide 1 12296 ↔
   objid_owner_prepared snap slide 1 4104 = objid_owner_prepared snap slide 1 12296) ∧
  objid_key snap slide slide 1 4104 = 12296 ∧
  objid_key snap slide slide 1 12296 = 12296 + 2 ^ 63 ∧
  asmtest_gcmove_canon slide 1 12296 = 12296.
Proof.
  split; [|split_and!; vm_compute; reflexivity].
  apply objid_key_identity; [| |lia|lia|vm_compute; eexists; reflexivity].
  - apply (bool_decide_unpack _). vm_compute. exact I.
  - intros i j n n' c. unfold in_node.
    destruct i as [|[|i]], j as [|[|j]]; simpl; intros ? ?; simplify_eq/=; lia.
Defined.

(** ** Owned bytes and the address floor *)
(** The [n] bytes at [a], walked back over the batches [bs] (latest first), stay
    one block: each batch moved them together, or neither took them away nor put
    anything on them. *)
Fixpoint rides (bs : list (list gcmove)) (a n : Z) : Prop :=
  match bs with
  | [] => True
  | b :: bs =>
      ((∃ m, m ∈ b ∧ new_base m <= a ∧ a + n <= new_base m + len m) ∨
       (∀ m, m ∈ b → (a + n <= new_base m ∨ new_base m + len m <= a) ∧
                     (a + n <= old_base m ∨ old_base m + len m <= a))) ∧
      rides bs (through new_base old_base b a) n
  end.

Lemma rides_app bs bs' a n :
  rides (bs ++ bs') a n ↔
  rides bs a n ∧ rides bs' (foldl (λ c b, through new_base old_base b c) a bs) n.
Proof. revert a. induction bs as [|b bs IH]; intros a; simpl; [tauto|]. rewrite IH. tauto. Qed.

(** Such a block is forwarded as one. *)
Lemma rides_forward bs a n o :
  Forall (batch_ok old_base) bs → Forall (batch_ok new_base) bs →
  rides (rev bs) a n → 0 <= o < n →
  foldl (λ c b, through old_base new_base b c)
        (foldr (λ b c, through new_base old_base b c) a bs + o) bs = a + o.
Proof.
  intros Hold Hnew Hr Ho. induction Hold as [|b bs [Hm Hao] Hold IH]; [done|].
  apply Forall_cons in Hnew as [[_ Han] Hnew]. simpl in *.
  rewrite rides_app in Hr. destruct Hr as [Hr [Hb _]]. rewrite foldl_rev in Hb.
  set (c := foldr _ a bs) in *. rewrite <-IH by done. f_equal. fold c.
  destruct Hb as [(m & Hin & Hl & Hu)|Hclear].
  - rewrite Forall_forall in Hm. destruct (Hm m Hin) as (?&?&?&?&?).
    rewrite (through_moved new_base old_base b m c) by (done || apply inside_true; lia).
    rewrite u64_small by lia.
    rewrite (through_moved old_base new_base b m) by (done || apply inside_true; lia).
    rewrite u64_small; lia.
  - destruct (through_spec new_base old_base b c) as [(m & Hin & Hi & _)|[_ ->]].
    { apply inside_true in Hi. destruct (Hclear m Hin). lia. }
    destruct (through_spec old_base new_base b (c + o)) as [(m & Hin & Hi & _)|[_ ->]]; [|done].
    apply inside_true in Hi. destruct (Hclear m Hin). lia.
Qed.

(** With disjoint, non-empty new spans nothing is dropped. *)
Lemma keep_apart_id b maxend :
  StronglySorted (λ m m', new_end m <= new_base m') b → fits b →
  (∀ e, maxend = Some e → Forall (λ m, e <= new_base m) b) → keep_apart maxend b = b.
Proof.
  intros Hs. revert maxend. induction Hs as [|m b Hs IH Hall]; intros me Hf He; [done|].
  apply Forall_cons in Hf as [(?&?&?) Hf]. cbn [keep_apart].
  rewrite u64_small by (unfold new_end in *; lia). fold (new_end m).
  assert (match me with Some e => new_base m <? e | None => false end = false) as ->.
  { destruct me as [e|]; [|done]. apply Z.ltb_ge.
    specialize (He e eq_refl). by apply Forall_cons in He as [? _]. }
  assert (match b with m' :: _ => new_base m' <? new_end m | [] => false end = false) as ->.
  { destruct b as [|m' b]; [done|]. apply Z.ltb_ge. by apply Forall_cons in Hall as [? _]. }
  simpl. f_equal. apply IH; [done|]. intros e [= <-].
  destruct me as [e|]; [|done]. case_match; [done|].
  specialize (He e eq_refl). by apply Forall_cons in He as [_ ?].
Qed.

Lemma disjointify_id ms :
  by_step_new ms → fits ms → NoDup ms → Forall (λ m, 0 < len m) ms →
  collections_ok new_base ms → objid_disjointify_new ms = ms.
Proof.
  intros Hs Hf Hnd Hlen [_ Ha]. unfold objid_disjointify_new.
  rewrite <-(batches_concat ms) at 2. f_equal. rewrite <-(list_fmap_id (batches ms)) at 2.
  apply list_fmap_ext. intros i b Hb%list_elem_of_lookup_2. simpl.
  pose proof (batch_new_sorted ms b Hs Hb) as Hsb.
  assert (∀ m, m ∈ b → m ∈ ms) as Hsub by (intros m; by eapply elem_of_batches).
  assert (NoDup b) as Hndb.
  { rewrite (batch_filter ms b (by_step_new_step _ Hs) Hb). by apply NoDup_filter. }
  unfold fits in *. rewrite Forall_forall in Hf, Hlen.
  apply keep_apart_id; [|by apply Forall_forall; auto|done].
  assert (∀ m m', m ∈ b → m' ∈ b → gstep m = gstep m') as Hst.
  { intros m m' Hm Hm'. by rewrite (batches_uniform _ _ _ Hb Hm), (batches_uniform _ _ _ Hb Hm'). }
  clear Hb. induction Hsb as [|m b _ IH Hall]; constructor.
  - apply NoDup_cons in Hndb as [_ ?]. apply IH; [set_solver|done|set_solver].
  - apply NoDup_cons in Hndb as [Hn _]. rewrite Forall_forall in *. intros m' Hm'.
    specialize (Hall m' Hm'). destruct (Z.le_gt_cases (new_end m) (new_base m')) as [|Hgt]; [done|].
    exfalso. apply Hn. assert (m = m') as ->; [|done].
    apply (Ha (new_base m') m m'); [set_solver..|apply Hst; set_solver| |];
      apply inside_true; unfold new_end in *; [lia|].
    specialize (Hlen m' ltac:(set_solver)). lia.
Qed.

Lemma qsort_step_new qsort `{!QSort objid_cmp_step_new qsort} ms : by_step_new (qsort ms).
Proof.
  apply Sorted_StronglySorted; [|apply qsort_sorted].
  intros x y z. rewrite !cmp_step_new_le. lia.
Qed.

(** *** What the keys should be

    The collection at step [z] and the [n] bytes at [a]: they moved together, or
    stayed with nothing taken away from them and nothing put on them. *)
Definition collected (moves : list gcmove) (n z a a' : Z) : Prop :=
  (∃ m, m ∈ moves ∧ gstep m = z ∧ old_base m <= a ∧ a + n <= old_base m + len m ∧ a' = new_base m + (a - old_base m)) ∨
  (a' = a ∧ ∀ m, m ∈ moves → gstep m = z →
     (a + n <= old_base m ∨ old_base m + len m <= a) ∧ (a + n <= new_base m ∨ new_base m + len m <= a)).

(** The [n] bytes that were at [a] in step [s] are at [a'] after all collections. *)
Inductive carried (moves : list gcmove) (n : Z) : Z → Z → Z → Prop :=
| carried_end s a : (∀ m, m ∈ moves → gstep m <= s) → carried moves n s a a
| carried_on s z a a1 a' :
    s < z → (∃ m, m ∈ moves ∧ gstep m = z) → (∀ m, m ∈ moves → s < gstep m → z <= gstep m) →
    collected moves n z a a1 → carried moves n z a1 a' → carried moves n s a a'.

(** The object [n], at [a] in step [s], has the byte [x]. *)
Definition holds_byte (nodes : list gcnode) (moves : list gcmove) (s x : Z) (n : gcnode) (a : Z) : Prop :=
  n ∈ nodes ∧ carried moves (nsize n) s a (naddr n) ∧ a <= x < a + nsize n.

(** The key of a byte: its place in the object that has it, which is where the
    collections took it; of a byte no object has, where they took it, moved out of
    the way if an object is there. *)
Record keyed (nodes : list gcnode) (moves : list gcmove) (s x k : Z) : Prop := {
  kd_held n a : holds_byte nodes moves s x n a →
    k = naddr n + (x - a) ∧ k = asmtest_gcmove_canon (in_order moves) s x;
  kd_alias n : (∀ n' a, ¬ holds_byte nodes moves s x n' a) →
    n ∈ nodes → in_node n (asmtest_gcmove_canon (in_order moves) s x) →
    k = Z.lor (asmtest_gcmove_canon (in_order moves) s x) (2 ^ 63);
  kd_free : (∀ n' a, ¬ holds_byte nodes moves s x n' a) →
    (∀ n, n ∈ nodes → ¬ in_node n (asmtest_gcmove_canon (in_order moves) s x)) →
    k = asmtest_gcmove_canon (in_order moves) s x;
}.

(** In moves sorted by step, the batches after [s] begin with the next one. *)
Lemma next_batch (bs : list (list gcmove)) s z b :
  StronglySorted (λ b b', bstep b < bstep b') bs → b ∈ bs → bstep b = z → s < z →
  (∀ b', b' ∈ bs → s < bstep b' → z <= bstep b') →
  filter (λ b, s < bstep b) bs = b :: filter (λ b, z < bstep b) bs.
Proof.
  intros Hs. induction Hs as [|b0 bs Hs IH Hall]; intros Hb Ez Hlt Hmin; [by apply not_elem_of_nil in Hb|].
  rewrite Forall_forall in Hall. rewrite !filter_cons. apply elem_of_cons in Hb as [<-|Hb].
  - rewrite decide_True, (decide_False (P := z < _)) by lia. f_equal.
    rewrite !list_filter_all; [done|..]; apply Forall_forall; intros b' Hb'; specialize (Hall b' Hb'); lia.
  - specialize (Hall b Hb). rewrite decide_False, (decide_False (P := z < _)); [|lia|].
    + apply IH; [done..|]. intros b' Hb'. apply Hmin. by right.
    + intros Hs0. specialize (Hmin b0 ltac:(left) Hs0). lia.
Qed.

Lemma later_next moves ms s z :
  moves ≡ₚ ms → by_step ms → s < z → (∃ m, m ∈ moves ∧ gstep m = z) →
  (∀ m, m ∈ moves → s < gstep m → z <= gstep m) →
  ∃ b, later ms s = b :: later ms z ∧ ∀ m, m ∈ b ↔ m ∈ moves ∧ gstep m = z.
Proof.
  intros Hp Hs Hlt Hex Hmin. assert (∃ m, m ∈ ms ∧ gstep m = z) as (b & Ez & Hb)%elem_of_bsteps%list_elem_of_fmap
    by (by setoid_rewrite <-Hp).
  exists b. split.
  - apply next_batch; [by apply batches_ascending|done..|]. intros b' Hb' Hs'.
    assert (bstep b' ∈ bstep <$> batches ms) as (m & Hm & E)%elem_of_bsteps by (by apply list_elem_of_fmap_2).
    rewrite <-E in Hs' |- *. apply Hmin; [by rewrite Hp|done].
  - intros m. rewrite (batch_filter ms b Hs Hb), list_elem_of_filter, <-Ez, <-Hp. tauto.
Qed.

(** One batch, walked backwards over a block it carried or left alone. *)
Lemma collected_back moves b n z a a1 :
  0 < n → Forall move_ok moves → apart new_base b → (∀ m, m ∈ b ↔ m ∈ moves ∧ gstep m = z) →
  collected moves n z a a1 →
  through new_base old_base b a1 = a ∧
  ((∃ m, m ∈ b ∧ new_base m <= a1 ∧ a1 + n <= new_base m + len m) ∨
   (∀ m, m ∈ b → (a1 + n <= new_base m ∨ new_base m + len m <= a1) ∧ (a1 + n <= old_base m ∨ old_base m + len m <= a1))).
Proof.
  intros Hn Hok Ha Hb [(m & Hm & Ez & Hl & Hu & ->)|[-> Hc]].
  - assert (m ∈ b) as Hmb by by apply Hb. rewrite Forall_forall in Hok. destruct (Hok m Hm) as (?&?&?&?&?). split.
    + rewrite (through_moved _ _ _ m) by (done || apply inside_true; lia). rewrite u64_small; lia.
    + left. exists m. split; [done|]. lia.
  - split.
    + destruct (through_spec new_base old_base b a) as [(m & Hm & Hi%inside_true & _)|[_ ->]]; [|done].
      apply Hb in Hm as [Hm Ez]. destruct (Hc m Hm Ez). lia.
    + right. intros m [Hm Ez]%Hb. destruct (Hc m Hm Ez). lia.
Qed.

(** The pass's inverse walk finds where a carried block was, and the block rides. *)
Lemma carried_back moves ms n s a a' :
  0 < n → moves ≡ₚ ms → by_step ms → timeline_ok new_base ms → carried moves n s a a' →
  asmtest_objid_locate ms s a' = a ∧ rides (rev (later ms s)) a' n.
Proof.
  intros Hn Hp Hs Ht Hc. rewrite locate_later. destruct Ht as (_ & Hok & Hap).
  assert (Forall move_ok moves) as Hok' by by rewrite Hp.
  induction Hc as [s a Hend|s z a a1 a' Hlt Hex Hmin Hcol _ IH].
  - assert (later ms s = []) as ->; [|done]. unfold later. apply list_filter_none, Forall_forall. intros b Hb Hsb.
    assert (bstep b ∈ bstep <$> batches ms) as (m & Hm & E)%elem_of_bsteps by (by apply list_elem_of_fmap_2).
    rewrite <-Hp in Hm. specialize (Hend m Hm). lia.
  - destruct (later_next moves ms s z) as (b & -> & Hb); [done..|]. destruct IH as [IH1 IH2].
    assert (apart new_base b) as Hab.
    { intros x m m' [Hm Em]%Hb [Hm' Em']%Hb. rewrite Hp in Hm, Hm'. apply Hap; [done..|congruence]. }
    destruct (collected_back moves b n z a a1 Hn Hok' Hab Hb Hcol) as [E1 E2]. simpl. rewrite IH1. split; [done|].
    rewrite rides_app, foldl_rev, IH1. by split_and!.
Qed.

Section refines.
Context (qs qn : list gcmove → list gcmove) (nodes : list gcnode) (moves : list gcmove).
Context `{!QSort gcmove_cmp_step qs} `{!QSort objid_cmp_step_new qn}.
Context (Hold : collections_ok old_base moves) (Hnew : collections_ok new_base moves).
Context (Hnd : NoDup moves) (Hlen : Forall (λ m, 0 < len m) moves) (Hfits : fits moves).
Context (Hnodes : nodes_ok nodes).
Context (Hlived : ∀ s n, n ∈ nodes → 0 < nsize n → ∃ a, carried moves (nsize n) s a (naddr n)).

Lemma qn_perm : moves ≡ₚ qn moves.
Proof. symmetry. apply qsort_perm. Qed.
Lemma qn_step : by_step (qn moves).
Proof. by apply by_step_new_step, (qsort_step_new qn). Qed.
Lemma qn_timeline src : collections_ok src moves → timeline_ok src (qn moves).
Proof. intros Hc. apply (collections_timeline _ moves); [done|apply qn_perm|apply qn_step]. Qed.

Lemma disjointify_qn : objid_disjointify_new (qn moves) = qn moves.
Proof.
  pose proof qn_perm as Hp. apply disjointify_id.
  - by apply (qsort_step_new qn).
  - unfold fits. by rewrite <-Hp.
  - by rewrite <-Hp.
  - by rewrite <-Hp.
  - destruct Hnew as [H1 H2]. split; [by rewrite <-Hp|].
    intros x m m'. rewrite <-!Hp. apply H2.
Qed.

(** A byte an object holds is taken to its place in the object. *)
Lemma holder_canon s x n a :
  holds_byte nodes moves s x n a →
  x = asmtest_objid_locate (qn moves) s (naddr n) + (x - a) ∧
  asmtest_gcmove_canon (in_order moves) s x = naddr n + (x - a).
Proof.
  intros (Hn & Hc & Hx). destruct (carried_back moves (qn moves) (nsize n) s a (naddr n)) as [E Hr];
    [lia|apply qn_perm|apply qn_step|by apply qn_timeline|done|]. split; [lia|].
  rewrite <-(canon_any_order moves (qn moves)) by (done || apply qn_perm || apply qn_step).
  rewrite canon_later. rewrite locate_later in E. rewrite <-(rides_forward (later (qn moves) s) (naddr n) (nsize n) (x - a));
    [|by apply timeline_later, qn_timeline|by apply timeline_later, qn_timeline|done|lia].
  rewrite E. f_equal. lia.
Qed.

Lemma objid_key_keyed s x : keyed nodes moves s x (objid_key nodes (qn moves) (qn moves) s x).
Proof.
  pose proof (owner_from_spec 0 nodes (qn moves) s x) as Hown.
  assert (asmtest_gcmove_canon (qn moves) s x = asmtest_gcmove_canon (in_order moves) s x) as Ec
    by (apply canon_any_order; [done|apply qn_perm|apply qn_step]).
  unfold objid_key, objid_owner_prepared. destruct (owner_from 0 nodes (qn moves) s x) as [[k o]|].
  - destruct Hown as (j & n & -> & Hj & Ho & Ex). simpl. rewrite Hj. simpl. pose proof (list_elem_of_lookup_2 _ _ _ Hj) as Hn.
    destruct (Hlived s n Hn ltac:(lia)) as [a Ha].
    assert (holds_byte nodes moves s x n a) as Hh.
    { destruct (carried_back moves (qn moves) (nsize n) s a (naddr n)) as [E _];
        [lia|apply qn_perm|apply qn_step|by apply qn_timeline|done|]. split_and!; [done..|lia|lia]. }
    destruct (holder_canon s x n a Hh) as [Ex' E].
    assert (naddr n +64 o = asmtest_gcmove_canon (in_order moves) s x) as ->.
    { rewrite E. unfold nodes_ok in Hnodes. rewrite Forall_forall in Hnodes. specialize (Hnodes n Hn). rewrite u64_small; lia. }
    constructor; [|intros ? Hno; by apply Hno in Hh|intros Hno; by apply Hno in Hh].
    intros n' a' Hh'. by destruct (holder_canon s x n' a' Hh') as [_ ->].
  - rewrite Ec. assert (Forall (λ n, 0 <= nsize n) nodes) as Hz by (eapply Forall_impl; [exact Hnodes|]; simpl; lia).
    pose proof (collides_spec nodes (asmtest_gcmove_canon (in_order moves) s x) Hz) as Hcol. constructor.
    + intros n a Hh. exfalso. destruct (holder_canon s x n a Hh) as [Ex _]. destruct Hh as (Hn & _ & Hx).
      by apply (Hown n (x - a) Hn ltac:(lia)).
    + intros n _ Hn Hi. by rewrite (proj2 Hcol) by eauto.
    + intros _ Hno. destruct (collides _ _); [|done]. destruct (proj1 Hcol eq_refl) as (n & Hn & Hi). by apply Hno in Hi.
Qed.
End refines.

(** C38: object identity refines address identity.  Given well-formed collections
    and a snapshot of objects each of which lived through the whole trace and was
    moved, at every collection, as a block or not at all, the pass re-keys the
    absolute memory records and changes nothing else of the trace.  A byte that
    some object had at the record's step gets its offset in that object added to
    the object's final address, the address the collections took it to; a byte
    no object had gets that address too, but with bit 63 set if it is inside a
    live object.  Memory is granted. *)
Theorem objid_canonicalize_refines qs qn
    `{!QSort gcmove_cmp_step qs} `{!QSort objid_cmp_step_new qn} v nodes moves
    (Hold : collections_ok old_base moves) (Hnew : collections_ok new_base moves)
    (Hnd : NoDup moves) (Hlen : Forall (λ m, 0 < len m) moves) (Hfits : fits moves)
    (Hnodes : nodes_ok nodes)
    (Hlived : ∀ s n, n ∈ nodes → 0 < nsize n → ∃ a, carried moves (nsize n) s a (naddr n)) :
  ∃ key n v', asmtest_objid_canonicalize always qs qn (Some v) nodes moves = (n, Some v') ∧
          canonicalized key v v' n ∧ ∀ s x, keyed nodes moves s x (key s x).
Proof.
  pose proof (objid_key_keyed qn nodes moves Hold Hnew Hnodes Hlived) as Hk.
  pose proof (disjointify_qn qn moves Hnew Hnd Hlen Hfits) as Hd.
  set (key := match nodes with [] => asmtest_gcmove_canon (in_order moves)
              | _ => objid_key nodes (qn moves) (qn moves) end).
  exists key. pose proof (rekey_trace_spec key v) as H.
  assert (asmtest_objid_canonicalize always qs qn (Some v) nodes moves =
          let '(n, v') := rekey_trace key v in (n, Some v')) as ->.
  { unfold asmtest_objid_canonicalize, key. destruct nodes as [|nd nds]; [by rewrite (canonicalize_spec qs)|].
    destruct moves as [|m ms].
    - assert (qn [] = []) as E by (apply Permutation_nil; symmetry; apply qsort_perm). by rewrite E.
    - simpl objid_sorted_copy. cbv iota. by rewrite Hd. }
  destruct (rekey_trace key v) as [n v'] eqn:E. exists n, v'. split; [done|]. split; [exact H|].
  unfold key. destruct nodes as [|nd nds]; [|exact Hk].
  intros s x. constructor; [intros n' a (Hn & _); by apply not_elem_of_nil in Hn|intros n' _ Hn; by apply not_elem_of_nil in Hn|done].
Qed.

Lemma msort_step_new : QSort objid_cmp_step_new (msort objid_cmp_step_new).
Proof. apply msort_QSort. intros x y. unfold cmp_le. rewrite !cmp_step_new_le. lia. Qed.

(** The first object slid twice; the second stayed where it was. *)
Lemma snap_lived s n : n ∈ snap → 0 < nsize n → ∃ a, carried slide (nsize n) s a (naddr n).
Proof.
  assert (∀ m, m ∈ slide ↔ m = mk_move 4096 8192 64 2 ∨ m = mk_move 8192 12288 64 5) as Hin
    by (intros m; unfold slide; rewrite !elem_of_cons, elem_of_nil; tauto).
  intros [->|[->|[]%elem_of_nil]%elem_of_cons]%elem_of_cons _; cbn [nsize naddr].
  - assert (carried slide 64 5 12288 12288) as H5 by (apply carried_end; intros m [->| ->]%Hin; simpl; lia).
    assert (collected slide 64 5 8192 12288) as C5 by (left; eexists; split; [by apply Hin; right|]; simpl; lia).
    assert (collected slide 64 2 4096 8192) as C2 by (left; eexists; split; [by apply Hin; left|]; simpl; lia).
    destruct (Z.le_gt_cases 5 s) as [|Hs].
    { exists 12288. apply carried_end. intros m [->| ->]%Hin; simpl; lia. }
    assert (∀ s, 2 <= s < 5 → carried slide 64 s 8192 12288) as H2.
    { intros s' Hs'. apply (carried_on slide 64 s' 5 8192 12288 12288); [lia|eexists; split; [by apply Hin; right|done]| |done..].
      intros m [->| ->]%Hin; simpl; lia. }
    destruct (Z.le_gt_cases 2 s) as [|Hs2]; [exists 8192; apply H2; lia|].
    exists 4096. apply (carried_on slide 64 s 2 4096 8192 12288); [lia|eexists; split; [by apply Hin; left|done]| |done|apply H2; lia].
    intros m [->| ->]%Hin; simpl; lia.
  - exists 20480. assert (∀ z, collected slide 32 z 20480 20480) as C
      by (intros z; right; split; [done|]; intros m [->| ->]%Hin; simpl; lia).
    assert (∀ s, 5 <= s → carried slide 32 s 20480 20480) as H5
      by (intros s' ?; apply carried_end; intros m [->| ->]%Hin; simpl; lia).
    assert (∀ s, 2 <= s → carried slide 32 s 20480 20480) as H2.
    { intros s' Hs'. destruct (Z.le_gt_cases 5 s'); [by apply H5|].
      apply (carried_on slide 32 s' 5 20480 20480 20480); [lia|eexists; split; [by apply Hin; right|done]| |done|by apply H5].
      intros m [->| ->]%Hin; simpl; lia. }
    destruct (Z.le_gt_cases 2 s); [by apply H2|].
    apply (carried_on slide 32 s 2 20480 20480 20480); [lia|eexists; split; [by apply Hin; left|done]| |done|by apply H2].
    intros m [->| ->]%Hin; simpl; lia.
Qed.

Lemma objid_canonicalize_refines_witness :
  let r := mk_rec AT_LOC_MEM_ABS 0 0 0 0 0 4104 8 true false false 0 0 1 in
  let d := mk_rec AT_LOC_MEM_ABS 0 0 0 0 0 12296 8 true false false 0 0 1 in
  let v := mk_vt (Some [0; 3]) 2 2 None false (Some [r; d]) 2 2 None 0 false AT_LOC_MEM_ABS in
  ∃ key n v', asmtest_objid_canonicalize always (msort gcmove_cmp_step) (msort objid_cmp_step_new)
            (Some v) snap slide = (n, Some v') ∧
          canonicalized key v v' n ∧ (∀ s x, keyed snap slide s x (key s x)) ∧
          vrecs v' = [with_addr r 12296; with_addr d (12296 + 2 ^ 63)].
Proof.
  cbv zeta. set (r := mk_rec _ _ _ _ _ _ 4104 _ _ _ _ _ _ _).
  set (d := mk_rec _ _ _ _ _ _ 12296 _ _ _ _ _ _ _). set (v := mk_vt _ _ _ _ _ _ _ _ _ _ _ _).
  destruct (objid_canonicalize_refines (msort gcmove_cmp_step) (msort objid_cmp_step_new)
              (QSort0 := msort_step) (QSort1 := msort_step_new) v snap slide
              (slide_ok _) (slide_ok _)) as (key & n & v' & E & Hv & Hk).
  - apply (bool_decide_unpack _). vm_compute. exact I.
  - apply (bool_decide_unpack _). vm_compute. exact I.
  - apply (bool_decide_unpack _). vm_compute. exact I.
  - apply (bool_decide_unpack _). vm_compute. exact I.
  - exact snap_lived.
  - exists key, n, v'. split_and!; [exact E|exact Hv|exact Hk|]. vm_compute in E. injection E as <- <-. reflexivity.
Defined.
End ObjId.
