(* ===== verification/Method.v ===== *)
(** The PC to (method, version) resolver of [src/dataflow_method.c]. *)
From S2P Require Import Prelude ValTrace.
Import ValTrace.

Module Method.

(** [asmtest_method_t] and [asmtest_method_attr_t]; [None] is a null name. *)
Record method := mk_method { maddr : Z; msize : Z; mname : option string; mversion : Z }.
Record attr := mk_attr { attr_method : Z; attr_record : Z; attr_version : Z }.

Definition method_owns (m : method) (pc : Z) : bool :=
  if msize m =? 0 then pc =? maddr m
  else
    let end_ := maddr m +64 msize m in
    if end_ <? maddr m then maddr m <=? pc
    else (maddr m <=? pc) && (pc <? end_).

(** One iteration of the scan: the best index so far with its version. *)
Definition better (pc : Z) (best : option (nat * Z)) (im : nat * method) : option (nat * Z) :=
  let '(i, m) := im in
  if negb (method_owns m pc) then best
  else match best with
       | Some (_, best_ver) => if best_ver <=? mversion m then Some (i, mversion m) else best
       | None => Some (i, mversion m)
       end.

(** The index of the owning record, [None] for -1 (maps of fewer than [2^31]
    records); a null map is empty. *)
Definition asmtest_method_resolve_pc (methods : list method) (pc : Z) : option nat :=
  fst <$> foldl (better pc) None (imap pair methods).

Definition names_equal (a b : option string) : bool :=
  match a, b with
  | Some a, Some b => bool_decide (a = b)
  | _, _ => false
  end.

(** The identity ids: -1 is unassigned; [number] is the body of the outer loop. *)
Definition share (methods : list method) (i : nat) (this_id : Z) (j : nat) (x : Z) : Z :=
  if (i <? j)%nat && (x <? 0)
     && names_equal (from_option mname None (methods !! i)) (from_option mname None (methods !! j))
  then this_id else x.
Definition number (methods : list method) (st : list Z * Z) (i : nat) : list Z * Z :=
  let '(id, next_id) := st in
  if 0 <=? default 0 (id !! i) then (id, next_id)
  else (imap (share methods i next_id) (<[i := next_id]> id), next_id + 1).
Definition number_methods (methods : list method) : list Z :=
  (foldl (number methods) (replicate (length methods) (-1), 0) (seq 0 (length methods))).1.

Definition attribute_step (methods : list method) (id : option (list Z)) (pc : Z) : attr :=
  match asmtest_method_resolve_pc methods pc with
  | Some rec =>
      mk_attr (match id with Some id => default 0 (id !! rec) | None => -1 end)
        (Z.of_nat rec) (from_option mversion 0 (methods !! rec))
  | None => mk_attr (-1) (-1) 0
  end.

(** The result and the entries written; [out] is the capacity of the output
    array, [None] when it is null. *)
Definition asmtest_method_attribute (grant : allocator) (methods : list method)
    (v : option asmtest_valtrace) (out : option nat) : Z * list attr :=
  match v, out with
  | Some v, Some out_cap =>
      let n := Z.of_nat (length methods) in
      let id := if (0 <? n) && grant (n *64 4) then Some (number_methods methods) else None in
      let nsteps := if (out_cap <? steps_len v)%nat then out_cap else steps_len v in
      (Z.of_nat nsteps, attribute_step methods id <$> take nsteps (offs v))
  | _, _ => (-1, [])
  end.

(** ** Ownership *)
(** The half-open span of a sized record, the single address of a sizeless one,
    in unbounded arithmetic. *)
Definition owns (m : method) (pc : Z) : Prop :=
  if msize m =? 0 then pc = maddr m else maddr m <= pc < maddr m + msize m.

Definition method_ok (m : method) : Prop := is_u64 (maddr m) ∧ is_u64 (msize m).

Lemma method_owns_spec m pc : method_ok m → is_u64 pc → method_owns m pc = true ↔ owns m pc.
Proof.
  unfold method_ok, is_u64, method_owns, owns. intros [? ?] ?.
  destruct (Z.eqb_spec (msize m) 0); [by rewrite Z.eqb_eq|].
  destruct (Z_lt_ge_dec (maddr m + msize m) (2 ^ 64)) as [Hw|Hw].
  - rewrite u64_small by lia. destruct (Z.ltb_spec (maddr m + msize m) (maddr m)); [lia|].
    rewrite andb_true_iff, Z.leb_le, Z.ltb_lt. lia.
  - assert (u64 (maddr m + msize m) = maddr m + msize m - 2 ^ 64) as ->.
    { unfold u64. rewrite <-(Z_mod_plus_full _ (-1)), Z.mod_small; lia. }
    destruct (Z.ltb_spec (maddr m + msize m - 2 ^ 64) (maddr m)); [|lia].
    rewrite Z.leb_le. lia.
Qed.

(** The winner of a scan: it owns the address, and any other owner is older, or
    of the same version and earlier in the map. *)
Definition newest (methods : list method) (pc : Z) (i : nat) : Prop :=
  ∃ m, methods !! i = Some m ∧ owns m pc ∧
  ∀ j m', methods !! j = Some m' → owns m' pc →
          mversion m' < mversion m ∨ mversion m' = mversion m ∧ (j <= i)%nat.

Lemma resolve_spec methods pc :
  Forall method_ok methods → is_u64 pc →
  match asmtest_method_resolve_pc methods pc with
  | Some i => newest methods pc i
  | None => ∀ m, m ∈ methods → ¬ owns m pc
  end.
Proof.
  intros Hok Hpc. unfold asmtest_method_resolve_pc.
  assert (match foldl (better pc) None (imap pair methods) with
          | Some (i, ver) => newest methods pc i ∧ mversion <$> methods !! i = Some ver
          | None => ∀ m, m ∈ methods → ¬ owns m pc end) as H; cycle 1.
  { destruct (foldl _ _ _) as [[i ver]|]; [apply H|done]. }
  induction methods as [|m ms IH] using rev_ind; [simpl; set_solver|].
  apply Forall_app in Hok as [Hok [Hm _]%Forall_cons]. specialize (IH Hok).
  rewrite imap_app, foldl_app. simpl. rewrite Nat.add_0_r.
  pose proof (method_owns_spec m pc Hm Hpc) as Ho.
  assert (∀ j m', (ms ++ [m]) !! j = Some m' →
            ms !! j = Some m' ∧ (j < length ms)%nat ∨ j = length ms ∧ m' = m) as Hsnoc.
  { intros j m' [Hj|[Hj1 Hj2]]%lookup_app_Some.
    - left. split; [done|]. by eapply lookup_lt_Some.
    - apply list_lookup_singleton_Some in Hj2. right. split; [lia|naive_solver]. }
  destruct (foldl _ _ _) as [[i ver]|]; unfold better; destruct (method_owns m pc); simpl.
  - destruct IH as [(mi & Hi & Hoi & Hmax) Hver]. rewrite Hi in Hver. simpl in Hver. simplify_eq.
    assert (i < length ms)%nat by (by eapply lookup_lt_Some).
    destruct (Z.leb_spec (mversion mi) (mversion m)) as [Hle|Hlt].
    + split; [|by rewrite list_lookup_middle]. exists m. rewrite list_lookup_middle by done.
      split_and!; [done|by apply Ho|]. intros j m' [[Hj ?]|[-> ->]]%Hsnoc Hom; [|right; lia].
      destruct (Hmax j m' Hj Hom); lia.
    + split; [|by rewrite lookup_app_l, Hi]. exists mi. rewrite lookup_app_l by done.
      split_and!; [done..|]. intros j m' [[Hj ?]|[-> ->]]%Hsnoc Hom; [by apply Hmax|by left].
  - destruct IH as [(mi & Hi & Hoi & Hmax) Hver].
    assert (i < length ms)%nat by (by eapply lookup_lt_Some).
    split; [|by rewrite lookup_app_l]. exists mi. rewrite lookup_app_l by done.
    split_and!; [done..|]. intros j m' [[Hj ?]|[-> ->]]%Hsnoc Hom; [by apply Hmax|].
    by apply Ho in Hom.
  - split; [|by rewrite list_lookup_middle]. exists m. rewrite list_lookup_middle by done.
    split_and!; [done|by apply Ho|]. intros j m' [[Hj ?]|[-> ->]]%Hsnoc Hom; [|right; lia].
    exfalso. by eapply IH; [eapply list_elem_of_lookup_2|].
  - intros m' [Hm'| ->%list_elem_of_singleton]%elem_of_app; [by apply IH|].
    intros Hom%Ho. done.
Qed.

(** ** Identity ids *)
Section ids.
Context (methods : list method).
Abbreviation n := (length methods).

(** The records at [i] and [j] are one method. *)
Definition same (i j : nat) : bool :=
  names_equal (from_option mname None (methods !! i)) (from_option mname None (methods !! j)).

Lemma same_sym i j : same i j = true → same j i = true.
Proof.
  unfold same, names_equal. repeat case_match; try done.
  rewrite !bool_decide_eq_true. congruence.
Qed.
Lemma same_trans i j k : same i j = true → same j k = true → same i k = true.
Proof.
  unfold same, names_equal. repeat case_match; try done.
  rewrite !bool_decide_eq_true. congruence.
Qed.

(** After the first [k] records: who is still unassigned, and what the ids
    assigned so far say. *)
Record numbered (k : nat) (id : list Z) (next : Z) : Prop := {
  nb_len : length id = n;
  nb_next : 0 <= next;
  nb_range : ∀ j x, id !! j = Some x → x = -1 ∨ 0 <= x < next;
  nb_open : ∀ j, (j < n)%nat → id !! j = Some (-1) ↔
                 (k <= j)%nat ∧ ∀ i, (i < k)%nat → same i j = false;
  nb_ids : ∀ i j x y, id !! i = Some x → id !! j = Some y → 0 <= x → 0 <= y →
                      x = y ↔ i = j ∨ same i j = true;
}.

Lemma numbered_init : numbered 0 (replicate n (-1)) 0.
Proof.
  split; [by rewrite length_replicate|done|..].
  - intros j x [-> _]%lookup_replicate. by left.
  - intros j Hj. split; [|by rewrite lookup_replicate]. intros _. split; [lia|]. lia.
  - intros i j x y [-> _]%lookup_replicate. lia.
Qed.

Lemma numbered_skip k id next x :
  numbered k id next → id !! k = Some x → 0 <= x → numbered (S k) id next.
Proof.
  intros [H1 H2 H3 H4 H5] Hk Hx. split; [done..| |done]. intros j Hj. rewrite H4 by done.
  assert (k < n)%nat as Hkn by (rewrite <-H1; by eapply lookup_lt_Some). split.
  - intros [Hle Hn]. assert (k ≠ j).
    { intros ->. assert (id !! j = Some (-1)) by (by apply H4). simplify_eq. lia. }
    split; [lia|]. intros i Hi. destruct (decide (i = k)) as [->|]; [|apply Hn; lia].
    destruct (same k j) eqn:Es; [|done]. exfalso.
    assert (id !! k = Some (-1)); [|simplify_eq; lia]. apply H4; [done|]. split; [done|].
    intros i Hi'. destruct (same i k) eqn:E; [|done].
    by rewrite <-(Hn i Hi'), (same_trans i k j).
  - intros [Hle Hn]. split; [lia|]. intros i Hi. apply Hn. lia.
Qed.

Lemma lookup_number k next id j :
  (k < length id)%nat →
  imap (share methods k next) (<[k := next]> id) !! j =
  if decide (j = k) then Some next
  else (λ x, if (k <? j)%nat && (x <? 0) && same k j then next else x) <$> id !! j.
Proof.
  intros Hk. rewrite list_lookup_imap. case_decide as Hj.
  - subst. rewrite list_lookup_insert_eq by done. simpl. unfold share.
    by rewrite Nat.ltb_irrefl.
  - rewrite list_lookup_insert_ne by done. done.
Qed.

(** What a round leaves at an index: the new number, or what was there. *)
Lemma number_cases k id next j x :
  numbered k id next → id !! k = Some (-1) →
  imap (share methods k next) (<[k := next]> id) !! j = Some x →
  (x = next ∧ (j = k ∨ same k j = true ∧ id !! j = Some (-1))) ∨
  (j ≠ k ∧ id !! j = Some x ∧ (x = -1 → (k < j)%nat → same k j = false)).
Proof.
  intros [_ _ H3 _ _] Hk. rewrite lookup_number by (by eapply lookup_lt_Some).
  case_decide; [intros [= <-]; left; auto|].
  destruct (id !! j) as [y|] eqn:Ej; [|done]. simpl. intros [= <-].
  destruct ((k <? j)%nat && (y <? 0) && same k j) eqn:E.
  - rewrite !andb_true_iff, Nat.ltb_lt, Z.ltb_lt in E. left. split; [done|]. right.
    destruct (H3 j y Ej) as [->|]; [naive_solver|lia].
  - right. split_and!; [done..|]. intros -> Hkj.
    apply Nat.ltb_lt in Hkj. rewrite Hkj in E. done.
Qed.

(** A record numbered before does not share the name of one that is not. *)
Lemma number_old k id next j y :
  numbered k id next → id !! k = Some (-1) → id !! j = Some y → 0 <= y → j ≠ k ∧ same k j = false.
Proof.
  intros [H1 _ _ H4 _] Hk Hj Hy. pose proof (lookup_lt_Some _ _ _ Hk) as Hlt.
  assert (k < n)%nat as Hkn by lia. pose proof (proj1 (H4 k Hkn) Hk) as [_ Hkno].
  split; [intros ->; simplify_eq; lia|].
  destruct (same k j) eqn:E; [exfalso|done].
  assert (j < n)%nat as Hjn by (rewrite <-H1; by eapply lookup_lt_Some).
  destruct (decide (id !! j = Some (-1))) as [|Hne]; [simplify_eq; lia|].
  rewrite H4 in Hne by done. destruct (decide (k <= j)%nat) as [Hle|Hgt].
  - apply Hne. split; [done|]. intros i Hi. destruct (same i j) eqn:Es; [|done].
    assert (same i k = true) as Hik by (eapply same_trans; [done|by apply same_sym]).
    rewrite Hkno in Hik; done.
  - apply same_sym in E. rewrite (Hkno j) in E; [done|lia].
Qed.

(** A record opened at step [k] and everything it shares its name with. *)
Lemma numbered_new k id next :
  numbered k id next → id !! k = Some (-1) →
  numbered (S k) (imap (share methods k next) (<[k := next]> id)) (next + 1).
Proof.
  intros Hnum Hk. pose proof (λ j x, number_cases k id next j x Hnum Hk) as Hcase.
  pose proof (λ j y, number_old k id next j y Hnum Hk) as Hold.
  destruct Hnum as [H1 H2 H3 H4 H5]. pose proof (lookup_lt_Some _ _ _ Hk) as Hlt.
  split.
  - by rewrite length_imap, length_insert.
  - lia.
  - intros j x [[-> _]|(_ & Hj & _)]%Hcase; [lia|]. destruct (H3 j x Hj); lia.
  - intros j Hj. split.
    + intros [[? _]|(Hne & Hj' & Hs)]%Hcase; [lia|]. apply H4 in Hj' as [Hle Hno]; [|done].
      split; [lia|]. intros i Hi. destruct (decide (i = k)) as [->|]; [apply Hs; [done|lia]|].
      apply Hno. lia.
    + intros [Hle Hno]. rewrite lookup_number, decide_False by lia.
      assert (id !! j = Some (-1)) as ->.
      { apply H4; [done|]. split; [lia|]. intros i Hi. apply Hno. lia. }
      simpl. rewrite (Hno k), andb_false_r by lia. done.
  - intros i j x y Hi Hj Hx Hy. apply Hcase in Hi, Hj.
    destruct Hi as [[-> Hi]|(Hi1 & Hi2 & _)], Hj as [[-> Hj]|(Hj1 & Hj2 & _)].
    + split; [intros _|done]. destruct Hi as [->|[Hi _]], Hj as [->|[Hj _]]; [by left|by right|..];
        right; [by apply same_sym|]. eapply same_trans; [by apply same_sym|done].
    + destruct (H3 j y Hj2); [lia|]. destruct (Hold j y Hj2 Hy) as [Hjk Hkj].
      split; [lia|]. intros Hs. exfalso. destruct Hs as [->|Hs].
      { destruct Hi as [->|[Hi ?]]; [done|congruence]. }
      destruct Hi as [->|[Hi _]]; [congruence|].
      by rewrite (same_trans k i j Hi Hs) in Hkj.
    + destruct (H3 i x Hi2); [lia|]. destruct (Hold i x Hi2 Hx) as [Hik Hki].
      split; [lia|]. intros Hs. exfalso. destruct Hs as [->|Hs%same_sym].
      { destruct Hj as [->|[Hj ?]]; [done|congruence]. }
      destruct Hj as [->|[Hj _]]; [congruence|].
      by rewrite (same_trans k j i Hj Hs) in Hki.
    + by apply H5.
Qed.

Lemma numbered_run k :
  (k <= n)%nat →
  let '(id, next) := foldl (number methods) (replicate n (-1), 0) (seq 0 k) in numbered k id next.
Proof.
  induction k as [|k IH]; intros Hk; [apply numbered_init|]. specialize (IH ltac:(lia)).
  rewrite seq_S, foldl_app. destruct (foldl _ _ _) as [id next]. simpl.
  destruct (lookup_lt_is_Some_2 id k) as [x Hx]; [rewrite (nb_len _ _ _ IH); lia|].
  rewrite Hx. simpl. destruct (Z.leb_spec 0 x) as [H0|H0].
  - by eapply numbered_skip.
  - destruct (nb_range _ _ _ IH k x Hx) as [->|]; [|lia]. by apply numbered_new.
Qed.

(** Two records have the same id exactly when they are the same record or have
    the same name. *)
Lemma number_methods_spec :
  length (number_methods methods) = n ∧
  Forall (λ x, 0 <= x) (number_methods methods) ∧
  ∀ i j x y, number_methods methods !! i = Some x → number_methods methods !! j = Some y →
             x = y ↔ i = j ∨ same i j = true.
Proof.
  pose proof (numbered_run n ltac:(done)) as H. unfold number_methods.
  destruct (foldl _ _ _) as [id next]. destruct H as [H1 H2 H3 H4 H5]. simpl.
  assert (∀ j x, id !! j = Some x → 0 <= x) as Hpos.
  { intros j x Hj. destruct (H3 j x Hj) as [->|]; [|lia]. exfalso.
    assert (j < n)%nat by (rewrite <-H1; by eapply lookup_lt_Some).
    apply H4 in Hj as [? _]; lia. }
  split_and!; [done|by apply Forall_lookup|]. intros i j x y Hi Hj. apply H5; eauto.
Qed.
End ids.

(** What an entry says of the address it was made for. *)
Definition attributes (methods : list method) (pc : Z) (a : attr) : Prop :=
  (a = mk_attr (-1) (-1) 0 ∧ ∀ m, m ∈ methods → ¬ owns m pc) ∨
  (∃ i m, attr_record a = Z.of_nat i ∧ methods !! i = Some m ∧ newest methods pc i ∧
          attr_version a = mversion m ∧ 0 <= attr_method a).

Lemma attribute_step_spec methods pc :
  Forall method_ok methods → is_u64 pc →
  attributes methods pc (attribute_step methods (Some (number_methods methods)) pc) ∧
  ∀ i, asmtest_method_resolve_pc methods pc = Some i →
       attr_record (attribute_step methods (Some (number_methods methods)) pc) = Z.of_nat i ∧
       number_methods methods !! i =
       Some (attr_method (attribute_step methods (Some (number_methods methods)) pc)).
Proof.
  intros Hok Hpc. pose proof (resolve_spec methods pc Hok Hpc) as Hr.
  destruct (number_methods_spec methods) as (Hlen & Hpos & _).
  unfold attribute_step. destruct (asmtest_method_resolve_pc methods pc) as [i|].
  - destruct Hr as (m & Hm & Ho & Hmax).
    destruct (lookup_lt_is_Some_2 (number_methods methods) i) as [x Hx].
    { rewrite Hlen. by eapply lookup_lt_Some. }
    rewrite Hx. simpl. split; [|intros j [= <-]; done].
    right. exists i, m. rewrite Hm. simpl. split_and!; [done..| |done|].
    + by exists m.
    + rewrite Forall_lookup in Hpos. by eapply Hpos.
  - split; [by left|done].
Qed.

(** Attribution is exact.  Each step, up to the capacity of the output, is
    given the record that owns its address with the greatest version (the later
    one on a tie) and that version, or nothing when no method owns it; and two
    attributed steps get the same method id exactly when their records are the
    same or carry the same name, so a method keeps its identity across a
    recompilation. *)
Theorem method_attribute_exact methods v out_cap
    (Hok : Forall method_ok methods) (Hpc : Forall is_u64 (offs v)) :
  let '(n, out) := asmtest_method_attribute always methods (Some v) (Some out_cap) in
  n = Z.of_nat (length out) ∧ length out = (steps_len v `min` out_cap)%nat ∧
  (∀ s pc a, offs v !! s = Some pc → out !! s = Some a → attributes methods pc a) ∧
  (∀ s s' a a' i j, out !! s = Some a → out !! s' = Some a' →
     attr_record a = Z.of_nat i → attr_record a' = Z.of_nat j →
     attr_method a = attr_method a' ↔ i = j ∨ same methods i j = true).
Proof.
  unfold asmtest_method_attribute.
  set (k := if (out_cap <? steps_len v)%nat then out_cap else steps_len v).
  assert (k = steps_len v `min` out_cap)%nat as Ek.
  { unfold k. destruct (Nat.ltb_spec out_cap (steps_len v)); lia. }
  assert (∀ pc, is_u64 pc → attribute_step methods (if (0 <? Z.of_nat (length methods)) && always (Z.of_nat (length methods) *64 4)
    then Some (number_methods methods) else None) pc =
    attribute_step methods (Some (number_methods methods)) pc) as Ea.
  { intros pc Hp. destruct methods as [|m ms]; [done|].
    by rewrite (proj2 (Z.ltb_lt 0 (Z.of_nat (length (m :: ms))))) by (simpl; lia). }
  rewrite Forall_lookup in Hpc.
  assert (∀ s a, (attribute_step methods (if (0 <? Z.of_nat (length methods)) && always
    (Z.of_nat (length methods) *64 4) then Some (number_methods methods) else None) <$>
    take k (offs v)) !! s = Some a → ∃ pc, offs v !! s = Some pc ∧
      a = attribute_step methods (Some (number_methods methods)) pc) as Hout.
  { intros s a. rewrite list_lookup_fmap, fmap_Some. intros (pc & Hs & ->).
    apply lookup_take_Some in Hs as [Hs _]. exists pc. split; [done|]. by eapply Ea, Hpc. }
  split_and!.
  - rewrite length_fmap, length_take. unfold steps_len in *. lia.
  - rewrite length_fmap, length_take. unfold steps_len in *. lia.
  - intros s pc a Hs (pc' & Hs' & ->)%Hout. simplify_eq. by eapply attribute_step_spec, Hpc.
  - intros s s' a a' i j (pc & Hs & ->)%Hout (pc' & Hs' & ->)%Hout Hi Hj.
    assert (∀ q t l, offs v !! q = Some t →
      attr_record (attribute_step methods (Some (number_methods methods)) t) = Z.of_nat l →
      number_methods methods !! l =
      Some (attr_method (attribute_step methods (Some (number_methods methods)) t))) as Hid.
    { intros q t l Hq Hl. destruct (attribute_step_spec methods t Hok ltac:(eauto)) as [_ H].
      unfold attribute_step in Hl. destruct (asmtest_method_resolve_pc methods t) as [l'|].
      - simpl in Hl. assert (l' = l) as -> by lia. by apply H.
      - simpl in Hl. lia. }
    destruct (number_methods_spec methods) as (_ & _ & Hids). eauto.
Qed.

Lemma method_attribute_exact_witness :
  let ms := [mk_method 4096 64 (Some "f") 0; mk_method 8192 32 None 0; mk_method 4096 64 (Some "f") 1]%string in
  let v := mk_vt (Some [4100; 8192; 4096; 1]) 4 4 None false None 0 0 None 0 false AT_LOC_MEM_ABS in
  (let '(n, out) := asmtest_method_attribute always ms (Some v) (Some 8%nat) in
   n = Z.of_nat (length out) ∧
   (∀ s pc a, offs v !! s = Some pc → out !! s = Some a → attributes ms pc a)) ∧
  asmtest_method_attribute always ms (Some v) (Some 8%nat) =
    (4, [mk_attr 0 2 1; mk_attr 1 1 0; mk_attr 0 2 1; mk_attr (-1) (-1) 0]).
Proof.
  cbv zeta. set (ms := [_; _; _]). set (v := mk_vt _ _ _ _ _ _ _ _ _ _ _ _).
  split; [|vm_compute; reflexivity].
  pose proof (method_attribute_exact ms v 8) as H.
  destruct (asmtest_method_attribute always ms (Some v) (Some 8%nat)) as [n out].
  destruct H as (H1 & _ & H2 & _); [repeat constructor; vm_compute; congruence..|].
  split; [exact H1|exact H2].
Defined.
End Method.
