(* ===== verification/Helpers.v ===== *)
(** Runtime-helper summaries ([src/dataflow_helpers.c]): recognized helper runs
    of a value trace are replaced by their declared reads and writes before the
    def-use graph is built. *)
From S2P Require Import Prelude Grow OpenHash LwMap RegSlice ValTrace DefUse Method.
From Stdlib Require Import Ascii String.
Import ValTrace DefUse Method.
Open Scope string_scope.
Open Scope Z_scope.
Open Scope list_scope.

Module Helpers.

(** [at_helper_loc_kind_t], [asmtest_helper_loc_t] and [asmtest_helper_t]. *)
Inductive at_helper_loc_kind := AT_HELPER_REG | AT_HELPER_MEM_AT_REG.
Record helper_loc := mk_loc { hkind : at_helper_loc_kind; hreg : Z; hsize : Z }.
Record helper := mk_helper { hname : option string; ins : list helper_loc; outs : list helper_loc }.

(** ** Matching *)
(** [strncmp(name, pat, n) == 0] *)
Definition same_prefix (n : nat) (name pat : string) : bool :=
  String.eqb (substring 0 n name) (substring 0 n pat).

Definition pat_matches (pat name : string) : bool :=
  let plen := String.length pat in
  if (0 <? plen)%nat && bool_decide (String.get (plen - 1) pat = Some "*"%char)
  then same_prefix (plen - 1) name pat
  else String.eqb name pat.

Fixpoint match_from (i : nat) (helpers : list helper) (name : string) : option nat :=
  match helpers with
  | [] => None
  | h :: hs =>
      match hname h with
      | None => match_from (S i) hs name
      | Some pat => if pat_matches pat name then Some i else match_from (S i) hs name
      end
  end.

Definition asmtest_helper_match (helpers : list helper) (name : option string) : option nat :=
  match name with
  | None => None
  | Some name => match_from 0 helpers name
  end.

Definition HLP_X86_RAX : Z := 35.
Definition HLP_X86_RDI : Z := 39.
Definition HLP_X86_RSI : Z := 43.

Definition ALLOC_IN := [mk_loc AT_HELPER_REG HLP_X86_RDI 0].
Definition ALLOC_OUT := [mk_loc AT_HELPER_REG HLP_X86_RAX 0].
Definition WB_IN := [mk_loc AT_HELPER_REG HLP_X86_RSI 0].
Definition WB_OUT := [mk_loc AT_HELPER_MEM_AT_REG HLP_X86_RDI 8].
Definition GDICT_IN := [mk_loc AT_HELPER_REG HLP_X86_RDI 0].
Definition GDICT_OUT := [mk_loc AT_HELPER_REG HLP_X86_RAX 0].

Definition DEFAULT_HELPERS : list helper :=
  [mk_helper (Some "CORINFO_HELP_NEW*") ALLOC_IN ALLOC_OUT;
   mk_helper (Some "JIT_New*") ALLOC_IN ALLOC_OUT;
   mk_helper (Some "CORINFO_HELP_ASSIGN_REF*") WB_IN WB_OUT;
   mk_helper (Some "JIT_WriteBarrier*") WB_IN WB_OUT;
   mk_helper (Some "CORINFO_HELP_RUNTIMEHANDLE*") GDICT_IN GDICT_OUT;
   mk_helper (Some "JIT_GenericHandle*") GDICT_IN GDICT_OUT].

(** ** The register-value map *)
Record rv_ent := mk_rv { rused : bool; rreg : Z; rval : Z }.
Record rv_map := mk_rvmap { re : list rv_ent; rcap : Z; rcnt : Z }.
Definition rv_empty : rv_map := mk_rvmap [] 0 0.
Definition rv0 : rv_ent := mk_rv false 0 0.
Definition sizeof_rv_ent : Z := 16.

Definition rv_hash (reg : Z) : Z :=
  let h := reg *64 0x9E3779B97F4A7C15 in
  let h := Z.lxor h (Z.shiftr h 29) in
  let h := h *64 0xBF58476D1CE4E5B9 in
  Z.lxor h (Z.shiftr h 32).

Definition rv_grow (grant : allocator) (m : rv_map) : option rv_map :=
  match asmtest_grow_pow2 (rcap m) (if rcap m =? 0 then 32 else rcap m) sizeof_rv_ent with
  | None => None
  | Some ncap =>
      if grant (ncap * sizeof_rv_ent) then
        Some (mk_rvmap (foldl (reinsert rused rreg rv_hash) (replicate (Z.to_nat ncap) rv0) (re m))
                ncap (rcnt m))
      else None
  end.

(** The probe of both operations: the register's slot, or an empty one. *)
Definition rv_slot (m : rv_map) (reg : Z) : option Z :=
  probe (List.length (re m)) (re m) (λ s, negb (rused s) || (rreg s =? reg))
    (rcap m - 1) (Z.land (rv_hash reg) (rcap m - 1)).

Definition rv_store (m : rv_map) (reg val : Z) : rv_map :=
  match rv_slot m reg with
  | Some j =>
      match re m !! Z.to_nat j with
      | Some s =>
          if rused s then
            mk_rvmap (<[Z.to_nat j := mk_rv true (rreg s) val]> (re m)) (rcap m) (rcnt m)
          else mk_rvmap (<[Z.to_nat j := mk_rv true reg val]> (re m)) (rcap m) (rcnt m +64 1)
      | None => m
      end
  | None => m
  end.

Definition rv_put (grant : allocator) (m : rv_map) (reg val : Z) : rv_map :=
  if (rcap m =? 0) || (rcap m *64 3 <=? (rcnt m +64 1) *64 4) then
    match rv_grow grant m with
    | Some m => rv_store m reg val
    | None => m
    end
  else rv_store m reg val.

Definition rv_get (m : rv_map) (reg : Z) : option Z :=
  if rcap m =? 0 then None
  else match rv_slot m reg with
       | Some j => match re m !! Z.to_nat j with
                   | Some s => if rused s then Some (rval s) else None
                   | None => None
                   end
       | None => None
       end.

(** ** The rewritten stream *)
(** [recvec] *)
Record recvec := mk_recvec { rv_v : list at_val_rec; rv_cap : Z }.
Definition recvec0 : recvec := mk_recvec [] 0.

(** [None] when the push fails. *)
Definition rec_push (grant : allocator) (rv : recvec) (r : at_val_rec) : option recvec :=
  let n := Z.of_nat (List.length (rv_v rv)) in
  if n =? rv_cap rv then
    match asmtest_grow grant (rv_cap rv) (n +64 1) sizeof_val_rec with
    | Some cap => Some (mk_recvec (rv_v rv ++ [r]) cap)
    | None => None
    end
  else Some (mk_recvec (rv_v rv ++ [r]) (rv_cap rv)).

(** The record of a helper location; [None] when the pointer is unknown. *)
Definition reg_loc_rec (reg : Z) (w : bool) (step : Z) : at_val_rec :=
  mk_rec AT_LOC_REG reg 0 0 0 0 0 0 w false false 0 0 step.
Definition mem_loc_rec (base size : Z) (w : bool) (step : Z) : at_val_rec :=
  mk_rec AT_LOC_MEM_ABS 0 0 0 0 0 base (if size =? 0 then 8 else size) w false false 0 0 step.

Definition emit_helper_loc (grant : allocator) (out : recvec) (loc : helper_loc) (is_write : bool)
    (step : Z) (regvals : rv_map) : option recvec :=
  match hkind loc with
  | AT_HELPER_REG => rec_push grant out (reg_loc_rec (hreg loc) is_write step)
  | AT_HELPER_MEM_AT_REG =>
      match rv_get regvals (hreg loc) with
      | None => Some out
      | Some base => rec_push grant out (mem_loc_rec base (hsize loc) is_write step)
      end
  end.

(** The location loops of one helper: they stop at the first failure. *)
Fixpoint emit_locs (grant : allocator) (out : recvec) (locs : list helper_loc) (is_write : bool)
    (step : Z) (regvals : rv_map) : option recvec :=
  match locs with
  | [] => Some out
  | loc :: locs =>
      out ← emit_helper_loc grant out loc is_write step regvals;
      emit_locs grant out locs is_write step regvals
  end.

(** [rr->kind == AT_LOC_REG && rr->is_write && rr->value_valid] *)
Definition valued_write (r : at_val_rec) : bool :=
  match kind r with AT_LOC_REG => is_write r && value_valid r | _ => false end.

(** The records of an ordinary step, copied with their values noted. *)
Fixpoint copy_recs (grant : allocator) (out : recvec) (regvals : rv_map) (rs : list at_val_rec) :
    option (recvec * rv_map) :=
  match rs with
  | [] => Some (out, regvals)
  | r :: rs =>
      out ← rec_push grant out r;
      copy_recs grant out
        (if valued_write r then rv_put grant regvals (reg r) (value r) else regvals) rs
  end.

(** [hi[s]] *)
Definition helper_at (methods : list method) (helpers : list helper) (pc : Z) : option nat :=
  match asmtest_method_resolve_pc methods pc with
  | Some rec => asmtest_helper_match helpers (from_option mname None (methods !! rec))
  | None => None
  end.

(** [rstart[s]]: how many leading records are of steps before [s]. *)
Fixpoint rstart (recs : list at_val_rec) (s : nat) : nat :=
  match recs with
  | r :: recs' => if rstep r <? Z.of_nat s then S (rstart recs' s) else O
  | [] => O
  end.
Definition group (recs : list at_val_rec) (s : nat) : list at_val_rec :=
  take (rstart recs (S s) - rstart recs s) (drop (rstart recs s) recs).

(** How many of the following steps are of the same helper. *)
Fixpoint run_more (h : nat) (hi : list (option nat)) : nat :=
  match hi with
  | Some h' :: hi' => if (h' =? h)%nat then S (run_more h hi') else O
  | _ => O
  end.

(** [while (s < nsteps && ok)]; the fuel is the number of steps left. *)
Fixpoint rewrite_loop (grant : allocator) (helpers : list helper) (recs : list at_val_rec)
    (fuel : nat) (s : nat) (hi : list (option nat)) (out : recvec) (regvals : rv_map) :
    option (recvec * rv_map) :=
  match fuel with
  | O => Some (out, regvals)
  | S fuel =>
      match hi with
      | [] => Some (out, regvals)
      | None :: hi =>
          '(out, regvals) ← copy_recs grant out regvals (group recs s);
          rewrite_loop grant helpers recs fuel (S s) hi out regvals
      | Some h :: hi =>
          let more := run_more h hi in
          let H := default (mk_helper None [] []) (helpers !! h) in
          out ← emit_locs grant out (ins H) false (u32 (Z.of_nat s)) regvals;
          out ← emit_locs grant out (outs H) true (u32 (Z.of_nat s)) regvals;
          rewrite_loop grant helpers recs fuel (S s + more)%nat (drop more hi) out regvals
      end
  end.

(** The trace the shared builder is run on. *)
Definition shim (v : asmtest_valtrace) (out : list at_val_rec) : asmtest_valtrace :=
  mk_vt (insn_off v) (steps_len v) (Z.of_nat (steps_len v)) None false (Some out)
    (List.length out) (Z.of_nat (List.length out)) None 0 false (mem_space v).

Definition asmtest_defuse_build_summarized (grant : allocator) (v : option asmtest_valtrace)
    (methods : list method) (helpers : list helper) : option defuse :=
  match v with
  | None => None
  | Some v' =>
      match helpers, methods with
      | [], _ | _, [] => asmtest_defuse_build grant v
      | _, _ =>
          let nsteps := steps_len v' in
          if (0 <? nsteps)%nat && negb (grant (Z.of_nat nsteps *64 4))
          then asmtest_defuse_build grant v
          else if negb (grant ((Z.of_nat nsteps +64 1) *64 8)) then asmtest_defuse_build grant v
          else
            let hi := helper_at methods helpers <$> offs v' in
            match rewrite_loop grant helpers (vrecs v') nsteps 0 hi recvec0 rv_empty with
            | None => asmtest_defuse_build grant v
            | Some (out, _) => asmtest_defuse_build grant (Some (shim v' (rv_v out)))
            end
      end
  end.

(** ** The register-value map refines a finite map *)
Record rv_wf (m : rv_map) : Prop := {
  rwf_cap : rcap m = Z.of_nat (List.length (re m));
  rwf_pow2 : rcap m = 0 ∨ is_pow2 (rcap m) ∧ 32 <= rcap m;
  rwf_bytes : rcap m * sizeof_rv_ent <= SIZE_MAX;
  rwf_tbl : tbl_wf rused rreg rv_hash (re m);
  rwf_cnt : rcnt m = Z.of_nat (count_used rused (re m));
  rwf_load : rcnt m * 4 <= rcap m * 3;
}.

Definition rv_abs (m : rv_map) : gmap Z Z := tbl_abs rused rreg rval (re m).

Lemma rv_empty_wf : rv_wf rv_empty.
Proof. split; simpl; auto; [unfold SIZE_MAX; lia|apply empty_wf; set_solver|done]. Qed.

Lemma rv_slot_key m reg : rv_wf m → rv_slot m reg = key_slot rused rreg rv_hash (re m) reg.
Proof.
  intros Hm. unfold rv_slot, key_slot. rewrite (rwf_cap _ Hm). apply probe_ext.
  intros s. unfold stop_at. f_equal. apply eq_true_iff_eq.
  by rewrite Z.eqb_eq, bool_decide_eq_true.
Qed.

Lemma rv_room m :
  rv_wf m → rcap m ≠ 0 → has_room rused (re m) ∧ is_pow2 (Z.of_nat (List.length (re m))).
Proof.
  intros [Hc Hp _ _ Hn Hl] H0. rewrite <-Hc. destruct Hp as [|[Hp ?]]; [done|].
  split; [|done]. apply room_of_count. lia.
Qed.

Lemma rv_get_spec m reg : rv_wf m → rv_get m reg = rv_abs m !! reg.
Proof.
  intros Hm. unfold rv_get. destruct (Z.eqb_spec (rcap m) 0) as [H0|H0].
  { unfold rv_abs. rewrite (rwf_cap _ Hm) in H0. by rewrite (nil_length_inv (re m)) by lia. }
  destruct (rv_room m Hm H0) as [Hroom Hp]. rewrite rv_slot_key by done.
  destruct (probe_get rused rreg rv_hash rval (re m) reg Hp (rwf_tbl _ Hm) Hroom)
    as (i & s & -> & Hi & _ & Ha). rewrite Nat2Z.id, Hi. by symmetry.
Qed.

Lemma rv_store_spec m reg val :
  rv_wf m → rcap m ≠ 0 → (rcnt m + 1) * 4 <= rcap m * 3 →
  rv_wf (rv_store m reg val) ∧ rv_abs (rv_store m reg val) = <[reg := val]> (rv_abs m).
Proof.
  intros Hm H0 Hload. destruct (rv_room m Hm H0) as [Hroom Hp]. unfold rv_store.
  rewrite rv_slot_key by done.
  destruct (probe_put rused rreg rv_hash rval (re m) reg Hp (rwf_tbl _ Hm) Hroom)
    as (i & s & -> & Hi & Hk & Hput). rewrite Nat2Z.id, Hi.
  pose proof Hm as [Hcap Hpow Hbytes _ Hcnt _].
  destruct (rused s); [set (s' := mk_rv true (rreg s) val)|set (s' := mk_rv true reg val)].
  - destruct (Hput s' eq_refl (Hk eq_refl)) as (Hwf & Habs & Hcu). split; [|done].
    split; simpl; rewrite ?length_insert, ?Hcu; auto; lia.
  - destruct (Hput s' eq_refl eq_refl) as (Hwf & Habs & Hcu). split; [|done].
    assert (u64 (rcnt m + 1) = rcnt m + 1) as Eu
      by (apply u64_small; unfold SIZE_MAX, sizeof_rv_ent in *; lia).
    split; simpl; rewrite ?length_insert, ?Eu, ?Hcu; auto; lia.
Qed.

Lemma rv_grow_spec m :
  rv_wf m → rcap m <= 2 ^ 57 →
  ∃ m', rv_grow always m = Some m' ∧ rv_wf m' ∧ rv_abs m' = rv_abs m ∧ rcap m' ≠ 0 ∧
        (rcnt m' + 1) * 4 <= rcap m' * 3.
Proof.
  intros Hm Hs. pose proof Hm as [Hcap Hpow Hbytes Htbl Hcnt Hload]. unfold rv_grow.
  pose proof (pow2_next (rcap m) (if rcap m =? 0 then 32 else rcap m) sizeof_rv_ent
                ltac:(done) ltac:(tauto)) as Hg.
  destruct (asmtest_grow_pow2 _ _ _) as [n|]; cycle 1.
  { destruct (Z.eqb_spec (rcap m) 0); lia. }
  destruct Hg as (Hp & Hlt & Hmin & Hb). pose proof (is_pow2_pos _ Hp) as Hpos.
  assert (32 <= n) by (destruct (Z.eqb_spec (rcap m) 0); destruct Hpow as [|[]]; lia).
  destruct (rehash_spec rused rreg rv_hash (re m) (Z.to_nat n) rv0) as (H1 & H2 & H3 & H4).
  - by rewrite Z2Nat.id by lia.
  - done.
  - lia.
  - done.
  - eexists. split; [done|]. split_and!; simpl; [| |lia|].
    + split; simpl; rewrite ?H1, ?Z2Nat.id, ?H3 by lia; auto; lia.
    + by apply (tbl_abs_ext rused rreg rv_hash).
    + destruct Hpow as [E|[Hp' ?]]; [lia|]. pose proof (pow2_double _ _ Hp' Hp Hlt). lia.
Qed.

Lemma rv_put_spec m reg val :
  rv_wf m → rcnt m <= 2 ^ 55 →
  rv_wf (rv_put always m reg val) ∧ rv_abs (rv_put always m reg val) = <[reg := val]> (rv_abs m).
Proof.
  intros Hwf Hsmall. unfold rv_put. pose proof Hwf as [Hcap Hpow Hbytes Htbl Hcnt Hload].
  rewrite (u64_small (rcnt m + 1)), (u64_small ((rcnt m + 1) * 4)), (u64_small (rcap m * 3))
    by (unfold SIZE_MAX, sizeof_rv_ent in *; lia).
  destruct (Z.eqb_spec (rcap m) 0) as [H0|H0],
    (Z.leb_spec (rcap m * 3) ((rcnt m + 1) * 4)) as [Hl|Hl]; simpl;
    try (destruct (rv_grow_spec m Hwf ltac:(lia)) as (m' & -> & Hwf' & <- & Hcap' & Hload');
         by apply rv_store_spec).
  by apply rv_store_spec; [..|lia].
Qed.

Lemma rv_cnt_size m : rv_wf m → rcnt m = Z.of_nat (base.size (rv_abs m)).
Proof.
  intros Hm. rewrite (rwf_cnt _ Hm). f_equal. apply (count_used_size rused rreg rv_hash), Hm.
Qed.

(** ** Specification *)
(** The records a location stands for, given the known register values. *)
Definition loc_recs (vals : gmap Z Z) (w : bool) (step : Z) (loc : helper_loc) : list at_val_rec :=
  match hkind loc with
  | AT_HELPER_REG => [reg_loc_rec (hreg loc) w step]
  | AT_HELPER_MEM_AT_REG =>
      match vals !! hreg loc with
      | Some base => [mem_loc_rec base (hsize loc) w step]
      | None => []
      end
  end.
Definition contract (vals : gmap Z Z) (step : Z) (H : helper) : list at_val_rec :=
  (ins H ≫= loc_recs vals false step) ++ (outs H ≫= loc_recs vals true step).

(** The records of a step. *)
Definition recs_of (recs : list at_val_rec) (s : nat) : list at_val_rec :=
  filter (λ r, rstep r = Z.of_nat s) recs.

(** The register values captured by a list of records. *)
Definition note (G : gmap Z Z) (rs : list at_val_rec) : gmap Z Z :=
  foldl (λ G r, if valued_write r then <[reg r := value r]> G else G) G rs.

Section summary.
Context (hi : list (option nat)) (helpers : list helper) (recs : list at_val_rec).

(** The values known before step [s]: those the ordinary steps captured. *)
Definition known (s : nat) : gmap Z Z :=
  foldl (λ G i, if bool_decide (hi !! i = Some None) then note G (recs_of recs i) else G)
    ∅ (seq 0 s).

(** Step [s] is the first of a run of helper [h]. *)
Definition enters (s h : nat) : bool :=
  bool_decide (hi !! s = Some (Some h)) &&
  ((s =? 0)%nat || negb (bool_decide (hi !! (s - 1)%nat = Some (Some h)))).

(** What a step contributes: its own records, the contract of the helper it
    enters, or nothing inside a run. *)
Definition summary_at (s : nat) : list at_val_rec :=
  match hi !! s with
  | Some None => recs_of recs s
  | Some (Some h) =>
      if enters s h
      then contract (known s) (Z.of_nat s) (default (mk_helper None [] []) (helpers !! h))
      else []
  | None => []
  end.
Definition summary : list at_val_rec := List.concat (summary_at <$> seq 0 (List.length hi)).
End summary.

(** ** Groups *)
Lemma rstart_split recs s :
  StronglySorted (λ x y, rstep x <= rstep y) recs →
  take (rstart recs s) recs = filter (λ r, rstep r < Z.of_nat s) recs ∧
  drop (rstart recs s) recs = filter (λ r, Z.of_nat s <= rstep r) recs.
Proof.
  induction 1 as [|r recs Hs IH Hall]; [done|]. simpl. rewrite !filter_cons.
  destruct (Z.ltb_spec (rstep r) (Z.of_nat s)).
  - rewrite decide_True, (decide_False (P := Z.of_nat s <= _)) by lia. simpl.
    destruct IH as [-> ->]. done.
  - rewrite decide_False, decide_True by lia. rewrite Forall_forall in Hall. split.
    + simpl. symmetry. apply list_filter_none, Forall_forall. intros x Hx%Hall. lia.
    + simpl. f_equal. symmetry. apply list_filter_all, Forall_forall. intros x Hx%Hall. lia.
Qed.

Lemma rstart_next recs s :
  rstart recs (S s) = (rstart recs s + rstart (drop (rstart recs s) recs) (S s))%nat.
Proof.
  induction recs as [|r recs IH]; [done|]. cbn [rstart].
  destruct (Z.ltb_spec (rstep r) (Z.of_nat s)); [|done].
  destruct (Z.ltb_spec (rstep r) (Z.of_nat (S s))); [|lia]. simpl. by rewrite IH.
Qed.

Lemma group_spec recs s :
  StronglySorted (λ x y, rstep x <= rstep y) recs → group recs s = recs_of recs s.
Proof.
  intros Hs. unfold group. rewrite rstart_next, Nat.add_comm, Nat.add_sub.
  rewrite (proj2 (rstart_split recs s Hs)).
  rewrite (proj1 (rstart_split _ (S s) (StronglySorted_filter _ _ _ Hs))).
  rewrite list_filter_filter. unfold recs_of. apply list_filter_iff. intros r. lia.
Qed.

(** The records still to come. *)
Definition rest (recs : list at_val_rec) (s : nat) : nat :=
  List.length (filter (λ r, Z.of_nat s <= rstep r) recs).

Lemma rest_S recs s : (rest recs (S s) + List.length (recs_of recs s) = rest recs s)%nat.
Proof.
  unfold rest, recs_of. induction recs as [|r recs IH]; [done|]. rewrite !filter_cons.
  repeat case_decide; simpl; lia.
Qed.
Lemma rest_mono recs s k : (rest recs (s + k) <= rest recs s)%nat.
Proof.
  induction k as [|k IH]; [by rewrite Nat.add_0_r|]. rewrite Nat.add_succ_r.
  pose proof (rest_S recs (s + k)). lia.
Qed.

(** ** Pushing *)
Definition recvec_ok (rv : recvec) : Prop :=
  Z.of_nat (List.length (rv_v rv)) <= rv_cap rv ∧ rv_cap rv * sizeof_val_rec <= SIZE_MAX.

Lemma rec_push_spec rv r :
  recvec_ok rv → Z.of_nat (List.length (rv_v rv)) <= 2 ^ 55 →
  ∃ rv', rec_push always rv r = Some rv' ∧ rv_v rv' = rv_v rv ++ [r] ∧ recvec_ok rv'.
Proof.
  intros [Hn Hb] Hs. unfold rec_push, recvec_ok.
  destruct (Z.eqb_spec (Z.of_nat (List.length (rv_v rv))) (rv_cap rv)) as [E|E].
  - rewrite (u64_small (_ + 1)) by lia.
    pose proof (asmtest_grow_spec always (rv_cap rv) (Z.of_nat (List.length (rv_v rv)) + 1)
                  sizeof_val_rec) as G.
    destruct (asmtest_grow _ _ _ _) as [c|].
    + destruct G as (? & _ & ? & _); [done|lia|lia|]. eexists. split_and!; [done..| |done].
      simpl. rewrite length_app. simpl. lia.
    + destruct G as (_ & [G|(r' & _ & _ & ?)]); [done|lia|lia| |done].
      unfold SIZE_MAX, sizeof_val_rec in *. lia.
  - eexists. split_and!; [done..| |done]. simpl. rewrite length_app. simpl. lia.
Qed.

Lemma emit_locs_spec locs rv w st (m : rv_map) :
  rv_wf m → recvec_ok rv →
  Z.of_nat (List.length (rv_v rv) + List.length (locs ≫= loc_recs (rv_abs m) w st)) <= 2 ^ 55 →
  ∃ rv', emit_locs always rv locs w st m = Some rv' ∧
         rv_v rv' = rv_v rv ++ (locs ≫= loc_recs (rv_abs m) w st) ∧ recvec_ok rv'.
Proof.
  intros Hm. revert rv. induction locs as [|loc locs IH]; intros rv Hok Hlen.
  { exists rv. simpl. by rewrite app_nil_r. }
  assert (∃ rv', emit_helper_loc always rv loc w st m = Some rv' ∧
            rv_v rv' = rv_v rv ++ loc_recs (rv_abs m) w st loc ∧ recvec_ok rv') as (rv1 & E & Ev & Hok1).
  { rewrite bind_cons, length_app in Hlen. unfold emit_helper_loc, loc_recs in *.
    destruct (hkind loc); [apply rec_push_spec; [done|lia]|].
    rewrite rv_get_spec by done. destruct (rv_abs m !! hreg loc) as [b|].
    - apply rec_push_spec; [done|lia].
    - exists rv. by rewrite app_nil_r. }
  cbn [emit_locs]. rewrite E. simpl. rewrite bind_cons in Hlen. rewrite length_app in Hlen.
  destruct (IH rv1 Hok1) as (rv2 & E2 & Ev2 & Hok2).
  { rewrite Ev, length_app. lia. }
  exists rv2. split_and!; [done| |done]. rewrite Ev2, Ev. simpl. by rewrite app_assoc.
Qed.

Lemma copy_recs_spec rs rv m :
  rv_wf m → recvec_ok rv →
  Z.of_nat (List.length (rv_v rv) + List.length rs) <= 2 ^ 55 →
  Z.of_nat (base.size (rv_abs m) + List.length rs) <= 2 ^ 55 →
  ∃ rv' m', copy_recs always rv m rs = Some (rv', m') ∧ rv_v rv' = rv_v rv ++ rs ∧
    recvec_ok rv' ∧ rv_wf m' ∧ rv_abs m' = note (rv_abs m) rs.
Proof.
  revert rv m. induction rs as [|r rs IH]; intros rv m Hm Hok H1 H2.
  { exists rv, m. by rewrite app_nil_r. }
  simpl in H1, H2. destruct (rec_push_spec rv r Hok ltac:(lia)) as (rv1 & E & Ev & Hok1).
  cbn [copy_recs]. rewrite E. simpl.
  assert (rv_wf (if valued_write r then rv_put always m (reg r) (value r) else m) ∧
          rv_abs (if valued_write r then rv_put always m (reg r) (value r) else m) =
          note (rv_abs m) [r]) as [Hm1 Ha1].
  { simpl. destruct (valued_write r); [|done]. apply rv_put_spec; [done|].
    rewrite rv_cnt_size by done. lia. }
  destruct (IH rv1 _ Hm1 Hok1) as (rv2 & m2 & -> & Ev2 & Hok2 & Hm2 & Ha2).
  { rewrite Ev, length_app. simpl. lia. }
  { rewrite Ha1. simpl. destruct (valued_write r); [|lia].
    pose proof (map_size_insert_le (rv_abs m) (reg r) (value r)). lia. }
  exists rv2, m2. split_and!; [done| |done..|].
  - rewrite Ev2, Ev. by rewrite <-app_assoc.
  - by rewrite Ha2, Ha1.
Qed.

Lemma note_size G rs : (base.size (note G rs) <= base.size G + List.length rs)%nat.
Proof.
  revert G. induction rs as [|r rs IH]; intros G; [simpl; lia|]. unfold note in *. simpl.
  etransitivity; [apply IH|]. destruct (valued_write r); [|lia].
  pose proof (map_size_insert_le G (reg r) (value r)). lia.
Qed.

(** ** The loop *)
Lemma run_more_spec h hi :
  (∀ i, (i < run_more h hi)%nat → hi !! i = Some (Some h)) ∧
  hi !! run_more h hi ≠ Some (Some h).
Proof.
  induction hi as [|[h'|] hi IH]; simpl; [split; [lia|done]| |split; [lia|done]].
  destruct (Nat.eqb_spec h' h) as [->|Hne].
  - destruct IH as [H1 H2]. split; [|done]. intros [|i] Hi; [done|]. apply H1. lia.
  - split; [lia|]. simpl. congruence.
Qed.

Section loop.
Context (hi : list (option nat)) (helpers : list helper) (recs : list at_val_rec).
Context (Hsort : StronglySorted (λ x y, rstep x <= rstep y) recs).
Context (Hn : Z.of_nat (List.length hi) < 2 ^ 32).

(** The loop head is never inside a run. *)
Definition at_head (s : nat) : Prop := ∀ h, hi !! s = Some (Some h) → enters hi s h = true.

Lemma known_S s :
  known hi recs (S s) =
  if bool_decide (hi !! s = Some None) then note (known hi recs s) (recs_of recs s)
  else known hi recs s.
Proof. unfold known. rewrite seq_S, foldl_app. done. Qed.

(** Inside a run nothing is learnt and nothing is contributed. *)
Lemma run_silent s h k :
  hi !! s = Some (Some h) → (∀ i, (i < k)%nat → hi !! (S s + i)%nat = Some (Some h)) →
  known hi recs (S s + k) = known hi recs s ∧
  List.concat (summary_at hi helpers recs <$> seq (S s) k) = [].
Proof.
  intros Hs. induction k as [|k IH]; intros Hk.
  { rewrite Nat.add_0_r, known_S, bool_decide_eq_false_2 by congruence. done. }
  destruct IH as [IH1 IH2]; [intros; apply Hk; lia|]. split.
  - rewrite Nat.add_succ_r, known_S, bool_decide_eq_false_2; [done|].
    rewrite Hk by lia. congruence.
  - rewrite seq_S, fmap_app, concat_app, IH2. simpl. unfold summary_at.
    change (S (s + k)) with (S s + k)%nat. rewrite Hk by lia.
    unfold enters. rewrite (bool_decide_eq_true_2 (hi !! (S s + k)%nat = _)) by (apply Hk; lia).
    rewrite (bool_decide_eq_true_2 (hi !! (S s + k - 1)%nat = _)); [done|].
    destruct k as [|k]; [by replace (S s + 0 - 1)%nat with s by lia|].
    replace (S s + S k - 1)%nat with (S s + k)%nat by lia. apply Hk. lia.
Qed.

(** A run of the helper [h] from [s] on: where it ends, that nothing in it
    counts, and that the loop is at a head again after it. *)
Lemma helper_run_spec s h :
  hi !! s = Some (Some h) →
  let k := run_more h (drop (S s) hi) in
  (S s + k <= List.length hi)%nat ∧
  known hi recs (S s + k) = known hi recs s ∧
  List.concat (summary_at hi helpers recs <$> seq (S s) k) = [] ∧
  at_head (S s + k).
Proof.
  intros Hx k. destruct (run_more_spec h (drop (S s) hi)) as [Hr1 Hr2]. fold k in Hr1, Hr2.
  assert (∀ i, (i < k)%nat → hi !! (S s + i)%nat = Some (Some h)) as Hrun.
  { intros i Hi. rewrite <-lookup_drop. by apply Hr1. }
  destruct (run_silent s h k Hx Hrun) as [Hkn' Hsil]. split_and!; [|done|done|].
  - destruct k as [|k']; [apply lookup_lt_Some in Hx; lia|]. specialize (Hrun k' ltac:(lia)).
    apply lookup_lt_Some in Hrun. lia.
  - intros h' Hh'. unfold enters. rewrite bool_decide_eq_true_2 by done. simpl.
    rewrite bool_decide_eq_false_2; [done|]. intros E. apply Hr2.
    rewrite lookup_drop. rewrite Hh', <-E.
    destruct k as [|k']; [by rewrite Nat.add_0_r, Nat.sub_0_r|].
    rewrite <-(Hrun k') by lia. f_equal. lia.
Qed.

(** The summary of one run is appended. *)
Lemma emit_contract_spec H rv m s :
  rv_wf m → recvec_ok rv →
  Z.of_nat (List.length (rv_v rv) + List.length (contract (rv_abs m) s H)) <= 2 ^ 55 →
  ∃ rv1 rv2, emit_locs always rv (ins H) false s m = Some rv1 ∧
    emit_locs always rv1 (outs H) true s m = Some rv2 ∧
    rv_v rv2 = rv_v rv ++ contract (rv_abs m) s H ∧ recvec_ok rv2.
Proof.
  intros Hm Hok Hs. unfold contract in *. rewrite length_app in Hs.
  destruct (emit_locs_spec (ins H) rv false s m Hm Hok ltac:(lia)) as (rv1 & E1 & Ev1 & Hok1).
  destruct (emit_locs_spec (outs H) rv1 true s m Hm Hok1) as (rv2 & E2 & Ev2 & Hok2).
  { rewrite Ev1, length_app. lia. }
  exists rv1, rv2. split_and!; [done|done| |done]. by rewrite Ev2, Ev1, <-app_assoc.
Qed.

Lemma rewrite_loop_spec fuel s rv m :
  (List.length hi - s <= fuel)%nat → at_head s →
  rv_wf m → recvec_ok rv → rv_abs m = known hi recs s →
  Z.of_nat (List.length (rv_v rv) + List.length (List.concat
    (summary_at hi helpers recs <$> seq s (List.length hi - s)))) <= 2 ^ 55 →
  Z.of_nat (base.size (rv_abs m) + rest recs s) <= 2 ^ 55 →
  ∃ rv' m', rewrite_loop always helpers recs fuel s (drop s hi) rv m = Some (rv', m') ∧
    rv_v rv' = rv_v rv ++ List.concat (summary_at hi helpers recs <$> seq s (List.length hi - s)).
Proof.
  revert s rv m. induction fuel as [|fuel IH]; intros s rv m Hf Hh Hm Hok Hk H1 H2.
  { exists rv, m. split; [done|]. replace (List.length hi - s)%nat with O by lia.
    by rewrite app_nil_r. }
  cbn [rewrite_loop]. destruct (decide (s < List.length hi)%nat) as [Hlt|Hge]; cycle 1.
  { rewrite drop_ge by lia. exists rv, m. split; [done|].
    replace (List.length hi - s)%nat with O by lia. by rewrite app_nil_r. }
  destruct (lookup_lt_is_Some_2 hi s Hlt) as [x Hx]. rewrite (drop_S _ _ _ Hx).
  replace (List.length hi - s)%nat with (S (List.length hi - S s)) in * by lia.
  cbn [seq] in H1 |- *. rewrite fmap_cons in H1 |- *. simpl List.concat in H1 |- *.
  rewrite length_app in H1. destruct x as [h|].
  - (* a helper run *)
    destruct (helper_run_spec s h Hx) as (Hkn & Hkn' & Hsil & Hhead).
    set (k := run_more h (drop (S s) hi)) in *.
    assert (summary_at hi helpers recs s = contract (rv_abs m) (Z.of_nat s)
              (default (mk_helper None [] []) (helpers !! h))) as Hat.
    { unfold summary_at. by rewrite Hx, (Hh h Hx), Hk. }
    rewrite Hat in H1 |- *. rewrite (u32_small (Z.of_nat s)) by lia. set (H := default _ _) in *.
    destruct (emit_contract_spec H rv m (Z.of_nat s) Hm Hok ltac:(lia)) as (rv1 & rv2 & -> & E2 & Ev2 & Hok2).
    simpl. rewrite E2. simpl. rewrite drop_drop.
    replace (List.length hi - S s)%nat with (k + (List.length hi - (S s + k)))%nat in * by lia.
    rewrite seq_app, fmap_app, concat_app, Hsil in H1 |- *. simpl app in H1 |- *.
    change (S s + k)%nat with (S (s + k)) in *.
    destruct (IH (S (s + k)) rv2 m) as (rv3 & m3 & -> & Ev3); [lia|done|done|done|by rewrite Hkn'|..].
    + rewrite Ev2, !length_app. lia.
    + pose proof (rest_mono recs s (S k)) as Hrm. rewrite Nat.add_succ_r in Hrm. simpl in *. lia.
    + exists rv3, m3. split; [done|]. rewrite Ev3, Ev2. by rewrite <-!app_assoc.
  - (* an ordinary step *)
    assert (summary_at hi helpers recs s = recs_of recs s) as Hat by (unfold summary_at; by rewrite Hx).
    rewrite Hat in H1 |- *. rewrite group_spec by done. pose proof (rest_S recs s) as Hrest.
    destruct (copy_recs_spec (recs_of recs s) rv m Hm Hok) as (rv1 & m1 & -> & Ev1 & Hok1 & Hm1 & Ha1);
      [lia..|]. simpl.
    destruct (IH (S s) rv1 m1) as (rv2 & m2 & -> & Ev2); [lia| |done|done|..].
    + intros h Hh'. unfold enters. rewrite bool_decide_eq_true_2 by done. simpl.
      rewrite Nat.sub_0_r, Hx. done.
    + rewrite known_S, bool_decide_eq_true_2 by done. by rewrite Ha1, Hk.
    + rewrite Ev1, length_app. lia.
    + rewrite Ha1. pose proof (note_size (rv_abs m) (recs_of recs s)). lia.
    + exists rv2, m2. split; [done|]. rewrite Ev2, Ev1. by rewrite <-app_assoc.
Qed.
End loop.

(** ** The summarized graph *)
Lemma contract_step G st H r : r ∈ contract G st H → rstep r = st.
Proof.
  unfold contract. rewrite elem_of_app, !list_elem_of_bind.
  intros [(l & Hr & _)|(l & Hr & _)]; unfold loc_recs in Hr;
    repeat case_match; set_solver.
Qed.

(** A step that is ordinary, or the entry of a helper run. *)
Definition visible (hi : list (option nat)) (s : nat) : Prop :=
  hi !! s = Some None ∨ ∃ h, enters hi s h = true.

Lemma summary_at_step hi helpers recs s r :
  r ∈ summary_at hi helpers recs s → rstep r = Z.of_nat s ∧ visible hi s.
Proof.
  unfold summary_at, visible. destruct (hi !! s) as [[h|]|]; [|by intros [? _]%list_elem_of_filter; auto|set_solver].
  destruct (enters hi s h) eqn:E; [|set_solver]. intros Hr%contract_step. eauto.
Qed.

Lemma elem_of_summary hi helpers recs r :
  r ∈ summary hi helpers recs →
  ∃ s, (s < List.length hi)%nat ∧ rstep r = Z.of_nat s ∧ visible hi s.
Proof.
  unfold summary. intros (l & (s & -> & Hs)%list_elem_of_fmap & Hr)%elem_of_concat.
  apply summary_at_step in Hr as [? ?]. apply elem_of_seq in Hs. exists s. split_and!; [lia|done..].
Qed.

Lemma summary_sorted hi helpers recs :
  StronglySorted (λ x y, rstep x <= rstep y) (summary hi helpers recs).
Proof.
  unfold summary. generalize (List.length hi) as n, O as s. intros n. 
  induction n as [|n IH]; intros s; [constructor|]. cbn [seq]. rewrite fmap_cons.
  simpl List.concat. apply StronglySorted_app; [|apply IH|].
  - intros x y [Hx _]%summary_at_step Hy. apply elem_of_concat in Hy as (l & Hl & Hy).
    apply list_elem_of_fmap in Hl as (i & -> & Hi). apply elem_of_seq in Hi.
    apply summary_at_step in Hy as [Hy _]. lia.
  - assert (∀ r, r ∈ summary_at hi helpers recs s → rstep r = Z.of_nat s) as Hr
      by (intros r Hr; by apply summary_at_step in Hr as [? _]).
    induction (summary_at hi helpers recs s) as [|r l IHl]; constructor.
    + apply IHl. set_solver.
    + apply Forall_forall. intros y Hy. rewrite (Hr r), (Hr y) by set_solver. lia.
Qed.

(** C9: the summarized graph is exact.  Built over a trace with a method map and
    a helper table, it has precisely the dependences of the stream in which each
    maximal run of a recognized helper is replaced, at its first step, by the
    reads and writes the helper declares (a location behind a pointer whose value
    is unknown is left out), every other step keeping its records; and no edge
    starts or ends inside a helper. *)
Theorem summarized_exact v methods helpers g
    (Hh : helpers ≠ []) (Hm : methods ≠ [])
    (Hgrp : grouped v) (Hsteps : Z.of_nat (steps_len v) < 2 ^ 32)
    (Hrecs : Z.of_nat (recs_len v) <= 2 ^ 40)
    (Hsum : Z.of_nat (List.length
       (summary (helper_at methods helpers <$> offs v) helpers (vrecs v))) <= 2 ^ 40)
    (Hbuild : asmtest_defuse_build_summarized always (Some v) methods helpers = Some g) :
  let hi := helper_at methods helpers <$> offs v in
  nsteps g = Z.of_nat (steps_len v) ∧
  (∀ x, x ∈ edges g ↔ depends (summary hi helpers (vrecs v)) x) ∧
  (∀ x, x ∈ edges g → ∃ a b, from_step x = Z.of_nat a ∧ to_step x = Z.of_nat b ∧
                             visible hi a ∧ visible hi b).
Proof.
  cbv zeta. set (hi := helper_at methods helpers <$> offs v) in *.
  destruct Hgrp as [Hsort Hrange].
  assert (List.length hi = steps_len v) as Hlen by (unfold hi; by rewrite length_fmap).
  destruct (rewrite_loop_spec hi helpers (vrecs v) Hsort ltac:(lia) (steps_len v) 0 recvec0 rv_empty)
    as (rv & m & E & Ev).
  { lia. }
  { intros h Hx. unfold enters. by rewrite bool_decide_eq_true_2. }
  { apply rv_empty_wf. }
  { split; simpl; [lia|unfold SIZE_MAX; lia]. }
  { done. }
  { rewrite Nat.sub_0_r. simpl. unfold summary in Hsum. lia. }
  { change (rv_abs rv_empty) with (∅ : gmap Z Z). rewrite map_size_empty. unfold rest.
    pose proof (length_filter_le (λ r, Z.of_nat 0 <= rstep r) (vrecs v)). unfold recs_len in Hrecs. lia. }
  rewrite Nat.sub_0_r in Ev. simpl in Ev. change (List.concat _) with (summary hi helpers (vrecs v)) in Ev.
  rewrite drop_0 in E.
  assert (asmtest_defuse_build always (Some (shim v (summary hi helpers (vrecs v)))) = Some g) as Hb.
  { rewrite <-Hbuild, <-Ev. unfold asmtest_defuse_build_summarized.
    destruct helpers as [|h hs]; [done|]. destruct methods as [|mt ms]; [done|].
    change (always _) with true. rewrite andb_false_r. simpl negb. cbv iota.
    fold hi. by rewrite E. }
  assert (vrecs (shim v (summary hi helpers (vrecs v))) = summary hi helpers (vrecs v)) as Evr by done.
  apply defuse_build_spec in Hb as [Hn He].
  - rewrite Evr in He. split_and!; [done..|]. intros x Hx.
    apply He in Hx as (Hl & _ & Et & k & _ & _ & (w & Hw & _ & _ & Ef) & _).
    apply elem_of_summary in Hl as (b & _ & Hb & Hvb), Hw as (a & _ & Ha & Hva).
    exists a, b. split_and!; [congruence..|done|done].
  - split; [rewrite Evr; apply summary_sorted|]. rewrite Evr. apply Forall_forall.
    intros r (s & Hs & -> & _)%elem_of_summary. unfold steps_len, offs. simpl.
    unfold steps_len, offs in Hlen. lia.
  - done.
  - done.
Qed.

(** A caller passes an argument to an allocation helper of two steps and uses
    the reference it returns. *)
Definition alloc_call : asmtest_valtrace :=
  sink_of [(0, [reg_rec RegSlice.X86_REG_RDI true]);
           (4096, [reg_rec RegSlice.X86_REG_R10 true]);
           (4100, [reg_rec RegSlice.X86_REG_R10 false; reg_rec RegSlice.X86_REG_RAX true]);
           (8, [reg_rec RegSlice.X86_REG_RAX false])].
Definition alloc_map : list method :=
  [mk_method 0 64 (Some "Main") 0; mk_method 4096 64 (Some "JIT_NewS_MP") 0].

Lemma summarized_exact_witness :
  ∃ g, asmtest_defuse_build_summarized always (Some alloc_call) alloc_map DEFAULT_HELPERS = Some g ∧
  (∀ x, x ∈ edges g ↔
        depends (summary (helper_at alloc_map DEFAULT_HELPERS <$> offs alloc_call) DEFAULT_HELPERS
                   (vrecs alloc_call)) x) ∧
  ((λ x, (from_step x, to_step x)) <$> edges g) = [(0, 1); (1, 3)].
Proof.
  eexists. split; [vm_compute; reflexivity|]. split; [|vm_compute; reflexivity].
  eapply (summarized_exact alloc_call alloc_map DEFAULT_HELPERS);
    [discriminate|discriminate| |vm_compute; reflexivity|vm_compute; congruence
    |vm_compute; congruence|vm_compute; reflexivity].
  split; apply (bool_decide_unpack _); vm_compute; exact I.
Defined.
End Helpers.
