(* ===== verification/Glob.v ===== *)
(** The filename-glob matcher of [src/glob_match.c], used by the Win64 runner's
    test filter, against a declarative semantics of patterns. *)
From S2P Require Import Prelude.

Module Glob.

(** Strings are lists of bytes; the end of the list is the terminating NUL. *)
Definition BANG : Z := 33.
Definition STAR : Z := 42.
Definition DASH : Z := 45.
Definition QM : Z := 63.
Definition LB : Z := 91.
Definition BSL : Z := 92.
Definition RB : Z := 93.
Definition CARET : Z := 94.

(** ** The code *)
Definition skip_negate (p : list Z) : bool * list Z :=
  match p with
  | x :: p' => if (x =? BANG) || (x =? CARET) then (true, p') else (false, p)
  | [] => (false, p)
  end.

(** The scan for the closing bracket: the string from it on. *)
Fixpoint scan_class (p : list Z) : option (list Z) :=
  match p with
  | [] => None
  | x :: p' =>
      if x =? RB then Some p
      else if x =? BSL then match p' with _ :: p'' => scan_class p'' | [] => None end
      else scan_class p'
  end.

Definition skip_bracket (p : list Z) : list Z :=
  match p with
  | x :: p' => if x =? RB then p' else p
  | [] => p
  end.

Definition class_end (p : list Z) : option (list Z) :=
  scan_class (skip_bracket (skip_negate p).2).

(** A member or range endpoint: [\x] is [x]. *)
Definition member (x : Z) (p' : list Z) : Z * list Z :=
  match p' with
  | y :: p'' => if x =? BSL then (y, p'') else (x, p')
  | [] => (x, p')
  end.

Fixpoint class_loop (fuel : nat) (p : list Z) (c : Z) (matched : bool) : bool * list Z :=
  match fuel, p with
  | S fuel, x :: p' =>
      if x =? RB then (matched, p)
      else
        let '(lo, p1) := member x p' in
        match p1 with
        | d :: ((h :: p2) as hp) =>
            if (d =? DASH) && negb (h =? RB) then
              let '(hi, p3) := member h p2 in
              class_loop fuel p3 c (if (lo <=? c) && (c <=? hi) then true else matched)
            else class_loop fuel p1 c (if c =? lo then true else matched)
        | _ => class_loop fuel p1 c (if c =? lo then true else matched)
        end
  | _, _ => (matched, p)
  end.

(** The verdict and the pattern past the class. *)
Definition match_class (p : list Z) (c : Z) : bool * list Z :=
  let '(negate, p) := skip_negate p in
  let '(matched, p) :=
    match p with
    | x :: p' => if x =? RB then (c =? RB, p') else (false, p)
    | [] => (false, p)
    end in
  let '(matched, p) := class_loop (length p) p c matched in
  let p := skip_bracket p in
  (if negate then negb matched else matched, p).

(** [while (star == '\*') pattern++; return pattern ended] *)
Fixpoint only_stars (p : list Z) : bool :=
  match p with
  | [] => true
  | x :: p' => if x =? STAR then only_stars p' else false
  end.

(** The main loop; [star] holds the two positions saved at the last star, and
    [None] is returned when the fuel runs out. *)
Fixpoint glob_loop (fuel : nat) (p s : list Z) (star : option (list Z * list Z)) : option bool :=
  match s with
  | [] => Some (only_stars p)
  | c :: s' =>
      match fuel with
      | O => None
      | S fuel =>
          let backtrack (_ : unit) :=
            match star with
            | Some (ps, ss) => glob_loop fuel ps (tail ss) (Some (ps, tail ss))
            | None => Some false
            end in
          match p with
          | [] => backtrack tt
          | x :: p' =>
              if x =? QM then glob_loop fuel p' s' star
              else if x =? STAR then glob_loop fuel p' s (Some (p', s))
              else if (x =? LB) && (if class_end p' is Some _ then true else false) then
                let '(m, q) := match_class p' c in
                if m then glob_loop fuel q s' star else backtrack tt
              else if x =? BSL then
                match p' with
                | [] => Some false
                | y :: p'' => if y =? c then glob_loop fuel p'' s' star else backtrack tt
                end
              else if x =? c then glob_loop fuel p' s' star
              else backtrack tt
          end
      end
  end.

Definition glob_fuel (p s : list Z) : nat := (length s + 2) * S (length p).
Definition asmtest_glob_match (pattern str : list Z) : option bool :=
  glob_loop (glob_fuel pattern str) pattern str None.

(** ** Patterns as tokens *)
Inductive tok :=
  | Any                                         (* ? *)
  | Star                                        (* a star *)
  | Lit (x : Z)
  | Class (negate : bool) (items : list (Z * Z)) (* ranges; a member is [x, x] *)
  | Dangling.                                   (* a backslash at the end *)

Definition tok_matches (t : tok) (c : Z) : bool :=
  match t with
  | Any => true
  | Star => false
  | Lit x => x =? c
  | Class negate items => xorb negate (existsb (λ r, (r.1 <=? c) && (c <=? r.2)) items)
  | Dangling => false
  end.

(** The ranges of a bracket expression and the string from its end on. *)
Fixpoint items (fuel : nat) (p : list Z) : list (Z * Z) * list Z :=
  match fuel, p with
  | S fuel, x :: p' =>
      if x =? RB then ([], p)
      else
        let '(lo, p1) := member x p' in
        let '(hi, p2) :=
          match p1 with
          | d :: h :: p2 => if (d =? DASH) && negb (h =? RB) then member h p2 else (lo, p1)
          | _ => (lo, p1)
          end in
        let '(r, p3) := items fuel p2 in ((lo, hi) :: r, p3)
  | _, _ => ([], p)
  end.

Definition class_tok (p : list Z) : tok * list Z :=
  let '(negate, p) := skip_negate p in
  let '(first, p) :=
    match p with
    | x :: p' => if x =? RB then ([(RB, RB)], p') else ([], p)
    | [] => ([], p)
    end in
  let '(r, p) := items (length p) p in
  (Class negate (first ++ r), skip_bracket p).

(** The first token of a non-empty pattern and the rest. *)
Definition next_tok (x : Z) (p' : list Z) : tok * list Z :=
  if x =? QM then (Any, p')
  else if x =? STAR then (Star, p')
  else if (x =? LB) && (if class_end p' is Some _ then true else false) then class_tok p'
  else if x =? BSL then match p' with [] => (Dangling, []) | y :: p'' => (Lit y, p'') end
  else (Lit x, p').

Fixpoint parse (fuel : nat) (p : list Z) : list tok :=
  match fuel, p with
  | S fuel, x :: p' => let '(t, q) := next_tok x p' in t :: parse fuel q
  | _, _ => []
  end.
Definition tokens (p : list Z) : list tok := parse (length p) p.

(** What a pattern means: a star takes any string, every other token one byte. *)
Inductive glob : list tok → list Z → Prop :=
  | glob_nil : glob [] []
  | glob_one t ts c s : tok_matches t c = true → glob ts s → glob (t :: ts) (c :: s)
  | glob_star ts u s : glob ts s → glob (Star :: ts) (u ++ s).

Example glob_ex1 : asmtest_glob_match [STAR; 97; QM] [98; 97; 97; 99] = Some true.
Proof. reflexivity. Qed.
Example glob_ex2 : asmtest_glob_match [LB; BANG; 97; DASH; 99; RB; STAR] [98; 98] = Some false.
Proof. reflexivity. Qed.

(** ** Classes *)
Lemma member_length x p' : (length (member x p').2 <= length p')%nat.
Proof. unfold member. destruct p'; [done|]. case_match; simpl; lia. Qed.

(** What the class consumes does not depend on the byte, and its verdict is
    membership in the ranges. *)
Lemma class_loop_items fuel p c b :
  class_loop fuel p c b =
  (b || existsb (λ r, (r.1 <=? c) && (c <=? r.2)) (items fuel p).1, (items fuel p).2).
Proof.
  assert (∀ lo, (lo <=? c) && (c <=? lo) = (c =? lo)) as Heq.
  { intros lo. apply eq_true_iff_eq. rewrite andb_true_iff, !Z.leb_le, Z.eqb_eq. lia. }
  revert p b. induction fuel as [|fuel IH]; intros p b; [simpl; by rewrite orb_false_r|].
  destruct p as [|x p']; [simpl; by rewrite orb_false_r|]. simpl.
  destruct (x =? RB); [by rewrite orb_false_r|].
  destruct (member x p') as [lo p1].
  assert (∀ hi p2, class_loop fuel p2 c (if (lo <=? c) && (c <=? hi) then true else b) =
    (b || existsb (λ r, (r.1 <=? c) && (c <=? r.2))
            (let '(r, p3) := items fuel p2 in ((lo, hi) :: r, p3)).1,
     (let '(r, p3) := items fuel p2 in ((lo, hi) :: r, p3)).2)) as Hstep.
  { intros hi p2. rewrite IH. destruct (items fuel p2) as [r p3]. simpl.
    by destruct ((lo <=? c) && (c <=? hi)), b. }
  destruct p1 as [|d [|h p2]]; rewrite <-?Heq; try apply Hstep.
  destruct ((d =? DASH) && negb (h =? RB)); [|rewrite <-?Heq; apply Hstep].
  destruct (member h p2) as [hi p3]. apply Hstep.
Qed.

Lemma match_class_tok p c : match_class p c = (tok_matches (class_tok p).1 c, (class_tok p).2).
Proof.
  unfold match_class, class_tok. destruct (skip_negate p) as [negate p1].
  destruct p1 as [|x p2]; [simpl; by destruct negate|].
  destruct (x =? RB).
  - rewrite class_loop_items. destruct (items _ _) as [r p3]. simpl.
    assert (((RB <=? c) && (c <=? RB)) = (c =? RB)) as ->.
    { apply eq_true_iff_eq. rewrite andb_true_iff, !Z.leb_le, Z.eqb_eq. lia. }
    by destruct negate.
  - rewrite class_loop_items. destruct (items _ _) as [r p3]. simpl. by destruct negate.
Qed.

(** ** Tokens *)
Lemma items_length fuel p : (length (items fuel p).2 <= length p)%nat.
Proof.
  revert p. induction fuel as [|fuel IH]; intros p; [done|]. destruct p as [|x p']; [done|].
  cbn [items]. destruct (x =? RB); [done|]. pose proof (member_length x p') as H1.
  destruct (member x p') as [lo p1].
  assert (∀ hi p2, (length p2 <= length p1)%nat →
    (length (let '(r, p3) := items fuel p2 in ((lo, hi) :: r, p3)).2 <= length (x :: p'))%nat) as Hstep.
  { intros hi p2 Hp2. specialize (IH p2). destruct (items fuel p2). simpl in *. lia. }
  destruct p1 as [|d [|h p2]]; [by apply Hstep..|].
  destruct ((d =? DASH) && negb (h =? RB)); [|by apply Hstep].
  pose proof (member_length h p2). destruct (member h p2) as [hi p3]. apply Hstep. simpl in *. lia.
Qed.

Lemma skip_bracket_length p : (length (skip_bracket p) <= length p)%nat.
Proof. unfold skip_bracket. destruct p; [done|]. case_match; simpl; lia. Qed.

Lemma class_tok_length p : (length (class_tok p).2 <= length p)%nat.
Proof.
  unfold class_tok. assert (length (skip_negate p).2 <= length p)%nat as Hn.
  { unfold skip_negate. destruct p; [done|]. case_match; simpl; lia. }
  destruct (skip_negate p) as [neg p1]. simpl in Hn.
  destruct (match p1 with x :: p' => _ | [] => _ end) as [first p2] eqn:Ef.
  assert (length p2 <= length p1)%nat by (repeat case_match; simplify_eq/=; lia).
  pose proof (items_length (length p2) p2). destruct (items (length p2) p2) as [r p3].
  pose proof (skip_bracket_length p3). simpl in *. lia.
Qed.

Lemma next_tok_length x p' : (length (next_tok x p').2 <= length p')%nat.
Proof.
  unfold next_tok. repeat case_match; simpl; try lia. apply class_tok_length.
Qed.

Lemma parse_fuel fuel fuel' p :
  (length p <= fuel)%nat → (length p <= fuel')%nat → parse fuel p = parse fuel' p.
Proof.
  revert fuel' p. induction fuel as [|fuel IH]; intros fuel' p H1 H2; destruct p as [|x p'].
  - by destruct fuel'.
  - simpl in H1. lia.
  - by destruct fuel'.
  - destruct fuel' as [|fuel']; [simpl in H2; lia|]. simpl in *.
    pose proof (next_tok_length x p'). destruct (next_tok x p') as [t q]. simpl in *.
    f_equal. apply IH; lia.
Qed.

Lemma tokens_cons x p' :
  tokens (x :: p') = (next_tok x p').1 :: tokens (next_tok x p').2.
Proof.
  unfold tokens. simpl. pose proof (next_tok_length x p'). destruct (next_tok x p') as [t q].
  simpl in *. f_equal. apply parse_fuel; lia.
Qed.

(** The class ends at the bracket the look-ahead found. *)
Lemma items_scan fuel p q :
  (length p <= fuel)%nat → scan_class p = Some q → (items fuel p).2 = q.
Proof.
  revert p q. induction fuel as [|fuel IH]; intros p q Hf Hs.
  { destruct p; [done|simpl in Hf; lia]. }
  destruct p as [|x p']; [done|]. cbn [items]. simpl in Hs, Hf.
  destruct (x =? RB) eqn:Ex; [by simplify_eq|].
  assert (∃ lo p1, member x p' = (lo, p1) ∧ scan_class p1 = Some q ∧ (length p1 <= length p')%nat)
    as (lo & p1 & -> & Hs1 & Hl1).
  { unfold member. destruct p' as [|y p'']; [destruct (x =? BSL); done|].
    destruct (x =? BSL); eexists _, _; (split_and!; [done|done|simpl; lia]). }
  assert (∀ hi p2, scan_class p2 = Some q → (length p2 <= fuel)%nat →
    (let '(r, p3) := items fuel p2 in ((lo, hi) :: r, p3)).2 = q) as Hstep.
  { intros hi p2 Hs2 Hl2. specialize (IH p2 q Hl2 Hs2). by destruct (items fuel p2). }
  destruct p1 as [|d [|h p2]]; [apply Hstep; simpl in *; (done || lia)..|].
  destruct (Z.eqb_spec d DASH) as [->|]; simpl; [|apply Hstep; simpl in *; (done || lia)].
  destruct (h =? RB) eqn:Eh; simpl; [apply Hstep; simpl in *; (done || lia)|].
  (* the dash and the high end are skipped by the scan too *)
  cbn [scan_class] in Hs1. change (DASH =? RB) with false in Hs1.
  change (DASH =? BSL) with false in Hs1. rewrite Eh in Hs1. unfold member.
  destruct p2 as [|y p3]; destruct (h =? BSL); try done; apply Hstep; simpl in *; (done || lia).
Qed.

Lemma class_tok_end p q : class_end p = Some (RB :: q) → (class_tok p).2 = q.
Proof.
  unfold class_end, class_tok. destruct (skip_negate p) as [neg p1]. simpl. intros Hs.
  assert (∀ (first : list (Z * Z)) (p2 : list Z), scan_class p2 = Some (RB :: q) →
    (let '(r, p3) := items (length p2) p2 in (Class neg (first ++ r), skip_bracket p3)).2 = q) as H.
  { intros first p2 Hp2. pose proof (items_scan (length p2) p2 _ ltac:(done) Hp2) as E.
    destruct (items (length p2) p2) as [r p3]. simpl in *. by subst. }
  destruct p1 as [|x p']; [done|]. simpl in Hs. destruct (x =? RB); by apply H.
Qed.

(** ** The semantics *)
Lemma glob_star_iff ts s : glob (Star :: ts) s ↔ ∃ k, glob ts (drop k s).
Proof.
  split.
  - inversion 1 as [|? ? ? ? Hm|? u s' Hg]; subst; [done|]. exists (length u). by rewrite drop_app_length.
  - intros [k Hg]. rewrite <-(take_drop k s). by constructor.
Qed.

Lemma glob_cons_iff t ts c s :
  t ≠ Star → glob (t :: ts) (c :: s) ↔ tok_matches t c = true ∧ glob ts s.
Proof. intros Ht. split; [by inversion 1|intros []; by constructor]. Qed.

(** Tokens matched one byte each. *)
Abbreviation each := (Forall2 (λ t c, t ≠ Star ∧ tok_matches t c = true)).

Lemma glob_app_inv w ts s :
  Forall (λ t, t ≠ Star) w → glob (w ++ ts) s → (length w <= length s)%nat ∧ glob ts (drop (length w) s).
Proof.
  intros Hw. revert s. induction Hw as [|t w Ht Hw IH]; intros s Hg; [simpl; split; [lia|done]|].
  simpl in Hg. inversion Hg as [|? ? c s' Hm Hg'|]; subst; [|done].
  destruct (IH s' Hg'). simpl. split; [lia|done].
Qed.

Lemma each_no_star w u : each w u → Forall (λ t, t ≠ Star) w ∧ length w = length u.
Proof. induction 1 as [|t c w u [? ?] _ [IH1 IH2]]; [done|]. simpl. auto. Qed.

Lemma only_stars_spec p : only_stars p = true ↔ glob (tokens p) [].
Proof.
  induction p as [|x p' IH]; [split; [constructor|done]|]. simpl. rewrite tokens_cons.
  destruct (Z.eqb_spec x STAR) as [->|Hx].
  - change (next_tok STAR p') with (Star, p'). simpl. rewrite IH, glob_star_iff. split.
    + intros. by exists O.
    + intros [k Hk]. by rewrite drop_nil in Hk.
  - split; [done|]. intros Hg. exfalso. inversion Hg as [| |? u s' _ Et Es]; subst.
    unfold next_tok in Et. destruct (x =? QM); [done|].
    rewrite (proj2 (Z.eqb_neq _ _) Hx) in Et. destruct ((x =? LB) && _).
    + unfold class_tok in Et. repeat case_match; done.
    + destruct (x =? BSL); [|done]. by destruct p'.
Qed.

(** ** The loop *)
(** From the last star on, the pattern and the text advanced together. *)
Definition linked (p s : list Z) (star : option (list Z * list Z)) : Prop :=
  match star with
  | Some (ps, ss) => ∃ w u, tokens ps = w ++ tokens p ∧ ss = u ++ s ∧ each w u
  | None => True
  end.

(** A match that lets the last star take more. *)
Definition retry (star : option (list Z * list Z)) : Prop :=
  match star with
  | Some (ps, ss) => ∃ k, (1 <= k)%nat ∧ glob (tokens ps) (drop k ss)
  | None => False
  end.

Lemma linked_advance p q s c star :
  linked p (c :: s) star → (∃ t, tokens p = t :: tokens q ∧ t ≠ Star ∧ tok_matches t c = true) →
  linked q s star.
Proof.
  intros Hl (t & Et & Ht & Hm). destruct star as [[ps ss]|]; [|done].
  destruct Hl as (w & u & Ep & -> & He). exists (w ++ [t]), (u ++ [c]).
  split_and!; [by rewrite Ep, Et, <-app_assoc|by rewrite <-app_assoc|].
  apply Forall2_app; [done|]. by repeat constructor.
Qed.

(** With the text used up no retry can succeed where the pattern at hand does
    not. *)
Lemma retry_end p star : linked p [] star → retry star → glob (tokens p) [].
Proof.
  destruct star as [[ps ss]|]; [|done]. intros (w & u & Ep & -> & He) (k & Hk & Hg).
  destruct (each_no_star w u He) as [Hns Hlen]. rewrite app_nil_r, Ep in Hg.
  apply glob_app_inv in Hg as [Hle Hg]; [|done]. rewrite length_drop in Hle.
  assert (w = []) as -> by (destruct w; [done|simpl in *; lia]).
  destruct u; [|done]. by rewrite drop_nil in Hg.
Qed.

(** A later star makes the earlier one redundant. *)
Lemma retry_star p p' s star :
  tokens p = Star :: tokens p' → linked p s star → retry star →
  ∃ k, (1 <= k)%nat ∧ glob (tokens p') (drop k s).
Proof.
  intros Et. destruct star as [[ps ss]|]; [|done]. intros (w & u & Ep & -> & He) (k & Hk & Hg).
  destruct (each_no_star w u He) as [Hns Hlen]. rewrite Ep, Et in Hg.
  apply glob_app_inv in Hg as [Hle Hg]; [|done]. apply glob_star_iff in Hg as [j Hg].
  rewrite !drop_drop, Hlen in Hg. exists (k + j)%nat. split; [lia|].
  replace (k + (length u + j))%nat with (length u + (k + j))%nat in Hg by lia.
  by rewrite <-drop_drop, drop_app_length in Hg.
Qed.

(** Backtracking explores the retries in order. *)
Lemma retry_back ps ss : 
  retry (Some (ps, ss)) ↔ glob (tokens ps) (tail ss) ∨ retry (Some (ps, tail ss)).
Proof.
  simpl. assert (∀ k, drop (S k) ss = drop k (tail ss)) as Hd
    by (destruct ss; intros k; simpl; [by rewrite drop_nil|done]).
  split.
  - intros ([|[|k]] & Hk & Hg); [lia| |]; rewrite Hd in Hg; [left; by rewrite drop_0 in Hg|].
    right. exists (S k). split; [lia|done].
  - intros [Hg|(k & Hk & Hg)]; [exists 1%nat|exists (S k)]; rewrite Hd, ?drop_0; split; (lia || done).
Qed.

Definition measure (N : nat) (p s : list Z) (star : option (list Z * list Z)) : nat :=
  match star with
  | Some (_, ss) => length ss * S N + length p
  | None => S (length s) * S N + length p
  end.

Definition back (fuel : nat) (star : option (list Z * list Z)) : option bool :=
  match star with
  | Some (ps, ss) => glob_loop fuel ps (tail ss) (Some (ps, tail ss))
  | None => Some false
  end.

(** One iteration, by the token at hand. *)
Lemma glob_loop_tok fuel x p' c s' star :
  glob_loop (S fuel) (x :: p') (c :: s') star =
  match (next_tok x p').1 with
  | Star => glob_loop fuel (next_tok x p').2 (c :: s') (Some ((next_tok x p').2, c :: s'))
  | Dangling => Some false
  | t => if tok_matches t c then glob_loop fuel (next_tok x p').2 s' star else back fuel star
  end.
Proof.
  cbn [glob_loop]. unfold next_tok. fold (back fuel star).
  destruct (x =? QM); [done|]. destruct (x =? STAR); [done|].
  destruct ((x =? LB) && _).
  - rewrite match_class_tok. unfold class_tok.
    destruct (skip_negate p') as [neg p1]. destruct (match p1 with _ :: _ => _ | [] => _ end) as [f p2].
    destruct (items _ _) as [r p3]. done.
  - destruct (x =? BSL); [|done]. by destruct p'.
Qed.

Section loop_correct.
Context (N fuel : nat).
Context (IH : ∀ p s star, linked p s star → (length p <= N)%nat →
  (∀ ps ss, star = Some (ps, ss) → (length ps <= N)%nat) → (measure N p s star < fuel)%nat →
  ∃ b, glob_loop fuel p s star = Some b ∧ (b = true ↔ glob (tokens p) s ∨ retry star)).

(** After a mismatch the answer is whether a retry succeeds. *)
Lemma back_correct p c s' star :
  linked p (c :: s') star → (∀ ps ss, star = Some (ps, ss) → (length ps <= N)%nat) →
  (measure N p (c :: s') star < S fuel)%nat → ¬ glob (tokens p) (c :: s') →
  ∃ b, back fuel star = Some b ∧ (b = true ↔ glob (tokens p) (c :: s') ∨ retry star).
Proof.
  intros Hl HN Hm Hno. destruct star as [[ps ss]|]; [|exists false; simpl; naive_solver].
  specialize (HN ps ss eq_refl) as Hps.
  assert (length (tail ss) < length ss)%nat as Hlt.
  { destruct Hl as (w & u & _ & -> & _). destruct u; simpl; rewrite ?length_app; simpl; lia. }
  destruct (IH ps (tail ss) (Some (ps, tail ss))) as (b & Hb & Hiff); [|done|naive_solver|..].
  { exists [], []. by split_and!. }
  { simpl in Hm |- *. nia. }
  exists b. split; [done|]. rewrite Hiff, <-retry_back. tauto.
Qed.

Lemma step_correct p s star :
  linked p s star → (length p <= N)%nat →
  (∀ ps ss, star = Some (ps, ss) → (length ps <= N)%nat) → (measure N p s star < S fuel)%nat →
  ∃ b, glob_loop (S fuel) p s star = Some b ∧ (b = true ↔ glob (tokens p) s ∨ retry star).
Proof.
  intros Hl Hp HN Hm. destruct s as [|c s'].
  { exists (only_stars p). split; [done|]. rewrite only_stars_spec. split; [auto|].
    intros [?|Hr]; [done|]. by eapply retry_end. }
  destruct p as [|x p'].
  { apply (back_correct [] c s' star); [done..|]. by inversion 1. }
  rewrite glob_loop_tok. pose proof (tokens_cons x p') as Et.
  pose proof (next_tok_length x p') as Hq. destruct (next_tok x p') as [t q]. cbn [fst snd] in Et, Hq |- *.
  assert (t ≠ Star → tok_matches t c = false →
    ∃ b, back fuel star = Some b ∧ (b = true ↔ glob (tokens (x :: p')) (c :: s') ∨ retry star)) as Hback.
  { intros Hns Hf. apply back_correct; [done..|]. rewrite Et, glob_cons_iff by done. by intros [? _]; congruence. }
  assert (t ≠ Star → tok_matches t c = true →
    ∃ b, glob_loop fuel q s' star = Some b ∧
         (b = true ↔ glob (tokens (x :: p')) (c :: s') ∨ retry star)) as Hadv.
  { intros Hns Ht. destruct (IH q s' star) as (b & Hb & Hiff).
    - eapply linked_advance; [exact Hl|]. by exists t.
    - simpl in Hp. lia.
    - done.
    - destruct star as [[ps ss]|]; simpl in *; lia.
    - exists b. split; [done|]. rewrite Hiff, Et, glob_cons_iff by done. tauto. }
  destruct t; try (destruct (tok_matches _ c) eqn:E; [by apply Hadv|by apply Hback]).
  - (* a star *)
    destruct (IH q (c :: s') (Some (q, c :: s'))) as (b & Hb & Hiff).
    + exists [], []. by split_and!.
    + simpl in Hp. lia.
    + intros ps ss [= <- <-]. simpl in Hp. lia.
    + destruct star as [[ps ss]|]; [|simpl in *; lia].
      destruct Hl as (w & u & _ & -> & _). simpl in Hm |- *. rewrite length_app in Hm. simpl in Hm. nia.
    + exists b. split; [done|]. rewrite Hiff, Et, glob_star_iff. simpl. split.
      * intros [Hg|(k & _ & Hg)]; left; [by exists O|by exists k].
      * intros [[[|k] Hg]|Hr]; [by left|right; exists (S k); split; [lia|done]|].
        right. eapply retry_star; [exact Et|exact Hl|exact Hr].
  - (* a dangling backslash *)
    exists false. split; [done|]. split; [done|]. intros [Hg|Hr]; exfalso.
    + rewrite Et, glob_cons_iff in Hg by done. by destruct Hg.
    + destruct star as [[ps ss]|]; [|done]. destruct Hl as (w & u & Ep & _ & He), Hr as (k & _ & Hg).
      destruct (each_no_star w u He) as [Hns _]. rewrite Ep, Et in Hg.
      apply glob_app_inv in Hg as [_ Hg]; [|done]. by inversion Hg.
Qed.
End loop_correct.

Lemma glob_loop_correct N fuel p s star :
  linked p s star → (length p <= N)%nat →
  (∀ ps ss, star = Some (ps, ss) → (length ps <= N)%nat) → (measure N p s star < fuel)%nat →
  ∃ b, glob_loop fuel p s star = Some b ∧ (b = true ↔ glob (tokens p) s ∨ retry star).
Proof.
  revert p s star. induction fuel as [|fuel IH]; intros p s star; [lia|].
  by apply step_correct.
Qed.

(** C5: the matcher is exact and always answers: for every pattern and string
    it returns, and it returns true exactly when the string is in the language
    of the pattern, where a star takes any string, every other token one byte
    ([?] any, a bracket expression the bytes in, or with a leading [!] or [^]
    out of, its ranges), an unterminated bracket is a literal, and a pattern
    that ends in an unescaped backslash matches nothing. *)
Theorem glob_match_exact pattern str :
  ∃ b, asmtest_glob_match pattern str = Some b ∧ (b = true ↔ glob (tokens pattern) str).
Proof.
  unfold asmtest_glob_match, glob_fuel.
  destruct (glob_loop_correct (length pattern) ((length str + 2) * S (length pattern)) pattern str None)
    as (b & Hb & Hiff); [done|done|done|simpl; lia|].
  exists b. split; [done|]. rewrite Hiff. simpl. tauto.
Qed.

(** The bracket look-ahead and the bracket match agree: when [class_end]
    finds the end of a class, matching the class leaves the pattern right after
    that bracket, whatever the byte. *)
Theorem class_end_agrees p q c (Hend : class_end p = Some (RB :: q)) : (match_class p c).2 = q.
Proof. rewrite match_class_tok. by apply class_tok_end. Qed.

Lemma class_end_agrees_witness :
  class_end [CARET; RB; 97; DASH; BSL; RB; RB; 42] = Some [RB; 42] ∧
  (match_class [CARET; RB; 97; DASH; BSL; RB; RB; 42] 98).2 = [42].
Proof. split; [reflexivity|]. apply class_end_agrees. reflexivity. Defined.
End Glob.
