(* ===== verification/Rng.v ===== *)
(** The random source of the differential tests and the floating-point distance
    of [src/asmtest.c]. *)
From S2P Require Import Prelude.

Module Rng.

(** A two's-complement reading of a [w]-bit pattern, and back. *)
Definition signed (w x : Z) : Z := if x <? 2 ^ (w - 1) then x else x - 2 ^ w.
Definition to_long (x : Z) : Z := signed 64 x.
Definition LONG_MIN : Z := - 2 ^ 63.
Definition LONG_MAX : Z := 2 ^ 63 - 1.
Definition is_long (x : Z) : Prop := LONG_MIN <= x <= LONG_MAX.

(** ** splitmix64 *)
Definition GAMMA : Z := 0x9E3779B97F4A7C15.
Definition xorshift (k z : Z) : Z := Z.lxor z (Z.shiftr z k).
Definition mix (z : Z) : Z :=
  let z := xorshift 30 z *64 0xBF58476D1CE4E5B9 in
  let z := xorshift 27 z *64 0x94D049BB133111EB in
  xorshift 31 z.

(** The value drawn and the state afterwards. *)
Definition asmtest_rng_u64 (s : Z) : Z * Z :=
  let s := s +64 GAMMA in (mix s, s).

Definition asmtest_rng_long (s : Z) : Z * Z :=
  let '(x, s) := asmtest_rng_u64 s in (to_long x, s).

Definition asmtest_rng_range (s lo hi : Z) : Z * Z :=
  if hi <=? lo then (lo, s)
  else
    let span := u64 hi -64 u64 lo +64 1 in
    if span =? 0 then asmtest_rng_long s
    else let '(x, s) := asmtest_rng_u64 s in (to_long (u64 lo +64 x mod span), s).

(** ** Distance in units in the last place *)
(** The two functions differ in the width only: [bits] are the patterns the
    [memcpy]s read. *)
Definition ulp_key (w bits : Z) : Z :=
  let i := signed w bits in if i <? 0 then signed w (2 ^ (w - 1)) - i else i.
Definition ulp_distance (w a b : Z) : Z :=
  let ia := ulp_key w a in
  let ib := ulp_key w b in
  if ib <? ia then (ia mod 2 ^ w - ib mod 2 ^ w) mod 2 ^ w
  else (ib mod 2 ^ w - ia mod 2 ^ w) mod 2 ^ w.
Definition fp_ulp_distance (a b : Z) : Z := ulp_distance 64 a b.
Definition fp_ulp_distance_f (a b : Z) : Z := ulp_distance 32 a b.

(** ** Signed readings *)
Lemma signed_wrap w x : 0 < w → 0 <= x < 2 ^ w → signed w x mod 2 ^ w = x.
Proof.
  intros Hw Hx. unfold signed. destruct (Z.ltb_spec x (2 ^ (w - 1))).
  - by apply Z.mod_small.
  - rewrite <-(Z_mod_plus_full _ 1), Z.mod_small; lia.
Qed.

Lemma wrap_signed x : is_long x → to_long (u64 x) = x.
Proof.
  unfold is_long, LONG_MIN, LONG_MAX, to_long, signed. intros Hx.
  change (2 ^ (64 - 1)) with (2 ^ 63).
  destruct (Z_lt_ge_dec x 0) as [Hn|Hp].
  - assert (u64 x = x + 2 ^ 64) as -> by (unfold u64; rewrite <-(Z_mod_plus_full _ 1), Z.mod_small; lia).
    destruct (Z.ltb_spec (x + 2 ^ 64) (2 ^ 63)); lia.
  - rewrite u64_small by lia. destruct (Z.ltb_spec x (2 ^ 63)); lia.
Qed.

Lemma to_long_range x : is_u64 x → is_long (to_long x).
Proof.
  unfold is_u64, is_long, LONG_MIN, LONG_MAX, to_long, signed. intros Hx.
  change (2 ^ (64 - 1)) with (2 ^ 63). destruct (Z.ltb_spec x (2 ^ 63)); lia.
Qed.

(** ** The range *)
Lemma mix_range z : is_u64 z → is_u64 (mix z).
Proof.
  intros _. unfold mix, xorshift, is_u64. set (y := u64 _). assert (0 <= y < 2 ^ 64) by apply u64_range.
  assert (0 <= Z.shiftr y 31 < 2 ^ 64).
  { rewrite Z.shiftr_div_pow2 by lia. dlia. }
  split; [apply Z.lxor_nonneg; lia|]. apply lxor_bound; lia.
Qed.

Lemma range_spec s lo hi :
  is_long lo → is_long hi → is_u64 s → lo < hi →
  ∃ x, asmtest_rng_u64 s = (x, s +64 GAMMA) ∧ is_u64 x ∧
       asmtest_rng_range s lo hi =
       (if decide (hi - lo = 2 ^ 64 - 1) then to_long x else lo + x mod (hi - lo + 1), s +64 GAMMA).
Proof.
  intros Hlo Hhi Hs Hlt. unfold asmtest_rng_range, asmtest_rng_long, asmtest_rng_u64.
  assert (is_u64 (mix (s +64 GAMMA))) as Hx by (apply mix_range, u64_range).
  exists (mix (s +64 GAMMA)). split_and!; [done|apply Hx..|].
  destruct (Z.leb_spec hi lo) as [|_]; [lia|].
  unfold is_long, LONG_MIN, LONG_MAX in *.
  assert (u64 hi -64 u64 lo = hi - lo) as E.
  { unfold u64. rewrite <-Zminus_mod. apply Z.mod_small. lia. }
  rewrite E. destruct (decide (hi - lo = 2 ^ 64 - 1)) as [Ef|Ef].
  - rewrite Ef. done.
  - rewrite (u64_small (hi - lo + 1)) by lia. destruct (Z.eqb_spec (hi - lo + 1) 0); [lia|].
    f_equal. rewrite u64_add_l.
    assert (0 <= mix (s +64 GAMMA) mod (hi - lo + 1) < hi - lo + 1) by (apply Z.mod_pos_bound; lia).
    apply wrap_signed. unfold is_long, LONG_MIN, LONG_MAX. lia.
Qed.

Lemma rng_range_long s lo hi : is_long lo → is_long (asmtest_rng_range s lo hi).1.
Proof.
  intros Hlo. unfold asmtest_rng_range, asmtest_rng_long, asmtest_rng_u64.
  repeat case_match; simplify_eq/=; try done; apply to_long_range; [apply mix_range|]; apply u64_range.
Qed.

Lemma range_in lo hi s :
  is_long lo → is_long hi → is_u64 s → lo <= (asmtest_rng_range s lo hi).1 <= Z.max lo hi.
Proof.
  intros Hlo Hhi Hs. destruct (Z.leb_spec hi lo) as [Hle|Hlt].
  { unfold asmtest_rng_range. rewrite (proj2 (Z.leb_le _ _) Hle). simpl. lia. }
  destruct (range_spec s lo hi Hlo Hhi Hs Hlt) as (x & _ & Hx & ->). simpl.
  destruct (decide _) as [E|E].
  - pose proof (to_long_range x Hx). unfold is_long, LONG_MIN, LONG_MAX in *. lia.
  - assert (0 <= x mod (hi - lo + 1) < hi - lo + 1) by (apply Z.mod_pos_bound; lia). lia.
Qed.

Lemma range_next s lo hi : (asmtest_rng_range s lo hi).2 = if hi <=? lo then s else s +64 GAMMA.
Proof.
  unfold asmtest_rng_range, asmtest_rng_long, asmtest_rng_u64. destruct (hi <=? lo); [done|].
  cbv zeta. by destruct (_ =? 0).
Qed.

Lemma range_state s lo hi : is_u64 s → is_u64 (asmtest_rng_range s lo hi).2.
Proof. intros Hs. rewrite range_next. destruct (hi <=? lo); [done|apply u64_range]. Qed.

(** A ranged draw lies in the range, for every pair of bounds of a [long],
    the full 64-bit range included; it uses up one value of the stream, or none
    when the range is empty or a single point. *)
Theorem rng_range_in_bounds s lo hi
    (Hlo : is_long lo) (Hhi : is_long hi) (Hs : is_u64 s) :
  let '(v, s') := asmtest_rng_range s lo hi in
  lo <= v <= Z.max lo hi ∧ s' = if hi <=? lo then s else s +64 GAMMA.
Proof.
  pose proof (range_in lo hi s Hlo Hhi Hs). pose proof (range_next s lo hi).
  by destruct (asmtest_rng_range s lo hi).
Qed.

Lemma rng_range_in_bounds_witness :
  let '(v, s') := asmtest_rng_range 42 (-3) 5 in
  (-3 <= v <= 5 ∧ s' = 42 +64 GAMMA) ∧ is_long (-3) ∧ is_u64 42.
Proof.
  pose proof (rng_range_in_bounds 42 (-3) 5) as H.
  destruct (asmtest_rng_range 42 (-3) 5) as [v s'].
  split; [apply H|]; unfold is_long, is_u64, LONG_MIN, LONG_MAX; lia.
Defined.

(** ** The stream *)
Lemma xorshift_inj k a b : 0 < k → 0 <= a → 0 <= b → xorshift k a = xorshift k b → a = b.
Proof.
  unfold xorshift. intros Hk Ha Hb E. apply Z.lxor_eq. set (d := Z.lxor a b).
  assert (0 <= d) as Hd by (by apply Z.lxor_nonneg).
  assert (d = Z.shiftr d k) as Ed.
  { apply Z.lxor_eq. unfold d. rewrite Z.shiftr_lxor.
    transitivity (Z.lxor (Z.lxor a (Z.shiftr a k)) (Z.lxor b (Z.shiftr b k))).
    - rewrite !Z.lxor_assoc. f_equal. rewrite <-!Z.lxor_assoc. f_equal. apply Z.lxor_comm.
    - rewrite E. apply Z.lxor_nilpotent. }
  rewrite Z.shiftr_div_pow2 in Ed by lia. destruct (Z.eq_dec d 0) as [|Hne]; [done|]. exfalso.
  assert (d / 2 ^ k < d); [|lia]. apply Z.div_lt; [lia|]. apply Z.pow_gt_1; lia.
Qed.

(** Multiplication by an invertible constant. *)
Lemma mul64_inj c cinv a b :
  u64 (c * cinv) = 1 → is_u64 a → is_u64 b → a *64 c = b *64 c → a = b.
Proof.
  unfold is_u64. intros Hc Ha Hb E.
  assert (∀ x, 0 <= x < 2 ^ 64 → u64 (u64 (x * c) * cinv) = x) as Hinv.
  { intros x Hx. unfold u64 in *. rewrite Z.mul_mod_idemp_l, <-Z.mul_assoc, <-Z.mul_mod_idemp_r, Hc by lia.
    rewrite Z.mul_1_r. by apply Z.mod_small. }
  rewrite <-(Hinv a Ha), <-(Hinv b Hb). by rewrite E.
Qed.

Lemma xorshift_range k z : 0 <= k → is_u64 z → is_u64 (xorshift k z).
Proof.
  unfold is_u64, xorshift. intros Hk Hz.
  assert (0 <= Z.shiftr z k <= z).
  { rewrite Z.shiftr_div_pow2 by lia. pose proof (Z.pow_pos_nonneg 2 k). split; [apply Z.div_pos; lia|].
    apply Z.div_le_upper_bound; nia. }
  split; [apply Z.lxor_nonneg; lia|]. apply lxor_bound; lia.
Qed.

Lemma mix_inj a b : is_u64 a → is_u64 b → mix a = mix b → a = b.
Proof.
  intros Ha Hb E. unfold mix in E.
  apply xorshift_inj in E; [|lia|apply u64_range..].
  apply (mul64_inj _ 0x319642B2D24D8EC3) in E;
    [|vm_compute; reflexivity|apply xorshift_range; [lia|apply u64_range]..].
  apply xorshift_inj in E; [|lia|apply u64_range..].
  apply (mul64_inj _ 0x96DE1B173F119089) in E;
    [|vm_compute; reflexivity|apply xorshift_range; [lia|done]..].
  apply xorshift_inj in E; [done|lia|..]; [apply Ha|apply Hb].
Qed.

(** The values drawn from a seed, in order. *)
Fixpoint draws (n : nat) (s : Z) : list Z :=
  match n with
  | O => []
  | S n => let '(x, s) := asmtest_rng_u64 s in x :: draws n s
  end.

Lemma draws_lookup n s i x :
  draws n s !! i = Some x → x = mix (u64 (s + (Z.of_nat i + 1) * GAMMA)).
Proof.
  revert s i. induction n as [|n IH]; intros s i; [done|].
  cbn [draws asmtest_rng_u64]. destruct i as [|i]; simpl; intros H.
  - simplify_eq. do 2 f_equal; lia.
  - rewrite (IH _ _ H), u64_add_l. do 2 f_equal. lia.
Qed.

(** The stream does not repeat within its period: up to [2^64] consecutive
    values drawn from a seed are pairwise distinct. *)
Theorem rng_full_period n s (Hn : Z.of_nat n <= 2 ^ 64) : NoDup (draws n s).
Proof.
  apply NoDup_alt. intros i j x Hi Hj.
  pose proof (draws_lookup n s i x Hi) as Ei. pose proof (draws_lookup n s j x Hj) as Ej.
  assert (length (draws n s) = n) as Hlen.
  { clear. revert s. induction n as [|n IH]; intros s; [done|]. simpl. by rewrite IH. }
  apply lookup_lt_Some in Hi, Hj. rewrite Hlen in Hi, Hj.
  rewrite Ei in Ej. apply mix_inj in Ej; [|apply u64_range..].
  assert (u64 ((Z.of_nat i - Z.of_nat j) * GAMMA) = 0) as E0.
  { replace ((Z.of_nat i - Z.of_nat j) * GAMMA)
      with ((s + (Z.of_nat i + 1) * GAMMA) - (s + (Z.of_nat j + 1) * GAMMA)) by lia.
    unfold u64 in *. by rewrite Zminus_mod, Ej, Z.sub_diag. }
  assert (u64 (Z.of_nat i - Z.of_nat j) = 0) as Ez.
  { unfold u64 in *.
    assert (((Z.of_nat i - Z.of_nat j) * GAMMA * 0xF1DE83E19937733D) mod 2 ^ 64 = 0) as H.
    { rewrite <-Z.mul_mod_idemp_l, E0 by lia. done. }
    rewrite <-Z.mul_assoc, <-Z.mul_mod_idemp_r in H by lia.
    change (GAMMA * 0xF1DE83E19937733D mod 2 ^ 64) with 1 in H. by rewrite Z.mul_1_r in H. }
  unfold u64 in Ez. apply Z.mod_divide in Ez as [q Hq]; [|lia]. 
  assert (q = 0); nia.
Qed.

Lemma rng_full_period_witness : NoDup (draws 4 7) ∧ length (draws 4 7) = 4%nat.
Proof. split; [apply rng_full_period; vm_compute; congruence|reflexivity]. Defined.

(** ** Units in the last place *)
(** The number a sign-magnitude pattern denotes on the ordered line of floats. *)
Definition sign_magnitude (w bits : Z) : Z :=
  if bits <? 2 ^ (w - 1) then bits else - (bits - 2 ^ (w - 1)).

Lemma ulp_key_spec w bits :
  1 < w → 0 <= bits < 2 ^ w → ulp_key w bits = sign_magnitude w bits.
Proof.
  intros Hw Hb. unfold ulp_key, signed, sign_magnitude.
  assert (2 ^ w = 2 * 2 ^ (w - 1)) as Ew by (rewrite <-Z.pow_succ_r by lia; f_equal; lia).
  destruct (Z.ltb_spec bits (2 ^ (w - 1))).
  - destruct (Z.ltb_spec bits 0); lia.
  - rewrite Z.ltb_irrefl. destruct (Z.ltb_spec (bits - 2 ^ w) 0); lia.
Qed.

Lemma ulp_distance_spec w a b :
  1 < w → 0 <= a < 2 ^ w → 0 <= b < 2 ^ w →
  ulp_distance w a b = Z.abs (sign_magnitude w a - sign_magnitude w b).
Proof.
  intros Hw Ha Hb. unfold ulp_distance. rewrite !ulp_key_spec by done.
  assert (2 ^ w = 2 * 2 ^ (w - 1)) as Ew by (rewrite <-Z.pow_succ_r by lia; f_equal; lia).
  assert (∀ x, 0 <= x < 2 ^ w → - 2 ^ (w - 1) < sign_magnitude w x < 2 ^ (w - 1)) as Hr.
  { intros x Hx. unfold sign_magnitude. destruct (Z.ltb_spec x (2 ^ (w - 1))); lia. }
  pose proof (Hr a Ha). pose proof (Hr b Hb).
  destruct (Z.ltb_spec (sign_magnitude w b) (sign_magnitude w a));
    rewrite <-Zminus_mod, Z.mod_small; lia.
Qed.

(** The distance is exact: it is the number of representable values between
    the two floats on the ordered line of sign-magnitude patterns, for every pair
    of patterns and without overflow (both zeros are the same point). *)
Theorem fp_ulp_distance_exact a b (Ha : is_u64 a) (Hb : is_u64 b) :
  fp_ulp_distance a b = Z.abs (sign_magnitude 64 a - sign_magnitude 64 b) ∧
  (fp_ulp_distance a b = 0 ↔ a = b ∨ a mod 2 ^ 63 = 0 ∧ b mod 2 ^ 63 = 0).
Proof.
  unfold fp_ulp_distance. unfold is_u64 in *. rewrite ulp_distance_spec by lia. split; [done|].
  unfold sign_magnitude. change (2 ^ (64 - 1)) with (2 ^ 63).
  assert (∀ x, 0 <= x < 2 ^ 64 → x mod 2 ^ 63 = if x <? 2 ^ 63 then x else x - 2 ^ 63) as Hm.
  { intros x Hx. destruct (Z.ltb_spec x (2 ^ 63)); [apply Z.mod_small; lia|].
    rewrite <-(Z_mod_plus_full _ (-1)), Z.mod_small; lia. }
  rewrite !Hm by done.
  destruct (Z.ltb_spec a (2 ^ 63)), (Z.ltb_spec b (2 ^ 63)); lia.
Qed.

Lemma fp_ulp_distance_exact_witness :
  fp_ulp_distance 0xFFEFFFFFFFFFFFFF 0x7FEFFFFFFFFFFFFF =
    Z.abs (sign_magnitude 64 0xFFEFFFFFFFFFFFFF - sign_magnitude 64 0x7FEFFFFFFFFFFFFF) ∧
  fp_ulp_distance (2 ^ 63) 0 = 0.
Proof.
  split; [|reflexivity].
  apply (fp_ulp_distance_exact 0xFFEFFFFFFFFFFFFF 0x7FEFFFFFFFFFFFFF); unfold is_u64; lia.
Defined.
End Rng.
