(* ===== verification/Fuzz.v ===== *)
(** Coverage-guided input generation and mutation testing ([src/fuzz.c]), with
    the emulator as a parameter. *)
From S2P Require Import Prelude Rng Trace.
Import Rng Trace.

Module Fuzz.

(** [run_sig_t] *)
Record run_sig := mk_sig { sg_ok : bool; sg_faulted : bool; sg_ret : Z }.
#[export] Instance run_sig_eq_dec : EqDecision run_sig.
Proof. solve_decision. Defined.
Definition sig_eq (a b : run_sig) : bool :=
  Bool.eqb (sg_ok a) (sg_ok b) && Bool.eqb (sg_faulted a) (sg_faulted b) && (sg_ret a =? sg_ret b).

(** What the emulator does with a routine (its bytes) on an argument, within the
    instruction cap: the fill-point calls it makes on the trace, and the
    behaviour it ends with.  Both are functions of the routine and the argument,
    the premise of differential testing. *)
Class Emulator := {
  emu_events : list Z → Z → list event;
  run_sig_of : list Z → Z → run_sig;
}.

Record fuzz_stat := mk_fstat { blocks_reached : Z; corpus_len : Z; iterations : Z }.
Record mutation_stat := mk_mstat { mutants : Z; killed : Z; survived : Z }.

Section fuzz.
Context `{Emulator} (code : list Z).

(** [emu_call_traced] on the accumulated trace. *)
Definition emu_call_traced (uni : asmtest_trace) (x : Z) : asmtest_trace := run uni (emu_events code x).

(** The candidate of one iteration, with the generator afterwards. *)
Definition candidate (lo hi : Z) (corpus : list Z) (rng : Z) : Z * Z :=
  let n := Z.of_nat (length corpus) in
  let '(fresh, rng) :=
    if n =? 0 then (true, rng)
    else let '(x, rng) := asmtest_rng_u64 rng in (Z.odd x, rng) in
  if fresh then asmtest_rng_range rng lo hi
  else
    let '(i, rng) := asmtest_rng_u64 rng in
    let base := default 0 (corpus !! Z.to_nat (i mod n)) in
    let '(c, rng) := asmtest_rng_u64 rng in
    let '(x, rng) :=
      if Z.odd c then
        let '(k, rng) := asmtest_rng_u64 rng in (Z.lxor base (Z.shiftl 1 (k mod 62)), rng)
      else
        let '(d, rng) := asmtest_rng_range rng (-4) 4 in (to_long (u64 base +64 u64 d), rng) in
    let x := if x <? lo then lo else x in
    (if hi <? x then hi else x, rng).

(** The corpus, the trace and the generator. *)
Record fstate := mk_fstate { f_corpus : list Z; f_uni : asmtest_trace; f_rng : Z }.

Definition fuzz_step (lo hi : Z) (st : fstate) : fstate :=
  let '(x, rng) := candidate lo hi (f_corpus st) (f_rng st) in
  let uni := emu_call_traced (f_uni st) x in
  mk_fstate (if (blocks_len (f_uni st) <? blocks_len uni)%nat then f_corpus st ++ [x] else f_corpus st)
    uni rng.

(** The corpus handed to the handle, the accumulated trace and the statistics;
    [None] is the [false] return. *)
Definition emu_fuzz_cover1 (grant : allocator) (lo hi : Z) (iters : nat) (seed : Z)
    (uni : asmtest_trace) : option (list Z * asmtest_trace * fuzz_stat) :=
  match blocks uni with
  | None => None
  | Some _ =>
      if hi <? lo then None
      else if negb (grant ((if (iters =? 0)%nat then 1 else Z.of_nat iters) *64 8)) then None
      else
        let st := Nat.iter iters (fuzz_step lo hi) (mk_fstate [] uni seed) in
        Some (f_corpus st, f_uni st,
              mk_fstat (Z.of_nat (blocks_len (f_uni st))) (Z.of_nat (length (f_corpus st)))
                (Z.of_nat iters))
  end.

(** ** Mutation testing *)
(** [mut[bit / 8] ^= 1 << (bit % 8)] *)
Definition flip (bit : Z) : list Z :=
  alter (λ b, Z.lxor b (Z.shiftl 1 (bit mod 8))) (Z.to_nat (bit / 8)) code.

Definition distinguished (inputs : list Z) (mut : list Z) : bool :=
  existsb (λ x, negb (sig_eq (run_sig_of mut x) (run_sig_of code x))) inputs.

(** The bits flipped: all of them, or a seeded sample. *)
Fixpoint sample (n : nat) (total rng : Z) : list Z :=
  match n with
  | O => []
  | S n => let '(x, rng) := asmtest_rng_u64 rng in x mod total :: sample n total rng
  end.
Definition bits (total want seed : Z) : list Z :=
  if want =? total then Z.of_nat <$> seq 0 (Z.to_nat total) else sample (Z.to_nat want) total seed.

Definition mutate_step (inputs : list Z) (st : Z * Z) (bit : Z) : Z * Z :=
  let '(k, s) := st in
  if distinguished inputs (flip bit) then (k + 1, s) else (k, s + 1).

(** The return value and the statistics; [None] when the run is refused (the
    source returns 0 and leaves the statistics). *)
Definition emu_mutation_test1 (grant : allocator) (inputs : list Z) (max_mutants seed : Z) :
    option (Z * mutation_stat) :=
  match inputs, code with
  | [], _ | _, [] => None
  | _, _ =>
      if negb (grant (Z.of_nat (length inputs) *64 16)) || negb (grant (Z.of_nat (length code))) then None
      else
        let total := Z.of_nat (length code) *64 8 in
        let want := if (max_mutants =? 0) || (total <? max_mutants) then total else max_mutants in
        let '(k, s) := foldl (mutate_step inputs) (0, 0) (bits total want seed) in
        Some (s, mk_mstat want k s)
  end.

(** ** Extraction for external engines *)
Definition emu_cover_hits (events : list event) (cap : nat) (buf : list Z) : Z :=
  Z.of_nat (blocks_len (run (mk_trace None 0 0 0 (Some buf) cap 0 0 false) events)).

(** ** The block side of a trace *)
(** What later block entries depend on. *)
Definition bview (t : asmtest_trace) : option (list Z) * nat * nat := (blocks t, blocks_cap t, blocks_len t).

Lemma feed_bview t t' e : bview t = bview t' → bview (feed t e) = bview (feed t' e).
Proof.
  unfold bview. intros [= E1 E2 E3]. destruct e; simpl; unfold append_insn, append_block.
  - destruct (insns t), (insns t'); repeat (destruct (_ <? _)%nat); simpl; congruence.
  - rewrite E1, E2, E3. destruct (blocks t') as [buf|]; [|simpl; congruence].
    destruct (scan _ _ _); [simpl; congruence|]. destruct (_ <? _)%nat; simpl; congruence.
Qed.

Lemma run_bview t t' es : bview t = bview t' → bview (run t es) = bview (run t' es).
Proof.
  revert t t'. induction es as [|e es IH]; intros t t' Ht; [done|]. simpl. by apply IH, feed_bview.
Qed.

(** A fill-point call leaves the blocks alone or adds one. *)
Lemma feed_grows t e : bview (feed t e) = bview t ∨ (blocks_len t < blocks_len (feed t e))%nat.
Proof.
  unfold bview. destruct e; simpl; unfold append_insn, append_block.
  - destruct (insns t); [destruct (_ <? _)%nat|]; by left.
  - destruct (blocks t) as [buf|] eqn:E; [|left; simpl; congruence].
    destruct (scan _ _ _); [left; simpl; congruence|].
    destruct (_ <? _)%nat; simpl; [right; lia|left; congruence].
Qed.

Lemma run_grows t es : bview (run t es) = bview t ∨ (blocks_len t < blocks_len (run t es))%nat.
Proof.
  revert t. induction es as [|e es IH]; intros t; [by left|]. simpl.
  destruct (feed_grows t e) as [E|Hlt]; destruct (IH (feed t e)) as [E'|Hlt'].
  - left. congruence.
  - right. unfold bview in E. injection E as _ _ E. lia.
  - right. unfold bview in E'. injection E' as _ _ E'. lia.
  - right. lia.
Qed.

(** ** The corpus *)
Lemma clamp_in lo hi x :
  lo <= hi → let y := if x <? lo then lo else x in lo <= (if hi <? y then hi else y) <= hi.
Proof. intros Hle y. subst y. destruct (Z.ltb_spec x lo), (Z.ltb_spec hi lo), (Z.ltb_spec hi x); lia. Qed.

(** A candidate is in range, and drawing it leaves the generator in range. *)
Lemma candidate_spec lo hi corpus rng :
  is_long lo → is_long hi → lo <= hi → is_u64 rng →
  let '(x, rng') := candidate lo hi corpus rng in lo <= x <= hi ∧ is_u64 rng'.
Proof.
  intros Hlo Hhi Hle Hr. unfold candidate.
  assert (∀ s, is_u64 s → let '(x, s') := asmtest_rng_range s lo hi in lo <= x <= hi ∧ is_u64 s') as Hdraw.
  { intros s Hs. pose proof (range_in lo hi s Hlo Hhi Hs). pose proof (range_state s lo hi Hs).
    destruct (asmtest_rng_range s lo hi). simpl in *. split; [lia|done]. }
  destruct (Z.of_nat (length corpus) =? 0); [by apply Hdraw|].
  unfold asmtest_rng_u64. destruct (Z.odd (mix (rng +64 GAMMA))); [apply Hdraw, u64_range|].
  set (s := rng +64 GAMMA +64 GAMMA +64 GAMMA). destruct (Z.odd (mix s)).
  - split; [by apply clamp_in|apply u64_range].
  - pose proof (range_state s (-4) 4 (u64_range _)). destruct (asmtest_rng_range s (-4) 4) as [d s'].
    split; [by apply clamp_in|done].
Qed.

(** Replaying inputs on a trace. *)
Definition replay (uni : asmtest_trace) (xs : list Z) : asmtest_trace := foldl emu_call_traced uni xs.

Record fuzz_inv (lo hi : Z) (uni : asmtest_trace) (n : nat) (st : fstate) : Prop := {
  fi_range : Forall (λ x, lo <= x <= hi) (f_corpus st);
  fi_rng : is_u64 (f_rng st);
  fi_replay : bview (replay uni (f_corpus st)) = bview (f_uni st);
  fi_len : (length (f_corpus st) <= n)%nat;
  fi_new : (length (f_corpus st) + blocks_len uni <= blocks_len (f_uni st))%nat;
}.

Lemma fuzz_step_inv lo hi uni n st :
  is_long lo → is_long hi → lo <= hi →
  fuzz_inv lo hi uni n st → fuzz_inv lo hi uni (S n) (fuzz_step lo hi st).
Proof.
  intros Hlo Hhi Hle [H1 H2 H3 H4 H5]. unfold fuzz_step.
  pose proof (candidate_spec lo hi (f_corpus st) (f_rng st) Hlo Hhi Hle H2) as Hc.
  destruct (candidate _ _ _ _) as [x rng]. destruct Hc as [Hx Hr].
  destruct (run_grows (f_uni st) (emu_events code x)) as [E|Hlt].
  - assert (blocks_len (emu_call_traced (f_uni st) x) = blocks_len (f_uni st)) as El
      by (unfold bview in E; by injection E).
    rewrite El, Nat.ltb_irrefl. split; simpl; try done; [|lia|by rewrite El].
    rewrite H3. by symmetry.
  - fold (emu_call_traced (f_uni st) x) in Hlt. rewrite (proj2 (Nat.ltb_lt _ _) Hlt). split; simpl; try done.
    + apply Forall_app. auto.
    + unfold replay. rewrite foldl_app. simpl. by apply run_bview.
    + rewrite length_app. simpl. lia.
    + rewrite length_app. simpl. lia.
Qed.

Lemma fuzz_run_inv lo hi uni n seed :
  is_long lo → is_long hi → lo <= hi → is_u64 seed →
  fuzz_inv lo hi uni n (Nat.iter n (fuzz_step lo hi) (mk_fstate [] uni seed)).
Proof.
  intros. induction n as [|n IH]; [by split|]. simpl. by apply fuzz_step_inv.
Qed.

(** ** Mutants *)
Lemma sig_eq_spec a b : sig_eq a b = true ↔ a = b.
Proof.
  destruct a, b. unfold sig_eq. simpl. rewrite !andb_true_iff, !Bool.eqb_true_iff, Z.eqb_eq. naive_solver.
Qed.

Lemma distinguished_spec inputs mut :
  distinguished inputs mut = false ↔ Forall (λ x, run_sig_of mut x = run_sig_of code x) inputs.
Proof.
  unfold distinguished. rewrite Forall_forall, <-not_true_iff_false, existsb_exists.
  setoid_rewrite negb_true_iff. setoid_rewrite <-list_elem_of_In. split.
  - intros Hn x Hx. apply sig_eq_spec. destruct (sig_eq _ _) eqn:E; [done|]. exfalso. eauto.
  - intros Ha (x & Hx & E). rewrite (proj2 (sig_eq_spec _ _) (Ha x Hx)) in E. done.
Qed.

Lemma mutate_spec inputs bs k s :
  foldl (mutate_step inputs) (k, s) bs =
  (k + Z.of_nat (length (filter (λ b, distinguished inputs (flip b) = true) bs)),
   s + Z.of_nat (length (filter (λ b, distinguished inputs (flip b) = false) bs))).
Proof.
  revert k s. induction bs as [|b bs IH]; intros k s; [simpl; f_equal; lia|]. cbn [foldl].
  unfold mutate_step at 2. rewrite !filter_cons.
  destruct (distinguished inputs (flip b)); rewrite IH; simpl; f_equal; lia.
Qed.

Lemma sample_spec n total rng :
  0 < total → length (sample n total rng) = n ∧ Forall (λ b, 0 <= b < total) (sample n total rng).
Proof.
  intros Ht. revert rng. induction n as [|n IH]; intros rng; [by split|]. simpl.
  destruct (IH (rng +64 GAMMA)) as [-> ?]. split; [done|]. constructor; [by apply Z.mod_pos_bound|done].
Qed.

(** The corpus stands for the whole campaign.  A run that is not refused
    tries every iteration; the inputs it keeps are in the range asked for, at most
    one per iteration and one per new block; and replaying them alone, in order,
    on the trace the campaign started from reaches exactly the blocks the whole
    campaign reached, in the same order. *)
Theorem fuzz_corpus_reproduces grant lo hi iters seed uni corpus uni' stat
    (Hlo : is_long lo) (Hhi : is_long hi) (Hs : is_u64 seed)
    (Hrun : emu_fuzz_cover1 grant lo hi iters seed uni = Some (corpus, uni', stat)) :
  Forall (λ x, lo <= x <= hi) corpus ∧
  stored_blocks (replay uni corpus) = stored_blocks uni' ∧
  (length corpus <= iters)%nat ∧ (length corpus + blocks_len uni <= blocks_len uni')%nat ∧
  stat = mk_fstat (Z.of_nat (blocks_len uni')) (Z.of_nat (length corpus)) (Z.of_nat iters).
Proof.
  unfold emu_fuzz_cover1 in Hrun. destruct (blocks uni); [|done].
  destruct (Z.ltb_spec hi lo); [done|]. destruct (grant _); [|done]. simpl in Hrun.
  injection Hrun as <- <- <-. destruct (fuzz_run_inv lo hi uni iters seed) as [H1 H2 H3 H4 H5]; try done.
  split_and!; try done. unfold stored_blocks. unfold bview in H3. injection H3 as E1 E2 E3. by rewrite E1, E3.
Qed.

Lemma mutation_run grant inputs max_mutants seed r stat :
  Z.of_nat (length code) * 8 < 2 ^ 64 →
  emu_mutation_test1 grant inputs max_mutants seed = Some (r, stat) →
  let total := Z.of_nat (length code) * 8 in
  let want := if (max_mutants =? 0) || (total <? max_mutants) then total else max_mutants in
  let '(k, s) := foldl (mutate_step inputs) (0, 0) (bits total want seed) in
  0 < total ∧ r = s ∧ stat = mk_mstat want k s.
Proof.
  intros Hsize. unfold emu_mutation_test1. destruct inputs as [|i0 inputs']; [done|].
  assert (code ≠ [] → (0 < length code)%nat) as Hpos by (destruct code; [done|simpl; lia]).
  intros E. assert (code ≠ []) as Hne by (intros Ec; rewrite Ec in E; done).
  match type of E with match ?c with _ => _ end = _ => destruct c; [done|] end.
  destruct (_ || _); [done|]. rewrite u64_small in E by (specialize (Hpos Hne); lia).
  cbv zeta in *. destruct (foldl _ _ _) as [k s]. injection E as <- <-.
  split_and!; [specialize (Hpos Hne); lia|done..].
Qed.

Lemma bits_spec total want seed :
  0 < total → 0 <= want <= total →
  Z.of_nat (length (bits total want seed)) = want ∧ Forall (λ b, 0 <= b < total) (bits total want seed).
Proof.
  intros Ht Hw. unfold bits. destruct (Z.eqb_spec want total) as [->|].
  - rewrite length_fmap, length_seq. split; [lia|]. apply Forall_fmap, Forall_forall. intros i Hi%elem_of_seq.
    simpl. lia.
  - destruct (sample_spec (Z.to_nat want) total seed Ht) as [-> ?]. split; [lia|done].
Qed.

Lemma bits_all total seed b : 0 <= b < total → b ∈ bits total total seed.
Proof.
  intros Hb. unfold bits. rewrite Z.eqb_refl. apply list_elem_of_fmap. exists (Z.to_nat b).
  split; [lia|]. apply elem_of_seq. lia.
Qed.

(** The mutation score is exact.  Every mutant run flips one bit of the
    routine and is counted once; a mutant survives exactly when the routine and
    the mutant behave alike on every input; and without a cap every bit of the
    routine is tried, so no survivor means that the inputs tell the routine from
    each of its single-bit mutants. *)
Theorem mutation_score_exact grant inputs max_mutants seed r stat
    (Hsize : Z.of_nat (length code) * 8 < 2 ^ 64) (Hmax : 0 <= max_mutants)
    (Hrun : emu_mutation_test1 grant inputs max_mutants seed = Some (r, stat)) :
  let total := Z.of_nat (length code) * 8 in
  let bs := bits total (mutants stat) seed in
  r = survived stat ∧ killed stat + survived stat = mutants stat ∧
  mutants stat = (if decide (max_mutants = 0 ∨ total < max_mutants) then total else max_mutants) ∧
  Z.of_nat (length bs) = mutants stat ∧ Forall (λ b, 0 <= b < total) bs ∧
  survived stat =
    Z.of_nat (length (filter (λ b, Forall (λ x, run_sig_of (flip b) x = run_sig_of code x) inputs) bs)) ∧
  (max_mutants = 0 → survived stat = 0 →
   ∀ b, 0 <= b < total → ∃ x, x ∈ inputs ∧ run_sig_of (flip b) x ≠ run_sig_of code x).
Proof.
  pose proof (mutation_run grant inputs max_mutants seed r stat Hsize Hrun) as Hm.
  cbv zeta in Hm |- *. rewrite mutate_spec in Hm. destruct Hm as (Ht & -> & ->). simpl.
  set (total := Z.of_nat (length code) * 8) in *. set (want := if _ || _ then _ else _) in *.
  assert (want = if decide (max_mutants = 0 ∨ total < max_mutants) then total else max_mutants) as Ew.
  { unfold want. destruct (Z.eqb_spec max_mutants 0), (Z.ltb_spec total max_mutants), (decide _); simpl; lia. }
  destruct (bits_spec total want seed Ht) as [Hl Hf]; [rewrite Ew; case_decide; lia|].
  pose proof (length_filter_flag (λ b, distinguished inputs (flip b)) (bits total want seed)) as Hc.
  split_and!; [done|lia|done..| |].
  - rewrite Z.add_0_l. do 2 f_equal. apply list_filter_iff. intros b. apply distinguished_spec.
  - intros E0 Es b Hb. assert (want = total) as Ewt by (rewrite Ew, decide_True; auto).
    rewrite Ewt in Es. destruct (distinguished inputs (flip b)) eqn:Ed.
    + apply Exists_exists. apply not_Forall_Exists; [intros ?; apply _|].
      rewrite <-distinguished_spec. congruence.
    + exfalso. assert (b ∈ filter (λ b, distinguished inputs (flip b) = false) (bits total total seed)) as Hin
        by (apply list_elem_of_filter; split; [done|by apply bits_all]).
      destruct (filter (λ b, distinguished inputs (flip b) = false) (bits total total seed));
        [by apply not_elem_of_nil in Hin|simpl in Es; lia].
Qed.
End fuzz.

(** ** Witnesses *)
(** A routine whose argument's sign decides the branch it takes; its result
    depends on every bit of its bytes. *)
Definition demo_emulator : Emulator := {|
  emu_events code x := if 0 <=? x then [EBlock 0; EInsn 0; EBlock 4] else [EBlock 0; EInsn 0; EBlock 9];
  run_sig_of code x := mk_sig true false (u64 (x + foldr Z.add 0 code));
|}.

Lemma fuzz_corpus_reproduces_witness :
  let t := mk_trace None 0 0 0 (Some (replicate 4 0)) 4 0 0 false in
  ∃ corpus uni' stat,
    @emu_fuzz_cover1 demo_emulator [] (λ _, true) (-8) 8 6 3 t = Some (corpus, uni', stat) ∧
    stored_blocks uni' = [0; 9; 4] ∧ length corpus = 2%nat ∧
    stored_blocks (@replay demo_emulator [] t corpus) = stored_blocks uni'.
Proof.
  eexists _, _, _. split; [vm_compute; reflexivity|]. split; [reflexivity|]. split; [reflexivity|].
  eapply (@fuzz_corpus_reproduces demo_emulator [] (λ _, true) (-8) 8 6 3); [done..|vm_compute; reflexivity].
Defined.

Lemma mutation_score_exact_witness :
  ∃ r stat, @emu_mutation_test1 demo_emulator [1; 2] (λ _, true) [5] 0 0 = Some (r, stat) ∧
    killed stat + survived stat = 16 ∧ survived stat = 0 ∧
    ∃ x, x ∈ [5] ∧ @run_sig_of demo_emulator (flip [1; 2] 9) x ≠ @run_sig_of demo_emulator [1; 2] x.
Proof.
  eexists _, _. split; [vm_compute; reflexivity|]. split; [reflexivity|]. split; [reflexivity|].
  eapply (@mutation_score_exact demo_emulator [1; 2] (λ _, true) [5] 0 0); try done;
    vm_compute; reflexivity.
Defined.
End Fuzz.
