(* ===== verification/MatchRef.v ===== *)
(** Differential testing against a reference model ([match_ref_*] of
    [src/asmtest.c]): the trial loop and the shrinker. *)
From S2P Require Import Prelude Rng.
Import Rng.

Module MatchRef.

Section match_ref.
(** The routine under test, called through the capture trampoline, and the
    reference model: both take the argument tuple to a [long]. *)
Context (fn ref : list Z → Z).

(** The verdict with [*got] and [*want]. *)
Definition match_ref_diverges (a : list Z) : bool * Z * Z :=
  let expected := ref a in
  let got := fn a in
  (negb (got =? expected), got, expected).
Definition diverges (a : list Z) : bool := (match_ref_diverges a).1.1.

Definition cand : list Z := [0; 1; -1; LONG_MAX; LONG_MIN].

(** The candidate loop: the first one, other than the value kept, that still
    diverges. *)
Fixpoint try_cands (cs : list Z) (a : list Z) (i : nat) (keep : Z) : option (list Z) :=
  match cs with
  | [] => None
  | c :: cs =>
      if c =? keep then try_cands cs a i keep
      else if diverges (<[i := c]> a) then Some (<[i := c]> a)
      else try_cands cs a i keep
  end.

(** [while (a[i] != 0)]; [None] when the fuel runs out.  C division truncates
    toward zero. *)
Fixpoint halve (fuel : nat) (a : list Z) (i : nat) (x : Z) : option (list Z) :=
  match fuel with
  | O => None
  | S fuel =>
      if x =? 0 then Some (<[i := x]> a)
      else
        let y := Z.quot x 2 in
        if diverges (<[i := y]> a) then halve fuel a i y else Some (<[i := x]> a)
  end.

Definition shrink_at (a : list Z) (i : nat) : option (list Z) :=
  let keep := default 0 (a !! i) in
  match try_cands cand a i keep with
  | Some a' => Some a'
  | None => halve 65 a i keep
  end.

Fixpoint shrink_from (is_ : list nat) (a : list Z) : option (list Z) :=
  match is_ with
  | [] => Some a
  | i :: is_ => match shrink_at a i with Some a' => shrink_from is_ a' | None => None end
  end.
Definition match_ref_shrink (arity : nat) (a : list Z) : option (list Z) :=
  shrink_from (seq 0 arity) a.

(** ** The shrinker *)
(** A value the shrinker may leave in place of [x]. *)
Definition reduced (x y : Z) : Prop := y ∈ cand ∨ ∃ k, 0 <= k ∧ y = Z.quot x (2 ^ k).

Lemma reduced_refl x : reduced x x.
Proof. right. exists 0. by rewrite Z.quot_1_r. Qed.

Lemma quot_quot2 x k : 0 <= k → Z.quot (Z.quot x 2) (2 ^ k) = Z.quot x (2 ^ (k + 1)).
Proof.
  intros. rewrite Z.quot_quot by (try lia; apply Z.pow_nonzero; lia).
  f_equal. rewrite Z.pow_add_r by lia. lia.
Qed.

Lemma quot_toward_zero x p :
  0 < p → (0 <= x → 0 <= Z.quot x p <= x) ∧ (x <= 0 → x <= Z.quot x p <= 0).
Proof.
  intros Hp. split; intros Hx.
  - rewrite Z.quot_div_nonneg by lia. split; [apply Z.div_pos; lia|].
    apply Z.div_le_upper_bound; nia.
  - replace x with (- - x) by lia. rewrite Z.quot_opp_l, Z.quot_div_nonneg by lia.
    assert (0 <= - x / p) by (apply Z.div_pos; lia).
    assert (- x / p <= - x) by (apply Z.div_le_upper_bound; nia). lia.
Qed.

Lemma cand_long c : c ∈ cand → is_long c.
Proof.
  unfold cand, is_long, LONG_MIN, LONG_MAX. rewrite !elem_of_cons, elem_of_nil.
  intros [->|[->|[->|[->|[->|[]]]]]]; lia.
Qed.

Lemma try_cands_spec cs a i keep a' :
  try_cands cs a i keep = Some a' →
  ∃ c, c ∈ cs ∧ a' = <[i := c]> a ∧ diverges a' = true.
Proof.
  induction cs as [|c cs IH]; simpl; [done|].
  destruct (c =? keep); [intros H; destruct (IH H) as (c' & ? & ?); exists c'; set_solver|].
  destruct (diverges (<[i := c]> a)) eqn:E; [intros [= <-]; exists c; set_solver|].
  intros H. destruct (IH H) as (c' & ? & ?). exists c'. set_solver.
Qed.

Lemma halve_spec fuel a i x :
  diverges (<[i := x]> a) = true → Z.abs x < 2 ^ (Z.of_nat fuel - 1) → (0 < fuel)%nat →
  ∃ k, 0 <= k ∧ halve fuel a i x = Some (<[i := Z.quot x (2 ^ k)]> a) ∧
       diverges (<[i := Z.quot x (2 ^ k)]> a) = true.
Proof.
  revert x. induction fuel as [|fuel IH]; intros x Hd Hx Hf; [lia|]. cbn [halve].
  destruct (Z.eqb_spec x 0) as [->|Hne].
  { exists 0. simpl. rewrite Z.quot_0_l by done. done. }
  destruct (diverges (<[i := Z.quot x 2]> a)) eqn:E.
  - destruct fuel as [|fuel]; [simpl in Hx; lia|].
    destruct (IH (Z.quot x 2) E) as (k & Hk & Hh & Hdk); [|lia|].
    { assert (2 ^ (Z.of_nat (S (S fuel)) - 1) = 2 * 2 ^ (Z.of_nat (S fuel) - 1)) as Ep
        by (rewrite <-Z.pow_succ_r by lia; f_equal; lia).
      rewrite Ep in Hx. dlia. }
    exists (k + 1). rewrite <-quot_quot2 by done. split; [lia|done].
  - exists 0. simpl. rewrite Z.quot_1_r. done.
Qed.

(** One position: the tuple still diverges, and only that entry changed. *)
Lemma shrink_at_spec a i x :
  diverges a = true → a !! i = Some x → is_long x →
  ∃ y, shrink_at a i = Some (<[i := y]> a) ∧ diverges (<[i := y]> a) = true ∧
       reduced x y ∧ is_long y.
Proof.
  intros Hd Hi Hx. unfold shrink_at. rewrite Hi. simpl default.
  destruct (try_cands cand a i x) as [a'|] eqn:E.
  - apply try_cands_spec in E as (c & Hc & -> & Hd'). exists c. split_and!; [done..|by left|].
    by apply cand_long.
  - destruct (halve_spec 65 a i x) as (k & Hk & -> & Hd').
    + by rewrite list_insert_id.
    + unfold is_long, LONG_MIN, LONG_MAX in Hx. change (Z.of_nat 65 - 1) with 64. lia.
    + lia.
    + exists (Z.quot x (2 ^ k)). split; [done|]. split; [done|]. split; [right; by exists k|].
      assert (0 < 2 ^ k) by (apply Z.pow_pos_nonneg; lia).
      pose proof (quot_toward_zero x (2 ^ k)). unfold is_long, LONG_MIN, LONG_MAX in *. lia.
Qed.

Lemma shrink_from_spec k n a :
  diverges a = true → Forall is_long a → (k + n <= length a)%nat →
  ∃ a', shrink_from (seq k n) a = Some a' ∧ diverges a' = true ∧ Forall is_long a' ∧
    length a' = length a ∧
    ∀ i x y, a !! i = Some x → a' !! i = Some y →
      if decide (k <= i < k + n)%nat then reduced x y else y = x.
Proof.
  revert k a. induction n as [|n IH]; intros k a Hd Hl Hk.
  { exists a. split_and!; [done..|]. intros i x y Hx Hy. rewrite decide_False by lia. congruence. }
  destruct (lookup_lt_is_Some_2 a k) as [x0 Hx0]; [lia|]. rewrite Forall_lookup in Hl.
  destruct (shrink_at_spec a k x0 Hd Hx0 (Hl k x0 Hx0)) as (y0 & Hs & Hd0 & Hr0 & Hl0).
  cbn [seq shrink_from]. rewrite Hs.
  destruct (IH (S k) (<[k := y0]> a) Hd0) as (a' & Ha' & Hd' & Hl' & Hlen & Hpos).
  { apply Forall_lookup. intros i x Hi. apply list_lookup_insert_Some in Hi as [(<- & <- & _)|[_ Hi]]; eauto. }
  { rewrite length_insert. lia. }
  rewrite length_insert in Hlen. exists a'. split_and!; [done..|].
  intros i x y Hx Hy. destruct (decide (i = k)) as [->|Hne].
  - specialize (Hpos k y0 y). rewrite list_lookup_insert_eq in Hpos by lia.
    specialize (Hpos eq_refl Hy). rewrite decide_False in Hpos by lia.
    rewrite decide_True by lia. congruence.
  - specialize (Hpos i x y). rewrite list_lookup_insert_ne in Hpos by done.
    specialize (Hpos Hx Hy). repeat case_decide; try done; lia.
Qed.

Lemma shrink_spec arity a :
  diverges a = true → Forall is_long a → length a = arity →
  ∃ a', match_ref_shrink arity a = Some a' ∧ diverges a' = true ∧ Forall2 reduced a a' ∧
        Forall is_long a'.
Proof.
  intros Hd Hl <-. destruct (shrink_from_spec 0 (length a) a Hd Hl ltac:(done))
    as (a' & Ha' & Hd' & Hl' & Hlen & Hpos).
  exists a'. split_and!; [done..| |done]. apply Forall2_same_length_lookup. split; [done|].
  intros i x y Hx Hy. specialize (Hpos i x y Hx Hy).
  rewrite decide_True in Hpos; [done|]. apply lookup_lt_Some in Hx. lia.
Qed.
End match_ref.

(** Shrinking keeps the counterexample.  From a tuple on which the routine
    and the model disagree the shrinker always ends (within 65 halvings per
    position) with a tuple on which they still disagree, each entry being one of
    the five boundary values or the original halved towards zero. *)
Theorem shrink_keeps_counterexample fn ref arity a
    (Hd : diverges fn ref a = true) (Hl : Forall is_long a) (Har : length a = arity) :
  ∃ a', match_ref_shrink fn ref arity a = Some a' ∧ diverges fn ref a' = true ∧
        Forall2 reduced a a' ∧ Forall is_long a'.
Proof. by apply shrink_spec. Qed.

Lemma shrink_keeps_counterexample_witness :
  let fn a := default 0 (a !! 0%nat) in
  let ref a := if 100 <? default 0 (a !! 0%nat) then 0 else default 0 (a !! 0%nat) in
  diverges fn ref [1000; 7] = true ∧
  (∃ a', match_ref_shrink fn ref 2 [1000; 7] = Some a' ∧ diverges fn ref a' = true ∧
         Forall2 reduced [1000; 7] a' ∧ Forall is_long a') ∧
  match_ref_shrink fn ref 2 [1000; 7] = Some [LONG_MAX; 0].
Proof.
  cbv zeta. split; [reflexivity|]. split; [|vm_compute; reflexivity].
  apply shrink_keeps_counterexample; [reflexivity| |reflexivity].
  repeat constructor; vm_compute; congruence.
Defined.

(** What a run ends with: nothing to report, a generator of the wrong arity,
    or a divergence with the shrunk tuple when it differs. *)
Inductive verdict :=
  | Pass
  | BadArity (n : Z)
  | Diverges (trial : nat) (a : list Z) (got want : Z) (shrunk : option (list Z * Z * Z)).

Section run.
Context (fn ref : list Z → Z).

(** The generator: the arity it returns, the tuple and the generator state. *)
Context (gen : Z → Z * list Z * Z).

Fixpoint trials_from (t todo : nat) (rng : Z) (arity : nat) : option verdict :=
  match todo with
  | O => Some Pass
  | S todo =>
      let '(n, a, rng) := gen rng in
      if negb (n =? Z.of_nat arity) then Some (BadArity n)
      else
        let '(d, got, want) := match_ref_diverges fn ref a in
        if negb d then trials_from (S t) todo rng arity
        else
          match match_ref_shrink fn ref arity a with
          | None => None
          | Some s =>
              let shrunk :=
                if bool_decide (s = a) then None
                else let '(_, sg, sw) := match_ref_diverges fn ref s in Some (s, sg, sw) in
              Some (Diverges t a got want shrunk)
          end
  end.
Definition match_ref_run (seed : Z) (trials : nat) (arity : nat) : option verdict :=
  trials_from 0 trials seed arity.
End run.

(** ** The run *)
(** The tuple of a trial and the state the generator has then. *)
Fixpoint rng_at (gen : Z → Z * list Z * Z) (t : nat) (seed : Z) : Z :=
  match t with O => seed | S t => (gen (rng_at gen t seed)).2 end.
Definition arity_at gen t seed : Z := (gen (rng_at gen t seed)).1.1.
Definition tuple_at gen t seed : list Z := (gen (rng_at gen t seed)).1.2.

(** What a verdict asserts about the trials. *)
Definition verdict_ok (fn ref : list Z → Z) gen seed (trials arity : nat) (v : verdict) : Prop :=
  let agrees t := arity_at gen t seed = Z.of_nat arity ∧ diverges fn ref (tuple_at gen t seed) = false in
  match v with
  | Pass => ∀ t, (t < trials)%nat → agrees t
  | BadArity n => n ≠ Z.of_nat arity ∧
      ∃ t, (t < trials)%nat ∧ arity_at gen t seed = n ∧ ∀ t', (t' < t)%nat → agrees t'
  | Diverges t a got want shrunk =>
      (t < trials)%nat ∧ (∀ t', (t' < t)%nat → agrees t') ∧ a = tuple_at gen t seed ∧
      got = fn a ∧ want = ref a ∧ got ≠ want ∧
      match shrunk with
      | Some (s, sg, sw) => sg = fn s ∧ sw = ref s ∧ sg ≠ sw ∧ Forall2 reduced a s
      | None => True
      end
  end.

Lemma trials_from_spec fn ref gen seed trials arity t todo :
  (∀ r, Forall is_long (gen r).1.2 ∧ ((gen r).1.1 = Z.of_nat arity → length (gen r).1.2 = arity)) →
  (t + todo = trials)%nat →
  (∀ t', (t' < t)%nat → arity_at gen t' seed = Z.of_nat arity ∧
                        diverges fn ref (tuple_at gen t' seed) = false) →
  ∃ v, trials_from fn ref gen t todo (rng_at gen t seed) arity = Some v ∧
       verdict_ok fn ref gen seed trials arity v.
Proof.
  intros Hgen. revert t. induction todo as [|todo IH]; intros t Ht Hprev.
  { exists Pass. split; [done|]. intros t' Ht'. apply Hprev. lia. }
  cbn [trials_from]. destruct (gen (rng_at gen t seed)) as [[n a] r'] eqn:Eg.
  assert (arity_at gen t seed = n) as En by (unfold arity_at; by rewrite Eg).
  assert (tuple_at gen t seed = a) as Ea by (unfold tuple_at; by rewrite Eg).
  destruct (Hgen (rng_at gen t seed)) as [Hl Hlen]. rewrite Eg in Hl, Hlen. simpl in Hl, Hlen.
  destruct (Z.eqb_spec n (Z.of_nat arity)) as [E|E]; simpl negb; cbv iota; cycle 1.
  { exists (BadArity n). split; [done|]. split; [done|]. exists t. split_and!; [lia|done|done]. }
  assert (match_ref_diverges fn ref a = (diverges fn ref a, fn a, ref a)) as -> by done.
  destruct (diverges fn ref a) eqn:Ed; simpl negb; cbv iota; cycle 1.
  { replace r' with (rng_at gen (S t) seed) by (simpl; by rewrite Eg).
    apply IH; [lia|]. intros t' Ht'. destruct (decide (t' = t)) as [->|]; [|apply Hprev; lia].
    rewrite En, Ea. done. }
  destruct (shrink_spec fn ref arity a Ed Hl (Hlen E)) as (s & -> & Hds & Hred & _).
  assert (∀ b, diverges fn ref b = true → fn b ≠ ref b) as Hne.
  { intros b Hb. unfold diverges, match_ref_diverges in Hb. simpl in Hb.
    apply negb_true_iff, Z.eqb_neq in Hb. done. }
  eexists. split; [done|]. unfold verdict_ok.
  split_and!; [lia|done|done|done|done|by apply Hne|].
  case_bool_decide; [done|]. simpl. split_and!; [done|done|by apply Hne|done].
Qed.

(** The verdict of a differential run is right.  The run always ends; it
    passes exactly when every trial's tuple has the arity and agrees with the
    model; a divergence reported is the first one, with the values both sides
    gave, and the shrunk tuple reported with it really diverges, with the values
    reported. *)
Theorem match_ref_run_correct fn ref gen seed trials arity
    (Hgen : ∀ r, Forall is_long (gen r).1.2 ∧
                 ((gen r).1.1 = Z.of_nat arity → length (gen r).1.2 = arity)) :
  ∃ v, match_ref_run fn ref gen seed trials arity = Some v ∧
       verdict_ok fn ref gen seed trials arity v ∧
       (v = Pass ↔ ∀ t, (t < trials)%nat →
          arity_at gen t seed = Z.of_nat arity ∧ diverges fn ref (tuple_at gen t seed) = false).
Proof.
  destruct (trials_from_spec fn ref gen seed trials arity 0 trials Hgen) as (v & Hv & Hok);
    [done|lia|].
  exists v. split_and!; [done|done|]. split; [by intros ->|]. intros Hall. destruct v as [|n|t a g w s]; [done|..].
  - destruct Hok as (Hn & t & Ht & <- & _). by destruct (Hall t Ht).
  - destruct Hok as (Ht & _ & -> & -> & -> & Hne & _). destruct (Hall t Ht) as [_ Hd].
    unfold diverges, match_ref_diverges in Hd. simpl in Hd.
    apply negb_false_iff, Z.eqb_eq in Hd. done.
Qed.

Lemma match_ref_run_correct_witness :
  let fn a := default 0 (a !! 0%nat) in
  let ref a := if default 0 (a !! 0%nat) =? 5 then 0 else default 0 (a !! 0%nat) in
  let gen s := let '(x, s) := asmtest_rng_range s 0 7 in (1, [x], s) in
  (∃ v, match_ref_run fn ref gen 1 20 1 = Some v ∧ verdict_ok fn ref gen 1 20 1 v) ∧
  match_ref_run fn ref gen 1 20 1 = Some (Diverges 6 [5] 5 0 None).
Proof.
  cbv zeta. split; [|vm_compute; reflexivity].
  match goal with |- ∃ v, match_ref_run ?fn ?ref ?gen _ _ _ = _ ∧ _ =>
    destruct (match_ref_run_correct fn ref gen 1 20 1) as (v & H1 & H2 & _) end.
  - intros r. pose proof (rng_range_long r 0 7) as H.
    destruct (asmtest_rng_range r 0 7) as [x s]. simpl in *.
    split; [|done]. constructor; [|constructor]. apply H. vm_compute. split; congruence.
  - exists v. split; [exact H1|exact H2].
Defined.
End MatchRef.
