(* ===== verification/Select.v ===== *)
(** Test selection of the runner ([main] of [src/asmtest.c]): filter, shard,
    repeat and shuffle, with the registration indices kept in lockstep. *)
From S2P Require Import Prelude Rng.
Import Rng.

Module Select.

(** [asmtest_case_t]: the names, as byte strings; the registration list is in
    registration order. *)
Record case := mk_case { suite : list Z; name : list Z }.

(** [asmtest_register]: the new case is linked at the tail. *)
Definition asmtest_register (reg : list case) (tc : case) : list case := reg ++ [tc].

(** The options of [options_t] that select. *)
Record options := mk_opts {
  opt_filter : option (list Z); shard_k : Z; shard_n : Z; repeat : Z; opt_shuffle : bool
}.

Definition DOT : Z := 46.
Definition INT_MAX : Z := 2 ^ 31 - 1.

Section select.
(** [ASMTEST_FNMATCH(glob, s) == 0]: the platform's matcher. *)
Context (fnmatch : list Z → list Z → bool).

(** The id is built in a buffer of 256 bytes. *)
Definition id_matches (suite name glob : list Z) : bool :=
  let id := take 255 (suite ++ [DOT] ++ name) in
  fnmatch glob id || fnmatch glob suite || fnmatch glob name.
Definition test_matches (tc : case) (glob : list Z) : bool := id_matches (suite tc) (name tc) glob.

(** [opt.filter == NULL || test_matches(tc, opt.filter)] *)
Definition selected (opt : options) (tc : case) : bool :=
  match opt_filter opt with None => true | Some g => test_matches tc g end.

(** [sel[]] and [gidx[]] side by side: an entry is the registration index with
    the case. *)
Fixpoint collect (opt : options) (gi : nat) (reg : list case) : list (nat * case) :=
  match reg with
  | [] => []
  | tc :: reg =>
      if selected opt tc then (gi, tc) :: collect opt (S gi) reg
      else collect opt (S gi) reg
  end.
End select.

(** The in-place compaction that keeps the entries of one shard. *)
Definition shard (opt : options) (sel : list (nat * case)) : list (nat * case) :=
  if 1 <? shard_n opt then
    snd <$> filter (λ p, Z.of_nat p.1 mod shard_n opt = shard_k opt - 1) (imap pair sel)
  else sel.

(** [None] is the usage error (exit code 2). *)
Definition repeat_sel (opt : options) (sel : list (nat * case)) : option (list (nat * case)) :=
  let n := Z.of_nat (length sel) in
  if (1 <? repeat opt) && (0 <? n) then
    if INT_MAX / repeat opt <? n then None
    else Some (concat (replicate (Z.to_nat (repeat opt)) sel))
  else Some sel.

(** One exchange of the Fisher-Yates loop. *)
Definition swap {A} (l : list A) (i j : nat) : list A :=
  match l !! i, l !! j with
  | Some x, Some y => <[j := x]> (<[i := y]> l)
  | _, _ => l
  end.
Definition shuffle_step {A} (st : list A * Z) (i : nat) : list A * Z :=
  let '(l, rng) := st in
  let '(x, rng) := asmtest_rng_u64 rng in
  (swap l i (Z.to_nat (x mod (Z.of_nat i + 1))), rng).
Definition shuffle {A} (seed : Z) (l : list A) : list A :=
  (foldl shuffle_step (l, seed) (rev (seq 1 (length l - 1)))).1.

Definition select (fnmatch : list Z → list Z → bool) (opt : options) (seed : Z)
    (reg : list case) : option (list (nat * case)) :=
  let sel := shard opt (collect fnmatch opt 0 reg) in
  match repeat_sel opt sel with
  | None => None
  | Some sel => Some (if opt_shuffle opt then shuffle seed sel else sel)
  end.

(** ** Collection *)
(** An entry pairs a case with its place in the registration list. *)
Definition in_step (reg : list case) (e : nat * case) : Prop := reg !! e.1 = Some e.2.

Lemma collect_spec fnmatch opt gi pre reg :
  length pre = gi →
  Forall (in_step (pre ++ reg)) (collect fnmatch opt gi reg) ∧
  (collect fnmatch opt gi reg).*2 =
  filter (λ tc, selected fnmatch opt tc = true) reg.
Proof.
  revert gi pre. induction reg as [|tc reg IH]; intros gi pre Hgi; [done|].
  destruct (IH (S gi) (pre ++ [tc])) as [IH1 IH2].
  { rewrite length_app. simpl. lia. }
  rewrite <-app_assoc in IH1. simpl in IH1. cbn [collect]. rewrite filter_cons.
  assert (in_step (pre ++ tc :: reg) (gi, tc)) as Hin.
  { unfold in_step. simpl. by rewrite list_lookup_middle. }
  destruct (selected fnmatch opt tc).
  - rewrite decide_True by done. split; [by constructor|]. rewrite fmap_cons. by f_equal.
  - by rewrite decide_False.
Qed.

(** ** Shards *)
Lemma classes_partition {A} (f : A → nat) (n : nat) (l : list A) :
  Forall (λ x, (f x < n)%nat) l →
  concat ((λ k, filter (λ x, f x = k) l) <$> seq 0 n) ≡ₚ l.
Proof.
  induction 1 as [|x l Hx _ IH].
  { induction (seq 0 n) as [|k ks IHk]; [done|]. simpl. done. }
  transitivity (x :: concat ((λ k, filter (λ y, f y = k) l) <$> seq 0 n)); [|by rewrite IH].
  clear IH.
  assert (∀ ks, NoDup ks →
    concat ((λ k, filter (λ y, f y = k) (x :: l)) <$> ks) ≡ₚ
    (if decide (f x ∈ ks) then [x] else []) ++ concat ((λ k, filter (λ y, f y = k) l) <$> ks)) as H.
  { induction 1 as [|k ks Hk Hnd IHk]; [done|]. rewrite !fmap_cons. simpl concat.
    rewrite IHk, filter_cons. clear IHk.
    destruct (decide (f x = k)) as [<-|Hne].
    - rewrite (decide_True (P := f x ∈ f x :: ks)) by left. rewrite decide_False by done. done.
    - destruct (decide (f x ∈ ks)) as [Hin|Hin].
      + rewrite decide_True by (by right). simpl. by rewrite Permutation_middle.
      + rewrite decide_False by set_solver. done. }
  rewrite H by apply NoDup_seq. rewrite decide_True; [done|]. apply elem_of_seq. lia.
Qed.

Definition with_shard (opt : options) (k n : Z) : options :=
  mk_opts (opt_filter opt) k n (repeat opt) (opt_shuffle opt).

Lemma shards_partition_spec opt (n : nat) sel :
  (1 < n)%nat →
  concat ((λ k, shard (with_shard opt (Z.of_nat k + 1) (Z.of_nat n)) sel) <$> seq 0 n) ≡ₚ sel.
Proof.
  intros Hn.
  assert ((λ k, shard (with_shard opt (Z.of_nat k + 1) (Z.of_nat n)) sel) <$> seq 0 n =
    (fmap (M := list) snd) <$> ((λ k, filter (λ p, (p.1 mod n)%nat = k) (imap pair sel)) <$> seq 0 n)) as ->.
  { rewrite <-list_fmap_compose. apply list_fmap_ext. intros i k _. unfold shard. simpl.
    rewrite (proj2 (Z.ltb_lt 1 (Z.of_nat n))) by lia. f_equal. apply list_filter_iff. intros p.
    rewrite <-Nat2Z.inj_mod. lia. }
  assert (∀ ls : list (list (nat * (nat * case))), concat (fmap (M := list) snd <$> ls) = snd <$> concat ls) as Hc.
  { induction ls as [|l ls IH]; [done|]. rewrite fmap_cons. cbn [concat]. by rewrite fmap_app, IH. }
  rewrite Hc, classes_partition.
  - clear. assert (∀ i, snd <$> imap (λ j x, ((i + j)%nat, x)) sel = sel) as H.
    { induction sel as [|x sel IH]; intros i; [done|]. simpl. f_equal.
      rewrite <-(IH (S i)) at 2. f_equal. apply imap_ext. intros. simpl. f_equal. lia. }
    apply reflexive_eq, (H O).
  - apply Forall_forall. intros p _. apply Nat.mod_upper_bound. lia.
Qed.

Lemma shard_sublist opt sel : shard opt sel `sublist_of` sel.
Proof.
  unfold shard. destruct (1 <? shard_n opt); [|done].
  assert (∀ i, snd <$> filter (λ p, Z.of_nat p.1 mod shard_n opt = shard_k opt - 1)
            (imap (λ j x, ((i + j)%nat, x)) sel) `sublist_of` sel) as H; [|apply (H O)].
  induction sel as [|x sel IH]; intros i; [done|]. simpl. rewrite filter_cons.
  specialize (IH (S i)). rewrite Nat.add_0_r.
  assert (imap ((λ j x0, ((i + j)%nat, x0)) ∘ S) sel = imap (λ j x0, ((S i + j)%nat, x0)) sel) as ->.
  { apply imap_ext. intros. simpl. f_equal. lia. }
  case_decide; simpl; [by apply sublist_skip|by apply sublist_cons].
Qed.

(** Shards split the run.  The [N] shards of a selection together hold every
    selected test exactly once, and each shard keeps the registration order: [N]
    jobs neither lose nor duplicate a test. *)
Theorem shards_partition fnmatch opt reg (n : nat) (Hn : (1 < n)%nat) :
  let sel := collect fnmatch opt 0 reg in
  let part k := shard (with_shard opt (Z.of_nat k + 1) (Z.of_nat n)) sel in
  concat (part <$> seq 0 n) ≡ₚ sel ∧ ∀ k, part k `sublist_of` sel.
Proof. split; [by apply shards_partition_spec|]. intros k. apply shard_sublist. Qed.

Lemma shards_partition_witness :
  let reg := [mk_case [97] [98]; mk_case [97] [99]; mk_case [100] [98]] in
  let opt := mk_opts None 1 2 1 false in
  let part k := shard (with_shard opt (Z.of_nat k + 1) (Z.of_nat 2)) (collect (λ _ _, true) opt 0 reg) in
  concat (part <$> seq 0 2) ≡ₚ collect (λ _ _, true) opt 0 reg ∧
  part 0%nat = [(0%nat, mk_case [97] [98]); (2%nat, mk_case [100] [98])].
Proof.
  cbv zeta. split; [|vm_compute; reflexivity].
  apply (shards_partition (λ _ _, true) (mk_opts None 1 2 1 false)
           [mk_case [97] [98]; mk_case [97] [99]; mk_case [100] [98]] 2). lia.
Defined.

(** ** Shuffling *)
Lemma insert_perm {A} (l : list A) i x y : l !! i = Some x → x :: <[i := y]> l ≡ₚ y :: l.
Proof.
  revert i. induction l as [|z l IH]; intros i Hi; [done|]. destruct i as [|i]; simpl in *.
  - simplify_eq. apply Permutation_swap.
  - rewrite Permutation_swap, (IH i Hi). apply Permutation_swap.
Qed.

Lemma swap_perm {A} (l : list A) i j : swap l i j ≡ₚ l.
Proof.
  unfold swap. destruct (l !! i) as [x|] eqn:Hi; [|done]. destruct (l !! j) as [y|] eqn:Hj; [|done].
  assert ((<[i := y]> l) !! j = Some y) as Hj'.
  { destruct (decide (i = j)) as [->|]; [|by rewrite list_lookup_insert_ne].
    apply list_lookup_insert_eq. by eapply lookup_lt_Some. }
  apply (Permutation_cons_inv (a := y)). rewrite (insert_perm _ _ _ x Hj').
  by apply insert_perm.
Qed.

Lemma shuffle_perm {A} seed (l : list A) : shuffle seed l ≡ₚ l.
Proof.
  unfold shuffle. generalize (rev (seq 1 (length l - 1))) as is_. intros is_. revert l seed.
  induction is_ as [|i is_ IH]; intros l seed; [done|]. simpl. rewrite IH. apply swap_perm.
Qed.

(** What is run is what was selected.  After filtering, sharding, repetition
    and shuffling the entries are, up to order, [repeat] copies of the shard of
    the matching tests, in registration order when not shuffled, and each entry
    still pairs a test with its own registration index. *)
Theorem selection_faithful fnmatch opt seed reg out
    (Hsel : select fnmatch opt seed reg = Some out) (Hrep : 1 <= repeat opt) :
  let base := shard opt (collect fnmatch opt 0 reg) in
  let all := concat (replicate (Z.to_nat (repeat opt)) base) in
  out ≡ₚ all ∧ (opt_shuffle opt = false → out = all) ∧ Forall (in_step reg) out.
Proof.
  cbv zeta. unfold select in Hsel. set (base := shard opt _) in *.
  assert (Forall (in_step reg) base) as Hbase.
  { apply Forall_forall. intros e He. eapply sublist_elem_of in He; [|apply shard_sublist].
    destruct (collect_spec fnmatch opt 0 [] reg eq_refl) as [H _]. rewrite Forall_forall in H. by apply H. }
  destruct (repeat_sel opt base) as [l|] eqn:El; [|done].
  assert (l = concat (replicate (Z.to_nat (repeat opt)) base)) as ->.
  { unfold repeat_sel in El. destruct (Z.ltb_spec 1 (repeat opt)); simpl in El.
    - destruct (Z.ltb_spec 0 (Z.of_nat (length base))); [destruct (INT_MAX / _ <? _); [done|congruence]|].
      destruct base as [|b base']; [|simpl in *; lia]. simplify_eq. clear.
      induction (Z.to_nat (repeat opt)) as [|k IH]; [done|]. exact IH.
    - simplify_eq. replace (repeat opt) with 1 by lia. simpl. by rewrite app_nil_r. }
  assert (out ≡ₚ concat (replicate (Z.to_nat (repeat opt)) base)) as Hp.
  { simplify_eq. destruct (opt_shuffle opt); [apply shuffle_perm|done]. }
  split_and!; [done|intros E; simplify_eq; by rewrite E|].
  rewrite Hp. apply Forall_forall. intros e (b & Hb & He)%elem_of_concat.
  apply elem_of_replicate in Hb as [-> _]. rewrite Forall_forall in Hbase. by apply Hbase.
Qed.

Lemma selection_faithful_witness :
  let reg := [mk_case [97] [98]; mk_case [97] [99]; mk_case [100] [98]] in
  let opt := mk_opts None 1 2 2 true in
  ∃ out, select (λ _ _, true) opt 7 reg = Some out ∧ Forall (in_step reg) out ∧ length out = 4%nat.
Proof.
  cbv zeta. eexists. split; [vm_compute; reflexivity|]. split; [|reflexivity].
  eapply (selection_faithful (λ _ _, true) (mk_opts None 1 2 2 true) 7); [vm_compute; reflexivity|simpl; lia].
Defined.
End Select.
