(* ===== verification/RunCase.v ===== *)
(** Running one test ([src/asmtest.c]): hooks, outcomes, the failure globals, the
    record a forked child ships back and how a dead child is judged. *)
From S2P Require Import Prelude Format.
Open Scope string_scope.
Open Scope Z_scope.
Open Scope list_scope.

Module RunCase.

(** The two reasons a test is left by a jump, and the outcomes. *)
Inductive reason := JMP_FAIL | JMP_SKIP.
Inductive outcome := ST_PASS | ST_FAIL | ST_SKIP.
#[export] Instance outcome_eq_dec : EqDecision outcome.
Proof. solve_decision. Defined.

(** How a hook or a body is left. *)
Inductive exit := Returns | Jumps (r : reason).

(** The per-process globals a test leaves its verdict in. *)
Record globals := mk_globals {
  asmtest_msg : string; loc_file : option string; loc_line : Z;
  note_path : string; note_step : Z;
  record_dir : string; record_cur : string;
}.

(** User code: it changes the globals and returns or jumps. *)
Abbreviation code := (globals → globals * exit).

Definition asmtest_fail (file : string) (line : Z) (text : string) : code := λ g,
  (mk_globals (cstr 1024 text) (Some file) line (note_path g) (note_step g) (record_dir g)
     (record_cur g), Jumps JMP_FAIL).

Definition asmtest_skip (why : option string) : code := λ g,
  (mk_globals (cstr 1024 (default "" why)) (loc_file g) (loc_line g) (note_path g) (note_step g)
     (record_dir g) (record_cur g), Jumps JMP_SKIP).

Definition asmtest_note_recording (path : option string) (step : Z) (g : globals) : globals :=
  mk_globals (asmtest_msg g) (loc_file g) (loc_line g) (cstr 256 (default "" path)) step
    (record_dir g) (record_cur g).

Definition asmtest_record_begin (suite name : string) (g : globals) : globals :=
  mk_globals (asmtest_msg g) (loc_file g) (loc_line g) "" (-1) (record_dir g)
    (if String.eqb (record_dir g) "" then ""
     else cstr 1024 (record_dir g +:+ "/" +:+ suite +:+ "." +:+ name +:+ ".asmtrace")).

(** Signals, by their Linux numbers. *)
Definition SIGILL : Z := 4.
Definition SIGABRT : Z := 6.
Definition SIGBUS : Z := 7.
Definition SIGFPE : Z := 8.
Definition SIGSEGV : Z := 11.
Definition SIGALRM : Z := 14.

Definition sig_name (sig : Z) : string :=
  if sig =? SIGSEGV then "SIGSEGV"
  else if sig =? SIGBUS then "SIGBUS"
  else if sig =? SIGFPE then "SIGFPE"
  else if sig =? SIGILL then "SIGILL"
  else if sig =? SIGABRT then "SIGABRT"
  else if sig =? SIGALRM then "SIGALRM"
  else "signal".

(** The handler when a test is running. *)
Definition asmtest_on_signal (timeout_secs sig : Z) : code := λ g,
  let '(text, file) :=
    if sig =? SIGALRM then ("timed out after " +:+ fmt_d timeout_secs +:+ " s", "(timeout)")
    else ("caught fatal signal " +:+ fmt_d sig +:+ " (" +:+ sig_name sig +:+ ")", "(signal)") in
  (mk_globals (cstr 1024 text) (Some file) 0 (note_path g) (note_step g) (record_dir g)
     (record_cur g), Jumps JMP_FAIL).

(** ** One test *)
Record hook := mk_hook { hk_suite : string; hk_kind : Z; hk_fn : code }.
Record tcase := mk_tcase { tc_suite : string; tc_name : string; tc_fn : code }.

(** [asmtest_register_hook]: the new hook goes to the front. *)
Definition asmtest_register_hook (hooks : list hook) (h : hook) : list hook := h :: hooks.

(** A jump out of a hook leaves the loop. *)
Fixpoint run_hooks (hooks : list hook) (suite : string) (kind : Z) : code := λ g,
  match hooks with
  | [] => (g, Returns)
  | h :: hooks =>
      if (hk_kind h =? kind) && String.eqb (hk_suite h) suite then
        let '(g, e) := hk_fn h g in
        match e with
        | Returns => run_hooks hooks suite kind g
        | Jumps r => (g, Jumps r)
        end
      else run_hooks hooks suite kind g
  end.

Definition run_one (hooks : list hook) (tc : tcase) (g : globals) : globals * outcome :=
  let g := asmtest_record_begin (tc_suite tc) (tc_name tc) g in
  let '(g, setup) := run_hooks hooks (tc_suite tc) 0 g in
  match setup with
  | Jumps JMP_SKIP => (g, ST_SKIP)
  | Jumps JMP_FAIL => (g, ST_FAIL)
  | Returns =>
      let '(g, body) := tc_fn tc g in
      let out := match body with
                 | Returns => ST_PASS
                 | Jumps JMP_SKIP => ST_SKIP
                 | Jumps JMP_FAIL => ST_FAIL
                 end in
      let '(g, td) := run_hooks hooks (tc_suite tc) 1 g in
      (g, match td with
          | Returns => out
          | Jumps JMP_SKIP => match out with ST_PASS => ST_SKIP | _ => out end
          | Jumps JMP_FAIL => ST_FAIL
          end)
  end.

(** ** Results *)
(** [test_result_t] without its times, and [wire_result_t]. *)
Record result := mk_result {
  r_suite : string; r_name : string; r_outcome : outcome; r_line : Z; r_file : string;
  r_msg : string; rec_path : string; rec_step : Z;
}.
Record wire := mk_wire {
  w_outcome : outcome; w_line : Z; w_file : string; w_msg : string; w_path : string; w_step : Z;
}.

Definition capture_wire (g : globals) (o : outcome) : wire :=
  mk_wire o (loc_line g) (cstr 256 (default "" (loc_file g))) (cstr 1024 (asmtest_msg g))
    (cstr 256 (note_path g)) (note_step g).

Definition apply_wire (res : result) (w : wire) : result :=
  mk_result (r_suite res) (r_name res) (w_outcome w) (w_line w) (cstr 256 (w_file w))
    (cstr 1024 (w_msg w)) (cstr 256 (w_path w)) (w_step w).

Definition run_inproc (hooks : list hook) (tc : tcase) (res : result) (g : globals) : result :=
  let '(g, o) := run_one hooks tc g in apply_wire res (capture_wire g o).

(** The wait status of a child. *)
Inductive wait_status := Exited (code : Z) | Signaled (sig : Z) | Other.

(** [w = None] when the pipe gave fewer bytes than a record. *)
Definition reap_child (timeout_secs : Z) (res : result) (w : option wire) (status : wait_status) :
    result :=
  match w with
  | Some w => apply_wire res w
  | None =>
      let text :=
        match status with
        | Signaled sig =>
            if sig =? SIGALRM then "timed out after " +:+ fmt_d timeout_secs +:+ " s (killed)"
            else "crashed: killed by signal " +:+ fmt_d sig +:+ " (" +:+ sig_name sig +:+ ")"
        | Exited c =>
            if negb (c =? 0) then "child exited abnormally (status " +:+ fmt_d c +:+ ")"
            else "no result reported by child"
        | Other => "no result reported by child"
        end in
      mk_result (r_suite res) (r_name res) ST_FAIL 0 (cstr 256 "(child)") (cstr 1024 text) "" (-1)
  end.

(** [result_is_error] tells a crash from a failed assertion by the message. *)
Definition error_prefixes : list string :=
  ["caught fatal signal"; "timed out"; "crashed:"; "child exited abnormally"; "no result reported"].
Definition result_is_error (r : result) : bool :=
  match r_outcome r with
  | ST_FAIL => existsb (λ p, String.prefix p (r_msg r)) error_prefixes
  | _ => false
  end.

(** ** Outcomes *)
(** What each phase did, given that the earlier ones let it run. *)
Definition setup_of hooks tc g :=
  run_hooks hooks (tc_suite tc) 0 (asmtest_record_begin (tc_suite tc) (tc_name tc) g).
Definition body_of hooks tc g := tc_fn tc (setup_of hooks tc g).1.
Definition teardown_of hooks tc g := run_hooks hooks (tc_suite tc) 1 (body_of hooks tc g).1.

(** C6: the outcome of a test.  It passes exactly when setup, body and teardown
    all return; it fails exactly when setup fails, or setup returns and the body
    or the teardown fails; it is skipped in the other cases.  The teardown runs,
    last, whenever the setup returned, however the body was left, and nothing
    runs after a setup that jumped. *)
Theorem run_one_outcome hooks tc g :
  let s := (setup_of hooks tc g).2 in
  let b := (body_of hooks tc g).2 in
  let t := (teardown_of hooks tc g).2 in
  let o := (run_one hooks tc g).2 in
  (o = ST_PASS ↔ s = Returns ∧ b = Returns ∧ t = Returns) ∧
  (o = ST_FAIL ↔ s = Jumps JMP_FAIL ∨ s = Returns ∧ (b = Jumps JMP_FAIL ∨ t = Jumps JMP_FAIL)) ∧
  (run_one hooks tc g).1 =
    match s with Returns => (teardown_of hooks tc g).1 | _ => (setup_of hooks tc g).1 end.
Proof.
  cbv zeta. unfold run_one, teardown_of, body_of, setup_of.
  destruct (run_hooks hooks (tc_suite tc) 0 _) as [g1 s]. simpl.
  destruct s as [|[]]; simpl; [|naive_solver..].
  destruct (tc_fn tc g1) as [g2 b]. simpl.
  destruct (run_hooks hooks (tc_suite tc) 1 g2) as [g3 t]. simpl.
  destruct b as [|[]], t as [|[]]; naive_solver.
Qed.

(** ** The wire *)
Lemma substring_0_substring n m s : (m <= n)%nat → String.substring 0 n (String.substring 0 m s) = String.substring 0 m s.
Proof.
  revert n m. induction s as [|c s IH]; intros n m Hle; [by destruct n, m|].
  destruct m as [|m]; [by destruct n|]. destruct n as [|n]; [lia|]. simpl. f_equal. apply IH. lia.
Qed.
Lemma cstr_idem n s : cstr n (cstr n s) = cstr n s.
Proof. by apply substring_0_substring. Qed.

(** The read end of the result pipe: what each [read] does. *)
Inductive io := Eintr | Err | Eof | Got (bytes : list Z).

(** [read_full]: the bytes gathered when the loop ends, [None] if the script of
    reads runs out before it does. *)
Fixpoint read_full (script : list io) (n : nat) (got : list Z) : option (list Z) :=
  if (n <=? length got)%nat then Some got
  else match script with
       | [] => None
       | Eintr :: script => read_full script n got
       | Err :: _ | Eof :: _ => Some got
       | Got bs :: script => read_full script n (got ++ bs)
       end.

(** What the child wrote, as the reads deliver it: in pieces, none of them empty
    or longer than what was asked for, interrupted any number of times, and ended
    by [Eof] if the child died early. *)
Inductive delivers (n : nat) : list Z → list io → list Z → Prop :=
  | d_full sent rest : length sent = n → delivers n sent rest []
  | d_eof sent rest : (length sent < n)%nat → delivers n sent (Eof :: rest) []
  | d_eintr sent rest todo : (length sent < n)%nat → delivers n sent rest todo →
      delivers n sent (Eintr :: rest) todo
  | d_got sent bs rest todo : (length sent < n)%nat → (length sent + length bs <= n)%nat →
      delivers n (sent ++ bs) rest todo → delivers n sent (Got bs :: rest) (bs ++ todo).

(** The result pipe loses nothing.  However the kernel cuts the child's
    bytes and interrupts the reads, [read_full] ends and returns exactly the
    bytes delivered: the whole record when the child wrote it, and less than a
    record only when the child died first. *)
Theorem read_full_exact n script sent todo (Hd : delivers n sent script todo) :
  read_full script n sent = Some (sent ++ todo) ∧ (length (sent ++ todo) <= n)%nat.
Proof.
  induction Hd as [sent rest Hl|sent rest Hl|sent rest todo Hl Hd IH|sent bs rest todo Hl Hb Hd IH].
  - rewrite app_nil_r. destruct rest; simpl; rewrite (proj2 (Nat.leb_le _ _)) by lia; split; (done || lia).
  - simpl. rewrite (proj2 (Nat.leb_gt _ _)) by lia. rewrite app_nil_r. split; [done|lia].
  - simpl. by rewrite (proj2 (Nat.leb_gt _ _)) by lia.
  - simpl. rewrite (proj2 (Nat.leb_gt _ _)) by lia. by rewrite app_assoc.
Qed.

Lemma read_full_exact_witness :
  delivers 3 [] [Eintr; Got [1; 2]; Eintr; Got [3]] [1; 2; 3] ∧
  read_full [Eintr; Got [1; 2]; Eintr; Got [3]] 3 [] = Some [1; 2; 3].
Proof.
  assert (delivers 3 [] [Eintr; Got [1; 2]; Eintr; Got [3]] [1; 2; 3]) as Hd.
  { apply d_eintr; [simpl; lia|]. apply (d_got 3 [] [1; 2] _ [3]); [simpl; lia..|].
    apply d_eintr; [simpl; lia|]. apply (d_got 3 _ [3] _ []); [simpl; lia..|].
    by apply d_full. }
  split; [exact Hd|]. apply (read_full_exact 3 _ [] _ Hd).
Defined.

(** C7: isolation does not change a verdict.  A child that reports gives the
    parent the result an in-process run would have given, and one that dies
    before reporting is a failure classified as an error, with no recording
    attributed to it. *)
Theorem forked_result timeout hooks tc res g status :
  reap_child timeout res (Some (capture_wire (run_one hooks tc g).1 (run_one hooks tc g).2)) status =
    run_inproc hooks tc res g ∧
  let dead := reap_child timeout res None status in
  r_outcome dead = ST_FAIL ∧ result_is_error dead = true ∧ rec_path dead = "" ∧
  r_suite dead = r_suite res ∧ r_name dead = r_name res.
Proof.
  split.
  { unfold run_inproc. by destruct (run_one hooks tc g). }
  cbv zeta. split_and!; [done| |done..].
  unfold reap_child, result_is_error. simpl r_outcome. cbv iota. simpl r_msg.
  repeat case_match; vm_compute; reflexivity.
Qed.

(** A skip in the teardown of a failed test replaces its message.  The
    outcome and the location stay those of the failed assertion, and the report
    gives the skip reason as what went wrong. *)
Theorem teardown_skip_hides_message hooks suite name fail_file fail_line text why res g
    (Hsetup : run_hooks hooks suite 0 (asmtest_record_begin suite name g) = (g, Returns))
    (Htd : ∀ g', run_hooks hooks suite 1 g' = asmtest_skip (Some why) g') :
  let r := run_inproc hooks (mk_tcase suite name (asmtest_fail fail_file fail_line text)) res g in
  r_outcome r = ST_FAIL ∧ r_line r = fail_line ∧ r_file r = cstr 256 fail_file ∧
  r_msg r = cstr 1024 why.
Proof.
  unfold run_inproc, run_one. simpl. rewrite Hsetup, Htd. simpl.
  split_and!; [done|done|..]; unfold apply_wire, capture_wire; simpl; by rewrite !cstr_idem.
Qed.

Lemma teardown_skip_hides_message_witness :
  let g := mk_globals "" None 0 "" (-1) "" "" in
  let res := mk_result "s" "t" ST_PASS 0 "" "" "" (-1) in
  let hooks := [mk_hook "s" 1 (asmtest_skip (Some "no device"))] in
  let r := run_inproc hooks (mk_tcase "s" "t" (asmtest_fail "t.c" 7 "ASSERT_EQ(a, b)")) res g in
  r_outcome r = ST_FAIL ∧ r_line r = 7 ∧ r_file r = cstr 256 "t.c" ∧ r_msg r = cstr 1024 "no device".
Proof.
  cbv zeta. apply teardown_skip_hides_message; [reflexivity|]. intros g'. reflexivity.
Defined.
End RunCase.
