(* ===== verification/Assert.v ===== *)
(** The assertions of [src/asmtest.c]: strings, memory with its hex dumps, the
    callee-saved registers and flags of a captured call, floating-point
    nearness, vectors, and the guard-page buffers.  An assertion is user code of
    [RunCase]: it returns, or fails the test at its location. *)
From S2P Require Import Prelude Format Rng RunCase.
Open Scope string_scope.
Open Scope Z_scope.
Open Scope list_scope.

Module Assert.
Import RunCase.

Definition quote : string := String (Ascii.ascii_of_nat 34) EmptyString.
(** The assertion holds. *)
Definition holds : code := λ g, (g, Returns).

Definition asmtest_assert_streq (file : string) (line : Z) (aexpr bexpr : string) (a b : option string) : code :=
  let head := "ASSERT_STREQ(" +:+ aexpr +:+ ", " +:+ bexpr +:+ "): " in
  match a, b with
  | Some x, Some y =>
      if negb (String.eqb x y)
      then asmtest_fail file line (head +:+ quote +:+ x +:+ quote +:+ " != " +:+ quote +:+ y +:+ quote)
      else holds
  | None, None => holds
  | _, _ => asmtest_fail file line (head +:+ (if a is Some _ then "string" else "NULL") +:+ " vs "
                                    +:+ (if b is Some _ then "string" else "NULL"))
  end.

(** ** Bytes *)
(** [%02x] of a byte. *)
Definition fmt_02x (b : Z) : string := (if b <? 16 then "0" else "") +:+ fmt_x b.

(** The buffer after the loop over the bytes from [j] on, [buf] being what is in it. *)
Fixpoint hexdump_loop (cap : nat) (p : list Z) (end_ j : nat) (rounds : nat) (buf : option string) : option string :=
  match rounds with
  | O => buf
  | S rounds =>
      let off := String.length (default "" buf) in
      if (off + 4 <? cap)%nat then
        let text := fmt_02x (nth j p 0) +:+ (if (j + 1 <? end_)%nat then " " else "") in
        hexdump_loop cap p end_ (S j) rounds (Some (default "" buf +:+ cstr (cap - off) text))
      else buf
  end.
(** [None]: nothing was written to the buffer. *)
Definition hexdump_window (cap : nat) (p : list Z) (start end_ : nat) : option string :=
  hexdump_loop cap p end_ start (end_ - start) None.

(** [while (i < n && a[i] == b[i]) i++] *)
Fixpoint first_diff (a b : list Z) (n : nat) : nat :=
  match n, a, b with
  | S n, x :: a, y :: b => if x =? y then S (first_diff a b n) else O
  | _, _, _ => O
  end.

(** What the byte comparisons say of the first difference. *)
Definition diff_text (i : nat) (expected actual : list Z) : string :=
  "first diff at byte " +:+ fmt_u (Z.of_nat i) +:+ " (0x" +:+ fmt_02x (nth i expected 0) +:+ " != 0x"
  +:+ fmt_02x (nth i actual 0) +:+ ")" +:+ nl.

(** [%s] of a buffer; a buffer that was never written has no text. *)
Definition text_of (s : option string) : string := default "" s.

Definition asmtest_assert_mem_eq (file : string) (line : Z) (aexpr bexpr : string) (pa pb : list Z) (n : nat) : code :=
  let i := first_diff pa pb n in
  if (i =? n)%nat then holds
  else
    let start := if (8 <=? i)%nat then (i - 8)%nat else 0%nat in
    let end_ := if (n <? start + 16)%nat then n else (start + 16)%nat in
    let expect_hex := hexdump_window 64 pb start end_ in
    let actual_hex := hexdump_window 64 pa start end_ in
    asmtest_fail file line
      ("ASSERT_MEM_EQ(" +:+ aexpr +:+ ", " +:+ bexpr +:+ ", " +:+ fmt_u (Z.of_nat n) +:+ "): "
       +:+ diff_text i pb pa
       +:+ "       bytes [" +:+ fmt_u (Z.of_nat start) +:+ "," +:+ fmt_u (Z.of_nat end_) +:+ ")" +:+ nl
       +:+ "       expect: " +:+ text_of expect_hex +:+ nl
       +:+ "       actual: " +:+ text_of actual_hex).

(** The vector comparisons differ in the width, the dump buffer and the name. *)
Definition assert_lanes (width cap : nat) (name : string) (file : string) (line : Z) (idxexpr : string)
    (actual expected : list Z) : code :=
  let i := first_diff actual expected width in
  if (i =? width)%nat then holds
  else asmtest_fail file line
         (name +:+ "(vec[" +:+ idxexpr +:+ "]): " +:+ diff_text i expected actual
          +:+ "       expect: " +:+ text_of (hexdump_window cap expected 0 width) +:+ nl
          +:+ "       actual: " +:+ text_of (hexdump_window cap actual 0 width)).
Definition asmtest_assert_vec_eq := assert_lanes 16 64 "ASSERT_VEC_EQ".
Definition asmtest_assert_vec256_eq := assert_lanes 32 128 "ASSERT_VEC256_EQ".
Definition asmtest_assert_vec512_eq := assert_lanes 64 256 "ASSERT_VEC512_EQ".

(** The scalable registers: [len] bytes are live, the dump is the 64-byte window
    that holds the difference. *)
Definition assert_scalable (name : string) (file : string) (line : Z) (len : nat) (actual expected : list Z) : code :=
  let i := first_diff actual expected len in
  if (i =? len)%nat then holds
  else
    let start := (i - i mod 64)%nat in
    let end_ := if (len <? start + 64)%nat then len else (start + 64)%nat in
    asmtest_fail file line
      (name +:+ diff_text i expected actual
       +:+ "       expect[" +:+ fmt_u (Z.of_nat start) +:+ "..]: " +:+ text_of (hexdump_window 256 expected start end_) +:+ nl
       +:+ "       actual[" +:+ fmt_u (Z.of_nat start) +:+ "..]: " +:+ text_of (hexdump_window 256 actual start end_)).
Definition asmtest_assert_svec_eq (vl : nat) (file : string) (line : Z) (idxexpr : string) (actual expected : list Z) : code :=
  if (vl =? 0)%nat
  then asmtest_fail file line ("ASSERT_SVEC_EQ(z[" +:+ idxexpr
         +:+ "]): SVE not available (vl=0) — asserting SVE state without SVE is a test bug")
  else assert_scalable ("ASSERT_SVEC_EQ(z[" +:+ idxexpr +:+ "], vl=" +:+ fmt_u (Z.of_nat vl) +:+ "): ") file line vl actual expected.
Definition asmtest_assert_spred_eq (vl : nat) (file : string) (line : Z) (idxexpr : string) (actual expected : list Z) : code :=
  if (vl =? 0)%nat
  then asmtest_fail file line ("ASSERT_SPRED_EQ(p[" +:+ idxexpr
         +:+ "]): SVE not available (vl=0) — asserting SVE state without SVE is a test bug")
  else
    let pl := (vl / 8)%nat in
    assert_scalable ("ASSERT_SPRED_EQ(p[" +:+ idxexpr +:+ "], pl=" +:+ fmt_u (Z.of_nat pl) +:+ "): ") file line pl actual expected.

(** ** Registers and flags *)
Inductive abi := SysV | Win64 | AArch64 | Rv64.
(** [regs_t]: a register by the name of its field, the flags, the two 64-bit lanes
    of a vector register. *)
Record regs_t := mk_regs { r_get : string → Z; flags : Z; vec : nat → Z * Z }.

(** The table [chk]: the integer registers a callee must keep, with the sentinels
    the trampoline puts into them. *)
Definition callee_saved (a : abi) : list (string * Z) :=
  match a with
  | Win64 => [("rbx", 0x1111111111111111); ("rbp", 0x2222222222222222); ("rdi", 0xDDDDDDDDDDDDDDDD);
              ("rsi", 0xCCCCCCCCCCCCCCCC); ("r12", 0x3333333333333333); ("r13", 0x4444444444444444);
              ("r14", 0x5555555555555555); ("r15", 0x6666666666666666)]
  | SysV => [("rbx", 0x1111111111111111); ("rbp", 0x2222222222222222); ("r12", 0x3333333333333333);
             ("r13", 0x4444444444444444); ("r14", 0x5555555555555555); ("r15", 0x6666666666666666)]
  | AArch64 => [("x19", 0x1111111111111111); ("x20", 0x2222222222222222); ("x21", 0x3333333333333333);
                ("x22", 0x4444444444444444); ("x23", 0x5555555555555555); ("x24", 0x6666666666666666);
                ("x25", 0x7777777777777777); ("x26", 0x8888888888888888); ("x27", 0x9999999999999999);
                ("x28", 0xAAAAAAAAAAAAAAAA); ("x29", 0xBBBBBBBBBBBBBBBB)]
  | Rv64 => [("s0", 0x1111111111111111); ("s1", 0x2222222222222222); ("s2", 0x3333333333333333);
             ("s3", 0x4444444444444444); ("s4", 0x5555555555555555); ("s5", 0x6666666666666666);
             ("s6", 0x7777777777777777); ("s7", 0x8888888888888888); ("s8", 0x9999999999999999);
             ("s9", 0xAAAAAAAAAAAAAAAA); ("s10", 0xBBBBBBBBBBBBBBBB); ("s11", 0xCCCCCCCCCCCCCCCC)]
  end.

(** [if (msg && n) snprintf(msg, n, ...)]: [None] is a buffer left as it was. *)
Definition put_msg (out : option nat) (text : string) : option string :=
  match out with Some (S n) => Some (cstr (S n) text) | _ => None end.

Definition restored_text (name : string) (got want : Z) : string :=
  name +:+ " not restored (got 0x" +:+ fmt_x got +:+ ", expected 0x" +:+ fmt_x want +:+ ")".

Fixpoint check_loop (chk : list (string * Z)) (r : regs_t) (out : option nat) : Z * option string :=
  match chk with
  | [] => (0, put_msg out "")
  | (name, want) :: chk =>
      if negb (r_get r name =? want) then (1, put_msg out (restored_text name (r_get r name) want))
      else check_loop chk r out
  end.
Definition asmtest_check_abi (a : abi) (r : regs_t) (out : option nat) : Z * option string :=
  check_loop (callee_saved a) r out.

Definition asmtest_check_flag (r : regs_t) (mask want_set : Z) (name : string) (out : option nat) : Z * option string :=
  let set := if Z.land (flags r) mask =? 0 then 0 else 1 in
  if negb (set =? want_set)
  then (1, put_msg out ("FLAG_" +:+ (if want_set =? 0 then "CLEAR" else "SET") +:+ "(" +:+ name +:+ "): flags=0x" +:+ fmt_x (flags r)))
  else (0, put_msg out "").

Definition asmtest_assert_abi (file : string) (line : Z) (a : abi) (r : regs_t) : code :=
  let '(bad, msg) := asmtest_check_abi a r (Some 128%nat) in
  if bad =? 0 then holds else asmtest_fail file line ("ASSERT_ABI_PRESERVED: " +:+ text_of msg).

Definition asmtest_assert_flag (file : string) (line : Z) (r : regs_t) (mask want_set : Z) (name : string) : code :=
  let '(bad, msg) := asmtest_check_flag r mask want_set name (Some 128%nat) in
  if bad =? 0 then holds else asmtest_fail file line ("ASSERT_" +:+ text_of msg).

(** The vector registers a callee must keep (none on System V), and whether both
    lanes of them. *)
Definition vec_saved (a : abi) : list nat :=
  match a with
  | SysV => []
  | Win64 => seq 6 10
  | AArch64 => seq 8 8
  | Rv64 => [8; 9; 18; 19; 20; 21; 22; 23; 24; 25; 26; 27]%nat
  end.
Definition vec_bad (a : abi) (r : regs_t) (i : nat) : bool :=
  let '(lo, hi) := vec r i in
  match a with
  | Win64 => negb (lo =? Z.of_nat i) || negb (hi =? Z.of_nat i)
  | _ => negb (lo =? Z.of_nat i)
  end.
Definition vec_text (a : abi) (r : regs_t) (i : nat) : string :=
  let '(lo, hi) := vec r i in
  let want := fmt_x (Z.of_nat i) in
  match a with
  | Win64 => "xmm" +:+ fmt_u (Z.of_nat i) +:+ " not restored (got {0x" +:+ fmt_x lo +:+ ", 0x" +:+ fmt_x hi
             +:+ "}, expected {0x" +:+ want +:+ ", 0x" +:+ want +:+ "})"
  | Rv64 => "fs" +:+ fmt_u (if (i <? 18)%nat then Z.of_nat i - 8 else Z.of_nat i - 16)
            +:+ " not restored (got 0x" +:+ fmt_x lo +:+ ", expected 0x" +:+ want +:+ ")"
  | _ => "d" +:+ fmt_u (Z.of_nat i) +:+ " not restored (got 0x" +:+ fmt_x lo +:+ ", expected 0x" +:+ want +:+ ")"
  end.
Fixpoint check_vec_loop (a : abi) (is_ : list nat) (r : regs_t) (out : option nat) : Z * option string :=
  match is_ with
  | [] => (0, put_msg out "")
  | i :: is_ => if vec_bad a r i then (1, put_msg out (vec_text a r i)) else check_vec_loop a is_ r out
  end.
Definition asmtest_check_abi_vec (a : abi) (r : regs_t) (out : option nat) : Z * option string :=
  check_vec_loop a (vec_saved a) r out.
Definition asmtest_assert_abi_vec (file : string) (line : Z) (a : abi) (r : regs_t) : code :=
  let '(bad, msg) := asmtest_check_abi_vec a r (Some 128%nat) in
  if bad =? 0 then holds else asmtest_fail file line ("ASSERT_ABI_PRESERVED_VEC: " +:+ text_of msg).

(** ** Floating point *)
(** Values as their [w]-bit patterns ([w] = 64 or 32); [show] is the text of one
    ([%.17g], [%.9g]). *)
Section float.
Context (w : Z) (show : Z → string).

(** The pattern without its sign, and that of infinity. *)
Definition magnitude (x : Z) : Z := x mod 2 ^ (w - 1).
Definition infinity_bits : Z := if w =? 64 then 0x7FF0000000000000 else 0x7F800000.
Definition is_nan (x : Z) : bool := infinity_bits <? magnitude x.
(** The [==] of the language. *)
Definition feq (x y : Z) : bool :=
  negb (is_nan x) && negb (is_nan y) && ((x =? y) || (magnitude x =? 0) && (magnitude y =? 0)).

Definition assert_feq (file : string) (line : Z) (name : string) (actual expected : Z) : code :=
  if negb (feq actual expected) then asmtest_fail file line (name +:+ ": " +:+ show actual +:+ " != " +:+ show expected)
  else holds.

Definition assert_near (file : string) (line : Z) (name : string) (actual expected max_ulps : Z) : code :=
  if is_nan actual || is_nan expected then
    if is_nan actual && is_nan expected then holds
    else asmtest_fail file line (name +:+ ": NaN mismatch (" +:+ show actual +:+ " vs " +:+ show expected +:+ ")")
  else
    let d := Rng.ulp_distance w actual expected in
    if max_ulps <? d
    then asmtest_fail file line (name +:+ ": " +:+ show actual +:+ " vs " +:+ show expected +:+ " differ by " +:+ fmt_u d
                                 +:+ " ulps (max " +:+ fmt_u max_ulps +:+ ")")
    else holds.
End float.

Definition asmtest_assert_double_eq (show : Z → string) (file : string) (line : Z) : Z → Z → code :=
  assert_feq 64 show file line "ASSERT_*EQ (double)".
Definition asmtest_assert_float_eq (show : Z → string) (file : string) (line : Z) : Z → Z → code :=
  assert_feq 32 show file line "ASSERT_FEQ (float)".
Definition asmtest_assert_double_near (show : Z → string) (file : string) (line : Z) : Z → Z → Z → code :=
  assert_near 64 show file line "ASSERT_*NEAR (double)".
Definition asmtest_assert_float_near (show : Z → string) (file : string) (line : Z) : Z → Z → Z → code :=
  assert_near 32 show file line "ASSERT_FNEAR (float)".

(** ** Guard pages *)
Inductive prot := PROT_RW | PROT_NONE.
(** The address space: the protection of each mapped page. *)
Abbreviation space := (gmap Z prot).

Section guard.
Context (pg : Z).

Definition page (a : Z) : Z := a / pg.
(** The pages of [len] bytes from [base] on. *)
Definition pages (base len : Z) : list Z := (λ i : nat, page base + Z.of_nat i) <$> seq 0 (Z.to_nat ((len + pg - 1) / pg)).
Definition protect (s : space) (base len : Z) (p : prot) : space := foldr (λ q s, <[q := p]> s) s (pages base len).
Definition munmap (s : space) (base len : Z) : space := foldr (λ q s, delete q s) s (pages base len).

Definition SIZE_MAX : Z := 2 ^ 64 - 1.
Definition round_up_page (n : Z) : Z :=
  if SIZE_MAX -64 (2 *64 pg) <? n then 0
  else
    let usable := (n +64 pg -64 1) / pg *64 pg in
    if usable =? 0 then pg else usable.

(** [got] is what [mmap] answers for the length it is asked for, [ok] whether
    [mprotect] succeeds.  The pointer and the address space. *)
Definition asmtest_guarded_alloc (got : Z → option Z) (ok : bool) (s : space) (n : Z) : option Z * space :=
  let usable := round_up_page n in
  if usable =? 0 then (None, s)
  else
    let total := usable +64 pg in
    match got total with
    | None => (None, s)
    | Some base =>
        let s := protect s base total PROT_RW in
        if ok then (Some (base +64 (usable -64 n)), protect s (base +64 usable) pg PROT_NONE)
        else (None, munmap s base total)
    end.
Definition asmtest_guarded_free (s : space) (p : option Z) (n : Z) : space :=
  match p with
  | None => s
  | Some p =>
      let usable := round_up_page n in
      if usable =? 0 then s
      else munmap s (p -64 (usable -64 n)) (usable +64 pg)
  end.

Definition asmtest_guarded_alloc_under (got : Z → option Z) (ok : bool) (s : space) (n : Z) : option Z * space :=
  let usable := round_up_page n in
  if usable =? 0 then (None, s)
  else
    let total := pg +64 usable in
    match got total with
    | None => (None, s)
    | Some base =>
        let s := protect s base total PROT_RW in
        if ok then (Some (base +64 pg), protect s base pg PROT_NONE)
        else (None, munmap s base total)
    end.
Definition asmtest_guarded_free_under (s : space) (p : option Z) (n : Z) : space :=
  match p with
  | None => s
  | Some p =>
      let usable := round_up_page n in
      if usable =? 0 then s
      else munmap s (p -64 pg) (pg +64 usable)
  end.
End guard.

(** ** Texts *)
Lemma substring_all n s : (String.length s <= n)%nat → String.substring 0 n s = s.
Proof. revert n. induction s as [|c s IH]; intros [|n] H; simpl in *; try done; [lia|]. f_equal. apply IH. lia. Qed.
Lemma cstr_all n s : (String.length s < n)%nat → cstr n s = s.
Proof. intros H. apply substring_all. lia. Qed.

Lemma length_sapp s t : String.length (s +:+ t) = (String.length s + String.length t)%nat.
Proof. induction s as [|c s IH]; [done|]. simpl. by f_equal. Qed.
Lemma sapp_assoc s t u : (s +:+ t) +:+ u = s +:+ (t +:+ u).
Proof. induction s as [|c s IH]; [done|]. change (String c ((s +:+ t) +:+ u) = String c (s +:+ (t +:+ u))). by rewrite IH. Qed.

Lemma digits_length fuel base n acc k :
  2 <= base → 0 <= n < base ^ Z.of_nat (S k) → (String.length (digits fuel base n acc) <= S k + String.length acc)%nat.
Proof.
  intros Hb. revert n acc k. induction fuel as [|fuel IH]; intros n acc k Hn; cbn [digits]; [lia|].
  destruct (Z.eqb_spec (n / base) 0) as [E|E]; [simpl; lia|].
  destruct k as [|k]; [rewrite Z.pow_1_r in Hn; rewrite Z.div_small in E by done; done|].
  etrans; [apply (IH _ _ k)|simpl; lia]. rewrite Nat2Z.inj_succ, Z.pow_succ_r in Hn by lia.
  split; [apply Z.div_pos; lia|]. apply Z.div_lt_upper_bound; lia.
Qed.
Lemma length_fmt_x n : 0 <= n < 2 ^ 64 → (String.length (fmt_x n) <= 16)%nat.
Proof. intros Hn. unfold fmt_x. etrans; [apply (digits_length 64 16 n "" 15)|simpl; lia]; [lia|]. done. Qed.

(** ** Hex dumps *)
Definition is_byte (b : Z) : Prop := 0 <= b < 256.

(** Bytes in hexadecimal, separated by spaces, and back. *)
Fixpoint hex_join (l : list Z) : string :=
  match l with
  | [] => ""
  | b :: l => fmt_02x b +:+ (if l is [] then "" else " ") +:+ hex_join l
  end.
Fixpoint unhex (s : string) : list Z :=
  match s with
  | String a (String b s) =>
      (16 * char_digit a + char_digit b) :: match s with String _ s => unhex s | EmptyString => [] end
  | _ => []
  end.

Definition byte_ok (b : Z) : bool :=
  match fmt_02x b with
  | String x (String y EmptyString) => 16 * char_digit x + char_digit y =? b
  | _ => false
  end.
Lemma bytes_ok b : is_byte b → byte_ok b = true.
Proof.
  intros Hb. assert (forallb byte_ok (Z.of_nat <$> seq 0 256) = true) as F by (vm_compute; reflexivity).
  rewrite forallb_forall in F. apply F, list_elem_of_In, list_elem_of_fmap. exists (Z.to_nat b).
  unfold is_byte in Hb. split; [lia|]. apply elem_of_seq. lia.
Qed.
Lemma fmt_02x_two b : is_byte b → ∃ x y, fmt_02x b = String x (String y EmptyString) ∧ 16 * char_digit x + char_digit y = b.
Proof.
  intros Hb. pose proof (bytes_ok b Hb) as E. unfold byte_ok in E.
  destruct (fmt_02x b) as [|x [|y [|z s]]]; try done. exists x, y. split; [done|lia].
Qed.

Lemma unhex_join l : Forall is_byte l → unhex (hex_join l) = l.
Proof.
  induction 1 as [|b l Hb Hl IH]; [done|]. simpl. destruct (fmt_02x_two b Hb) as (x & y & -> & E). simpl. rewrite E.
  f_equal. destruct l as [|c l]; [done|]. simpl in *. done.
Qed.

Lemma hexdump_loop_S cap p end_ j r buf :
  hexdump_loop cap p end_ j (S r) buf =
  if (String.length (default "" buf) + 4 <? cap)%nat then
    hexdump_loop cap p end_ (S j) r
      (Some (default "" buf +:+ cstr (cap - String.length (default "" buf))
                                  (fmt_02x (nth j p 0) +:+ (if (j + 1 <? end_)%nat then " " else ""))))
  else buf.
Proof. done. Qed.

Lemma hexdump_loop_spec cap p end_ m j buf :
  (j + S m = end_)%nat → (end_ <= length p)%nat → Forall is_byte p →
  (String.length (default "" buf) + 3 * S m + 1 < cap)%nat →
  hexdump_loop cap p end_ j (S m) buf = Some (default "" buf +:+ hex_join (take (S m) (drop j p))).
Proof.
  intros Hj Hp Hb. revert j buf Hj. induction m as [|m IH]; intros j buf Hj Hc; rewrite hexdump_loop_S;
    rewrite (proj2 (Nat.ltb_lt (String.length (default "" buf) + 4) cap)) by lia; destruct (lookup_lt_is_Some_2 p j) as [b Eb]; try lia;
    rewrite (drop_S p b j Eb), (nth_lookup_Some p j 0 b Eb);
    destruct (fmt_02x_two b (proj1 (Forall_lookup _ _) Hb j b Eb)) as (x & y & Ef & _).
  - rewrite (proj2 (Nat.ltb_ge _ _)) by lia. cbn [hexdump_loop take hex_join]. rewrite Ef. by rewrite cstr_all by (simpl; lia).
  - rewrite (proj2 (Nat.ltb_lt _ _)) by lia. rewrite cstr_all by (rewrite Ef; simpl; lia).
    rewrite IH; [|lia|simpl; rewrite length_sapp, Ef; simpl; lia]. simpl. f_equal. rewrite sapp_assoc. f_equal. rewrite Ef.
    destruct (lookup_lt_is_Some_2 p (S j)) as [c Ec]; [lia|]. by rewrite (drop_S p c (S j) Ec).
Qed.

(** The dump of a window is complete: no byte of it is cut off. *)
Lemma hexdump_window_spec cap p start end_ :
  (start < end_)%nat → (end_ <= length p)%nat → Forall is_byte p → (3 * (end_ - start) + 1 < cap)%nat →
  hexdump_window cap p start end_ = Some (hex_join (take (end_ - start) (drop start p))).
Proof.
  intros Hs Hp Hb Hc. unfold hexdump_window. destruct (end_ - start)%nat as [|m] eqn:E; [lia|].
  by rewrite hexdump_loop_spec by (simpl; lia || done).
Qed.

(** ** Differences *)
Lemma first_diff_spec a b n :
  (n <= length a)%nat → (n <= length b)%nat →
  let i := first_diff a b n in
  (i <= n)%nat ∧ take i a = take i b ∧ ((i < n)%nat → nth i a 0 ≠ nth i b 0).
Proof.
  revert a b. induction n as [|n IH]; intros a b Ha Hb; [by split_and!; [destruct a|destruct a|intros ?%Nat.nlt_0_r]|].
  destruct a as [|x a]; [simpl in Ha; lia|]. destruct b as [|y b]; [simpl in Hb; lia|]. simpl in Ha, Hb. cbn [first_diff].
  destruct (Z.eqb_spec x y) as [->|Hn]; [|split; [lia|]; split; [done|by intros _]].
  destruct (IH a b) as (? & ? & ?); [lia..|]. split; [lia|]. split; [simpl; by f_equal|]. intros. apply H1. lia.
Qed.

Lemma first_diff_all a b n :
  (n <= length a)%nat → (n <= length b)%nat → first_diff a b n = n ↔ take n a = take n b.
Proof.
  intros Ha Hb. destruct (first_diff_spec a b n Ha Hb) as (Hi & Ht & Hd). split; [by intros <-|].
  intros E. destruct (decide (first_diff a b n = n)) as [|Hne]; [done|]. destruct Hd; [lia|].
  rewrite !nth_lookup. rewrite <-(lookup_take_lt a n), <-(lookup_take_lt b n), E by lia. done.
Qed.

(** What a byte assertion that compares [n] bytes and dumps at most [m] of them
    reports: the first difference, and a window around it. *)
Lemma bytes_differ (a b : list Z) n :
  (n <= length a)%nat → (n <= length b)%nat → first_diff a b n ≠ n →
  let i := first_diff a b n in (i < n)%nat ∧ take i a = take i b ∧ nth i a 0 ≠ nth i b 0.
Proof. intros Ha Hb Hne i. destruct (first_diff_spec a b n Ha Hb) as (? & ? & ?). fold i in H, H0, H1, Hne. split; [lia|]. split; [done|]. apply H1. lia. Qed.

Lemma fail_not_returns file line text g g' : asmtest_fail file line text g ≠ (g', Returns).
Proof. done. Qed.

(** Bytes [s] to [e] of [p]. *)
Definition window (p : list Z) (s e : nat) : list Z := take (e - s) (drop s p).

(** C19: the memory assertion is exact.  It returns, changing nothing, when the [n]
    bytes agree, and otherwise fails the test at its location with the index of the
    first byte that differs and two dumps of a window of at most 16 bytes around
    it; the dumps lie inside the [n] bytes, are never cut off by their buffers, and
    read back as the bytes of the two sides (the test's message as a whole is cut
    at 1023 characters). *)
Theorem mem_eq_exact file line aexpr bexpr pa pb n g
    (Ha : (n <= length pa)%nat) (Hb : (n <= length pb)%nat) (Hpa : Forall is_byte pa) (Hpb : Forall is_byte pb) :
  (take n pa = take n pb ∧ asmtest_assert_mem_eq file line aexpr bexpr pa pb n g = (g, Returns)) ∨
  ∃ i s e, (s <= i < e)%nat ∧ (e <= n)%nat ∧ (e - s <= 16)%nat ∧ take i pa = take i pb ∧ nth i pa 0 ≠ nth i pb 0 ∧
    asmtest_assert_mem_eq file line aexpr bexpr pa pb n g =
    asmtest_fail file line
      ("ASSERT_MEM_EQ(" +:+ aexpr +:+ ", " +:+ bexpr +:+ ", " +:+ fmt_u (Z.of_nat n) +:+ "): " +:+ diff_text i pb pa
       +:+ "       bytes [" +:+ fmt_u (Z.of_nat s) +:+ "," +:+ fmt_u (Z.of_nat e) +:+ ")" +:+ nl
       +:+ "       expect: " +:+ hex_join (window pb s e) +:+ nl
       +:+ "       actual: " +:+ hex_join (window pa s e)) g ∧
    unhex (hex_join (window pb s e)) = window pb s e ∧ unhex (hex_join (window pa s e)) = window pa s e.
Proof.
  unfold asmtest_assert_mem_eq. destruct (Nat.eqb_spec (first_diff pa pb n) n) as [E|E].
  { left. split; [by apply first_diff_all|done]. }
  right. destruct (bytes_differ pa pb n Ha Hb E) as (Hi & Ht & Hd). set (i := first_diff pa pb n) in *.
  set (s := if (8 <=? i)%nat then (i - 8)%nat else 0%nat). set (e := if (n <? s + 16)%nat then n else (s + 16)%nat).
  assert (s <= i < e ∧ e <= n ∧ e - s <= 16)%nat as (? & ? & ?).
  { unfold e, s. destruct (Nat.leb_spec 8 i); destruct (Nat.ltb_spec n (i - 8 + 16)), (Nat.ltb_spec n (0 + 16)); lia. }
  exists i, s, e. split_and!; [lia..|done|done| | |].
  - by rewrite !hexdump_window_spec by (lia || done).
  - apply unhex_join. by apply Forall_take, Forall_drop.
  - apply unhex_join. by apply Forall_take, Forall_drop.
Qed.

(** The vector assertions: all of the two registers is in the text. *)
Lemma lanes_exact width cap name file line idx a b g :
  (width <= length a)%nat → (width <= length b)%nat → Forall is_byte a → Forall is_byte b → (3 * width + 1 < cap)%nat →
  (take width a = take width b ∧ assert_lanes width cap name file line idx a b g = (g, Returns)) ∨
  ∃ i, (i < width)%nat ∧ take i a = take i b ∧ nth i a 0 ≠ nth i b 0 ∧
    assert_lanes width cap name file line idx a b g =
    asmtest_fail file line
      (name +:+ "(vec[" +:+ idx +:+ "]): " +:+ diff_text i b a +:+ "       expect: " +:+ hex_join (take width b) +:+ nl
       +:+ "       actual: " +:+ hex_join (take width a)) g.
Proof.
  intros Ha Hb Hba Hbb Hc. unfold assert_lanes. destruct (Nat.eqb_spec (first_diff a b width) width) as [E|E].
  { left. split; [by apply first_diff_all|done]. }
  right. destruct (bytes_differ a b width Ha Hb E) as (Hi & Ht & Hd). exists (first_diff a b width).
  split_and!; [done..|]. by rewrite !hexdump_window_spec, !drop_0, !Nat.sub_0_r by (lia || done).
Qed.

(** The scalable registers: only the live bytes are compared, and the window that
    is dumped holds the difference. *)
Lemma scalable_exact name file line len a b g :
  (len <= length a)%nat → (len <= length b)%nat → Forall is_byte a → Forall is_byte b →
  (take len a = take len b ∧ assert_scalable name file line len a b g = (g, Returns)) ∨
  ∃ i s e, (s <= i < e)%nat ∧ (e <= len)%nat ∧ take i a = take i b ∧ nth i a 0 ≠ nth i b 0 ∧
    assert_scalable name file line len a b g =
    asmtest_fail file line
      (name +:+ diff_text i b a
       +:+ "       expect[" +:+ fmt_u (Z.of_nat s) +:+ "..]: " +:+ hex_join (window b s e) +:+ nl
       +:+ "       actual[" +:+ fmt_u (Z.of_nat s) +:+ "..]: " +:+ hex_join (window a s e)) g.
Proof.
  intros Ha Hb Hba Hbb. unfold assert_scalable. destruct (Nat.eqb_spec (first_diff a b len) len) as [E|E].
  { left. split; [by apply first_diff_all|done]. }
  right. destruct (bytes_differ a b len Ha Hb E) as (Hi & Ht & Hd). set (i := first_diff a b len) in *.
  set (s := (i - i mod 64)%nat). set (e := if (len <? s + 64)%nat then len else (s + 64)%nat).
  assert (s <= i < e ∧ e <= len ∧ e - s <= 64)%nat as (? & ? & ?).
  { pose proof (Nat.mod_upper_bound i 64). unfold e, s. destruct (Nat.ltb_spec len (i - i mod 64 + 64)); lia. }
  exists i, s, e. split_and!; [lia..|done|done|]. by rewrite !hexdump_window_spec by (lia || done).
Qed.

(** ** Registers *)
Lemma check_loop_spec chk r out :
  ((∀ name want, (name, want) ∈ chk → r_get r name = want) ∧ check_loop chk r out = (0, put_msg out "")) ∨
  ∃ pre name want post, chk = pre ++ (name, want) :: post ∧ (∀ n w, (n, w) ∈ pre → r_get r n = w) ∧ r_get r name ≠ want ∧
    check_loop chk r out = (1, put_msg out (restored_text name (r_get r name) want)).
Proof.
  induction chk as [|[name want] chk IH]; simpl; [left; by split; [intros ?? ?%elem_of_nil|]|].
  destruct (Z.eqb_spec (r_get r name) want) as [E|E]; simpl.
  - destruct IH as [[Hall ->]|(pre & nm & w & post & -> & Hpre & Hne & ->)]; [left|right].
    + split; [|done]. intros n' w' [[= -> ->]|?]%elem_of_cons; auto.
    + exists ((name, want) :: pre), nm, w, post. split; [done|]. split; [|done]. intros n' w' [[= -> ->]|?]%elem_of_cons; auto.
  - right. exists [], name, want, chk. split; [done|]. split; [by intros ?? ?%elem_of_nil|done].
Qed.

Lemma saved_shape a name want : (name, want) ∈ callee_saved a → (String.length name <= 3)%nat ∧ 0 <= want < 2 ^ 64.
Proof.
  assert (forallb (λ '(n, w), (String.length n <=? 3)%nat && (0 <=? w) && (w <? 2 ^ 64)) (callee_saved a) = true) as F
    by (destruct a; vm_compute; reflexivity).
  rewrite forallb_forall in F. intros H%list_elem_of_In. specialize (F _ H). cbv beta iota in F.
  apply andb_true_iff in F as [[?%Nat.leb_le ?%Z.leb_le]%andb_true_iff ?%Z.ltb_lt]. done.
Qed.

Lemma restored_text_short a name want got :
  (name, want) ∈ callee_saved a → 0 <= got < 2 ^ 64 → (String.length (restored_text name got want) < 128)%nat.
Proof.
  intros H Hg. destruct (saved_shape a name want H). unfold restored_text. rewrite !length_sapp. simpl.
  pose proof (length_fmt_x got Hg). pose proof (length_fmt_x want ltac:(done)). lia.
Qed.

(** C18: the register assertion is exact, for the four calling conventions.  It
    returns when every callee-saved register holds its sentinel, and otherwise
    fails the test naming the first register in the table that does not, with the
    value found and the value expected; no part of that text is lost in the
    buffers it goes through. *)
Theorem abi_assertion_exact file line a r g (Hr : ∀ name, 0 <= r_get r name < 2 ^ 64) :
  ((∀ name want, (name, want) ∈ callee_saved a → r_get r name = want) ∧
   asmtest_assert_abi file line a r g = (g, Returns)) ∨
  ∃ pre name want post, callee_saved a = pre ++ (name, want) :: post ∧
    (∀ n w, (n, w) ∈ pre → r_get r n = w) ∧ r_get r name ≠ want ∧
    asmtest_assert_abi file line a r g =
    (mk_globals ("ASSERT_ABI_PRESERVED: " +:+ restored_text name (r_get r name) want) (Some file) line (note_path g)
       (note_step g) (record_dir g) (record_cur g), Jumps JMP_FAIL).
Proof.
  unfold asmtest_assert_abi, asmtest_check_abi.
  destruct (check_loop_spec (callee_saved a) r (Some 128%nat)) as [[Hall ->]|(pre & name & want & post & E & Hpre & Hne & ->)];
    [by left|right].
  exists pre, name, want, post. split_and!; [done..|]. simpl.
  pose proof (restored_text_short a name want (r_get r name)) as Hs. specialize (Hs ltac:(rewrite E; set_solver) (Hr name)).
  unfold asmtest_fail, text_of. change (default "" (Some ?x)) with x.
  rewrite (cstr_all 128) by done. rewrite cstr_all; [done|]. rewrite length_sapp. simpl. lia.
Qed.

(** ** Nearness *)
Lemma near_zero_keys w x y :
  1 < w → 0 <= x < 2 ^ w → 0 <= y < 2 ^ w →
  Rng.ulp_distance w x y = 0 ↔ x = y ∨ magnitude w x = 0 ∧ magnitude w y = 0.
Proof.
  intros Hw Hx Hy. rewrite Rng.ulp_distance_spec by done. unfold Rng.sign_magnitude, magnitude.
  assert (2 ^ w = 2 * 2 ^ (w - 1)) as Ew by (rewrite <-Z.pow_succ_r by lia; f_equal; lia).
  assert (∀ z, 0 <= z < 2 ^ w → z mod 2 ^ (w - 1) = if z <? 2 ^ (w - 1) then z else z - 2 ^ (w - 1)) as Hm.
  { intros z Hz. destruct (Z.ltb_spec z (2 ^ (w - 1))); [apply Z.mod_small; lia|].
    rewrite <-(Z_mod_plus_full _ (-1)), Z.mod_small; lia. }
  rewrite !Hm by done. destruct (Z.ltb_spec x (2 ^ (w - 1))), (Z.ltb_spec y (2 ^ (w - 1))); lia.
Qed.

(** A distance of 0 is equality, NaNs apart: the two float assertions agree. *)
Lemma near_zero_is_eq w show file line n1 n2 x y g :
  1 < w → 0 <= x < 2 ^ w → 0 <= y < 2 ^ w →
  assert_near w show file line n1 x y 0 g = (g, Returns) ↔
  assert_feq w show file line n2 x y g = (g, Returns) ∨ is_nan w x = true ∧ is_nan w y = true.
Proof.
  intros Hw Hx Hy. unfold assert_near, assert_feq, feq, holds.
  destruct (is_nan w x) eqn:Ex, (is_nan w y) eqn:Ey; simpl; try (by split; [auto|intros [?|[? ?]]]); try tauto.
  pose proof (near_zero_keys w x y Hw Hx Hy) as E.
  assert (0 <= Rng.ulp_distance w x y) by (rewrite Rng.ulp_distance_spec by done; lia).
  destruct (Z.ltb_spec 0 (Rng.ulp_distance w x y)), (Z.eqb_spec x y), (Z.eqb_spec (magnitude w x) 0), (Z.eqb_spec (magnitude w y) 0);
    simpl; split; intros H'; try done; try (by left); try (by destruct H'); exfalso; naive_solver lia.
Qed.

(** ** Guard pages *)
Section guard_proofs.
Context (pg : Z) (Hpg : 0 < pg) (Hsz : 2 * pg < 2 ^ 64).

Lemma elem_pages base len q : q ∈ pages pg base len ↔ page pg base <= q < page pg base + (len + pg - 1) / pg.
Proof.
  unfold pages. rewrite list_elem_of_fmap. setoid_rewrite elem_of_seq. split.
  - intros (i & -> & Hi). lia.
  - intros Hq. exists (Z.to_nat (q - page pg base)). lia.
Qed.

Lemma lookup_protect s base len p q :
  protect pg s base len p !! q = if decide (page pg base <= q < page pg base + (len + pg - 1) / pg) then Some p else s !! q.
Proof.
  rewrite <-(decide_ext _ _ _ _ (elem_pages base len q)). unfold protect.
  induction (pages pg base len) as [|x l IH]; [done|]. simpl. destruct (decide (q = x)) as [->|Hn].
  - rewrite lookup_insert_eq, decide_True by set_solver. done.
  - rewrite lookup_insert_ne, IH by done. apply decide_ext. set_solver.
Qed.
Lemma lookup_munmap s base len q :
  munmap pg s base len !! q = if decide (page pg base <= q < page pg base + (len + pg - 1) / pg) then None else s !! q.
Proof.
  rewrite <-(decide_ext _ _ _ _ (elem_pages base len q)). unfold munmap.
  induction (pages pg base len) as [|x l IH]; [done|]. simpl. destruct (decide (q = x)) as [->|Hn].
  - rewrite lookup_delete_eq, decide_True by set_solver. done.
  - rewrite lookup_delete_ne, IH by done. apply decide_ext. set_solver.
Qed.

(** The usable size is a positive number of pages that holds [n] bytes and leaves
    room for the guard page, or 0. *)
Lemma round_up_spec n :
  0 <= n < 2 ^ 64 →
  (round_up_page pg n = 0 ∧ 2 ^ 64 - 1 - 2 * pg < n) ∨
  ∃ k, 0 < k ∧ round_up_page pg n = pg * k ∧ n <= pg * k ∧ pg * k + pg < 2 ^ 64.
Proof.
  intros Hn. unfold round_up_page, SIZE_MAX. rewrite (u64_small (2 * pg)) by lia. rewrite (u64_small (_ - _)) by lia.
  destruct (Z.ltb_spec (2 ^ 64 - 1 - 2 * pg) n) as [H|H]; [by left|right].
  rewrite (u64_small (n + pg)), (u64_small (n + pg - 1)) by lia.
  assert (0 <= (n + pg - 1) / pg * pg <= n + pg - 1) as Hb by (pose proof (Z.div_mod (n + pg - 1) pg); pose proof (Z.mod_pos_bound (n + pg - 1) pg); nia).
  rewrite u64_small by lia. destruct (Z.eqb_spec ((n + pg - 1) / pg * pg) 0) as [E|E].
  - exists 1. assert ((n + pg - 1) / pg = 0) as E0 by nia. apply Z.div_small_iff in E0; lia.
  - exists ((n + pg - 1) / pg). pose proof (Z.div_mod (n + pg - 1) pg). pose proof (Z.mod_pos_bound (n + pg - 1) pg).
    split; [nia|]. split; [lia|]. nia.
Qed.

(** What [mmap] promises: whole pages, not at 0, below the end of the address
    space, and not in use. *)
Definition mmap_ok (s : space) (got : Z → option Z) : Prop :=
  ∀ len base, got len = Some base →
    0 < base ∧ base mod pg = 0 ∧ base + len < 2 ^ 64 ∧ ∀ q, page pg base <= q < page pg base + (len + pg - 1) / pg → s !! q = None.

(** Whole pages: their number, and the page of a byte in them. *)
Lemma whole_pages k : 0 <= k → (pg * k + pg - 1) / pg = k.
Proof. intros Hk. symmetry. apply (Z.div_unique_pos _ _ _ (pg - 1)); lia. Qed.
Lemma one_page : (pg + pg - 1) / pg = 1.
Proof. pose proof (whole_pages 1) as E. rewrite Z.mul_1_r in E. apply E. lia. Qed.
Lemma page_add base k a : base mod pg = 0 → pg * k <= a < pg * k + pg → page pg (base + a) = page pg base + k.
Proof.
  intros Hb Ha. unfold page. apply Z.div_exact in Hb; [|lia]. set (c := base / pg) in *. rewrite Hb.
  symmetry. apply (Z.div_unique_pos _ _ _ (a - pg * k)); lia.
Qed.

(** A mapping that is undone leaves the address space as it was. *)
Lemma unmap_protect s base t f :
  (∀ q, page pg base <= q < page pg base + t → s !! q = None) → 0 <= t →
  (∀ q, ¬ (page pg base <= q < page pg base + t) → f !! q = s !! q) →
  munmap pg f base (pg * t) = s.
Proof.
  intros Hs Ht Hf. apply map_eq. intros q. rewrite lookup_munmap, whole_pages by done.
  case_decide; [by rewrite Hs|by apply Hf].
Qed.

(** The two layouts: the guard page behind the buffer, and in front of it. *)
Lemma guarded_alloc_spec got ok s n :
  0 <= n < 2 ^ 64 → mmap_ok s got →
  match asmtest_guarded_alloc pg got ok s n with
  | (None, s') => s' = s
  | (Some p, s') =>
      0 < p ∧ p + n + pg < 2 ^ 64 ∧ (∀ a, p <= a < p + n → s' !! page pg a = Some PROT_RW) ∧
      (∀ a, p + n <= a < p + n + pg → s' !! page pg a = Some PROT_NONE) ∧
      asmtest_guarded_free pg s' (Some p) n = s
  end.
Proof.
  intros Hn Hm. unfold asmtest_guarded_alloc, asmtest_guarded_free.
  destruct (round_up_spec n Hn) as [[-> _]|(k & Hk & -> & Hnk & Hkb)]; [done|].
  rewrite (proj2 (Z.eqb_neq (pg * k) 0)) by nia. rewrite (u64_small (pg * k + pg)), (u64_small (pg * k - n)) by lia.
  destruct (got (pg * k + pg)) as [base|] eqn:Eg; [|done]. destruct (Hm _ _ Eg) as (Hb & Hal & Hend & Hfree).
  replace (pg * k + pg) with (pg * (k + 1)) in * by lia. rewrite whole_pages in Hfree by lia.
  destruct ok; cycle 1.
  { apply unmap_protect; [done|lia|]. intros q Hq. by rewrite lookup_protect, whole_pages, decide_False by lia. }
  rewrite (u64_small (base + (pg * k - n))), (u64_small (base + pg * k)), (u64_small (_ - _)) by lia.
  replace (base + (pg * k - n) - (pg * k - n)) with base by lia.
  assert (page pg (base + pg * k) = page pg base + k) as Ep by (apply page_add; lia).
  pose proof one_page as E1.
  split_and!; [lia|lia| | |].
  - intros a Ha. rewrite !lookup_protect, Ep, E1, whole_pages by lia.
    assert (page pg a < page pg base + k) by (unfold page; apply Z.div_lt_upper_bound; [lia|]; apply Z.div_exact in Hal; [|lia]; unfold page; lia).
    assert (page pg base <= page pg a) by (unfold page; apply Z.div_le_mono; lia).
    by rewrite decide_False, decide_True by lia.
  - intros a Ha. rewrite !lookup_protect, Ep, E1.
    replace a with (base + (a - base)) by lia. rewrite (page_add base k) by lia. by rewrite decide_True by lia.
  - apply unmap_protect; [done|lia|]. intros q Hq. rewrite !lookup_protect, Ep, E1, whole_pages by lia.
    by rewrite !decide_False by lia.
Qed.

Lemma guarded_alloc_under_spec got ok s n :
  0 <= n < 2 ^ 64 → mmap_ok s got →
  match asmtest_guarded_alloc_under pg got ok s n with
  | (None, s') => s' = s
  | (Some p, s') =>
      pg < p ∧ p + n < 2 ^ 64 ∧ (∀ a, p <= a < p + n → s' !! page pg a = Some PROT_RW) ∧
      (∀ a, p - pg <= a < p → s' !! page pg a = Some PROT_NONE) ∧
      asmtest_guarded_free_under pg s' (Some p) n = s
  end.
Proof.
  intros Hn Hm. unfold asmtest_guarded_alloc_under, asmtest_guarded_free_under.
  destruct (round_up_spec n Hn) as [[-> _]|(k & Hk & -> & Hnk & Hkb)]; [done|].
  rewrite (proj2 (Z.eqb_neq (pg * k) 0)) by nia. rewrite (u64_small (pg + pg * k)) by lia.
  destruct (got (pg + pg * k)) as [base|] eqn:Eg; [|done]. destruct (Hm _ _ Eg) as (Hb & Hal & Hend & Hfree).
  replace (pg + pg * k) with (pg * (k + 1)) in * by lia. rewrite whole_pages in Hfree by lia.
  destruct ok; cycle 1.
  { apply unmap_protect; [done|lia|]. intros q Hq. by rewrite lookup_protect, whole_pages, decide_False by lia. }
  rewrite (u64_small (base + pg)), (u64_small (base + pg - pg)) by lia. replace (base + pg - pg) with base by lia.
  assert (page pg (base + pg) = page pg base + 1) as Ep by (apply page_add; lia).
  pose proof one_page as E1.
  split_and!; [lia|lia| | |].
  - intros a Ha. rewrite !lookup_protect, E1, whole_pages by lia.
    assert (page pg base + 1 <= page pg a) by (rewrite <-Ep; unfold page; apply Z.div_le_mono; lia).
    assert (page pg a < page pg base + (k + 1)) by (unfold page; apply Z.div_lt_upper_bound; [lia|]; apply Z.div_exact in Hal; [|lia]; unfold page; lia).
    by rewrite decide_False, decide_True by lia.
  - intros a Ha. rewrite !lookup_protect, E1.
    replace a with (base + (a - base)) by lia. rewrite (page_add base 0) by lia. by rewrite decide_True by lia.
  - apply unmap_protect; [done|lia|]. intros q Hq. rewrite !lookup_protect, E1, whole_pages by lia.
    by rewrite !decide_False by lia.
Qed.
End guard_proofs.

(** A flag assertion asks for 0 or 1 and holds when the flag is that. *)
Lemma flag_assertion_exact file line r mask want name g :
  want = 0 ∨ want = 1 →
  asmtest_assert_flag file line r mask want name g = (g, Returns) ↔ (want = 1 ↔ Z.land (flags r) mask ≠ 0).
Proof.
  intros Hw. unfold asmtest_assert_flag, asmtest_check_flag, holds.
  destruct (Z.eqb_spec (Z.land (flags r) mask) 0), Hw as [-> | ->]; simpl; split; intros; try done; naive_solver.
Qed.

(** C20: guard pages guard.  For every size and page size, whatever [mmap] and
    [mprotect] answer: a buffer that is returned can be read and written in all of
    its bytes and nowhere in the page behind its last byte (in front of its first
    byte for the underrun variant), the arithmetic never wraps, freeing it gives
    back exactly the pages that were mapped, and a failed request leaves the
    address space as it was. *)
Theorem guard_pages_exact pg got ok s n
    (Hpg : 0 < pg) (Hsz : 2 * pg < 2 ^ 64) (Hn : 0 <= n < 2 ^ 64) (Hm : mmap_ok pg s got) :
  match asmtest_guarded_alloc pg got ok s n with
  | (None, s') => s' = s
  | (Some p, s') =>
      0 < p ∧ p + n + pg < 2 ^ 64 ∧ (∀ a, p <= a < p + n → s' !! page pg a = Some PROT_RW) ∧
      (∀ a, p + n <= a < p + n + pg → s' !! page pg a = Some PROT_NONE) ∧
      asmtest_guarded_free pg s' (Some p) n = s
  end ∧
  match asmtest_guarded_alloc_under pg got ok s n with
  | (None, s') => s' = s
  | (Some p, s') =>
      pg < p ∧ p + n < 2 ^ 64 ∧ (∀ a, p <= a < p + n → s' !! page pg a = Some PROT_RW) ∧
      (∀ a, p - pg <= a < p → s' !! page pg a = Some PROT_NONE) ∧
      asmtest_guarded_free_under pg s' (Some p) n = s
  end.
Proof. split; [by apply guarded_alloc_spec|by apply guarded_alloc_under_spec]. Qed.

(** ** Concrete runs *)
Definition g0 : globals := mk_globals "" None 0 "" (-1) "" "".

Lemma mem_eq_exact_witness :
  let '(g, e) := asmtest_assert_mem_eq "t.c" 7 "a" "b" [1; 2; 255] [1; 3; 255] 3 g0 in
  e = Jumps JMP_FAIL ∧
  asmtest_msg g = "ASSERT_MEM_EQ(a, b, 3): first diff at byte 1 (0x03 != 0x02)" +:+ nl +:+ "       bytes [0,3)" +:+ nl
    +:+ "       expect: 01 03 ff" +:+ nl +:+ "       actual: 01 02 ff".
Proof.
  assert (Forall is_byte [1; 2; 255] ∧ Forall is_byte [1; 3; 255]) as [H1 H2]
    by (split; repeat (constructor; [unfold is_byte; lia|]); constructor).
  destruct (mem_eq_exact "t.c" 7 "a" "b" [1; 2; 255] [1; 3; 255] 3 g0 (le_n 3) (le_n 3) H1 H2)
    as [[H _]|(i & s & e & _ & _ & _ & _ & _ & _ & _ & _)]; [discriminate H|].
  vm_compute. split; reflexivity.
Defined.

Definition clobbered : regs_t :=
  mk_regs (λ n, if String.eqb n "rbx" then 0x1111111111111111 else if String.eqb n "rbp" then 0x2222222222222222 else 9) 0 (λ _, (0, 0)).
Lemma abi_assertion_exact_witness :
  let '(g, e) := asmtest_assert_abi "t.c" 7 SysV clobbered g0 in
  e = Jumps JMP_FAIL ∧ asmtest_msg g = "ASSERT_ABI_PRESERVED: r12 not restored (got 0x9, expected 0x3333333333333333)".
Proof.
  destruct (abi_assertion_exact "t.c" 7 SysV clobbered g0) as [[H _]|(pre & name & want & post & _)].
  - intros name. simpl. destruct (String.eqb name "rbx"), (String.eqb name "rbp"); lia.
  - specialize (H "r12" 0x3333333333333333 ltac:(right; right; left)). discriminate H.
  - vm_compute. split; reflexivity.
Defined.

(** 100 bytes between two used pages. *)
Definition used : space := {[ 15 := PROT_RW; 18 := PROT_RW ]}.
Definition toy_mmap (len : Z) : option Z := if len =? 8192 then Some 65536 else None.
Lemma guard_pages_exact_witness :
  let '(p, s) := asmtest_guarded_alloc 4096 toy_mmap true used 100 in
  p = Some (65536 + 3996) ∧ s !! 16 = Some PROT_RW ∧ s !! 17 = Some PROT_NONE ∧ asmtest_guarded_free 4096 s p 100 = used.
Proof.
  assert (mmap_ok 4096 used toy_mmap) as Hm.
  { intros len base. unfold toy_mmap. destruct (Z.eqb_spec len 8192) as [->|]; [|discriminate]. intros [= <-].
    split; [lia|]. split; [reflexivity|]. split; [lia|]. intros q Hq.
    change (16 <= q < 16 + 2) in Hq. assert (q = 16 ∨ q = 17) as [-> | ->] by lia; reflexivity. }
  destruct (guard_pages_exact 4096 toy_mmap true used 100 ltac:(lia) ltac:(lia) ltac:(lia) Hm) as [H _].
  destruct (asmtest_guarded_alloc 4096 toy_mmap true used 100) as [[p|] s] eqn:E; [|vm_compute in E; discriminate E].
  destruct H as (_ & _ & _ & _ & Hf). vm_compute in E. injection E as <- <-.
  split; [reflexivity|]. split; [vm_compute; reflexivity|]. split; [vm_compute; reflexivity|]. exact Hf.
Defined.
End Assert.
