(* ===== verification/Sched.v ===== *)
(** The parallel scheduler of the runner ([spawn_job] and [run_parallel] of
    [src/asmtest.c]) against an environment that decides which forks succeed,
    what [poll] reports and in which order children finish. *)
From S2P Require Import Prelude.

Module Sched.

Section sched.
(** A finished result.  What the child running test [i] reports when it is
    reaped, what an in-process run of test [i] gives, and whether the fork for
    test [i] succeeds. *)
Context {R : Type} (child inproc : nat → R) (spawn_ok : nat → bool).

(** What [poll] does: an interruption, another failure, or a return with the
    slots whose child has data or hung up. *)
Inductive poll_result := PollEintr | PollFailed | PollReady (ready : nat → bool).

(** The environment's answer to the [poll] of the [k]-th round, which sees the
    slots in flight. *)
Context (polls : nat → list (option nat) → poll_result).

(** A slot holds the index of the test in flight in it; [results] entries are
    [None] until they are finalized.  [log] lists the tests in the order they
    were finalized. *)
Record state := mk_state {
  slots : list (option nat); next : nat; done_ : nat;
  results : list (option R); poll_ok : bool; inject : bool; log : list nat;
}.

Definition finalize (st : state) (i : nat) (r : R) : state :=
  mk_state (slots st) (next st) (S (done_ st)) (<[i := Some r]> (results st)) (poll_ok st)
    (inject st) (log st ++ [i]).
Definition set_slot (st : state) (j : nat) (x : option nat) : state :=
  mk_state (<[j := x]> (slots st)) (next st) (done_ st) (results st) (poll_ok st) (inject st) (log st).

(** [spawn_job] for the next test into slot [j]. *)
Definition spawn_job (st : state) (j : nat) : state :=
  let i := next st in
  let st := mk_state (slots st) (S i) (done_ st) (results st) (poll_ok st) (inject st) (log st) in
  if spawn_ok i then set_slot st j (Some i) else finalize st i (inproc i).

(** One slot of the fill loop. *)
Definition fill_slot (n : nat) (st : state) (j : nat) : state :=
  if (next st <? n)%nat then
    match slots st !! j with
    | Some None => spawn_job st j
    | _ => st
    end
  else st.

(** One slot of the reap loop. *)
Definition reap_slot (ready : nat → bool) (st : state) (j : nat) : state :=
  match slots st !! j with
  | Some (Some i) =>
      if poll_ok st && negb (ready j) then st
      else set_slot (finalize st i (child i)) j None
  | _ => st
  end.

Definition busy (sl : list (option nat)) : bool := existsb (λ s, match s with Some _ => true | None => false end) sl.
Definition no_poll (st : state) : state :=
  mk_state (slots st) (next st) (done_ st) (results st) false false (log st).

(** One round of the outer loop. *)
Definition round (n : nat) (k : nat) (st : state) : state :=
  let js := seq 0 (length (slots st)) in
  let st := foldl (fill_slot n) st js in
  if negb (busy (slots st)) then st
  else if poll_ok st then
    if inject st then foldl (reap_slot (λ _, false)) (no_poll st) js
    else match polls k (slots st) with
         | PollEintr => st
         | PollFailed => foldl (reap_slot (λ _, false)) (no_poll st) js
         | PollReady ready => foldl (reap_slot ready) st js
         end
  else foldl (reap_slot (λ _, false)) st js.

(** [while (done < n)]; [None] when the fuel runs out. *)
Fixpoint loop (fuel : nat) (n k : nat) (st : state) : option state :=
  if (done_ st <? n)%nat then
    match fuel with
    | O => None
    | S fuel => loop fuel n (S k) (round n k st)
    end
  else Some st.

Definition start (n : nat) (jobs : Z) (inj : bool) : state :=
  let jobs := if jobs <? 1 then 1 else jobs in
  let jobs := if Z.of_nat n <? jobs then Z.of_nat n else jobs in
  mk_state (replicate (Z.to_nat jobs) None) 0 0 (replicate n None) true inj [].

Definition run_parallel (fuel n : nat) (jobs : Z) (inj : bool) : option state :=
  loop fuel n 0 (start n jobs inj).

(** ** Invariant *)
(** The result a test must end with. *)
Definition verdict (i : nat) : R := if spawn_ok i then child i else inproc i.

(** The tests in flight. *)
Definition in_flight (sl : list (option nat)) : list nat := omap id sl.

Record inv (n : nat) (st : state) : Prop := {
  inv_split : log st ++ in_flight (slots st) ≡ₚ seq 0 (next st);
  inv_next : (next st <= n)%nat;
  inv_done : done_ st = length (log st);
  inv_len : length (results st) = n;
  inv_flight : ∀ i, i ∈ in_flight (slots st) → spawn_ok i = true;
  inv_results : ∀ i, i ∈ log st → results st !! i = Some (Some (verdict i));
}.

Lemma in_flight_insert_some sl j i :
  sl !! j = Some None → in_flight (<[j := Some i]> sl) ≡ₚ i :: in_flight sl.
Proof.
  revert j. induction sl as [|s sl IH]; intros j Hj; [done|]. destruct j as [|j]; simpl in *.
  - by simplify_eq.
  - destruct s as [x|]; simpl; rewrite IH by done; [|done]. apply Permutation_swap.
Qed.

Lemma in_flight_insert_none sl j i :
  sl !! j = Some (Some i) → in_flight sl ≡ₚ i :: in_flight (<[j := None]> sl).
Proof.
  revert j. induction sl as [|s sl IH]; intros j Hj; [done|]. destruct j as [|j]; simpl in *.
  - by simplify_eq.
  - destruct s as [x|]; simpl; rewrite (IH j) at 1 by done; [|done]. apply Permutation_swap.
Qed.

Lemma perm_seq_S l k : l ≡ₚ seq 0 k → k :: l ≡ₚ seq 0 (S k).
Proof. intros ->. rewrite seq_S. simpl. by rewrite Permutation_app_comm. Qed.

Lemma inv_nodup n st : inv n st → NoDup (log st ++ in_flight (slots st)).
Proof. intros H. rewrite (inv_split _ _ H). apply NoDup_seq. Qed.

(** ** Filling *)
Lemma spawn_job_inv n st j :
  inv n st → (next st < n)%nat → slots st !! j = Some None →
  inv n (spawn_job st j) ∧ next (spawn_job st j) = S (next st) ∧
  length (slots (spawn_job st j)) = length (slots st) ∧
  (done_ st <= done_ (spawn_job st j))%nat ∧
  (busy (slots (spawn_job st j)) = true ∨ (done_ st < done_ (spawn_job st j))%nat).
Proof.
  intros H Hn Hj. destruct H as [H1 H2 H3 H4 H5 H6]. unfold spawn_job.
  destruct (spawn_ok (next st)) eqn:Es; simpl.
  - split_and!; [|done|by rewrite length_insert|lia|].
    + split; simpl; [|lia|done..| |done].
      * rewrite in_flight_insert_some by done. rewrite <-Permutation_middle.
        by apply perm_seq_S.
      * intros i. rewrite in_flight_insert_some by done. rewrite elem_of_cons. intros [->|Hi]; auto.
    + left. unfold busy. apply existsb_exists. exists (Some (next st)). split; [|done].
      apply list_elem_of_In, list_elem_of_lookup. exists j. apply list_lookup_insert_eq.
      by eapply lookup_lt_Some.
  - split_and!; [|done..|lia|right; lia].
    split; simpl; [|lia| |by rewrite length_insert|done|].
    + rewrite <-app_assoc. cbn [app]. rewrite <-Permutation_middle. by apply perm_seq_S.
    + rewrite length_app. simpl. lia.
    + intros i [Hi| ->%list_elem_of_singleton]%elem_of_app.
      * assert (i ≠ next st).
        { intros ->. assert (next st ∈ seq 0 (next st)) as Hin by (rewrite <-H1; set_solver).
          apply elem_of_seq in Hin. lia. }
        rewrite list_lookup_insert_ne by done. by apply H6.
      * rewrite list_lookup_insert_eq by lia. unfold verdict. by rewrite Es.
Qed.

(** What every step of a round keeps. *)
Definition goes (n : nat) (st st' : state) : Prop :=
  inv n st' ∧ length (slots st') = length (slots st) ∧ (done_ st <= done_ st')%nat ∧
  (next st <= next st')%nat ∧ poll_ok st' = poll_ok st ∧ inject st' = inject st.

Lemma fill_inv n js st :
  inv n st → goes n st (foldl (fill_slot n) st js).
Proof.
  revert st. induction js as [|j js IH]; intros st H; [by split_and!|]. simpl.
  assert (goes n st (fill_slot n st j)) as (G1 & G2 & G3 & G4 & G5 & G6).
  { unfold fill_slot. destruct (Nat.ltb_spec (next st) n) as [Hlt|]; [|by split_and!].
    destruct (slots st !! j) as [[i|]|] eqn:Hj; [by split_and!| |by split_and!].
    destruct (spawn_job_inv n st j H Hlt Hj) as (? & ? & ? & ? & _).
    split_and!; [done..|lia| |]; unfold spawn_job; by destruct (spawn_ok _). }
  destruct (IH _ G1) as (I1 & I2 & I3 & I4 & I5 & I6).
  split_and!; [done|congruence|lia|lia|congruence|congruence].
Qed.

Lemma busy_spec sl : busy sl = true ↔ ∃ j i, sl !! j = Some (Some i).
Proof.
  unfold busy. rewrite existsb_exists. setoid_rewrite <-list_elem_of_In. split.
  - intros ([i|] & Hx & ?); [|done]. apply list_elem_of_lookup in Hx as [j Hj]. eauto.
  - intros (j & i & Hj). exists (Some i). split; [by eapply list_elem_of_lookup_2|done].
Qed.

Lemma not_busy_idle sl : busy sl = false → in_flight sl = [] ∧ ∀ j x, sl !! j = Some x → x = None.
Proof.
  intros Hb. assert (∀ j x, sl !! j = Some x → x = None) as Hn.
  { intros j [i|] Hj; [|done]. assert (busy sl = true) by (apply busy_spec; eauto). congruence. }
  split; [|done]. clear Hb. induction sl as [|x sl IH]; [done|].
  pose proof (Hn O x eq_refl) as ->. simpl. apply IH. intros j y Hj. by apply (Hn (S j)).
Qed.

Lemma fill_keeps_busy n js st :
  busy (slots st) = true → busy (slots (foldl (fill_slot n) st js)) = true.
Proof.
  revert st. induction js as [|j js IH]; intros st Hb; [done|]. simpl. apply IH.
  unfold fill_slot. destruct (next st <? n)%nat; [|done].
  destruct (slots st !! j) as [[i|]|] eqn:Hj; [done| |done]. unfold spawn_job.
  destruct (spawn_ok (next st)); simpl; [|done].
  apply busy_spec in Hb as (j0 & i0 & Hj0). apply busy_spec. exists j0, i0.
  rewrite list_lookup_insert_ne; [done|]. congruence.
Qed.

(** With tests left and at least one slot, filling puts something in flight or
    finishes something in process. *)
Lemma fill_progress n st :
  inv n st → (done_ st < n)%nat → (0 < length (slots st))%nat →
  let st' := foldl (fill_slot n) st (seq 0 (length (slots st))) in
  busy (slots st') = true ∨ (done_ st < done_ st')%nat.
Proof.
  intros H Hd Hlen st'. unfold st'. destruct (busy (slots st)) eqn:Hb.
  { left. by apply fill_keeps_busy. }
  destruct (not_busy_idle _ Hb) as [Hf Hnone].
  assert (next st = done_ st) as Hnd.
  { pose proof (inv_split _ _ H) as Hp. rewrite Hf, app_nil_r in Hp.
    apply Permutation_length in Hp. rewrite length_seq in Hp. rewrite (inv_done _ _ H). done. }
  destruct (length (slots st)) as [|len] eqn:El; [lia|]. cbn [seq foldl].
  assert (slots st !! O = Some None) as H0.
  { destruct (slots st) as [|x sl] eqn:Es; [done|]. by rewrite (Hnone O x eq_refl). }
  destruct (spawn_job_inv n st 0 H ltac:(lia) H0) as (Hi & _ & _ & _ & Hor).
  assert (fill_slot n st 0 = spawn_job st 0) as ->.
  { unfold fill_slot. by rewrite (proj2 (Nat.ltb_lt _ _)), H0 by lia. }
  destruct (fill_inv n (seq 1 len) _ Hi) as (_ & _ & Hmono & _).
  destruct Hor as [Hb'|Hlt]; [left; by apply fill_keeps_busy|right; lia].
Qed.

(** ** Reaping *)
Lemma reap_slot_inv n ready st j : inv n st → goes n st (reap_slot ready st j).
Proof.
  intros H. unfold reap_slot. destruct (slots st !! j) as [[i|]|] eqn:Hj; [|by split_and!..].
  destruct (poll_ok st && negb (ready j)); [by split_and!|].
  pose proof (inv_nodup n st H) as Hnd. destruct H as [H1 H2 H3 H4 H5 H6].
  pose proof (in_flight_insert_none _ _ _ Hj) as Hf. rewrite Hf in H1, Hnd.
  assert (i ∈ in_flight (slots st)) as Hi by (rewrite Hf; left).
  assert (i < n)%nat as Hin.
  { assert (i ∈ seq 0 (next st)) as Hs by (rewrite <-H1; set_solver). apply elem_of_seq in Hs. lia. }
  split_and!; simpl; [|by rewrite length_insert|lia|done..].
  split; simpl; [|done| |by rewrite length_insert|..].
  - by rewrite <-app_assoc.
  - rewrite length_app. simpl. lia.
  - intros i' Hi'. apply H5. rewrite Hf. by right.
  - intros i' [Hi'| ->%list_elem_of_singleton]%elem_of_app.
    + rewrite list_lookup_insert_ne; [by apply H6|]. intros <-.
      apply NoDup_app in Hnd as (_ & Hno & _). eapply Hno; [done|left].
    + rewrite list_lookup_insert_eq by lia. unfold verdict. by rewrite (H5 i).
Qed.

Lemma reap_inv n ready js st : inv n st → goes n st (foldl (reap_slot ready) st js).
Proof.
  revert st. induction js as [|j js IH]; intros st H; [by split_and!|]. simpl.
  destruct (reap_slot_inv n ready st j H) as (G1 & G2 & G3 & G4 & G5 & G6).
  destruct (IH _ G1) as (I1 & I2 & I3 & I4 & I5 & I6).
  split_and!; [done|congruence|lia|lia|congruence|congruence].
Qed.

(** A slot in flight that is ready, or any when [poll] is not used, is reaped. *)
Lemma reap_progress n ready js st j i :
  inv n st → j ∈ js → slots st !! j = Some (Some i) → poll_ok st = false ∨ ready j = true →
  (done_ st < done_ (foldl (reap_slot ready) st js))%nat.
Proof.
  revert st. induction js as [|j' js IH]; intros st H Hj Hs Hr; [set_solver|]. simpl.
  destruct (reap_slot_inv n ready st j' H) as (G1 & G2 & G3 & G4 & G5 & G6).
  destruct (reap_inv n ready js _ G1) as (_ & _ & Hmono & _).
  destruct (decide (j' = j)) as [->|Hne].
  - assert (done_ (reap_slot ready st j) = S (done_ st)) as E; [|lia].
    unfold reap_slot. rewrite Hs. destruct Hr as [->| ->]; [done|]. by rewrite andb_false_r.
  - eapply Nat.le_lt_trans; [exact G3|]. apply IH; [done|set_solver| |by rewrite G5].
    unfold reap_slot. destruct (slots st !! j') as [[i'|]|]; [|done..].
    destruct (poll_ok st && negb (ready j')); [done|]. simpl. by rewrite list_lookup_insert_ne.
Qed.

(** ** Rounds *)
(** [poll] with no timeout returns only when some child it watches is ready. *)
Definition poll_fair : Prop := ∀ k sl ready,
  busy sl = true → polls k sl = PollReady ready →
  ∃ j i, sl !! j = Some (Some i) ∧ ready j = true.

Lemma no_poll_inv n st : inv n st → inv n (no_poll st).
Proof. intros [? ? ? ? ? ?]. by split. Qed.

Lemma reap_all n st :
  inv n st → busy (slots st) = true → poll_ok st = false →
  inv n (foldl (reap_slot (λ _, false)) st (seq 0 (length (slots st)))) ∧
  length (slots (foldl (reap_slot (λ _, false)) st (seq 0 (length (slots st))))) = length (slots st) ∧
  (done_ st < done_ (foldl (reap_slot (λ _, false)) st (seq 0 (length (slots st)))))%nat.
Proof.
  intros H (j & i & Hj)%busy_spec Hp. destruct (reap_inv n (λ _, false) (seq 0 (length (slots st))) st H)
    as (G1 & G2 & _). split_and!; [done..|].
  eapply (reap_progress n _ _ st j i); [done| |done|by left].
  apply elem_of_seq. apply lookup_lt_Some in Hj. lia.
Qed.

(** A round keeps the invariant and finishes a test, unless [poll] was
    interrupted. *)
Lemma round_spec n k st :
  poll_fair → inv n st → (done_ st < n)%nat → (0 < length (slots st))%nat →
  inv n (round n k st) ∧ length (slots (round n k st)) = length (slots st) ∧
  (done_ st <= done_ (round n k st))%nat ∧
  ((done_ st < done_ (round n k st))%nat ∨ ∃ sl, polls k sl = PollEintr).
Proof.
  intros Hfair H Hd Hlen. unfold round.
  pose proof (fill_progress n st H Hd Hlen) as Hprog.
  destruct (fill_inv n (seq 0 (length (slots st))) st H) as (G1 & G2 & G3 & G4 & G5 & G6).
  set (st1 := foldl (fill_slot n) st _) in *.
  destruct (busy (slots st1)) eqn:Hb; simpl negb; cbv iota; cycle 1.
  { destruct Hprog as [?|?]; [congruence|]. split_and!; [done|done|lia|by left]. }
  rewrite <-G2.
  assert (∀ st2, inv n st2 → slots st2 = slots st1 → done_ st2 = done_ st1 → poll_ok st2 = false →
    let st3 := foldl (reap_slot (λ _, false)) st2 (seq 0 (length (slots st1))) in
    inv n st3 ∧ length (slots st3) = length (slots st1) ∧ (done_ st <= done_ st3)%nat ∧
    ((done_ st < done_ st3)%nat ∨ ∃ sl, polls k sl = PollEintr)) as Hall.
  { intros st2 H2 Es Ed Ep. rewrite <-Es.
    destruct (reap_all n st2 H2) as (R1 & R2 & R3); [by rewrite Es|done|].
    split_and!; [done..|lia|left; lia]. }
  destruct (poll_ok st1) eqn:Ep; [|by apply Hall].
  destruct (inject st1); [apply Hall; by try apply no_poll_inv|].
  destruct (polls k (slots st1)) as [| |ready] eqn:Epoll.
  - split_and!; [done|done|lia|]. right. eauto.
  - apply Hall; by try apply no_poll_inv.
  - destruct (Hfair k (slots st1) ready Hb Epoll) as (j & i & Hj & Hr).
    destruct (reap_inv n ready (seq 0 (length (slots st1))) st1 G1) as (R1 & R2 & R3 & _).
    assert (done_ st1 < done_ (foldl (reap_slot ready) st1 (seq 0 (length (slots st1)))))%nat.
    { eapply (reap_progress n _ _ st1 j i); [done| |done|by right].
      apply elem_of_seq. apply lookup_lt_Some in Hj. lia. }
    split_and!; [done..|lia|left; lia].
Qed.

(** ** The run *)
(** The rounds at which an interruption may still come. *)
Definition ahead (k : nat) (es : list nat) : nat := length (filter (λ e, (k <= e)%nat) es).

Lemma ahead_S k es : (ahead (S k) es <= ahead k es)%nat ∧ (k ∈ es → ahead (S k) es < ahead k es)%nat.
Proof.
  unfold ahead. induction es as [|e es [IH1 IH2]]; [split; [done|set_solver]|].
  rewrite !filter_cons, elem_of_cons.
  destruct (decide (S k <= e)%nat), (decide (k <= e)%nat); simpl; try lia;
    (split; [lia|]); intros [->|Hk]; try lia; apply IH2 in Hk; lia.
Qed.

Lemma loop_spec fuel n k es st :
  poll_fair → (∀ k sl, polls k sl = PollEintr → k ∈ es) →
  inv n st → (0 < n → 0 < length (slots st))%nat → (n - done_ st + ahead k es <= fuel)%nat →
  ∃ st', loop fuel n k st = Some st' ∧ inv n st' ∧ (n <= done_ st')%nat.
Proof.
  intros Hfair Hes. revert k st. induction fuel as [|fuel IH]; intros k st H Hlen Hf; cbn [loop];
    destruct (Nat.ltb_spec (done_ st) n) as [Hd|Hd]; [lia|by eauto| |by eauto].
  destruct (round_spec n k st Hfair H Hd ltac:(lia)) as (R1 & R2 & R3 & R4).
  apply IH; [done|by rewrite R2|]. destruct (ahead_S k es) as [A1 A2].
  destruct R4 as [Hlt|[sl Hsl]]; [lia|]. specialize (A2 (Hes k sl Hsl)). lia.
Qed.

Lemma start_inv n jobs inj : inv n (start n jobs inj).
Proof.
  unfold start.
  assert (∀ m, in_flight (replicate m None) = []) as Hf by (induction m; [done|by simpl]).
  split; simpl; rewrite ?Hf; try done.
  - lia.
  - apply length_replicate.
  - set_solver.
  - set_solver.
Qed.

Lemma run_parallel_spec n jobs inj es :
  poll_fair → (∀ k sl, polls k sl = PollEintr → k ∈ es) →
  ∃ st, run_parallel (n + length es) n jobs inj = Some st ∧
        results st = (Some ∘ verdict) <$> seq 0 n ∧ log st ≡ₚ seq 0 n ∧ in_flight (slots st) = [].
Proof.
  intros Hfair Hes. unfold run_parallel.
  destruct (loop_spec (n + length es) n 0 es (start n jobs inj) Hfair Hes (start_inv n jobs inj))
    as (st & Hst & [H1 H2 H3 H4 H5 H6] & Hdone).
  { unfold start. simpl. rewrite length_replicate. intros Hn.
    destruct (Z.ltb_spec jobs 1), (Z.ltb_spec (Z.of_nat n) 1), (Z.ltb_spec (Z.of_nat n) jobs); lia. }
  { simpl. unfold ahead. pose proof (length_filter_le (λ e, (0 <= e)%nat) es). lia. }
  exists st. split; [done|].
  pose proof (Permutation_length H1) as Hlen. rewrite length_app, length_seq in Hlen.
  assert (in_flight (slots st) = []) as Hf by (apply nil_length_inv; lia).
  assert (next st = n) as Hn by lia. rewrite Hf, app_nil_r, Hn in H1.
  split_and!; [|done|done]. apply list_eq_same_length with n; [by rewrite length_fmap, length_seq|done|].
  intros i x y Hi Hx Hy. rewrite list_lookup_fmap, lookup_seq_lt in Hy by lia. simplify_eq/=.
  rewrite H6 in Hx; [by simplify_eq|]. rewrite H1. apply elem_of_seq. lia.
Qed.
End sched.

(** C4: the parallel run is complete and deterministic.  For every number of
    jobs, every choice of forks that fail, every order in which children finish,
    whatever [poll] failure occurs, and finitely many interruptions, the
    scheduler ends (within one round per test and interruption), every selected
    test is finalized exactly once, and its entry of the results is its own
    verdict: the child's when the fork succeeded and the in-process one
    otherwise.  No child is left behind. *)
Theorem run_parallel_complete {R} (child inproc : nat → R) spawn_ok polls n jobs inj es
    (Hfair : poll_fair polls) (Hes : ∀ k sl, polls k sl = PollEintr → k ∈ es) :
  ∃ st, run_parallel child inproc spawn_ok polls (n + length es) n jobs inj = Some st ∧
        results st = (Some ∘ verdict child inproc spawn_ok) <$> seq 0 n ∧
        log st ≡ₚ seq 0 n ∧ in_flight (slots st) = [].
Proof. by apply run_parallel_spec. Qed.

(** Four tests over two slots; the fork of the second fails, the first [poll] is
    interrupted, and the higher slot always finishes first. *)
Definition late_first (k : nat) (sl : list (option nat)) : poll_result :=
  if (k =? 0)%nat then PollEintr
  else PollReady (λ j, match sl !! 1%nat with
                       | Some (Some _) => (j =? 1)%nat
                       | _ => true
                       end).

Lemma run_parallel_complete_witness :
  ∃ st, run_parallel Z.of_nat (λ i, Z.of_nat i + 100) (λ i, negb (i =? 1)%nat) late_first
          (4 + length [0%nat]) 4 2 false = Some st ∧
        results st = [Some 0; Some 101; Some 2; Some 3] ∧ log st ≡ₚ seq 0 4 ∧ log st = [1; 2; 3; 0]%nat.
Proof.
  destruct (run_parallel_complete Z.of_nat (λ i, Z.of_nat i + 100) (λ i, negb (i =? 1)%nat)
              late_first 4 2 false [0%nat]) as (st & E & Hr & Hl & _).
  - intros k sl ready Hb. unfold late_first. destruct (k =? 0)%nat; [discriminate|].
    intros [= <-]. apply busy_spec in Hb as (j & i & Hj).
    destruct (sl !! 1%nat) as [[i1|]|] eqn:E1; [exists 1%nat, i1|exists j, i..]; done.
  - intros k sl. unfold late_first. destruct (Nat.eqb_spec k 0) as [->|]; [left|discriminate].
  - exists st. split_and!; [exact E|exact Hr|exact Hl|]. vm_compute in E. injection E as <-. reflexivity.
Defined.
End Sched.
