(* ===== verification/Report.v ===== *)
(** Reporting of the runner ([src/asmtest.c]): escaping, the TAP and JUnit
    renderings, the tallies of [main] and the exit code. *)
From S2P Require Import Prelude Format RunCase.
From Stdlib Require Import Ascii String.
Import RunCase.
Open Scope string_scope.
Open Scope Z_scope.
Open Scope list_scope.

Module Report.

(** The code of a byte of a string. *)
Definition byte (c : ascii) : Z := Z.of_nat (nat_of_ascii c).
Definition quote_char : ascii := ascii_of_nat 34.
Definition quote : string := String quote_char "".

(** A digit of [%02X] and [%04x]. *)
Definition hex_upper (d : Z) : ascii := ascii_of_nat (Z.to_nat (if d <? 10 then 48 + d else 55 + d)).
Definition hex_lower (d : Z) : ascii := ascii_of_nat (Z.to_nat (if d <? 10 then 48 + d else 87 + d)).

(** ** Escaping *)
(** What one byte is printed as. *)
Definition xml_char (c : ascii) : string :=
  let b := byte c in
  if b =? 38 then "&amp;"
  else if b =? 60 then "&lt;"
  else if b =? 62 then "&gt;"
  else if b =? 34 then "&quot;"
  else if b =? 10 then "&#10;"
  else if b =? 13 then "&#13;"
  else if b =? 9 then String c ""
  else if b <? 32 then "\x" +:+ String (hex_upper (b / 16)) (String (hex_upper (b mod 16)) "")
  else String c "".
Fixpoint xml_print_escaped (s : string) : string :=
  match s with
  | EmptyString => ""
  | String c s => xml_char c +:+ xml_print_escaped s
  end.

Definition json_char (c : ascii) : string :=
  let b := byte c in
  if b =? 34 then "\" +:+ quote
  else if b =? 92 then "\\"
  else if b =? 10 then "\n"
  else if b =? 13 then "\r"
  else if b =? 9 then "\t"
  else if b <? 32 then "\u00" +:+ String (hex_lower (b / 16)) (String (hex_lower (b mod 16)) "")
  else String c "".
Fixpoint json_body (s : string) : string :=
  match s with
  | EmptyString => ""
  | String c s => json_char c +:+ json_body s
  end.
(** A null pointer prints an empty literal. *)
Definition json_print_string (s : option string) : string :=
  quote +:+ json_body (default "" s) +:+ quote.

(** ** TAP *)
Record palette := mk_pal { grn : string; red : string; yel : string; dim : string; rst : string }.
Definition plain : palette := mk_pal "" "" "" "" "".

(** The lines of a message; a trailing newline opens no further line. *)
Fixpoint lines (cur s : string) : list string :=
  match s with
  | EmptyString => if String.eqb cur "" then [] else [cur]
  | String c s => if byte c =? 10 then cur :: lines "" s else lines (cur +:+ String c "") s
  end.

Definition print_tap_result (num : Z) (r : result) (p : palette) : string :=
  let id := fmt_d num +:+ " - " +:+ r_suite r +:+ "." +:+ r_name r in
  match r_outcome r with
  | ST_PASS => grn p +:+ "ok" +:+ rst p +:+ " " +:+ id +:+ nl
  | ST_SKIP =>
      yel p +:+ "ok" +:+ rst p +:+ " " +:+ id +:+ " " +:+ dim p +:+ "# SKIP " +:+ r_msg r
      +:+ rst p +:+ nl
  | ST_FAIL =>
      red p +:+ "not ok" +:+ rst p +:+ " " +:+ id +:+ nl
      +:+ "  " +:+ dim p +:+ "---" +:+ rst p +:+ nl
      +:+ "  at:  " +:+ r_file r +:+ ":" +:+ fmt_d (r_line r) +:+ nl
      +:+ (if String.eqb (rec_path r) "" then ""
           else "  recording: " +:+ rec_path r +:+ nl
                +:+ (if 0 <=? rec_step r then "  step: " +:+ fmt_d (rec_step r) +:+ nl else ""))
      +:+ (if String.eqb (r_msg r) "" then "  msg: " +:+ quote +:+ quote +:+ nl
           else "  msg: |" +:+ nl
                +:+ foldr (λ l acc, "    " +:+ l +:+ nl +:+ acc) "" (lines "" (r_msg r)))
      +:+ "  " +:+ dim p +:+ "..." +:+ rst p +:+ nl
  end.

(** ** JUnit *)
(** The four counters of a list of results. *)
Record counts := mk_counts { c_tests : Z; c_failures : Z; c_errors : Z; c_skipped : Z }.
Definition count1 (c : counts) (r : result) : counts :=
  if result_is_error r
  then mk_counts (c_tests c + 1) (c_failures c) (c_errors c + 1) (c_skipped c)
  else match r_outcome r with
       | ST_FAIL => mk_counts (c_tests c + 1) (c_failures c + 1) (c_errors c) (c_skipped c)
       | ST_SKIP => mk_counts (c_tests c + 1) (c_failures c) (c_errors c) (c_skipped c + 1)
       | ST_PASS => mk_counts (c_tests c + 1) (c_failures c) (c_errors c) (c_skipped c)
       end.
Definition tally (rs : list result) : counts := foldl count1 (mk_counts 0 0 0 0) rs.

(** The suite loop: the first result not yet done opens a suite that takes all
    the later results of the same suite name. *)
Fixpoint suites (fuel : nat) (rs : list result) : list (string * list result) :=
  match fuel, rs with
  | S fuel, r :: rs' =>
      (r_suite r, filter (λ x, r_suite x = r_suite r) rs)
      :: suites fuel (filter (λ x, r_suite x ≠ r_suite r) rs')
  | _, _ => []
  end.
Definition junit_suites (rs : list result) : list (string * list result) := suites (List.length rs) rs.

Section junit.
(** [%.6f] of the sum of the wall-clock times of some results. *)
Context (secs : list result → string).

Definition attr (k v : string) : string := " " +:+ k +:+ "=" +:+ quote +:+ v +:+ quote.
Definition count_attrs (rs : list result) : string :=
  let c := tally rs in
  attr "tests" (fmt_d (c_tests c)) +:+ attr "failures" (fmt_d (c_failures c))
  +:+ attr "errors" (fmt_d (c_errors c)) +:+ attr "skipped" (fmt_d (c_skipped c))
  +:+ attr "time" (secs rs).

Definition junit_case (suite : string) (r : result) : string :=
  "    <testcase" +:+ attr "classname" (xml_print_escaped suite)
  +:+ attr "name" (xml_print_escaped (r_name r)) +:+ attr "time" (secs [r]) +:+ ">"
  +:+ match r_outcome r with
      | ST_FAIL =>
          let tag := if result_is_error r then "error" else "failure" in
          nl +:+ "      <" +:+ tag +:+ attr "message" (xml_print_escaped (r_msg r)) +:+ ">at "
          +:+ xml_print_escaped (r_file r) +:+ ":" +:+ fmt_d (r_line r) +:+ "&#10;"
          +:+ xml_print_escaped (r_msg r)
          +:+ (if String.eqb (rec_path r) "" then ""
               else "&#10;recording: " +:+ xml_print_escaped (rec_path r)
                    +:+ (if 0 <=? rec_step r then "&#10;step: " +:+ fmt_d (rec_step r) else ""))
          +:+ "</" +:+ tag +:+ ">" +:+ nl +:+ "    "
      | ST_SKIP =>
          nl +:+ "      <skipped" +:+ attr "message" (xml_print_escaped (r_msg r)) +:+ "/>"
          +:+ nl +:+ "    "
      | ST_PASS => ""
      end
  +:+ "</testcase>" +:+ nl.

Definition junit_suite (sysout : option string) (s : string * list result) : string :=
  "  <testsuite" +:+ attr "name" (xml_print_escaped s.1) +:+ count_attrs s.2 +:+ ">" +:+ nl
  +:+ foldr (λ r acc, junit_case s.1 r +:+ acc) "" s.2
  +:+ match sysout with
      | Some o => if String.eqb o "" then ""
                  else "    <system-out>" +:+ xml_print_escaped o +:+ "</system-out>" +:+ nl
      | None => ""
      end
  +:+ "  </testsuite>" +:+ nl.

(** The captured output goes to the first suite only. *)
Definition render_junit (rs : list result) (sysout : option string) : string :=
  "<?xml" +:+ attr "version" "1.0" +:+ attr "encoding" "UTF-8" +:+ "?>" +:+ nl
  +:+ "<testsuites" +:+ count_attrs rs +:+ ">" +:+ nl
  +:+ match junit_suites rs with
      | [] => ""
      | s :: ss => junit_suite sysout s
                   +:+ foldr (λ s acc, junit_suite None s +:+ acc) "" ss
      end
  +:+ "</testsuites>" +:+ nl.
End junit.

(** ** The run loop and the exit code *)
Record totals := mk_totals { passed : Z; failed : Z; skipped : Z; ran : nat }.

(** The loop of [main] over the results, in order: it stops after the first
    failure under [fail_fast]. *)
Fixpoint run_loop (fail_fast : bool) (i : nat) (t : totals) (os : list outcome) : totals :=
  match os with
  | [] => t
  | o :: os =>
      let t := match o with
               | ST_PASS => mk_totals (passed t + 1) (failed t) (skipped t) (ran t)
               | ST_SKIP => mk_totals (passed t) (failed t) (skipped t + 1) (ran t)
               | ST_FAIL => mk_totals (passed t) (failed t + 1) (skipped t) (ran t)
               end in
      if fail_fast && bool_decide (o = ST_FAIL)
      then mk_totals (passed t) (failed t) (skipped t) (S i)
      else run_loop fail_fast (S i) t os
  end.
Definition summarize (fail_fast : bool) (os : list outcome) : totals :=
  run_loop fail_fast 0 (mk_totals 0 0 0 (List.length os)) os.

Definition exit_code (fail_if_no_tests fail_fast : bool) (os : list outcome) : Z :=
  if negb (failed (summarize fail_fast os) =? 0) || ((List.length os =? 0)%nat && fail_if_no_tests)
  then 1 else 0.

(** ** Escaping is safe and can be read back *)
(** Every byte of a string satisfies [P]. *)
Fixpoint all_chars (P : ascii → bool) (s : string) : bool :=
  match s with
  | EmptyString => true
  | String c s => P c && all_chars P s
  end.

(** No markup delimiter, and no control byte but the tab. *)
Definition xml_safe (c : ascii) : bool :=
  negb ((byte c =? 60) || (byte c =? 62) || (byte c =? 34)) && ((32 <=? byte c) || (byte c =? 9)).
(** A byte XML 1.0 can carry: no control but tab, newline and return. *)
Definition xml_text (c : ascii) : bool :=
  (32 <=? byte c) || (byte c =? 9) || (byte c =? 10) || (byte c =? 13).

(** What an XML reader makes of the entities. *)
Fixpoint xml_unescape (s : string) : string :=
  match s with
  | String "&" (String "a" (String "m" (String "p" (String ";" s)))) => String "&" (xml_unescape s)
  | String "&" (String "l" (String "t" (String ";" s))) => String "<" (xml_unescape s)
  | String "&" (String "g" (String "t" (String ";" s))) => String ">" (xml_unescape s)
  | String "&" (String "q" (String "u" (String "o" (String "t" (String ";" s))))) =>
      String quote_char (xml_unescape s)
  | String "&" (String "#" (String "1" (String "0" (String ";" s)))) =>
      String (ascii_of_nat 10) (xml_unescape s)
  | String "&" (String "#" (String "1" (String "3" (String ";" s)))) =>
      String (ascii_of_nat 13) (xml_unescape s)
  | String c s => String c (xml_unescape s)
  | EmptyString => ""
  end.

(** What a JSON reader makes of the escapes. *)
Definition hex_value (c : ascii) : Z := if byte c <? 58 then byte c - 48 else byte c - 87.
Fixpoint json_unescape (s : string) : string :=
  match s with
  | String "\" (String "n" s) => String (ascii_of_nat 10) (json_unescape s)
  | String "\" (String "r" s) => String (ascii_of_nat 13) (json_unescape s)
  | String "\" (String "t" s) => String (ascii_of_nat 9) (json_unescape s)
  | String "\" (String "u" (String _ (String _ (String h (String l s))))) =>
      String (ascii_of_nat (Z.to_nat (hex_value h * 16 + hex_value l))) (json_unescape s)
  | String "\" (String c s) => String c (json_unescape s)
  | String c s => String c (json_unescape s)
  | EmptyString => ""
  end.

(** A fact about every byte, by cases. *)
Ltac each_byte c := destruct c as [[] [] [] [] [] [] [] []]; vm_compute; (reflexivity || discriminate).

Lemma xml_char_safe c : all_chars xml_safe (xml_char c) = true.
Proof. each_byte c. Qed.

Lemma all_chars_app P s s' : all_chars P (s +:+ s') = all_chars P s && all_chars P s'.
Proof. induction s as [|c s IH]; [done|]. simpl. rewrite <-andb_assoc. by f_equal. Qed.

Lemma xml_unescape_char c s :
  xml_text c = true → xml_unescape (xml_char c +:+ s) = String c (xml_unescape s).
Proof. destruct c as [[] [] [] [] [] [] [] []]; intros H; (discriminate H || reflexivity). Qed.

Lemma json_unescape_char c s : json_unescape (json_char c +:+ s) = String c (json_unescape s).
Proof. destruct c as [[] [] [] [] [] [] [] []]; reflexivity. Qed.

(** Escaped text cannot break a report.  Whatever the bytes of a name or a
    message, the escaped text has no markup delimiter, quote or control byte, and
    a reader gets the original text back when it has no byte XML forbids. *)
Theorem xml_escaping_sound s :
  all_chars xml_safe (xml_print_escaped s) = true ∧
  (all_chars xml_text s = true → xml_unescape (xml_print_escaped s) = s).
Proof.
  induction s as [|c s [IH1 IH2]]; [done|]. cbn [xml_print_escaped all_chars]. split.
  - by rewrite all_chars_app, xml_char_safe.
  - intros [Hc Hs]%andb_true_iff. by rewrite xml_unescape_char, IH2.
Qed.

(** Benchmark names survive JSON: reading back the body of a printed string
    literal gives the string, for every string, and the literal has no raw quote
    or control byte inside. *)
Theorem json_string_roundtrip s :
  json_unescape (json_body s) = s ∧ all_chars (λ c, 32 <=? byte c) (json_body s) = true.
Proof.
  induction s as [|c s [IH1 IH2]]; [done|]. cbn [json_body]. split.
  - by rewrite json_unescape_char, IH1.
  - rewrite all_chars_app, IH2, andb_true_r. clear. each_byte c.
Qed.

(** ** Suites *)
Definition add_counts (a b : counts) : counts :=
  mk_counts (c_tests a + c_tests b) (c_failures a + c_failures b) (c_errors a + c_errors b)
    (c_skipped a + c_skipped b).
Definition counts0 : counts := mk_counts 0 0 0 0.

Lemma count1_add a r : count1 a r = add_counts a (count1 counts0 r).
Proof.
  unfold count1, add_counts. destruct (result_is_error r); [|destruct (r_outcome r)];
    destruct a; simpl; f_equal; lia.
Qed.
Lemma add_counts_assoc a b c : add_counts a (add_counts b c) = add_counts (add_counts a b) c.
Proof. unfold add_counts. simpl. f_equal; lia. Qed.
Lemma add_counts_comm a b : add_counts a b = add_counts b a.
Proof. unfold add_counts. f_equal; lia. Qed.
Lemma add_counts_0 a : add_counts counts0 a = a.
Proof. by destruct a. Qed.

Lemma tally_cons r rs : tally (r :: rs) = add_counts (count1 counts0 r) (tally rs).
Proof.
  unfold tally. simpl. fold counts0. generalize (count1 counts0 r) as a. intros a.
  rewrite <-(add_counts_0 a) at 1. rewrite (add_counts_comm counts0 a). generalize counts0 as b.
  induction rs as [|x rs IH]; intros b; [done|]. simpl.
  rewrite (count1_add b), (count1_add (add_counts a b)), <-add_counts_assoc. apply IH.
Qed.

Lemma tally_app rs rs' : tally (rs ++ rs') = add_counts (tally rs) (tally rs').
Proof.
  induction rs as [|r rs IH]; [by rewrite add_counts_0|].
  simpl app. by rewrite !tally_cons, IH, add_counts_assoc.
Qed.

#[export] Instance tally_perm : Proper ((≡ₚ) ==> (=)) tally.
Proof.
  intros rs rs' Hp. induction Hp as [|r rs rs' _ IH|r r' rs|]; [done|..|congruence].
  - by rewrite !tally_cons, IH.
  - by rewrite !tally_cons, !add_counts_assoc, (add_counts_comm (count1 counts0 r)).
Qed.

Lemma suites_spec fuel rs :
  (List.length rs <= fuel)%nat →
  List.concat (suites fuel rs).*2 ≡ₚ rs ∧
  NoDup (suites fuel rs).*1 ∧
  (∀ s l, (s, l) ∈ suites fuel rs → l = filter (λ x, r_suite x = s) rs ∧ l ≠ []).
Proof.
  revert rs. induction fuel as [|fuel IH]; intros rs Hf.
  { destruct rs; [|simpl in Hf; lia]. split_and!; [done|constructor|set_solver]. }
  destruct rs as [|r rs']; [split_and!; [done|constructor|set_solver]|]. cbn [suites].
  set (rest := filter (λ x, r_suite x ≠ r_suite r) rs').
  assert (List.length rest <= fuel)%nat as Hlen.
  { pose proof (length_filter_le (λ x, r_suite x ≠ r_suite r) rs'). simpl in Hf. unfold rest. lia. }
  destruct (IH rest Hlen) as (H1 & H2 & H3).
  assert (rest = filter (λ x, r_suite x ≠ r_suite r) (r :: rs')) as Erest.
  { by rewrite filter_cons, decide_False by tauto. }
  assert (∀ s l, (s, l) ∈ suites fuel rest → s ≠ r_suite r) as Hne.
  { intros s l Hin. destruct (H3 s l Hin) as [-> Hnil]. intros ->. apply Hnil.
    unfold rest. rewrite list_filter_filter. apply list_filter_none, Forall_forall. naive_solver. }
  split_and!.
  - simpl. rewrite H1, Erest. apply filter_app_complement.
  - simpl. constructor; [|done]. rewrite list_elem_of_fmap. intros ([s l] & E & Hin).
    by apply (Hne s l Hin).
  - intros s l [[= -> ->]|Hin]%elem_of_cons.
    + split; [done|]. by rewrite filter_cons, decide_True.
    + destruct (H3 s l Hin) as [-> Hnil]. split; [|done]. rewrite Erest, list_filter_filter.
      apply list_filter_iff. intros x. specialize (Hne s _ Hin). naive_solver.
Qed.

(** The JUnit report accounts for every result.  Its suites have distinct
    names, each holds all the results of its name in their order and nothing
    else, together they hold every result exactly once, and the counters of the
    document are the sums of the counters of its suites. *)
Theorem junit_accounts_for_all rs :
  List.concat (junit_suites rs).*2 ≡ₚ rs ∧
  NoDup (junit_suites rs).*1 ∧
  (∀ s l, (s, l) ∈ junit_suites rs → l = filter (λ x, r_suite x = s) rs) ∧
  tally rs = foldr add_counts counts0 (tally <$> (junit_suites rs).*2).
Proof.
  destruct (suites_spec (List.length rs) rs ltac:(done)) as (H1 & H2 & H3).
  split_and!; [done|done|intros s l Hin; by apply H3|].
  rewrite <-H1 at 1. fold (junit_suites rs). generalize ((junit_suites rs).*2) as ls.
  induction ls as [|l ls IH]; [done|]. simpl. by rewrite tally_app, IH.
Qed.

(** ** Tallies *)
Definition count_of (o : outcome) (os : list outcome) : Z :=
  Z.of_nat (List.length (filter (λ x, x = o) os)).

(** What runs: everything, or under [fail_fast] everything up to and including
    the first failure. *)
Fixpoint executed (fail_fast : bool) (os : list outcome) : list outcome :=
  match os with
  | [] => []
  | o :: os => o :: (if fail_fast && bool_decide (o = ST_FAIL) then [] else executed fail_fast os)
  end.

Lemma count_of_cons o x os : count_of o (x :: os) = (if decide (x = o) then 1 else 0) + count_of o os.
Proof. unfold count_of. rewrite filter_cons. destruct (decide (x = o)); simpl; lia. Qed.

Lemma count_of_zero o os : count_of o os = 0 ↔ o ∉ os.
Proof.
  induction os as [|x os IH]; [unfold count_of; simpl; set_solver|].
  rewrite count_of_cons, not_elem_of_cons, <-IH. unfold count_of.
  destruct (decide (x = o)) as [->|Hn]; split; [lia|tauto|intros H; split; [congruence|lia]|lia].
Qed.

Lemma count_of_total os :
  count_of ST_PASS os + count_of ST_FAIL os + count_of ST_SKIP os = Z.of_nat (List.length os).
Proof.
  induction os as [|[] os IH]; [done|..]; rewrite !count_of_cons; simpl List.length;
    repeat (destruct (decide _); try done); lia.
Qed.

Lemma executed_fails ff os : ST_FAIL ∈ executed ff os ↔ ST_FAIL ∈ os.
Proof.
  induction os as [|o os IH]; [done|]. simpl. rewrite !elem_of_cons.
  destruct (bool_decide_reflect (o = ST_FAIL)) as [->|]; destruct ff; simpl; tauto.
Qed.

Lemma executed_prefix ff os : ∃ rest, os = executed ff os ++ rest.
Proof.
  induction os as [|o os [rest E]]; [by exists []|]. simpl.
  destruct (_ && _); [by exists os|]. exists rest. simpl. by f_equal.
Qed.

Lemma run_loop_spec ff i t os :
  ran t = (i + List.length os)%nat →
  run_loop ff i t os =
  mk_totals (passed t + count_of ST_PASS (executed ff os)) (failed t + count_of ST_FAIL (executed ff os))
    (skipped t + count_of ST_SKIP (executed ff os)) (i + List.length (executed ff os)).
Proof.
  revert i t. induction os as [|o os IH]; intros i t Hr.
  - destruct t; simpl in *. unfold count_of; simpl. f_equal; lia.
  - simpl. rewrite !count_of_cons.
    destruct (_ && _) eqn:E; [|rewrite IH by (destruct o; simpl in *; lia)];
      destruct o; try (by destruct ff); simpl; f_equal; unfold count_of; simpl; lia.
Qed.

(** The summary counts what ran, and the exit status tells whether a test
    failed.  The three counters are those of the results up to and including the
    first failure under fail-fast, of all of them otherwise, and add up to the
    number reported as run; the process exits 0 exactly when no selected test
    failed and the selection was not forbidden to be empty, with or without
    fail-fast. *)
Theorem summary_and_exit_code (fail_if_no_tests ff : bool) (os : list outcome) :
  let t := summarize ff os in
  (∃ rest, os = executed ff os ++ rest) ∧
  passed t = count_of ST_PASS (executed ff os) ∧
  failed t = count_of ST_FAIL (executed ff os) ∧
  skipped t = count_of ST_SKIP (executed ff os) ∧
  ran t = List.length (executed ff os) ∧
  passed t + failed t + skipped t = Z.of_nat (ran t) ∧
  (exit_code fail_if_no_tests ff os = 0 ↔
   ST_FAIL ∉ os ∧ (os = [] → fail_if_no_tests = false)).
Proof.
  cbv zeta. unfold exit_code, summarize. rewrite run_loop_spec by done. cbn [passed failed skipped ran].
  split_and!; [apply executed_prefix|lia..| |].
  - pose proof (count_of_total (executed ff os)). lia.
  - rewrite <-(executed_fails ff), <-count_of_zero.
    destruct (Z.eqb_spec (0 + count_of ST_FAIL (executed ff os)) 0); simpl; [|split; lia].
    destruct os, fail_if_no_tests; simpl; intuition (congruence || lia).
Qed.
End Report.
