(* ===== verification/Descent.v ===== *)
(** The call-descent handle ([src/descent.c]): configuration in, edges and
    nested frames out, filled by the step loop of the tracer through the
    mutators of [include/asmtest_descent_internal.h]. *)
From S2P Require Import Prelude Grow.

Module Descent.

(** ** Growable pools *)
(** An array of [len] entries in a block of [cap]; [elem] is the entry size. *)
Record pool (A : Type) := mk_pool { items : list A; cap : Z }.
Arguments mk_pool {A}.
Arguments items {A}.
Arguments cap {A}.
Definition pool0 {A} : pool A := mk_pool [] 0.

(** [asmtest_grow(&arr, &cap, len + 1, elem)] followed by the store of the new
    last entry; [None] when the growth is refused. *)
Definition push {A} (grant : allocator) (elem : Z) (p : pool A) (x : A) : option (pool A) :=
  match asmtest_grow grant (cap p) (Z.of_nat (length (items p)) + 1) elem with
  | Some c => Some (mk_pool (items p ++ [x]) c)
  | None => None
  end.

(** ** Data *)
Record region := mk_region { rg_base : Z; rg_len : Z }.
Record blockseq := mk_blockseq { have_prev : bool; expected_next : Z }.
Record edge := mk_edge { site : Z; target : Z; e_depth : Z; from_frame : Z }.
Record frame := mk_frame {
  f_base : Z; f_len : Z; f_depth : Z; f_parent : Z;
  insns : pool Z; blocks : pool Z; seq : blockseq;
}.
Inductive level :=
  ASMTEST_DESCENT_OFF | ASMTEST_DESCENT_RECORD_EDGES | ASMTEST_DESCENT_DESCEND_KNOWN
| ASMTEST_DESCENT_DESCEND_ALL.

(** The two callbacks are a function address with its user pointer. *)
Record descent := mk_descent {
  d_level : level; max_depth : Z; insn_budget : Z; watchdog_ms : Z;
  allow : pool region; deny : pool region; resolver : Z * Z; denylist : Z * Z;
  edges : pool edge; frames : pool frame; truncated : bool; depth_capped : bool;
  use_default_denylist : bool; default_denylist_applied : bool;
}.

Definition DEFAULT_MAX_DEPTH : Z := 8.
Definition DEFAULT_INSN_BUDGET : Z := 4096.
Definition DEFAULT_WATCHDOG_MS : Z := 2000.
Definition PTRACE_OK : Z := 0.
Definition PTRACE_EINVAL : Z := -1.
Definition PTRACE_ETRACE : Z := -8.

(** The sizes of the C structures. *)
Definition sizeof_region : Z := 16.
Definition sizeof_edge : Z := 24.
Definition sizeof_frame : Z := 88.
Definition sizeof_u64 : Z := 8.
Definition sizeof_descent : Z := 168.

(** The conversion of a [size_t] to [int32_t]. *)
Definition int32 (x : Z) : Z := (x + 2 ^ 31) mod 2 ^ 32 - 2 ^ 31.

(** ** Configuration *)
Definition asmtest_descent_new (grant : allocator) (l : level) : option descent :=
  if grant sizeof_descent then
    Some (mk_descent l DEFAULT_MAX_DEPTH DEFAULT_INSN_BUDGET DEFAULT_WATCHDOG_MS pool0 pool0
            (0, 0) (0, 0) pool0 pool0 false false false false)
  else None.

Definition set_max_depth (d : descent) (n : Z) : descent :=
  mk_descent (d_level d) (if n =? 0 then DEFAULT_MAX_DEPTH else n) (insn_budget d) (watchdog_ms d)
    (allow d) (deny d) (resolver d) (denylist d) (edges d) (frames d) (truncated d) (depth_capped d)
    (use_default_denylist d) (default_denylist_applied d).
Definition set_insn_budget (d : descent) (n : Z) : descent :=
  mk_descent (d_level d) (max_depth d) (if n =? 0 then DEFAULT_INSN_BUDGET else n) (watchdog_ms d)
    (allow d) (deny d) (resolver d) (denylist d) (edges d) (frames d) (truncated d) (depth_capped d)
    (use_default_denylist d) (default_denylist_applied d).
Definition set_watchdog_ms (d : descent) (n : Z) : descent :=
  mk_descent (d_level d) (max_depth d) (insn_budget d) (if n =? 0 then DEFAULT_WATCHDOG_MS else n)
    (allow d) (deny d) (resolver d) (denylist d) (edges d) (frames d) (truncated d) (depth_capped d)
    (use_default_denylist d) (default_denylist_applied d).
Definition set_resolver (d : descent) (fn user : Z) : descent :=
  mk_descent (d_level d) (max_depth d) (insn_budget d) (watchdog_ms d)
    (allow d) (deny d) (fn, user) (denylist d) (edges d) (frames d) (truncated d) (depth_capped d)
    (use_default_denylist d) (default_denylist_applied d).
Definition set_denylist (d : descent) (fn user : Z) : descent :=
  mk_descent (d_level d) (max_depth d) (insn_budget d) (watchdog_ms d)
    (allow d) (deny d) (resolver d) (fn, user) (edges d) (frames d) (truncated d) (depth_capped d)
    (use_default_denylist d) (default_denylist_applied d).
Definition arm_default_denylist (d : descent) : descent :=
  mk_descent (d_level d) (max_depth d) (insn_budget d) (watchdog_ms d)
    (allow d) (deny d) (resolver d) (denylist d) (edges d) (frames d) (truncated d) (depth_capped d)
    true (default_denylist_applied d).

Definition region_add (grant : allocator) (arr : pool region) (base rlen : Z) : Z * pool region :=
  match push grant sizeof_region arr (mk_region base rlen) with
  | Some arr => (PTRACE_OK, arr)
  | None => (PTRACE_ETRACE, arr)
  end.
Definition allow_region (grant : allocator) (d : descent) (base len : Z) :
    Z * descent :=
  let '(rc, a) := region_add grant (allow d) base len in
  (rc, mk_descent (d_level d) (max_depth d) (insn_budget d) (watchdog_ms d)
         a (deny d) (resolver d) (denylist d) (edges d) (frames d) (truncated d) (depth_capped d)
         (use_default_denylist d) (default_denylist_applied d)).
Definition deny_region (grant : allocator) (d : descent) (base len : Z) :
    Z * descent :=
  let '(rc, a) := region_add grant (deny d) base len in
  (rc, mk_descent (d_level d) (max_depth d) (insn_budget d) (watchdog_ms d)
         (allow d) a (resolver d) (denylist d) (edges d) (frames d) (truncated d) (depth_capped d)
         (use_default_denylist d) (default_denylist_applied d)).

(** ** Mutators *)
Fixpoint asmtest_descent_region_contains (arr : list region) (addr : Z) : option region :=
  match arr with
  | [] => None
  | r :: arr =>
      if (rg_base r <=? addr) && (addr <? rg_base r +64 rg_len r) then Some r
      else asmtest_descent_region_contains arr addr
  end.

(** Whether [off] opens a block, and the tracker for the next instruction. *)
Definition asmtest_blockseq_boundary (s : blockseq) (off len : Z) : bool * blockseq :=
  (negb (have_prev s) || negb (off =? expected_next s),
   if len =? 0 then mk_blockseq false (expected_next s) else mk_blockseq true (off +64 len)).

(** A handle with new pools of edges and frames and a new truncation flag. *)
Definition filled (d : descent) (es : pool edge) (fs : pool frame) (tr : bool) : descent :=
  mk_descent (d_level d) (max_depth d) (insn_budget d) (watchdog_ms d) (allow d) (deny d)
    (resolver d) (denylist d) es fs tr (depth_capped d) (use_default_denylist d)
    (default_denylist_applied d).

Definition push_frame (grant : allocator) (d : descent) (base len depth parent : Z) :
    Z * descent :=
  match push grant sizeof_frame (frames d)
          (mk_frame base len depth parent pool0 pool0 (mk_blockseq false 0)) with
  | Some fs => (int32 (Z.of_nat (length (items (frames d)))), filled d (edges d) fs (truncated d))
  | None => (-1, filled d (edges d) (frames d) true)
  end.

(** The store into one pool of a frame: the pool and whether it was refused. *)
Definition try_push (grant : allocator) (p : pool Z) (x : Z) : pool Z * bool :=
  match push grant sizeof_u64 p x with
  | Some p => (p, false)
  | None => (p, true)
  end.

(** [grant_b] and [grant_i] answer the growth of the block pool and that of the
    instruction pool. *)
Definition frame_record (grant_b grant_i : allocator) (d : descent)
    (fi off insn_len : Z) : bool * descent :=
  if fi <? 0 then (false, d)
  else match items (frames d) !! Z.to_nat fi with
  | None => (false, d)
  | Some f =>
      let '(new_block, sq) := asmtest_blockseq_boundary (seq f) off insn_len in
      let '(bs, refused_b) :=
        if new_block && negb (existsb (λ b, b =? off) (items (blocks f)))
        then try_push grant_b (blocks f) off else (blocks f, false) in
      let '(ins, refused_i) := try_push grant_i (insns f) off in
      let f' := mk_frame (f_base f) (f_len f) (f_depth f) (f_parent f) ins bs sq in
      (new_block,
       filled d (edges d) (mk_pool (<[Z.to_nat fi := f']> (items (frames d))) (cap (frames d)))
         (truncated d || refused_b || refused_i || (insn_len =? 0)))
  end.

Definition add_edge (grant : allocator) (d : descent)
    (site target depth from_frame : Z) : descent :=
  match push grant sizeof_edge (edges d) (mk_edge site target depth from_frame) with
  | Some es => filled d es (frames d) (truncated d)
  | None => filled d (edges d) (frames d) true
  end.

Definition mark_truncated (d : descent) : descent :=
  filled d (edges d) (frames d) true.
Definition mark_depth_capped (d : descent) : descent :=
  mk_descent (d_level d) (max_depth d) (insn_budget d) (watchdog_ms d)
    (allow d) (deny d) (resolver d) (denylist d) (edges d) (frames d) (truncated d) true
    (use_default_denylist d) (default_denylist_applied d).

(** ** The exported operations *)
(** Each takes a handle that may be null. *)
Definition asmtest_descent_set_max_depth (d : option descent) (n : Z) := (λ d, set_max_depth d n) <$> d.
Definition asmtest_descent_set_insn_budget (d : option descent) (n : Z) :=
  (λ d, set_insn_budget d n) <$> d.
Definition asmtest_descent_set_watchdog_ms (d : option descent) (n : Z) :=
  (λ d, set_watchdog_ms d n) <$> d.
Definition asmtest_descent_set_resolver (d : option descent) (fn user : Z) :=
  (λ d, set_resolver d fn user) <$> d.
Definition asmtest_descent_set_denylist (d : option descent) (fn user : Z) :=
  (λ d, set_denylist d fn user) <$> d.
Definition asmtest_descent_use_default_denylist (d : option descent) := arm_default_denylist <$> d.
Definition asmtest_descent_mark_truncated (d : option descent) := mark_truncated <$> d.
Definition asmtest_descent_mark_depth_capped (d : option descent) := mark_depth_capped <$> d.
(** The answer on a null handle is [dflt]. *)
Definition on_handle {A} (dflt : A) (op : descent → A * descent) (d : option descent) :
    A * option descent :=
  match d with
  | Some d => let '(a, d) := op d in (a, Some d)
  | None => (dflt, None)
  end.
Definition asmtest_descent_allow_region grant (d : option descent) (base len : Z) :=
  on_handle PTRACE_EINVAL (λ d, allow_region grant d base len) d.
Definition asmtest_descent_deny_region grant (d : option descent) (base len : Z) :=
  on_handle PTRACE_EINVAL (λ d, deny_region grant d base len) d.
Definition asmtest_descent_push_frame grant (d : option descent) (base len depth parent : Z) :=
  on_handle (-1) (λ d, push_frame grant d base len depth parent) d.
Definition asmtest_descent_frame_record grant_b grant_i (d : option descent) (fi off insn_len : Z) :=
  on_handle false (λ d, frame_record grant_b grant_i d fi off insn_len) d.
Definition asmtest_descent_add_edge grant (d : option descent) (site target depth from_frame : Z) :=
  (λ d, add_edge grant d site target depth from_frame) <$> d.

(** ** Accessors *)
(** A handle may be null; an index may be out of range. *)
Definition on_edge {A} (dflt : A) (get : edge → A) (d : option descent) (i : nat) : A :=
  match d with
  | Some d => match items (edges d) !! i with Some e => get e | None => dflt end
  | None => dflt
  end.
Definition on_frame {A} (dflt : A) (get : frame → A) (d : option descent) (f : nat) : A :=
  match d with
  | Some d => match items (frames d) !! f with Some x => get x | None => dflt end
  | None => dflt
  end.
Definition asmtest_descent_edges_len (d : option descent) : nat :=
  match d with Some d => length (items (edges d)) | None => O end.
Definition asmtest_descent_edge_site := on_edge 0 site.
Definition asmtest_descent_edge_target := on_edge 0 target.
Definition asmtest_descent_edge_depth := on_edge 0 e_depth.
Definition asmtest_descent_frames_len (d : option descent) : nat :=
  match d with Some d => length (items (frames d)) | None => O end.
Definition asmtest_descent_frame_base := on_frame 0 f_base.
Definition asmtest_descent_frame_len := on_frame 0 f_len.
Definition asmtest_descent_frame_depth := on_frame 0 f_depth.
Definition asmtest_descent_frame_parent := on_frame (-1) f_parent.
Definition asmtest_descent_frame_insn_count := on_frame O (λ f, length (items (insns f))).
Definition asmtest_descent_frame_insn_at (d : option descent) (f i : nat) : Z :=
  on_frame 0 (λ x, default 0 (items (insns x) !! i)) d f.
Definition asmtest_descent_frame_block_count := on_frame O (λ f, length (items (blocks f))).
Definition asmtest_descent_frame_block_at (d : option descent) (f i : nat) : Z :=
  on_frame 0 (λ x, default 0 (items (blocks x) !! i)) d f.
Definition asmtest_descent_truncated (d : option descent) : bool :=
  match d with Some d => truncated d | None => false end.
Definition asmtest_descent_depth_capped (d : option descent) : bool :=
  match d with Some d => depth_capped d | None => false end.
(** ** Histories *)
(** The calls that fill a handle. *)
Inductive event :=
| EvFrame (base len depth parent : Z)
| EvInsn (fi off insn_len : Z)
| EvEdge (site target depth from_frame : Z)
| EvAllow (base len : Z)
| EvDeny (base len : Z)
| EvTruncated
| EvCapped.

Definition exec (g1 g2 : allocator) (d : descent) (ev : event) : descent :=
  match ev with
  | EvFrame b l dp p => (push_frame g1 d b l dp p).2
  | EvInsn fi off n => (frame_record g1 g2 d fi off n).2
  | EvEdge s t dp f => add_edge g1 d s t dp f
  | EvAllow b l => (allow_region g1 d b l).2
  | EvDeny b l => (deny_region g1 d b l).2
  | EvTruncated => mark_truncated d
  | EvCapped => mark_depth_capped d
  end.

(** A history of calls, the allocator answering each request as it likes. *)
Inductive runs (l : level) : list event → descent → Prop :=
| runs_new g d : asmtest_descent_new g l = Some d → runs l [] d
| runs_step evs d g1 g2 ev : runs l evs d → runs l (evs ++ [ev]) (exec g1 g2 d ev).

(** What the same calls say: per frame, its extent and the instructions that
    were recorded in it with their lengths; and the edges. *)
Record said := mk_said { s_base : Z; s_len : Z; s_depth : Z; s_parent : Z; stream : list (Z * Z) }.
Record journal := mk_journal { j_frames : list said; j_edges : list edge }.

Definition heard (off n : Z) (s : said) : said :=
  mk_said (s_base s) (s_len s) (s_depth s) (s_parent s) (stream s ++ [(off, n)]).
Definition note (j : journal) (ev : event) : journal :=
  match ev with
  | EvFrame b l dp p => mk_journal (j_frames j ++ [mk_said b l dp p []]) (j_edges j)
  | EvInsn fi off n =>
      if fi <? 0 then j else mk_journal (alter (heard off n) (Z.to_nat fi) (j_frames j)) (j_edges j)
  | EvEdge s t dp f => mk_journal (j_frames j) (j_edges j ++ [mk_edge s t dp f])
  | _ => j
  end.
Definition journal_of (evs : list event) : journal := foldl note (mk_journal [] []) evs.

(** Where control falls through to after some instructions, when that is
    known. *)
Definition fall (l : list (Z * Z)) : option Z :=
  match last l with
  | Some (off, n) => if n =? 0 then None else Some (off +64 n)
  | None => None
  end.
(** [off] opens a block: it was reached other than by falling through. *)
Definition opens (l : list (Z * Z)) (off : Z) : Prop :=
  ∃ pre n post, l = pre ++ (off, n) :: post ∧ fall pre ≠ Some off.

(** A frame that holds all of what was said of it. *)
Record tells (f : frame) (s : said) : Prop := {
  tells_extent : (f_base f, f_len f, f_depth f, f_parent f) = (s_base s, s_len s, s_depth s, s_parent s);
  tells_insns : items (insns f) = (stream s).*1;
  tells_blocks : ∀ off, off ∈ items (blocks f) ↔ opens (stream s) off;
  tells_seq : (if have_prev (seq f) then Some (expected_next (seq f)) else None) = fall (stream s);
}.

(** ** Pools *)
(** The entries fit the block, whose size in bytes does not overflow. *)
Definition pool_ok {A} (elem : Z) (p : pool A) : Prop :=
  Z.of_nat (length (items p)) <= cap p ∧ cap p * elem <= SIZE_MAX.

Lemma push_spec {A} grant elem (p p' : pool A) x :
  1 <= elem <= SIZE_MAX / 8 → pool_ok elem p → push grant elem p x = Some p' →
  items p' = items p ++ [x] ∧ pool_ok elem p'.
Proof.
  intros He [Hl Hb]. unfold push.
  pose proof (asmtest_grow_spec grant (cap p) (Z.of_nat (length (items p)) + 1) elem He ltac:(lia) Hb) as G.
  destruct (asmtest_grow _ _ _ _) as [c|]; [|done]. intros [= <-]. split; [done|].
  unfold pool_ok. simpl. rewrite length_app. simpl. lia.
Qed.

Record frame_ok (f : frame) : Prop := {
  ok_insns : pool_ok sizeof_u64 (insns f);
  ok_blocks : pool_ok sizeof_u64 (blocks f);
  ok_distinct : NoDup (items (blocks f));
}.
Record ok (d : descent) : Prop := {
  ok_allow : pool_ok sizeof_region (allow d);
  ok_deny : pool_ok sizeof_region (deny d);
  ok_edges : pool_ok sizeof_edge (edges d);
  ok_frames : pool_ok sizeof_frame (frames d);
  ok_each : Forall frame_ok (items (frames d));
}.

Lemma pool0_ok {A} elem : pool_ok elem (pool0 (A := A)).
Proof. unfold pool_ok, pool0, SIZE_MAX. simpl. lia. Qed.
#[export] Hint Resolve pool0_ok : asm.

Lemma sizes_ok :
  1 <= sizeof_region <= SIZE_MAX / 8 ∧ 1 <= sizeof_edge <= SIZE_MAX / 8 ∧
  1 <= sizeof_frame <= SIZE_MAX / 8 ∧ 1 <= sizeof_u64 <= SIZE_MAX / 8.
Proof. vm_compute. intuition congruence. Qed.

Lemma try_push_spec grant p x p' r :
  pool_ok sizeof_u64 p → try_push grant p x = (p', r) →
  pool_ok sizeof_u64 p' ∧ (r = false ∧ items p' = items p ++ [x] ∨ r = true ∧ p' = p).
Proof.
  intros Hp. unfold try_push. destruct (push grant sizeof_u64 p x) as [q|] eqn:E; intros [= <- <-].
  - destruct (push_spec grant sizeof_u64 p q x ltac:(apply sizes_ok) Hp E). auto.
  - auto.
Qed.

(** ** Frames *)
(** What recording an instruction does to its frame. *)
Definition recorded (gb gi : allocator) (f : frame) (off n : Z) : bool * frame * bool :=
  let '(nb, sq) := asmtest_blockseq_boundary (seq f) off n in
  let '(bs, rb) := if nb && negb (existsb (λ b, b =? off) (items (blocks f)))
                   then try_push gb (blocks f) off else (blocks f, false) in
  let '(ins, ri) := try_push gi (insns f) off in
  (nb, mk_frame (f_base f) (f_len f) (f_depth f) (f_parent f) ins bs sq, rb || ri || (n =? 0)).

Lemma frame_record_eq gb gi d fi off n :
  frame_record gb gi d fi off n =
  match (if fi <? 0 then None else items (frames d) !! Z.to_nat fi) with
  | None => (false, d)
  | Some f => let '(nb, f', tr) := recorded gb gi f off n in
      (nb, filled d (edges d) (mk_pool (<[Z.to_nat fi := f']> (items (frames d))) (cap (frames d)))
             (truncated d || tr))
  end.
Proof.
  unfold frame_record, recorded. destruct (fi <? 0); [done|]. destruct (_ !! _) as [f|]; [|done].
  destruct (asmtest_blockseq_boundary _ _ _) as [nb sq].
  destruct (if nb && _ then _ else _) as [bs rb]. destruct (try_push gi _ _) as [ins ri].
  by rewrite !orb_assoc.
Qed.

Lemma recorded_ok gb gi f off n nb f' tr :
  frame_ok f → recorded gb gi f off n = (nb, f', tr) → frame_ok f'.
Proof.
  intros [Hi Hb Hd]. unfold recorded. destruct (asmtest_blockseq_boundary _ _ _) as [nb' sq].
  destruct (try_push gi _ _) as [ins ri] eqn:Ei. apply try_push_spec in Ei as [Hi' _]; [|done].
  destruct (nb' && _) eqn:Enb.
  - destruct (try_push gb _ _) as [bs rb] eqn:Eb. apply try_push_spec in Eb as [Hb' Eb]; [|done].
    intros [= <- <- <-]. split; [done|done|]. simpl. destruct Eb as [[_ ->]|[_ ->]]; [|done].
    apply NoDup_app. split; [done|]. split; [|apply NoDup_singleton].
    apply andb_true_iff in Enb as [_ Enb%negb_true_iff]. intros x Hx ->%list_elem_of_singleton.
    apply Bool.not_true_iff_false in Enb. apply Enb. rewrite existsb_exists.
    exists off. split; [by apply list_elem_of_In|lia].
  - intros [= <- <- <-]. by split.
Qed.

Lemma fall_snoc l off n : fall (l ++ [(off, n)]) = if n =? 0 then None else Some (off +64 n).
Proof. unfold fall. by rewrite last_snoc. Qed.

Lemma opens_snoc l off n x : opens (l ++ [(off, n)]) x ↔ opens l x ∨ x = off ∧ fall l ≠ Some off.
Proof.
  unfold opens. split.
  - intros (pre & m & post & E & Hf). destruct post as [|y post _] using rev_ind.
    + apply app_inj_tail in E as [-> [= -> ->]]. auto.
    + left. rewrite app_comm_cons, app_assoc in E. apply app_inj_tail in E as [-> _].
      by exists pre, m, post.
  - intros [(pre & m & post & -> & Hf)|[-> Hf]].
    + exists pre, m, (post ++ [(off, n)]). by rewrite <-app_assoc.
    + by exists l, n, [].
Qed.

Lemma boundary_spec f s off n :
  tells f s →
  let '(nb, sq) := asmtest_blockseq_boundary (seq f) off n in
  nb = bool_decide (fall (stream s) ≠ Some off) ∧
  (if have_prev sq then Some (expected_next sq) else None) = fall (stream s ++ [(off, n)]).
Proof.
  intros [_ _ _ Hs]. unfold asmtest_blockseq_boundary. rewrite fall_snoc, <-Hs. split.
  - destruct (have_prev (seq f)); [|done]. cbn [negb orb].
    destruct (Z.eqb_spec off (expected_next (seq f))) as [->|]; cbn [negb].
    + by rewrite bool_decide_false by tauto.
    + rewrite bool_decide_true; congruence.
  - by destruct (n =? 0).
Qed.

Lemma recorded_tells gb gi f s off n nb f' :
  frame_ok f → tells f s → recorded gb gi f off n = (nb, f', false) →
  nb = bool_decide (fall (stream s) ≠ Some off) ∧ tells f' (heard off n s).
Proof.
  intros [Hi Hb _] Ht. pose proof (boundary_spec f s off n Ht) as B. unfold recorded.
  destruct (asmtest_blockseq_boundary _ _ _) as [nb' sq]. destruct B as [-> Hsq].
  destruct (try_push gi _ _) as [ins ri] eqn:Ei. apply try_push_spec in Ei as [_ Ei]; [|done].
  destruct (if _ && _ then _ else _) as [bs rb] eqn:Eb. intros [= <- <- Etr].
  apply orb_false_iff in Etr as [[-> ->]%orb_false_iff _].
  destruct Ei as [[_ Ei]|[? _]]; [|done]. split; [done|]. destruct Ht as [He Hins Hbl _].
  split; simpl; [done|by rewrite Ei, Hins, fmap_app| |done].
  intros x. rewrite opens_snoc, <-Hbl.
  destruct (bool_decide_reflect (fall (stream s) ≠ Some off)) as [Hn|Hn]; simpl in Eb.
  - destruct (existsb _ _) eqn:Ex; simpl in Eb.
    + injection Eb as [= <-]. apply existsb_exists in Ex as (y & Hy%list_elem_of_In & ->%Z.eqb_eq).
      naive_solver.
    + apply try_push_spec in Eb as [_ [[_ ->]|[? _]]]; [|done|done]. rewrite elem_of_app.
      rewrite list_elem_of_singleton. tauto.
  - injection Eb as [= <-]. tauto.
Qed.
(** ** Steps *)
Lemma exec_ok g1 g2 d ev : ok d → ok (exec g1 g2 d ev).
Proof.
  intros [Ha Hd He Hf Hall]. destruct sizes_ok as (Sr & Se & Sf & Su).
  destruct ev as [b l dp p|fi off n|s t dp f|b l|b l| |]; simpl.
  - unfold push_frame. destruct (push _ _ _ _) as [fs|] eqn:E; simpl; [|by split].
    apply push_spec in E as [E ?]; [|done..]. split; try done. simpl. rewrite E.
    apply Forall_app. split; [done|]. constructor; [|done].
    split; [auto with asm..|constructor].
  - rewrite frame_record_eq. destruct (if fi <? 0 then _ else _) as [f|] eqn:Ef; [|by split].
    destruct (recorded g1 g2 f off n) as [[nb f'] tr] eqn:Er. split; simpl; try done.
    + unfold pool_ok in *. simpl. by rewrite length_insert.
    + apply Forall_insert; [done|]. eapply recorded_ok; [|done].
      destruct (fi <? 0); [done|]. by eapply Forall_lookup_1.
  - unfold add_edge. destruct (push _ _ _ _) as [es|] eqn:E; simpl; [|by split].
    apply push_spec in E as [E ?]; [|done..]. by split.
  - unfold allow_region, region_add. destruct (push _ _ _ _) as [p|] eqn:E; simpl; [|by split].
    apply push_spec in E as [E ?]; [|done..]. by split.
  - unfold deny_region, region_add. destruct (push _ _ _ _) as [p|] eqn:E; simpl; [|by split].
    apply push_spec in E as [E ?]; [|done..]. by split.
  - by split.
  - by split.
Qed.

Definition told (d : descent) (j : journal) : Prop :=
  Forall2 tells (items (frames d)) (j_frames j) ∧ items (edges d) = j_edges j.

Lemma tells_new b l dp p : tells (mk_frame b l dp p pool0 pool0 (mk_blockseq false 0)) (mk_said b l dp p []).
Proof.
  split; [done|done| |done]. intros off. simpl. split; [set_solver|].
  intros (pre & n & post & E & _). by destruct pre.
Qed.

Lemma exec_told g1 g2 d ev j :
  ok d → (truncated d = false → told d j) →
  truncated (exec g1 g2 d ev) = false → told (exec g1 g2 d ev) (note j ev).
Proof.
  intros [Ha Hd He Hf Hall] Hj. destruct sizes_ok as (Sr & Se & Sf & Su).
  destruct ev as [b l dp p|fi off n|s t dp f|b l|b l| |]; simpl.
  - unfold push_frame. destruct (push _ _ _ _) as [fs|] eqn:E; simpl; [|done].
    intros Htr. destruct (Hj Htr) as [H1 H2]. apply push_spec in E as [E _]; [|done..].
    split; simpl; [|done]. rewrite E. apply Forall2_app; [done|]. constructor; [|done].
    apply tells_new.
  - rewrite frame_record_eq. destruct (Z.ltb_spec fi 0); [done|].
    destruct (items (frames d) !! Z.to_nat fi) as [f|] eqn:Ef; simpl.
    + destruct (recorded g1 g2 f off n) as [[nb f'] tr] eqn:Er. simpl.
      intros [Htr ->]%orb_false_iff. destruct (Hj Htr) as [H1 H2]. split; simpl; [|done].
      destruct (Forall2_lookup_l _ _ _ _ _ H1 Ef) as (s & Es & Hs).
      assert (frame_ok f) by (by eapply Forall_lookup_1).
      destruct (recorded_tells g1 g2 f s off n nb f' ltac:(done) Hs Er) as [_ Ht].
      rewrite (list_alter_insert _ _ _ _ Es). by apply Forall2_insert.
    + intros Htr. destruct (Hj Htr) as [H1 H2]. split; simpl; [|done].
      rewrite list_alter_ge; [done|]. rewrite <-(Forall2_length _ _ _ H1).
      by apply lookup_ge_None_1.
  - unfold add_edge. destruct (push _ _ _ _) as [es|] eqn:E; simpl; [|done].
    intros Htr. destruct (Hj Htr) as [H1 H2]. apply push_spec in E as [E _]; [|done..].
    split; simpl; [done|]. by rewrite E, H2.
  - unfold allow_region, region_add. by destruct (push _ _ _ _).
  - unfold deny_region, region_add. by destruct (push _ _ _ _).
  - done.
  - done.
Qed.

Lemma runs_spec l evs d : runs l evs d → ok d ∧ (truncated d = false → told d (journal_of evs)).
Proof.
  induction 1 as [g d Hnew|evs d g1 g2 ev _ [Hok Ht]].
  - unfold asmtest_descent_new in Hnew. destruct (g sizeof_descent); [|done]. injection Hnew as <-.
    split; [split; auto with asm|]. intros _. by split.
  - split; [by apply exec_ok|]. unfold journal_of. rewrite foldl_app. by apply exec_told.
Qed.

(** A handle that is not flagged truncated holds everything it was told, and
    only that: its frames are the frames pushed, in order and with their
    extents; each holds every instruction recorded in it, in order, and as
    blocks exactly the offsets reached other than by falling through; its edges
    are the edges added; and the decision handed to the flat trace for the next
    instruction of a frame is whether it opens a block.  Whatever the allocator
    refuses, every pool stays inside its block and no frame lists a block
    twice. *)
Theorem descent_exact l evs d (Hr : runs l evs d) :
  let j := journal_of evs in
  ok d ∧
  (truncated d = false →
   Forall2 tells (items (frames d)) (j_frames j) ∧ items (edges d) = j_edges j ∧
   ∀ gb gi (i : nat) s off n, j_frames j !! i = Some s →
     (frame_record gb gi d (Z.of_nat i) off n).1 = bool_decide (fall (stream s) ≠ Some off)).
Proof.
  destruct (runs_spec l evs d Hr) as [Hok Ht]. split; [done|]. intros Htr. destruct (Ht Htr) as [H1 H2].
  split; [done|]. split; [done|]. intros gb gi i s off n Hs. rewrite frame_record_eq.
  destruct (Z.ltb_spec (Z.of_nat i) 0); [lia|]. rewrite Nat2Z.id.
  destruct (Forall2_lookup_r _ _ _ _ _ H1 Hs) as (f & -> & Hf).
  pose proof (boundary_spec f s off n Hf) as B. unfold recorded.
  destruct (asmtest_blockseq_boundary _ _ _) as [nb sq]. destruct B as [-> _].
  destruct (if _ && _ then _ else _) as [bs rb]. by destruct (try_push gi _ _).
Qed.

(** A frame that loops once: a call-out edge, then the back edge re-opens the
    block at 0. *)
Definition demo_events : list event :=
  [EvFrame 4096 64 0 (-1); EvInsn 0 0 3; EvInsn 0 3 2; EvEdge 3 8192 0 0; EvInsn 0 5 2; EvInsn 0 0 3;
   EvInsn 0 40 1].
Definition demo_handle : option descent :=
  d ← asmtest_descent_new always ASMTEST_DESCENT_RECORD_EDGES;
  Some (foldl (exec always always) d demo_events).

Lemma demo_runs evs l d d' :
  runs l evs d → ∀ evs', foldl (exec always always) d evs' = d' → runs l (evs ++ evs') d'.
Proof.
  intros Hr evs'. revert evs d Hr. induction evs' as [|ev evs' IH]; intros evs d Hr E; simpl in E.
  - subst. by rewrite app_nil_r.
  - rewrite cons_middle, app_assoc. eapply IH; [|done]. by constructor.
Qed.

Lemma descent_exact_witness :
  ∃ d, demo_handle = Some d ∧ asmtest_descent_frame_block_count (Some d) 0 = 2%nat ∧
    items (edges d) = j_edges (journal_of demo_events).
Proof.
  eexists. split; [vm_compute; reflexivity|]. split; [vm_compute; reflexivity|].
  apply (descent_exact ASMTEST_DESCENT_RECORD_EDGES demo_events); [|vm_compute; reflexivity].
  apply (demo_runs [] _ _ _ (runs_new _ always _ eq_refl)). vm_compute. reflexivity.
Defined.
End Descent.
