(* ===== verification/BsRecon.v ===== *)
(** The block-step terminator scanner ([src/bs_recon.c]): from the address a
    block-step trap was taken to, which branch of the straight-line run behind it
    was the one taken. *)
From S2P Require Import Prelude.

Module BsRecon.

(** What the disassembly layer ([asmtest_disas_*], over Capstone) answers about
    the instruction at an offset of the code: its length (0 when undecodable)
    with the call and return bits, whether it is a branch, its static target, and
    whether it is an unconditional jump. *)
Class Decoder := {
  disas_probe : Z → Z * bool * bool;
  disas_is_branch : Z → bool;
  disas_branch_target : Z → option Z;
  disas_is_uncond_jump : Z → bool;
}.

Inductive br_kind :=
  BR_NONE | BR_COND_MISS | BR_COND_HIT | BR_HARD_HIT | BR_HARD_MISS | BR_HARD_UNKNOWN.
#[export] Instance br_kind_eq_dec : EqDecision br_kind.
Proof. solve_decision. Defined.

(** [ASMTEST_BS_FAIL], [_OK] and [_AMBIGUOUS], the last two with [*term_out]. *)
Inductive verdict := BS_FAIL | BS_OK (term : Z) | BS_AMBIGUOUS (term : Z).

(** Which kinds an instruction can have. *)
Ltac kinds := rewrite ?elem_of_cons, ?elem_of_nil in *; intuition congruence.

Section scan.
Context `{Decoder}.

(** The kind and the length of an instruction; the global probe counter is
    threaded through. *)
Definition classify_branch (calls off next_pc : Z) : Z * (br_kind * Z) :=
  let calls := calls +64 1 in
  let '(l, is_call, is_ret) := disas_probe off in
  (calls,
   (if l =? 0 then BR_NONE
    else if negb (disas_is_branch off) then BR_NONE
    else if is_ret then BR_HARD_UNKNOWN
    else match disas_branch_target off with
         | None => BR_HARD_UNKNOWN
         | Some target =>
             if is_call || disas_is_uncond_jump off
             then if target =? next_pc then BR_HARD_HIT else BR_HARD_MISS
             else if target =? next_pc then BR_COND_HIT else BR_COND_MISS
         end, l)).

(** The label [decided]. *)
Definition decided (ncand first_cand : Z) : verdict :=
  if ncand =? 0 then BS_FAIL
  else if ncand =? 1 then BS_OK first_cand else BS_AMBIGUOUS first_cand.
(** The exits of the loop that prove nothing. *)
Definition fell_out (ncand first_cand : Z) : verdict :=
  if ncand =? 0 then BS_FAIL else BS_AMBIGUOUS first_cand.

(** One round per value of [guard]. *)
Fixpoint scan_loop (rounds : nat) (len next_pc : Z) (calls walk first_cand ncand : Z) : Z * verdict :=
  match rounds with
  | O => (calls, fell_out ncand first_cand)
  | S rounds =>
      if len <=? walk then (calls, fell_out ncand first_cand)
      else
        let '(calls, (k, l)) := classify_branch calls walk next_pc in
        if l =? 0 then (calls, fell_out ncand first_cand)
        else match k with
        | BR_COND_HIT =>
            scan_loop rounds len next_pc calls (walk +64 l)
              (if ncand =? 0 then walk else first_cand) (u32 (ncand + 1))
        | BR_HARD_HIT =>
            (calls, decided (u32 (ncand + 1)) (if ncand =? 0 then walk else first_cand))
        | BR_HARD_UNKNOWN =>
            (calls, if ncand =? 0 then BS_OK walk else decided ncand first_cand)
        | BR_HARD_MISS => (calls, decided ncand first_cand)
        | BR_NONE | BR_COND_MISS => scan_loop rounds len next_pc calls (walk +64 l) first_cand ncand
        end
  end.

Definition asmtest_bs_scan_terminator (calls len from_off next_pc : Z) : Z * verdict :=
  scan_loop (S (Z.to_nat len)) len next_pc calls from_off 0 0.

(** ** What really ran *)
Definition kind_at (next_pc off : Z) : br_kind := (classify_branch 0 off next_pc).2.1.
Definition len_at (off : Z) : Z := (disas_probe off).1.1.

Section exec.
Context (len next_pc : Z).

(** An instruction of the region that decodes. *)
Definition decodes (off : Z) : Prop := off < len ∧ len_at off ≠ 0.

(** Control can pass the instruction at [off] without a taken branch. *)
Definition passes (off : Z) : Prop :=
  kind_at next_pc off ∈ [BR_NONE; BR_COND_MISS; BR_COND_HIT].

(** [t] can be reached from [off] in a straight line. *)
Inductive falls_to : Z → Z → Prop :=
| falls_refl off : falls_to off off
| falls_next off t : decodes off → passes off → falls_to (off + len_at off) t → falls_to off t.

(** The instruction at [t] can have ended the run that started at [off] with a
    branch to [next_pc]. *)
Definition terminator (off t : Z) : Prop :=
  falls_to off t ∧ decodes t ∧
  kind_at next_pc t ∈ [BR_COND_HIT; BR_HARD_HIT; BR_HARD_UNKNOWN].
Lemma terminator_inv off t :
  terminator off t →
  t = off ∧ decodes off ∧ kind_at next_pc off ∈ [BR_COND_HIT; BR_HARD_HIT; BR_HARD_UNKNOWN] ∨
  decodes off ∧ passes off ∧ terminator (off + len_at off) t.
Proof. intros (Hf & Hd & Hk). destruct Hf as [|off t ?? Hf]; [auto|]. right. by split_and!. Qed.

Lemma terminator_next off t :
  decodes off → passes off → terminator (off + len_at off) t → terminator off t.
Proof. intros ?? (? & ? & ?). split_and!; [by econstructor|done..]. Qed.

(** The decoder stays inside the code. *)
Definition decoder_ok : Prop := ∀ off, 0 <= off < len → 0 <= len_at off <= len - off.

(** What a verdict says of the runs from [off], on top of [ncand] candidates met
    before, the first of them [first]. *)
Definition explains (off first ncand : Z) (v : verdict) : Prop :=
  match v with
  | BS_FAIL => ncand = 0 ∧ ∀ t, ¬ terminator off t
  | BS_OK t0 =>
      ncand = 0 ∧ terminator off t0 ∧
      (∀ t, terminator off t → falls_to t0 t ∧ (t = t0 ∨ kind_at next_pc t = BR_HARD_UNKNOWN)) ∨
      ncand = 1 ∧ t0 = first ∧ ∀ t, terminator off t → kind_at next_pc t = BR_HARD_UNKNOWN
  | BS_AMBIGUOUS t0 =>
      ncand = 0 ∧ terminator off t0 ∧ (∀ t, terminator off t → falls_to t0 t) ∨
      1 <= ncand ∧ t0 = first
  end.

Lemma fell_out_explains off first ncand :
  0 <= ncand → ¬ decodes off → explains off first ncand (fell_out ncand first).
Proof.
  intros Hn Hd. assert (∀ t, ¬ terminator off t) as Ht.
  { intros t [(_ & ? & _)|(? & _)]%terminator_inv; done. }
  unfold fell_out. destruct (Z.eqb_spec ncand 0); simpl; [done|]. right. split; [lia|done].
Qed.

(** The instruction at [off] always branches away. *)
Lemma decided_explains off first ncand :
  0 <= ncand → ¬ passes off → kind_at next_pc off ∈ [BR_HARD_MISS; BR_HARD_UNKNOWN] →
  (ncand = 0 → kind_at next_pc off = BR_HARD_MISS) →
  explains off first ncand (decided ncand first).
Proof.
  intros Hn Hp Hk H0. assert (∀ t, terminator off t → t = off ∧ kind_at next_pc t = BR_HARD_UNKNOWN) as Ht.
  { intros t [(-> & _ & ?)|(_ & ? & _)]%terminator_inv; [|done]. split; [done|]. kinds. }
  unfold decided. destruct (Z.eqb_spec ncand 0) as [E|]; simpl.
  { split; [done|]. intros t [-> Hu]%Ht. rewrite H0 in Hu; done. }
  destruct (Z.eqb_spec ncand 1); simpl; right; split_and!; try done; [|lia].
  intros t Hu. by apply Ht.
Qed.

Lemma hit_explains off first ncand :
  0 <= ncand < 2 ^ 32 - 1 → decodes off → kind_at next_pc off = BR_HARD_HIT →
  explains off first ncand (decided (u32 (ncand + 1)) (if ncand =? 0 then off else first)).
Proof.
  intros Hn Hd Hk. assert (∀ t, terminator off t → t = off) as Ht.
  { intros t [(-> & _ & _)|(_ & Hp & _)]%terminator_inv; [done|].
    unfold passes in Hp. rewrite Hk in Hp. kinds. }
  rewrite u32_small by lia. unfold decided. destruct (Z.eqb_spec (ncand + 1) 0); [lia|].
  destruct (Z.eqb_spec (ncand + 1) 1); destruct (Z.eqb_spec ncand 0); simpl; try lia.
  left. split_and!; [done| |intros t ->%Ht; split; [constructor|auto]].
  split_and!; [constructor|done|rewrite Hk; kinds].
Qed.

(** Passing a conditional that could have been taken makes it a candidate. *)
Lemma candidate_explains off first ncand v :
  0 <= ncand → decodes off → kind_at next_pc off = BR_COND_HIT →
  explains (off + len_at off) (if ncand =? 0 then off else first) (ncand + 1) v →
  explains off first ncand v.
Proof.
  intros Hn Hd Hk. assert (passes off) as Hp by (unfold passes; rewrite Hk; kinds).
  assert (terminator off off) as Hself by (split_and!; [constructor|done|rewrite Hk; kinds]).
  assert (∀ t, terminator off t → falls_to off t) as Hall by (by intros t (? & _)).
  destruct v as [|t0|t0]; simpl.
  - intros [? _]; lia.
  - intros [[? _]|(E & -> & Ht)]; [lia|]. left. destruct (Z.eqb_spec ncand 0); [|lia].
    split_and!; [done|done|]. intros t Htt. split; [by apply Hall|].
    destruct (terminator_inv off t Htt) as [[-> _]|(_ & _ & ?)]; auto.
  - intros [[? _]|[_ ->]]; [lia|]. destruct (Z.eqb_spec ncand 0); [left|right]; split_and!; auto; lia.
Qed.

Lemma pass_explains off first ncand v :
  decodes off → kind_at next_pc off ∈ [BR_NONE; BR_COND_MISS] →
  explains (off + len_at off) first ncand v → explains off first ncand v.
Proof.
  intros Hd Hk. assert (passes off) as Hp by (unfold passes; kinds).
  assert (∀ t, terminator off t ↔ terminator (off + len_at off) t) as Ht.
  { intros t. split; [|by apply terminator_next].
    intros [(-> & _ & ?)|(_ & _ & ?)]%terminator_inv; [kinds|done]. }
  destruct v; simpl; setoid_rewrite Ht; done.
Qed.

Lemma unknown_explains off first :
  decodes off → kind_at next_pc off = BR_HARD_UNKNOWN → explains off first 0 (BS_OK off).
Proof.
  intros Hd Hk. left. split_and!; [done| |].
  - split_and!; [constructor|done|rewrite Hk; kinds].
  - intros t [(-> & _)|(_ & Hp & _)]%terminator_inv; [split; [constructor|auto]|].
    unfold passes in Hp. rewrite Hk in Hp. kinds.
Qed.

Lemma scan_loop_spec rounds calls off first ncand :
  decoder_ok → 0 <= off → len < 2 ^ 64 → len - off < Z.of_nat rounds →
  0 <= ncand → ncand + Z.of_nat rounds < 2 ^ 32 →
  explains off first ncand (scan_loop rounds len next_pc calls off first ncand).2.
Proof.
  intros Hok. revert calls off first ncand.
  induction rounds as [|rounds IH]; intros calls off first ncand Hoff Hlen Hr Hn Hw; cbn [scan_loop].
  { apply fell_out_explains; [done|]. unfold decodes. lia. }
  destruct (Z.leb_spec len off); [apply fell_out_explains; [done|]; unfold decodes; lia|].
  destruct (classify_branch calls off next_pc) as [calls' [k l]] eqn:E.
  assert (k = kind_at next_pc off ∧ l = len_at off) as [-> ->].
  { unfold kind_at, len_at, classify_branch in *. destruct (disas_probe off) as [[l' ic] ir].
    by injection E as [= _ <- <-]. }
  pose proof (Hok off ltac:(lia)) as Hl. destruct (Z.eqb_spec (len_at off) 0) as [E0|E0].
  { apply fell_out_explains; [done|]. unfold decodes. tauto. }
  assert (decodes off) as Hd by (split; [lia|done]). rewrite (u64_small (off + _)) by lia.
  destruct (kind_at next_pc off) eqn:Ek.
  - apply pass_explains; [done|rewrite Ek; kinds|]. apply IH; lia.
  - apply pass_explains; [done|rewrite Ek; kinds|]. apply IH; lia.
  - apply candidate_explains; [done..|]. rewrite u32_small by lia. apply IH; lia.
  - apply hit_explains; [lia|done..].
  - apply decided_explains; [done|unfold passes; rewrite Ek; kinds|rewrite Ek; kinds|done].
  - simpl. destruct (Z.eqb_spec ncand 0) as [->|Hne]; [by apply unknown_explains|].
    apply decided_explains; [done|unfold passes; rewrite Ek; kinds|rewrite Ek; kinds|done].
Qed.
End exec.

(** The scanner never guesses.  When it answers with a terminator, that
    branch can have ended the run at the observed stop, every run that reaches
    the stop passes it, and no other branch with a static target can have ended
    the run; when it answers that the run is ambiguous, every run that reaches
    the stop passes the branch it names, so the prefix up to it did execute; when
    it fails, no run of the decoded code reaches the stop. *)
Theorem scan_terminator_sound calls len from_off next_pc
    (Hok : decoder_ok len) (Hlen : 0 <= len < 2 ^ 32 - 1) (Hfrom : 0 <= from_off) :
  match (asmtest_bs_scan_terminator calls len from_off next_pc).2 with
  | BS_OK t0 =>
      terminator len next_pc from_off t0 ∧
      ∀ t, terminator len next_pc from_off t →
        falls_to len next_pc t0 t ∧ (t = t0 ∨ kind_at next_pc t = BR_HARD_UNKNOWN)
  | BS_AMBIGUOUS t0 =>
      terminator len next_pc from_off t0 ∧
      ∀ t, terminator len next_pc from_off t → falls_to len next_pc t0 t
  | BS_FAIL => ∀ t, ¬ terminator len next_pc from_off t
  end.
Proof.
  unfold asmtest_bs_scan_terminator.
  pose proof (scan_loop_spec len next_pc (S (Z.to_nat len)) calls from_off 0 0 Hok Hfrom) as S.
  specialize (S ltac:(lia) ltac:(lia) ltac:(lia) ltac:(lia)).
  destruct (scan_loop _ _ _ _ _ _ _) as [c [|t0|t0]]; simpl in *.
  - apply S.
  - destruct S as [[_ S]|[? _]]; [done|lia].
  - destruct S as [[_ S]|[? _]]; [done|lia].
Qed.
End scan.

(** [je 100; nop; je 100; ret] in six bytes. *)
Definition dual_guard : Decoder := {|
  disas_probe off :=
    if (off =? 0) || (off =? 3) then (2, false, false)
    else if off =? 2 then (1, false, false)
    else if off =? 5 then (1, false, true) else (0, false, false);
  disas_is_branch off := (off =? 0) || (off =? 3) || (off =? 5);
  disas_branch_target off := if (off =? 0) || (off =? 3) then Some 100 else None;
  disas_is_uncond_jump _ := false;
|}.

Lemma dual_guard_ok : decoder_ok (H := dual_guard) 6.
Proof.
  intros off Hoff. unfold len_at. simpl.
  destruct (Z.eqb_spec off 0), (Z.eqb_spec off 3), (Z.eqb_spec off 2), (Z.eqb_spec off 5); simpl; lia.
Qed.

(** From 0 both guards can have been taken; from 2 only the second. *)
Lemma scan_terminator_sound_witness :
  (asmtest_bs_scan_terminator (H := dual_guard) 0 6 0 100).2 = BS_AMBIGUOUS 0 ∧
  (asmtest_bs_scan_terminator (H := dual_guard) 0 6 2 100).2 = BS_OK 3 ∧
  terminator (H := dual_guard) 6 100 2 3.
Proof.
  split; [vm_compute; reflexivity|]. split; [vm_compute; reflexivity|].
  exact (proj1 (scan_terminator_sound (H := dual_guard) 0 6 2 100 dual_guard_ok
           (conj (Z.lt_le_incl 0 6 eq_refl) eq_refl) (Z.lt_le_incl 0 2 eq_refl))).
Defined.
End BsRecon.
