(* ===== verification/Ibs.v ===== *)
(** The statistical IBS lanes of [src/ibs_backend.c]: decoding one sample,
    aggregating samples by edge, address or instruction pointer, walking a perf
    data ring, and lifting the edges of a survey to basic-block leaders.  Reads of
    a record are checked ([ld]): a definition answers [None] when the code would
    read outside the bytes it was given. *)
From S2P Require Import Prelude Bytes Grow OpenHash Histogram.
Import Histogram.

Module Ibs.

(** ** Codes and data *)
Inductive rc := IBS_OK | IBS_NOEDGE | IBS_EINVAL | IBS_EUNAVAIL | IBS_EDECODE.
#[export] Instance rc_eq_dec : EqDecision rc.
Proof. solve_decision. Defined.

Record ibs_edge := mk_edge {
  from : Z; to : Z; count : Z; taken : Z; mispred : Z; is_return : Z;
}.
#[export] Instance ibs_edge_eq_dec : EqDecision ibs_edge.
Proof. solve_decision. Defined.
Definition edge0 : ibs_edge := mk_edge 0 0 0 0 0 0.

Record fetch_sample := mk_fs {
  fetch_addr : Z; valid : Z; complete : Z; icache_miss : Z; itlb_miss : Z; latency : Z;
}.
Definition fs0 : fetch_sample := mk_fs 0 0 0 0 0 0.

(** ** The raw payloads *)
Definition IBS_RAW_REG_OFF (k : Z) : Z := 4 + 8 * k.
Definition IBS_REG_RIP : Z := 1.
Definition IBS_REG_DATA : Z := 2.
Definition IBS_REG_BRTGT : Z := 7.
Definition IBS_RAW_MIN_BYTES : Z := 4 + 8 * (IBS_REG_BRTGT + 1).
Definition IBS_OPDATA_RETURN : Z := 34.
Definition IBS_OPDATA_BRN_TAKEN : Z := 35.
Definition IBS_OPDATA_BRN_MISP : Z := 36.
Definition IBS_OPDATA_BRN_RET : Z := 37.
Definition IBS_OPDATA_RIP_INVALID : Z := 38.
Definition IBS_FETCH_REG_CTL : Z := 0.
Definition IBS_FETCH_REG_LINAD : Z := 1.
Definition IBS_FETCH_RAW_MIN_BYTES : Z := 4 + 8 * (IBS_FETCH_REG_LINAD + 1).
Definition IBS_FETCHCTL_VAL : Z := 49.
Definition IBS_FETCHCTL_COMP : Z := 50.
Definition IBS_FETCHCTL_IC_MISS : Z := 51.
Definition IBS_FETCHCTL_L1TLB_MISS : Z := 55.

Definition bit (v b : Z) : Z := Z.land (Z.shiftr v b) 1.

(** The code and [*out]; [raw] and [out] are null pointers when [None] and
    [false]. *)
Definition asmtest_ibs_decode_op (raw : option (list Z)) (out : bool) : option (rc * ibs_edge) :=
  match raw, out with
  | Some p, true =>
      if Z.of_nat (length p) <? IBS_RAW_MIN_BYTES then Some (IBS_EDECODE, edge0)
      else
        caps ← ld_u32 p 0;
        if Z.land caps (Z.shiftl 1 5) =? 0 then Some (IBS_EDECODE, edge0)
        else
          rip ← ld_u64 p (IBS_RAW_REG_OFF IBS_REG_RIP);
          data ← ld_u64 p (IBS_RAW_REG_OFF IBS_REG_DATA);
          tgt ← ld_u64 p (IBS_RAW_REG_OFF IBS_REG_BRTGT);
          let brn_ret := bit data IBS_OPDATA_BRN_RET in
          let brn_taken := bit data IBS_OPDATA_BRN_TAKEN in
          let rip_invalid :=
            if Z.land caps (Z.shiftl 1 7) =? 0 then 0 else bit data IBS_OPDATA_RIP_INVALID in
          if (brn_ret =? 0) || (brn_taken =? 0) || negb (rip_invalid =? 0) then Some (IBS_NOEDGE, edge0)
          else Some (IBS_OK, mk_edge rip tgt 1 1 (bit data IBS_OPDATA_BRN_MISP) (bit data IBS_OPDATA_RETURN))
  | _, _ => Some (IBS_EINVAL, edge0)
  end.

Definition asmtest_ibs_decode_fetch (raw : option (list Z)) (out : bool) : option (rc * fetch_sample) :=
  match raw, out with
  | Some p, true =>
      if Z.of_nat (length p) <? IBS_FETCH_RAW_MIN_BYTES then Some (IBS_EDECODE, fs0)
      else
        ctl ← ld_u64 p (IBS_RAW_REG_OFF IBS_FETCH_REG_CTL);
        linad ← ld_u64 p (IBS_RAW_REG_OFF IBS_FETCH_REG_LINAD);
        let v := bit ctl IBS_FETCHCTL_VAL in
        Some (if v =? 0 then IBS_NOEDGE else IBS_OK,
              mk_fs linad v (bit ctl IBS_FETCHCTL_COMP) (bit ctl IBS_FETCHCTL_IC_MISS)
                (bit ctl IBS_FETCHCTL_L1TLB_MISS) (Z.land (Z.shiftr ctl 32) 0xFFFF))
  | _, _ => Some (IBS_EINVAL, fs0)
  end.

(** ** The edge hash *)
Record eh_slot := mk_eh {
  eh_from : Z; eh_to : Z; eh_count : Z; eh_mispred : Z; eh_is_return : Z; eh_used : bool;
}.
Definition eh0 : eh_slot := mk_eh 0 0 0 0 0 false.

Definition eh_hash (from to : Z) : Z :=
  let k := from *64 0x9E3779B97F4A7C15 in
  let k := Z.lxor k (u64 (to + 0x9E3779B97F4A7C15 + u64 (Z.shiftl k 6) + Z.shiftr k 2)) in
  Z.lxor k (Z.shiftr k 29).

(** One call of [eh_add]: the edge with its two flags. *)
Record eh_sample := mk_es { es_from : Z; es_to : Z; es_mispred : Z; es_is_return : Z }.

(** The two bodies of the probe loop: an empty slot is filled, the edge's own slot
    counts one more. *)
Definition eh_fill (x : eh_sample) : eh_slot :=
  mk_eh (es_from x) (es_to x) 1 (es_mispred x) (es_is_return x) true.
Definition eh_bump (s : eh_slot) (x : eh_sample) : eh_slot :=
  mk_eh (eh_from s) (eh_to s) (eh_count s +64 1) (u32 (eh_mispred s + es_mispred x))
    (u32 (eh_is_return s + es_is_return x)) (eh_used s).

#[export] Instance eh_Slot : Slot eh_slot (Z * Z) eh_sample := {|
  used := eh_used;
  key s := (eh_from s, eh_to s);
  hash k := eh_hash k.1 k.2;
  empty := eh0;
  sizeof_slot := 40;
  akey x := (es_from x, es_to x);
  fresh := eh_fill;
  bump := eh_bump;
|}.
#[export] Instance eh_SlotLaws : SlotLaws eh_slot (Z * Z) eh_sample.
Proof. split; simpl; auto; lia. Qed.

Definition edge_hash : Type := table eh_slot.
Definition eh_init (grant : allocator) (c : Z) : option edge_hash := tinit grant c.
Definition eh_free (h : edge_hash) : edge_hash := mk_table [] 0 0.
Definition eh_grow (grant : allocator) (h : edge_hash) : option edge_hash := tgrow grant h.
Definition eh_add (grant : allocator) (h : edge_hash) (x : eh_sample) : edge_hash := tadd grant h x.

Definition eh_cmp_desc (x y : ibs_edge) : Z :=
  if negb (count x =? count y) then (if count x <? count y then 1 else -1)
  else if negb (from x =? from y) then (if from x <? from y then -1 else 1)
  else if negb (to x =? to y) then (if to x <? to y then -1 else 1)
  else 0.

(** One entry of the exported array. *)
Definition eh_edge (s : eh_slot) : ibs_edge :=
  mk_edge (eh_from s) (eh_to s) (eh_count s) 1 (eh_mispred s) (eh_is_return s).
Definition sizeof_edge : Z := 40.

(** ** The fetch hash *)
Record fh_slot := mk_fh {
  fh_addr : Z; fh_count : Z; fh_icache_miss : Z; fh_itlb_miss : Z; fh_latency_sum : Z; fh_used : bool;
}.
Definition fh0 : fh_slot := mk_fh 0 0 0 0 0 false.
Definition fh_hash (addr : Z) : Z :=
  let k := addr *64 0x9E3779B97F4A7C15 in Z.lxor k (Z.shiftr k 29).
Definition fh_fill (x : fetch_sample) : fh_slot :=
  mk_fh (fetch_addr x) 1 (icache_miss x) (itlb_miss x) (latency x) true.
Definition fh_bump (s : fh_slot) (x : fetch_sample) : fh_slot :=
  mk_fh (fh_addr s) (fh_count s +64 1) (fh_icache_miss s +64 icache_miss x)
    (fh_itlb_miss s +64 itlb_miss x) (fh_latency_sum s +64 latency x) (fh_used s).
#[export] Instance fh_Slot : Slot fh_slot Z fetch_sample := {|
  used := fh_used; key := fh_addr; hash := fh_hash; empty := fh0; sizeof_slot := 48;
  akey := fetch_addr; fresh := fh_fill; bump := fh_bump;
|}.
#[export] Instance fh_SlotLaws : SlotLaws fh_slot Z fetch_sample.
Proof. split; simpl; auto; lia. Qed.
Definition fetch_hash : Type := table fh_slot.
Definition fh_init (grant : allocator) (c : Z) : option fetch_hash := tinit grant c.
Definition fh_grow (grant : allocator) (h : fetch_hash) : option fetch_hash := tgrow grant h.
Definition fh_add (grant : allocator) (h : fetch_hash) (x : fetch_sample) : fetch_hash := tadd grant h x.

(** An exported bucket is the slot without its flag. *)
Record fetch_hot := mk_hot { hot_addr : Z; hot_count : Z; hot_icache : Z; hot_itlb : Z; hot_latency : Z }.
Definition fh_hot (s : fh_slot) : fetch_hot :=
  mk_hot (fh_addr s) (fh_count s) (fh_icache_miss s) (fh_itlb_miss s) (fh_latency_sum s).
Definition sizeof_hot : Z := 40.
Definition fh_cmp_desc (x y : fetch_hot) : Z :=
  if negb (hot_count x =? hot_count y) then (if hot_count x <? hot_count y then 1 else -1)
  else if negb (hot_addr x =? hot_addr y) then (if hot_addr x <? hot_addr y then -1 else 1)
  else 0.

(** ** The ring *)
(** [header + 8 + 8 + 4 + IBS_RAW_MIN_BYTES + 16], and the worst case with a
    callchain. *)
Definition IBS_MAX_RECORD : Z := 8 + 8 + 8 + 4 + IBS_RAW_MIN_BYTES + 16.
Definition IBS_CALLCHAIN_MAX_STACK : Z := 127.
Definition IBS_MAX_RECORD_CALLCHAIN : Z := 24 + 8 * (1 + IBS_CALLCHAIN_MAX_STACK + 8) + 80 + 16.
Definition ibs_max_record (has_callchain : bool) : Z :=
  if has_callchain then IBS_MAX_RECORD_CALLCHAIN else IBS_MAX_RECORD.

(** What the kernel shows in the mapping: the data pages and the two positions. *)
Record ring := mk_ring { data : list Z; head : Z; tail : Z }.

(** [pid] (0 when it was not written) and the payload of a sample record. *)
Definition ibs_sample_raw (rec : list Z) (has_callchain : bool) : option (Z * option (list Z)) :=
  let recsz := Z.of_nat (length rec) in
  let p := 8 in
  if recsz <? p + 8 + 8 then Some (0, None)
  else
    pid ← ld_u32 rec (p + 8);
    let p := p + 16 in
    let raw_at (p : Z) :=
      if recsz <? p + 4 then Some (pid, None)
      else
        rawsz ← ld_u32 rec p;
        let p := p + 4 in
        if recsz - p <? rawsz then Some (pid, None)
        else raw ← sub_bytes rec p rawsz; Some (pid, Some raw) in
    if has_callchain then
      if recsz <? p + 8 then Some (pid, None)
      else
        nr ← ld_u64 rec p;
        let p := p + 8 in
        if (recsz - p) / 8 <? nr then Some (pid, None) else raw_at (p + nr * 8)
    else raw_at p.

(** The record loop all three drains share: header, framing, then [step] on the
    type and the bytes of the record.  A record is at least one byte, so a round
    per byte is enough. *)
Fixpoint walk {St} (step : St → Z → list Z → option St) (fuel : nat) (buf : list Z) (off : Z) (st : St) :
    option St :=
  match fuel with
  | O => None
  | S fuel =>
      if off + 8 <=? Z.of_nat (length buf) then
        ty ← ld_u32 buf off;
        size ← ld_u16 buf (off + 6);
        if (size =? 0) || (Z.of_nat (length buf) <? off + size) then Some st
        else
          rec ← sub_bytes buf off size;
          st ← step st ty rec;
          walk step fuel buf (off + size) st
      else Some st
  end.

(** The shape of a drain: clamp the span, flag a ring with less than a record of
    headroom, linearize it, walk it, publish the new tail. *)
Definition drain {St} (step : St → Z → list Z → option St) (throttle : St → St) (max_record : Z)
    (r : ring) (st : St) : option (St * ring) :=
  let dsz := Z.of_nat (length (data r)) in
  let span := head r -64 tail r in
  if span =? 0 then Some (st, r)
  else
    let span := if dsz <? span then dsz else span in
    let st := if dsz <? span +64 max_record then throttle st else st in
    scratch ← mapM (λ i : nat, data r !! Z.to_nat ((tail r +64 Z.of_nat i) mod dsz)) (seq 0 (Z.to_nat span));
    st ← walk step (S (length scratch)) scratch 0 st;
    Some (st, mk_ring (data r) (head r) (tail r +64 span)).

(** What [PERF_RECORD_LOST] adds to [lost]. *)
Definition lost_of (rec : list Z) : option Z :=
  if 8 + 16 <=? Z.of_nat (length rec) then ld_u64 rec (8 + 8) else Some 1.

(** ** The survey of edges *)
Record survey := mk_sv {
  edges : list ibs_edge; samples : Z; branch_samples : Z; lost : Z; throttled : bool;
}.
Definition survey0 : survey := mk_sv [] 0 0 0 false.

(** [(pid_t)pid]. *)
Definition to_pid (x : Z) : Z := (x + 2 ^ 31) mod 2 ^ 32 - 2 ^ 31.

Definition ibs_step (grant : allocator) (has_callchain : bool) (filter_pid : Z)
    (st : edge_hash * survey) (ty : Z) (rec : list Z) : option (edge_hash * survey) :=
  let '(h, o) := st in
  if ty =? PERF_RECORD_SAMPLE then
    '(pid, raw) ← ibs_sample_raw rec has_callchain;
    if (filter_pid =? 0) || (to_pid pid =? filter_pid) then
      let o := mk_sv (edges o) (samples o +64 1) (branch_samples o) (lost o) (throttled o) in
      match raw with
      | None => Some (h, o)
      | Some raw =>
          '(c, e) ← asmtest_ibs_decode_op (Some raw) true;
          if decide (c = IBS_OK) then
            Some (eh_add grant h (mk_es (from e) (to e) (mispred e) (is_return e)),
                  mk_sv (edges o) (samples o) (branch_samples o +64 1) (lost o) (throttled o))
          else Some (h, o)
      end
    else Some (h, o)
  else if ty =? PERF_RECORD_LOST then
    k ← lost_of rec;
    Some (h, mk_sv (edges o) (samples o) (branch_samples o) (lost o +64 k) (throttled o))
  else if ty =? PERF_RECORD_THROTTLE then
    Some (h, mk_sv (edges o) (samples o) (branch_samples o) (lost o) true)
  else Some (h, o).
Definition ibs_throttle (st : edge_hash * survey) : edge_hash * survey :=
  (st.1, mk_sv (edges st.2) (samples st.2) (branch_samples st.2) (lost st.2) true).

Definition ibs_drain (grant : allocator) (has_callchain : bool) (filter_pid : Z) (r : ring)
    (st : edge_hash * survey) : option ((edge_hash * survey) * ring) :=
  drain (ibs_step grant has_callchain filter_pid) ibs_throttle (ibs_max_record has_callchain) r st.

(** [Some] with the array on 0, [None] on -1; [armed] is the injected failure. *)
Definition eh_export (grant : allocator) (armed : bool) (qsort : list ibs_edge → list ibs_edge)
    (h : edge_hash) : option (list ibs_edge) :=
  if n h =? 0 then Some []
  else if armed then None
  else if grant (n h *64 sizeof_edge) then Some (qsort (eh_edge <$> tlive h))
  else None.

(** ** Leaders *)
Record ibs_block := mk_blk { start : Z; entries : Z }.
Definition sizeof_block : Z := 16.
Definition ibs_blk_cmp_asc (x y : ibs_block) : Z :=
  if negb (start x =? start y) then (if start x <? start y then -1 else 1) else 0.

(** The filter loop: the block of one edge, when its target is in the region. *)
Definition edge_block (base len : Z) (e : ibs_edge) : option ibs_block :=
  if negb (len =? 0) && ((to e <? base) || (len <=? to e -64 base)) then None
  else Some (mk_blk (if negb (len =? 0) then to e -64 base else to e) (count e)).

(** The merge loop; [acc] is [arr[0..w)], last entry first. *)
Definition merge_step (acc : list ibs_block) (b : ibs_block) : list ibs_block :=
  match acc with
  | p :: acc' => if start p =? start b then mk_blk (start p) (entries p +64 entries b) :: acc' else b :: acc
  | [] => [b]
  end.

(** [survey] is [None] for a null pointer. *)
Definition asmtest_ibs_normalize_blocks (grant : allocator) (qsort : list ibs_block → list ibs_block)
    (sv : option survey) (base len : Z) : rc * list ibs_block :=
  match sv with
  | None => (IBS_EINVAL, [])
  | Some sv =>
      if (length (edges sv) =? 0)%nat then (IBS_OK, [])
      else if grant (Z.of_nat (length (edges sv)) * sizeof_block) then
        let arr := omap (edge_block base len) (edges sv) in
        if (length arr =? 0)%nat then (IBS_OK, [])
        else (IBS_OK, rev (foldl merge_step [] (qsort arr)))
      else (IBS_EUNAVAIL, [])
  end.

(** ** No read outside the bytes at hand *)
(** Sequencing after a step that succeeded. *)
Ltac bnd := cbn [mbind option_bind].
(** One checked read of a goal about [is_Some]. *)
Ltac read_in :=
  match goal with |- context [ld ?n ?b ?o ≫= _] => rewrite (ld_in n b o) by lia; cbn [mbind option_bind] end.

Lemma decode_op_total raw : ∃ c e, asmtest_ibs_decode_op (Some raw) true = Some (c, e).
Proof.
  unfold asmtest_ibs_decode_op. destruct (Z.ltb_spec (Z.of_nat (length raw)) IBS_RAW_MIN_BYTES); [eauto|].
  unfold IBS_RAW_MIN_BYTES, IBS_REG_BRTGT, IBS_RAW_REG_OFF, ld_u32, ld_u64 in *.
  read_in. case_match; [eauto|]. unfold IBS_REG_RIP, IBS_REG_DATA, IBS_REG_BRTGT.
  do 3 read_in. case_match; eauto.
Qed.

Lemma decode_fetch_total raw : ∃ c e, asmtest_ibs_decode_fetch (Some raw) true = Some (c, e).
Proof.
  unfold asmtest_ibs_decode_fetch. destruct (Z.ltb_spec (Z.of_nat (length raw)) IBS_FETCH_RAW_MIN_BYTES); [eauto|].
  unfold IBS_FETCH_RAW_MIN_BYTES, IBS_FETCH_REG_LINAD, IBS_FETCH_REG_CTL, IBS_RAW_REG_OFF, ld_u64 in *.
  do 2 read_in. eauto.
Qed.

Lemma sample_raw_total rec cc : Forall is_byte rec → ∃ pid raw, ibs_sample_raw rec cc = Some (pid, raw).
Proof.
  intros Hb. unfold ibs_sample_raw. cbv zeta. unfold ld_u32, ld_u64.
  destruct (Z.ltb_spec (Z.of_nat (length rec)) (8 + 8 + 8)); [eauto|]. read_in.
  assert (∀ pid p, 0 <= p → ∃ (a : Z) (raw : option (list Z)),
    (if Z.of_nat (length rec) <? p + 4 then Some (pid, None)
     else ld 4 rec p ≫= λ rawsz, if Z.of_nat (length rec) - (p + 4) <? rawsz then Some (pid, None)
          else sub_bytes rec (p + 4) rawsz ≫= λ raw, Some (pid, Some raw)) = Some (a, raw)) as Hraw.
  { intros pid p Hp. destruct (Z.ltb_spec (Z.of_nat (length rec)) (p + 4)); [eauto|].
    destruct (ld 4 rec p) as [rawsz|] eqn:E; [|by rewrite ld_in in E by lia]. bnd.
    pose proof (ld_range _ _ _ _ Hb E).
    destruct (Z.ltb_spec (Z.of_nat (length rec) - (p + 4)) rawsz); [eauto|].
    destruct (sub_bytes_in rec (p + 4) rawsz) as (bs & -> & _); [lia..|]. bnd. eauto. }
  destruct cc; [|by apply Hraw].
  destruct (Z.ltb_spec (Z.of_nat (length rec)) (8 + 16 + 8)); [eauto|].
  destruct (ld 8 rec (8 + 16)) as [nr|] eqn:E; [|by rewrite ld_in in E by lia]. bnd.
  pose proof (ld_range _ _ _ _ Hb E). case_match; [eauto|]. apply Hraw. lia.
Qed.

Lemma lost_of_total rec : is_Some (lost_of rec).
Proof. unfold lost_of. case_match eqn:E; [|done]. apply Z.leb_le in E. unfold ld_u64. by rewrite ld_in by lia. Qed.

Lemma ibs_step_total grant cc fp st ty rec : Forall is_byte rec → is_Some (ibs_step grant cc fp st ty rec).
Proof.
  intros Hb. unfold ibs_step. destruct st as [h o]. case_match.
  - destruct (sample_raw_total rec cc Hb) as (pid & raw & ->). bnd. case_match; [|done].
    destruct raw as [raw|]; [|done]. destruct (decode_op_total raw) as (c & e & ->). bnd. by case_decide.
  - case_match; [|by case_match]. destruct (lost_of_total rec) as [k ->]. bnd. done.
Qed.

Section walk.
Context {St : Type} (step : St → Z → list Z → option St).

Lemma walk_total fuel buf off st :
  (∀ st ty rec, Forall is_byte rec → is_Some (step st ty rec)) →
  Forall is_byte buf → 0 <= off <= Z.of_nat (length buf) → Z.of_nat (length buf) - off < Z.of_nat fuel →
  is_Some (walk step fuel buf off st).
Proof.
  intros Hstep Hb. revert off st. induction fuel as [|fuel IH]; intros off st Hoff Hf; [lia|]. cbn [walk].
  destruct (Z.leb_spec (off + 8) (Z.of_nat (length buf))); [|done]. unfold ld_u32, ld_u16.
  read_in. destruct (ld 2 buf (off + 6)) as [size|] eqn:E; [|by rewrite ld_in in E by lia]. bnd.
  pose proof (ld_range _ _ _ _ Hb E). destruct (Z.eqb_spec size 0); [done|].
  destruct (Z.ltb_spec (Z.of_nat (length buf)) (off + size)); [done|]. simpl.
  destruct (sub_bytes_in buf off size) as (rec & -> & _ & Hrec); [lia..|]. bnd.
  destruct (Hstep st (field buf (Z.to_nat off) 4) rec (Hrec Hb)) as [st' ->]. bnd. apply IH; lia.
Qed.

(** The linearization copies [span] bytes out of the ring. *)
Lemma mapM_bytes (l : list Z) (ix : nat → nat) (ks : list nat) :
  Forall is_byte l → (∀ i, (ix i < length l)%nat) →
  ∃ bs, mapM (λ i, l !! ix i) ks = Some bs ∧ length bs = length ks ∧ Forall is_byte bs.
Proof.
  intros Hb Hix. induction ks as [|i ks (bs & E & Hl & Hbs)]; [by exists []|].
  destruct (lookup_lt_is_Some_2 l (ix i) (Hix i)) as [b Eb]. exists (b :: bs). simpl.
  rewrite Eb. simpl. rewrite E. simpl. split_and!; [done|by f_equal|]. constructor; [|done].
  by eapply Forall_lookup_1 in Eb.
Qed.

Lemma drain_total throttle mr r st :
  (∀ st ty rec, Forall is_byte rec → is_Some (step st ty rec)) →
  Forall is_byte (data r) → (0 < length (data r))%nat →
  is_Some (drain step throttle mr r st).
Proof.
  intros Hstep Hb Hd. unfold drain. case_match; [done|].
  destruct (mapM_bytes (data r) (λ i, Z.to_nat ((tail r +64 Z.of_nat i) mod Z.of_nat (length (data r))))
    (seq 0 (Z.to_nat (if Z.of_nat (length (data r)) <? head r -64 tail r
       then Z.of_nat (length (data r)) else head r -64 tail r)))) as (bs & -> & _ & Hbs); [done| |].
  { intros i. pose proof (Z.mod_pos_bound (tail r +64 Z.of_nat i) (Z.of_nat (length (data r)))). lia. }
  cbn [mbind option_bind].
  destruct (walk_total (S (length bs)) bs 0 (if Z.of_nat (length (data r)) <?
      (if Z.of_nat (length (data r)) <? head r -64 tail r then Z.of_nat (length (data r)) else head r -64 tail r)
        +64 mr then throttle st else st) Hstep Hbs) as [st' ->]; [lia..|]. done.
Qed.
End walk.

(** C32: whatever bytes the ring holds, a drain terminates without reading outside
    the record, the payload or the ring it works on. *)
Theorem ibs_drain_in_bounds grant cc filter_pid r st
    (Hbytes : Forall is_byte (data r)) (Hdata : (0 < length (data r))%nat) :
  is_Some (ibs_drain grant cc filter_pid r st).
Proof. apply drain_total; [|done..]. intros. by apply ibs_step_total. Qed.

(** A ring of noise, wrapped, with a clamped span. *)
Lemma ibs_drain_in_bounds_witness :
  is_Some (ibs_drain always true 7 (mk_ring (replicate 5 255 ++ [9; 0; 0; 0; 0; 0; 8; 0; 1; 2; 3]) 100 5)
             (mk_table [] 0 0, survey0)).
Proof.
  apply ibs_drain_in_bounds.
  - apply (bool_decide_unpack _). vm_compute. exact I.
  - simpl. lia.
Defined.

(** ** Leaders are exact *)
(** The entries of the blocks that start at [x], summed. *)
Definition sum_at (x : Z) (l : list ibs_block) : Z := foldr (λ b a, (if start b =? x then entries b else 0) + a) 0 l.

Lemma sum_at_app x l l' : sum_at x (l ++ l') = sum_at x l + sum_at x l'.
Proof. unfold sum_at. induction l as [|b l IH]; simpl in *; [done|]. rewrite IH. lia. Qed.
Lemma sum_at_one x b : sum_at x [b] = if start b =? x then entries b else 0.
Proof. unfold sum_at. simpl. lia. Qed.
Lemma sum_at_none x l : (∀ b, b ∈ l → start b ≠ x) → sum_at x l = 0.
Proof.
  induction l as [|b l IH]; intros Hn; [done|]. unfold sum_at in *. simpl. rewrite IH by set_solver.
  destruct (Z.eqb_spec (start b) x); [|done]. destruct (Hn b); [left|done].
Qed.
Lemma sum_at_perm x l l' : l ≡ₚ l' → sum_at x l = sum_at x l'.
Proof. intros Hp. unfold sum_at. apply foldr_permutation; [apply _..|by intros; lia|done]. Qed.

(** What the merge has made of the sorted prefix [l]. *)
Record merged (l acc : list ibs_block) : Prop := {
  mg_desc : StronglySorted (λ a b, start b < start a) acc;
  mg_in : ∀ b, b ∈ acc ↔ (∃ x, x ∈ l ∧ start x = start b) ∧ entries b = u64 (sum_at (start b) l);
}.

Lemma merge_merged l b acc :
  merged l acc → (∀ x, x ∈ l → start x <= start b) → is_u64 (entries b) → merged (l ++ [b]) (merge_step acc b).
Proof.
  intros [Hd Hin] Hle Hb. unfold merge_step.
  assert (∀ x, x ∈ l → ∃ c, c ∈ acc ∧ start c = start x) as Hrep.
  { intros x Hx. exists (mk_blk (start x) (u64 (sum_at (start x) l))). split; [|done]. apply Hin. eauto. }
  destruct acc as [|p acc'].
  { assert (l = []) as -> by (destruct l as [|x l]; [done|]; destruct (Hrep x) as (c & []%elem_of_nil & _); left).
    cbn [app]. split; [repeat constructor|]. intros c. rewrite sum_at_one, list_elem_of_singleton. split.
    - intros ->. rewrite Z.eqb_refl, u64_small by done. split; [exists b|]; set_solver.
    - intros [(x & ->%list_elem_of_singleton & E) Hc]. rewrite E, Z.eqb_refl, u64_small in Hc by done. by destruct b, c; simpl in *; subst. }
  apply StronglySorted_inv in Hd as [Hd Hp]. rewrite Forall_forall in Hp.
  assert (start p <= start b) as Hpb.
  { destruct (proj1 (Hin p)) as [(x & Hx & <-) _]; [left|by apply Hle]. }
  destruct (Z.eqb_spec (start p) (start b)) as [E|E].
  - split; [constructor; [done|by apply Forall_forall]|]. intros c. rewrite sum_at_app, sum_at_one, elem_of_cons. split.
    + intros [->|Hc]; simpl.
      * split; [exists b; split; [set_solver|done]|]. rewrite <-E, Z.eqb_refl. destruct (proj1 (Hin p)) as [_ ->]; [left|]. apply u64_add_l.
      * destruct (proj1 (Hin c)) as [(x & ? & ?) Hc2]; [by right|]. split; [exists x; set_solver|].
        specialize (Hp c Hc). simpl in Hp. destruct (Z.eqb_spec (start b) (start c)); [lia|]. by rewrite Z.add_0_r.
    + intros [(x & [Hx| ->%list_elem_of_singleton]%elem_of_app & Ex) Hc].
      * destruct (Z.eqb_spec (start b) (start c)) as [Ec|Ec].
        -- left. destruct c as [cs ce]; simpl in *. f_equal; [lia|]. rewrite Hc. destruct (proj1 (Hin p)) as [_ ->]; [left|].
           by rewrite E, Ec, u64_add_l.
        -- rewrite Z.add_0_r in Hc. assert (c ∈ p :: acc') as [->|?]%elem_of_cons by (apply Hin; eauto); [lia|by right].
      * left. destruct c as [cs ce]; simpl in *. subst cs. rewrite Z.eqb_refl in Hc. f_equal; [done|]. rewrite Hc.
        destruct (proj1 (Hin p)) as [_ ->]; [left|]. by rewrite E, u64_add_l.
  - assert (∀ c, c ∈ p :: acc' → start c < start b) as Hlt.
    { intros c [->|Hc]%elem_of_cons; [lia|]. specialize (Hp c Hc). simpl in Hp. lia. }
    assert (∀ x, x ∈ l → start x ≠ start b) as Hne.
    { intros x Hx. destruct (Hrep x Hx) as (c & Hc & <-). specialize (Hlt c Hc). lia. }
    split; [constructor; [by constructor; [|apply Forall_forall]|by apply Forall_forall]|].
    intros c. rewrite sum_at_app, sum_at_one, elem_of_cons. split.
    + intros [->|Hc].
      * rewrite Z.eqb_refl, (sum_at_none _ l Hne), u64_small by done. split; [exists b; set_solver|done].
      * destruct (proj1 (Hin c) Hc) as [(x & ? & ?) Hc2]. split; [exists x; set_solver|].
        specialize (Hlt c Hc). destruct (Z.eqb_spec (start b) (start c)); [lia|]. by rewrite Z.add_0_r.
    + intros [(x & [Hx| ->%list_elem_of_singleton]%elem_of_app & Ex) Hc].
      * right. apply Hin. destruct (Z.eqb_spec (start b) (start c)) as [Ec|]; [destruct (Hne x Hx); congruence|].
        rewrite Z.add_0_r in Hc. eauto.
      * left. destruct c as [cs ce]; simpl in *. subst cs. rewrite Z.eqb_refl, (sum_at_none (start b) l Hne), u64_small in Hc by done.
        rewrite Hc. by destruct b.
Qed.

Lemma blk_cmp_le x y : ibs_blk_cmp_asc x y <= 0 ↔ start x <= start y.
Proof.
  unfold ibs_blk_cmp_asc. destruct (Z.eqb_spec (start x) (start y)), (Z.ltb_spec (start x) (start y)); simpl; lia.
Qed.

Lemma merge_all l :
  StronglySorted (λ x y, start x <= start y) l → Forall (λ b, is_u64 (entries b)) l → merged l (foldl merge_step [] l).
Proof.
  induction l as [|b l IH] using rev_ind; intros Hs Hu.
  { split; [constructor|]. intros b. split; [by intros ?%elem_of_nil|]. by intros [(x & ?%elem_of_nil & _) _]. }
  rewrite foldl_app. simpl. apply Forall_app in Hu as [Hu Hb]. apply Forall_cons in Hb as [Hb _].
  apply merge_merged; [apply IH; [by eapply StronglySorted_app_1_l|done]| |done].
  intros x Hxl. exact (StronglySorted_app_1_elem_of _ l [b] x b Hs Hxl ltac:(left)).
Qed.

(** The leaders of a survey are exactly the in-region branch targets, as
    region offsets (or every target, absolute, when no region is given), each once
    in ascending order, with the counts of the edges that entered it added up; the
    only failure is the allocator's. *)
Theorem normalize_blocks_exact grant qsort sv base len
    (Hq : QSort ibs_blk_cmp_asc qsort) (Hbase : is_u64 base)
    (Hedges : Forall (λ e, is_u64 (to e) ∧ is_u64 (count e)) (edges sv)) :
  let '(c, bs) := asmtest_ibs_normalize_blocks grant qsort (Some sv) base len in
  let off e := if len =? 0 then to e else to e - base in
  let inside e := len = 0 ∨ base <= to e < base + len in
  (c = IBS_OK ∨ c = IBS_EUNAVAIL ∧ bs = [] ∧ ∃ b, grant b = false) ∧
  (c = IBS_OK →
   StronglySorted Z.lt (start <$> bs) ∧
   ∀ x, x ∈ start <$> bs ↔ ∃ e, e ∈ edges sv ∧ inside e ∧ off e = x) ∧
  (∀ b, b ∈ bs → entries b = u64 (sum_at (start b) (omap (edge_block base len) (edges sv)))).
Proof.
  cbv zeta. unfold asmtest_ibs_normalize_blocks.
  assert (∀ e, e ∈ edges sv → edge_block base len e =
    if decide (len = 0 ∨ base <= to e < base + len) then Some (mk_blk (if len =? 0 then to e else to e - base) (count e)) else None) as Hblk.
  { intros e He. rewrite Forall_forall in Hedges. destruct (Hedges e He) as [Ht _]. unfold edge_block, is_u64 in *.
    destruct (Z.eqb_spec len 0) as [->|H0]; cbn [negb andb]; [by rewrite decide_True by auto|].
    destruct (Z.ltb_spec (to e) base) as [Hlt|Hge]; cbn [orb]; [rewrite decide_False; [done|lia]|].
    rewrite u64_small by lia. destruct (Z.leb_spec len (to e - base)); case_decide; done || lia. }
  set (arr := omap (edge_block base len) (edges sv)).
  assert (∀ b, b ∈ arr ↔ ∃ e, e ∈ edges sv ∧ (len = 0 ∨ base <= to e < base + len) ∧
            b = mk_blk (if len =? 0 then to e else to e - base) (count e)) as Harr.
  { intros b. unfold arr. rewrite list_elem_of_omap. split.
    - intros (e & He & Hb). rewrite Hblk in Hb by done. case_decide; [|done]. exists e. split_and!; congruence || done.
    - intros (e & He & Hi & ->). exists e. split; [done|]. rewrite Hblk by done. by rewrite decide_True. }
  destruct (Nat.eqb_spec (length (edges sv)) 0) as [El|_].
  { apply length_zero_iff_nil in El. rewrite El. split_and!; [by left|intros _; split; [constructor|]|by intros b ?%elem_of_nil].
    intros x. split; [by intros ?%elem_of_nil|by intros (e & ?%elem_of_nil & _)]. }
  destruct (grant _) eqn:Hg; cycle 1.
  { split_and!; [right; eauto|done|by intros b ?%elem_of_nil]. }
  fold arr. destruct (Nat.eqb_spec (length arr) 0) as [El|_].
  { apply length_zero_iff_nil in El. split_and!; [by left|intros _; split; [constructor|]|by intros b ?%elem_of_nil].
    intros x. split; [by intros ?%elem_of_nil|]. intros (e & He & Hi & <-).
    assert (mk_blk (if len =? 0 then to e else to e - base) (count e) ∈ arr) as Hin by (apply Harr; eauto).
    rewrite El in Hin. by apply elem_of_nil in Hin. }
  destruct (merge_all (qsort arr)) as [Hd Hin].
  { apply Sorted_StronglySorted; [intros x y z ??; lia|]. eapply Sorted_weaken; [|apply qsort_sorted].
    intros x y. by rewrite blk_cmp_le. }
  { rewrite qsort_perm. apply Forall_forall. intros b (e & He & _ & ->)%Harr. simpl. rewrite Forall_forall in Hedges.
    by apply Hedges. }
  assert (∀ b, b ∈ rev (foldl merge_step [] (qsort arr)) ↔
    (∃ x, x ∈ arr ∧ start x = start b) ∧ entries b = u64 (sum_at (start b) arr)) as Hout.
  { intros b. rewrite list_elem_of_In, <-in_rev, <-list_elem_of_In, Hin.
    rewrite (sum_at_perm _ (qsort arr) arr) by apply qsort_perm.
    assert (∀ x, x ∈ qsort arr ↔ x ∈ arr) as Hq' by (intros x; by rewrite qsort_perm). by setoid_rewrite Hq'. }
  split_and!; [by left| |by intros b [_ ?]%Hout]. intros _. split.
  - clear -Hd. induction Hd as [|b l Hl IH Hb]; [constructor|]. simpl. rewrite fmap_app. simpl. apply StronglySorted_app.
    + intros x y (c & -> & Hc)%list_elem_of_fmap ->%list_elem_of_singleton. rewrite Forall_forall in Hb. apply Hb.
      by apply list_elem_of_In, in_rev, list_elem_of_In.
    + repeat constructor.
    + done.
  - intros x. rewrite list_elem_of_fmap. split.
    + intros (b & -> & ((y & (e & He & Hi & ->)%Harr & Hy) & _)%Hout). exists e. by split_and!.
    + intros (e & He & Hi & <-). set (x := if len =? 0 then to e else to e - base).
      exists (mk_blk x (u64 (sum_at x arr))). split; [done|]. apply Hout. split; [|reflexivity].
      exists (mk_blk x (count e)). split; [apply Harr; eauto|done].
Qed.

Lemma normalize_blocks_exact_witness :
  let sv := mk_sv [mk_edge 1 0x1010 2 1 0 0; mk_edge 2 0x1000 3 1 0 0; mk_edge 3 0x1010 4 1 0 0; mk_edge 4 0x9000 9 1 0 0] 0 0 0 false in
  asmtest_ibs_normalize_blocks always (msort ibs_blk_cmp_asc) (Some sv) 0x1000 64 = (IBS_OK, [mk_blk 0 3; mk_blk 16 6]) ∧
  StronglySorted Z.lt [0; 16].
Proof.
  intros sv. split; [vm_compute; reflexivity|].
  assert (QSort ibs_blk_cmp_asc (msort ibs_blk_cmp_asc)) as Hq.
  { apply msort_QSort. intros x y. unfold cmp_le. rewrite !blk_cmp_le. lia. }
  pose proof (normalize_blocks_exact always (msort ibs_blk_cmp_asc) sv 0x1000 64 Hq ltac:(unfold is_u64; lia)
    ltac:(repeat constructor; simpl; lia)) as (_ & H & _).
  exact (proj1 (H eq_refl)).
Defined.
End Ibs.
