(* ===== verification/IbsSurvey.v ===== *)
(** The surveys of [src/ibs_backend.c]: sampling configuration, opening one
    channel per thread or CPU, draining them for the length of the window,
    picking up the threads that appear half way, and exporting the histogram; for
    the IBS-Op, software-clock and IBS-Fetch lanes. *)
From S2P Require Import Prelude Bytes Grow OpenHash Histogram Ibs.
Import Histogram Ibs.

Module IbsSurvey.

(** ** Sampling configuration *)
Record opts := mk_opts { sample_period : Z; flags : Z; struct_size : Z; period_jitter : Z }.
Definition OPT_COUNT_CYCLES : Z := 1.
Definition OPT_CALLCHAIN : Z := 2.
Definition OPT_SYSTEM_WIDE : Z := 4.
Definition OPT_NO_JITTER : Z := 8.
Definition IBS_DEFAULT_PERIOD : Z := 0x4000.
Definition IBS_JITTER_FRAC : Z := 8.
(** [offsetof(asmtest_ibs_opts_t, period_jitter)] and the field's size. *)
Definition offsetof_period_jitter : Z := 16.

(** [x & ~0xF] on 64 bits. *)
Definition round16 (x : Z) : Z := Z.land x (2 ^ 64 - 16).

Definition ibs_period (o : option opts) : Z :=
  let period := match o with
                | Some o => if negb (sample_period o =? 0) then sample_period o else IBS_DEFAULT_PERIOD
                | None => IBS_DEFAULT_PERIOD
                end in
  let period := round16 period in
  if period <? 16 then IBS_DEFAULT_PERIOD else period.

Definition has_flag (o : option opts) (f : Z) : bool :=
  negb (Z.land (match o with Some o => flags o | None => 0 end) f =? 0).

Definition ibs_jitter_frac (o : option opts) : Z :=
  if has_flag o OPT_NO_JITTER then 0
  else match o with
       | Some o =>
           if (offsetof_period_jitter + 4 <=? struct_size o) && negb (period_jitter o =? 0)
           then period_jitter o else IBS_JITTER_FRAC
       | None => IBS_JITTER_FRAC
       end.

Record cfg := mk_cfg {
  period : Z; jitter_frac : Z; cnt_dispatched : bool; callchain : bool; system_wide : bool;
}.
Definition ibs_cfg_from_opts (has_opcnt : bool) (o : option opts) : cfg :=
  mk_cfg (ibs_period o) (ibs_jitter_frac o)
    (if has_flag o OPT_COUNT_CYCLES then false else has_opcnt)
    (has_flag o OPT_CALLCHAIN) (has_flag o OPT_SYSTEM_WIDE).

(** [ibs_rand]: the generator's state is also its value; [clock] is what
    [clock_gettime] gives when the state is still 0. *)
Definition xs64 (s : Z) : Z :=
  let s := Z.lxor s (u64 (Z.shiftl s 13)) in
  let s := Z.lxor s (Z.shiftr s 7) in
  Z.lxor s (u64 (Z.shiftl s 17)).
Definition ibs_rand (clock : Z * Z) (s : Z) : Z :=
  let s :=
    if s =? 0 then
      let s := Z.lxor (Z.lxor (u64 clock.2) (u64 (Z.shiftl (u64 clock.1) 32))) 0x9E3779B97F4A7C15 in
      if s =? 0 then 0x9E3779B97F4A7C15 else s
    else s in
  xs64 s.

(** [(int64_t)x] of a 64-bit value. *)
Definition int64 (x : Z) : Z := (x + 2 ^ 63) mod 2 ^ 64 - 2 ^ 63.

(** [rnd] is the value [ibs_rand] returns.  [None] where the signed addition
    overflows. *)
Definition ibs_jitter_period (base frac rnd : Z) : option Z :=
  if frac =? 0 then Some base
  else
    let amp := base / frac in
    if amp =? 0 then Some base
    else
      let off := int64 (rnd mod u64 (2 * amp + 1)) - int64 amp in
      let p := int64 base + off in
      if (p <? - 2 ^ 63) || (2 ^ 63 <=? p) then None
      else
        let p := if p <? 16 then 16 else p in
        let period := round16 p in
        Some (if period <? 16 then 16 else period).

(** ** The process-wide variables of the file *)
Record globals := mk_g { open_errno : Z; sw_open_errno : Z; export_fail_armed : bool }.
Definition set_open_errno (e : Z) (g : globals) : globals := mk_g e (sw_open_errno g) (export_fail_armed g).
Definition set_sw_open_errno (e : Z) (g : globals) : globals := mk_g (open_errno g) e (export_fail_armed g).
Definition asmtest_ibs_test_set_export_fail (armed : bool) (g : globals) : globals :=
  mk_g (open_errno g) (sw_open_errno g) armed.

(** ** The world the surveys run in *)
(** [perf_event_open], [mmap] and the enabling [ioctl] of one channel. *)
Inductive opened := open_failed (errno : Z) | map_failed | open_ok.

(** What the host answers: the probes, the task lists ([tids false] at the start,
    [tids true] at the rescan; [None] when the directory cannot be read), the
    opens by thread and CPU, the page size, the time elapsed after each round of drains, and what
    round [r] finds mapped for channel [i]: the data pages and [data_head]. *)
Record world := mk_world {
  available : bool; pmu_type : Z; has_opcnt : bool; getpid : Z; ncpu : Z; page_size : Z;
  tids : bool → option (list Z);
  chan_open : Z → Z → opened;
  now : nat → Z;
  view : nat → nat → list Z * Z;
}.
Definition IBS_MAX_CHANS : nat := 512.

(** [dsz]: the data area of a channel, and the scratch buffer. *)
Definition IBS_RING_DATA_PAGES : Z := 64.
Definition ring_bytes (w : world) : Z := page_size w * IBS_RING_DATA_PAGES.

Section lane.
(** What differs between the lanes: the record step, how the survey is flagged
    throttled, the headroom, and which variable keeps a refused open's errno. *)
Context (w : world) {St : Type} (step : St → Z → list Z → option St) (throttle : St → St)
  (max_record : Z) (note : Z → globals → globals) (ms : Z).

(** A channel: its thread and the mapping, whose tail the drains own. *)
Abbreviation chan := (Z * ring)%type.
Definition see (r i : nat) (rg : ring) : ring := mk_ring (view w r i).1 (view w r i).2 (tail rg).

(** [ibs_chan_open] and [sw_chan_open], appending on success. *)
Definition attach (tid cpu : Z) (cs : list chan) (g : globals) : list chan * globals :=
  match chan_open w tid cpu with
  | open_ok => (cs ++ [(tid, mk_ring [] 0 0)], g)
  | open_failed errno => (cs, note errno g)
  | map_failed => (cs, g)
  end.

(** The per-CPU loop of the system-wide mode. *)
Definition attach_cpus : nat → list chan → globals → list chan * globals :=
  λ ncpu cs g,
    foldl (λ st c, if (length st.1 <? IBS_MAX_CHANS)%nat then attach (-1) (Z.of_nat c) st.1 st.2 else st)
      (cs, g) (seq 0 ncpu).

(** The per-thread loop over the first listing, and the rescan's: only threads
    that have no channel, while there is room. *)
Definition attach_tids (ts : list Z) (cs : list chan) (g : globals) : list chan * globals :=
  foldl (λ st t, attach t (-1) st.1 st.2) (cs, g) ts.
Definition attach_new (ts : list Z) (cs : list chan) (g : globals) : list chan * globals :=
  foldl (λ st t,
    if (length st.1 <? IBS_MAX_CHANS)%nat && negb (existsb (λ c, c.1 =? t) st.1)
    then attach t (-1) st.1 st.2 else st) (cs, g) ts.

(** [ibs_list_tids] fills at most [IBS_MAX_CHANS] entries. *)
Definition list_tids (again : bool) : option (list Z) := take IBS_MAX_CHANS <$> tids w again.

(** [ibs_drain_all] of round [r]; [i] is the channel's index. *)
Fixpoint drain_all (r i : nat) (cs : list chan) (st : St) : option (list chan * St) :=
  match cs with
  | [] => Some ([], st)
  | (tid, rg) :: cs =>
      '(st, rg) ← drain step throttle max_record (see r i rg) st;
      '(cs, st) ← drain_all r (S i) cs st;
      Some ((tid, rg) :: cs, st)
  end.

(** The timed loop and the drain after it; [None] when the window is not over in
    [fuel] rounds. *)
Fixpoint collect (fuel r : nat) (rescanned : bool) (cs : list chan) (st : St) (g : globals) :
    option (list chan * St * globals) :=
  match fuel with
  | O => None
  | S fuel =>
      '(cs, st) ← drain_all r 0 cs st;
      let el := now w r in
      let due := negb rescanned && (ms / 2 <=? el) in
      let '(cs, g) :=
        if due && (length cs <? IBS_MAX_CHANS)%nat
        then attach_new (default [] (list_tids true)) cs g else (cs, g) in
      if ms <=? el then
        '(cs, st) ← drain_all (S r) 0 cs st;
        Some (cs, st, g)
      else collect fuel (S r) (rescanned || due) cs st g
  end.
End lane.

(** ** The IBS-Op surveys *)
Definition INIT_PID : Z := 1024.
Definition INIT_PROCESS : Z := 2048.
Section surveys.
Context (w : world) (grant : allocator) (fuel : nat).
Context (qsort : list ibs_edge → list ibs_edge).

(** The last lines of the surveys. *)
Definition finish (g : globals) (h : edge_hash) (o : survey) : rc * survey :=
  match eh_export grant (export_fail_armed g) qsort h with
  | Some es => (IBS_OK, mk_sv es (samples o) (branch_samples o) (lost o) (throttled o))
  | None => (IBS_EUNAVAIL, o)
  end.

(** One thread: the loop of [collect] with one channel and no rescan. *)
Definition asmtest_ibs_survey_pid (tid ms : Z) (o : option opts) (g : globals) :
    option (globals * (rc * survey)) :=
  let g := set_open_errno 0 g in
  if negb (available w) || (pmu_type w <? 0) then Some (g, (IBS_EUNAVAIL, survey0))
  else
    let c := ibs_cfg_from_opts (has_opcnt w) o in
    match attach w set_open_errno tid (-1) [] g with
    | ([], g) => Some (g, (IBS_EUNAVAIL, survey0))
    | (cs, g) =>
        match (if grant (ring_bytes w) then eh_init grant INIT_PID else None) with
        | None => Some (g, (IBS_EUNAVAIL, survey0))
        | Some h =>
            '(_, (h, out), g) ← collect w (ibs_step grant (callchain c) 0) ibs_throttle
              (ibs_max_record (callchain c)) set_open_errno ms fuel 0 true cs (h, survey0) g;
            Some (g, finish g h out)
        end
    end.

Definition asmtest_ibs_survey_process (pid ms : Z) (o : option opts) (g : globals) :
    option (globals * (rc * survey)) :=
  let g := set_open_errno 0 g in
  if negb (available w) || (pmu_type w <? 0) then Some (g, (IBS_EUNAVAIL, survey0))
  else
    let pid := if pid =? 0 then getpid w else pid in
    let c := ibs_cfg_from_opts (has_opcnt w) o in
    match (if grant (Z.of_nat IBS_MAX_CHANS * 32) && grant (ring_bytes w) then eh_init grant INIT_PROCESS else None) with
    | None => Some (g, (IBS_EUNAVAIL, survey0))
    | Some h =>
        let '(cs, g) :=
          if system_wide c then attach_cpus w set_open_errno (Z.to_nat (Z.max 1 (ncpu w))) [] g
          else attach_tids w set_open_errno (default [] (list_tids w false)) [] g in
        let filter_pid := if system_wide c then pid else 0 in
        match cs with
        | [] => Some (g, (IBS_EUNAVAIL, survey0))
        | _ =>
            '(_, (h, out), g) ← collect w (ibs_step grant (callchain c) filter_pid) ibs_throttle
              (ibs_max_record (callchain c)) set_open_errno ms fuel 0 (system_wide c) cs (h, survey0) g;
            Some (g, finish g h out)
        end
    end.

(** The window of [asmtest_ibs_window_begin] and [_end]: one channel on the calling
    thread, never with callchains, drained once when the caller is done (round 0). *)
Definition asmtest_ibs_window (g : globals) : option (globals * (rc * survey)) :=
  let g := set_open_errno 0 g in
  if negb (available w) || (pmu_type w <? 0) then Some (g, (IBS_EUNAVAIL, survey0))
  else
    match attach w set_open_errno 0 (-1) [] g with
    | ([], g) => Some (g, (IBS_EUNAVAIL, survey0))
    | (cs, g) =>
        match (if grant (ring_bytes w) then eh_init grant INIT_PID else None) with
        | None => Some (g, (IBS_EUNAVAIL, survey0))
        | Some h =>
            '(_, (h, out)) ← drain_all w (ibs_step grant false 0) ibs_throttle (ibs_max_record false) 0 0 cs (h, survey0);
            Some (g, finish g h out)
        end
    end.
End surveys.

(** ** The software-clock lane *)
Record sw_ip := mk_ip { ip : Z; ip_count : Z }.
Record sw_survey := mk_sw { ips : list sw_ip; sw_samples : Z; sw_lost : Z; sw_throttled : bool }.
Definition sw0 : sw_survey := mk_sw [] 0 0 false.
Definition sw_cmp_desc (x y : sw_ip) : Z :=
  if negb (ip_count x =? ip_count y) then (if ip_count x <? ip_count y then 1 else -1)
  else if ip x <? ip y then -1 else if ip y <? ip x then 1 else 0.

Definition sw_step (grant : allocator) (st : edge_hash * sw_survey) (ty : Z) (rec : list Z) :
    option (edge_hash * sw_survey) :=
  let '(h, o) := st in
  if ty =? PERF_RECORD_SAMPLE then
    if 8 + 8 + 8 <=? Z.of_nat (length rec) then
      a ← ld_u64 rec 8;
      Some (eh_add grant h (mk_es a 0 0 0), mk_sw (ips o) (sw_samples o +64 1) (sw_lost o) (sw_throttled o))
    else Some (h, o)
  else if ty =? PERF_RECORD_LOST then
    k ← lost_of rec; Some (h, mk_sw (ips o) (sw_samples o) (sw_lost o +64 k) (sw_throttled o))
  else if ty =? PERF_RECORD_THROTTLE then Some (h, mk_sw (ips o) (sw_samples o) (sw_lost o) true)
  else Some (h, o).
Definition sw_throttle (st : edge_hash * sw_survey) : edge_hash * sw_survey :=
  (st.1, mk_sw (ips st.2) (sw_samples st.2) (sw_lost st.2) true).
Definition sw_drain (grant : allocator) (r : ring) (st : edge_hash * sw_survey) :=
  drain (sw_step grant) sw_throttle IBS_MAX_RECORD r st.

Definition sw_export (grant : allocator) (qsort : list sw_ip → list sw_ip) (h : edge_hash) : option (list sw_ip) :=
  if n h =? 0 then Some []
  else if grant (n h *64 16) then Some (qsort ((λ s, mk_ip (eh_from s) (eh_count s)) <$> tlive h))
  else None.

Definition ESRCH : Z := 3.
Definition asmtest_swclock_survey_process (w : world) (grant : allocator) (fuel : nat)
    (qsort : list sw_ip → list sw_ip) (ms : Z) (g : globals) : option (globals * (rc * sw_survey)) :=
  let g := set_open_errno 0 g in
  let ms := if ms =? 0 then 300 else ms in
  match (if grant (Z.of_nat IBS_MAX_CHANS * 32) && grant (ring_bytes w) then eh_init grant INIT_PROCESS else None) with
  | None => Some (g, (IBS_EUNAVAIL, sw0))
  | Some h =>
      match list_tids w false with
      | None | Some [] => Some (set_sw_open_errno ESRCH g, (IBS_EUNAVAIL, sw0))
      | Some ts =>
          let '(cs, g) := attach_tids w set_sw_open_errno ts [] g in
          match cs with
          | [] => Some (g, (IBS_EUNAVAIL, sw0))
          | _ =>
              '(_, (h, out), g) ← collect w (sw_step grant) sw_throttle IBS_MAX_RECORD set_sw_open_errno
                ms fuel 0 false cs (h, sw0) g;
              Some (g, match sw_export grant qsort h with
                       | Some l => (IBS_OK, mk_sw l (sw_samples out) (sw_lost out) (sw_throttled out))
                       | None => (IBS_EUNAVAIL, out)
                       end)
          end
      end
  end.

(** ** The IBS-Fetch lane *)
Record fetch_survey := mk_fsv {
  hot : list fetch_hot; f_samples : Z; f_valid : Z; f_icache : Z; f_itlb : Z; f_lost : Z; f_throttled : bool;
}.
Definition fsv0 : fetch_survey := mk_fsv [] 0 0 0 0 0 false.

Definition fetch_step (grant : allocator) (st : fetch_hash * fetch_survey) (ty : Z) (rec : list Z) :
    option (fetch_hash * fetch_survey) :=
  let '(h, o) := st in
  let size := Z.of_nat (length rec) in
  if ty =? PERF_RECORD_SAMPLE then
    let o := mk_fsv (hot o) (f_samples o +64 1) (f_valid o) (f_icache o) (f_itlb o) (f_lost o) (f_throttled o) in
    if 8 + 8 + 8 + 4 <=? size then
      rawsz ← ld_u32 rec (8 + 8 + 8);
      if 28 + rawsz <=? size then
        raw ← sub_bytes rec 28 rawsz;
        '(c, fs) ← asmtest_ibs_decode_fetch (Some raw) true;
        if decide (c = IBS_OK) then
          Some (fh_add grant h fs,
                mk_fsv (hot o) (f_samples o) (f_valid o +64 1) (f_icache o +64 icache_miss fs)
                  (f_itlb o +64 itlb_miss fs) (f_lost o) (f_throttled o))
        else Some (h, o)
      else Some (h, o)
    else Some (h, o)
  else if ty =? PERF_RECORD_LOST then
    k ← lost_of rec;
    Some (h, mk_fsv (hot o) (f_samples o) (f_valid o) (f_icache o) (f_itlb o) (f_lost o +64 k) (f_throttled o))
  else if ty =? PERF_RECORD_THROTTLE then
    Some (h, mk_fsv (hot o) (f_samples o) (f_valid o) (f_icache o) (f_itlb o) (f_lost o) true)
  else Some (h, o).
Definition fetch_throttle (st : fetch_hash * fetch_survey) : fetch_hash * fetch_survey :=
  let o := st.2 in
  (st.1, mk_fsv (hot o) (f_samples o) (f_valid o) (f_icache o) (f_itlb o) (f_lost o) true).
Definition ibs_fetch_drain (grant : allocator) (r : ring) (st : fetch_hash * fetch_survey) :=
  drain (fetch_step grant) fetch_throttle IBS_MAX_RECORD r st.

Definition fh_export (grant : allocator) (armed : bool) (qsort : list fetch_hot → list fetch_hot)
    (h : fetch_hash) : option (list fetch_hot) :=
  if n h =? 0 then Some []
  else if armed then None
  else if grant (n h *64 sizeof_hot) then Some (qsort (fh_hot <$> tlive h))
  else None.

Definition asmtest_ibs_survey_fetch_pid (w : world) (grant : allocator) (fuel : nat)
    (qsort : list fetch_hot → list fetch_hot) (tid ms : Z) (g : globals) : option (globals * (rc * fetch_survey)) :=
  let g := set_open_errno 0 g in
  if negb (available w) || (pmu_type w <? 0) then Some (g, (IBS_EUNAVAIL, fsv0))
  else
    match attach w set_open_errno tid (-1) [] g with
    | ([], g) => Some (g, (IBS_EUNAVAIL, fsv0))
    | (cs, g) =>
        match (if grant (ring_bytes w) then fh_init grant INIT_PID else None) with
        | None => Some (g, (IBS_EUNAVAIL, fsv0))
        | Some h =>
            '(_, (h, out), g) ← collect w (fetch_step grant) fetch_throttle IBS_MAX_RECORD set_open_errno
              ms fuel 0 true cs (h, fsv0) g;
            Some (g, match fh_export grant (export_fail_armed g) qsort h with
                     | Some l => (IBS_OK, mk_fsv l (f_samples out) (f_valid out) (f_icache out) (f_itlb out)
                                            (f_lost out) (f_throttled out))
                     | None => (IBS_EUNAVAIL, out)
                     end)
        end
    end.

(** ** Reasons *)
Definition EPERM : Z := 1.
Definition ENOENT : Z := 2.
Definition EACCES : Z := 13.
Definition EINVAL : Z := 22.
Definition ENFILE : Z := 23.
Definition EMFILE : Z := 24.
Definition ENOSPC : Z := 28.
(** [reason] is what the probe recorded when the substrate is absent. *)
Definition asmtest_ibs_unavail_reason (w : world) (reason : string) (g : globals) : string :=
  if negb (available w) then reason
  else let e := open_errno g in
    if e =? 0 then ""%string
    else if (e =? EACCES) || (e =? EPERM) then
      "perf_event_open refused (EACCES): IBS is present but perf is locked down — needs perf_event_paranoid<=2 or CAP_PERFMON (in Docker: --cap-add=PERFMON --security-opt seccomp=unconfined)"%string
    else if e =? EINVAL then "perf_event_open rejected the IBS attr (EINVAL)"%string
    else if (e =? EMFILE) || (e =? ENFILE) then "perf_event_open hit the open-file limit (EMFILE)"%string
    else if e =? ENOENT then "perf_event_open: no such PMU (ENOENT)"%string
    else if e =? ESRCH then "perf_event_open: target thread exited (ESRCH)"%string
    else if e =? ENOSPC then "perf_event_open: no free PMU counter (ENOSPC)"%string
    else "perf_event_open failed"%string.

(** ** What the kernel writes *)
(** A record: its type, the [misc] word and the body. *)
Record framed := mk_framed { f_ty : Z; f_misc : Z; f_body : list Z }.
Definition frame (f : framed) : list Z :=
  to_le 4 (f_ty f) ++ to_le 2 (f_misc f) ++ to_le 2 (8 + Z.of_nat (length (f_body f))) ++ f_body f.
Definition frame_ok (f : framed) : Prop := is_u32 (f_ty f) ∧ 8 + Z.of_nat (length (f_body f)) < 2 ^ 16.

Lemma length_frame f : length (frame f) = (8 + length (f_body f))%nat.
Proof. unfold frame. rewrite !length_app, !length_to_le. lia. Qed.

(** The header fields of a record that starts at [length pre]. *)
Lemma frame_ty pre f post : frame_ok f → ld_u32 (pre ++ frame f ++ post) (Z.of_nat (length pre)) = Some (f_ty f).
Proof.
  intros [Ht _]. unfold frame. rewrite <-!(assoc_L app). unfold ld_u32. rewrite ld_spec by done.
  f_equal. apply Z.mod_small. exact Ht.
Qed.
Lemma frame_size pre f post :
  frame_ok f → ld_u16 (pre ++ frame f ++ post) (Z.of_nat (length pre) + 6) = Some (Z.of_nat (length (frame f))).
Proof.
  intros [_ Hs]. unfold frame at 1.
  replace (pre ++ (to_le 4 (f_ty f) ++ to_le 2 (f_misc f) ++ to_le 2 (8 + Z.of_nat (length (f_body f))) ++ f_body f) ++ post)
    with ((pre ++ to_le 4 (f_ty f) ++ to_le 2 (f_misc f)) ++ to_le 2 (8 + Z.of_nat (length (f_body f))) ++ (f_body f ++ post))
    by (by rewrite <-!(assoc_L app)).
  unfold ld_u16. rewrite ld_spec by (rewrite !length_app, !length_to_le; lia).
  rewrite length_frame, Z.mod_small by lia. f_equal. lia.
Qed.

Section streams.
Context {St Ev : Type} (step : St → Z → list Z → option St) (throttle : St → St) (max_record : Z).
(** The records of a lane, and how one of them moves the state the drains keep. *)
Context (enc : Ev → framed) (ok : Ev → Prop) (act : St → Ev → St).
Hypothesis enc_ok : ∀ e, ok e → frame_ok (enc e).
Hypothesis step_act : ∀ st e, ok e → step st (f_ty (enc e)) (frame (enc e)) = Some (act st e).

Definition bytes (es : list Ev) : list Z := concat ((λ e, frame (enc e)) <$> es).

Lemma bytes_cons e es : bytes (e :: es) = frame (enc e) ++ bytes es.
Proof. done. Qed.
Lemma bytes_app es es' : bytes (es ++ es') = bytes es ++ bytes es'.
Proof. unfold bytes. by rewrite fmap_app, concat_app. Qed.

Lemma walk_records es pre fuel st :
  Forall ok es → (length (bytes es) < fuel)%nat →
  walk step fuel (pre ++ bytes es) (Z.of_nat (length pre)) st = Some (foldl act st es).
Proof.
  intros Hes. revert pre fuel st. induction Hes as [|e es He _ IH]; intros pre fuel st Hf.
  { destruct fuel; [lia|]. cbn [walk]. rewrite app_nil_r. destruct (Z.leb_spec (Z.of_nat (length pre) + 8) (Z.of_nat (length pre))); [lia|done]. }
  destruct fuel as [|fuel]; [lia|]. rewrite bytes_cons, length_app in *. cbn [walk].
  pose proof (enc_ok e He) as Hok. pose proof (length_frame (enc e)) as Hl.
  destruct (Z.leb_spec (Z.of_nat (length pre) + 8) (Z.of_nat (length (pre ++ frame (enc e) ++ bytes es)))) as [_|Hb];
    [|rewrite !length_app in Hb; lia].
  rewrite frame_ty, frame_size by done. cbn [mbind option_bind].
  destruct (Z.eqb_spec (Z.of_nat (length (frame (enc e)))) 0); [lia|].
  destruct (Z.ltb_spec (Z.of_nat (length (pre ++ frame (enc e) ++ bytes es))) (Z.of_nat (length pre) + Z.of_nat (length (frame (enc e)))));
    [rewrite !length_app in *; lia|]. simpl orb. cbv iota.
  rewrite sub_bytes_spec by done. cbn [mbind option_bind]. rewrite step_act by done. cbn [mbind option_bind foldl].
  rewrite (assoc_L (++)). rewrite <-Nat2Z.inj_add, <-length_app. apply IH. lia.
Qed.

(** [data] shows bytes [lo, hi) of the stream [W], each at its position modulo the
    ring's size. *)
Definition shows (W d : list Z) (lo hi : nat) : Prop :=
  (lo <= hi <= length W)%nat ∧ (hi - lo <= length d)%nat ∧ (0 < length d)%nat ∧ Z.of_nat hi < 2 ^ 64 ∧
  ∀ j, (lo <= j < hi)%nat → d !! (j mod length d)%nat = W !! j.

Lemma linearize W d lo hi :
  shows W d lo hi →
  mapM (λ i : nat, d !! Z.to_nat ((Z.of_nat lo +64 Z.of_nat i) mod Z.of_nat (length d))) (seq 0 (hi - lo))
  = Some (take (hi - lo) (drop lo W)).
Proof.
  intros (Hlo & Hsp & Hd & H64 & Hsh). apply mapM_Some_2.
  apply Forall2_same_length_lookup_2; [rewrite length_seq, length_take, length_drop; lia|].
  intros i k x [-> Hi]%lookup_seq Hx. simpl.
  rewrite lookup_take_lt in Hx by lia. rewrite lookup_drop in Hx. rewrite <-Hx.
  rewrite u64_small by lia. rewrite <-Nat2Z.inj_add, <-Nat2Z.inj_mod, Nat2Z.id. apply Hsh. lia.
Qed.

(** Where [m] records end. *)
Definition pos (es : list Ev) (m : nat) : nat := length (bytes (take m es)).

Lemma slice_bytes es m m' :
  (m <= m')%nat → take (pos es m' - pos es m) (drop (pos es m) (bytes es)) = bytes (drop m (take m' es)).
Proof.
  intros Hm. unfold pos.
  assert (take m' es = take m es ++ drop m (take m' es)) as E.
  { rewrite <-(take_drop m (take m' es)) at 1. by rewrite take_take, Nat.min_l. }
  set (A := take m es) in *. set (B := drop m (take m' es)) in *.
  assert (bytes es = bytes A ++ bytes B ++ bytes (drop m' es)) as ->.
  { rewrite <-(take_drop m' es) at 1. by rewrite E, !bytes_app, <-(assoc_L (++)). }
  rewrite E, bytes_app, length_app, drop_app_length, Nat.add_comm, Nat.add_sub.
  by rewrite take_app_length.
Qed.

Lemma pos_mono es m m' : (m <= m')%nat → (pos es m <= pos es m')%nat.
Proof.
  intros Hm. unfold pos. replace m with (m `min` m')%nat by lia. rewrite <-take_take.
  rewrite <-(take_drop m (take m' es)) at 2. rewrite bytes_app, length_app. lia.
Qed.
Lemma pos_le es m : (pos es m <= length (bytes es))%nat.
Proof. unfold pos. rewrite <-(take_drop m es) at 2. rewrite bytes_app, length_app. lia. Qed.

(** ** Facts the lane keeps about the records consumed *)
Context (told : list Ev → St → Prop).
Hypothesis told_act : ∀ es st e, told es st → ok e → told (es ++ [e]) (act st e).
Hypothesis told_throttle : ∀ es st, told es st → told es (throttle st).

Lemma told_foldl es' es st : Forall ok es' → told es st → told (es ++ es') (foldl act st es').
Proof.
  intros Hok. revert es st. induction Hok as [|e es' He _ IH]; intros es st Ht; simpl; [by rewrite app_nil_r|].
  rewrite (cons_middle e es es'), (assoc_L (++)). by apply IH, told_act.
Qed.

(** One drain consumes exactly the records between the two positions. *)
Lemma drain_records es d m m' seen st :
  Forall ok es → (m <= m')%nat → shows (bytes es) d (pos es m) (pos es m') → told seen st →
  ∃ st', drain step throttle max_record (mk_ring d (Z.of_nat (pos es m')) (Z.of_nat (pos es m))) st
         = Some (st', mk_ring d (Z.of_nat (pos es m')) (Z.of_nat (pos es m'))) ∧
         told (seen ++ drop m (take m' es)) st'.
Proof.
  intros Hok Hm Hsh Ht. pose proof Hsh as (Hlo & Hsp & Hd & H64 & _).
  assert (Forall ok (drop m (take m' es))) as Hok' by (by apply Forall_drop, Forall_take).
  pose proof (slice_bytes es m m' Hm) as Es.
  unfold drain. cbn [data head tail]. cbv zeta. rewrite <-Nat2Z.inj_sub by lia. rewrite u64_small by lia.
  destruct (Z.eqb_spec (Z.of_nat (pos es m' - pos es m)) 0) as [E0|E0].
  { exists st. assert (pos es m' = pos es m) as -> by lia. split; [done|].
    replace (pos es m' - pos es m)%nat with 0%nat in Es by lia. simpl in Es.
    destruct (drop m (take m' es)) as [|e l]; [by rewrite app_nil_r|].
    rewrite bytes_cons in Es. pose proof (length_frame (enc e)).
    apply (f_equal length) in Es. rewrite length_app in Es. simpl in Es. lia. }
  destruct (Z.ltb_spec (Z.of_nat (length d)) (Z.of_nat (pos es m' - pos es m))); [lia|].
  rewrite Nat2Z.id, (linearize _ _ _ _ Hsh), Es. cbn [mbind option_bind].
  match goal with |- context [walk step ?f ?b 0 ?s] =>
    assert (walk step f b 0 s = Some (foldl act s (drop m (take m' es)))) as ->
      by (apply (walk_records _ [] _ _ Hok'); lia)
  end. cbn [mbind option_bind].
  eexists. split; [f_equal; f_equal; f_equal|].
  - rewrite u64_small by lia. lia.
  - apply told_foldl; [done|]. case_match; auto.
Qed.

(** ** A window over several channels *)
Context (w : world) (note : Z → globals → globals) (ms : Z).
(** What the kernel writes to channel [i], and how many of its records are
    published when round [r] looks. *)
Context (recs : nat → list Ev) (m : nat → nat → nat).
Definition before (r i : nat) : nat := match r with O => O | S r => m r i end.

(** The kernel never laps the reader and shows what it wrote. *)
Definition kernel_ok : Prop := ∀ r i,
  Forall ok (recs i) ∧ (before r i <= m r i)%nat ∧
  (view w r i).2 = Z.of_nat (pos (recs i) (m r i)) ∧
  shows (bytes (recs i)) (view w r i).1 (pos (recs i) (before r i)) (pos (recs i) (m r i)).
Hypothesis Hkernel : kernel_ok.

(** Every channel was read up to the end of the previous round. *)
Definition at_round (r k : nat) (cs : list (Z * ring)) : Prop :=
  ∀ i c, cs !! i = Some c → tail c.2 = Z.of_nat (pos (recs (k + i)) (before r (k + i))).
(** The records of channels [k .. k+n) that were read by then. *)
Definition read_by (r k n : nat) : list Ev :=
  concat ((λ i, take (before r i) (recs i)) <$> seq k n).

Lemma read_by_S r k n : read_by r k (S n) = take (before r k) (recs k) ++ read_by r (S k) n.
Proof. done. Qed.
Lemma read_by_snoc r n : read_by r 0 (S n) = read_by r 0 n ++ take (before r n) (recs n).
Proof. unfold read_by. rewrite seq_S, fmap_app, concat_app. simpl. by rewrite app_nil_r. Qed.

(** One round reads, on every channel, what was published since the last. *)
Lemma drain_all_spec r cs : ∀ k seen st,
  at_round r k cs → told seen st →
  ∃ cs' st' new, drain_all w step throttle max_record r k cs st = Some (cs', st') ∧
    cs'.*1 = cs.*1 ∧ at_round (S r) k cs' ∧ told (seen ++ new) st' ∧
    read_by (S r) k (length cs) ≡ₚ read_by r k (length cs) ++ new.
Proof.
  induction cs as [|[tid rg] cs IH]; intros k seen st Hat Ht; cbn [drain_all length].
  { exists [], st, []. split_and!; [done..| |by rewrite app_nil_r|done]. intros i c. by rewrite lookup_nil. }
  destruct (Hkernel r k) as (Hok & Hm & Hhead & Hsh).
  pose proof (Hat O _ eq_refl) as Htail. simpl in Htail. rewrite Nat.add_0_r in Htail.
  destruct (drain_records (recs k) (view w r k).1 (before r k) (m r k) seen st Hok Hm Hsh Ht) as (st1 & E & Ht1).
  unfold see. rewrite Htail, Hhead, E. cbn [mbind option_bind].
  destruct (IH (S k) _ st1 ltac:(intros i c Hi; pose proof (Hat (S i) c Hi) as Hc; rewrite Nat.add_succ_r in Hc; exact Hc) Ht1)
    as (cs' & st' & new & -> & Etid & Hat' & Ht' & Hp). cbn [mbind option_bind].
  eexists _, _, (drop (before r k) (take (m r k) (recs k)) ++ new). split_and!; [done| | | |].
  - by rewrite !fmap_cons, Etid.
  - intros [|i] c; simpl; [intros [= <-]; by rewrite Nat.add_0_r|]. rewrite Nat.add_succ_r. apply Hat'.
  - by rewrite (assoc_L (++)).
  - rewrite !read_by_S, Hp. cbn [before].
    assert (take (m r k) (recs k) = take (before r k) (recs k) ++ drop (before r k) (take (m r k) (recs k))) as E1.
    { rewrite <-(take_drop (before r k) (take (m r k) (recs k))) at 1. by rewrite take_take, Nat.min_l. }
    rewrite E1 at 1. rewrite <-!(assoc_L (++)). apply Permutation_app_head. apply Permutation_app_swap_app.
Qed.

(** Channels opened later start at the beginning of their stream. *)
Lemma attach_inv tid cpu cs g r :
  at_round r 0 cs → (∀ i, (length cs <= i)%nat → before r i = O) →
  let cs' := (attach w note tid cpu cs g).1 in
  (length cs <= length cs')%nat ∧ at_round r 0 cs' ∧ read_by r 0 (length cs') = read_by r 0 (length cs) ∧
  ∃ ts, cs'.*1 = cs.*1 ++ ts.
Proof.
  intros Hat H0. unfold attach. destruct (chan_open w tid cpu); simpl;
    try (split_and!; [done..|exists []; by rewrite app_nil_r]).
  rewrite length_app. simpl. split_and!; [lia| | |exists [tid]; by rewrite fmap_app].
  - intros i c [Hi|[Hi Hc]]%lookup_app_Some; [by apply Hat|].
    destruct (i - length cs)%nat eqn:Ei; [|done]. injection Hc as <-. simpl. rewrite H0 by lia. done.
  - rewrite Nat.add_1_r, read_by_snoc, H0 by lia. by rewrite app_nil_r.
Qed.

Lemma attach_new_inv ts cs g r :
  at_round r 0 cs → (∀ i, (length cs <= i)%nat → before r i = O) →
  let cs' := (attach_new w note ts cs g).1 in
  (length cs <= length cs')%nat ∧ at_round r 0 cs' ∧ read_by r 0 (length cs') = read_by r 0 (length cs).
Proof.
  unfold attach_new. revert cs g. induction ts as [|t ts IH]; intros cs g Hat H0; simpl; [done|].
  case_match; [|by apply IH]. destruct (attach_inv t (-1) cs g r Hat H0) as (Hl & Hat' & Hr & _).
  destruct (attach w note t (-1) cs g) as [cs1 g1]. simpl in *.
  destruct (IH cs1 g1 Hat') as (? & ? & E); [intros i Hi; apply H0; lia|]. split_and!; [lia|done|]. by rewrite E.
Qed.
(** The channels of a rescan depend on the threads of the channels only. *)
Lemma attach_new_tids ts cs cs1 g :
  cs.*1 = cs1.*1 → (attach_new w note ts cs g).1.*1 = (attach_new w note ts cs1 g).1.*1 ∧
  (attach_new w note ts cs g).2 = (attach_new w note ts cs1 g).2.
Proof.
  unfold attach_new. revert cs cs1 g. induction ts as [|t ts IH]; intros cs cs1 g E; simpl; [done|].
  assert (length cs = length cs1) as El by (by rewrite <-(length_fmap fst cs), E, length_fmap).
  assert (existsb (λ c : Z * ring, c.1 =? t) cs = existsb (λ c : Z * ring, c.1 =? t) cs1) as Ex.
  { clear -E. revert cs1 E. induction cs as [|c cs IH]; intros [|c1 cs1] E; simplify_eq/=; [done|]. by erewrite H, IH. }
  rewrite El, Ex. case_match; [|by apply IH].
  unfold attach. destruct (chan_open w t (-1)); simpl; try (by apply IH). apply IH. by rewrite !fmap_app, E.
Qed.

(** The channels of the whole window: those of the start and, unless the survey is
    system-wide, those of the rescan. *)
Definition all_chans (rescanned : bool) (cs : list (Z * ring)) (g : globals) : list (Z * ring) :=
  if rescanned then cs else (attach_new w note (default [] (list_tids w true)) cs g).1.

(** The round the window ends at. *)
Definition ends_at (last : nat) : Prop := ms <= now w last ∧ ∀ r, (r < last)%nat → now w r < ms.

(** The rest of a window reads what is left of every channel's stream.  [last] is
    the round the window ends at; a channel opened by the rescan had published
    nothing in the rounds before it. *)
Lemma survey_collect_spec last : ends_at last → 0 <= ms →
  ∀ fuel r rescanned cs seen st g,
  (r <= last)%nat → (last < fuel + r)%nat →
  at_round r 0 cs → told seen st → seen ≡ₚ read_by r 0 (length cs) →
  (rescanned = false → ∀ r' i, (r <= r')%nat → (length cs <= i)%nat →
    (∀ q, (r <= q < r')%nat → now w q < ms / 2) → m r' i = O) →
  ∃ cs' st' g' seen', collect w step throttle max_record note ms fuel r rescanned cs st g = Some (cs', st', g') ∧
    length cs' = length (all_chans rescanned cs g) ∧ told seen' st' ∧
    seen' ≡ₚ read_by (S (S last)) 0 (length cs').
Proof.
  intros [Hend Hbefore] Hms. induction fuel as [|fuel IH]; intros r rescanned cs seen st g Hr Hf Hat Ht Hseen Hnew; [lia|].
  cbn [collect]. destruct (drain_all_spec r cs 0 seen st Hat Ht) as (cs1 & st1 & new & -> & Etid & Hat1 & Ht1 & Hp).
  assert (length cs1 = length cs) as El by (by rewrite <-(length_fmap fst cs1), Etid, length_fmap).
  cbn [mbind option_bind]. cbv zeta.
  set (due := negb rescanned && (ms / 2 <=? now w r)).
  set (cg := if due && (length cs1 <? IBS_MAX_CHANS)%nat
             then attach_new w note (default [] (list_tids w true)) cs1 g else (cs1, g)).
  assert (at_round (S r) 0 cg.1 ∧ seen ++ new ≡ₚ read_by (S r) 0 (length cg.1) ∧
          (length cs <= length cg.1)%nat ∧
          length (all_chans (rescanned || due) cg.1 cg.2) = length (all_chans rescanned cs g)) as (Hat2 & Hs2 & Hl2 & Hall).
  { assert (seen ++ new ≡ₚ read_by (S r) 0 (length cs1)) as Hs1 by (rewrite El, Hp, Hseen; done).
    assert (length (attach_new w note (default [] (list_tids w true)) cs1 g).1 =
            length (attach_new w note (default [] (list_tids w true)) cs g).1) as Ean.
    { destruct (attach_new_tids (default [] (list_tids w true)) cs1 cs g Etid) as [E _].
      by rewrite <-(length_fmap fst), E, length_fmap. }
    unfold cg, all_chans. destruct due eqn:Edue; simpl.
    - unfold due in Edue. destruct rescanned; [done|]. simpl in Edue. apply Z.leb_le in Edue. simpl.
      destruct (Nat.ltb_spec (length cs1) IBS_MAX_CHANS) as [Hroom|Hfull]; simpl.
      + destruct (attach_new_inv (default [] (list_tids w true)) cs1 g (S r) Hat1) as (Hl & ? & Er).
        { intros i Hi. simpl. apply (Hnew eq_refl r i); [lia..|]. intros q Hq. lia. }
        destruct (attach_new w note _ cs1 g) as [cs2 g2]. simpl in *. split_and!; [done|by rewrite Er|lia|done].
      + split_and!; [done|done|lia|]. rewrite <-Ean. unfold attach_new.
        assert (∀ ts, (foldl (λ st t, if (length st.1 <? IBS_MAX_CHANS)%nat && negb (existsb (λ c, c.1 =? t) st.1)
          then attach w note t (-1) st.1 st.2 else st) (cs1, g) ts) = (cs1, g)) as ->; [|done].
        induction ts as [|t ts IHt]; [done|]. simpl. destruct (Nat.ltb_spec (length cs1) IBS_MAX_CHANS); [lia|done].
    - rewrite orb_false_r. split_and!; [done|done|lia|]. destruct rescanned; [done|]. exact Ean. }
  destruct cg as [cs2 g2]. simpl in Hat2, Hs2, Hl2, Hall. cbn [fst snd].
  destruct (Z.leb_spec ms (now w r)) as [Hdone|Hmore].
  - assert (r = last) as -> by (destruct (decide (r = last)); [done|]; specialize (Hbefore r ltac:(lia)); lia).
    destruct (drain_all_spec (S last) cs2 0 _ st1 Hat2 Ht1) as (cs3 & st3 & new3 & -> & Etid3 & _ & Ht3 & Hp3).
    cbn [mbind option_bind].
    assert (length cs3 = length cs2) as El3 by (by rewrite <-(length_fmap fst cs3), Etid3, length_fmap).
    eexists _, _, _, _. split_and!; [done| |done|].
    + rewrite <-Hall, El3. unfold all_chans, due. destruct rescanned; simpl; [done|].
      destruct (Z.leb_spec (ms / 2) (now w last)); [done|]. dlia.
    + rewrite El3, Hp3, Hs2. done.
  - assert (r ≠ last) by (intros ->; lia).
    destruct (IH (S r) (rescanned || due) cs2 _ st1 g2 ltac:(lia) ltac:(lia) Hat2 Ht1 Hs2)
      as (cs' & st' & g' & seen' & Hc & Hl & ? & ?).
    { intros [-> Hnd]%orb_false_elim r' i Hr' Hi Hq. apply (Hnew eq_refl r' i); [lia|lia|].
      intros q Hq'. destruct (decide (q = r)) as [->|]; [|apply Hq; lia].
      unfold due in Hnd. simpl in Hnd. by apply Z.leb_gt in Hnd. }
    eexists _, _, _, _. split_and!; [exact Hc| |done..]. by rewrite Hl.
Qed.
End streams.

(** ** The records of the IBS-Op lane *)
(** A sample carries the caller's stack when callchains are on, then the payload:
    the capability word and the IBS registers. *)
Inductive krec :=
| KSample (misc ip pid tid : Z) (chain : list Z) (caps : Z) (regs : list Z)
| KLost (misc id dropped : Z)
| KThrottle (misc : Z) (body : list Z)
| KOther (ty misc : Z) (body : list Z).

Definition words (l : list Z) : list Z := concat (to_le 8 <$> l).
Definition op_raw (caps : Z) (regs : list Z) : list Z := to_le 4 caps ++ words regs.
Definition chain_bytes (cc : bool) (chain : list Z) : list Z :=
  if cc then to_le 8 (Z.of_nat (length chain)) ++ words chain else [].
Definition enc_op (cc : bool) (k : krec) : framed :=
  match k with
  | KSample misc ip pid tid chain caps regs =>
      mk_framed PERF_RECORD_SAMPLE misc
        (to_le 8 ip ++ to_le 4 pid ++ to_le 4 tid ++ chain_bytes cc chain ++
         to_le 4 (Z.of_nat (length (op_raw caps regs))) ++ op_raw caps regs)
  | KLost misc id d => mk_framed PERF_RECORD_LOST misc (to_le 8 id ++ to_le 8 d)
  | KThrottle misc body => mk_framed PERF_RECORD_THROTTLE misc body
  | KOther ty misc body => mk_framed ty misc body
  end.
Definition krec_ok (cc : bool) (k : krec) : Prop :=
  frame_ok (enc_op cc k) ∧
  match k with
  | KSample _ _ pid _ _ caps regs => is_u32 pid ∧ is_u32 caps ∧ Forall is_u64 regs
  | KLost _ _ d => is_u64 d
  | KThrottle _ _ => True
  | KOther ty _ _ => ty ∉ [PERF_RECORD_SAMPLE; PERF_RECORD_LOST; PERF_RECORD_THROTTLE]
  end.

(** The branch a sample stands for: a retired taken branch whose address is valid,
    on a part that records branch targets. *)
Definition branch_of (caps : Z) (regs : list Z) : option eh_sample :=
  match regs with
  | _ :: rip :: op :: _ :: _ :: _ :: _ :: tgt :: _ =>
      if Z.testbit caps 5 && Z.testbit op 37 && Z.testbit op 35 && negb (Z.testbit caps 7 && Z.testbit op 38)
      then Some (mk_es rip tgt (Z.b2z (Z.testbit op 36)) (Z.b2z (Z.testbit op 34))) else None
  | _ => None
  end.

Lemma length_words l : length (words l) = (8 * length l)%nat.
Proof. unfold words. induction l as [|x l IH]; [done|]. rewrite fmap_cons. cbn [concat]. rewrite length_app, length_to_le, IH. cbn [length]. lia. Qed.

Lemma ld_at n buf off x pre post :
  buf = pre ++ to_le n x ++ post → off = Z.of_nat (length pre) → 0 <= x < 256 ^ Z.of_nat n → ld n buf off = Some x.
Proof. intros -> -> Hx. rewrite ld_spec by done. by rewrite Z.mod_small. Qed.

(** Every list of the layouts is put in one association. *)
Ltac layout := repeat first [rewrite <-(assoc_L (++)) | rewrite app_nil_r]; reflexivity.
Ltac sizes := rewrite ?length_app, ?length_to_le, ?length_words; cbn [length]; lia.

Lemma reg_at caps regs k x :
  regs !! k = Some x → is_u64 x → ld_u64 (op_raw caps regs) (IBS_RAW_REG_OFF (Z.of_nat k)) = Some x.
Proof.
  intros Hk Hx. unfold ld_u64. eapply (ld_at 8 _ _ x (to_le 4 caps ++ words (take k regs)) (words (drop (S k) regs))).
  - unfold op_raw. rewrite <-(take_drop_middle regs k x Hk) at 1. unfold words.
    rewrite fmap_app, concat_app, fmap_cons. cbn [concat]. layout.
  - pose proof (lookup_lt_Some _ _ _ Hk). rewrite length_app, length_to_le, length_words, length_take_le by lia.
    unfold IBS_RAW_REG_OFF. lia.
  - exact Hx.
Qed.

Lemma caps_at caps regs : is_u32 caps → ld_u32 (op_raw caps regs) 0 = Some caps.
Proof. intros Hc. by eapply (ld_at 4 _ _ caps [] (words regs)). Qed.

Lemma bit_testbit v b : 0 <= b → bit v b = Z.b2z (Z.testbit v b).
Proof.
  intros. unfold bit. rewrite Z.testbit_odd.
  transitivity (Z.shiftr v b mod 2); [exact (Z.land_ones _ 1 ltac:(lia))|].
  rewrite Zmod_odd. by destruct (Z.odd _).
Qed.

Lemma land_bit v b : 0 <= b → (Z.land v (Z.shiftl 1 b) =? 0) = negb (Z.testbit v b).
Proof.
  intros Hb. rewrite Z.shiftl_1_l. destruct (Z.testbit v b) eqn:E; simpl.
  - apply Z.eqb_neq. intros H0. apply (f_equal (λ x, Z.testbit x b)) in H0.
    rewrite Z.land_spec, E, Z.pow2_bits_true, Z.bits_0 in H0 by done. done.
  - apply Z.eqb_eq. apply Z.bits_inj'. intros i Hi. rewrite Z.land_spec, Z.bits_0, Z.pow2_bits_eqb by done.
    destruct (Z.eqb_spec b i) as [->|]; [by rewrite E|by rewrite andb_false_r].
Qed.

Lemma decode_op_spec caps regs : is_u32 caps → Forall is_u64 regs →
  ∃ c e, asmtest_ibs_decode_op (Some (op_raw caps regs)) true = Some (c, e) ∧
    match branch_of caps regs with
    | Some x => c = IBS_OK ∧ x = mk_es (from e) (to e) (mispred e) (is_return e)
    | None => c ≠ IBS_OK
    end.
Proof.
  intros Hc Hr. unfold asmtest_ibs_decode_op.
  assert (Z.of_nat (length (op_raw caps regs)) = 4 + 8 * Z.of_nat (length regs)) as Hl by (unfold op_raw; sizes).
  rewrite Hl. unfold IBS_RAW_MIN_BYTES, IBS_REG_BRTGT.
  destruct (Z.ltb_spec (4 + 8 * Z.of_nat (length regs)) (4 + 8 * (7 + 1))) as [Hs|Hs].
  { eexists _, _. split; [done|]. do 8 (destruct regs as [|? regs]; [simpl; discriminate|]). cbn [length] in Hs. lia. }
  do 8 (destruct regs as [|? regs]; [cbn [length] in Hs; lia|]).
  repeat match goal with H : Forall _ (_ :: _) |- _ => apply Forall_cons in H as [? H] end.
  rewrite caps_at by done. bnd. rewrite land_bit by lia. unfold branch_of.
  destruct (Z.testbit caps 5); [|eexists _, _; by split]. cbn [negb andb].
  rewrite (reg_at caps _ 1 z0), (reg_at caps _ 2 z1), (reg_at caps _ 7 z6) by done. bnd. cbv zeta.
  rewrite land_bit by lia. unfold IBS_OPDATA_BRN_RET, IBS_OPDATA_BRN_TAKEN, IBS_OPDATA_RIP_INVALID,
    IBS_OPDATA_BRN_MISP, IBS_OPDATA_RETURN. rewrite !bit_testbit by lia.
  destruct (Z.testbit z1 37), (Z.testbit z1 35), (Z.testbit caps 7), (Z.testbit z1 38);
    eexists _, _; (split; [reflexivity|]); cbn [negb andb orb Z.b2z Z.eqb]; first [discriminate|split; reflexivity].
Qed.

Lemma sample_raw_spec cc misc ip pid tid chain caps regs :
  krec_ok cc (KSample misc ip pid tid chain caps regs) →
  ibs_sample_raw (frame (enc_op cc (KSample misc ip pid tid chain caps regs))) cc = Some (pid, Some (op_raw caps regs)).
Proof.
  intros [[_ Hsz] (Hp & Hc & Hr)]. set (k := KSample misc ip pid tid chain caps regs) in *.
  set (f := enc_op cc k) in *. set (raw := op_raw caps regs) in *.
  set (h := to_le 4 (f_ty f) ++ to_le 2 (f_misc f) ++ to_le 2 (8 + Z.of_nat (length (f_body f)))).
  assert (length h = 8%nat) as Hh by (unfold h; sizes).
  assert (frame f = h ++ to_le 8 ip ++ to_le 4 pid ++ to_le 4 tid ++ chain_bytes cc chain ++
            to_le 4 (Z.of_nat (length raw)) ++ raw) as Ef by (unfold frame, h; simpl; layout).
  assert (Z.of_nat (length (frame f)) = 28 + Z.of_nat (length (chain_bytes cc chain)) + Z.of_nat (length raw)) as Hl.
  { rewrite Ef, !length_app, Hh, !length_to_le. lia. }
  rewrite length_frame in Hl.
  assert (∀ p : Z, p = 24 + Z.of_nat (length (chain_bytes cc chain)) →
    (if Z.of_nat (length (frame f)) <? p + 4 then Some (pid, None)
     else ld_u32 (frame f) p ≫= λ rawsz, if Z.of_nat (length (frame f)) - (p + 4) <? rawsz then Some (pid, None)
          else sub_bytes (frame f) (p + 4) rawsz ≫= λ raw, Some (pid, Some raw)) = Some (pid, Some raw)) as Hraw.
  { intros p ->. rewrite length_frame.
    destruct (Z.ltb_spec (Z.of_nat (8 + length (f_body f))) (24 + Z.of_nat (length (chain_bytes cc chain)) + 4)); [lia|].
    unfold ld_u32. erewrite (ld_at 4 _ _ (Z.of_nat (length raw))
      (h ++ to_le 8 ip ++ to_le 4 pid ++ to_le 4 tid ++ chain_bytes cc chain) raw);
      [|rewrite Ef; layout|rewrite !length_app, Hh, !length_to_le; lia|lia]. bnd.
    destruct (Z.ltb_spec (Z.of_nat (8 + length (f_body f)) - (24 + Z.of_nat (length (chain_bytes cc chain)) + 4)) (Z.of_nat (length raw))); [lia|].
    replace (frame f) with ((h ++ to_le 8 ip ++ to_le 4 pid ++ to_le 4 tid ++ chain_bytes cc chain ++
      to_le 4 (Z.of_nat (length raw))) ++ raw ++ []) by (rewrite Ef; layout).
    by rewrite sub_bytes_spec by (rewrite ?length_app, ?Hh, ?length_to_le; lia). }
  unfold ibs_sample_raw. rewrite !length_frame in *. cbv zeta.
  destruct (Z.ltb_spec (Z.of_nat (8 + length (f_body f))) (8 + 8 + 8)); [lia|].
  unfold ld_u32 in *. erewrite (ld_at 4 _ (8 + 8) pid (h ++ to_le 8 ip) _);
    [|rewrite Ef, <-!(assoc_L (++)); reflexivity|rewrite !length_app, Hh, !length_to_le; lia|exact Hp]. bnd.
  destruct cc; [|apply Hraw; simpl; lia]. unfold chain_bytes in *.
  rewrite !length_app, length_to_le, length_words in *.
  destruct (Z.ltb_spec (Z.of_nat (8 + length (f_body f))) (8 + 16 + 8)); [lia|].
  unfold ld_u64. erewrite (ld_at 8 _ _ (Z.of_nat (length chain)) (h ++ to_le 8 ip ++ to_le 4 pid ++ to_le 4 tid) _);
    [|rewrite Ef, <-!(assoc_L (++)); reflexivity|rewrite !length_app, Hh, !length_to_le; lia|lia]. bnd.
  destruct (Z.ltb_spec ((Z.of_nat (8 + length (f_body f)) - (8 + 16 + 8)) / 8) (Z.of_nat (length chain))) as [Hbad|_]; [dlia|].
  apply Hraw. lia.
Qed.

(** ** What a survey of edges should report *)
Section report.
Context (fp : Z).
(** Whether the survey looks at a sample, and the branch it then counts. *)
Definition wanted (k : krec) : bool :=
  match k with KSample _ _ pid _ _ _ _ => (fp =? 0) || (to_pid pid =? fp) | _ => false end.
Definition taken_branch (k : krec) : option eh_sample :=
  match k with
  | KSample _ _ _ _ _ caps regs => if wanted k then branch_of caps regs else None
  | _ => None
  end.
Definition branches (ks : list krec) : list eh_sample := omap taken_branch ks.
Definition n_wanted (ks : list krec) : nat := length (filter (λ k, wanted k = true) ks).
Definition drops (k : krec) : Z := match k with KLost _ _ d => d | _ => 0 end.
Definition n_lost (ks : list krec) : Z := foldr (λ k a, drops k + a) 0 ks.
Definition is_throttle (k : krec) : bool := match k with KThrottle _ _ => true | _ => false end.

(** The step of [ibs_drain] on a well-formed record. *)
Definition act_op (st : edge_hash * survey) (k : krec) : edge_hash * survey :=
  let '(h, o) := st in
  match k with
  | KSample _ _ _ _ _ _ _ =>
      if wanted k then
        let o := mk_sv (edges o) (samples o +64 1) (branch_samples o) (lost o) (throttled o) in
        match taken_branch k with
        | Some x => (eh_add always h x, mk_sv (edges o) (samples o) (branch_samples o +64 1) (lost o) (throttled o))
        | None => (h, o)
        end
      else (h, o)
  | KLost _ _ d => (h, mk_sv (edges o) (samples o) (branch_samples o) (lost o +64 d) (throttled o))
  | KThrottle _ _ => (h, mk_sv (edges o) (samples o) (branch_samples o) (lost o) true)
  | KOther _ _ _ => (h, o)
  end.

Lemma ibs_step_act cc st k :
  krec_ok cc k → ibs_step always cc fp st (f_ty (enc_op cc k)) (frame (enc_op cc k)) = Some (act_op st k).
Proof.
  intros Hk. destruct st as [h o]. destruct k as [misc ip pid tid chain caps regs|misc id d|misc body|ty misc body].
  - unfold ibs_step. change (f_ty (enc_op cc (KSample misc ip pid tid chain caps regs))) with PERF_RECORD_SAMPLE.
    rewrite Z.eqb_refl. rewrite (sample_raw_spec cc misc ip pid tid chain caps regs Hk). bnd.
    unfold act_op, taken_branch, wanted. destruct ((fp =? 0) || (to_pid pid =? fp)); [|done]. cbv zeta.
    destruct Hk as [_ (_ & Hc & Hr)]. destruct (decode_op_spec caps regs Hc Hr) as (c & e & -> & Hb). bnd.
    destruct (branch_of caps regs) as [x|]; [destruct Hb as [-> ->]; by rewrite decide_True|by rewrite decide_False].
  - unfold ibs_step. cbn [enc_op f_ty]. change (PERF_RECORD_LOST =? PERF_RECORD_SAMPLE) with false. rewrite Z.eqb_refl. cbv iota.
    destruct Hk as [_ Hd]. unfold lost_of. rewrite length_frame. cbn [f_body]. rewrite length_app, !length_to_le.
    change (8 + 16 <=? Z.of_nat (8 + (8 + 8))) with true. cbv iota. unfold ld_u64.
    erewrite (ld_at 8 _ _ d (to_le 4 PERF_RECORD_LOST ++ to_le 2 misc ++
      to_le 2 (8 + Z.of_nat (length (to_le 8 id ++ to_le 8 d))) ++ to_le 8 id) []);
      [done|unfold frame; cbn [f_ty f_misc f_body]; layout|sizes|exact Hd].
  - done.
  - unfold ibs_step. cbn [enc_op f_ty]. destruct Hk as [_ Hty]. rewrite !not_elem_of_cons in Hty. destruct Hty as (H1 & H2 & H3 & _).
    rewrite (proj2 (Z.eqb_neq _ _) H1), (proj2 (Z.eqb_neq _ _) H2), (proj2 (Z.eqb_neq _ _) H3). done.
Qed.

(** What the state tells of the records consumed, for streams of less than
    2{^54} records. *)
Context (c0 : Z).
Record tells (ks : list krec) (st : edge_hash * survey) : Prop := {
  tl_wf : wf c0 st.1;
  tl_abs : tabs st.1 = tally (branches ks);
  tl_n : n st.1 <= Z.of_nat (length ks);
  tl_samples : samples st.2 = Z.of_nat (n_wanted ks);
  tl_branches : branch_samples st.2 = Z.of_nat (length (branches ks));
  tl_lost : lost st.2 = u64 (n_lost ks);
  tl_throttled : Exists (λ k, is_throttle k = true) ks → throttled st.2 = true;
}.
Definition told_op (ks : list krec) (st : edge_hash * survey) : Prop :=
  c0 < 2 ^ 56 → Z.of_nat (length ks) < 2 ^ 54 → tells ks st.

Lemma n_lost_snoc ks k : n_lost (ks ++ [k]) = n_lost ks + drops k.
Proof. unfold n_lost. induction ks as [|k' ks IH]; simpl in *; [lia|]. rewrite IH. lia. Qed.

(** A record that is not a counted sample leaves the histogram alone. *)
Lemma snoc_other ks k : wanted k = false → branches (ks ++ [k]) = branches ks ∧ n_wanted (ks ++ [k]) = n_wanted ks.
Proof.
  intros Hw. unfold branches, n_wanted. rewrite omap_app, filter_app, filter_cons, decide_False by congruence.
  rewrite filter_nil, app_nil_r. split; [|done]. simpl. destruct k; simpl; try by rewrite app_nil_r.
  unfold wanted in Hw. rewrite Hw. by rewrite app_nil_r.
Qed.

Lemma told_op_act cc ks st k : told_op ks st → krec_ok cc k → told_op (ks ++ [k]) (act_op st k).
Proof.
  intros Ht Hk Hc Hl. rewrite length_app in Hl. simpl in Hl. destruct (Ht Hc ltac:(lia)) as [Hwf Habs Hn Hs Hb Hlo Hth].
  destruct st as [h o]. simpl in *.
  assert (Exists (λ k, is_throttle k = true) (ks ++ [k]) → is_throttle k = false → throttled o = true) as Hth'.
  { intros [He|He]%Exists_app Hf; [by apply Hth|]. apply Exists_cons in He as [He|He]; [congruence|by apply Exists_nil in He]. }
  assert (length (branches ks) <= length ks)%nat as Hbl by (apply length_omap_le).
  assert (n_wanted ks <= length ks)%nat as Hwl by (apply length_filter_le).
  destruct (wanted k) eqn:Hw.
  - destruct k as [misc ip pid tid chain caps regs| | |]; try done. unfold act_op. rewrite ?Hw.
    assert (n_wanted (ks ++ [KSample misc ip pid tid chain caps regs]) = S (n_wanted ks)) as Enw.
    { unfold n_wanted. rewrite filter_app, length_app, filter_cons, decide_True by done. simpl. lia. }
    assert (branches (ks ++ [KSample misc ip pid tid chain caps regs]) = branches ks ++
      match taken_branch (KSample misc ip pid tid chain caps regs) with Some x => [x] | None => [] end) as Ebr.
    { unfold branches. by rewrite omap_app. }
    destruct (taken_branch _) as [x|] eqn:Ex; rewrite ?app_nil_r in Ebr.
    + destruct (tadd_spec c0 always h x Hwf) as (Hwf' & Hn' & Hab).
      assert (tabs (tadd always h x) = tally_add (tabs h) x) as Ha.
      { destruct Hab as [?|[_ [[b ?]|?]]]; [done..|]. pose proof (wf_small _ _ Hwf). lia. }
      split; simpl; rewrite ?Ebr, ?Enw, ?n_lost_snoc, ?length_app; simpl; [done| |unfold eh_add; lia|..].
      * unfold eh_add, tally. rewrite Ha, Habs, foldl_app. done.
      * rewrite Hs, u64_small by lia. lia.
      * rewrite Hb, u64_small by lia. lia.
      * by rewrite Z.add_0_r.
      * intros He. by apply Hth'.
    + split; simpl; rewrite ?Ebr, ?Enw, ?n_lost_snoc, ?length_app; simpl; [done|done|lia|..].
      * rewrite Hs, u64_small by lia. lia.
      * done.
      * by rewrite Z.add_0_r.
      * intros He. by apply Hth'.
  - destruct (snoc_other ks k Hw) as [Eb En].
    assert (∀ o', samples o' = samples o → branch_samples o' = branch_samples o → lost o' = u64 (n_lost ks + drops k) →
      (Exists (λ k, is_throttle k = true) (ks ++ [k]) → throttled o' = true) → tells (ks ++ [k]) (h, o')) as Hgo.
    { intros o' H1 H2 H3 H4. split; simpl; rewrite ?Eb, ?En, ?n_lost_snoc, ?length_app; simpl; congruence || lia || done. }
    destruct k as [misc ip pid tid chain caps regs|misc id d|misc body|ty misc body]; unfold act_op; rewrite ?Hw; apply Hgo; simpl; try done.
    all: rewrite ?Z.add_0_r; try done; try (intros He; by apply Hth').
    by rewrite Hlo, u64_add_l.
Qed.

Lemma told_op_throttle ks st : told_op ks st → told_op ks (ibs_throttle st).
Proof. intros Ht Hc Hl. destruct (Ht Hc Hl). by split. Qed.
End report.

(** The line a histogram should have for an edge. *)
Definition of_edge (k : Z * Z) (B : list eh_sample) : list eh_sample := filter (λ x, akey x = k) B.
Definition total (f : eh_sample → Z) (l : list eh_sample) : Z := foldr (λ x a, f x + a) 0 l.
Definition report (B : list eh_sample) (k : Z * Z) : ibs_edge :=
  mk_edge k.1 k.2 (Z.of_nat (length (of_edge k B))) 1 (u32 (total es_mispred (of_edge k B)))
    (u32 (total es_is_return (of_edge k B))).
(** One line per sampled edge, the most frequent first. *)
Definition histogram (B : list eh_sample) (es : list ibs_edge) : Prop :=
  Sorted (λ x y, eh_cmp_desc x y <= 0) es ∧ NoDup ((λ e, (from e, to e)) <$> es) ∧
  ∀ e, e ∈ es ↔ ∃ x, x ∈ B ∧ e = report B (akey x).

Lemma total_cons f x l : total f (x :: l) = f x + total f l.
Proof. done. Qed.

Lemma bump_fold rest f t c mi re :
  0 <= c → c + Z.of_nat (length rest) < 2 ^ 64 → is_u32 mi → is_u32 re →
  foldl bump (mk_eh f t c mi re true) rest =
  mk_eh f t (c + Z.of_nat (length rest)) (u32 (mi + total es_mispred rest)) (u32 (re + total es_is_return rest)) true.
Proof.
  revert c mi re. induction rest as [|x rest IH]; intros c mi re Hc Hl Hmi Hre; cbn [foldl length].
  { cbn [total foldr]. by rewrite !Z.add_0_r, !u32_small by done. }
  cbn [length] in Hl. cbn [bump eh_Slot]. unfold eh_bump. cbn [eh_from eh_to eh_count eh_mispred eh_is_return eh_used].
  change eh_bump with (bump (Slot := eh_Slot)). rewrite u64_small by lia.
  rewrite IH by (lia || apply u32_range). rewrite !u32_add_l, !total_cons. f_equal; [lia|f_equal; lia..].
Qed.

Definition es_ok (x : eh_sample) : Prop := is_u32 (es_mispred x) ∧ is_u32 (es_is_return x).
Lemma branches_ok fp ks : Forall es_ok (branches fp ks).
Proof.
  apply Forall_forall. intros x (k & _ & Hx)%list_elem_of_omap. destruct k as [misc ip pid tid chain caps regs| | |]; try done.
  simpl in Hx. destruct ((fp =? 0) || _); [|done]. unfold branch_of in Hx. repeat case_match; try done.
  injection Hx as <-. split; unfold is_u32; cbn [es_mispred es_is_return];
    match goal with |- context [Z.b2z ?b] => destruct b end; simpl; lia.
Qed.

Lemma tally_report B k : Forall es_ok B → Z.of_nat (length B) < 2 ^ 64 →
  eh_edge <$> (tally B !! k) = if decide (of_edge k B = []) then None else Some (report B k).
Proof.
  intros Hok Hl. rewrite tally_lookup. unfold report. assert (length (of_edge k B) <= length B)%nat by apply length_filter_le.
  assert (Forall es_ok (of_edge k B)) as Hok'.
  { apply Forall_forall. intros x [_ Hx]%list_elem_of_filter. by apply (proj1 (Forall_forall es_ok B) Hok). }
  assert (∀ x, x ∈ of_edge k B → akey x = k) as Hk by (by intros x [? _]%list_elem_of_filter).
  fold (of_edge k B). destruct (of_edge k B) as [|x rest]; [done|]. simpl in *.
  apply Forall_cons in Hok' as [[? ?] _]. specialize (Hk x ltac:(left)). subst k.
  unfold eh_fill. change eh_bump with (bump (Slot := eh_Slot)). rewrite bump_fold by (done || lia).
  unfold eh_edge. simpl. do 2 f_equal. lia.
Qed.

Lemma of_edge_ne k B : of_edge k B ≠ [] ↔ ∃ x, x ∈ B ∧ akey x = k.
Proof.
  unfold of_edge. split.
  - destruct (filter _ B) as [|x l] eqn:E; [done|]. intros _. exists x.
    assert (x ∈ filter (λ x, akey x = k) B) as [? ?]%list_elem_of_filter by (rewrite E; left). done.
  - intros (x & Hx & Hk) E. assert (x ∈ filter (λ x, akey x = k) B) as H by (by apply list_elem_of_filter).
    rewrite E in H. by apply elem_of_nil in H.
Qed.

Lemma report_perm B B' k : B ≡ₚ B' → report B k = report B' k.
Proof.
  intros Hp. unfold report. assert (of_edge k B ≡ₚ of_edge k B') as Hk by (unfold of_edge; by rewrite Hp).
  assert (∀ f, total f (of_edge k B) = total f (of_edge k B')) as Ht.
  { intros f. unfold total. apply foldr_permutation; [apply _..|by intros; lia|done]. }
  rewrite !Ht. by rewrite (Permutation_length Hk).
Qed.

(** The export of a table that tallies [B]. *)
Lemma export_histogram c0 qsort B h :
  QSort eh_cmp_desc qsort → wf c0 h → tabs h = tally B → Forall es_ok B → Z.of_nat (length B) < 2 ^ 64 →
  ∃ es, eh_export always false qsort h = Some es ∧ histogram B es.
Proof.
  intros Hq Hwf Habs Hok Hl. pose proof (tlive_spec c0 h Hwf) as Hlive. rewrite Habs in Hlive.
  assert (∀ e, e ∈ eh_edge <$> tlive h ↔ ∃ x, x ∈ B ∧ e = report B (akey x)) as Hin.
  { intros e. rewrite Hlive, list_elem_of_fmap. split.
    - intros (s & -> & ((k & s') & -> & Hk%elem_of_map_to_list)%list_elem_of_fmap). simpl.
      pose proof (tally_report B k Hok Hl) as Hr. rewrite Hk in Hr. cbn [fmap option_fmap option_map] in Hr. case_decide as Hne; [done|].
      apply of_edge_ne in Hne as (x & Hx & <-). exists x. split; [done|]. by apply (inj Some) in Hr.
    - intros (x & Hx & ->). pose proof (tally_report B (akey x) Hok Hl) as Hr.
      rewrite decide_False in Hr by (apply of_edge_ne; eauto).
      destruct (tally B !! akey x) as [s|] eqn:Es; [|done]. exists s. split; [cbn [fmap option_fmap option_map] in Hr; congruence|].
      apply list_elem_of_fmap. exists (akey x, s). split; [done|]. by apply elem_of_map_to_list. }
  assert (NoDup ((λ e, (from e, to e)) <$> (eh_edge <$> tlive h))) as Hnd.
  { rewrite <-list_fmap_compose. unfold tlive. rewrite (wf_n _ _ Hwf). unfold count_used. rewrite Nat2Z.id, firstn_all.
    exact (NoDup_keys used key hash (slots h) (wf_tbl _ _ Hwf)). }
  unfold eh_export. destruct (Z.eqb_spec (n h) 0) as [E0|_].
  - exists []. split; [done|]. assert (tlive h = []) as Et by (unfold tlive; by rewrite E0).
    rewrite Et in Hin. split_and!; [constructor|constructor|]. intros e. by rewrite <-Hin.
  - eexists. split; [done|]. split_and!.
    + apply qsort_sorted.
    + by rewrite qsort_perm.
    + intros e. by rewrite qsort_perm.
Qed.

Lemma histogram_perm B B' es : B ≡ₚ B' → histogram B es → histogram B' es.
Proof.
  intros Hp (Hs & Hn & Hin). split_and!; [done..|]. intros e. rewrite Hin.
  split; intros (x & Hx & ->); exists x; (split; [by rewrite ?Hp in *|]); by apply report_perm.
Qed.

(** ** The surveys are exact *)
Section exact.
Context (w : world) (qsort : list ibs_edge → list ibs_edge) `{!QSort eh_cmp_desc qsort}.
Context (ms : Z) (o : option opts) (g : globals).
Context (Harmed : export_fail_armed g = false) (Hms : 0 <= ms).

Definition survey_cfg : cfg := ibs_cfg_from_opts (has_opcnt w) o.
(** The records of [N] channels, all of them read by the drain that follows the
    window. *)
Definition all_recs (recs : nat → list krec) (N : nat) : list krec := concat (recs <$> seq 0 N).
Definition written (recs : nat → list krec) (m : nat → nat → nat) (last N : nat) : Prop :=
  ∀ i, (i < N)%nat → m (S last) i = length (recs i).

(** What the survey must say of the records [ks]. *)
Definition says (fp : Z) (ks : list krec) (sv : survey) : Prop :=
  histogram (branches fp ks) (edges sv) ∧
  samples sv = Z.of_nat (n_wanted fp ks) ∧ branch_samples sv = Z.of_nat (length (branches fp ks)) ∧
  lost sv = u64 (n_lost ks) ∧ (Exists (λ k, is_throttle k = true) ks → throttled sv = true).

Lemma branches_perm fp ks ks' : ks ≡ₚ ks' → branches fp ks ≡ₚ branches fp ks'.
Proof. intros Hp. unfold branches. by apply omap_Permutation. Qed.
Lemma n_lost_perm ks ks' : ks ≡ₚ ks' → n_lost ks = n_lost ks'.
Proof. intros Hp. unfold n_lost. apply foldr_permutation; [apply _..|by intros; lia|done]. Qed.

Lemma finish_says fp c0 ks ks' st g' :
  export_fail_armed g' = false → c0 < 2 ^ 56 → ks ≡ₚ ks' → Z.of_nat (length ks') < 2 ^ 54 →
  told_op fp c0 ks st → ∃ sv, finish always qsort g' st.1 st.2 = (IBS_OK, sv) ∧ says fp ks' sv.
Proof.
  intros Ha Hc Hp Hl Ht. assert (length ks = length ks') as El by (by rewrite Hp).
  destruct (Ht Hc ltac:(lia)) as [Hwf Habs _ Hs Hb Hlo Hth].
  assert (length (branches fp ks) <= length ks)%nat by apply length_omap_le.
  destruct (export_histogram c0 qsort (branches fp ks) st.1 _ Hwf Habs (branches_ok fp ks) ltac:(lia)) as (es & E & Hh).
  unfold finish. rewrite Ha, E. eexists. split; [done|]. unfold says. simpl. split_and!.
  - eapply histogram_perm; [|done]. by apply branches_perm.
  - rewrite Hs. unfold n_wanted. f_equal. apply Permutation_length. by rewrite Hp.
  - rewrite Hb. f_equal. apply Permutation_length. by apply branches_perm.
  - rewrite Hlo. f_equal. by apply n_lost_perm.
  - intros He. apply Hth. rewrite Exists_exists in *. destruct He as (k & Hk & ?). exists k. by rewrite Hp.
Qed.

(** An open may record an errno; it never arms the export failure. *)
Lemma attach_armed tid cpu cs g1 :
  export_fail_armed (attach w set_open_errno tid cpu cs g1).2 = export_fail_armed g1.
Proof. unfold attach. by destruct (chan_open w tid cpu). Qed.
Lemma attach_new_armed ts cs g1 :
  export_fail_armed (attach_new w set_open_errno ts cs g1).2 = export_fail_armed g1.
Proof.
  unfold attach_new. revert cs g1. induction ts as [|t ts IH]; intros cs g1; simpl; [done|].
  case_match; [|apply IH]. pose proof (attach_armed t (-1) cs g1) as E.
  destruct (attach w set_open_errno t (-1) cs g1) as [cs2 g2]. simpl in *. by rewrite IH.
Qed.
Lemma collect_armed {St} step (throttle : St → St) mr fuel r rescanned cs st g1 res :
  collect w step throttle mr set_open_errno ms fuel r rescanned cs st g1 = Some res →
  export_fail_armed res.2 = export_fail_armed g1.
Proof.
  revert r rescanned cs st g1. induction fuel as [|fuel IH]; intros r rescanned cs st g1; [done|]. cbn [collect].
  destruct (drain_all w step throttle mr r 0 cs st) as [[cs1 st1]|]; [|done]. cbn [mbind option_bind]. cbv zeta.
  set (cg := if negb rescanned && (ms / 2 <=? now w r) && (length cs1 <? IBS_MAX_CHANS)%nat
             then attach_new w set_open_errno (default [] (list_tids w true)) cs1 g1 else (cs1, g1)).
  assert (export_fail_armed cg.2 = export_fail_armed g1) as Ea.
  { unfold cg. case_match; [apply attach_new_armed|done]. }
  destruct cg as [cs2 g2]. simpl in Ea. destruct (ms <=? now w r).
  - destruct (drain_all w step throttle mr (S r) 0 cs2 st1) as [[cs3 st3]|]; [|done]. by intros [= <-].
  - intros H. apply IH in H. congruence.
Qed.

(** The channels a whole-process survey starts with. *)
Definition start_chans : list (Z * ring) * globals :=
  if system_wide survey_cfg
  then attach_cpus w set_open_errno (Z.to_nat (Z.max 1 (ncpu w))) [] (set_open_errno 0 g)
  else attach_tids w set_open_errno (default [] (list_tids w false)) [] (set_open_errno 0 g).

(** They are all at the start of their streams. *)
Definition fresh_chans (st : list (Z * ring) * globals) : Prop :=
  (∀ c, c ∈ st.1 → tail c.2 = 0) ∧ export_fail_armed st.2 = export_fail_armed g.
Lemma attach_fresh tid cpu st : fresh_chans st → fresh_chans (attach w set_open_errno tid cpu st.1 st.2).
Proof.
  intros [Ht Ha]. split; [|by rewrite attach_armed]. unfold attach.
  destruct (chan_open w tid cpu); simpl; [done..|]. intros c [?|[->|?%elem_of_nil]%elem_of_cons]%elem_of_app; [by apply Ht|done..].
Qed.
Lemma start_fresh : fresh_chans start_chans.
Proof.
  assert (fresh_chans ([], set_open_errno 0 g)) as H0 by (split; [by intros c ?%elem_of_nil|done]).
  unfold start_chans. case_match.
  - unfold attach_cpus. revert H0. generalize (([] : list (Z * ring)), set_open_errno 0 g).
    induction (seq 0 _) as [|c l IH]; intros st Hst; simpl; [done|]. apply IH. case_match; [by apply attach_fresh|done].
  - unfold attach_tids. revert H0. generalize (([] : list (Z * ring)), set_open_errno 0 g).
    induction (default [] (list_tids w false)) as [|c l IH]; intros st Hst; simpl; [done|]. apply IH. by apply attach_fresh.
Qed.

Lemma told_start fp c0 h : is_pow2 c0 → 2 <= c0 <= 2 ^ 56 → eh_init always c0 = Some h → told_op fp c0 [] (h, survey0).
Proof.
  intros Hp Hc E _ _. destruct (tinit_spec c0 always h Hp ltac:(lia) ltac:(lia) E) as (Hwf & Habs & Hn).
  split; simpl; [done|done|lia|done..|]. by intros ?%Exists_nil.
Qed.

Context (recs : nat → list krec) (m : nat → nat → nat) (last fuel : nat).
Context (Hkernel : kernel_ok (enc_op (callchain survey_cfg)) (krec_ok (callchain survey_cfg)) w recs m).
Context (Hends : ends_at w ms last) (Hfuel : (last < fuel)%nat).

(** Everything was read: the reads are the streams. *)
Lemma read_all N : written recs m last N → read_by recs m (S (S last)) 0 N = all_recs recs N.
Proof.
  intros Hw. unfold read_by, all_recs. f_equal. apply list_fmap_ext. intros i j [-> Hj]%lookup_seq. simpl.
  rewrite Hw by lia. by rewrite firstn_all.
Qed.

Lemma read_none k n : read_by recs m 0 k n = [].
Proof. revert k. induction n as [|n IH]; intros k; [done|]. rewrite read_by_S. simpl. apply IH. Qed.

(** The window of a survey, from fresh channels to the export. *)
Lemma window_says fp c0 rescanned cs h g1 N :
  is_pow2 c0 → 2 <= c0 < 2 ^ 56 → eh_init always c0 = Some h → fresh_chans (cs, g1) →
  N = length (all_chans w set_open_errno rescanned cs g1) → written recs m last N →
  Z.of_nat (length (all_recs recs N)) < 2 ^ 54 →
  (rescanned = false → ∀ r i, (length cs <= i)%nat → (∀ q, (q < r)%nat → now w q < ms / 2) → m r i = O) →
  ∃ cs' st' g' sv, collect w (ibs_step always (callchain survey_cfg) fp) ibs_throttle
      (ibs_max_record (callchain survey_cfg)) set_open_errno ms fuel 0 rescanned cs (h, survey0) g1 = Some (cs', st', g') ∧
    finish always qsort g' st'.1 st'.2 = (IBS_OK, sv) ∧ says fp (all_recs recs N) sv.
Proof.
  intros Hp Hc Hh [Hcs Ha] -> Hw Hl Hnew.
  destruct (survey_collect_spec (ibs_step always (callchain survey_cfg) fp) ibs_throttle (ibs_max_record (callchain survey_cfg))
    (enc_op (callchain survey_cfg)) (krec_ok (callchain survey_cfg)) (act_op fp) ltac:(by intros k [? _])
    ltac:(intros; by apply ibs_step_act) (told_op fp c0) ltac:(intros; by eapply told_op_act)
    ltac:(intros; by apply told_op_throttle) w set_open_errno ms recs m Hkernel last Hends Hms
    fuel 0 rescanned cs [] (h, survey0) g1) as (cs' & st' & g' & seen & E & El & Ht & Hs).
  - lia.
  - lia.
  - intros i c Hi. simpl. rewrite Hcs by (by eapply list_elem_of_lookup_2). done.
  - apply told_start; [done|lia|done].
  - by rewrite read_none.
  - intros Hr r' i _ Hi Hq. apply Hnew; [done..|]. intros q Hq'. apply Hq. lia.
  - rewrite El, read_all in Hs by done.
    destruct (finish_says fp c0 seen (all_recs recs (length (all_chans w set_open_errno rescanned cs g1))) st' g')
      as (sv & ? & ?); [|lia|done|done|done|].
    + pose proof (collect_armed _ _ _ _ _ _ _ _ _ _ E) as Ec. simpl in Ec, Ha. congruence.
    + by exists cs', st', g', sv.
Qed.

(** C27: a whole-process survey reports what the kernel sampled.  For every
    channel it opened (one per listed thread with the threads found half way, or
    one per CPU), over any splitting of the channels' record streams into drains
    and any wrap-around of their rings, the survey terminates with one edge per
    distinct taken branch among the samples of the target, its count and flag
    counts those of the samples, the most frequent first; the sample, branch and
    drop counters count every record, and a throttled stream is flagged. *)
Theorem survey_process_exact pid cs0 g0
    (Hav : available w = true) (Hty : 0 <= pmu_type w)
    (Hstart : start_chans = (cs0, g0)) (Hne : cs0 ≠ [])
    (Hnew : system_wide survey_cfg = false → ∀ r i, (length cs0 <= i)%nat →
       (∀ q, (q < r)%nat → now w q < ms / 2) → m r i = O)
    (Hall : written recs m last (length (all_chans w set_open_errno (system_wide survey_cfg) cs0 g0)))
    (Hsize : Z.of_nat (length (all_recs recs (length (all_chans w set_open_errno (system_wide survey_cfg) cs0 g0)))) < 2 ^ 54) :
  ∃ g' sv, asmtest_ibs_survey_process w always fuel qsort pid ms o g = Some (g', (IBS_OK, sv)) ∧
    says (if system_wide survey_cfg then (if pid =? 0 then getpid w else pid) else 0)
      (all_recs recs (length (all_chans w set_open_errno (system_wide survey_cfg) cs0 g0))) sv.
Proof.
  unfold asmtest_ibs_survey_process. rewrite Hav. destruct (Z.ltb_spec (pmu_type w) 0); [lia|]. cbn [negb orb].
  fold survey_cfg. cbn [always andb]. destruct (eh_init always INIT_PROCESS) as [h|] eqn:Eh; [|done].
  fold start_chans. rewrite Hstart. pose proof start_fresh as Hf. rewrite Hstart in Hf.
  destruct (window_says (if system_wide survey_cfg then (if pid =? 0 then getpid w else pid) else 0)
    INIT_PROCESS (system_wide survey_cfg) cs0 h g0 _ ltac:(exists 11; split; [lia|done]) ltac:(unfold INIT_PROCESS; lia)
    Eh Hf eq_refl Hall Hsize Hnew) as (cs' & st' & g' & sv & E & Efin & Hsays).
  destruct cs0 as [|c cs0]; [done|]. rewrite E. destruct st' as [h' o']. bnd.
  simpl in Efin. rewrite Efin. eauto.
Qed.
End exact.

(** A process with one thread, whose ring of 100 bytes gets a branch sample before
    the first drain and a drop notice, wrapped around the end, before the last. *)
Definition w_recs (i : nat) : list krec :=
  match i with
  | O => [KSample 2 0x400 7 7 [] 0x20 [0; 0x400; 2 ^ 37 + 2 ^ 35; 0; 0; 0; 0; 0x500]; KLost 0 1 3]
  | S _ => []
  end.
Definition w_m (r i : nat) : nat := match i with O => (match r with O | 1%nat => 1%nat | _ => 2%nat end) | S _ => O end.
Definition w_view (r i : nat) : list Z * Z :=
  let W := bytes (enc_op false) (w_recs i) in
  match i with
  | O => match r with
         | O | 1%nat => (take 96 W ++ [0; 0; 0; 0], 96)
         | _ => (drop 100 W ++ take 76 (drop 20 W) ++ take 4 (drop 96 W), 120)
         end
  | S _ => ([0], 0)
  end.
Definition w_world : world :=
  mk_world true 8 true 7 1 4096 (λ _, Some [7]) (λ _ _, open_ok) (λ r, 10 * Z.of_nat r) w_view.
Definition g_clean : globals := mk_g 0 0 false.

Lemma shows_check W d lo hi :
  bool_decide ((lo <= hi <= length W)%nat ∧ (hi - lo <= length d)%nat ∧ (0 < length d)%nat ∧ Z.of_nat hi < 2 ^ 64 ∧
    Forall (λ j, d !! (j mod length d)%nat = W !! j) (seq lo (hi - lo))) = true →
  shows W d lo hi.
Proof.
  intros (H1 & H2 & H3 & H4 & H5)%bool_decide_eq_true. refine (conj H1 (conj H2 (conj H3 (conj H4 _)))).
  intros j Hj. eapply Forall_forall in H5; [exact H5|]. apply elem_of_seq. lia.
Qed.

Lemma w_kernel_ok : kernel_ok (enc_op false) (krec_ok false) w_world w_recs w_m.
Proof.
  intros r [|i].
  - split.
    { repeat constructor; vm_compute; try (intros ?; discriminate); try reflexivity. }
    destruct r as [|[|[|r]]]; (split; [simpl; lia|]); (split; [vm_compute; reflexivity|]);
      apply shows_check; vm_compute; reflexivity.
  - split; [constructor|]. destruct r; (split; [simpl; lia|]); (split; [reflexivity|]);
      apply shows_check; vm_compute; reflexivity.
Qed.

#[global] Instance eh_sort : QSort eh_cmp_desc (msort eh_cmp_desc).
Proof.
  apply msort_QSort. intros x y. unfold cmp_le, eh_cmp_desc.
  repeat match goal with
         | |- context [?a =? ?b] => destruct (Z.eqb_spec a b)
         | |- context [?a <? ?b] => destruct (Z.ltb_spec a b)
         end; simpl; lia.
Qed.

Lemma survey_process_exact_witness :
  ∃ g' sv, asmtest_ibs_survey_process w_world always 2 (msort eh_cmp_desc) 7 10 None g_clean = Some (g', (IBS_OK, sv)) ∧
    says 0 (w_recs 0) sv.
Proof.
  assert (ends_at w_world 10 1) as Hends by (split; [simpl; lia|intros r Hr; simpl; lia]).
  assert (0 <= 10) as H10 by lia. assert (1 < 2)%nat as H12 by lia. assert (0 <= pmu_type w_world) as Hty by (simpl; lia).
  assert ([(7, mk_ring [] 0 0)] ≠ ([] : list (Z * ring))) as Hne by discriminate.
  apply (survey_process_exact w_world (msort eh_cmp_desc) 10 None g_clean eq_refl H10 w_recs w_m 1 2
    w_kernel_ok Hends H12 7 [(7, mk_ring [] 0 0)] g_clean eq_refl Hty eq_refl Hne).
  - intros _ r [|i] Hi _; [simpl in Hi; lia|done].
  - intros [|i] Hi; [reflexivity|]. vm_compute in Hi. lia.
  - vm_compute. reflexivity.
Defined.

(** ** The jittered period *)
Lemma round16_spec x : 0 <= x < 2 ^ 64 → round16 x = x - x mod 16.
Proof. intros Hx. unfold round16. by apply (land_align 4 x). Qed.

(** The sampling period stays usable: the resolved period is a positive
    multiple of 16, and jitter moves a period below 2{^62} by at most its fraction
    (rounded down to a multiple of 16) without overflowing. *)
Theorem jitter_bounds o rnd (Hrnd : is_u64 rnd)
    (Hper : match o with Some o => is_u64 (sample_period o) | None => True end)
    (Hfrac : 0 <= ibs_jitter_frac o) (Hsmall : ibs_period o < 2 ^ 62) :
  16 <= ibs_period o ∧ ibs_period o mod 16 = 0 ∧
  ∃ p, ibs_jitter_period (ibs_period o) (ibs_jitter_frac o) rnd = Some p ∧
    16 <= p ∧ p mod 16 = 0 ∧
    (ibs_jitter_frac o = 0 → p = ibs_period o) ∧
    (ibs_jitter_frac o ≠ 0 → ibs_period o - ibs_period o / ibs_jitter_frac o - 16 < p <= Z.max 16 (ibs_period o + ibs_period o / ibs_jitter_frac o)).
Proof.
  assert (16 <= ibs_period o ∧ ibs_period o mod 16 = 0) as [H16 Hm].
  { unfold ibs_period, IBS_DEFAULT_PERIOD. rewrite round16_spec by (destruct o; [case_match|]; unfold is_u64 in *; lia).
    set (x := match o with Some _ => _ | None => _ end).
    destruct (Z.ltb_spec (x - x mod 16) 16); [split; [lia|done]|]. split; [done|]. dlia. }
  split_and!; [done..|]. revert H16 Hm Hsmall Hfrac. generalize (ibs_period o) (ibs_jitter_frac o). intros b f H16 Hm Hsmall Hf.
  unfold ibs_jitter_period. destruct (Z.eqb_spec f 0) as [->|Hf0]; [exists b; split_and!; done|].
  assert (0 <= b / f <= b) as Ha by (split; [apply Z.div_pos; lia|apply Z.div_le_upper_bound; nia]).
  destruct (Z.eqb_spec (b / f) 0) as [E0|E0]; [exists b; split_and!; try done; intros; lia|].
  set (amp := b / f) in *. rewrite (u64_small (2 * amp + 1)) by lia.
  pose proof (Z.mod_pos_bound rnd (2 * amp + 1) ltac:(lia)) as Hr.
  assert (∀ x, 0 <= x < 2 ^ 63 → int64 x = x) as Hi by (intros x Hx; unfold int64; rewrite Z.mod_small; lia).
  rewrite !Hi by lia. set (p := b + _).
  assert (b - amp <= p <= b + amp) as Hp by (unfold p; lia).
  destruct (Z.ltb_spec p (- 2 ^ 63)); [lia|]. destruct (Z.leb_spec (2 ^ 63) p); [lia|]. cbn [orb]. cbv zeta.
  eexists. split; [reflexivity|]. destruct (Z.ltb_spec p 16).
  - rewrite round16_spec by lia. change (16 - 16 mod 16) with 16. change (16 <? 16) with false. cbv iota.
    split_and!; [lia|done|done|]. intros _. lia.
  - rewrite round16_spec by lia. destruct (Z.ltb_spec (p - p mod 16) 16); [dlia|].
    split_and!; [done|dlia|done|]. intros _. pose proof (Z.mod_pos_bound p 16). lia.
Qed.

Lemma jitter_bounds_witness :
  16 <= ibs_period None ∧ ∃ p, ibs_jitter_period (ibs_period None) (ibs_jitter_frac None) 12345 = Some p ∧ 16 <= p.
Proof.
  destruct (jitter_bounds None 12345 ltac:(unfold is_u64; lia) I ltac:(vm_compute; discriminate) ltac:(vm_compute; reflexivity))
    as (H1 & _ & p & H2 & H3 & _).
  split; [exact H1|]. exists p. split; [exact H2|exact H3].
Defined.

(** ** A refused open, forgotten *)
(** The software-clock survey clears the IBS lane's failure reason.  After an
    IBS survey that perf refused, the reason names the refusal; after a
    software-clock survey the reason is empty, although no IBS survey ran since. *)
Theorem swclock_clears_ibs_reason :
  let refused := mk_world true 8 true 7 1 4096 (λ _, Some [7]) (λ _ _, open_failed EACCES) (λ _, 0) (λ _ _, ([], 0)) in
  ∃ g1 g2, asmtest_ibs_survey_process refused always 1 (msort eh_cmp_desc) 7 10 None g_clean = Some (g1, (IBS_EUNAVAIL, survey0)) ∧
    asmtest_ibs_unavail_reason refused ""%string g1 ≠ ""%string ∧
    asmtest_swclock_survey_process refused always 1 (msort sw_cmp_desc) 10 g1 = Some (g2, (IBS_EUNAVAIL, sw0)) ∧
    asmtest_ibs_unavail_reason refused ""%string g2 = ""%string.
Proof. eexists _, _. split_and!; [vm_compute; reflexivity|vm_compute; discriminate|vm_compute; reflexivity|vm_compute; reflexivity]. Qed.
End IbsSurvey.
