(* ===== verification/BlockStep.v ===== *)
(** Block-step capture ([src/ptrace_backend.c]): rebuilding the instructions of a
    basic block from the address its taken branch reached, with and without the
    pre-cover cache, the region driver that turns the stops of a traced call into a
    stream of offsets, and the replay of that stream into the trace. *)
From S2P Require Import Prelude Grow Trace BsRecon Descent Ibs.
Import Trace BsRecon.

Module BlockStep.

Definition PTRACE_STREAM_CAP : Z := 2 ^ 16.
Definition PTRACE_OK : Z := 0.
Definition PTRACE_EINVAL : Z := -1.
Definition PTRACE_ENOSYS : Z := -5.
Definition PTRACE_ETRACE : Z := -8.

(** The other questions the code asks the disassembly layer: the length
    [asmtest_disas] reports, the rep-prefixed string operations, the calls. *)
Class Disas := {
  disas_len : Z → Z;
  disas_is_rep_string : Z → bool;
  disas_is_call : Z → bool;
  disas_available : bool;
}.

(** [ASMTEST_BS_FAIL], [_OK] and [_AMBIGUOUS]. *)
Inductive bs_rc := RC_FAIL | RC_OK | RC_AMBIGUOUS.
#[export] Instance bs_rc_eq_dec : EqDecision bs_rc.
Proof. solve_decision. Defined.

(** [stream[0..n)], [*last_off] and the rep flag. *)
Record rec_state := mk_rec { stream : list Z; last_off : Z; rep : bool }.
Definition full (s : rec_state) : bool := PTRACE_STREAM_CAP <=? Z.of_nat (length (stream s)).
Definition record (s : rec_state) (off : Z) (is_rep : bool) : rec_state :=
  mk_rec (stream s ++ [off]) off (rep s || is_rep).

(** ** The pre-cover cache *)
Inductive bs_pc_kind := BS_PC_NONE | BS_PC_HARD_UNKNOWN | BS_PC_UNCOND | BS_PC_COND.
#[export] Instance bs_pc_kind_eq_dec : EqDecision bs_pc_kind.
Proof. solve_decision. Defined.
Record bs_precover_insn := mk_pi { off : Z; ilen : Z; kind : bs_pc_kind; target : Z; is_rep : bool }.
Record bs_precover_run := mk_run { leader : Z; insns : list bs_precover_insn }.
Abbreviation precover := (list bs_precover_run).
Definition sizeof_insn : Z := 40.
Definition sizeof_run : Z := 24.
Definition sizeof_precover : Z := 16.

(** [g_bs_recon_probe_calls] and [g_bs_precover_hits]. *)
Record stats := mk_stats { probe_calls : Z; precover_hits : Z }.
Definition asmtest_bs_stats_reset : stats := mk_stats 0 0.

Section recon.
Context `{Decoder, Disas} (len : Z).

(** The walk of [bs_record_run]; [true] when it ended on the terminator. *)
Fixpoint record_loop (rounds : nat) (term walk : Z) (s : rec_state) : bool * rec_state :=
  match rounds with
  | O => (false, s)
  | S rounds =>
      if (len <=? walk) || (term <? walk) then (false, s)
      else if full s then (false, s)
      else
        let s := record s walk (disas_is_rep_string walk) in
        let l := disas_len walk in
        if l =? 0 then (false, s)
        else if walk =? term then (true, s)
        else record_loop rounds term (walk +64 l) s
  end.
Definition bs_record_run (from_off term : Z) (s : rec_state) : bool * rec_state :=
  record_loop (S (Z.to_nat len)) term from_off s.

(** What the cache keeps of the instruction at [walk]. *)
Definition pc_kind (walk : Z) (is_call is_ret : bool) : bs_pc_kind * Z :=
  if disas_is_branch walk then
    if is_ret then (BS_PC_HARD_UNKNOWN, 0)
    else match disas_branch_target walk with
         | None => (BS_PC_HARD_UNKNOWN, 0)
         | Some target => if is_call || disas_is_uncond_jump walk then (BS_PC_UNCOND, target) else (BS_PC_COND, target)
         end
  else (BS_PC_NONE, 0).

(** The instructions of one run; [tn] and [tcap] are those of the growing array. *)
Fixpoint run_loop (rounds : nat) (grant : allocator) (tn tcap walk : Z) : list bs_precover_insn :=
  match rounds with
  | O => []
  | S rounds =>
      if len <=? walk then []
      else
        let '(l, is_call, is_ret) := disas_probe walk in
        if l =? 0 then []
        else
          let '(k, tgt) := pc_kind walk is_call is_ret in
          match (if tn =? tcap then asmtest_grow grant tcap (tn + 1) sizeof_insn else Some tcap) with
          | None => []
          | Some tcap =>
              mk_pi walk l k tgt (disas_is_rep_string walk) ::
              (if decide (k = BS_PC_HARD_UNKNOWN ∨ k = BS_PC_UNCOND) then []
               else run_loop rounds grant (tn + 1) tcap (walk +64 l))
          end
  end.

(** [covered] is the list of leaders. *)
Definition asmtest_bs_precover_build (grant : allocator) (covered : list Z) : option precover :=
  if (len =? 0) || (length covered =? 0)%nat then None
  else if negb (grant sizeof_precover) then None
  else if negb (grant (Z.of_nat (length covered) * sizeof_run)) then None
  else
    let runs := omap (λ l,
      if len <=? l then None
      else match run_loop (S (Z.to_nat len)) grant 0 0 l with
           | [] => None
           | il => Some (mk_run l il)
           end) covered in
    if (length runs =? 0)%nat then None else Some runs.

(** The binary search of [bs_precover_find]; the interval shrinks every round. *)
Fixpoint find_loop (fuel : nat) (p : precover) (from lo hi : Z) : option bs_precover_run :=
  match fuel with
  | O => None
  | S fuel =>
      if lo <? hi then
        let mid := lo + (hi - lo) / 2 in
        match p !! Z.to_nat mid with
        | None => None
        | Some r =>
            if leader r =? from then Some r
            else if leader r <? from then find_loop fuel p from (mid + 1) hi
            else find_loop fuel p from lo mid
        end
      else None
  end.
Definition bs_precover_find (p : option precover) (from : Z) : option bs_precover_run :=
  match p with
  | None => None
  | Some p => find_loop (S (length p)) p from 0 (Z.of_nat (length p))
  end.

(** The verdict of [bs_precover_scan_terminator]. *)
Fixpoint scan_run (il : list bs_precover_insn) (next_pc first_cand ncand : Z) : verdict :=
  match il with
  | [] => decided ncand first_cand
  | e :: il =>
      match kind e with
      | BS_PC_NONE => scan_run il next_pc first_cand ncand
      | BS_PC_COND =>
          if target e =? next_pc
          then scan_run il next_pc (if ncand =? 0 then off e else first_cand) (u32 (ncand + 1))
          else scan_run il next_pc first_cand ncand
      | BS_PC_HARD_UNKNOWN => if ncand =? 0 then BS_OK (off e) else decided ncand first_cand
      | BS_PC_UNCOND =>
          if target e =? next_pc
          then decided (u32 (ncand + 1)) (if ncand =? 0 then off e else first_cand)
          else decided ncand first_cand
      end
  end.
Definition bs_precover_scan_terminator (r : bs_precover_run) (next_pc : Z) : verdict :=
  scan_run (insns r) next_pc 0 0.

(** A rep-prefixed instruction in a decided block makes it ambiguous. *)
Definition downgrade (v : verdict) (s : rec_state) : bs_rc :=
  match v with
  | BS_FAIL => RC_FAIL
  | BS_OK _ => if rep s then RC_AMBIGUOUS else RC_OK
  | BS_AMBIGUOUS _ => RC_AMBIGUOUS
  end.
Definition term_of (v : verdict) : option Z :=
  match v with BS_FAIL => None | BS_OK t | BS_AMBIGUOUS t => Some t end.

(** The emission loop over a cached run. *)
Fixpoint emit_run (il : list bs_precover_insn) (term : Z) (s : rec_state) : bool * rec_state :=
  match il with
  | [] => (false, s)
  | e :: il =>
      if full s then (false, s)
      else
        let s := record s (off e) (is_rep e) in
        if off e =? term then (true, s) else emit_run il term s
  end.

(** The rep flag is local to a call. *)
Definition unrep (s : rec_state) : rec_state := mk_rec (stream s) (last_off s) false.

Definition blockstep_reconstruct_precover (r : bs_precover_run) (next_pc : Z) (s : rec_state) : bs_rc * rec_state :=
  let v := bs_precover_scan_terminator r next_pc in
  match term_of v with
  | None => (RC_FAIL, s)
  | Some term =>
      let '(ok, s) := emit_run (insns r) term (unrep s) in
      (if ok then downgrade v s else RC_FAIL, s)
  end.

(** The uncached path. *)
Definition reconstruct_fresh (calls from_off next_pc : Z) (s : rec_state) : Z * (bs_rc * rec_state) :=
  let '(calls, v) := asmtest_bs_scan_terminator calls len from_off next_pc in
  (calls,
   match term_of v with
   | None => (RC_FAIL, s)
   | Some term =>
       let '(ok, s) := bs_record_run from_off term (unrep s) in
       (if ok then downgrade v s else RC_FAIL, s)
   end).

(** [p] is [g_bs_precover_current]. *)
Definition blockstep_reconstruct (p : option precover) (st : stats) (from_off next_pc : Z) (s : rec_state) :
    stats * (bs_rc * rec_state) :=
  match bs_precover_find p from_off with
  | Some cached =>
      (mk_stats (probe_calls st) (precover_hits st +64 1), blockstep_reconstruct_precover cached next_pc s)
  | None =>
      let '(calls, res) := reconstruct_fresh (probe_calls st) from_off next_pc s in
      (mk_stats calls (precover_hits st), res)
  end.

(** Up to the tracee's own trap. *)
Fixpoint cut_loop (rounds : nat) (cut_off walk : Z) (s : rec_state) : bs_rc * rec_state :=
  match rounds with
  | O => (RC_FAIL, s)
  | S rounds =>
      if walk =? cut_off then (RC_OK, s)
      else if (cut_off <? walk) || (len <=? walk) then (RC_FAIL, s)
      else if full s then (RC_FAIL, s)
      else
        let s := record s walk false in
        let l := disas_len walk in
        if l =? 0 then (RC_FAIL, s) else cut_loop rounds cut_off (walk +64 l) s
  end.
Definition blockstep_reconstruct_cut (from_off cut_off : Z) (s : rec_state) : bs_rc * rec_state :=
  cut_loop (S (Z.to_nat len)) cut_off from_off s.

(** ** From the stream to the trace *)
Fixpoint normalize_loop (sq : Descent.blockseq) (offs : list Z) (overflow : bool) (t : asmtest_trace) : asmtest_trace :=
  let truncate t :=
    Trace.mk_trace (Trace.insns t) (insns_cap t) (insns_len t) (insns_total t) (blocks t) (blocks_cap t)
      (blocks_len t) (blocks_total t) true in
  match offs with
  | [] => if overflow then truncate t else t
  | o :: offs =>
      let l := disas_len o in
      let '(new_block, sq) := Descent.asmtest_blockseq_boundary sq o l in
      let t := if new_block then append_block t o else t in
      let t := append_insn t o in
      if l =? 0 then truncate t else normalize_loop sq offs overflow t
  end.
(** [t] is [None] for a null pointer. *)
Definition normalize (t : option asmtest_trace) (offs : list Z) (overflow : bool) : option asmtest_trace :=
  normalize_loop (Descent.mk_blockseq false 0) offs overflow <$> t.

(** ** The region driver *)
Context (base_ip : Z).

(** What a wait in the block-step loop yields: the resume or the wait failing, the
    tracee gone, a status that is not a stop, a signal stop, a trap whose registers
    cannot be read, or a trap with [pc], the return value and [sp]; [app] is a trap
    the tracee raised itself, [cont] whether it can be resumed past that. *)
Inductive stop :=
| SResumeFailed | SWaitFailed | SGone | SNotStopped | SSignal (sig : Z) | SNoRegs
| STrap (pc retval sp : Z)
| SAppTrap (pc : Z) (cont : bool).

Inductive exit_kind := EXIT_RETURNED | EXIT_CALLOUT_RESUMED (resume_off : Z) | EXIT_CALLOUT_LOST.

(** [runs_to addr sp] is whether [run_until_sp] gets the tracee there. *)
Context (runs_to : Z → Z → bool).

Definition classify_region_exit (last_off entry_sp : Z) : exit_kind :=
  if negb disas_available || negb (disas_is_call last_off) then EXIT_RETURNED
  else
    let cl := disas_len last_off in
    let ret_off := last_off +64 cl in
    if (cl =? 0) || (len <=? ret_off) then EXIT_RETURNED
    else if runs_to (base_ip +64 ret_off) (entry_sp +64 8) then EXIT_CALLOUT_RESUMED ret_off
    else EXIT_CALLOUT_LOST.

Definition is_fault (sig : Z) : bool := (sig =? 11) || (sig =? 7) || (sig =? 4) || (sig =? 8).
Definition in_region (pc : Z) : bool := (base_ip <=? pc) && (pc <? base_ip +64 len).

(** The loop: [prev] is the start of the open block.  The result is [rc], the
    recording, [overflow] and [*result]; [None] when the stops run out first. *)
Fixpoint drive (p : option precover) (stops : list stop) (st : stats) (prev : option Z) (s : rec_state) (overflow : bool) :
    option (stats * (Z * rec_state * bool * option Z)) :=
  match stops with
  | [] => None
  | stop :: stops =>
      match stop with
      | SResumeFailed | SWaitFailed | SNoRegs => Some (st, (PTRACE_ETRACE, s, overflow, None))
      | SGone => Some (st, (PTRACE_OK, s, overflow, None))
      | SNotStopped => drive p stops st prev s overflow
      | SSignal sig =>
          if is_fault sig then Some (st, (PTRACE_OK, s, true, None)) else drive p stops st prev s overflow
      | SAppTrap pc cont =>
          let s := match prev with
                   | Some from => if in_region pc then (blockstep_reconstruct_cut from (pc -64 base_ip) s).2 else s
                   | None => s
                   end in
          Some (st, (if cont then PTRACE_OK else PTRACE_ETRACE, s, true, None))
      | STrap pc retval sp =>
          match prev with
          | None => drive p stops st (if in_region pc then Some (pc -64 base_ip) else None) s overflow
          | Some from =>
              let '(st, (br, s)) := blockstep_reconstruct p st from pc s in
              match br with
              | RC_FAIL => Some (st, (PTRACE_OK, s, true, None))
              | _ =>
                  let ambiguous := bool_decide (br = RC_AMBIGUOUS) in
                  let overflow := overflow || ambiguous in
                  if in_region pc then drive p stops st (Some (pc -64 base_ip)) s overflow
                  else if ambiguous then Some (st, (PTRACE_OK, s, true, None))
                  else
                    match classify_region_exit (last_off s) sp with
                    | EXIT_CALLOUT_RESUMED r => drive p stops st (Some r) s overflow
                    | EXIT_CALLOUT_LOST => Some (st, (PTRACE_OK, s, true, None))
                    | EXIT_RETURNED => Some (st, (PTRACE_OK, s, overflow, Some retval))
                    end
              end
          end
      end
  end.

(** [args_ok] is the check of the arguments, [forked] that the child reached its
    first stop. *)
Definition asmtest_ptrace_trace_call_blockstep (args_ok avail : bool) (grant : allocator) (forked : bool)
    (p : option precover) (stops : list stop) (st : stats) (t : option asmtest_trace) :
    option (stats * (Z * option Z * option asmtest_trace)) :=
  if (len =? 0) || negb args_ok then Some (st, (PTRACE_EINVAL, None, t))
  else if negb avail then Some (st, (PTRACE_ENOSYS, None, t))
  else if negb (grant (PTRACE_STREAM_CAP * 8)) then Some (st, (PTRACE_ETRACE, None, t))
  else if negb forked then Some (st, (PTRACE_ETRACE, None, t))
  else
    match drive p stops st None (mk_rec [] 0 false) false with
    | None => None
    | Some (st, (rc, s, overflow, result)) =>
        Some (st, (rc, result, if rc =? PTRACE_OK then normalize t (stream s) overflow else t))
    end.

(** ** Cached and fresh reconstruction *)
Context (Hlen : 0 <= len < 2 ^ 32 - 1) (Hok : decoder_ok len) (Hdis : ∀ o, disas_len o = len_at o).

(** The cache entry of the instruction at [o]. *)
Definition fact (o : Z) : bs_precover_insn :=
  let '(l, ic, ir) := disas_probe o in
  let '(k, tgt) := pc_kind o ic ir in mk_pi o l k tgt (disas_is_rep_string o).
Definition stops_run (e : bs_precover_insn) : bool :=
  match kind e with BS_PC_HARD_UNKNOWN | BS_PC_UNCOND => true | _ => false end.

(** The run from [o] when memory is not short. *)
Fixpoint run_of (rounds : nat) (o : Z) : list bs_precover_insn :=
  match rounds with
  | O => []
  | S rounds =>
      if (len <=? o) || (len_at o =? 0) then []
      else fact o :: (if stops_run (fact o) then [] else run_of rounds (o + len_at o))
  end.
(** It ends in a branch that is always taken, not where the code stops decoding. *)
Definition closed (il : list bs_precover_insn) : bool :=
  match list.last il with Some e => stops_run e | None => false end.

Lemma fact_spec o :
  off (fact o) = o ∧ ilen (fact o) = len_at o ∧ is_rep (fact o) = disas_is_rep_string o.
Proof.
  unfold fact, len_at. destruct (disas_probe o) as [[l ic] ir]. by destruct (pc_kind o ic ir).
Qed.

(** What the cache keeps decides the kind for every stop address. *)
Lemma fact_kind next_pc o : len_at o ≠ 0 →
  kind_at next_pc o =
    match kind (fact o) with
    | BS_PC_NONE => BR_NONE
    | BS_PC_HARD_UNKNOWN => BR_HARD_UNKNOWN
    | BS_PC_UNCOND => if target (fact o) =? next_pc then BR_HARD_HIT else BR_HARD_MISS
    | BS_PC_COND => if target (fact o) =? next_pc then BR_COND_HIT else BR_COND_MISS
    end.
Proof.
  unfold kind_at, classify_branch, fact, len_at. destruct (disas_probe o) as [[l ic] ir]. simpl. intros Hl.
  rewrite (proj2 (Z.eqb_neq l 0) Hl). unfold pc_kind. destruct (disas_is_branch o); [|done]. simpl.
  destruct ir; [done|]. destruct (disas_branch_target o) as [tgt|]; [|done]. by destruct (ic || _).
Qed.

Lemma stops_kind next_pc o : len_at o ≠ 0 → stops_run (fact o) = false → passes next_pc o.
Proof.
  intros Hl Hs. unfold passes. rewrite (fact_kind next_pc o Hl). unfold stops_run in Hs.
  destruct (kind (fact o)); try done; [kinds|]. destruct (_ =? next_pc); kinds.
Qed.

(** The build loop computes [run_of]. *)
Lemma cache_loop_spec rounds tn tcap o :
  0 <= o <= len → 0 <= tn <= tcap → tcap * sizeof_insn <= SIZE_MAX → tn + Z.of_nat rounds < 2 ^ 33 →
  run_loop rounds always tn tcap o = run_of rounds o.
Proof using H H0 Hlen Hok.
  revert tn tcap o. induction rounds as [|rounds IH]; intros tn tcap o Ho Ht Hc Hr; [done|]. cbn [run_loop run_of].
  destruct (Z.leb_spec len o) as [|Hlt]; [done|]. cbn [orb].
  pose proof (Hok o ltac:(lia)) as Hl. unfold fact, len_at in *. destruct (disas_probe o) as [[l ic] ir]. simpl in Hl.
  cbn [fst]. destruct (Z.eqb_spec l 0); [done|]. destruct (pc_kind o ic ir) as [k tgt] eqn:Ek.
  assert (∃ c, (if tn =? tcap then asmtest_grow always tcap (tn + 1) sizeof_insn else Some tcap) = Some c ∧
               tn + 1 <= c ∧ c * sizeof_insn <= SIZE_MAX) as (c & -> & Hc1 & Hc2).
  { destruct (Z.eqb_spec tn tcap) as [->|]; [|exists tcap; split_and!; [done|lia|done]].
    pose proof (asmtest_grow_spec always tcap (tcap + 1) sizeof_insn ltac:(vm_compute; by split) ltac:(lia) Hc) as G.
    destruct (asmtest_grow always tcap (tcap + 1) sizeof_insn) as [c|]; [destruct G as (? & ? & ? & _); exists c; by split_and!|].
    destruct G as [_ [G|(r & _ & _ & [=])]]. unfold sizeof_insn, SIZE_MAX in G. lia. }
  f_equal. unfold stops_run. cbn [kind]. rewrite u64_small by lia.
  destruct k; [rewrite decide_False by (intros [?|?]; congruence)|rewrite decide_True by auto|rewrite decide_True by auto|rewrite decide_False by (intros [?|?]; congruence)];
    try done; apply IH; lia.
Qed.

Lemma closed_cons e il : stops_run e = false → closed (e :: il) = closed il.
Proof. intros Hs. destruct il as [|e' il]; [by unfold closed; simpl; rewrite Hs|]. unfold closed. by rewrite last_cons_cons. Qed.

(** A verdict that an open run supports. *)
Definition unproven (v : verdict) : verdict := match v with BS_OK t => BS_AMBIGUOUS t | v => v end.

Lemma term_unproven v : term_of (unproven v) = term_of v.
Proof. by destruct v. Qed.

Lemma fell_out_unproven ncand first : 0 <= ncand → fell_out ncand first = unproven (decided ncand first).
Proof. intros. unfold fell_out, decided. destruct (ncand =? 0); [done|]. by destruct (ncand =? 1). Qed.

(** Scanning the cached run is scanning the code, except for what a run that is
    not closed leaves unproven. *)
Lemma scan_run_spec rounds next_pc calls o first ncand :
  0 <= o → len - o < Z.of_nat rounds → 0 <= ncand → ncand + Z.of_nat rounds < 2 ^ 32 →
  let il := run_of rounds o in let v := scan_run il next_pc first ncand in
  (scan_loop rounds len next_pc calls o first ncand).2 = if closed il then v else unproven v.
Proof.
  revert calls o first ncand. induction rounds as [|rounds IH]; intros calls o first ncand Ho Hr Hn Hw; cbn [scan_loop run_of].
  { by apply fell_out_unproven. }
  destruct (Z.leb_spec len o) as [|Hlt]; [by apply fell_out_unproven|]. cbn [orb].
  destruct (classify_branch calls o next_pc) as [calls' [k l]] eqn:E.
  assert (k = kind_at next_pc o ∧ l = len_at o) as [-> ->].
  { unfold kind_at, len_at, classify_branch in *. destruct (disas_probe o) as [[l' ic] ir]. by injection E as [= _ <- <-]. }
  pose proof (Hok o ltac:(lia)) as Hl.
  destruct (Z.eqb_spec (len_at o) 0) as [E0|E0]; [by apply fell_out_unproven|].
  rewrite (fact_kind next_pc o E0), (u64_small (o + _)) by lia. destruct (fact_spec o) as (Eo & _ & _).
  cbn [scan_run]. rewrite Eo.
  destruct (kind (fact o)) eqn:Ek; unfold stops_run; rewrite Ek.
  - rewrite closed_cons by (unfold stops_run; by rewrite Ek). apply IH; lia.
  - unfold closed. simpl list.last. unfold stops_run. by rewrite Ek.
  - unfold closed. simpl list.last. unfold stops_run. rewrite Ek. by destruct (target (fact o) =? next_pc).
  - rewrite closed_cons by (unfold stops_run; by rewrite Ek).
    destruct (target (fact o) =? next_pc); [rewrite u32_small by lia|]; apply IH; lia.
Qed.

(** The terminator is one of the run's instructions. *)
Lemma scan_run_term il next_pc first ncand t :
  term_of (scan_run il next_pc first ncand) = Some t →
  t ∈ off <$> il ∨ t = first ∧ ncand ≠ 0.
Proof.
  assert (∀ f n, term_of (decided n f) = Some t → t = f ∧ n ≠ 0) as Hd.
  { intros f n. unfold decided. destruct (Z.eqb_spec n 0); [done|]. destruct (n =? 1); by intros [= ->]. }
  revert first ncand. induction il as [|e il IH]; intros first ncand; cbn [scan_run fmap list_fmap]; [intros E; right; by apply Hd|].
  rewrite elem_of_cons. destruct (kind e).
  - intros [?|?]%IH; auto.
  - destruct (ncand =? 0); [intros [= ->]; auto|intros ?%Hd; auto].
  - destruct (_ =? next_pc); [|intros ?%Hd; auto]. intros [-> _]%Hd. destruct (Z.eqb_spec ncand 0); auto.
  - destruct (_ =? next_pc); [|intros [?|?]%IH; auto].
    intros [?|[-> _]]%IH; [auto|]. destruct (Z.eqb_spec ncand 0); auto.
Qed.

Lemma run_of_ge rounds o t : 0 <= o → t ∈ off <$> run_of rounds o → o <= t.
Proof.
  revert o. induction rounds as [|rounds IH]; intros o Ho; cbn [run_of]; [by intros ?%elem_of_nil|].
  destruct (Z.leb_spec len o) as [|Hlt]; [by intros ?%elem_of_nil|]. cbn [orb]. pose proof (Hok o ltac:(lia)).
  destruct (Z.eqb_spec (len_at o) 0); [by intros ?%elem_of_nil|]. destruct (fact_spec o) as (Eo & _ & _).
  rewrite fmap_cons, Eo. intros [->|Ht]%elem_of_cons; [lia|].
  destruct (stops_run _); [by apply elem_of_nil in Ht|]. apply IH in Ht; lia.
Qed.

(** Emitting the cached run records what walking the code records. *)
Lemma emit_run_spec rounds o term s :
  0 <= o → term ∈ off <$> run_of rounds o → record_loop rounds term o s = emit_run (run_of rounds o) term s.
Proof.
  revert o s. induction rounds as [|rounds IH]; intros o s Ho Ht; [by apply elem_of_nil in Ht|].
  pose proof (run_of_ge _ _ _ Ho Ht) as Hge. cbn [run_of record_loop] in *.
  destruct (Z.leb_spec len o) as [|Hlt]; [by apply elem_of_nil in Ht|]. cbn [orb] in *.
  pose proof (Hok o ltac:(lia)) as Hl. destruct (Z.eqb_spec (len_at o) 0) as [|Hne]; [by apply elem_of_nil in Ht|].
  destruct (Z.ltb_spec term o); [lia|]. destruct (fact_spec o) as (Eo & _ & Er). cbn [emit_run]. rewrite Eo, Er, Hdis.
  rewrite fmap_cons, Eo in Ht. destruct (full s); [done|]. destruct (Z.eqb_spec (len_at o) 0); [done|].
  destruct (Z.eqb_spec o term); [done|]. apply elem_of_cons in Ht as [?|Ht]; [done|].
  destruct (stops_run (fact o)); [by apply elem_of_nil in Ht|]. rewrite u64_small by lia. by apply IH; [lia|].
Qed.

(** ** The search *)
Lemma find_loop_sound fuel p from lo hi r : find_loop fuel p from lo hi = Some r → r ∈ p ∧ leader r = from.
Proof.
  revert lo hi. induction fuel as [|fuel IH]; intros lo hi; cbn [find_loop]; [done|].
  destruct (lo <? hi); [|done]. destruct (p !! _) as [r'|] eqn:Er; [|done].
  destruct (Z.eqb_spec (leader r') from); [intros [= ->]; split; [by eapply list_elem_of_lookup_2|done]|].
  destruct (_ <? from); apply IH.
Qed.

Lemma midpoint a b : a < b → a <= a + (b - a) / 2 < b.
Proof using. clear. intros. dlia. Qed.

Lemma find_loop_complete fuel p i r lo hi :
  StronglySorted Z.lt (leader <$> p) → p !! i = Some r →
  0 <= lo <= Z.of_nat i → Z.of_nat i < hi <= Z.of_nat (length p) → hi - lo < Z.of_nat fuel →
  find_loop fuel p (leader r) lo hi = Some r.
Proof using.
  intros Hs Hi. revert lo hi. induction fuel as [|fuel IH]; intros lo hi Hlo Hhi Hf; [lia|]. cbn [find_loop].
  destruct (Z.ltb_spec lo hi); [|lia]. cbv zeta. set (mid := lo + (hi - lo) / 2).
  assert (lo <= mid < hi) as Hm by (by apply midpoint).
  destruct (p !! Z.to_nat mid) as [r'|] eqn:Hr'; [|apply lookup_ge_None in Hr'; lia].
  assert (∀ j k x y, p !! j = Some x → p !! k = Some y → (j < k)%nat → leader x < leader y) as Hmono.
  { intros j k x y Hj Hk Hjk. eapply (StronglySorted_index Z.lt (leader <$> p) j k); [done|by rewrite list_lookup_fmap, ?Hj, ?Hk..|done]. }
  destruct (lt_eq_lt_dec i (Z.to_nat mid)) as [[Hlt|Heq]|Hgt].
  - pose proof (Hmono _ _ _ _ Hi Hr' Hlt). destruct (Z.eqb_spec (leader r') (leader r)); [lia|].
    destruct (Z.ltb_spec (leader r') (leader r)); [lia|]. apply IH; lia.
  - rewrite <-Heq, Hi in Hr'. injection Hr' as <-. by rewrite Z.eqb_refl.
  - pose proof (Hmono _ _ _ _ Hr' Hi Hgt). destruct (Z.eqb_spec (leader r') (leader r)); [lia|].
    destruct (Z.ltb_spec (leader r') (leader r)); [|lia]. apply IH; lia.
Qed.

(** ** A cache hit is a fresh scan *)
Definition cached_run (from : Z) : list bs_precover_insn := run_of (S (Z.to_nat len)) from.

Lemma build_spec covered p :
  Forall (λ l, 0 <= l) covered → asmtest_bs_precover_build always covered = Some p →
  p = omap (λ l, if (len <=? l) || (len_at l =? 0) then None else Some (mk_run l (cached_run l))) covered.
Proof.
  intros Hc. unfold asmtest_bs_precover_build. destruct (_ || _); [done|]. cbn [always negb].
  set (f := λ l, if len <=? l then None else _). set (g := λ l, if (len <=? l) || (len_at l =? 0) then None else _).
  assert (omap f covered = omap g covered) as ->; [|by case_match; intros [= <-]].
  apply list_omap_ext, Forall2_same_length_lookup. split; [done|]. intros i x y Hx Hy. assert (x = y) as -> by congruence.
  eapply Forall_lookup_1 in Hc; [|exact Hx]. unfold f, g. destruct (Z.leb_spec len y); [done|].
  rewrite cache_loop_spec by (unfold SIZE_MAX; lia). unfold cached_run. cbn [run_of orb].
  destruct (Z.leb_spec len y); [lia|]. cbn [orb]. by destruct (len_at y =? 0).
Qed.

Lemma build_sorted covered p :
  StronglySorted Z.lt covered → Forall (λ l, 0 <= l) covered → asmtest_bs_precover_build always covered = Some p →
  StronglySorted Z.lt (leader <$> p).
Proof.
  intros Hs Hc ->%build_spec; [|done]. eapply StronglySorted_sublist; [|exact Hs]. clear.
  induction covered as [|l c IH]; [constructor|]. cbn [omap list_omap]. destruct (_ || _); [by apply sublist_cons|].
  rewrite fmap_cons. by apply sublist_skip.
Qed.

Lemma precover_agrees covered p st from next_pc s :
  StronglySorted Z.lt covered → Forall (λ l, 0 <= l) covered →
  asmtest_bs_precover_build always covered = Some p → 0 <= from →
  let '(st1, (rc1, s1)) := blockstep_reconstruct (Some p) st from next_pc s in
  let '(st2, (rc2, s2)) := blockstep_reconstruct None st from next_pc s in
  s1 = s2 ∧
  (rc1 = rc2 ∨ closed (cached_run from) = false ∧ rc1 = RC_OK ∧ rc2 = RC_AMBIGUOUS) ∧
  (from ∈ covered → from < len → len_at from ≠ 0 →
   st1 = mk_stats (probe_calls st) (precover_hits st +64 1)).
Proof.
  intros Hsorted Hpos Hbuild Hfrom.
  unfold blockstep_reconstruct. cbn [bs_precover_find].
  destruct (find_loop _ p from 0 _) as [r|] eqn:Ef.
  - apply find_loop_sound in Ef as [Hr Hl]. apply build_spec in Hbuild as ->; [|done].
    apply list_elem_of_omap in Hr as (l & _ & Hr). destruct (_ || _); [done|]. injection Hr as <-. simpl in Hl. subst l.
    unfold reconstruct_fresh, blockstep_reconstruct_precover, bs_precover_scan_terminator, asmtest_bs_scan_terminator. cbn [insns].
    pose proof (scan_run_spec (S (Z.to_nat len)) next_pc (probe_calls st) from 0 0 ltac:(lia) ltac:(lia) ltac:(lia) ltac:(lia)) as Hv.
    destruct (scan_loop _ _ _ _ _ _ _) as [calls v]. cbn [snd] in Hv. cbv zeta in Hv. fold (cached_run from) in Hv.
    set (v1 := scan_run (cached_run from) next_pc 0 0) in *.
    assert (term_of v = term_of v1) as Et by (rewrite Hv; destruct (closed _); [done|apply term_unproven]).
    rewrite Et. destruct (term_of v1) as [t|] eqn:Et1; [|simpl; split_and!; auto].
    destruct (scan_run_term _ _ _ _ _ Et1) as [Ht|[_ []]]; [|done].
    unfold bs_record_run. rewrite (emit_run_spec _ from t) by done. fold (cached_run from).
    destruct (emit_run (cached_run from) t (unrep s)) as [[|] s']; [|simpl; split_and!; auto].
    split_and!; [done| |done]. rewrite Hv. clear Hv Et. destruct (closed (cached_run from)); [by left|].
    destruct v1 as [|t1|t1]; simpl; auto. destruct (rep s'); auto.
  - destruct (reconstruct_fresh _ _ _ _) as [calls [rc s']]. split_and!; [done|by left|].
    intros Hin Hlt Hne. exfalso. pose proof (build_sorted _ _ Hsorted Hpos Hbuild) as Hs.
    apply build_spec in Hbuild; [|done].
    assert (mk_run from (cached_run from) ∈ p) as [i Hi]%list_elem_of_lookup.
    { rewrite Hbuild. apply list_elem_of_omap. exists from. split; [done|].
      destruct (Z.leb_spec len from); [lia|]. by destruct (Z.eqb_spec (len_at from) 0). }
    pose proof (lookup_lt_Some _ _ _ Hi).
    pose proof (find_loop_complete (S (length p)) p i _ 0 (Z.of_nat (length p)) Hs Hi ltac:(lia) ltac:(lia) ltac:(lia)) as Hf.
    simpl leader in Hf. rewrite Hf in Ef. done.
Qed.

(** C33: the pre-cover cache changes the cost of a reconstruction, not the stream.
    For a table built (with memory enough) from ascending leaders, every leader
    that decodes hits, a hit records exactly the offsets a fresh scan and walk of
    the code record, and the verdicts agree, except that a run the code leaves
    open (it runs into the end of the region or into bytes that do not decode) can
    be called certain by the cache where the fresh scan says ambiguous. *)
Theorem precover_equiv covered p st from next_pc s
    (Hsorted : StronglySorted Z.lt covered) (Hpos : Forall (λ l, 0 <= l) covered)
    (Hbuild : asmtest_bs_precover_build always covered = Some p) (Hfrom : 0 <= from) :
  let '(st1, (rc1, s1)) := blockstep_reconstruct (Some p) st from next_pc s in
  let '(st2, (rc2, s2)) := blockstep_reconstruct None st from next_pc s in
  s1 = s2 ∧
  (rc1 = rc2 ∨ closed (cached_run from) = false ∧ rc1 = RC_OK ∧ rc2 = RC_AMBIGUOUS) ∧
  (from ∈ covered → from < len → len_at from ≠ 0 →
   st1 = mk_stats (probe_calls st) (precover_hits st +64 1)).
Proof.
  by apply (precover_agrees covered).
Qed.

(** ** What really ran *)
Section real.
Context (Hbase : 0 <= base_ip) (Hend : base_ip + len < 2 ^ 64).

(** The instructions of a straight run from [o] to [t]. *)
Inductive straight (pc : Z) : Z → Z → list Z → Prop :=
| st_end t : decodes len t → straight pc t t [t]
| st_next o t l : decodes len o → passes pc o → straight pc (o + len_at o) t l → straight pc o t (o :: l).

(** A block that ran from [from] to its branch at [t], which reached [pc]; one
    without a static target did not reach an address a branch before it names. *)
Record ran (from t : Z) (l : list Z) (pc : Z) : Prop := {
  ran_straight : straight pc from t l;
  ran_kind : kind_at pc t ∈ [BR_COND_HIT; BR_HARD_HIT; BR_HARD_UNKNOWN];
  ran_alone : kind_at pc t = BR_HARD_UNKNOWN → ∀ t', terminator len pc from t' → t' = t;
}.

Lemma straight_falls pc o t l : straight pc o t l → falls_to len pc o t ∧ decodes len t.
Proof. induction 1 as [|o t l Hd Hp _ [IH ?]]; [split; [constructor|done]|]. split; [by econstructor|done]. Qed.

Lemma straight_le pc o t l : 0 <= o → straight pc o t l → o <= t.
Proof.
  intros Ho Hs. induction Hs as [|o t l [Hlt _] Hp _ IH]; [lia|]. pose proof (Hok o ltac:(lia)). lia.
Qed.

Lemma record_straight pc o t l rounds s :
  0 <= o → straight pc o t l → len - o < Z.of_nat rounds →
  match record_loop rounds t o s with
  | (true, s') => s' = mk_rec (stream s ++ l) t (rep s || existsb disas_is_rep_string l)
  | (false, s') => PTRACE_STREAM_CAP < Z.of_nat (length (stream s ++ l))
  end.
Proof.
  intros Ho Hs. revert rounds s. induction Hs as [t [Hlt Hne]|o t l [Hlt Hne] Hp Hs IH]; intros rounds s Hr;
    (destruct rounds as [|rounds]; [lia|]); cbn [record_loop]; pose proof (Hok _ (conj Ho Hlt)) as Hl; rewrite Hdis.
  - destruct (Z.leb_spec len t); [lia|]. rewrite Z.ltb_irrefl. cbn [orb]. unfold full.
    destruct (Z.leb_spec PTRACE_STREAM_CAP (Z.of_nat (length (stream s)))); [rewrite length_app; simpl; lia|].
    destruct (Z.eqb_spec (len_at t) 0); [done|]. rewrite Z.eqb_refl. unfold record. simpl. by rewrite orb_false_r.
  - assert (o + len_at o <= t) as Hge by (eapply straight_le; [|exact Hs]; lia).
    destruct (Z.leb_spec len o); [lia|]. destruct (Z.ltb_spec t o); [lia|]. cbn [orb]. unfold full.
    destruct (Z.leb_spec PTRACE_STREAM_CAP (Z.of_nat (length (stream s)))); [rewrite length_app; simpl; lia|].
    destruct (Z.eqb_spec (len_at o) 0); [done|]. destruct (Z.eqb_spec o t); [lia|]. rewrite u64_small by lia.
    assert (0 <= o + len_at o) as Ho' by lia. assert (len - (o + len_at o) < Z.of_nat rounds) as Hr' by lia.
    specialize (IH Ho' rounds (record s o (disas_is_rep_string o)) Hr').
    destruct (record_loop _ _ _ _) as [[|] s'].
    + rewrite IH. unfold record. simpl. by rewrite <-!app_assoc, <-orb_assoc.
    + unfold record in IH. simpl in IH. by rewrite <-app_assoc in IH.
Qed.

(** A block called certain is the block that ran. *)
Lemma reconstruct_sound calls from t l pc s rc s' calls' :
  0 <= from → ran from t l pc → reconstruct_fresh calls from pc s = (calls', (rc, s')) →
  rc = RC_OK → stream s' = stream s ++ l ∧ last_off s' = t.
Proof.
  intros Hf [Hs Hk Ha] E ->. unfold reconstruct_fresh in E.
  assert (terminator len pc from t) as Ht by (split; [by apply straight_falls in Hs as [? _]|split; [by apply straight_falls in Hs as [_ ?]|done]]).
  unfold asmtest_bs_scan_terminator in E.
  pose proof (scan_loop_spec len pc (S (Z.to_nat len)) calls from 0 0 Hok Hf ltac:(lia) ltac:(lia) ltac:(lia) ltac:(lia)) as Sv.
  destruct (scan_loop _ _ _ _ _ _ _) as [c v]. cbn [snd] in Sv. injection E as _ E.
  destruct v as [|t0|t0]; cbn [term_of] in E; [done| |].
  - assert (t0 = t) as ->.
    { simpl in Sv. destruct Sv as [(_ & Ht0 & Hall)|[? _]]; [|done]. destruct (Hall t Ht) as [_ [->|Hu]]; [done|]. by apply Ha. }
    unfold bs_record_run in E. pose proof (record_straight pc from t l (S (Z.to_nat len)) (unrep s) Hf Hs ltac:(lia)) as R.
    destruct (record_loop _ _ _ _) as [[|] s1]; [|done]. injection E as Er <-. by rewrite R.
  - destruct (bs_record_run from t0 (unrep s)) as [[|] s1]; done.
Qed.

(** The stops of a routine that runs from [from]: unrelated signals, blocks that
    stay in the region, blocks that call out and come back, and the block that
    returns. *)
Inductive routine : Z → list stop → list Z → Z → Prop :=
| rt_skip from stops offs rv : routine from stops offs rv → routine from (SNotStopped :: stops) offs rv
| rt_signal from sig stops offs rv : is_fault sig = false → routine from stops offs rv → routine from (SSignal sig :: stops) offs rv
| rt_block from t l pc a sp stops offs rv :
    ran from t l pc → in_region pc = true → routine (pc - base_ip) stops offs rv →
    routine from (STrap pc a sp :: stops) (l ++ offs) rv
| rt_callout from t l pc a sp r stops offs rv :
    ran from t l pc → in_region pc = false → classify_region_exit t sp = EXIT_CALLOUT_RESUMED r →
    routine r stops offs rv → routine from (STrap pc a sp :: stops) (l ++ offs) rv
| rt_return from t l pc rv sp stops :
    ran from t l pc → in_region pc = false → classify_region_exit t sp = EXIT_RETURNED →
    routine from (STrap pc rv sp :: stops) l rv.

(** A cache that answers as the fresh scan does. *)
Definition agrees (p : option precover) : Prop := ∀ st from pc s, 0 <= from →
  (blockstep_reconstruct p st from pc s).2 = (blockstep_reconstruct None st from pc s).2.

Lemma in_region_off pc : in_region pc = true → 0 <= pc - base_ip ∧ pc -64 base_ip = pc - base_ip.
Proof.
  unfold in_region. rewrite (u64_small (base_ip + len)) by lia. intros [H1%Z.leb_le H2%Z.ltb_lt]%andb_true_iff.
  split; [lia|]. apply u64_small. lia.
Qed.

Lemma drive_routine p from stops offs rv : agrees p → routine from stops offs rv → 0 <= from →
  ∀ st s ov, ∃ st' rc s' ov' res, drive p stops st (Some from) s ov = Some (st', (rc, s', ov', res)) ∧ rc = PTRACE_OK ∧
    (ov' = false → ov = false ∧ stream s' = stream s ++ offs ∧ res = Some rv).
Proof.
  intros Hag Hr. induction Hr as [from stops offs rv _ IH|from sig stops offs rv Hsig _ IH
    |from t l pc a sp stops offs rv Hran Hin _ IH|from t l pc a sp r stops offs rv Hran Hout Hc _ IH
    |from t l pc rv sp stops Hran Hout Hc]; intros Hf st s ov; cbn [drive].
  1: by apply IH.
  1: rewrite Hsig; by apply IH.
  all: pose proof (Hag st from pc s Hf) as Eb; destruct (blockstep_reconstruct p st from pc s) as [st1 [br s1]];
    unfold blockstep_reconstruct in Eb; cbn [bs_precover_find snd] in Eb;
    destruct (reconstruct_fresh (probe_calls st) from pc s) as [calls [br' s1']] eqn:Er; simpl in Eb;
    injection Eb as -> ->; pose proof (reconstruct_sound _ _ _ _ _ _ _ _ _ Hf Hran Er) as Hs.
  - destruct (in_region_off pc Hin) as [Hp0 ->].
    destruct br'; [by eexists _, _, _, true, _|..]; rewrite Hin;
      [rewrite bool_decide_false by done|rewrite bool_decide_true by done]; cbn [orb];
      match goal with |- context [drive p stops ?a ?b ?c ?d] => destruct (IH Hp0 a c d) as (st2 & rc & s2 & ov2 & res & -> & -> & Hrec) end;
      (eexists _, _, _, _, _; split; [reflexivity|]; split; [done|]; intros ->; destruct (Hrec eq_refl) as (Ho & Hst & Hres)).
    + destruct (Hs eq_refl) as [E1 _]. rewrite orb_false_r in Ho. split_and!; [done|by rewrite Hst, E1, app_assoc|done].
    + by rewrite orb_true_r in Ho.
  - destruct br'; [by eexists _, _, _, true, _|..]; rewrite Hout;
      [rewrite bool_decide_false by done|rewrite bool_decide_true by done; by eexists _, _, _, true, _]. cbn [orb].
    destruct (Hs eq_refl) as [E1 ->]. rewrite Hc, orb_false_r.
    assert (0 <= r) as Hr0.
    { revert Hc. unfold classify_region_exit. repeat case_match; try done. intros [= <-]. apply u64_range. }
    destruct (IH Hr0 st1 s1' ov) as (st2 & rc & s2 & ov2 & res & -> & -> & Hrec).
    eexists _, _, _, _, _. split; [reflexivity|]. split; [done|]. intros ->. destruct (Hrec eq_refl) as (Ho & Hst & Hres).
    split_and!; [done|by rewrite Hst, E1, app_assoc|done].
  - destruct br'; [by eexists _, _, _, true, _|..]; rewrite Hout;
      [rewrite bool_decide_false by done|rewrite bool_decide_true by done; by eexists _, _, _, true, _]. cbn [orb].
    destruct (Hs eq_refl) as [E1 ->]. rewrite Hc, orb_false_r. eexists _, _, _, _, _. split; [reflexivity|]. split; [done|].
    intros ->. by split_and!.
Qed.

(** ** The trace of a stream *)
(** Every instruction in order, and a block wherever control did not fall through
    from the one before. *)
Fixpoint events (prev_end : option Z) (offs : list Z) : list event :=
  match offs with
  | [] => []
  | o :: offs =>
      (if decide (prev_end = Some o) then [] else [EBlock o]) ++ EInsn o :: events (Some (o + len_at o)) offs
  end.

Lemma normalize_run sq offs t :
  Forall (λ o, 0 <= o ∧ decodes len o) offs →
  normalize_loop sq offs false t =
  run t (events (if Descent.have_prev sq then Some (Descent.expected_next sq) else None) offs).
Proof.
  intros Hd. revert sq t. induction Hd as [|o offs [Ho [Hlt Hne]] _ IH]; intros sq t; [done|]. cbn [normalize_loop events].
  unfold Descent.asmtest_blockseq_boundary. rewrite Hdis. pose proof (Hok o (conj Ho Hlt)).
  rewrite (proj2 (Z.eqb_neq _ _) Hne). rewrite u64_small by lia. rewrite IH. unfold run. simpl.
  destruct sq as [[|] e]; simpl.
  - destruct (Z.eqb_spec o e) as [->|Hn]; simpl; [by rewrite decide_True|by rewrite decide_False by congruence].
  - done.
Qed.

Lemma normalize_overflow sq offs t : truncated (normalize_loop sq offs true t) = true.
Proof.
  revert sq t. induction offs as [|o offs IH]; intros sq t; [done|]. cbn [normalize_loop].
  destruct (Descent.asmtest_blockseq_boundary sq o (disas_len o)) as [nb sq']. by destruct (disas_len o =? 0).
Qed.

Lemma straight_decodes pc o t l : 0 <= o → straight pc o t l → Forall (λ o, 0 <= o ∧ decodes len o) l.
Proof.
  intros Ho Hs. induction Hs as [|o t l Hd Hp _ IH]; [constructor; [done|constructor]|]. constructor; [done|].
  apply IH. destruct Hd as [Hlt _]. pose proof (Hok o (conj Ho Hlt)). lia.
Qed.
Lemma routine_decodes from stops offs rv :
  0 <= from → routine from stops offs rv → Forall (λ o, 0 <= o ∧ decodes len o) offs.
Proof.
  intros Hf Hr. induction Hr as [| |? ? ? ? ? ? ? ? ? Hran Hin _ IH|? ? ? ? ? ? ? ? ? ? Hran Hout Hc _ IH|? ? ? ? ? ? ? Hran ? ?]; auto.
  - apply Forall_app. split; [by eapply straight_decodes; [|apply Hran]|]. apply IH. by apply in_region_off.
  - apply Forall_app. split; [by eapply straight_decodes; [|apply Hran]|]. apply IH.
    revert Hc. unfold classify_region_exit. repeat case_match; try done. intros [= <-]. apply u64_range.
  - by eapply straight_decodes; [|apply Hran].
Qed.

(** The way into the region. *)
Definition glue_stop (x : stop) : Prop :=
  match x with
  | SNotStopped => True
  | SSignal sig => is_fault sig = false
  | STrap pc _ _ => in_region pc = false
  | _ => False
  end.
Lemma drive_glue p glue stops st s ov :
  Forall glue_stop glue → drive p (glue ++ stops) st None s ov = drive p stops st None s ov.
Proof.
  induction 1 as [|x glue Hx _ IH]; [done|]. cbn [app drive]. destruct x; simpl in Hx; try done.
  - by rewrite Hx.
  - by rewrite Hx.
Qed.

(** The caches [asmtest_bs_precover_build] makes agree when every run is closed. *)
Lemma built_agrees covered p :
  StronglySorted Z.lt covered → Forall (λ l, 0 <= l) covered → Forall (λ l, closed (cached_run l) = true) covered →
  asmtest_bs_precover_build always covered = Some p → agrees (Some p).
Proof.
  intros Hs Hp Hc Hb st from pc s Hf. pose proof (precover_agrees covered p st from pc s Hs Hp Hb Hf) as Ha.
  assert (closed (cached_run from) = false → bs_precover_find (Some p) from = None) as Hmiss.
  { intros Hcl. destruct (bs_precover_find (Some p) from) as [r|] eqn:Ef; [|done]. exfalso.
    apply find_loop_sound in Ef as [Hr Hl]. apply build_spec in Hb as ->; [|done].
    apply list_elem_of_omap in Hr as (l & Hin & Hr). destruct (_ || _); [done|]. injection Hr as <-. simpl in Hl. subst l.
    rewrite Forall_forall in Hc. by rewrite (Hc from Hin) in Hcl. }
  destruct (closed (cached_run from)) eqn:Ecl.
  - destruct (blockstep_reconstruct (Some p) st from pc s) as [st1 [rc1 s1]], (blockstep_reconstruct None st from pc s) as [st2 [rc2 s2]].
    destruct Ha as (-> & [->|[? _]] & _); done.
  - unfold blockstep_reconstruct. by rewrite Hmiss.
Qed.

(** C31: a block-step capture that is not flagged is exact, but for one documented
    residual.  Take a routine whose stops the loop is given (with unrelated signals,
    calls out of the region and native-speed entry in between; which exit is a call
    out and which the return being as the exit classifier says), each of whose blocks
    decodes up to the branch that ended it, and in which no return or indirect branch
    reaches an address that a branch passed over earlier in its block names as its
    target (the reconstruction then takes the earlier branch for the end of the block,
    unflagged: the residual of [bs_recon.h]).  With memory for the stream granted the
    capture terminates with success; if the trace is not flagged truncated, it holds
    every executed instruction in order with a block at every transfer of control,
    and the result is the routine's.  The same holds with a pre-cover cache of closed
    runs. *)
Theorem blockstep_exact p covered grant st glue pc a sp stops offs rv t
    (Hp : p = None ∨ StronglySorted Z.lt covered ∧ Forall (λ l, 0 <= l) covered ∧
          Forall (λ l, closed (cached_run l) = true) covered ∧ p = asmtest_bs_precover_build always covered)
    (Hgrant : grant (PTRACE_STREAM_CAP * 8) = true) (Hne : len ≠ 0)
    (Hglue : Forall glue_stop glue) (Hin : in_region pc = true)
    (Hreal : routine (pc - base_ip) stops offs rv) :
  ∃ st' res t', asmtest_ptrace_trace_call_blockstep true true grant true p (glue ++ STrap pc a sp :: stops) st (Some t)
    = Some (st', (PTRACE_OK, res, Some t')) ∧
    (truncated t' = false → res = Some rv ∧ t' = run t (events None offs)).
Proof.
  assert (agrees p) as Hag.
  { destruct Hp as [->|(Hs & Hc & Hcl & Ep)]; [by intros ? ? ? ? ?|]. destruct p as [p|]; [|by intros ? ? ? ? ?].
    by apply (built_agrees covered). }
  unfold asmtest_ptrace_trace_call_blockstep. rewrite (proj2 (Z.eqb_neq _ _) Hne), Hgrant. cbn [negb orb].
  rewrite drive_glue by done. cbn [drive]. rewrite Hin. destruct (in_region_off pc Hin) as [Hp0 ->].
  destruct (drive_routine p _ stops offs rv Hag Hreal Hp0 st (mk_rec [] 0 false) false)
    as (st' & rc & s' & ov & res & -> & -> & Hrec).
  eexists _, _, _. split; [reflexivity|]. intros Ht. destruct ov; [by rewrite normalize_overflow in Ht|].
  destruct (Hrec eq_refl) as (_ & Hst & ->). split; [done|]. simpl in Hst. rewrite Hst.
  apply (normalize_run (Descent.mk_blockseq false 0)). by eapply routine_decodes.
Qed.
End real.
End recon.

(** ** Witnesses *)
(** [dec; jne 0; ret] at 4096. *)
Definition loop_code : Decoder := {|
  disas_probe off :=
    if (off =? 0) || (off =? 2) then (2, false, false) else if off =? 4 then (1, false, true) else (0, false, false);
  disas_is_branch off := (off =? 2) || (off =? 4);
  disas_branch_target off := if off =? 2 then Some 4096 else None;
  disas_is_uncond_jump _ := false;
|}.
Definition plain (d : Decoder) : Disas := {|
  disas_len off := (disas_probe off).1.1;
  disas_is_rep_string _ := false; disas_is_call _ := false; disas_available := true;
|}.
Lemma loop_code_ok : decoder_ok (H := loop_code) 5.
Proof.
  intros off Hoff. unfold len_at. simpl.
  destruct (Z.eqb_spec off 0), (Z.eqb_spec off 2), (Z.eqb_spec off 4); simpl; lia.
Qed.

(** Two rounds of the loop, then the return to 9. *)
Lemma loop_routine :
  routine (H := loop_code) (H0 := plain loop_code) 5 4096 (λ _ _, true) 0
    [STrap 4096 0 0; SSignal 17; STrap 9 42 0] [0; 2; 0; 2; 4] 42.
Proof.
  apply (rt_block (H := loop_code) (H0 := plain loop_code) 5 4096 (λ _ _, true) 0 2 [0; 2] 4096 0 0
    [SSignal 17; STrap 9 42 0] [0; 2; 4] 42); [|reflexivity|].
  { split.
    - apply st_next; [by split|unfold passes; change (kind_at _ _) with BR_NONE; kinds|]. apply st_end. by split.
    - change (kind_at _ _) with BR_COND_HIT. kinds.
    - by change (kind_at _ _) with BR_COND_HIT. }
  apply rt_signal; [done|]. apply (rt_return (H := loop_code) (H0 := plain loop_code) 5 4096 (λ _ _, true) 0 4 [0; 2; 4] 9 42 0 []);
    [|reflexivity|reflexivity]. split.
  - apply st_next; [by split|unfold passes; change (kind_at _ _) with BR_NONE; kinds|].
    apply st_next; [by split|unfold passes; change (kind_at _ _) with BR_COND_MISS; kinds|]. apply st_end. by split.
  - change (kind_at _ _) with BR_HARD_UNKNOWN. kinds.
  - intros _ t' [(-> & _ & Hk)|(_ & _ & Ht)]%terminator_inv.
    { exfalso. change (kind_at _ _) with BR_NONE in Hk. kinds. }
    change (0 + _) with 2 in Ht. apply terminator_inv in Ht as [(-> & _ & Hk)|(_ & _ & Ht)].
    { exfalso. change (kind_at _ _) with BR_COND_MISS in Hk. kinds. }
    change (2 + _) with 4 in Ht. apply terminator_inv in Ht as [(-> & _)|(_ & Hp & _)]; [done|].
    exfalso. unfold passes in Hp. change (kind_at _ _) with BR_HARD_UNKNOWN in Hp. kinds.
Qed.

Definition sink : asmtest_trace :=
  Trace.mk_trace (Some (replicate 16 0)) 16 0 0 (Some (replicate 4 0)) 4 0 0 false.

Lemma blockstep_exact_witness :
  let p := asmtest_bs_precover_build (H := loop_code) (H0 := plain loop_code) 5 always [0] in
  ∃ st' res t', asmtest_ptrace_trace_call_blockstep (H := loop_code) (H0 := plain loop_code) 5 4096 (λ _ _, true)
      true true always true p [STrap 9 0 0; STrap 4096 0 0; STrap 4096 0 0; SSignal 17; STrap 9 42 0] asmtest_bs_stats_reset (Some sink)
    = Some (st', (PTRACE_OK, res, Some t')) ∧ truncated t' = false ∧ res = Some 42 ∧ stored_insns t' = [0; 2; 0; 2; 4] ∧
      stored_blocks t' = [0].
Proof.
  intros p.
  assert (Forall (glue_stop 5 4096) [STrap 9 0 0]) as Hg by (constructor; [reflexivity|constructor]).
  destruct (blockstep_exact (H := loop_code) (H0 := plain loop_code) 5 4096 (λ _ _, true) ltac:(lia) loop_code_ok
    (λ o, eq_refl) ltac:(lia) ltac:(lia) p [0] always asmtest_bs_stats_reset [STrap 9 0 0] 4096 0 0
    [STrap 4096 0 0; SSignal 17; STrap 9 42 0] [0; 2; 0; 2; 4] 42 sink) as (st' & res & t' & E & Hex).
  - right. split_and!; [repeat constructor|repeat constructor; lia|repeat constructor|reflexivity].
  - reflexivity.
  - lia.
  - exact Hg.
  - reflexivity.
  - exact loop_routine.
  - exists st', res, t'. split; [exact E|].
    assert (truncated t' = false) as Ht by (vm_compute in E; injection E as _ _ <-; reflexivity).
    destruct (Hex Ht) as [-> ->]. split_and!; [exact Ht|reflexivity|vm_compute; reflexivity|vm_compute; reflexivity].
Defined.

Lemma precover_equiv_witness :
  let recon p := blockstep_reconstruct (H := loop_code) (H0 := plain loop_code) 5 p asmtest_bs_stats_reset 0 4096 (mk_rec [] 0 false) in
  ∃ p, asmtest_bs_precover_build (H := loop_code) (H0 := plain loop_code) 5 always [0] = Some p ∧
    recon (Some p) = (mk_stats 0 1, (RC_OK, mk_rec [0; 2] 2 false)) ∧
    let '(_, (_, s1)) := recon (Some p) in let '(_, (_, s2)) := recon None in s1 = s2.
Proof.
  assert (StronglySorted Z.lt [0]) as Hs by repeat constructor.
  assert (Forall (λ l, 0 <= l) [0]) as Hf by (constructor; [lia|constructor]).
  eexists. split; [vm_compute; reflexivity|]. split; [vm_compute; reflexivity|].
  pose proof (precover_equiv (H := loop_code) (H0 := plain loop_code) 5 ltac:(lia) loop_code_ok (λ o, eq_refl) [0] _
    asmtest_bs_stats_reset 0 4096 (mk_rec [] 0 false) Hs Hf eq_refl (Z.le_refl 0)) as Hp.
  exact (proj1 Hp).
Defined.

(** A cached run can pass for certain where the code proves nothing.  In the
    region [je 100; nop], whose run falls out of the region, a stop at 100 is
    ambiguous for the fresh scan, and the capture is flagged truncated; with the
    leader in the pre-cover cache the same stops give a trace that is not. *)
Theorem precover_overclaims :
  let call p := asmtest_ptrace_trace_call_blockstep (H := dual_guard) (H0 := plain dual_guard) 3 4096 (λ _ _, true)
    true true always true p [STrap 4096 0 0; STrap 100 42 0] asmtest_bs_stats_reset (Some sink) in
  ∃ p st1 st2 res1 t1 t2,
    asmtest_bs_precover_build (H := dual_guard) (H0 := plain dual_guard) 3 always [0] = Some p ∧
    call None = Some (st1, (PTRACE_OK, res1, Some t1)) ∧ truncated t1 = true ∧
    call (Some p) = Some (st2, (PTRACE_OK, Some 42, Some t2)) ∧ truncated t2 = false ∧ res1 = None.
Proof.
  eexists _, _, _, _, _, _. split; [vm_compute; reflexivity|]. split; [vm_compute; reflexivity|].
  split; [vm_compute; reflexivity|]. split; [vm_compute; reflexivity|]. split; vm_compute; reflexivity.
Qed.
End BlockStep.
