(* ===== verification/Amd.v ===== *)
(** Replaying a branch stack ([src/amd_backend.c]): from the taken branches the
    hardware recorded, back to the instructions and blocks that ran; and splicing
    the overlapping stacks of many samples into one. *)
From S2P Require Import Prelude Trace BsRecon.
Import Trace BsRecon.

Module Amd.

(** [struct perf_branch_entry], the fields the code reads. *)
Record perf_branch_entry := mk_br { br_from : Z; br_to : Z; br_abort : bool; br_spec : Z }.
#[export] Instance perf_branch_entry_eq_dec : EqDecision perf_branch_entry.
Proof. solve_decision. Defined.

Definition ASMTEST_PERF_BR_SPEC_WRONG_PATH : Z := 1.
Definition ASMTEST_HW_OK : Z := 0.
Definition ASMTEST_HW_EDECODE : Z := -8.
Definition ASMTEST_HW_ENOSYS : Z := -5.

(** [trace->truncated = true] *)
Definition set_truncated (t : asmtest_trace) : asmtest_trace :=
  mk_trace (insns t) (insns_cap t) (insns_len t) (insns_total t) (blocks t)
    (blocks_cap t) (blocks_len t) (blocks_total t) true.

Section replay.
(** The registered code: its decoding, its address and its length. *)
Context `{Decoder} (base_ip len : Z).

Definition end_ip : Z := base_ip +64 len.
(** [ip >= base_ip && ip < end_ip] *)
Definition in_region (ip : Z) : bool := (base_ip <=? ip) && (ip <? end_ip).

(** The two passes of [amd_entry_fill]: [None] is a [return 0] of the first. *)
Fixpoint entry_clean (fuel : nat) (target o : Z) : option unit :=
  match fuel with
  | O => Some tt
  | S fuel =>
      if o <? target then
        let '(l, _, is_ret) := disas_probe o in
        if (l =? 0) || is_ret then None
        else if disas_is_branch o then None
        else if target <? o +64 l then None
        else entry_clean fuel target (o +64 l)
      else Some tt
  end.
Fixpoint entry_commit (fuel : nat) (target o : Z) (t : asmtest_trace) : asmtest_trace * bool :=
  match fuel with
  | O => (t, true)
  | S fuel =>
      if o <? target then
        let '(l, _, _) := disas_probe o in
        if l =? 0 then (t, false)
        else entry_commit fuel target (o +64 l) (append_insn t o)
      else (t, true)
  end.
Definition amd_entry_fill (target_ip : Z) (t : asmtest_trace) : asmtest_trace * bool :=
  if (target_ip <=? base_ip) || (base_ip +64 len <? target_ip) then (t, false)
  else
    let target := target_ip -64 base_ip in
    match entry_clean (S (Z.to_nat target)) target 0 with
    | None => (t, false)
    | Some _ => entry_commit (S (Z.to_nat target)) target 0 t
    end.

(** The decode of one run, one round per value of [guard]; [false] is an early
    return of [amd_replay]. *)
Fixpoint walk (rounds : nat) (from_off o : Z) (t : asmtest_trace) : asmtest_trace * bool :=
  match rounds with
  | O => (set_truncated t, false)
  | S rounds =>
      let '(l, is_call, _) := disas_probe o in
      if l =? 0 then (set_truncated t, false)
      else
        let t := append_insn t o in
        if o =? from_off then (t, true)
        else
          let next := o +64 l in
          let fall :=
            if from_off <? next then (set_truncated t, false)
            else walk rounds from_off next (if disas_is_branch o then append_block t next else t) in
          if disas_is_branch o then
            match disas_branch_target o with
            | None => (set_truncated t, false)
            | Some tgt =>
                if is_call then (set_truncated t, false)
                else if disas_is_uncond_jump o then
                  if negb (in_region tgt) then (set_truncated t, false)
                  else if from_off <? tgt -64 base_ip then (set_truncated t, false)
                  else walk rounds from_off (tgt -64 base_ip) (append_block t (tgt -64 base_ip))
                else fall
            end
          else fall
  end.

(** The records of the main loop, oldest first; the position afterwards, or
    [None] when the function has returned. *)
Fixpoint replay_loop (brs : list perf_branch_entry) (ip : Z) (entered : bool) (t : asmtest_trace) :
    asmtest_trace * option Z :=
  match brs with
  | [] => (t, Some ip)
  | e :: brs =>
      if br_abort e || (br_spec e =? ASMTEST_PERF_BR_SPEC_WRONG_PATH)
      then replay_loop brs ip entered t
      else
        let from := br_from e in
        let to := br_to e in
        let decode := in_region ip && (ip <=? from) && (from <? end_ip) in
        let '(t, ok) :=
          if decode then walk (S (Z.to_nat len)) (from -64 base_ip) (ip -64 base_ip) t
          else (t, true) in
        let entered := entered || decode in
        if negb ok then (t, None)
        else if in_region to then
          let '(t, filled) :=
            if negb entered && (base_ip <? to) then
              let '(t, filled) := amd_entry_fill to t in
              (if filled then t else set_truncated t, filled)
            else (t, false) in
          replay_loop brs to true (if filled then t else append_block t (to -64 base_ip))
        else replay_loop brs to entered t
  end.

(** The first pass of the trailing fill: [exit_end], 0 when no exit is reached. *)
Fixpoint tail_probe (rounds : nat) (o : Z) : Z :=
  match rounds with
  | O => 0
  | S rounds =>
      if o <? len then
        let '(l, _, is_ret) := disas_probe o in
        if l =? 0 then 0
        else if is_ret then o +64 l
        else if disas_is_branch o then
          if disas_is_uncond_jump o then
            match disas_branch_target o with
            | Some tgt => if in_region tgt then 0 else o +64 l
            | None => 0
            end
          else 0
        else tail_probe rounds (o +64 l)
      else 0
  end.
Fixpoint tail_commit (fuel : nat) (exit_end off : Z) (t : asmtest_trace) : asmtest_trace :=
  match fuel with
  | O => t
  | S fuel =>
      if off <? exit_end then
        let '(l, _, _) := disas_probe off in
        if l =? 0 then t else tail_commit fuel exit_end (off +64 l) (append_insn t off)
      else t
  end.

(** The stack comes newest first.  The second result is [*out_reached_exit]. *)
Definition amd_replay (br : list perf_branch_entry) (t : asmtest_trace) : asmtest_trace * bool :=
  match replay_loop (rev br) base_ip false (append_block t 0) with
  | (t, None) => (t, false)
  | (t, Some ip) =>
      if negb (truncated t) && in_region ip then
        let start_off := ip -64 base_ip in
        let exit_end := tail_probe (S (Z.to_nat len)) start_off in
        if start_off <? exit_end
        then (tail_commit (Z.to_nat len) exit_end start_off (append_block t start_off), true)
        else (t, false)
      else (t, false)
  end.

(** [(int)hw_nbr] *)
Definition to_int (x : Z) : Z := let x := u32 x in if x <? 2 ^ 31 then x else x - 2 ^ 32.

(** The decode entry points: the return code, [*reached_exit] and the trace.
    [avail] is [asmtest_disas_available()] and [depth] is
    [asmtest_amd_lbr_depth()]. *)
Definition asmtest_amd_decode_reach_hw (avail : bool) (depth : Z) (br : list perf_branch_entry)
    (hw_nbr : Z) (t : asmtest_trace) : Z * bool * asmtest_trace :=
  if (length br =? 0)%nat || (len =? 0) then (ASMTEST_HW_EDECODE, false, t)
  else if negb avail then (ASMTEST_HW_ENOSYS, false, t)
  else
    let '(t, reached) := amd_replay br t in
    (ASMTEST_HW_OK, reached, if depth <=? to_int hw_nbr then set_truncated t else t).
Definition asmtest_amd_decode_reach avail depth br t :=
  asmtest_amd_decode_reach_hw avail depth br (Z.of_nat (length br)) t.
Definition asmtest_amd_decode avail depth br t : Z * asmtest_trace :=
  let '(rc, _, t) := asmtest_amd_decode_reach avail depth br t in (rc, t).
Definition asmtest_amd_decode_stitched (avail : bool) (br : list perf_branch_entry) (gap : bool)
    (t : asmtest_trace) : Z * asmtest_trace :=
  if (length br =? 0)%nat || (len =? 0) then (ASMTEST_HW_EDECODE, t)
  else if negb avail then (ASMTEST_HW_ENOSYS, t)
  else let '(t, _) := amd_replay br t in (ASMTEST_HW_OK, if gap then set_truncated t else t).

(** ** Stitching *)
Definition amd_edge_eq (a b : perf_branch_entry) : bool :=
  (br_from a =? br_from b) && (br_to a =? br_to b).

(** The walk of [amd_span_decodable], one round per value of [guard]. *)
Fixpoint span_walk (rounds : nat) (fo o : Z) : bool :=
  if o <? fo then
    match rounds with
    | O => true
    | S rounds =>
        let '(l, _, _) := disas_probe o in
        if l =? 0 then false
        else
          let advance := if fo <? o +64 l then false else span_walk rounds fo (o +64 l) in
          if disas_is_uncond_jump o then
            match disas_branch_target o with
            | Some tgt =>
                if negb (in_region tgt) then true
                else if fo <? tgt -64 base_ip then false
                else span_walk rounds fo (tgt -64 base_ip)
            | None => advance
            end
          else advance
    end
  else true.
Definition amd_span_decodable (avail : bool) (from_ip to_ip : Z) : bool :=
  if (len =? 0) || negb avail then true
  else if negb (in_region from_ip) || (to_ip <? base_ip) || (end_ip <? to_ip) then true
  else if to_ip <? from_ip then false
  else span_walk (S (Z.to_nat len)) (to_ip -64 base_ip) (from_ip -64 base_ip).

(** [out] and the window [e] are in execution order.  The smallest shift whose
    overlap matches and whose splice is real code. *)
Definition shift_matches (avail : bool) (out e : list perf_branch_entry) (d : nat) : bool :=
  let n := length out in
  let m := length e in
  let L := (m - d)%nat in
  (L <=? n)%nat &&
  forallb (λ p, amd_edge_eq p.1 p.2) (zip (take L e) (drop (n - L) out)) &&
  match last out, e !! (m - d)%nat with
  | Some o, Some s => amd_span_decodable avail (br_to o) (br_from s)
  | _, _ => true
  end.
Fixpoint find_shift (avail : bool) (out e : list perf_branch_entry) (ds : list nat) : option nat :=
  match ds with
  | [] => None
  | d :: ds => if shift_matches avail out e d then Some d else find_shift avail out e ds
  end.

(** Appending [es] to an array of [cap] entries; whether some did not fit. *)
Definition push_all (cap : nat) (out es : list perf_branch_entry) : list perf_branch_entry * bool :=
  (out ++ take (cap - length out) es, (cap - length out <? length es)%nat).

Fixpoint stitch_loop (avail : bool) (cap : nat) (samples : list (list perf_branch_entry))
    (out : list perf_branch_entry) (gap : bool) : list perf_branch_entry * bool :=
  match samples with
  | [] => (out, gap)
  | s :: samples =>
      let e := rev s in
      let m := length e in
      if (m =? 0)%nat then stitch_loop avail cap samples out gap
      else match find_shift avail out e (seq 1 (m - 1)) with
      | None => (out, true)
      | Some d =>
          let '(out, full) := push_all cap out (drop (m - d) e) in
          stitch_loop avail cap samples out (gap || full)
      end
  end.
Definition asmtest_amd_stitch (avail : bool) (samples : list (list perf_branch_entry)) (out_cap : nat) :
    list perf_branch_entry * bool :=
  match samples with
  | [] => ([], false)
  | s :: samples =>
      if (out_cap =? 0)%nat then ([], false)
      else
        let '(out, full) := push_all out_cap [] (rev s) in
        let '(out, gap) := stitch_loop avail out_cap samples out full in
        (rev out, gap)
  end.

(** ** What the machine does

    Between two recorded branches control moves in a straight line.  An
    instruction can pass control to the next one when it is no branch, or a
    conditional one that is not taken; only a branch can be the source of a
    record. *)
Definition is_call_at (o : Z) : bool := (disas_probe o).1.2.
Definition is_ret_at (o : Z) : bool := (disas_probe o).2.
Definition transfers (o : Z) : bool := disas_is_branch o || is_ret_at o.
Definition may_fall (o : Z) : Prop :=
  is_ret_at o = false ∧ disas_is_uncond_jump o = false ∧
  (disas_is_branch o = false ∨ (∃ tgt, disas_branch_target o = Some tgt) ∧ is_call_at o = false).

(** Passing the instruction at [o]: a branch that is not taken ends its block. *)
Definition passed (o : Z) : list event :=
  EInsn o :: if disas_is_branch o then [EBlock (o + len_at o)] else [].

(** The run from [o] up to the source [f] of the next recorded branch, and what
    it retires.  When the hardware records every taken branch ([full]) nothing
    else can happen; a filter that leaves direct jumps out also lets control
    follow one. *)
Inductive runs (full : bool) (f : Z) : Z → list event → Prop :=
| runs_source : decodes len f → transfers f = true → runs full f f [EInsn f]
| runs_fall o es : decodes len o → may_fall o → runs full f (o + len_at o) es → runs full f o (passed o ++ es)
| runs_jump o tgt es :
    full = false → decodes len o → is_ret_at o = false → disas_is_branch o = true → disas_is_uncond_jump o = true →
    disas_branch_target o = Some tgt → in_region tgt = true →
    runs full f (tgt - base_ip) es → runs full f o (EInsn o :: EBlock (tgt - base_ip) :: es).

(** Arriving at [to] opens a block of the region. *)
Definition landed (to : Z) : list event := if in_region to then [EBlock (to - base_ip)] else [].

(** An execution from [ip]: the branches recorded, oldest first, what retires
    inside the region, and where the last branch went.  Outside the region the
    code is unknown: it branches from anywhere to anywhere. *)
Inductive execution (full : bool) : Z → list (Z * Z) → list event → Z → Prop :=
| exec_done ip : execution full ip [] [] ip
| exec_inside ip from to brs es1 es2 ip' :
    in_region ip = true → in_region from = true → runs full (from - base_ip) (ip - base_ip) es1 →
    execution full to brs es2 ip' →
    execution full ip ((from, to) :: brs) (es1 ++ landed to ++ es2) ip'
| exec_outside ip from to brs es ip' :
    in_region ip = false → in_region from = false → execution full to brs es ip' →
    execution full ip ((from, to) :: brs) (landed to ++ es) ip'.

(** The records of a stack that retired, as edges. *)
Definition retired (br : list perf_branch_entry) : list (Z * Z) :=
  (λ e, (br_from e, br_to e)) <$>
    filter (λ e, br_abort e = false ∧ br_spec e ≠ ASMTEST_PERF_BR_SPEC_WRONG_PATH) br.

(** Reaching the entry: nothing, or branches outside the region up to the call
    of its first instruction. *)
Inductive approach : list (Z * Z) → list event → Prop :=
| approach_none : approach [] []
| approach_call pre x :
    Forall (λ e, in_region e.1 = false ∧ in_region e.2 = false) pre → in_region x = false →
    approach (pre ++ [(x, base_ip)]) [EBlock 0].

(** The instructions from [o] up to [target], with no branch between. *)
Inductive straight_to (target : Z) : Z → list Z → Prop :=
| straight_here : straight_to target target []
| straight_step o xs :
    decodes len o → transfers o = false → straight_to target (o + len_at o) xs → straight_to target o (o :: xs).

(** How the recorded part begins, what retired before it and where it goes on:
    at the entry, or after the entry was run straight to a landing in the middle
    of the region that is the first record to mention the region. *)
Inductive begins : list (Z * Z) → list event → Z → Prop :=
| begins_entry ap aes : approach ap aes → begins ap aes base_ip
| begins_landing pre x to xs :
    Forall (λ e, in_region e.1 = false ∧ in_region e.2 = false) pre → in_region x = false →
    in_region to = true → base_ip < to → straight_to (to - base_ip) 0 xs →
    begins (pre ++ [(x, to)]) (EInsn <$> xs) to.

(** The instructions from [o] to an exit of the region, with no branch that
    could go elsewhere. *)
Definition is_exit (o : Z) : Prop :=
  is_ret_at o = true ∨
  disas_is_branch o = true ∧ disas_is_uncond_jump o = true ∧
  ∃ tgt, disas_branch_target o = Some tgt ∧ in_region tgt = false.
Inductive exits_from : Z → list Z → Prop :=
| exits_here o : decodes len o → is_exit o → exits_from o [o]
| exits_next o xs : decodes len o → transfers o = false → exits_from (o + len_at o) xs → exits_from o (o :: xs).

(** ** Lemmas *)
Context (Hbase : 0 <= base_ip) (Hlen : 0 <= len) (Hend : base_ip + len < 2 ^ 64) (Hok : decoder_ok len).

Lemma in_region_spec ip : in_region ip = true ↔ base_ip <= ip < base_ip + len.
Proof. unfold in_region, end_ip. rewrite u64_small by lia. rewrite andb_true_iff, Z.leb_le, Z.ltb_lt. done. Qed.

Lemma in_region_false ip : in_region ip = false ↔ ¬ base_ip <= ip < base_ip + len.
Proof. by rewrite <-in_region_spec, not_true_iff_false. Qed.

Lemma off_small ip : in_region ip = true → ip -64 base_ip = ip - base_ip.
Proof. intros ?%in_region_spec. apply u64_small. lia. Qed.

(** The decoded length, inside the region. *)
Lemma len_next o : 0 <= o → decodes len o → 0 < len_at o ∧ o + len_at o <= len ∧ u64 (o + len_at o) = o + len_at o.
Proof.
  intros Ho [Hlt Hne]. pose proof (Hok o (conj Ho Hlt)). split_and!; [lia..|]. apply u64_small. lia.
Qed.

Lemma probe_at o : disas_probe o = (len_at o, is_call_at o, is_ret_at o).
Proof. unfold len_at, is_call_at, is_ret_at. by destruct (disas_probe o) as [[??]?]. Qed.

Lemma runs_le f o es : 0 <= o → runs true f o es → o <= f < len.
Proof.
  intros Ho Hr. induction Hr as [[? _] _|o es Hd _ _ IH|]; [lia| |done].
  pose proof (len_next o Ho Hd). lia.
Qed.

Lemma run_app t es es' : run t (es ++ es') = run (run t es) es'.
Proof. apply foldl_app. Qed.

Lemma walk_runs rounds f o es t :
  0 <= o → runs true f o es → f - o < Z.of_nat rounds → walk rounds f o t = (run t es, true).
Proof.
  intros Ho Hr. revert rounds t.
  induction Hr as [[_ Hne] _|o es Hd Hf Hr IH|]; intros rounds t Hrd; [..|done].
  - destruct rounds as [|rounds]; [lia|]. cbn [walk]. rewrite probe_at.
    destruct (Z.eqb_spec (len_at f) 0); [done|]. by rewrite Z.eqb_refl.
  - pose proof (len_next o Ho Hd) as (Hl & _ & Eu). assert (o + len_at o <= f < len) as Hle by (eapply runs_le; [lia|done]).
    destruct rounds as [|rounds]; [lia|]. cbn [walk]. rewrite probe_at.
    destruct (Z.eqb_spec (len_at o) 0); [lia|]. destruct (Z.eqb_spec o f); [lia|]. rewrite Eu.
    destruct (Z.ltb_spec f (o + len_at o)); [lia|]. unfold passed.
    destruct Hf as (_ & Hj & [->|((tgt & ->) & ->)]); [|rewrite Hj; destruct (disas_is_branch o)]; apply IH; lia.
Qed.

(** A record that did not retire is skipped; one that did moves the position. *)
Lemma retired_cons e br :
  retired (e :: br) =
  if br_abort e || (br_spec e =? ASMTEST_PERF_BR_SPEC_WRONG_PATH) then retired br
  else (br_from e, br_to e) :: retired br.
Proof.
  unfold retired. rewrite filter_cons. case_decide as Hc.
  - destruct Hc as [-> Hs]. simpl. by rewrite (proj2 (Z.eqb_neq _ _) Hs).
  - destruct (br_abort e); [done|]. destruct (Z.eqb_spec (br_spec e) ASMTEST_PERF_BR_SPEC_WRONG_PATH); [done|].
    naive_solver.
Qed.

Lemma replay_exec br ip es ip' entered t :
  execution true ip (retired br) es ip' → entered || in_region ip = true →
  replay_loop br ip entered t = (run t es, Some ip').
Proof.
  revert ip es entered t. induction br as [|e br IH]; intros ip es entered t He Hent.
  { inversion He; subst. done. }
  rewrite retired_cons in He. cbn [replay_loop]. destruct (_ || _); [by apply IH|].
  inversion He as [|? from to ? es1 es2 ? Hip Hfrom Hr Hrest|? from to ? es2 ? Hip Hfrom Hrest]; subst; clear He.
  - rewrite Hip. pose proof (proj1 (in_region_spec _) Hip). pose proof (proj1 (in_region_spec _) Hfrom).
    assert (ip - base_ip <= br_from e - base_ip < len) as Hle by (eapply runs_le; [lia|done]).
    rewrite (proj2 (Z.leb_le _ _)) by lia. unfold end_ip. rewrite u64_small, (proj2 (Z.ltb_lt _ _)) by lia.
    cbn [andb]. rewrite !off_small by done. rewrite (walk_runs _ _ _ es1) by (done || lia).
    rewrite orb_true_r. cbn [negb andb]. rewrite run_app. unfold landed. destruct (in_region (br_to e)) eqn:Eto.
    + rewrite off_small by done. by rewrite (IH _ es2).
    + by rewrite (IH _ es2) by (done || by rewrite ?orb_true_r).
  - rewrite Hip in *. rewrite orb_false_r in Hent. subst. cbn [negb andb orb]. unfold landed.
    destruct (in_region (br_to e)) eqn:Eto.
    + rewrite off_small by done. by rewrite (IH _ es2).
    + by rewrite (IH _ es2).
Qed.

(** ** The entry *)
Lemma straight_to_le target o xs : 0 <= o → straight_to target o xs → o <= target.
Proof.
  intros Ho Hs. induction Hs as [|o xs Hd _ _ IH]; [done|]. pose proof (len_next o Ho Hd). lia.
Qed.

(** The first pass accepts exactly a straight run, and the second records it. *)
Lemma entry_clean_spec fuel target o :
  0 <= o <= target → target <= len → target - o < Z.of_nat fuel →
  (entry_clean fuel target o = None ∧ ∀ xs, ¬ straight_to target o xs) ∨
  (entry_clean fuel target o = Some tt ∧ ∃ xs, straight_to target o xs ∧
     ∀ t, entry_commit fuel target o t = (run t (EInsn <$> xs), true)).
Proof.
  revert o. induction fuel as [|fuel IH]; intros o Ho Ht Hf; [lia|]. cbn [entry_clean entry_commit].
  destruct (Z.ltb_spec o target) as [Hlt|].
  2: { assert (o = target) as -> by lia. right. split; [done|]. exists []. split; [constructor|done]. }
  assert (∀ xs, straight_to target o xs →
    decodes len o ∧ transfers o = false ∧ ∃ xs', straight_to target (o + len_at o) xs') as Hinv.
  { intros xs Hs. inversion Hs; subst; [lia|eauto]. }
  rewrite probe_at. destruct (Z.eqb_spec (len_at o) 0) as [E|Hne]; cbn [orb].
  { left. split; [done|]. intros xs ([_ ?] & _)%Hinv. done. }
  destruct (is_ret_at o) eqn:Er; [|destruct (disas_is_branch o) eqn:Eb].
  1,2: left; split; [done|]; intros xs (_ & Htr & _)%Hinv; unfold transfers in Htr;
       rewrite ?Er, ?Eb, ?orb_true_r in Htr; done.
  assert (decodes len o) as Hd by (split; [lia|done]). pose proof (len_next o ltac:(lia) Hd) as (Hl & Hle & Eu).
  rewrite Eu. destruct (Z.ltb_spec target (o + len_at o)).
  { left. split; [done|]. intros xs (_ & _ & xs' & Hs)%Hinv. apply straight_to_le in Hs; lia. }
  destruct (IH (o + len_at o)) as [[-> Hno]|[-> (xs & Hs & Hc)]]; [lia..| |].
  - left. split; [done|]. intros xs (_ & _ & xs' & Hs)%Hinv. by eapply Hno.
  - right. split; [done|]. exists (o :: xs). split; [|intros t; by rewrite Hc].
    constructor; [done| |done]. unfold transfers. by rewrite Er, Eb.
Qed.

Lemma straight_unique target o xs xs' :
  0 <= o → straight_to target o xs → straight_to target o xs' → xs = xs'.
Proof.
  assert (∀ o xs, 0 <= o → decodes len o → straight_to target (o + len_at o) xs → o < target) as Hgo.
  { intros o' ys Ho Hd Hs. pose proof (len_next o' Ho Hd). apply straight_to_le in Hs; lia. }
  intros Ho Hs. revert xs'. induction Hs as [|o xs Hd _ Hs IH]; intros xs' Hs'.
  - inversion Hs' as [|? ? Hd' _ Hs'']; [done|]. pose proof (Hgo _ _ Ho Hd' Hs''). lia.
  - pose proof (Hgo _ _ Ho Hd Hs). inversion Hs' as [|? ? _ _ Hs'']; subst; [lia|].
    f_equal. apply IH; [|done]. pose proof (len_next o Ho Hd). lia.
Qed.

Lemma entry_fill_spec to t :
  in_region to = true → base_ip < to →
  (amd_entry_fill to t = (t, false) ∧ ∀ xs, ¬ straight_to (to - base_ip) 0 xs) ∨
  ∃ xs, straight_to (to - base_ip) 0 xs ∧ amd_entry_fill to t = (run t (EInsn <$> xs), true).
Proof.
  intros Hin Hlt. pose proof (proj1 (in_region_spec _) Hin). unfold amd_entry_fill.
  rewrite (u64_small (base_ip + len)) by lia. rewrite (proj2 (Z.leb_gt _ _)) by lia.
  rewrite (proj2 (Z.ltb_ge (base_ip + len) to)) by lia. cbn [orb]. rewrite off_small by done.
  destruct (entry_clean_spec (S (Z.to_nat (to - base_ip))) (to - base_ip) 0) as [[-> Hno]|[-> (xs & Hs & Hc)]];
    [lia..|by left|]. right. exists xs. by rewrite Hc.
Qed.

(** A record outside the region is not decoded. *)
Lemma not_decoded ip from :
  in_region from = false → in_region ip && (ip <=? from) && (from <? end_ip) = false.
Proof.
  intros Hf%in_region_false. unfold end_ip. rewrite u64_small by lia.
  destruct (in_region ip) eqn:Ei; [|done]. apply in_region_spec in Ei.
  destruct (Z.leb_spec ip from), (Z.ltb_spec from (base_ip + len)); simpl; done || lia.
Qed.

(** The records before the region is entered leave the sink alone. *)
Lemma replay_outside br pre x to brs ip t (P : asmtest_trace * option Z → Prop) :
  retired br = pre ++ (x, to) :: brs →
  Forall (λ e, in_region e.1 = false ∧ in_region e.2 = false) pre → in_region x = false → in_region to = true →
  (∀ br', retired br' = brs →
     P (let '(t, filled) :=
          if base_ip <? to then
            let '(t, filled) := amd_entry_fill to t in (if filled then t else set_truncated t, filled)
          else (t, false) in
        replay_loop br' to true (if filled then t else append_block t (to -64 base_ip)))) →
  P (replay_loop br ip false t).
Proof.
  intros Hr Hpre Hx Hto HP. revert pre Hpre Hr ip. induction br as [|e br IH]; intros pre Hpre Hr ip.
  { by destruct pre. }
  rewrite retired_cons in Hr. cbn [replay_loop]. destruct (_ || _); [by eapply IH|].
  destruct pre as [|[f' t'] pre]; simpl in Hr; injection Hr as Ef Et Hr; rewrite Et.
  - rewrite not_decoded by congruence. cbn [negb orb andb]. rewrite Hto. by apply HP.
  - apply Forall_cons in Hpre as [[Hf Ht] Hpre]. simpl in Hf, Ht. rewrite not_decoded by congruence.
    cbn [negb orb]. rewrite Ht. by eapply IH.
Qed.

Lemma replay_begins br ap aes brs es ip ip' t :
  0 < len → retired br = ap ++ brs → begins ap aes ip → execution true ip brs es ip' →
  replay_loop br base_ip false t = (run t (aes ++ es), Some ip').
Proof.
  intros Hpos Hr Ha Hex. assert (in_region base_ip = true) as Hb by (apply in_region_spec; lia).
  destruct Ha as [ap aes [|pre x Hpre Hx]|pre x to xs Hpre Hx Hto Hlt Hs].
  - by apply replay_exec; [rewrite Hr|rewrite Hb].
  - rewrite <-app_assoc in Hr. eapply (replay_outside br pre x base_ip brs); [done..|]. intros br' Hr'.
    rewrite Z.ltb_irrefl, off_small, Z.sub_diag by done. by rewrite (replay_exec br' _ es ip') by (by rewrite ?Hr').
  - rewrite <-app_assoc in Hr. eapply (replay_outside br pre x to brs); [done..|]. intros br' Hr'.
    rewrite (proj2 (Z.ltb_lt _ _) Hlt). destruct (entry_fill_spec to t Hto Hlt) as [[_ Hno]|(xs' & Hs' & ->)].
    { by destruct (Hno xs). }
    rewrite (straight_unique _ _ _ _ (Z.le_refl 0) Hs' Hs). rewrite run_app.
    by rewrite (replay_exec br' _ es ip') by (by rewrite ?Hr').
Qed.

(** ** The tail *)
Lemma tail_spec rounds o :
  0 <= o →
  let e := tail_probe rounds o in
  e = 0 ∨ ∃ xs, exits_from o xs ∧ o < e <= len ∧
    ∀ fuel t, e - o <= Z.of_nat fuel → tail_commit fuel e o t = run t (EInsn <$> xs).
Proof.
  revert o. induction rounds as [|rounds IH]; intros o Ho; cbn [tail_probe]; [by left|].
  destruct (Z.ltb_spec o len) as [Hlt|]; [|by left]. rewrite probe_at.
  destruct (Z.eqb_spec (len_at o) 0) as [|Hne]; [by left|]. assert (decodes len o) as Hd by done.
  pose proof (len_next o Ho Hd) as (Hl & Hle & Eu). rewrite Eu.
  assert (is_exit o → ∃ xs, exits_from o xs ∧ o < o + len_at o <= len ∧
    ∀ fuel t, o + len_at o - o <= Z.of_nat fuel → tail_commit fuel (o + len_at o) o t = run t (EInsn <$> xs)) as Hex.
  { intros He. exists [o]. split_and!; [by constructor|lia..|]. intros fuel t Hf.
    destruct fuel as [|fuel]; [lia|]. cbn [tail_commit]. rewrite (proj2 (Z.ltb_lt _ _)) by lia.
    rewrite probe_at, (proj2 (Z.eqb_neq _ _) Hne), Eu. by destruct fuel; cbn [tail_commit]; rewrite ?Z.ltb_irrefl. }
  destruct (is_ret_at o) eqn:Er; [right; apply Hex; by left|].
  destruct (disas_is_branch o) eqn:Eb.
  - destruct (disas_is_uncond_jump o) eqn:Ej; [|by left].
    destruct (disas_branch_target o) as [tgt|] eqn:Et; [|by left].
    destruct (in_region tgt) eqn:Ei; [by left|]. right. apply Hex. right. eauto.
  - destruct (IH (o + len_at o)) as [E|(xs & Hxs & Hb & Hc)]; [lia|by left|]. right.
    exists (o :: xs). split_and!; [|lia..|].
    + constructor; [done| |done]. unfold transfers. by rewrite Eb, Er.
    + intros fuel t Hf. destruct fuel as [|fuel]; [lia|]. cbn [tail_commit].
      rewrite (proj2 (Z.ltb_lt _ _)) by lia. rewrite probe_at, (proj2 (Z.eqb_neq _ _) Hne), Eu.
      rewrite Hc by lia. done.
Qed.

(** The machine can do nothing else than run to that exit. *)
Lemma tail_runs full f o xs es : exits_from o xs → runs full f o es → insn_stream es = xs.
Proof.
  intros Hx. revert f es. induction Hx as [o Hd He|o xs Hd Ht Hx IH]; intros f es Hr.
  - inversion Hr as [|? es' _ (Hret & Hj & _) Hr'|? tgt es' ? _ Hret Hb Hj Ht Hi]; subst; [done|exfalso..].
    + destruct He as [|(_ & ? & _)]; congruence.
    + destruct He as [|(_ & _ & tgt' & Et & Ei)]; congruence.
  - inversion Hr as [Hd' Htr|? es' _ Hf Hr'|? tgt es' ? _ _ Hb Hj]; subst.
    + congruence.
    + unfold transfers in Ht. apply orb_false_iff in Ht as [Hb _]. unfold passed. rewrite Hb.
      simpl. f_equal. by eapply IH.
    + unfold transfers in Ht. by rewrite Hb in Ht.
Qed.

Lemma tail_forced full ip xs brs es ip' :
  in_region ip = true → exits_from (ip - base_ip) xs →
  execution full ip brs es ip' → in_region ip' = false → xs `prefix_of` insn_stream es.
Proof.
  intros Hip Hx He Hout. destruct He as [|ip from to brs es1 es2 ip' _ _ Hr _|]; [congruence| |congruence].
  exists (insn_stream (landed to ++ es2)). unfold insn_stream at 1. rewrite omap_app. f_equal.
  by eapply tail_runs.
Qed.

Lemma amd_replay_spec br ap aes brs es ip ip' t :
  0 < len → retired (rev br) = ap ++ brs → begins ap aes ip → execution true ip brs es ip' →
  let t1 := run t (EBlock 0 :: aes ++ es) in
  amd_replay br t = (t1, false) ∨
  ∃ xs, exits_from (ip' - base_ip) xs ∧ in_region ip' = true ∧ truncated t1 = false ∧
    amd_replay br t = (run t1 (EBlock (ip' - base_ip) :: (EInsn <$> xs)), true).
Proof.
  intros Hpos Hr Ha He t1. unfold amd_replay. rewrite (replay_begins _ ap aes brs es ip ip') by done.
  change (run (append_block t 0) (aes ++ es)) with t1.
  destruct (truncated t1) eqn:Et; [by left|]. destruct (in_region ip') eqn:Ei; [|by left]. simpl.
  rewrite off_small by done. pose proof (proj1 (in_region_spec _) Ei) as Hi.
  destruct (tail_spec (S (Z.to_nat len)) (ip' - base_ip)) as [E|(xs & Hxs & Hb & Hc)]; [lia| |].
  - cbn [tail_probe] in E. rewrite E. destruct (Z.ltb_spec (ip' - base_ip) 0); [lia|]. by left.
  - cbn [tail_probe] in Hb, Hc. right. exists xs. rewrite (proj2 (Z.ltb_lt _ _)) by lia.
    rewrite Hc by lia. done.
Qed.

(** ** Windows of one execution *)
(** The stack after [k] branches: the newest [depth] of them, newest first. *)
Definition window (depth : nat) (B : list perf_branch_entry) (k : nat) : list perf_branch_entry :=
  rev (drop (k - depth) (take k B)).

Lemma span_runs rounds f o es :
  0 <= o → runs true f o es → span_walk rounds f o = true.
Proof.
  intros Ho Hr. revert rounds.
  induction Hr as [|o es Hd Hf Hr IH|]; intros rounds; [..|done].
  - destruct rounds; cbn [span_walk]; by rewrite Z.ltb_irrefl.
  - pose proof (len_next o Ho Hd) as (Hl & _ & Eu).
    assert (o + len_at o <= f < len) as Hle by (eapply runs_le; [lia|done]).
    destruct rounds as [|rounds]; cbn [span_walk]; rewrite (proj2 (Z.ltb_lt _ _)) by lia; [done|].
    rewrite probe_at, Eu. destruct (Z.eqb_spec (len_at o) 0); [lia|].
    destruct (Z.ltb_spec f (o + len_at o)); [lia|]. destruct Hf as (_ & -> & _). apply IH. lia.
Qed.

(** Consecutive branches of an execution are spliced by real code. *)
Lemma execution_spans avail ip brs es ip' i a b :
  execution true ip brs es ip' → brs !! i = Some a → brs !! S i = Some b →
  amd_span_decodable avail a.2 b.1 = true.
Proof.
  intros He. revert i. induction He as [ip|ip from to brs es1 es2 ip' Hip Hfrom Hr Hrest IH|
    ip from to brs es ip' Hip Hfrom Hrest IH]; intros i Ha Hb; [done|..].
  all: destruct i as [|i]; [|by eapply IH].
  all: simpl in Ha, Hb; injection Ha as <-; simpl; clear IH.
  all: inversion Hrest as [|? from' to' ? es1' es2' ? Hto Hf' Hr'|? from' to' ? es' ? Hto Hf']; subst; [done|..].
  all: simpl in Hb; injection Hb as <-; simpl; unfold amd_span_decodable.
  all: destruct (_ || _); [done|]; rewrite Hto; cbn [negb orb]; try done.
  all: pose proof (proj1 (in_region_spec _) Hto); pose proof (proj1 (in_region_spec _) Hf').
  all: destruct (_ || _); [done|].
  all: assert (to - base_ip <= from' - base_ip < len) by (eapply runs_le; [lia|done]).
  all: rewrite (proj2 (Z.ltb_ge _ _)) by lia; rewrite !off_small by done; eapply span_runs; [lia|done].
Qed.

Lemma edges_refl l : forallb (λ p, amd_edge_eq p.1 p.2) (zip l l) = true.
Proof. induction l as [|x l IH]; [done|]. simpl. unfold amd_edge_eq at 1. by rewrite !Z.eqb_refl, IH. Qed.

(** The window one branch later extends the sequence by that branch. *)
Lemma next_window depth B k b :
  (2 <= depth)%nat → (1 <= k)%nat → B !! k = Some b →
  let e := rev (window depth B (S k)) in
  let m := length e in
  (2 <= m <= S k)%nat ∧ drop (m - 1) e = [b] ∧ e !! (m - 1)%nat = Some b ∧
  take (m - 1) e = drop (k - (m - 1)) (take k B).
Proof.
  intros Hd Hk Hb e m. pose proof (lookup_lt_Some _ _ _ Hb) as Hlt.
  assert (e = drop (S k - depth) (take k B) ++ [b]) as Ee.
  { unfold e, window. rewrite rev_involutive, (take_S_r _ _ _ Hb), drop_app_le; [done|].
    rewrite length_take. lia. }
  assert (m - 1 = length (drop (S k - depth) (take k B)))%nat as Em.
  { unfold m. rewrite Ee, length_app. simpl. lia. }
  assert (m - 1 = Nat.min k (depth - 1))%nat as En.
  { rewrite Em, length_drop, length_take. lia. }
  split_and!; [lia..| | |].
  - rewrite Em, Ee. apply drop_app_length.
  - rewrite Em, Ee. by rewrite list_lookup_middle.
  - rewrite Em at 1. rewrite Ee, take_app_length. f_equal. lia.
Qed.

Lemma last_take {A} (l : list A) k x : l !! k = Some x → last (take (S k) l) = Some x.
Proof. intros Hx. by rewrite (take_S_r _ _ _ Hx), last_snoc. Qed.

Lemma stitch_windows avail cap depth B k n :
  (2 <= depth)%nat → (1 <= k)%nat → (k + n = length B)%nat → (length B <= cap)%nat →
  (∀ i a b, B !! i = Some a → B !! S i = Some b → amd_span_decodable avail (br_to a) (br_from b) = true) →
  stitch_loop avail cap (window depth B <$> seq (S k) n) (take k B) false = (B, false).
Proof.
  intros Hd Hk Hn Hcap Hspan. revert k Hk Hn. induction n as [|n IH]; intros k Hk Hn; simpl.
  { by rewrite take_ge by lia. }
  destruct (lookup_lt_is_Some_2 B k) as [b Hb]; [lia|].
  destruct (next_window depth B k b Hd Hk Hb) as (Hm & Hdrop & Hlast & Htake).
  set (e := rev (window depth B (S k))) in *. set (m := length e) in *.
  destruct (Nat.eqb_spec m 0); [lia|].
  assert (find_shift avail (take k B) e (seq 1 (m - 1)) = Some 1%nat) as ->.
  { replace (m - 1)%nat with (S (m - 2)) by lia. cbn [seq find_shift]. unfold shift_matches. fold m.
    rewrite length_take, Nat.min_l by lia. rewrite (proj2 (Nat.leb_le _ _)) by lia.
    rewrite Htake, edges_refl, Hlast. cbn [andb].
    destruct k as [|k]; [lia|]. destruct (lookup_lt_is_Some_2 B k) as [a Ha]; [lia|].
    by rewrite (last_take _ _ _ Ha), (Hspan k a b). }
  rewrite Hdrop. unfold push_all. rewrite length_take, Nat.min_l by lia.
  destruct (cap - k)%nat as [|c] eqn:Ec; [lia|]. cbn [take length Nat.ltb Nat.leb orb].
  rewrite take_nil, <-(take_S_r _ _ _ Hb). apply IH; lia.
Qed.

Lemma stitch_exact avail cap depth B k n :
  (2 <= depth)%nat → (1 <= k <= depth)%nat → (k + n = length B)%nat → (length B <= cap)%nat →
  (∀ i a b, B !! i = Some a → B !! S i = Some b → amd_span_decodable avail (br_to a) (br_from b) = true) →
  asmtest_amd_stitch avail (window depth B <$> seq k (S n)) cap = (rev B, false).
Proof.
  intros Hd Hk Hn Hcap Hspan. cbn [seq fmap list_fmap]. unfold asmtest_amd_stitch.
  destruct (Nat.eqb_spec cap 0); [lia|]. assert (rev (window depth B k) = take k B) as ->.
  { unfold window. rewrite rev_involutive. by replace (k - depth)%nat with O by lia. }
  unfold push_all. cbn [length app]. rewrite Nat.sub_0_r, take_take, Nat.min_r by lia.
  rewrite length_take, (proj2 (Nat.ltb_ge _ _)) by lia.
  by rewrite stitch_windows by (done || lia).
Qed.

(** The reconstruction of an execution that retired [es] and whose last recorded
    branch went to [ip']: exactly [es] in the sink, or, when the code at [ip']
    can only run to an exit, those instructions as well, which every completion
    of the execution retires first. *)
Definition reconstructed (t : asmtest_trace) (es : list event) (ip' : Z) (r : asmtest_trace * bool) : Prop :=
  r = (run t es, false) ∨
  ∃ xs, r = (run t (es ++ EBlock (ip' - base_ip) :: (EInsn <$> xs)), true) ∧
    ∀ brs2 es2 ip2, execution true ip' brs2 es2 ip2 → in_region ip2 = false → xs `prefix_of` insn_stream es2.

Lemma replay_reconstructs br ap aes brs es ip ip' t :
  0 < len → retired (rev br) = ap ++ brs → begins ap aes ip → execution true ip brs es ip' →
  reconstructed t (EBlock 0 :: aes ++ es) ip' (amd_replay br t).
Proof.
  intros Hpos Hr Ha He. destruct (amd_replay_spec br ap aes brs es ip ip' t Hpos Hr Ha He) as
    [->|(xs & Hx & Hi & _ & ->)]; [by left|]. right. exists xs. split; [by rewrite run_app|].
  intros. by eapply tail_forced.
Qed.

Lemma approach_execution ap aes brs es ip' :
  0 < len → approach ap aes → execution true base_ip brs es ip' →
  ∃ ip, execution true ip (ap ++ brs) (aes ++ es) ip'.
Proof.
  intros Hpos [|pre x Hpre Hx] He; [by exists base_ip|]. exists (base_ip + len).
  assert (∀ ip, in_region ip = false →
    execution true ip ((pre ++ [(x, base_ip)]) ++ brs) ([EBlock 0] ++ es) ip') as Hall;
    [|apply Hall, in_region_false; lia].
  induction Hpre as [|[f t] pre [Hf Ht] _ IH]; intros ip Hip; simpl in *.
  - assert (EBlock 0 :: es = landed base_ip ++ es) as ->; [|by apply exec_outside].
    unfold landed. rewrite (proj2 (in_region_spec _)) by lia. by rewrite Z.sub_diag.
  - assert (EBlock 0 :: es = landed t ++ EBlock 0 :: es) as -> by (unfold landed; by rewrite Ht).
    apply exec_outside; [done..|]. by apply IH.
Qed.

Lemma retired_all B :
  Forall (λ e, br_abort e = false ∧ br_spec e ≠ ASMTEST_PERF_BR_SPEC_WRONG_PATH) B →
  retired B = (λ e, (br_from e, br_to e)) <$> B.
Proof. intros Hall. unfold retired. by rewrite list_filter_all. Qed.

(** C12: replaying a complete branch stack is exact.  Take any execution of the
    region in which every taken branch was recorded, with the records that were
    rolled back or never retired mixed in, from its entry or, when the first
    record of the region is a landing further in, with the straight run from the
    entry to that landing restored; replaying the stack puts into the sink
    exactly the instructions that retired and the blocks they opened, in order,
    and flags a truncation only if the sink itself dropped something; when it
    goes on to an exit, those are the instructions the execution retires next. *)
Theorem amd_replay_exact br ap aes brs es ip ip' t
    (Hpos : 0 < len) (Hr : retired (rev br) = ap ++ brs) (Ha : begins ap aes ip)
    (He : execution true ip brs es ip') :
  reconstructed t (EBlock 0 :: aes ++ es) ip' (amd_replay br t).
Proof. by eapply replay_reconstructs. Qed.

(** Stitching lifts the depth ceiling.  When one stack is sampled after each
    branch of an execution, the overlapping stacks are spliced into the whole
    branch sequence, without a gap and however much of it repeats, and decoding
    it reconstructs the whole execution. *)
Theorem amd_stitch_decode_exact B depth k n cap ap aes brs es ip' t
    (Hpos : 0 < len)
    (Hd : (2 <= depth)%nat) (Hk : (1 <= k <= depth)%nat) (Hn : (k + n = length B)%nat)
    (Hcap : (length B <= cap)%nat)
    (Hall : Forall (λ e, br_abort e = false ∧ br_spec e ≠ ASMTEST_PERF_BR_SPEC_WRONG_PATH) B)
    (Hr : retired B = ap ++ brs) (Ha : approach ap aes) (He : execution true base_ip brs es ip') :
  let '(out, gap) := asmtest_amd_stitch true (window depth B <$> seq k (S n)) cap in
  out = rev B ∧ gap = false ∧
  ∃ t' reached, asmtest_amd_decode_stitched true out gap t = (ASMTEST_HW_OK, t') ∧
    reconstructed t (EBlock 0 :: aes ++ es) ip' (t', reached).
Proof.
  rewrite stitch_exact; [|done..|].
  - split_and!; [done..|]. unfold asmtest_amd_decode_stitched.
    destruct (amd_replay (rev B) t) as [t' reached] eqn:Et. exists t', reached. split.
    + rewrite length_rev. destruct (Nat.eqb_spec (length B) 0); [lia|]. by destruct (Z.eqb_spec len 0); [lia|].
    + rewrite <-Et. eapply replay_reconstructs; [done| |by constructor|done]. by rewrite rev_involutive.
  - intros i a b Hia Hib. destruct (approach_execution ap aes brs es ip' Hpos Ha He) as [ip Hex].
    rewrite <-Hr, retired_all in Hex by done.
    apply (execution_spans true ip _ _ _ i (br_from a, br_to a) (br_from b, br_to b) Hex);
      by rewrite list_lookup_fmap, ?Hia, ?Hib.
Qed.
End replay.

(** ** Witnesses *)
(** [L: nop; jcc L; ret] in five bytes at 4096. *)
Definition count_down : Decoder := {|
  disas_probe off :=
    if (off =? 0) || (off =? 2) then (2, false, false)
    else if off =? 4 then (1, false, true) else (0, false, false);
  disas_is_branch off := (off =? 2) || (off =? 4);
  disas_branch_target off := if off =? 2 then Some 4096 else None;
  disas_is_uncond_jump _ := false;
|}.

Lemma count_down_ok : decoder_ok (H := count_down) 5.
Proof.
  intros off Hoff. unfold len_at. simpl.
  destruct (Z.eqb_spec off 0), (Z.eqb_spec off 2), (Z.eqb_spec off 4); simpl; lia.
Qed.

(** Two rounds of the loop, called from 9. *)
Definition two_rounds : list event :=
  [EInsn 0; EInsn 2; EBlock 0; EInsn 0; EInsn 2; EBlock 4; EInsn 4].

Lemma two_rounds_execution :
  execution (H := count_down) 4096 5 true 4096 [(4098, 4096); (4100, 9)] two_rounds 9.
Proof.
  assert (∀ f es, runs (H := count_down) 4096 5 true f 2 es → runs (H := count_down) 4096 5 true f 0 (EInsn 0 :: es)) as H0.
  { intros f es Hr. apply (runs_fall (H := count_down) 4096 5 true f 0 es); [done| |done].
    split; [done|]. split; [done|]. by left. }
  apply (exec_inside (H := count_down) 4096 5 true 4096 4098 4096 _ [EInsn 0; EInsn 2]
           [EInsn 0; EInsn 2; EBlock 4; EInsn 4]); [done..| |].
  { apply H0. by apply runs_source. }
  apply (exec_inside (H := count_down) 4096 5 true 4096 4100 9 _ [EInsn 0; EInsn 2; EBlock 4; EInsn 4] []);
    [done..| |by constructor].
  apply H0. apply (runs_fall (H := count_down) 4096 5 true 4 2 [EInsn 4]); [done| |by apply runs_source].
  split; [done|]. split; [done|]. right. split; [by exists 4096|done].
Qed.

Definition demo_sink : asmtest_trace :=
  mk_trace (Some (replicate 8 0)) 8 0 0 (Some (replicate 8 0)) 8 0 0 false.
Definition demo_stack : list perf_branch_entry :=
  [mk_br 4100 9 false 0; mk_br 4098 4100 false 1; mk_br 4098 4096 false 0; mk_br 9 4096 false 0].

(** The first record of the region lands on its second instruction. *)
Definition demo_landing : list perf_branch_entry := [mk_br 4100 9 false 0; mk_br 9 4098 false 0].

(** The first stack holds a record from the wrong path, which is left out. *)
Lemma amd_replay_exact_witness :
  reconstructed (H := count_down) 4096 5 demo_sink [EBlock 0; EInsn 0; EInsn 2; EBlock 4; EInsn 4] 9
    (amd_replay (H := count_down) 4096 5 demo_landing demo_sink) ∧
  reconstructed (H := count_down) 4096 5 demo_sink (EBlock 0 :: [EBlock 0] ++ two_rounds) 9
    (amd_replay (H := count_down) 4096 5 demo_stack demo_sink) ∧
  stored_insns (amd_replay (H := count_down) 4096 5 demo_stack demo_sink).1 = [0; 2; 0; 2; 4] ∧
  stored_blocks (amd_replay (H := count_down) 4096 5 demo_stack demo_sink).1 = [0; 4].
Proof.
  split; [|split; [|split; vm_compute; reflexivity]].
  - apply (amd_replay_exact (H := count_down) 4096 5 ltac:(lia) ltac:(lia) ltac:(lia) count_down_ok
             demo_landing [(9, 4098)] [EInsn 0] [(4100, 9)] [EInsn 2; EBlock 4; EInsn 4] 4098);
      [lia|reflexivity|apply (begins_landing (H := count_down) 4096 5 [] 9 4098 [0]); [by constructor|done..|]|].
    + apply (straight_step (H := count_down) 5 2 0); [done..|constructor].
    + apply (exec_inside (H := count_down) 4096 5 true 4098 4100 9 [] [EInsn 2; EBlock 4; EInsn 4] []);
        [done..| |by constructor].
      apply (runs_fall (H := count_down) 4096 5 true 4 2 [EInsn 4]); [done| |by apply runs_source].
      split; [done|]. split; [done|]. right. split; [by exists 4096|done].
  - apply (amd_replay_exact (H := count_down) 4096 5 ltac:(lia) ltac:(lia) ltac:(lia) count_down_ok
             demo_stack [(9, 4096)] [EBlock 0] [(4098, 4096); (4100, 9)] two_rounds 4096);
      [lia|reflexivity|apply begins_entry, (approach_call 4096 5 [] 9); [by constructor|reflexivity]|apply two_rounds_execution].
Defined.

Lemma amd_stitch_decode_exact_witness :
  let B := [mk_br 9 4096 false 0; mk_br 4098 4096 false 0; mk_br 4100 9 false 0] in
  (asmtest_amd_stitch (H := count_down) 4096 5 true (window 2 B <$> seq 1 3) 8).1 = rev B ∧
  (asmtest_amd_stitch (H := count_down) 4096 5 true (window 2 B <$> seq 1 3) 8).2 = false.
Proof.
  intros B.
  pose proof (amd_stitch_decode_exact (H := count_down) 4096 5 ltac:(lia) ltac:(lia) ltac:(lia) count_down_ok
    B 2 1 2 8 [(9, 4096)] [EBlock 0] [(4098, 4096); (4100, 9)] two_rounds 9 demo_sink) as W.
  destruct (asmtest_amd_stitch _ _ _ _ _) as [out gap].
  destruct W as (-> & -> & _); [lia|lia|lia|reflexivity|simpl; lia|by repeat constructor|reflexivity| | |done].
  - apply (approach_call 4096 5 [] 9); [by constructor|reflexivity].
  - apply two_rounds_execution.
Defined.

(** ** The reduced filter *)
(** [L: jcc out; jmp L] in four bytes at 4096. *)
Definition while_loop : Decoder := {|
  disas_probe off := if (off =? 0) || (off =? 2) then (2, false, false) else (0, false, false);
  disas_is_branch off := (off =? 0) || (off =? 2);
  disas_branch_target off := if off =? 0 then Some 4196 else if off =? 2 then Some 4096 else None;
  disas_is_uncond_jump off := off =? 2;
|}.

Fixpoint rounds_of (n : nat) : list event :=
  match n with
  | O => [EInsn 0]
  | S n => EInsn 0 :: EBlock 2 :: EInsn 2 :: EBlock 0 :: rounds_of n
  end.

(** With the filter that leaves direct jumps out of the stack, the replay is
    not exact.  A loop whose back edge is a direct jump leaves one record however
    often it goes round; the replay stops at the first visit of the record's
    source and reports one round, complete, for every number of rounds. *)
Theorem reduced_filter_undercounts n :
  execution (H := while_loop) 4096 4 false 4096 [(4096, 4196)] (rounds_of n) 4196 ∧
  length (insn_stream (rounds_of n)) = (2 * n + 1)%nat ∧
  let '(t, _) := amd_replay (H := while_loop) 4096 4 [mk_br 4096 4196 false 0] demo_sink in
  stored_insns t = [0] ∧ truncated t = false.
Proof.
  split; [|split; [|by vm_compute]].
  - replace (rounds_of n) with (rounds_of n ++ landed 4096 4 4196 ++ []) by (by rewrite !app_nil_r).
    apply (exec_inside (H := while_loop) 4096 4 false 4096 4096 4196); [done..| |by constructor].
    change (4096 - 4096) with 0. induction n as [|n IH]; [by apply runs_source|].
    apply (runs_fall (H := while_loop) 4096 4 false 0 0 (EInsn 2 :: EBlock 0 :: rounds_of n)); [done| |].
    + split; [done|]. split; [done|]. right. split; [by exists 4196|done].
    + by apply (runs_jump (H := while_loop) 4096 4 false 0 2 4096 (rounds_of n)).
  - induction n as [|n IH]; [done|].
    change (length (insn_stream (rounds_of (S n)))) with (S (S (length (insn_stream (rounds_of n))))). lia.
Qed.
End Amd.
