(* ===== verification/SsBtf.v ===== *)
(** In-process branch stepping ([src/ss_btf.c]): the trap handler's stop buffer,
    the pairing of stops into branches, and the capture that feeds them to the
    branch-stack replay. *)
From S2P Require Import Prelude Trace BsRecon Amd.
Import Trace BsRecon Amd.

Module SsBtf.

Definition ASMTEST_HW_EINVAL : Z := -1.
Definition ASMTEST_HW_EUNAVAIL : Z := -3.
Definition ASMTEST_HW_EFULL : Z := -6.
Definition SS_BTF_STREAM_CAP : Z := 2 ^ 16.

(** ** The trap handler *)
(** [g_cap_stream], [g_cap_overflow] and [g_cap_rearm_failed]. *)
Record cap_state := mk_cap { g_cap_stream : list Z; g_cap_overflow : bool; g_cap_rearm_failed : bool }.

(** One trap at [rip]; [rearmed] is whether the MSR write took. *)
Definition cap_on_sigtrap (c : cap_state) (rip : Z) (rearmed : bool) : cap_state :=
  let room := Z.of_nat (length (g_cap_stream c)) <? SS_BTF_STREAM_CAP in
  mk_cap (if room then g_cap_stream c ++ [rip] else g_cap_stream c)
    (if room then g_cap_overflow c else true)
    (if rearmed then g_cap_rearm_failed c else true).

(** The probe's handler counts stops, and those strictly inside the run of nops. *)
Record probe_state := mk_probe { p_total : Z; p_nop : Z; p_rearm_failed : bool }.
Definition probe_on_sigtrap (lo hi : Z) (p : probe_state) (rip : Z) (rearmed : bool) : probe_state :=
  mk_probe (p_total p + 1) (if (lo <? rip) && (rip <? hi) then p_nop p + 1 else p_nop p)
    (if rearmed then p_rearm_failed p else true).
Definition probe_functional (p : probe_state) : bool :=
  negb (p_rearm_failed p) && (1 <=? p_total p) && (p_nop p =? 0).

Section btf.
Context `{Decoder} (base_ip len : Z).

(** ** Pairing *)
(** The pairs in execution order, and [*gap]; the probe counter of the scanner is
    threaded through. *)
Fixpoint pair_loop (calls : Z) (cap : nat) (prev : Z) (rest : list Z) : Z * (list perf_branch_entry * bool) :=
  match rest, cap with
  | s :: rest, S cap =>
      let '(calls, v) := asmtest_bs_scan_terminator calls len (prev -64 base_ip) s in
      match v with
      | BS_OK term =>
          let e := mk_br (base_ip +64 term) s false 0 in
          if in_region base_ip len s then
            let '(calls, (out, gap)) := pair_loop calls cap s rest in (calls, (e :: out, gap))
          else (calls, ([e], false))
      | _ => (calls, ([], true))
      end
  | _, _ => (calls, ([], false))
  end.

(** The leading glue is skipped. *)
Fixpoint skip_glue (stops : list Z) : list Z :=
  match stops with
  | [] => []
  | s :: rest => if in_region base_ip len s then stops else skip_glue rest
  end.

Definition asmtest_ss_btf_pair_stops (calls : Z) (stops : list Z) (out_cap : nat) :
    Z * (list perf_branch_entry * bool) :=
  if (len =? 0) || (out_cap =? 0)%nat then (calls, ([], false))
  else match skip_glue stops with
  | [] => (calls, ([], false))
  | s :: rest =>
      let '(calls, (out, gap)) := pair_loop calls out_cap s rest in (calls, (rev out, gap))
  end.

(** ** The capture *)
(** What the host answers during a capture: the probes and system calls, the
    traps taken while the routine runs with the outcome of each re-arm, and
    whether the thread was switched out. *)
Record btf_env := mk_env {
  e_available : bool;       (* [asmtest_ss_btf_available] *)
  e_setaffinity : bool;
  e_open_msr : bool;
  e_grant : allocator;
  e_msr_rd : bool;
  e_sigaction : bool;
  e_msr_wr : bool;
  e_traps : list (Z * bool);
  e_switched : bool;
  e_disas : bool;           (* [asmtest_disas_available] *)
}.

Definition sizeof_perf_branch_entry : Z := 24.

Definition captured_stops (env : btf_env) : cap_state :=
  foldl (λ c tr, cap_on_sigtrap c tr.1 tr.2) (mk_cap [] false false) (e_traps env).

(** What is done with a finished capture. *)
Definition decode_capture (calls : Z) (env : btf_env) (t : asmtest_trace) : Z * (Z * asmtest_trace) :=
  let c := captured_stops env in
  let stops := g_cap_stream c in
  let nstops := length stops in
  let '(calls, (pairs, gap)) :=
    if (0 <? nstops)%nat && e_grant env (Z.of_nat nstops *64 sizeof_perf_branch_entry)
    then asmtest_ss_btf_pair_stops calls stops nstops else (calls, ([], false)) in
  let '(rc, t) :=
    if (length pairs =? 0)%nat then (ASMTEST_HW_OK, set_truncated t)
    else asmtest_amd_decode_stitched base_ip len (e_disas env) pairs gap t in
  (calls, (rc, if g_cap_overflow c || g_cap_rearm_failed c || e_switched env then set_truncated t else t)).

(** The return code, [g_cap_armed] afterwards and the trace. *)
Definition asmtest_ss_btf_trace (calls : Z) (env : btf_env) (armed : bool) (t : asmtest_trace) :
    Z * (Z * bool * asmtest_trace) :=
  if len =? 0 then (calls, (ASMTEST_HW_EINVAL, armed, t))
  else if negb (e_available env) then (calls, (ASMTEST_HW_EUNAVAIL, armed, t))
  else if armed then (calls, (ASMTEST_HW_EFULL, armed, t))
  else if negb (e_setaffinity env) then (calls, (ASMTEST_HW_EUNAVAIL, false, t))
  else if negb (e_open_msr env) then (calls, (ASMTEST_HW_EUNAVAIL, false, t))
  else if negb (e_grant env (SS_BTF_STREAM_CAP * 8)) then (calls, (ASMTEST_HW_EUNAVAIL, false, t))
  else if negb (e_msr_rd env) then (calls, (ASMTEST_HW_EUNAVAIL, false, t))
  else if e_sigaction env && e_msr_wr env then
    let '(calls, (rc, t)) := decode_capture calls env t in (calls, (rc, false, t))
  else (calls, (ASMTEST_HW_EUNAVAIL, false, t)).

(** ** What really ran *)
(** A leaf execution: every branch stays in the region but the last, which
    leaves it. *)
Fixpoint leaf (brs : list (Z * Z)) : Prop :=
  match brs with
  | [] => False
  | [(_, to)] => in_region base_ip len to = false
  | (_, to) :: brs => in_region base_ip len to = true ∧ leaf brs
  end.

(** A branch with a static target goes there; one without (a return, an indirect
    jump) did not go where a conditional it was reached past goes. *)
Definition static_target (from to : Z) : Prop :=
  ∀ tgt, disas_branch_target (from - base_ip) = Some tgt → is_ret_at (from - base_ip) = false → to = tgt.
Fixpoint decisive (ip : Z) (brs : list (Z * Z)) : Prop :=
  match brs with
  | [] => True
  | (from, to) :: brs =>
      static_target from to ∧
      (kind_at to (from - base_ip) = BR_HARD_UNKNOWN →
       ∀ t, terminator len to (ip - base_ip) t → t = from - base_ip) ∧ decisive to brs
  end.

Context (Hbase : 0 <= base_ip) (Hlen : 0 < len < 2 ^ 32 - 1) (Hend : base_ip + len < 2 ^ 64)
  (Hok : decoder_ok len) (Hret : ∀ o, is_ret_at o = true → disas_is_branch o = true).

Lemma kind_cases to o :
  kind_at to o =
  if len_at o =? 0 then BR_NONE
  else if negb (disas_is_branch o) then BR_NONE
  else if is_ret_at o then BR_HARD_UNKNOWN
  else match disas_branch_target o with
       | None => BR_HARD_UNKNOWN
       | Some tgt => if is_call_at o || disas_is_uncond_jump o
                     then if tgt =? to then BR_HARD_HIT else BR_HARD_MISS
                     else if tgt =? to then BR_COND_HIT else BR_COND_MISS
       end.
Proof. unfold kind_at, classify_branch. by rewrite probe_at. Qed.

Lemma runs_falls to f o es : runs base_ip len true f o es → falls_to len to o f.
Proof.
  induction 1 as [|o es Hd Hf _ IH|]; [constructor| |done].
  econstructor; [done| |done]. unfold passes. rewrite kind_cases.
  destruct Hf as (-> & -> & [->|((tgt & ->) & ->)]); destruct (len_at o =? 0), (disas_is_branch o);
    simpl; try destruct (tgt =? to); kinds.
Qed.

Lemma runs_source_inv full f o es : runs base_ip len full f o es → decodes len f ∧ transfers f = true.
Proof. by induction 1. Qed.

(** The branch that was taken can have ended its run. *)
Lemma runs_terminator from to o es :
  runs base_ip len true (from - base_ip) o es → static_target from to →
  terminator len to o (from - base_ip).
Proof.
  intros Hr Hs. destruct (runs_source_inv _ _ _ _ Hr) as [[Hlt Hne] Ht].
  split; [by eapply runs_falls|]. split; [done|]. rewrite kind_cases.
  destruct (Z.eqb_spec (len_at (from - base_ip)) 0); [done|].
  assert (disas_is_branch (from - base_ip) = true) as ->.
  { apply orb_true_iff in Ht as [?|?]; [done|by apply Hret]. }
  simpl. destruct (is_ret_at _) eqn:Er; [kinds|]. destruct (disas_branch_target _) as [tgt|] eqn:Et; [|kinds].
  rewrite (Hs tgt Et Er), Z.eqb_refl. destruct (_ || _); kinds.
Qed.

Definition entry_of (e : Z * Z) : perf_branch_entry := mk_br e.1 e.2 false 0.

(** Pairing the stops of a leaf execution finds its branches, or admits a gap. *)
Lemma pair_loop_exact brs ip es ip' more cap calls :
  execution base_ip len true ip brs es ip' → in_region base_ip len ip = true →
  leaf brs → decisive ip brs → (length brs <= cap)%nat →
  let '(_, (out, gap)) := pair_loop calls cap ip (brs.*2 ++ more) in
  gap = false → out = entry_of <$> brs.
Proof.
  revert ip es cap calls. induction brs as [|[from to] brs IH]; intros ip es cap calls He Hip Hl Hdec Hcap; [done|].
  destruct cap as [|cap]; [simpl in Hcap; lia|]. cbn [fmap list_fmap app pair_loop snd].
  inversion He as [|? ? ? ? es1 es2 ? _ Hfrom Hr Hrest|]; subst; [|congruence].
  pose proof (proj1 (in_region_spec base_ip len Hbase ltac:(lia) Hend _) Hip).
  pose proof (proj1 (in_region_spec base_ip len Hbase ltac:(lia) Hend _) Hfrom).
  destruct Hdec as (Hst & Hun & Hdec). rewrite (off_small base_ip len Hbase ltac:(lia) Hend _ Hip).
  pose proof (runs_terminator _ _ _ _ Hr Hst) as Ht.
  pose proof (scan_terminator_sound calls len (ip - base_ip) to Hok ltac:(lia) ltac:(lia)) as Hs.
  destruct (asmtest_bs_scan_terminator _ _ _ _) as [calls' [|t0|t0]]; [done| |done].
  destruct Hs as [Ht0 Hs]. assert (t0 = from - base_ip) as ->.
  { destruct (Hs _ Ht) as [_ [->|Hu]]; [done|by apply Hun]. }
  rewrite u64_small by lia.
  replace (base_ip + (from - base_ip)) with from by lia.
  destruct brs as [|e brs].
  - simpl in Hl. rewrite Hl. done.
  - destruct Hl as [Hto Hl]. rewrite Hto. simpl in Hcap.
    specialize (IH to es2 cap calls' Hrest Hto Hl Hdec ltac:(simpl; lia)).
    destruct (pair_loop _ _ _ _) as [c [out gap]]. intros E. by rewrite (IH E).
Qed.

Lemma skip_glue_spec glue s rest :
  Forall (λ x, in_region base_ip len x = false) glue → in_region base_ip len s = true →
  skip_glue (glue ++ s :: rest) = s :: rest.
Proof. induction 1 as [|x glue Hx _ IH]; intros Hs; simpl; [by rewrite Hs|]. rewrite Hx. by apply IH. Qed.

(** The buffer holds every stop unless it says that it overflowed. *)
Lemma captured_spec traps c :
  let c' := foldl (λ c tr, cap_on_sigtrap c tr.1 tr.2) c traps in
  (g_cap_overflow c' = false → g_cap_stream c' = g_cap_stream c ++ traps.*1) ∧
  (g_cap_rearm_failed c' = false → Forall (λ tr, tr.2 = true) traps) ∧
  (g_cap_overflow c' = false → g_cap_overflow c = false) ∧
  (g_cap_rearm_failed c' = false → g_cap_rearm_failed c = false).
Proof.
  revert c. induction traps as [|[rip ok] traps IH]; intros c; simpl; [by rewrite app_nil_r|].
  destruct (IH (cap_on_sigtrap c rip ok)) as (H1 & H2 & H3 & H4). unfold cap_on_sigtrap in *. simpl in *.
  split_and!.
  - intros E. rewrite (H1 E). specialize (H3 E). destruct (_ <? _); [by rewrite <-app_assoc|done].
  - intros E. constructor; [|auto]. specialize (H4 E). by destruct ok.
  - intros E. specialize (H3 E). by destruct (_ <? _).
  - intros E. specialize (H4 E). by destruct ok.
Qed.

Lemma retired_entries brs : retired (entry_of <$> brs) = brs.
Proof.
  rewrite retired_all.
  - rewrite <-list_fmap_compose. rewrite <-(list_fmap_id brs) at 2. by apply list_fmap_ext; intros ? [].
  - apply Forall_fmap, Forall_true. done.
Qed.

(** A capture that is not flagged is exact.  The hardware stops at every
    branch of a leaf routine as long as the thread is not switched out and every
    re-arm takes; then a capture that returns success on a trace that is not
    flagged truncated has put into it exactly the instructions and blocks of the
    execution: stops lost to the buffer, to a failed re-arm, to a context switch
    or to a run that cannot be decided never pass for a complete trace. *)
Theorem btf_trace_exact calls env t calls' armed' t' glue brs es ip' more
    (Hhw : e_switched env = false → Forall (λ tr, tr.2 = true) (e_traps env) →
           (e_traps env).*1 = glue ++ base_ip :: brs.*2 ++ more)
    (Hglue : Forall (λ x, in_region base_ip len x = false) glue)
    (Hexec : execution base_ip len true base_ip brs es ip')
    (Hleaf : leaf brs) (Hdec : decisive base_ip brs)
    (Hrun : asmtest_ss_btf_trace calls env false t = (calls', (ASMTEST_HW_OK, armed', t')))
    (Hfull : truncated t' = false) :
  armed' = false ∧ ∃ reached, reconstructed base_ip len t (EBlock 0 :: es) ip' (t', reached).
Proof.
  unfold asmtest_ss_btf_trace in Hrun. destruct (Z.eqb_spec len 0); [lia|].
  repeat (destruct (negb _); [done|]). destruct (e_sigaction env && e_msr_wr env); [|done].
  unfold decode_capture in Hrun.
  destruct (captured_spec (e_traps env) (mk_cap [] false false)) as (Hstr & Hre & _ & _).
  fold (captured_stops env) in Hstr, Hre. set (c := captured_stops env) in *. simpl in Hstr.
  destruct (if _ && _ then _ else _) as [calls1 [pairs gap]] eqn:Ep in Hrun.
  destruct (if (length pairs =? 0)%nat then _ else _) as [rc t1] eqn:Ed in Hrun.
  destruct (g_cap_overflow c); [by injection Hrun as _ _ _ <-|].
  destruct (g_cap_rearm_failed c); [by injection Hrun as _ _ _ <-|].
  destruct (e_switched env); [by injection Hrun as _ _ _ <-|]. simpl in Hrun.
  injection Hrun as _ -> <- ->. split; [done|].
  destruct (length pairs =? 0)%nat eqn:En; [by injection Ed as <-|].
  rewrite (Hstr eq_refl) in Ep. rewrite (Hhw eq_refl (Hre eq_refl)) in Ep.
  destruct (_ && _) in Ep; [|by injection Ep as _ <- _].
  assert (in_region base_ip len base_ip = true) as Hb by (apply in_region_spec; lia).
  unfold asmtest_ss_btf_pair_stops in Ep. rewrite skip_glue_spec in Ep by done.
  destruct (_ || _) in Ep; [by injection Ep as _ <- _|].
  match type of Ep with (let '(_, _) := pair_loop ?a ?cap ?b ?d in _) = _ =>
    pose proof (pair_loop_exact brs base_ip es ip' more cap a Hexec Hb Hleaf Hdec) as Hp;
    destruct (pair_loop a cap b d) as [c2 [out gap2]] end.
  injection Ep as -> <- ->. unfold asmtest_amd_decode_stitched in Ed.
  destruct (_ || _) in Ed; [done|]. destruct (negb _); [done|].
  destruct (amd_replay base_ip len (rev out) t) as [t2 reached] eqn:Er.
  destruct gap; [by injection Ed as <-|]. injection Ed as ->.
  rewrite Hp in Er; [|rewrite length_app; simpl; rewrite length_app, length_fmap; lia|done].
  exists reached. rewrite <-Er. apply (replay_reconstructs base_ip len Hbase ltac:(lia) Hend Hok _ [] [] brs _ base_ip);
    [lia| |repeat constructor|done]. by rewrite rev_involutive, retired_entries.
Qed.
End btf.

(** ** Witness *)
Definition demo_env : btf_env :=
  mk_env true true true always true true true [(9, true); (4096, true); (4096, true); (9, true)] false true.

Lemma count_down_ret o :
  is_ret_at (H := count_down) o = true → disas_is_branch (Decoder := count_down) o = true.
Proof.
  unfold is_ret_at. simpl. destruct (Z.eqb_spec o 0), (Z.eqb_spec o 2), (Z.eqb_spec o 4); simpl; done || lia.
Qed.

(** The return to 9 can only have been the return. *)
Lemma count_down_decisive :
  decisive (H := count_down) 4096 5 4096 [(4098, 4096); (4100, 9)].
Proof.
  split; [by intros tgt [= <-]|]. split; [done|]. split; [done|]. split; [|done].
  intros _ t [(-> & _ & Hk)|(_ & _ & Ht)]%terminator_inv.
  { exfalso. change (kind_at _ _) with BR_NONE in Hk. kinds. }
  change (4096 - 4096 + _) with 2 in Ht.
  apply terminator_inv in Ht as [(-> & _ & Hk)|(_ & _ & Ht)].
  { exfalso. change (kind_at _ _) with BR_COND_MISS in Hk. kinds. }
  change (2 + _) with 4 in Ht. apply terminator_inv in Ht as [(-> & _)|(_ & Hp & _)]; [done|].
  exfalso. unfold passes in Hp. change (kind_at _ _) with BR_HARD_UNKNOWN in Hp. kinds.
Qed.

Lemma btf_trace_exact_witness :
  let '(_, (rc, armed, t')) := asmtest_ss_btf_trace (H := count_down) 4096 5 0 demo_env false demo_sink in
  rc = ASMTEST_HW_OK ∧ armed = false ∧ stored_insns t' = [0; 2; 0; 2; 4] ∧
  ∃ reached, reconstructed (H := count_down) 4096 5 demo_sink (EBlock 0 :: two_rounds) 9 (t', reached).
Proof.
  destruct (asmtest_ss_btf_trace (H := count_down) 4096 5 0 demo_env false demo_sink)
    as [c [[rc armed] t']] eqn:E.
  assert (rc = 0 ∧ stored_insns t' = [0; 2; 0; 2; 4] ∧ truncated t' = false) as (-> & Hi & Ht)
    by (vm_compute in E; injection E as <- <- <- <-; by vm_compute).
  destruct (btf_trace_exact (H := count_down) 4096 5 ltac:(lia) ltac:(lia) ltac:(lia) count_down_ok
    count_down_ret 0 demo_env demo_sink c armed t' [9] [(4098, 4096); (4100, 9)] two_rounds 9 [])
    as [-> Hr]; try done.
  - by repeat constructor.
  - apply two_rounds_execution.
  - apply count_down_decisive.
Defined.
End SsBtf.
