(* ===== verification/HwRing.v ===== *)
(** The perf data ring of a branch-stack capture ([src/hwtrace.c]): framing the
    records, picking the window to decode, and the rules that decide whether the
    result may pass for complete; with the exit enumeration, the ring
    linearization and the region post-filter of the same file. *)
From S2P Require Import Prelude Bytes Trace BsRecon Amd.
Import Trace BsRecon Amd.

Module HwRing.

Definition sizeof_entry : nat := 24.

(** The header at [off]: [type] and [size]; [misc] is between them. *)
Definition h_type (buf : list Z) (off : nat) : Z := field buf off 4.
Definition h_size (buf : list Z) (off : nat) : Z := field buf (off + 6) 2.

(** A [perf_branch_entry]: two addresses, and the bit fields [abort] (bit 3) and
    [spec] (bits 24 and 25) of the third word. *)
Definition read_entry (buf : list Z) (off : nat) : perf_branch_entry :=
  let flags := field buf (off + 16) 8 in
  mk_br (field buf off 8) (field buf (off + 8) 8) (Z.testbit flags 3) (Z.land (Z.shiftr flags 24) 3).

(** ** Framing *)
(** The records both passes walk: the offset of each header.  A record is at least
    one byte, so [span] rounds are enough. *)
Fixpoint records (fuel : nat) (buf : list Z) (off : nat) : list nat :=
  match fuel with
  | O => []
  | S fuel =>
      if (off + sizeof_header <=? length buf)%nat then
        if (h_size buf off =? 0) || (Z.of_nat (length buf) <? Z.of_nat off + h_size buf off) then []
        else off :: records fuel buf (off + Z.to_nat (h_size buf off))
      else []
  end.
Definition all_records (buf : list Z) : list nat := records (S (length buf)) buf 0.

(** [lost] after the first pass. *)
Definition lost_record (buf : list Z) (off : nat) : bool :=
  (h_type buf off =? PERF_RECORD_LOST) || (h_type buf off =? PERF_RECORD_THROTTLE).

(** The branch stack of one record, [None] unless it is a well-formed sample. *)
Definition sample_at (buf : list Z) (off : nat) : option (list perf_branch_entry) :=
  if h_type buf off =? PERF_RECORD_SAMPLE then
    let nr := if (off + sizeof_header + 8 <=? length buf)%nat then field buf (off + 8) 8 else 0 in
    if (0 <? nr) && (nr <=? 64) && (16 + nr * 24 <=? h_size buf off) then
      Some ((λ i, read_entry buf (off + 16 + sizeof_entry * i)) <$> seq 0 (Z.to_nat nr))
    else None
  else None.
(** The samples the first pass counts. *)
Definition n_samples (buf : list Z) : nat :=
  length (filter (λ off, h_type buf off = PERF_RECORD_SAMPLE) (all_records buf)).
Definition ring_samples (buf : list Z) : list (list perf_branch_entry) := omap (sample_at buf) (all_records buf).

(** ** Choosing and decoding *)
Section decode.
Context `{Decoder} (base_ip len : Z).
Context (avail : bool) (depth : Z) (grant : allocator).

Definition touches (e : perf_branch_entry) : bool :=
  in_region base_ip len (br_from e) || in_region base_ip len (br_to e).
Definition inregion (s : list perf_branch_entry) : nat := length (filter (λ e, touches e = true) s).

(** The richest window; the earliest on a tie. *)
Definition pick_best (best : option (list perf_branch_entry)) (s : list perf_branch_entry) :
    option (list perf_branch_entry) :=
  match best with
  | None => Some s
  | Some b => if (inregion b <? inregion s)%nat then Some s else Some b
  end.

(** The near-full heuristic. *)
Definition near_full (span dsz : Z) : bool :=
  let max_sample := 8 + 8 + depth * 24 in (0 <? dsz) && (dsz <? span +64 max_sample).

Definition is_exit_edge (e : perf_branch_entry) : bool :=
  in_region base_ip len (br_from e) && negb (in_region base_ip len (br_to e)).

(** Tier A, a single window, with its exit anchor. *)
Definition tier_a (best : list perf_branch_entry) (t : asmtest_trace) : asmtest_trace :=
  let '(_, reached, t) := asmtest_amd_decode_reach base_ip len avail depth best t in
  if reached || existsb is_exit_edge best then t else set_truncated t.

(** Tier B, the stitched windows; [None] when it could not be used. *)
Definition tier_b (samples : list (list perf_branch_entry)) (lost : bool) (t : asmtest_trace) :
    option asmtest_trace :=
  let out_cap := (length samples + Z.to_nat depth)%nat in
  if grant (Z.of_nat out_cap *64 24) then
    let '(out, gap) := asmtest_amd_stitch base_ip len avail samples out_cap in
    if (0 <? length out)%nat
    then Some (asmtest_amd_decode_stitched base_ip len avail out (gap || lost) t).2
    else None
  else None.

Definition ring_decode (counted : nat) (samples : list (list perf_branch_entry)) (lost : bool) (t : asmtest_trace) : asmtest_trace :=
  let best := foldl pick_best None samples in
  (* the arrays of the stitcher *)
  let kept := if grant (Z.of_nat counted *64 8) then samples else [] in
  let t :=
    match best with
    | Some b =>
        if (0 <? inregion b)%nat then
          match (if (depth <=? Z.of_nat (length b)) && (1 <? length kept)%nat
                 then tier_b kept lost t else None) with
          | Some t => t
          | None => tier_a b t
          end
        else set_truncated t
    | None => set_truncated t
    end in
  let t := if lost then set_truncated t else t in
  if insns_total t =? 0 then set_truncated t else t.

Definition asmtest_amd_ring_parse_decode (buf : list Z) (dsz : Z) (t : asmtest_trace) : asmtest_trace :=
  let lost := existsb (lost_record buf) (all_records buf) || near_full (Z.of_nat (length buf)) dsz in
  ring_decode (n_samples buf) (ring_samples buf) lost t.

(** ** Exits *)
(** The exit offsets of the region in ascending order. *)
Definition exit_at (o : Z) : bool :=
  is_ret_at o ||
  disas_is_uncond_jump o &&
  match disas_branch_target o with Some tgt => negb (in_region base_ip len tgt) | None => false end.
Fixpoint exits_loop (fuel : nat) (o : Z) : list Z :=
  match fuel with
  | O => []
  | S fuel =>
      if o <? len then
        if len_at o =? 0 then [] else (if exit_at o then [o] else []) ++ exits_loop fuel (o +64 len_at o)
      else []
  end.
(** [out], [*nexit] and the last exit, [None] for [(size_t)-1]. *)
Definition asmtest_amd_all_exits (cap : nat) : list Z * Z * option Z :=
  if avail then
    let xs := exits_loop (Z.to_nat len) 0 in (take cap xs, Z.of_nat (length xs), last xs)
  else ([], 0, None).
Definition asmtest_amd_last_exit_off : Z * option Z :=
  let '(_, n, l) := asmtest_amd_all_exits 0 in (n, l).
End decode.

(** ** The AUX ring *)
Definition asmtest_pt_aux_dewrap (ring : list Z) (tail head : Z) (dst : list Z) : list Z :=
  let aux_sz := Z.of_nat (length ring) in
  if (aux_sz =? 0) || (head <=? tail) then dst
  else
    let n := head - tail in
    let start := tail mod aux_sz in
    let first := if n <? aux_sz - start then n else aux_sz - start in
    let out := take (Z.to_nat first) (drop (Z.to_nat start) ring) ++
               (if first <? n then take (Z.to_nat (n - first)) ring else []) in
    out ++ drop (length out) dst.

(** ** Keeping a region of a whole-thread trace *)
(** Compaction in place: [xs] is read and written from index [w] on. *)
Fixpoint compact (keep : Z → bool) (buf : list Z) (w i : nat) (n : nat) : list Z * nat :=
  match n with
  | O => (buf, w)
  | S n =>
      let x := buf !!! i in
      if keep x then compact keep (<[w := x]> buf) (S w) (S i) n else compact keep buf w (S i) n
  end.
Definition compact_from (keep : Z → bool) (buf : option (list Z)) (start len : nat) : option (list Z) * nat :=
  match buf with
  | Some b => let '(b, w) := compact keep b start start (len - start) in (Some b, w)
  | None => (None, start)
  end.
Definition asmtest_pt_ip_postfilter (t : asmtest_trace) (insn0 blk0 : nat) (base_ip region_base region_len : Z) :
    asmtest_trace :=
  if region_len =? 0 then t
  else
    let lo := region_base in
    let hi := region_base +64 region_len in
    let keep off := let ip := base_ip +64 off in (lo <=? ip) && (ip <? hi) in
    let '(ib, il) := compact_from keep (insns t) insn0 (insns_len t) in
    let '(bb, bl) := compact_from keep (blocks t) blk0 (blocks_len t) in
    mk_trace ib (insns_cap t) il (insns_total t) bb (blocks_cap t) bl (blocks_total t) (truncated t).

(** ** What the kernel writes *)
Definition encode_entry (e : perf_branch_entry) : list Z :=
  to_le 8 (br_from e) ++ to_le 8 (br_to e) ++ to_le 8 (Z.b2z (br_abort e) * 8 + br_spec e * 2 ^ 24).
Definition encode_sample (s : list perf_branch_entry) : list Z :=
  to_le 4 PERF_RECORD_SAMPLE ++ to_le 2 0 ++ to_le 2 (16 + 24 * Z.of_nat (length s)) ++
  to_le 8 (Z.of_nat (length s)) ++ concat (encode_entry <$> s).

Definition entry_ok (e : perf_branch_entry) : Prop := is_u64 (br_from e) ∧ is_u64 (br_to e) ∧ 0 <= br_spec e < 4.
Definition sample_ok (s : list perf_branch_entry) : Prop := (1 <= length s <= 64)%nat ∧ Forall entry_ok s.

Lemma length_encode_entry e : length (encode_entry e) = sizeof_entry.
Proof. unfold encode_entry. by rewrite !length_app, !length_to_le. Qed.

Lemma length_entries s : length (concat (encode_entry <$> s)) = (sizeof_entry * length s)%nat.
Proof.
  induction s as [|e s IH]; [done|]. rewrite fmap_cons. cbn [concat length].
  rewrite length_app, length_encode_entry, IH. lia.
Qed.

Lemma length_encode_sample s : length (encode_sample s) = (16 + sizeof_entry * length s)%nat.
Proof. unfold encode_sample. rewrite !length_app, !length_to_le, length_entries. simpl. lia. Qed.

Lemma flags_spec b x :
  0 <= x < 4 → let f := Z.b2z b * 8 + x * 2 ^ 24 in
  0 <= f < 2 ^ 64 ∧ Z.testbit f 3 = b ∧ Z.land (Z.shiftr f 24) 3 = x.
Proof.
  intros Hx. assert (x = 0 ∨ x = 1 ∨ x = 2 ∨ x = 3) as [->|[->|[->| ->]]] by lia; destruct b; vm_compute; done.
Qed.

Lemma read_entry_spec pre e post :
  entry_ok e → read_entry (pre ++ encode_entry e ++ post) (length pre) = e.
Proof.
  intros (Hf & Ht & Hs). destruct e as [f t a x]. unfold encode_entry, read_entry, is_u64 in *.
  cbn [br_from br_to br_abort br_spec] in *.
  destruct (flags_spec a x Hs) as (Hr & Ha & Hx). rewrite <-!app_assoc.
  assert (∀ y : Z, 0 <= y < 2 ^ 64 → y mod 256 ^ Z.of_nat 8 = y) as Hm by (intros; apply Z.mod_small; done).
  rewrite (field_at _ _ 8 f pre (to_le 8 t ++ to_le 8 (Z.b2z a * 8 + x * 2 ^ 24) ++ post)) by done.
  rewrite (field_at _ _ 8 t (pre ++ to_le 8 f) (to_le 8 (Z.b2z a * 8 + x * 2 ^ 24) ++ post))
    by (by rewrite ?length_app, ?length_to_le, <-?app_assoc).
  rewrite (field_at _ (length pre + 16) 8 (Z.b2z a * 8 + x * 2 ^ 24) (pre ++ to_le 8 f ++ to_le 8 t) post)
    by (rewrite ?length_app, ?length_to_le, <-?app_assoc; done || lia).
  rewrite !Hm by done. by rewrite Ha, Hx.
Qed.

Lemma fmap_seq_eq {A} (f : nat → A) (l : list A) :
  (∀ i x, l !! i = Some x → f i = x) → f <$> seq 0 (length l) = l.
Proof.
  intros Hf. apply list_eq. intros i. rewrite list_lookup_fmap. destruct (l !! i) as [x|] eqn:E.
  - rewrite lookup_seq_lt by (by apply lookup_lt_Some in E). simpl. f_equal. by apply Hf.
  - by rewrite lookup_seq_ge by (by apply lookup_ge_None).
Qed.

Lemma sample_body s : drop 16 (encode_sample s) = concat (encode_entry <$> s).
Proof.
  unfold encode_sample. set (body := concat _). rewrite !app_assoc. apply drop_app_length'.
  by rewrite !length_app, !length_to_le.
Qed.

Lemma entries_split s i e :
  s !! i = Some e →
  concat (encode_entry <$> s) =
  concat (encode_entry <$> take i s) ++ encode_entry e ++ concat (encode_entry <$> drop (S i) s).
Proof.
  intros He. rewrite <-(take_drop_middle s i e He) at 1. by rewrite fmap_app, concat_app, fmap_cons.
Qed.

Section record.
Context (pre : list Z) (s : list perf_branch_entry) (post : list Z) (Hs : sample_ok s).
Let buf := pre ++ encode_sample s ++ post.

Lemma header_spec :
  h_type buf (length pre) = PERF_RECORD_SAMPLE ∧
  h_size buf (length pre) = 16 + 24 * Z.of_nat (length s) ∧
  field buf (length pre + 8) 8 = Z.of_nat (length s).
Proof.
  destruct Hs as [Hl _]. unfold h_type, h_size, buf, encode_sample. split_and!.
  - rewrite <-!app_assoc. by rewrite (field_at _ _ 4 PERF_RECORD_SAMPLE pre _ eq_refl eq_refl).
  - rewrite (field_at _ _ 2 (16 + 24 * Z.of_nat (length s)) (pre ++ to_le 4 PERF_RECORD_SAMPLE ++ to_le 2 0)
      (to_le 8 (Z.of_nat (length s)) ++ concat (encode_entry <$> s) ++ post)).
    + apply Z.mod_small. lia.
    + by rewrite <-!app_assoc.
    + rewrite !length_app, !length_to_le. lia.
  - rewrite (field_at _ _ 8 (Z.of_nat (length s))
      (pre ++ to_le 4 PERF_RECORD_SAMPLE ++ to_le 2 0 ++ to_le 2 (16 + 24 * Z.of_nat (length s)))
      (concat (encode_entry <$> s) ++ post)).
    + apply Z.mod_small. lia.
    + by rewrite <-!app_assoc.
    + rewrite !length_app, !length_to_le. lia.
Qed.

Lemma entry_spec i e : s !! i = Some e → read_entry buf (length pre + 16 + sizeof_entry * i) = e.
Proof.
  intros He. assert (buf = (pre ++ take 16 (encode_sample s) ++ concat (encode_entry <$> take i s)) ++
    encode_entry e ++ concat (encode_entry <$> drop (S i) s) ++ post) as ->.
  { unfold buf. rewrite <-!app_assoc. f_equal. rewrite <-(take_drop 16 (encode_sample s)) at 1.
    rewrite <-app_assoc. f_equal. rewrite sample_body, (entries_split s i e He). by rewrite <-!app_assoc. }
  assert (length pre + 16 + sizeof_entry * i =
    length (pre ++ take 16 (encode_sample s) ++ concat (encode_entry <$> take i s)))%nat as ->.
  { rewrite !length_app, length_take, length_encode_sample, length_entries, length_take.
    apply lookup_lt_Some in He. unfold sizeof_entry. lia. }
  apply read_entry_spec. destruct Hs as [_ Hall]. by apply (Forall_lookup_1 _ _ _ _ Hall He).
Qed.

Lemma sample_at_spec : sample_at buf (length pre) = Some s.
Proof.
  unfold sample_at. destruct header_spec as (-> & -> & ->). cbn [Z.eqb PERF_RECORD_SAMPLE].
  destruct Hs as [Hl _].
  rewrite (proj2 (Nat.leb_le _ _)) by
    (unfold buf; rewrite !length_app, length_encode_sample; unfold sizeof_header; lia).
  rewrite (proj2 (Z.ltb_lt _ _)), (proj2 (Z.leb_le _ _)), (proj2 (Z.leb_le _ _)) by lia. cbn [andb].
  rewrite Nat2Z.id. f_equal. apply fmap_seq_eq. apply entry_spec.
Qed.
End record.

(** The records of a ring of samples, from any one on. *)
Lemma records_spec pre ss fuel :
  Forall sample_ok ss → (length (concat (encode_sample <$> ss)) < fuel)%nat →
  let buf := pre ++ concat (encode_sample <$> ss) in
  omap (sample_at buf) (records fuel buf (length pre)) = ss ∧
  Forall (λ off, h_type buf off = PERF_RECORD_SAMPLE) (records fuel buf (length pre)) ∧
  length (records fuel buf (length pre)) = length ss.
Proof.
  intros Hss. revert pre fuel. induction Hss as [|s ss Hs _ IH]; intros pre fuel Hf; cbv zeta.
  - destruct fuel as [|fuel]; [simpl in Hf; lia|]. cbn [records].
    rewrite (proj2 (Nat.leb_gt _ _)); [by split_and!; [|constructor|]|].
    simpl. rewrite app_nil_r. unfold sizeof_header. lia.
  - rewrite fmap_cons in Hf |- *. cbn [concat] in Hf |- *.
    set (buf := pre ++ encode_sample s ++ concat (encode_sample <$> ss)). rewrite length_app, length_encode_sample in Hf.
    unfold sizeof_entry in Hf. destruct fuel as [|fuel]; [lia|]. cbn [records].
    destruct (header_spec pre s (concat (encode_sample <$> ss)) Hs) as (Ht & Hz & _). fold buf in Ht, Hz.
    assert (length buf = length pre + (16 + 24 * length s) + length (concat (encode_sample <$> ss)))%nat as El.
    { unfold buf. rewrite !length_app, length_encode_sample. unfold sizeof_entry. lia. }
    rewrite (proj2 (Nat.leb_le _ _)) by (unfold sizeof_header; lia). rewrite Hz.
    destruct (Z.eqb_spec (16 + 24 * Z.of_nat (length s)) 0); [lia|].
    rewrite (proj2 (Z.ltb_ge _ _)) by lia. cbn [orb].
    specialize (IH (pre ++ encode_sample s) fuel ltac:(lia)). rewrite <-app_assoc in IH. fold buf in IH.
    replace (length pre + Z.to_nat (16 + 24 * Z.of_nat (length s)))%nat with (length (pre ++ encode_sample s))
      by (rewrite length_app, length_encode_sample; unfold sizeof_entry; lia).
    destruct IH as (IH1 & IH2 & IH3). split_and!; [|by constructor|simpl; by rewrite IH3].
    pose proof (sample_at_spec pre s (concat (encode_sample <$> ss)) Hs) as Es. fold buf in Es.
    cbn [omap list_omap]. rewrite Es. f_equal. exact IH1.
Qed.

Lemma ring_spec ss :
  Forall sample_ok ss →
  let buf := concat (encode_sample <$> ss) in
  ring_samples buf = ss ∧ n_samples buf = length ss ∧ existsb (lost_record buf) (all_records buf) = false.
Proof.
  intros Hss buf. destruct (records_spec [] ss (S (length buf)) Hss) as (H1 & H2 & H3); [unfold buf; lia|].
  cbn [app length] in H1, H2, H3. fold buf in H1, H2, H3. fold (all_records buf) in H1, H2, H3. fold (ring_samples buf) in H1.
  split_and!; [done| |].
  - unfold n_samples. by rewrite list_filter_all.
  - apply not_true_iff_false. rewrite existsb_exists. intros (off & Hin & Hl).
    rewrite Forall_forall in H2. apply list_elem_of_In, H2 in Hin. unfold lost_record in Hl. by rewrite Hin in Hl.
Qed.

(** ** A capture of a leaf routine *)
Section capture.
Context `{Decoder} (base_ip len : Z).
Context (Hbase : 0 <= base_ip) (Hlen : 0 < len) (Hend : base_ip + len < 2 ^ 64) (Hok : decoder_ok len).
Abbreviation touches := (touches base_ip len).
Abbreviation inregion := (inregion base_ip len).

Definition edge (e : perf_branch_entry) : Z * Z := (br_from e, br_to e).
Definition stays_out (e : perf_branch_entry) : Prop :=
  in_region base_ip len (br_from e) = false ∧ in_region base_ip len (br_to e) = false.

Lemma stays_out_touches e : touches e = false ↔ stays_out e.
Proof. unfold HwRing.touches, stays_out. by rewrite orb_false_iff. Qed.

(** The first of the richest windows is picked. *)
Lemma pick_best_first l1 x l2 :
  Forall (λ y, inregion y < inregion x)%nat l1 → Forall (λ y, inregion y <= inregion x)%nat l2 →
  foldl (pick_best base_ip len) None (l1 ++ x :: l2) = Some x.
Proof.
  intros H1 H2. rewrite foldl_app. cbn [foldl].
  assert (∀ b, (∀ y, b = Some y → (inregion y < inregion x)%nat) →
    pick_best base_ip len (foldl (pick_best base_ip len) b l1) x = Some x) as Hl1.
  { clear H2. induction H1 as [|y l1 Hy _ IH]; intros b Hb; simpl.
    - destruct b as [b|]; simpl; [|done]. by rewrite (proj2 (Nat.ltb_lt _ _)) by auto.
    - apply IH. intros z Hz. destruct b as [b|]; simpl in Hz; [|by injection Hz as <-].
      destruct (_ <? _)%nat; injection Hz as <-; auto. }
  rewrite Hl1 by done. clear Hl1 H1. induction H2 as [|y l2 Hy _ IH]; [done|]. simpl.
  by rewrite (proj2 (Nat.ltb_ge _ _)).
Qed.

Lemma inregion_app l l' : inregion (l ++ l') = (inregion l + inregion l')%nat.
Proof. unfold HwRing.inregion. by rewrite filter_app, length_app. Qed.

Lemma inregion_out l : Forall stays_out l → inregion l = O.
Proof.
  intros Hl. unfold HwRing.inregion. rewrite list_filter_none; [done|]. eapply Forall_impl; [exact Hl|].
  intros e He%stays_out_touches. simpl. by rewrite He.
Qed.

Lemma inregion_all l : Forall (λ e, touches e = true) l → inregion l = length l.
Proof. intros Hl. unfold HwRing.inregion. by rewrite list_filter_all. Qed.

Lemma inregion_le l : (inregion l <= length l)%nat.
Proof. unfold HwRing.inregion. apply length_filter. Qed.

Lemma inregion_perm l l' : l ≡ₚ l' → inregion l = inregion l'.
Proof. intros Hp. unfold HwRing.inregion. by rewrite Hp. Qed.

Lemma inregion_drop n l : (inregion (drop n l) <= inregion l)%nat.
Proof. rewrite <-(take_drop n l) at 2. rewrite inregion_app. lia. Qed.

Lemma inregion_window depth B k :
  (inregion (window depth B k) <= inregion (take k B) ∧ inregion (window depth B k) <= depth)%nat.
Proof.
  unfold window. rewrite (inregion_perm _ (drop (k - depth) (take k B))) by (by rewrite <-Permutation_rev).
  split; [apply inregion_drop|]. etrans; [apply inregion_le|]. rewrite length_drop, length_take. lia.
Qed.

(** The richest window of a sequence whose in-region branches are contiguous. *)
Section windows.
Context (depth : nat) (pre mid post : list perf_branch_entry).
Context (Hd : (2 <= depth)%nat) (Hpre : Forall stays_out pre) (Hpost : Forall stays_out post)
  (Hmid : Forall (λ e, touches e = true) mid) (Hne : (1 <= length mid)%nat).
Let B := pre ++ mid ++ post.
Let q := Nat.min (length mid) depth.

Lemma inregion_take k : inregion (take k B) = Nat.min (k - length pre) (length mid).
Proof.
  unfold B. rewrite !take_app, !inregion_app.
  rewrite (inregion_out (take k pre)) by (by apply Forall_take).
  rewrite (inregion_out (take _ post)) by (by apply Forall_take).
  rewrite inregion_all by (by apply Forall_take). rewrite length_take. lia.
Qed.

Lemma inregion_best : inregion (window depth B (length pre + q)) = q.
Proof.
  unfold window. rewrite (inregion_perm _ (drop (length pre + q - depth) (take (length pre + q) B)))
    by (by rewrite <-Permutation_rev).
  unfold B. rewrite take_app_add. rewrite take_app_le by (unfold q; lia).
  rewrite drop_app, inregion_app. rewrite inregion_out by (by apply Forall_drop). simpl.
  replace (length pre + q - depth - length pre)%nat with O by (unfold q; lia). rewrite drop_0.
  rewrite inregion_all by (by apply Forall_take). rewrite length_take. unfold q. lia.
Qed.

Lemma best_window :
  foldl (pick_best base_ip len) None (window depth B <$> seq 1 (length B)) =
  Some (window depth B (length pre + q)).
Proof.
  assert (length B = length pre + length mid + length post)%nat as HB
    by (unfold B; rewrite !length_app; lia).
  assert (1 <= q <= length mid)%nat as Hq by (unfold q; lia).
  assert (seq 1 (length B) = seq 1 (length pre + q - 1) ++ (length pre + q)%nat ::
          seq (S (length pre + q)) (length B - (length pre + q)))%nat as ->.
  { replace (length B) with ((length pre + q - 1) + S (length B - (length pre + q)))%nat at 1 by lia.
    rewrite seq_app. f_equal. simpl. replace (1 + (length pre + q - 1))%nat with (length pre + q)%nat by lia.
    by replace (S (length pre + q - 1)) with (length pre + q)%nat by lia. }
  rewrite fmap_app, fmap_cons. apply pick_best_first; rewrite inregion_best; apply Forall_fmap, Forall_forall;
    intros k Hk%elem_of_seq; simpl; destruct (inregion_window depth B k) as [H1 H2]; rewrite inregion_take in H1;
    unfold q in *; lia.
Qed.
End windows.

Lemma exec_then_out ip brs es ip' post :
  execution base_ip len true ip brs es ip' → in_region base_ip len ip' = false → Forall stays_out post →
  ∃ ip'', execution base_ip len true ip (brs ++ (edge <$> post)) es ip'' ∧ in_region base_ip len ip'' = false.
Proof.
  intros He Hout Hpost. induction He as [ip|ip from to brs es1 es2 ip' Hi Hf Hr _ IH|ip from to brs es ip' Hi Hf _ IH].
  - revert ip Hout. induction Hpost as [|e post [Hf Ht] _ IH]; intros ip Hout; [by exists ip; split; [constructor|]|].
    destruct (IH (br_to e) Ht) as (ip'' & He & Ho). exists ip''. split; [|done]. rewrite fmap_cons.
    assert (landed base_ip len (br_to e) ++ [] = []) as <- by (unfold landed; by rewrite Ht).
    by apply exec_outside.
  - destruct (IH Hout) as (ip'' & He & Ho). exists ip''. split; [|done]. by apply exec_inside.
  - destruct (IH Hout) as (ip'' & He & Ho). exists ip''. split; [|done]. by apply exec_outside.
Qed.

(** An execution that leaves the region retires something, through an exit edge. *)
Lemma exec_exit_edge ip brs es ip' :
  execution base_ip len true ip brs es ip' → in_region base_ip len ip = true → in_region base_ip len ip' = false →
  (∃ e, e ∈ brs ∧ in_region base_ip len e.1 = true ∧ in_region base_ip len e.2 = false) ∧ insn_stream es ≠ [].
Proof.
  intros He Hin Hout. split.
  - induction He as [ip|ip from to brs es1 es2 ip' Hi Hf Hr _ IH|]; [congruence| |congruence].
    destruct (in_region base_ip len to) eqn:Et.
    + destruct (IH eq_refl Hout) as (e & ? & ?). exists e. split; [by right|done].
    + exists (from, to). split; [left|done].
  - destruct He as [|ip from to brs es1 es2 ip' _ _ Hr _|]; [congruence| |congruence].
    destruct Hr as [| |]; unfold insn_stream; simpl; done.
Qed.

Lemma retired_edges l :
  Forall (λ e, br_abort e = false ∧ br_spec e ≠ ASMTEST_PERF_BR_SPEC_WRONG_PATH) l → retired l = edge <$> l.
Proof. apply retired_all. Qed.

(** The replay of a complete stack of an execution that left the region. *)
Lemma replay_left l ap aes brs es ip' t :
  Forall (λ e, br_abort e = false ∧ br_spec e ≠ ASMTEST_PERF_BR_SPEC_WRONG_PATH) l →
  edge <$> l = ap ++ brs → approach base_ip len ap aes → execution base_ip len true base_ip brs es ip' →
  in_region base_ip len ip' = false →
  amd_replay base_ip len (rev l) t = (run t (EBlock 0 :: aes ++ es), false).
Proof.
  intros Hall Hl Ha He Hout.
  destruct (amd_replay_spec base_ip len Hbase ltac:(lia) Hend Hok (rev l) ap aes brs es base_ip ip' t)
    as [E|(xs & _ & Hi & _)]; [done|by rewrite rev_involutive, retired_edges|by constructor|done..|congruence].
Qed.

(** Where the branches that touch the region are. *)
Lemma approach_split A aes :
  approach base_ip len (edge <$> A) aes →
  ∃ pre call, A = pre ++ call ∧ Forall stays_out pre ∧ Forall (λ e, touches e = true) call.
Proof.
  intros Ha. inversion Ha as [E|pre x Hpre Hx E]; subst.
  - exists [], []. symmetry in E. by apply fmap_nil_inv in E as ->.
  - symmetry in E. apply fmap_app_inv in E as (A1 & A2 & E1 & E2 & ->).
    exists A1, A2. split_and!; [done|..].
    + subst. by apply Forall_fmap in Hpre.
    + destruct A2 as [|e [|]]; [done| |done]. injection E2 as _ Eb. repeat constructor.
      unfold HwRing.touches. rewrite <-Eb, (proj2 (in_region_spec base_ip len Hbase ltac:(lia) Hend base_ip)) by lia.
      apply orb_true_r.
Qed.

(** The stack is sampled after every branch of [B] into a ring with room to
    spare. *)
Section ring.
Context (depth : nat) (A inner post : list perf_branch_entry) (aes es : list event) (ip' : Z).
Let B := A ++ inner ++ post.
Context (Hd : (2 <= depth <= 64)%nat)
  (Hret : Forall (λ e, br_abort e = false ∧ br_spec e ≠ ASMTEST_PERF_BR_SPEC_WRONG_PATH) B)
  (Hent : Forall entry_ok B)
  (Ha : approach base_ip len (edge <$> A) aes)
  (He : execution base_ip len true base_ip (edge <$> inner) es ip')
  (Hout : in_region base_ip len ip' = false)
  (Hin : Forall (λ e, touches e = true) inner) (Hpost : Forall stays_out post).

Lemma inner_left :
  ∃ e, e ∈ inner ∧ in_region base_ip len (br_from e) = true ∧ in_region base_ip len (br_to e) = false.
Proof.
  assert (in_region base_ip len base_ip = true) as Hb by (apply in_region_spec; lia).
  destruct (exec_exit_edge _ _ _ _ He Hb Hout) as [(e & Hin' & H1 & H2) _].
  apply list_elem_of_fmap in Hin' as (e' & -> & ?). by exists e'.
Qed.

Lemma windows_ok : Forall sample_ok (window depth B <$> seq 1 (length B)).
Proof.
  apply Forall_fmap, Forall_forall. intros k Hk%elem_of_seq. simpl. unfold window. split.
  - rewrite length_rev, length_drop, length_take. lia.
  - apply Forall_rev. by apply Forall_drop, Forall_take.
Qed.

(** The window is deep enough: the whole run up to the exit is in it. *)
Lemma tier_a_exact pre call t :
  A = pre ++ call → (length (A ++ inner) < depth)%nat →
  tier_a base_ip len true (Z.of_nat depth) (rev (A ++ inner)) t = run t (EBlock 0 :: aes ++ es).
Proof.
  intros EA Hlt. unfold tier_a, asmtest_amd_decode_reach, asmtest_amd_decode_reach_hw. rewrite length_rev.
  destruct inner_left as (e & Hei & Hf & Ht).
  assert (0 < length (A ++ inner))%nat as Hpos.
  { rewrite length_app. destruct inner; [by apply not_elem_of_nil in Hei|simpl; lia]. }
  destruct (Nat.eqb_spec (length (A ++ inner)) 0); [lia|]. destruct (Z.eqb_spec len 0); [lia|]. cbn [orb negb].
  rewrite (replay_left (A ++ inner) (edge <$> A) aes (edge <$> inner) es ip'); try done.
  - rewrite (proj2 (Z.leb_gt _ _)).
    2:{ unfold to_int, u32. rewrite Z.mod_small by lia. destruct (Z.ltb_spec (Z.of_nat (length (A ++ inner))) (2 ^ 31)); lia. }
    assert (existsb (is_exit_edge base_ip len) (rev (A ++ inner)) = true) as ->; [|by rewrite orb_true_r].
    apply existsb_exists. exists e. split; [apply in_rev; rewrite rev_involutive; apply list_elem_of_In; set_solver|].
    unfold is_exit_edge. by rewrite Hf, Ht.
  - unfold B in Hret. rewrite app_assoc in Hret. by apply Forall_app in Hret as [? _].
  - by rewrite fmap_app.
Qed.

Lemma tier_b_exact grant t :
  (1 < length B)%nat → (∀ n, grant n = true) →
  tier_b base_ip len true (Z.of_nat depth) grant (window depth B <$> seq 1 (length B)) false t =
  Some (run t (EBlock 0 :: aes ++ es)).
Proof.
  intros Hl Hg. unfold tier_b. rewrite Hg. rewrite length_fmap, length_seq.
  destruct (exec_then_out _ _ _ _ post He Hout Hpost) as (ip'' & He' & Hout').
  assert (edge <$> B = (edge <$> A) ++ (edge <$> inner) ++ (edge <$> post)) as EB by (unfold B; by rewrite !fmap_app).
  replace (seq 1 (length B)) with (seq 1 (S (length B - 1))) by (f_equal; lia).
  rewrite (stitch_exact base_ip len true _ depth B 1 (length B - 1)); [|lia..|].
  - rewrite length_rev, (proj2 (Nat.ltb_lt _ _)) by lia. unfold asmtest_amd_decode_stitched. rewrite length_rev.
    destruct (Nat.eqb_spec (length B) 0); [lia|]. destruct (Z.eqb_spec len 0); [lia|]. cbn [orb negb].
    by rewrite (replay_left B (edge <$> A) aes ((edge <$> inner) ++ (edge <$> post)) es ip'').
  - intros i a b Hia Hib.
    destruct (approach_execution base_ip len Hbase ltac:(lia) Hend (edge <$> A) aes _ es ip'' Hlen Ha He') as [ip Hex].
    rewrite <-EB in Hex.
    apply (execution_spans base_ip len Hbase ltac:(lia) Hend Hok true ip _ _ _ i (edge a) (edge b) Hex);
      by rewrite list_lookup_fmap, ?Hia, ?Hib.
Qed.

Lemma decode_exact grant t :
  (∀ n, grant n = true) →
  insns_total (run t (EBlock 0 :: aes ++ es)) ≠ 0 →
  ring_decode base_ip len true (Z.of_nat depth) grant (length B) (window depth B <$> seq 1 (length B)) false t =
  run t (EBlock 0 :: aes ++ es).
Proof.
  intros Hg Ht. destruct (approach_split A aes Ha) as (pre & call & EA & Hpre & Hcall).
  destruct inner_left as (e & Hei & _). assert (1 <= length inner)%nat as Hli
    by (destruct inner; [by apply not_elem_of_nil in Hei|simpl; lia]).
  assert (B = pre ++ (call ++ inner) ++ post) as EB by (unfold B; rewrite EA, <-!app_assoc; done).
  assert (Forall (λ e, touches e = true) (call ++ inner)) as Hmid by (by apply Forall_app).
  assert (1 <= length (call ++ inner))%nat as Hml by (rewrite length_app; lia).
  set (q := Nat.min (length (call ++ inner)) depth).
  assert (foldl (pick_best base_ip len) None (window depth B <$> seq 1 (length B)) =
          Some (window depth B (length pre + q))) as Eb by (rewrite EB; apply best_window; done || lia).
  assert (inregion (window depth B (length pre + q)) = q) as Eq by (rewrite EB; apply inregion_best; done || lia).
  unfold ring_decode. rewrite Hg, Eb.
  rewrite Eq. rewrite (proj2 (Nat.ltb_lt _ _)) by (unfold q; lia).
  assert (length B = length pre + length (call ++ inner) + length post)%nat as HlB
    by (rewrite EB, !length_app; lia).
  assert (length (window depth B (length pre + q)) = Nat.min (length pre + q) depth) as Ew.
  { unfold window. rewrite length_rev, length_drop, length_take. unfold q. lia. }
  rewrite Ew. rewrite length_fmap, length_seq.
  destruct (Z.leb_spec (Z.of_nat depth) (Z.of_nat (Nat.min (length pre + q) depth))) as [Hdeep|Hshort].
  - rewrite (proj2 (Nat.ltb_lt _ _)) by (unfold q in *; lia). cbn [andb].
    rewrite tier_b_exact by (done || unfold q in *; lia). by rewrite (proj2 (Z.eqb_neq _ _) Ht).
  - cbn [andb]. assert (window depth B (length pre + q) = rev (A ++ inner)) as ->.
    { unfold window. replace (length pre + q - depth)%nat with O by lia. rewrite drop_0. f_equal.
      rewrite EB, EA. unfold q in *. rewrite Nat.min_l by lia. rewrite take_app_add, take_app_length.
      by rewrite <-app_assoc. }
    rewrite (tier_a_exact pre call); [by rewrite (proj2 (Z.eqb_neq _ _) Ht)|done|].
    rewrite EA, <-app_assoc, length_app. unfold q in *. lia.
Qed.
End ring.

(** C13: a branch-stack capture of a leaf routine is exact, from the bytes of the
    ring on, under these conditions: every record of the run is of a branch that
    retired (a single wrong-path or aborted record can leave the trace truncated),
    the stack (2 to 64 branches deep) is sampled after every branch, from before the
    call until after the return, every branch of the run touches the region and
    those before and after stay out of it, the instructions decode, the ring has
    room for one more sample than it holds, memory is granted, and fewer than 2{^64}
    instructions retire.  Then the trace holds exactly the instructions and blocks
    the routine retired, however many branches it took: the window that is picked
    holds the whole run when the run fits the stack, and otherwise the windows are
    stitched. *)
Theorem ring_capture_exact depth A inner post aes es ip' grant dsz ic bc t
    (Hd : (2 <= depth <= 64)%nat)
    (Hret : Forall (λ e, br_abort e = false ∧ br_spec e ≠ ASMTEST_PERF_BR_SPEC_WRONG_PATH) (A ++ inner ++ post))
    (Hent : Forall entry_ok (A ++ inner ++ post))
    (Ha : approach base_ip len (edge <$> A) aes)
    (He : execution base_ip len true base_ip (edge <$> inner) es ip')
    (Hout : in_region base_ip len ip' = false)
    (Hin : Forall (λ e, touches e = true) inner) (Hpost : Forall stays_out post)
    (Hg : ∀ n, grant n = true) (Hnew : asmtest_trace_new grant ic bc = Some t)
    (Hcount : Z.of_nat (length (insn_stream es)) < 2 ^ 64) :
  let B := A ++ inner ++ post in
  let buf := concat (encode_sample <$> (window depth B <$> seq 1 (length B))) in
  Z.of_nat (length buf) + 16 + Z.of_nat depth * 24 <= dsz < 2 ^ 64 →
  asmtest_amd_ring_parse_decode base_ip len true (Z.of_nat depth) grant buf dsz t =
  run t (EBlock 0 :: aes ++ es).
Proof.
  intros B buf Hroom. unfold asmtest_amd_ring_parse_decode.
  destruct (ring_spec (window depth B <$> seq 1 (length B))) as (E1 & E2 & E3);
    [by apply (windows_ok depth A inner post)|].
  fold buf in E1, E2, E3. rewrite E1, E2, E3. unfold near_full. rewrite u64_small by lia. rewrite (proj2 (Z.ltb_ge dsz _)) by lia.
  rewrite andb_false_r, length_fmap, length_seq. cbn [orb].
  apply (decode_exact depth A inner post aes es ip'); try done.
  apply new_refines, (run_refines (EBlock 0 :: aes ++ es)) in Hnew as [_ -> _ _ _]. cbn [app].
  assert (in_region base_ip len base_ip = true) as Hb by (apply in_region_spec; lia).
  destruct (exec_exit_edge _ _ _ _ He Hb Hout) as [_ Hne].
  assert (insn_stream (EBlock 0 :: aes ++ es) = insn_stream es) as ->.
  { unfold insn_stream. cbn [omap list_omap]. rewrite omap_app. by destruct Ha. }
  rewrite u64_small by lia. destruct (insn_stream es); [done|simpl; lia].
Qed.
End capture.

(** Two rounds of the loop, with a stack that holds two branches. *)
Lemma ring_capture_exact_witness :
  let A := [mk_br 9 4096 false 0] in
  let inner := [mk_br 4098 4096 false 0; mk_br 4100 9 false 0] in
  let buf := concat (encode_sample <$> (window 2 (A ++ inner) <$> seq 1 3)) in
  ∃ t, asmtest_trace_new always 8 8 = Some t ∧ length buf = 168%nat ∧
    stored_insns (asmtest_amd_ring_parse_decode (H := count_down) 4096 5 true 2 always buf 4096 t) = [0; 2; 0; 2; 4].
Proof.
  intros A inner buf. exists demo_sink. split; [reflexivity|]. split; [vm_compute; reflexivity|].
  pose proof (ring_capture_exact (H := count_down) 4096 5 ltac:(lia) ltac:(lia) ltac:(lia) count_down_ok
    2 A inner [] [EBlock 0] two_rounds 9 always 4096 8 8 demo_sink ltac:(lia)) as W.
  transitivity (stored_insns (run demo_sink (EBlock 0 :: [EBlock 0] ++ two_rounds))); [|reflexivity].
  apply f_equal. apply W; clear W; try reflexivity.
  - by repeat constructor.
  - repeat constructor; simpl; unfold is_u64; lia.
  - apply (approach_call 4096 5 [] 9); [by constructor|reflexivity].
  - apply two_rounds_execution.
  - by repeat constructor.
  - by constructor.
  - vm_compute. split; congruence.
Defined.

(** ** A call is not an exit *)
(** [call F; ret] in three bytes at 4096, with [F] at 8192. *)
Definition calls_out : Decoder := {|
  disas_probe off := if off =? 0 then (2, true, false) else if off =? 2 then (1, false, true) else (0, false, false);
  disas_is_branch off := (off =? 0) || (off =? 2);
  disas_branch_target off := if off =? 0 then Some 8192 else None;
  disas_is_uncond_jump _ := false;
|}.
(** [F] takes [n] branches of its own before it returns. *)
Definition call_branches (n : nat) : list perf_branch_entry :=
  [mk_br 9 4096 false 0; mk_br 4096 8192 false 0] ++ replicate n (mk_br 8200 8192 false 0) ++
  [mk_br 8210 4098 false 0; mk_br 4098 9 false 0].

Lemma call_execution n :
  execution (H := calls_out) 4096 3 true 4096 (edge <$> drop 1 (call_branches n)) [EInsn 0; EBlock 2; EInsn 2] 9.
Proof.
  unfold call_branches. cbn [app drop]. rewrite fmap_cons, fmap_app.
  apply (exec_inside (H := calls_out) 4096 3 true 4096 4096 8192 _ [EInsn 0] [EBlock 2; EInsn 2]);
    [done..|by apply runs_source|].
  induction n as [|n IH].
  - apply (exec_outside (H := calls_out) 4096 3 true 8192 8210 4098 _ [EInsn 2]); [done..|].
    apply (exec_inside (H := calls_out) 4096 3 true 4098 4098 9 [] [EInsn 2] []);
      [done..|by apply runs_source|by constructor].
  - simpl. by apply (exec_outside (H := calls_out) 4096 3 true 8192 8200 8192 _ [EBlock 2; EInsn 2]).
Qed.

(** A capture of a routine that calls out can lose its end and pass for
    complete.  When the callee takes more branches than the stack holds, the
    richest window is the one taken at the call; the completeness check takes the
    call, a branch out of the region, for the exit of the routine, and the trace
    ends at the call without being flagged, although the routine went on. *)
Theorem call_passes_for_exit :
  let B := call_branches 20 in
  let buf := concat (encode_sample <$> (window 16 B <$> seq 1 (length B))) in
  execution (H := calls_out) 4096 3 true 4096 (edge <$> drop 1 B) [EInsn 0; EBlock 2; EInsn 2] 9 ∧
  let t := asmtest_amd_ring_parse_decode (H := calls_out) 4096 3 true 16 always buf 65536 demo_sink in
  stored_insns t = [0] ∧ truncated t = false.
Proof.
  intros B buf. split; [apply call_execution|]. unfold buf, B. vm_compute. done.
Qed.

(** ** Linearization and compaction *)
(** Linearizing the ring returns the bytes between the two counters, in
    order: byte [i] of the result is the byte at [(tail + i) mod size], across the
    wrap too. *)
Theorem dewrap_exact ring tail head dst i
    (Hr : 0 <= tail < head) (Hn : head - tail <= Z.of_nat (length ring)) (Hd : Z.of_nat (length dst) = head - tail)
    (Hi : 0 <= i < head - tail) :
  asmtest_pt_aux_dewrap ring tail head dst !! Z.to_nat i =
  ring !! Z.to_nat ((tail + i) mod Z.of_nat (length ring)).
Proof.
  unfold asmtest_pt_aux_dewrap. set (sz := Z.of_nat (length ring)) in *.
  destruct (Z.eqb_spec sz 0); [lia|]. destruct (Z.leb_spec head tail); [lia|]. cbn [orb].
  pose proof (Z.mod_pos_bound tail sz ltac:(lia)) as Hs. set (start := tail mod sz) in *.
  assert ((tail + i) mod sz = if start + i <? sz then start + i else start + i - sz) as ->.
  { rewrite <-Z.add_mod_idemp_l by lia. fold start. destruct (Z.ltb_spec (start + i) sz).
    - apply Z.mod_small. lia.
    - rewrite <-(Z_mod_plus_full _ (-1)), Z.mod_small; lia. }
  destruct (Z.ltb_spec (head - tail) (sz - start)) as [Hsm|Hsm]; cbv zeta.
  - rewrite Z.ltb_irrefl, app_nil_r. rewrite lookup_app_l by (rewrite length_take, length_drop; lia).
    rewrite lookup_take_lt, lookup_drop by lia. rewrite (proj2 (Z.ltb_lt _ _)) by lia. f_equal. lia.
  - assert (length (take (Z.to_nat (sz - start)) (drop (Z.to_nat start) ring)) = Z.to_nat (sz - start)) as Hl
      by (rewrite length_take, length_drop; lia).
    destruct (Z.ltb_spec (start + i) sz) as [Hlt|Hge].
    + rewrite !lookup_app_l by (rewrite ?length_app, ?Hl; lia).
      rewrite lookup_take_lt, lookup_drop by lia. f_equal. lia.
    + rewrite (proj2 (Z.ltb_lt _ _)) by lia.
      rewrite lookup_app_l by (rewrite length_app, Hl, length_take; lia).
      rewrite lookup_app_r by (rewrite Hl; lia). rewrite Hl, lookup_take_lt by lia. f_equal. lia.
Qed.

Lemma dewrap_exact_witness :
  asmtest_pt_aux_dewrap [10; 11; 12; 13] 6 9 [0; 0; 0] !! Z.to_nat 2 = [10; 11; 12; 13] !! 0%nat ∧
  asmtest_pt_aux_dewrap [10; 11; 12; 13] 6 9 [0; 0; 0] = [12; 13; 10].
Proof. split; [apply (dewrap_exact [10; 11; 12; 13] 6 9 [0; 0; 0] 2); simpl; lia|reflexivity]. Defined.

(** Compaction in place is a filter of the part it runs over. *)
Lemma compact_spec keep buf w i n :
  (w <= i)%nat → (i + n <= length buf)%nat →
  let '(buf', w') := compact keep buf w i n in
  length buf' = length buf ∧ (w' <= i + n)%nat ∧
  take w' buf' = take w buf ++ filter (λ x, keep x = true) (take n (drop i buf)).
Proof.
  revert buf w i. induction n as [|n IH]; intros buf w i Hw Hl; cbn [compact].
  { rewrite take_0, filter_nil, app_nil_r. split_and!; [done|lia|done]. }
  destruct (lookup_lt_is_Some_2 buf i) as [x Hx]; [lia|]. rewrite (list_lookup_total_correct _ _ _ Hx).
  rewrite (drop_S _ _ _ Hx). cbn [take]. rewrite filter_cons. destruct (keep x) eqn:Ek.
  - specialize (IH (<[w := x]> buf) (S w) (S i) ltac:(lia) ltac:(rewrite length_insert; lia)).
    destruct (compact _ _ _ _ _) as [buf' w']. destruct IH as (H1 & H2 & H3). rewrite length_insert in H1.
    rewrite decide_True by done. split_and!; [done|lia|]. rewrite H3, take_S_insert by lia.
    rewrite drop_insert_lt by lia. by rewrite <-app_assoc.
  - specialize (IH buf w (S i) ltac:(lia) ltac:(lia)).
    destruct (compact _ _ _ _ _) as [buf' w']. destruct IH as (H1 & H2 & H3).
    rewrite decide_False by congruence. split_and!; [done|lia|done].
Qed.

(** Post-filtering a whole-thread trace keeps the entries from before the
    capture and, of those appended since, exactly the ones in the region, in
    order, without a second buffer. *)
Theorem postfilter_exact t insn0 blk0 base_ip region_base region_len
    (Hi : (insn0 <= insns_len t)%nat) (Hb : (blk0 <= blocks_len t)%nat)
    (Hil : (insns_len t <= length (default [] (insns t)))%nat)
    (Hbl : (blocks_len t <= length (default [] (blocks t)))%nat) (Hr : region_len ≠ 0) :
  let keep off := let ip := base_ip +64 off in (region_base <=? ip) && (ip <? region_base +64 region_len) in
  let t' := asmtest_pt_ip_postfilter t insn0 blk0 base_ip region_base region_len in
  stored_insns t' = take insn0 (stored_insns t) ++ filter (λ x, keep x = true) (drop insn0 (stored_insns t)) ∧
  stored_blocks t' = take blk0 (stored_blocks t) ++ filter (λ x, keep x = true) (drop blk0 (stored_blocks t)).
Proof.
  intros keep t'. unfold t', asmtest_pt_ip_postfilter. destruct (Z.eqb_spec region_len 0); [done|]. fold keep.
  assert (∀ (buf : option (list Z)) n len, (n <= len)%nat → (len <= length (default [] buf))%nat →
    let '(b, l) := compact_from keep buf n len in
    stored b l = take n (stored buf len) ++ filter (λ x, keep x = true) (drop n (stored buf len))) as Hc.
  { intros buf n' len Hn Hl. unfold compact_from, stored. destruct buf as [buf|]; simpl in *.
    - pose proof (compact_spec keep buf n' n' (len - n') ltac:(lia) ltac:(lia)) as Hs.
      destruct (compact _ _ _ _ _) as [b w]. destruct Hs as (_ & _ & Hs). simpl.
      rewrite Hs, take_take, Nat.min_l by lia. f_equal. f_equal.
      by rewrite take_drop_commute, Nat.add_comm, Nat.sub_add by lia.
    - assert (n' = O ∧ len = O) as [-> ->] by lia. done. }
  pose proof (Hc (insns t) insn0 (insns_len t) Hi Hil) as H1.
  pose proof (Hc (blocks t) blk0 (blocks_len t) Hb Hbl) as H2.
  destruct (compact_from keep (insns t) _ _) as [ib il], (compact_from keep (blocks t) _ _) as [bb bl]. done.
Qed.

Lemma postfilter_exact_witness :
  let t := mk_trace (Some [1; 100; 7; 200; 8]) 5 5 5 (Some [1; 100; 7]) 3 3 3 false in
  let t' := asmtest_pt_ip_postfilter t 1 1 4096 4096 16 in
  stored_insns t' = [1; 7; 8] ∧ stored_blocks t' = [1; 7].
Proof.
  intros t t'. destruct (postfilter_exact t 1 1 4096 4096 16) as [E1 E2]; [simpl; lia..|done|].
  unfold t'. rewrite E1, E2. split; reflexivity.
Defined.
End HwRing.
