(* ===== verification/Stitch.v ===== *)
(** The merge of per-thread trace slices into one stream ([src/hwtrace.c],
    [asmtest_hwtrace_stitch] and [asmtest_hwtrace_stitch_handles]). *)
From S2P Require Import Prelude Trace Amd.
Import Trace Amd.

Module Stitch.

Record slice := mk_slice { s_scope_id : Z; s_seq : Z; s_tid : Z; s_version : Z; s_trace : asmtest_trace }.
Record slice_bound := mk_bound { b_insn_off : nat; b_scope_id : Z; b_seq : Z; b_tid : Z; b_version : Z }.
Definition STITCH_MAX_SLICES : nat := 4096.
Definition ASMTEST_HW_EINVAL : Z := -1.
Definition ASMTEST_HW_EUNAVAIL : Z := -3.

Section merge.
Context (slices : list slice).
(** [slices[i].seq] *)
Definition seq_of (i : nat) : Z := default 0 (s_seq <$> slices !! i).

(** The inner loop: the position of the smallest sequence number among [m] and the
    [n] positions from [j]. *)
Fixpoint min_pos (order : list nat) (m j : nat) (n : nat) : nat :=
  match n with
  | O => m
  | S n => min_pos order (if seq_of (order !!! j) <? seq_of (order !!! m) then j else m) (S j) n
  end.
Definition swap (order : list nat) (i j : nat) : list nat :=
  <[j := order !!! i]> (<[i := order !!! j]> order).
(** The outer loop, [n] rounds from [i]. *)
Fixpoint selection_sort (order : list nat) (i : nat) (n : nat) : list nat :=
  match n with
  | O => order
  | S n =>
      let m := min_pos order i (S i) (length order - S i) in
      selection_sort (if (m =? i)%nat then order else swap order i m) (S i) n
  end.
Definition slice_order : list nat :=
  selection_sort (seq 0 (length slices)) 0 (length slices - 1).

(** One round of the concatenation. *)
Definition merge_one (st : asmtest_trace * list slice_bound) (s : slice) : asmtest_trace * list slice_bound :=
  let '(out, bounds) := st in
  let b := mk_bound (insns_len out) (s_scope_id s) (s_seq s) (s_tid s) (s_version s) in
  let out := foldl append_insn out (stored_insns (s_trace s)) in
  let out := foldl append_block out (stored_blocks (s_trace s)) in
  (if truncated (s_trace s) then set_truncated out else out, bounds ++ [b]).

Definition ordered_slices : list slice := omap (λ i, slices !! i) slice_order.

Definition asmtest_hwtrace_stitch (grant : allocator) (out : asmtest_trace) :
    Z * (asmtest_trace * list slice_bound) :=
  if (STITCH_MAX_SLICES <? length slices)%nat then (ASMTEST_HW_EINVAL, (out, []))
  else if (length slices =? 0)%nat then (ASMTEST_HW_OK, (out, []))
  else if negb (grant (Z.of_nat (length slices) * 8)) then (ASMTEST_HW_EUNAVAIL, (out, []))
  else (ASMTEST_HW_OK, foldl merge_one (out, []) ordered_slices).
End merge.

(** ** The bridge from handles

    A [NULL] array is [None]; [traces] has an entry per handle, [None] for a
    [NULL] one. *)
Definition sizeof_slice : Z := 96.
Definition scalar (xs : option (list Z)) (dflt : Z) (i : nat) : Z :=
  match xs with Some xs => xs !!! i | None => dflt end.
(** The slices built before the first [NULL] entry; [None] when there is one. *)
Fixpoint build_slices (traces : list (option asmtest_trace)) (scope_ids seqs tids versions : option (list Z))
    (i : nat) : option (list slice) :=
  match traces with
  | [] => Some []
  | None :: _ => None
  | Some t :: traces =>
      let s := mk_slice (scalar scope_ids 0 i) (scalar seqs (u32 (Z.of_nat i)) i) (scalar tids 0 i)
                 (scalar versions 0 i) t in
      (cons s) <$> build_slices traces scope_ids seqs tids versions (S i)
  end.
Definition asmtest_hwtrace_stitch_handles (grant : allocator) (traces : list (option asmtest_trace))
    (scope_ids seqs tids versions : option (list Z)) (out : asmtest_trace) :
    Z * (asmtest_trace * list slice_bound) :=
  if (length traces =? 0)%nat then (ASMTEST_HW_OK, (out, []))
  else if negb (grant (Z.of_nat (length traces) * sizeof_slice)) then (ASMTEST_HW_EUNAVAIL, (out, []))
  else match build_slices traces scope_ids seqs tids versions 0 with
       | None => (ASMTEST_HW_EINVAL, (out, []))
       | Some sl => asmtest_hwtrace_stitch sl grant out
       end.

(** ** The sort *)
Section sort.
Context (slices : list slice).
Abbreviation key order i := (seq_of slices (order !!! i)).

Lemma min_pos_spec order m j n :
  let p := min_pos slices order m j n in
  (p = m ∨ (j <= p < j + n)%nat) ∧ key order p <= key order m ∧
  ∀ b, (j <= b < j + n)%nat → key order p <= key order b.
Proof.
  revert m j. induction n as [|n IH]; intros m j; cbn [min_pos].
  { split_and!; [by left|lia|intros; lia]. }
  destruct (Z.ltb_spec (key order j) (key order m)) as [Hlt|Hge].
  - destruct (IH j (S j)) as (H1 & H2 & H3). split_and!; [lia..|]. intros b Hb.
    destruct (decide (b = j)) as [->|]; [done|]. apply H3. lia.
  - destruct (IH m (S j)) as (H1 & H2 & H3). split_and!; [lia..|]. intros b Hb.
    destruct (decide (b = j)) as [->|]; [lia|]. apply H3. lia.
Qed.

(** The first [i] positions are settled: each is at most everything after it. *)
Definition settled (order : list nat) (i : nat) : Prop :=
  ∀ a b, (a < i)%nat → (a < b < length order)%nat → key order a <= key order b.

Lemma swap_lookup order i m k :
  (i < length order)%nat → (m < length order)%nat →
  swap order i m !!! k = if decide (k = m) then order !!! i else if decide (k = i) then order !!! m else order !!! k.
Proof.
  intros Hi Hm. unfold swap. repeat case_decide; subst.
  - rewrite list_lookup_total_insert_eq; [done|]. by rewrite length_insert.
  - rewrite list_lookup_total_insert_ne by done. by rewrite list_lookup_total_insert_eq.
  - by rewrite !list_lookup_total_insert_ne by done.
Qed.

Lemma selection_sort_spec order i n :
  settled order i → (i + n < length order)%nat →
  selection_sort slices order i n ≡ₚ order ∧ settled (selection_sort slices order i n) (i + n).
Proof.
  revert order i. induction n as [|n IH]; intros order i Hs Hl; cbn [selection_sort].
  { by rewrite Nat.add_0_r. }
  destruct (min_pos_spec order i (S i) (length order - S i)) as (Hp & Hle & Hall).
  set (m := min_pos _ _ _ _ _) in *.
  assert (key order m <= key order i ∧ ∀ b, (i < b < length order)%nat → key order m <= key order b) as [_ Hmin].
  { split; [done|]. intros b Hb. apply Hall. lia. }
  destruct (Nat.eqb_spec m i) as [E|Hne].
  - destruct (IH order (S i)) as [H1 H2]; [|lia|].
    + intros a b Ha Hb. destruct (decide (a = i)) as [->|]; [rewrite <-E at 1; apply Hmin; lia|apply Hs; lia].
    + split; [done|]. by replace (i + S n)%nat with (S i + n)%nat by lia.
  - assert (length (swap order i m) = length order) as Hls by (unfold swap; by rewrite !length_insert).
    assert (swap order i m ≡ₚ order) as Hperm.
    { unfold swap. apply Permutation_insert_swap; apply list_lookup_lookup_total_lt; lia. }
    destruct (IH (swap order i m) (S i)) as [H1 H2]; [|lia|].
    + intros a b Ha Hb. rewrite Hls in Hb. rewrite !swap_lookup by lia.
      repeat case_decide; subst; try lia; try (apply Hs; lia); try (apply Hmin; lia).
    + split; [by etrans|]. by replace (i + S n)%nat with (S i + n)%nat by lia.
Qed.

Lemma slice_order_spec :
  slice_order slices ≡ₚ seq 0 (length slices) ∧ settled (slice_order slices) (length slices).
Proof.
  unfold slice_order. destruct (decide (length slices = O)) as [E|Hne].
  { rewrite E. simpl. split; [done|]. intros a b ? ?. lia. }
  destruct (selection_sort_spec (seq 0 (length slices)) 0 (length slices - 1)) as [H1 H2].
  - intros a b ?. lia.
  - rewrite length_seq. lia.
  - split; [done|]. intros a b Ha Hb.
    assert (length (selection_sort slices (seq 0 (length slices)) 0 (length slices - 1)) = length slices) as El
      by (by rewrite H1, length_seq).
    apply H2; [lia|done].
Qed.
End sort.

(** ** The concatenation *)
(** The fill-point calls one slice makes. *)
Definition replayed (s : slice) : list event :=
  (EInsn <$> stored_insns (s_trace s)) ++ (EBlock <$> stored_blocks (s_trace s)).
Definition any_truncated (l : list slice) : bool := existsb (λ s, truncated (s_trace s)) l.
Definition mark (b : bool) (t : asmtest_trace) : asmtest_trace := if b then set_truncated t else t.

Lemma feed_mark b t e : feed (mark b t) e = mark b (feed t e).
Proof.
  destruct b; [|done]. destruct e; simpl; unfold append_insn, append_block, set_truncated; simpl;
    repeat (case_match; simplify_eq/=; try done).
Qed.

Lemma run_mark b t es : run (mark b t) es = mark b (run t es).
Proof. revert t. induction es as [|e es IH]; intros t; simpl; [done|]. by rewrite feed_mark, IH. Qed.

Lemma mark_mark a b t : mark a (mark b t) = mark (b || a) t.
Proof. by destruct a, b. Qed.

Lemma run_replayed t s :
  foldl append_block (foldl append_insn t (stored_insns (s_trace s))) (stored_blocks (s_trace s)) = run t (replayed s).
Proof.
  assert (∀ l t, foldl append_insn t l = run t (EInsn <$> l)) as Hi by (induction l; simpl; auto).
  assert (∀ l t, foldl append_block t l = run t (EBlock <$> l)) as Hb by (induction l; simpl; auto).
  unfold replayed. by rewrite run_app, <-Hi, <-Hb.
Qed.

Definition raw_bound (out : asmtest_trace) (before : list slice) (s : slice) : slice_bound :=
  mk_bound (insns_len (run out (concat (replayed <$> before)))) (s_scope_id s) (s_seq s) (s_tid s) (s_version s).

Lemma merge_spec out l :
  foldl merge_one (out, []) l =
  (mark (any_truncated l) (run out (concat (replayed <$> l))), imap (λ k, raw_bound out (take k l)) l).
Proof.
  induction l as [|s l IH] using rev_ind; [done|]. rewrite foldl_snoc, IH. unfold merge_one at 1.
  rewrite run_replayed, run_mark. f_equal.
  - change (mark (truncated (s_trace s)) (mark (any_truncated l)
      (run (run out (concat (replayed <$> l))) (replayed s))) =
      mark (any_truncated (l ++ [s])) (run out (concat (replayed <$> l ++ [s])))).
    rewrite mark_mark. unfold any_truncated. rewrite existsb_app. simpl. rewrite orb_false_r.
    by rewrite fmap_app, concat_app, run_app; simpl; rewrite app_nil_r.
  - rewrite imap_app. simpl. rewrite Nat.add_0_r, take_app_length. f_equal.
    + apply imap_ext. intros k x Hk. apply lookup_lt_Some in Hk. by rewrite take_app_le by lia.
    + do 2 f_equal. unfold raw_bound. f_equal. by destruct (any_truncated l).
Qed.

Lemma replayed_streams l :
  insn_stream (concat (replayed <$> l)) = concat (stored_insns ∘ s_trace <$> l) ∧
  block_stream (concat (replayed <$> l)) = concat (stored_blocks ∘ s_trace <$> l).
Proof.
  assert (∀ xs, insn_stream (EInsn <$> xs) = xs) as H1 by (induction xs; [done|by f_equal/=]).
  assert (∀ xs, insn_stream (EBlock <$> xs) = []) as H2 by (induction xs; [done|by f_equal/=]).
  assert (∀ xs, block_stream (EBlock <$> xs) = xs) as H3 by (induction xs; [done|by f_equal/=]).
  assert (∀ xs, block_stream (EInsn <$> xs) = []) as H4 by (induction xs; [done|by f_equal/=]).
  unfold insn_stream, block_stream in *.
  induction l as [|s l [IH1 IH2]]; [done|].
  rewrite !fmap_cons. cbn [concat]. rewrite !omap_app, IH1, IH2. unfold replayed. by rewrite !omap_app, H1, H2, H3, H4, app_nil_r.
Qed.

(** Where a slice begins in a sink of capacity [cap]. *)
Definition bound_of (cap : nat) (before : list slice) (s : slice) : slice_bound :=
  mk_bound (cap `min` length (concat (stored_insns ∘ s_trace <$> before)))
    (s_scope_id s) (s_seq s) (s_tid s) (s_version s).

Lemma feed_caps t e :
  insns_cap (feed t e) = insns_cap t ∧ blocks_cap (feed t e) = blocks_cap t.
Proof. destruct e; simpl; unfold append_insn, append_block; repeat case_match; done. Qed.

Lemma sink_caps t es : insns_cap (run t es) = insns_cap t ∧ blocks_cap (run t es) = blocks_cap t.
Proof.
  revert t. induction es as [|e es IH]; intros t; simpl; [done|].
  destruct (IH (feed t e)) as [-> ->]. apply feed_caps.
Qed.

Lemma raw_bound_of out before s : refines out [] [] → raw_bound out before s = bound_of (insns_cap out) before s.
Proof.
  intros Ho. pose proof (run_refines (concat (replayed <$> before)) _ _ _ Ho) as [Hi _ _ _ _].
  unfold raw_bound, bound_of. f_equal. rewrite (proj1 (replayed_streams before)) in Hi. simpl in Hi.
  destruct (sink_caps out (concat (replayed <$> before))) as [Ec _]. rewrite Ec in Hi.
  unfold holds in Hi. destruct (insns _); [tauto|]. destruct Hi as [-> ->]. done.
Qed.

Lemma ordered_slices_perm slices : ordered_slices slices ≡ₚ slices.
Proof.
  unfold ordered_slices. rewrite (proj1 (slice_order_spec slices)).
  assert (∀ pre l : list slice, omap (λ i, (pre ++ l) !! i) (seq (length pre) (length l)) = l) as H.
  { intros pre l. revert pre. induction l as [|x l IH]; intros pre; [done|]. simpl.
    rewrite list_lookup_middle by done. f_equal.
    specialize (IH (pre ++ [x])). rewrite length_app, Nat.add_1_r in IH. by rewrite <-app_assoc in IH. }
  pose proof (H [] slices) as E. simpl in E. by rewrite E.
Qed.

Lemma ordered_slices_sorted slices : StronglySorted Z.le (s_seq <$> ordered_slices slices).
Proof.
  destruct (slice_order_spec slices) as [Hp Hs].
  assert (length (slice_order slices) = length slices) as El by (by rewrite Hp, length_seq).
  assert (Forall (λ i, (i < length slices)%nat) (slice_order slices)) as Hin.
  { rewrite Hp. apply Forall_seq. lia. }
  rewrite <-El in Hs. unfold ordered_slices. clear Hp El.
  induction (slice_order slices) as [|i l IH]; [constructor|]. simpl. inv Hin.
  destruct (lookup_lt_is_Some_2 slices i) as [s Es]; [done|]. rewrite Es. simpl.
  assert (settled slices l (length l)) as Hl.
  { intros a b Ha Hb. apply (Hs (S a) (S b)); simpl; lia. }
  constructor; [by apply IH|]. rewrite Forall_fmap, Forall_forall. intros s' (j & Hj & Ej)%list_elem_of_omap.
  apply list_elem_of_lookup in Hj as [k Hk]. specialize (Hs O (S k)). simpl in Hs.
  pose proof (lookup_lt_Some _ _ _ Hk). unfold seq_of in Hs.
  rewrite (list_lookup_total_correct _ _ _ Hk), Es, Ej in Hs. simpl in *. lia.
Qed.

Lemma any_truncated_perm l l' : l ≡ₚ l' → any_truncated l = any_truncated l'.
Proof.
  intros Hp. apply eq_true_iff_eq. unfold any_truncated. rewrite !existsb_exists.
  setoid_rewrite <-list_elem_of_In. by setoid_rewrite Hp.
Qed.

(** Stitching slices into a fresh sink sorts them by sequence number and
    concatenates what they recorded, cut only by the sink's capacity; each bound is
    where its slice begins; the result is truncated exactly when a slice was or the
    sink ran out of room. *)
Theorem slices_merge_exact slices grant ic bc out
    (Hn : (length slices <= STITCH_MAX_SLICES)%nat) (Hm : grant (Z.of_nat (length slices) * 8) = true)
    (Hout : asmtest_trace_new grant ic bc = Some out) :
  ∃ sl out',
    asmtest_hwtrace_stitch slices grant out =
      (ASMTEST_HW_OK, (out', imap (λ k, bound_of (insns_cap out) (take k sl)) sl)) ∧
    sl ≡ₚ slices ∧ StronglySorted Z.le (s_seq <$> sl) ∧
    let xs := concat (stored_insns ∘ s_trace <$> sl) in
    let bs := distinct (concat (stored_blocks ∘ s_trace <$> sl)) in
    stored_insns out' = take (insns_cap out) xs ∧ stored_blocks out' = take (blocks_cap out) bs ∧
    truncated out' = any_truncated slices || dropped (insns out') (insns_cap out') xs
                     || dropped (blocks out') (blocks_cap out') bs.
Proof.
  apply new_refines in Hout. exists (ordered_slices slices), (foldl merge_one (out, []) (ordered_slices slices)).1.
  pose proof (ordered_slices_perm slices) as Hp. rewrite merge_spec. cbn [fst].
  refine (conj _ (conj Hp (conj (ordered_slices_sorted slices) _))).
  { unfold asmtest_hwtrace_stitch. rewrite (proj2 (Nat.ltb_ge _ _)) by done. rewrite Hm, merge_spec. cbn [negb].
    rewrite (imap_ext _ (λ k, bound_of (insns_cap out) (take k (ordered_slices slices))))
      by (intros; by apply raw_bound_of).
    destruct (Nat.eqb_spec (length slices) 0) as [E|]; [|done].
    apply nil_length_inv in E as ->. done. }
  pose proof (run_refines (concat (replayed <$> ordered_slices slices)) _ _ _ Hout) as [Hi _ Hb _ Ht].
  destruct (replayed_streams (ordered_slices slices)) as [E1 E2]. rewrite E1 in *. rewrite E2 in *. simpl in *.
  destruct (sink_caps out (concat (replayed <$> ordered_slices slices))) as [Ec1 Ec2].
  rewrite <-(any_truncated_perm _ _ Hp). apply holds_stored in Hi, Hb. rewrite Ec1 in Hi. rewrite Ec2 in Hb.
  destruct (any_truncated (ordered_slices slices)); split_and!; done.
Qed.

Definition demo_slice (seq : Z) (xs : list Z) : slice :=
  mk_slice 1 seq (seq + 100) 0 (mk_trace (Some xs) (length xs) (length xs) (Z.of_nat (length xs)) (Some [0]) 1 1 1 false).
Definition demo_slices : list slice := [demo_slice 2 [5; 6]; demo_slice 0 [0; 3]; demo_slice 1 [4]].

Lemma slices_merge_exact_witness :
  ∃ out sl out', asmtest_trace_new always 4 4 = Some out ∧
    asmtest_hwtrace_stitch demo_slices always out =
      (ASMTEST_HW_OK, (out', imap (λ k, bound_of (insns_cap out) (take k sl)) sl)) ∧
    sl ≡ₚ demo_slices ∧ StronglySorted Z.le (s_seq <$> sl) ∧
    stored_insns (asmtest_hwtrace_stitch demo_slices always out).2.1 = [0; 3; 4; 5].
Proof.
  eexists. destruct (slices_merge_exact demo_slices always 4 4 _ ltac:(unfold STITCH_MAX_SLICES; simpl; lia) eq_refl eq_refl)
    as (sl & out' & H1 & H2 & H3 & _).
  exists sl, out'. split_and!; [reflexivity|exact H1|exact H2|exact H3|reflexivity].
Defined.

(** The order of slices with equal sequence numbers is not kept: the swap carries
    the first of two equals past the second. *)
Theorem stitch_order_not_stable :
  slice_order [demo_slice 2 [5]; demo_slice 2 [6]; demo_slice 1 [4]] = [2; 1; 0]%nat.
Proof. reflexivity. Qed.

(** A single slice comes back with its recorded entries but not its totals: what
    the slice dropped, and every repeat of a block, is gone from the count. *)
Theorem single_slice_totals_reset slices grant out s
    (Hs : slices = [s]) (Hg : grant 8 = true)
    (Hout : refines out [] []) :
  let out' := (asmtest_hwtrace_stitch slices grant out).2.1 in
  insns_total out' = u64 (Z.of_nat (length (stored_insns (s_trace s)))) ∧
  blocks_total out' = u64 (Z.of_nat (length (stored_blocks (s_trace s)))).
Proof.
  subst slices. unfold asmtest_hwtrace_stitch. change (Z.of_nat (length [s]) * 8) with 8. rewrite Hg.
  change (ordered_slices [s]) with [s]. rewrite merge_spec. cbn [snd fst negb length Nat.eqb].
  change (STITCH_MAX_SLICES <? 1)%nat with false. cbn [snd fst].
  pose proof (run_refines (concat (replayed <$> [s])) _ _ _ Hout) as [_ Hi _ Hb _].
  destruct (replayed_streams [s]) as [E1 E2]. rewrite E1 in Hi. rewrite E2 in Hb.
  destruct (any_truncated [s]); cbn [mark insns_total set_truncated blocks_total]; rewrite Hi, Hb; simpl;
    by rewrite !app_nil_r.
Qed.
End Stitch.
