(* ===== verification/TraceAuto.v ===== *)
(** Choosing a way to trace ([src/trace_auto.c], and the backend cascade of
    [src/hwtrace.c]): the resolvers over what the host offers, and the escalating
    call that re-runs a routine until a capture is complete. *)
From S2P Require Import Prelude Trace Amd.
Import Trace Amd.

Module TraceAuto.

Inductive tier := ASMTEST_TIER_HWTRACE | ASMTEST_TIER_DYNAMORIO | ASMTEST_TIER_EMULATOR.
Inductive backend :=
  ASMTEST_HWTRACE_INTEL_PT | ASMTEST_HWTRACE_CORESIGHT | ASMTEST_HWTRACE_AMD_LBR | ASMTEST_HWTRACE_SINGLESTEP.
Inductive fidelity := ASMTEST_FIDELITY_NATIVE | ASMTEST_FIDELITY_VIRTUAL | ASMTEST_FIDELITY_STATISTICAL.
Inductive mechanism :=
  MECH_NONE | MECH_HW_BRANCH | MECH_TF_STEP | MECH_MSR_LBR | MECH_BLOCKSTEP | MECH_PER_INSN
| MECH_DBI | MECH_EMULATOR | MECH_STATISTICAL.
#[export] Instance tier_eq_dec : EqDecision tier.
Proof. solve_decision. Defined.
#[export] Instance backend_eq_dec : EqDecision backend.
Proof. solve_decision. Defined.
#[export] Instance fidelity_eq_dec : EqDecision fidelity.
Proof. solve_decision. Defined.
#[export] Instance mechanism_eq_dec : EqDecision mechanism.
Proof. solve_decision. Defined.

(** [cascade_row_t] and [asmtest_trace_choice_t] have the same fields. *)
Record choice := mk_choice {
  c_tier : tier; c_backend : backend; c_fidelity : fidelity; c_mechanism : mechanism;
}.

(** The [0] of the rows that have no backend is [ASMTEST_HWTRACE_INTEL_PT]. *)
Definition CASCADE : list choice := [
  mk_choice ASMTEST_TIER_HWTRACE ASMTEST_HWTRACE_INTEL_PT ASMTEST_FIDELITY_NATIVE MECH_HW_BRANCH;
  mk_choice ASMTEST_TIER_HWTRACE ASMTEST_HWTRACE_AMD_LBR ASMTEST_FIDELITY_NATIVE MECH_HW_BRANCH;
  mk_choice ASMTEST_TIER_DYNAMORIO ASMTEST_HWTRACE_INTEL_PT ASMTEST_FIDELITY_NATIVE MECH_DBI;
  mk_choice ASMTEST_TIER_HWTRACE ASMTEST_HWTRACE_SINGLESTEP ASMTEST_FIDELITY_NATIVE MECH_TF_STEP;
  mk_choice ASMTEST_TIER_HWTRACE ASMTEST_HWTRACE_CORESIGHT ASMTEST_FIDELITY_NATIVE MECH_HW_BRANCH;
  mk_choice ASMTEST_TIER_EMULATOR ASMTEST_HWTRACE_INTEL_PT ASMTEST_FIDELITY_VIRTUAL MECH_EMULATOR
].

Definition ASMTEST_HW_EINVAL : Z := -1.
Definition ASMTEST_HW_EUNAVAIL : Z := -3.
Definition ASMTEST_PTRACE_OK : Z := 0.
(** The policy bits. *)
Definition ceiling_free (policy : Z) : bool := Z.testbit policy 0.
Definition native_only (policy : Z) : bool := Z.testbit policy 1.

(** ** Resolving *)
Section resolve.
(** What the host offers: [asmtest_hwtrace_available] and the DynamoRIO probe. *)
Context (hw_available : backend → bool) (dr_available : bool).

Definition row_available (row : choice) (policy : Z) : bool :=
  match c_tier row with
  | ASMTEST_TIER_HWTRACE =>
      if ceiling_free policy && bool_decide (c_backend row = ASMTEST_HWTRACE_AMD_LBR) then false
      else hw_available (c_backend row)
  | ASMTEST_TIER_DYNAMORIO => dr_available
  | ASMTEST_TIER_EMULATOR => negb (native_only policy)
  end.

Fixpoint resolve_loop (rows : list choice) (policy : Z) (cap : nat) : list choice :=
  match rows, cap with
  | row :: rows, S cap' =>
      if row_available row policy then row :: resolve_loop rows policy cap'
      else resolve_loop rows policy cap
  | _, _ => []
  end.
Definition asmtest_trace_resolve (policy : Z) (cap : nat) : list choice := resolve_loop CASCADE policy cap.

Definition asmtest_trace_auto (policy : Z) : Z * option choice :=
  match asmtest_trace_resolve policy 1 with
  | [] => (ASMTEST_HW_EUNAVAIL, None)
  | c :: _ => (ASMTEST_HW_OK, Some c)
  end.

(** The hardware tier's own cascade. *)
Definition hw_order : list backend :=
  [ASMTEST_HWTRACE_INTEL_PT; ASMTEST_HWTRACE_AMD_LBR; ASMTEST_HWTRACE_SINGLESTEP; ASMTEST_HWTRACE_CORESIGHT].
Fixpoint hw_resolve_loop (order : list backend) (free : bool) (cap : nat) : list backend :=
  match order, cap with
  | b :: order, S cap' =>
      if free && bool_decide (b = ASMTEST_HWTRACE_AMD_LBR) then hw_resolve_loop order free cap
      else if hw_available b then b :: hw_resolve_loop order free cap'
      else hw_resolve_loop order free cap
  | _, _ => []
  end.
Definition asmtest_hwtrace_resolve (free : bool) (cap : nat) : list backend := hw_resolve_loop hw_order free cap.
Definition asmtest_hwtrace_auto (free : bool) : option backend := hd_error (asmtest_hwtrace_resolve free 1).
End resolve.

(** ** The escalating call *)
(** What the tiers do when they are tried on a trace: the fast one ([None] when
    [init] or the registration fails), the MSR read with its return code, the
    block stepper and the single stepper with theirs. *)
Record tiers := mk_tiers {
  t_hw_available : backend → bool;
  t_fast : backend → asmtest_trace → option asmtest_trace;
  t_msr_available : bool;
  t_msr : asmtest_trace → Z * asmtest_trace;
  t_blockstep_available : bool;
  t_blockstep : asmtest_trace → Z * asmtest_trace;
  t_ptrace_available : bool;
  t_ptrace : asmtest_trace → Z * asmtest_trace;
}.

Definition call_auto_reset (t : asmtest_trace) : asmtest_trace :=
  mk_trace (insns t) (insns_cap t) 0 0 (blocks t) (blocks_cap t) 0 0 false.

Definition asmtest_trace_auto_msr_commits (rc : Z) (trunc nonempty : bool) : bool :=
  (rc =? ASMTEST_HW_OK) && (negb trunc || nonempty).

Definition nonempty (t : asmtest_trace) : bool := (0 <? insns_total t) || (0 <? blocks_total t).

Definition hw_choice (b : backend) (m : mechanism) : choice :=
  mk_choice ASMTEST_TIER_HWTRACE b ASMTEST_FIDELITY_NATIVE m.
Definition no_choice : choice := hw_choice ASMTEST_HWTRACE_SINGLESTEP MECH_NONE.

(** Between two rungs: [ran], [*used] and the trace. *)
Record rung := mk_rung { ran : bool; used : choice; tr : asmtest_trace }.

Section call.
Context (T : tiers) (policy : Z).

Definition rung_fast (st : rung) : rung :=
  match asmtest_hwtrace_auto (t_hw_available T) (ceiling_free policy) with
  | None => st
  | Some b =>
      match t_fast T b (tr st) with
      | None => st
      | Some t =>
          mk_rung true (hw_choice b (if bool_decide (b = ASMTEST_HWTRACE_SINGLESTEP)
                                     then MECH_TF_STEP else MECH_HW_BRANCH)) t
      end
  end.

(** [inl] is the early return with [ASMTEST_HW_OK]. *)
Definition rung_msr (st : rung) : rung + rung :=
  if negb (ceiling_free policy) && t_msr_available T then
    let '(rc, t) := t_msr T (call_auto_reset (tr st)) in
    if asmtest_trace_auto_msr_commits rc (truncated t) (nonempty t)
    then inl (mk_rung true (hw_choice ASMTEST_HWTRACE_AMD_LBR MECH_MSR_LBR) t)
    else inr (mk_rung false (used st) (set_truncated t))
  else inr st.

Definition rung_blockstep (st : rung) : rung + rung :=
  if t_blockstep_available T then
    let '(rc, t) := t_blockstep T (call_auto_reset (tr st)) in
    if rc =? ASMTEST_PTRACE_OK then
      let st := mk_rung true (hw_choice ASMTEST_HWTRACE_SINGLESTEP MECH_BLOCKSTEP) t in
      if truncated t then inr st else inl st
    else inr (mk_rung false (used st) (set_truncated t))
  else inr st.

Definition rung_ptrace (st : rung) : rung :=
  if t_ptrace_available T then
    let '(rc, t) := t_ptrace T (call_auto_reset (tr st)) in
    if rc =? ASMTEST_PTRACE_OK
    then mk_rung true (hw_choice ASMTEST_HWTRACE_SINGLESTEP MECH_PER_INSN) t
    else mk_rung false (used st) (set_truncated t)
  else st.

(** The return code, [*used] ([None] when it is not written) and the trace. *)
Definition asmtest_trace_call_auto (len nargs : Z) (t : asmtest_trace) : Z * option choice * asmtest_trace :=
  if (len =? 0) || (nargs <? 0) || (6 <? nargs) then (ASMTEST_HW_EINVAL, None, t)
  else
    let ok st := (ASMTEST_HW_OK, Some (used st), tr st) in
    let st := rung_fast (mk_rung false no_choice t) in
    if ran st && negb (truncated (tr st)) then ok st
    else match rung_msr st with
    | inl st => ok st
    | inr st =>
        match rung_blockstep st with
        | inl st => ok st
        | inr st =>
            let st := rung_ptrace st in
            if ran st then ok st else (ASMTEST_HW_EUNAVAIL, Some no_choice, tr st)
        end
    end.

(** ** What a choice stands for *)
(** [t'] is what the tier named by [c] captured: the fast one on the caller's
    trace [t], the others on a trace cleared of what was captured before. *)
Definition captured_by (c : choice) (t t' : asmtest_trace) : Prop :=
  (∃ b, asmtest_hwtrace_auto (t_hw_available T) (ceiling_free policy) = Some b ∧ t_fast T b t = Some t' ∧
        c = hw_choice b (if bool_decide (b = ASMTEST_HWTRACE_SINGLESTEP) then MECH_TF_STEP else MECH_HW_BRANCH)) ∨
  (∃ s, c = hw_choice ASMTEST_HWTRACE_AMD_LBR MECH_MSR_LBR ∧ t_msr T (call_auto_reset s) = (ASMTEST_HW_OK, t') ∧
        (truncated t' = false ∨ nonempty t' = true)) ∨
  (∃ s, c = hw_choice ASMTEST_HWTRACE_SINGLESTEP MECH_BLOCKSTEP ∧
        t_blockstep T (call_auto_reset s) = (ASMTEST_PTRACE_OK, t')) ∨
  (∃ s, c = hw_choice ASMTEST_HWTRACE_SINGLESTEP MECH_PER_INSN ∧
        t_ptrace T (call_auto_reset s) = (ASMTEST_PTRACE_OK, t')).

(** A rung that ran holds what its choice says; one that escalated is not
    complete. *)
Definition sound (t : asmtest_trace) (st : rung) : Prop := ran st = true → captured_by (used st) t (tr st).

Lemma rung_fast_sound t : sound t (rung_fast (mk_rung false no_choice t)).
Proof.
  unfold rung_fast, sound. destruct (asmtest_hwtrace_auto _ _) as [b|] eqn:Eb; [|done]. cbn [tr].
  destruct (t_fast T b t) as [t'|] eqn:Et; [|done]. intros _. left. eauto.
Qed.

Lemma rung_msr_sound t st :
  sound t st →
  match rung_msr st with
  | inl st' => ran st' = true ∧ sound t st' ∧ c_mechanism (used st') = MECH_MSR_LBR
  | inr st' => sound t st'
  end.
Proof.
  intros Hs. unfold rung_msr. destruct (_ && _); [|done].
  destruct (t_msr T _) as [rc t'] eqn:E. unfold asmtest_trace_auto_msr_commits.
  destruct (Z.eqb_spec rc ASMTEST_HW_OK) as [->|]; [|by intros ?].
  destruct (negb (truncated t') || nonempty t') eqn:En; simpl; [|by intros ?].
  split_and!; [done| |done]. intros _. right. left. exists (tr st). split_and!; [done..|].
  cbn [tr]. destruct (truncated t'); [right; exact En|by left].
Qed.

Lemma rung_blockstep_sound t st :
  sound t st →
  match rung_blockstep st with
  | inl st' => ran st' = true ∧ sound t st' ∧ truncated (tr st') = false
  | inr st' => sound t st' ∧
      (t_blockstep_available T = true → ran st' = true → c_mechanism (used st') = MECH_BLOCKSTEP)
  end.
Proof.
  intros Hs. unfold rung_blockstep. destruct (t_blockstep_available T); [|done].
  destruct (t_blockstep T _) as [rc t'] eqn:E.
  destruct (Z.eqb_spec rc ASMTEST_PTRACE_OK) as [->|]; [|by split; [intros ?|]].
  assert (sound t (mk_rung true (hw_choice ASMTEST_HWTRACE_SINGLESTEP MECH_BLOCKSTEP) t')) as Hc
    by (intros _; right; right; left; eauto).
  by destruct (truncated t') eqn:Et.
Qed.

Lemma rung_ptrace_sound t st :
  sound t st →
  let st' := rung_ptrace st in
  sound t st' ∧ (t_ptrace_available T = true → ran st' = true → c_mechanism (used st') = MECH_PER_INSN) ∧
  (t_ptrace_available T = false → st' = st).
Proof.
  intros Hs. unfold rung_ptrace. destruct (t_ptrace_available T); [|done].
  destruct (t_ptrace T _) as [rc t'] eqn:E.
  destruct (Z.eqb_spec rc ASMTEST_PTRACE_OK) as [->|]; [|by split_and!; [intros ?|..]].
  split_and!; [|done..]. intros _. do 3 right. eauto.
Qed.

(** C37: an escalating call says truthfully what it did.  When it succeeds, the
    trace is the capture of exactly the tier that [*used] names, never a mixture
    with an earlier attempt nor an empty left-over of one that failed; and when
    that capture is truncated, it is the tier of the last resort that was
    available, or a branch-stack read that did record something.  When no tier
    delivered, the call fails and names none. *)
Theorem call_auto_truthful len nargs t :
  let '(rc, u, t') := asmtest_trace_call_auto len nargs t in
  rc = ASMTEST_HW_EINVAL ∧ u = None ∧ t' = t ∨
  rc = ASMTEST_HW_EUNAVAIL ∧ u = Some no_choice ∨
  rc = ASMTEST_HW_OK ∧ ∃ c, u = Some c ∧ captured_by c t t' ∧
    (truncated t' = true →
     c_mechanism c = MECH_MSR_LBR ∨
     (t_ptrace_available T = true → c_mechanism c = MECH_PER_INSN) ∧
     (t_ptrace_available T = false → t_blockstep_available T = true → c_mechanism c = MECH_BLOCKSTEP)).
Proof.
  unfold asmtest_trace_call_auto. destruct (_ || _); [by left|]. cbv zeta.
  pose proof (rung_fast_sound t) as H1. set (st1 := rung_fast _) in *.
  destruct (ran st1 && negb (truncated (tr st1))) eqn:E1.
  { apply andb_true_iff in E1 as [Hr Ht]. right. right. split; [done|]. exists (used st1). split_and!; [done|auto|].
    intros E. by rewrite E in Ht. }
  pose proof (rung_msr_sound t st1 H1) as H2. destruct (rung_msr st1) as [st2|st2].
  { destruct H2 as (Hr & Hs & Hm). right. right. split; [done|]. exists (used st2). split_and!; [done|auto|by left]. }
  pose proof (rung_blockstep_sound t st2 H2) as H3. destruct (rung_blockstep st2) as [st3|st3].
  { destruct H3 as (Hr & Hs & Hm). right. right. split; [done|]. exists (used st3). split_and!; [done|auto|congruence]. }
  destruct H3 as [H3 Hb]. pose proof (rung_ptrace_sound t st3 H3) as (H4 & Hp & Hsame).
  destruct (ran (rung_ptrace st3)) eqn:Er; [|by right; left]. right. right. split; [done|]. exists (used (rung_ptrace st3)).
  split_and!; [done|auto|]. intros _. right. split; [auto|]. intros Hf. rewrite (Hsame Hf) in *. auto.
Qed.
End call.

(** ** The resolvers *)
Lemma resolve_loop_spec hw dr rows policy cap :
  resolve_loop hw dr rows policy cap = take cap (filter (λ r, row_available hw dr r policy = true) rows).
Proof.
  revert cap. induction rows as [|r rows IH]; intros [|cap]; cbn [resolve_loop]; try done.
  rewrite filter_cons. destruct (row_available hw dr r policy) eqn:E.
  - rewrite decide_True by done. cbn [take]. by rewrite IH.
  - rewrite decide_False by done. by rewrite IH.
Qed.

(** The resolver lists what can be used, best first.  It is the prefix of the
    fixed order restricted to the rows the host offers and the policy allows: no
    ceiling-bounded backend when that is asked for, no emulator when only native
    execution will do, and the emulator at the end otherwise; and the hardware
    rows are in the order, and under the condition, of the hardware tier's own
    cascade, so that the two resolvers agree on the best backend. *)
Theorem resolve_exact hw dr policy cap :
  asmtest_trace_resolve hw dr policy cap = take cap (asmtest_trace_resolve hw dr policy 6) ∧
  (∀ c, c ∈ asmtest_trace_resolve hw dr policy 6 ↔ c ∈ CASCADE ∧ row_available hw dr c policy = true) ∧
  asmtest_trace_resolve hw dr policy 6 `sublist_of` CASCADE ∧
  c_backend <$> filter (λ c, c_tier c = ASMTEST_TIER_HWTRACE) (asmtest_trace_resolve hw dr policy 6) =
    asmtest_hwtrace_resolve hw (ceiling_free policy) 4 ∧
  (native_only policy = false →
   last (asmtest_trace_resolve hw dr policy 6) = last CASCADE).
Proof.
  unfold asmtest_trace_resolve. rewrite !resolve_loop_spec.
  assert (∀ l : list choice, (length l <= 6)%nat → take 6 l = l) as Hall by (intros; by apply take_ge).
  assert (∀ P `{∀ c : choice, Decision (P c)}, (length (filter P CASCADE) <= 6)%nat) as Hlen.
  { intros P HP. change 6%nat with (length CASCADE). apply sublist_length, sublist_filter. }
  rewrite Hall by apply Hlen. split_and!.
  - done.
  - intros c. rewrite list_elem_of_filter. naive_solver.
  - apply sublist_filter.
  - unfold asmtest_hwtrace_resolve, CASCADE, hw_order. rewrite !filter_cons, filter_nil.
    unfold row_available. cbn [c_tier c_backend hw_resolve_loop].
    destruct (ceiling_free policy); cbn [andb bool_decide decide backend_eq_dec];
      destruct (hw ASMTEST_HWTRACE_INTEL_PT), (hw ASMTEST_HWTRACE_AMD_LBR),
        (hw ASMTEST_HWTRACE_SINGLESTEP), (hw ASMTEST_HWTRACE_CORESIGHT), dr, (native_only policy); reflexivity.
  - intros Hn. set (emu := mk_choice ASMTEST_TIER_EMULATOR ASMTEST_HWTRACE_INTEL_PT ASMTEST_FIDELITY_VIRTUAL MECH_EMULATOR).
    change CASCADE with (take 5 CASCADE ++ [emu]). rewrite filter_app, (filter_cons _ emu).
    rewrite decide_True by (unfold row_available; simpl; by rewrite Hn). by rewrite filter_nil, !last_snoc.
Qed.
End TraceAuto.
