(* ===== verification/GHash.v ===== *)
(** The open-addressed index over an append-only table
    ([cli/asmspy_ghash.h]): a slot holds an index of the table plus one, the hash
    routes and the table entry decides.  The index may be dropped at any time,
    its clients then scan. *)
From S2P Require Import Prelude OpenHash Rng.

Module GHash.

(** [slot] with [cap] its length; the empty list is the unallocated index. *)
Record ghash := mk_gh { slot : list Z }.
Definition cap (h : ghash) : Z := Z.of_nat (length (slot h)).
Definition gh_none : ghash := mk_gh [].

Definition asmspy_gh_mix (x : Z) : Z := Rng.mix (x +64 Rng.GAMMA).

Definition live (s : Z) : bool := negb (s =? 0).

(** [eq k] tells whether entry [k] of the table is the one sought.  The answer is
    the index, or -1; [None] is a probe that does not end. *)
Definition asmspy_gh_find (h : ghash) (h64 : Z) (eq : nat → bool) : option Z :=
  if cap h =? 0 then Some (-1)
  else
    let m := cap h - 1 in
    j ← probe (length (slot h)) (slot h) (λ s, negb (live s) || eq (Z.to_nat (s - 1))) m (Z.land h64 m);
    s ← slot h !! Z.to_nat j;
    Some (if live s then s - 1 else -1).

(** The placement loop shared by [asmspy_gh_put] and the rehash. *)
Definition place (sl : list Z) (h64 : Z) (idx : nat) : option (list Z) :=
  j ← slot_for live sl h64; Some (<[Z.to_nat j := u32 (Z.of_nat idx + 1)]> sl).

Definition asmspy_gh_put (h : ghash) (h64 : Z) (idx : nat) : option ghash :=
  if cap h =? 0 then Some h else mk_gh <$> place (slot h) h64 idx.

(** The sizing loop; the capacity doubles, so 65 rounds are enough. *)
Fixpoint gh_size (fuel : nat) (n nc : Z) : option Z :=
  match fuel with
  | O => None
  | S fuel => if nc *64 7 <=? (n + 1) *64 10 then gh_size fuel n (nc *64 2) else Some nc
  end.

Definition asmspy_gh_grow (grant : allocator) (h : ghash) (n : nat) (hashof : nat → Z) :
    option (Z * ghash) :=
  if negb (cap h =? 0) && ((Z.of_nat n + 1) *64 10 <? cap h *64 7) then Some (0, h)
  else
    nc ← gh_size 65 (Z.of_nat n) (if cap h =? 0 then 128 else cap h *64 2);
    if negb (grant (nc * 4)) then Some (-1, gh_none)
    else
      sl ← foldl (λ acc k, sl ← acc; place sl (hashof k) k)
             (Some (replicate (Z.to_nat nc) 0)) (seq 0 n);
      Some (0, mk_gh sl).

(** ** The index of a table *)
Section index.
Context {K : Type} `{EqDecision K} (hashK : K → Z).
Implicit Types tab : list K.

(** The entry a slot points at, and its hash. *)
Definition entry tab (s : Z) : option K := tab !! Z.to_nat (s - 1).
Definition hash_entry (k : option K) : Z := from_option hashK 0 k.

Abbreviation wf tab := (tbl_wf live (entry tab) hash_entry).

(** An allocated index: it holds every entry of the table once. *)
Record indexes tab (sl : list Z) : Prop := {
  ix_pow2 : is_pow2 (Z.of_nat (length sl));
  ix_cap : Z.of_nat (length sl) <= 2 ^ 35;
  ix_wf : wf tab sl;
  ix_has s : has live sl s ↔ 1 <= s <= Z.of_nat (length tab);
  ix_count : count_used live sl = length tab;
  ix_load : Z.of_nat (length tab) * 10 < Z.of_nat (length sl) * 7;
}.
Definition idx_ok tab (h : ghash) : Prop := slot h = [] ∨ indexes tab (slot h).

Lemma ix_room tab sl : indexes tab sl → has_room live sl.
Proof. intros [? ? ? ? Hc Hl]. apply room_of_count. lia. Qed.

(** A lookup in an allocated index is authoritative. *)
Lemma find_spec tab h k (eq : nat → bool) :
  indexes tab (slot h) → (∀ i, eq i = bool_decide (tab !! i = Some k)) →
  ∃ r, asmspy_gh_find h (hashK k) eq = Some r ∧
    (0 <= r ∧ tab !! Z.to_nat r = Some k ∨ r = -1 ∧ k ∉ tab).
Proof.
  intros Hix Heq. pose proof (ix_room _ _ Hix) as Hroom. destruct Hix as [Hp ? Hwf Hhas ??].
  destruct (probe_key live (entry tab) hash_entry (slot h) (Some k) Hp Hwf Hroom)
    as (i & s & Hpr & Hi & Hs).
  unfold asmspy_gh_find. pose proof (is_pow2_pos _ Hp). unfold cap.
  destruct (Z.eqb_spec (Z.of_nat (length (slot h))) 0); [lia|].
  rewrite (probe_ext _ _ _ (stop_at live (entry tab) (Some k))).
  2: { intros s'. unfold stop_at, entry. by rewrite Heq. }
  simpl in Hpr. rewrite Hpr. simpl. rewrite Nat2Z.id, Hi. simpl. eexists; split; [done|].
  destruct (live s) eqn:Hl; simpl in Hs.
  - left. assert (has live (slot h) s) as [? _]%Hhas by (split; [done|by eapply list_elem_of_lookup_2]).
    split; [lia|done].
  - right. split; [done|]. intros [j Hj]%list_elem_of_lookup. destruct Hs as [Hno _].
    pose proof (lookup_lt_Some _ _ _ Hj).
    assert (has live (slot h) (Z.of_nat j + 1)) as [Hlv [i' Hi']%list_elem_of_lookup] by (apply Hhas; lia).
    apply (Hno i' _ Hi' Hlv). unfold entry. by replace (Z.to_nat (Z.of_nat j + 1 - 1)) with j by lia.
Qed.

(** ** Filling *)
Lemma gh_size_spec fuel n nc :
  is_pow2 nc → 0 <= n < 2 ^ 32 → nc <= 2 ^ 35 → (n + 1) * 10 < nc * 7 * 2 ^ Z.of_nat fuel →
  ∃ r, gh_size (S fuel) n nc = Some r ∧ is_pow2 r ∧ nc <= r <= 2 ^ 35 ∧ (n + 1) * 10 < r * 7.
Proof.
  revert nc. induction fuel as [|fuel IH]; intros nc Hp Hn Hc Hf; pose proof (is_pow2_pos _ Hp).
  - cbn [gh_size]. rewrite !u64_small by lia. destruct (Z.leb_spec (nc * 7) ((n + 1) * 10)).
    + change (Z.of_nat 0) with 0 in Hf. lia.
    + exists nc. split_and!; [done|done|lia..].
  - change (gh_size (S (S fuel)) n nc) with
      (if nc *64 7 <=? (n + 1) *64 10 then gh_size (S fuel) n (nc *64 2) else Some nc).
    rewrite (u64_small (nc * 7)), (u64_small ((n + 1) * 10)) by lia.
    destruct (Z.leb_spec (nc * 7) ((n + 1) * 10)); [|exists nc; split_and!; [done|done|lia..]].
    rewrite u64_small by lia. destruct (IH (nc * 2)) as (r & ? & ? & ? & ?).
    + destruct Hp as (k & ? & ->). exists (k + 1). split; [lia|]. rewrite Z.pow_add_r by lia. lia.
    + done.
    + lia.
    + rewrite Nat2Z.inj_succ, Z.pow_succ_r in Hf by lia. lia.
    + exists r. split_and!; [done|done|lia..].
Qed.

(** Placing the entry [m] of the table into a table of slots that holds the
    entries before it. *)
Lemma place_next tab sl m k :
  NoDup tab → Z.of_nat (length tab) < 2 ^ 32 - 1 → tab !! m = Some k →
  is_pow2 (Z.of_nat (length sl)) → wf tab sl → (count_used live sl < length sl)%nat →
  (∀ s, has live sl s ↔ 1 <= s <= Z.of_nat m) →
  ∃ sl', place sl (hashK k) m = Some sl' ∧ length sl' = length sl ∧ wf tab sl' ∧
    count_used live sl' = S (count_used live sl) ∧
    ∀ s, has live sl' s ↔ 1 <= s <= Z.of_nat (S m).
Proof.
  intros Hnd Hlen Hk Hp Hwf Hc Hhas. pose proof (lookup_lt_Some _ _ _ Hk).
  set (e := Z.of_nat m + 1).
  assert (entry tab e = Some k) as He by (unfold entry, e; by replace (Z.to_nat (Z.of_nat m + 1 - 1)) with m by lia).
  destruct (place_spec live (entry tab) hash_entry sl e) as (i & Hi & Hwf' & Hc' & Hh).
  - done.
  - done.
  - by apply room_of_count.
  - unfold live, e. destruct (Z.eqb_spec (Z.of_nat m + 1) 0); [lia|done].
  - intros e' [? ?]%Hhas. rewrite He. unfold entry. intros E.
    assert (Z.to_nat (e' - 1) = m) by (by eapply NoDup_lookup). lia.
  - unfold place. rewrite He in Hi. simpl in Hi. rewrite Hi. simpl. rewrite Nat2Z.id.
    rewrite u32_small by lia. fold e. eexists. split; [done|]. rewrite length_insert.
    split_and!; [done|done|done|]. intros s. rewrite Hh, Hhas. unfold e. lia.
Qed.

Lemma zeros_spec tab n :
  wf tab (replicate n 0) ∧ count_used live (replicate n 0) = O ∧ ∀ s, ¬ has live (replicate n 0) s.
Proof.
  split_and!.
  - apply empty_wf. by intros e [-> _]%elem_of_replicate.
  - unfold count_used. induction n; [done|]. simpl. by rewrite filter_cons, decide_False by done.
  - by intros s [Hs [-> _]%elem_of_replicate].
Qed.

Lemma rehash_all tab nc (hashof : nat → Z) m :
  NoDup tab → Z.of_nat (length tab) < 2 ^ 32 - 1 → (length tab < Z.to_nat nc)%nat → is_pow2 nc →
  (∀ i k, tab !! i = Some k → hashof i = hashK k) → (m <= length tab)%nat →
  ∃ sl, foldl (λ acc k, sl ← acc; place sl (hashof k) k) (Some (replicate (Z.to_nat nc) 0)) (seq 0 m)
        = Some sl ∧
    length sl = Z.to_nat nc ∧ wf tab sl ∧ count_used live sl = m ∧
    ∀ s, has live sl s ↔ 1 <= s <= Z.of_nat m.
Proof.
  intros Hnd Hlen Hnc Hp Hho. pose proof (is_pow2_pos _ Hp). induction m as [|m IH]; intros Hm.
  - destruct (zeros_spec tab (Z.to_nat nc)) as (H1 & H2 & H3). eexists. split; [done|].
    rewrite length_replicate. split_and!; [done..|]. intros s. split; [by intros ?%H3|lia].
  - destruct IH as (sl & Hf & Hl & Hwf & Hc & Hh); [lia|]. rewrite seq_S, foldl_app, Hf. simpl.
    destruct (lookup_lt_is_Some_2 tab m) as [k Hk]; [lia|]. rewrite (Hho m k Hk).
    destruct (place_next tab sl m k) as (sl' & ? & ? & ? & ? & ?); try done.
    + by rewrite Hl, Z2Nat.id by lia.
    + lia.
    + exists sl'. split_and!; [done|lia|done|lia|done].
Qed.

(** Growing keeps the index or drops it, and leaves room for one more. *)
Lemma grow_spec grant tab h hashof :
  NoDup tab → Z.of_nat (length tab) < 2 ^ 32 - 1 → idx_ok tab h →
  (∀ i k, tab !! i = Some k → hashof i = hashK k) →
  (∃ h', asmspy_gh_grow grant h (length tab) hashof = Some (0, h') ∧ indexes tab (slot h') ∧
         (Z.of_nat (length tab) + 1) * 10 < cap h' * 7) ∨
  asmspy_gh_grow grant h (length tab) hashof = Some (-1, gh_none).
Proof.
  intros Hnd Hlen Hok Hho. unfold asmspy_gh_grow.
  assert (0 <= cap h <= 2 ^ 35) as Hcap.
  { unfold cap. destruct Hok as [-> |[]]; simpl; lia. }
  rewrite (u64_small ((_ + 1) * 10)), (u64_small (cap h * 7)) by lia.
  destruct (negb (cap h =? 0) && _) eqn:Eg.
  - left. apply andb_true_iff in Eg as [Ez%negb_true_iff El]. exists h. split; [done|].
    split; [|lia]. destruct Hok as [E|?]; [|done]. unfold cap in Ez. rewrite E in Ez. done.
  - assert (∃ nc0, (if cap h =? 0 then 128 else cap h *64 2) = nc0 ∧ is_pow2 nc0 ∧ nc0 <= 2 ^ 35)
      as (nc0 & -> & Hp0 & Hc0).
    { destruct (Z.eqb_spec (cap h) 0) as [Ez|Ez].
      - exists 128. split_and!; [done| |lia]. exists 7. done.
      - simpl in Eg. rewrite u64_small by lia. exists (cap h * 2). split; [done|].
        destruct Hok as [E|[(k & ? & E) _ _ _ _ _]]; [unfold cap in Ez; by rewrite E in Ez|].
        fold (cap h) in E. split; [|lia]. exists (k + 1). split; [lia|]. rewrite E, Z.pow_add_r by lia. lia. }
    pose proof (is_pow2_pos _ Hp0).
    destruct (gh_size_spec 64 (Z.of_nat (length tab)) nc0) as (nc & -> & Hp & Hc & Hl); [done|lia|lia| |].
    { change (2 ^ Z.of_nat 64) with (2 ^ 64). lia. }
    simpl. destruct (grant (nc * 4)); simpl; [left|by right].
    destruct (rehash_all tab nc hashof (length tab)) as (sl & -> & Hsl & ? & ? & ?); try done; [lia|].
    simpl. eexists. split; [done|]. unfold cap. simpl. rewrite Hsl, Z2Nat.id by lia.
    split; [|done]. split; rewrite ?Hsl, ?Z2Nat.id by lia; try done; lia.
Qed.

(** Appending the key to the table of an index that holds it already. *)
Lemma wf_extend tab k sl :
  (∀ s, has live sl s → 1 <= s <= Z.of_nat (length tab)) → wf tab sl → wf (tab ++ [k]) sl.
Proof.
  intros Hhas [H1 H2].
  assert (∀ i e, sl !! i = Some e → live e = true → entry (tab ++ [k]) e = entry tab e) as Hext.
  { intros i e Hi Hu. unfold entry. apply lookup_app_l.
    pose proof (Hhas e (conj Hu (list_elem_of_lookup_2 _ _ _ Hi))). lia. }
  split.
  - intros i e Hi Hu. rewrite (Hext i e Hi Hu). by apply H1.
  - intros i1 i2 e1 e2 Hi1 Hi2 Hu1 Hu2. rewrite (Hext i1 e1), (Hext i2 e2) by done. by apply H2.
Qed.

(** A new key: grow, then put unless the growth failed. *)
Lemma add_spec grant tab h hashof k :
  NoDup tab → Z.of_nat (length tab) + 1 < 2 ^ 32 - 1 → idx_ok tab h → k ∉ tab →
  (∀ i k, tab !! i = Some k → hashof i = hashK k) →
  ∃ h', (p ← asmspy_gh_grow grant h (length tab) hashof;
         if p.1 =? 0 then asmspy_gh_put p.2 (hashK k) (length tab) else Some p.2) = Some h' ∧
        idx_ok (tab ++ [k]) h'.
Proof.
  intros Hnd Hlen Hok Hk Hho.
  destruct (grow_spec grant tab h hashof Hnd ltac:(lia) Hok Hho) as [(h' & -> & Hix & Hl)| ->]; simpl.
  2: { eexists. split; [done|]. by left. }
  destruct Hix as [Hp Hc Hwf Hhas Hcnt _]. unfold asmspy_gh_put. pose proof (is_pow2_pos _ Hp).
  fold (cap h') in *. destruct (Z.eqb_spec (cap h') 0); [lia|].
  destruct (place_next (tab ++ [k]) (slot h') (length tab) k) as (sl & -> & Hsl & ? & ? & Hh).
  - apply NoDup_app. split; [done|]. split; [set_solver|apply NoDup_singleton].
  - rewrite length_app. simpl. lia.
  - by apply list_lookup_middle.
  - done.
  - apply wf_extend; [|done]. intros s. apply Hhas.
  - unfold cap in *. lia.
  - done.
  - simpl. eexists. split; [done|]. right. unfold cap in *.
    assert (length (tab ++ [k]) = S (length tab)) as El by (rewrite length_app; simpl; lia).
    change (indexes (tab ++ [k]) sl). split; rewrite ?El; [by rewrite Hsl|by rewrite Hsl|done|done|lia|rewrite Hsl; lia].
Qed.
End index.
End GHash.
