(* ===== verification/CallGraph.v ===== *)
(** The whole-process call-graph builder of the process spy ([graph_t],
    [gnode_get] and [grecord] of [cli/asmspy_engine.c]) over the index of
    [cli/asmspy_ghash.h]. *)
From S2P Require Import Prelude Format OpenHash Rng GHash.
Import GHash.
Open Scope string_scope.
Open Scope Z_scope.
Open Scope list_scope.

Module CallGraph.

(** ** Data *)
(** What the symbol resolver ([asmspy_resolve]) answers about an address. *)
Record sym := mk_sym { s_addr : Z; s_name : string; s_module : string }.

Record gnode := mk_gnode {
  addr : Z; name : string; module : string; external : bool;
  invocations : Z; out_calls : Z; fanout : Z;
}.
Record gedge := mk_gedge { caller : nat; callee : nat; count : Z }.
Record graph := mk_graph {
  node : list gnode; ncap : Z; nidx : ghash; edge : list gedge; ecap : Z; eidx : ghash;
}.
Definition graph0 : graph := mk_graph [] 0 gh_none [] 0 gh_none.

Definition sizeof_gnode : Z := 232.
Definition sizeof_gedge : Z := 24.

(** [realloc] of a table and [calloc] of its index, for one lookup. *)
Record grants := mk_grants { g_table : allocator; g_index : allocator }.

(** ** Lookups *)
(** The indexed lookup, or the scan when there is no index. *)
Definition seek (h : ghash) (h64 : Z) (n : nat) (eq : nat → bool) : option Z :=
  if negb (cap h =? 0) then asmspy_gh_find h h64 eq
  else Some (match List.find eq (seq 0 n) with Some i => Z.of_nat i | None => -1 end).

(** Room for one more entry of a table of [n]: the new capacity. *)
Definition make_room (grant : allocator) (n : nat) (cap init elem : Z) : option Z :=
  if Z.of_nat n =? cap then
    let nc := if cap =? 0 then init else cap *64 2 in
    if grant (nc *64 elem) then Some nc else None
  else Some cap.

(** Index the entry about to be appended: grow first, then place it. *)
Definition index_new (grant : allocator) (h : ghash) (n : nat) (hashof : nat → Z) (h64 : Z) :
    option ghash :=
  p ← asmspy_gh_grow grant h n hashof;
  if p.1 =? 0 then asmspy_gh_put p.2 h64 n else Some p.2.

Definition gh_node_hash (g : graph) (i : nat) : Z := from_option (λ n, asmspy_gh_mix (addr n)) 0 (node g !! i).
Definition gnode_eq (g : graph) (key : Z) (k : nat) : bool :=
  from_option (λ n, addr n =? key) false (node g !! k).

Definition gh_edge_hash_kv (caller callee : nat) : Z :=
  Z.lxor (asmspy_gh_mix (Z.of_nat caller *64 0x9E3779B97F4A7C15))
         (asmspy_gh_mix (Z.of_nat callee +64 0x165667B19E3779F9)).
Definition gh_edge_hash (g : graph) (i : nat) : Z :=
  from_option (λ e, gh_edge_hash_kv (caller e) (callee e)) 0 (edge g !! i).
Definition gedge_eq (g : graph) (ci ki : nat) (k : nat) : bool :=
  from_option (λ e, (caller e =? ci)%nat && (callee e =? ki)%nat) false (edge g !! k).

(** ** Nodes *)
Definition key_of (s : option sym) (a : Z) : Z := match s with Some s => s_addr s | None => a end.

Definition ends_with (suffix s : string) : bool :=
  let n := String.length s in let k := String.length suffix in
  (k <=? n)%nat && String.eqb (String.substring (n - k) k s) suffix.

Definition new_node (s : option sym) (exebase : option string) (key : Z) : gnode :=
  match s with
  | Some s =>
      let is_plt := ends_with "@plt" (s_name s) in
      let is_jit := String.eqb (s_module s) "jit" in
      let elsewhere := match exebase with
                       | Some b => negb (String.eqb b "") && negb (String.eqb (s_module s) b)
                       | None => false
                       end in
      mk_gnode key (cstr 128 (s_name s)) (cstr 64 (s_module s)) (negb is_jit && (is_plt || elsewhere)) 0 0 0
  | None => mk_gnode key (cstr 128 ("0x" +:+ fmt_x key)) (cstr 64 "?") false 0 0 0
  end.

(** [s] is the answer of the resolver about [a].  The node index, or -1 when the
    table cannot grow; [None] is a lookup that does not end. *)
Definition gnode_get (gr : grants) (s : option sym) (exebase : option string) (g : graph) (a : Z) :
    option (Z * graph) :=
  let key := key_of s a in
  let h64 := asmspy_gh_mix key in
  let nn := List.length (node g) in
  k ← seek (nidx g) h64 nn (gnode_eq g key);
  if 0 <=? k then Some (k, g)
  else match make_room (g_table gr) nn (ncap g) 64 sizeof_gnode with
  | None => Some (-1, g)
  | Some nc =>
      h ← index_new (g_index gr) (nidx g) nn (gh_node_hash g) h64;
      Some (Z.of_nat nn,
            mk_graph (node g ++ [new_node s exebase key]) nc h (edge g) (ecap g) (eidx g))
  end.

(** ** Calls *)
Definition called (n : gnode) : gnode :=
  mk_gnode (addr n) (name n) (module n) (external n) (invocations n +64 1) (out_calls n) (fanout n).
Definition calls_out (fresh : bool) (n : gnode) : gnode :=
  mk_gnode (addr n) (name n) (module n) (external n) (invocations n) (out_calls n +64 1)
    (if fresh then u32 (fanout n + 1) else fanout n).
Definition tick (fresh : bool) (ci ki : nat) (l : list gnode) : list gnode :=
  alter called ki (alter (calls_out fresh) ci l).
Definition again (e : gedge) : gedge := mk_gedge (caller e) (callee e) (count e +64 1).

(** The caller and the callee with what the resolver says of them; 1 when the
    call was counted. *)
Definition grecord (gc gk ge : grants) (sc sk : option sym) (exebase : option string) (g : graph)
    (caller_addr callee_addr : Z) : option (Z * graph) :=
  pc ← gnode_get gc sc exebase g caller_addr;
  pk ← gnode_get gk sk exebase pc.2 callee_addr;
  let g := pk.2 in
  if (pc.1 <? 0) || (pk.1 <? 0) then Some (0, g)
  else
    let ci := Z.to_nat pc.1 in
    let ki := Z.to_nat pk.1 in
    let eh := gh_edge_hash_kv ci ki in
    let ne := List.length (edge g) in
    hit ← seek (eidx g) eh ne (gedge_eq g ci ki);
    if 0 <=? hit then
      Some (1, mk_graph (tick false ci ki (node g)) (ncap g) (nidx g)
                 (alter again (Z.to_nat hit) (edge g)) (ecap g) (eidx g))
    else match make_room (g_table ge) ne (ecap g) 128 sizeof_gedge with
    | None => Some (0, g)
    | Some nc =>
        h ← index_new (g_index ge) (eidx g) ne (gh_edge_hash g) eh;
        Some (1, mk_graph (tick true ci ki (node g)) (ncap g) (nidx g)
                   (edge g ++ [mk_gedge ci ki 1]) nc h)
    end.

(** The edges handed to the sink, keyed by the addresses of their ends. *)
Definition addr_at (g : graph) (i : nat) : Z := from_option addr 0 (node g !! i).
Definition graph_emit (grant : allocator) (aecap : Z) (g : graph) : list (Z * Z * Z) :=
  if (aecap <? Z.of_nat (List.length (edge g))) && negb (grant (Z.of_nat (List.length (edge g)) *64 24)) then []
  else (λ e, (addr_at g (caller e), addr_at g (callee e), count e)) <$> edge g.

(** ** Invariant *)
Definition keys (g : graph) : list Z := addr <$> node g.
Definition pairs (g : graph) : list (nat * nat) := (λ e, (caller e, callee e)) <$> edge g.
Definition hash_pair (p : nat * nat) : Z := gh_edge_hash_kv p.1 p.2.

(** How many entries of a list satisfy a predicate. *)
Definition cnt {A} (P : A → Prop) `{∀ x, Decision (P x)} (l : list A) : Z :=
  Z.of_nat (List.length (filter P l)).

(** Nodes and edges without duplicates, each under its index. *)
Record tables_ok (g : graph) : Prop := {
  nodes_nodup : NoDup (keys g);
  nodes_idx : idx_ok asmspy_gh_mix (keys g) (nidx g);
  edges_nodup : NoDup (pairs g);
  edges_idx : idx_ok hash_pair (pairs g) (eidx g);
}.

(** The graph is the tally of [calls], pairs of function addresses. *)
Record tallies (calls : list (Z * Z)) (g : graph) : Prop := {
  t_node i n : node g !! i = Some n →
    invocations n = u64 (cnt (λ c, c.2 = addr n) calls) ∧
    out_calls n = u64 (cnt (λ c, c.1 = addr n) calls) ∧
    fanout n = u32 (cnt (λ p, p.1 = i) (pairs g));
  t_edge e : e ∈ edge g → ∃ a b,
    keys g !! caller e = Some a ∧ keys g !! callee e = Some b ∧ (a, b) ∈ calls ∧
    count e = u64 (cnt (λ c, c = (a, b)) calls);
  t_call a b : (a, b) ∈ calls → ∃ i j,
    keys g !! i = Some a ∧ keys g !! j = Some b ∧ (i, j) ∈ pairs g;
}.

Lemma cnt_snoc {A} (P : A → Prop) `{∀ x, Decision (P x)} l x :
  cnt P (l ++ [x]) = cnt P l + (if decide (P x) then 1 else 0).
Proof.
  unfold cnt. rewrite filter_app, length_app, filter_cons, filter_nil.
  destruct (decide (P x)); simpl; lia.
Qed.

Lemma cnt_none {A} (P : A → Prop) `{∀ x, Decision (P x)} l : (∀ x, x ∈ l → ¬ P x) → cnt P l = 0.
Proof. intros Hn. unfold cnt. by rewrite list_filter_none by (by apply Forall_forall). Qed.

(** ** Lookups *)
Lemma seek_spec {K} `{EqDecision K} (hashK : K → Z) tab h k eq :
  idx_ok hashK tab h → (∀ i, eq i = bool_decide (tab !! i = Some k)) →
  ∃ r, seek h (hashK k) (List.length tab) eq = Some r ∧
    (0 <= r ∧ tab !! Z.to_nat r = Some k ∨ r = -1 ∧ k ∉ tab).
Proof.
  intros Hok Heq. unfold seek. destruct (Z.eqb_spec (cap h) 0) as [E|E]; simpl.
  - eexists. split; [done|]. destruct (List.find eq _) as [i|] eqn:Ef.
    + apply find_some in Ef as [_ Ef]. rewrite Heq in Ef. apply bool_decide_eq_true in Ef.
      left. split; [lia|]. by rewrite Nat2Z.id.
    + right. split; [done|]. intros [i Hi]%list_elem_of_lookup.
      pose proof (find_none _ _ Ef i) as Hn. rewrite Heq, bool_decide_eq_true_2 in Hn by done.
      apply lookup_lt_Some in Hi. discriminate Hn. apply in_seq. lia.
  - destruct Hok as [Hs|Hix]; [unfold cap in E; by rewrite Hs in E|].
    by apply (find_spec hashK tab h k eq).
Qed.

Lemma gnode_eq_spec g key i : gnode_eq g key i = bool_decide (keys g !! i = Some key).
Proof.
  unfold gnode_eq, keys. rewrite list_lookup_fmap. destruct (node g !! i) as [n|]; simpl; [|done].
  destruct (Z.eqb_spec (addr n) key); symmetry; [rewrite bool_decide_eq_true|rewrite bool_decide_eq_false];
    congruence.
Qed.

Lemma gedge_eq_spec g ci ki i : gedge_eq g ci ki i = bool_decide (pairs g !! i = Some (ci, ki)).
Proof.
  unfold gedge_eq, pairs. rewrite list_lookup_fmap. destruct (edge g !! i) as [e|]; simpl; [|done].
  destruct (Nat.eqb_spec (caller e) ci), (Nat.eqb_spec (callee e) ki); simpl; symmetry;
    [rewrite bool_decide_eq_true|rewrite bool_decide_eq_false..]; congruence.
Qed.

Lemma index_new_spec {K} `{EqDecision K} (hashK : K → Z) grant tab h hashof k :
  NoDup tab → Z.of_nat (List.length tab) < 2 ^ 32 - 2 → idx_ok hashK tab h → k ∉ tab →
  (∀ i k, tab !! i = Some k → hashof i = hashK k) →
  ∃ h', index_new grant h (List.length tab) hashof (hashK k) = Some h' ∧ idx_ok hashK (tab ++ [k]) h'.
Proof. intros. apply add_spec; try done. lia. Qed.

(** ** Nodes *)
(** A node is found, added with empty counters, or refused. *)
Lemma gnode_get_spec gr s ex g a :
  tables_ok g → Z.of_nat (List.length (node g)) < 2 ^ 32 - 2 →
  ∃ r g', gnode_get gr s ex g a = Some (r, g') ∧ tables_ok g' ∧ edge g' = edge g ∧
    (g' = g ∨ ∃ n, node g' = node g ++ [n] ∧ invocations n = 0 ∧ out_calls n = 0 ∧ fanout n = 0 ∧
                   addr n ∉ keys g) ∧
    (r < 0 ∨ 0 <= r ∧ keys g' !! Z.to_nat r = Some (key_of s a)).
Proof.
  intros Hok Hlen. pose proof Hok as [Hnd Hix Hnde Hixe].
  assert (List.length (keys g) = List.length (node g)) as El by (unfold keys; apply length_fmap).
  destruct (seek_spec asmspy_gh_mix (keys g) (nidx g) (key_of s a) (gnode_eq g (key_of s a)) Hix)
    as (r & Hr & Hcase); [intros; apply gnode_eq_spec|].
  unfold gnode_get. rewrite <-El, Hr. simpl. destruct Hcase as [[Hr0 Hk]|[-> Hk]].
  { destruct (Z.leb_spec 0 r); [|lia]. exists r, g. split_and!; auto. }
  simpl. rewrite El. destruct (make_room _ _ _ _ _) as [nc|].
  2: { exists (-1), g. split_and!; auto. left. lia. }
  destruct (index_new_spec asmspy_gh_mix (g_index gr) (keys g) (nidx g) (gh_node_hash g) (key_of s a))
    as (h & Hh & Hix'); [done|lia|done|done| |].
  { intros i k. unfold keys, gh_node_hash. rewrite list_lookup_fmap.
    destruct (node g !! i); simpl; congruence. }
  set (nd := new_node s ex (key_of s a)).
  assert (addr nd = key_of s a ∧ invocations nd = 0 ∧ out_calls nd = 0 ∧ fanout nd = 0) as (Ha & ?).
  { unfold nd, new_node. by destruct s. }
  rewrite <-El, Hh. cbn [mbind option_bind]. eexists _, _. split; [done|]. rewrite El. fold nd.
  set (g' := mk_graph _ _ _ _ _ _).
  assert (keys g' = keys g ++ [key_of s a]) as Ek.
  { unfold g', keys. cbn [node]. by rewrite fmap_app, <-Ha. }
  split_and!.
  - split; rewrite ?Ek; [|done..]. apply NoDup_app.
    split; [done|]. split; [set_solver|apply NoDup_singleton].
  - done.
  - right. exists nd. rewrite Ha. naive_solver.
  - right. split; [lia|]. rewrite Nat2Z.id, Ek, <-El. by apply list_lookup_middle.
Qed.

Lemma tallies_add calls g g' n :
  tallies calls g → edge g' = edge g → node g' = node g ++ [n] →
  invocations n = 0 → out_calls n = 0 → fanout n = 0 → addr n ∉ keys g → tallies calls g'.
Proof.
  intros [H1 H2 H3] Ee En Hi Ho Hf Hk.
  assert (∀ i a, keys g !! i = Some a → keys g' !! i = Some a) as Hmono.
  { intros i a Hia. unfold keys in *. rewrite En, fmap_app. by apply lookup_app_l_Some. }
  assert (pairs g' = pairs g) as Ep by (unfold pairs; by rewrite Ee).
  split.
  - intros i m Hm. rewrite Ep. rewrite En in Hm. apply lookup_app_Some in Hm as [Hm|[Hge Hm]]; [by apply H1|].
    apply list_lookup_singleton_Some in Hm as [Hz <-]. rewrite Hi, Ho, Hf.
    rewrite !cnt_none; [done|..].
    + intros [x y] Hin%list_elem_of_fmap. destruct Hin as (e & [= -> ->] & He). simpl. intros Heq.
      destruct (H2 e He) as (a & b & Ha & _). apply lookup_lt_Some in Ha.
      unfold keys in Ha. rewrite length_fmap in Ha. lia.
    + intros [a b] Hin. simpl. intros ->. destruct (H3 _ _ Hin) as (x & y & Hx & _).
      apply Hk. by eapply list_elem_of_lookup_2.
    + intros [a b] Hin. simpl. intros ->. destruct (H3 _ _ Hin) as (x & y & _ & Hy & _).
      apply Hk. by eapply list_elem_of_lookup_2.
  - intros e He. rewrite Ee in He. destruct (H2 e He) as (a & b & ? & ? & ?). exists a, b. eauto.
  - intros a b Hab. destruct (H3 a b Hab) as (i & j & ? & ? & ?). exists i, j. rewrite Ep. eauto.
Qed.

(** ** Counters *)
Definition ticked (fresh : bool) (ci ki i : nat) (n : gnode) : gnode :=
  mk_gnode (addr n) (name n) (module n) (external n)
    (if decide (i = ki) then invocations n +64 1 else invocations n)
    (if decide (i = ci) then out_calls n +64 1 else out_calls n)
    (if decide (i = ci) then if fresh then u32 (fanout n + 1) else fanout n else fanout n).

Lemma tick_lookup fresh ci ki l i : tick fresh ci ki l !! i = ticked fresh ci ki i <$> l !! i.
Proof.
  unfold tick, ticked. destruct (decide (i = ki)), (decide (i = ci)); subst;
    rewrite ?list_lookup_alter_eq, ?list_lookup_alter_ne by done;
    rewrite ?list_lookup_alter_eq, ?list_lookup_alter_ne by done;
    by destruct (l !! _) as [[]|].
Qed.

Lemma keys_tick fresh ci ki l : addr <$> tick fresh ci ki l = addr <$> l.
Proof.
  apply list_eq. intros i. rewrite !list_lookup_fmap, tick_lookup. by destruct (l !! i).
Qed.

Lemma pairs_again (j : nat) (l : list gedge) :
  (λ e, (caller e, callee e)) <$> alter again j l = (λ e, (caller e, callee e)) <$> l.
Proof.
  apply list_eq. intros i. rewrite !list_lookup_fmap.
  destruct (decide (j = i)) as [<-|]; [rewrite list_lookup_alter_eq|rewrite list_lookup_alter_ne by done];
    by destruct (l !! _).
Qed.

Section call.
Context (calls : list (Z * Z)) (g : graph) (ci ki : nat) (a b : Z).
Context (Hok : tables_ok g) (Ht : tallies calls g).
Context (Ha : keys g !! ci = Some a) (Hb : keys g !! ki = Some b).

Lemma key_at i j x y : keys g !! i = Some x → keys g !! j = Some y → x = y ↔ i = j.
Proof.
  intros Hi Hj. split; [intros ->; by eapply NoDup_lookup; [apply Hok|..]|intros ->; congruence].
Qed.

(** The counters of a node after one more call from [ci] to [ki]. *)
Lemma tick_counts fresh i n :
  tick fresh ci ki (node g) !! i = Some n →
  invocations n = u64 (cnt (λ c, c.2 = addr n) (calls ++ [(a, b)])) ∧
  out_calls n = u64 (cnt (λ c, c.1 = addr n) (calls ++ [(a, b)])) ∧
  fanout n = u32 (cnt (λ p, p.1 = i) (pairs g ++ (if fresh then [(ci, ki)] else []))).
Proof.
  rewrite tick_lookup. destruct (node g !! i) as [m|] eqn:Hm; [|done]. intros [= <-]. simpl.
  destruct (t_node _ _ Ht i m Hm) as (Hi & Ho & Hf).
  assert (keys g !! i = Some (addr m)) as Hk by (unfold keys; by rewrite list_lookup_fmap, Hm).
  rewrite !cnt_snoc. simpl. pose proof (key_at i ki _ _ Hk Hb) as Kb. pose proof (key_at i ci _ _ Hk Ha) as Ka.
  split_and!.
  - rewrite Hi. destruct (decide (i = ki)) as [E|E], (decide (b = addr m)) as [F|F]; [apply u64_add_l|exfalso; apply F; symmetry; by apply Kb|exfalso; apply E; by apply Kb|].
    by rewrite Z.add_0_r.
  - rewrite Ho. destruct (decide (i = ci)) as [E|E], (decide (a = addr m)) as [F|F]; [apply u64_add_l|exfalso; apply F; symmetry; by apply Ka|exfalso; apply E; by apply Ka|].
    by rewrite Z.add_0_r.
  - rewrite Hf. destruct fresh; [|rewrite app_nil_r; by destruct (decide (i = ci))].
    rewrite cnt_snoc. simpl. destruct (decide (i = ci)), (decide (ci = i)); try congruence; [apply u32_add_l|].
    by rewrite Z.add_0_r.
Qed.

(** An edge with other ends keeps its count. *)
Lemma other_edge e :
  e ∈ edge g → (caller e, callee e) ≠ (ci, ki) → ∃ x y,
    keys g !! caller e = Some x ∧ keys g !! callee e = Some y ∧ (x, y) ∈ calls ++ [(a, b)] ∧
    count e = u64 (cnt (λ c, c = (x, y)) (calls ++ [(a, b)])).
Proof.
  intros He Hne. destruct (t_edge _ _ Ht e He) as (x & y & Hx & Hy & Hin & Hc). exists x, y.
  split_and!; [done|done|set_solver|]. rewrite cnt_snoc, decide_False; [by rewrite Z.add_0_r|].
  intros [= -> ->]. apply Hne. f_equal; [by apply (key_at _ _ _ _ Hx Ha)|by apply (key_at _ _ _ _ Hy Hb)].
Qed.

(** A call is in the calls before, or the new one. *)
Lemma call_cases x y (ps : list (nat * nat)) :
  (x, y) ∈ calls ++ [(a, b)] → (∀ p, p ∈ pairs g → p ∈ ps) → (ci, ki) ∈ ps →
  ∃ i j, keys g !! i = Some x ∧ keys g !! j = Some y ∧ (i, j) ∈ ps.
Proof.
  intros [Hin|Hin]%elem_of_app Hmono Hnew.
  - destruct (t_call _ _ Ht x y Hin) as (i & j & ? & ? & ?). exists i, j. eauto.
  - apply list_elem_of_singleton in Hin as [= -> ->]. by exists ci, ki.
Qed.

Lemma tallies_hit g' j :
  pairs g !! j = Some (ci, ki) → node g' = tick false ci ki (node g) → edge g' = alter again j (edge g) →
  tallies (calls ++ [(a, b)]) g'.
Proof.
  intros Hj En Ee.
  assert (keys g' = keys g) as Ek by (unfold keys; by rewrite En, keys_tick).
  assert (pairs g' = pairs g) as Ep.
  { unfold pairs. rewrite Ee. apply pairs_again. }
  assert (∃ e0, edge g !! j = Some e0 ∧ caller e0 = ci ∧ callee e0 = ki) as (e0 & Hj0 & Hc0 & Hk0).
  { unfold pairs in Hj. rewrite list_lookup_fmap in Hj. destruct (edge g !! j) as [e0|]; [|done].
    injection Hj as [= <- <-]. by exists e0. }
  split.
  - intros i n Hn. rewrite En in Hn. rewrite Ep. pose proof (tick_counts false i n Hn) as Hc.
    by rewrite app_nil_r in Hc.
  - rewrite Ek, Ee. intros e [i Hi]%list_elem_of_lookup. destruct (decide (j = i)) as [<-|Hne].
    + rewrite list_lookup_alter_eq, Hj0 in Hi. injection Hi as <-. simpl. rewrite Hc0, Hk0.
      exists a, b. split_and!; [done|done|set_solver|]. rewrite cnt_snoc, decide_True by done.
      destruct (t_edge _ _ Ht e0 ltac:(by eapply list_elem_of_lookup_2)) as (x & y & Hx & Hy & _ & ->).
      rewrite Hc0 in Hx. rewrite Hk0 in Hy. simplify_eq. apply u64_add_l.
    + rewrite list_lookup_alter_ne in Hi by done. apply other_edge; [by eapply list_elem_of_lookup_2|].
      intros E. apply Hne. apply (NoDup_lookup (pairs g) j i (ci, ki)); [apply Hok|done|].
      unfold pairs. rewrite list_lookup_fmap, Hi. simpl. by f_equal.
  - intros x y Hxy. rewrite Ek, Ep. apply call_cases; [done|done|]. by eapply list_elem_of_lookup_2.
Qed.

Lemma tallies_new g' :
  (ci, ki) ∉ pairs g → node g' = tick true ci ki (node g) → edge g' = edge g ++ [mk_gedge ci ki 1] →
  tallies (calls ++ [(a, b)]) g'.
Proof.
  intros Hnew En Ee.
  assert (keys g' = keys g) as Ek by (unfold keys; by rewrite En, keys_tick).
  assert (pairs g' = pairs g ++ [(ci, ki)]) as Ep by (unfold pairs; by rewrite Ee, fmap_app).
  split.
  - intros i n Hn. rewrite En in Hn. rewrite Ep. by apply (tick_counts true).
  - rewrite Ek, Ee. intros e [He|He]%elem_of_app.
    + apply other_edge; [done|]. intros E. apply Hnew. rewrite <-E. unfold pairs.
      by apply (list_elem_of_fmap_2 (λ e, (caller e, callee e))).
    + apply list_elem_of_singleton in He as ->. simpl. exists a, b.
      split_and!; [done|done|set_solver|]. rewrite cnt_snoc, decide_True by done.
      rewrite cnt_none; [done|]. intros c Hc ->. apply Hnew.
      destruct (t_call _ _ Ht a b Hc) as (i & j & Hi & Hj & Hp).
      rewrite (proj1 (key_at _ _ _ _ Ha Hi) eq_refl), (proj1 (key_at _ _ _ _ Hb Hj) eq_refl). done.
  - intros x y Hxy. rewrite Ek, Ep. apply call_cases; [done|set_solver|set_solver].
Qed.
End call.

(** ** One recorded call *)
Lemma gnode_get_inv gr s ex g x calls :
  tables_ok g → tallies calls g → Z.of_nat (List.length (node g)) < 2 ^ 32 - 2 →
  ∃ r g', gnode_get gr s ex g x = Some (r, g') ∧ tables_ok g' ∧ tallies calls g' ∧ edge g' = edge g ∧
    (List.length (node g') <= S (List.length (node g)))%nat ∧
    (∀ i a, keys g !! i = Some a → keys g' !! i = Some a) ∧
    (r < 0 ∨ 0 <= r ∧ keys g' !! Z.to_nat r = Some (key_of s x)).
Proof.
  intros Hok Ht Hlen. destruct (gnode_get_spec gr s ex g x Hok Hlen) as (r & g' & E & Hok' & Ee & Hg & Hr).
  exists r, g'. destruct Hg as [->|(n & En & H1 & H2 & H3 & H4)].
  - split_and!; auto.
  - split_and!; [done|done|by eapply tallies_add|done| | |done].
    + rewrite En, length_app. simpl. lia.
    + intros i a Hia. unfold keys in *. rewrite En, fmap_app. by apply lookup_app_l_Some.
Qed.

Lemma edge_step gr g ci ki a b calls :
  tables_ok g → tallies calls g → Z.of_nat (List.length (edge g)) < 2 ^ 32 - 2 →
  keys g !! ci = Some a → keys g !! ki = Some b →
  ∃ rc g',
    (hit ← seek (eidx g) (gh_edge_hash_kv ci ki) (List.length (edge g)) (gedge_eq g ci ki);
     if 0 <=? hit then
       Some (1, mk_graph (tick false ci ki (node g)) (ncap g) (nidx g)
                  (alter again (Z.to_nat hit) (edge g)) (ecap g) (eidx g))
     else match make_room (g_table gr) (List.length (edge g)) (ecap g) 128 sizeof_gedge with
     | None => Some (0, g)
     | Some nc =>
         h ← index_new (g_index gr) (eidx g) (List.length (edge g)) (gh_edge_hash g) (gh_edge_hash_kv ci ki);
         Some (1, mk_graph (tick true ci ki (node g)) (ncap g) (nidx g)
                    (edge g ++ [mk_gedge ci ki 1]) nc h)
     end) = Some (rc, g') ∧ tables_ok g' ∧
    (rc = 1 ∧ tallies (calls ++ [(a, b)]) g' ∨ rc = 0 ∧ tallies calls g') ∧
    List.length (node g') = List.length (node g) ∧ (List.length (edge g') <= S (List.length (edge g)))%nat.
Proof.
  intros Hok Ht Hlen Ha Hb. pose proof Hok as [Hnd Hix Hnde Hixe].
  assert (List.length (pairs g) = List.length (edge g)) as El by (unfold pairs; apply length_fmap).
  assert (∀ f, List.length (tick f ci ki (node g)) = List.length (node g)) as Etick
    by (intros f; unfold tick; by rewrite !length_alter).
  destruct (seek_spec hash_pair (pairs g) (eidx g) (ci, ki) (gedge_eq g ci ki) Hixe)
    as (r & Hr & Hcase); [intros; apply gedge_eq_spec|].
  rewrite <-El. assert (gh_edge_hash_kv ci ki = hash_pair (ci, ki)) as -> by reflexivity. rewrite Hr. cbn [mbind option_bind].
  destruct Hcase as [[Hr0 Hp]|[-> Hnew]].
  - destruct (Z.leb_spec 0 r); [|lia]. eexists _, _. split; [done|]. set (g' := mk_graph _ _ _ _ _ _).
    assert (keys g' = keys g) as Ek by (unfold keys; apply keys_tick).
    assert (pairs g' = pairs g) as Ep.
    { unfold pairs, g'. cbn [edge]. apply pairs_again. }
    split_and!; [|left; split; [done|]|apply Etick|unfold g'; cbn [edge]; rewrite length_alter; lia].
    + split; rewrite ?Ek, ?Ep; done.
    + by eapply tallies_hit.
  - simpl. rewrite El. destruct (make_room _ _ _ _ _) as [nc|].
    2: { exists 0, g. split_and!; auto. }
    destruct (index_new_spec hash_pair (g_index gr) (pairs g) (eidx g) (gh_edge_hash g) (ci, ki))
      as (h & Hh & Hix'); [done|lia|done|done| |].
    { intros i p. unfold pairs, gh_edge_hash, hash_pair. rewrite list_lookup_fmap.
      destruct (edge g !! i); simpl; [intros [= <-]|]; done. }
    rewrite <-El, Hh. cbn [mbind option_bind]. eexists _, _. split; [done|]. set (g' := mk_graph _ _ _ _ _ _).
    assert (keys g' = keys g) as Ek by (unfold keys; apply keys_tick).
    assert (pairs g' = pairs g ++ [(ci, ki)]) as Ep by (unfold pairs, g'; cbn [edge]; by rewrite fmap_app).
    split_and!; [|left; split; [done|]|apply Etick|unfold g'; cbn [edge]; rewrite length_app; simpl; lia].
    + split; rewrite ?Ek, ?Ep; try done.
      apply NoDup_app. split; [done|]. split; [set_solver|apply NoDup_singleton].
    + by eapply tallies_new.
Qed.

Lemma grecord_spec gc gk ge sc sk ex g x y calls :
  tables_ok g → tallies calls g → Z.of_nat (List.length (node g)) < 2 ^ 32 - 3 →
  Z.of_nat (List.length (edge g)) < 2 ^ 32 - 2 →
  ∃ rc g', grecord gc gk ge sc sk ex g x y = Some (rc, g') ∧ tables_ok g' ∧
    (rc = 1 ∧ tallies (calls ++ [(key_of sc x, key_of sk y)]) g' ∨ rc = 0 ∧ tallies calls g') ∧
    (List.length (node g') <= 2 + List.length (node g))%nat ∧
    (List.length (edge g') <= S (List.length (edge g)))%nat.
Proof.
  intros Hok Ht Hn He.
  destruct (gnode_get_inv gc sc ex g x calls Hok Ht ltac:(lia)) as (rc & g1 & E1 & Hok1 & Ht1 & Ee1 & L1 & _ & Hr1).
  destruct (gnode_get_inv gk sk ex g1 y calls Hok1 Ht1 ltac:(lia)) as (rk & g2 & E2 & Hok2 & Ht2 & Ee2 & L2 & M2 & Hr2).
  unfold grecord. rewrite E1. cbn [mbind option_bind fst snd]. rewrite E2. cbn [mbind option_bind fst snd].
  rewrite Ee1 in Ee2. destruct ((rc <? 0) || (rk <? 0)) eqn:En.
  { exists 0, g2. split_and!; [done|done|auto|lia|]. rewrite Ee2. lia. }
  apply orb_false_iff in En as [?%Z.ltb_ge ?%Z.ltb_ge].
  destruct Hr1 as [|[_ Hr1]]; [lia|]. destruct Hr2 as [|[_ Hr2]]; [lia|].
  destruct (edge_step ge g2 (Z.to_nat rc) (Z.to_nat rk) (key_of sc x) (key_of sk y) calls)
    as (r & g' & E & ? & ? & L & L'); [done|done|by rewrite Ee2|by apply M2|done|].
  exists r, g'. rewrite E. rewrite Ee2 in L'. split_and!; [done..|lia|lia].
Qed.

(** ** Histories *)
(** [built n calls g]: [g] is the graph after [n] calls were recorded, with
    whatever the resolver answered and the allocator refused; [calls] are the
    calls that were counted, by the addresses of the functions. *)
Inductive built (ex : option string) : nat → list (Z * Z) → graph → Prop :=
| built_start : built ex 0 [] graph0
| built_call n calls g gc gk ge sc sk x y rc g' :
    built ex n calls g → grecord gc gk ge sc sk ex g x y = Some (rc, g') →
    built ex (S n) (if rc =? 1 then calls ++ [(key_of sc x, key_of sk y)] else calls) g'.

Lemma graph0_ok : tables_ok graph0 ∧ tallies [] graph0.
Proof.
  split; split.
  - constructor.
  - by left.
  - constructor.
  - by left.
  - intros i n Hn. by destruct i.
  - intros e He. by apply elem_of_nil in He.
  - intros a b He. by apply elem_of_nil in He.
Qed.

Lemma built_inv ex n calls g :
  built ex n calls g → Z.of_nat n < 2 ^ 30 →
  tables_ok g ∧ tallies calls g ∧ (List.length (node g) <= 2 * n)%nat ∧ (List.length (edge g) <= n)%nat.
Proof.
  induction 1 as [|n calls g gc gk ge sc sk x y rc g' _ IH E]; intros Hn.
  { destruct graph0_ok. split_and!; simpl; auto; lia. }
  destruct IH as (Hok & Ht & Ln & Le); [lia|].
  destruct (grecord_spec gc gk ge sc sk ex g x y calls Hok Ht ltac:(lia) ltac:(lia))
    as (rc' & g2 & E' & Hok' & Ht' & Ln' & Le').
  rewrite E in E'. injection E' as <- <-.
  split_and!; [done| |lia|lia]. by destruct Ht' as [[-> ?]|[-> ?]].
Qed.

(** The functions a function was seen to call, each once. *)
Definition callees (calls : list (Z * Z)) (a : Z) : list Z := distinct (filter (λ c, c.1 = a) calls).*2.

(** The edges out of a node are the functions it calls. *)
Lemma fanout_callees calls g i n :
  tables_ok g → tallies calls g → node g !! i = Some n →
  cnt (λ p, p.1 = i) (pairs g) = Z.of_nat (List.length (callees calls (addr n))).
Proof.
  intros Hok [_ H2 H3] Hn.
  assert (keys g !! i = Some (addr n)) as Hk by (unfold keys; by rewrite list_lookup_fmap, Hn).
  set (ks := (filter (λ p, p.1 = i) (pairs g)).*2).
  assert (callees calls (addr n) ≡ₚ omap (λ j, keys g !! j) ks) as Hp; cycle 1.
  { rewrite Hp. unfold cnt. f_equal. transitivity (List.length ks); [unfold ks; by rewrite length_fmap|].
    symmetry. apply length_omap_all. apply Forall_forall. intros j Hj.
    unfold ks in Hj. apply list_elem_of_fmap in Hj as ([i' j'] & -> & [_ Hin]%list_elem_of_filter).
    apply list_elem_of_fmap in Hin as (e & [= -> ->] & He).
    destruct (H2 e He) as (x & y & _ & Hy & _). simpl. by rewrite Hy. }
  apply NoDup_Permutation.
  - apply NoDup_distinct.
  - apply NoDup_omap_keys; [apply Hok|].
    unfold ks. apply NoDup_fmap_snd_filter, Hok.
  - intros b. unfold callees. rewrite elem_of_distinct, list_elem_of_fmap, list_elem_of_omap. split.
    + intros ([x y] & -> & [Hx Hin]%list_elem_of_filter). simpl in *. subst x.
      destruct (H3 _ _ Hin) as (i' & j & Hi' & Hj & Hp).
      assert (i' = i) as -> by (eapply NoDup_lookup; [apply Hok|done..]).
      exists j. split; [|done]. unfold ks. apply list_elem_of_fmap. exists (i, j).
      split; [done|]. by apply list_elem_of_filter.
    + intros (j & Hj & Hb). unfold ks in Hj.
      apply list_elem_of_fmap in Hj as ([i' j'] & -> & [Hi Hin]%list_elem_of_filter). simpl in *. subst i'.
      apply list_elem_of_fmap in Hin as (e & [= Hc Hc'] & He). subst j' i.
      destruct (H2 e He) as (x & y & Hx & Hy & Hin & _). simplify_eq.
      exists (addr n, b). split; [done|]. by apply list_elem_of_filter.
Qed.

(** The edges the sink receives. *)
Lemma emit_spec calls g aecap :
  tables_ok g → tallies calls g →
  NoDup (graph_emit always aecap g).*1 ∧
  ∀ a b c, (a, b, c) ∈ graph_emit always aecap g ↔ (a, b) ∈ calls ∧ c = u64 (cnt (λ p, p = (a, b)) calls).
Proof.
  intros Hok Ht. pose proof Ht as [_ H2 H3]. unfold graph_emit, always. rewrite andb_false_r.
  assert (∀ i a, keys g !! i = Some a → addr_at g i = a) as Haddr.
  { intros i a. unfold keys, addr_at. rewrite list_lookup_fmap. by destruct (node g !! i); intros [= <-]. }
  split.
  - rewrite <-list_fmap_compose. pose proof (edges_nodup g Hok) as Hnd. unfold pairs in Hnd.
    apply NoDup_fmap_2_strong; [|by apply NoDup_fmap_1 in Hnd].
    intros e1 e2 He1 He2 [= E1 E2].
    destruct (H2 e1 He1) as (x1 & y1 & Hx1 & Hy1 & _ & Hc1).
    destruct (H2 e2 He2) as (x2 & y2 & Hx2 & Hy2 & _ & Hc2).
    rewrite (Haddr _ _ Hx1), (Haddr _ _ Hx2) in E1. rewrite (Haddr _ _ Hy1), (Haddr _ _ Hy2) in E2. subst x2 y2.
    assert (caller e1 = caller e2) as E3 by (eapply NoDup_lookup; [apply Hok|done..]).
    assert (callee e1 = callee e2) as E4 by (eapply NoDup_lookup; [apply Hok|done..]).
    destruct e1, e2; simpl in *. congruence.
  - intros a b c. rewrite list_elem_of_fmap. split.
    + intros (e & E & He). destruct (H2 e He) as (x & y & Hx & Hy & Hin & Hc).
      rewrite (Haddr _ _ Hx), (Haddr _ _ Hy) in E. injection E as -> -> ->. done.
    + intros [Hin ->]. destruct (H3 a b Hin) as (i & j & Hi & Hj & Hp).
      unfold pairs in Hp. apply list_elem_of_fmap in Hp as (e & [= -> ->] & He).
      exists e. split; [|done]. rewrite (Haddr _ _ Hi), (Haddr _ _ Hj). f_equal.
      destruct (H2 e He) as (x & y & Hx & Hy & _ & ->). by simplify_eq.
Qed.

(** Under any allocator the sink receives these edges, or none because the
    buffer for them was refused. *)
Lemma emit_refused_spec calls g ga aecap :
  tables_ok g → tallies calls g →
  let out := graph_emit ga aecap g in
  (out = [] ∨ NoDup out.*1 ∧ ∀ a b c, (a, b, c) ∈ out ↔ (a, b) ∈ calls ∧ c = u64 (cnt (λ p, p = (a, b)) calls)) ∧
  (out = [] → calls ≠ [] → aecap < Z.of_nat (List.length (edge g)) ∧ ga (Z.of_nat (List.length (edge g)) *64 24) = false).
Proof.
  intros Hok Ht out. pose proof (emit_spec calls g aecap Hok Ht) as [Hnd Hin].
  assert (graph_emit always aecap g = (λ e, (addr_at g (caller e), addr_at g (callee e), count e)) <$> edge g) as Ea
    by (unfold graph_emit, always; by rewrite andb_false_r).
  unfold out, graph_emit. destruct (_ && _) eqn:E.
  - split; [by left|]. intros _ _. apply andb_true_iff in E as [?%Z.ltb_lt ?%negb_true_iff]. done.
  - rewrite <-Ea. split; [by right|]. intros E0 Hne. exfalso. destruct calls as [|[a b] calls]; [done|].
    assert ((a, b, u64 (cnt (λ p, p = (a, b)) ((a, b) :: calls))) ∈ graph_emit always aecap g) as Hx
      by (apply Hin; split; [by left|done]).
    rewrite E0 in Hx. by apply not_elem_of_nil in Hx.
Qed.

(** C8: the call graph is the tally of the calls it counted, fewer than 2{^30}
    recorded in all.  Whatever the
    resolver answers, whatever memory is refused, and whether the tables are
    indexed or scanned: recording a call always ends; a function has one node,
    which counts the calls it received, the calls it made and the distinct
    functions it called; and the edges handed to the sink are the distinct
    caller-callee pairs, each once, with the number of calls between them, or no
    edges at all, which happens only when the buffer for them had to grow and was
    refused. *)
Theorem call_graph_exact ex n calls g (Hb : built ex n calls g) (Hn : Z.of_nat n < 2 ^ 30) :
  (∀ gc gk ge sc sk x y, ∃ rc g', grecord gc gk ge sc sk ex g x y = Some (rc, g')) ∧
  NoDup (keys g) ∧
  (∀ nd, nd ∈ node g →
     invocations nd = u64 (cnt (λ c, c.2 = addr nd) calls) ∧
     out_calls nd = u64 (cnt (λ c, c.1 = addr nd) calls) ∧
     fanout nd = u32 (Z.of_nat (List.length (callees calls (addr nd))))) ∧
  (∀ ga aecap,
     let out := graph_emit ga aecap g in
     (out = [] ∨ NoDup out.*1 ∧ ∀ a b c, (a, b, c) ∈ out ↔ (a, b) ∈ calls ∧ c = u64 (cnt (λ p, p = (a, b)) calls)) ∧
     (out = [] → calls ≠ [] → aecap < Z.of_nat (List.length (edge g)) ∧ ga (Z.of_nat (List.length (edge g)) *64 24) = false)).
Proof.
  destruct (built_inv ex n calls g Hb Hn) as (Hok & Ht & Ln & Le). split_and!.
  - intros. destruct (grecord_spec gc gk ge sc sk ex g x y calls Hok Ht ltac:(lia) ltac:(lia))
      as (rc & g' & E & _). by exists rc, g'.
  - apply Hok.
  - intros nd [i Hi]%list_elem_of_lookup. rewrite <-(fanout_callees calls g i nd Hok Ht Hi).
    by apply (t_node _ _ Ht).
  - intros ga aecap. by apply emit_refused_spec.
Qed.

(** Three calls among two functions; the index cannot be allocated for the
    first node, so its lookups scan. *)
Definition plenty : grants := mk_grants always always.
Definition scanty : grants := mk_grants always never.
Definition f_sym : option sym := Some (mk_sym 4096 "f" "prog").
Definition g_sym : option sym := Some (mk_sym 8192 "puts@plt" "prog").
Definition after (r : option (Z * graph)) : graph := from_option snd graph0 r.
Definition demo1 : graph :=
  after (grecord scanty plenty plenty f_sym g_sym (Some "prog") graph0 4100 8192).
Definition demo2 : graph :=
  after (grecord plenty scanty scanty f_sym g_sym (Some "prog") demo1 4108 8192).
Definition demo3 : graph :=
  after (grecord plenty plenty plenty g_sym f_sym (Some "prog") demo2 8200 4096).

Lemma call_graph_exact_witness :
  graph_emit always 0 demo3 = [(4096, 8192, 2); (8192, 4096, 1)] ∧
  external <$> node demo3 = [false; true] ∧ NoDup (keys demo3).
Proof.
  split; [vm_compute; reflexivity|]. split; [vm_compute; reflexivity|].
  apply (call_graph_exact (Some "prog") 3 [(4096, 8192); (4096, 8192); (8192, 4096)] demo3); [|reflexivity].
  apply (built_call _ 2 [(4096, 8192); (4096, 8192)] demo2 plenty plenty plenty g_sym f_sym 8200 4096 1);
    [|vm_compute; reflexivity].
  apply (built_call _ 1 [(4096, 8192)] demo1 plenty scanty scanty f_sym g_sym 4108 8192 1);
    [|vm_compute; reflexivity].
  apply (built_call _ 0 [] graph0 scanty plenty plenty f_sym g_sym 4100 8192 1);
    [apply built_start|vm_compute; reflexivity].
Defined.
End CallGraph.
