(* ===== verification/TreeFilter.v ===== *)
(** The call tree's output filter ([cli/asmspy_treefilter.h]): depth cap, symbol
    focus and module, over the live call depth of one thread. *)
From S2P Require Import Prelude.
Open Scope string_scope.
Open Scope Z_scope.
Open Scope list_scope.

Module TreeFilter.

(** [asmspy_tree_filter_t]; a null string is [None]. *)
Record tree_filter := mk_filter { max_depth : Z; focus : option string; fmodule : option string }.
Definition ASMSPY_TF_NO_FOCUS : Z := -1.

(** [strstr (hay, needle) != NULL] *)
Definition strstr (hay needle : string) : bool := if String.index 0 needle hay is Some _ then true else false.
(** [p && *p] *)
Definition given (s : option string) : option string :=
  match s with Some EmptyString => None | s => s end.
Definition asmspy_tf_match (hay needle : option string) : bool :=
  match given needle with
  | None => true
  | Some n => match hay with Some h => strstr h n | None => false end
  end.

(** The filter of a call: the focus state after it, and the depth to show it at,
    [None] when it is suppressed. *)
Definition asmspy_tree_filter_call (f : option tree_filter) (name module : option string) (depth focus_depth : Z) :
    Z * option Z :=
  let show base focus_depth :=
    let d := Z.max 0 (depth - base) in
    match f with
    | None => (focus_depth, Some d)
    | Some f =>
        if (0 <? max_depth f) && (max_depth f <=? d) then (focus_depth, None)
        else match given (fmodule f) with
             | Some _ => if asmspy_tf_match module (fmodule f) then (focus_depth, Some d) else (focus_depth, None)
             | None => (focus_depth, Some d)
             end
    end in
  match (f ← f; given (focus f)) with
  | None => show 0 focus_depth
  | Some n =>
      if focus_depth =? ASMSPY_TF_NO_FOCUS then
        if asmspy_tf_match name (Some n) then show depth depth else (focus_depth, None)
      else show focus_depth focus_depth
  end.

(** After a return to [depth]. *)
Definition asmspy_tree_filter_ret (f : option tree_filter) (depth focus_depth : Z) : Z :=
  match (f ← f; given (focus f)) with
  | None => focus_depth
  | Some _ => if negb (focus_depth =? ASMSPY_TF_NO_FOCUS) && (depth <=? focus_depth) then ASMSPY_TF_NO_FOCUS else focus_depth
  end.

Definition asmspy_tree_filter_active (f : option tree_filter) : bool :=
  match f with
  | None => false
  | Some f => (0 <? max_depth f) || (if given (focus f) is Some _ then true else false) ||
              (if given (fmodule f) is Some _ then true else false)
  end.

(** ** What the filter means
    [outer]: the functions on the stack below the call, the outermost first. *)
Section meaning.
Context (f : option tree_filter) (nm md : Z → string).

Definition focused (callee : Z) : bool :=
  match (f ← f; given (focus f)) with
  | None => true
  | Some n => strstr (nm callee) n
  end.
(** The depth of the outermost focused function. *)
Definition root (calls : list Z) : option nat := fst <$> list_find (λ c, focused c = true) calls.
Definition wanted (callee : Z) (d : Z) : bool :=
  match f with
  | None => true
  | Some f => ((max_depth f <=? 0) || (d <? max_depth f)) &&
              (match given (fmodule f) with Some m => strstr (md callee) m | None => true end)
  end.
(** A call is shown when some function on the way to it is in focus, itself
    included, at its depth under the outermost one. *)
Definition shown (outer : list Z) (callee : Z) : option Z :=
  r ← root (outer ++ [callee]);
  let d := Z.of_nat (length outer) - Z.of_nat (match (f ← f; given (focus f)) with Some _ => r | None => O end) in
  if wanted callee d then Some d else None.
(** The focus state of a thread with these functions on its stack. *)
Definition focus_of (outer : list Z) : Z :=
  match (f ← f; given (focus f)) with
  | None => ASMSPY_TF_NO_FOCUS
  | Some _ => from_option Z.of_nat ASMSPY_TF_NO_FOCUS (root outer)
  end.

Lemma root_snoc outer c :
  root (outer ++ [c]) = match root outer with Some r => Some r | None => if focused c then Some (length outer) else None end.
Proof.
  unfold root. destruct (list_find (λ c, focused c = true) outer) as [[i x]|] eqn:E.
  - by rewrite (list_find_app_l _ _ _ i x E).
  - rewrite (list_find_app_r _ _ _ E). simpl. destruct (focused c) eqn:Ef.
    + rewrite decide_True by done. done.
    + by rewrite decide_False by congruence.
Qed.
Lemma root_lt outer r : root outer = Some r → (r < length outer)%nat.
Proof.
  unfold root. destruct (list_find (λ c, focused c = true) outer) as [[i x]|] eqn:E; [|done]. intros [= <-].
  apply list_find_Some in E as (E & _). by eapply lookup_lt_Some.
Qed.
(** Returning from the inner calls keeps the root while it is on the stack. *)
Lemma root_take outer n : root (take n outer) = (r ← root outer; if (r <? n)%nat then Some r else None).
Proof.
  revert n. induction outer as [|c outer IH] using rev_ind; intros n; [by destruct n|].
  destruct (Nat.le_gt_cases n (length outer)) as [Hn|Hn].
  - rewrite take_app_le by done. rewrite IH, root_snoc. destruct (root outer) as [r|]; [done|].
    destruct (focused c); [|done]. simpl. by rewrite (proj2 (Nat.ltb_ge _ _)) by lia.
  - rewrite take_ge by (rewrite length_app; simpl; lia). destruct (root (outer ++ [c])) as [r|] eqn:E; [|done].
    apply root_lt in E. rewrite length_app in E. simpl in E |- *. by rewrite (proj2 (Nat.ltb_lt _ _)) by lia.
Qed.

(** The filter's answers are the meaning, and its state follows. *)
Lemma filter_call outer callee :
  asmspy_tree_filter_call f (Some (nm callee)) (Some (md callee)) (Z.of_nat (length outer)) (focus_of outer) =
    (focus_of (outer ++ [callee]), shown outer callee).
Proof.
  unfold asmspy_tree_filter_call, shown, focus_of. rewrite root_snoc. unfold focused.
  assert (∀ base fd : Z, (let d := Z.max 0 (Z.of_nat (length outer) - base) in
    match f with
    | None => (fd, Some d)
    | Some f0 => if (0 <? max_depth f0) && (max_depth f0 <=? d) then (fd, None)
                 else match given (fmodule f0) with
                      | Some _ => if asmspy_tf_match (Some (md callee)) (fmodule f0) then (fd, Some d) else (fd, None)
                      | None => (fd, Some d)
                      end
    end) = (fd, let d := Z.max 0 (Z.of_nat (length outer) - base) in if wanted callee d then Some d else None)) as Hshow.
  { intros base fd. cbv zeta. unfold wanted. destruct f as [f0|]; [|done].
    rewrite (Z.leb_antisym _ (max_depth f0)), (Z.leb_antisym 0 (max_depth f0)).
    unfold asmspy_tf_match. destruct (0 <? max_depth f0), (_ <? max_depth f0), (given (fmodule f0)); try done;
      by destruct (strstr _ _). }
  destruct (f ← f; given (focus f)) as [s|] eqn:Ef.
  - destruct (root outer) as [r|] eqn:Er.
    + pose proof (root_lt _ _ Er). cbn [from_option]. unfold ASMSPY_TF_NO_FOCUS.
      rewrite (proj2 (Z.eqb_neq (Z.of_nat r) (-1))) by lia. rewrite Hshow. cbn [mbind option_bind]. by rewrite Z.max_r by lia.
    + cbn [from_option]. rewrite Z.eqb_refl. assert (asmspy_tf_match (Some (nm callee)) (Some s) = strstr (nm callee) s) as ->.
      { destruct f as [f0|]; [|done]. simpl in Ef. destruct (focus f0) as [[|a s']|]; by simplify_eq/=. }
      destruct (strstr (nm callee) s); [|done]. rewrite Hshow. cbn [from_option mbind option_bind]. by rewrite Z.sub_diag.
  - rewrite Hshow. cbn [mbind option_bind]. destruct (root outer); cbn [mbind option_bind]; by rewrite Z.max_r by lia.
Qed.
Lemma filter_ret outer n :
  (n <= length outer)%nat →
  asmspy_tree_filter_ret f (Z.of_nat n) (focus_of outer) = focus_of (take n outer).
Proof.
  intros Hn. unfold asmspy_tree_filter_ret, focus_of. destruct (f ← f; given (focus f)) as [s|]; [|done].
  rewrite root_take. destruct (root outer) as [r|]; [|done]. cbn [from_option mbind option_bind].
  unfold ASMSPY_TF_NO_FOCUS. rewrite (proj2 (Z.eqb_neq (Z.of_nat r) (-1))) by lia. cbn [negb andb].
  destruct (Z.leb_spec (Z.of_nat n) (Z.of_nat r)); destruct (Nat.ltb_spec r n); try lia; done.
Qed.
End meaning.
End TreeFilter.
