(* ===== verification/CallTree.v ===== *)
(** The call-tree engine of the process spy ([asmspy_engine_tree] of
    [cli/asmspy_engine.c], x86-64): a shadow stack of return addresses per thread,
    calls whose target is confirmed at their callee, and one line per call that
    the filter lets through. *)
From S2P Require Import Prelude Format TreeFilter.
Import TreeFilter.
Open Scope string_scope.
Open Scope Z_scope.
Open Scope list_scope.

Module CallTree.

(** ** Data *)
Record frame := mk_frame { ret : Z; fsp : Z }.
(** The fields of [thr_t] this engine uses. [stk] is the live part of the array,
    the innermost frame first; [pending] is [call_site], [pend_ret], [pend_sp] while
    [pending_call] is set. *)
Record thr := mk_thr {
  tid : Z; pending : option (Z * Z * Z); stk : list frame; stk_cap : Z; focus_depth : Z;
}.
Definition fresh (t : Z) : thr := mk_thr t None [] 0 ASMSPY_TF_NO_FOCUS.
Definition with_stk (t : thr) (s : list frame) (cap : Z) : thr := mk_thr (tid t) (pending t) s cap (focus_depth t).
Definition with_pending (t : thr) p : thr := mk_thr (tid t) p (stk t) (stk_cap t) (focus_depth t).
Definition with_focus (t : thr) (d : Z) : thr := mk_thr (tid t) (pending t) (stk t) (stk_cap t) d.

(** What one trap of a thread shows: the registers, the word at the stack pointer
    when it can be read, and what the disassembly layer says of the instruction at
    the program counter: its length, whether it is a call, its target when the
    call carries one. *)
Record stop := mk_stop {
  rip : Z; sp : Z; word : option Z; ilen : Z; is_call : bool; target : option Z;
}.

Definition ASMSPY_STK_MAX : Z := 4096.
Definition sizeof_frame : Z := 16.

(** ** The shadow stack *)
Definition frm_push (grant : allocator) (t : thr) (r s : Z) : thr :=
  let n := Z.of_nat (length (stk t)) in
  if ASMSPY_STK_MAX <=? n then t
  else if n =? stk_cap t then
    let nc := if stk_cap t =? 0 then 32 else stk_cap t * 2 in
    if grant (nc * sizeof_frame) then with_stk t (mk_frame r s :: stk t) nc else t
  else with_stk t (mk_frame r s :: stk t) (stk_cap t).

Fixpoint unwind (s : Z) (fs : list frame) : list frame :=
  match fs with
  | [] => []
  | f :: rest => if fsp f <? s then unwind s rest else fs
  end.
Definition frm_unwind (t : thr) (s : Z) : thr := with_stk t (unwind s (stk t)) (stk_cap t).

Definition call_pend_arm (t : thr) (r len s : Z) : thr := with_pending t (Some (r, u64 (r + len), u64 (s - 8))).
Definition call_pend_at_callee (p : Z * Z * Z) (g : stop) : bool :=
  let '(_, pend_ret, pend_sp) := p in
  (sp g =? pend_sp) && match word g with Some ra => ra =? pend_ret | None => false end.

(** ** One line *)
(** [asmspy_tree_call_t] with the text given to the sink. *)
Record entry := mk_entry { e_tid : Z; depth : Z; callee : Z; name : string; module : string; text : string }.
Fixpoint blanks (n : nat) : string := match n with O => EmptyString | S n => (" " ++ blanks n)%string end.
Section engine.
Context (grant : allocator) (asmspy_resolve : Z → option (string * string)) (filter : option tree_filter).

Definition shown_name (c : Z) : string :=
  match asmspy_resolve c with Some (n, _) => n | None => cstr 24 ("0x" ++ fmt_x c)%string end.
Definition shown_module (c : Z) : string :=
  match asmspy_resolve c with Some (_, m) => m | None => "?" end.
Definition line_of (multi : bool) (t eff c : Z) : string :=
  let nm := cstr 200 (if asmspy_resolve c is Some _ then shown_name c ++ " [" ++ shown_module c ++ "]" else shown_name c)%string in
  let ind := blanks (Z.to_nat (Z.min 60 (eff * 2))) in
  cstr 320 (if multi then "[" ++ fmt_d t ++ "] " ++ ind ++ "-> " ++ nm else ind ++ "-> " ++ nm)%string.
Definition tree_emit (multi : bool) (t : thr) (c d : Z) : thr * list entry :=
  let '(fd, eff) := asmspy_tree_filter_call filter (Some (shown_name c)) (Some (shown_module c)) d (focus_depth t) in
  (with_focus t fd,
   match eff with
   | Some eff => [mk_entry (tid t) eff c (shown_name c) (shown_module c) (line_of multi (tid t) eff c)]
   | None => []
   end).

(** ** One trap of a thread *)
(** First half: frames that are gone, then the call that was waiting. *)
Definition arrive (multi : bool) (t : thr) (g : stop) : thr * list entry :=
  let was := length (stk t) in
  let t := frm_unwind t (sp g) in
  let n := length (stk t) in
  let t := if (n <? was)%nat then with_focus t (asmspy_tree_filter_ret filter (Z.of_nat n) (focus_depth t)) else t in
  match pending t with
  | None => (t, [])
  | Some p =>
      let '(t, out) :=
        if call_pend_at_callee p g then
          tree_emit multi t (rip g) (if (n =? 0)%nat then 0 else Z.of_nat n - 1)
        else (t, []) in
      (with_pending t None, out)
  end.
(** Second half: the instruction about to run. *)
Definition depart (multi : bool) (t : thr) (g : stop) : thr * list entry :=
  if is_call g then
    let d := Z.of_nat (length (stk t)) in
    let t := if ilen g =? 0 then t else frm_push grant t (u64 (rip g + ilen g)) (u64 (sp g - 8)) in
    match target g with
    | Some tgt => tree_emit multi t tgt d
    | None => if ilen g =? 0 then (t, []) else (call_pend_arm t (rip g) (ilen g) (sp g), [])
    end
  else (t, []).
Definition on_trap (multi : bool) (t : thr) (g : stop) : thr * list entry :=
  let '(t, o1) := arrive multi t g in
  let '(t, o2) := depart multi t g in (t, o1 ++ o2).

(** ** The threads *)
Definition thr_find (tab : list thr) (t : Z) : option nat := fst <$> list_find (λ e, tid e = t) tab.
(** [grant_tab]: room in the table. *)
Definition thr_get (grant_tab : bool) (tab : list thr) (t : Z) : list thr * option nat :=
  match thr_find tab t with
  | Some i => (tab, Some i)
  | None => if grant_tab then (tab ++ [fresh t], Some (length tab)) else (tab, None)
  end.
(** The last entry takes the place of the one removed. *)
Definition thr_del (tab : list thr) (t : Z) : list thr :=
  match thr_find tab t, last tab with
  | Some i, Some l => take (length tab - 1) (<[i := l]> tab)
  | _, _ => tab
  end.

(** What [waitpid] reports; [room] is the answer of [realloc] for a new table
    entry, [named] whether the process has a symbol table. *)
Inductive event :=
  | Trapped (t : Z) (room named : bool) (g : stop)
  | Cloned (t child : Z) (room : bool)
  | Forked (t child : Z) (room copied : bool)
  | Execed (t : Z) (room : bool)
  | Exited (t : Z)
  | Other (t : Z) (room : bool).

Record engine := mk_engine { tab : list thr; multi : bool }.
Definition inherit (copied : bool) (tb : list thr) (t : Z) (ci : nat) : list thr :=
  match p ← thr_find tb t; tb !! p with
  | Some pt =>
      if (0 <? length (stk pt))%nat && copied then
        alter (λ c, with_stk c (stk pt) (Z.of_nat (length (stk pt)))) ci tb
      else tb
  | None => tb
  end.
Definition on_event (st : engine) (ev : event) : engine * list entry :=
  match ev with
  | Trapped t room named g =>
      let '(tb, i) := thr_get room (tab st) t in
      match (if named then i else None) with
      | Some i =>
          match tb !! i with
          | Some th =>
              let '(th, out) := on_trap (multi st) th g in (mk_engine (<[i := th]> tb) (multi st), out)
          | None => (mk_engine tb (multi st), [])
          end
      | None => (mk_engine tb (multi st), [])
      end
  | Cloned t child room => (mk_engine (thr_get room (tab st) child).1 true, [])
  | Forked t child room copied =>
      let '(tb, ci) := thr_get room (tab st) child in
      (mk_engine (match ci with Some ci => inherit copied tb t ci | None => tb end) true, [])
  | Execed t room =>
      let '(tb, i) := thr_get room (tab st) t in
      (mk_engine (match i with
                  | Some i => alter (λ th, mk_thr (tid th) None [] (stk_cap th) ASMSPY_TF_NO_FOCUS) i tb
                  | None => tb
                  end) (multi st), [])
  | Exited t => (mk_engine (thr_del (tab st) t) (multi st), [])
  | Other t room => (mk_engine (thr_get room (tab st) t).1 (multi st), [])
  end.
(** The loop: it ends when [max] lines are out or no thread is left. *)
Fixpoint tree_loop (max emitted : Z) (st : engine) (evs : list event) : engine * list entry :=
  match evs with
  | [] => (st, [])
  | ev :: evs =>
      if (max <? 0) || (emitted <? max) then
        let '(st, out) := on_event st ev in
        match ev, tab st with
        | Exited _, [] => (st, out)
        | _, _ =>
            let '(st, rest) := tree_loop max (emitted + Z.of_nat (length out)) st evs in (st, out ++ rest)
        end
      else (st, [])
  end.

(** ** What a thread really does
    The calls that are live, the innermost first, and how a thread gets from one
    trap to the next: its call retires, it moves within the innermost function or
    out of [k] of them (a return is one, a longjmp any number; entering and leaving
    a signal handler is none), or a signal arrives before its call could retire. *)
Record act := mk_act { fn : Z; fr : frame }.
Inductive how := Called | Moved (k : nat) | Interrupted.
Definition real_step (st : list act) (cur next : stop) (h : how) : option (list act) :=
  match h with
  | Called =>
      if is_call cur && (0 <? ilen cur) && (8 <=? sp cur) && (sp cur <? 2 ^ 64) && (sp next =? sp cur - 8) &&
         bool_decide (word next = Some (u64 (rip cur + ilen cur))) &&
         (match target cur with Some t => rip next =? t | None => true end)
      then Some (mk_act (rip next) (mk_frame (u64 (rip cur + ilen cur)) (sp next)) :: st) else None
  | Moved k =>
      if negb (is_call cur) && (k <=? length st)%nat && forallb (λ a, fsp (fr a) <? sp next) (take k st) &&
         (match drop k st with a :: _ => sp next <=? fsp (fr a) | [] => true end)
      then Some (drop k st) else None
  | Interrupted => if is_call cur && (sp next <? sp cur - 8) then Some st else None
  end.

(** A run from one trap, and the calls that retired in it, each with the functions
    it was made under, the outermost first. *)
Fixpoint real_run (st : list act) (cur : stop) (r : list (how * stop)) : option (list (list Z * Z)) :=
  match r with
  | [] => Some []
  | (h, next) :: r =>
      st' ← real_step st cur next h;
      cs ← real_run st' next r;
      Some (match h with Called => (reverse (fn <$> st), rip next) :: cs | _ => cs end)
  end.
Fixpoint deepest (st : list act) (cur : stop) (r : list (how * stop)) : nat :=
  match r with
  | [] => length st
  | (h, next) :: r =>
      match real_step st cur next h with Some st' => Nat.max (length st) (deepest st' next r) | None => 0 end
  end.
Definition last_stop (cur : stop) (r : list (how * stop)) : stop := default cur (snd <$> last r).

(** The lines a call deserves. *)
Definition shape (e : entry) : Z * Z * string * string := (depth e, callee e, name e, module e).
Definition lines_of (c : list Z * Z) : list (Z * Z * string * string) :=
  match shown filter shown_name shown_module c.1 c.2 with
  | Some eff => [(eff, c.2, shown_name c.2, shown_module c.2)]
  | None => []
  end.

(** ** One thread *)
Lemma unwind_drop s st k :
  forallb (λ a, fsp (fr a) <? s) (take k st) = true →
  match drop k st with a :: _ => s <= fsp (fr a) | [] => True end →
  unwind s (fr <$> st) = fr <$> drop k st.
Proof.
  revert k. induction st as [|a st IH]; intros k Hk Hd; [by destruct k|]. destruct k as [|k].
  - simpl in *. by rewrite (proj2 (Z.ltb_ge _ _)).
  - simpl in *. apply andb_true_iff in Hk as [Ha Hk]. rewrite Ha. by apply IH.
Qed.

(** Between two traps the shadow stack is the real one and nothing is pending. *)
Record tracks (t : thr) (st : list act) : Prop := {
  t_stk : stk t = fr <$> st;
  t_pending : pending t = None;
  t_focus : focus_depth t = focus_of filter shown_name (reverse (fn <$> st));
}.

Lemma tree_emit_spec m t st c :
  focus_depth t = focus_of filter shown_name (reverse (fn <$> st)) →
  let '(t', out) := tree_emit m t c (Z.of_nat (length st)) in
  shape <$> out = lines_of (reverse (fn <$> st), c) ∧ Forall (λ e, e_tid e = tid t) out ∧
  t' = with_focus t (focus_of filter shown_name (reverse (fn <$> st) ++ [c])).
Proof.
  intros Hf. unfold tree_emit. rewrite Hf.
  pose proof (filter_call filter shown_name shown_module (reverse (fn <$> st)) c) as H.
  rewrite length_reverse, length_fmap in H. rewrite H. unfold lines_of. cbn [fst snd].
  destruct (shown _ _ _ _ _); repeat split; by repeat constructor.
Qed.

Lemma frm_push_spec t r s :
  (∀ n, grant n = true) → Z.of_nat (length (stk t)) < ASMSPY_STK_MAX →
  ∃ c, frm_push grant t r s = with_stk t (mk_frame r s :: stk t) c.
Proof.
  intros Hm Hl. unfold frm_push. rewrite (proj2 (Z.leb_gt _ _)) by done. rewrite Hm. repeat case_match; eauto.
Qed.
Lemma unwind_keep s st : match st with a :: _ => s <= fsp (fr a) | [] => True end → unwind s (fr <$> st) = fr <$> st.
Proof. intros H. by apply (unwind_drop s st 0). Qed.

Lemma arrive_moved m t st g k :
  tracks t st → (k <= length st)%nat → forallb (λ a, fsp (fr a) <? sp g) (take k st) = true →
  match drop k st with a :: _ => sp g <= fsp (fr a) | [] => True end →
  let '(t', out) := arrive m t g in tracks t' (drop k st) ∧ tid t' = tid t ∧ out = [].
Proof.
  intros [Hs Hp Hf] Hk Hpop Hkeep. unfold arrive, frm_unwind. rewrite Hs, (unwind_drop _ _ k) by done.
  cbn [stk with_stk focus_depth pending]. rewrite !length_fmap, length_drop.
  assert (focus_of filter shown_name (reverse (fn <$> drop k st)) =
    if (length st - k <? length st)%nat
    then asmspy_tree_filter_ret filter (Z.of_nat (length st - k)) (focus_depth t) else focus_depth t) as E.
  { rewrite Hf. destruct (Nat.ltb_spec (length st - k) (length st)).
    - rewrite filter_ret by (rewrite length_reverse, length_fmap; lia). by rewrite fmap_drop, reverse_drop, length_fmap.
    - assert (k = 0%nat ∨ st = []) as [-> | ->] by (destruct st; simpl in *; [by right|left; lia]); [done|by rewrite drop_nil]. }
  destruct (length st - k <? length st)%nat; cbn [pending with_focus with_stk]; rewrite Hp; repeat split; try done; by rewrite E.
Qed.

(** Stepping over one trap: the first half at the next trap completes it. *)
Definition over (m m' : bool) (t : thr) (cur next : stop) : thr * list entry :=
  let '(t, o1) := depart m t cur in
  let '(t, o2) := arrive m' t next in (t, o1 ++ o2).

Lemma over_called m m' t st cur next :
  (∀ n, grant n = true) → Z.of_nat (length st) < ASMSPY_STK_MAX → tracks t st →
  is_call cur = true → 0 < ilen cur → 8 <= sp cur < 2 ^ 64 → sp next = sp cur - 8 →
  word next = Some (u64 (rip cur + ilen cur)) → from_option (λ a, rip next = a) True (target cur) →
  let '(t', out) := over m m' t cur next in
  tracks t' (mk_act (rip next) (mk_frame (u64 (rip cur + ilen cur)) (sp next)) :: st) ∧ tid t' = tid t ∧
  Forall (λ e, e_tid e = tid t) out ∧ shape <$> out = lines_of (reverse (fn <$> st), rip next).
Proof.
  intros Hm Hl [Hs Hp Hf] Hc Hlen Hsp Hnext Hw Ht. unfold over, depart. rewrite Hc.
  rewrite (proj2 (Z.eqb_neq _ _)) by lia.
  assert (u64 (sp cur - 8) = sp next) as Esp by (rewrite Hnext; apply Z.mod_small; lia). rewrite Esp.
  destruct (frm_push_spec t (u64 (rip cur + ilen cur)) (sp next) Hm) as [c Ec]; [by rewrite Hs, length_fmap|]. rewrite Ec, Hs.
  set (f := mk_frame _ _). set (a := mk_act (rip next) f).
  assert (unwind (sp next) (f :: (fr <$> st)) = fr <$> a :: st) as Eu by (apply (unwind_keep (sp next) (a :: st)); simpl; lia).
  destruct (target cur) as [tgt|].
  - simpl in Ht. subst tgt. rewrite length_fmap. pose proof (tree_emit_spec m (with_stk t (f :: (fr <$> st)) c) st (rip next) Hf) as He.
    destruct (tree_emit _ _ _ _) as [t1 o1]. destruct He as (E1 & E2 & ->). unfold arrive, frm_unwind.
    cbn [stk with_stk with_focus pending focus_depth tid]. rewrite Eu, Nat.ltb_irrefl. cbn [pending with_stk with_focus].
    rewrite Hp, app_nil_r. split_and!; try done. split; [done|done|]. cbn [focus_depth]. change (fn <$> a :: st) with (rip next :: (fn <$> st)). by rewrite reverse_cons.
  - unfold arrive, frm_unwind, call_pend_arm. cbn [stk with_stk with_focus with_pending pending focus_depth tid].
    rewrite Eu, Nat.ltb_irrefl. cbn [pending with_stk with_focus with_pending call_pend_at_callee]. rewrite Esp, Z.eqb_refl, Hw, Z.eqb_refl. cbn [andb].
    rewrite fmap_cons. cbn [length Nat.eqb]. rewrite length_fmap.
    replace (Z.of_nat (S (length st)) - 1) with (Z.of_nat (length st)) by lia.
    match goal with |- context [tree_emit _ ?x _ _] => pose proof (tree_emit_spec m' x st (rip next) Hf) as He end.
    destruct (tree_emit _ _ _ _) as [t1 o1]. destruct He as (E1 & E2 & ->). cbn [app].
    split_and!; try done. split; [done|done|]. cbn [focus_depth with_pending with_focus]. change (fn <$> a :: st) with (rip next :: (fn <$> st)). by rewrite reverse_cons.
Qed.

Lemma over_step m m' t st cur next h st' :
  (∀ n, grant n = true) → Z.of_nat (length st') <= ASMSPY_STK_MAX → tracks t st → h ≠ Interrupted →
  real_step st cur next h = Some st' →
  let '(t', out) := over m m' t cur next in
  tracks t' st' ∧ tid t' = tid t ∧ Forall (λ e, e_tid e = tid t) out ∧
  shape <$> out = (match h with Called => lines_of (reverse (fn <$> st), rip next) | _ => [] end).
Proof.
  intros Hm Hl Ht Hh Hr. destruct h as [|k|]; [..|done]; cbn [real_step] in Hr; case_match eqn:E; simplify_eq.
  - rewrite !andb_true_iff in E. destruct E as [[[[[[E1 E2] E3] E4] E5] E6] E7].
    apply over_called; try done; [simpl in Hl; lia|lia|lia|lia|by apply bool_decide_eq_true in E6|].
    destruct (target cur); [simpl; lia|done].
  - rewrite !andb_true_iff in E. destruct E as [[[E1 E2] E3] E4]. unfold over, depart.
    rewrite (proj1 (negb_true_iff _) E1). pose proof (arrive_moved m' t st next k Ht) as H.
    destruct (arrive m' t next) as [t' out]. destruct H as (H1 & H2 & ->); [by apply Nat.leb_le|done|destruct (drop k st); [done|lia]|].
    split_and!; try done.
Qed.

(** All the traps of a thread; the flag is [multi] at the time. *)
Fixpoint traps (t : thr) (gs : list (bool * stop)) : thr * list entry :=
  match gs with
  | [] => (t, [])
  | (m, g) :: gs =>
      let '(t, o1) := on_trap m t g in
      let '(t, o2) := traps t gs in (t, o1 ++ o2)
  end.
(** The same with the halves of neighbouring traps put together. *)
Fixpoint overs (m : bool) (t : thr) (cur : stop) (gs : list (bool * stop)) : thr * list entry :=
  match gs with
  | [] => depart m t cur
  | (m', g) :: gs =>
      let '(t, o1) := over m m' t cur g in
      let '(t, o2) := overs m' t g gs in (t, o1 ++ o2)
  end.
Lemma traps_overs t m g gs :
  traps t ((m, g) :: gs) = let '(t, o1) := arrive m t g in let '(t, o2) := overs m t g gs in (t, o1 ++ o2).
Proof.
  revert t m g. induction gs as [|[m' g'] gs IH]; intros t m g.
  - cbn [traps overs]. unfold on_trap. destruct (arrive m t g) as [t1 o1]. destruct (depart m t1 g) as [t2 o2].
    by rewrite app_nil_r.
  - change (traps t ((m, g) :: (m', g') :: gs)) with
      (let '(t, o1) := on_trap m t g in let '(t, o2) := traps t ((m', g') :: gs) in (t, o1 ++ o2)).
    unfold on_trap. destruct (arrive m t g) as [t1 o1]. cbn [overs]. unfold over.
    destruct (depart m t1 g) as [t2 o2]. rewrite IH. destruct (arrive m' t2 g') as [t3 o3].
    destruct (overs m' t3 g' gs) as [t4 o4]. by rewrite !(assoc_L (++)).
Qed.

Lemma overs_exact m t st cur r ms cs :
  (∀ n, grant n = true) → tracks t st → Forall (λ hs, hs.1 ≠ Interrupted) r → length ms = length r →
  Z.of_nat (deepest st cur r) <= ASMSPY_STK_MAX → is_call (last_stop cur r) = false →
  real_run st cur r = Some cs →
  let '(t', out) := overs m t cur (zip ms (snd <$> r)) in
  shape <$> out = mjoin (lines_of <$> cs) ∧ Forall (λ e, e_tid e = tid t) out.
Proof.
  intros Hm. revert m t st cur ms cs. induction r as [|[h next] r IH]; intros m t st cur ms cs Ht Hh Hlen Hdeep Hlast Hrun.
  - destruct ms; [|done]. cbn in *. simplify_eq. unfold depart, last_stop in *. simpl in Hlast. by rewrite Hlast.
  - destruct ms as [|m' ms]; [done|]. apply Forall_cons in Hh as [Hh Hhs]. cbn [real_run deepest] in *.
    destruct (real_step st cur next h) as [st'|] eqn:Es; [|done]. cbn [mbind option_bind] in Hrun.
    destruct (real_run st' next r) as [cs'|] eqn:Er; [|done]. simplify_eq/=.
    assert (Z.of_nat (length st') <= ASMSPY_STK_MAX) as Hl.
    { assert (length st' <= deepest st' next r)%nat; [|lia]. clear -Er. destruct r as [|[h2 n2] r]; [done|]. cbn [real_run deepest] in *.
      destruct (real_step st' next n2 h2); [simpl; lia|done]. }
    pose proof (over_step m m' t st cur next h st' Hm Hl Ht Hh Es) as Ho. destruct (over m m' t cur next) as [t1 o1].
    destruct Ho as (Ht1 & Htid & Hf1 & Ho1).
    assert (is_call (last_stop next r) = false) as Hlast'.
    { revert Hlast. unfold last_stop. destruct r as [|x r] using rev_ind; [done|]. by rewrite app_comm_cons, !last_snoc. }
    specialize (IH m' t1 st' next ms cs' Ht1 Hhs ltac:(lia) ltac:(lia) Hlast' Er).
    destruct (overs m' t1 next _) as [t2 o2]. destruct IH as [IH1 IH2]. rewrite fmap_app, IH1, Ho1, Htid in *. split.
    + destruct h; done.
    + by apply Forall_app.
Qed.

(** ** All threads *)
Definition holds (tb : list thr) (t : Z) (th : thr) : Prop := NoDup (tid <$> tb) ∧ th ∈ tb ∧ tid th = t.

Lemma emit_tid m t c d : tid (tree_emit m t c d).1 = tid t ∧ Forall (λ e, e_tid e = tid t) (tree_emit m t c d).2.
Proof. unfold tree_emit. destruct (asmspy_tree_filter_call _ _ _ _ _) as [fd [eff|]]; repeat split; by repeat constructor. Qed.
Lemma arrive_tid m t g : tid (arrive m t g).1 = tid t ∧ Forall (λ e, e_tid e = tid t) (arrive m t g).2.
Proof.
  unfold arrive. set (t1 := if (_ <? _)%nat then _ else _). assert (tid t1 = tid t) as E by (unfold t1; by case_match).
  destruct (pending t1) as [p|]; [|done]. destruct (call_pend_at_callee p g); [|done].
  match goal with |- context [tree_emit m t1 ?c ?d] => pose proof (emit_tid m t1 c d) as H end.
  destruct (tree_emit _ _ _ _) as [t2 o]. cbn [fst snd] in *. by rewrite E in H.
Qed.
Lemma depart_tid m t g : tid (depart m t g).1 = tid t ∧ Forall (λ e, e_tid e = tid t) (depart m t g).2.
Proof.
  unfold depart. destruct (is_call g); [|done].
  set (t1 := if ilen g =? 0 then _ else _). assert (tid t1 = tid t) as E by (unfold t1, frm_push; by repeat case_match).
  destruct (target g) as [c|]; [|by destruct (ilen g =? 0)].
  match goal with |- context [tree_emit m t1 ?c ?d] => pose proof (emit_tid m t1 c d) as H end. by rewrite E in H.
Qed.
Lemma on_trap_tid m t g : tid (on_trap m t g).1 = tid t ∧ Forall (λ e, e_tid e = tid t) (on_trap m t g).2.
Proof.
  unfold on_trap. pose proof (arrive_tid m t g) as [H1 H2]. destruct (arrive m t g) as [t1 o1].
  pose proof (depart_tid m t1 g) as [H3 H4]. destruct (depart m t1 g) as [t2 o2]. cbn [fst snd] in *.
  rewrite H1 in *. split; [congruence|by apply Forall_app].
Qed.

Lemma find_Some tb t i : thr_find tb t = Some i → ∃ e, tb !! i = Some e ∧ tid e = t.
Proof.
  unfold thr_find. destruct (list_find _ tb) as [[j e]|] eqn:E; [|done]. intros [= <-].
  apply list_find_Some in E as (E1 & E2 & _). eauto.
Qed.
Lemma holds_unique tb t th i e : holds tb t th → tb !! i = Some e → tid e = t → e = th.
Proof.
  intros (Hn & Hin & Ht) Hi He. apply list_elem_of_lookup in Hin as [j Hj].
  assert (i = j) as ->; [|congruence]. eapply (NoDup_lookup _ _ _ t Hn); rewrite list_lookup_fmap; [rewrite Hi|rewrite Hj]; simpl; congruence.
Qed.
Lemma find_holds tb t th : holds tb t th → ∃ i, thr_find tb t = Some i ∧ tb !! i = Some th.
Proof.
  intros H. pose proof H as (_ & Hin & Ht). destruct (thr_find tb t) as [i|] eqn:E.
  - exists i. destruct (find_Some _ _ _ E) as (e & He & Hte). by rewrite <-(holds_unique tb t th i e H He Hte).
  - exfalso. unfold thr_find in E. destruct (list_find (λ e, tid e = t) tb) as [[]|] eqn:Ef; [done|].
    apply list_find_None in Ef. rewrite Forall_forall in Ef. by apply (Ef th).
Qed.
Lemma get_index room tb t tb' i : thr_get room tb t = (tb', Some i) → ∃ e, tb' !! i = Some e ∧ tid e = t.
Proof.
  unfold thr_get. destruct (thr_find tb t) as [j|] eqn:E; intros; simplify_eq; [by apply find_Some|].
  destruct room; simplify_eq. exists (fresh t). split; [|done]. by rewrite lookup_app_r, Nat.sub_diag by lia.
Qed.
Lemma get_holds room tb t t' th : holds tb t th → holds (thr_get room tb t').1 t th.
Proof.
  intros H. unfold thr_get. destruct (thr_find tb t') as [j|] eqn:E; [done|]. destruct room; [|done].
  destruct H as (Hn & Hin & Ht). unfold thr_find in E. destruct (list_find (λ e, tid e = t') tb) as [[]|] eqn:Ef; [done|].
  apply list_find_None in Ef. rewrite Forall_forall in Ef. split_and!; [|set_solver|done]. simpl. rewrite fmap_app.
  apply NoDup_app. split_and!; [done| |apply NoDup_singleton]. intros x (y & -> & Hy)%list_elem_of_fmap Hx.
  apply list_elem_of_singleton in Hx. by apply (Ef y).
Qed.
Lemma tids_insert (tb : list thr) (i : nat) e e' : tb !! i = Some e → tid e' = tid e → tid <$> <[i := e']> tb = tid <$> tb.
Proof.
  intros Hi Ht. rewrite list_fmap_insert, Ht. apply list_insert_id. by rewrite list_lookup_fmap, Hi.
Qed.
Lemma insert_holds tb t th i e e' :
  holds tb t th → tb !! i = Some e → tid e' = tid e → tid e ≠ t → holds (<[i := e']> tb) t th.
Proof.
  intros H Hi He Hne. destruct (find_holds tb t th H) as (j & _ & Hj). destruct H as (Hn & Hin & Ht).
  split_and!; [by rewrite (tids_insert _ _ _ _ Hi He)| |done]. apply list_elem_of_lookup. exists j.
  rewrite list_lookup_insert_ne; [done|]. intros ->. congruence.
Qed.
Lemma set_holds tb t th i th' : holds tb t th → tb !! i = Some th → tid th' = t → holds (<[i := th']> tb) t th'.
Proof.
  intros (Hn & Hin & Ht) Hi Ht'. split_and!; [rewrite (tids_insert _ _ _ _ Hi); congruence| |done].
  apply list_elem_of_lookup. exists i. apply list_lookup_insert_eq. by eapply lookup_lt_Some.
Qed.

Lemma alter_holds tb t th i f :
  holds tb t th → (∀ e, tid (f e) = tid e) → (∀ e, tb !! i = Some e → tid e ≠ t) → holds (alter f i tb) t th.
Proof.
  intros H Hf Hne. destruct (tb !! i) as [e|] eqn:E.
  - assert (alter f i tb = <[i := f e]> tb) as ->; [|by eapply insert_holds; eauto].
    rewrite list_insert_alter. apply list_alter_ext; [|done]. intros x Hx. congruence.
  - assert (alter f i tb = tb) as ->; [|done]. apply list_eq. intros j. rewrite list_lookup_alter. case_decide; subst; [by rewrite E|done].
Qed.
Lemma del_holds tb t th t' : t' ≠ t → holds tb t th → holds (thr_del tb t') t th.
Proof.
  intros Hne H. unfold thr_del. destruct (thr_find tb t') as [i|] eqn:E; [|done]. destruct (last tb) as [l|] eqn:El; [|done].
  destruct (find_Some _ _ _ E) as (e & He & Hte).
  assert (take (length tb - 1) (<[i:=l]> tb) ++ [e] ≡ₚ tb) as Hp.
  { destruct tb as [|l' tb _] using rev_ind; [done|]. rewrite last_snoc in El. injection El as ->.
    rewrite length_app. simpl. rewrite Nat.add_sub. destruct (decide (i < length tb)%nat) as [Hlt|Hge].
    - rewrite insert_app_l, take_app_length' by (rewrite ?length_insert; done). rewrite lookup_app_l in He by done.
      rewrite insert_take_drop by done. rewrite <-(take_drop_middle _ _ _ He) at 3. solve_Permutation.
    - assert (i = length tb) as -> by (apply lookup_lt_Some in He; rewrite length_app in He; simpl in He; lia).
      rewrite lookup_app_r, Nat.sub_diag in He by lia. injection He as ->.
      by rewrite insert_app_r_alt, take_app_length by lia. }
  destruct H as (Hn & Hin & Ht). rewrite <-Hp in Hn, Hin. rewrite fmap_app in Hn. apply NoDup_app in Hn as (Hn & _).
  split_and!; [done| |done]. apply elem_of_app in Hin as [?|Hin%list_elem_of_singleton]; [done|]. subst. done.
Qed.

(** The events in which thread [t] only runs: the others do as they please. *)
Definition runs (t : Z) (ev : event) : Prop :=
  match ev with
  | Trapped t' _ named _ => t' = t → named = true
  | Forked _ child _ _ => child ≠ t
  | Execed t' _ | Exited t' => t' ≠ t
  | Cloned _ _ _ | Other _ _ => True
  end.
Definition stops_of (t : Z) (evs : list event) : list stop :=
  omap (λ ev, match ev with Trapped t' _ _ g => if t' =? t then Some g else None | _ => None end) evs.
Definition of_thread (t : Z) (es : list entry) : list entry := base.filter (λ e, e_tid e = t) es.

Lemma of_thread_all t es : Forall (λ e, e_tid e = t) es → of_thread t es = es.
Proof. induction 1 as [|e es He _ IH]; [done|]. unfold of_thread. rewrite filter_cons_True by done. f_equal. exact IH. Qed.
Lemma of_thread_none t t' es : t' ≠ t → Forall (λ e, e_tid e = t') es → of_thread t es = [].
Proof. intros Hne. induction 1 as [|e es He _ IH]; [done|]. unfold of_thread. rewrite filter_cons_False by congruence. exact IH. Qed.

Lemma trapped_projects st t t' room named g th :
  holds (tab st) t th → (t' = t → named = true) →
  let '(st', out) := on_event st (Trapped t' room named g) in
  if t' =? t then holds (tab st') t (on_trap (multi st) th g).1 ∧ of_thread t out = (on_trap (multi st) th g).2
  else holds (tab st') t th ∧ of_thread t out = [].
Proof.
  intros H Hn. cbn [on_event]. pose proof (get_holds room _ _ t' _ H) as H1.
  destruct (thr_get room (tab st) t') as [tb oi] eqn:Eg. cbn [fst] in H1. destruct (Z.eqb_spec t' t) as [->|Hne].
  - rewrite Hn by done. destruct (find_holds _ _ _ H) as (i & Ei & Hi). unfold thr_get in Eg. rewrite Ei in Eg.
    injection Eg as <- <-. rewrite Hi. pose proof (on_trap_tid (multi st) th g) as [Ht Hf].
    destruct (on_trap (multi st) th g) as [th' out]. cbn [fst snd tab] in *. destruct H as (Hnd & Hin & Hth). subst t. split.
    + eapply set_holds; [|exact Hi|done]. by split_and!.
    + by apply of_thread_all.
  - destruct (if named then oi else None) as [i|] eqn:Ei; [|done].
    assert (oi = Some i) as -> by (destruct named; congruence).
    destruct (get_index _ _ _ _ _ Eg) as (e & He & Hte). rewrite He.
    pose proof (on_trap_tid (multi st) e g) as [Ht Hf]. destruct (on_trap (multi st) e g) as [e' out]. cbn [fst snd tab] in *.
    split; [eapply insert_holds; [done|exact He|done|congruence]|]. rewrite Hte in Hf. by eapply of_thread_none.
Qed.
Lemma other_projects st t ev th :
  holds (tab st) t th → runs t ev → match ev with Trapped _ _ _ _ => False | _ => True end →
  holds (tab (on_event st ev).1) t th ∧ (on_event st ev).2 = [].
Proof.
  intros H Hr Hev. destruct ev as [|p child room|p child room copied|t' room|t'|t' room]; [done|..]; cbn [on_event runs] in *.
  - split; [by apply get_holds|done].
  - pose proof (get_holds room _ _ child _ H) as H1. destruct (thr_get room (tab st) child) as [tb [i|]] eqn:E; [|done]. split; [|done].
    cbn [fst tab] in *. unfold inherit. case_match; [|done]. case_match; [|done]. apply alter_holds; [done|done|].
    intros e He. destruct (get_index _ _ _ _ _ E) as (e' & He' & Hte). congruence.
  - pose proof (get_holds room _ _ t' _ H) as H1. destruct (thr_get room (tab st) t') as [tb [i|]] eqn:E; [|done]. split; [|done].
    cbn [fst tab] in *. apply alter_holds; [done|done|]. intros e He. destruct (get_index _ _ _ _ _ E) as (e' & He' & Hte). congruence.
  - split; [by apply del_holds|done].
  - split; [by apply get_holds|done].
Qed.

Lemma loop_projects st t th evs k :
  holds (tab st) t th → Forall (runs t) evs →
  ∃ ms, length ms = length (stops_of t evs) ∧
    of_thread t (tree_loop (-1) k st evs).2 = (traps th (zip ms (stops_of t evs))).2.
Proof.
  intros H Hr. revert st th k H. induction Hr as [|ev evs Hev _ IH]; intros st th k H; [by exists []|].
  assert (∀ st' out, on_event st ev = (st', out) → ∀ th', holds (tab st') t th' →
    of_thread t (tree_loop (-1) k st (ev :: evs)).2 =
    of_thread t out ++ of_thread t (tree_loop (-1) (k + Z.of_nat (length out)) st' evs).2) as Hstep.
  { intros st' out E th' (_ & Hin & _). cbn [tree_loop]. cbn [Z.ltb Z.compare orb]. rewrite E.
    destruct (tab st') as [|e tb]; [set_solver|]. destruct (tree_loop _ _ _ _) as [st2 o2].
    unfold of_thread. destruct ev; by rewrite <-filter_app. }
  destruct (on_event st ev) as [st' out] eqn:E. destruct ev as [t' room named g|p child room|p child room copied|t' room|t'|t' room];
    [|by pose proof (other_projects st t _ th H Hev I) as [H1 H2]; rewrite E in H1, H2; cbn [fst snd] in H1, H2; subst out;
      rewrite (Hstep st' [] eq_refl th H1); apply (IH st' th _ H1)..].
  pose proof (trapped_projects st t t' room named g th H Hev) as Hp. rewrite E in Hp. unfold stops_of. cbn [omap list_omap].
  destruct (Z.eqb_spec t' t) as [->|Hne].
  - destruct Hp as [H1 H2]. rewrite (Hstep st' out eq_refl _ H1), H2.
    destruct (IH st' _ (k + Z.of_nat (length out)) H1) as (ms & Hl & E2). exists (multi st :: ms). split; [simpl; f_equal; exact Hl|].
    rewrite E2. cbn [zip zip_with traps]. destruct (on_trap (multi st) th g) as [th' o1]. cbn [fst snd].
    by destruct (traps _ _).
  - destruct Hp as [H1 H2]. rewrite (Hstep st' out eq_refl _ H1), H2. apply (IH st' th _ H1).
Qed.

(** C30: the call tree is the calls made.  Take a thread that is known and fresh (not a
    forked child with a copied stack, [fork_drops_focus]), that does not exec or exit,
    whose process has a symbol table, whose calls all retire before the next signal
    ([signal_doubles_direct_call] otherwise), whose live calls never exceed
    ASMSPY_STK_MAX (4096), and whose last stop is not at a call; and let memory be
    granted.  Whatever the other threads do in between - run, start threads, fork,
    replace their image, exit - the lines shown for it are, in order, those of the
    calls it made: each call that retired, direct or not, at its true depth even after
    returns and longjmps skipped frames, kept exactly when a function in focus is on
    the stack below it (or it is one itself) and the depth and module limits allow it,
    and indented from the outermost function in focus. *)
Theorem tree_exact st evs t g0 r cs
    (Hmem : ∀ n, grant n = true) (Hfresh : holds (tab st) t (fresh t)) (Hruns : Forall (runs t) evs)
    (Hstops : stops_of t evs = g0 :: (snd <$> r)) (Hreal : real_run [] g0 r = Some cs)
    (Hsig : Forall (λ hs, hs.1 ≠ Interrupted) r) (Hdeep : Z.of_nat (deepest [] g0 r) <= ASMSPY_STK_MAX)
    (Hlast : is_call (last_stop g0 r) = false) :
  shape <$> of_thread t (tree_loop (-1) 0 st evs).2 = mjoin (lines_of <$> cs).
Proof.
  destruct (loop_projects st t (fresh t) evs 0 Hfresh Hruns) as (ms & Hl & ->). rewrite Hstops in *.
  destruct ms as [|m ms]; [done|]. cbn [zip zip_with]. rewrite traps_overs.
  assert (arrive m (fresh t) g0 = (fresh t, [])) as -> by done.
  pose proof (overs_exact m (fresh t) [] g0 r ms cs Hmem) as H.
  unfold zip in H. destruct (overs m (fresh t) g0 _) as [t' out]. apply H; [|done|simpl in Hl; rewrite length_fmap in Hl; lia|done..].
  split; [done|done|]. cbn [fresh focus_depth fmap list_fmap]. unfold focus_of. by case_match.
Qed.
End engine.

(** Two threads: thread 1 calls [alpha] directly and [beta] through a register,
    jumps out of both at once and calls [beta] again; thread 2 starts a third one and
    exits in between. Only what happens under [alpha] is asked for. *)
Definition demo_names (c : Z) : option (string * string) :=
  if c =? 0x2000 then Some ("alpha", "app") else if c =? 0x3000 then Some ("beta", "libc") else None.
Definition demo_filter : option tree_filter := Some (mk_filter 0 (Some "alph") None).
Definition demo_start : stop := mk_stop 0x1000 0x8000 None 5 true (Some 0x2000).
Definition demo_steps : list (how * stop) :=
  [(Called, mk_stop 0x2000 0x7ff8 (Some 0x1005) 1 false None);
   (Moved 0, mk_stop 0x2001 0x7ff0 None 2 true None);
   (Called, mk_stop 0x3000 0x7fe8 (Some 0x2003) 3 false None);
   (Moved 2, mk_stop 0x1100 0x8000 None 2 true None);
   (Called, mk_stop 0x3000 0x7ff8 (Some 0x1102) 3 false None)].
Definition demo_events : list event :=
  let own := (λ g, Trapped 1 true true g) <$> (demo_start :: (snd <$> demo_steps)) in
  take 2 own ++ [Cloned 2 3 true; Trapped 2 true true demo_start] ++ take 2 (drop 2 own) ++ [Exited 2; Trapped 3 true true demo_start] ++
  drop 4 own.
Definition demo_engine : engine := mk_engine [fresh 2; fresh 1] true.

Lemma tree_exact_witness :
  shape <$> of_thread 1 (tree_loop always demo_names demo_filter (-1) 0 demo_engine demo_events).2 =
    [(0, 0x2000, "alpha", "app"); (1, 0x3000, "beta", "libc")].
Proof.
  rewrite (tree_exact always demo_names demo_filter demo_engine demo_events 1 demo_start demo_steps
    [([], 0x2000); ([0x2000], 0x3000); ([], 0x3000)]); [reflexivity|..].
  - done.
  - split_and!; [apply (bool_decide_unpack _); vm_compute; exact I|set_solver|done].
  - repeat constructor; simpl; congruence.
  - reflexivity.
  - vm_compute. reflexivity.
  - repeat constructor; simpl; congruence.
  - vm_compute. congruence.
  - reflexivity.
Defined.

(** A signal doubles a direct call. When a signal arrives after the trap at
    a direct call and before the call retires, the handler runs and the call is
    trapped again; the line was already out, and comes out a second time, although
    the call was made once. *)
Theorem signal_doubles_direct_call :
  let at_call := mk_stop 0x1000 0x8000 None 5 true (Some 0x2000) in
  let r := [(Interrupted, mk_stop 0x5000 0x7c00 (Some 0x6000) 3 false None);
            (Moved 0, at_call); (Called, mk_stop 0x2000 0x7ff8 (Some 0x1005) 1 false None)] in
  let evs := (λ g, Trapped 1 true true g) <$> (at_call :: (snd <$> r)) in
  real_run [] at_call r = Some [([], 0x2000)] ∧
  shape <$> (tree_loop always demo_names None (-1) 0 (mk_engine [fresh 1] false) evs).2 =
    [(0, 0x2000, "alpha", "app"); (0, 0x2000, "alpha", "app")].
Proof. split; vm_compute; reflexivity. Qed.

(** A fork drops the focus. A child forked inside a function in focus gets
    the stack of its parent but not the focus, so its calls, which are made under
    that function, are not shown. *)
Theorem fork_drops_focus :
  let at_call := mk_stop 0x1000 0x8000 None 5 true (Some 0x2000) in
  let inside := mk_stop 0x2001 0x7ff0 None 5 true (Some 0x3000) in
  let evs := [Trapped 1 true true at_call; Trapped 1 true true (mk_stop 0x2000 0x7ff8 (Some 0x1005) 1 false None);
              Forked 1 7 true true; Trapped 7 true true inside] in
  shown demo_filter (shown_name demo_names) (shown_module demo_names) [0x2000] 0x3000 = Some 1 ∧
  of_thread 7 (tree_loop always demo_names demo_filter (-1) 0 (mk_engine [fresh 1] false) evs).2 = [] ∧
  (stk <$> (tab (tree_loop always demo_names demo_filter (-1) 0 (mk_engine [fresh 1] false) (take 3 evs)).1)) =
    [[mk_frame 0x1005 0x7ff8]; [mk_frame 0x1005 0x7ff8]].
Proof. split_and!; vm_compute; reflexivity. Qed.
End CallTree.
