(* ===== verification/AutoRegion.v ===== *)
(** Choosing a region to trace from samples ([cli/asmspy_autoregion.h]): ranking of
    entry edges and of sampled addresses, the walk over the candidates, the order
    of the samplers. *)
From S2P Require Import Prelude TreeFilter.
Import TreeFilter.
Open Scope string_scope.
Open Scope Z_scope.
Open Scope list_scope.

Module AutoRegion.

(** ** Data *)
(** [asmspy_sample_edge_t], without the texts it shows. *)
Record sample_edge := mk_sedge { from_addr : Z; to_addr : Z; scount : Z; is_return : Z }.
(** [asmspy_ip_hit_t] *)
Record ip_hit := mk_hit { ip : Z; hcount : Z }.
(** What the resolver answers: start, size, name and module of the symbol. *)
Record symbol := mk_symbol { start : Z; ssize : Z; sname : option string; smodule : option string }.
(** [asmspy_autocand_t]; [first_us] is left as it was and has no place here. *)
Record autocand := mk_cand {
  addr : Z; csize : Z; cname : option string; cmodule : option string; arrivals : Z; sites : Z }.
#[export] Instance autocand_eq_dec : EqDecision autocand.
Proof. solve_decision. Defined.

Definition asmspy_ar_match (hay needle : option string) : bool :=
  match given needle with
  | None => true
  | Some n => match hay with Some h => strstr h n | None => false end
  end.

Section rank.
Context (resolve : Z → option symbol) (module_filter : option string).

(** ** Folding into the table *)
(** The entry for a symbol, or a new one while there is room. *)
Fixpoint fold_into (room : nat) (out : list autocand) (s : symbol) (count : Z) : list autocand :=
  match out with
  | [] =>
      match room with
      | O => []
      | S _ => [mk_cand (start s) (ssize s) (sname s) (smodule s) count 1]
      end
  | c :: out =>
      if addr c =? start s
      then mk_cand (addr c) (csize c) (cname c) (cmodule c) (arrivals c +64 count) (u32 (sites c + 1)) :: out
      else c :: fold_into (pred room) out s count
  end.

(** The symbol an edge arrives at. *)
Definition entered (e : sample_edge) : option symbol :=
  if negb (is_return e =? 0) then None
  else s ← resolve (to_addr e);
       if negb (to_addr e =? start s) then None
       else if ssize s =? 0 then None
       else if negb (asmspy_ar_match (smodule s) module_filter) then None
       else Some s.
(** The symbol an address lies in. *)
Definition resident (h : ip_hit) : option symbol :=
  s ← resolve (ip h);
  if ssize s =? 0 then None
  else if (ip h <? start s) || (start s +64 ssize s <=? ip h) then None
  else if negb (asmspy_ar_match (smodule s) module_filter) then None
  else Some s.

(** ** The insertion sort *)
(** [c] must move in front of [key]'s place. *)
Definition yields (c key : autocand) : bool :=
  (arrivals c <? arrivals key) || ((arrivals c =? arrivals key) && (addr key <? addr c)).
(** The entries before [key], the nearest first. *)
Fixpoint shift (key : autocand) (before : list autocand) : list autocand :=
  match before with
  | [] => [key]
  | c :: before => if yields c key then c :: shift key before else key :: c :: before
  end.
Definition insertion_sort (out : list autocand) : list autocand :=
  reverse (foldl (λ before key, shift key before) [] out).

Definition ranked (cap : nat) (hits : list (symbol * Z)) : list autocand :=
  insertion_sort (foldl (λ out h, fold_into cap out h.1 h.2) [] hits).
Definition asmspy_autoregion_rank (edges : list sample_edge) (out_cap : nat) : list autocand :=
  ranked out_cap (omap (λ e, s ← entered e; Some (s, scount e)) edges).
Definition asmspy_autoregion_rank_ip (hits : list ip_hit) (out_cap : nat) : list autocand :=
  ranked out_cap (omap (λ h, s ← resident h; Some (s, hcount h)) hits).

(** ** One edge *)
Definition asmspy_edge_drill (e : sample_edge) : option symbol :=
  let sized a := s ← resolve a; if ssize s =? 0 then None else Some s in
  match sized (to_addr e) with Some s => Some s | None => sized (from_addr e) end.
End rank.

(** ** The walk and the chain *)
Inductive walk_action := ASMSPY_WALK_STOP | ASMSPY_WALK_ADVANCE | ASMSPY_WALK_EXHAUSTED.
Definition asmspy_autoregion_walk (not_seen_entering : bool) (attempt ncand : Z) : walk_action :=
  if negb not_seen_entering then ASMSPY_WALK_STOP
  else if attempt + 1 <? ncand then ASMSPY_WALK_ADVANCE
  else ASMSPY_WALK_EXHAUSTED.
Inductive sampler := ASMSPY_SMP_IBS | ASMSPY_SMP_SW | ASMSPY_SMP_PTRACE | ASMSPY_SMP_NONE.
Definition asmspy_autoregion_sampler_next (tried : sampler) (ibs_substrate : bool) : sampler :=
  match tried with
  | ASMSPY_SMP_NONE => if ibs_substrate then ASMSPY_SMP_IBS else ASMSPY_SMP_SW
  | ASMSPY_SMP_IBS => ASMSPY_SMP_SW
  | ASMSPY_SMP_SW => ASMSPY_SMP_PTRACE
  | ASMSPY_SMP_PTRACE => ASMSPY_SMP_NONE
  end.
Definition asmspy_autoregion_chain_advance (ncand : Z) (chain_auto : bool) : bool := chain_auto && (ncand <? 0).

(** ** What a ranking is *)
(** Better first: more arrivals, then the lower address. *)
Definition ahead (c d : autocand) : Prop :=
  arrivals d < arrivals c ∨ (arrivals c = arrivals d ∧ addr c < addr d).
#[export] Instance ahead_trans : Transitive ahead.
Proof. unfold ahead. intros x y z. lia. Qed.

(** The samples of one symbol, and the candidate they make. *)
Definition samples (hits : list (symbol * Z)) (a : Z) : list (symbol * Z) := filter (λ h, start h.1 = a) hits.
Definition starts (hits : list (symbol * Z)) : list Z := (λ h, start h.1) <$> hits.
Definition total (h : list (symbol * Z)) : Z := foldr (λ x acc, x.2 + acc) 0 h.
Definition candidate (hits : list (symbol * Z)) (a : Z) : autocand :=
  let h := samples hits a in
  let s := from_option fst (mk_symbol a 0 None None) (head h) in
  mk_cand a (ssize s) (sname s) (smodule s) (u64 (total h)) (u32 (Z.of_nat (length h))).

(** ** The table *)
Definition bump (c : autocand) (count : Z) : autocand :=
  mk_cand (addr c) (csize c) (cname c) (cmodule c) (arrivals c +64 count) (u32 (sites c + 1)).
Lemma fold_into_spec (g : Z → autocand) room F s n :
  (∀ a, addr (g a) = a) → NoDup F →
  fold_into room (g <$> F) s n =
    if bool_decide (start s ∈ F) then (λ a, if a =? start s then bump (g a) n else g a) <$> F
    else if (length F <? room)%nat then (g <$> F) ++ [mk_cand (start s) (ssize s) (sname s) (smodule s) n 1]
    else g <$> F.
Proof.
  intros Hg. revert room. induction F as [|a F IH]; intros room Hn.
  - rewrite bool_decide_false by set_solver. by destruct room.
  - apply NoDup_cons in Hn as [Ha Hn]. cbn [fmap list_fmap fold_into]. rewrite Hg.
    destruct (Z.eqb_spec a (start s)) as [->|Hne].
    + rewrite bool_decide_true by set_solver. f_equal; [unfold bump; by rewrite Hg|].
      apply list_fmap_ext. intros j x Hx. rewrite (proj2 (Z.eqb_neq _ _)); [done|]. intros ->.
      apply Ha. by eapply list_elem_of_lookup_2.
    + rewrite IH by done. destruct (decide (start s ∈ F)) as [Hin|Hin].
      * rewrite !bool_decide_true by set_solver. done.
      * rewrite !bool_decide_false by set_solver. cbn [length].
        destruct (Nat.ltb_spec (length F) (pred room)); destruct (Nat.ltb_spec (S (length F)) room); try lia; done.
Qed.

Lemma samples_snoc hits h a :
  samples (hits ++ [h]) a = if start h.1 =? a then samples hits a ++ [h] else samples hits a.
Proof.
  unfold samples. rewrite filter_app, filter_cons, filter_nil. destruct (Z.eqb_spec (start h.1) a).
  - by rewrite decide_True.
  - by rewrite decide_False, app_nil_r.
Qed.
Lemma samples_nil hits a : a ∉ starts hits → samples hits a = [].
Proof.
  intros H. induction hits as [|h hits IH]; [done|]. unfold samples, starts in *. rewrite filter_cons, fmap_cons in *.
  rewrite decide_False by set_solver. apply IH. set_solver.
Qed.
Lemma total_snoc l h : total (l ++ [h]) = total l + h.2.
Proof. induction l as [|x l IH]; simpl; [lia|rewrite IH; lia]. Qed.
Lemma total_perm l l' : l ≡ₚ l' → total l = total l'.
Proof. induction 1; simpl; lia. Qed.

Lemma candidate_bump hits h :
  start h.1 ∈ starts hits → candidate (hits ++ [h]) (start h.1) = bump (candidate hits (start h.1)) h.2.
Proof.
  intros Hin. unfold candidate, bump. rewrite samples_snoc, Z.eqb_refl. cbn [addr csize cname cmodule arrivals sites].
  assert (samples hits (start h.1) ≠ []) as Hne.
  { apply list_elem_of_fmap in Hin as (x & E & Hx). intros En. assert (x ∈ samples hits (start h.1)) as Hx'; [|rewrite En in Hx'; set_solver].
    apply list_elem_of_filter. done. }
  destruct (samples hits (start h.1)) as [|x l]; [done|]. rewrite <-app_comm_cons. cbn [head from_option].
  f_equal; unfold u64, u32; rewrite ?app_comm_cons, ?total_snoc, ?length_app, ?Zplus_mod_idemp_l; [done|].
  cbn [length]. by rewrite Nat.add_1_r, Nat2Z.inj_succ.
Qed.
Lemma candidate_new hits h :
  start h.1 ∉ starts hits → is_u64 h.2 →
  candidate (hits ++ [h]) (start h.1) = mk_cand (start h.1) (ssize h.1) (sname h.1) (smodule h.1) h.2 1.
Proof.
  intros Hn Hu. unfold candidate. rewrite samples_snoc, Z.eqb_refl, samples_nil by done. cbn. f_equal.
  rewrite Z.add_0_r. by apply Z.mod_small.
Qed.
Lemma candidate_other hits h a : a ≠ start h.1 → candidate (hits ++ [h]) a = candidate hits a.
Proof. intros Hn. unfold candidate. by rewrite samples_snoc, (proj2 (Z.eqb_neq _ _)). Qed.

Definition firsts (cap : nat) (hits : list (symbol * Z)) : list Z := take cap (distinct (starts hits)).
Lemma table_spec cap hits :
  Forall (λ h, is_u64 h.2) hits →
  foldl (λ out h, fold_into cap out h.1 h.2) [] hits = candidate hits <$> firsts cap hits.
Proof.
  induction hits as [|h hits IH] using rev_ind; intros Hu; [by destruct cap|].
  apply Forall_app in Hu as [Hu Hh]. apply Forall_cons in Hh as [Hh _]. rewrite foldl_app, IH by done. cbn [foldl].
  assert (NoDup (firsts cap hits)) as Hnd.
  { pose proof (NoDup_distinct (starts hits)) as H. rewrite <-(take_drop cap (distinct (starts hits))) in H. by apply NoDup_app in H as [H _]. }
  rewrite fold_into_spec by done.
  assert (firsts cap (hits ++ [h]) = take cap (snoc_new (distinct (starts hits)) (start h.1))) as ->.
  { unfold firsts, starts. rewrite fmap_app. change ((λ h0, start h0.1) <$> [h]) with [start h.1]. by rewrite distinct_snoc. }
  unfold snoc_new. assert (∀ F : list Z, start h.1 ∉ F → candidate (hits ++ [h]) <$> F = candidate hits <$> F) as Hkeep.
  { intros F HF. apply list_fmap_ext. intros j x Hx. apply candidate_other. intros ->. apply HF. by eapply list_elem_of_lookup_2. }
  destruct (decide (start h.1 ∈ firsts cap hits)) as [Hin|Hin].
  - assert (start h.1 ∈ distinct (starts hits)) as Hd by (by eapply subseteq_take).
    rewrite !bool_decide_true by done. fold (firsts cap hits). apply list_fmap_ext. intros j x Hx.
    destruct (Z.eqb_spec x (start h.1)) as [->|]; [|by rewrite candidate_other].
    symmetry. apply candidate_bump. by apply elem_of_distinct.
  - rewrite (bool_decide_false (start h.1 ∈ firsts cap hits)) by done. unfold firsts in *.
    destruct (decide (start h.1 ∈ distinct (starts hits))) as [Hd|Hd].
    + rewrite bool_decide_true by done. rewrite Hkeep by done. rewrite (proj2 (Nat.ltb_ge _ _)); [done|].
      rewrite length_take. destruct (Nat.le_gt_cases (length (distinct (starts hits))) cap); [|lia].
      rewrite take_ge in Hin by lia. done.
    + rewrite bool_decide_false by done. rewrite length_take.
      destruct (Nat.ltb_spec (cap `min` length (distinct (starts hits))) cap).
      * rewrite !take_ge by (rewrite ?length_app; simpl; lia). rewrite fmap_app, Hkeep by done. f_equal.
        change (candidate (hits ++ [h]) <$> [start h.1]) with [candidate (hits ++ [h]) (start h.1)].
        rewrite candidate_new; [done| |done]. by rewrite <-elem_of_distinct.
      * rewrite take_app_le by lia. by rewrite Hkeep.
Qed.

(** ** The sort *)
Lemma shift_perm key bs : shift key bs ≡ₚ key :: bs.
Proof. induction bs as [|c bs IH]; [done|]. simpl. destruct (yields c key); [|done]. rewrite IH. constructor. Qed.
Lemma shift_sorted key bs :
  StronglySorted (flip ahead) bs → addr key ∉ addr <$> bs → StronglySorted (flip ahead) (shift key bs).
Proof.
  induction 1 as [|c bs Hs IH Hc]; intros Hn; simpl; [by repeat constructor|]. rewrite fmap_cons in Hn.
  destruct (yields c key) eqn:Ey; unfold yields in Ey.
  - constructor; [apply IH; set_solver|]. rewrite shift_perm. constructor; [|done]. unfold flip, ahead. lia.
  - assert (ahead c key) as Hk by (unfold ahead; set_solver by lia). constructor; [by constructor|]. constructor; [done|].
    eapply Forall_impl; [exact Hc|]. intros x Hx. unfold flip in *. by etrans.
Qed.
Lemma StronglySorted_reverse {A} (R : relation A) l : StronglySorted (flip R) l → StronglySorted R (reverse l).
Proof.
  induction 1 as [|x l _ IH Hx]; [constructor|]. rewrite reverse_cons. apply StronglySorted_app_2; [|done|by repeat constructor].
  intros y z Hy Hz. apply list_elem_of_singleton in Hz as ->. rewrite Forall_forall in Hx. apply (Hx y). by apply elem_of_reverse.
Qed.
Lemma insertion_sort_spec out :
  NoDup (addr <$> out) → StronglySorted ahead (insertion_sort out) ∧ insertion_sort out ≡ₚ out.
Proof.
  intros Hn. unfold insertion_sort.
  assert (StronglySorted (flip ahead) (foldl (λ before key, shift key before) [] out) ∧
    foldl (λ before key, shift key before) [] out ≡ₚ out) as [H1 H2].
  { induction out as [|c out IH] using rev_ind; [by repeat constructor|]. rewrite fmap_app in Hn.
    apply NoDup_app in Hn as (Hn & Hc & _). destruct (IH Hn) as [I1 I2]. rewrite foldl_app. cbn [foldl]. split.
    - apply shift_sorted; [done|]. rewrite I2. intros Hin. by apply (Hc _ Hin), list_elem_of_singleton.
    - rewrite shift_perm, I2. by rewrite Permutation_cons_append. }
  split; [by apply StronglySorted_reverse|by rewrite reverse_Permutation].
Qed.

Lemma ranked_spec cap hits :
  Forall (λ h, is_u64 h.2) hits →
  StronglySorted ahead (ranked cap hits) ∧ ranked cap hits ≡ₚ candidate hits <$> firsts cap hits.
Proof.
  intros Hu. unfold ranked. rewrite table_spec by done. apply insertion_sort_spec.
  rewrite <-list_fmap_compose. change (addr ∘ candidate hits) with (λ a : Z, a). rewrite list_fmap_id.
  pose proof (NoDup_distinct (starts hits)) as H. rewrite <-(take_drop cap (distinct (starts hits))) in H.
  by apply NoDup_app in H as [H _].
Qed.

(** ** Entry edges *)
Section entries.
Context (resolve : Z → option symbol) (module_filter : option string).
Abbreviation hits_of edges := (omap (λ e, s ← entered resolve module_filter e; Some (s, scount e)) edges).

(** The edges that arrive at the entry [a]. *)
Definition arrivals_at (edges : list sample_edge) (a : Z) : list sample_edge :=
  filter (λ e, entered resolve module_filter e ≠ None ∧ to_addr e = a) edges.
Definition entries (edges : list sample_edge) : list Z :=
  to_addr <$> filter (λ e, entered resolve module_filter e ≠ None) edges.
Definition edge_total (es : list sample_edge) : Z := foldr (λ e acc, scount e + acc) 0 es.

Lemma entered_Some e s : entered resolve module_filter e = Some s → resolve (to_addr e) = Some s ∧ start s = to_addr e ∧ ssize s ≠ 0.
Proof.
  unfold entered. destruct (negb (is_return e =? 0)); [done|]. destruct (resolve (to_addr e)) as [s'|]; [|done]. simpl.
  destruct (Z.eqb_spec (to_addr e) (start s')); [|done]. destruct (Z.eqb_spec (ssize s') 0); [done|].
  cbn [negb]. destruct (asmspy_ar_match _ _); [|done]. intros [= <-]. done.
Qed.
Lemma starts_entries edges : starts (hits_of edges) = entries edges.
Proof.
  unfold starts, entries. induction edges as [|e edges IH]; [done|]. cbn [omap list_omap]. rewrite filter_cons.
  destruct (entered resolve module_filter e) as [s|] eqn:E; cbn [mbind option_bind].
  - rewrite decide_True by done. rewrite !fmap_cons. f_equal; [apply entered_Some in E; simpl; tauto|exact IH].
  - rewrite decide_False by tauto. exact IH.
Qed.
Lemma samples_entries edges a s :
  resolve a = Some s → samples (hits_of edges) a = (λ e, (s, scount e)) <$> arrivals_at edges a.
Proof.
  intros Ha. unfold samples, arrivals_at. induction edges as [|e edges IH]; [done|]. cbn [omap list_omap]. rewrite (filter_cons _ e).
  destruct (entered resolve module_filter e) as [s'|] eqn:E; cbn [mbind option_bind].
  - apply entered_Some in E as (E1 & E2 & _). rewrite filter_cons. cbn [fst]. destruct (decide (to_addr e = a)) as [<-|Hne].
    + rewrite !decide_True by done. rewrite fmap_cons. f_equal; [congruence|exact IH].
    + rewrite !decide_False by (rewrite ?E2; tauto). exact IH.
  - rewrite decide_False by tauto. exact IH.
Qed.
Lemma total_edges (s : symbol) es : total ((λ e, (s, scount e)) <$> es) = edge_total es.
Proof. induction es as [|e es IH]; [done|]. rewrite fmap_cons. simpl. by rewrite <-IH. Qed.
Lemma candidate_entries edges a :
  a ∈ entries edges → ∃ s, resolve a = Some s ∧ start s = a ∧ ssize s ≠ 0 ∧
    candidate (hits_of edges) a = mk_cand a (ssize s) (sname s) (smodule s)
      (u64 (edge_total (arrivals_at edges a))) (u32 (Z.of_nat (length (arrivals_at edges a)))).
Proof.
  intros (e & -> & He)%list_elem_of_fmap. apply list_elem_of_filter in He as [Hne Hin].
  destruct (entered resolve module_filter e) as [s|] eqn:E; [|done]. pose proof (entered_Some _ _ E) as (E1 & E2 & E3).
  exists s. split_and!; [done..|]. unfold candidate. rewrite (samples_entries _ _ s) by done.
  assert (arrivals_at edges (to_addr e) ≠ []) as Hnil.
  { intros H0. assert (e ∈ arrivals_at edges (to_addr e)) as H; [|rewrite H0 in H; set_solver].
    apply list_elem_of_filter. split; [by rewrite E|done]. }
  rewrite length_fmap, total_edges. destruct (arrivals_at edges (to_addr e)) as [|x l]; done.
Qed.
#[local] Instance edge_total_proper : Proper ((≡ₚ) ==> (=)) edge_total.
Proof. induction 1; simpl; lia. Qed.
#[local] Instance distinct_proper : Proper ((≡ₚ) ==> (≡ₚ)) (distinct (A := Z)).
Proof.
  intros l l' H. apply NoDup_Permutation; [apply NoDup_distinct..|]. intros x. by rewrite !elem_of_distinct, H.
Qed.
Lemma counts_hits edges : Forall (λ e, is_u64 (scount e)) edges → Forall (λ h, is_u64 h.2) (hits_of edges).
Proof.
  induction 1 as [|e edges He _ IH]; [constructor|]. cbn [omap list_omap].
  destruct (entered resolve module_filter e); cbn [mbind option_bind]; [by constructor|done].
Qed.
Lemma firsts_all edges out_cap : (length edges <= out_cap)%nat → firsts out_cap (hits_of edges) = distinct (entries edges).
Proof.
  intros H. unfold firsts. rewrite starts_entries, take_ge; [done|]. pose proof (length_distinct (entries edges)).
  unfold entries in *. rewrite length_fmap in *. pose proof (length_filter (λ e, entered resolve module_filter e ≠ None) edges). lia.
Qed.
Lemma candidate_perm edges edges' a :
  edges' ≡ₚ edges → a ∈ entries edges → candidate (hits_of edges') a = candidate (hits_of edges) a.
Proof.
  intros Hp Ha. destruct (candidate_entries edges a Ha) as (s & E1 & _ & _ & ->).
  assert (a ∈ entries edges') as Ha' by (unfold entries; by rewrite Hp).
  destruct (candidate_entries edges' a Ha') as (s' & E1' & _ & _ & ->). simplify_eq.
  assert (arrivals_at edges' a ≡ₚ arrivals_at edges a) as Hq by (unfold arrivals_at; by rewrite Hp).
  by rewrite Hq.
Qed.

(** The ranking is a count of entries. The candidates are one for each
    function that was seen being entered - the target of an edge that is no return,
    is the start of a sized symbol and passes the filter -, the first [out_cap] of
    them; each with the sum of its samples and the number of its edges, the most
    entered first and the lower address on a tie. When the table has room for every
    edge, the order the sampler reported them in does not matter. *)
Theorem rank_exact edges out_cap (Hu : Forall (λ e, is_u64 (scount e)) edges) :
  let l := asmspy_autoregion_rank resolve module_filter edges out_cap in
  StronglySorted ahead l ∧ addr <$> l ≡ₚ take out_cap (distinct (entries edges)) ∧
  Forall (λ c, ∃ s, resolve (addr c) = Some s ∧ start s = addr c ∧ ssize s ≠ 0 ∧
    csize c = ssize s ∧ cname c = sname s ∧ cmodule c = smodule s ∧
    arrivals c = u64 (edge_total (arrivals_at edges (addr c))) ∧
    sites c = u32 (Z.of_nat (length (arrivals_at edges (addr c))))) l ∧
  ((length edges <= out_cap)%nat → ∀ edges', edges' ≡ₚ edges → asmspy_autoregion_rank resolve module_filter edges' out_cap = l).
Proof.
  intros l. pose proof (counts_hits edges Hu) as Hh. destruct (ranked_spec out_cap _ Hh) as [Hs Hp]. change (ranked out_cap (hits_of edges)) with l in Hs, Hp.
  split_and!.
  - done.
  - etrans; [apply (fmap_Permutation addr), Hp|]. rewrite <-list_fmap_compose. change (addr ∘ candidate (hits_of edges)) with (λ a : Z, a). rewrite list_fmap_id.
    unfold firsts. by rewrite starts_entries.
  - rewrite Hp. apply Forall_fmap, Forall_forall. intros a Ha.
    assert (a ∈ entries edges) as Hin.
    { rewrite <-elem_of_distinct, <-starts_entries. by eapply subseteq_take. }
    destruct (candidate_entries edges a Hin) as (s & E1 & E2 & E3 & E4). exists s. unfold compose. rewrite E4. done.
  - intros Hcap edges' Hperm. destruct (ranked_spec out_cap (hits_of edges')) as [Hs' Hp'].
    { apply counts_hits. by rewrite Hperm. }
    eapply StronglySorted_unique_strong; [|exact Hs'|exact Hs|].
    + unfold ahead. intros x y _ _ H1 H2. lia.
    + etrans; [exact Hp'|]. etrans; [|symmetry; exact Hp].
      rewrite !firsts_all by (by rewrite ?Hperm).
      assert (entries edges' ≡ₚ entries edges) as He by (unfold entries; by rewrite Hperm).
      rewrite He. erewrite list_fmap_ext; [done|]. intros j a Ha. apply candidate_perm; [done|].
      apply elem_of_distinct. by eapply list_elem_of_lookup_2.
Qed.
End entries.

(** Two functions, a return and a jump into the middle. *)
Definition demo_resolve (a : Z) : option symbol :=
  if (0x1000 <=? a) && (a <? 0x1100) then Some (mk_symbol 0x1000 0x100 (Some "hot") (Some "app"))
  else if (0x2000 <=? a) && (a <? 0x2040) then Some (mk_symbol 0x2000 0x40 (Some "warm") (Some "app"))
  else None.
Definition demo_edges : list sample_edge :=
  [mk_sedge 0x3000 0x2000 5 0; mk_sedge 0x3100 0x1000 4 0; mk_sedge 0x1010 0x1008 90 0; mk_sedge 0x1010 0x2004 70 1;
   mk_sedge 0x3200 0x1000 3 0].
Lemma rank_exact_witness :
  asmspy_autoregion_rank demo_resolve None (reverse demo_edges) 5 =
    [mk_cand 0x1000 0x100 (Some "hot") (Some "app") 7 2; mk_cand 0x2000 0x40 (Some "warm") (Some "app") 5 1].
Proof.
  destruct (rank_exact demo_resolve None demo_edges 5) as (_ & _ & _ & H).
  - repeat (apply Forall_cons; split; [vm_compute; split; congruence|]). apply Forall_nil_2.
  - rewrite H; [vm_compute; reflexivity|simpl; lia|apply reverse_Permutation].
Defined.

(** ** The walk and the chain end *)
(** Candidates are armed in rank order until one is entered; [attempts] counts them. *)
Fixpoint walk (fuel : nat) (seen : Z → bool) (attempt ncand : Z) : option (Z * walk_action) :=
  match fuel with
  | O => None
  | S fuel =>
      match asmspy_autoregion_walk (negb (seen attempt)) attempt ncand with
      | ASMSPY_WALK_ADVANCE => walk fuel seen (attempt + 1) ncand
      | a => Some (attempt, a)
      end
  end.
(** The first candidate entered is kept; when there is none, every one was tried. *)
Lemma walk_finds seen ncand attempt fuel :
  0 <= attempt < ncand → ncand - attempt <= Z.of_nat fuel →
  (∃ k, walk fuel seen attempt ncand = Some (k, ASMSPY_WALK_STOP) ∧ attempt <= k < ncand ∧ seen k = true ∧
        ∀ j, attempt <= j < k → seen j = false) ∨
  (walk fuel seen attempt ncand = Some (ncand - 1, ASMSPY_WALK_EXHAUSTED) ∧ ∀ j, attempt <= j < ncand → seen j = false).
Proof.
  revert attempt. induction fuel as [|fuel IH]; intros attempt Ha Hf; [lia|]. cbn [walk]. unfold asmspy_autoregion_walk.
  rewrite negb_involutive. destruct (seen attempt) eqn:Es.
  - left. exists attempt. split_and!; [done|lia|lia|done|lia].
  - destruct (Z.ltb_spec (attempt + 1) ncand) as [Hlt|Hge].
    + destruct (IH (attempt + 1)) as [(k & E & Hk & Hs & Hj)|(E & Hj)]; [lia..| |].
      * left. exists k. split_and!; [done|lia|lia|done|]. intros j Hj'. destruct (decide (j = attempt)); [by subst|apply Hj; lia].
      * right. split; [done|]. intros j Hj'. destruct (decide (j = attempt)); [by subst|apply Hj; lia].
    + right. split; [do 2 f_equal; lia|]. intros j Hj'. by replace j with attempt by lia.
Qed.
(** The samplers that are refused one after the other, without and with the
    hardware one, and that an empty window keeps the sampler. *)
Lemma sampler_chain_ends (ibs : bool) :
  Nat.iter (if ibs then 4 else 3)%nat (λ s, asmspy_autoregion_sampler_next s ibs) ASMSPY_SMP_NONE = ASMSPY_SMP_NONE ∧
  ∀ n auto, asmspy_autoregion_chain_advance n auto = true → auto = true ∧ n < 0.
Proof. split; [by destruct ibs|]. unfold asmspy_autoregion_chain_advance. intros n auto [? ?]%andb_true_iff. split; [done|lia]. Qed.
End AutoRegion.
